(* ===== verification/_CoqProject ===== *)
-Q . S2P
Prelude.v
Words.v
Ordered.v
Digest.v
Worklist.v
Text.v
LocalRoot.v
Planner.v
Terms.v
Bindings.v
Shuffle.v
GraceJoin.v
GraceExact.v
Algebra.v
PathCompiler.v
Path.v
Traversal.v
ExternalSort.v
MapStage.v
Dictionary.v
ReduceStage.v
RootBarrier.v
Compilation.v
Adjacency.v
Autoscaling.v
QueryCache.v
Dataset.v
ShuffleCache.v
Locator.v
Hydration.v
Identity.v
Admission.v
Auth.v
Runtime.v
ArtifactStore.v
StorageRecovery.v
Transfers.v
NativeScan.v
Gang.v
DirectTypes.v
DirectDigests.v
ExactReasoner.v
OnlineReasoning.v
ExactAlgebra.v
