(* ===== verification/Prelude.v ===== *)
(** * Verification of the c8 (NGKG) knowledge-graph data plane

    c8 compiles RDF quads into partitioned, checksummed artifacts and answers
    SPARQL over them on a cluster.  This library models the part of it that
    decides whether an answer is right: how quads become artifacts, how a
    request is limited to the graphs it may see, how joins and property paths
    are executed over partitions, and how results are cached.  Every
    definition is a translation of Rust code under src/; the theorems say what
    that code computes.

    ** The program and the files of the library

    - Compilation (src/crates/ngkg-semantic-compiler).  Map workers parse
      fragments into sorted runs of facts and terms ([MapStage]) with a
      bounded-memory external sort ([ExternalSort]).  A barrier over all maps
      numbers the distinct terms ([Dictionary]); reducers merge the runs of a
      partition and write its adjacency and index files ([ReduceStage]); the
      last barrier publishes the root ([RootBarrier]).  [Compilation] composes
      the stages.
    - Planning (src/crates/ngkg-query-planner, src/crates/ngkg-sparql-compiler,
      src/crates/ngkg-dataset).  [Dataset] resolves the graphs of a request,
      [Planner] validates algebra and path plans, schedules the waves of a
      plan and routes graphs, [PathCompiler] turns a property path into an
      automaton.
    - Execution (src/crates/ngkg-query-executor, src/crates/ngkg-grace-join,
      the coordinator loop of src/services/online-serving/src/main.rs).
      [Terms] parses SPARQL JSON terms, [Bindings] holds the join kernels,
      [Shuffle] the hash partitioning, [GraceJoin] and [GraceExact] the
      out-of-core join, [Algebra] the native operators and the stage barrier,
      [Path] one iteration of a traversal, [Adjacency] the reader of the
      compiled adjacency files and [Traversal] the loop over partitions.
    - Entity lookup (src/crates/ngkg-locator, src/crates/ngkg-hydration).
      [Locator] compiles the rows of a GUID into fixed-width records, searches
      them, and routes hashes to serving replicas; [Hydration] reads the
      located rows from payload shards with a number of threads.
    - Identities (src/crates/ngkg-identity, src/crates/ngkg-index).
      [Identity] has fact identities, the merged dictionary and the check of
      an index header against the context it is opened in.
    - Local stores (src/crates/ngkg-query-cache, src/crates/ngkg-shuffle-cache).
      [QueryCache] and [ShuffleCache] are bounded caches on disk over the
      directory discipline of [LocalRoot], which the Grace join shares.
    - Capacity (src/crates/ngkg-autoscaling, src/crates/ngkg-hpc-runtime).
      [Autoscaling] decides the size of a node pool, [Runtime] reads the
      CPUs, memory and MPI rank of a process and admits parallel work.
    - Serving (src/services/online-serving).  [Auth] loads bearer tokens and
      authorizes requests; [Admission] is the multi-tenant admission control,
      a transition system over the permits of its lanes.
    - Native leaf execution (src/crates/ngkg-native-runtime and the C program
      src/hpc/native/ngkg_openmp_filter.c).  [NativeScan] admits a plan to the
      native engine and scans a Parquet leaf, with the OpenMP kernel as a
      program on the other end of a pipe; [Gang] runs the scans of a plan on
      ranks with lanes of threads, certifies a run, and has the barrier that
      counts the partitions of a stage.
    - Exact OWL 2 Direct reasoning (src/crates/ngkg-types direct_*.rs,
      src/crates/ngkg-direct-reasoner, src/crates/ngkg-online-reasoning and
      the numbering of patterns in src/crates/ngkg-owl-direct).  [DirectTypes]
      has the contracts of requests, results, answers, certificates and proof
      manifests, [DirectDigests] that their digests identify them;
      [ExactReasoner] prepares the partitions of a candidate space, runs them
      and merges their results; [OnlineReasoning] selects the ontology
      modules, plans and dispatches partitions to workers and admits complete
      sets; [ExactAlgebra] puts the answers into the SPARQL algebra.
    - Durable storage (src/crates/ngkg-artifact-store,
      src/crates/ngkg-storage-recovery, src/services/storage-recovery-worker,
      the storage requests of src/services/api).  [ArtifactStore] publishes
      and fetches immutable objects; its programs are trees of calls of an
      object store, a disk and a shared counter, each of which may fail, so
      that any number of them can be interleaved step by step.
      [StorageRecovery] places replicas, plans recovery, backup and restore
      and certifies the results; [Transfers] composes both into the worker.
    - Shared: this file has results, loops and the automation; [Words] machine
      integers and byte strings, [Ordered] Rust's derived orders and ordered
      collections, [Digest] SHA-256 and hash preimages, [Text] lines, UTF-8
      and decimal numbers, [Worklist] the closure loop of the planner and the
      path compiler.

    A struct is a [Record] with the field names of the source, prefixed where
    two structs share one; an enum is an [Inductive] with the variants of the
    source.  A function that returns [Result] returns [result] below, [?]
    being the monadic bind; a method that takes [&mut self] returns the new
    state, also on its error paths where these leave a changed state behind
    (caches, spill reservations).  A [HashMap] or [BTreeMap] is a [gmap], a
    [BTreeSet] a [gset], and where the code iterates over one in order the
    model does so through [Ordered.sorted_elements].  Unsigned integers are
    [N] with their width in every checked operation ([Words]).  A file is the
    list of its bytes.

    ** What the theorems show

    - Property paths, end to end: the Thompson construction accepts exactly
      the SPARQL meaning of a path; one iteration of the traversal, split over
      hot vertices or not, emits exactly the successors; the loop stops when
      the reachable keys are exhausted and returns exactly the endpoint pairs
      of the path; the adjacency files the compiler writes discharge the
      interface [Traversal.EdgeSource] the traversal is proved against.
    - Joins: the hash-indexed kernel, the shuffled join and the Grace join all
      return the SPARQL join of bags; the native operators compute the bag
      algebra; barriers accept exactly the complete sets of reports.
    - Compilation: artifacts are functions of the set of quads, whatever the
      batches, threads, fragment assignment or order of arrival; the
      dictionary is dense and ordered; every published partition is accepted
      by the root barrier.
    - Authorization: routing and dataset resolution return exactly what the
      declarations and the principal allow and fail closed otherwise.
    - Local stores: the caches refine a bounded map in order of use and stay
      within their limits under arbitrary damage to their files; spill
      reservations never leak and stay within their budgets; spill files and
      checkpoints are bound to their content.
    - Durable storage: a published object never changes under any interleaving
      of calls and failures; what a fetch leaves behind is verified; plans
      name exactly the missing replicas in different failure domains; a
      certified recovery has every object at its destination; a backup can be
      restored.
    - Serving: permits are conserved and never leak, no request is stuck
      without a lease being held, one tenant cannot starve another, and a
      request acts with exactly the identity of its token.
    - Native execution: a leaf scan of a file that holds its own partition
      returns exactly the matching facts with or without pruning and with
      either kernel, within the limits of the kernel; a run of ranks is certified
      exactly when every partition was scanned once, and is certified when its
      scans succeed; barriers count every partition once; admitted work fits
      the cgroup.
    - Exact reasoning: an answer that passes the barrier and the merge is the
      bag of the entailed candidates of the whole space; distribution, order
      and retries do not change it; an accelerated answer is admitted only if
      it is the same; substitution replaces every pattern by its table, and
      the answers reach their patterns but for filters with patterns on both
      sides, for which the library shows that they do not.
    - Lookup: a compiled locator opens, and a lookup in it returns exactly the
      rows of the GUID; a valid directory routes every hash to one owner.
      Hydration returns exactly the located rows for any number of threads
      and hides the graphs a principal may not see.
    - Identities: equal identities are equal facts, the dictionary is
      canonical, and an index opens only in its own context.
    - Capacity: nodes are added for demand and removed only when a pool is
      idle or larger than its maximum.

    Theorems about identities never assume that a hash has no collisions:
    they conclude that two objects agree or that the bytes hashed for these
    very objects differ and have one digest ([Digest.collide]).

    ** Fuel

    Structural recursion is used wherever the code iterates over a
    collection.  The loops that need fuel take a bound the theorems prove to
    be enough: the closure of [Worklist] the number of items that can be
    pushed; the binary searches of [Adjacency] and [Locator] the number of
    bits of the record count, since every step halves the interval; the
    k-way merges of [ExternalSort] and [Algebra] the number of lines or rows
    left in all runs, one of which each step consumes; the passes of the external sort the number of runs, which
    each pass reduces; the traversal the iteration ceiling of the request,
    which is part of the code.  Theorems on these loops state that the result
    is produced, not only that a produced result is right.

    ** Parameters

    Code outside the repository appears as type classes and section
    variables with the documented facts the code relies on: SHA-256
    ([Digest.Sha256], digests have 32 bytes), N-Quads parsing and printing
    ([MapStage.NQuads]), [serde_json] text of rows and hash preimages, UUIDs
    of version 5, IRI syntax and URLs; BLAKE3 and the documents of
    [serde_json] in the storage plane; the tokio semaphore
    ([Admission]); the object store ([ArtifactStore.ObjectStore]: an operation
    may fail at any time, a create never overwrites); the Parquet reader
    ([NativeScan.ParquetReader]: batches hold the rows of the selected row
    groups; [Hydration.PayloadReader] likewise for payloads); the reasoner process, its workers and the algebra of spargebra
    ([ExactAlgebra.Spargebra]).  Each property with such a parameter has a
    witness at a concrete instance.

    ** Not modelled

    The bytes of Parquet and Arrow files; JSON encodings of manifests
    (manifests are passed as values); failures of the file system below the
    caches and the Grace join other than the missing, truncated or altered
    files a reader has to expect (the disk of [ArtifactStore] may fail at any
    call); the window in which a cache lookup reads its file after releasing
    the lock; of the path coordinator, checkpoint persistence, response
    envelopes and metrics; of storage recovery, the search for the artifacts
    of a snapshot in its JSON documents and the PostgreSQL repository; HTTP,
    Kubernetes and PostgreSQL services, whose logic lies in systems that are
    not part of the sources; of exact reasoning, the files around the child
    process, the classification of patterns as legal and the reasoner itself,
    a Java program.  Crates that could be modelled next:
    snapshots and their activation, the distributed build, the
    legality classification of ngkg-owl-direct, the remaining parts of the
    query planner and the SPARQL compiler. *)

From stdpp Require Export prelude gmap strings list sorting.

(** ** Fallible computations

    Rust's [Result<A, E>].  The constructors keep the Rust names; [?] becomes
    stdpp's monadic bind [x ← e; k], an early [return Err(e)] becomes
    [fail_if]. *)

Inductive result (E A : Type) :=
| Ok (a : A)
| Err (e : E).
Arguments Ok {E A} a.
Arguments Err {E A} e.

Global Instance result_ret {E} : MRet (result E) := fun A a => Ok a.
Global Instance result_bind {E} : MBind (result E) :=
  fun A B k m => match m with Ok a => k a | Err e => Err e end.
Global Instance result_fmap {E} : FMap (result E) :=
  fun A B f m => match m with Ok a => Ok (f a) | Err e => Err e end.
Global Instance result_eq_dec {E A} `{EqDecision E, EqDecision A} :
  EqDecision (result E A).
Proof. solve_decision. Defined.

(** [option.ok_or(e)]. *)
Definition ok_or {E A} (o : option A) (e : E) : result E A :=
  match o with Some a => Ok a | None => Err e end.

(** [if b { return Err(e) }]. *)
Definition fail_if {E} (b : bool) (e : E) : result E unit :=
  if b then Err e else Ok tt.

Definition is_ok {E A} (r : result E A) : bool :=
  match r with Ok _ => true | Err _ => false end.

(** [result.map_err(f)]. *)
Definition map_err {E F A} (f : E -> F) (r : result E A) : result F A :=
  match r with Ok a => Ok a | Err e => Err (f e) end.

(** A [for] loop whose body may leave with [?]: the loop state is threaded
    through the body, the first error ends the loop. *)
Fixpoint try_fold {E S A} (f : S -> A -> result E S) (s : S) (l : list A) : result E S :=
  match l with
  | [] => Ok s
  | x :: l => s' ← f s x; try_fold f s' l
  end.

(** [iter.map(f).collect::<Result<Vec<_>, _>>()]. *)
Fixpoint try_map {E A B} (f : A -> result E B) (l : list A) : result E (list B) :=
  match l with
  | [] => Ok []
  | x :: l => y ← f x; ys ← try_map f l; Ok (y :: ys)
  end.

(** [values.windows(2).all(|pair| f(pair[0], pair[1]))]. *)
Fixpoint windows2_all {A} (f : A -> A -> bool) (l : list A) : bool :=
  match l with
  | x :: (y :: _) as l' => f x y && windows2_all f l'
  | _ => true
  end.

(** [slice.chunks(n)]: [n = 0] panics in Rust and is never reached; the fuel
    is the length of the slice, enough because every chunk takes an element. *)
Fixpoint chunks_fuel {A} (fuel n : nat) (l : list A) : list (list A) :=
  match fuel, l with
  | _, [] => []
  | O, _ => []
  | S fuel, _ => take n l :: chunks_fuel fuel n (drop n l)
  end.
Definition chunks {A} (n : nat) (l : list A) : list (list A) :=
  chunks_fuel (length l) n l.

(** [iter.enumerate()]. *)
Definition enumerate {A} (l : list A) : list (nat * A) := zip (seq 0 (length l)) l.

(** ** Computations with a state

    A method on [&mut self] that may fail: the state survives an error. *)
Definition stateful (S E A : Type) : Type := S -> result E A * S.

Global Instance stateful_ret {S E} : MRet (stateful S E) := fun A a st => (Ok a, st).
Global Instance stateful_bind {S E} : MBind (stateful S E) := fun A B k m st =>
  match m st with (Ok a, st') => k a st' | (Err e, st') => (Err e, st') end.

(** A step that does not touch the state, the state itself, and its update. *)
Definition lift {S E A} (r : result E A) : stateful S E A := fun st => (r, st).
Definition get_state {S E} : stateful S E S := fun st => (Ok st, st).
Definition put_state {S E} (st : S) : stateful S E unit := fun _ => (Ok tt, st).

(** A loop over a list. *)
Fixpoint iterate {S E A} (f : A -> stateful S E unit) (l : list A) : stateful S E unit :=
  match l with
  | [] => mret tt
  | x :: l => _ ← f x; iterate f l
  end.

(** ** Inversion of fallible computations *)

Lemma ok_inj {E A} (a b : A) : @Ok E A a = Ok b -> a = b.
Proof. by intros [= ->]. Qed.

Lemma is_ok_true {E A} (r : result E A) : is_ok r = true <-> exists a, r = Ok a.
Proof. destruct r; cbn; naive_solver. Qed.

Lemma result_bind_ok {E A B} (m : result E A) (k : A -> result E B) b :
  m ≫= k = Ok b <-> exists a, m = Ok a /\ k a = Ok b.
Proof. destruct m; cbn; naive_solver. Qed.

Lemma result_bind_err {E A B} (m : result E A) (k : A -> result E B) e :
  m ≫= k = Err e <-> m = Err e \/ exists a, m = Ok a /\ k a = Err e.
Proof. destruct m; cbn; naive_solver. Qed.

Lemma fail_if_ok {E} b (e : E) u : fail_if b e = Ok u <-> b = false.
Proof. destruct b, u; cbn; naive_solver. Qed.

Lemma fail_then {E A} b (e : E) (k : result E A) a : (_ ← fail_if b e; k) = Ok a <-> b = false /\ k = Ok a.
Proof. destruct b; cbn; naive_solver. Qed.

Lemma fail_if_err {E} b (e e' : E) : fail_if b e = Err e' <-> b = true /\ e = e'.
Proof. destruct b; cbn; naive_solver. Qed.

Lemma ok_or_ok {E A} (o : option A) (e : E) a : ok_or o e = Ok a <-> o = Some a.
Proof. destruct o; cbn; naive_solver. Qed.

Lemma ok_or_err {E A} (o : option A) (e e' : E) : ok_or o e = Err e' <-> o = None /\ e = e'.
Proof. destruct o; cbn; naive_solver. Qed.

Lemma map_err_ok {E F A} (f : E -> F) (r : result E A) a :
  map_err f r = Ok a <-> r = Ok a.
Proof. destruct r; cbn; naive_solver. Qed.

Lemma stateful_bind_ok {S E A B} (m : stateful S E A) (k : A -> stateful S E B) st a st' :
  m st = (Ok a, st') -> (m ≫= k) st = k a st'.
Proof. intros Hm. unfold mbind, stateful_bind. by rewrite Hm. Qed.

Lemma stateful_bind_err {S E A B} (m : stateful S E A) (k : A -> stateful S E B) st e st' :
  m st = (Err e, st') -> (m ≫= k) st = (Err e, st').
Proof. intros Hm. unfold mbind, stateful_bind. by rewrite Hm. Qed.

Lemma stateful_bind_inv {S E A B} (m : stateful S E A) (k : A -> stateful S E B) st b st' :
  (m ≫= k) st = (Ok b, st') -> exists a st1, m st = (Ok a, st1) /\ k a st1 = (Ok b, st').
Proof. unfold mbind, stateful_bind. destruct (m st) as [[a|e] st1]; [by eexists _, _|done]. Qed.

Lemma lift_inv {S E A} (r : result E A) (st : S) a st' : lift r st = (Ok a, st') -> r = Ok a /\ st' = st.
Proof. by intros [= -> ->]. Qed.

(** ** Automation *)

Create HintDb ngkg.

(** Split the bind at the head of a hypothesis [x ← e; k = Ok _]. *)
Ltac inv_ok H :=
  match type of H with
  | (_ ≫= _) = Ok _ =>
      let a := fresh "a" in let Ha := fresh "Ha" in
      apply result_bind_ok in H; destruct H as [a [Ha H]]
  | fail_if _ _ = Ok _ => apply fail_if_ok in H
  | ok_or _ _ = Ok _ => apply ok_or_ok in H
  | map_err _ _ = Ok _ => apply map_err_ok in H
  | Ok _ = Ok _ => injection H as H
  | Err _ = Ok _ => discriminate H
  end.

(** Every step of every computation known to succeed. *)
Ltac inv_steps := repeat match goal with H : _ = Ok _ |- _ => inv_ok H end.

(** Find the step at which a computation failed. *)
Ltac inv_err H :=
  lazymatch type of H with
  | (_ ≫= _) = Err _ =>
      apply result_bind_err in H as [H|(? & ? & H)]; inv_err H
  | fail_if _ _ = Err _ => apply fail_if_err in H as [? H]
  | ok_or _ _ = Err _ => apply ok_or_err in H as [? H]
  | Ok _ = Err _ => discriminate H
  | _ => idtac
  end.

(** Turn the boolean connectives of a guard into propositions. *)
Ltac bool_prop :=
  repeat match goal with
  | H : (_ || _) = false |- _ => apply orb_false_iff in H; destruct H
  | H : (_ && _) = true |- _ => apply andb_true_iff in H; destruct H
  | H : negb _ = false |- _ => apply negb_false_iff in H
  | H : negb _ = true |- _ => apply negb_true_iff in H
  | H : bool_decide _ = true |- _ => apply bool_decide_eq_true in H
  | H : bool_decide _ = false |- _ => apply bool_decide_eq_false in H
  | H : (_ <? _)%N = true |- _ => apply N.ltb_lt in H
  | H : (_ <? _)%N = false |- _ => apply N.ltb_ge in H
  | H : (_ <=? _)%N = true |- _ => apply N.leb_le in H
  | H : (_ <=? _)%N = false |- _ => apply N.leb_gt in H
  | H : (_ =? _)%N = true |- _ => apply N.eqb_eq in H
  | H : (_ =? _)%N = false |- _ => apply N.eqb_neq in H
  | H : (_ <? _)%nat = true |- _ => apply Nat.ltb_lt in H
  | H : (_ <? _)%nat = false |- _ => apply Nat.ltb_ge in H
  | H : (_ <=? _)%nat = true |- _ => apply Nat.leb_le in H
  | H : (_ <=? _)%nat = false |- _ => apply Nat.leb_gt in H
  | H : (_ =? _)%nat = true |- _ => apply Nat.eqb_eq in H
  | H : (_ =? _)%nat = false |- _ => apply Nat.eqb_neq in H
  end.

Lemma try_fold_app {E S A} (f : S -> A -> result E S) s l k :
  try_fold f s (l ++ k) = (s' ← try_fold f s l; try_fold f s' k).
Proof.
  revert s; induction l as [|x l IH]; intros s; cbn; [done|].
  destruct (f s x); cbn; auto.
Qed.

(** A loop invariant carried by every iteration that succeeds, the prefix
    already consumed being part of it. *)
Lemma try_fold_inv {E S A} (P : list A -> S -> Prop) (f : S -> A -> result E S) s l s' :
  P [] s ->
  (forall pre x s1 s2, P pre s1 -> x ∈ l -> f s1 x = Ok s2 -> P (pre ++ [x]) s2) ->
  try_fold f s l = Ok s' -> P l s'.
Proof.
  intros Hnil Hstep.
  cut (forall pre s1, P pre s1 -> try_fold f s1 l = Ok s' -> P (pre ++ l) s').
  { intros H. apply (H []). done. }
  clear Hnil s. induction l as [|x l IH]; intros pre s1 HP; cbn; intros Hf.
  - injection Hf as <-. by rewrite app_nil_r.
  - inv_ok Hf. rewrite cons_middle, (assoc (++)).
    eapply IH; [|eapply Hstep; eauto; left|done].
    intros. eapply Hstep; eauto. by right.
Qed.

(** A loop none of whose iterations can fail runs like the pure fold. *)
Lemma try_fold_pure {E S A} (P : S -> Prop) (g : S -> A -> S) (f : S -> A -> result E S) s l :
  P s ->
  (forall s1 x, P s1 -> x ∈ l -> f s1 x = Ok (g s1 x) /\ P (g s1 x)) ->
  try_fold f s l = Ok (foldl g s l) /\ P (foldl g s l).
Proof.
  revert s; induction l as [|x l IH]; intros s Hs Hstep; cbn; [done|].
  destruct (Hstep s x) as [-> ?]; [done|left|]. cbn. apply IH; [done|].
  intros; apply Hstep; [done|by right].
Qed.

Lemma try_map_ok {E A B} (f : A -> result E B) l k :
  try_map f l = Ok k <-> Forall2 (fun x y => f x = Ok y) l k.
Proof.
  revert k; induction l as [|x l IH]; intros k; cbn.
  - split; [by intros [= <-]|]. intros H; by inversion H.
  - rewrite result_bind_ok. split.
    + intros (y & Hy & H). inv_ok H. simplify_eq. constructor; [done|by apply IH].
    + intros H. inversion H; subst. eexists; split; [done|].
      apply result_bind_ok. eexists; split; [by apply IH|done].
Qed.

Lemma try_map_length {E A B} (f : A -> result E B) l k :
  try_map f l = Ok k -> length k = length l.
Proof. rewrite try_map_ok. intros H; by rewrite (Forall2_length _ _ _ H). Qed.

Lemma try_map_pure {E A B} (g : A -> B) (f : A -> result E B) l :
  (forall x, x ∈ l -> f x = Ok (g x)) -> try_map f l = Ok (g <$> l).
Proof.
  induction l as [|x l IH]; cbn; intros H; [done|].
  rewrite H by left. cbn. rewrite IH; [done|]. intros; apply H; by right.
Qed.

(** ** Facts about slices *)

Lemma windows2_all_cons {A} (f : A -> A -> bool) x y l :
  windows2_all f (x :: y :: l) = f x y && windows2_all f (y :: l).
Proof. done. Qed.

Lemma windows2_all_Sorted {A} (f : A -> A -> bool) l :
  windows2_all f l = true <-> Sorted (fun x y => f x y = true) l.
Proof.
  induction l as [|x l IH]; [split; auto|].
  destruct l as [|y l]; [split; auto|].
  rewrite windows2_all_cons, andb_true_iff, IH. split.
  - intros [??]; auto.
  - intros H. inversion H as [|?? Hs Hhd]; subst. inversion Hhd; auto.
Qed.

Lemma windows2_all_decide {A} (R : relation A) `{!RelDecision R} l :
  windows2_all (fun x y => bool_decide (R x y)) l = true <-> Sorted R l.
Proof.
  rewrite windows2_all_Sorted.
  split; (induction 1 as [|x l Hl IH Hx]; [constructor|]; constructor; [done|]; destruct Hx; constructor).
  - by eapply bool_decide_eq_true_1.
  - by apply bool_decide_eq_true_2.
Qed.

Lemma concat_chunks_fuel {A} fuel n (l : list A) :
  0 < n -> length l <= fuel -> concat (chunks_fuel fuel n l) = l.
Proof.
  intros Hn; revert l; induction fuel as [|fuel IH]; intros [|x l] Hl; try (cbn in *; done || lia).
  change (take n (x :: l) ++ concat (chunks_fuel fuel n (drop n (x :: l))) = x :: l).
  rewrite IH; [apply take_drop|]. rewrite length_drop. cbn in *; lia.
Qed.

Lemma concat_chunks {A} n (l : list A) : 0 < n -> concat (chunks n l) = l.
Proof. intros. by apply concat_chunks_fuel. Qed.

Lemma concat_chunks_any {A} n (l : list A) : (l <> [] -> 0 < n) -> concat (chunks n l) = l.
Proof. destruct l; [done|]. intros Hn. by apply concat_chunks, Hn. Qed.

Lemma chunks_fuel_bound {A} fuel n (l : list A) c :
  c ∈ chunks_fuel fuel n l -> length c <= n.
Proof.
  revert l; induction fuel as [|fuel IH]; intros [|x l]; cbn; try set_solver.
  intros [->|H]%elem_of_cons; [|eauto]. rewrite length_take. lia.
Qed.

Lemma chunks_bound {A} n (l : list A) c : c ∈ chunks n l -> length c <= n.
Proof. apply chunks_fuel_bound. Qed.

Lemma snd_enumerate {A} (l : list A) : snd <$> enumerate l = l.
Proof. unfold enumerate. rewrite snd_zip; [done|]. by rewrite length_seq. Qed.

Lemma enumerate_lookup {A} (l : list A) i :
  enumerate l !! i = (fun x => (i, x)) <$> l !! i.
Proof.
  unfold enumerate. destruct (l !! i) as [x|] eqn:Hx; cbn.
  - rewrite lookup_zip_with, Hx. rewrite lookup_seq_lt; [done|].
    by eapply lookup_lt_Some.
  - apply lookup_ge_None. rewrite length_zip, length_seq.
    apply lookup_ge_None in Hx. lia.
Qed.

Lemma list_filter_ext_in {A} (P Q : A -> Prop) `{!forall x, Decision (P x)}
    `{!forall x, Decision (Q x)} (l : list A) :
  (forall x, x ∈ l -> P x <-> Q x) -> filter P l = filter Q l.
Proof.
  induction l as [|x l IH]; intros Hl; [done|].
  rewrite !filter_cons, IH by (intros; apply Hl; by right).
  destruct (Hl x ltac:(left)). repeat case_decide; tauto.
Qed.

(** A relation split along a partition function has the same elements, with
    the same multiplicities. *)
Lemma filter_partition_permutation {A} (f : A -> nat) n (l : list A) :
  (forall x, x ∈ l -> f x < n) ->
  concat ((fun i => filter (fun x => f x = i) l) <$> seq 0 n) ≡ₚ l.
Proof.
  revert l; induction n as [|n IH]; intros l Hl.
  - destruct l as [|x l]; [done|]. specialize (Hl x ltac:(left)). lia.
  - rewrite seq_S, fmap_app, concat_app. cbn. rewrite app_nil_r.
    transitivity (filter (fun x => f x < n) l ++ filter (fun x => ~ f x < n) l);
      [|apply filter_app_complement].
    apply Permutation_app.
    + rewrite <- (IH (filter _ l)) by (intros x [??]%list_elem_of_filter; done).
      eapply eq_subrelation; [apply _|]. f_equal. apply list_fmap_ext. intros k i Hi.
      apply list_elem_of_lookup_2, elem_of_seq in Hi.
      rewrite list_filter_filter. apply list_filter_iff. intros; lia.
    + eapply eq_subrelation; [apply _|]. apply list_filter_ext_in. intros x Hx%Hl. lia.
Qed.

Lemma elem_of_concat {A} (x : A) (ls : list (list A)) :
  x ∈ concat ls <-> exists l, l ∈ ls /\ x ∈ l.
Proof. induction ls as [|l ls IH]; cbn; set_solver. Qed.

(** ** Row ceilings

    Every relational kernel grows one output vector and fails before a row
    would exceed the ceiling.  [bounded] is the outcome such a loop has when
    it would emit exactly the rows of [out]. *)

Definition bounded {E A} (max : nat) (e : E) (out : list A) : result E (list A) :=
  if length out <=? max then Ok out else Err e.

Lemma bounded_ok {E A} max (e : E) (out res : list A) :
  bounded max e out = Ok res <-> res = out /\ length out <= max.
Proof. unfold bounded. destruct (Nat.leb_spec (length out) max); naive_solver lia. Qed.

Lemma bounded_over {E A} max (e : E) (out : list A) : max < length out -> bounded max e out = Err e.
Proof. intros. unfold bounded. destruct (Nat.leb_spec (length out) max); [lia|done]. Qed.

Lemma bounded_fits {E A} max (e : E) (out : list A) : length out <= max -> bounded max e out = Ok out.
Proof. intros. unfold bounded. destruct (Nat.leb_spec (length out) max); [done|lia]. Qed.

(** Checking the ceiling before pushing one row. *)
Lemma bounded_push {E A} max (e : E) (out : list A) x :
  length out <= max ->
  (if max <=? length out then Err e else Ok (out ++ [x])) = bounded max e (out ++ [x]).
Proof.
  intros. unfold bounded. rewrite length_app; cbn.
  destruct (Nat.leb_spec max (length out)), (Nat.leb_spec (length out + 1) max); done || lia.
Qed.

(** A loop whose body emits the rows [g x] under the ceiling emits the rows of
    the whole comprehension under the ceiling. *)
Lemma try_fold_bounded {E A B} max (e : E) (f : list B -> A -> result E (list B)) g l out :
  (forall out x, x ∈ l -> length out <= max -> f out x = bounded max e (out ++ g x)) ->
  length out <= max ->
  try_fold f out l = bounded max e (out ++ (l ≫= g)).
Proof.
  revert out. induction l as [|x l IH]; intros out Hf Hout; cbn.
  - unfold bounded. rewrite app_nil_r. destruct (Nat.leb_spec (length out) max); [done|lia].
  - rewrite Hf by (done || left). unfold bounded at 1.
    destruct (Nat.leb_spec (length (out ++ g x)) max) as [Hle|Hgt]; cbn.
    + rewrite IH; [by rewrite <- (assoc (++))| |done]. intros; apply Hf; [by right|done].
    + unfold bounded. rewrite !length_app in *.
      destruct (Nat.leb_spec (length out + (length (g x) + length (l ≫= g))) max); [lia|done].
Qed.

Lemma list_bind_ext_in {A B} (f g : A -> list B) (l : list A) :
  (forall x, x ∈ l -> f x = g x) -> l ≫= f = l ≫= g.
Proof. intros Hfg. apply Forall_bind_ext, Forall_forall, Hfg. Qed.

Lemma list_bind_filter {A B} (P : A -> Prop) `{!forall x, Decision (P x)} (f : A -> list B) l :
  filter P l ≫= f = l ≫= (fun x => if decide (P x) then f x else []).
Proof.
  induction l as [|x l IH]; [done|]. rewrite filter_cons. cbn.
  case_decide; cbn; by rewrite IH.
Qed.

Lemma list_bind_swap {A B C} (f : A -> B -> list C) (l : list A) (k : list B) :
  (l ≫= fun x => k ≫= fun y => f x y) ≡ₚ (k ≫= fun y => l ≫= fun x => f x y).
Proof.
  induction l as [|x l IH]; cbn.
  - induction k as [|y k IHk]; cbn; auto.
  - rewrite IH. clear IH. induction k as [|y k IHk]; [done|]. cbn.
    rewrite <- IHk. rewrite <- !(assoc (++)). apply Permutation_app_head.
    rewrite !(assoc (++)). apply Permutation_app_tail, (comm (++)).
Qed.

Global Instance list_bind_proper {A B} (f : A -> list B) :
  Proper ((≡ₚ) ==> (≡ₚ)) (mbind f).
Proof.
  induction 1; cbn; auto.
  - by apply Permutation_app_head.
  - rewrite !(assoc (++)). apply Permutation_app_tail, (comm (++)).
  - by etransitivity.
Qed.

Lemma list_bind_perm_ext {A B} (f g : A -> list B) (l : list A) :
  (forall x, x ∈ l -> f x ≡ₚ g x) -> l ≫= f ≡ₚ l ≫= g.
Proof.
  induction l as [|x l IH]; cbn; intros Hfg; [done|].
  apply Permutation_app; [apply Hfg; left|apply IH]. intros; apply Hfg; by right.
Qed.

Lemma list_bind_concat {A B} (f : A -> list B) (ls : list (list A)) :
  concat ls ≫= f = concat ((fun l => l ≫= f) <$> ls).
Proof. induction ls as [|l ls IH]; cbn; [done|]. by rewrite bind_app, IH. Qed.

Lemma list_bind_as_concat {A B} (f : A -> list B) (l : list A) : l ≫= f = concat (f <$> l).
Proof. induction l as [|x l IH]; cbn; [done|]. by rewrite IH. Qed.

Lemma fmap_list_bind {A B C} (f : B -> C) (g : A -> list B) (l : list A) :
  f <$> (l ≫= g) = l ≫= (fun x => f <$> g x).
Proof. induction l as [|x l IH]; cbn; [done|]. by rewrite fmap_app, IH. Qed.

Lemma list_bind_fmap {A B C} (f : A -> B) (g : B -> list C) (l : list A) :
  (f <$> l) ≫= g = l ≫= (fun x => g (f x)).
Proof. apply list_fmap_bind. Qed.

Lemma list_bind_singleton {A B} (f : A -> B) (l : list A) : (l ≫= fun x => [f x]) = f <$> l.
Proof. induction l as [|x l IH]; cbn; [done|]. by rewrite IH. Qed.

Lemma list_bind_nil {A B} (l : list A) : (l ≫= fun _ => []) = ([] : list B).
Proof. by induction l. Qed.

(** A missing map entry and an empty list of matches give the same loop. *)
Lemma match_default_try_fold {E A B} (o : option (list A)) (f : B -> A -> result E B) out :
  match o with None => Ok out | Some matches => try_fold f out matches end
  = try_fold f out (default [] o).
Proof. by destruct o. Qed.

Lemma concat_fmap_fmap {A B C} (f : B -> C) (g : A -> list B) (l : list A) :
  concat ((fun x => f <$> g x) <$> l) = f <$> concat (g <$> l).
Proof. induction l as [|x l IH]; cbn; [done|]. by rewrite fmap_app, IH. Qed.

Lemma zip_fmap_fmap {A B C} (f : A -> B) (g : A -> C) (l : list A) :
  zip (f <$> l) (g <$> l) = (fun x => (f x, g x)) <$> l.
Proof. induction l as [|x l IH]; cbn; [done|]. by rewrite IH. Qed.

Lemma try_map_fmap_pure {E A B C} (h : A -> B) (f : B -> result E C) (g : A -> C) (l : list A) :
  (forall x, x ∈ l -> f (h x) = Ok (g x)) -> try_map f (h <$> l) = Ok (g <$> l).
Proof.
  induction l as [|x l IH]; cbn; intros Hf; [done|].
  rewrite Hf by left. cbn. rewrite IH; [done|]. intros; apply Hf; by right.
Qed.

Lemma length_concat_elem {A B} (g : A -> list B) (l : list A) x :
  x ∈ l -> length (g x) <= length (concat (g <$> l)).
Proof.
  induction l as [|y l IH]; [set_solver|]. cbn. rewrite length_app.
  intros [->|Hx]%elem_of_cons; [lia|]. specialize (IH Hx). lia.
Qed.

Lemma Forall_filter {A} (P Q : A -> Prop) `{!forall x, Decision (Q x)} (l : list A) :
  Forall P l -> Forall P (filter Q l).
Proof. rewrite !Forall_forall. intros HP x [_ Hx]%list_elem_of_filter. auto. Qed.

Lemma list_filter_full {A} (P : A -> Prop) `{!forall x, Decision (P x)} (l : list A) :
  (forall x, x ∈ l -> P x) -> filter P l = l.
Proof.
  induction l as [|x l IH]; intros Hl; [done|].
  rewrite filter_cons_True by (apply Hl; left). f_equal. apply IH. intros; apply Hl; by right.
Qed.

Lemma list_filter_empty {A} (P : A -> Prop) `{!forall x, Decision (P x)} (l : list A) :
  (forall x, x ∈ l -> ~ P x) -> filter P l = [].
Proof.
  induction l as [|x l IH]; intros Hl; [done|].
  rewrite filter_cons_False by (apply Hl; left). apply IH. intros; apply Hl; by right.
Qed.

(** Elements of a list with distinct images are determined by their image. *)
Lemma NoDup_fmap_inj {A B} (f : A -> B) (l : list A) x y :
  NoDup (f <$> l) -> x ∈ l -> y ∈ l -> f x = f y -> x = y.
Proof.
  intros Hnd [i Hi]%list_elem_of_lookup [j Hj]%list_elem_of_lookup Hf.
  assert (i = j) as ->; [|congruence].
  eapply NoDup_lookup; [done|by rewrite list_lookup_fmap, Hi|].
  rewrite list_lookup_fmap, Hj. cbn. by rewrite Hf.
Qed.

(** ** Bucketing

    The partitioners push every row on the vector of its owner. *)
Section buckets.
Context {E A : Type} `{EqDecision E} (own : A -> result E N).

Lemma bucket_fold_from (xs : list A) (parts res : list (list A)) :
  try_fold (fun parts x => o ← own x; Ok (alter (fun p => p ++ [x]) (N.to_nat o) parts)) parts xs = Ok res ->
  (forall x, x ∈ xs -> exists o, own x = Ok o) /\
  forall i, res !! i = (fun p => p ++ filter (fun x => own x = Ok (N.of_nat i)) xs) <$> parts !! i.
Proof using Type.
  revert parts; induction xs as [|x xs IH]; intros parts Hf; cbn in Hf.
  - injection Hf as <-. split; [set_solver|]. intros i. destruct (parts !! i); cbn; [|done].
    by rewrite app_nil_r.
  - inv_ok Hf. inv_ok Ha. inv_ok Ha. destruct (IH _ Hf) as [Hex Hlk]. split.
    { intros y [->|Hy]%elem_of_cons; eauto. }
    intros i. rewrite Hlk, filter_cons, Ha0. subst a. case_decide as Hi.
    + injection Hi as ->. rewrite Nat2N.id, list_lookup_alter_eq.
      destruct (parts !! i); cbn; [|done]. by rewrite <- (assoc (++)).
    + rewrite list_lookup_alter_ne; [done|]. intros <-. by rewrite N2Nat.id in Hi.
Qed.

(** Starting from empty buckets, bucket [i] holds the rows owned by [i] in
    their original order. *)
Lemma bucket_fold n (xs : list A) res :
  try_fold (fun parts x => o ← own x; Ok (alter (fun p => p ++ [x]) (N.to_nat o) parts))
    (replicate n []) xs = Ok res ->
  (forall x, x ∈ xs -> exists o, own x = Ok o) /\
  res = (fun i => filter (fun x => own x = Ok (N.of_nat i)) xs) <$> seq 0 n.
Proof using Type.
  intros [Hex Hlk]%bucket_fold_from. split; [done|].
  apply list_eq. intros i. rewrite Hlk, list_lookup_fmap.
  destruct (decide (i < n)).
  - by rewrite lookup_replicate_2, lookup_seq_lt by done.
  - rewrite (proj2 (lookup_ge_None (seq _ _) i)) by (rewrite length_seq; lia).
    rewrite (proj2 (lookup_ge_None (replicate _ _) i)) by (rewrite length_replicate; lia). done.
Qed.

Lemma bucket_fold_total n (xs : list A) :
  (forall x, x ∈ xs -> exists o, own x = Ok o) ->
  exists res, try_fold (fun parts x => o ← own x; Ok (alter (fun p => p ++ [x]) (N.to_nat o) parts))
    (replicate n []) xs = Ok res.
Proof using Type.
  generalize (replicate n (@nil A)). induction xs as [|x xs IH]; intros parts Hx; cbn; [eauto|].
  destruct (Hx x) as [o ->]; [left|]. cbn. apply IH. intros; apply Hx; by right.
Qed.

(** No row is lost or duplicated when every owner is a bucket. *)
Lemma bucket_permutation n (xs : list A) :
  (forall x, x ∈ xs -> exists o, own x = Ok o /\ N.to_nat o < n) ->
  concat ((fun i => filter (fun x => own x = Ok (N.of_nat i)) xs) <$> seq 0 n) ≡ₚ xs.
Proof using Type.
  intros Hx. set (f x := match own x with Ok o => N.to_nat o | Err _ => 0 end).
  transitivity (concat ((fun i => filter (fun x => f x = i) xs) <$> seq 0 n));
    [|apply filter_partition_permutation].
  - eapply eq_subrelation; [apply _|]. f_equal. apply list_fmap_ext. intros _ i _.
    apply list_filter_ext_in. intros x (o & Ho & _)%Hx. unfold f. rewrite Ho. split.
    + intros [= ->]. lia.
    + intros <-. by rewrite N2Nat.id.
  - intros x (o & Ho & Hlt)%Hx. unfold f. by rewrite Ho.
Qed.
End buckets.

(** ** Loops that only add

    A loop whose body adds to the observation [mem] exactly the contribution of
    its element observes, at the end, all contributions. *)
Lemma try_fold_adds {E S A} (mem : S -> Prop) (Q : A -> Prop) (f : S -> A -> result E S) l s s' :
  (forall s x s', x ∈ l -> f s x = Ok s' -> mem s' <-> mem s \/ Q x) ->
  try_fold f s l = Ok s' -> mem s' <-> mem s \/ exists x, x ∈ l /\ Q x.
Proof.
  revert s; induction l as [|x l IH]; intros s Hf Hl; cbn in Hl.
  - injection Hl as <-. set_solver.
  - inv_ok Hl. rewrite (IH a), (Hf s x a) by (set_solver || done). set_solver.
Qed.

Lemma foldl_adds {S A} (mem : S -> Prop) (Q : A -> Prop) (f : S -> A -> S) l s :
  (forall s x, x ∈ l -> mem (f s x) <-> mem s \/ Q x) ->
  mem (foldl f s l) <-> mem s \/ exists x, x ∈ l /\ Q x.
Proof.
  revert s; induction l as [|x l IH]; intros s Hf; cbn; [set_solver|].
  rewrite IH, Hf by set_solver. set_solver.
Qed.

Lemma size_list_to_set_bound {A} `{Countable A} (l : list A) :
  size (list_to_set l : gset A) <= length l.
Proof.
  induction l as [|x l IH]; cbn; [by rewrite size_empty|].
  rewrite size_union_alt, size_singleton.
  assert (size (list_to_set l ∖ {[x]} : gset A) <= size (list_to_set l : gset A)); [|lia].
  apply subseteq_size. set_solver.
Qed.

(** A list as long as its list of distinct members has no repetition. *)
Lemma remove_dups_bound {A} `{EqDecision A} (l : list A) : length (remove_dups l) <= length l.
Proof. induction l as [|x l IH]; cbn; [done|]. case_decide; cbn; lia. Qed.

Lemma remove_dups_NoDup {A} `{EqDecision A} (l : list A) : length (remove_dups l) = length l -> NoDup l.
Proof.
  induction l as [|x l IH]; cbn; intros Hl; [constructor|]. pose proof (remove_dups_bound l).
  case_decide; cbn in Hl; [lia|]. constructor; [done|]. apply IH. lia.
Qed.

Lemma StronglySorted_lookup {A} (R : relation A) (l : list A) i j x y :
  StronglySorted R l -> i < j -> l !! i = Some x -> l !! j = Some y -> R x y.
Proof.
  intros Hs. revert i j. induction Hs as [|z l Hs IH Hz]; intros i j Hij Hi Hj; [done|].
  destruct j as [|j]; [lia|]. cbn in Hj. destruct i as [|i]; cbn in Hi.
  - injection Hi as ->. rewrite Forall_forall in Hz. by eapply Hz, list_elem_of_lookup_2.
  - eapply (IH i j); [lia|done|done].
Qed.

Lemma StronglySorted_filter {A} (R : relation A) (P : A -> Prop) `{!forall x, Decision (P x)} l :
  StronglySorted R l -> StronglySorted R (filter P l).
Proof.
  induction 1 as [|x l Hl IH Hx]; [constructor|]. rewrite filter_cons. case_decide; [|done].
  constructor; [done|]. by apply Forall_filter.
Qed.

(** ** Work split over threads *)

(** [usize::div_ceil]. *)
Definition div_ceil (a b : nat) : nat := (a + b - 1) / b.

Lemma try_map_concat {E A B} (f : A -> result E B) (ls : list (list A)) out :
  try_map (try_map f) ls = Ok out -> try_map f (concat ls) = Ok (concat out).
Proof.
  revert out. induction ls as [|l ls IH]; intros out Ht; cbn in Ht.
  - injection Ht as <-. done.
  - inv_ok Ht. inv_ok Ht. injection Ht as <-. specialize (IH _ Ha0). cbn.
    apply try_map_ok. apply try_map_ok in Ha, IH. by apply Forall2_app.
Qed.

Lemma try_map_map_err {E F A B} (g : E -> F) (f : A -> result E B) l out :
  try_map (fun x => map_err g (f x)) l = Ok out <-> try_map f l = Ok out.
Proof.
  rewrite !try_map_ok. split; intros Hl; (eapply Forall2_impl; [exact Hl|]); intros x y; apply map_err_ok.
Qed.

Lemma try_map_total {E A B} (f : A -> result E B) l :
  (forall x, x ∈ l -> exists y, f x = Ok y) -> exists k, try_map f l = Ok k.
Proof.
  induction l as [|x l IH]; intros Hl; cbn; [eauto|].
  destruct (Hl x) as [y ->]; [left|]. destruct IH as [k ->]; [intros; apply Hl; by right|]. cbn. eauto.
Qed.

(** Splitting [n] items over [lanes] threads gives every item a chunk. *)
Lemma concat_lane_chunks {A} (lanes : nat) (l : list A) : 0 < lanes -> concat (chunks (div_ceil (length l) lanes) l) = l.
Proof.
  intros Hl. apply concat_chunks_any. intros Hne. unfold div_ceil. apply Nat.div_str_pos.
  destruct l; [done|]. cbn [length]. lia.
Qed.
