(* ===== verification/Words.v ===== *)
(** * Machine integers and byte strings

    Rust's unsigned integers are kept as [N] (or [nat] for the [usize] lengths
    and limits of collections) with the width written out in every checked
    operation.  Byte strings are lists of [Byte.byte].  [to_be_bytes] and
    [from_be_bytes] are the big-endian conversions the wire formats and hash
    preimages use. *)

From Stdlib Require Import Strings.Byte Strings.String Strings.Ascii.
From S2P Require Import Prelude.

Local Open Scope N_scope.

(** ** Widths *)

Definition U8_LIMIT : N := 2 ^ 8.
Definition U16_LIMIT : N := 2 ^ 16.
Definition U32_LIMIT : N := 2 ^ 32.
Definition U64_LIMIT : N := 2 ^ 64.
Definition U64_MAX : N := U64_LIMIT - 1.

Definition fits (limit n : N) : bool := n <? limit.

(** [uW::checked_add], [checked_mul], [checked_sub]. *)
Definition checked_add (limit a b : N) : option N :=
  if fits limit (a + b) then Some (a + b) else None.
Definition checked_mul (limit a b : N) : option N :=
  if fits limit (a * b) then Some (a * b) else None.
Definition checked_sub (a b : N) : option N :=
  if b <=? a then Some (a - b) else None.
Definition saturating_add (limit a b : N) : N := N.min (a + b) (limit - 1).
Definition saturating_mul (limit a b : N) : N := N.min (a * b) (limit - 1).
Definition wrapping (limit n : N) : N := n mod limit.

(** [u64::try_from(collection.len())]: a [usize] is 64 bits wide. *)
Definition u64_of_len (n : nat) : option N :=
  if fits U64_LIMIT (N.of_nat n) then Some (N.of_nat n) else None.

(** [usize::checked_add]. *)
Definition usize_checked_add (a b : nat) : option nat :=
  if fits U64_LIMIT (N.of_nat (a + b)) then Some (a + b)%nat else None.

(** ** Bytes *)

Global Instance byte_eq_dec : EqDecision byte := Byte.byte_eq_dec.

Definition byte_of_N (n : N) : byte :=
  match Byte.of_N (n mod 256) with Some b => b | None => x00 end.

Global Program Instance byte_countable : Countable byte :=
  inj_countable Byte.to_N Byte.of_N _.
Next Obligation. apply Byte.of_to_N. Qed.

(** [str::as_bytes]. *)
Definition as_bytes (s : string) : list byte := String.list_byte_of_string s.

(** [n.to_be_bytes()] of a [w]-byte integer. *)
Fixpoint to_be_bytes (w : nat) (n : N) : list byte :=
  match w with
  | O => []
  | S w' => byte_of_N (n / 256 ^ N.of_nat w') :: to_be_bytes w' n
  end.

(** [uW::from_be_bytes(bytes)]. *)
Definition from_be_bytes (l : list byte) : N :=
  foldl (fun acc b => acc * 256 + Byte.to_N b) 0 l.

(** [&bytes[a..b]]. *)
Definition slice (a b : nat) (l : list byte) : list byte := take (b - a) (drop a l).

(** ** Checked arithmetic *)

Lemma checked_add_some limit a b c :
  checked_add limit a b = Some c <-> c = a + b /\ a + b < limit.
Proof. unfold checked_add, fits. destruct (N.ltb_spec (a + b) limit); naive_solver lia. Qed.

Lemma checked_add_fits limit a b : a + b < limit -> checked_add limit a b = Some (a + b).
Proof. intros. by apply checked_add_some. Qed.

Lemma checked_mul_some limit a b c :
  checked_mul limit a b = Some c <-> c = a * b /\ a * b < limit.
Proof. unfold checked_mul, fits. destruct (N.ltb_spec (a * b) limit); naive_solver lia. Qed.

Lemma checked_sub_some a b c :
  checked_sub a b = Some c <-> c = a - b /\ b <= a.
Proof. unfold checked_sub. destruct (N.leb_spec b a); naive_solver lia. Qed.

Lemma u64_of_len_some n m :
  u64_of_len n = Some m <-> m = N.of_nat n /\ N.of_nat n < U64_LIMIT.
Proof. unfold u64_of_len, fits. destruct (N.ltb_spec (N.of_nat n) U64_LIMIT); naive_solver lia. Qed.

Lemma usize_checked_add_some a b c :
  usize_checked_add a b = Some c <-> c = (a + b)%nat /\ N.of_nat (a + b) < U64_LIMIT.
Proof.
  unfold usize_checked_add, fits.
  destruct (N.ltb_spec (N.of_nat (a + b)) U64_LIMIT); naive_solver lia.
Qed.

(** ** Big-endian conversions *)

Lemma to_N_byte_of_N n : Byte.to_N (byte_of_N n) = n mod 256.
Proof.
  unfold byte_of_N. destruct (Byte.of_N (n mod 256)) as [b|] eqn:Hb.
  - by apply Byte.to_of_N in Hb.
  - apply Byte.of_N_None_iff in Hb. pose proof (N.mod_lt n 256). lia.
Qed.

Lemma byte_to_N_lt b : Byte.to_N b < 256.
Proof. pose proof (Byte.to_N_bounded b). lia. Qed.

Lemma length_to_be_bytes w n : length (to_be_bytes w n) = w.
Proof. induction w; cbn; auto. Qed.

Lemma from_be_bytes_app l k :
  from_be_bytes (l ++ k) = from_be_bytes l * 256 ^ N.of_nat (length k) + from_be_bytes k.
Proof.
  induction k as [|b k IH] using rev_ind.
  - rewrite app_nil_r. cbn. lia.
  - rewrite (assoc (++)). unfold from_be_bytes in *.
    rewrite !foldl_app in *. cbn. rewrite IH, length_app. cbn.
    replace (N.of_nat (length k + 1)) with (N.succ (N.of_nat (length k))) by lia.
    rewrite N.pow_succ_r by lia. lia.
Qed.

Lemma from_be_bytes_cons b l :
  from_be_bytes (b :: l) = Byte.to_N b * 256 ^ N.of_nat (length l) + from_be_bytes l.
Proof. apply (from_be_bytes_app [b] l). Qed.

Lemma from_to_be_bytes w n : from_be_bytes (to_be_bytes w n) = n mod 256 ^ N.of_nat w.
Proof.
  induction w as [|w IH]; [by rewrite N.mod_1_r|]. cbn [to_be_bytes].
  rewrite from_be_bytes_cons, length_to_be_bytes, IH, to_N_byte_of_N.
  set (p := 256 ^ N.of_nat w). assert (p <> 0) by (by apply N.pow_nonzero).
  replace (256 ^ N.of_nat (S w)) with (p * 256)
    by (rewrite Nat2N.inj_succ, N.pow_succ_r by lia; lia).
  rewrite N.Div0.mod_mul_r. lia.
Qed.

Lemma from_be_bytes_lt l : from_be_bytes l < 256 ^ N.of_nat (length l).
Proof.
  induction l as [|b l IH]; [done|]. rewrite from_be_bytes_cons. cbn [length].
  rewrite Nat2N.inj_succ, N.pow_succ_r by lia. pose proof (byte_to_N_lt b).
  set (p := 256 ^ N.of_nat (length l)) in *. nia.
Qed.

Lemma from_be_bytes_inj l k : length l = length k -> from_be_bytes l = from_be_bytes k -> l = k.
Proof.
  revert k. induction l as [|b l IH]; intros [|c k] Hl; cbn in Hl; try done. rewrite !from_be_bytes_cons. intros Heq.
  injection Hl as Hl. pose proof (from_be_bytes_lt l). pose proof (from_be_bytes_lt k). rewrite <- Hl in *.
  set (p := 256 ^ N.of_nat (length l)) in *.
  assert (Byte.to_N b = Byte.to_N c) as Hb by nia. rewrite Hb in Heq. f_equal; [|apply IH; [done|lia]].
  apply (f_equal Byte.of_N) in Hb. rewrite !Byte.of_to_N in Hb. by injection Hb.
Qed.

Lemma to_from_be_bytes l : to_be_bytes (length l) (from_be_bytes l) = l.
Proof.
  apply from_be_bytes_inj; [apply length_to_be_bytes|]. rewrite from_to_be_bytes. apply N.mod_small, from_be_bytes_lt.
Qed.

Lemma slice_app (a b c : list byte) : slice (length a) (length a + length b) (a ++ b ++ c) = b.
Proof.
  unfold slice. rewrite drop_app_length. replace (_ + _ - _)%nat with (length b) by lia. apply take_app_length.
Qed.

Lemma to_be_bytes_inj w a b :
  a < 256 ^ N.of_nat w -> b < 256 ^ N.of_nat w ->
  to_be_bytes w a = to_be_bytes w b -> a = b.
Proof.
  intros Ha Hb Heq. apply (f_equal from_be_bytes) in Heq.
  rewrite !from_to_be_bytes, !N.mod_small in Heq by done. done.
Qed.

(** The eight-byte conversion used for every [u64]. *)
Lemma to_be_bytes8_inj a b :
  a < U64_LIMIT -> b < U64_LIMIT -> to_be_bytes 8 a = to_be_bytes 8 b -> a = b.
Proof. apply (to_be_bytes_inj 8). Qed.

Lemma to_be_bytes4_inj a b :
  a < U32_LIMIT -> b < U32_LIMIT -> to_be_bytes 4 a = to_be_bytes 4 b -> a = b.
Proof. apply (to_be_bytes_inj 4). Qed.

Lemma as_bytes_inj s t : as_bytes s = as_bytes t -> s = t.
Proof.
  intros H. rewrite <- (String.string_of_list_byte_of_string s),
    <- (String.string_of_list_byte_of_string t). unfold as_bytes in H. by rewrite H.
Qed.

Lemma as_bytes_app s t : as_bytes (s +:+ t) = as_bytes s ++ as_bytes t.
Proof.
  unfold as_bytes. induction s as [|c s IH]; [done|].
  change (String.list_byte_of_string (String c s +:+ t))
    with (Ascii.byte_of_ascii c :: String.list_byte_of_string (s +:+ t)).
  by rewrite IH.
Qed.

(** Splitting off a field of known length is unambiguous. *)
Lemma app_inj_len {A} (a b c d : list A) :
  length a = length c -> a ++ b = c ++ d -> a = c /\ b = d.
Proof. intros. by apply app_inj_1. Qed.

(** ** Sums over maps *)

Definition map_total {K} `{Countable K} (m : gmap K N) : N := map_fold (fun _ n acc => n + acc) 0 m.

Section map_total.
Context {K : Type} `{Countable K}.
Implicit Types m : gmap K N.

Lemma map_total_empty : map_total (∅ : gmap K N) = 0.
Proof. apply map_fold_empty. Qed.

Lemma map_total_insert i n m : m !! i = None -> map_total (<[i := n]> m) = n + map_total m.
Proof. intros Hi. unfold map_total. rewrite map_fold_insert_L; [done|lia|done]. Qed.

Lemma map_total_delete i n m : m !! i = Some n -> map_total m = n + map_total (delete i m).
Proof. intros Hi. rewrite <- (insert_delete_id m i n Hi) at 1. by rewrite map_total_insert by apply lookup_delete_eq. Qed.

Lemma map_total_update i n n' m : m !! i = Some n -> map_total (<[i := n']> m) + n = map_total m + n'.
Proof.
  intros Hi. rewrite <- insert_delete_eq, map_total_insert by apply lookup_delete_eq. rewrite (map_total_delete i n m Hi). lia.
Qed.

Lemma map_total_mono (m m' : gmap K N) : m ⊆ m' -> map_total m <= map_total m'.
Proof.
  revert m'. induction m as [|i n m Hi IH] using map_ind; intros m' Hsub; [rewrite map_total_empty; lia|].
  rewrite map_total_insert by done. assert (m' !! i = Some n) as Hn by (eapply lookup_weaken; [apply lookup_insert_eq|done]).
  rewrite (map_total_delete i n m' Hn). apply N.add_le_mono_l, IH.
  by rewrite <- (delete_insert_id m i n Hi); apply delete_mono.
Qed.

Lemma map_total_fmap_le {A} (f g : A -> N) (m : gmap K A) :
  (forall i x, m !! i = Some x -> f x <= g x) -> map_total (f <$> m) <= map_total (g <$> m).
Proof.
  induction m as [|i x m Hi IH] using map_ind; intros Hle; [by rewrite !fmap_empty|].
  rewrite !fmap_insert, !map_total_insert by (by rewrite lookup_fmap, Hi).
  apply N.add_le_mono; [apply (Hle i), lookup_insert_eq|]. apply IH. intros j y Hj.
  apply (Hle j). rewrite lookup_insert_ne; [done|]. intros ->. congruence.
Qed.

(** A total that is not zero has a contribution. *)
Lemma map_total_fmap_pos {A} (f : A -> N) (m : gmap K A) :
  0 < map_total (f <$> m) -> exists i x, m !! i = Some x /\ 0 < f x.
Proof.
  induction m as [|i x m Hi IH] using map_ind; [by rewrite fmap_empty|].
  rewrite fmap_insert, map_total_insert by (by rewrite lookup_fmap, Hi). intros Hpos.
  destruct (decide (f x = 0)) as [Hx|Hx].
  - destruct IH as (j & y & Hj & Hy); [lia|]. exists j, y. split; [|done]. rewrite lookup_insert_ne; [done|]. intros ->. congruence.
  - exists i, x. split; [apply lookup_insert_eq|lia].
Qed.

Lemma map_total_fmap_zero {A} (f : A -> N) (m : gmap K A) :
  (forall i x, m !! i = Some x -> f x = 0) -> map_total (f <$> m) = 0.
Proof.
  intros Hz. destruct (decide (map_total (f <$> m) = 0)) as [?|Hn]; [done|].
  destruct (map_total_fmap_pos f m) as (i & x & Hi & Hx); [lia|]. rewrite (Hz i x Hi) in Hx. lia.
Qed.
End map_total.

(** ** Sums over a list *)

Definition sum_of {A} (f : A -> N) (l : list A) : N := foldr (fun x n => f x + n) 0 l.

Lemma sum_of_app {A} (f : A -> N) l k : sum_of f (l ++ k) = sum_of f l + sum_of f k.
Proof. unfold sum_of. induction l as [|x l IH]; cbn; [done|]. rewrite IH. lia. Qed.

Global Instance sum_of_perm {A} (f : A -> N) : Proper ((≡ₚ) ==> (=)) (sum_of f).
Proof. intros l k Hp. induction Hp; cbn; unfold sum_of in *; cbn; lia. Qed.

Lemma sum_of_elem {A} (f : A -> N) l x : x ∈ l -> f x <= sum_of f l.
Proof. induction 1; cbn; unfold sum_of in *; lia. Qed.

Lemma sum_of_subset {A} (f : A -> N) l k : NoDup l -> l ⊆ k -> sum_of f l <= sum_of f k.
Proof.
  intros Hnd Hsub. destruct (submseteq_Permutation l k) as [r Hr]; [by apply NoDup_submseteq|]. rewrite Hr, sum_of_app. lia.
Qed.

Lemma sum_of_filter {A} (f : A -> N) (P : A -> Prop) `{!forall x, Decision (P x)} (l : list A) : sum_of f (filter P l) <= sum_of f l.
Proof. rewrite <- (filter_app_complement P l) at 2. rewrite sum_of_app. lia. Qed.

Lemma sum_of_fmap {A B} (f : B -> N) (g : A -> B) (l : list A) : sum_of f (g <$> l) = sum_of (f ∘ g) l.
Proof. induction l as [|x l IH]; [done|]. rewrite fmap_cons. unfold sum_of in *. cbn [foldr]. by rewrite IH. Qed.

Lemma sum_of_le {A} (f g : A -> N) (l : list A) : (forall x, x ∈ l -> f x <= g x) -> sum_of f l <= sum_of g l.
Proof.
  induction l as [|x l IH]; intros Hl; [done|]. unfold sum_of in *. cbn. pose proof (Hl x ltac:(left)).
  pose proof (IH ltac:(intros y Hy; apply Hl; by right)). lia.
Qed.
