(* ===== verification/Ordered.v ===== *)
(** * Rust's derived orders and ordered collections

    [RustOrd] is the [Ord] trait: a three-way comparison that is total and
    antisymmetric.  Derived instances compare fields lexicographically in
    declaration order; strings and byte vectors compare bytewise.  A
    [BTreeSet] is a [gset], a [BTreeMap] a [gmap]; [sorted_elements] is their
    ascending iteration order, which the code relies on wherever it collects
    an ordered collection into a [Vec]. *)

From Stdlib Require Import Strings.Byte Strings.String.
From S2P Require Import Prelude Words.

Class RustOrd (A : Type) := {
  cmp : A -> A -> comparison;
  cmp_eq : forall x y, cmp x y = Eq <-> x = y;
  cmp_antisym : forall x y, cmp y x = CompOpp (cmp x y);
  cmp_trans : forall x y z, cmp x y = Lt -> cmp y z = Lt -> cmp x z = Lt;
}.
Global Hint Mode RustOrd ! : typeclass_instances.

(** [x <= y] and [x < y]. *)
Definition rle {A} `{RustOrd A} (x y : A) : Prop := cmp x y <> Gt.
Definition rlt {A} `{RustOrd A} (x y : A) : Prop := cmp x y = Lt.

(** ** Derived instances *)

Definition then_cmp (c d : comparison) : comparison :=
  match c with Eq => d | _ => c end.

Definition option_cmp {A} (c : A -> A -> comparison) (x y : option A) : comparison :=
  match x, y with
  | None, None => Eq
  | None, Some _ => Lt
  | Some _, None => Gt
  | Some a, Some b => c a b
  end.

Fixpoint list_cmp {A} (c : A -> A -> comparison) (l k : list A) : comparison :=
  match l, k with
  | [], [] => Eq
  | [], _ => Lt
  | _, [] => Gt
  | x :: l, y :: k => then_cmp (c x y) (list_cmp c l k)
  end.

(** ** Ordered iteration *)

Global Instance rle_dec {A} `{RustOrd A} : RelDecision (rle (A:=A)).
Proof. intros x y. unfold rle. apply _. Defined.
Global Instance rlt_dec {A} `{RustOrd A} : RelDecision (rlt (A:=A)).
Proof. intros x y. unfold rlt. apply _. Defined.

(** [set.into_iter().collect::<Vec<_>>()] of a [BTreeSet]. *)
Definition sorted_elements {A} `{RustOrd A, Countable A} (s : gset A) : list A :=
  merge_sort rle (elements s).

(** [vec.sort_unstable()]. *)
Definition sort {A} `{RustOrd A} (l : list A) : list A := merge_sort rle l.

(** [vec.dedup()]: drop repeated neighbours. *)
Fixpoint dedup {A} `{EqDecision A} (l : list A) : list A :=
  match l with
  | x :: (y :: _) as l' => if decide (x = y) then dedup l' else x :: dedup l'
  | _ => l
  end.

(** [values.windows(2).all(|pair| pair[0] < pair[1])]. *)
Definition is_sorted_unique {A} `{RustOrd A} (l : list A) : bool :=
  windows2_all (fun x y => bool_decide (rlt x y)) l.

Arguments sorted_elements : simpl never.
Arguments sort : simpl never.

(** ** The instances are lawful *)

Section laws.
Context {A : Type} `{HA : RustOrd A}.
Implicit Types x y z : A.

Lemma cmp_refl x : cmp x x = Eq.
Proof. by apply cmp_eq. Qed.

Lemma cmp_gt_lt x y : cmp x y = Gt <-> cmp y x = Lt.
Proof. rewrite (cmp_antisym x y). destruct (cmp x y); naive_solver. Qed.

Global Instance rlt_trans : Transitive (rlt (A:=A)).
Proof. intros x y z. apply cmp_trans. Qed.

Lemma rlt_irrefl x : ~ rlt x x.
Proof. unfold rlt. by rewrite cmp_refl. Qed.

Lemma rle_lt_eq x y : rle x y <-> rlt x y \/ x = y.
Proof. unfold rle, rlt. rewrite <- cmp_eq. destruct (cmp x y); naive_solver. Qed.

Lemma rle_antisym x y : rle x y -> rle y x -> x = y.
Proof.
  rewrite !rle_lt_eq. intros [Hxy|]; [|done]. intros [Hyx|]; [|done].
  destruct (rlt_irrefl x). by transitivity y.
Qed.

Global Instance rle_refl : Reflexive (rle (A:=A)).
Proof. intros x. apply rle_lt_eq. auto. Qed.

Global Instance rle_trans : Transitive (rle (A:=A)).
Proof.
  intros x y z. rewrite !rle_lt_eq. intros [?| ->]; [|done].
  intros [?| <-]; [|by left]. left. by transitivity y.
Qed.

Global Instance rle_anti_symm : AntiSymm (=) (rle (A:=A)).
Proof. intros x y. apply rle_antisym. Qed.

Global Instance rle_total : Total (rle (A:=A)).
Proof.
  intros x y. unfold rle. rewrite (cmp_antisym x y). destruct (cmp x y); naive_solver.
Qed.

Lemma not_rle x y : ~ rle x y <-> rlt y x.
Proof. unfold rle, rlt. rewrite <- cmp_gt_lt. destruct (cmp x y); naive_solver. Qed.
End laws.

Lemma option_cmp_lawful {A} `{RustOrd A} :
  (forall x y, option_cmp (cmp (A:=A)) x y = Eq <-> x = y) /\
  (forall x y, option_cmp (cmp (A:=A)) y x = CompOpp (option_cmp cmp x y)) /\
  (forall x y z, option_cmp (cmp (A:=A)) x y = Lt -> option_cmp cmp y z = Lt ->
                 option_cmp cmp x z = Lt).
Proof.
  split_and!.
  - intros [x|] [y|]; cbn; try rewrite cmp_eq; naive_solver.
  - intros [x|] [y|]; cbn; auto using cmp_antisym.
  - intros [x|] [y|] [z|]; cbn; try done. apply cmp_trans.
Qed.

Lemma then_cmp_eq c d : then_cmp c d = Eq <-> c = Eq /\ d = Eq.
Proof. destruct c, d; naive_solver. Qed.
Lemma then_cmp_lt c d : then_cmp c d = Lt <-> c = Lt \/ c = Eq /\ d = Lt.
Proof. destruct c, d; naive_solver. Qed.
Lemma then_cmp_opp c d : CompOpp (then_cmp c d) = then_cmp (CompOpp c) (CompOpp d).
Proof. by destruct c. Qed.

Global Program Instance N_ord : RustOrd N := {| cmp := N.compare |}.
Next Obligation. apply N.compare_eq_iff. Qed.
Next Obligation. intros; apply N.compare_antisym. Qed.
Next Obligation. intros x y z. rewrite !N.compare_lt_iff. apply N.lt_trans. Qed.

Global Program Instance option_ord {A} `{RustOrd A} : RustOrd (option A) :=
  {| cmp := option_cmp cmp |}.
Next Obligation. intros. apply option_cmp_lawful. Qed.
Next Obligation. intros. apply option_cmp_lawful. Qed.
Next Obligation. intros ? ? x y z. apply option_cmp_lawful. Qed.

Global Program Instance prod_ord {A B} `{RustOrd A, RustOrd B} : RustOrd (A * B) :=
  {| cmp p q := then_cmp (cmp p.1 q.1) (cmp p.2 q.2) |}.
Next Obligation.
  intros A B ?? [a b] [c d]; cbn. rewrite then_cmp_eq, !cmp_eq. naive_solver.
Qed.
Next Obligation.
  intros A B ?? [a b] [c d]; cbn. by rewrite then_cmp_opp, <- !cmp_antisym.
Qed.
Next Obligation.
  intros A B ?? [a b] [c d] [e f]; cbn. rewrite !then_cmp_lt, !cmp_eq.
  intros [?|[-> ?]] [?|[<- ?]]; eauto using cmp_trans.
Qed.

Global Program Instance list_ord {A} `{RustOrd A} : RustOrd (list A) :=
  {| cmp := list_cmp cmp |}.
Next Obligation.
  intros A ? l. induction l as [|x l IH]; intros [|y k]; cbn; try naive_solver.
  rewrite then_cmp_eq, cmp_eq, IH. naive_solver.
Qed.
Next Obligation.
  intros A ? l. induction l as [|x l IH]; intros [|y k]; cbn; try done.
  by rewrite then_cmp_opp, <- IH, <- cmp_antisym.
Qed.
Next Obligation.
  intros A ? l. induction l as [|x l IH]; intros [|y k] [|z m]; cbn; try done.
  rewrite !then_cmp_lt, !cmp_eq. intros [?|[-> ?]] [?|[<- ?]]; eauto using cmp_trans.
Qed.

(** A record's derived order is the order of its tuple of fields. *)
Program Definition ord_by {A B} `{RustOrd B} (f : A -> B) (Hf : Inj (=) (=) f) : RustOrd A :=
  {| cmp x y := cmp (f x) (f y) |}.
Next Obligation. intros. rewrite cmp_eq. split; [apply Hf|by intros ->]. Qed.
Next Obligation. intros. apply cmp_antisym. Qed.
Next Obligation. intros A B ? f Hf x y z. cbn. apply cmp_trans. Qed.

Global Instance byte_to_N_inj : Inj (=) (=) Byte.to_N.
Proof.
  intros x y E. apply (f_equal Byte.of_N) in E. rewrite !Byte.of_to_N in E. congruence.
Qed.
Global Instance as_bytes_Inj : Inj (=) (=) as_bytes.
Proof. intros x y. apply as_bytes_inj. Qed.

Global Instance byte_ord : RustOrd byte := ord_by Byte.to_N _.
Global Instance string_ord : RustOrd string := ord_by as_bytes _.

(** ** Ordered iteration is canonical *)

Section sorted.
Context {A : Type} `{RustOrd A} `{!EqDecision A} `{!Countable A}.
Implicit Types (l k : list A) (s t : gset A).

Lemma sorted_elements_perm s : sorted_elements s ≡ₚ elements s.
Proof. apply merge_sort_Permutation. Qed.

Lemma elem_of_sorted_elements x s : x ∈ sorted_elements s <-> x ∈ s.
Proof. by rewrite sorted_elements_perm, elem_of_elements. Qed.

Lemma NoDup_sorted_elements s : NoDup (sorted_elements s).
Proof. rewrite sorted_elements_perm. apply NoDup_elements. Qed.

Lemma length_sorted_elements s : length (sorted_elements s) = size s.
Proof. by rewrite sorted_elements_perm. Qed.

Lemma sort_perm l : sort l ≡ₚ l.
Proof. apply merge_sort_Permutation. Qed.

Lemma sort_sorted l : StronglySorted rle (sort l).
Proof. apply StronglySorted_merge_sort; apply _. Qed.

Lemma StronglySorted_rlt l : StronglySorted rle l -> NoDup l -> StronglySorted rlt l.
Proof.
  induction 1 as [|x l Hs IH Hx]; intros Hnd; [constructor|].
  apply NoDup_cons in Hnd as [Hni Hnd]. constructor; [auto|].
  apply Forall_forall. intros y Hy. rewrite Forall_forall in Hx.
  destruct (proj1 (rle_lt_eq x y) (Hx y Hy)) as [| ->]; [done|]. done.
Qed.

Lemma StronglySorted_rlt_NoDup l : StronglySorted rlt l -> NoDup l.
Proof.
  induction 1 as [|x l Hs IH Hx]; constructor; [|done].
  intros Hin. rewrite Forall_forall in Hx. by apply (rlt_irrefl x), Hx.
Qed.

Lemma sorted_elements_strict s : StronglySorted rlt (sorted_elements s).
Proof.
  apply StronglySorted_rlt; [|apply NoDup_sorted_elements].
  apply StronglySorted_merge_sort; apply _.
Qed.

Lemma StronglySorted_cons2 x y l : StronglySorted rlt (x :: y :: l) <-> rlt x y /\ StronglySorted (A:=A) rlt (y :: l).
Proof.
  split.
  - intros [Hs Hx]%StronglySorted_inv. apply Forall_cons in Hx as [? _]. done.
  - intros [Hxy Hs]. constructor; [done|]. constructor; [done|]. apply StronglySorted_inv in Hs as [_ Hy].
    eapply Forall_impl; [exact Hy|]. intros z Hz. by transitivity y.
Qed.

(** Two strictly ascending lists with the same members are the same list. *)
Lemma strictly_sorted_unique l k :
  StronglySorted rlt l -> StronglySorted rlt k -> (forall x, x ∈ l <-> x ∈ k) -> l = k.
Proof.
  intros Hl Hk Heq. assert (forall m, StronglySorted rlt m -> StronglySorted (A:=A) rle m) as Hw.
  { intros m. induction 1 as [|x m Hs IH Hx]; constructor; [done|].
    eapply Forall_impl; [done|]. intros y Hy. apply rle_lt_eq. by left. }
  eapply (StronglySorted_unique rle); [by apply Hw..|].
  apply NoDup_Permutation; auto using StronglySorted_rlt_NoDup.
Qed.

Lemma is_sorted_unique_spec l : is_sorted_unique l = true <-> StronglySorted rlt l.
Proof.
  unfold is_sorted_unique. rewrite windows2_all_decide. split.
  - apply Sorted_StronglySorted, _.
  - apply StronglySorted_Sorted.
Qed.

Lemma is_sorted_unique_elements s : is_sorted_unique (sorted_elements s) = true.
Proof. apply is_sorted_unique_spec, sorted_elements_strict. Qed.

Lemma dedup_cons2 x y l :
  dedup (x :: y :: l) = if decide (x = y) then dedup (y :: l) else x :: dedup (y :: l).
Proof. done. Qed.

Lemma elem_of_dedup x l : x ∈ dedup l <-> x ∈ l.
Proof.
  induction l as [|y l IH]; [done|]. destruct l as [|z l]; [done|].
  rewrite dedup_cons2. case_decide as Hyz.
  - subst. rewrite IH. set_solver.
  - rewrite !elem_of_cons, IH. set_solver.
Qed.

(** [sort_unstable] followed by [dedup] is the ascending list of members. *)
Lemma dedup_sorted l : StronglySorted rle l -> StronglySorted rlt (dedup l).
Proof.
  induction 1 as [|x l Hs IH Hx]; [constructor|]. destruct l as [|y l]; [by repeat constructor|].
  rewrite dedup_cons2. case_decide as Hxy; [done|]. constructor; [done|].
  apply Forall_forall. intros z Hz. rewrite elem_of_dedup in Hz.
  assert (rlt x y) as Hxy'.
  { rewrite Forall_forall in Hx. destruct (proj1 (rle_lt_eq x y)); [apply Hx; left|done..]. }
  apply elem_of_cons in Hz as [->|Hz]; [done|].
  apply StronglySorted_inv in Hs as [_ Hy]. rewrite Forall_forall in Hy.
  destruct (proj1 (rle_lt_eq y z) (Hy z Hz)) as [| <-]; [by transitivity y|done].
Qed.

Lemma sort_dedup_elements l : dedup (sort l) = sorted_elements (list_to_set l : gset A).
Proof.
  apply strictly_sorted_unique.
  - apply dedup_sorted, sort_sorted.
  - apply sorted_elements_strict.
  - intros x. rewrite elem_of_dedup, sort_perm, elem_of_sorted_elements. set_solver.
Qed.
End sorted.

(** The validators spell the check on integers with [<]. *)
Lemma windows2_ltb_sorted (l : list N) :
  windows2_all (fun a b => a <? b)%N l = true <-> StronglySorted rlt l.
Proof.
  rewrite <- is_sorted_unique_spec. unfold is_sorted_unique.
  assert (forall a b : N, (a <? b)%N = bool_decide (rlt a b)) as Heq.
  { intros a b. apply eq_true_iff_eq. by rewrite bool_decide_eq_true, N.ltb_lt. }
  induction l as [|a l IH]; [done|]. destruct l as [|b l]; [done|].
  by rewrite !windows2_all_cons, !andb_true_iff, Heq, IH.
Qed.

(** ** Binary search *)

Section binary_search.
Context {A : Type} `{RustOrd A}.
Implicit Types (l : list A) (x y : A).

(** The halving loop of [slice::binary_search]: the final [base].  Every round
    removes at least one candidate, so the length bounds the rounds. *)
Fixpoint search_base (fuel : nat) (l : list A) (x : A) (base size : nat) : nat :=
  match fuel with
  | O => base
  | S fuel =>
      if size <=? 1 then base
      else
        let half := size / 2 in
        let mid := base + half in
        let base := match l !! mid with
                    | Some y => match cmp y x with Gt => base | _ => mid end
                    | None => base
                    end in
        search_base fuel l x base (size - half)
  end.

(** [slice.binary_search(&x).ok()]. *)
Definition binary_search (l : list A) (x : A) : option nat :=
  let base := search_base (length l) l x 0 (length l) in
  match l !! base with
  | Some y => match cmp y x with Eq => Some base | _ => None end
  | None => None
  end.

Lemma search_base_spec fuel l x base size i :
  StronglySorted rlt l -> base + size <= length l -> size <= fuel ->
  l !! i = Some x -> base <= i < base + size -> search_base fuel l x base size = i.
Proof using Type.
  intros Hs. revert base size. induction fuel as [|fuel IH]; intros base size Hlen Hfuel Hx Hi;
    cbn [search_base]; [lia|].
  destruct (Nat.leb_spec size 1); [lia|].
  assert (0 < size / 2 < size) as Hhalf.
  { split; [apply Nat.div_str_pos; lia|apply Nat.div_lt; lia]. }
  assert (2 * (size / 2) <= size) as Hhalf2 by apply Nat.Div0.mul_div_le.
  generalize dependent (size / 2). intros half Hhalf Hhalf2.
  destruct (lookup_lt_is_Some_2 l (base + half)) as [y Hy]; [lia|]. rewrite Hy.
  assert (i < base + half -> cmp y x = Gt) as Hgt.
  { intros Hlt. apply cmp_gt_lt. by eapply (StronglySorted_lookup rlt l i (base + half)). }
  assert (base + half <= i -> cmp y x <> Gt) as Hle.
  { intros Hge Hc. destruct (decide (i = base + half)) as [->|].
    - rewrite Hx in Hy. injection Hy as ->. by rewrite cmp_refl in Hc.
    - assert (rlt y x) as Hlt by (by eapply (StronglySorted_lookup rlt l (base + half) i); [|lia|..]).
      unfold rlt in Hlt. congruence. }
  destruct (decide (i < base + half)) as [Hlt|Hge].
  - rewrite (Hgt Hlt). apply IH; lia || done.
  - assert (cmp y x <> Gt) as Hc by (apply Hle; lia). destruct (cmp y x); try done; apply IH; lia || done.
Qed.

(** On a strictly ascending slice the search finds exactly the members. *)
Lemma binary_search_spec l x :
  StronglySorted rlt l -> is_Some (binary_search l x) <-> x ∈ l.
Proof using Type.
  intros Hs. unfold binary_search. split.
  - intros [i Hi]. destruct (l !! _) as [y|] eqn:Hy; [|done]. destruct (cmp y x) eqn:Hc; try done.
    apply cmp_eq in Hc as ->. by eapply list_elem_of_lookup_2.
  - intros [i Hi]%list_elem_of_lookup. pose proof (lookup_lt_Some _ _ _ Hi).
    rewrite (search_base_spec (length l) l x 0 (length l) i) by (done || lia).
    rewrite Hi, cmp_refl. eauto.
Qed.

Lemma binary_search_lookup l x i : binary_search l x = Some i -> l !! i = Some x.
Proof using Type.
  unfold binary_search. destruct (l !! _) as [y|] eqn:Hy; [|done]. destruct (cmp y x) eqn:Hc; try done.
  intros [= <-]. apply cmp_eq in Hc as <-. done.
Qed.

Definition binary_search_found (l : list A) (x : A) : bool :=
  match binary_search l x with Some _ => true | None => false end.

Lemma binary_search_found_spec l x :
  StronglySorted rlt l -> binary_search_found l x = true <-> x ∈ l.
Proof using Type.
  intros Hs. rewrite <- (binary_search_spec l x Hs). unfold binary_search_found.
  destruct (binary_search l x); split; eauto; done || by intros [? ?].
Qed.
End binary_search.

(** ** Sorting by a key *)

Section sort_by_key.
Context {A B : Type} `{RustOrd B} (key : A -> B).

Definition key_le (x y : A) : Prop := rle (key x) (key y).

Global Instance key_le_dec : RelDecision key_le.
Proof. intros x y. unfold key_le. apply _. Defined.
Global Instance key_le_total : Total key_le.
Proof. intros x y. unfold key_le. apply total, _. Qed.
Global Instance key_le_trans : Transitive key_le.
Proof. intros x y z. unfold key_le. apply rle_trans. Qed.

(** [vec.sort_by_key(key)]. *)
Definition sort_by_key (l : list A) : list A := merge_sort key_le l.

Lemma sort_by_key_perm l : sort_by_key l ≡ₚ l.
Proof using Type. apply merge_sort_Permutation. Qed.

Lemma sort_by_key_sorted l : StronglySorted key_le (sort_by_key l).
Proof using Type. apply StronglySorted_merge_sort; apply _. Qed.

(** With distinct keys the order of arrival is irrelevant. *)
Lemma sort_by_key_unique `{!EqDecision B} l k :
  NoDup (key <$> l) -> l ≡ₚ k -> StronglySorted key_le k -> sort_by_key l = k.
Proof using Type.
  intros Hnd Hp Hk. pose proof (sort_by_key_sorted l) as Hs.
  assert (sort_by_key l ≡ₚ k) as Hp' by by rewrite sort_by_key_perm.
  rewrite Hp in Hnd. clear Hp. revert k Hk Hp' Hnd. generalize (sort_by_key l) Hs. clear l Hs.
  induction 1 as [|x l Hl IH Hx]; intros k Hk Hp Hnd; [by apply Permutation_nil_l in Hp|].
  destruct k as [|y k]; [by apply Permutation_nil_r in Hp|].
  assert (x = y) as ->.
  { apply StronglySorted_inv in Hk as [_ Hy]. rewrite Forall_forall in Hx, Hy.
    assert (x ∈ y :: k) as Hxk by (rewrite <- Hp; left).
    assert (y ∈ x :: l) as Hyl by (rewrite Hp; left).
    eapply (NoDup_fmap_inj key); [done|done|left|].
    apply elem_of_cons in Hxk as [->|Hxk]; [done|].
    apply elem_of_cons in Hyl as [->|Hyl]; [done|].
    apply rle_antisym; [by apply Hx|by apply Hy]. }
  f_equal. apply StronglySorted_inv in Hk as [Hk _]. apply NoDup_cons in Hnd as [_ Hnd].
  apply IH; [done|by apply Permutation_cons_inv in Hp|done].
Qed.
End sort_by_key.
Arguments sort_by_key : simpl never.

(** ** Iteration and merging of [BTreeMap]s *)

Section maps.
Context {K V : Type} `{EqDecision K} `{!Countable K} `{!RustOrd K} `{EqDecision V}.
Implicit Types (m l r : gmap K V).

(** [map.iter()]: bindings in ascending key order. *)
Definition sorted_bindings m : list (K * V) :=
  merge_sort (fun p q => rle p.1 q.1) (map_to_list m).

Lemma sorted_bindings_perm m : sorted_bindings m ≡ₚ map_to_list m.
Proof. apply merge_sort_Permutation. Qed.

Lemma elem_of_sorted_bindings m k v : (k, v) ∈ sorted_bindings m <-> m !! k = Some v.
Proof. by rewrite sorted_bindings_perm, elem_of_map_to_list. Qed.

Lemma NoDup_sorted_bindings_fst m : NoDup (sorted_bindings m).*1.
Proof. rewrite sorted_bindings_perm. apply NoDup_fst_map_to_list. Qed.

(** Copying the bindings of [r] that are absent in [l], and failing on the
    first disagreement, computes the union of agreeing maps and fails exactly
    when they disagree. *)
Definition merge_binding {E} (err : K -> E) (joined : gmap K V) (b : K * V) :
    result E (gmap K V) :=
  match joined !! b.1 with
  | Some existing => if decide (existing = b.2) then Ok joined else Err (err b.1)
  | None => Ok (<[b.1 := b.2]> joined)
  end.

Lemma merge_bindings_agree {E} (err : K -> E) l r :
  map_agree l r -> try_fold (merge_binding err) l (sorted_bindings r) = Ok (l ∪ r).
Proof.
  rewrite map_agree_spec. intros Hag.
  cut (forall bs acc, (forall k v, (k, v) ∈ bs -> acc !! k = None \/ acc !! k = Some v) ->
         NoDup bs.*1 ->
         try_fold (merge_binding err) acc bs = Ok (acc ∪ list_to_map bs)).
  { intros H. rewrite (H (sorted_bindings r) l).
    - do 2 f_equal. rewrite <- (list_to_map_to_list r) at 2.
      apply list_to_map_proper; [apply NoDup_sorted_bindings_fst|apply sorted_bindings_perm].
    - intros k v Hk%elem_of_sorted_bindings. destruct (l !! k) eqn:Hl; [|auto]. right. f_equal. eauto.
    - apply NoDup_sorted_bindings_fst. }
  clear l r Hag. induction bs as [|[k v] bs IH]; intros acc Hacc Hnd; cbn.
  - by rewrite (right_id_L ∅ (∪)).
  - apply NoDup_cons in Hnd as [Hk Hnd]. unfold merge_binding at 2; cbn.
    destruct (Hacc k v) as [Hn|Hs]; [left|..].
    + rewrite Hn. cbn. rewrite IH; [|intros k' v' Hin|done].
      * f_equal. rewrite <- insert_union_l. by rewrite <- insert_union_r.
      * rewrite lookup_insert_ne; [apply Hacc; by right|].
        intros <-. destruct Hk. apply list_elem_of_fmap. by exists (k, v').
    + rewrite Hs, decide_True by done. cbn. rewrite IH; [|intros; apply Hacc; by right|done].
      f_equal.
      apply map_eq. intros j. rewrite !lookup_union.
      destruct (decide (j = k)) as [->|]; [by rewrite Hs, lookup_insert_eq; destruct (list_to_map bs !! k)|].
      by rewrite lookup_insert_ne.
Qed.

Lemma merge_bindings_inv {E} (err : K -> E) bs acc m :
  NoDup bs.*1 -> try_fold (merge_binding err) acc bs = Ok m ->
  forall k v, (k, v) ∈ bs -> acc !! k = None \/ acc !! k = Some v.
Proof.
  revert acc; induction bs as [|[k v] bs IH]; intros acc Hnd Hok k' v' Hin; [set_solver|].
  apply NoDup_cons in Hnd as [Hk Hnd]. cbn in Hok. inv_ok Hok. unfold merge_binding in Ha; cbn in Ha.
  apply elem_of_cons in Hin as [[= -> ->]|Hin].
  - destruct (acc !! k) as [w|]; [|by left]. case_decide; [subst; by right|done].
  - assert (k <> k') as Hne by (intros <-; destruct Hk; apply list_elem_of_fmap; by exists (k, v')).
    destruct (IH a Hnd Hok k' v' Hin) as [Ha'|Ha'];
      destruct (acc !! k) as [w|]; try case_decide; simplify_eq;
      rewrite ?lookup_insert_ne in Ha' by done; auto.
Qed.

Lemma merge_bindings_ok {E} (err : K -> E) l r m :
  try_fold (merge_binding err) l (sorted_bindings r) = Ok m <-> map_agree l r /\ m = l ∪ r.
Proof.
  split.
  - intros H. assert (map_agree l r) as Hag.
    { apply map_agree_spec. intros k x y Hx Hy.
      destruct (merge_bindings_inv err _ _ _ (NoDup_sorted_bindings_fst r) H k y);
        [by apply elem_of_sorted_bindings|congruence..]. }
    split; [done|]. rewrite merge_bindings_agree in H by done. congruence.
  - intros [? ->]. by apply merge_bindings_agree.
Qed.
End maps.

Lemma sorted_bindings_keys {K V} `{Countable K, !RustOrd K} (m : gmap K V) : StronglySorted rlt (sorted_bindings m).*1.
Proof.
  apply StronglySorted_rlt; [|apply NoDup_sorted_bindings_fst].
  assert (StronglySorted (fun p q : K * V => rle p.1 q.1) (sorted_bindings m)) as Hs.
  { apply StronglySorted_merge_sort.
    - intros p q r. apply rle_trans.
    - intros p q. apply (total rle). }
  induction Hs as [|p l Hl IH Hp]; cbn; constructor; [done|]. apply Forall_fmap. done.
Qed.

Arguments sorted_bindings : simpl never.
