(* ===== verification/Digest.v ===== *)
(** * Digests, hexadecimal identities and hash preimages

    SHA-256 comes from the [sha2] crate and is a parameter ([Sha256]): the only
    thing the code relies on is that a digest has 32 bytes; likewise [Blake3].  A running hasher
    is the list of bytes fed to it so far, [hash.update(b)] appends, and
    [hash.finalize()] applies [sha256].  Collision freedom is never assumed:
    what the identities rest on is that their preimages are unambiguous, which
    the lemmas on [component] establish. *)

From Stdlib Require Import Strings.Byte Strings.String Strings.Ascii.
From S2P Require Import Prelude Words Ordered.

Class Sha256 := {
  sha256 : list byte -> list byte;
  sha256_length : forall message, length (sha256 message) = 32%nat;
}.

(** BLAKE3, of the [blake3] crate. *)
Class Blake3 := {
  blake3 : list byte -> list byte;
  blake3_length : forall message, length (blake3 message) = 32%nat;
}.

(** Two given messages that differ and have one digest.  That some such
    messages exist follows from the length of digests; a theorem on an identity
    therefore names the messages, those hashed for the objects it compares. *)
Definition collide `{Sha256} (x y : list byte) : Prop := x <> y /\ sha256 x = sha256 y.
Definition blake3_collide `{Blake3} (x y : list byte) : Prop := x <> y /\ blake3 x = blake3 y.

(** ** Lower-case hexadecimal digests *)

(** [byte.is_ascii_hexdigit() && !byte.is_ascii_uppercase()]. *)
Definition lower_hex_byte (b : byte) : bool :=
  let n := Byte.to_N b in
  ((48 <=? n) && (n <=? 57) || (97 <=? n) && (n <=? 102))%N.

Definition lower_hex_sha256 (value : string) : bool :=
  (String.length value =? 64)%nat && forallb lower_hex_byte (as_bytes value).

Definition HEX : list byte := as_bytes "0123456789abcdef".

Definition hex_digit (n : N) : byte := nth (N.to_nat n) HEX x00.

(** [hex_encode]: two lower-case digits per byte, high nibble first. *)
Definition hex_encode (bytes : list byte) : string :=
  String.string_of_list_byte
    (concat ((fun b => [hex_digit (Byte.to_N b / 16); hex_digit (Byte.to_N b mod 16)]) <$> bytes)).

(** [hex::decode] of lower-case digits. *)
Definition hex_value (b : byte) : option N :=
  let n := Byte.to_N b in
  if ((48 <=? n) && (n <=? 57))%N then Some (n - 48)%N
  else if ((97 <=? n) && (n <=? 102))%N then Some (n - 87)%N else None.

Fixpoint hex_decode (text : list byte) : option (list byte) :=
  match text with
  | [] => Some []
  | hi :: lo :: rest =>
      h ← hex_value hi; l ← hex_value lo; out ← hex_decode rest;
      Some (byte_of_N (h * 16 + l) :: out)
  | _ => None
  end.

(** ** Preimages *)

(** [hash_component] / [append_component]: an eight-byte big-endian length,
    then the bytes.  [None] is the failing [u64::try_from]. *)
Definition component (bytes : list byte) : option (list byte) :=
  n ← u64_of_len (length bytes); Some (to_be_bytes 8 n ++ bytes).

(** The owner index taken from a digest: its first eight bytes, read as a
    big-endian [u64], modulo the partition count. *)
Definition digest_bucket `{Sha256} (message : list byte) (count : N) : N :=
  (from_be_bytes (take 8 (sha256 message)) mod count)%N.

(** ** Facts *)

Lemma component_some bytes out :
  component bytes = Some out <->
  (N.of_nat (length bytes) < U64_LIMIT)%N /\ out = to_be_bytes 8 (N.of_nat (length bytes)) ++ bytes.
Proof.
  unfold component. destruct (u64_of_len (length bytes)) as [n|] eqn:Hn; cbn.
  - apply u64_of_len_some in Hn as [-> ?]. naive_solver.
  - split; [done|]. intros [? ->]. exfalso.
    assert (u64_of_len (length bytes) = Some (N.of_nat (length bytes))) by (by apply u64_of_len_some).
    congruence.
Qed.

(** Length-prefixed components concatenate without ambiguity. *)
Lemma component_app_inj a b ca cb x y :
  component a = Some ca -> component b = Some cb -> ca ++ x = cb ++ y -> a = b /\ x = y.
Proof.
  rewrite !component_some. intros [Ha ->] [Hb ->]. rewrite <- !(assoc (++)).
  intros [Hlen Hrest]%app_inj_len; [|by rewrite !length_to_be_bytes].
  apply to_be_bytes8_inj in Hlen; [|done..].
  apply app_inj_len in Hrest; [done|]. lia.
Qed.

Lemma digest_bucket_lt `{Sha256} message count :
  (0 < count)%N -> (digest_bucket message count < count)%N.
Proof. intros. apply N.mod_lt. lia. Qed.

Lemma hex_digit_lower n : (n < 16)%N -> lower_hex_byte (hex_digit n) = true.
Proof.
  intros Hn. assert (exists k, (k < 16)%nat /\ n = N.of_nat k) as (k & Hk & ->).
  { exists (N.to_nat n). lia. }
  do 16 (destruct k as [|k]; [done|]). lia.
Qed.

Lemma hex_digit_inj a b : (a < 16)%N -> (b < 16)%N -> hex_digit a = hex_digit b -> a = b.
Proof.
  intros Ha Hb.
  assert (exists k, (k < 16)%nat /\ a = N.of_nat k) as (k & Hk & ->) by (exists (N.to_nat a); lia).
  assert (exists j, (j < 16)%nat /\ b = N.of_nat j) as (j & Hj & ->) by (exists (N.to_nat b); lia).
  clear Ha Hb. revert j Hj.
  do 16 (destruct k as [|k];
    [intros j; do 16 (destruct j as [|j]; [cbn; done|]); lia|]). lia.
Qed.

Lemma as_bytes_hex_encode bytes :
  as_bytes (hex_encode bytes) =
  concat ((fun b => [hex_digit (Byte.to_N b / 16); hex_digit (Byte.to_N b mod 16)]) <$> bytes).
Proof. apply String.list_byte_of_string_of_list_byte. Qed.

Lemma byte_nibbles b : (Byte.to_N b / 16 < 16)%N /\ (Byte.to_N b mod 16 < 16)%N.
Proof.
  pose proof (byte_to_N_lt b). split; [apply N.Div0.div_lt_upper_bound; lia|].
  apply N.mod_lt. lia.
Qed.

Lemma length_as_bytes s : length (as_bytes s) = String.length s.
Proof.
  unfold as_bytes. rewrite <- (String.string_of_list_byte_of_string s) at 2.
  generalize (String.list_byte_of_string s). clear s. intros l.
  induction l as [|b l IH]; [done|]. cbn. by rewrite IH.
Qed.

(** Two lower-case digits per byte. *)
Lemma length_hex_encode bytes : length (as_bytes (hex_encode bytes)) = 2 * length bytes.
Proof. rewrite as_bytes_hex_encode. induction bytes as [|b l IH]; [done|]. cbn in *. rewrite IH. lia. Qed.

Lemma hex_encode_digits bytes : forallb lower_hex_byte (as_bytes (hex_encode bytes)) = true.
Proof.
  rewrite as_bytes_hex_encode. apply forallb_forall. intros b Hb.
  apply list_elem_of_In, elem_of_concat in Hb as (p & Hp & Hb). apply list_elem_of_fmap in Hp as (c & -> & _).
  destruct (byte_nibbles c). set_unfold in Hb. destruct Hb as [->|[->|[]]]; by apply hex_digit_lower.
Qed.

(** The hexadecimal text of a digest is a well-formed identity. *)
Lemma hex_encode_lower `{Sha256} message : lower_hex_sha256 (hex_encode (sha256 message)) = true.
Proof.
  unfold lower_hex_sha256. by rewrite hex_encode_digits, <- length_as_bytes, length_hex_encode, sha256_length.
Qed.

Lemma hex_plain (c : byte) l : lower_hex_byte c = false -> forallb lower_hex_byte l = true -> c ∉ l.
Proof. intros Hc Hl Hin. rewrite forallb_forall in Hl. apply list_elem_of_In, Hl in Hin. congruence. Qed.

Lemma hex_value_lower b : lower_hex_byte b = true -> is_Some (hex_value b).
Proof. destruct b; vm_compute; (discriminate || eauto). Qed.

Lemma hex_decode_lower n : forall l, length l = 2 * n -> forallb lower_hex_byte l = true ->
  exists out, hex_decode l = Some out /\ length out = n.
Proof.
  induction n as [|n IH]; intros l Hl Hf.
  { destruct l; [by exists []|done]. }
  destruct l as [|hi [|lo l]]; [done|cbn in Hl; lia|]. cbn [forallb] in Hf. rewrite !andb_true_iff in Hf.
  destruct Hf as (Hhi & Hlo & Hf). destruct (hex_value_lower hi Hhi) as [h Hh], (hex_value_lower lo Hlo) as [k Hk].
  destruct (IH l) as (out & Ho & Hlen); [cbn in Hl; lia|done|]. cbn [hex_decode]. rewrite Hh, Hk, Ho.
  eexists. split; [done|]. cbn. lia.
Qed.

(** A well-formed identity decodes to 32 bytes. *)
Lemma decode_lower_sha256 value : lower_hex_sha256 value = true ->
  exists out, hex_decode (as_bytes value) = Some out /\ length out = 32.
Proof.
  unfold lower_hex_sha256. rewrite andb_true_iff, Nat.eqb_eq, <- length_as_bytes. intros [Hl Hf].
  by apply hex_decode_lower.
Qed.

Global Instance hex_encode_inj : Inj (=) (=) hex_encode.
Proof.
  intros l k Heq%(f_equal as_bytes). rewrite !as_bytes_hex_encode in Heq. revert k Heq.
  induction l as [|b l IH]; intros [|c k]; cbn; try done. intros [= H1 H2 H3].
  destruct (byte_nibbles b), (byte_nibbles c).
  apply hex_digit_inj in H1; [|done..]. apply hex_digit_inj in H2; [|done..].
  f_equal; [|by apply IH]. apply byte_to_N_inj.
  rewrite (N.div_mod (Byte.to_N b) 16), (N.div_mod (Byte.to_N c) 16) by done. congruence.
Qed.

Lemma hex_value_digit b v : hex_value b = Some v -> hex_digit v = b /\ (v < 16)%N.
Proof. destruct b; vm_compute; intros [=]; by subst. Qed.

Lemma hex_decode_encode out : forall text, hex_decode text = Some out -> text = as_bytes (hex_encode out).
Proof.
  induction out as [|c out IH]; intros text Hd; rewrite as_bytes_hex_encode.
  - destruct text as [|hi [|lo text]]; cbn [hex_decode] in Hd; [done|done|].
    destruct (hex_value hi); [|done]. destruct (hex_value lo); [|done]. cbn in Hd. by destruct (hex_decode text).
  - destruct text as [|hi [|lo text]]; cbn [hex_decode] in Hd; [done|done|].
    destruct (hex_value hi) as [h|] eqn:Hh; [|done]. destruct (hex_value lo) as [l|] eqn:Hl; [|done]. cbn in Hd.
    destruct (hex_decode text) as [rest|] eqn:Hr; [|done]. injection Hd as <- ->.
    apply hex_value_digit in Hh as [<- Hh], Hl as [<- Hl]. cbn [fmap list_fmap concat app]. rewrite to_N_byte_of_N.
    rewrite N.mod_small by lia. rewrite N.div_add_l, N.div_small, N.add_0_r by lia.
    replace ((h * 16 + l) mod 16)%N with l by (rewrite N.add_comm, N.Div0.mod_add, N.mod_small; lia).
    f_equal. f_equal. rewrite (IH text Hr). apply as_bytes_hex_encode.
Qed.

(** Encoded bytes decode to themselves. *)
Lemma hex_decode_hex bytes : hex_decode (as_bytes (hex_encode bytes)) = Some bytes.
Proof.
  destruct (hex_decode_lower (length bytes) (as_bytes (hex_encode bytes))) as (out & Ho & _);
    [apply length_hex_encode|apply hex_encode_digits|].
  rewrite Ho. f_equal. symmetry. apply (inj hex_encode), (inj as_bytes), (hex_decode_encode _ _ Ho).
Qed.

(** Equal textual digests come from equal messages or from two that collide. *)
Lemma hex_digest_inj `{Sha256} x y :
  hex_encode (sha256 x) = hex_encode (sha256 y) -> x = y \/ collide x y.
Proof. intros E%hex_encode_inj. destruct (decide (x = y)); [by left|by right]. Qed.

(** ** A concrete digest function

    Keeps the first 32 bytes of the padded message: enough to evaluate the
    model on concrete inputs, and an instance that shows the law holds. *)
Definition padded_sha256 (message : list byte) : list byte :=
  take 32 (message ++ replicate 32 x00).

Program Definition padded_digest : Sha256 := {| sha256 := padded_sha256 |}.
Next Obligation.
  intros m. unfold padded_sha256. rewrite length_take, length_app, length_replicate. lia.
Qed.

Program Definition padded_blake3 : Blake3 := {| blake3 := padded_sha256 |}.
Next Obligation.
  intros m. unfold padded_sha256. rewrite length_take, length_app, length_replicate. lia.
Qed.
