(* ===== verification/Worklist.v ===== *)
(** * Worklist closures

    The planner's graph routing and the property-path epsilon closure are the
    same loop: pop a node, check every outgoing edge, insert unseen targets in
    the closure set and append them to the queue.  [closure_loop] is that loop
    with an explicit iteration bound; the section shows that the bound
    [size U + 1] is enough whenever checked edges stay inside a finite set [U],
    that a normal exit computes exactly the reachable nodes, and that an error
    exit is caused by a failing edge out of a reachable node. *)

From S2P Require Import Prelude.

Section worklist.
Context {A E : Type} `{Countable A}.
Context (succ : A -> list A) (check : A -> A -> option E).

(** The [for] loop over the edges of one node. *)
Definition visit_edges (x : A) (state : gset A * list A) : result E (gset A * list A) :=
  try_fold (fun '(visited, queue) y =>
      match check x y with
      | Some e => Err e
      | None =>
          if decide (y ∈ visited) then Ok (visited, queue)
          else Ok ({[y]} ∪ visited, queue ++ [y])
      end)
    state (succ x).

(** [while let Some(x) = queue.pop_front() { ... }]; [None] when the iteration
    bound is used up. *)
Fixpoint closure_loop (fuel : nat) (visited : gset A) (queue : list A) :
    option (result E (gset A)) :=
  match fuel with
  | O => None
  | S fuel =>
      match queue with
      | [] => Some (Ok visited)
      | x :: queue =>
          match visit_edges x (visited, queue) with
          | Err e => Some (Err e)
          | Ok (visited, queue) => closure_loop fuel visited queue
          end
      end
  end.

(** ** Specification *)

Definition edge (x y : A) : Prop := y ∈ succ x.

(** [y] can be reached from one of the seeds. *)
Definition reachable (seeds : gset A) (y : A) : Prop :=
  exists x, x ∈ seeds /\ rtc edge x y.

(** What one pass over the edges of [x] does to the state. *)
Lemma visit_edges_ok x v q v' q' :
  visit_edges x (v, q) = Ok (v', q') ->
  exists fresh, q' = q ++ fresh /\ v' = v ∪ list_to_set fresh /\ NoDup fresh /\
    (forall y, y ∈ fresh <-> y ∈ succ x /\ y ∉ v) /\
    (forall y, y ∈ succ x -> check x y = None).
Proof.
  unfold visit_edges. intros Hv.
  eapply (try_fold_inv (fun pre st => exists fresh, st.2 = q ++ fresh /\ st.1 = v ∪ list_to_set fresh /\
    NoDup fresh /\ (forall y, y ∈ fresh <-> y ∈ pre /\ y ∉ v) /\
    (forall y, y ∈ pre -> check x y = None))) in Hv; [exact Hv| |].
  - exists []. cbn. rewrite app_nil_r. split_and!; [done|set_solver|constructor|set_solver|set_solver].
  - clear. intros pre y [v1 q1] [v2 q2] (fresh & Hq1 & Hv1 & Hnd & Hf & Hc) _ Hstep.
    cbn in Hq1, Hv1, Hstep |- *. subst q1 v1.
    destruct (check x y) eqn:Hxy; [done|].
    assert (forall z, z ∈ pre ++ [y] -> check x z = None) as Hc'.
    { intros z [Hz| ->%list_elem_of_singleton]%elem_of_app; auto. }
    case_decide as Hy; simplify_eq.
    + exists fresh. split_and!; [done..| |done]. intros z.
      rewrite elem_of_app, list_elem_of_singleton, Hf. set_solver.
    + exists (fresh ++ [y]). rewrite (assoc (++)). split_and!; [done| | | |done].
      * rewrite list_to_set_app_L. set_solver.
      * apply NoDup_app. split_and!; [done|set_solver|apply NoDup_singleton].
      * intros z. rewrite !elem_of_app, !list_elem_of_singleton, Hf. set_solver.
Qed.

Lemma visit_edges_err x st e :
  visit_edges x st = Err e -> exists y, y ∈ succ x /\ check x y = Some e.
Proof.
  unfold visit_edges. generalize (succ x) as ys. intros ys. revert st.
  induction ys as [|y ys IH]; intros [v q]; cbn; [done|].
  destruct (check x y) as [e'|] eqn:Hc; cbn; [intros [= <-]; exists y; set_solver|].
  case_decide; cbn; intros (z & Hz & Hcz)%IH; exists z; set_solver.
Qed.

(** The loop invariant: queued nodes are in the set, every other node of the
    set has its edges checked and inside the set. *)
Record closure_inv (seeds v : gset A) (q : list A) : Prop := {
  inv_seeds : seeds ⊆ v;
  inv_queue : forall x, x ∈ q -> x ∈ v;
  inv_done : forall x, x ∈ v -> x ∉ q -> forall y, y ∈ succ x -> check x y = None /\ y ∈ v;
  inv_reach : forall x, x ∈ v -> reachable seeds x;
}.

Lemma closure_inv_step seeds v x q v' q' :
  closure_inv seeds v (x :: q) -> visit_edges x (v, q) = Ok (v', q') -> closure_inv seeds v' q'.
Proof.
  intros [Hs Hq Hd Hr] (fresh & -> & -> & Hnd & Hf & Hc)%visit_edges_ok.
  assert (x ∈ v) as Hx by (apply Hq; left).
  split.
  - set_solver.
  - intros y [?|?]%elem_of_app; [|set_solver]. apply elem_of_union_l, Hq. by right.
  - intros y Hy Hyq z Hz. rewrite elem_of_app in Hyq.
    assert (y ∈ v) as Hyv by set_solver.
    destruct (decide (y = x)) as [->|Hne].
    + split; [auto|]. destruct (decide (z ∈ v)); [set_solver|].
      apply elem_of_union_r, elem_of_list_to_set, Hf. done.
    + destruct (Hd y Hyv) with (y := z) as [? ?]; [set_solver|done|]. set_solver.
  - intros y [Hy|Hy%elem_of_list_to_set]%elem_of_union; [auto|].
    apply Hf in Hy as [Hy _]. destruct (Hr x Hx) as (s & Hs' & Hsx).
    exists s. split; [done|]. by eapply rtc_r.
Qed.

Lemma closure_loop_inv seeds fuel v q r :
  closure_inv seeds v q -> closure_loop fuel v q = Some r ->
  match r with
  | Ok v' => closure_inv seeds v' []
  | Err e => exists x y, reachable seeds x /\ y ∈ succ x /\ check x y = Some e
  end.
Proof.
  revert v q; induction fuel as [|fuel IH]; intros v q Hinv Hl; cbn in Hl; [done|].
  destruct q as [|x q]; [by injection Hl as <-|].
  destruct (visit_edges x (v, q)) as [[v' q']|e] eqn:Hv.
  - eapply IH; [|done]. by eapply closure_inv_step.
  - injection Hl as <-. apply visit_edges_err in Hv as (y & Hy & Hc).
    exists x, y. split_and!; [|done..]. apply (inv_reach _ _ _ Hinv), (inv_queue _ _ _ Hinv). left.
Qed.

Lemma closure_inv_init seeds q : (forall x, x ∈ q <-> x ∈ seeds) -> closure_inv seeds seeds q.
Proof.
  intros Hq. split; [done|set_solver|set_solver|]. intros x Hx. by exists x.
Qed.

(** With an empty queue the set is closed, hence all of the reachable nodes. *)
Lemma closure_inv_final seeds v :
  closure_inv seeds v [] ->
  (forall y, y ∈ v <-> reachable seeds y) /\
  (forall x y, reachable seeds x -> y ∈ succ x -> check x y = None).
Proof.
  intros [Hs _ Hd Hr].
  assert (forall y, reachable seeds y -> y ∈ v) as Hin.
  { intros y (x & Hx & Hxy). apply Hs in Hx. induction Hxy as [|x y z Hxy _ IH]; [done|].
    apply IH. eapply Hd; [done|set_solver|done]. }
  split; [split; auto|]. intros x y Hx Hy. eapply Hd; [by apply Hin|set_solver|done].
Qed.

(** The bound: one iteration per node of the universe, plus the final test. *)
Lemma closure_loop_total (U : gset A) fuel v q :
  (forall x y, x ∈ U -> y ∈ succ x -> check x y = None -> y ∈ U) ->
  v ⊆ U -> (forall x, x ∈ q -> x ∈ v) -> size U + length q < fuel + size v ->
  exists r, closure_loop fuel v q = Some r.
Proof.
  intros HU. revert v q; induction fuel as [|fuel IH]; intros v q Hv Hq Hfuel.
  { apply subseteq_size in Hv. lia. }
  cbn. destruct q as [|x q]; [eauto|].
  destruct (visit_edges x (v, q)) as [[v' q']|e] eqn:Hx; [|eauto].
  apply visit_edges_ok in Hx as (fresh & -> & -> & Hnd & Hf & Hc).
  assert (x ∈ U) as HxU by (apply Hv, Hq; left).
  apply IH.
  - intros y [?|Hy%elem_of_list_to_set]%elem_of_union; [auto|]. apply Hf in Hy as [Hy _]. eauto.
  - intros y [?|?]%elem_of_app; [|set_solver]. apply elem_of_union_l, Hq. by right.
  - assert (size (v ∪ list_to_set fresh) = size v + length fresh) as ->.
    { rewrite size_union; [by rewrite size_list_to_set|]. set_solver. }
    rewrite length_app. cbn in *. lia.
Qed.

(** Summary: the loop ends within the bound; it returns the reachable set when
    every reachable edge passes its check, and a failing check otherwise. *)
Lemma closure_loop_spec (U seeds : gset A) q fuel :
  (forall x, x ∈ q <-> x ∈ seeds) -> NoDup q ->
  (forall x y, x ∈ U -> y ∈ succ x -> check x y = None -> y ∈ U) ->
  seeds ⊆ U -> size U < fuel ->
  exists r, closure_loop fuel seeds q = Some r /\
    match r with
    | Ok v => (forall y, y ∈ v <-> reachable seeds y) /\
              (forall x y, reachable seeds x -> y ∈ succ x -> check x y = None)
    | Err e => exists x y, reachable seeds x /\ y ∈ succ x /\ check x y = Some e
    end.
Proof.
  intros Hq Hnd HU HsU Hfuel.
  destruct (closure_loop_total U fuel seeds q) as [r Hr]; [done|done|set_solver| |].
  { assert (size seeds = length q) as ->; [|lia].
    rewrite <- (size_list_to_set q Hnd (C := gset A)). f_equal. set_solver. }
  exists r. split; [done|]. apply (closure_loop_inv seeds) in Hr; [|by apply closure_inv_init].
  destruct r; [by apply closure_inv_final|done].
Qed.
End worklist.
