(* ===== verification/Text.v ===== *)
(** * Text files: lines, UTF-8, decimal numbers

    What the storage code uses of the Rust standard library to read and write
    its text artifacts.  A file is the list of its bytes and a [String] the
    list of its UTF-8 bytes.  [BufRead::lines] is the list of raw lines; a
    consumer decodes each with [line_text] at the place of its [?], where an
    invalid encoding is an I/O error. *)

From Stdlib Require Import Strings.Byte Strings.String.
From S2P Require Import Prelude Words Ordered.

Definition TAB : byte := x09.
Definition LF : byte := x0a.
Definition CR : byte := x0d.
Definition PLUS : byte := x2b.

(** ** UTF-8 *)

Definition in_range (lo hi : N) (b : byte) : bool := (lo <=? Byte.to_N b)%N && (Byte.to_N b <=? hi)%N.
Definition continuation : byte -> bool := in_range 0x80 0xbf.

(** [std::str::from_utf8(bytes).is_ok()]: the well-formed sequences of the
    Unicode standard, surrogates and overlong forms excluded. *)
Fixpoint utf8_valid (bytes : list byte) : bool :=
  match bytes with
  | [] => true
  | a :: rest =>
      if in_range 0 0x7f a then utf8_valid rest
      else match rest with
      | b :: rest2 =>
          if in_range 0xc2 0xdf a then continuation b && utf8_valid rest2
          else match rest2 with
          | c :: rest3 =>
              if in_range 0xe0 0xef a then
                (if in_range 0xe0 0xe0 a then in_range 0xa0 0xbf b
                 else if in_range 0xed 0xed a then in_range 0x80 0x9f b
                 else continuation b) && continuation c && utf8_valid rest3
              else match rest3 with
              | d :: rest4 =>
                  in_range 0xf0 0xf4 a &&
                  (if in_range 0xf0 0xf0 a then in_range 0x90 0xbf b
                   else if in_range 0xf4 0xf4 a then in_range 0x80 0x8f b
                   else continuation b) && continuation c && continuation d && utf8_valid rest4
              | [] => false
              end
          | [] => false
          end
      | [] => false
      end
  end.

Definition is_ascii (b : byte) : bool := in_range 0 0x7f b.

Lemma ascii_utf8 bytes : forallb is_ascii bytes = true -> utf8_valid bytes = true.
Proof.
  induction bytes as [|b bytes IH]; [done|]. cbn [forallb utf8_valid]. intros [Hb Hr]%andb_true_iff.
  unfold is_ascii in Hb. rewrite Hb. auto.
Qed.

(** ** Lines *)

(** [BufRead::read_until(b'\n')] from [bytes], after [cur] was read. *)
Fixpoint lines_from (cur bytes : list byte) : list (list byte) :=
  match bytes with
  | [] => if bool_decide (cur = []) then [] else [cur]
  | b :: rest =>
      if bool_decide (b = LF)
      then (match last cur with
            | Some c => if bool_decide (c = CR) then removelast cur else cur
            | None => cur
            end) :: lines_from [] rest
      else lines_from (cur ++ [b]) rest
  end.

(** [BufReader::new(File::open(path)?).lines()]. *)
Definition lines (bytes : list byte) : list (list byte) := lines_from [] bytes.

(** The [?] on an item of [lines()]. *)
Definition line_text {E} (e : E) (raw : list byte) : result E (list byte) :=
  if utf8_valid raw then Ok raw else Err e.

(** [writeln!(writer, "{line}")]. *)
Definition write_line (line : list byte) : list byte := line ++ [LF].

(** A line that reading gives back as it was written. *)
Definition clean_line (line : list byte) : Prop := (LF ∉ line) /\ last line <> Some CR.

Lemma lines_from_line cur line rest :
  (LF ∉ line) -> last (cur ++ line) <> Some CR ->
  lines_from cur (write_line line ++ rest) = (cur ++ line) :: lines_from [] rest.
Proof.
  unfold write_line. revert cur. induction line as [|b line IH]; intros cur Hn Hl; cbn.
  - rewrite app_nil_r in *. rewrite (bool_decide_eq_true_2 (LF = LF)) by done. destruct (last cur) as [c|]; [|done]. by rewrite bool_decide_eq_false_2 by (by intros ->).
  - rewrite bool_decide_eq_false_2 by set_solver. rewrite IH.
    + by rewrite <- (assoc (++)).
    + set_solver.
    + by rewrite <- (assoc (++)).
Qed.

Lemma lines_write ls : Forall clean_line ls -> lines (concat (write_line <$> ls)) = ls.
Proof.
  unfold lines. induction 1 as [|l ls [Hn Hl] _ IH]; [done|]. cbn [fmap list_fmap concat].
  rewrite lines_from_line by done. cbn [app]. by rewrite IH.
Qed.

(** [line.split_once(sep)] for a one-byte separator. *)
Fixpoint split_once (sep : byte) (line : list byte) : option (list byte * list byte) :=
  match line with
  | [] => None
  | b :: rest =>
      if bool_decide (b = sep) then Some ([], rest)
      else '(l, r) ← split_once sep rest; Some (b :: l, r)
  end.

Lemma split_once_app sep l r : (sep ∉ l) -> split_once sep (l ++ sep :: r) = Some (l, r).
Proof.
  induction l as [|b l IH]; cbn; intros Hn.
  - by rewrite bool_decide_eq_true_2.
  - rewrite bool_decide_eq_false_2 by set_solver. rewrite IH by set_solver. done.
Qed.

Lemma split_once_some sep line l r : split_once sep line = Some (l, r) -> line = l ++ sep :: r /\ (sep ∉ l).
Proof.
  revert l r. induction line as [|b line IH]; intros l r; cbn; [done|].
  case_bool_decide as Hb.
  - intros [= <- <-]. subst. set_solver.
  - destruct (split_once sep line) as [[l' r']|]; cbn; [|done]. intros [= <- <-].
    destruct (IH l' r' eq_refl) as [-> Hn]. split; [done|]. set_solver.
Qed.

(** [line.split(sep)]: the fields between the separators. *)
Fixpoint split_on (sep : byte) (line : list byte) : list (list byte) :=
  match line with
  | [] => [[]]
  | b :: rest =>
      if bool_decide (b = sep) then [] :: split_on sep rest
      else match split_on sep rest with
           | field :: fields => (b :: field) :: fields
           | [] => [[b]]
           end
  end.

Lemma split_plain sep l : (sep ∉ l) -> split_on sep l = [l].
Proof.
  induction l as [|b l IH]; [done|]. intros [? ?]%not_elem_of_cons. cbn. rewrite bool_decide_eq_false_2 by done. by rewrite IH.
Qed.

Lemma split_app sep l r : (sep ∉ l) -> split_on sep (l ++ sep :: r) = l :: split_on sep r.
Proof.
  induction l as [|b l IH]; intros Hl; cbn; [by rewrite bool_decide_eq_true_2|].
  apply not_elem_of_cons in Hl as [? ?]. rewrite bool_decide_eq_false_2 by done. by rewrite IH.
Qed.

Lemma split_on_nonempty sep l : split_on sep l <> [].
Proof. destruct l as [|b l]; cbn; [done|]. case_bool_decide; [done|]. by destruct (split_on sep l). Qed.

Lemma split_on_app sep l r : split_on sep (l ++ sep :: r) = split_on sep l ++ split_on sep r.
Proof.
  induction l as [|b l IH]; cbn; [by rewrite bool_decide_eq_true_2|].
  rewrite IH. case_bool_decide; [done|].
  destruct (split_on sep l) eqn:E; [by apply split_on_nonempty in E|done].
Qed.

(** [text.strip_prefix(prefix)]. *)
Fixpoint strip_prefix (prefix text : list byte) : option (list byte) :=
  match prefix, text with
  | [], _ => Some text
  | p :: prefix, b :: text => if bool_decide (p = b) then strip_prefix prefix text else None
  | _ :: _, [] => None
  end.

Lemma strip_prefix_some prefix text rest :
  strip_prefix prefix text = Some rest <-> text = prefix ++ rest.
Proof.
  revert text. induction prefix as [|p prefix IH]; intros [|b text]; cbn; try naive_solver.
  case_bool_decide; [rewrite IH|]; naive_solver.
Qed.

(** ** Decimal numbers *)

Definition digit_value (b : byte) : option N :=
  if in_range 0x30 0x39 b then Some (Byte.to_N b - 0x30)%N else None.

(** Digits accumulate under the width of the target type. *)
Definition push_digit (limit acc : N) (b : byte) : option N :=
  d ← digit_value b;
  scaled ← checked_mul limit acc 10;
  checked_add limit scaled d.

Fixpoint parse_digits (limit acc : N) (bytes : list byte) : option N :=
  match bytes with
  | [] => Some acc
  | b :: rest => acc ← push_digit limit acc b; parse_digits limit acc rest
  end.

(** [text.parse::<u64>().ok()]: an optional plus sign and at least one digit. *)
Definition parse_u64 (text : list byte) : option N :=
  match text with
  | [] => None
  | b :: rest =>
      if bool_decide (b = PLUS) then (if bool_decide (rest = []) then None else parse_digits U64_LIMIT 0 rest)
      else parse_digits U64_LIMIT 0 text
  end.

Definition digit (n : N) : byte := byte_of_N (0x30 + n mod 10).

(** The [w] low decimal digits of [n], most significant first. *)
Fixpoint digits (w : nat) (n : N) : list byte :=
  match w with
  | O => []
  | S w => digit (n / 10 ^ N.of_nat w) :: digits w n
  end.

(** Digits in the shortest representation of a [u64]. *)
Definition decimal_width (n : N) : nat :=
  default 20 (list_find (fun w => n < 10 ^ N.of_nat w)%N (seq 1 20) ≫= fun f => Some f.2).

(** [format!("{n}")] and [format!("{n:020}")]. *)
Definition decimal (n : N) : list byte := digits (decimal_width n) n.
Definition decimal20 (n : N) : list byte := digits (Nat.max 20 (decimal_width n)) n.

Lemma byte_of_digit n : Byte.to_N (digit n) = (0x30 + n mod 10)%N.
Proof. unfold digit. rewrite to_N_byte_of_N. pose proof (N.mod_lt n 10 ltac:(done)). apply N.mod_small. lia. Qed.

Lemma digit_range n : in_range 0x30 0x39 (digit n) = true.
Proof. unfold in_range. rewrite byte_of_digit. pose proof (N.mod_lt n 10 ltac:(done)). rewrite andb_true_iff, !N.leb_le.
  generalize dependent (n mod 10)%N. lia.
Qed.

Lemma digit_value_digit n : digit_value (digit n) = Some (n mod 10)%N.
Proof. unfold digit_value. rewrite digit_range, byte_of_digit. f_equal.
  generalize (n mod 10)%N. lia.
Qed.

Lemma length_digits w n : length (digits w n) = w.
Proof. induction w; cbn; auto. Qed.

Lemma digits_range w n : Forall (fun b => in_range 0x30 0x39 b = true) (digits w n).
Proof. induction w; cbn; constructor; auto using digit_range. Qed.

(** No digit is a separator, a sign or outside ASCII. *)
Lemma digits_plain w n b : b ∈ digits w n -> b <> TAB /\ b <> LF /\ b <> CR /\ b <> PLUS /\ is_ascii b = true.
Proof.
  intros Hb. pose proof (proj1 (Forall_forall _ _) (digits_range w n) b Hb) as Hr.
  split_and!; [by intros ->..|]. revert Hr. unfold is_ascii, in_range. rewrite !andb_true_iff, !N.leb_le. lia.
Qed.

Lemma parse_digits_digits limit w n acc :
  (acc * 10 ^ N.of_nat w + n mod 10 ^ N.of_nat w < limit)%N ->
  parse_digits limit acc (digits w n) = Some (acc * 10 ^ N.of_nat w + n mod 10 ^ N.of_nat w)%N.
Proof.
  revert acc. induction w as [|w IH]; intros acc.
  { cbn. rewrite N.mod_1_r. intros _. f_equal. lia. }
  set (p := (10 ^ N.of_nat w)%N) in *. assert (p <> 0)%N by (by apply N.pow_nonzero).
  assert (10 ^ N.of_nat (S w) = p * 10)%N as -> by (rewrite Nat2N.inj_succ, N.pow_succ_r by lia; unfold p; lia).
  rewrite N.Div0.mod_mul_r. intros Hlt. cbn [digits parse_digits]. fold p. set (d := (n / p mod 10)%N) in *.
  unfold push_digit. rewrite digit_value_digit. fold d. cbn [mbind option_bind].
  generalize dependent (n mod p)%N. intros r IH Hlt. clearbody d p.
  assert (acc * 10 <= acc * (p * 10))%N by (apply N.mul_le_mono_l; lia). assert (d <= p * d)%N by nia.
  assert (checked_mul limit acc 10 = Some (acc * 10)%N) as -> by (apply checked_mul_some; split; [done|lia]).
  cbn [mbind option_bind].
  assert (checked_add limit (acc * 10) d = Some (acc * 10 + d)%N) as ->
    by (apply checked_add_some; split; [done|lia]).
  cbn [mbind option_bind]. rewrite IH; [f_equal|]; lia.
Qed.

Lemma parse_digits_lt limit bytes : forall acc n, (acc < limit -> parse_digits limit acc bytes = Some n -> n < limit)%N.
Proof.
  induction bytes as [|b bytes IH]; intros acc n Ha; cbn [parse_digits]; [by intros [= <-]|]. unfold push_digit.
  destruct (digit_value b) as [d|]; [|done]. cbn. destruct (checked_mul limit acc 10) as [m|]; [|done]. cbn.
  destruct (checked_add limit m d) as [k|] eqn:Hk; [|done]. cbn. apply checked_add_some in Hk as [-> Hk]. by apply IH.
Qed.

Lemma parse_u64_digits w n :
  0 < w -> (n < 10 ^ N.of_nat w)%N -> (n < U64_LIMIT)%N -> parse_u64 (digits w n) = Some n.
Proof.
  intros Hw Hn Hlim. destruct (digits w n) as [|b rest] eqn:Hd.
  { apply (f_equal length) in Hd. rewrite length_digits in Hd. cbn in Hd. lia. }
  assert (b <> PLUS) as Hb by (eapply digits_plain; rewrite Hd; left).
  unfold parse_u64. rewrite bool_decide_eq_false_2 by done. rewrite <- Hd.
  rewrite parse_digits_digits; rewrite N.mod_small by done; [f_equal|]; lia.
Qed.

Lemma decimal_width_spec n :
  (n < U64_LIMIT)%N -> 0 < decimal_width n <= 20 /\ (n < 10 ^ N.of_nat (decimal_width n))%N.
Proof.
  intros Hn. unfold decimal_width. destruct (list_find _ _) as [[i w]|] eqn:Hf; cbn.
  - apply list_find_Some in Hf as (Hl & Hw & _). apply lookup_seq in Hl. lia.
  - split; [lia|]. unfold U64_LIMIT in Hn. change (N.of_nat 20) with 20%N.
    assert (2 ^ 64 < 10 ^ 20)%N by (vm_compute; done). lia.
Qed.

Lemma parse_u64_decimal n : (n < U64_LIMIT)%N -> parse_u64 (decimal n) = Some n.
Proof. intros Hn. destruct (decimal_width_spec n Hn) as [[] ?]. by apply parse_u64_digits. Qed.

(** A padded [u64] has twenty digits. *)
Lemma decimal20_digits n : (n < U64_LIMIT)%N -> decimal20 n = digits 20 n.
Proof.
  intros Hn. destruct (decimal_width_spec n Hn) as [[_ Hw] _]. unfold decimal20. by rewrite Nat.max_l.
Qed.

Lemma u64_20_digits n : (n < U64_LIMIT)%N -> (n < 10 ^ N.of_nat 20)%N.
Proof.
  unfold U64_LIMIT. change (N.of_nat 20) with 20%N. assert (2 ^ 64 < 10 ^ 20)%N by (vm_compute; done). lia.
Qed.

Lemma parse_decimal20 n : (n < U64_LIMIT)%N -> parse_u64 (decimal20 n) = Some n.
Proof. intros Hn. rewrite decimal20_digits by done. apply parse_u64_digits; [lia|by apply u64_20_digits|done]. Qed.

(** Padded numbers compare as the numbers do. *)
Lemma cmp_digits w n m :
  (n < 10 ^ N.of_nat w)%N -> (m < 10 ^ N.of_nat w)%N -> cmp (digits w n) (digits w m) = N.compare n m.
Proof.
  assert (forall w n m, cmp (digits w n) (digits w m) = N.compare (n mod 10 ^ N.of_nat w) (m mod 10 ^ N.of_nat w)) as Hc.
  { clear. intros w n m. induction w as [|w IH].
    { cbn. by rewrite !N.mod_1_r. }
    cbn [digits]. change (cmp (digit (n / 10 ^ N.of_nat w) :: digits w n) (digit (m / 10 ^ N.of_nat w) :: digits w m))
      with (then_cmp (N.compare (Byte.to_N (digit (n / 10 ^ N.of_nat w))) (Byte.to_N (digit (m / 10 ^ N.of_nat w))))
              (cmp (digits w n) (digits w m))). rewrite IH, !byte_of_digit.
    set (p := (10 ^ N.of_nat w)%N) in *. assert (p <> 0)%N by (by apply N.pow_nonzero).
    assert (10 ^ N.of_nat (S w) = p * 10)%N as -> by (rewrite Nat2N.inj_succ, N.pow_succ_r by lia; unfold p; lia).
    rewrite !N.Div0.mod_mul_r. pose proof (N.mod_lt n p ltac:(done)). pose proof (N.mod_lt m p ltac:(done)).
    generalize dependent (n / p mod 10)%N. generalize dependent (m / p mod 10)%N.
    generalize dependent (n mod p)%N. generalize dependent (m mod p)%N. intros r Hr s _ Hs b a.
    destruct (N.compare_spec (0x30 + a) (0x30 + b)); cbn [then_cmp]; symmetry.
    - replace b with a by lia. destruct (N.compare_spec s r);
        [apply N.compare_eq_iff|apply N.compare_lt_iff|apply N.compare_gt_iff]; lia.
    - apply N.compare_lt_iff. nia.
    - apply N.compare_gt_iff. nia. }
  intros Hn Hm. rewrite Hc, !N.mod_small by done. done.
Qed.

(** Comparing two texts with fields of equal length decides on the first field first. *)
Lemma cmp_app_len (a b c d : list byte) :
  length a = length c -> cmp (a ++ b) (c ++ d) = then_cmp (cmp a c) (cmp b d).
Proof.
  revert c. induction a as [|x a IH]; intros [|y c] Hl; cbn in Hl; try done.
  change (then_cmp (cmp x y) (cmp (a ++ b) (c ++ d)) = then_cmp (then_cmp (cmp x y) (cmp a c)) (cmp b d)).
  rewrite IH by lia. by destruct (cmp x y).
Qed.
