(* ===== verification/LocalRoot.v ===== *)
(** * Directories owned by one component

    The Grace join (src/crates/ngkg-grace-join/src/lib.rs), the query cache
    (src/crates/ngkg-query-cache/src/lib.rs) and the shuffle cache
    (src/crates/ngkg-shuffle-cache/src/lib.rs) each keep their files under a root
    directory they mark as their own with the same [prepare_root].  Here
    a directory is the list of its entries in the order they are listed, and
    the marker, its content and the errors are arguments. *)

From Stdlib Require Import Strings.Byte Strings.String.
From S2P Require Import Prelude Words.

Record RootEntry := {
  entry_name : option string;  (* [None]: not UTF-8 *)
  entry_symlink : bool;
  entry_dir : bool;
  entry_content : list byte;
}.

Inductive RootPath :=
| RootMissing
| RootNotDirectory
| RootDirectory (entries : list RootEntry).

Section marked_root.
Context {E : Type} (unsafe io : E) (marker : string) (marker_bytes : list byte).

Definition marker_entry : RootEntry :=
  {| entry_name := Some marker; entry_symlink := false; entry_dir := false; entry_content := marker_bytes |}.

(** The entries of the root afterwards: a missing or empty root gets the
    marker, any other root must carry it. *)
Definition prepare_marked_root (root : RootPath) : result E (list RootEntry) :=
  entries ← match root with
            | RootMissing => Ok []
            | RootNotDirectory => Err unsafe
            | RootDirectory entries => Ok entries
            end;
  match snd <$> list_find (fun e => entry_name e = Some marker) entries with
  | Some m =>
      _ ← fail_if (entry_symlink m) unsafe;
      _ ← fail_if (entry_dir m) io;
      _ ← fail_if (negb (bool_decide (entry_content m = marker_bytes))) unsafe;
      Ok entries
  | None =>
      _ ← fail_if (negb (bool_decide (length entries = 0))) unsafe;
      Ok [marker_entry]
  end.

(** A prepared root keeps what it held, and preparing it again changes nothing. *)
Lemma prepare_marked_root_stable root entries : prepare_marked_root root = Ok entries ->
  prepare_marked_root (RootDirectory entries) = Ok entries /\
  (forall before, root = RootDirectory before -> before = [] \/ before = entries).
Proof using Type.
  unfold prepare_marked_root. intros Hp. inv_ok Hp. cbn [mbind result_bind].
  destruct (snd <$> list_find _ a) as [m|] eqn:Hf.
  - pose proof Hp as Hm. do 3 inv_ok Hp. injection Hp as ->. rewrite Hf, Hm. split; [done|].
    intros before ->. injection Ha as ->. by right.
  - inv_ok Hp. injection Hp as <-. inv_ok Ha0. bool_prop. apply nil_length_inv in Ha0 as ->. split.
    + cbn [list_find]. rewrite decide_True by done. cbn. by rewrite bool_decide_eq_true_2.
    + intros before ->. injection Ha as <-. by left.
Qed.

Lemma prepare_marked_root_cases root entries : prepare_marked_root root = Ok entries ->
  entries = [marker_entry] \/ root = RootDirectory entries.
Proof using Type.
  unfold prepare_marked_root. intros Hp. inv_ok Hp. destruct (snd <$> list_find _ a) as [m|] eqn:Hf.
  - do 3 inv_ok Hp. injection Hp as <-. destruct root; [|done|]; injection Ha as <-; [done|by right].
  - inv_ok Hp. injection Hp as <-. by left.
Qed.
End marked_root.
