(* ===== verification/Planner.v ===== *)
(** * Distributed plans and graph routing

    Models src/crates/ngkg-query-planner/src/lib.rs: the distributed algebra
    plan with its validation and its dependency waves, the property-path plan
    with its automaton and validation, the authorization-first routing of
    relevant graphs, and the exchange choice. *)

From Stdlib Require Import Strings.String.
From S2P Require Import Prelude Words Ordered Digest Worklist.

(** ** Algebra plans *)

Inductive AlgebraExecutionLane :=
| NativePartitioned
| ScalarOraclePartitioned
| ExactReasonerPartitioned.

Inductive DistributedAlgebraOperator :=
| Bgp | Path | Join | Lateral | LeftJoin | Union | Minus | Filter | Extend | Values
| Graph | Project | Distinct | Reduced | Group | Order | Slice | Subquery | Service
| AskFinalize | ConstructFinalize | DescribeFinalize.

Global Instance AlgebraExecutionLane_eq_dec : EqDecision AlgebraExecutionLane.
Proof. solve_decision. Defined.
Global Instance DistributedAlgebraOperator_eq_dec : EqDecision DistributedAlgebraOperator.
Proof. solve_decision. Defined.

Record DistributedAlgebraStage := {
  stage_id : string;
  operator : DistributedAlgebraOperator;
  inputs : list string;
  lane : AlgebraExecutionLane;
  algebra_sha256 : string;
  stage_partition_count : N;
  max_input_rows : N;
  max_output_rows : N;
  max_exchange_bytes : N;
  stage_max_spill_bytes : N;
}.

Record DistributedAlgebraPlan := {
  plan_format_version : N;
  query_algebra_sha256 : string;
  root_stage_id : string;
  stages : list DistributedAlgebraStage;
  require_complete_partition_set : bool;
  require_scalar_equivalence : bool;
}.

Record AlgebraWorkItem := {
  work_stage_id : string;
  work_partition : N;
  work_partition_count : N;
}.

Record AlgebraExecutionWave := {
  ordinal : N;
  work_items : list AlgebraWorkItem;
}.

Inductive AlgebraPlanError := InvalidIdentity | InvalidDag | UnsafeLane.

Definition lane_is_safe (operator : DistributedAlgebraOperator) (lane : AlgebraExecutionLane) : bool :=
  match operator with
  | Bgp => bool_decide (lane = ExactReasonerPartitioned) || bool_decide (lane = ScalarOraclePartitioned)
  | Join | Union | Minus | Project | Distinct | Reduced | Slice | Values =>
      bool_decide (lane = NativePartitioned)
  | Path | Lateral | LeftJoin | Filter | Extend | Graph | Group | Order | Subquery | Service
  | AskFinalize | ConstructFinalize | DescribeFinalize =>
      bool_decide (lane = ScalarOraclePartitioned)
  end.

Definition is_empty_string (s : string) : bool := bool_decide (s = EmptyString).

Definition validate_stage (seen : gset string) (stage : DistributedAlgebraStage) :
    result AlgebraPlanError (gset string) :=
  _ ← fail_if
        (is_empty_string (stage_id stage)
         || bool_decide (stage_id stage ∈ seen)
         || negb (lower_hex_sha256 (algebra_sha256 stage))
         || (stage_partition_count stage <? 2)%N
         || (max_input_rows stage =? 0)%N
         || (max_output_rows stage =? 0)%N
         || (max_exchange_bytes stage =? 0)%N
         || (stage_max_spill_bytes stage =? 0)%N
         || existsb (fun input => negb (bool_decide (input ∈ seen))) (inputs stage))
        InvalidDag;
  _ ← fail_if (negb (lane_is_safe (operator stage) (lane stage))) UnsafeLane;
  Ok ({[stage_id stage]} ∪ seen).

Definition validate_distributed_algebra_plan (plan : DistributedAlgebraPlan) :
    result AlgebraPlanError unit :=
  _ ← fail_if
        (negb (plan_format_version plan =? 1)%N
         || negb (lower_hex_sha256 (query_algebra_sha256 plan))
         || is_empty_string (root_stage_id plan)
         || bool_decide (stages plan = [])
         || negb (require_complete_partition_set plan)
         || negb (require_scalar_equivalence plan))
        InvalidIdentity;
  seen ← try_fold validate_stage ∅ (stages plan);
  _ ← fail_if
        (negb (bool_decide (root_stage_id plan ∈ seen))
         || negb (bool_decide (stage_id <$> last (stages plan) = Some (root_stage_id plan))))
        InvalidDag;
  Ok tt.

(** Deployment ceilings copied into every stage. *)
Record DistributedAlgebraLimits := {
  limit_partition_count : N;
  limit_max_input_rows : N;
  limit_max_output_rows : N;
  limit_max_exchange_bytes : N;
  limit_max_spill_bytes : N;
}.

Definition validate_algebra_limits (self : DistributedAlgebraLimits) :
    result AlgebraPlanError DistributedAlgebraLimits :=
  _ ← fail_if
        ((limit_partition_count self <? 2)%N
         || (limit_max_input_rows self =? 0)%N
         || (limit_max_output_rows self =? 0)%N
         || (limit_max_exchange_bytes self =? 0)%N
         || (limit_max_spill_bytes self =? 0)%N)
        InvalidIdentity;
  Ok self.

(** Every partition of one stage. *)
Definition stage_work_items (stage : DistributedAlgebraStage) : list AlgebraWorkItem :=
  (fun partition => {| work_stage_id := stage_id stage;
                       work_partition := N.of_nat partition;
                       work_partition_count := stage_partition_count stage |})
    <$> seq 0 (N.to_nat (stage_partition_count stage)).

(** Stages of [remaining], in ascending identifier order, whose inputs are all
    completed. *)
Definition ready_stages (by_id : gmap string DistributedAlgebraStage)
    (completed remaining : gset string) : list DistributedAlgebraStage :=
  omap (fun id =>
      match by_id !! id with
      | Some stage =>
          if forallb (fun input => bool_decide (input ∈ completed)) (inputs stage)
          then Some stage else None
      | None => None
      end)
    (sorted_elements remaining).

(** The [while !remaining.is_empty()] loop of [algebra_execution_waves];
    [None] when the iteration bound is used up. *)
Fixpoint waves_loop (fuel : nat) (by_id : gmap string DistributedAlgebraStage)
    (completed remaining : gset string) (waves : list AlgebraExecutionWave) :
    option (result AlgebraPlanError (list AlgebraExecutionWave)) :=
  match fuel with
  | O => None
  | S fuel =>
      if decide (remaining = ∅) then Some (Ok waves)
      else
        match ready_stages by_id completed remaining with
        | [] => Some (Err InvalidDag)
        | ready =>
            if fits U32_LIMIT (N.of_nat (length waves)) then
              let wave := {| ordinal := N.of_nat (length waves);
                             work_items := ready ≫= stage_work_items |} in
              let ids : gset string := list_to_set (stage_id <$> ready) in
              waves_loop fuel by_id (ids ∪ completed) (remaining ∖ ids) (waves ++ [wave])
            else Some (Err InvalidDag)
        end
  end.

(** [plan.stages.iter().map(|s| (s.stage_id.clone(), s)).collect::<BTreeMap<_, _>>()]. *)
Definition stages_by_id (plan : DistributedAlgebraPlan) : gmap string DistributedAlgebraStage :=
  foldl (fun m s => <[stage_id s := s]> m) ∅ (stages plan).

(** Each iteration completes at least one stage, so one more iteration than
    there are stages is enough ([waves_loop_total]). *)
Definition algebra_execution_waves (plan : DistributedAlgebraPlan) :
    result AlgebraPlanError (list AlgebraExecutionWave) :=
  _ ← validate_distributed_algebra_plan plan;
  default (Err InvalidDag)
    (waves_loop (S (length (stages plan))) (stages_by_id plan) ∅
       (list_to_set (stage_id <$> stages plan)) []).

(** ** Property-path plans *)

Inductive PathDirection := Forward | Reverse.

Inductive PathTransitionKind :=
| Epsilon
| Predicate (direction : PathDirection) (predicate_iri : string)
| NegatedPropertySet (direction : PathDirection) (excluded_predicate_iris : list string).

Record PathTransition := {
  from_state : N;
  to_state : N;
  transition : PathTransitionKind;
}.

Record DistributedPathAutomaton := {
  format_version : N;
  state_count : N;
  start_state : N;
  accept_states : list N;
  transitions : list PathTransition;
}.

Record DistributedPropertyPathPlan := {
  path_id : string;
  path_ordinal : N;
  graph_scope : string;
  subject_pattern : string;
  path_sparql : string;
  object_pattern : string;
  automaton : DistributedPathAutomaton;
  automaton_sha256 : string;
  partition_count : N;
  max_iterations : N;
  max_frontier_items : N;
  max_visited_items : N;
  max_checkpoint_bytes : N;
  max_spill_bytes : N;
  hot_vertex_degree : N;
  max_hot_vertex_splits : N;
  path_require_complete_partition_set : bool;
  path_require_scalar_equivalence : bool;
}.

Inductive PropertyPathPlanError := PathInvalidIdentity | PathInvalidAutomaton.

Global Instance PathDirection_eq_dec : EqDecision PathDirection.
Proof. solve_decision. Defined.
Global Instance PathTransitionKind_eq_dec : EqDecision PathTransitionKind.
Proof. solve_decision. Defined.
Global Instance PathTransition_eq_dec : EqDecision PathTransition.
Proof. solve_decision. Defined.
Global Instance DistributedPathAutomaton_eq_dec : EqDecision DistributedPathAutomaton.
Proof. solve_decision. Defined.

(** The state checks shared by the planner's and the executor's validation. *)
Definition invalid_states (automaton : DistributedPathAutomaton) : bool :=
  negb (format_version automaton =? 1)%N
  || (state_count automaton =? 0)%N
  || (state_count automaton <=? start_state automaton)%N
  || bool_decide (accept_states automaton = [])
  || negb (windows2_all (fun a b => a <? b)%N (accept_states automaton))
  || existsb (fun state => state_count automaton <=? state)%N (accept_states automaton).

Definition invalid_transition (automaton : DistributedPathAutomaton) (t : PathTransition) : bool :=
  (state_count automaton <=? from_state t)%N
  || (state_count automaton <=? to_state t)%N
  || match transition t with
     | Epsilon => false
     | Predicate _ predicate_iri => is_empty_string predicate_iri
     | NegatedPropertySet _ excluded => bool_decide (excluded = []) || existsb is_empty_string excluded
     end.

Definition validate_distributed_property_path_plan (plan : DistributedPropertyPathPlan) :
    result PropertyPathPlanError unit :=
  _ ← fail_if
        (is_empty_string (path_id plan)
         || is_empty_string (graph_scope plan)
         || is_empty_string (subject_pattern plan)
         || is_empty_string (path_sparql plan)
         || is_empty_string (object_pattern plan)
         || negb (lower_hex_sha256 (automaton_sha256 plan))
         || (partition_count plan <? 2)%N
         || (max_iterations plan =? 0)%N
         || (max_frontier_items plan =? 0)%N
         || (max_visited_items plan <? max_frontier_items plan)%N
         || (max_checkpoint_bytes plan =? 0)%N
         || (max_spill_bytes plan <? max_checkpoint_bytes plan)%N
         || (hot_vertex_degree plan =? 0)%N
         || (max_hot_vertex_splits plan <? 2)%N
         || negb (path_require_complete_partition_set plan)
         || negb (path_require_scalar_equivalence plan))
        PathInvalidIdentity;
  fail_if
    (invalid_states (automaton plan)
     || existsb (invalid_transition (automaton plan)) (transitions (automaton plan)))
    PathInvalidAutomaton.

(** ** Graph routing *)

(** A [Uuid] is a 128-bit integer. *)
Inductive QueryCapability :=
| ClassIri (iri : string)
| PropertyIri (iri : string)
| BoundGuid (guid : N)
| GraphRole (role : string)
| VirtualPredicate (predicate : string).

Global Instance QueryCapability_eq_dec : EqDecision QueryCapability.
Proof. solve_decision. Defined.
Global Instance QueryCapability_countable : Countable QueryCapability.
Proof.
  refine (inj_countable
    (fun c => match c with
              | ClassIri s => inl (0%N, s)
              | PropertyIri s => inl (1%N, s)
              | GraphRole s => inl (2%N, s)
              | VirtualPredicate s => inl (3%N, s)
              | BoundGuid g => inr g
              end)
    (fun e => match e with
              | inl (0%N, s) => Some (ClassIri s)
              | inl (1%N, s) => Some (PropertyIri s)
              | inl (2%N, s) => Some (GraphRole s)
              | inl (_, s) => Some (VirtualPredicate s)
              | inr g => Some (BoundGuid g)
              end) _).
  abstract (by intros []).
Defined.

Record GraphRoutingIndex := {
  capabilities : gmap QueryCapability (gset N);
  dependencies : gmap N (gset N);
}.

Inductive RoutingError :=
| UnknownCapability (capability : QueryCapability)
| ForbiddenDependency (source_graph dependency : N)
| EmptyDataset.

(** The dependency edges of a graph, in the order the loop visits them. *)
Definition graph_dependencies (index : GraphRoutingIndex) (graph : N) : list N :=
  match dependencies index !! graph with Some deps => sorted_elements deps | None => [] end.

Definition dependency_check (allowed : gset N) (graph dependency : N) : option RoutingError :=
  if decide (dependency ∈ allowed) then None else Some (ForbiddenDependency graph dependency).

(** One iteration of the loop over the requested capabilities. *)
Definition select_capability (index : GraphRoutingIndex) (allowed selected : gset N)
    (capability : QueryCapability) : result RoutingError (gset N) :=
  graphs ← ok_or (capabilities index !! capability) (UnknownCapability capability);
  Ok (selected ∪ (graphs ∩ allowed)).

(** Graphs of the requested capabilities inside [allowed]. *)
Definition select_capabilities (index : GraphRoutingIndex) (capabilities' : list QueryCapability)
    (allowed : gset N) : result RoutingError (gset N) :=
  try_fold (select_capability index allowed) ∅ capabilities'.

(** The queue holds each allowed graph at most once, so [size allowed + 1]
    iterations are enough ([closure_loop_spec]). *)
Definition route_relevant_graphs (index : GraphRoutingIndex) (capabilities' : list QueryCapability)
    (declared_dataset authorized_graphs : gset N) : result RoutingError (gset N) :=
  let allowed := declared_dataset ∩ authorized_graphs in
  _ ← fail_if (bool_decide (allowed = ∅)) EmptyDataset;
  selected ← select_capabilities index capabilities' allowed;
  _ ← fail_if (bool_decide (selected = ∅)) EmptyDataset;
  default (Err EmptyDataset)
    (closure_loop (graph_dependencies index) (dependency_check allowed)
       (S (size allowed)) selected (sorted_elements selected)).

(** ** Exchange choice *)

Definition choose_exchange (left_bytes right_bytes broadcast_budget bloom_budget : N) : string :=
  let smaller := N.min left_bytes right_bytes in
  if (smaller <=? broadcast_budget)%N then "broadcast_exact_keys"
  else if (smaller <=? bloom_budget)%N then "bloom_then_exact"
  else "hash_shuffle".

(** ** Validated plans are well-formed DAGs *)

Record stage_ok (seen : gset string) (stage : DistributedAlgebraStage) : Prop := {
  stage_fresh : stage_id stage ∉ seen;
  stage_inputs : forall input, input ∈ inputs stage -> input ∈ seen;
  stage_partitions : (2 <= stage_partition_count stage)%N;
  stage_lane : lane_is_safe (operator stage) (lane stage) = true;
}.

Lemma validate_stage_ok seen stage seen' :
  validate_stage seen stage = Ok seen' -> stage_ok seen stage /\ seen' = {[stage_id stage]} ∪ seen.
Proof.
  unfold validate_stage. intros Hv. do 2 inv_ok Hv. inv_ok Hv. inv_ok Ha. inv_ok Ha0.
  bool_prop. split; [|done]. split; [done| |done|done].
  intros i Hi. destruct (decide (i ∈ seen)) as [|Hn]; [done|]. exfalso.
  match goal with Hex : existsb _ _ = false |- _ => rewrite <- not_true_iff_false in Hex; apply Hex end.
  apply existsb_exists. exists i. rewrite list_elem_of_In in Hi. by rewrite bool_decide_false.
Qed.

(** Validation reads the stages left to right with the identifiers before. *)
Lemma validate_stages_ok ss seen seen' :
  try_fold validate_stage seen ss = Ok seen' ->
  seen' = list_to_set (stage_id <$> ss) ∪ seen /\
  NoDup (stage_id <$> ss) /\
  forall pre s post, ss = pre ++ s :: post ->
    stage_ok (list_to_set (stage_id <$> pre) ∪ seen) s.
Proof.
  revert seen; induction ss as [|s ss IH]; intros seen Hv; cbn in Hv.
  - injection Hv as <-. split_and!; [set_solver|constructor|]. intros [|] ? ? [=].
  - inv_ok Hv. apply validate_stage_ok in Ha as [Hs ->].
    destruct (IH _ Hv) as (-> & Hnd & Hpre). split_and!.
    + set_solver.
    + cbn. constructor; [|done]. intros (s' & Heq & Hin)%list_elem_of_fmap.
      apply list_elem_of_split in Hin as (pre & post & ->).
      destruct (Hpre pre s' post eq_refl) as [Hfresh _ _ _]. apply Hfresh. set_solver.
    + intros [|x pre] s' post [= <- Heq]; [cbn; by rewrite (left_id_L ∅ (∪))|].
      specialize (Hpre _ _ _ Heq). cbn.
      by replace ({[stage_id s]} ∪ list_to_set (stage_id <$> pre) ∪ seen)
        with (list_to_set (stage_id <$> pre) ∪ ({[stage_id s]} ∪ seen)) by set_solver.
Qed.

(** What a validated plan guarantees: distinct identifiers, every input names
    an earlier stage, safe lanes, and the root stage comes last. *)
Record plan_wf (plan : DistributedAlgebraPlan) : Prop := {
  wf_nodup : NoDup (stage_id <$> stages plan);
  wf_inputs : forall pre s post, stages plan = pre ++ s :: post ->
    forall input, input ∈ inputs s -> input ∈ stage_id <$> pre;
  wf_partitions : forall s, s ∈ stages plan -> (2 <= stage_partition_count s)%N;
  wf_lanes : forall s, s ∈ stages plan -> lane_is_safe (operator s) (lane s) = true;
  wf_root : exists s, last (stages plan) = Some s /\ stage_id s = root_stage_id plan;
}.

Lemma validated_plan_wf plan : validate_distributed_algebra_plan plan = Ok tt -> plan_wf plan.
Proof.
  unfold validate_distributed_algebra_plan. intros Hv. do 3 inv_ok Hv.
  apply validate_stages_ok in Ha0 as (-> & Hnd & Hpre). inv_ok Ha1. bool_prop.
  assert (forall s, s ∈ stages plan -> exists seen, stage_ok seen s) as Hall.
  { intros s (pre & post & Heq)%list_elem_of_split. eauto. }
  split.
  - done.
  - intros pre s post Heq i Hi. destruct (Hpre _ _ _ Heq) as [_ Hin _ _].
    apply Hin in Hi. set_solver.
  - intros s Hs. by destruct (Hall s Hs) as [? []].
  - intros s Hs. by destruct (Hall s Hs) as [? []].
  - destruct (last (stages plan)) as [s|]; [|done]. exists s. split; [done|].
    match goal with H : _ <$> Some s = Some _ |- _ => by injection H end.
Qed.

(** ** Waves *)

Lemma stages_by_id_lookup plan id s :
  NoDup (stage_id <$> stages plan) ->
  stages_by_id plan !! id = Some s <-> s ∈ stages plan /\ stage_id s = id.
Proof.
  unfold stages_by_id. intros Hnd.
  cut (forall ss (m : gmap string DistributedAlgebraStage), NoDup (stage_id <$> ss) ->
    (foldl (fun m s => (<[stage_id s := s]> m)) m ss : gmap _ _) !! id = Some s <->
    (s ∈ ss /\ stage_id s = id) \/ ((id ∉ stage_id <$> ss) /\ m !! id = Some s)).
  { intros H. rewrite H, lookup_empty by done. naive_solver. }
  clear Hnd. induction ss as [|t ss IH]; intros m Hnd; cbn [foldl].
  - set_solver.
  - apply NoDup_cons in Hnd as [Ht Hnd]. rewrite IH by done. rewrite fmap_cons, not_elem_of_cons, elem_of_cons.
    destruct (decide (stage_id t = id)) as [<-|Hne].
    + rewrite lookup_insert_eq. split.
      * intros [[? Heq]|[? [= <-]]]; [|by left; split; [left|]]. left. split; [by right|done].
      * intros [[[->|?] Heq]|[[]]]; [by right| |done]. left. done.
    + rewrite lookup_insert_ne by done. naive_solver.
Qed.

Section waves.
Context (plan : DistributedAlgebraPlan) (Hwf : plan_wf plan).

Let ids : gset string := list_to_set (stage_id <$> stages plan).
Let by_id : gmap string DistributedAlgebraStage := stages_by_id plan.

Lemma elem_of_ready C R s :
  s ∈ ready_stages by_id C R <->
  s ∈ stages plan /\ stage_id s ∈ R /\ (forall i, i ∈ inputs s -> i ∈ C).
Proof using Hwf.
  unfold ready_stages. rewrite list_elem_of_omap. setoid_rewrite elem_of_sorted_elements.
  assert (forall s, forallb (fun input => bool_decide (input ∈ C)) (inputs s) = true <->
            forall i, i ∈ inputs s -> i ∈ C) as Hin.
  { intros t. rewrite forallb_forall. setoid_rewrite <- list_elem_of_In. setoid_rewrite bool_decide_eq_true. done. }
  split.
  - intros (id & Hid & Hs). destruct (by_id !! id) as [t|] eqn:Ht; [|done].
    apply stages_by_id_lookup in Ht as [Ht <-]; [|apply Hwf].
    destruct (forallb _ _) eqn:Hf; [|done]. injection Hs as ->. split_and!; [done..|by apply Hin].
  - intros (Hs & HR & Hc). exists (stage_id s). split; [done|].
    assert (by_id !! stage_id s = Some s) as ->
      by (apply stages_by_id_lookup; [apply Hwf|done]).
    by rewrite (proj2 (Hin s) Hc).
Qed.

Lemma NoDup_ready C R : NoDup (stage_id <$> ready_stages by_id C R).
Proof using Hwf.
  unfold ready_stages.
  assert (NoDup (sorted_elements R)) as Hnd by apply NoDup_sorted_elements.
  induction Hnd as [|id l Hid Hnd IH]; [constructor|]. cbn.
  destruct (by_id !! id) as [t|] eqn:Ht; [|done].
  apply stages_by_id_lookup in Ht as [Ht <-]; [|apply Hwf].
  destruct (forallb _ _); [|done]. cbn. constructor; [|done].
  intros (u & Heq & (id' & Hid' & Hu)%list_elem_of_omap)%list_elem_of_fmap. apply Hid.
  destruct (by_id !! id') as [w|] eqn:Hw; [|done].
  apply stages_by_id_lookup in Hw as [? <-]; [|apply Hwf].
  destruct (forallb _ _); [|done]. injection Hu as ->. by rewrite Heq.
Qed.

(** A validated plan never stalls: some remaining stage is always ready. *)
Lemma ready_progress C R :
  R <> ∅ -> R ⊆ ids -> ids ⊆ C ∪ R -> exists s, s ∈ ready_stages by_id C R.
Proof using Hwf.
  intros HR HRi Hcov.
  assert (exists pre s post, stages plan = pre ++ s :: post /\ stage_id s ∈ R /\
            forall t, t ∈ pre -> stage_id t ∉ R) as (pre & s & post & Heq & Hs & Hpre).
  { apply set_choose_L in HR as [id Hid]. pose proof (HRi id Hid) as Hin. subst ids.
    apply elem_of_list_to_set, list_elem_of_fmap in Hin as (s & -> & Hs).
    clear -Hid Hs. induction (stages plan) as [|t ss IH]; [set_solver|].
    destruct (decide (stage_id t ∈ R)) as [Ht|Ht].
    - exists [], t, ss. split_and!; [done..|set_solver].
    - apply elem_of_cons in Hs as [->|Hs]; [done|]. destruct (IH Hs) as (pre & u & post & -> & Hu & Hpre).
      exists (t :: pre), u, post. split_and!; [done..|set_solver]. }
  exists s. apply elem_of_ready. split_and!; [rewrite Heq; set_solver|done|].
  intros i Hi. pose proof (wf_inputs _ Hwf _ _ _ Heq i Hi) as Hin.
  apply list_elem_of_fmap in Hin as (t & -> & Ht). pose proof (Hpre t Ht).
  assert (stage_id t ∈ C ∪ R); [|set_solver]. apply Hcov. subst ids.
  apply elem_of_list_to_set, list_elem_of_fmap. exists t. rewrite Heq. set_solver.
Qed.

(** [id] runs in wave [k]. *)
Definition in_wave (ws : list AlgebraExecutionWave) (id : string) (k : nat) : Prop :=
  exists w item, ws !! k = Some w /\ item ∈ work_items w /\ work_stage_id item = id.

Record waves_inv (C R : gset string) (ws : list AlgebraExecutionWave) : Prop := {
  wi_cover : C ∪ R = ids;
  wi_disj : C ## R;
  wi_items : (ws ≫= work_items)
             ≡ₚ (filter (fun s => stage_id s ∈ C) (stages plan) ≫= stage_work_items);
  wi_done : forall id, id ∈ C -> exists k, in_wave ws id k;
  wi_order : forall s k, s ∈ stages plan -> in_wave ws (stage_id s) k ->
    forall i, i ∈ inputs s -> exists j, j < k /\ in_wave ws i j;
  wi_unique : forall id j k, in_wave ws id j -> in_wave ws id k -> j = k;
  wi_seen : forall id k, in_wave ws id k -> id ∈ C;
  wi_ordinals : forall k w, ws !! k = Some w -> ordinal w = N.of_nat k;
}.

Lemma in_wave_app ws w id k :
  in_wave (ws ++ [w]) id k <->
  in_wave ws id k \/ k = length ws /\ exists item, item ∈ work_items w /\ work_stage_id item = id.
Proof using Type.
  unfold in_wave. split.
  - intros (w' & it & Hk & Hit & Hid). apply lookup_app_Some in Hk as [?|[Hk Hk']]; [left; by exists w', it|].
    apply list_lookup_singleton_Some in Hk' as [Hk' <-]. right. split; [lia|eauto].
  - intros [(w' & it & Hk & Hit & Hid)|(-> & it & Hit & Hid)].
    + exists w', it. by rewrite lookup_app_l by (by eapply lookup_lt_Some).
    + exists w, it. by rewrite lookup_app_r, Nat.sub_diag by lia.
Qed.

Lemma stage_work_items_id s it : it ∈ stage_work_items s -> work_stage_id it = stage_id s.
Proof using Type. unfold stage_work_items. by intros (n & -> & _)%list_elem_of_fmap. Qed.

Lemma stage_work_items_inhabited s :
  s ∈ stages plan -> exists it, it ∈ stage_work_items s.
Proof using Hwf.
  intros Hs. pose proof (wf_partitions _ Hwf s Hs). unfold stage_work_items.
  eexists. apply list_elem_of_fmap. exists 0. split; [done|]. apply elem_of_seq. lia.
Qed.

Lemma ready_work_items C R id :
  (exists it, it ∈ ready_stages by_id C R ≫= stage_work_items /\ work_stage_id it = id) <->
  exists s, s ∈ ready_stages by_id C R /\ stage_id s = id.
Proof using Hwf.
  split.
  - intros (it & (s & Hit & Hs)%list_elem_of_bind & <-). exists s.
    by rewrite (stage_work_items_id s).
  - intros (s & Hs & <-). destruct (stage_work_items_inhabited s) as [it Hit].
    { by apply elem_of_ready in Hs as [? _]. }
    exists it. split; [|by apply stage_work_items_id]. apply list_elem_of_bind. eauto.
Qed.

(** Adding the ready stages to the completed ones adds exactly their items. *)
Lemma completed_items C R (ready := ready_stages by_id C R) :
  C ## R ->
  (filter (fun s => stage_id s ∈ C) (stages plan) ≫= stage_work_items) ++ (ready ≫= stage_work_items)
  ≡ₚ filter (fun s => stage_id s ∈ (list_to_set (stage_id <$> ready) ∪ C : gset string)) (stages plan)
       ≫= stage_work_items.
Proof using Hwf.
  intros HCR. rewrite <- bind_app. apply list_bind_proper, NoDup_Permutation.
  - apply NoDup_app. split_and!.
    + apply NoDup_filter. eapply NoDup_fmap_1, wf_nodup, Hwf.
    + intros s [HC _]%list_elem_of_filter (_ & HR & _)%elem_of_ready. set_solver.
    + eapply NoDup_fmap_1, NoDup_ready.
  - apply NoDup_filter. eapply NoDup_fmap_1, wf_nodup, Hwf.
  - intros s. rewrite elem_of_app, !list_elem_of_filter, elem_of_union, elem_of_list_to_set. split.
    + intros [[? ?]|Hr]; [naive_solver|]. split.
      * left. apply list_elem_of_fmap. eauto.
      * by apply elem_of_ready in Hr as [? _].
    + intros [[(t & Heq & Ht)%list_elem_of_fmap|HC] Hs]; [|naive_solver]. right.
      assert (s = t) as ->; [|done]. apply elem_of_ready in Ht as [Ht _].
      pose proof (wf_nodup _ Hwf) as Hnd. eapply NoDup_fmap_inj; eauto.
Qed.

(** One iteration keeps the invariant. *)
Lemma waves_inv_step C R ws (ready := ready_stages by_id C R)
    (new := list_to_set (stage_id <$> ready) : gset string) :
  waves_inv C R ws ->
  waves_inv (new ∪ C) (R ∖ new)
    (ws ++ [{| ordinal := N.of_nat (length ws); work_items := ready ≫= stage_work_items |}]).
Proof using Hwf.
  intros [Hcov Hdis Hit Hdone Hord Huniq Hseen Hnum].
  assert (forall id, id ∈ new <-> exists s, s ∈ ready /\ stage_id s = id) as Hnew.
  { intros id. subst new. rewrite elem_of_list_to_set, list_elem_of_fmap. naive_solver. }
  assert (forall s, s ∈ ready -> stage_id s ∈ R) as HnR.
  { intros s Hs. by apply elem_of_ready in Hs as (_ & ? & _). }
  split.
  - apply set_eq. intros id. rewrite <- Hcov, !elem_of_union, elem_of_difference.
    destruct (decide (id ∈ new)) as [Hi|Hi]; [|naive_solver].
    split; [|naive_solver]. intros _. right. apply Hnew in Hi as (s & Hs & <-). auto.
  - set_solver.
  - rewrite bind_app, Hit. cbn. rewrite app_nil_r. by apply completed_items.
  - intros id [Hi|Hi]%elem_of_union.
    + exists (length ws). apply in_wave_app. right. split; [done|]. cbn.
      by apply ready_work_items, Hnew.
    + destruct (Hdone id Hi) as [k Hk]. exists k. apply in_wave_app. by left.
  - intros s k Hs [Hk|[-> Hk]]%in_wave_app i Hi.
    + destruct (Hord s k Hs Hk i Hi) as (j & ? & ?). exists j. split; [done|]. apply in_wave_app. by left.
    + cbn in Hk. apply ready_work_items in Hk as (t & Ht & Heq).
      apply elem_of_ready in Ht as (Ht & _ & Hin).
      assert (t = s) as -> by (eapply NoDup_fmap_inj; [apply Hwf|done..]).
      destruct (Hdone i (Hin i Hi)) as [j Hj]. exists j. split.
      * destruct Hj as (w & _ & Hw & _). by eapply lookup_lt_Some.
      * apply in_wave_app. by left.
  - assert (forall id, id ∈ new -> ~ exists k, in_wave ws id k) as Hfresh.
    { intros id (s & Hs & <-)%Hnew [k Hk%Hseen]. specialize (HnR s Hs). set_solver. }
    assert (forall id, (exists it, it ∈ ready ≫= stage_work_items /\ work_stage_id it = id) -> id ∈ new) as Hin.
    { intros id Hid. by apply Hnew, ready_work_items. }
    intros id j k [Hj|[-> Hj]]%in_wave_app [Hk|[-> Hk]]%in_wave_app;
      [by eapply Huniq| | |done]; exfalso; eapply Hfresh; eauto.
  - intros id k [Hk|[_ Hk]]%in_wave_app; apply elem_of_union; [right; by eapply Hseen|left].
    by apply Hnew, ready_work_items.
  - intros k w [Hk|[Hk Hk']]%lookup_app_Some; [auto|].
    apply list_lookup_singleton_Some in Hk' as [Hk' <-]. cbn. f_equal. lia.
Qed.

(** Enough iterations: each one completes at least one stage. *)
Lemma waves_loop_total fuel C R ws :
  waves_inv C R ws -> size R < fuel -> (N.of_nat (length ws + size R) < U32_LIMIT)%N ->
  exists ws', waves_loop fuel by_id C R ws = Some (Ok ws') /\ waves_inv ids ∅ ws'.
Proof using Hwf.
  revert C R ws; induction fuel as [|fuel IH]; intros C R ws Hinv Hf Hlim; [lia|].
  cbn [waves_loop]. case_decide as HR.
  { exists ws. split; [done|]. subst R. pose proof (wi_cover _ _ _ Hinv) as HC.
    rewrite (right_id_L ∅ (∪)) in HC. by rewrite <- HC. }
  destruct (ready_progress C R HR) as [s Hs]; [rewrite <- (wi_cover _ _ _ Hinv); set_solver..|].
  destruct (ready_stages by_id C R) as [|r ready] eqn:Hready; [set_solver|]. rewrite <- Hready in *.
  assert (stage_id s ∈ R) as HsR by by apply elem_of_ready in Hs as (_ & ? & _).
  set (new := list_to_set (stage_id <$> ready_stages by_id C R) : gset string).
  assert (stage_id s ∈ new) as Hnew.
  { apply elem_of_list_to_set, list_elem_of_fmap. eauto. }
  assert (size (R ∖ new) < size R) as Hlt.
  { apply subset_size. set_solver. }
  assert (fits U32_LIMIT (N.of_nat (length ws)) = true) as ->.
  { unfold fits. apply N.ltb_lt. lia. }
  apply IH; [by apply waves_inv_step|lia|]. rewrite length_app. cbn. lia.
Qed.

Lemma waves_inv_init : waves_inv ∅ ids [].
Proof using Hwf.
  split; [set_solver|set_solver| |set_solver| | | |done].
  - by rewrite list_filter_empty by set_solver.
  - by intros s k _ (w & it & Hw & _).
  - by intros id j k (w & it & Hw & _).
  - by intros id k (w & it & Hw & _).
Qed.

Lemma waves_inv_final ws :
  waves_inv ids ∅ ws -> (ws ≫= work_items) ≡ₚ stages plan ≫= stage_work_items.
Proof using Hwf.
  intros Hinv. rewrite (wi_items _ _ _ Hinv). rewrite list_filter_full; [done|].
  intros s Hs. apply elem_of_list_to_set, list_elem_of_fmap. eauto.
Qed.
End waves.


(** C6: a validated plan with fewer than 2^32 stages is always scheduled: the
    waves carry consecutive ordinals, their work items are exactly the
    partitions of all stages, each once, and every partition of an input stage
    sits in a strictly earlier wave than every partition of its consumer. *)
Theorem execution_waves_respect_dag plan :
  validate_distributed_algebra_plan plan = Ok tt ->
  (N.of_nat (length (stages plan)) < U32_LIMIT)%N ->
  exists ws, algebra_execution_waves plan = Ok ws /\
    (forall k w, ws !! k = Some w -> ordinal w = N.of_nat k) /\
    (ws ≫= work_items) ≡ₚ stages plan ≫= stage_work_items /\
    (forall s i j k, s ∈ stages plan -> i ∈ inputs s ->
       in_wave ws i j -> in_wave ws (stage_id s) k -> j < k).
Proof.
  intros Hv Hlen. pose proof (validated_plan_wf _ Hv) as Hwf.
  assert (size (list_to_set (stage_id <$> stages plan) : gset string) <= length (stages plan)) as Hsz.
  { rewrite size_list_to_set by apply Hwf. by rewrite length_fmap. }
  destruct (waves_loop_total plan Hwf (S (length (stages plan))) ∅ _ [] (waves_inv_init plan Hwf))
    as (ws & Hws & Hinv); [lia|cbn; lia|].
  exists ws. unfold algebra_execution_waves. rewrite Hv. cbn [mbind result_bind]. rewrite Hws.
  split_and!; [done|apply Hinv|by apply waves_inv_final|].
  intros s i j k Hs Hi Hj Hk. destruct (wi_order _ _ _ _ Hinv s k Hs Hk i Hi) as (j' & Hlt & Hj').
  by rewrite (wi_unique _ _ _ _ Hinv _ _ _ Hj Hj').
Qed.

Definition sample_sha : string := "0000000000000000000000000000000000000000000000000000000000000000".

Definition sample_stage (id : string) (op : DistributedAlgebraOperator) (ins : list string) :
    DistributedAlgebraStage :=
  {| stage_id := id; operator := op; inputs := ins; lane := NativePartitioned;
     algebra_sha256 := sample_sha; stage_partition_count := 2; max_input_rows := 10;
     max_output_rows := 10; max_exchange_bytes := 100; stage_max_spill_bytes := 100 |}.

(** Two tables, their join and its projection. *)
Definition sample_plan : DistributedAlgebraPlan :=
  {| plan_format_version := 1; query_algebra_sha256 := sample_sha; root_stage_id := "s3";
     stages := [sample_stage "s0" Values []; sample_stage "s1" Values [];
                sample_stage "s2" Join ["s0"; "s1"]; sample_stage "s3" Project ["s2"]];
     require_complete_partition_set := true; require_scalar_equivalence := true |}.

Lemma execution_waves_respect_dag_witness :
  exists ws, algebra_execution_waves sample_plan = Ok ws /\ length ws = 3 /\
    (ws ≫= work_items) ≡ₚ stages sample_plan ≫= stage_work_items.
Proof.
  destruct (execution_waves_respect_dag sample_plan) as (ws & Hws & _ & Hitems & _).
  - vm_compute. reflexivity.
  - vm_compute. reflexivity.
  - exists ws. split; [exact Hws|]. split; [|exact Hitems].
    vm_compute in Hws. injection Hws as <-. reflexivity.
Defined.

(** ** Routing *)

(** The graphs the capabilities name, inside the allowed ones. *)
Definition capability_graphs (index : GraphRoutingIndex) (caps : list QueryCapability)
    (allowed : gset N) (graph : N) : Prop :=
  graph ∈ allowed /\ exists c gs, c ∈ caps /\ capabilities index !! c = Some gs /\ graph ∈ gs.

(** The graph names a capability asks for, or depends on one that is named. *)
Inductive relevant (index : GraphRoutingIndex) (caps : list QueryCapability) (allowed : gset N) :
    N -> Prop :=
| relevant_capability graph : capability_graphs index caps allowed graph -> relevant index caps allowed graph
| relevant_dependency graph deps dependency :
    relevant index caps allowed graph -> dependencies index !! graph = Some deps ->
    dependency ∈ deps -> relevant index caps allowed dependency.

Lemma elem_of_graph_dependencies index graph d :
  d ∈ graph_dependencies index graph <-> exists deps, dependencies index !! graph = Some deps /\ d ∈ deps.
Proof.
  unfold graph_dependencies. destruct (dependencies index !! graph) as [deps|].
  - rewrite elem_of_sorted_elements. naive_solver.
  - set_solver.
Qed.

Lemma select_capabilities_spec index caps allowed :
  match select_capabilities index caps allowed with
  | Ok selected => (forall c, c ∈ caps -> is_Some (capabilities index !! c)) /\
                   forall g, g ∈ selected <-> capability_graphs index caps allowed g
  | Err e => exists c, c ∈ caps /\ capabilities index !! c = None /\ e = UnknownCapability c
  end.
Proof.
  unfold select_capabilities, capability_graphs.
  cut (forall acc : gset N, match try_fold (select_capability index allowed) acc caps with
    | Ok selected => (forall c, c ∈ caps -> is_Some (capabilities index !! c)) /\
        forall g, g ∈ selected <-> g ∈ acc \/ (g ∈ allowed /\
          exists c gs, c ∈ caps /\ capabilities index !! c = Some gs /\ g ∈ gs)
    | Err e => exists c, c ∈ caps /\ capabilities index !! c = None /\ e = UnknownCapability c
    end).
  { intros H. specialize (H ∅). destruct (try_fold _ ∅ caps); [|done]. destruct H as [? H].
    split; [done|]. intros g. rewrite H. set_solver. }
  induction caps as [|c caps IH]; intros acc; cbn [try_fold]; [set_solver|].
  destruct (select_capability index allowed acc c) as [acc'|e] eqn:Hstep;
    unfold select_capability in Hstep; destruct (capabilities index !! c) as [gs|] eqn:Hc;
    cbn in Hstep; [|done|done|]; injection Hstep as <-; cbn [mbind result_bind].
  - specialize (IH (acc ∪ (gs ∩ allowed))). destruct (try_fold _ _ caps).
    + destruct IH as [Hk IH]. split.
      * intros c' [->|?]%elem_of_cons; [by rewrite Hc|auto].
      * intros g. rewrite IH. set_solver.
    + destruct IH as (c' & ? & ? & ?). exists c'. set_solver.
  - exists c. set_solver.
Qed.

Lemma relevant_reachable index caps allowed (seeds : gset N) g :
  (forall g, g ∈ seeds <-> capability_graphs index caps allowed g) ->
  reachable (graph_dependencies index) seeds g <-> relevant index caps allowed g.
Proof.
  intros Hs. split.
  - intros (x & Hx%Hs & Hxy). apply relevant_capability in Hx.
    induction Hxy as [|x y z Hxy _ IH]; [done|]. apply IH.
    apply elem_of_graph_dependencies in Hxy as (deps & ? & ?). by eapply relevant_dependency.
  - induction 1 as [g Hg|g deps d _ (x & Hx & Hxg) Hd Hin].
    + exists g. split; [by apply Hs|done].
    + exists x. split; [done|]. eapply rtc_r; [done|]. apply elem_of_graph_dependencies. eauto.
Qed.

Lemma dependency_check_none allowed g d : dependency_check allowed g d = None <-> d ∈ allowed.
Proof. unfold dependency_check. case_decide; naive_solver. Qed.

(** C28: routing is authorization-first and complete.  It returns exactly the
    graphs that answer a requested capability inside the declared and
    authorized graphs together with all their transitive dependencies, none of
    them outside what is allowed; it fails only for a capability the snapshot
    does not know, for a relevant graph whose dependency is not allowed, or
    when nothing is selected. *)
Theorem routing_is_authorized_closure index caps declared authorized :
  let allowed := declared ∩ authorized in
  match route_relevant_graphs index caps declared authorized with
  | Ok selected =>
      selected ⊆ allowed /\ selected <> ∅ /\
      (forall g, g ∈ selected <-> relevant index caps allowed g)
  | Err (UnknownCapability c) => c ∈ caps /\ capabilities index !! c = None
  | Err (ForbiddenDependency g d) =>
      relevant index caps allowed g /\ d ∈ graph_dependencies index g /\ d ∉ allowed
  | Err EmptyDataset => forall g, ~ capability_graphs index caps allowed g
  end.
Proof.
  intros allowed. unfold route_relevant_graphs. fold allowed.
  destruct (decide (allowed = ∅)) as [Ha|Ha];
    [rewrite bool_decide_true by done|rewrite bool_decide_false by done]; cbn [fail_if mbind result_bind].
  { intros g [Hg _]. set_solver. }
  pose proof (select_capabilities_spec index caps allowed) as Hsel.
  destruct (select_capabilities index caps allowed) as [seeds|e]; cbn [mbind result_bind];
    [|destruct Hsel as (c & ? & ? & ->); done].
  destruct Hsel as [_ Hsel].
  destruct (decide (seeds = ∅)) as [Hs|Hs];
    [rewrite bool_decide_true by done|rewrite bool_decide_false by done]; cbn [fail_if mbind result_bind].
  { intros g Hg%Hsel. set_solver. }
  assert (seeds ⊆ allowed) as Hsub by (intros g [? _]%Hsel; done).
  destruct (closure_loop_spec (graph_dependencies index) (dependency_check allowed)
    allowed seeds (sorted_elements seeds) (S (size allowed)))
    as (r & -> & Hr); [intros x; apply elem_of_sorted_elements|apply NoDup_sorted_elements| |done|lia|].
  { intros x y _ _. by rewrite dependency_check_none. }
  pose proof (fun g => relevant_reachable index caps allowed seeds g Hsel) as Hrel. cbn [default].
  destruct r as [sel|e].
  - destruct Hr as [Hin Hck]. split_and!.
    + intros g (x & Hx & Hxg)%Hin. apply rtc_inv_r in Hxg as [->|(y & Hxy & Hyg)]; [auto|].
      apply (dependency_check_none _ y), Hck; [|done]. by exists x.
    + apply set_choose_L in Hs as [g Hg]. intros ->. apply (not_elem_of_empty (C := gset N) g), Hin. by exists g.
    + intros g. by rewrite Hin, Hrel.
  - destruct Hr as (x & y & Hx%Hrel & Hy & Hc). unfold dependency_check in Hc.
    case_decide; [done|]. by injection Hc as <-.
Qed.
