(* ===== verification/Terms.v ===== *)
(** * JSON values and SPARQL terms

    Models [serde_json::Value] as the query executor uses it, the executor's
    error type, and the term parser of
    src/crates/ngkg-query-executor/src/lib.rs ([parse_sparql_term]).

    A [serde_json::Map] is a [BTreeMap<String, Value>], here [gmap string
    Value].  A number is kept as its JSON text: solution mappings carry no
    numbers, every member of an RDF term being a string. *)

From Stdlib Require Import Strings.Byte Strings.String.
From stdpp Require Import pretty.
From S2P Require Import Prelude Words Ordered Digest.

Unset Elimination Schemes.
Inductive Value :=
| JNull
| JBool (b : bool)
| JNumber (text : string)
| JString (s : string)
| JArray (l : list Value)
| JObject (m : gmap string Value).
Set Elimination Schemes.

Abbreviation Map := (gmap string Value).

Global Instance Value_eq_dec : EqDecision Value.
Proof.
  refine (fix go v1 v2 := let _ : EqDecision Value := @go in
    match v1, v2 with
    | JNull, JNull => left eq_refl
    | JBool a, JBool b => cast_if (decide (a = b))
    | JNumber a, JNumber b => cast_if (decide (a = b))
    | JString a, JString b => cast_if (decide (a = b))
    | JArray a, JArray b => cast_if (decide (a = b))
    | JObject a, JObject b => cast_if (decide (a = b))
    | _, _ => right _
    end); first [ by f_equal | intros [=]; done | discriminate ].
Defined.

(** [Value::as_object], [Value::as_str]. *)
Definition as_object (v : Value) : option Map :=
  match v with JObject m => Some m | _ => None end.
Definition as_str (v : Value) : option string :=
  match v with JString s => Some s | _ => None end.

(** ** Errors of the query executor *)

Inductive ExecutionError :=
| MultiplicityOverflow
| IncompatibleBinding (variable : N)
| InvalidSparqlBinding
| IntermediateRowLimit
| InvalidArrowStream (detail : string)
| InvalidArrowMetadata (detail : string)
| InvalidSparqlTerm (detail : string)
| InvalidPartitionCount
| EmptyShuffleKey
| UnboundShuffleKey (variable : string)
| UnsafeNativeAlgebraOperator
| InvalidPropertyPathIdentity
| PropertyPathFrontierLimit
| PropertyPathVisitedLimit
| PropertyPathIterationLimit
| PropertyPathCheckpointLimit.

Global Instance ExecutionError_eq_dec : EqDecision ExecutionError.
Proof. solve_decision. Defined.

(** ** RDF terms *)

Record ParsedTerm := {
  kind : N;
  value : string;
  datatype : option string;
  language : option string;
}.

Global Instance ParsedTerm_eq_dec : EqDecision ParsedTerm.
Proof. solve_decision. Defined.

Definition term_members : list string := ["type"; "value"; "datatype"; "xml:lang"].

Definition optional_string_member (object : Map) (key : string) :
    result ExecutionError (option string) :=
  match object !! key with
  | None => Ok None
  | Some v =>
      s ← ok_or (as_str v) (InvalidSparqlTerm ("term " +:+ key +:+ " is not a string"));
      Ok (Some s)
  end.

(** The term family: 1 for IRIs, 2 for blank nodes, 3 for literals, which may
    carry a datatype or a language tag but not both. *)
Definition term_code (family : string) (datatype language : option string) : option N :=
  let unqualified := negb (bool_decide (is_Some datatype)) && negb (bool_decide (is_Some language)) in
  let both := bool_decide (is_Some datatype) && bool_decide (is_Some language) in
  if bool_decide (family = "uri") && unqualified then Some 1%N
  else if bool_decide (family = "bnode") && unqualified then Some 2%N
  else if bool_decide (family = "literal") && negb both then Some 3%N
  else None.

Definition parse_sparql_term (term : Value) : result ExecutionError ParsedTerm :=
  object ← ok_or (as_object term) (InvalidSparqlTerm "term is not an object");
  _ ← fail_if (existsb (fun key => negb (bool_decide (key ∈ term_members))) (elements (dom object : gset string)))
        (InvalidSparqlTerm "term contains an unsupported member");
  family ← ok_or (object !! "type" ≫= as_str) (InvalidSparqlTerm "term type is absent");
  value ← ok_or (object !! "value" ≫= as_str) (InvalidSparqlTerm "term value is absent");
  datatype ← optional_string_member object "datatype";
  language ← optional_string_member object "xml:lang";
  code ← ok_or (term_code family datatype language)
           (InvalidSparqlTerm "term family, datatype, and language are inconsistent");
  Ok {| kind := code; value := value; datatype := datatype; language := language |}.

(** The JSON spelling of a term family. *)
Definition kind_name (code : N) : string :=
  if (code =? 1)%N then "uri" else if (code =? 2)%N then "bnode" else "literal".

Definition opt_member (key : string) (member : option string) (object : Map) : Map :=
  match member with Some s => <[key := JString s]> object | None => object end.

(** The JSON term with the given components, as the decoder assembles it. *)
Definition term_of_parsed (p : ParsedTerm) : Value :=
  JObject
    (opt_member "xml:lang" (language p)
      (opt_member "datatype" (datatype p)
        (<["value" := JString (value p)]> (<["type" := JString (kind_name (kind p))]> ∅)))).

(** A solution mapping all of whose values are RDF terms. *)
Definition valid_term (v : Value) : Prop := exists p, parse_sparql_term v = Ok p.
Definition valid_object (m : Map) : Prop := map_Forall (fun _ v => valid_term v) m.
Definition valid_row (v : Value) : Prop := exists m, v = JObject m /\ valid_object m.

(** ** Serialised terms

    [serde_json::to_string]/[to_vec] on a term.  The code compares serialised
    terms where it could compare the terms themselves (hash keys, canonical
    bytes), so it relies on the text determining the term. *)
Class TermText := {
  to_string : Value -> string;
  to_string_inj : forall v w,
    valid_term v -> valid_term w -> to_string v = to_string w -> v = w;
}.

(** ** Facts *)

Lemma optional_string_member_ok object key o :
  optional_string_member object key = Ok o <-> object !! key = JString <$> o.
Proof.
  unfold optional_string_member. destruct (object !! key) as [v|] eqn:Hv; cbn.
  - destruct v; cbn; destruct o; cbn; naive_solver.
  - destruct o; naive_solver.
Qed.

Lemma term_code_some family d l c :
  term_code family d l = Some c -> family = kind_name c /\ (c = 1 \/ c = 2 \/ c = 3)%N.
Proof.
  unfold term_code. intros H.
  repeat match type of H with context [if ?b then _ else _] => destruct b eqn:? end;
    simplify_eq; bool_prop; subst; cbn; auto.
Qed.

Lemma parse_members (object : Map) (key : string) v :
  existsb (fun key => negb (bool_decide (key ∈ term_members))) (elements (dom object : gset string)) = false ->
  object !! key = Some v -> key ∈ term_members.
Proof.
  intros Hex Hk. destruct (decide (key ∈ term_members)) as [|Hn]; [done|].
  rewrite <- not_true_iff_false in Hex. destruct Hex. apply existsb_exists.
  exists key. split.
  - apply list_elem_of_In, elem_of_elements, elem_of_dom. eauto.
  - by rewrite bool_decide_false.
Qed.

(** Parsing loses nothing: the components determine the JSON term. *)
Lemma parse_term_of_parsed v p : parse_sparql_term v = Ok p -> v = term_of_parsed p.
Proof.
  unfold parse_sparql_term. intros H. destruct v as [| | | | |m]; cbn in H; try done.
  do 6 (inv_ok H). inv_ok H. subst p. destruct a.
  apply optional_string_member_ok in Ha2, Ha3. inv_ok Ha0. inv_ok Ha1. inv_ok Ha4. inv_ok Ha.
  rename a0 into fam, a1 into val, a2 into dt, a3 into lg, a4 into code.
  apply bind_Some in Ha0 as (vt & Hvt & Evt), Ha1 as (vv & Hvv & Evv).
  destruct vt; simplify_eq/=. destruct vv; simplify_eq/=.
  apply term_code_some in Ha4 as [-> _].
  unfold term_of_parsed; cbn. f_equal. apply map_eq. intros k.
  destruct (decide (k ∈ term_members)) as [Hk|Hk].
  - unfold term_members in Hk. set_unfold.
    destruct Hk as [->|[->|[->|[->|[]]]]];
      destruct dt, lg; cbn in *; by simplify_map_eq.
  - destruct (m !! k) as [w|] eqn:Hw; [by eapply parse_members in Hw|].
    unfold term_members in Hk. set_unfold.
    symmetry. destruct dt, lg; cbn; rewrite ?lookup_insert_ne by naive_solver; done.
Qed.

Lemma parse_sparql_term_inj v w p :
  parse_sparql_term v = Ok p -> parse_sparql_term w = Ok p -> v = w.
Proof. intros ->%parse_term_of_parsed ->%parse_term_of_parsed. done. Qed.

Lemma parse_sparql_term_code v p :
  parse_sparql_term v = Ok p -> term_code (kind_name (kind p)) (datatype p) (language p) = Some (kind p).
Proof.
  unfold parse_sparql_term. intros H. destruct v as [| | | | |m]; cbn in H; try done.
  do 6 (inv_ok H). inv_ok H. subst p. cbn. inv_ok Ha4.
  by pose proof (term_code_some _ _ _ _ Ha4) as [<- _].
Qed.

(** ** A concrete serialisation

    Prints the four members of a term: an instance of [TermText], used to
    evaluate the kernels on concrete relations. *)
Definition term_fields (v : Value) : option string * option string * option string * option string :=
  let member k := as_object v ≫= fun m => (m !! k) ≫= as_str in
  (member "type", member "value", member "datatype", member "xml:lang").

Lemma term_fields_parsed p :
  term_fields (term_of_parsed p)
  = (Some (kind_name (kind p)), Some (value p), datatype p, language p).
Proof.
  destruct p as [k v [d|] [l|]]; unfold term_fields, term_of_parsed; cbn -[insert lookup];
    by simplify_map_eq.
Qed.

Lemma term_fields_inj v w :
  valid_term v -> valid_term w -> term_fields v = term_fields w -> v = w.
Proof.
  intros [p ->%parse_term_of_parsed] [q ->%parse_term_of_parsed].
  rewrite !term_fields_parsed. unfold term_of_parsed. by intros [= -> -> -> ->].
Qed.

Program Definition field_text : TermText :=
  {| to_string v := pretty (Npos (encode (term_fields v))) |}.
Next Obligation.
  intros v w Hv Hw Heq. apply term_fields_inj; [done..|].
  cbn in Heq. apply (inj (pretty (A:=N))) in Heq. apply (inj encode). congruence.
Qed.

(** Concrete relations for the evaluations of the model. *)
Definition uri (s : string) : Value :=
  term_of_parsed {| kind := 1; value := s; datatype := None; language := None |}.

Lemma uri_valid s : valid_term (uri s).
Proof. by eexists. Qed.

(** Validity of the rows of a concrete relation. *)
Ltac solve_valid :=
  repeat first [apply Forall_cons_2 | apply Forall_nil_2];
  unfold valid_object;
  repeat first [apply map_Forall_singleton | apply map_Forall_insert_2 | apply map_Forall_empty
               | apply uri_valid].
