(* ===== verification/Bindings.v ===== *)
(** * Solution mappings and joins

    Models the join kernels of src/crates/ngkg-query-executor/src/lib.rs: the
    SPARQL JSON bag join with its hash index and its nested fallback
    ([Sparql]), and the dictionary-encoded join, semijoin and frontier
    ([Encoded]).  The reference is the SPARQL algebra's Join on bags:
    all unions of compatible pairs, in left-then-right order. *)

From Stdlib Require Import Strings.Byte Strings.String.
From S2P Require Import Prelude Words Ordered Digest Terms.

(** ** SPARQL JSON relations *)
Module Sparql.

(** [stable_variable_id]: the [u16] carried by an incompatibility error. *)
Definition stable_variable_id (variable : string) : N :=
  foldl (fun state b => wrapping U16_LIMIT (wrapping U16_LIMIT (state * 257) + Byte.to_N b))
    0%N (as_bytes variable).

Definition merge_json_bindings (left right : Map) : result ExecutionError Map :=
  try_fold (merge_binding (fun v => IncompatibleBinding (stable_variable_id v)))
    left (sorted_bindings right).

Definition binding_variables (rows : list Value) : result ExecutionError (gset string) :=
  try_fold (fun variables row =>
      object ← ok_or (as_object row) InvalidSparqlBinding;
      Ok (variables ∪ dom object))
    ∅ rows.

Definition json_binding_key `{TermText} (row : Map) (variables : list string) :
    result ExecutionError (list string) :=
  try_map (fun variable =>
      Ok (match row !! variable with Some v => to_string v | None => "null" end))
    variables.

(** [right_index.entry(key).or_default().push(row)]. *)
Definition index_push {K R} `{Countable K} (index : gmap K (list R)) (key : K) (row : R) :
    gmap K (list R) :=
  partial_alter (fun rows => Some (default [] rows ++ [row])) key index.

Definition shared_compatible (shared : list string) (left right : Map) : bool :=
  forallb (fun variable =>
      match left !! variable, right !! variable with
      | Some l, Some r => bool_decide (l = r)
      | _, _ => true
      end)
    shared.

Definition compatible_nested_join (left right : list Value) (shared : list string)
    (max_rows : nat) : result ExecutionError (list Value) :=
  try_fold (fun output left_row =>
      left_object ← ok_or (as_object left_row) InvalidSparqlBinding;
      try_fold (fun output right_row =>
          right_object ← ok_or (as_object right_row) InvalidSparqlBinding;
          if shared_compatible shared left_object right_object then
            if max_rows <=? length output then Err IntermediateRowLimit
            else joined ← merge_json_bindings left_object right_object;
                 Ok (output ++ [JObject joined])
          else Ok output)
        output right)
    [] left.

Definition row_binds (shared : list string) (row : Value) : bool :=
  match as_object row with
  | Some object => forallb (fun variable => bool_decide (is_Some (object !! variable))) shared
  | None => false
  end.

(** The hash index over the right relation. *)
Definition build_right_index `{TermText} (right : list Value) (shared : list string) :
    result ExecutionError (gmap (list string) (list Map)) :=
  try_fold (fun index row =>
      object ← ok_or (as_object row) InvalidSparqlBinding;
      key ← json_binding_key object shared;
      Ok (index_push index key object))
    ∅ right.

(** The probe of the index with every left row. *)
Definition probe_right_index `{TermText} (left : list Value) (shared : list string)
    (right_index : gmap (list string) (list Map)) (max_rows : nat) :
    result ExecutionError (list Value) :=
  try_fold (fun output row =>
      left_object ← ok_or (as_object row) InvalidSparqlBinding;
      key ← json_binding_key left_object shared;
      match right_index !! key with
      | None => Ok output
      | Some matches =>
          try_fold (fun output right_object =>
              if max_rows <=? length output then Err IntermediateRowLimit
              else joined ← merge_json_bindings left_object right_object;
                   Ok (output ++ [JObject joined]))
            output matches
      end)
    [] left.

Definition inner_join_sparql_json `{TermText} (left right : list Value) (max_rows : nat) :
    result ExecutionError (list Value) :=
  left_variables ← binding_variables left;
  right_variables ← binding_variables right;
  let shared := sorted_elements (left_variables ∩ right_variables) in
  let all_shared_bound := forallb (row_binds shared) (left ++ right) in
  if negb all_shared_bound then compatible_nested_join left right shared max_rows
  else
    right_index ← build_right_index right shared;
    probe_right_index left shared right_index max_rows.

Definition project_sparql_json (rows : list Value) (variables : list string) :
    result ExecutionError (list Value) :=
  try_map (fun row =>
      object ← ok_or (as_object row) InvalidSparqlBinding;
      Ok (JObject
        (foldl (fun projected variable =>
            match object !! variable with
            | Some term => <[variable := term]> projected
            | None => projected
            end)
          ∅ variables)))
    rows.

(** *** Reference semantics: the Join of the SPARQL algebra on bags *)

Definition join_pair (l r : Map) : list Map :=
  if decide (map_agree l r) then [l ∪ r] else [].

Definition sparql_join (left right : list Map) : list Map :=
  l ← left; r ← right; join_pair l r.

(** *** Properties *)

Lemma merge_json_agree l r : map_agree l r -> merge_json_bindings l r = Ok (l ∪ r).
Proof. apply merge_bindings_agree. Qed.

Lemma binding_variables_spec (rows : list Map) :
  exists vs, binding_variables (JObject <$> rows) = Ok vs /\
             forall v, v ∈ vs <-> exists m, m ∈ rows /\ v ∈ dom m.
Proof.
  unfold binding_variables.
  exists (foldl (fun vs row => vs ∪ dom (default ∅ (as_object row))) ∅ (JObject <$> rows)). split.
  - apply (try_fold_pure (fun _ => True)); [done|]. intros s x _ Hx.
    apply list_elem_of_fmap in Hx as (m & -> & _). done.
  - intros v.
    cut (forall acc : gset string,
      v ∈ foldl (fun vs row => vs ∪ dom (default ∅ (as_object row))) acc (JObject <$> rows) <->
      v ∈ acc \/ exists m, m ∈ rows /\ v ∈ dom m).
    { intros H. rewrite H. set_solver. }
    induction rows as [|m rows IH]; intros acc; cbn; [set_solver|].
    rewrite IH. set_solver.
Qed.

Lemma json_binding_key_spec `{TermText} (m : Map) vs :
  json_binding_key m vs =
  Ok ((fun v => match m !! v with Some t => to_string t | None => "null" end) <$> vs).
Proof. by apply try_map_pure. Qed.

Lemma shared_compatible_agree (shared : list string) (l r : Map) :
  (forall v, v ∈ dom l -> v ∈ dom r -> v ∈ shared) ->
  shared_compatible shared l r = true <-> map_agree l r.
Proof.
  intros Hsh. unfold shared_compatible. rewrite map_agree_spec, forallb_forall. split.
  - intros Hf v x y Hx Hy. specialize (Hf v).
    rewrite Hx, Hy in Hf. eapply bool_decide_eq_true_1, Hf, list_elem_of_In, Hsh; by eapply elem_of_dom_2.
  - intros Hag v _. destruct (l !! v) eqn:Hl; [|done]. destruct (r !! v) eqn:Hr; [|done].
    apply bool_decide_eq_true. eauto.
Qed.

(** The body of every join loop: one compatible pair, pushed under the
    ceiling. *)
Lemma emit_pair_bounded max (out : list Value) (l r : Map) :
  length out <= max -> map_agree l r ->
  (if max <=? length out then Err IntermediateRowLimit
   else joined ← merge_json_bindings l r; Ok (out ++ [JObject joined]))
  = bounded max IntermediateRowLimit (out ++ (JObject <$> join_pair l r)).
Proof.
  intros Hout Hag. rewrite merge_json_agree by done. cbn.
  unfold join_pair. rewrite decide_True by done. by apply bounded_push.
Qed.

Lemma nested_join_spec max (L R : list Map) (shared : list string) :
  (forall l r v, l ∈ L -> r ∈ R -> v ∈ dom l -> v ∈ dom r -> v ∈ shared) ->
  compatible_nested_join (JObject <$> L) (JObject <$> R) shared max
  = bounded max IntermediateRowLimit (JObject <$> sparql_join L R).
Proof.
  intros Hsh. unfold compatible_nested_join.
  rewrite (try_fold_bounded max IntermediateRowLimit _
    (fun row => R ≫= fun r => JObject <$> join_pair (default ∅ (as_object row)) r)); [| |cbn; lia].
  - cbn. unfold sparql_join. f_equal. rewrite list_bind_fmap, fmap_list_bind.
    apply list_bind_ext_in. intros l _. cbn. by rewrite fmap_list_bind.
  - intros out row Hrow Hout. apply list_elem_of_fmap in Hrow as (l & -> & Hl). cbn.
    rewrite (try_fold_bounded max IntermediateRowLimit _
      (fun row => JObject <$> join_pair l (default ∅ (as_object row)))); [| |done].
    + by rewrite list_bind_fmap.
    + intros out' row Hrow Hout'. apply list_elem_of_fmap in Hrow as (r & -> & Hr). cbn.
      destruct (shared_compatible shared l r) eqn:Hc.
      * apply emit_pair_bounded; [done|]. eapply shared_compatible_agree; [|done]. eauto.
      * unfold join_pair. rewrite decide_False, app_nil_r; cycle 1.
        { intros Hag. apply (shared_compatible_agree shared) in Hag; [congruence|eauto]. }
        unfold bounded. destruct (Nat.leb_spec (length out') max); [done|lia].
Qed.

(** The hash index holds, for every key, the rows with that key in insertion
    order. *)
Lemma index_lookup {K R} `{Countable K} (key : R -> K) (rows : list R) (index : gmap K (list R)) k :
  default [] (foldl (fun idx r => index_push idx (key r) r) index rows !! k)
  = default [] (index !! k) ++ filter (fun r => key r = k) rows.
Proof.
  revert index; induction rows as [|r rows IH]; intros index; [cbn; by rewrite app_nil_r|].
  cbn [foldl]. rewrite IH. unfold index_push. rewrite filter_cons. case_decide as Hk.
  - rewrite <- Hk, lookup_partial_alter_eq. cbn. by rewrite <- (assoc (++)).
  - by rewrite lookup_partial_alter_ne.
Qed.

(** Rows that bind all shared variables have equal keys exactly when they are
    compatible. *)
Lemma binding_key_agree `{TermText} (shared : list string) (l r : Map) :
  valid_object l -> valid_object r ->
  (forall v, v ∈ dom l -> v ∈ dom r -> v ∈ shared) ->
  (forall v, v ∈ shared -> v ∈ dom l /\ v ∈ dom r) ->
  let key (m : Map) :=
    (fun v => match m !! v with Some t => to_string t | None => "null" end) <$> shared in
  key r = key l <-> map_agree l r.
Proof.
  intros Hl Hr Hsh Hbound key. rewrite map_agree_spec. split.
  - intros Hkey v x y Hx Hy.
    assert (v ∈ shared) as Hv by (apply Hsh; by eapply elem_of_dom_2).
    apply list_elem_of_lookup in Hv as [i Hi].
    apply (f_equal (fun k => k !! i)) in Hkey. unfold key in Hkey.
    rewrite !list_lookup_fmap, Hi in Hkey. cbn in Hkey. rewrite Hx, Hy in Hkey.
    injection Hkey as Hkey. symmetry. eapply to_string_inj; [by eapply Hr|by eapply Hl|done].
  - intros Hag. unfold key. apply list_fmap_ext. intros i v Hv.
    apply list_elem_of_lookup_2, Hbound in Hv as [[x Hx]%elem_of_dom [y Hy]%elem_of_dom].
    rewrite Hx, Hy. by rewrite (Hag v x y).
Qed.

Section hash_join.
Context `{TermText} (L R : list Map) (shared : list string) (max : nat).
Context (HL : Forall valid_object L) (HR : Forall valid_object R).
Context (Hsh : forall l r v, l ∈ L -> r ∈ R -> v ∈ dom l -> v ∈ dom r -> v ∈ shared).
Context (Hbound : forall m v, m ∈ L ++ R -> v ∈ shared -> v ∈ dom m).

Let key (m : Map) : list string :=
  (fun v => match m !! v with Some t => to_string t | None => "null" end) <$> shared.

Lemma hash_key_agree l r : l ∈ L -> r ∈ R -> key r = key l <-> map_agree l r.
Proof using HL HR Hsh Hbound.
  intros Hl Hr. rewrite Forall_forall in HL, HR.
  apply binding_key_agree; [by apply HL|by apply HR|eauto|].
  intros v Hv. split; apply Hbound; set_solver.
Qed.

Lemma build_right_index_spec :
  build_right_index (JObject <$> R) shared
  = Ok (foldl (fun idx r => index_push idx (key r) r) ∅ R).
Proof using Type.
  unfold build_right_index. destruct (try_fold_pure (E:=ExecutionError) (fun _ => True)
    (fun idx row => index_push idx (key (default ∅ (as_object row))) (default ∅ (as_object row)))
    (fun index row => object ← ok_or (as_object row) InvalidSparqlBinding;
        key ← json_binding_key object shared; Ok (index_push index key object))
    ∅ (JObject <$> R)) as [-> _]; [done| |by rewrite foldl_fmap].
  intros s x _ Hx. apply list_elem_of_fmap in Hx as (m & -> & _). cbn.
  by rewrite json_binding_key_spec.
Qed.

Lemma probe_right_index_spec :
  probe_right_index (JObject <$> L) shared (foldl (fun idx r => index_push idx (key r) r) ∅ R) max
  = bounded max IntermediateRowLimit (JObject <$> sparql_join L R).
Proof using HL HR Hsh Hbound.
  unfold probe_right_index.
  rewrite (try_fold_bounded max IntermediateRowLimit _
    (fun row => R ≫= fun r => JObject <$> join_pair (default ∅ (as_object row)) r)); [| |cbn; lia].
  - cbn. unfold sparql_join. f_equal. rewrite list_bind_fmap, fmap_list_bind.
    apply list_bind_ext_in. intros l _. cbn. by rewrite fmap_list_bind.
  - intros out row Hrow Hout. apply list_elem_of_fmap in Hrow as (l & -> & Hl). cbn.
    rewrite json_binding_key_spec. cbn. fold (key l).
    pose proof (index_lookup key R ∅ (key l)) as Hidx. rewrite lookup_empty in Hidx. cbn in Hidx.
    rewrite (match_default_try_fold (foldl _ ∅ R !! key l)), Hidx.
    rewrite (try_fold_bounded max IntermediateRowLimit _ (fun r => JObject <$> join_pair l r)); [| |done].
    + do 2 f_equal. rewrite list_bind_filter. apply list_bind_ext_in. intros r Hr.
      case_decide as Hk; [done|]. unfold join_pair. rewrite decide_False; [done|].
      intros Hag. apply Hk. by apply hash_key_agree.
    + intros out' r [Hk Hr]%list_elem_of_filter Hout'. apply emit_pair_bounded; [done|].
      by apply hash_key_agree.
Qed.
End hash_join.

(** The optimised bag join computes the SPARQL join in order, and fails only
    when the result would exceed the row ceiling. *)
Lemma inner_join_sparql_json_spec `{TermText} (L R : list Map) (max : nat) :
  Forall valid_object L -> Forall valid_object R ->
  inner_join_sparql_json (JObject <$> L) (JObject <$> R) max
  = bounded max IntermediateRowLimit (JObject <$> sparql_join L R).
Proof.
  intros HL HR. unfold inner_join_sparql_json.
  destruct (binding_variables_spec L) as (lv & -> & Hlv).
  destruct (binding_variables_spec R) as (rv & -> & Hrv). cbn.
  set (shared := sorted_elements (lv ∩ rv)).
  assert (forall l r v, l ∈ L -> r ∈ R -> v ∈ dom l -> v ∈ dom r -> v ∈ shared) as Hsh.
  { intros l r v ????. apply elem_of_sorted_elements, elem_of_intersection.
    split; [apply Hlv|apply Hrv]; eauto. }
  destruct (forallb (row_binds shared) _) eqn:Hall; cbn; [|by apply nested_join_spec].
  rewrite build_right_index_spec. apply probe_right_index_spec; [done..|].
  rewrite forallb_forall in Hall. intros m v Hm Hv. specialize (Hall (JObject m)).
  unfold row_binds in Hall. cbn in Hall. rewrite forallb_forall in Hall.
  apply elem_of_dom, (bool_decide_eq_true_1 _), Hall; [|by apply list_elem_of_In].
  rewrite <- fmap_app. apply list_elem_of_In, list_elem_of_fmap. eauto.
Qed.

(** Projection keeps every row, restricted to the requested variables. *)
Lemma project_lookup (object : Map) (variables : list string) (acc : Map) v :
  foldl (fun projected variable =>
      match object !! variable with
      | Some term => <[variable := term]> projected
      | None => projected
      end) acc variables !! v
  = if decide (v ∈ variables /\ is_Some (object !! v)) then object !! v else acc !! v.
Proof.
  revert acc; induction variables as [|x vs IH]; intros acc; cbn.
  - case_decide; [set_solver|done].
  - rewrite IH. destruct (decide (v = x)) as [->|Hne].
    + destruct (object !! x) as [t|] eqn:Hx; simplify_map_eq; repeat case_decide;
        set_unfold; naive_solver.
    + replace (match object !! x with Some t => <[x := t]> acc | None => acc end !! v) with (acc !! v)
        by (destruct (object !! x); by simplify_map_eq).
      repeat case_decide; set_unfold; naive_solver.
Qed.

Lemma project_sparql_json_spec (rows : list Map) (variables : list string) :
  project_sparql_json (JObject <$> rows) variables
  = Ok ((fun m : Map => JObject (filter (fun b => b.1 ∈ variables) m)) <$> rows).
Proof.
  unfold project_sparql_json.
  rewrite (try_map_pure (fun row => JObject (filter (fun b => b.1 ∈ variables) (default ∅ (as_object row))))).
  - by rewrite <- list_fmap_compose.
  - intros x Hx. apply list_elem_of_fmap in Hx as (m & -> & _). cbn. do 2 f_equal.
    apply map_eq. intros v. rewrite project_lookup, map_lookup_filter, lookup_empty.
    destruct (m !! v) as [t|] eqn:Hv; cbn; repeat case_decide; naive_solver.
Qed.

(** *** Claims *)

(** C3: the optimised SPARQL bag join (hash index when every shared variable is
    bound, nested loop otherwise) returns exactly the algebra's Join of the two
    bags, in left-then-right order and with multiplicities, and fails with the
    row-limit error exactly when that join exceeds the ceiling. *)
Theorem inner_join_computes_sparql_join `{TermText} (L R : list Map) (max_rows : nat) :
  Forall valid_object L -> Forall valid_object R ->
  inner_join_sparql_json (JObject <$> L) (JObject <$> R) max_rows =
  if length (sparql_join L R) <=? max_rows
  then Ok (JObject <$> sparql_join L R)
  else Err IntermediateRowLimit.
Proof.
  intros HL HR. rewrite inner_join_sparql_json_spec by done.
  unfold bounded. by rewrite length_fmap.
Qed.

Lemma inner_join_computes_sparql_join_witness :
  let L := [{["x" := uri "a"; "l" := uri "1"]}; {["x" := uri "b"]}] in
  let R := [{["x" := uri "a"; "r" := uri "2"]}; {["x" := uri "a"]}] in
  inner_join_sparql_json (H := field_text) (JObject <$> L) (JObject <$> R) 2 =
  Ok (JObject <$> [{["x" := uri "a"; "l" := uri "1"; "r" := uri "2"]}; {["x" := uri "a"; "l" := uri "1"]}]).
Proof.
  intros L R. rewrite (inner_join_computes_sparql_join (H := field_text) L R 2);
    [vm_compute; reflexivity|solve_valid..].
Defined.

(** projection keeps every row of the bag, restricted to the requested
    variables, and never fails on solution mappings. *)
Theorem projection_keeps_bag (rows : list Map) (variables : list string) :
  project_sparql_json (JObject <$> rows) variables
  = Ok ((fun m : Map => JObject (filter (fun b => b.1 ∈ variables) m)) <$> rows).
Proof. apply project_sparql_json_spec. Qed.
End Sparql.

(** ** Dictionary-encoded relations *)
Module Encoded.

Inductive EncodedTerm :=
| Entity (id : N)
| Literal (id : N)
| Blank (id : N).

Global Instance EncodedTerm_eq_dec : EqDecision EncodedTerm.
Proof. solve_decision. Defined.

Global Instance EncodedTerm_countable : Countable EncodedTerm.
Proof.
  refine (inj_countable
    (fun t => match t with Entity n => (0%N, n) | Literal n => (1%N, n) | Blank n => (2%N, n) end)
    (fun p => match p with
              | (0%N, n) => Some (Entity n)
              | (1%N, n) => Some (Literal n)
              | (_, n) => Some (Blank n)
              end) _).
  abstract (by intros []).
Defined.

Record BindingRow := {
  query_ordinal : N;
  values : gmap N EncodedTerm;
  multiplicity : N;
  named_graph_id : option N;
  proof_ids : list N;
}.

Record FrontierKey := {
  entity_id : N;
  automaton_state : N;
}.

Global Instance FrontierKey_eq_dec : EqDecision FrontierKey.
Proof. solve_decision. Defined.
Global Program Instance FrontierKey_countable : Countable FrontierKey :=
  inj_countable' (fun k => (entity_id k, automaton_state k))
    (fun p => {| entity_id := p.1; automaton_state := p.2 |}) _.
Next Obligation. by intros []. Qed.
Definition frontier_tuple (k : FrontierKey) : N * N := (entity_id k, automaton_state k).
Global Instance frontier_tuple_inj : Inj (=) (=) frontier_tuple.
Proof. intros [] []; unfold frontier_tuple; cbn; congruence. Qed.
Global Instance FrontierKey_ord : RustOrd FrontierKey := ord_by frontier_tuple _.

Definition binding_key (row : BindingRow) (key_columns : list N) : option (list EncodedTerm) :=
  mapM (fun column => values row !! column) key_columns.

Definition exact_semijoin (rows : list BindingRow) (exact_keys : gset (list EncodedTerm))
    (key_columns : list N) : list BindingRow :=
  filter (fun row =>
      match binding_key row key_columns with
      | Some key => bool_decide (key ∈ exact_keys)
      | None => false
      end = true)
    rows.

(** One output row of [inner_join]. *)
Definition join_rows (left_row right_row : BindingRow) : result ExecutionError BindingRow :=
  values' ← try_fold (merge_binding IncompatibleBinding) (values left_row)
              (sorted_bindings (values right_row));
  multiplicity' ← ok_or (checked_mul U64_LIMIT (multiplicity left_row) (multiplicity right_row))
                    MultiplicityOverflow;
  Ok {| query_ordinal := query_ordinal left_row;
        values := values';
        multiplicity := multiplicity';
        named_graph_id :=
          match named_graph_id left_row with Some g => Some g | None => named_graph_id right_row end;
        proof_ids := proof_ids left_row ++ proof_ids right_row |}.

Definition index_right (right : list BindingRow) (key_columns : list N) :
    gmap (list EncodedTerm) (list BindingRow) :=
  foldl (fun index row =>
      match binding_key row key_columns with
      | Some key => Sparql.index_push index key row
      | None => index
      end)
    ∅ right.

Definition inner_join (left right : list BindingRow) (key_columns : list N) :
    result ExecutionError (list BindingRow) :=
  let right_index := index_right right key_columns in
  try_fold (fun output left_row =>
      match binding_key left_row key_columns with
      | None => Ok output
      | Some key =>
          match right_index !! key with
          | None => Ok output
          | Some matches =>
              try_fold (fun output right_row =>
                  row ← join_rows left_row right_row;
                  Ok (output ++ [row]))
                output matches
          end
      end)
    [] left.

(** [next_frontier]: the second component is the updated visited set. *)
Definition next_frontier (candidates : list FrontierKey) (visited : gset FrontierKey) :
    list FrontierKey * gset FrontierKey :=
  let '(next, visited) :=
    foldl (fun '(next, visited) key =>
        if decide (key ∈ visited) then (next, visited)
        else (next ++ [key], {[key]} ∪ visited))
      ([], visited) candidates in
  (sort next, visited).

(** *** Reference semantics *)

(** The pairs an exact equijoin relates: both keys fully bound and equal. *)
Definition keys_match (key_columns : list N) (l r : BindingRow) : Prop :=
  is_Some (binding_key l key_columns) /\ binding_key l key_columns = binding_key r key_columns.

Global Instance keys_match_dec cols l r : Decision (keys_match cols l r).
Proof. unfold keys_match. apply _. Defined.

Definition joined_row (l r : BindingRow) : BindingRow :=
  {| query_ordinal := query_ordinal l;
     values := values l ∪ values r;
     multiplicity := multiplicity l * multiplicity r;
     named_graph_id := match named_graph_id l with Some g => Some g | None => named_graph_id r end;
     proof_ids := proof_ids l ++ proof_ids r |}.

Definition encoded_join (left right : list BindingRow) (key_columns : list N) : list BindingRow :=
  l ← left; r ← right; if decide (keys_match key_columns l r) then [joined_row l r] else [].

(** Total number of solutions a relation stands for. *)
Definition bag_size (rows : list BindingRow) : N :=
  foldr (fun row n => multiplicity row + n)%N 0%N rows.

(** A pair the join can emit: no conflicting binding, no overflow. *)
Definition joinable (l r : BindingRow) : Prop :=
  map_agree (values l) (values r) /\ (multiplicity l * multiplicity r < U64_LIMIT)%N.

(** *** Properties *)

Lemma index_right_lookup right cols k :
  default [] (index_right right cols !! k) = filter (fun r => binding_key r cols = Some k) right.
Proof.
  unfold index_right.
  cut (forall idx : gmap (list EncodedTerm) (list BindingRow),
    default [] (foldl (fun index row => match binding_key row cols with
        | Some key => Sparql.index_push index key row | None => index end) idx right !! k)
    = default [] (idx !! k) ++ filter (fun r => binding_key r cols = Some k) right).
  { intros H. by rewrite H, lookup_empty. }
  induction right as [|r right IH]; intros idx; [cbn; by rewrite app_nil_r|].
  cbn [foldl]. rewrite IH, filter_cons.
  destruct (binding_key r cols) as [k'|]; [|by rewrite decide_False].
  unfold Sparql.index_push. destruct (decide (k' = k)) as [->|Hne].
  - rewrite lookup_partial_alter_eq, decide_True by done. cbn. by rewrite <- (assoc (++)).
  - rewrite lookup_partial_alter_ne, decide_False by naive_solver. done.
Qed.

Lemma join_rows_ok l r out : join_rows l r = Ok out <-> joinable l r /\ out = joined_row l r.
Proof.
  unfold join_rows, joinable. rewrite result_bind_ok. split.
  - intros (vs & Hvs & H). inv_ok H. inv_ok Ha. inv_ok H.
    apply merge_bindings_ok in Hvs as [? ->]. apply checked_mul_some in Ha as [-> ?]. done.
  - intros [[Hag Hm] ->]. eexists. split; [by apply merge_bindings_ok|].
    assert (checked_mul U64_LIMIT (multiplicity l) (multiplicity r)
            = Some (multiplicity l * multiplicity r)%N) as -> by (by apply checked_mul_some).
    done.
Qed.

Lemma emit_matches_ok l matches out res :
  try_fold (fun output r => row ← join_rows l r; Ok (output ++ [row])) out matches = Ok res <->
  Forall (joinable l) matches /\ res = out ++ (joined_row l <$> matches).
Proof.
  revert out; induction matches as [|r ms IH]; intros out; cbn.
  - rewrite app_nil_r. naive_solver.
  - rewrite result_bind_ok, Forall_cons. setoid_rewrite result_bind_ok. setoid_rewrite IH.
    setoid_rewrite join_rows_ok. split.
    + intros (? & (row & [Hj ->] & [= <-]) & Hms & ->). by rewrite <- (assoc (++)).
    + intros [[Hj Hms] ->]. eexists; split; [eexists; split; [done|reflexivity]|].
      split; [done|]. by rewrite <- (assoc (++)).
Qed.

(** The step of the probe loop for one left row. *)
Lemma probe_row_ok left_row right cols out res :
  match binding_key left_row cols with
  | None => Ok out
  | Some key =>
      match index_right right cols !! key with
      | None => Ok out
      | Some matches =>
          try_fold (fun output r => row ← join_rows left_row r; Ok (output ++ [row])) out matches
      end
  end = Ok res <->
  (forall r, r ∈ right -> keys_match cols left_row r -> joinable left_row r) /\
  res = out ++ (right ≫= fun r => if decide (keys_match cols left_row r) then [joined_row left_row r] else []).
Proof.
  destruct (binding_key left_row cols) as [k|] eqn:Hk.
  - rewrite (match_default_try_fold (index_right right cols !! k)), index_right_lookup.
    rewrite emit_matches_ok, Forall_forall.
    assert (forall r, keys_match cols left_row r <-> binding_key r cols = Some k) as Hkm.
    { intros r. unfold keys_match. rewrite Hk. naive_solver. }
    assert ((joined_row left_row <$> filter (fun r => binding_key r cols = Some k) right)
      = right ≫= fun r => if decide (keys_match cols left_row r) then [joined_row left_row r] else []) as ->.
    { rewrite <- (list_bind_singleton (joined_row left_row)), list_bind_filter.
      apply list_bind_ext_in. intros r _. specialize (Hkm r). repeat case_decide; tauto. }
    setoid_rewrite list_elem_of_filter. split; intros [Hj ->]; (split; [|done]).
    + intros r Hr Hm. apply Hj. by rewrite <- Hkm.
    + intros r [Hk' Hr]. apply Hj; [done|]. by apply Hkm.
  - assert (forall r, ~ keys_match cols left_row r) as Hkm.
    { intros r [[? ?] _]. congruence. }
    rewrite (list_bind_ext_in _ (fun _ => [])) by (intros r _; by rewrite decide_False).
    rewrite list_bind_nil, app_nil_r. naive_solver.
Qed.

(** [inner_join] succeeds exactly when every related pair is joinable, and
    then returns the equijoin in order. *)
Lemma inner_join_ok left right cols out :
  inner_join left right cols = Ok out <->
  (forall l r, l ∈ left -> r ∈ right -> keys_match cols l r -> joinable l r) /\
  out = encoded_join left right cols.
Proof.
  unfold inner_join, encoded_join.
  cut (forall acc, try_fold (fun output left_row =>
      match binding_key left_row cols with
      | None => Ok output
      | Some key => match index_right right cols !! key with
          | None => Ok output
          | Some matches => try_fold (fun output r => row ← join_rows left_row r; Ok (output ++ [row])) output matches
          end
      end) acc left = Ok out <->
    (forall l r, l ∈ left -> r ∈ right -> keys_match cols l r -> joinable l r) /\
    out = acc ++ (l ← left; r ← right; if decide (keys_match cols l r) then [joined_row l r] else [])).
  { intros H. apply (H []). }
  induction left as [|l left IH]; intros acc; cbn.
  - rewrite app_nil_r. set_solver.
  - rewrite result_bind_ok. setoid_rewrite probe_row_ok. setoid_rewrite IH. split.
    + intros (acc' & [Hl ->] & Hrest & ->). rewrite <- (assoc (++)). split; [|done].
      intros l' r [->|?]%elem_of_cons; eauto.
    + intros [Hall ->]. eexists; split; [split; [|reflexivity]|split].
      * intros; apply Hall; [left|done..].
      * intros; apply Hall; [by right|done..].
      * by rewrite <- (assoc (++)).
Qed.

(** Keys of the right relation, as the semijoin exchange broadcasts them. *)
Definition right_keys (right : list BindingRow) (cols : list N) : gset (list EncodedTerm) :=
  list_to_set (omap (fun r => binding_key r cols) right).

Lemma elem_of_right_keys (right : list BindingRow) (cols : list N) k :
  k ∈ right_keys right cols <-> exists r, r ∈ right /\ binding_key r cols = Some k.
Proof. unfold right_keys. rewrite elem_of_list_to_set, list_elem_of_omap. naive_solver. Qed.

Lemma semijoin_probe (left right : list BindingRow) (cols : list N) (keys : gset (list EncodedTerm)) :
  right_keys right cols ⊆ keys ->
  encoded_join (exact_semijoin left keys cols) right cols = encoded_join left right cols /\
  forall l r, r ∈ right -> keys_match cols l r -> l ∈ left -> l ∈ exact_semijoin left keys cols.
Proof.
  intros Hkeys.
  assert (forall l r, r ∈ right -> keys_match cols l r ->
    match binding_key l cols with Some key => bool_decide (key ∈ keys) | None => false end = true) as Hk.
  { intros l r Hr [[k Hk] Heq]. rewrite Hk. apply bool_decide_eq_true, Hkeys, elem_of_right_keys.
    exists r. split; [done|congruence]. }
  unfold exact_semijoin. split.
  - unfold encoded_join. rewrite list_bind_filter. apply list_bind_ext_in. intros l _.
    case_decide as Hl; [done|]. symmetry.
    rewrite (list_bind_ext_in _ (fun _ => [])); [by rewrite list_bind_nil|].
    intros r Hr. rewrite decide_False; [done|]. intros Hm. apply Hl. eauto.
  - intros l r Hr Hm Hl. apply list_elem_of_filter. eauto.
Qed.

Lemma bag_size_app a b : bag_size (a ++ b) = (bag_size a + bag_size b)%N.
Proof. unfold bag_size. induction a as [|x a IH]; cbn; [done|]. rewrite IH. lia. Qed.

Lemma next_frontier_fold (candidates next : list FrontierKey) (visited : gset FrontierKey) next' visited' :
  foldl (fun '(next, visited) key =>
      if decide (key ∈ visited) then (next, visited) else (next ++ [key], {[key]} ∪ visited))
    (next, visited) candidates = (next', visited') ->
  visited' = visited ∪ list_to_set candidates /\
  exists fresh, next' = next ++ fresh /\ NoDup fresh /\
    forall k, k ∈ fresh <-> k ∈ candidates /\ k ∉ visited.
Proof.
  revert next visited; induction candidates as [|c cs IH]; intros next visited; cbn.
  - intros [= <- <-]. split; [set_solver|]. exists []. rewrite app_nil_r.
    split_and!; [done|constructor|set_solver].
  - case_decide as Hc; intros (Hv & fresh & -> & Hnd & Hf)%IH.
    + split; [set_solver|]. exists fresh. split_and!; [done|done|].
      intros k. rewrite Hf, elem_of_cons. naive_solver.
    + split; [set_solver|]. exists (c :: fresh). rewrite <- (assoc (++)).
      split_and!; [done| |].
      * constructor; [|done]. rewrite Hf, elem_of_union, elem_of_singleton. naive_solver.
      * intros k. rewrite !elem_of_cons, Hf, elem_of_union, elem_of_singleton.
        destruct (decide (k = c)); naive_solver.
Qed.

(** The encoded bag join multiplies multiplicities: the joined relation stands
    for as many solutions as there are related pairs of solutions. *)
Lemma encoded_join_bag_size left right cols :
  bag_size (encoded_join left right cols)
  = foldr (fun l n =>
      (multiplicity l * bag_size (filter (keys_match cols l) right) + n))%N 0%N left.
Proof.
  unfold encoded_join. induction left as [|l left IH]; [done|].
  rewrite bind_cons, bag_size_app, IH. cbn. f_equal. clear IH.
  induction right as [|r right IH]; [cbn; lia|]. rewrite filter_cons, bind_cons, bag_size_app, IH.
  case_decide; unfold bag_size; cbn -[N.mul N.add]; rewrite ?N.mul_add_distr_l; lia.
Qed.

(** *** Claims *)

(** the dictionary-encoded join succeeds exactly when no pair of rows with
    equal fully bound keys conflicts on another column or overflows the [u64]
    multiplicity; its result is then the equijoin in order, whose total
    multiplicity is the sum over left rows of their multiplicity times that of
    the matching right rows. *)
Theorem encoded_inner_join_exact (left right : list BindingRow) (cols : list N) out :
  inner_join left right cols = Ok out <->
  (forall l r, l ∈ left -> r ∈ right -> keys_match cols l r ->
     map_agree (values l) (values r) /\ (multiplicity l * multiplicity r < U64_LIMIT)%N) /\
  out = encoded_join left right cols /\
  bag_size out = foldr (fun l n =>
      (multiplicity l * bag_size (filter (keys_match cols l) right) + n))%N 0%N left.
Proof.
  rewrite inner_join_ok, <- encoded_join_bag_size. unfold joinable. naive_solver.
Qed.

(** reducing the left relation with a key set that contains the right
    relation's keys (the exact-semijoin exchange) never changes a join: the
    reduced join succeeds with a relation exactly when the full one does. *)
Theorem semijoin_lossless (left right : list BindingRow) (cols : list N)
    (keys : gset (list EncodedTerm)) :
  right_keys right cols ⊆ keys ->
  forall out, inner_join (exact_semijoin left keys cols) right cols = Ok out <->
              inner_join left right cols = Ok out.
Proof.
  intros Hkeys out. destruct (semijoin_probe left right cols keys Hkeys) as [Heq Hin].
  rewrite !inner_join_ok, Heq. split; intros [Hj ->]; (split; [|done]); intros l r Hl Hr Hm.
  - eauto.
  - apply list_elem_of_filter in Hl as [_ Hl]. eauto.
Qed.

Definition row1 (o : N) (x : N) (m : N) : BindingRow :=
  {| query_ordinal := o; values := {[0%N := Entity x]}; multiplicity := m;
     named_graph_id := None; proof_ids := [o] |}.

Lemma semijoin_lossless_witness :
  let left := [row1 1 7 2; row1 2 8 5] in
  let right := [row1 3 7 3] in
  inner_join (exact_semijoin left (right_keys right [0%N]) [0%N]) right [0%N]
  = Ok [{| query_ordinal := 1; values := {[0%N := Entity 7]}; multiplicity := 6;
           named_graph_id := None; proof_ids := [1%N; 3%N] |}].
Proof.
  intros left right.
  apply (semijoin_lossless left right [0%N] (right_keys right [0%N])); [done|].
  vm_compute. reflexivity.
Defined.

(** one frontier step emits, in ascending order and without duplicates,
    exactly the candidates not seen before, and marks all candidates seen. *)
Theorem next_frontier_exact (candidates : list FrontierKey) (visited : gset FrontierKey) :
  let '(next, visited') := next_frontier candidates visited in
  visited' = visited ∪ list_to_set candidates /\
  StronglySorted rlt next /\
  forall k, k ∈ next <-> k ∈ candidates /\ k ∉ visited.
Proof.
  unfold next_frontier.
  destruct (foldl _ ([], visited) candidates) as [next visited'] eqn:Hf.
  apply next_frontier_fold in Hf as (-> & fresh & -> & Hnd & Hk). cbn.
  split_and!; [done| |].
  - apply StronglySorted_rlt; [apply sort_sorted|]. by rewrite sort_perm.
  - intros k. by rewrite sort_perm, Hk.
Qed.
End Encoded.
