(* ===== verification/Shuffle.v ===== *)
(** * Hash partitioning of solution mappings

    Models the cross-node shuffle and the worker-local Grace bucket assignment
    of src/crates/ngkg-query-executor/src/lib.rs: both hash the completely
    bound join key under a domain tag and reduce the digest modulo the
    partition count.  The theorems show that partitioning neither loses nor
    duplicates a row and that joining co-partitioned relations pairwise gives
    the complete bag join. *)

From Stdlib Require Import Strings.Byte Strings.String.
From S2P Require Import Prelude Words Ordered Digest Terms Bindings.
Import Sparql.

(** ** Operations *)

Definition update_length_prefixed_hash (hash bytes : list byte) : result ExecutionError (list byte) :=
  c ← ok_or (component bytes) (InvalidSparqlTerm "shuffle key component is too large");
  Ok (hash ++ c).

Definition update_optional_hash (hash : list byte) (v : option string) :
    result ExecutionError (list byte) :=
  match v with
  | Some v => update_length_prefixed_hash (hash ++ [x01]) (as_bytes v)
  | None => Ok (hash ++ [x00])
  end.

(** The bytes hashed for one key variable. *)
Definition update_key_hash (binding : Map) (hash : list byte) (variable : string) :
    result ExecutionError (list byte) :=
  term ← ok_or (binding !! variable) (UnboundShuffleKey variable);
  parsed ← parse_sparql_term term;
  hash ← update_length_prefixed_hash hash (as_bytes variable);
  hash ← update_length_prefixed_hash (hash ++ [byte_of_N (kind parsed)]) (as_bytes (value parsed));
  hash ← update_optional_hash hash (datatype parsed);
  update_optional_hash hash (language parsed).

Section partitioning.
Context `{Sha256}.

Definition partition_for_binding (row : Value) (key_variables : list string) (partition_count : N)
    (domain : list byte) : result ExecutionError N :=
  _ ← fail_if (partition_count =? 0)%N InvalidPartitionCount;
  _ ← fail_if (bool_decide (key_variables = [])) EmptyShuffleKey;
  binding ← ok_or (as_object row) InvalidSparqlBinding;
  hash ← try_fold (update_key_hash binding) domain key_variables;
  let owner := digest_bucket hash partition_count in
  if fits U32_LIMIT owner then Ok owner else Err InvalidPartitionCount.

Definition shuffle_domain : list byte := as_bytes "ngkg-shuffle-key-v1" ++ [x00].
Definition grace_domain : list byte := as_bytes "ngkg-worker-grace-key-v1" ++ [x00].

Definition shuffle_partition_for_binding (row : Value) (key_variables : list string)
    (partition_count : N) : result ExecutionError N :=
  partition_for_binding row key_variables partition_count shuffle_domain.

Definition grace_partition_for_binding (row : Value) (key_variables : list string)
    (bucket_count : N) : result ExecutionError N :=
  partition_for_binding row key_variables bucket_count grace_domain.

Definition partition_sparql_json (rows : list Value) (key_variables : list string)
    (partition_count : N) : result ExecutionError (list (list Value)) :=
  _ ← fail_if (partition_count =? 0)%N InvalidPartitionCount;
  _ ← fail_if (bool_decide (key_variables = [])) EmptyShuffleKey;
  try_fold (fun partitions row =>
      owner ← shuffle_partition_for_binding row key_variables partition_count;
      Ok (alter (fun p => p ++ [row]) (N.to_nat owner) partitions))
    (replicate (N.to_nat partition_count) []) rows.
End partitioning.
Arguments shuffle_domain : simpl never.
Arguments grace_domain : simpl never.

(** ** Reference: joining along any consistent partition *)

Lemma copartitioned_join (f : Map -> nat) n (L R : list Map) :
  (forall l, l ∈ L -> f l < n) ->
  (forall l r, l ∈ L -> r ∈ R -> map_agree l r -> f l = f r) ->
  concat ((fun i => sparql_join (filter (fun m => f m = i) L) (filter (fun m => f m = i) R)) <$> seq 0 n)
  ≡ₚ sparql_join L R.
Proof.
  intros Hn Hco.
  etransitivity; [|apply list_bind_proper, (filter_partition_permutation f n L Hn)].
  rewrite list_bind_concat, <- list_fmap_compose.
  eapply eq_subrelation; [apply _|]. f_equal. apply list_fmap_ext. intros k i _. cbn.
  apply list_bind_ext_in. intros l [Hl HlL]%list_elem_of_filter. rewrite list_bind_filter.
  apply list_bind_ext_in. intros r Hr. case_decide as Hri; [done|].
  unfold join_pair. rewrite decide_False; [done|]. intros Hag. apply Hri. rewrite <- Hl. symmetry. eauto.
Qed.

(** ** Facts about owners *)

Section owners.
Context `{Sha256} (keys : list string) (count : N) (domain : list byte).

Lemma partition_lt row p :
  partition_for_binding row keys count domain = Ok p -> (p < count)%N.
Proof.
  unfold partition_for_binding. intros Hp. do 4 inv_ok Hp. inv_ok Ha. bool_prop.
  case_match; [|done]. injection Hp as <-. apply digest_bucket_lt. lia.
Qed.

(** Rows that carry the same key terms have the same owner. *)
Lemma partition_agree (l r : Map) :
  (forall v, v ∈ keys -> l !! v = r !! v) ->
  partition_for_binding (JObject l) keys count domain
  = partition_for_binding (JObject r) keys count domain.
Proof.
  intros Hlr. unfold partition_for_binding. cbn.
  assert (try_fold (update_key_hash l) domain keys = try_fold (update_key_hash r) domain keys) as ->;
    [|done].
  clear -Hlr. revert domain Hlr. induction keys as [|v vs IH]; intros d Hlr; [done|]. cbn.
  assert (update_key_hash l d v = update_key_hash r d v) as ->.
  { unfold update_key_hash. by rewrite (Hlr v ltac:(left)). }
  destruct (update_key_hash r d v); [|done]. apply IH. intros; apply Hlr; by right.
Qed.

Lemma partition_binds (m : Map) p :
  partition_for_binding (JObject m) keys count domain = Ok p -> forall v, v ∈ keys -> is_Some (m !! v).
Proof.
  unfold partition_for_binding. cbn. intros Hp. do 3 inv_ok Hp. clear -Ha1. rename Ha1 into Hp.
  revert domain a1 Hp. induction keys as [|v vs IH]; intros d h Hp w Hw; [set_solver|].
  cbn in Hp. inv_ok Hp. apply elem_of_cons in Hw as [->|Hw]; [|by eapply IH].
  unfold update_key_hash in Ha. inv_ok Ha. inv_ok Ha0. eauto.
Qed.

(** The owner as a plain function, for rows known to have one. *)
Definition owner (m : Map) : nat :=
  match partition_for_binding (JObject m) keys count domain with
  | Ok p => N.to_nat p
  | Err _ => 0
  end.

Lemma owner_agree (l r : Map) p q :
  partition_for_binding (JObject l) keys count domain = Ok p ->
  partition_for_binding (JObject r) keys count domain = Ok q ->
  map_agree l r -> owner l = owner r.
Proof.
  intros Hl Hr Hag. unfold owner. rewrite (partition_agree l r); [done|].
  intros v Hv. destruct (partition_binds l p Hl v Hv) as [x Hx].
  destruct (partition_binds r q Hr v Hv) as [y Hy].
  rewrite map_agree_spec in Hag. rewrite Hx, Hy. f_equal. eauto.
Qed.

Lemma owner_lt (m : Map) p :
  partition_for_binding (JObject m) keys count domain = Ok p -> owner m < N.to_nat count.
Proof. unfold owner. intros Hp. rewrite Hp. apply partition_lt in Hp. lia. Qed.
End owners.

Section claims.
Context `{Sha256}.

Lemma partition_fold keys count (rows : list Map) (parts res : list (list Value)) :
  try_fold (fun partitions row =>
      owner ← shuffle_partition_for_binding row keys count;
      Ok (alter (fun p => p ++ [row]) (N.to_nat owner) partitions))
    parts (JObject <$> rows) = Ok res ->
  let f := owner keys count shuffle_domain in
  (forall m, m ∈ rows -> exists p, shuffle_partition_for_binding (JObject m) keys count = Ok p) /\
  forall i, res !! i = (fun p => p ++ (JObject <$> filter (fun m => f m = i) rows)) <$> parts !! i.
Proof.
  intros Hf f. revert parts Hf. induction rows as [|m rows IH]; intros parts Hf; cbn in Hf.
  - injection Hf as <-. split; [set_solver|]. intros i. destruct (parts !! i); cbn; [|done].
    by rewrite app_nil_r.
  - inv_ok Hf. inv_ok Ha. inv_ok Ha. destruct (IH _ Hf) as [Hex Hlk]. split.
    + intros m' [->|Hm]%elem_of_cons; eauto.
    + intros i. rewrite Hlk, filter_cons. subst a.
      assert (f m = N.to_nat a0) as Hfm by (unfold f, owner; unfold shuffle_partition_for_binding in Ha0; by rewrite Ha0).
      rewrite Hfm. case_decide as Hi.
      * subst i. rewrite list_lookup_alter_eq. destruct (parts !! N.to_nat a0); cbn; [|done].
        by rewrite <- (assoc (++)).
      * by rewrite list_lookup_alter_ne.
Qed.

(** A successful partitioning is the family of filters by owner. *)
Lemma partition_sparql_json_spec keys count (rows : list Map) parts :
  partition_sparql_json (JObject <$> rows) keys count = Ok parts ->
  let f := owner keys count shuffle_domain in
  (forall m, m ∈ rows -> exists p, shuffle_partition_for_binding (JObject m) keys count = Ok p) /\
  parts = (fun i => JObject <$> filter (fun m => f m = i) rows) <$> seq 0 (N.to_nat count).
Proof.
  intros Hp f. unfold partition_sparql_json in Hp. do 2 inv_ok Hp.
  apply partition_fold in Hp as [Hex Hlk]. split; [done|].
  apply list_eq. intros i. rewrite Hlk, list_lookup_fmap.
  destruct (decide (i < N.to_nat count)).
  - by rewrite lookup_replicate_2, lookup_seq_lt by done.
  - rewrite (proj2 (lookup_ge_None (seq _ _) i)) by (rewrite length_seq; lia).
    rewrite (proj2 (lookup_ge_None (replicate _ _) i)) by (rewrite length_replicate; lia). done.
Qed.

(** partitioning a relation on its join key loses and duplicates no row:
    the partitions together are a permutation of the input, there are exactly
    [partition_count] of them, and partition [i] holds exactly the rows whose
    owner is [i]. *)
Theorem partition_is_exact keys count (rows : list Map) parts :
  partition_sparql_json (JObject <$> rows) keys count = Ok parts ->
  length parts = N.to_nat count /\
  concat parts ≡ₚ JObject <$> rows /\
  forall i p row, parts !! i = Some p ->
    row ∈ p <-> row ∈ JObject <$> rows /\ shuffle_partition_for_binding row keys count = Ok (N.of_nat i).
Proof.
  intros [Hex ->]%partition_sparql_json_spec. split_and!.
  - by rewrite length_fmap, length_seq.
  - rewrite concat_fmap_fmap. apply fmap_Permutation, filter_partition_permutation.
    intros m Hm. destruct (Hex m Hm) as [p Hp]. by eapply owner_lt.
  - intros i p row Hi. apply list_lookup_fmap_Some in Hi as (j & -> & Hj).
    apply lookup_seq in Hj as [-> Hj]. cbn. rewrite !list_elem_of_fmap. split.
    + intros (m & -> & [Hf Hm]%list_elem_of_filter). split; [eauto|].
      destruct (Hex m Hm) as [p Hp]. rewrite Hp. unfold owner, shuffle_partition_for_binding in *.
      rewrite Hp in Hf. f_equal. lia.
    + intros [(m & -> & Hm) Hp]. exists m. split; [done|]. apply list_elem_of_filter.
      split; [|done]. unfold owner, shuffle_partition_for_binding in *. rewrite Hp. lia.
Qed.

(** The pairwise join of co-partitioned relations. *)
Lemma copartitioned_inner_joins `{TermText} keys count (L R : list Map) lp rp max whole :
  Forall valid_object L -> Forall valid_object R ->
  partition_sparql_json (JObject <$> L) keys count = Ok lp ->
  partition_sparql_json (JObject <$> R) keys count = Ok rp ->
  inner_join_sparql_json (JObject <$> L) (JObject <$> R) max = Ok whole ->
  exists outs,
    try_map (fun '(l, r) => inner_join_sparql_json l r max) (zip lp rp) = Ok outs /\
    concat outs ≡ₚ whole.
Proof.
  intros HL HR [HexL ->]%partition_sparql_json_spec [HexR ->]%partition_sparql_json_spec Hwhole.
  rewrite inner_join_sparql_json_spec in Hwhole by done. apply bounded_ok in Hwhole as [-> Hmax].
  set (f := owner keys count shuffle_domain).
  pose (bucket i := sparql_join (filter (fun m => f m = i) L) (filter (fun m => f m = i) R)).
  assert (concat (bucket <$> seq 0 (N.to_nat count)) ≡ₚ sparql_join L R) as Hperm.
  { apply copartitioned_join.
    - intros l Hl. destruct (HexL l Hl) as [p Hp]. by eapply owner_lt.
    - intros l r Hl Hr Hag. destruct (HexL l Hl) as [p Hp], (HexR r Hr) as [q Hq].
      by eapply owner_agree. }
  exists ((fun i => JObject <$> bucket i) <$> seq 0 (N.to_nat count)). split.
  - rewrite zip_fmap_fmap. apply try_map_fmap_pure. intros i Hi.
    rewrite inner_join_sparql_json_spec by (by apply Forall_filter). apply bounded_ok. split; [done|].
    rewrite length_fmap in *. rewrite <- Hperm in Hmax.
    eapply Nat.le_trans; [|exact Hmax]. 
    by apply (length_concat_elem bucket).
  - rewrite concat_fmap_fmap. by apply fmap_Permutation.
Qed.

(** C4: the distributed shuffle join is exact: if both relations are
    partitioned on the same key and the complete join fits the ceiling, every
    per-partition join succeeds under that same ceiling and together they
    return the complete bag join, row for row. *)
Theorem shuffle_join_exact `{TermText} keys count (L R : list Map) lp rp max whole :
  Forall valid_object L -> Forall valid_object R ->
  partition_sparql_json (JObject <$> L) keys count = Ok lp ->
  partition_sparql_json (JObject <$> R) keys count = Ok rp ->
  inner_join_sparql_json (JObject <$> L) (JObject <$> R) max = Ok whole ->
  exists outs,
    try_map (fun '(l, r) => inner_join_sparql_json l r max) (zip lp rp) = Ok outs /\
    concat outs ≡ₚ whole.
Proof. apply copartitioned_inner_joins. Qed.
End claims.

Lemma partition_is_exact_witness :
  let rows := [{["x" := uri "a"]}; {["x" := uri "b"]}; {["x" := uri "a"]}] in
  exists parts,
    partition_sparql_json (H := padded_digest) (JObject <$> rows) ["x"] 2 = Ok parts /\
    concat parts ≡ₚ JObject <$> rows.
Proof.
  intros rows.
  assert (exists parts, partition_sparql_json (H := padded_digest) (JObject <$> rows) ["x"] 2 = Ok parts)
    as [parts Hp] by (eexists; vm_compute; reflexivity).
  exists parts. split; [exact Hp|]. apply (partition_is_exact ["x"] 2%N rows parts Hp).
Defined.

Lemma shuffle_join_exact_witness :
  let L := [{["x" := uri "a"; "l" := uri "1"]}; {["x" := uri "b"]}] in
  let R := [{["x" := uri "b"]}; {["x" := uri "a"]}] in
  exists lp rp outs,
    partition_sparql_json (H := padded_digest) (JObject <$> L) ["x"] 2 = Ok lp /\
    partition_sparql_json (H := padded_digest) (JObject <$> R) ["x"] 2 = Ok rp /\
    try_map (fun '(l, r) => inner_join_sparql_json (H := field_text) l r 5) (zip lp rp) = Ok outs /\
    concat outs ≡ₚ JObject <$> [{["x" := uri "a"; "l" := uri "1"]}; {["x" := uri "b"]}].
Proof.
  intros L R.
  assert (exists lp, partition_sparql_json (H := padded_digest) (JObject <$> L) ["x"] 2 = Ok lp)
    as [lp Hl] by (eexists; vm_compute; reflexivity).
  assert (exists rp, partition_sparql_json (H := padded_digest) (JObject <$> R) ["x"] 2 = Ok rp)
    as [rp Hr] by (eexists; vm_compute; reflexivity).
  destruct (shuffle_join_exact (H := padded_digest) (H0 := field_text) ["x"] 2%N L R lp rp 5
    (JObject <$> [{["x" := uri "a"; "l" := uri "1"]}; {["x" := uri "b"]}])
    ltac:(solve_valid) ltac:(solve_valid) Hl Hr ltac:(vm_compute; reflexivity)) as (outs & Ho & Hc).
  exists lp, rp, outs. exact (conj Hl (conj Hr (conj Ho Hc))).
Defined.
