(* ===== verification/GraceJoin.v ===== *)
(** * The worker-local Grace hash join

    Models src/crates/ngkg-grace-join/src/lib.rs: a worker joins one shuffle
    partition in memory or, when the build side is large, by spilling both
    relations into hash buckets on disk and joining bucket by bucket in bounded
    chunks.  Spill files carry a header that binds them to the join, their
    side and their bucket, and a SHA-256 trailer.  Disk space is reserved from
    a per-request and a process-wide budget.

    A spill file is the list of its bytes.  Failures of the file system itself
    are not modelled; what the reader finds on disk is an argument, so a
    truncated or altered file is. *)

From Stdlib Require Import Strings.Byte Strings.String.
From S2P Require Import Prelude Words Ordered Digest LocalRoot Terms Bindings Shuffle.
Import Sparql.

(** ** Identity *)

Inductive GraceJoinError :=
| InvalidIdentity
| InvalidConfiguration
| UnsafeRoot
| RequestSpillLimit
| ProcessSpillLimit
| RowTooLarge
| AccountingOverflow
| CorruptSpill
| Poisoned
| Execution (e : ExecutionError)
| Io
| Json.

Record GraceJoinIdentity := {
  tenant_id : list byte;
  dataset_id : list byte;
  snapshot_id : list byte;
  query_sha256 : string;
  plan_sha256 : string;
  stage : N;
  partition : N;
  partition_count : N;
  left_input_sha256 : string;
  right_input_sha256 : string;
}.

Definition decode_identity_sha256 (value : string) : result GraceJoinError (list byte) :=
  bytes ← ok_or (hex_decode (as_bytes value)) InvalidIdentity;
  _ ← fail_if (negb (length bytes =? 32)) InvalidIdentity;
  Ok bytes.

(** [GraceJoinIdentity::digest]. *)
Definition identity_digest `{Sha256} (i : GraceJoinIdentity) : result GraceJoinError (list byte) :=
  _ ← fail_if ((partition_count i <? 2)%N || (partition_count i <=? partition i)%N
               || negb (lower_hex_sha256 (query_sha256 i)) || negb (lower_hex_sha256 (plan_sha256 i))
               || negb (lower_hex_sha256 (left_input_sha256 i)) || negb (lower_hex_sha256 (right_input_sha256 i)))
        InvalidIdentity;
  q ← decode_identity_sha256 (query_sha256 i);
  p ← decode_identity_sha256 (plan_sha256 i);
  l ← decode_identity_sha256 (left_input_sha256 i);
  r ← decode_identity_sha256 (right_input_sha256 i);
  Ok (sha256 (as_bytes "ngkg-worker-grace-identity-v2" ++ [x00] ++ tenant_id i ++ dataset_id i ++ snapshot_id i ++ q ++ p
              ++ to_be_bytes 4 (stage i) ++ to_be_bytes 4 (partition i) ++ to_be_bytes 4 (partition_count i) ++ l ++ r)).

(** ** The engine and its budgets *)

Record GraceJoinEngine := {
  max_total_spill_bytes : N;
  max_request_spill_bytes : N;
  bucket_count : N;
  max_open_files : nat;
  max_build_rows : nat;
  max_probe_rows : nat;
  max_row_bytes : nat;
  in_memory_build_rows : nat;
}.

(** The checks of [GraceJoinEngine::open].  A [usize] is 64 bits wide, so twice
    a [u32] bucket count does not overflow it. *)
Definition open_engine (e : GraceJoinEngine) : result GraceJoinError GraceJoinEngine :=
  _ ← fail_if ((max_total_spill_bytes e =? 0)%N || (max_request_spill_bytes e =? 0)%N
               || (max_total_spill_bytes e <? max_request_spill_bytes e)%N || (bucket_count e <? 2)%N
               || (N.of_nat (max_open_files e) <? 2 * bucket_count e)%N || (max_build_rows e =? 0)
               || (max_probe_rows e =? 0) || (max_row_bytes e =? 0) || (in_memory_build_rows e =? 0)
               || (max_build_rows e <? in_memory_build_rows e))
        InvalidConfiguration;
  Ok e.

(** [reserve]: the new reservation of the request and of the process. *)
Definition reserve (e : GraceJoinEngine) (active current_request bytes : N) : result GraceJoinError (N * N) :=
  next_request ← ok_or (checked_add U64_LIMIT current_request bytes) AccountingOverflow;
  _ ← fail_if (max_request_spill_bytes e <? next_request)%N RequestSpillLimit;
  next_active ← ok_or (checked_add U64_LIMIT active bytes) AccountingOverflow;
  _ ← fail_if (max_total_spill_bytes e <? next_active)%N ProcessSpillLimit;
  Ok (next_request, next_active).

Definition release (active bytes : N) : result GraceJoinError N :=
  ok_or (checked_sub active bytes) AccountingOverflow.

(** ** The spill root *)

Definition ROOT_MARKER : string := ".ngkg-grace-join-v1".
Definition ROOT_MARKER_BYTES : list byte := as_bytes "ngkg-worker-grace-join-v1" ++ [x0a].

(** Every entry but the marker is the directory of a stage. *)
Definition check_entry (is_uuid : string -> bool) (e : RootEntry) : result GraceJoinError unit :=
  name ← ok_or (entry_name e) UnsafeRoot;
  if String.eqb name ROOT_MARKER then Ok tt
  else
    _ ← fail_if (negb (String.prefix "stage-" name)) UnsafeRoot;
    fail_if (negb (is_uuid (String.substring 6 (String.length name - 6) name)) || entry_symlink e || negb (entry_dir e)) UnsafeRoot.

(** Stages found in the root are left alone: it may be shared. *)
Definition prepare_root (is_uuid : string -> bool) (root : RootPath) : result GraceJoinError (list RootEntry) :=
  entries ← prepare_marked_root UnsafeRoot Io ROOT_MARKER ROOT_MARKER_BYTES root;
  _ ← try_map (check_entry is_uuid) entries;
  Ok entries.

(** ** Spill files *)

Definition FILE_MAGIC : list byte := as_bytes "NGKGGR30".
Definition FILE_HEADER_BYTES : N := 49.
Definition FILE_TRAILER_BYTES : N := 32.

Definition spill_header (identity : list byte) (side bucket count : N) : list byte :=
  FILE_MAGIC ++ identity ++ [byte_of_N side] ++ to_be_bytes 4 bucket ++ to_be_bytes 4 count.

(** [written] is what has gone both to the file and to the hasher. *)
Record BucketWriter := {
  w_side : N;
  w_bucket : N;
  w_rows : N;
  w_bytes : N;
  written : list byte;
}.

Record SpillFile := {
  f_side : N;
  f_bucket : N;
  f_rows : N;
  f_bytes : N;
  content : list byte;
}.

(** The state of one execution: the process-wide reservation it shares, its own
    reservation, whether its files are gone, and its open writers. *)
Record SpillStage := {
  active : N;
  reserved_bytes : N;
  cleaned : bool;
  writers : list (option BucketWriter);
}.

(** The guard of the stage releases the reservation when it is dropped, also
    after an error. *)
Abbreviation Spill := (stateful SpillStage GraceJoinError).

Definition get_writers : Spill (list (option BucketWriter)) := fun st => (Ok (writers st), st).
Definition put_writer (index : nat) (w : BucketWriter) : Spill unit := fun st =>
  (Ok tt, {| active := active st; reserved_bytes := reserved_bytes st; cleaned := cleaned st;
             writers := <[index := Some w]> (writers st) |}).

(** [serde_json::to_vec] and [from_slice] on a row of a relation. *)
Class RowJson := {
  to_vec : Value -> option (list byte);
  from_slice : list byte -> option Value;
  row_roundtrip : forall m bytes,
    valid_object m -> to_vec (JObject m) = Some bytes -> from_slice bytes = Some (JObject m);
}.

Section spilling.
Context `{Sha256, RowJson} (engine : GraceJoinEngine).

(** [self.reserved_bytes = self.engine.reserve(self.reserved_bytes, bytes)?]. *)
Definition stage_reserve (bytes : N) : Spill unit := fun st =>
  match reserve engine (active st) (reserved_bytes st) bytes with
  | Ok (next_request, next_active) =>
      (Ok tt, {| active := next_active; reserved_bytes := next_request; cleaned := cleaned st; writers := writers st |})
  | Err e => (Err e, st)
  end.

Definition create_writer (identity : list byte) (side bucket : N) : Spill BucketWriter :=
  initial ← lift (ok_or (checked_add U64_LIMIT FILE_HEADER_BYTES FILE_TRAILER_BYTES) AccountingOverflow);
  _ ← stage_reserve initial;
  mret {| w_side := side; w_bucket := bucket; w_rows := 0; w_bytes := initial;
          written := spill_header identity side bucket (bucket_count engine) |}.

Definition writer_slot (side bucket : N) : nat := N.to_nat (side * bucket_count engine + bucket).

(** The writer of a slot, created on first use. *)
Definition slot_writer (identity : list byte) (side bucket : N) : Spill BucketWriter :=
  ws ← get_writers;
  slot ← lift (ok_or (ws !! writer_slot side bucket) AccountingOverflow);
  match slot with
  | Some w => mret w
  | None =>
      w ← create_writer identity side bucket;
      _ ← put_writer (writer_slot side bucket) w;
      mret w
  end.

Definition push_record (w : BucketWriter) (length_bytes payload : list byte) (record_bytes : N) :
    result GraceJoinError BucketWriter :=
  rows ← ok_or (checked_add U64_LIMIT (w_rows w) 1) AccountingOverflow;
  bytes ← ok_or (checked_add U64_LIMIT (w_bytes w) record_bytes) AccountingOverflow;
  Ok {| w_side := w_side w; w_bucket := w_bucket w; w_rows := rows; w_bytes := bytes;
        written := written w ++ length_bytes ++ payload |}.

Definition write_row (identity : list byte) (join_keys : list string) (side : N) (row : Value) : Spill unit :=
  bucket ← lift (map_err Execution (grace_partition_for_binding row join_keys (bucket_count engine)));
  w ← slot_writer identity side bucket;
  bytes ← lift (ok_or (to_vec row) Json);
  _ ← lift (fail_if ((length bytes =? 0) || (max_row_bytes engine <? length bytes)) RowTooLarge);
  _ ← lift (fail_if (negb (fits U32_LIMIT (N.of_nat (length bytes)))) RowTooLarge);
  let len := N.of_nat (length bytes) in
  record_bytes ← lift (ok_or (checked_add U64_LIMIT len 4) AccountingOverflow);
  _ ← stage_reserve record_bytes;
  w ← lift (push_record w (to_be_bytes 4 len) bytes record_bytes);
  put_writer (writer_slot side bucket) w.

(** Each writer gets its trailer; the length on disk is compared. *)
Definition finish_writer (w : BucketWriter) : result GraceJoinError SpillFile :=
  let file := written w ++ sha256 (written w) in
  _ ← fail_if (negb (N.of_nat (length file) =? w_bytes w)%N) CorruptSpill;
  Ok {| f_side := w_side w; f_bucket := w_bucket w; f_rows := w_rows w; f_bytes := w_bytes w; content := file |}.

Definition finish_writers (ws : list (option BucketWriter)) : result GraceJoinError (list SpillFile) :=
  try_map finish_writer (omap id ws).

(** [cleanup]: the files are removed and the reservation released. *)
Definition cleanup : Spill unit := fun st =>
  match release (active st) (reserved_bytes st) with
  | Ok a => (Ok tt, {| active := a; reserved_bytes := 0; cleaned := true; writers := writers st |})
  | Err e => (Err e, st)
  end.

(** [Drop]: a stage that was not cleaned up releases what it can. *)
Definition drop_stage (st : SpillStage) : N :=
  if cleaned st then active st
  else match release (active st) (reserved_bytes st) with Ok a => a | Err _ => active st end.

(** ** Reading spill files back *)

Record VerifiedRecordReader := {
  rest : list byte;
  rows_remaining : N;
  expected_bytes : N;
  bytes_read : N;
  hashed : list byte;
  finished : bool;
}.

(** [read_exact]: the next [n] bytes, or an end-of-file error. *)
Definition read_exact (n : nat) (l : list byte) : result GraceJoinError (list byte * list byte) :=
  if length l <? n then Err Io else Ok (take n l, drop n l).

Definition open_reader (file : SpillFile) (identity : list byte) : result GraceJoinError VerifiedRecordReader :=
  _ ← fail_if (negb (N.of_nat (length (content file)) =? f_bytes file)%N) CorruptSpill;
  '(header, tail) ← read_exact (N.to_nat FILE_HEADER_BYTES) (content file);
  _ ← fail_if (negb (bool_decide (header = spill_header identity (f_side file) (f_bucket file) (bucket_count engine))))
        CorruptSpill;
  Ok {| rest := tail; rows_remaining := f_rows file; expected_bytes := f_bytes file; bytes_read := FILE_HEADER_BYTES;
        hashed := header; finished := false |}.

Definition read_record (r : VerifiedRecordReader) : result GraceJoinError (Value * VerifiedRecordReader) :=
  '(length_bytes, tail) ← read_exact 4 (rest r);
  let len := from_be_bytes length_bytes in
  _ ← fail_if ((len =? 0)%N || (N.of_nat (max_row_bytes engine) <? len)%N) RowTooLarge;
  '(payload, tail) ← read_exact (N.to_nat len) tail;
  record_bytes ← ok_or (checked_add U64_LIMIT len 4) AccountingOverflow;
  read ← ok_or (checked_add U64_LIMIT (bytes_read r) record_bytes) AccountingOverflow;
  row ← ok_or (from_slice payload) Json;
  _ ← fail_if (negb (bool_decide (is_Some (as_object row)))) CorruptSpill;
  Ok (row, {| rest := tail; rows_remaining := rows_remaining r - 1; expected_bytes := expected_bytes r;
              bytes_read := read; hashed := hashed r ++ length_bytes ++ payload; finished := finished r |}).

(** [while rows.len() < maximum && rows_remaining > 0]. *)
Fixpoint read_rows (maximum : nat) (r : VerifiedRecordReader) : result GraceJoinError (list Value * VerifiedRecordReader) :=
  match maximum with
  | O => Ok ([], r)
  | S maximum =>
      if (rows_remaining r =? 0)%N then Ok ([], r)
      else '(row, r) ← read_record r; '(rows, r) ← read_rows maximum r; Ok (row :: rows, r)
  end.

Definition verify_trailer (r : VerifiedRecordReader) : result GraceJoinError VerifiedRecordReader :=
  if finished r then Ok r
  else
    '(digest, tail) ← read_exact 32 (rest r);
    read ← ok_or (checked_add U64_LIMIT (bytes_read r) FILE_TRAILER_BYTES) AccountingOverflow;
    _ ← fail_if (negb (read =? expected_bytes r)%N || negb (bool_decide (tail = []))
                 || negb (bool_decide (sha256 (hashed r) = digest))) CorruptSpill;
    Ok {| rest := tail; rows_remaining := rows_remaining r; expected_bytes := expected_bytes r; bytes_read := read;
          hashed := hashed r; finished := true |}.

Definition next_chunk (maximum : nat) (r : VerifiedRecordReader) :
    result GraceJoinError (option (list Value) * VerifiedRecordReader) :=
  _ ← fail_if (maximum =? 0) InvalidConfiguration;
  if (rows_remaining r =? 0)%N then r ← verify_trailer r; Ok (None, r)
  else '(rows, r) ← read_rows maximum r; Ok (Some rows, r).

Definition finish (r : VerifiedRecordReader) : result GraceJoinError VerifiedRecordReader :=
  _ ← fail_if (negb (rows_remaining r =? 0)%N) CorruptSpill;
  verify_trailer r.
End spilling.

(** ** Joining *)

Record GraceJoinOutcome := {
  bindings : list Value;
  mode : string;
  spill_bytes : N;
  buckets_processed : N;
  build_rows_peak : N;
}.

Inductive GraceJoinSide := Left | Right.
Definition side_code (s : GraceJoinSide) : N := match s with Left => 0 | Right => 1 end.

Section joining.
Context `{Sha256, TermText, RowJson} (engine : GraceJoinEngine).

Definition file_for (files : list SpillFile) (side bucket : N) : option SpillFile :=
  snd <$> list_find (fun f => f_side f = side /\ f_bucket f = bucket) files.

(** The loop over the probe side for one build chunk.  A chunk takes at least
    one of the remaining rows, so their number plus one is enough fuel. *)
Fixpoint probe_loop (fuel : nat) (right_chunk : list Value) (max_rows : nat) (left_reader : VerifiedRecordReader)
    (output : list Value) : result GraceJoinError (list Value) :=
  match fuel with
  | O => Err CorruptSpill
  | S fuel =>
      '(chunk, left_reader) ← next_chunk engine (max_probe_rows engine) left_reader;
      match chunk with
      | None => _ ← finish left_reader; Ok output
      | Some left_chunk =>
          joined ← map_err Execution (inner_join_sparql_json left_chunk right_chunk (max_rows - length output));
          probe_loop fuel right_chunk max_rows left_reader (output ++ joined)
      end
  end.

(** The loop over the build side of one bucket. *)
Fixpoint build_loop (fuel : nat) (identity : list byte) (left_file : SpillFile) (max_rows : nat)
    (right_reader : VerifiedRecordReader) (acc : list Value * N) : result GraceJoinError (list Value * N) :=
  match fuel with
  | O => Err CorruptSpill
  | S fuel =>
      '(chunk, right_reader) ← next_chunk engine (max_build_rows engine) right_reader;
      match chunk with
      | None => _ ← finish right_reader; Ok acc
      | Some right_chunk =>
          let '(output, peak) := acc in
          rows ← ok_or (u64_of_len (length right_chunk)) AccountingOverflow;
          left_reader ← open_reader engine left_file identity;
          output ← probe_loop (S (N.to_nat (f_rows left_file))) right_chunk max_rows left_reader output;
          build_loop fuel identity left_file max_rows right_reader (output, N.max peak rows)
      end
  end.

(** One bucket: skipped unless both sides have a file. *)
Definition bucket_step (identity : list byte) (files : list SpillFile) (max_rows : nat)
    (acc : list Value * N * N) (bucket : N) : result GraceJoinError (list Value * N * N) :=
  let '(output, peak, processed) := acc in
  match file_for files 0 bucket, file_for files 1 bucket with
  | Some left_file, Some right_file =>
      processed ← ok_or (checked_add U32_LIMIT processed 1) AccountingOverflow;
      right_reader ← open_reader engine right_file identity;
      '(output, peak) ← build_loop (S (N.to_nat (f_rows right_file))) identity left_file max_rows right_reader (output, peak);
      Ok (output, peak, processed)
  | _, _ => Ok acc
  end.

(** The buckets of [execute_spilled]. *)
Definition join_buckets (identity : list byte) (files : list SpillFile) (max_rows : nat) :
    result GraceJoinError (list Value * N * N) :=
  try_fold (bucket_step identity files max_rows) ([], 0%N, 0%N) (N.of_nat <$> seq 0 (N.to_nat (bucket_count engine))).

Definition execute_spilled (identity : list byte) (files : list SpillFile) (max_rows : nat) : Spill GraceJoinOutcome :=
  spilled ← (fun st => (Ok (reserved_bytes st), st)) : Spill N;
  '(output, peak, processed) ← lift (join_buckets identity files max_rows);
  _ ← cleanup;
  mret {| bindings := output; mode := "grace_hash_nvme_v1"; spill_bytes := spilled; buckets_processed := processed;
          build_rows_peak := peak |}.

(** [empty_writers]: one slot for each side and bucket. *)
Definition empty_writers : result GraceJoinError (list (option BucketWriter)) :=
  let slots := N.to_nat (2 * bucket_count engine) in
  _ ← fail_if (max_open_files engine <? slots) InvalidConfiguration;
  Ok (replicate slots None).

Definition set_writers (ws : list (option BucketWriter)) : Spill unit := fun st =>
  (Ok tt, {| active := active st; reserved_bytes := reserved_bytes st; cleaned := cleaned st; writers := ws |}).

(** [join_stream] after its checks; a decoder error ends the loop. *)
Definition spill_rows (identity : list byte) (join_keys : list string)
    (rows : list (result GraceJoinError (GraceJoinSide * Value))) : Spill (list SpillFile) :=
  ws ← lift empty_writers;
  _ ← set_writers ws;
  _ ← iterate (fun decoded => '(side, row) ← lift decoded; write_row engine identity join_keys (side_code side) row) rows;
  ws ← get_writers;
  lift (finish_writers ws).

Definition join_out_of_core (identity : list byte) (rows : list (result GraceJoinError (GraceJoinSide * Value)))
    (join_keys : list string) (max_rows : nat) : Spill GraceJoinOutcome :=
  files ← spill_rows identity join_keys rows;
  execute_spilled identity files max_rows.

(** A stage runs from its creation to the drop of its guard; the second
    component is the process-wide reservation afterwards. *)
Definition run_stage {A} (body : Spill A) (active_bytes : N) : result GraceJoinError A * N :=
  let '(r, st) := body {| active := active_bytes; reserved_bytes := 0; cleaned := false; writers := [] |} in
  (r, drop_stage st).

Definition join_preconditions (identity : GraceJoinIdentity) (join_keys : list string) (max_rows : nat) :
    result GraceJoinError (list byte) :=
  digest ← identity_digest identity;
  _ ← fail_if (bool_decide (join_keys = []) || (max_rows =? 0)) InvalidConfiguration;
  Ok digest.

(** [GraceJoinEngine::join]. *)
Definition join (identity : GraceJoinIdentity) (left right : list Value) (join_keys : list string) (max_rows : nat)
    (active_bytes : N) : result GraceJoinError GraceJoinOutcome * N :=
  match join_preconditions identity join_keys max_rows with
  | Err e => (Err e, active_bytes)
  | Ok digest =>
      if length right <=? in_memory_build_rows engine then
        (peak ← ok_or (u64_of_len (length right)) AccountingOverflow;
         output ← map_err Execution (inner_join_sparql_json left right max_rows);
         Ok {| bindings := output; mode := "in_memory_hash_v1"; spill_bytes := 0; buckets_processed := 0;
               build_rows_peak := peak |}, active_bytes)
      else run_stage (join_out_of_core digest (((fun row => Ok (Left, row)) <$> left) ++ ((fun row => Ok (Right, row)) <$> right))
                        join_keys max_rows) active_bytes
  end.

(** [GraceJoinEngine::join_stream]. *)
Definition join_stream (identity : GraceJoinIdentity) (rows : list (result GraceJoinError (GraceJoinSide * Value)))
    (join_keys : list string) (max_rows : nat) (active_bytes : N) : result GraceJoinError GraceJoinOutcome * N :=
  match join_preconditions identity join_keys max_rows with
  | Err e => (Err e, active_bytes)
  | Ok digest => run_stage (join_out_of_core digest rows join_keys max_rows) active_bytes
  end.
End joining.

(** ** Accounting of one request *)

(** The process-wide reservation is what others hold plus this stage's own. *)
Definition open_stage (engine : GraceJoinEngine) (base : N) (st : SpillStage) : Prop :=
  active st = (base + reserved_bytes st)%N /\ cleaned st = false /\
  (reserved_bytes st <= max_request_spill_bytes engine)%N.

Definition preserves {A} (engine : GraceJoinEngine) (m : Spill A) : Prop :=
  forall base st, open_stage engine base st -> open_stage engine base (m st).2.

Section accounting.
Context (engine : GraceJoinEngine).

Lemma preserves_lift {A} (r : result GraceJoinError A) : preserves engine (lift r).
Proof. by intros base st. Qed.
Lemma preserves_ret {A} (a : A) : preserves engine (mret a).
Proof. by intros base st. Qed.
Lemma preserves_get : preserves engine get_writers.
Proof. by intros base st. Qed.
Lemma preserves_put i w : preserves engine (put_writer i w).
Proof. by intros base st. Qed.
Lemma preserves_set ws : preserves engine (set_writers ws).
Proof. by intros base st. Qed.

Lemma preserves_bind {A B} (m : Spill A) (k : A -> Spill B) :
  preserves engine m -> (forall a, preserves engine (k a)) -> preserves engine (m ≫= k).
Proof.
  intros Hm Hk base st Hst. unfold mbind, stateful_bind. specialize (Hm base st Hst).
  destruct (m st) as [[a|e] st']; [|done]. by apply Hk.
Qed.

Lemma preserves_reserve bytes : preserves engine (stage_reserve engine bytes).
Proof.
  intros base st (Ha & Hc & Hr). unfold stage_reserve.
  destruct (reserve engine (active st) (reserved_bytes st) bytes) as [[req act]|e] eqn:He; [|done].
  unfold reserve in He. do 4 inv_ok He. injection He as <- <-. inv_ok Ha0. inv_ok Ha2. inv_ok Ha1. bool_prop.
  apply checked_add_some in Ha0 as [-> _], Ha2 as [-> _]. split_and!; cbn; [lia|done|lia].
Qed.
End accounting.

#[export] Hint Resolve preserves_lift preserves_ret preserves_get preserves_put preserves_set preserves_reserve : ngkg.

(** Decomposes a stage computation into steps that keep the books. *)
Ltac solve_preserves :=
  repeat match goal with
  | |- preserves _ (_ ≫= _) => apply preserves_bind; [|intros ?]
  | |- preserves _ (match ?x with _ => _ end) => destruct x
  | |- preserves _ _ => solve [eauto with ngkg]
  end.

Section leaks.
Context `{Sha256, TermText, RowJson} (engine : GraceJoinEngine).

Lemma preserves_write_row identity keys side row : preserves engine (write_row engine identity keys side row).
Proof using Type. unfold write_row, slot_writer, create_writer. solve_preserves. Qed.

Lemma preserves_iter {A} (f : A -> Spill unit) l : (forall x, preserves engine (f x)) -> preserves engine (iterate f l).
Proof using Type. clear. intros Hf. induction l as [|x l IH]; cbn [iterate]; solve_preserves; eauto. Qed.

Lemma preserves_spill_rows identity keys rows : preserves engine (spill_rows engine identity keys rows).
Proof using Type.
  unfold spill_rows. solve_preserves. apply preserves_iter. intros decoded. solve_preserves. apply preserves_write_row.
Qed.

(** Whatever a stage does, dropping it gives back what it reserved. *)
Lemma drop_open base st : open_stage engine base st -> drop_stage st = base.
Proof using Type.
  intros (Ha & Hc & _). unfold drop_stage, release. rewrite Hc, Ha.
  replace (checked_sub (base + reserved_bytes st) (reserved_bytes st)) with (Some base); [done|].
  symmetry. apply checked_sub_some. lia.
Qed.

Lemma execute_returns base st identity files max_rows :
  open_stage engine base st -> drop_stage (execute_spilled engine identity files max_rows st).2 = base.
Proof using Type.
  intros Hst. pose proof (drop_open base st Hst) as Hd. unfold execute_spilled, mbind, stateful_bind, lift.
  destruct (join_buckets engine identity files max_rows) as [[[out peak] n]|e]; [|done]. unfold cleanup.
  destruct Hst as (Ha & Hc & _). unfold drop_stage in Hd. rewrite Hc in Hd.
  destruct (release (active st) (reserved_bytes st)) eqn:Hrel; [done|]. cbn. unfold drop_stage. by rewrite Hc, Hrel.
Qed.

Lemma run_stage_returns identity rows keys max_rows base :
  (run_stage (join_out_of_core engine identity rows keys max_rows) base).2 = base.
Proof using Type.
  set (st := {| active := base; reserved_bytes := 0; cleaned := false; writers := [] |}).
  assert (open_stage engine base st) as Hst by (split_and!; cbn; [lia|done|lia]).
  unfold run_stage, join_out_of_core, mbind, stateful_bind. fold st.
  pose proof (preserves_spill_rows identity keys rows base st Hst) as Hp.
  destruct (spill_rows engine identity keys rows st) as [[files|e] st1]; cbn [snd] in Hp; [|by apply drop_open].
  pose proof (execute_returns base st1 identity files max_rows Hp) as He.
  by destruct (execute_spilled engine identity files max_rows st1).
Qed.
End leaks.

(** ** Concurrent requests

    Requests share the process-wide reservation under a lock: [reserve] and
    [release] are atomic, everything else interleaves freely. *)

Record EngineState := {
  shared_active : N;
  held : gmap N N;
}.

Definition engine_start : EngineState := {| shared_active := 0; held := ∅ |}.

Inductive engine_step (e : GraceJoinEngine) : EngineState -> EngineState -> Prop :=
| step_create i s :
    held s !! i = None ->
    engine_step e s {| shared_active := shared_active s; held := <[i := 0%N]> (held s) |}
| step_reserve i current bytes next_request next_active s :
    held s !! i = Some current ->
    reserve e (shared_active s) current bytes = Ok (next_request, next_active) ->
    engine_step e s {| shared_active := next_active; held := <[i := next_request]> (held s) |}
| step_refused i current bytes err s :
    held s !! i = Some current ->
    reserve e (shared_active s) current bytes = Err err ->
    engine_step e s s
| step_release i current next_active s :
    held s !! i = Some current ->
    release (shared_active s) current = Ok next_active ->
    engine_step e s {| shared_active := next_active; held := delete i (held s) |}.

Record books_balance (e : GraceJoinEngine) (s : EngineState) : Prop := {
  bb_sum : shared_active s = map_total (held s);
  bb_total : (shared_active s <= max_total_spill_bytes e)%N;
  bb_request : map_Forall (fun _ n => n <= max_request_spill_bytes e)%N (held s);
}.

Lemma reserve_ok e a c b c' a' : reserve e a c b = Ok (c', a') ->
  c' = (c + b)%N /\ a' = (a + b)%N /\ (c' <= max_request_spill_bytes e)%N /\ (a' <= max_total_spill_bytes e)%N.
Proof.
  unfold reserve. intros Hr. do 4 inv_ok Hr. injection Hr as <- <-. inv_ok Ha. inv_ok Ha0. inv_ok Ha1. inv_ok Ha2. bool_prop.
  apply checked_add_some in Ha as [-> _], Ha1 as [-> _]. by repeat split.
Qed.

Lemma release_ok a b a' : release a b = Ok a' <-> (b <= a)%N /\ a' = (a - b)%N.
Proof. unfold release. rewrite ok_or_ok, checked_sub_some. naive_solver. Qed.

Lemma engine_step_balance e s s' : books_balance e s -> engine_step e s s' -> books_balance e s'.
Proof.
  intros [Hs Ht Hr] Hstep.
  destruct Hstep as [i s Hi|i c b c' a' s Hi Hres|i c b err s Hi Hres|i c a' s Hi Hrel]; [| |done|]; split; cbn.
  - by rewrite map_total_insert.
  - done.
  - apply map_Forall_insert_2; [lia|done].
  - apply reserve_ok in Hres as (-> & -> & _ & _). pose proof (map_total_update i c (c + b)%N (held s) Hi). lia.
  - by apply reserve_ok in Hres as (-> & -> & _ & ?).
  - apply reserve_ok in Hres as (-> & -> & ? & _). by apply map_Forall_insert_2.
  - apply release_ok in Hrel as [_ ->]. pose proof (map_total_delete i c (held s) Hi). lia.
  - apply release_ok in Hrel as [_ ->]. lia.
  - by apply map_Forall_delete.
Qed.

(** the spill budget is never overdrawn.  Whatever requests run, in whatever
    interleaving of their reservations, refusals and releases, the process-wide
    reservation is exactly the sum of what the live requests hold and stays
    within the process budget, each request stays within its own, and giving
    back a reservation cannot fail. *)
Theorem spill_budget_invariant e s :
  rtc (engine_step e) engine_start s ->
  shared_active s = map_total (held s) /\ (shared_active s <= max_total_spill_bytes e)%N /\
  map_Forall (fun _ n => n <= max_request_spill_bytes e)%N (held s) /\
  forall i current, held s !! i = Some current -> exists next, release (shared_active s) current = Ok next.
Proof.
  intros Hs. assert (books_balance e s) as [Hsum Ht Hr].
  { assert (books_balance e engine_start) as Hb by (split; cbn; [done|lia|done]).
    induction Hs as [|x y z Hxy _ IH]; [done|]. apply IH. by eapply engine_step_balance. }
  split_and!; [done..|]. intros i c Hi. pose proof (map_total_delete i c (held s) Hi). eexists. apply release_ok. split; [lia|done].
Qed.

Lemma spill_budget_invariant_witness :
  let e := {| max_total_spill_bytes := 100; max_request_spill_bytes := 81; bucket_count := 2; max_open_files := 4;
              max_build_rows := 1; max_probe_rows := 1; max_row_bytes := 9; in_memory_build_rows := 1 |} in
  let s := {| shared_active := 81; held := {[7%N := 81%N]} |} in
  rtc (engine_step e) engine_start s /\ shared_active s = map_total (held s).
Proof.
  intros e s. assert (rtc (engine_step e) engine_start s) as Hr.
  { eapply rtc_l; [by apply (step_create e 7)|]. eapply rtc_l; [|apply rtc_refl].
    assert (s = {| shared_active := 81; held := <[7%N := 81%N]> (<[7%N := 0%N]> ∅) |}) as -> by (vm_compute; reflexivity).
    apply (step_reserve e 7 0 81); vm_compute; reflexivity. }
  split; [exact Hr|]. exact (proj1 (spill_budget_invariant e s Hr)).
Defined.

(** no join leaks spill space.  For every input, whether the join succeeds,
    a row is malformed, a decoder fails, a budget runs out or a spill file is
    damaged, the process-wide reservation afterwards is what it was before. *)
Theorem grace_join_never_leaks `{Sha256, TermText, RowJson} engine identity left right rows keys max_rows active_bytes :
  (join engine identity left right keys max_rows active_bytes).2 = active_bytes /\
  (join_stream engine identity rows keys max_rows active_bytes).2 = active_bytes.
Proof.
  unfold join, join_stream. destruct (join_preconditions identity keys max_rows) as [d|e]; [|done].
  split; [|apply run_stage_returns]. destruct (_ <=? _); [done|]. apply run_stage_returns.
Qed.
