(* ===== verification/GraceExact.v ===== *)
(** * The Grace join returns the in-memory join

    Proofs about the model of src/crates/ngkg-grace-join/src/lib.rs in
    [GraceJoin]: spill files round trip and are sealed by their trailer, the
    chunked loops compute the join of the spilled rows, and the out-of-core
    join is the SPARQL join of its inputs. *)

From Stdlib Require Import Strings.Byte Strings.String.
From S2P Require Import Prelude Words Ordered Digest Terms Bindings Shuffle GraceJoin.
Import Sparql.

Section reading.
Context `{Sha256, TermText, RowJson} (engine : GraceJoinEngine).

(** A row that fits a record. *)
Record spillable (m : Map) : Prop := {
  sp_valid : valid_object m;
  sp_encodes : is_Some (to_vec (JObject m));
  sp_nonempty : 0 < length (default [] (to_vec (JObject m)));
  sp_row_bytes : length (default [] (to_vec (JObject m))) <= max_row_bytes engine;
  sp_u32 : (N.of_nat (length (default [] (to_vec (JObject m)))) < U32_LIMIT)%N;
}.

Definition payload (m : Map) : list byte := default [] (to_vec (JObject m)).
Definition frame (m : Map) : list byte := to_be_bytes 4 (N.of_nat (length (payload m))) ++ payload m.
Definition image (ms : list Map) : list byte := concat (frame <$> ms).

Lemma image_cons m ms : image (m :: ms) = frame m ++ image ms.
Proof using Type. done. Qed.
Lemma image_app ms ms' : image (ms ++ ms') = image ms ++ image ms'.
Proof using Type. unfold image. by rewrite fmap_app, concat_app. Qed.
Lemma image_one m : image [m] = frame m.
Proof using Type. unfold image. cbn. by rewrite app_nil_r. Qed.
Lemma length_frame m : length (frame m) = 4 + length (payload m).
Proof using Type. unfold frame. by rewrite length_app, length_to_be_bytes. Qed.

Lemma read_exact_app n a b : length a = n -> read_exact n (a ++ b) = Ok (a, b).
Proof using Type.
  intros <-. unfold read_exact. rewrite (proj2 (Nat.ltb_ge _ _)) by (rewrite length_app; lia). by rewrite take_app_length, drop_app_length.
Qed.

(** The reader stands before the records of [ms] in an intact file. *)
Record reads (r : VerifiedRecordReader) (ms : list Map) : Prop := {
  rd_rows : rows_remaining r = N.of_nat (length ms);
  rd_rest : rest r = image ms ++ sha256 (hashed r ++ image ms);
  rd_bytes : (bytes_read r + N.of_nat (length (image ms)) + 32 = expected_bytes r)%N;
  rd_limit : (expected_bytes r < U64_LIMIT)%N;
  rd_open : finished r = false;
}.

Lemma read_record_intact r m ms :
  spillable m -> reads r (m :: ms) -> exists r', read_record engine r = Ok (JObject m, r') /\ reads r' ms.
Proof using Type.
  intros Hm [Hn Hrest Hb Hl Ho]. destruct (sp_encodes m Hm) as [p Hp]. pose proof (sp_valid m Hm) as Hv.
  pose proof (sp_nonempty m Hm) as Hpos. pose proof (sp_row_bytes m Hm) as Hmax. pose proof (sp_u32 m Hm) as H32.
  assert (payload m = p) as Hpay by (unfold payload; by rewrite Hp). fold (payload m) in Hpos, Hmax, H32. rewrite Hpay in *.
  rewrite image_cons, length_app, length_frame, Hpay in Hb.
  unfold read_record. rewrite Hrest, image_cons. unfold frame. rewrite Hpay, <- !app_assoc.
  rewrite read_exact_app by apply length_to_be_bytes. cbn [mbind result_bind].
  rewrite from_to_be_bytes, N.mod_small by done.
  rewrite (proj2 (N.eqb_neq _ _)), (proj2 (N.ltb_ge _ _)) by lia. cbn [orb fail_if mbind result_bind].
  rewrite Nat2N.id, read_exact_app by done. cbn [mbind result_bind].
  rewrite checked_add_fits by lia. cbn [ok_or mbind result_bind].
  rewrite checked_add_fits by lia. cbn [ok_or mbind result_bind].
  rewrite (row_roundtrip m p Hv Hp). cbn [ok_or mbind result_bind as_object].
  rewrite bool_decide_eq_true_2 by done. cbn [negb fail_if mbind result_bind].
  eexists. split; [done|]. split; cbn [rest rows_remaining expected_bytes bytes_read hashed finished].
  - rewrite Hn. cbn [length]. lia.
  - f_equal. f_equal. by rewrite <- !app_assoc.
  - lia.
  - done.
  - done.
Qed.

Lemma read_rows_intact n : forall r ms, Forall spillable ms -> reads r ms ->
  exists r', read_rows engine n r = Ok (JObject <$> take n ms, r') /\ reads r' (drop n ms).
Proof using Type.
  induction n as [|n IH]; intros r ms Hsp Hr; [by exists r|]. cbn [read_rows].
  destruct ms as [|m ms].
  { rewrite (rd_rows _ _ Hr). by exists r. }
  rewrite (rd_rows _ _ Hr), (proj2 (N.eqb_neq _ _)) by (cbn [length]; lia).
  apply Forall_cons in Hsp as [Hm Hms]. destruct (read_record_intact r m ms Hm Hr) as (r1 & -> & Hr1).
  cbn [mbind result_bind]. destruct (IH r1 ms Hms Hr1) as (r2 & -> & Hr2). by exists r2.
Qed.

Lemma verify_trailer_intact r : reads r [] -> exists r', verify_trailer r = Ok r' /\
  finished r' = true /\ rows_remaining r' = 0%N.
Proof using Type.
  intros [Hn Hrest Hb Hl Ho]. unfold verify_trailer. rewrite Ho, Hrest. cbn [image fmap list_fmap concat app].
  rewrite app_nil_r in *. pose proof (read_exact_app 32 (sha256 (hashed r)) [] (sha256_length _)) as Hx. rewrite app_nil_r in Hx.
  rewrite Hx. cbn [mbind result_bind].
  rewrite (proj2 (checked_add_some _ _ _ (expected_bytes r))) by (cbn in Hb; unfold FILE_TRAILER_BYTES; lia).
  cbn [ok_or mbind result_bind]. rewrite N.eqb_refl, !bool_decide_eq_true_2 by done. cbn. eexists. split; [done|]. by split.
Qed.

Lemma finish_verified r : finished r = true -> rows_remaining r = 0%N -> finish r = Ok r.
Proof using Type. intros Hf Hn. unfold finish, verify_trailer. by rewrite Hn, Hf. Qed.

(** The two cases of [next_chunk] on an intact file. *)
Lemma next_chunk_end n r : 0 < n -> reads r [] -> exists r', next_chunk engine n r = Ok (None, r') /\
  finish r' = Ok r'.
Proof using Type.
  intros Hpos Hr. unfold next_chunk. rewrite (proj2 (Nat.eqb_neq _ _)), (rd_rows _ _ Hr) by lia. cbn [fail_if mbind result_bind].
  destruct (verify_trailer_intact r Hr) as (r' & Hv & Hf & Hn). exists r'. split; [|by apply finish_verified].
  cbn. by rewrite Hv.
Qed.

Lemma next_chunk_rows n r ms : 0 < n -> ms <> [] -> Forall spillable ms -> reads r ms ->
  exists r', next_chunk engine n r = Ok (Some (JObject <$> take n ms), r') /\ reads r' (drop n ms).
Proof using Type.
  intros Hpos Hne Hsp Hr. unfold next_chunk. rewrite (proj2 (Nat.eqb_neq _ _)) by lia. cbn [fail_if mbind result_bind].
  rewrite (rd_rows _ _ Hr), (proj2 (N.eqb_neq _ _)) by (destruct ms; [done|cbn; lia]).
  destruct (read_rows_intact n r ms Hsp Hr) as (r' & -> & Hr'). by exists r'.
Qed.
End reading.

(** ** The loops over chunks *)

Lemma sparql_join_app_l (a b R : list Map) : sparql_join (a ++ b) R = sparql_join a R ++ sparql_join b R.
Proof. apply bind_app. Qed.

Lemma sparql_join_app_r (L a b : list Map) : sparql_join L (a ++ b) ≡ₚ sparql_join L a ++ sparql_join L b.
Proof.
  unfold sparql_join. induction L as [|l L IH]; [done|].
  change ((l :: L) ≫= ?f) with (f l ++ (L ≫= f)). cbn beta. rewrite !bind_app, IH. solve_Permutation.
Qed.

Lemma sparql_join_nil_r (L : list Map) : sparql_join L [] = [].
Proof. apply (list_bind_nil L). Qed.

(** One bounded join after another. *)
Lemma bounded_step {B} (max : nat) (out joined : list Value) (k : list Value -> result GraceJoinError B) :
  length out <= max ->
  (j ← map_err Execution (bounded (max - length out) IntermediateRowLimit joined); k (out ++ j))
  = (o ← bounded max (Execution IntermediateRowLimit) (out ++ joined); k o).
Proof.
  intros Ho. unfold bounded. rewrite length_app.
  destruct (Nat.leb_spec (length joined) (max - length out)), (Nat.leb_spec (length out + length joined) max); (done || lia).
Qed.

Section loops.
Context `{Sha256, TermText, RowJson} (engine : GraceJoinEngine) (max_rows : nat).
Context (Hprobe : 0 < max_probe_rows engine) (Hbuild : 0 < max_build_rows engine)
        (Husize : (N.of_nat (max_build_rows engine) < U64_LIMIT)%N).
Abbreviation limit := (bounded max_rows (Execution IntermediateRowLimit)).

Lemma limit_app_over (a b : list Value) : max_rows < length a -> limit (a ++ b) = limit a.
Proof using Type. clear Hprobe Hbuild Husize. intros Ha. rewrite !bounded_over; [done|done|rewrite length_app; lia]. Qed.

Lemma probe_loop_spec (Rs : list Map) fuel : Forall valid_object Rs -> forall r ms out,
  Forall (spillable engine) ms -> reads r ms -> length ms < fuel -> length out <= max_rows ->
  probe_loop engine fuel (JObject <$> Rs) max_rows r out = limit (out ++ (JObject <$> sparql_join ms Rs)).
Proof using Hprobe.
  clear Hbuild Husize. intros HR. induction fuel as [|fuel IH]; intros r ms out Hsp Hr Hf Ho; [lia|]. cbn [probe_loop].
  destruct (decide (ms = [])) as [->|Hne].
  { destruct (next_chunk_end engine (max_probe_rows engine) r Hprobe Hr) as (r' & -> & Hfin).
    cbn [mbind result_bind]. rewrite Hfin. cbn [mbind result_bind fmap list_fmap]. rewrite app_nil_r. symmetry.
    by apply bounded_ok. }
  destruct (next_chunk_rows engine (max_probe_rows engine) r ms Hprobe Hne Hsp Hr) as (r' & -> & Hr').
  cbn [mbind result_bind].
  assert (Forall valid_object (take (max_probe_rows engine) ms)) as Hv.
  { apply Forall_take. eapply Forall_impl; [exact Hsp|]. intros m Hm. apply Hm. }
  rewrite (inner_join_sparql_json_spec _ Rs) by done.
  etransitivity; [apply (bounded_step max_rows out _ (fun o => probe_loop engine fuel (JObject <$> Rs) max_rows r' o) Ho)|].
  rewrite <- (take_drop (max_probe_rows engine) ms) at 2. rewrite sparql_join_app_l, fmap_app, app_assoc.
  set (o1 := out ++ _). unfold bounded at 1. destruct (Nat.leb_spec (length o1) max_rows) as [Hle|Hgt].
  - cbn [mbind result_bind]. apply IH; [by apply Forall_drop|done| |done]. rewrite length_drop. destruct ms; [done|cbn in *; lia].
  - cbn [mbind result_bind]. by rewrite limit_app_over, bounded_over.
Qed.

(** A file whose reader starts before the records of [ms]. *)
Definition holds (identity : list byte) (file : SpillFile) (ms : list Map) : Prop :=
  f_rows file = N.of_nat (length ms) /\ exists r, open_reader engine file identity = Ok r /\ reads r ms.

Lemma build_loop_spec identity left_file (Ls : list Map) fuel :
  Forall (spillable engine) Ls -> holds identity left_file Ls -> forall r ms out peak,
  Forall (spillable engine) ms -> reads r ms -> length ms < fuel -> length out <= max_rows ->
  exists joined peak', joined ≡ₚ sparql_join Ls ms /\ (peak' <= N.max peak (N.of_nat (max_build_rows engine)))%N /\
    build_loop engine fuel identity left_file max_rows r (out, peak)
    = (o ← limit (out ++ (JObject <$> joined)); Ok (o, peak')).
Proof using Hprobe Hbuild Husize.
  intros HL (Hrows & lr & Hopen & Hlr). induction fuel as [|fuel IH]; intros r ms out peak Hsp Hr Hf Ho; [lia|].
  cbn [build_loop]. destruct (decide (ms = [])) as [->|Hne].
  { exists [], peak. split; [by rewrite sparql_join_nil_r|]. split; [lia|].
    destruct (next_chunk_end engine (max_build_rows engine) r Hbuild Hr) as (r' & -> & Hfin). cbn [mbind result_bind].
    rewrite Hfin. cbn [mbind result_bind fmap list_fmap]. rewrite app_nil_r, (proj2 (bounded_ok _ _ _ out)); done. }
  destruct (next_chunk_rows engine (max_build_rows engine) r ms Hbuild Hne Hsp Hr) as (r' & -> & Hr').
  cbn [mbind result_bind]. set (chunk := take (max_build_rows engine) ms).
  assert (length chunk <= max_build_rows engine) as Hck by (unfold chunk; rewrite length_take; lia).
  rewrite length_fmap, (proj2 (u64_of_len_some _ (N.of_nat (length chunk)))) by (split; [done|lia]).
  cbn [ok_or mbind result_bind]. rewrite Hopen. cbn [mbind result_bind].
  assert (Forall valid_object chunk) as Hv.
  { apply Forall_take. eapply Forall_impl; [exact Hsp|]. intros m Hm. apply Hm. }
  rewrite Hrows, Nat2N.id, (probe_loop_spec chunk (S (length Ls)) Hv lr Ls out HL Hlr ltac:(lia) Ho).
  set (o1 := out ++ _). set (peak1 := N.max peak (N.of_nat (length chunk))).
  assert (sparql_join Ls ms ≡ₚ sparql_join Ls chunk ++ sparql_join Ls (drop (max_build_rows engine) ms)) as Hsplit.
  { rewrite <- sparql_join_app_r. unfold chunk. by rewrite take_drop. }
  destruct (decide (length o1 <= max_rows)) as [Hle|Hgt].
  - destruct (IH r' (drop (max_build_rows engine) ms) o1 peak1) as (joined & peak' & Hj & Hpk & Heq);
      [by apply Forall_drop|done|rewrite length_drop; destruct ms; [done|cbn in *; lia]|done|].
    exists (sparql_join Ls chunk ++ joined), peak'. split; [by rewrite Hj, Hsplit|]. split; [lia|].
    rewrite (proj2 (bounded_ok _ _ _ o1)) by done. cbn [mbind result_bind]. rewrite Heq.
    unfold o1. by rewrite fmap_app, <- !app_assoc.
  - exists (sparql_join Ls chunk ++ sparql_join Ls (drop (max_build_rows engine) ms)), peak.
    split; [by rewrite Hsplit|]. split; [lia|]. rewrite fmap_app, app_assoc. fold o1.
    rewrite limit_app_over by lia. rewrite bounded_over by lia. done.
Qed.
End loops.

(** ** All buckets *)

Section buckets.
Context `{Sha256, TermText, RowJson} (engine : GraceJoinEngine) (max_rows : nat) (identity : list byte).
Context (Hprobe : 0 < max_probe_rows engine) (Hbuild : 0 < max_build_rows engine)
        (Husize : (N.of_nat (max_build_rows engine) < U64_LIMIT)%N).
Abbreviation limit := (bounded max_rows (Execution IntermediateRowLimit)).

(** A side of a bucket: no file when it has no row. *)
Definition bucket_file (files : list SpillFile) (side : N) (bucket : nat) (ms : list Map) : Prop :=
  match file_for files side (N.of_nat bucket) with
  | Some file => holds engine identity file ms
  | None => ms = []
  end.

Lemma bucket_step_spec files b (Ls Rs : list Map) out peak n :
  Forall (spillable engine) Ls -> Forall (spillable engine) Rs ->
  bucket_file files 0 b Ls -> bucket_file files 1 b Rs -> length out <= max_rows -> (n + 1 < U32_LIMIT)%N ->
  exists joined peak' n', joined ≡ₚ sparql_join Ls Rs /\ (peak' <= N.max peak (N.of_nat (max_build_rows engine)))%N /\
    (n' <= n + 1)%N /\
    bucket_step engine identity files max_rows (out, peak, n) (N.of_nat b)
    = (o ← limit (out ++ (JObject <$> joined)); Ok (o, peak', n')).
Proof using Hprobe Hbuild Husize.
  intros HL HR Hl Hr Ho Hn. unfold bucket_step, bucket_file in *.
  assert (forall joined, joined = [] -> Ok (out, peak, n) = (o ← limit (out ++ (JObject <$> joined)); Ok (o, peak, n))) as Hskip.
  { intros joined ->. cbn [fmap list_fmap]. by rewrite app_nil_r, (proj2 (bounded_ok _ _ _ out)). }
  destruct (file_for files 0 (N.of_nat b)) as [lf|].
  2: { subst Ls. exists [], peak, n. split; [done|]. split; [lia|]. split; [lia|]. by apply Hskip. }
  destruct (file_for files 1 (N.of_nat b)) as [rf|].
  2: { subst Rs. exists [], peak, n. split; [by rewrite sparql_join_nil_r|]. split; [lia|]. split; [lia|]. by apply Hskip. }
  rewrite checked_add_fits by done. cbn [ok_or mbind result_bind].
  destruct Hr as (Hrows & r & Hopen & Hreads). rewrite Hopen. cbn [mbind result_bind]. rewrite Hrows, Nat2N.id.
  destruct (build_loop_spec engine max_rows Hprobe Hbuild Husize identity lf Ls (S (length Rs)) HL Hl r Rs out peak HR Hreads
    ltac:(lia) Ho) as (joined & peak' & Hj & Hp & ->).
  exists joined, peak', (n + 1)%N. split; [done|]. split; [done|]. split; [lia|]. by destruct (limit _).
Qed.

Lemma bucket_steps files (f : Map -> nat) (L R : list Map) bs : forall out peak n,
  Forall (spillable engine) L -> Forall (spillable engine) R ->
  (forall b, b ∈ bs -> bucket_file files 0 b (filter (fun m => f m = b) L) /\ bucket_file files 1 b (filter (fun m => f m = b) R)) ->
  length out <= max_rows -> (n + N.of_nat (length bs) < U32_LIMIT)%N ->
  exists joined peak' n',
    joined ≡ₚ concat ((fun b => sparql_join (filter (fun m => f m = b) L) (filter (fun m => f m = b) R)) <$> bs) /\
    (peak' <= N.max peak (N.of_nat (max_build_rows engine)))%N /\
    try_fold (bucket_step engine identity files max_rows) (out, peak, n) (N.of_nat <$> bs)
    = (o ← limit (out ++ (JObject <$> joined)); Ok (o, peak', n')).
Proof using Hprobe Hbuild Husize.
  induction bs as [|b bs IH]; intros out peak n HL HR Hfiles Ho Hn.
  { exists [], peak, n. split; [done|]. split; [lia|]. cbn [fmap list_fmap try_fold].
    by rewrite app_nil_r, (proj2 (bounded_ok _ _ _ out)). }
  cbn [fmap list_fmap try_fold concat]. cbn [length] in Hn. destruct (Hfiles b ltac:(left)) as [Hfl Hfr].
  destruct (bucket_step_spec files b _ _ out peak n (Forall_filter _ _ _ HL) (Forall_filter _ _ _ HR) Hfl Hfr Ho ltac:(lia))
    as (j1 & p1 & n1 & Hj1 & Hp1 & Hn1 & ->).
  set (o1 := out ++ (JObject <$> j1)). destruct (decide (length o1 <= max_rows)) as [Hle|Hgt].
  - destruct (IH o1 p1 n1 HL HR) as (j2 & p2 & n2 & Hj2 & Hp2 & Heq); [intros; apply Hfiles; by right|done|lia|].
    exists (j1 ++ j2), p2, n2. split; [by rewrite Hj1, Hj2|]. split; [lia|].
    rewrite (proj2 (bounded_ok _ _ _ o1)) by done. cbn [mbind result_bind]. rewrite Heq.
    unfold o1. by rewrite fmap_app, <- !app_assoc.
  - eexists (j1 ++ _), peak, n. split; [by rewrite Hj1|]. split; [lia|]. rewrite fmap_app, app_assoc. fold o1.
    rewrite limit_app_over by lia. by rewrite bounded_over by lia.
Qed.

(** Joining bucket by bucket gives the join of the relations. *)
Lemma join_buckets_spec keys files (L R : list Map) :
  (bucket_count engine < U32_LIMIT)%N ->
  Forall (spillable engine) L -> Forall (spillable engine) R ->
  (forall m, m ∈ L ++ R -> exists p, grace_partition_for_binding (JObject m) keys (bucket_count engine) = Ok p) ->
  (forall b, b < N.to_nat (bucket_count engine) ->
     bucket_file files 0 b (filter (fun m => owner keys (bucket_count engine) grace_domain m = b) L) /\
     bucket_file files 1 b (filter (fun m => owner keys (bucket_count engine) grace_domain m = b) R)) ->
  exists joined peak n, joined ≡ₚ sparql_join L R /\ (peak <= N.of_nat (max_build_rows engine))%N /\
    join_buckets engine identity files max_rows = (o ← limit (JObject <$> joined); Ok (o, peak, n)).
Proof using Hprobe Hbuild Husize.
  intros Hc HL HR Hkeys Hfiles. unfold join_buckets.
  destruct (bucket_steps files (owner keys (bucket_count engine) grace_domain) L R (seq 0 (N.to_nat (bucket_count engine))) [] 0 0 HL HR)
    as (joined & peak & n & Hj & Hp & Heq).
  - intros b Hb. apply elem_of_seq in Hb. apply Hfiles. lia.
  - cbn. lia.
  - rewrite length_seq. lia.
  - exists joined, peak, n. split; [|split; [lia|exact Heq]]. rewrite Hj. apply copartitioned_join.
    + intros l Hl. destruct (Hkeys l) as [p Hpp]; [set_solver|]. by eapply owner_lt.
    + intros l r Hl Hr Hag. destruct (Hkeys l) as [p Hpp]; [set_solver|]. destruct (Hkeys r) as [q Hqq]; [set_solver|].
      by eapply owner_agree.
Qed.
End buckets.

(** ** Writing the buckets *)

Global Instance GraceJoinSide_eq_dec : EqDecision GraceJoinSide.
Proof. solve_decision. Defined.

(** Slots without a writer. *)
Definition free_slots (ws : list (option BucketWriter)) : nat := length (filter (fun w => w = None) ws).

Lemma free_slots_fill ws i w : ws !! i = Some None -> free_slots ws = S (free_slots (<[i := Some w]> ws)).
Proof.
  revert i. induction ws as [|x ws IH]; intros [|i] Hi; cbn in Hi; try done.
  - injection Hi as ->. cbn [insert list_insert]. unfold free_slots. rewrite !filter_cons, decide_True, decide_False by done. done.
  - change (<[S i := Some w]> (x :: ws)) with (x :: <[i := Some w]> ws). specialize (IH i Hi). unfold free_slots in *. rewrite !filter_cons.
    destruct (decide (x = None)); cbn [length]; lia.
Qed.

Lemma free_slots_update ws i w w' : ws !! i = Some (Some w') -> free_slots (<[i := Some w]> ws) = free_slots ws.
Proof.
  revert i. induction ws as [|x ws IH]; intros [|i] Hi; cbn in Hi; try done.
  - injection Hi as ->. cbn [insert list_insert]. unfold free_slots. by rewrite !filter_cons, !decide_False.
  - change (<[S i := Some w]> (x :: ws)) with (x :: <[i := Some w]> ws). specialize (IH i Hi). unfold free_slots in *. rewrite !filter_cons.
    destruct (decide (x = None)); cbn [length]; lia.
Qed.

Lemma free_slots_le ws : free_slots ws <= length ws.
Proof. apply length_filter. Qed.

Lemma free_slots_replicate n : free_slots (replicate n None) = n.
Proof.
  unfold free_slots. induction n as [|n IH]; [done|]. cbn [replicate]. rewrite filter_cons, decide_True by done. cbn. lia.
Qed.

Lemma free_slots_some ws i w : ws !! i = Some (Some w) -> free_slots ws < length ws.
Proof.
  revert i. induction ws as [|x ws IH]; intros [|i] Hi; cbn in Hi; try done; unfold free_slots in *; rewrite filter_cons.
  - injection Hi as ->. rewrite decide_False by done. pose proof (free_slots_le ws). unfold free_slots in *. cbn. lia.
  - specialize (IH i Hi). destruct (decide (x = None)); cbn [length]; lia.
Qed.

Section writing.
Context `{Sha256, TermText, RowJson} (engine : GraceJoinEngine) (identity : list byte) (keys : list string) (base : N).
Context (Htotal : (max_total_spill_bytes engine < U64_LIMIT)%N)
        (Hrequest : (max_request_spill_bytes engine <= max_total_spill_bytes engine)%N).
Abbreviation count := (bucket_count engine).
Abbreviation slots := (N.to_nat (2 * count)).
Abbreviation owner_of := (owner keys count grace_domain).

Definition side_rows (s : GraceJoinSide) (rows : list (GraceJoinSide * Map)) : list Map :=
  snd <$> filter (fun x => x.1 = s) rows.
Definition bucket_rows (s : GraceJoinSide) (b : nat) (rows : list (GraceJoinSide * Map)) : list Map :=
  filter (fun m => owner_of m = b) (side_rows s rows).

Definition filled_writer (s : GraceJoinSide) (b : nat) (ms : list Map) : BucketWriter :=
  {| w_side := side_code s; w_bucket := N.of_nat b; w_rows := N.of_nat (length ms);
     w_bytes := 81 + N.of_nat (length (image ms));
     written := spill_header identity (side_code s) (N.of_nat b) count ++ image ms |}.
Definition writer_for (s : GraceJoinSide) (b : nat) (ms : list Map) : option BucketWriter :=
  if decide (ms = []) then None else Some (filled_writer s b ms).

(** Bytes a list of rows takes on disk when every bucket is used. *)
Definition spill_cost (rows : list (GraceJoinSide * Map)) : N :=
  81 * N.of_nat slots + N.of_nat (length (image rows.*2)).
Definition affordable (rows : list (GraceJoinSide * Map)) : Prop :=
  (spill_cost rows <= max_request_spill_bytes engine /\ base + spill_cost rows <= max_total_spill_bytes engine)%N.

Record spilled (rows : list (GraceJoinSide * Map)) (st : SpillStage) : Prop := {
  sd_open : open_stage engine base st;
  sd_slots : length (writers st) = slots;
  sd_writers : forall s b, b < N.to_nat count ->
    writers st !! writer_slot engine (side_code s) (N.of_nat b) = Some (writer_for s b (bucket_rows s b rows));
  sd_reserved : (reserved_bytes st + 81 * N.of_nat (free_slots (writers st)) = spill_cost rows)%N;
}.

Lemma side_rows_snoc s rows s' m : side_rows s (rows ++ [(s', m)]) = side_rows s rows ++ (if decide (s' = s) then [m] else []).
Proof using Type. unfold side_rows. rewrite filter_app, fmap_app, filter_cons, filter_nil. cbn. by case_decide. Qed.

Lemma bucket_rows_snoc s b rows s' m :
  bucket_rows s b (rows ++ [(s', m)]) = bucket_rows s b rows ++ (if decide (s' = s /\ owner_of m = b) then [m] else []).
Proof using Type.
  unfold bucket_rows. rewrite side_rows_snoc, filter_app. f_equal. destruct (decide (s' = s)).
  - rewrite filter_cons, filter_nil. destruct (decide (owner_of m = b)); [by rewrite decide_True|].
    rewrite decide_False by naive_solver. done.
  - rewrite decide_False by naive_solver. done.
Qed.

Lemma slot_inj s b s' b' : b < N.to_nat count -> b' < N.to_nat count ->
  writer_slot engine (side_code s) (N.of_nat b) = writer_slot engine (side_code s') (N.of_nat b') -> s = s' /\ b = b'.
Proof using Type. clear Htotal Hrequest. unfold writer_slot. destruct s, s'; cbn [side_code]; intros; split; (done || lia). Qed.

Lemma slot_lt s b : b < N.to_nat count -> writer_slot engine (side_code s) (N.of_nat b) < slots.
Proof using Type. clear Htotal Hrequest. unfold writer_slot. destruct s; cbn [side_code]; lia. Qed.

Lemma stage_reserve_cases st bytes :
  open_stage engine base st ->
  (exists st', stage_reserve engine bytes st = (Ok tt, st') /\ open_stage engine base st' /\
     reserved_bytes st' = (reserved_bytes st + bytes)%N /\ writers st' = writers st) \/
  (exists e, stage_reserve engine bytes st = (Err e, st) /\
     ~ (reserved_bytes st + bytes <= max_request_spill_bytes engine /\ active st + bytes <= max_total_spill_bytes engine)%N).
Proof using Htotal Hrequest.
  intros Hst. pose proof (preserves_reserve engine bytes base st Hst) as Hp. unfold stage_reserve in *.
  destruct (reserve engine (active st) (reserved_bytes st) bytes) as [[req act]|e] eqn:He.
  - apply reserve_ok in He as (-> & -> & _ & _). left. by eexists.
  - right. exists e. split; [done|]. intros [Hr Ha]. unfold reserve in He.
    rewrite !checked_add_fits in He by lia. cbn [ok_or mbind result_bind] in He.
    rewrite (proj2 (N.ltb_ge _ _)) in He by lia. cbn [fail_if mbind result_bind] in He.
    rewrite (proj2 (N.ltb_ge _ _)) in He by lia. done.
Qed.

(** The writer of a slot holds the rows of its bucket so far. *)
Lemma slot_writer_cases rows st s b : spilled rows st -> b < N.to_nat count ->
  (exists st', slot_writer engine identity (side_code s) (N.of_nat b) st = (Ok (filled_writer s b (bucket_rows s b rows)), st') /\
     open_stage engine base st' /\ length (writers st') = slots /\
     writers st' = <[writer_slot engine (side_code s) (N.of_nat b) := Some (filled_writer s b (bucket_rows s b rows))]> (writers st) /\
     (reserved_bytes st' + 81 * N.of_nat (free_slots (writers st')) = spill_cost rows)%N) \/
  (exists e st', slot_writer engine identity (side_code s) (N.of_nat b) st = (Err e, st') /\ ~ affordable rows).
Proof using Htotal Hrequest.
  intros [Hopen Hlen Hws Hres] Hb. pose proof (Hws s b Hb) as Hslot. unfold slot_writer.
  rewrite (stateful_bind_ok _ _ st (writers st) st) by done. rewrite Hslot.
  rewrite (stateful_bind_ok _ _ st (writer_for s b (bucket_rows s b rows)) st) by done. unfold writer_for in *.
  destruct (decide (bucket_rows s b rows = [])) as [Hnil|Hne].
  2: { left. exists st. split; [done|]. split; [done|]. split; [done|]. split; [|done]. symmetry. by apply list_insert_id. }
  rewrite Hnil. unfold create_writer. unfold FILE_HEADER_BYTES, FILE_TRAILER_BYTES. rewrite checked_add_fits by done.
  pose proof (free_slots_fill _ _ (filled_writer s b []) Hslot) as Hfree.
  destruct (stage_reserve_cases st 81 Hopen) as [(st1 & Hr & Ho1 & Hr1 & Hw1)|(e & Hr & Hno)].
  - left. eexists. split.
    { rewrite (stateful_bind_ok _ _ st (filled_writer s b []) st1); [done|]. rewrite (stateful_bind_ok _ _ st 81%N st) by done.
      rewrite (stateful_bind_ok _ _ st tt st1) by done. unfold filled_writer. cbn. by rewrite app_nil_r. }
    cbn [active reserved_bytes cleaned writers]. rewrite Hw1. split; [done|]. split; [by rewrite length_insert|]. split; [done|].
    rewrite Hr1. lia.
  - right. exists e, st. split.
    { apply stateful_bind_err. rewrite (stateful_bind_ok _ _ st 81%N st) by done. by apply stateful_bind_err. }
    destruct Hopen as (Ha & _). unfold affordable. lia.
Qed.

Lemma length_image_filter (P : Map -> Prop) `{!forall x, Decision (P x)} ms : length (image (filter P ms)) <= length (image ms).
Proof using Type.
  clear Htotal Hrequest. induction ms as [|m ms IH]; [done|]. rewrite filter_cons. case_decide; rewrite ?image_cons, ?length_app; lia.
Qed.

Lemma length_image_rows ms : length ms <= length (image ms).
Proof using Type.
  clear Htotal Hrequest. induction ms as [|m ms IH]; [done|]. rewrite image_cons, length_app, length_frame. cbn [length]. lia.
Qed.

Lemma length_image_bucket s b rows : length (image (bucket_rows s b rows)) <= length (image rows.*2).
Proof using Type.
  clear Htotal Hrequest. unfold bucket_rows. etransitivity; [apply length_image_filter|]. unfold side_rows.
  induction rows as [|[s' m] rows IH]; [done|]. rewrite filter_cons. cbn [fst snd fmap list_fmap].
  case_decide; cbn [fmap list_fmap]; rewrite ?image_cons, ?length_app; cbn [snd]; lia.
Qed.

Lemma image_snoc rows (s : GraceJoinSide) m : length (image (rows ++ [(s, m)]).*2) = length (image rows.*2) + length (frame m).
Proof using Type. by rewrite fmap_app, image_app, length_app, <- image_one. Qed.

(** Adding a row to the writer of its bucket. *)
Lemma push_filled s b ms m :
  (81 + N.of_nat (length (image ms)) + N.of_nat (length (frame m)) < U64_LIMIT)%N ->
  push_record (filled_writer s b ms) (to_be_bytes 4 (N.of_nat (length (payload m)))) (payload m) (N.of_nat (length (payload m)) + 4)
  = Ok (filled_writer s b (ms ++ [m])).
Proof using Type.
  clear Htotal Hrequest. intros Hfit. pose proof (length_image_rows ms). rewrite length_frame in Hfit.
  unfold push_record, filled_writer. cbn [w_rows w_bytes w_side w_bucket written].
  rewrite checked_add_fits by lia. cbn [ok_or mbind result_bind]. rewrite checked_add_fits by lia. cbn [ok_or mbind result_bind].
  rewrite image_app, image_one, !length_app, length_frame. cbn [length].
  do 2 f_equal; [lia|lia|]. by rewrite <- app_assoc.
Qed.

(** What a row adds to the invariant once its bytes are reserved. *)
Lemma spilled_snoc rows st st2 s m :
  spilled rows st -> owner_of m < N.to_nat count -> open_stage engine base st2 ->
  writers st2 = <[writer_slot engine (side_code s) (N.of_nat (owner_of m)) :=
                    Some (filled_writer s (owner_of m) (bucket_rows s (owner_of m) rows ++ [m]))]> (writers st) ->
  (reserved_bytes st2 + 81 * N.of_nat (free_slots (writers st2)) = spill_cost (rows ++ [(s, m)]))%N ->
  spilled (rows ++ [(s, m)]) st2.
Proof using Type.
  clear Htotal Hrequest. intros [Hopen Hlen Hws Hres] Hb Ho2 Hw2 Hr2. split; [done|by rewrite Hw2, length_insert| |done].
  intros s' b' Hb'. rewrite Hw2, bucket_rows_snoc. destruct (decide (s = s' /\ owner_of m = b')) as [[-> <-]|Hne].
  - rewrite list_lookup_insert_eq by (rewrite Hlen; by apply slot_lt). unfold writer_for. rewrite decide_False; [done|].
    by destruct (bucket_rows s' (owner_of m) rows).
  - rewrite list_lookup_insert_ne, app_nil_r; [by apply Hws|]. intros Heq. apply Hne. by eapply slot_inj.
Qed.

Lemma reserved_covers_bucket rows st s b :
  length (writers st) = slots -> free_slots (writers st) < slots ->
  (reserved_bytes st + 81 * N.of_nat (free_slots (writers st)) = spill_cost rows)%N ->
  (81 + N.of_nat (length (image (bucket_rows s b rows))) <= reserved_bytes st)%N.
Proof using Type.
  clear Htotal Hrequest. intros Hlen Hfree Hres. pose proof (length_image_bucket s b rows). unfold spill_cost in Hres. lia.
Qed.

(** The row checks of [write_row] pass on a spillable row. *)
Lemma row_checks_pass {A} m st (k : list byte -> N -> Spill A) : spillable engine m ->
  (bytes ← lift (ok_or (to_vec (JObject m)) Json);
   _ ← lift (fail_if ((length bytes =? 0) || (max_row_bytes engine <? length bytes)) RowTooLarge);
   _ ← lift (fail_if (negb (fits U32_LIMIT (N.of_nat (length bytes)))) RowTooLarge);
   let len := N.of_nat (length bytes) in
   record_bytes ← lift (ok_or (checked_add U64_LIMIT len 4) AccountingOverflow);
   k bytes record_bytes) st = k (payload m) (N.of_nat (length (payload m)) + 4)%N st.
Proof using Type.
  clear Htotal Hrequest. intros Hm. destruct (sp_encodes _ m Hm) as [bytes Hbytes].
  pose proof (sp_nonempty _ m Hm) as Hpos. pose proof (sp_row_bytes _ m Hm) as Hmax. pose proof (sp_u32 _ m Hm) as H32.
  unfold payload. rewrite Hbytes in *. cbn [default from_option id] in *. assert (U32_LIMIT + 4 < U64_LIMIT)%N by done.
  rewrite (stateful_bind_ok _ _ st bytes st) by done.
  rewrite (stateful_bind_ok _ _ st tt st) by (unfold lift; by rewrite (proj2 (Nat.eqb_neq _ _)), (proj2 (Nat.ltb_ge _ _)) by lia).
  rewrite (stateful_bind_ok _ _ st tt st) by (unfold lift, fits; by rewrite (proj2 (N.ltb_lt _ _) H32)).
  by rewrite (stateful_bind_ok _ _ st (N.of_nat (length bytes) + 4)%N st) by (unfold lift; by rewrite checked_add_fits by lia).
Qed.

Lemma write_row_cases rows st s m p :
  spilled rows st -> spillable engine m -> grace_partition_for_binding (JObject m) keys count = Ok p ->
  (exists st', write_row engine identity keys (side_code s) (JObject m) st = (Ok tt, st') /\ spilled (rows ++ [(s, m)]) st') \/
  (exists e st', write_row engine identity keys (side_code s) (JObject m) st = (Err e, st') /\ ~ affordable (rows ++ [(s, m)])).
Proof using Htotal Hrequest.
  intros Hsp Hm Hp. pose proof (owner_lt keys count grace_domain m p Hp) as Hb. unfold write_row.
  assert (owner_of m = N.to_nat p) as Hown by (unfold owner; unfold grace_partition_for_binding in Hp; by rewrite Hp).
  rewrite (stateful_bind_ok _ _ st (N.of_nat (owner_of m)) st) by (unfold lift; rewrite Hp; cbn; do 2 f_equal; lia).
  pose proof (image_snoc rows s m) as Himg. rewrite length_frame in Himg.
  destruct (slot_writer_cases rows st s (owner_of m) Hsp Hb) as [(st1 & Hw & Ho1 & Hl1 & Hw1 & Hr1)|(e & st1 & Hw & Hno)].
  2: { right. exists e, st1. split; [by apply stateful_bind_err|]. unfold affordable, spill_cost in *. lia. }
  rewrite (stateful_bind_ok _ _ st _ st1 Hw), row_checks_pass by done.
  destruct (stage_reserve_cases st1 (N.of_nat (length (payload m)) + 4) Ho1) as [(st2 & Hr & Ho2 & Hr2 & Hw2)|(e & Hr & Hno)].
  2: { right. exists e, st1. split; [by apply stateful_bind_err|]. destruct Ho1 as (Ha & _). unfold affordable, spill_cost in *. lia. }
  left. rewrite (stateful_bind_ok _ _ st1 tt st2 Hr).
  assert (writers st1 !! writer_slot engine (side_code s) (N.of_nat (owner_of m))
          = Some (Some (filled_writer s (owner_of m) (bucket_rows s (owner_of m) rows)))) as Hslot.
  { rewrite Hw1. apply list_lookup_insert_eq. rewrite (sd_slots _ _ Hsp). by apply slot_lt. }
  pose proof (reserved_covers_bucket rows st1 s (owner_of m) Hl1 ltac:(rewrite <- Hl1; by eapply free_slots_some) Hr1) as Hcover.
  assert (reserved_bytes st2 <= max_request_spill_bytes engine)%N as Hq2 by apply Ho2.
  rewrite (stateful_bind_ok _ _ st2 (filled_writer s (owner_of m) (bucket_rows s (owner_of m) rows ++ [m])) st2)
    by (unfold lift; rewrite push_filled by (rewrite length_frame; lia); done).
  eexists. split; [done|]. eapply spilled_snoc; [exact Hsp|done|done|cbn [writers]; by rewrite Hw2, Hw1, list_insert_insert_eq|].
  cbn [reserved_bytes writers]. rewrite Hw2, (free_slots_update _ _ _ _ Hslot), Hr2. unfold spill_cost in *. lia.
Qed.

Definition decoded (x : GraceJoinSide * Map) : result GraceJoinError (GraceJoinSide * Value) := Ok (x.1, JObject x.2).
Definition row_ok (x : GraceJoinSide * Map) : Prop :=
  spillable engine x.2 /\ exists p, grace_partition_for_binding (JObject x.2) keys count = Ok p.

Abbreviation write_decoded := (fun d => '(side, row) ← lift d; write_row engine identity keys (side_code side) row).

Lemma write_rows_cases rows : forall pre st, spilled pre st -> Forall row_ok rows ->
  (exists st', iterate write_decoded (decoded <$> rows) st = (Ok tt, st') /\ spilled (pre ++ rows) st') \/
  (exists e st', iterate write_decoded (decoded <$> rows) st = (Err e, st') /\ ~ affordable (pre ++ rows)).
Proof using Htotal Hrequest.
  induction rows as [|[s m] rows IH]; intros pre st Hst Hok.
  { left. exists st. by rewrite app_nil_r. }
  apply Forall_cons in Hok as [[Hm [p Hp]] Hok]. cbn [fst snd] in *. cbn [fmap list_fmap iterate].
  replace (pre ++ (s, m) :: rows) with ((pre ++ [(s, m)]) ++ rows) by (by rewrite <- app_assoc).
  destruct (write_row_cases pre st s m p Hst Hm Hp) as [(st1 & Hw & Hst1)|(e & st1 & Hw & Hno)].
  - rewrite (stateful_bind_ok _ _ st tt st1); [by apply IH|]. rewrite (stateful_bind_ok _ _ st (s, JObject m) st); done.
  - right. exists e, st1. split.
    + apply stateful_bind_err. rewrite (stateful_bind_ok _ _ st (s, JObject m) st); done.
    + unfold affordable, spill_cost in *. rewrite fmap_app, image_app, length_app. lia.
Qed.

(** ** The finished files *)

Definition finished_file (w : BucketWriter) : SpillFile :=
  {| f_side := w_side w; f_bucket := w_bucket w; f_rows := w_rows w; f_bytes := w_bytes w;
     content := written w ++ sha256 (written w) |}.

Context (Hidentity : length identity = 32).

Lemma length_header s b : length (spill_header identity s b count) = 49.
Proof using Hidentity.
  unfold spill_header. rewrite !length_app, !length_to_be_bytes, Hidentity. done.
Qed.

Lemma length_filled s b ms : length (written (filled_writer s b ms)) = 49 + length (image ms).
Proof using Hidentity. cbn [filled_writer written]. by rewrite length_app, length_header. Qed.

Lemma finish_filled s b ms : finish_writer (filled_writer s b ms) = Ok (finished_file (filled_writer s b ms)).
Proof using Hidentity.
  clear Htotal Hrequest. unfold finish_writer. rewrite length_app, sha256_length, length_filled.
  rewrite (proj2 (N.eqb_eq _ _)); [done|]. cbn [filled_writer w_bytes]. lia.
Qed.

Lemma elem_of_writers rows st w : spilled rows st -> w ∈ omap id (writers st) ->
  exists s b, b < N.to_nat count /\ bucket_rows s b rows <> [] /\ w = filled_writer s b (bucket_rows s b rows).
Proof using Type.
  clear Htotal Hrequest Hidentity. intros [_ Hlen Hws _] (o & Ho & Hw)%list_elem_of_omap. cbn in Hw. subst o.
  apply list_elem_of_lookup in Ho as [i Hi]. pose proof (lookup_lt_Some _ _ _ Hi) as Hlt. rewrite Hlen in Hlt.
  set (s := if decide (i < N.to_nat count) then Left else Right).
  set (b := if decide (i < N.to_nat count) then i else i - N.to_nat count).
  assert (b < N.to_nat count /\ writer_slot engine (side_code s) (N.of_nat b) = i) as [Hb Hslot].
  { unfold s, b, writer_slot. case_decide; cbn [side_code]; lia. }
  specialize (Hws s b Hb). rewrite Hslot, Hi in Hws. unfold writer_for in Hws.
  destruct (decide (bucket_rows s b rows = [])) as [|Hne]; [done|]. injection Hws as ->. by exists s, b.
Qed.

Lemma finish_writers_ok rows st : spilled rows st ->
  finish_writers (writers st) = Ok (finished_file <$> omap id (writers st)).
Proof using Hidentity.
  clear Htotal Hrequest. intros Hst. unfold finish_writers. apply try_map_pure. intros w Hw.
  destruct (elem_of_writers rows st w Hst Hw) as (s & b & _ & _ & ->). apply finish_filled.
Qed.

Lemma finished_holds rows st s b : spilled rows st -> b < N.to_nat count -> bucket_rows s b rows <> [] ->
  holds engine identity (finished_file (filled_writer s b (bucket_rows s b rows))) (bucket_rows s b rows).
Proof using Hidentity Htotal Hrequest.
  intros Hst Hb Hne. split; [done|]. set (ms := bucket_rows s b rows).
  assert (81 + N.of_nat (length (image ms)) <= reserved_bytes st)%N as Hcover.
  { apply (reserved_covers_bucket rows); [apply Hst| |apply Hst]. rewrite <- (sd_slots _ _ Hst).
    eapply free_slots_some. rewrite (sd_writers _ _ Hst s b Hb). unfold writer_for. by rewrite decide_False. }
  assert (reserved_bytes st <= max_request_spill_bytes engine)%N by apply (sd_open _ _ Hst).
  unfold open_reader. cbn [finished_file content f_bytes f_side f_bucket f_rows filled_writer w_side w_bucket w_bytes w_rows written].
  rewrite (proj2 (N.eqb_eq _ _)) by (rewrite !length_app, sha256_length, length_header; lia). cbn [negb fail_if mbind result_bind].
  rewrite <- (app_assoc (spill_header _ _ _ _)), read_exact_app by apply length_header. cbn [mbind result_bind].
  rewrite bool_decide_eq_true_2 by done. cbn [negb fail_if mbind result_bind]. eexists. split; [done|].
  split; cbn [rest rows_remaining expected_bytes bytes_read hashed GraceJoin.finished]; [done|done|unfold FILE_HEADER_BYTES; lia|lia|done].
Qed.

Lemma files_hold_buckets rows st s b : spilled rows st -> b < N.to_nat count ->
  bucket_file engine identity (finished_file <$> omap id (writers st)) (side_code s) b (bucket_rows s b rows).
Proof using Hidentity Htotal Hrequest.
  intros Hst Hb. unfold bucket_file, file_for.
  destruct (list_find _ _) as [[i f]|] eqn:Hf; cbn [fmap option_fmap option_map snd].
  - apply list_find_Some in Hf as (Hf & [Hs Hbk] & _). apply list_elem_of_lookup_2, list_elem_of_fmap in Hf as (w & -> & Hw).
    destruct (elem_of_writers rows st w Hst Hw) as (s' & b' & Hb' & Hne & ->). cbn in Hs, Hbk.
    assert (s' = s) as -> by (destruct s', s; done). assert (b' = b) as -> by lia. by apply (finished_holds rows st).
  - apply list_find_None in Hf. destruct (decide (bucket_rows s b rows = [])) as [|Hne]; [done|exfalso].
    assert (filled_writer s b (bucket_rows s b rows) ∈ omap id (writers st)) as Hw.
    { apply list_elem_of_omap. exists (Some (filled_writer s b (bucket_rows s b rows))). split; [|done].
      eapply list_elem_of_lookup_2. rewrite (sd_writers _ _ Hst s b Hb). unfold writer_for. by rewrite decide_False. }
    rewrite Forall_forall in Hf. eapply Hf; [by apply list_elem_of_fmap_2|]. done.
Qed.
End writing.

(** ** The whole join *)

(** Limits as machine integers, in a configuration [open] accepts. *)
Record engine_sized (engine : GraceJoinEngine) : Prop := {
  es_open : open_engine engine = Ok engine;
  es_total : (max_total_spill_bytes engine < U64_LIMIT)%N;
  es_buckets : (bucket_count engine < U32_LIMIT)%N;
  es_build : (N.of_nat (max_build_rows engine) < U64_LIMIT)%N;
}.

Section whole.
Context `{Sha256, TermText, RowJson} (engine : GraceJoinEngine) (Hsized : engine_sized engine) (keys : list string) (max_rows : nat).

Lemma sized_limits :
  (max_request_spill_bytes engine <= max_total_spill_bytes engine)%N /\ 0 < max_probe_rows engine /\ 0 < max_build_rows engine /\
  N.to_nat (2 * bucket_count engine) <= max_open_files engine /\ in_memory_build_rows engine <= max_build_rows engine.
Proof using Hsized.
  destruct Hsized as [Ho _ _ _]. unfold open_engine in Ho. inv_ok Ho. inv_ok Ha. bool_prop. lia.
Qed.

Lemma write_row_inv identity side m st st' : valid_object m ->
  write_row engine identity keys side (JObject m) st = (Ok tt, st') -> row_ok engine keys (Left, m).
Proof using Type.
  clear Hsized. intros Hv Hw. unfold write_row in Hw.
  apply stateful_bind_inv in Hw as (p & st0 & [Hp ->]%lift_inv & Hw). inv_ok Hp.
  apply stateful_bind_inv in Hw as (w & st1 & _ & Hw). apply stateful_bind_inv in Hw as (bytes & st2 & [Hb ->]%lift_inv & Hw).
  apply stateful_bind_inv in Hw as ([] & st3 & [Hsize ->]%lift_inv & Hw). apply stateful_bind_inv in Hw as ([] & st4 & [H32 ->]%lift_inv & _).
  inv_ok Hb. inv_ok Hsize. inv_ok H32. unfold fits in H32. bool_prop. split; [|by exists p]. cbn.
  split; [done|by eexists|rewrite Hb; cbn; lia..].
Qed.

Lemma spilled_rows_ok identity rows : forall st st', Forall (fun x => valid_object x.2) rows ->
  iterate (fun d => '(side, row) ← lift d; write_row engine identity keys (side_code side) row) (decoded <$> rows) st
  = (Ok tt, st') -> Forall (row_ok engine keys) rows.
Proof using Type.
  clear Hsized. induction rows as [|[s m] rows IH]; intros st st' Hv Hw; [constructor|].
  apply Forall_cons in Hv as [Hm Hv]. cbn [fmap list_fmap iterate] in Hw.
  apply stateful_bind_inv in Hw as ([] & st1 & Hrow & Hw). constructor; [|by eapply IH].
  apply stateful_bind_inv in Hrow as (x & st2 & [Hx ->]%lift_inv & Hrow). injection Hx as <-. by eapply write_row_inv.
Qed.

Definition start_stage (base : N) : SpillStage := {| active := base; reserved_bytes := 0; cleaned := false; writers := [] |}.

Lemma empty_spilled identity base :
  exists st, set_writers (replicate (N.to_nat (2 * bucket_count engine)) None) (start_stage base) = (Ok tt, st) /\
    spilled engine identity keys base [] st.
Proof using Type.
  clear Hsized. eexists. split; [done|]. split; cbn [writers reserved_bytes active cleaned].
  - split_and!; cbn; [lia|done|lia].
  - apply length_replicate.
  - intros s b Hb. rewrite lookup_replicate_2 by (by apply slot_lt). done.
  - unfold spill_cost. rewrite free_slots_replicate. cbn. lia.
Qed.

(** The spill phase: complete files in every bucket, or a budget too small. *)
Lemma spill_rows_cases identity base rows : length identity = 32 -> Forall (row_ok engine keys) rows ->
  (exists st files, spill_rows engine identity keys (decoded <$> rows) (start_stage base) = (Ok files, st) /\
     open_stage engine base st /\
     forall s b, b < N.to_nat (bucket_count engine) ->
       bucket_file engine identity files (side_code s) b (bucket_rows engine keys s b rows)) \/
  (exists e st, spill_rows engine identity keys (decoded <$> rows) (start_stage base) = (Err e, st) /\
     ~ affordable engine base rows).
Proof using Hsized.
  intros Hid Hok. pose proof sized_limits as (Hreq & _ & _ & Hfiles & _). pose proof (es_total _ Hsized) as Htot.
  unfold spill_rows, empty_writers. rewrite (proj2 (Nat.ltb_ge _ _)) by done. cbn [fail_if mbind result_bind].
  rewrite (stateful_bind_ok _ _ (start_stage base) (replicate (N.to_nat (2 * bucket_count engine)) None) (start_stage base)) by done.
  destruct (empty_spilled identity base) as (st0 & Hset & Hst0). rewrite (stateful_bind_ok _ _ _ tt st0 Hset).
  destruct (write_rows_cases engine identity keys base Htot Hreq rows [] st0 Hst0 Hok) as [(st & Hw & Hst)|(e & st & Hw & Hno)].
  - left. rewrite (stateful_bind_ok _ _ st0 tt st Hw), (stateful_bind_ok _ _ st (writers st) st) by done. unfold lift.
    rewrite (finish_writers_ok engine identity keys base Hid rows st Hst). eexists st, _. split; [done|]. split; [apply Hst|].
    intros s b Hb. by apply (files_hold_buckets engine identity keys base Htot Hreq Hid rows st).
  - right. exists e, st. split; [by apply stateful_bind_err|done].
Qed.

(** What an outcome promises about the relations [L] and [R]. *)
Record join_outcome (L R : list Map) (out : GraceJoinOutcome) : Prop := {
  jo_bag : bindings out ≡ₚ JObject <$> sparql_join L R;
  jo_rows : length (bindings out) <= max_rows;
  jo_spill : (spill_bytes out <= max_request_spill_bytes engine)%N;
  jo_build : (build_rows_peak out <= N.of_nat (max_build_rows engine))%N;
}.

Lemma execute_spilled_spec identity base st files rows :
  Forall (row_ok engine keys) rows -> open_stage engine base st ->
  (forall s b, b < N.to_nat (bucket_count engine) ->
     bucket_file engine identity files (side_code s) b (bucket_rows engine keys s b rows)) ->
  let L := side_rows Left rows in let R := side_rows Right rows in
  if length (sparql_join L R) <=? max_rows
  then exists out st', execute_spilled engine identity files max_rows st = (Ok out, st') /\ join_outcome L R out
  else exists st', execute_spilled engine identity files max_rows st = (Err (Execution IntermediateRowLimit), st').
Proof using Hsized.
  intros Hok (Hact & Hcl & Hres) Hfiles L R. pose proof sized_limits as (Hreq & Hprobe & Hbuild & _ & _).
  assert (forall s, Forall (row_ok engine keys) ((fun m => (s, m)) <$> side_rows s rows)) as Hside.
  { intros s. apply Forall_fmap, Forall_forall. intros m (x & -> & [_ Hx]%list_elem_of_filter)%list_elem_of_fmap.
    rewrite Forall_forall in Hok. apply (Hok x Hx). }
  assert (forall s, Forall (spillable engine) (side_rows s rows)) as Hspl.
  { intros s. specialize (Hside s). rewrite Forall_fmap in Hside. eapply Forall_impl; [exact Hside|]. by intros m []. }
  destruct (join_buckets_spec engine max_rows identity Hprobe Hbuild (es_build _ Hsized) keys files L R (es_buckets _ Hsized)
    (Hspl Left) (Hspl Right)) as (joined & peak & n & Hj & Hpk & Heq).
  { intros m [Hm|Hm]%elem_of_app; [specialize (Hside Left)|specialize (Hside Right)]; rewrite Forall_fmap, Forall_forall in Hside;
      apply (Hside m Hm). }
  { intros b Hb. split; [apply (Hfiles Left b Hb)|apply (Hfiles Right b Hb)]. }
  unfold execute_spilled. rewrite (stateful_bind_ok _ _ st (reserved_bytes st) st) by done.
  rewrite <- (Permutation_length Hj). destruct (Nat.leb_spec (length joined) max_rows) as [Hle|Hgt].
  - rewrite (proj2 (bounded_ok _ _ _ (JObject <$> joined))) in Heq by (by rewrite length_fmap). cbn [mbind result_bind] in Heq.
    rewrite (stateful_bind_ok _ _ st (JObject <$> joined, peak, n) st) by (unfold lift; by rewrite Heq). cbn beta iota.
    assert (release (active st) (reserved_bytes st) = Ok base) as Hrel by (apply release_ok; lia).
    eexists _, _. split; [erewrite stateful_bind_ok; [done|]; unfold cleanup; by rewrite Hrel|].
    split; cbn [bindings spill_bytes build_rows_peak]; [by rewrite Hj|by rewrite length_fmap|done|done].
  - rewrite bounded_over in Heq by (by rewrite length_fmap). cbn [mbind result_bind] in Heq. exists st.
    apply stateful_bind_err. unfold lift. by rewrite Heq.
Qed.

Lemma run_stage_fst {A} (body : Spill A) base r st : body (start_stage base) = (r, st) -> (run_stage body base).1 = r.
Proof using Type. intros Hb. unfold run_stage. fold (start_stage base). by rewrite Hb. Qed.

Lemma out_of_core_spec identity base rows : length identity = 32 -> Forall (fun x => valid_object x.2) rows ->
  let L := side_rows Left rows in let R := side_rows Right rows in
  let r := (run_stage (join_out_of_core engine identity (decoded <$> rows) keys max_rows) base).1 in
  (forall out, r = Ok out -> join_outcome L R out) /\
  (Forall (row_ok engine keys) rows -> affordable engine base rows ->
     if length (sparql_join L R) <=? max_rows then exists out, r = Ok out else r = Err (Execution IntermediateRowLimit)).
Proof using Hsized.
  intros Hid Hv L R r.
  assert (Forall (row_ok engine keys) rows -> (exists e, r = Err e /\ ~ affordable engine base rows) \/
    if length (sparql_join L R) <=? max_rows then exists out, r = Ok out /\ join_outcome L R out
    else r = Err (Execution IntermediateRowLimit)) as Hcases.
  { intros Hok. unfold r. destruct (spill_rows_cases identity base rows Hid Hok) as [(st & files & Hs & Ho & Hf)|(e & st & Hs & Hno)].
    - right. pose proof (execute_spilled_spec identity base st files rows Hok Ho Hf) as He. cbv zeta in He. fold L R in He.
      destruct (_ <=? _); [destruct He as (out & st' & He & Hout); exists out; split; [|done]|destruct He as (st' & He)];
        eapply run_stage_fst; unfold join_out_of_core; rewrite (stateful_bind_ok _ _ _ files st Hs); exact He.
    - left. exists e. split; [|done]. eapply run_stage_fst. by apply stateful_bind_err. }
  split.
  - intros out Hr. destruct Hcases as [(e & He & _)|Hc]; [|congruence|].
    + unfold r, run_stage in Hr. destruct (join_out_of_core _ _ _ _ _ _) as [r0 st] eqn:Hj. cbn in Hr. subst r0.
      unfold join_out_of_core in Hj. apply stateful_bind_inv in Hj as (files & st1 & Hs & _). unfold spill_rows in Hs.
      apply stateful_bind_inv in Hs as (ws & st2 & _ & Hs). apply stateful_bind_inv in Hs as ([] & st3 & _ & Hs).
      apply stateful_bind_inv in Hs as ([] & st4 & Hs & _). by eapply spilled_rows_ok.
    + destruct (_ <=? _); [destruct Hc as (out' & Hr' & Ho); by rewrite Hr in Hr'; injection Hr' as <-|congruence].
  - intros Hok Haff. destruct (Hcases Hok) as [(e & _ & Hno)|Hc]; [done|]. destruct (_ <=? _); [|done].
    destruct Hc as (out & Hc & _). by exists out.
Qed.
End whole.

(** ** Sealed files *)

Section sealed.
Context `{Sha256, TermText, RowJson} (engine : GraceJoinEngine).

(** A file read to its end in chunks of at most [n] rows, as the loops do. *)
Inductive drained (n : nat) : VerifiedRecordReader -> list Value -> Prop :=
| drained_end r r' r'' : next_chunk engine n r = Ok (None, r') -> finish r' = Ok r'' -> drained n r []
| drained_more r rows r' rest_rows : next_chunk engine n r = Ok (Some rows, r') -> drained n r' rest_rows ->
    drained n r (rows ++ rest_rows).

(** An intact file can be read to its end. *)
Lemma reads_drained n r ms : 0 < n -> Forall (spillable engine) ms -> reads r ms -> drained n r (JObject <$> ms).
Proof using Type.
  intros Hn. remember (length ms) as k eqn:Hk. revert r ms Hk. induction k as [k IH] using lt_wf_ind. intros r ms -> Hsp Hr.
  destruct (decide (ms = [])) as [->|Hne].
  { destruct (next_chunk_end engine n r Hn Hr) as (r' & Hnext & Hfin). by eapply drained_end. }
  destruct (next_chunk_rows engine n r ms Hn Hne Hsp Hr) as (r' & Hnext & Hr').
  rewrite <- (take_drop n ms), fmap_app. eapply drained_more; [exact Hnext|].
  eapply IH; [|done|by apply Forall_drop|done]. rewrite length_drop. destruct ms; [done|cbn; lia].
Qed.

(** The reader moved over [taken], which also went to its hasher. *)
Definition advanced (r r' : VerifiedRecordReader) (taken : list byte) : Prop :=
  rest r = taken ++ rest r' /\ hashed r' = hashed r ++ taken /\ finished r' = finished r.

Lemma advanced_trans r1 r2 r3 a b : advanced r1 r2 a -> advanced r2 r3 b -> advanced r1 r3 (a ++ b).
Proof using Type. intros (Hr1 & Hh1 & Hf1) (Hr2 & Hh2 & Hf2). unfold advanced. rewrite <- app_assoc, <- Hr2, Hh2, Hh1, <- app_assoc. by rewrite Hf2. Qed.

Lemma read_exact_ok n l a b : read_exact n l = Ok (a, b) -> l = a ++ b /\ length a = n.
Proof using Type.
  unfold read_exact. destruct (Nat.ltb_spec (length l) n) as [|Hn]; [done|]. intros [= <- <-].
  rewrite take_drop, length_take. split; [done|lia].
Qed.

Lemma read_record_advances r v r' : read_record engine r = Ok (v, r') -> exists taken, advanced r r' taken.
Proof using Type.
  unfold read_record. intros Hr. inv_ok Hr. destruct a as [lb tail]. apply read_exact_ok in Ha as [He _]. do 2 inv_ok Hr.
  destruct a0 as [payload tail']. apply read_exact_ok in Ha0 as [He' _]. do 4 inv_ok Hr. injection Hr as <- <-.
  exists (lb ++ payload). unfold advanced. cbn [rest hashed finished]. by rewrite He, He', <- app_assoc.
Qed.

Lemma read_rows_advances n : forall r vs r', read_rows engine n r = Ok (vs, r') -> exists taken, advanced r r' taken.
Proof using Type.
  assert (forall r, exists taken, advanced r r taken) as Hrefl by (intros r; exists []; unfold advanced; by rewrite app_nil_r).
  induction n as [|n IH]; intros r vs r' Hr; cbn [read_rows] in Hr; [injection Hr as <- <-; apply Hrefl|].
  destruct (rows_remaining r =? 0)%N; [injection Hr as <- <-; apply Hrefl|].
  inv_ok Hr. destruct a as [v r1]. apply read_record_advances in Ha as [t1 Ht1]. inv_ok Hr. destruct a as [vs' r2].
  apply IH in Ha as [t2 Ht2]. injection Hr as <- <-. exists (t1 ++ t2). by eapply advanced_trans.
Qed.

Lemma verify_trailer_sealed r r' : finished r = false -> verify_trailer r = Ok r' -> rest r = sha256 (hashed r).
Proof using Type.
  intros Hf Hv. unfold verify_trailer in Hv. rewrite Hf in Hv. inv_ok Hv. destruct a as [d tail].
  apply read_exact_ok in Ha as [He _]. do 2 inv_ok Hv. clear Hv.
  match goal with Hd : fail_if _ _ = Ok _ |- _ => apply fail_if_ok in Hd end. bool_prop. subst. by rewrite He, app_nil_r.
Qed.

Lemma drained_sealed n r rows : drained n r rows -> finished r = false ->
  exists taken, rest r = taken ++ sha256 (hashed r ++ taken).
Proof using Type.
  induction 1 as [r r' r'' Hn Hfin|r vs r' vs' Hn _ IH]; intros Hf; unfold next_chunk in Hn; inv_ok Hn;
    destruct (rows_remaining r =? 0)%N; inv_ok Hn; try done.
  - exists []. rewrite app_nil_r. by eapply verify_trailer_sealed.
  - destruct a0. done.
  - destruct a0 as [vs0 r0]. injection Hn as -> ->. apply read_rows_advances in Ha0 as (taken & Hr & Hh & Hf').
    destruct IH as [taken' Ht]; [congruence|]. exists (taken ++ taken'). by rewrite Hr, Ht, Hh, <- !app_assoc.
Qed.
End sealed.

(** spill files are sealed.  A spill file that is read to its end without
    an error carries the header of this very join, side and bucket and ends in
    the digest of everything before it; so a file with the trailer that was
    written is byte for byte the file that was written, or what was written
    before the trailer collides with what is read before it:
    damage to the records, a truncation or a file of another join never turns
    into joined rows. *)
Theorem spill_files_are_sealed `{Sha256, TermText, RowJson} engine identity file r n rows :
  open_reader engine file identity = Ok r -> drained engine n r rows ->
  take 49 (content file) = spill_header identity (f_side file) (f_bucket file) (bucket_count engine) /\
  N.of_nat (length (content file)) = f_bytes file /\
  exists body, content file = body ++ sha256 body /\
    forall original, drop (length body) (content file) = sha256 original ->
      content file = original ++ sha256 original \/ collide body original.
Proof.
  intros Ho Hd. unfold open_reader in Ho. inv_ok Ho. inv_ok Ho. destruct a0 as [header tail]. do 2 inv_ok Ho. subst r.
  apply fail_if_ok in Ha, Ha1. bool_prop. apply read_exact_ok in Ha0 as [Hc Hlen]. change (N.to_nat FILE_HEADER_BYTES) with 49 in Hlen.
  destruct (drained_sealed engine n _ rows Hd eq_refl) as [taken Ht]. cbn [rest hashed] in Ht.
  split; [by rewrite Hc, take_app_length'|]. split; [done|].
  exists (header ++ taken). assert (content file = (header ++ taken) ++ sha256 (header ++ taken)) as Hbody by (by rewrite Hc, Ht, app_assoc).
  split; [done|]. intros original. rewrite Hbody, drop_app_length. intros Heq.
  destruct (decide (header ++ taken = original)) as [<-|Hne]; [by left|by right].
Qed.

(** ** The claims on the join *)

Definition two_sided (L R : list Map) : list (GraceJoinSide * Map) := (pair Left <$> L) ++ (pair Right <$> R).

Lemma side_rows_two_sided L R : side_rows Left (two_sided L R) = L /\ side_rows Right (two_sided L R) = R.
Proof.
  assert (forall (s s' : GraceJoinSide) (l : list Map), snd <$> filter (fun x => x.1 = s) (pair s' <$> l) = if decide (s' = s) then l else []) as Hf.
  { intros s s' l. induction l as [|m l IH]; [by destruct (decide _)|]. cbn [fmap list_fmap]. rewrite filter_cons. cbn [fst].
    destruct (decide (s' = s)); cbn [fmap list_fmap snd]; by rewrite IH. }
  unfold side_rows, two_sided. rewrite !filter_app, !fmap_app, !Hf. cbn. by rewrite app_nil_r.
Qed.

Lemma two_sided_decoded L R :
  ((fun row => Ok (Left, row)) <$> (JObject <$> L)) ++ ((fun row => Ok (Right, row)) <$> (JObject <$> R))
  = decoded <$> two_sided L R.
Proof. unfold two_sided. rewrite fmap_app, <- !list_fmap_compose. done. Qed.

Lemma identity_digest_length `{Sha256} i d : identity_digest i = Ok d -> length d = 32.
Proof. unfold identity_digest. intros Hd. do 5 inv_ok Hd. injection Hd as <-. apply sha256_length. Qed.

(** C5: the Grace join is the SPARQL join.  Whether the build side fits in
    memory or both relations are spilled into hash buckets and joined chunk by
    chunk, an outcome holds exactly the bag of the SPARQL join, and never more
    rows, spilled bytes or build rows in memory than the limits allow.  The
    streaming entry point does the same for rows of both sides in any order of
    arrival.  Conversely, when the preconditions hold, the rows fit their
    records and the budgets cover the spill, the join succeeds exactly when the
    result has at most [max_rows] rows. *)
Theorem grace_join_exact `{Sha256, TermText, RowJson} engine identity L R arrival keys max_rows active_bytes :
  engine_sized engine -> Forall valid_object L -> Forall valid_object R -> Forall (fun x => valid_object x.2) arrival ->
  (forall out, (join engine identity (JObject <$> L) (JObject <$> R) keys max_rows active_bytes).1 = Ok out ->
     join_outcome engine max_rows L R out) /\
  (forall out, (join_stream engine identity (decoded <$> arrival) keys max_rows active_bytes).1 = Ok out ->
     join_outcome engine max_rows (side_rows Left arrival) (side_rows Right arrival) out) /\
  (is_ok (join_preconditions identity keys max_rows) = true -> Forall (row_ok engine keys) (two_sided L R) ->
   affordable engine active_bytes (two_sided L R) ->
     if length (sparql_join L R) <=? max_rows
     then exists out, (join engine identity (JObject <$> L) (JObject <$> R) keys max_rows active_bytes).1 = Ok out
     else (join engine identity (JObject <$> L) (JObject <$> R) keys max_rows active_bytes).1 = Err (Execution IntermediateRowLimit)).
Proof.
  intros Hsz HL HR Harr. unfold join, join_stream. destruct (join_preconditions identity keys max_rows) as [d|e] eqn:Hpre; [|by cbn].
  assert (length d = 32) as Hd.
  { unfold join_preconditions in Hpre. do 2 inv_ok Hpre. injection Hpre as <-. by eapply identity_digest_length. }
  split_and!; [| |intros _]; rewrite ?two_sided_decoded, ?length_fmap.
  2: { apply (out_of_core_spec engine Hsz keys max_rows d active_bytes arrival Hd Harr). }
  all: destruct (side_rows_two_sided L R) as [Hl Hr].
  all: assert (Forall (fun x => valid_object x.2) (two_sided L R)) as Hv by (apply Forall_app; split; by apply Forall_fmap).
  all: destruct (out_of_core_spec engine Hsz keys max_rows d active_bytes (two_sided L R) Hd Hv) as [Hs Ht]; cbv zeta in Hs, Ht;
    rewrite Hl, Hr in *.
  all: destruct (Nat.leb_spec (length R) (in_memory_build_rows engine)) as [Hmem|_]; [|done]; cbn [fst].
  all: pose proof (sized_limits engine Hsz) as (_ & _ & _ & _ & Hth); pose proof (es_build _ Hsz) as Hb.
  all: rewrite (proj2 (u64_of_len_some _ (N.of_nat (length R)))) by (split; [done|lia]); cbn [ok_or mbind result_bind].
  all: rewrite inner_join_sparql_json_spec by done; unfold bounded; rewrite length_fmap.
  all: destruct (Nat.leb_spec (length (sparql_join L R)) max_rows) as [Hle|Hgt]; cbn [map_err mbind result_bind]; try done.
  - intros out [= <-]. split; cbn [bindings spill_bytes build_rows_peak]; [done|by rewrite length_fmap|lia|lia].
  - intros _ _. by eexists.
Qed.

(** ** A join of two small relations *)

(** Rows of a fixed table, encoded as their position. *)
Definition table_encode (table : list Map) (v : Value) : option (list byte) :=
  '(i, _) ← list_find (fun m => JObject m = v) table;
  if i <? 256 then Some [byte_of_N (N.of_nat i)] else None.
Definition table_decode (table : list Map) (bytes : list byte) : option Value :=
  match bytes with [b] => JObject <$> table !! N.to_nat (Byte.to_N b) | _ => None end.

Lemma table_roundtrip table m bytes :
  valid_object m -> table_encode table (JObject m) = Some bytes -> table_decode table bytes = Some (JObject m).
Proof.
  unfold table_encode. intros _ He. destruct (list_find _ table) as [[i x]|] eqn:Hf; [|done]. cbn [mbind option_bind] in He.
  destruct (Nat.ltb_spec i 256) as [Hi|]; [|done]. injection He as <-. apply list_find_Some in Hf as (Hx & [= ->] & _).
  cbn. rewrite to_N_byte_of_N, N.mod_small, Nat2N.id, Hx by lia. done.
Qed.

Definition table_json (table : list Map) : RowJson :=
  {| to_vec := table_encode table; from_slice := table_decode table; row_roundtrip := table_roundtrip table |}.

Definition sample_left : list Map := [{["x" := uri "a"; "l" := uri "1"]}; {["x" := uri "b"]}].
Definition sample_right : list Map := [{["x" := uri "b"]}; {["x" := uri "a"]}; {["x" := uri "a"; "r" := uri "2"]}].
Definition sample_json : RowJson := table_json (sample_left ++ sample_right).

Definition sample_engine : GraceJoinEngine :=
  {| max_total_spill_bytes := 4096; max_request_spill_bytes := 2048; bucket_count := 2; max_open_files := 4;
     max_build_rows := 2; max_probe_rows := 1; max_row_bytes := 9; in_memory_build_rows := 1 |}.

Definition sample_digest : string := "1111111111111111111111111111111111111111111111111111111111111111".
Definition sample_identity : GraceJoinIdentity :=
  {| tenant_id := []; dataset_id := []; snapshot_id := []; query_sha256 := sample_digest; plan_sha256 := sample_digest;
     stage := 0; partition := 0; partition_count := 2; left_input_sha256 := sample_digest; right_input_sha256 := sample_digest |}.

Lemma sample_sized : engine_sized sample_engine.
Proof. by split; vm_compute. Qed.

Lemma grace_join_exact_witness :
  exists out, (join (H := padded_digest) (H0 := field_text) (H1 := sample_json) sample_engine sample_identity
                 (JObject <$> sample_left) (JObject <$> sample_right) ["x"] 5 100).1 = Ok out /\
    bindings out ≡ₚ JObject <$> sparql_join sample_left sample_right /\ (spill_bytes out <= 2048)%N.
Proof.
  assert (Forall valid_object sample_left) as HL by solve_valid. assert (Forall valid_object sample_right) as HR by solve_valid.
  assert (is_ok (join (H := padded_digest) (H0 := field_text) (H1 := sample_json) sample_engine sample_identity
    (JObject <$> sample_left) (JObject <$> sample_right) ["x"] 5 100).1 = true) as Hok by (vm_compute; reflexivity).
  destruct (grace_join_exact (H := padded_digest) (H0 := field_text) (H1 := sample_json) sample_engine sample_identity
    sample_left sample_right [] ["x"] 5 100 sample_sized HL HR (Forall_nil_2 _)) as (Hs & _ & _).
  destruct (join _ _ _ _ _ _ _) as [[out|e] a]; [|discriminate]. exists out. split; [reflexivity|].
  destruct (Hs out eq_refl) as [Hb _ Hsp _]. split; [exact Hb|exact Hsp].
Defined.

(** The spill file of one row. *)
Definition sample_spill : SpillFile :=
  let body := spill_header (replicate 32 x00) 0 1 2 ++ frame (H1 := sample_json) {["x" := uri "b"]} in
  {| f_side := 0; f_bucket := 1; f_rows := 1; f_bytes := 86; content := body ++ padded_sha256 body |}.

Lemma spill_files_are_sealed_witness :
  exists r rows, open_reader sample_engine sample_spill (replicate 32 x00) = Ok r /\
    drained (H := padded_digest) (H1 := sample_json) sample_engine 7 r rows /\
    take 49 (content sample_spill) = spill_header (replicate 32 x00) 0 1 2.
Proof.
  destruct (open_reader sample_engine sample_spill (replicate 32 x00)) as [r|e] eqn:Ho; [|vm_compute in Ho; discriminate].
  assert (drained (H := padded_digest) (H1 := sample_json) sample_engine 7 r (JObject <$> [{["x" := uri "b"]}])) as Hd.
  { apply reads_drained; [lia| |].
    - constructor; [|constructor]. split; [solve_valid|by eexists|vm_compute; lia|vm_compute; lia|by vm_compute].
    - vm_compute in Ho. injection Ho as <-. split; vm_compute; reflexivity. }
  exists r, (JObject <$> [{["x" := uri "b"]}]). split; [reflexivity|]. split; [exact Hd|].
  exact (proj1 (spill_files_are_sealed (H := padded_digest) (H0 := field_text) (H1 := sample_json) sample_engine
    (replicate 32 x00) sample_spill r 7 _ Ho Hd)).
Defined.
