(* ===== verification/Algebra.v ===== *)
(** * Native algebra kernels and the complete-partition barrier

    Models src/crates/ngkg-query-executor/src/distributed_algebra.rs: the bag
    kernels (union, left join, minus, distinct), group ownership, the global
    slice, the ordered k-way merge, the dispatcher of native tasks, and the
    barrier that accepts a stage only when every partition has reported. *)

From Stdlib Require Import Strings.Byte Strings.String.
From S2P Require Import Prelude Words Ordered Digest Terms Bindings Planner.
Import Sparql.

(** ** Helpers of the module *)

Definition validate_row (row : Value) : result ExecutionError unit :=
  object ← ok_or (as_object row) InvalidSparqlBinding;
  try_fold (fun _ b => _ ← parse_sparql_term b.2; Ok tt) tt (sorted_bindings object).

Definition validate_rows (rows : list Value) : result ExecutionError unit :=
  try_fold (fun _ row => validate_row row) tt rows.

Definition compatible (left right : Map) : bool :=
  forallb (fun b => match right !! b.1 with
                    | Some right_term => bool_decide (right_term = b.2)
                    | None => true
                    end)
    (sorted_bindings left).

Definition merge (left right : Map) : result ExecutionError Map :=
  try_fold (merge_binding (fun v => IncompatibleBinding (stable_variable_id v)))
    left (sorted_bindings right).

Definition reserve_row (output : list Value) (max_rows : nat) : result ExecutionError unit :=
  fail_if (max_rows <=? length output) IntermediateRowLimit.

Definition append_component (output bytes : list byte) : result ExecutionError (list byte) :=
  c ← ok_or (component bytes) IntermediateRowLimit; Ok (output ++ c).

Definition hash_component (hash bytes : list byte) : result ExecutionError (list byte) :=
  c ← ok_or (component bytes) IntermediateRowLimit; Ok (hash ++ c).

Section canonical.
Context `{TermText}.

Definition canonical_term (term : Value) : result ExecutionError (list byte) :=
  _ ← parse_sparql_term term; Ok (as_bytes (to_string term)).

(** The keys are sorted, then looked up again; the lookup cannot miss. *)
Definition canonical_binding_key (row : Value) : result ExecutionError (list byte) :=
  object ← ok_or (as_object row) InvalidSparqlBinding;
  try_fold (fun encoded variable =>
      encoded ← append_component encoded (as_bytes variable);
      term ← canonical_term (default JNull (object !! variable));
      append_component encoded term)
    [] (sorted_elements (dom object : gset string)).
End canonical.

(** ** Bag kernels *)

Definition union_sparql_json (left right : list Value) (max_rows : nat) :
    result ExecutionError (list Value) :=
  _ ← validate_rows left;
  _ ← validate_rows right;
  _ ← ok_or (total ← usize_checked_add (length left) (length right);
             if total <=? max_rows then Some total else None)
        IntermediateRowLimit;
  Ok (left ++ right).

(** One right row in the scan for one left row: the output so far and the
    [matched] flag. *)
Definition left_join_step (left_object : Map) (max_rows : nat) (state : list Value * bool)
    (right_row : Value) : result ExecutionError (list Value * bool) :=
  let (output, matched) := state in
  right_object ← ok_or (as_object right_row) InvalidSparqlBinding;
  if negb (compatible left_object right_object) then Ok (output, matched)
  else
    _ ← reserve_row output max_rows;
    merged ← merge left_object right_object;
    Ok (output ++ [JObject merged], true).

Definition left_join_sparql_json (left right : list Value) (max_rows : nat) :
    result ExecutionError (list Value) :=
  _ ← validate_rows left;
  _ ← validate_rows right;
  try_fold (fun output left_row =>
      left_object ← ok_or (as_object left_row) InvalidSparqlBinding;
      '(output, matched) ← try_fold (left_join_step left_object max_rows) (output, false) right;
      if negb matched : bool then
        _ ← reserve_row output max_rows;
        Ok (output ++ [left_row])
      else Ok output)
    [] left.

(** Whether some right row is compatible and shares a variable. *)
Definition minus_step (left_object : Map) (excluded : bool) (right_row : Value) :
    result ExecutionError bool :=
  if excluded then Ok true
  else
    right_object ← ok_or (as_object right_row) InvalidSparqlBinding;
    let shared := existsb (fun key => bool_decide (is_Some (right_object !! key)))
                    (sorted_elements (dom left_object : gset string)) in
    Ok (shared && compatible left_object right_object).

Definition minus_excluded (left_object : Map) (right : list Value) : result ExecutionError bool :=
  try_fold (minus_step left_object) false right.

Definition minus_sparql_json (left right : list Value) (max_rows : nat) :
    result ExecutionError (list Value) :=
  _ ← validate_rows left;
  _ ← validate_rows right;
  try_fold (fun output left_row =>
      left_object ← ok_or (as_object left_row) InvalidSparqlBinding;
      excluded ← minus_excluded left_object right;
      if negb excluded : bool then
        _ ← reserve_row output max_rows;
        Ok (output ++ [left_row])
      else Ok output)
    [] left.

Definition distinct_step `{TermText} (max_rows : nat) (state : gset (list byte) * list Value)
    (row : Value) : result ExecutionError (gset (list byte) * list Value) :=
  let (seen, output) := state in
  key ← canonical_binding_key row;
  if decide (key ∈ seen) then Ok (seen, output)
  else
    _ ← reserve_row output max_rows;
    Ok ({[key]} ∪ seen, output ++ [row]).

Definition distinct_sparql_json `{TermText} (rows : list Value) (max_rows : nat) :
    result ExecutionError (list Value) :=
  _ ← validate_rows rows;
  state ← try_fold (distinct_step max_rows) (∅, []) rows;
  Ok state.2.

(** ** Group ownership *)

Definition group_domain : list byte := as_bytes "ngkg-sparql-group-owner-v1" ++ [x00].
Arguments group_domain : simpl never.

(** The bytes hashed for the group of one row. *)
Definition group_preimage `{TermText} (object : Map) (group_variables : list string) :
    result ExecutionError (list byte) :=
  try_fold (fun hash variable =>
      hash ← hash_component hash (as_bytes variable);
      match object !! variable with
      | Some term => bytes ← canonical_term term; hash_component hash bytes
      | None => hash_component hash (as_bytes "unbound")
      end)
    group_domain group_variables.

Definition group_owner `{TermText, Sha256} (group_variables : list string) (partition_count : N)
    (row : Value) : result ExecutionError N :=
  object ← ok_or (as_object row) InvalidSparqlBinding;
  hash ← group_preimage object group_variables;
  Ok (digest_bucket hash partition_count).

Definition group_owned_partitions `{TermText, Sha256} (rows : list Value)
    (group_variables : list string) (partition_count : N) (max_rows : nat) :
    result ExecutionError (list (list Value)) :=
  _ ← validate_rows rows;
  _ ← fail_if ((partition_count <? 2)%N || existsb is_empty_string group_variables)
        InvalidPartitionCount;
  _ ← fail_if (max_rows <? length rows) IntermediateRowLimit;
  try_fold (fun partitions row =>
      owner ← group_owner group_variables partition_count row;
      Ok (alter (fun p => p ++ [row]) (N.to_nat owner) partitions))
    (replicate (N.to_nat partition_count) []) rows.

(** ** Global slice *)

(** The loop over the flattened partitions, with its [continue] and [break]. *)
Fixpoint slice_loop (offset wanted skipped : nat) (output rows : list Value) : list Value :=
  match rows with
  | [] => output
  | row :: rows =>
      if skipped <? offset then slice_loop offset wanted (S skipped) output rows
      else if length output =? wanted then output
      else slice_loop offset wanted skipped (output ++ [row]) rows
  end.

Definition global_slice_sparql_json (ordered_partitions : list (list Value)) (offset : nat)
    (length : option nat) (max_rows : nat) : result ExecutionError (list Value) :=
  _ ← try_fold (fun _ partition => validate_rows partition) tt ordered_partitions;
  let wanted := Nat.min (default max_rows length) max_rows in
  Ok (slice_loop offset wanted 0 [] (concat ordered_partitions)).

(** ** Ordered k-way merge *)
Section ordered_merge.
Context {A : Type} (compare : A -> A -> comparison).

(** The row under the cursor of one partition.  Partition and cursor indices
    are in range whenever the code indexes with them. *)
Definition cursor_row (partitions : list (list A)) (cursors : list nat) (i : nat) : option A :=
  partition ← partitions !! i; cursor ← cursors !! i; partition !! cursor.

(** The [for] loop that chooses the next partition. *)
Definition merge_winner (partitions : list (list A)) (cursors : list nat) : option nat :=
  foldl (fun winner partition =>
      match cursor_row partitions cursors partition with
      | None => winner
      | Some candidate =>
          match winner with
          | None => Some partition
          | Some current =>
              match cursor_row partitions cursors current with
              | Some current_value =>
                  if decide (compare candidate current_value = Lt) then Some partition
                  else Some current
              | None => Some current
              end
          end
      end)
    None (seq 0 (length cursors)).

(** [while output.len() < total], [remaining] being [total - output.len()]. *)
Fixpoint merge_loop (partitions : list (list A)) (remaining : nat) (cursors : list nat)
    (output : list A) : result ExecutionError (list A) :=
  match remaining with
  | O => Ok output
  | S remaining =>
      winner ← ok_or (merge_winner partitions cursors) InvalidSparqlBinding;
      row ← ok_or (cursor_row partitions cursors winner) InvalidSparqlBinding;
      merge_loop partitions remaining (alter S winner cursors) (output ++ [row])
  end.
End ordered_merge.

Definition merge_ordered_partitions_by (partitions : list (list Value)) (max_rows : nat)
    (compare : Value -> Value -> comparison) : result ExecutionError (list Value) :=
  _ ← try_fold (fun _ partition =>
        _ ← validate_rows partition;
        fail_if (negb (windows2_all (fun x y => bool_decide (compare x y <> Gt)) partition))
          InvalidSparqlBinding)
      tt partitions;
  total ← try_fold (fun total partition =>
      ok_or (total ← usize_checked_add total (length partition);
             if total <=? max_rows then Some total else None)
        IntermediateRowLimit)
    0 partitions;
  merge_loop compare partitions total (replicate (length partitions) 0) [].

(** ** The complete-partition barrier *)

Record AlgebraPartitionIdentity := {
  query_sha256 : string;
  plan_sha256 : string;
  identity_stage_id : string;
  stage_algebra_sha256 : string;
  identity_partition : N;
  identity_partition_count : N;
}.

Record AlgebraPartitionResult := {
  identity : AlgebraPartitionIdentity;
  head : list string;
  rows : list Value;
  input_sha256 : string;
  output_sha256 : string;
  complete : bool;
  worker_id : string;
}.

Definition validate_identity (identity : AlgebraPartitionIdentity) : result ExecutionError unit :=
  fail_if
    (negb (lower_hex_sha256 (query_sha256 identity))
     || negb (lower_hex_sha256 (plan_sha256 identity))
     || negb (lower_hex_sha256 (stage_algebra_sha256 identity))
     || is_empty_string (identity_stage_id identity)
     || (identity_partition_count identity <? 2)%N
     || (identity_partition_count identity <=? identity_partition identity)%N)
    (InvalidArrowMetadata "algebra partition identity is invalid").

Definition relation_domain : list byte := as_bytes "ngkg-distributed-algebra-relation-v1" ++ [x00].
Arguments relation_domain : simpl never.

Section barrier.
Context `{TermText, Sha256}.

Definition relation_preimage (head : list string) (rows : list Value) :
    result ExecutionError (list byte) :=
  hash ← try_fold (fun hash variable => hash_component hash (as_bytes variable)) relation_domain head;
  try_fold (fun hash row => key ← canonical_binding_key row; hash_component hash key) hash rows.

Definition relation_sha256 (head : list string) (rows : list Value) : result ExecutionError string :=
  _ ← validate_rows rows;
  hash ← relation_preimage head rows;
  Ok (hex_encode (sha256 hash)).

(** The checks of one partition; the digest is computed last, its error is
    the error of the barrier. *)
Definition admit_partition (first : AlgebraPartitionResult) (max_rows : nat) (output : list Value)
    (entry : nat * AlgebraPartitionResult) : result ExecutionError (list Value) :=
  let (partition, result) := entry in
  _ ← validate_identity (identity result);
  let incomplete := InvalidArrowMetadata "algebra partition set is incomplete or checksum-inconsistent" in
  _ ← fail_if
        (negb (complete result)
         || is_empty_string (worker_id result)
         || negb (bool_decide (query_sha256 (identity result) = query_sha256 (identity first)))
         || negb (bool_decide (plan_sha256 (identity result) = plan_sha256 (identity first)))
         || negb (bool_decide (identity_stage_id (identity result) = identity_stage_id (identity first)))
         || negb (bool_decide (stage_algebra_sha256 (identity result) = stage_algebra_sha256 (identity first)))
         || negb (identity_partition (identity result) =? N.of_nat partition)%N
         || negb (identity_partition_count (identity result) =? identity_partition_count (identity first))%N
         || negb (bool_decide (head result = head first))
         || negb (lower_hex_sha256 (input_sha256 result))
         || negb (lower_hex_sha256 (output_sha256 result)))
        incomplete;
  digest ← relation_sha256 (head result) (rows result);
  _ ← fail_if (negb (bool_decide (digest = output_sha256 result))) incomplete;
  _ ← ok_or (total ← usize_checked_add (length output) (length (rows result));
             if total <=? max_rows then Some total else None)
        IntermediateRowLimit;
  Ok (output ++ rows result).

Definition complete_algebra_partition_set (results : list AlgebraPartitionResult) (max_rows : nat) :
    result ExecutionError (list Value) :=
  first ← ok_or (List.hd_error results) InvalidPartitionCount;
  _ ← validate_identity (identity first);
  _ ← fail_if (negb (N.of_nat (length results) =? identity_partition_count (identity first))%N)
        InvalidPartitionCount;
  let results := sort_by_key (fun result => identity_partition (identity result)) results in
  try_fold (admit_partition first max_rows) [] (enumerate results).
End barrier.

(** ** Native tasks *)

Record NativeAlgebraTask := {
  task_operator : DistributedAlgebraOperator;
  left_rows : list Value;
  right_rows : list Value;
  projection : list string;
  task_offset : nat;
  task_length : option nat;
  task_max_output_rows : nat;
}.

Definition execute_native_algebra_task `{TermText} (task : NativeAlgebraTask) :
    result ExecutionError (list Value) :=
  let max := task_max_output_rows task in
  _ ← fail_if (max =? 0) IntermediateRowLimit;
  match task_operator task with
  | Join => inner_join_sparql_json (left_rows task) (right_rows task) max
  | Union => union_sparql_json (left_rows task) (right_rows task) max
  | Minus => minus_sparql_json (left_rows task) (right_rows task) max
  | Project =>
      rows ← project_sparql_json (left_rows task) (projection task);
      if max <? length rows then Err IntermediateRowLimit else Ok rows
  | Distinct => distinct_sparql_json (left_rows task) max
  | Reduced | Values =>
      _ ← validate_rows (left_rows task);
      if max <? length (left_rows task) then Err IntermediateRowLimit else Ok (left_rows task)
  | Slice => global_slice_sparql_json [left_rows task] (task_offset task) (task_length task) max
  | _ => Err UnsafeNativeAlgebraOperator
  end.

(** ** Validation and encoding facts *)

Lemma validate_row_ok (m : Map) : validate_row (JObject m) = Ok tt <-> valid_object m.
Proof.
  unfold validate_row. cbn. unfold valid_object, map_Forall. setoid_rewrite <- elem_of_sorted_bindings.
  induction (sorted_bindings m) as [|[k v] bs IH]; cbn; [set_solver|].
  unfold valid_term. destruct (parse_sparql_term v) as [p|e] eqn:Hp; cbn.
  - rewrite IH. split.
    + intros Hb k' v' [[= -> ->]|Hin]%elem_of_cons; [by exists p|by eapply Hb].
    + intros Hb k' v' Hin. eapply Hb. by right.
  - split; [done|]. intros Hb. destruct (Hb k v) as [q Hq]; [left|congruence].
Qed.

Lemma validate_rows_ok (rows : list Map) :
  Forall valid_object rows -> validate_rows (JObject <$> rows) = Ok tt.
Proof.
  unfold validate_rows. induction 1 as [|m rows Hm _ IH]; [done|]. cbn [fmap list_fmap try_fold].
  by rewrite (proj2 (validate_row_ok m) Hm).
Qed.

(** The converse: a relation that validates is a list of solution mappings. *)
Lemma validate_rows_inv (rows : list Value) :
  validate_rows rows = Ok tt -> exists ms, rows = JObject <$> ms /\ Forall valid_object ms.
Proof.
  unfold validate_rows. induction rows as [|row rows IH]; cbn [try_fold]; intros Hv; [by exists []|].
  inv_ok Hv. destruct a. destruct (IH Hv) as (ms & -> & Hms).
  destruct row as [| | | | |m]; try done. exists (m :: ms). split; [done|].
  constructor; [|done]. by apply validate_row_ok.
Qed.

Lemma compatible_agree l r : compatible l r = true <-> map_agree l r.
Proof.
  unfold compatible. rewrite map_agree_spec, forallb_forall. split.
  - intros Hf k x y Hx Hy. specialize (Hf (k, x)). cbn in Hf. rewrite Hy in Hf.
    symmetry. eapply bool_decide_eq_true_1, Hf. by apply list_elem_of_In, elem_of_sorted_bindings.
  - intros Hag [k x] Hk%list_elem_of_In%elem_of_sorted_bindings. cbn.
    destruct (r !! k) eqn:Hr; [|done]. apply bool_decide_eq_true. symmetry. eauto.
Qed.

Lemma merge_agree l r : map_agree l r -> merge l r = Ok (l ∪ r).
Proof. apply merge_bindings_agree. Qed.

(** Pushing one row after [reserve_row]. *)
Lemma reserve_push max (out : list Value) row :
  length out <= max ->
  (_ ← reserve_row out max; Ok (out ++ [row])) = bounded max IntermediateRowLimit (out ++ [row]).
Proof.
  intros Hout. rewrite <- bounded_push by done. unfold reserve_row.
  by destruct (max <=? length out).
Qed.

Section canonical_facts.
Context `{TermText}.

Lemma canonical_term_inj v w b :
  canonical_term v = Ok b -> canonical_term w = Ok b -> v = w.
Proof.
  unfold canonical_term. intros Hv Hw. inv_ok Hv. inv_ok Hw. inv_ok Hv. inv_ok Hw. subst b.
  eapply to_string_inj; [by eexists|by eexists|]. symmetry. by apply as_bytes_inj.
Qed.

Lemma append_component_ok out b out' :
  append_component out b = Ok out' <-> exists c, component b = Some c /\ out' = out ++ c.
Proof.
  unfold append_component. rewrite result_bind_ok. setoid_rewrite ok_or_ok. naive_solver.
Qed.

(** One binding of the key loop: its variable and term, length-prefixed. *)
Definition key_step (object : Map) (encoded : list byte) (variable : string) :
    result ExecutionError (list byte) :=
  encoded ← append_component encoded (as_bytes variable);
  term ← canonical_term (default JNull (object !! variable));
  append_component encoded term.

Lemma key_step_ok m enc v enc' :
  key_step m enc v = Ok enc' ->
  exists cv t ct, component (as_bytes v) = Some cv /\ canonical_term (default JNull (m !! v)) = Ok t /\
    component t = Some ct /\ enc' = enc ++ cv ++ ct.
Proof.
  unfold key_step. intros Hk. do 2 inv_ok Hk. apply append_component_ok in Ha as (cv & ? & ->), Hk as (ct & ? & ->).
  exists cv, a0, ct. split_and!; [done..|]. by rewrite (assoc (++)).
Qed.

Lemma key_fold_prefix m vs enc enc' :
  try_fold (key_step m) enc vs = Ok enc' -> exists tail, enc' = enc ++ tail.
Proof.
  revert enc; induction vs as [|v vs IH]; cbn; intros enc Hk.
  - injection Hk as <-. exists []. by rewrite app_nil_r.
  - inv_ok Hk. apply key_step_ok in Ha as (cv & t & ct & _ & _ & _ & ->).
    apply IH in Hk as (tail & ->). exists ((cv ++ ct) ++ tail). by rewrite !(assoc (++)).
Qed.

(** The key bytes determine the variables and their terms. *)
Lemma key_fold_inj m1 m2 vs ws e1 e2 out :
  length e1 = length e2 ->
  try_fold (key_step m1) e1 vs = Ok out -> try_fold (key_step m2) e2 ws = Ok out ->
  vs = ws /\ forall v, v ∈ vs -> default JNull (m1 !! v) = default JNull (m2 !! v).
Proof.
  revert ws e1 e2; induction vs as [|v vs IH]; intros [|w ws] e1 e2 Hlen H1 H2; cbn in H1, H2.
  - split; [done|set_solver].
  - inv_ok H2. injection H1 as ->. apply key_step_ok in Ha as (cv & t & ct & Hcv & _ & _ & ->).
    apply key_fold_prefix in H2 as (tail & ->). apply component_some in Hcv as [_ ->].
    rewrite !length_app, length_to_be_bytes in Hlen. lia.
  - inv_ok H1. injection H2 as ->. apply key_step_ok in Ha as (cv & t & ct & Hcv & _ & _ & ->).
    apply key_fold_prefix in H1 as (tail & ->). apply component_some in Hcv as [_ ->].
    rewrite !length_app, length_to_be_bytes in Hlen. lia.
  - inv_ok H1. inv_ok H2.
    apply key_step_ok in Ha as (cv & t & ct & Hcv & Ht & Hct & ->).
    apply key_step_ok in Ha0 as (cw & t' & ct' & Hcw & Ht' & Hct' & ->).
    pose proof (key_fold_prefix _ _ _ _ H1) as (tl1 & Ho1).
    pose proof (key_fold_prefix _ _ _ _ H2) as (tl2 & Ho2). rewrite Ho2 in Ho1.
    rewrite <- !(assoc (++)) in Ho1. apply app_inj_len in Ho1 as [_ Ho1]; [|done].
    destruct (component_app_inj _ _ _ _ _ _ Hcw Hcv Ho1) as [Hvw Ho1'].
    destruct (component_app_inj _ _ _ _ _ _ Hct' Hct Ho1') as [Htt _].
    apply as_bytes_inj in Hvw. subst w t'.
    assert (cv = cw) as <- by congruence. assert (ct = ct') as <- by congruence.
    destruct (IH ws (e1 ++ cv ++ ct) (e2 ++ cv ++ ct)) as [-> Hin]; [rewrite !length_app; lia|done..|].
    split; [done|]. intros u [->|Hu]%elem_of_cons; [|auto]. by eapply canonical_term_inj.
Qed.

Lemma canonical_binding_key_inj (m1 m2 : Map) key :
  canonical_binding_key (JObject m1) = Ok key -> canonical_binding_key (JObject m2) = Ok key -> m1 = m2.
Proof.
  intros H1 H2.
  assert (sorted_elements (dom m1 : gset string) = sorted_elements (dom m2) /\
    forall v, v ∈ sorted_elements (dom m1 : gset string) ->
      default JNull (m1 !! v) = default JNull (m2 !! v)) as [Hd Hv]
    by exact (key_fold_inj m1 m2 _ _ [] [] key eq_refl H1 H2).
  assert (forall v, v ∈ dom m1 <-> v ∈ dom m2) as Hdom.
  { intros v. by rewrite <- !elem_of_sorted_elements, Hd. }
  apply map_eq. intros v. destruct (decide (v ∈ dom m1)) as [Hin|Hin].
  - pose proof (proj1 (Hdom v) Hin) as Hin2. apply elem_of_dom in Hin as [x Hx], Hin2 as [y Hy].
    rewrite Hx, Hy. f_equal. specialize (Hv v). rewrite Hx, Hy in Hv.
    apply Hv, elem_of_sorted_elements, elem_of_dom. eauto.
  - pose proof Hin as Hin2. rewrite Hdom in Hin2. apply not_elem_of_dom in Hin, Hin2. congruence.
Qed.
End canonical_facts.

(** ** Reference semantics of the kernels *)

(** LeftJoin: the compatible extensions of a left solution, or the solution
    itself when there is none. *)
Definition sparql_left_join (left right : list Map) : list Map :=
  l ← left;
  match right ≫= join_pair l with [] => [l] | joined => joined end.

(** Minus: a solution is removed by a compatible one with a common variable. *)
Definition removed_by (l r : Map) : Prop := map_agree l r /\ exists v, v ∈ dom l /\ v ∈ dom r.

Global Instance removed_by_dec l r : Decision (removed_by l r).
Proof.
  destruct (decide (map_agree l r /\ dom l ∩ dom r <> (∅ : gset string))) as [[Ha Hd]|Hn]; [left|right].
  - split; [done|]. apply set_choose_L in Hd as [v Hv]. exists v. set_solver.
  - intros [Ha (v & Hl & Hr)]. apply Hn. split; [done|]. set_solver.
Defined.

Definition sparql_minus (left right : list Map) : list Map :=
  filter (fun l => Forall (fun r => ~ removed_by l r) right) left.

(** The first occurrence of every row, in order. *)
Definition push_new {A} `{EqDecision A} (out : list A) (x : A) : list A :=
  if decide (x ∈ out) then out else out ++ [x].
Definition first_occurrences {A} `{EqDecision A} (l : list A) : list A := foldl push_new [] l.

(** ** Bag kernels compute their reference *)

Lemma union_spec (L R : list Map) max :
  Forall valid_object L -> Forall valid_object R -> (N.of_nat max < U64_LIMIT)%N ->
  union_sparql_json (JObject <$> L) (JObject <$> R) max
  = bounded max IntermediateRowLimit (JObject <$> (L ++ R)).
Proof.
  intros HL HR Hmax. unfold union_sparql_json. rewrite !validate_rows_ok by done.
  cbn [mbind result_bind]. rewrite fmap_app. unfold bounded. rewrite length_app.
  set (n := length (JObject <$> L) + length (JObject <$> R)).
  destruct (usize_checked_add _ _) as [t|] eqn:Ht.
  - apply usize_checked_add_some in Ht as [-> _]. fold n. cbn. by destruct (n <=? max).
  - cbn. destruct (Nat.leb_spec n max); [|done]. exfalso.
    assert (usize_checked_add (length (JObject <$> L)) (length (JObject <$> R)) = Some n) as Heq
      by (apply usize_checked_add_some; split; [done|]; fold n; lia).
    congruence.
Qed.

Lemma left_join_step_spec l max (R : list Map) out matched :
  length out <= max ->
  try_fold (left_join_step l max) (out, matched) (JObject <$> R)
  = (o ← bounded max IntermediateRowLimit (out ++ (JObject <$> (R ≫= join_pair l)));
     Ok (o, matched || negb (bool_decide (R ≫= join_pair l = [])))).
Proof.
  revert out matched; induction R as [|r R IH]; intros out matched Hout.
  - cbn. unfold bounded. rewrite app_nil_r. destruct (Nat.leb_spec (length out) max); [|lia].
    cbn. by rewrite orb_false_r.
  - cbn [fmap list_fmap try_fold]. assert (left_join_step l max (out, matched) (JObject r)
      = if negb (compatible l r) then Ok (out, matched)
        else _ ← reserve_row out max; merged ← merge l r; Ok (out ++ [JObject merged], true)) as -> by done.
    cbn [mbind list_bind]. fold (@mbind list _ Map Map (join_pair l) R).
    destruct (compatible l r) eqn:Hc; cbn [negb].
    + apply compatible_agree in Hc as Hag. rewrite merge_agree by done.
      pose proof (reserve_push max out (JObject (l ∪ r)) Hout) as Hp.
      assert (join_pair l r = [l ∪ r]) as -> by (unfold join_pair; by rewrite decide_True).
      destruct (reserve_row out max) as [[]|] eqn:Hres; cbn [mbind result_bind] in *.
      * symmetry in Hp. apply bounded_ok in Hp as [_ Hle]. rewrite IH by done. cbn.
        rewrite <- (assoc (++)). cbn. destruct (bounded _ _ _); cbn; [|done]. by rewrite orb_true_r.
      * unfold reserve_row in Hres. apply fail_if_err in Hres as [Hle <-]. bool_prop.
        rewrite bounded_over; [done|]. rewrite length_app. cbn. lia.
    + assert (~ map_agree l r) as Hn by (rewrite <- compatible_agree; congruence).
      assert (join_pair l r = []) as -> by (unfold join_pair; by rewrite decide_False).
      by apply IH.
Qed.

Lemma left_join_spec (L R : list Map) max :
  Forall valid_object L -> Forall valid_object R ->
  left_join_sparql_json (JObject <$> L) (JObject <$> R) max
  = bounded max IntermediateRowLimit (JObject <$> sparql_left_join L R).
Proof.
  intros HL HR. unfold left_join_sparql_json. rewrite !validate_rows_ok by done. cbn [mbind result_bind].
  set (g l := match R ≫= join_pair l with [] => [l] | joined => joined end).
  rewrite (try_fold_bounded max IntermediateRowLimit _
    (fun row => JObject <$> g (default ∅ (as_object row)))); [| |cbn; lia].
  - cbn [app]. unfold sparql_left_join. by rewrite list_bind_fmap, fmap_list_bind.
  - intros out row Hrow Hout. apply list_elem_of_fmap in Hrow as (l & -> & Hl). cbn [as_object ok_or].
    cbn [mbind result_bind]. change (default ∅ (Some l)) with l.
    rewrite left_join_step_spec by done. unfold g.
    destruct (R ≫= join_pair l) as [|j js] eqn:Hj.
    + cbn [fmap list_fmap]. rewrite app_nil_r, bounded_fits by done. by apply reserve_push.
    + destruct (bounded _ _ _) eqn:Hb; [|done]. cbn [mbind result_bind].
      rewrite bool_decide_false by done. by rewrite orb_true_r.
Qed.

Lemma minus_excluded_spec (l : Map) (R : list Map) :
  minus_excluded l (JObject <$> R) = Ok (bool_decide (~ Forall (fun r => ~ removed_by l r) R)).
Proof.
  unfold minus_excluded.
  assert (forall r : Map, existsb (fun key => bool_decide (is_Some (r !! key)))
      (sorted_elements (dom l : gset string)) && compatible l r = bool_decide (removed_by l r)) as Hstep.
  { intros r. apply eq_true_iff_eq. rewrite andb_true_iff, existsb_exists, bool_decide_eq_true, compatible_agree.
    setoid_rewrite <- list_elem_of_In. setoid_rewrite elem_of_sorted_elements.
    setoid_rewrite bool_decide_eq_true. setoid_rewrite <- elem_of_dom. unfold removed_by. naive_solver. }
  cut (forall b, try_fold (minus_step l) b (JObject <$> R)
    = Ok (b || bool_decide (~ Forall (fun r => ~ removed_by l r) R))).
  { intros Hc. apply (Hc false). }
  induction R as [|r R IH]; intros b.
  - cbn [fmap list_fmap try_fold].
    rewrite bool_decide_false, orb_false_r; [done|]. intros Hn. apply Hn. constructor.
  - cbn [fmap list_fmap try_fold]. destruct b.
    + cbn [minus_step mbind result_bind]. by rewrite IH.
    + assert (minus_step l false (JObject r) = Ok (bool_decide (removed_by l r))) as ->
        by (unfold minus_step; cbn; by rewrite Hstep).
      cbn [mbind result_bind]. rewrite IH. cbn [orb]. f_equal.
      apply eq_true_iff_eq. rewrite orb_true_iff, !bool_decide_eq_true, Forall_cons.
      destruct (decide (removed_by l r)); naive_solver.
Qed.

Lemma minus_spec (L R : list Map) max :
  Forall valid_object L -> Forall valid_object R ->
  minus_sparql_json (JObject <$> L) (JObject <$> R) max
  = bounded max IntermediateRowLimit (JObject <$> sparql_minus L R).
Proof.
  intros HL HR. unfold minus_sparql_json. rewrite !validate_rows_ok by done. cbn [mbind result_bind].
  rewrite (try_fold_bounded max IntermediateRowLimit _
    (fun row => JObject <$> sparql_minus [default ∅ (as_object row)] R)); [| |cbn; lia].
  - cbn [app]. rewrite list_bind_fmap. do 2 f_equal. unfold sparql_minus. clear HL.
    induction L as [|l L IH]; [done|]. rewrite bind_cons, IH. cbn [as_object].
    change (default ∅ (Some l)) with l. rewrite !filter_cons.
    by case_decide.
  - intros out row Hrow Hout. apply list_elem_of_fmap in Hrow as (l & -> & Hl). cbn [as_object ok_or].
    cbn [mbind result_bind]. rewrite minus_excluded_spec. change (default ∅ (Some l)) with l. unfold sparql_minus.
    rewrite filter_cons. case_decide as Hd.
    + rewrite bool_decide_false by (intros Hn; by apply Hn). by apply reserve_push.
    + rewrite bool_decide_true by done. cbn. by rewrite app_nil_r, bounded_fits.
Qed.

Lemma push_new_grows {A} `{EqDecision A} (l out : list A) : length out <= length (foldl push_new out l).
Proof.
  revert out; induction l as [|x l IH]; intros out; cbn; [done|].
  rewrite <- IH. unfold push_new. case_decide; [done|]. rewrite length_app. lia.
Qed.

(** The first occurrences are the distinct rows, in the order of the input. *)
Lemma first_occurrences_spec {A} `{EqDecision A} (l : list A) :
  NoDup (first_occurrences l) /\ (forall x, x ∈ first_occurrences l <-> x ∈ l) /\
  first_occurrences l `sublist_of` l.
Proof.
  unfold first_occurrences. induction l as [|x l IH] using rev_ind; cbn.
  - split_and!; [constructor|done|constructor].
  - rewrite foldl_app. cbn [foldl]. destruct IH as (Hnd & Hin & Hsub). revert Hnd Hin Hsub.
    generalize (foldl push_new [] l) as o. intros o Hnd Hin Hsub. unfold push_new. case_decide as Hx.
    + split_and!; [done| |].
      * intros y. rewrite elem_of_app, list_elem_of_singleton, Hin. split; [auto|].
        intros [?| ->]; [done|by apply Hin].
      * by apply sublist_inserts_r.
    + split_and!.
      * apply NoDup_app. split_and!; [done|set_solver|apply NoDup_singleton].
      * intros y. by rewrite !elem_of_app, Hin.
      * by apply sublist_app.
Qed.

Lemma distinct_spec `{TermText} (L : list Map) max :
  Forall valid_object L -> (forall m, m ∈ L -> exists key, canonical_binding_key (JObject m) = Ok key) ->
  distinct_sparql_json (JObject <$> L) max
  = bounded max IntermediateRowLimit (JObject <$> first_occurrences L).
Proof.
  intros HL Hkeys. unfold distinct_sparql_json. rewrite validate_rows_ok by done. cbn [mbind result_bind].
  unfold first_occurrences.
  cut (forall (outm : list Map) (seen : gset (list byte)), length outm <= max ->
    (forall k, k ∈ seen <-> exists m, m ∈ outm /\ canonical_binding_key (JObject m) = Ok k) ->
    (state ← try_fold (distinct_step max) (seen, JObject <$> outm) (JObject <$> L); Ok state.2)
    = bounded max IntermediateRowLimit (JObject <$> foldl push_new outm L)).
  { intros Hc. apply (Hc [] ∅); [cbn; lia|]. set_solver. }
  clear HL. induction L as [|m L IH]; intros outm seen Hout Hseen.
  { cbn [fmap list_fmap try_fold foldl mbind result_bind snd]. by rewrite bounded_fits by by rewrite length_fmap. }
  destruct (Hkeys m) as [k Hk]; [left|].
  cbn [fmap list_fmap try_fold foldl]. cbn [distinct_step]. rewrite Hk. cbn [mbind result_bind].
  assert (k ∈ seen <-> m ∈ outm) as Hkm.
  { rewrite Hseen. split; [|by eauto]. intros (m' & Hm' & Hk').
    by rewrite (canonical_binding_key_inj m m' k). }
  unfold push_new at 2. destruct (decide (k ∈ seen)) as [Hin|Hin].
  - rewrite decide_True by by apply Hkm. apply IH; [|done..]. intros; apply Hkeys; by right.
  - rewrite decide_False by by rewrite <- Hkm. unfold reserve_row. rewrite length_fmap.
    destruct (Nat.leb_spec max (length outm)) as [Hge|Hlt].
    + cbn. rewrite bounded_over; [done|]. rewrite length_fmap.
      pose proof (push_new_grows L (outm ++ [m])) as Hg. rewrite length_app in Hg. cbn in Hg. lia.
    + cbn [fail_if mbind result_bind]. change [JObject m] with (JObject <$> [m]).
      rewrite <- fmap_app. apply IH.
      * intros; apply Hkeys; by right.
      * rewrite length_app. cbn. lia.
      * intros k'. rewrite elem_of_union, elem_of_singleton, Hseen. setoid_rewrite elem_of_app.
        setoid_rewrite list_elem_of_singleton. split.
        -- intros [->|(m' & ? & ?)]; eauto.
        -- intros (m' & [Hm'| ->] & Hk'); [eauto|]. left. congruence.
Qed.

(** The slice loop skips, then takes. *)
Lemma slice_loop_spec offset wanted skipped out (l : list Value) :
  skipped <= offset -> length out <= wanted -> (skipped < offset -> out = []) ->
  slice_loop offset wanted skipped out l
  = out ++ take (wanted - length out) (drop (offset - skipped) l).
Proof.
  revert skipped out; induction l as [|x l IH]; intros skipped out Hs Hw Hout; cbn [slice_loop].
  - by rewrite drop_nil, take_nil, app_nil_r.
  - destruct (Nat.ltb_spec skipped offset) as [Hlt|Hge].
    + rewrite IH by (done || lia || (intros; apply Hout; lia)).
      replace (offset - skipped) with (S (offset - S skipped)) by lia. done.
    + replace (offset - skipped) with 0 by lia. cbn [drop].
      destruct (Nat.eqb_spec (length out) wanted) as [Heq|Hne].
      * replace (wanted - length out) with 0 by lia. cbn. by rewrite app_nil_r.
      * rewrite IH by (rewrite ?length_app; cbn; lia).
        replace (offset - skipped) with 0 by lia. rewrite length_app, <- (assoc (++)). cbn [length].
        replace (wanted - length out) with (S (wanted - (length out + 1))) by lia. by rewrite drop_0.
Qed.

Lemma global_slice_spec (parts : list (list Map)) offset len max :
  Forall (Forall valid_object) parts ->
  global_slice_sparql_json ((fun p : list Map => JObject <$> p) <$> parts) offset len max
  = Ok (JObject <$> take (Nat.min (default max len) max) (drop offset (concat parts))).
Proof.
  intros Hv. unfold global_slice_sparql_json.
  assert (try_fold (fun (_ : unit) partition => validate_rows partition) tt ((fun p : list Map => JObject <$> p) <$> parts) = Ok tt) as ->.
  { induction Hv as [|p parts Hp _ IH]; [done|]. cbn [fmap list_fmap try_fold]. by rewrite validate_rows_ok. }
  cbn [mbind result_bind]. f_equal. rewrite slice_loop_spec by (cbn; (lia || done)).
  cbn [app length]. rewrite !Nat.sub_0_r, fmap_take, fmap_drop. do 2 f_equal.
  induction parts as [|p parts IH]; cbn; [done|]. apply Forall_cons in Hv as [_ Hv].
  by rewrite fmap_app, <- IH.
Qed.

(** ** The native dispatcher *)

(** What each native operator means on bags of solution mappings. *)
Definition native_reference (task : NativeAlgebraTask) (L R : list Map) :
    result ExecutionError (list Value) :=
  let max := task_max_output_rows task in
  let under_ceiling (out : list Map) := bounded max IntermediateRowLimit (JObject <$> out) in
  match task_operator task with
  | Join => under_ceiling (sparql_join L R)
  | Union => under_ceiling (L ++ R)
  | Minus => under_ceiling (sparql_minus L R)
  | Project => under_ceiling ((fun m : Map => filter (fun b => b.1 ∈ projection task) m) <$> L)
  | Distinct => under_ceiling (first_occurrences L)
  | Reduced | Values => under_ceiling L
  | Slice => Ok (JObject <$> take (Nat.min (default max (task_length task)) max) (drop (task_offset task) L))
  | _ => Err UnsafeNativeAlgebraOperator
  end.

(** What the dispatcher may assume of its inputs: solution mappings whose
    canonical keys have lengths that fit in 64 bits, and a positive [usize]
    row ceiling. *)
Record task_inputs `{TermText} (task : NativeAlgebraTask) (L R : list Map) : Prop := {
  ti_left : left_rows task = JObject <$> L;
  ti_right : right_rows task = JObject <$> R;
  ti_left_valid : Forall valid_object L;
  ti_right_valid : Forall valid_object R;
  ti_keys : Forall (fun m => is_ok (canonical_binding_key (JObject m)) = true) L;
  ti_max : (0 < N.of_nat (task_max_output_rows task) < U64_LIMIT)%N;
}.

Lemma is_ok_exists {E A} (r : result E A) : is_ok r = true -> exists a, r = Ok a.
Proof. destruct r; [eauto|done]. Qed.

Lemma ltb_bounded {E A} max (e : E) (out : list A) :
  (if max <? length out then Err e else Ok out) = bounded max e out.
Proof.
  unfold bounded. destruct (Nat.ltb_spec max (length out)), (Nat.leb_spec (length out) max); done || lia.
Qed.

Lemma execute_native_spec `{TermText} task L R :
  task_inputs task L R -> execute_native_algebra_task task = native_reference task L R.
Proof.
  intros [Hl Hr HL HR Hk Hmax]. unfold execute_native_algebra_task, native_reference.
  destruct (Nat.eqb_spec (task_max_output_rows task) 0); [lia|]. cbn [fail_if mbind result_bind].
  rewrite Hl, Hr. destruct (task_operator task); try done.
  - by apply inner_join_sparql_json_spec.
  - apply union_spec; [done..|lia].
  - by apply minus_spec.
  - rewrite validate_rows_ok by done. apply ltb_bounded.
  - rewrite project_sparql_json_spec. cbn [mbind result_bind]. rewrite ltb_bounded.
    by rewrite <- list_fmap_compose.
  - apply distinct_spec; [done|]. intros m Hm. rewrite Forall_forall in Hk. by apply is_ok_exists, Hk.
  - rewrite validate_rows_ok by done. apply ltb_bounded.
  - rewrite (global_slice_spec [L]) by by repeat constructor. cbn [concat]. by rewrite app_nil_r.
Qed.

(** a native partition task computes the SPARQL algebra on bags: Join,
    Union, Minus, Project, Distinct (first occurrences), Reduced, Values and
    Slice each return the reference result in order, the row ceiling is the
    only failure of the kernels that have one, and every other operator is
    refused. *)
Theorem native_task_exact `{TermText} task L R :
  task_inputs task L R -> execute_native_algebra_task task = native_reference task L R.
Proof. apply execute_native_spec. Qed.

Definition sample_task (op : DistributedAlgebraOperator) (L R : list Map) : NativeAlgebraTask :=
  {| task_operator := op; left_rows := JObject <$> L; right_rows := JObject <$> R;
     projection := ["x"]; task_offset := 1; task_length := Some 1; task_max_output_rows := 4 |}.

Definition sample_left : list Map :=
  [{["x" := uri "a"]}; {["x" := uri "b"]}; {["x" := uri "a"]}].
Definition sample_right : list Map := [{["x" := uri "a"; "y" := uri "c"]}].

Lemma sample_task_inputs op : task_inputs (H := field_text) (sample_task op sample_left sample_right)
    sample_left sample_right.
Proof.
  split; [done|done|unfold sample_left; solve_valid|unfold sample_right; solve_valid| |].
  - repeat constructor.
  - by vm_compute.
Qed.

Lemma native_task_exact_witness :
  execute_native_algebra_task (H := field_text) (sample_task Distinct sample_left sample_right)
    = Ok [JObject {["x" := uri "a"]}; JObject {["x" := uri "b"]}] /\
  execute_native_algebra_task (H := field_text) (sample_task Minus sample_left sample_right)
    = Ok [JObject {["x" := uri "b"]}].
Proof.
  split; rewrite (native_task_exact (H := field_text) _ _ _ (sample_task_inputs _)); by vm_compute.
Defined.

(** the planner's lanes are enough for the dispatcher: a stage of a
    validated plan that runs on the native lane is never refused as an unsafe
    operator. *)
Theorem native_lane_never_refused `{TermText} plan stage task L R :
  validate_distributed_algebra_plan plan = Ok tt -> stage ∈ stages plan ->
  lane stage = NativePartitioned -> task_operator task = operator stage ->
  task_inputs task L R ->
  execute_native_algebra_task task <> Err UnsafeNativeAlgebraOperator.
Proof.
  intros Hv Hs Hlane Hop Hin. rewrite (execute_native_spec _ _ _ Hin).
  pose proof (wf_lanes _ (validated_plan_wf _ Hv) stage Hs) as Hsafe. rewrite Hlane in Hsafe.
  unfold native_reference. rewrite Hop. destruct (operator stage); try done;
    unfold bounded; case_match; done.
Qed.

Lemma native_lane_never_refused_witness :
  execute_native_algebra_task (H := field_text) (sample_task Join sample_left sample_right)
  <> Err UnsafeNativeAlgebraOperator.
Proof.
  apply (native_lane_never_refused (H := field_text) sample_plan (sample_stage "s2" Join ["s0"; "s1"])
    _ sample_left sample_right).
  - by vm_compute.
  - right; right; left.
  - done.
  - done.
  - apply sample_task_inputs.
Defined.

(** ** Group ownership *)

Section groups.
Context `{TermText, Sha256}.

Lemma group_preimage_agree (l r : Map) vars :
  (forall v, v ∈ vars -> l !! v = r !! v) -> group_preimage l vars = group_preimage r vars.
Proof using Type.
  unfold group_preimage. generalize group_domain as d.
  induction vars as [|v vs IH]; intros d Hv; [done|]. cbn [try_fold].
  rewrite (Hv v ltac:(left)).
  destruct (hash_component d (as_bytes v)) as [d'|]; cbn [mbind result_bind]; [|done].
  destruct (match r !! v with Some _ => _ | None => _ end) as [d''|]; [|done].
  apply IH. intros; apply Hv; by right.
Qed.

Lemma group_owner_lt vars count row o :
  (2 <= count)%N -> group_owner vars count row = Ok o -> (o < count)%N.
Proof using Type.
  unfold group_owner. intros Hc Ho. do 2 inv_ok Ho. injection Ho as <-. apply digest_bucket_lt. lia.
Qed.
End groups.

(** grouping assigns every row to exactly one worker and keeps groups
    whole: the partitions are a permutation of the relation, and two rows that
    agree on the group variables (unbound counting as a value) land in the same
    partition. *)
Theorem groups_are_whole `{TermText, Sha256} (L : list Map) vars count max parts :
  group_owned_partitions (JObject <$> L) vars count max = Ok parts ->
  length parts = N.to_nat count /\ concat parts ≡ₚ JObject <$> L /\
  forall (l r : Map) i p, l ∈ L -> r ∈ L -> (forall v, v ∈ vars -> l !! v = r !! v) ->
    parts !! i = Some p -> JObject l ∈ p <-> JObject r ∈ p.
Proof.
  unfold group_owned_partitions. intros Hg. do 3 inv_ok Hg. inv_ok Ha0. bool_prop.
  apply bucket_fold in Hg as [Hex ->]. split_and!.
  - by rewrite length_fmap, length_seq.
  - apply bucket_permutation. intros row Hrow. destruct (Hex row Hrow) as [o Ho]. exists o.
    split; [done|]. apply group_owner_lt in Ho; lia.
  - intros l r i p Hl Hr Hag Hp. apply list_lookup_fmap_Some in Hp as (j & -> & Hj).
    rewrite !list_elem_of_filter.
    assert (group_owner vars count (JObject l) = group_owner vars count (JObject r)) as ->.
    { unfold group_owner. cbn [as_object ok_or mbind result_bind].
      by rewrite (group_preimage_agree l r). }
    assert (JObject l ∈ JObject <$> L /\ JObject r ∈ JObject <$> L) by
      (split; apply list_elem_of_fmap; eauto). tauto.
Qed.

Lemma groups_are_whole_witness :
  exists parts, group_owned_partitions (H := field_text) (H0 := padded_digest)
      (JObject <$> sample_left) ["x"] 2 10 = Ok parts /\ concat parts ≡ₚ JObject <$> sample_left.
Proof.
  destruct (group_owned_partitions (H := field_text) (H0 := padded_digest)
      (JObject <$> sample_left) ["x"] 2 10) as [parts|e] eqn:Hp.
  - exists parts. split; [reflexivity|].
    exact (proj1 (proj2 (groups_are_whole (H := field_text) (H0 := padded_digest) _ _ _ _ _ Hp))).
  - exfalso. vm_compute in Hp. discriminate Hp.
Defined.

(** ** Ordered merge *)

Section merge_facts.
Context {A : Type} (compare : A -> A -> comparison).
Context (compare_antisym : forall x y, compare y x = CompOpp (compare x y)).
Context (compare_trans : forall x y z, compare x y <> Gt -> compare y z <> Gt -> compare x z <> Gt).

Let le (x y : A) : Prop := compare x y <> Gt.

(** The unread rows of every partition. *)
Definition unread (partitions : list (list A)) (cursors : list nat) : list (list A) :=
  zip_with drop cursors partitions.

Lemma cursor_row_unread parts cs i :
  cursor_row parts cs i = unread parts cs !! i ≫= List.hd_error.
Proof using Type.
  unfold cursor_row, unread. rewrite lookup_zip_with.
  destruct (parts !! i) as [p|], (cs !! i) as [c|]; cbn; try done.
  rewrite <- (Nat.add_0_r c) at 1. rewrite <- lookup_drop. by destruct (drop c p).
Qed.

Lemma le_refl x : le x x.
Proof using compare_antisym.
  unfold le. pose proof (compare_antisym x x) as Hx. by destruct (compare x x).
Qed.

Lemma lt_le_lt x y z : compare x y = Lt -> le y z -> compare x z = Lt.
Proof using compare_antisym compare_trans.
  intros Hxy Hyz. assert (le x z) as Hxz by (apply (compare_trans x y z); [congruence|done]).
  destruct (compare x z) eqn:Hc; [|done|done].
  assert (le z x) as Hzx by (unfold le; rewrite compare_antisym, Hc; done).
  destruct (compare_trans y z x Hyz Hzx). by rewrite compare_antisym, Hxy.
Qed.

(** The chosen partition has a least head, the first among equals. *)
Definition winner_ok (parts : list (list A)) (cs : list nat) (k w : nat) (x : A) : Prop :=
  w < k /\ cursor_row parts cs w = Some x /\
  forall i y, i < k -> cursor_row parts cs i = Some y -> le x y /\ (i < w -> compare x y = Lt).

Lemma merge_winner_spec parts cs :
  match merge_winner compare parts cs with
  | None => forall i, i < length cs -> cursor_row parts cs i = None
  | Some w => exists x, winner_ok parts cs (length cs) w x
  end.
Proof using compare_antisym compare_trans.
  unfold merge_winner. induction (length cs) as [|k IH]; [cbn; lia|].
  rewrite seq_S, foldl_app. cbn [foldl plus]. revert IH.
  match goal with |- context [foldl ?f None (seq 0 k)] => generalize (foldl f None (seq 0 k)) as o end.
  intros o IH. destruct (cursor_row parts cs k) as [c|] eqn:Hk.
  - destruct o as [w|].
    + destruct IH as (x & Hw & Hx & Hle). rewrite Hx. case_decide as Hc.
      * exists c. split_and!; [lia|done|]. intros i y Hi Hy.
        destruct (decide (i = k)) as [->|Hne].
        { rewrite Hk in Hy. injection Hy as ->. split; [apply le_refl|lia]. }
        destruct (Hle i y) as [Hxy _]; [lia|done|]. pose proof (lt_le_lt _ _ _ Hc Hxy) as Hcy.
        split; [unfold le; congruence|done].
      * exists x. split_and!; [lia|done|]. intros i y Hi Hy.
        destruct (decide (i = k)) as [->|Hne]; [|apply Hle; [lia|done]].
        rewrite Hk in Hy. injection Hy as ->. split; [|lia].
        unfold le. rewrite compare_antisym. by destruct (compare y x).
    + exists c. split_and!; [lia|done|]. intros i y Hi Hy. destruct (decide (i = k)) as [->|Hne].
      * rewrite Hk in Hy. injection Hy as ->. split; [apply le_refl|lia].
      * rewrite IH in Hy by lia. done.
  - destruct o as [w|].
    + destruct IH as (x & Hw & Hx & Hle). exists x. split_and!; [lia|done|]. intros i y Hi Hy.
      destruct (decide (i = k)) as [->|]; [congruence|]. apply Hle; [lia|done].
    + intros i Hi. destruct (decide (i = k)) as [->|]; [done|]. apply IH. lia.
Qed.

Lemma unread_advance parts cs w x t :
  unread parts cs !! w = Some (x :: t) ->
  unread parts (alter S w cs) = <[w := t]> (unread parts cs).
Proof using Type.
  unfold unread. intros Hw. pose proof Hw as Hw'.
  rewrite lookup_zip_with in Hw. destruct (cs !! w) as [c|] eqn:Hc; [|done].
  destruct (parts !! w) as [p|] eqn:Hp; [|done]. cbn in Hw. injection Hw as Hd.
  apply list_eq. intros i. rewrite lookup_zip_with. destruct (decide (i = w)) as [->|Hne].
  - rewrite list_lookup_alter_eq, Hc, Hp, list_lookup_insert_eq by by eapply lookup_lt_Some.
    cbn. f_equal. replace (S c) with (c + 1) by lia. by rewrite <- drop_drop, Hd.
  - rewrite list_lookup_alter_ne, list_lookup_insert_ne by done. by rewrite lookup_zip_with.
Qed.

(** Nothing unread is below a least head. *)
Lemma head_least (u : list (list A)) (x : A) :
  (forall i y, u !! i ≫= List.hd_error = Some y -> le x y) ->
  Forall (StronglySorted le) u -> forall z, z ∈ concat u -> le x z.
Proof using compare_antisym compare_trans.
  intros Hh Hs z (l & Hl & Hz)%elem_of_concat. rewrite Forall_forall in Hs. specialize (Hs l Hl).
  apply list_elem_of_lookup in Hl as [i Hi]. destruct l as [|y l]; [set_solver|].
  specialize (Hh i y). rewrite Hi in Hh. specialize (Hh eq_refl).
  apply elem_of_cons in Hz as [->|Hz]; [done|].
  apply StronglySorted_inv in Hs as [_ Hy]. rewrite Forall_forall in Hy.
  apply (compare_trans x y z); [done|by apply Hy].
Qed.

(** The merged rows: ascending, a permutation, and stable among equals. *)
Definition merged_from (u : list (list A)) (out : list A) : Prop :=
  StronglySorted le out /\ out ≡ₚ concat u /\
  forall v, filter (fun x => compare v x = Eq) out = filter (fun x => compare v x = Eq) (concat u).

Lemma merged_step pre x t post out :
  (forall z, z ∈ concat (pre ++ (x :: t) :: post) -> le x z) ->
  (forall z, z ∈ concat pre -> compare x z = Lt) ->
  merged_from (pre ++ t :: post) out -> merged_from (pre ++ (x :: t) :: post) (x :: out).
Proof using compare_antisym compare_trans.
  rewrite !concat_app. cbn. intros Hle Hlt (Hs & Hp & Hf). rewrite concat_app in Hp, Hf. cbn in Hp, Hf.
  split_and!.
  - constructor; [done|]. apply Forall_forall. intros z Hz. apply Hle. rewrite Hp in Hz. set_solver.
  - rewrite concat_app. cbn. rewrite Hp. apply Permutation_middle.
  - intros v. rewrite concat_app. cbn [concat app]. rewrite filter_app, !filter_cons, Hf, !filter_app.
    case_decide as Hv; [|done].
    assert (filter (fun z => compare v z = Eq) (concat pre) = []) as ->; [|done].
    apply list_filter_empty. intros z Hz Hvz. specialize (Hlt z Hz).
    assert (compare x v = Lt) as Hxv.
    { eapply lt_le_lt; [done|]. unfold le. by rewrite compare_antisym, Hvz. }
    rewrite compare_antisym, Hxv in Hv. done.
Qed.

Lemma merge_loop_spec parts n cs out :
  length cs = length parts -> n = length (concat (unread parts cs)) ->
  Forall (StronglySorted le) (unread parts cs) ->
  exists merged, merge_loop compare parts n cs out = Ok (out ++ merged) /\
    merged_from (unread parts cs) merged.
Proof using compare_antisym compare_trans.
  intros Hlen Hn Hs. revert cs out Hlen Hn Hs. induction n as [|n IH]; intros cs out Hlen Hn Hs; cbn.
  { exists []. rewrite app_nil_r. split; [done|].
    symmetry in Hn. apply length_zero_iff_nil in Hn. unfold merged_from. rewrite Hn.
    split_and!; [constructor|done|done]. }
  set (u := unread parts cs) in *.
  assert (length u = length cs) as Hu by (unfold u, unread; rewrite length_zip_with; lia).
  pose proof (merge_winner_spec parts cs) as Hwin.
  destruct (merge_winner compare parts cs) as [w|] eqn:Hw; cbn.
  2:{ exfalso. destruct (concat u) as [|z l] eqn:Hcat; [done|].
      assert (z ∈ concat u) as (l' & Hl' & Hz)%elem_of_concat by (rewrite Hcat; left).
      apply list_elem_of_lookup in Hl' as [i Hi]. pose proof (lookup_lt_Some _ _ _ Hi).
      specialize (Hwin i ltac:(lia)). rewrite cursor_row_unread in Hwin. fold u in Hwin. rewrite Hi in Hwin.
      destruct l'; [set_solver|done]. }
  destruct Hwin as (x & Hwk & Hx & Hle). rewrite Hx. cbn.
  rewrite cursor_row_unread in Hx. fold u in Hx. apply bind_Some in Hx as (l & Hul & Hl).
  destruct l as [|x' t]; [done|]. injection Hl as ->.
  pose proof (unread_advance _ _ _ _ _ Hul) as Hadv. fold u in Hadv.
  assert (<[w := t]> u = take w u ++ t :: drop (S w) u) as Hins by (apply insert_take_drop; by eapply lookup_lt_Some).
  assert (u = take w u ++ (x :: t) :: drop (S w) u) as Hdec by by rewrite take_drop_middle.
  destruct (IH (alter S w cs) (out ++ [x])) as (merged & -> & Hm).
  - by rewrite length_alter.
  - rewrite Hadv, Hins. apply (f_equal (fun v => length (concat v))) in Hdec. rewrite <- Hn in Hdec.
    rewrite concat_app, length_app in Hdec |- *. cbn [concat app length] in Hdec |- *.
    rewrite length_app in Hdec |- *. lia.
  - rewrite Hadv. apply Forall_insert; [done|].
    rewrite Forall_forall in Hs. specialize (Hs _ (list_elem_of_lookup_2 _ _ _ Hul)).
    by apply StronglySorted_inv in Hs as [? _].
  - exists (x :: merged). split; [by rewrite <- (assoc (++))|].
    rewrite Hadv, Hins in Hm. rewrite Hdec.
    assert (forall i y, u !! i ≫= List.hd_error = Some y -> le x y /\ (i < w -> compare x y = Lt)) as Hheads.
    { intros i y Hy. apply Hle; [|by rewrite cursor_row_unread].
      apply bind_Some in Hy as (l & Hi & _). apply lookup_lt_Some in Hi. lia. }
    apply merged_step; [| |done].
    + rewrite <- Hdec. apply head_least; [|done]. intros i y Hy. by eapply Hheads.
    + intros z (l & Hlin & Hz)%elem_of_concat. apply list_elem_of_lookup in Hlin as [i Hi].
      apply lookup_take_Some in Hi as [Hi Hiw]. destruct l as [|y l]; [set_solver|].
      destruct (Hheads i y) as [_ Hlt]; [by rewrite Hi|].
      eapply lt_le_lt; [by apply Hlt|]. apply elem_of_cons in Hz as [->|Hz]; [apply le_refl|].
      rewrite Forall_forall in Hs. specialize (Hs _ (list_elem_of_lookup_2 _ _ _ Hi)).
      apply StronglySorted_inv in Hs as [_ Hy]. rewrite Forall_forall in Hy. auto.
Qed.
End merge_facts.

Lemma total_rows_ok (parts : list (list Value)) max n :
  n + length (concat parts) <= max -> (N.of_nat max < U64_LIMIT)%N ->
  try_fold (fun total partition =>
      ok_or (total ← usize_checked_add total (length partition);
             if total <=? max then Some total else None) IntermediateRowLimit)
    n parts = Ok (n + length (concat parts)).
Proof.
  intros Hn Hmax. revert n Hn. induction parts as [|p parts IH]; intros n Hn; cbn in Hn; cbn [try_fold concat].
  { f_equal. cbn. lia. }
  rewrite length_app in *.
  assert (usize_checked_add n (length p) = Some (n + length p)) as ->.
  { apply usize_checked_add_some. split; [done|]. lia. }
  cbn. destruct (Nat.leb_spec (n + length p) max); [|lia]. cbn. rewrite IH by lia. f_equal. lia.
Qed.

(** the k-way merge of worker-sorted ranges is a stable sort of all their
    rows: under a total preorder, valid sorted partitions whose total is within
    the ceiling merge without error into an ascending permutation of the rows
    in which rows that compare equal keep partition order, then range order. *)
Theorem ordered_merge_is_stable_sort (compare : Value -> Value -> comparison)
    (parts : list (list Value)) (max : nat) :
  (forall x y, compare y x = CompOpp (compare x y)) ->
  (forall x y z, compare x y <> Gt -> compare y z <> Gt -> compare x z <> Gt) ->
  Forall (fun p => validate_rows p = Ok tt) parts ->
  Forall (StronglySorted (fun x y => compare x y <> Gt)) parts ->
  length (concat parts) <= max -> (N.of_nat max < U64_LIMIT)%N ->
  exists out, merge_ordered_partitions_by parts max compare = Ok out /\
    StronglySorted (fun x y => compare x y <> Gt) out /\ out ≡ₚ concat parts /\
    forall v, filter (fun x => compare v x = Eq) out = filter (fun x => compare v x = Eq) (concat parts).
Proof.
  intros Hsym Htr Hv Hs Hle Hmax. unfold merge_ordered_partitions_by.
  match goal with |- context [try_fold ?f tt parts] => assert (try_fold f tt parts = Ok tt) as -> end.
  { clear Hle. induction parts as [|p parts IH]; [done|].
    apply Forall_cons in Hv as [Hp Hv], Hs as [Hsp Hs]. cbn [try_fold]. rewrite Hp. cbn [mbind result_bind].
    assert (windows2_all (fun x y => bool_decide (compare x y <> Gt)) p = true) as ->; [|by apply IH].
    by apply (windows2_all_decide (fun x y => compare x y <> Gt)), StronglySorted_Sorted. }
  cbn [mbind result_bind]. rewrite (total_rows_ok parts max 0) by done. cbn [mbind result_bind plus].
  assert (unread parts (replicate (length parts) 0) = parts) as Hu.
  { unfold unread. clear. induction parts as [|p parts IH]; cbn; [done|]. by rewrite IH. }
  destruct (merge_loop_spec compare Hsym Htr parts (length (concat parts)) (replicate (length parts) 0) [])
    as (out & -> & Hout); rewrite ?Hu in *; [by rewrite length_replicate|done|done|].
  by exists out.
Qed.

(** Terms by their text, as a comparator for the evaluation below. *)
Definition member (k : string) (v : Value) : option Value :=
  match v with JObject m => m !! k | _ => None end.
Definition text_x (v : Value) : string :=
  match member "x" v ≫= member "value" with Some (JString s) => s | _ => EmptyString end.
Definition compare_x (a b : Value) : comparison := cmp (text_x a) (text_x b).

Lemma ordered_merge_is_stable_sort_witness :
  let row s := JObject {["x" := uri s]} in
  exists out, merge_ordered_partitions_by [[row "a"; row "c"]; [row "b"; row "c"]] 4 compare_x = Ok out /\
    out ≡ₚ [row "a"; row "c"; row "b"; row "c"].
Proof.
  intros row.
  destruct (ordered_merge_is_stable_sort compare_x [[row "a"; row "c"]; [row "b"; row "c"]] 4)
    as (out & Hout & _ & Hp & _).
  - intros x y. unfold compare_x. apply cmp_antisym.
  - intros x y z. unfold compare_x. apply rle_trans.
  - repeat constructor.
  - repeat constructor; by vm_compute.
  - cbn. lia.
  - by vm_compute.
  - exact (ex_intro _ out (conj Hout Hp)).
Defined.

(** ** The barrier *)

(** What all partitions of a stage have in common. *)
Record StageKey := {
  key_query : string; key_plan : string; key_stage : string; key_algebra : string;
  key_count : N; key_head : list string;
}.

Definition stage_key (r : AlgebraPartitionResult) : StageKey :=
  {| key_query := query_sha256 (identity r); key_plan := plan_sha256 (identity r);
     key_stage := identity_stage_id (identity r); key_algebra := stage_algebra_sha256 (identity r);
     key_count := identity_partition_count (identity r); key_head := head r |}.

Section barrier_facts.
Context `{TermText, Sha256}.

(** A complete, checksum-consistent report of partition [i]. *)
Record partition_ok (key : StageKey) (i : nat) (r : AlgebraPartitionResult) : Prop := {
  po_identity : validate_identity (identity r) = Ok tt;
  po_complete : complete r = true;
  po_worker : worker_id r <> EmptyString;
  po_key : stage_key r = key;
  po_partition : identity_partition (identity r) = N.of_nat i;
  po_input : lower_hex_sha256 (input_sha256 r) = true;
  po_output : lower_hex_sha256 (output_sha256 r) = true;
  po_digest : relation_sha256 (head r) (rows r) = Ok (output_sha256 r);
}.

(** One report per partition number, all of the same stage. *)
Definition complete_set (ordered : list AlgebraPartitionResult) : Prop :=
  exists key, key_count key = N.of_nat (length ordered) /\ 2 <= length ordered /\
    forall i r, ordered !! i = Some r -> partition_ok key i r.

Lemma admit_partition_ok first max out i r out' :
  (N.of_nat max < U64_LIMIT)%N ->
  admit_partition first max out (i, r) = Ok out' <->
  partition_ok (stage_key first) i r /\ out' = out ++ rows r /\ length out' <= max.
Proof using Type.
  intros Hmax. unfold admit_partition. split.
  - intros Ha. do 5 inv_ok Ha. injection Ha as <-. inv_ok Ha1. inv_ok Ha3. bool_prop. inv_ok Ha4.
    apply bind_Some in Ha4 as (t & Ht & Hle). apply usize_checked_add_some in Ht as [-> _].
    destruct (Nat.leb_spec (length out + length (rows r)) max); [|done].
    split; [|by rewrite length_app]. destruct a. unfold is_empty_string in *. bool_prop.
    split; try done; [|congruence]. unfold stage_key. by f_equal.
  - intros ([Hid Hc Hw Hk Hp Hi Ho Hd] & -> & Hle). rewrite Hid. cbn [mbind result_bind].
    unfold stage_key in Hk. injection Hk as Hq Hpl Hst Hal Hcn Hhd.
    unfold is_empty_string.
    rewrite Hc, (bool_decide_eq_false_2 _ Hw), (bool_decide_eq_true_2 _ Hq), (bool_decide_eq_true_2 _ Hpl),
      (bool_decide_eq_true_2 _ Hst), (bool_decide_eq_true_2 _ Hal), (bool_decide_eq_true_2 _ Hhd),
      Hcn, Hp, Hi, Ho, !N.eqb_refl.
    cbn [negb orb fail_if mbind result_bind]. rewrite Hd. cbn [mbind result_bind].
    rewrite bool_decide_true by done. cbn [negb fail_if mbind result_bind]. rewrite length_app in Hle.
    assert (usize_checked_add (length out) (length (rows r)) = Some (length out + length (rows r))) as ->.
    { apply usize_checked_add_some. split; [done|]. lia. }
    cbn. by destruct (Nat.leb_spec (length out + length (rows r)) max); [|lia].
Qed.

Lemma admit_all_ok first max k (rs : list AlgebraPartitionResult) out out' :
  (N.of_nat max < U64_LIMIT)%N -> length out <= max ->
  try_fold (admit_partition first max) out (zip (seq k (length rs)) rs) = Ok out' <->
  (forall i r, rs !! i = Some r -> partition_ok (stage_key first) (k + i) r) /\
  out' = out ++ (rs ≫= rows) /\ length out' <= max.
Proof using Type.
  intros Hmax. revert k out. induction rs as [|r rs IH]; intros k out Hout.
  { cbn. rewrite app_nil_r. split; [intros [= <-]|by intros (_ & -> & _)]. split_and!; [|done..].
    by intros [] ?. }
  cbn [length seq zip zip_with try_fold]. rewrite result_bind_ok. setoid_rewrite admit_partition_ok; [|done].
  rewrite bind_cons, (assoc (++)). split.
  - intros (o & (Hr & -> & Hle) & Hf). apply IH in Hf as (Hrs & -> & Hle'); [|done].
    split_and!; [|done..]. intros [|i] r' Hi; cbn in Hi.
    + injection Hi as <-. by rewrite Nat.add_0_r.
    + rewrite <- Nat.add_succ_comm. by apply Hrs.
  - intros (Hrs & -> & Hle). exists (out ++ rows r).
    assert (length (out ++ rows r) <= max) by (rewrite length_app in Hle; lia).
    split_and!; [|done|done|].
    + rewrite <- (Nat.add_0_r k). by apply Hrs.
    + apply IH; [done|]. split_and!; [|done..]. intros i r' Hi.
      rewrite Nat.add_succ_comm. by apply Hrs.
Qed.

Lemma complete_set_sorted (ordered : list AlgebraPartitionResult) :
  (forall i r, ordered !! i = Some r -> identity_partition (identity r) = N.of_nat i) ->
  NoDup ((fun r => identity_partition (identity r)) <$> ordered) /\
  StronglySorted (key_le (fun r => identity_partition (identity r))) ordered.
Proof using Type.
  intros Hi.
  assert ((fun r => identity_partition (identity r)) <$> ordered = N.of_nat <$> seq 0 (length ordered)) as Heq.
  { apply list_eq. intros i. rewrite !list_lookup_fmap. destruct (ordered !! i) as [r|] eqn:Hr.
    - pose proof (lookup_lt_Some _ _ _ Hr). rewrite lookup_seq_lt by done. cbn. f_equal. by apply Hi.
    - rewrite (proj2 (lookup_ge_None _ _)); [done|]. rewrite length_seq. by apply lookup_ge_None. }
  split.
  - rewrite Heq. apply NoDup_fmap_2; [apply _|apply NoDup_seq].
  - clear Heq. cut (forall k, (forall i r, ordered !! i = Some r -> identity_partition (identity r) = N.of_nat (k + i)) ->
      StronglySorted (key_le (fun r => identity_partition (identity r))) ordered).
    { intros Hc. by apply (Hc 0). }
    clear Hi. induction ordered as [|r rs IH]; intros k Hi; constructor.
    + apply (IH (S k)). intros i r' Hr'. rewrite (Hi (S i) r' Hr'). f_equal. lia.
    + apply Forall_forall. intros r' [i Hr']%list_elem_of_lookup. unfold key_le, rle. cbn.
      rewrite (Hi 0 r eq_refl), (Hi (S i) r' Hr'). rewrite N.compare_gt_iff. lia.
Qed.

Lemma barrier_spec results max out :
  (N.of_nat max < U64_LIMIT)%N ->
  complete_algebra_partition_set results max = Ok out <->
  exists ordered, results ≡ₚ ordered /\ complete_set ordered /\
    out = ordered ≫= rows /\ length out <= max.
Proof using Type.
  intros Hmax. unfold complete_algebra_partition_set. split.
  - intros Hc. do 3 inv_ok Hc. inv_ok Ha. inv_ok Ha1. bool_prop.
    apply (admit_all_ok a max 0) in Hc as (Hall & -> & Hle); [|done|cbn; lia]. cbn [app plus] in *.
    exists (sort_by_key (fun r => identity_partition (identity r)) results).
    split_and!; [by rewrite sort_by_key_perm| |done|done].
    exists (stage_key a). rewrite sort_by_key_perm.
    unfold validate_identity in Ha0. inv_ok Ha0. bool_prop. split_and!; [done|lia|done].
  - intros (ordered & Hp & (key & Hcount & Htwo & Hall) & -> & Hle).
    assert (forall r, r ∈ results -> exists i, partition_ok key i r) as Hin.
    { intros r Hr. rewrite Hp in Hr. apply list_elem_of_lookup in Hr as [i Hi]. eauto. }
    destruct results as [|first results]; [apply Permutation_nil_l in Hp; subst; cbn in Htwo; lia|].
    destruct (Hin first ltac:(left)) as [i0 Hf]. cbn [List.hd_error ok_or mbind result_bind].
    rewrite (po_identity _ _ _ Hf). cbn [mbind result_bind].
    assert (identity_partition_count (identity first) = N.of_nat (length ordered)) as ->.
    { rewrite <- Hcount. by rewrite <- (po_key _ _ _ Hf). }
    rewrite Hp at 1. rewrite N.eqb_refl. cbn [negb fail_if mbind result_bind].
    destruct (complete_set_sorted ordered) as [Hnd Hs]; [intros i r Hr; eapply po_partition; eauto|].
    rewrite (sort_by_key_unique _ _ ordered); [|by rewrite Hp|done|done].
    apply (admit_all_ok first max 0); [done|cbn; lia|]. rewrite (po_key _ _ _ Hf).
    split_and!; [apply Hall|done|done].
Qed.
End barrier_facts.

(** C29: the barrier accepts a stage exactly when the reports, in any order of
    arrival, are one complete checksum-consistent report per partition number
    of one and the same stage and the rows fit the ceiling; it then returns
    the partitions' rows concatenated in partition order. *)
Theorem barrier_accepts_exactly_complete_sets `{TermText, Sha256} results max out :
  (N.of_nat max < U64_LIMIT)%N ->
  complete_algebra_partition_set results max = Ok out <->
  exists ordered, results ≡ₚ ordered /\ complete_set ordered /\
    out = ordered ≫= rows /\ length out <= max.
Proof. apply barrier_spec. Qed.

Section sample_set.
Let digest : Sha256 := padded_digest.
Let text : TermText := field_text.

Definition sample_report (i : N) (rows : list Value) : AlgebraPartitionResult :=
  {| identity := {| query_sha256 := sample_sha; plan_sha256 := sample_sha; identity_stage_id := "s2";
       stage_algebra_sha256 := sample_sha; identity_partition := i; identity_partition_count := 2 |};
     head := ["x"]; rows := rows; input_sha256 := sample_sha;
     output_sha256 := match relation_sha256 (H := text) (H0 := digest) ["x"] rows with
                      | Ok d => d | Err _ => EmptyString end;
     complete := true; worker_id := "w" |}.
End sample_set.

(** Reports that arrive out of order are accepted in partition order. *)
Lemma barrier_accepts_exactly_complete_sets_witness :
  let a := JObject {["x" := uri "a"]} in let b := JObject {["x" := uri "b"]} in
  exists ordered, [sample_report 1 [b]; sample_report 0 [a]] ≡ₚ ordered /\
    complete_set (H := field_text) (H0 := padded_digest) ordered /\
    [a; b] = ordered ≫= rows /\ length [a; b] <= 10.
Proof.
  intros a b.
  apply (barrier_accepts_exactly_complete_sets (H := field_text) (H0 := padded_digest)
    [sample_report 1 [b]; sample_report 0 [a]] 10 [a; b]); by vm_compute.
Defined.

(** ** Relation digests *)

Section digests.
Context `{TermText, Sha256}.

Definition row_step (hash : list byte) (row : Value) : result ExecutionError (list byte) :=
  key ← canonical_binding_key row; hash_component hash key.

Lemma row_step_ok hash row hash' :
  row_step hash row = Ok hash' ->
  exists m key c, row = JObject m /\ canonical_binding_key (JObject m) = Ok key /\
    component key = Some c /\ hash' = hash ++ c.
Proof using Type.
  unfold row_step, hash_component. intros Hr. do 2 inv_ok Hr. injection Hr as <-. inv_ok Ha0.
  pose proof Ha as Hm. unfold canonical_binding_key in Hm. inv_ok Hm. inv_ok Ha1.
  destruct row as [| | | | |m]; try done. by exists m, a, a0.
Qed.

Lemma row_fold_prefix rows hash hash' :
  try_fold row_step hash rows = Ok hash' -> exists tail, hash' = hash ++ tail.
Proof using Type.
  revert hash; induction rows as [|row rows IH]; cbn; intros hash Hk.
  - injection Hk as <-. exists []. by rewrite app_nil_r.
  - inv_ok Hk. apply row_step_ok in Ha as (m & key & c & _ & _ & _ & ->).
    apply IH in Hk as (tail & ->). exists (c ++ tail). by rewrite (assoc (++)).
Qed.

Lemma row_fold_inj rows1 rows2 hash out :
  try_fold row_step hash rows1 = Ok out -> try_fold row_step hash rows2 = Ok out -> rows1 = rows2.
Proof using Type.
  assert (forall row rows hash, ~ try_fold row_step hash (row :: rows) = Ok hash) as Hgrow.
  { intros row rows h Hf. cbn in Hf. inv_ok Hf. apply row_step_ok in Ha as (m & k & c & _ & _ & Hc & ->).
    apply row_fold_prefix in Hf as (tail & Heq). apply component_some in Hc as [_ ->].
    apply (f_equal length) in Heq. rewrite !length_app, length_to_be_bytes in Heq. lia. }
  revert rows2 hash; induction rows1 as [|r1 rows1 IH]; intros [|r2 rows2] hash H1 H2; [done| | |].
  - injection H1 as ->. by apply Hgrow in H2.
  - injection H2 as ->. by apply Hgrow in H1.
  - cbn in H1, H2. inv_ok H1. inv_ok H2.
    apply row_step_ok in Ha as (m & k & c & -> & Hk & Hc & ->).
    apply row_step_ok in Ha0 as (m' & k' & c' & -> & Hk' & Hc' & ->).
    pose proof (row_fold_prefix _ _ _ H1) as (t1 & Ho1).
    pose proof (row_fold_prefix _ _ _ H2) as (t2 & Ho2). rewrite Ho1, <- !(assoc (++)) in Ho2.
    apply (inj (hash ++.)) in Ho2. destruct (component_app_inj _ _ _ _ _ _ Hc Hc' Ho2) as [-> _].
    assert (c = c') as -> by congruence. rewrite (canonical_binding_key_inj m m' k') by done.
    f_equal. by eapply IH.
Qed.

(** the checksum the barrier verifies binds the rows: two relations with
    one head and one digest are equal row by row, or the bytes hashed for them
    differ and collide. *)
Theorem relation_digest_binds_rows head rows1 rows2 digest :
  relation_sha256 head rows1 = Ok digest -> relation_sha256 head rows2 = Ok digest ->
  rows1 = rows2 \/
  exists p1 p2, relation_preimage head rows1 = Ok p1 /\ relation_preimage head rows2 = Ok p2 /\ collide p1 p2.
Proof using Type.
  unfold relation_sha256. intros H1 H2. do 2 inv_ok H1. do 2 inv_ok H2. injection H1 as H1. injection H2 as H2.
  destruct (hex_digest_inj a0 a2) as [->|]; [congruence|left|right; by exists a0, a2].
  unfold relation_preimage in Ha0, Ha2. inv_ok Ha0. inv_ok Ha2.
  assert (a0 = a3) as -> by congruence. by eapply row_fold_inj.
Qed.
End digests.

Lemma relation_digest_binds_rows_witness :
  let rows := [JObject {["x" := uri "a"]}] in
  rows = rows \/
  exists p1 p2, relation_preimage (H := field_text) ["x"] rows = Ok p1 /\ relation_preimage (H := field_text) ["x"] rows = Ok p2 /\
    collide (H := padded_digest) p1 p2.
Proof.
  intros rows. destruct (relation_sha256 (H := field_text) (H0 := padded_digest) ["x"] rows) as [d|e] eqn:Hd.
  - exact (relation_digest_binds_rows (H := field_text) (H0 := padded_digest) ["x"] rows rows d Hd Hd).
  - exfalso. vm_compute in Hd. discriminate Hd.
Defined.

(** OPTIONAL without a filter is computed exactly: every left solution is
    extended by all compatible right solutions or kept once when there is
    none, and the row ceiling is the only failure. *)
Theorem left_join_exact (L R : list Map) max :
  Forall valid_object L -> Forall valid_object R ->
  left_join_sparql_json (JObject <$> L) (JObject <$> R) max
  = bounded max IntermediateRowLimit (JObject <$> sparql_left_join L R).
Proof. apply left_join_spec. Qed.

Lemma left_join_exact_witness :
  left_join_sparql_json (JObject <$> sample_left) (JObject <$> sample_right) 3
  = Ok [JObject {["x" := uri "a"; "y" := uri "c"]}; JObject {["x" := uri "b"]};
        JObject {["x" := uri "a"; "y" := uri "c"]}].
Proof.
  rewrite left_join_exact; [by vm_compute|unfold sample_left; solve_valid|unfold sample_right; solve_valid].
Defined.
