(* ===== verification/PathCompiler.v ===== *)
(** * Compiling SPARQL property paths to automata

    Models [PathAutomatonBuilder] and [compile_path_automaton] of
    src/crates/ngkg-sparql-compiler/src/lib.rs: the Thompson construction that
    turns a property-path expression into the automaton the distributed
    traversal runs.  The path expressions are those of the SPARQL parser the
    compiler matches on.  The reference is the SPARQL 1.1 meaning of a path as
    a relation between nodes, and the theorem is that the runs of the compiled
    automaton between its start and accept state are exactly that relation. *)

From Stdlib Require Import Strings.String.
From S2P Require Import Prelude Words Ordered Digest Planner.

(** ** Path expressions and the builder *)

Inductive PropertyPathExpression :=
| NamedNode (iri : string)
| ReversePath (path : PropertyPathExpression)
| Sequence (lhs rhs : PropertyPathExpression)
| Alternative (lhs rhs : PropertyPathExpression)
| ZeroOrMore (path : PropertyPathExpression)
| OneOrMore (path : PropertyPathExpression)
| ZeroOrOne (path : PropertyPathExpression)
| NegatedSet (iris : list string).

Record PathAutomatonBuilder := {
  builder_state_count : N;
  builder_transitions : list PathTransition;
}.

Definition new_state (b : PathAutomatonBuilder) :
    result PropertyPathPlanError (N * PathAutomatonBuilder) :=
  next ← ok_or (checked_add U32_LIMIT (builder_state_count b) 1) PathInvalidAutomaton;
  Ok (builder_state_count b,
      {| builder_state_count := next; builder_transitions := builder_transitions b |}).

Definition push_transition (t : PathTransition) (b : PathAutomatonBuilder) : PathAutomatonBuilder :=
  {| builder_state_count := builder_state_count b;
     builder_transitions := builder_transitions b ++ [t] |}.

Definition eps (from to : N) : PathTransition :=
  {| from_state := from; to_state := to; transition := Epsilon |}.

Definition epsilon (from to : N) (b : PathAutomatonBuilder) : PathAutomatonBuilder :=
  push_transition (eps from to) b.

Definition direction_of (reverse : bool) : PathDirection := if reverse then Reverse else Forward.

(** The two states every operator but Reverse and Sequence allocates. *)
Definition new_states (b : PathAutomatonBuilder) :
    result PropertyPathPlanError (N * N * PathAutomatonBuilder) :=
  '(start, b) ← new_state b;
  '(end_, b) ← new_state b;
  Ok (start, end_, b).

Fixpoint fragment (path : PropertyPathExpression) (reverse : bool) (b : PathAutomatonBuilder) :
    result PropertyPathPlanError (N * N * PathAutomatonBuilder) :=
  match path with
  | NamedNode iri =>
      '(start, end_, b) ← new_states b;
      Ok (start, end_,
          push_transition {| from_state := start; to_state := end_;
                             transition := Predicate (direction_of reverse) iri |} b)
  | ReversePath inner => fragment inner (negb reverse) b
  | Sequence lhs rhs =>
      if reverse then
        '(start, middle_left, b) ← fragment rhs reverse b;
        '(middle_right, end_, b) ← fragment lhs reverse b;
        Ok (start, end_, epsilon middle_left middle_right b)
      else
        '(start, middle_left, b) ← fragment lhs reverse b;
        '(middle_right, end_, b) ← fragment rhs reverse b;
        Ok (start, end_, epsilon middle_left middle_right b)
  | Alternative lhs rhs =>
      '(start, end_, b) ← new_states b;
      '(left_start, left_end, b) ← fragment lhs reverse b;
      '(right_start, right_end, b) ← fragment rhs reverse b;
      Ok (start, end_,
          epsilon right_end end_ (epsilon left_end end_
            (epsilon start right_start (epsilon start left_start b))))
  | ZeroOrMore inner =>
      '(start, end_, b) ← new_states b;
      '(inner_start, inner_end, b) ← fragment inner reverse b;
      Ok (start, end_,
          epsilon inner_end end_ (epsilon inner_end inner_start
            (epsilon start inner_start (epsilon start end_ b))))
  | OneOrMore inner =>
      '(start, end_, b) ← new_states b;
      '(inner_start, inner_end, b) ← fragment inner reverse b;
      Ok (start, end_,
          epsilon inner_end end_ (epsilon inner_end inner_start (epsilon start inner_start b)))
  | ZeroOrOne inner =>
      '(start, end_, b) ← new_states b;
      '(inner_start, inner_end, b) ← fragment inner reverse b;
      Ok (start, end_,
          epsilon inner_end end_ (epsilon start inner_start (epsilon start end_ b)))
  | NegatedSet nodes =>
      '(start, end_, b) ← new_states b;
      Ok (start, end_,
          push_transition {| from_state := start; to_state := end_;
                             transition := NegatedPropertySet (direction_of reverse) (dedup (sort nodes)) |} b)
  end.

(** The derived order on transitions. *)
Definition direction_rank (d : PathDirection) : N := match d with Forward => 0 | Reverse => 1 end.
Definition kind_tuple (k : PathTransitionKind) : N * (N * list string) :=
  match k with
  | Epsilon => (0%N, (0%N, []))
  | Predicate d iri => (1%N, (direction_rank d, [iri]))
  | NegatedPropertySet d iris => (2%N, (direction_rank d, iris))
  end.
Definition transition_tuple (t : PathTransition) : N * (N * (N * (N * list string))) :=
  (from_state t, (to_state t, kind_tuple (transition t))).

Global Instance transition_tuple_inj : Inj (=) (=) transition_tuple.
Proof.
  intros [f1 t1 k1] [f2 t2 k2]; unfold transition_tuple; cbn. intros [= -> -> Hk]. f_equal.
  destruct k1 as [|[]|[]], k2 as [|[]|[]]; cbn in Hk; congruence.
Qed.
Global Instance PathTransition_ord : RustOrd PathTransition := ord_by transition_tuple _.

Definition compile_path_automaton (path : PropertyPathExpression) :
    result PropertyPathPlanError DistributedPathAutomaton :=
  '(start_state, accept_state, b) ← fragment path false {| builder_state_count := 0; builder_transitions := [] |};
  Ok {| format_version := 1; state_count := builder_state_count b; start_state := start_state;
        accept_states := [accept_state]; transitions := sort (builder_transitions b) |}.

(** The wrappers around one inner fragment: [skip] allows no occurrence,
    [again] allows repetition. *)
Definition wrapper (skip again : bool) (s e s1 e1 : N) : list PathTransition :=
  (if skip then [eps s e] else []) ++ [eps s s1] ++ (if again then [eps e1 s1] else []) ++ [eps e1 e].

Lemma elem_of_wrapper skip again s e s1 e1 t :
  t ∈ wrapper skip again s e s1 e1 <->
  (skip = true /\ t = eps s e) \/ t = eps s s1 \/ (again = true /\ t = eps e1 s1) \/ t = eps e1 e.
Proof. unfold wrapper. destruct skip, again; set_solver. Qed.

(** ** Reference semantics *)
Section semantics.
(** The triples in scope: subject, predicate, object. *)
Context (G : N -> string -> N -> Prop).

(** The SPARQL 1.1 relation of a property path. *)
Fixpoint path_rel (p : PropertyPathExpression) : relation N :=
  match p with
  | NamedNode iri => fun x y => G x iri y
  | ReversePath p => flip (path_rel p)
  | Sequence p q => fun x y => exists z, path_rel p x z /\ path_rel q z y
  | Alternative p q => fun x y => path_rel p x y \/ path_rel q x y
  | ZeroOrMore p => rtc (path_rel p)
  | OneOrMore p => tc (path_rel p)
  | ZeroOrOne p => fun x y => x = y \/ path_rel p x y
  | NegatedSet iris => fun x y => exists iri, (iri ∉ iris) /\ G x iri y
  end.

(** The node pairs one transition connects. *)
Definition oriented (d : PathDirection) (iri : string) (x y : N) : Prop :=
  match d with Forward => G x iri y | Reverse => G y iri x end.
Definition label_rel (k : PathTransitionKind) (x y : N) : Prop :=
  match k with
  | Epsilon => x = y
  | Predicate d iri => oriented d iri x y
  | NegatedPropertySet d iris => exists iri, (iri ∉ iris) /\ oriented d iri x y
  end.

(** One step of the automaton on configurations (state, node). *)
Definition nfa_step (ts : list PathTransition) (c d : N * N) : Prop :=
  exists t, t ∈ ts /\ from_state t = c.1 /\ to_state t = d.1 /\ label_rel (transition t) c.2 d.2.

Lemma nfa_step_mono ts ts' : ts ⊆ ts' -> forall c d, nfa_step ts c d -> nfa_step ts' c d.
Proof. intros Hsub c d (t & Ht & ?). exists t. split; [by apply Hsub|done]. Qed.

Lemma nfa_run_mono ts ts' c d : ts ⊆ ts' -> rtc (nfa_step ts) c d -> rtc (nfa_step ts') c d.
Proof. intros Hsub. apply rtc_subrel. intros. by eapply nfa_step_mono. Qed.

Lemma eps_step ts p q x : eps p q ∈ ts -> nfa_step ts (p, x) (q, x).
Proof. intros Hin. by exists (eps p q). Qed.

(** A configuration no transition leaves. *)
Lemma nfa_stuck ts e n y c :
  (forall t, t ∈ ts -> from_state t <> e) -> nsteps (nfa_step ts) n (e, y) c -> c = (e, y).
Proof.
  intros He Hn. inversion Hn as [|? ? d ? (t & Ht & Hf & _)]; subst; [done|]. by destruct (He t Ht).
Qed.

(** A run that starts inside a fragment and ends outside it, or at its exit,
    passes through the exit; the part before is a run of the fragment. *)
Lemma exit_fragment ts ts1 (inside : N -> Prop) e n q x q' z :
  (forall t, t ∈ ts -> inside (from_state t) -> from_state t <> e -> t ∈ ts1) ->
  (forall t, t ∈ ts1 -> inside (to_state t)) ->
  nsteps (nfa_step ts) n (q, x) (q', z) -> inside q -> (inside q' -> q' = e) ->
  exists m y, m <= n /\ rtc (nfa_step ts1) (q, x) (e, y) /\ nsteps (nfa_step ts) m (e, y) (q', z).
Proof.
  intros Hts Hts1. revert q x. induction n as [|n IH]; intros q x Hn Hq Hq'.
  - inversion Hn; subst. rewrite (Hq' Hq). exists 0, z. split_and!; [done|done|constructor].
  - destruct (decide (q = e)) as [->|Hqe].
    { exists (S n), x. split_and!; [done|done|done]. }
    inversion Hn as [|? ? [r w] ? Hstep Hrest]; subst.
    destruct Hstep as (t & Ht & Hf & Ht' & Hl). cbn in *. subst.
    assert (t ∈ ts1) as Hin by auto.
    destruct (IH _ _ Hrest (Hts1 _ Hin) Hq') as (m & y & Hm & Hrun & Htail).
    exists m, y. split_and!; [lia| |done]. eapply rtc_l; [|done]. by exists t.
Qed.

(** ** Fragments *)

(** A fragment owns the states [n, n'), enters at [s], leaves at [e], and none
    of its transitions leaves [e]. *)
Record frag (n n' s e : N) (ts : list PathTransition) : Prop := {
  frag_start : (n <= s < n')%N;
  frag_end : (n <= e < n')%N;
  frag_neq : s <> e;
  frag_from : forall t, t ∈ ts -> (n <= from_state t < n')%N /\ from_state t <> e;
  frag_to : forall t, t ∈ ts -> (n <= to_state t < n')%N;
}.

Definition runs (ts : list PathTransition) (s e : N) (R : relation N) : Prop :=
  forall x y, rtc (nfa_step ts) (s, x) (e, y) <-> R x y.

(** Transitions that only connect fragments. *)
Definition glue (es : list PathTransition) : Prop := forall t, t ∈ es -> transition t = Epsilon.

(** Leaving a fragment embedded with glue that touches it only at its exit. *)
Lemma leave_fragment ts n n' s e ts1 R1 k x q' z :
  frag n n' s e ts1 -> runs ts1 s e R1 ->
  (forall t, t ∈ ts -> (n <= from_state t < n')%N -> from_state t <> e -> t ∈ ts1) ->
  nsteps (nfa_step ts) k (s, x) (q', z) -> ~ (n <= q' < n')%N \/ q' = e ->
  exists m y, m <= k /\ R1 x y /\ nsteps (nfa_step ts) m (e, y) (q', z).
Proof using Type.
  intros [Hs He Hne Hf Ht] Hr Hts Hn Hq.
  destruct (exit_fragment ts ts1 (fun q => n <= q < n')%N e k s x q' z)
    as (m & y & Hm & Hrun & Htail); [done|done|done|done|intros; by destruct Hq|].
  exists m, y. split_and!; [done|by apply Hr|done].
Qed.

(** The first step out of a state all of whose transitions are epsilon. *)
Lemma glue_step ts q k y q' z :
  (forall t, t ∈ ts -> from_state t = q -> transition t = Epsilon) ->
  nsteps (nfa_step ts) k (q, y) (q', z) -> q <> q' ->
  exists k' t, k = S k' /\ t ∈ ts /\ from_state t = q /\ nsteps (nfa_step ts) k' (to_state t, y) (q', z).
Proof using Type.
  intros He Hn Hne. inversion Hn as [|k' ? [r w] ? (t & Ht & Hf & Hto & Hl) Hrest]; subst; [done|].
  exists k', t. cbn in *. subst. rewrite (He t) in Hl by done. cbn in Hl. subst. done.
Qed.

Lemma run_nsteps ts c d : rtc (nfa_step ts) c d <-> exists k, nsteps (nfa_step ts) k c d.
Proof using Type. apply rtc_nsteps. Qed.

Ltac elim_transitions :=
  repeat match goal with
  | H : _ ∈ _ ++ _ |- _ => apply elem_of_app in H as [H|H]
  | H : _ ∈ _ :: _ |- _ => apply elem_of_cons in H as [H|H]; [subst|]
  | H : _ ∈ [] |- _ => by apply elem_of_nil in H
  end.

Lemma frag_seq n n1 n2 s1 e1 s2 e2 ts1 ts2 R1 R2 :
  frag n n1 s1 e1 ts1 -> runs ts1 s1 e1 R1 -> frag n1 n2 s2 e2 ts2 -> runs ts2 s2 e2 R2 ->
  let ts := (ts1 ++ ts2) ++ [eps e1 s2] in
  frag n n2 s1 e2 ts /\ runs ts s1 e2 (fun x y => exists z, R1 x z /\ R2 z y).
Proof using Type.
  intros F1 HR1 F2 HR2 ts. pose proof F1 as [Hs1 He1 Hne1 Hf1 Ht1]. pose proof F2 as [Hs2 He2 Hne2 Hf2 Ht2].
  assert (forall t, t ∈ ts -> from_state t = e1 -> t = eps e1 s2) as Hout.
  { intros t Ht Hf. unfold ts in Ht. elim_transitions; [by destruct (Hf1 t Ht)| |done].
    destruct (Hf2 t Ht). lia. }
  split.
  - split; [lia|lia|lia| |]; intros t Ht; unfold ts in Ht; elim_transitions; cbn;
      try (destruct (Hf1 t Ht); specialize (Ht1 t Ht); lia);
      try (destruct (Hf2 t Ht); specialize (Ht2 t Ht); lia); lia.
  - intros x z. split.
    + intros [k Hk]%run_nsteps.
      eapply (leave_fragment ts) in Hk as (m & y & _ & Hxy & Hk); [|done|done| |left; lia].
      2:{ intros t Ht Hb Hn. unfold ts in Ht. elim_transitions; [done| |done]. destruct (Hf2 t Ht). lia. }
      apply glue_step in Hk as (m' & t & -> & Ht & Hf & Hk); [| |lia].
      2:{ intros t Ht Hf. by rewrite (Hout t Ht Hf). }
      rewrite (Hout t Ht Hf) in Hk. cbn in Hk.
      eapply (leave_fragment ts) in Hk as (m'' & y' & _ & Hyz & Hk); [|done|done| |by right].
      2:{ intros u Hu Hb Hn. unfold ts in Hu. elim_transitions; [|done|cbn in *; lia]. destruct (Hf1 u Hu). lia. }
      apply nfa_stuck in Hk as [= ->].
      2:{ intros u Hu. unfold ts in Hu. elim_transitions; cbn; [|by destruct (Hf2 u Hu)|lia].
          destruct (Hf1 u Hu). lia. }
      by exists y.
    + intros (y & Hxy%HR1 & Hyz%HR2).
      transitivity (e1, y); [eapply nfa_run_mono; [|done]; set_solver|].
      eapply rtc_l; [apply (eps_step ts e1 s2); set_solver|]. eapply nfa_run_mono; [|done]. set_solver.
Qed.

Lemma frag_alt n n1 n2 s1 e1 s2 e2 ts1 ts2 R1 R2 (s := n) (e := (n + 1)%N) :
  frag (n + 2) n1 s1 e1 ts1 -> runs ts1 s1 e1 R1 -> frag n1 n2 s2 e2 ts2 -> runs ts2 s2 e2 R2 ->
  let ts := (ts1 ++ ts2) ++ [eps s s1; eps s s2; eps e1 e; eps e2 e] in
  frag n n2 s e ts /\ runs ts s e (fun x y => R1 x y \/ R2 x y).
Proof using Type.
  intros F1 HR1 F2 HR2 ts. pose proof F1 as [Hs1 He1 Hne1 Hf1 Ht1]. pose proof F2 as [Hs2 He2 Hne2 Hf2 Ht2].
  assert (forall t, t ∈ ts -> from_state t = e1 -> t = eps e1 e) as Hout1.
  { intros t Ht Hf. unfold ts in Ht. elim_transitions; cbn in *; try done; try lia.
    - by destruct (Hf1 t Ht).
    - destruct (Hf2 t Ht). lia. }
  assert (forall t, t ∈ ts -> from_state t = e2 -> t = eps e2 e) as Hout2.
  { intros t Ht Hf. unfold ts in Ht. elim_transitions; cbn in *; try done; try lia.
    - destruct (Hf1 t Ht). lia.
    - by destruct (Hf2 t Ht). }
  assert (forall t, t ∈ ts -> from_state t = s -> t = eps s s1 \/ t = eps s s2) as Hstart.
  { intros t Ht Hf. unfold ts in Ht. elim_transitions; cbn in *; auto; try (subst s; lia).
    - destruct (Hf1 t Ht). subst s. lia.
    - destruct (Hf2 t Ht). subst s. lia. }
  assert (forall t, t ∈ ts -> from_state t <> e) as Hend.
  { intros t Ht Hf. unfold ts in Ht. elim_transitions; cbn in *; subst s e; try lia.
    - destruct (Hf1 t Ht). lia.
    - destruct (Hf2 t Ht). lia. }
  split.
  - subst s e. split; [lia|lia|lia| |]; intros t Ht; [split; [|by apply Hend]|]; unfold ts in Ht;
      elim_transitions; cbn;
      try (destruct (Hf1 t Ht); specialize (Ht1 t Ht); lia);
      try (destruct (Hf2 t Ht); specialize (Ht2 t Ht); lia); lia.
  - intros x z. split.
    + intros [k Hk]%run_nsteps.
      apply glue_step in Hk as (k' & t & -> & Ht & Hf & Hk); [| |subst s e; lia].
      2:{ intros t Ht Hf. by destruct (Hstart t Ht Hf) as [->| ->]. }
      destruct (Hstart t Ht Hf) as [->| ->]; cbn in Hk; [left|right].
      * eapply (leave_fragment ts) in Hk as (m & y & _ & Hxy & Hk); [|done|done| |left; subst e; lia].
        2:{ intros u Hu Hb Hn. unfold ts in Hu. elim_transitions; cbn in *; subst s; try done; try lia.
            destruct (Hf2 u Hu). lia. }
        apply glue_step in Hk as (m' & u & -> & Hu & Hfu & Hk); [| |subst e; lia].
        2:{ intros u Hu Hfu. by rewrite (Hout1 u Hu Hfu). }
        rewrite (Hout1 u Hu Hfu) in Hk. by apply nfa_stuck in Hk as [= ->].
      * eapply (leave_fragment ts) in Hk as (m & y & _ & Hxy & Hk); [|done|done| |left; subst e; lia].
        2:{ intros u Hu Hb Hn. unfold ts in Hu. elim_transitions; cbn in *; subst s; try done; try lia.
            destruct (Hf1 u Hu). lia. }
        apply glue_step in Hk as (m' & u & -> & Hu & Hfu & Hk); [| |subst e; lia].
        2:{ intros u Hu Hfu. by rewrite (Hout2 u Hu Hfu). }
        rewrite (Hout2 u Hu Hfu) in Hk. by apply nfa_stuck in Hk as [= ->].
    + intros [Hxy%HR1|Hxy%HR2].
      * eapply rtc_l; [apply (eps_step ts s s1); set_solver|]. eapply rtc_r; [|apply (eps_step ts e1 e); set_solver].
        eapply nfa_run_mono; [|done]. set_solver.
      * eapply rtc_l; [apply (eps_step ts s s2); set_solver|]. eapply rtc_r; [|apply (eps_step ts e2 e); set_solver].
        eapply nfa_run_mono; [|done]. set_solver.
Qed.

Lemma frag_wrap skip again n n1 s1 e1 ts1 R1 (s := n) (e := (n + 1)%N) :
  frag (n + 2) n1 s1 e1 ts1 -> runs ts1 s1 e1 R1 ->
  let ts := ts1 ++ wrapper skip again s e s1 e1 in
  frag n n1 s e ts /\
  runs ts s e (fun x y => (skip = true /\ x = y) \/ (if again then tc R1 x y else R1 x y)).
Proof using Type.
  intros F1 HR1 ts. pose proof F1 as [Hs1 He1 Hne1 Hf1 Ht1].
  assert (forall t, t ∈ ts -> t ∈ ts1 \/ t ∈ wrapper skip again s e s1 e1) as Hin by (intros; by apply elem_of_app).
  assert (forall t, t ∈ ts -> from_state t = e1 -> (again = true /\ t = eps e1 s1) \/ t = eps e1 e) as Hout.
  { intros t [Ht|[[_ ->]|[->|[?| ->]]]%elem_of_wrapper]%Hin Hf; auto; cbn in Hf; subst s; try lia.
    by destruct (Hf1 t Ht). }
  assert (forall t, t ∈ ts -> from_state t = s -> (skip = true /\ t = eps s e) \/ t = eps s s1) as Hstart.
  { intros t [Ht|[?|[->|[[_ ->]| ->]]]%elem_of_wrapper]%Hin Hf; auto; cbn in Hf; subst s; try lia.
    destruct (Hf1 t Ht). lia. }
  assert (forall t, t ∈ ts -> from_state t <> e) as Hend.
  { intros t [Ht|[[_ ->]|[->|[[_ ->]| ->]]]%elem_of_wrapper]%Hin; cbn; subst s e; try lia.
    destruct (Hf1 t Ht). lia. }
  assert (forall t, t ∈ ts -> (n + 2 <= from_state t < n1)%N -> from_state t <> e1 -> t ∈ ts1) as Hown.
  { intros t [Ht|[[_ ->]|[->|[[_ ->]| ->]]]%elem_of_wrapper]%Hin Hb Hn; cbn in *; subst s; done || lia. }
  assert (forall k x z, nsteps (nfa_step ts) k (s1, x) (e, z) -> if again then tc R1 x z else R1 x z) as Hinner.
  { intros k. induction (lt_wf k) as [k _ IH]. intros x z Hk.
    eapply (leave_fragment ts) in Hk as (m & y & Hm & Hxy & Hk); [|done|done|done|left; subst e; lia].
    apply glue_step in Hk as (m' & t & -> & Ht & Hf & Hk); [| |subst e; lia].
    2:{ intros t Ht Hf. by destruct (Hout t Ht Hf) as [[_ ->]| ->]. }
    destruct (Hout t Ht Hf) as [[Hag ->]| ->]; cbn in Hk.
    - apply IH in Hk; [|lia]. rewrite Hag in *. by eapply tc_l.
    - apply nfa_stuck in Hk as [= ->]; [|done]. destruct again; [by apply tc_once|done]. }
  assert (forall x y, R1 x y -> rtc (nfa_step ts) (s1, x) (e1, y)) as Hrun.
  { intros x y Hxy%HR1. eapply nfa_run_mono; [|done]. set_solver. }
  assert (forall p q, eps p q ∈ wrapper skip again s e s1 e1 -> forall x, nfa_step ts (p, x) (q, x)) as Hglue.
  { intros p q Hpq x. apply eps_step, elem_of_app. by right. }
  setoid_rewrite elem_of_wrapper in Hglue.
  split.
  - subst s e. split; [lia|lia|lia| |]; intros t Ht; [split; [|by apply Hend]|];
      (apply Hin in Ht as [Ht|[[_ ->]|[->|[[_ ->]| ->]]]%elem_of_wrapper]; cbn; try lia;
       destruct (Hf1 t Ht); specialize (Ht1 t Ht); lia).
  - intros x z. split.
    + intros [k Hk]%run_nsteps.
      apply glue_step in Hk as (k' & t & -> & Ht & Hf & Hk); [| |subst s e; lia].
      2:{ intros t Ht Hf. by destruct (Hstart t Ht Hf) as [[_ ->]| ->]. }
      destruct (Hstart t Ht Hf) as [[Hsk ->]| ->]; cbn in Hk.
      * apply nfa_stuck in Hk as [= ->]; [|done]. by left.
      * right. by eapply Hinner.
    + intros [[Hsk <-]|Hxz].
      * apply rtc_once, Hglue. by left.
      * eapply rtc_l; [apply Hglue; right; by left|].
        assert (forall y, rtc (nfa_step ts) (s1, x) (e1, y) -> rtc (nfa_step ts) (s1, x) (e, y)) as Hexit.
        { intros y Hy. eapply rtc_r; [done|]. apply Hglue. naive_solver. }
        destruct again; [|by auto]. induction Hxz as [x y Hxy|x y z Hxy _ IH]; [by auto|].
        transitivity (e1, y); [by auto|].
        eapply rtc_l; [apply (Hglue e1 s1); naive_solver|]. apply IH.
        intros w Hw. eapply rtc_r; [done|]. apply Hglue. naive_solver.
Qed.

(** A fragment of one labelled transition. *)
Lemma frag_single n kind (s := n) (e := (n + 1)%N) :
  kind <> Epsilon ->
  let ts := [{| from_state := s; to_state := e; transition := kind |}] in
  frag n (n + 2) s e ts /\ runs ts s e (label_rel kind).
Proof using Type.
  intros Hk ts. split.
  - subst s e. split; [lia|lia|lia| |]; intros t ->%list_elem_of_singleton; cbn; lia.
  - intros x y. split.
    + intros Hr. inversion Hr as [|? [q w] ? (t & ->%list_elem_of_singleton & Hf & Ht & Hl) Hrest];
        [subst s e; lia|]. cbn in *. subst q. apply run_nsteps in Hrest as [k Hrest].
      apply nfa_stuck in Hrest as [= ->]; [done|]. intros t ->%list_elem_of_singleton. cbn. subst s e. lia.
    + intros Hl. apply rtc_once. eexists. split; [by left|done].
Qed.
End semantics.

(** ** The construction is correct *)

(** Traversing a path backwards. *)
Definition dir_rel (G : N -> string -> N -> Prop) (reverse : bool) (p : PropertyPathExpression) : relation N :=
  if reverse then flip (path_rel G p) else path_rel G p.

Lemma tc_swap {A} (R : relation A) x y : tc (flip R) x y <-> tc R y x.
Proof.
  cut (forall (R : relation A) x y, tc (flip R) x y -> tc R y x).
  { intros Hc. split; [apply Hc|]. intros Hxy. apply (Hc (flip R)), Hxy. }
  clear. intros R x y. induction 1 as [x y Hxy|x y z Hxy _ IH]; [by apply tc_once|].
  eapply tc_r; [apply IH|done].
Qed.

Lemma tc_dir G reverse p x y :
  tc (dir_rel G reverse p) x y <-> dir_rel G reverse (OneOrMore p) x y.
Proof. destruct reverse; cbn; [apply tc_swap|done]. Qed.

Lemma dir_star G reverse p x y :
  dir_rel G reverse (ZeroOrMore p) x y <-> x = y \/ tc (dir_rel G reverse p) x y.
Proof.
  rewrite tc_dir. destruct reverse; cbn; unfold flip; rewrite rtc_tc; naive_solver.
Qed.

Lemma runs_ext G ts s e (R R' : relation N) :
  (forall x y, R x y <-> R' x y) -> runs G ts s e R -> runs G ts s e R'.
Proof. intros HR Hr x y. by rewrite <- HR. Qed.

Lemma new_states_ok b s e b' :
  new_states b = Ok (s, e, b') ->
  s = builder_state_count b /\ e = (builder_state_count b + 1)%N /\
  builder_state_count b' = (builder_state_count b + 2)%N /\
  builder_transitions b' = builder_transitions b.
Proof.
  unfold new_states, new_state. intros Hn.
  destruct (checked_add U32_LIMIT (builder_state_count b) 1) as [c|] eqn:Hc; [|done]. cbn in Hn.
  destruct (checked_add U32_LIMIT c 1) as [d|] eqn:Hd; [|done]. cbn in Hn.
  apply checked_add_some in Hc as [-> _], Hd as [-> _]. injection Hn as <- <- <-. cbn.
  split_and!; [done|done|lia|done].
Qed.

(** Excluded sets are ascending, as the traversal's binary search needs. *)
Definition sorted_exclusions (ts : list PathTransition) : Prop :=
  forall t d iris, t ∈ ts -> transition t = NegatedPropertySet d iris -> StronglySorted rlt iris.

Lemma sorted_exclusions_app ts ts' :
  sorted_exclusions ts -> sorted_exclusions ts' -> sorted_exclusions (ts ++ ts').
Proof. intros H1 H2 t d iris [Ht|Ht]%elem_of_app; eauto. Qed.

Lemma sorted_exclusions_glue ts : glue ts -> sorted_exclusions ts.
Proof. intros Hg t d iris Ht Hk. by rewrite (Hg t Ht) in Hk. Qed.

Lemma glue_wrapper skip again s e s1 e1 : glue (wrapper skip again s e s1 e1).
Proof. intros t Ht. apply elem_of_wrapper in Ht. naive_solver. Qed.

Definition fragment_ok (G : N -> string -> N -> Prop) (p : PropertyPathExpression) (reverse : bool)
    (b : PathAutomatonBuilder) (out : N * N * PathAutomatonBuilder) : Prop :=
  let '(s, e, b') := out in
  exists ts, builder_transitions b' = builder_transitions b ++ ts /\
    frag (builder_state_count b) (builder_state_count b') s e ts /\
    runs G ts s e (dir_rel G reverse p) /\ sorted_exclusions ts.

(** Wrapping an inner fragment between two fresh states. *)
Lemma fragment_wrap G skip again p q reverse b s e b1 s1 e1 b2 b' :
  new_states b = Ok (s, e, b1) -> fragment_ok G p reverse b1 (s1, e1, b2) ->
  builder_state_count b' = builder_state_count b2 ->
  builder_transitions b' = builder_transitions b2 ++ wrapper skip again s e s1 e1 ->
  (forall x y, (skip = true /\ x = y) \/
     (if again then tc (dir_rel G reverse p) x y else dir_rel G reverse p x y) <-> dir_rel G reverse q x y) ->
  fragment_ok G q reverse b (s, e, b').
Proof.
  intros (-> & -> & Hc & Ht)%new_states_ok (ts & Hts & HF & HR & Hs) Hcount Htr Heq.
  rewrite Hc in HF. destruct (frag_wrap G skip again _ _ _ _ _ _ HF HR) as [HF' HR'].
  exists (ts ++ wrapper skip again (builder_state_count b) (builder_state_count b + 1) s1 e1).
  rewrite Htr, Hts, Ht, Hcount, <- (assoc (++)). split_and!; [done|done|eapply runs_ext; [exact Heq|exact HR']|].
  apply sorted_exclusions_app; [done|]. apply sorted_exclusions_glue, glue_wrapper.
Qed.

Lemma fragment_single G kind p reverse b s e b1 b' :
  new_states b = Ok (s, e, b1) ->
  b' = push_transition {| from_state := s; to_state := e; transition := kind |} b1 ->
  kind <> Epsilon -> (forall d iris, kind = NegatedPropertySet d iris -> StronglySorted rlt iris) ->
  (forall x y, label_rel G kind x y <-> dir_rel G reverse p x y) ->
  fragment_ok G p reverse b (s, e, b').
Proof.
  intros (-> & -> & Hc & Ht)%new_states_ok -> Hk Hs Heq.
  destruct (frag_single G (builder_state_count b) kind Hk) as [HF HR].
  eexists. cbn. rewrite Ht, Hc. split_and!; [done|done|eapply runs_ext; [exact Heq|exact HR]|].
  intros t d iris ->%list_elem_of_singleton. cbn. apply Hs.
Qed.

Lemma fragment_sequence G p q r reverse b s1 e1 b1 s2 e2 b2 :
  fragment_ok G p reverse b (s1, e1, b1) -> fragment_ok G q reverse b1 (s2, e2, b2) ->
  (forall x y, (exists z, dir_rel G reverse p x z /\ dir_rel G reverse q z y) <-> dir_rel G reverse r x y) ->
  fragment_ok G r reverse b (s1, e2, epsilon e1 s2 b2).
Proof.
  intros (ts1 & Ht1 & F1 & R1 & S1) (ts2 & Ht2 & F2 & R2 & S2) Heq.
  destruct (frag_seq G _ _ _ _ _ _ _ _ _ _ _ F1 R1 F2 R2) as [HF HR].
  exists ((ts1 ++ ts2) ++ [eps e1 s2]). cbn. rewrite Ht2, Ht1, !(assoc (++)).
  split_and!; [done|done|eapply runs_ext; [exact Heq|exact HR]|].
  apply sorted_exclusions_app; [by apply sorted_exclusions_app|].
  intros t d iris ->%list_elem_of_singleton. done.
Qed.

Lemma fragment_spec G p reverse b out :
  fragment p reverse b = Ok out -> fragment_ok G p reverse b out.
Proof.
  revert reverse b out. induction p as [iri|p IH|p IHp q IHq|p IHp q IHq|p IH|p IH|p IH|iris];
    intros reverse b out Hf; cbn [fragment] in Hf.
  - inv_ok Hf. destruct a as [[s e] b1]. injection Hf as <-.
    eapply fragment_single; [done|done|done|done|]. intros x y. by destruct reverse.
  - apply IH in Hf. destruct out as [[s e] b']. destruct Hf as (ts & ? & ? & HR & ?).
    exists ts. split_and!; [done|done| |done]. eapply runs_ext; [|done]. intros x y. by destruct reverse.
  - destruct reverse; (do 2 (inv_ok Hf; destruct a as [[? ?] ?]); injection Hf as <-).
    + eapply fragment_sequence; [by apply IHq|by apply IHp|]. cbn. unfold flip. naive_solver.
    + eapply fragment_sequence; [by apply IHp|by apply IHq|]. done.
  - inv_ok Hf. destruct a as [[s e] b0]. inv_ok Hf. destruct a as [[s1 e1] b1].
    inv_ok Hf. destruct a as [[s2 e2] b2]. injection Hf as <-.
    apply new_states_ok in Ha as (-> & -> & Hc & Ht).
    apply IHp in Ha0 as (ts1 & Ht1 & F1 & R1 & S1). apply IHq in Ha1 as (ts2 & Ht2 & F2 & R2 & S2).
    rewrite Hc in F1. destruct (frag_alt G _ _ _ _ _ _ _ _ _ _ _ F1 R1 F2 R2) as [HF HR].
    eexists. cbn. rewrite Ht2, Ht1, Ht, <- !(assoc (++)) in *. cbn in *. split_and!; [done|done| |].
    + eapply runs_ext; [|done]. by destruct reverse.
    + apply sorted_exclusions_app; [done|]. apply sorted_exclusions_app; [done|].
      apply sorted_exclusions_glue. intros t Ht'. set_unfold in Ht'. naive_solver.
  - inv_ok Hf. destruct a as [[s e] b0]. inv_ok Hf. destruct a as [[s1 e1] b1]. injection Hf as <-.
    eapply (fragment_wrap G true true); [done|by apply IH|done| |].
    + cbn. by rewrite <- !(assoc (++)).
    + intros x y. rewrite dir_star. naive_solver.
  - inv_ok Hf. destruct a as [[s e] b0]. inv_ok Hf. destruct a as [[s1 e1] b1]. injection Hf as <-.
    eapply (fragment_wrap G false true); [done|by apply IH|done| |].
    + cbn. by rewrite <- !(assoc (++)).
    + intros x y. rewrite tc_dir. naive_solver.
  - inv_ok Hf. destruct a as [[s e] b0]. inv_ok Hf. destruct a as [[s1 e1] b1]. injection Hf as <-.
    eapply (fragment_wrap G true false); [done|by apply IH|done| |].
    + cbn. by rewrite <- !(assoc (++)).
    + intros x y. destruct reverse; cbn; unfold flip; naive_solver.
  - inv_ok Hf. destruct a as [[s e] b0]. injection Hf as <-.
    eapply fragment_single; [done|done|done| |].
    + intros d l [= _ <-]. apply dedup_sorted, sort_sorted.
    + intros x y. cbn. setoid_rewrite elem_of_dedup. setoid_rewrite sort_perm. by destruct reverse.
Qed.

(** The number of states a path expression allocates. *)
Fixpoint path_states (p : PropertyPathExpression) : N :=
  match p with
  | NamedNode _ | NegatedSet _ => 2
  | ReversePath p => path_states p
  | Sequence p q => path_states p + path_states q
  | Alternative p q => 2 + path_states p + path_states q
  | ZeroOrMore p | OneOrMore p | ZeroOrOne p => 2 + path_states p
  end.

Lemma new_states_total b :
  (builder_state_count b + 2 < U32_LIMIT)%N ->
  exists s e b', new_states b = Ok (s, e, b') /\ builder_state_count b' = (builder_state_count b + 2)%N.
Proof.
  intros Hb. unfold new_states, new_state.
  assert (checked_add U32_LIMIT (builder_state_count b) 1 = Some (builder_state_count b + 1)%N) as ->.
  { apply checked_add_some. split; [done|lia]. }
  cbn. assert (checked_add U32_LIMIT (builder_state_count b + 1) 1 = Some (builder_state_count b + 2)%N) as ->.
  { apply checked_add_some. split; lia. }
  by repeat eexists.
Qed.

(** Compilation cannot fail while the states fit in 32 bits. *)
Lemma fragment_total p reverse b :
  (builder_state_count b + path_states p < U32_LIMIT)%N ->
  exists s e b', fragment p reverse b = Ok (s, e, b') /\
    builder_state_count b' = (builder_state_count b + path_states p)%N.
Proof.
  revert reverse b. induction p as [iri|p IH|p IHp q IHq|p IHp q IHq|p IH|p IH|p IH|iris];
    intros reverse b Hb; cbn [path_states] in Hb |- *; cbn [fragment].
  - destruct (new_states_total b Hb) as (s & e & b' & -> & Hc). by repeat eexists.
  - by apply IH.
  - destruct reverse.
    + destruct (IHq true b) as (s1 & e1 & b1 & -> & Hc1); [lia|]. cbn.
      destruct (IHp true b1) as (s2 & e2 & b2 & -> & Hc2); [lia|]. cbn. repeat eexists. cbn. lia.
    + destruct (IHp false b) as (s1 & e1 & b1 & -> & Hc1); [lia|]. cbn.
      destruct (IHq false b1) as (s2 & e2 & b2 & -> & Hc2); [lia|]. cbn. repeat eexists. cbn. lia.
  - destruct (new_states_total b) as (s & e & b0 & -> & Hc); [lia|]. cbn.
    destruct (IHp reverse b0) as (s1 & e1 & b1 & -> & Hc1); [lia|]. cbn.
    destruct (IHq reverse b1) as (s2 & e2 & b2 & -> & Hc2); [lia|]. cbn. repeat eexists. cbn. lia.
  - destruct (new_states_total b) as (s & e & b0 & -> & Hc); [lia|]. cbn.
    destruct (IH reverse b0) as (s1 & e1 & b1 & -> & Hc1); [lia|]. cbn. repeat eexists. cbn. lia.
  - destruct (new_states_total b) as (s & e & b0 & -> & Hc); [lia|]. cbn.
    destruct (IH reverse b0) as (s1 & e1 & b1 & -> & Hc1); [lia|]. cbn. repeat eexists. cbn. lia.
  - destruct (new_states_total b) as (s & e & b0 & -> & Hc); [lia|]. cbn.
    destruct (IH reverse b0) as (s1 & e1 & b1 & -> & Hc1); [lia|]. cbn. repeat eexists. cbn. lia.
  - destruct (new_states_total b Hb) as (s & e & b' & -> & Hc). by repeat eexists.
Qed.

(** What the traversal needs of a compiled automaton. *)
Lemma compiled_automaton path A :
  compile_path_automaton path = Ok A ->
  exists accept, accept_states A = [accept] /\ invalid_states A = false /\
    (forall t, t ∈ transitions A -> (from_state t < state_count A /\ to_state t < state_count A)%N) /\
    sorted_exclusions (transitions A) /\
    forall G x y, rtc (nfa_step G (transitions A)) (start_state A, x) (accept, y) <-> path_rel G path x y.
Proof.
  unfold compile_path_automaton. intros Hc. inv_ok Hc. destruct a as [[s e] b]. injection Hc as <-. cbn.
  exists e. split; [done|].
  assert (forall G, fragment_ok G path false {| builder_state_count := 0; builder_transitions := [] |} (s, e, b))
    as Hok by (intros; by apply fragment_spec).
  destruct (Hok (fun _ _ _ => False)) as (ts & Hts & [Hs He Hne Hf Ht] & _ & Hsort). cbn in *.
  assert (forall t, t ∈ sort (builder_transitions b) <-> t ∈ ts) as Hin by (intros; by rewrite sort_perm, Hts).
  split_and!.
  - unfold invalid_states. cbn. repeat (apply orb_false_iff; split); try done; cbn.
    + apply N.eqb_neq. lia.
    + apply N.leb_gt. lia.
    + apply N.leb_gt. lia.
  - intros t Htt%Hin. destruct (Hf t Htt) as [? _]. specialize (Ht t Htt). lia.
  - intros t d iris Htt%Hin. by apply Hsort.
  - intros G x y. destruct (Hok G) as (ts' & Hts' & _ & HR & _). cbn in *.
    assert (ts' = ts) as -> by congruence. rewrite <- (HR x y).
    split; apply nfa_run_mono; intros t Htt; by apply Hin.
Qed.

(** C2: the property-path compiler is correct.  Every expression whose states
    fit in 32 bits compiles to a structurally valid automaton with one accept
    state, and over any set of triples the runs of that automaton from its
    start to its accept state connect exactly the node pairs of the SPARQL 1.1
    semantics of the path. *)
Theorem compiled_automaton_accepts_path path :
  (path_states path < U32_LIMIT)%N ->
  exists A accept, compile_path_automaton path = Ok A /\ accept_states A = [accept] /\
    invalid_states A = false /\
    forall G x y, rtc (nfa_step G (transitions A)) (start_state A, x) (accept, y) <-> path_rel G path x y.
Proof.
  intros Hp. destruct (fragment_total path false {| builder_state_count := 0; builder_transitions := [] |})
    as (s & e & b & Hf & _); [done|].
  assert (exists A, compile_path_automaton path = Ok A) as [A HA].
  { unfold compile_path_automaton. rewrite Hf. cbn. by eexists. }
  destruct (compiled_automaton path A HA) as (accept & Hacc & Hv & _ & _ & Hr). by exists A, accept.
Qed.

(** (^a/b)* uses six states. *)
Definition sample_path : PropertyPathExpression :=
  ZeroOrMore (Sequence (ReversePath (NamedNode "a")) (NamedNode "b")).

Lemma compiled_automaton_accepts_path_witness :
  exists A accept, compile_path_automaton sample_path = Ok A /\ accept_states A = [accept] /\
    invalid_states A = false /\ state_count A = 6%N.
Proof.
  destruct (compiled_automaton_accepts_path sample_path) as (A & accept & HA & Hacc & Hv & _).
  - by vm_compute.
  - exists A, accept. split; [exact HA|]. split; [exact Hacc|]. split; [exact Hv|].
    vm_compute in HA. injection HA as <-. reflexivity.
Defined.
