(* ===== verification/Path.v ===== *)
(** * Distributed property-path traversal

    Models src/crates/ngkg-query-executor/src/distributed_path.rs: seeding,
    ownership and hot-vertex splitting of frontier keys, the expansion of one
    work item through the automaton, the barrier that merges an iteration, and
    the checkpoints that externalise the traversal state. *)

From Stdlib Require Import Strings.Byte Strings.String.
From S2P Require Import Prelude Words Ordered Digest Worklist Planner Terms PathCompiler.

(** ** Data *)

Record PathEdge := {
  source_entity_id : N;
  edge_predicate_iri : string;
  target_entity_id : N;
  edge_graph_id : N;
}.

Record PathFrontierKey := {
  origin_entity_id : N;
  entity_id : N;
  automaton_state : N;
  key_graph_id : option N;
}.

Record PathEndpoint := {
  subject_entity_id : N;
  object_entity_id : N;
  endpoint_graph_id : option N;
}.

Record PathWorkIdentity := {
  work_query_sha256 : string;
  work_plan_sha256 : string;
  work_path_id : string;
  work_automaton_sha256 : string;
  iteration : N;
  owner_partition : N;
  identity_partitions : N;
  storage_partition : N;
  frontier : PathFrontierKey;
  split_index : N;
  split_count : N;
}.

(** [PathExpansionWorkItem] wraps the identity only. *)
Record PathExpansionWorkItem := { work_identity : PathWorkIdentity }.

Record PathExpansionResult := {
  result_identity : PathWorkIdentity;
  next_frontier : list PathFrontierKey;
  accepting_endpoints : list PathEndpoint;
  scanned_edges : N;
  result_output_sha256 : string;
  result_worker_id : string;
  result_complete : bool;
}.

Record PathCheckpointState := {
  cp_query_sha256 : string;
  cp_plan_sha256 : string;
  cp_path_id : string;
  cp_automaton_sha256 : string;
  completed_iteration : N;
  cp_partition_count : N;
  cp_visited : list PathFrontierKey;
  cp_next_frontier : list PathFrontierKey;
  cp_endpoints : list PathEndpoint;
  cp_terminated : bool;
}.

Record PathCheckpoint := {
  cp_state : PathCheckpointState;
  state_sha256 : string;
  encoded_bytes : N;
}.

(** Derived equality, order and countability, field by field. *)
Definition key_tuple (k : PathFrontierKey) : N * (N * (N * option N)) :=
  (origin_entity_id k, (entity_id k, (automaton_state k, key_graph_id k))).
Definition endpoint_tuple (e : PathEndpoint) : N * (N * option N) :=
  (subject_entity_id e, (object_entity_id e, endpoint_graph_id e)).

Global Instance PathFrontierKey_eq_dec : EqDecision PathFrontierKey.
Proof. solve_decision. Defined.
Global Instance PathEndpoint_eq_dec : EqDecision PathEndpoint.
Proof. solve_decision. Defined.
Global Instance PathWorkIdentity_eq_dec : EqDecision PathWorkIdentity.
Proof. solve_decision. Defined.
Global Instance PathCheckpointState_eq_dec : EqDecision PathCheckpointState.
Proof. solve_decision. Defined.

Global Instance key_tuple_inj : Inj (=) (=) key_tuple.
Proof. intros [] []; unfold key_tuple; cbn; congruence. Qed.
Global Instance endpoint_tuple_inj : Inj (=) (=) endpoint_tuple.
Proof. intros [] []; unfold endpoint_tuple; cbn; congruence. Qed.
Global Instance PathFrontierKey_ord : RustOrd PathFrontierKey := ord_by key_tuple _.
Global Instance PathEndpoint_ord : RustOrd PathEndpoint := ord_by endpoint_tuple _.

Global Program Instance PathFrontierKey_countable : Countable PathFrontierKey :=
  inj_countable' key_tuple
    (fun '(o, (e, (s, g))) => {| origin_entity_id := o; entity_id := e; automaton_state := s; key_graph_id := g |}) _.
Next Obligation. by intros []. Qed.
Global Program Instance PathEndpoint_countable : Countable PathEndpoint :=
  inj_countable' endpoint_tuple
    (fun '(s, (o, g)) => {| subject_entity_id := s; object_entity_id := o; endpoint_graph_id := g |}) _.
Next Obligation. by intros []. Qed.

(** [serde_json::to_vec] on the three documents the module hashes: derived
    serialisation writes every field, so it is injective. *)
Class PathJson := {
  automaton_json : DistributedPathAutomaton -> list byte;
  result_json : list PathFrontierKey * list PathEndpoint * N -> list byte;
  checkpoint_json : PathCheckpointState -> list byte;
  result_json_inj : Inj (=) (=) result_json;
  checkpoint_json_inj : Inj (=) (=) checkpoint_json;
}.

(** ** Validation *)

Definition validate_plan (plan : DistributedPropertyPathPlan) : result ExecutionError unit :=
  map_err (fun _ => InvalidPropertyPathIdentity) (validate_distributed_property_path_plan plan).

Definition validate_automaton (automaton : DistributedPathAutomaton) : result ExecutionError unit :=
  fail_if (invalid_states automaton) InvalidPropertyPathIdentity.

Definition validate_work_identity (identity : PathWorkIdentity) : result ExecutionError unit :=
  fail_if
    (negb (lower_hex_sha256 (work_query_sha256 identity))
     || negb (lower_hex_sha256 (work_plan_sha256 identity))
     || negb (lower_hex_sha256 (work_automaton_sha256 identity))
     || is_empty_string (work_path_id identity)
     || (identity_partitions identity <? 2)%N
     || (identity_partitions identity <=? owner_partition identity)%N
     || (identity_partitions identity <=? storage_partition identity)%N
     || (split_count identity =? 0)%N
     || (split_count identity <=? split_index identity)%N)
    InvalidPropertyPathIdentity.

Definition validate_edges (edges : list PathEdge) : result ExecutionError unit :=
  fail_if (existsb (fun edge => is_empty_string (edge_predicate_iri edge)) edges)
    InvalidPropertyPathIdentity.

(** [u64::try_from(len).ok().is_none_or(|count| count > max)]. *)
Definition count_exceeds (n : nat) (max : N) : bool :=
  match u64_of_len n with Some count => (max <? count)%N | None => true end.

(** ** Seeding *)

Definition seed_path_frontier (origins : list N) (automaton : DistributedPathAutomaton)
    (max_frontier_items : N) : result ExecutionError (list PathFrontierKey) :=
  _ ← validate_automaton automaton;
  let origins := sorted_elements (list_to_set origins : gset N) in
  _ ← fail_if ((max_frontier_items =? 0)%N || count_exceeds (length origins) max_frontier_items)
        PropertyPathFrontierLimit;
  Ok ((fun entity => {| origin_entity_id := entity; entity_id := entity;
                        automaton_state := start_state automaton; key_graph_id := None |}) <$> origins).

Definition seed_scoped_path_frontier (origins : list (N * option N))
    (automaton : DistributedPathAutomaton) (max_frontier_items : N) :
    result ExecutionError (list PathFrontierKey) :=
  _ ← validate_automaton automaton;
  let origins := sorted_elements (list_to_set origins : gset (N * option N)) in
  _ ← fail_if ((max_frontier_items =? 0)%N || count_exceeds (length origins) max_frontier_items)
        PropertyPathFrontierLimit;
  Ok ((fun '(entity, graph) => {| origin_entity_id := entity; entity_id := entity;
                        automaton_state := start_state automaton; key_graph_id := graph |}) <$> origins).

(** ** The automaton *)

Definition epsilon_successors (automaton : DistributedPathAutomaton) (state : N) : list N :=
  to_state <$> filter (fun t => from_state t = state /\ transition t = Epsilon) (transitions automaton).

(** Every state enters the queue at most once, and only the initial state and
    targets of transitions do: the transitions bound the iterations. *)
Definition epsilon_closure (automaton : DistributedPathAutomaton) (initial : N) :
    result ExecutionError (list N) :=
  _ ← fail_if (state_count automaton <=? initial)%N InvalidPropertyPathIdentity;
  closure ← default (Err InvalidPropertyPathIdentity)
    (closure_loop (epsilon_successors automaton)
       (fun _ target => if (state_count automaton <=? target)%N
                        then Some InvalidPropertyPathIdentity else None)
       (2 + length (transitions automaton)) ({[initial]} : gset N) [initial]);
  Ok (sorted_elements closure).

Definition has_consuming_transition (automaton : DistributedPathAutomaton) (state : N) : bool :=
  existsb (fun t => bool_decide (from_state t = state) && negb (bool_decide (transition t = Epsilon)))
    (transitions automaton).

Definition incident_degree (entity : N) (edges : list PathEdge) : result ExecutionError N :=
  try_fold (fun degree edge =>
      if (source_entity_id edge =? entity)%N || (target_entity_id edge =? entity)%N
      then ok_or (checked_add U64_LIMIT degree 1) PropertyPathFrontierLimit
      else Ok degree)
    0%N edges.

Definition edge_touches (edge : PathEdge) (entity : N) (direction : PathDirection) : bool :=
  match direction with
  | Forward => (source_entity_id edge =? entity)%N
  | Reverse => (target_entity_id edge =? entity)%N
  end.

Definition hash_path_component (hash bytes : list byte) : result ExecutionError (list byte) :=
  c ← ok_or (component bytes) PropertyPathCheckpointLimit; Ok (hash ++ c).

Definition owner_domain : list byte := as_bytes "ngkg-property-path-owner-v1" ++ [x00].
Definition hot_edge_domain : list byte := as_bytes "ngkg-property-path-hot-edge-v1" ++ [x00].
Arguments owner_domain : simpl never.
Arguments hot_edge_domain : simpl never.

(** The next frontier, the endpoints and the scanned-edge count of an expansion. *)
Abbreviation Expansion := (gset PathFrontierKey * gset PathEndpoint * N)%type.

Section operations.
Context `{Sha256, PathJson}.

Definition path_partition_owner (query_sha256 path_id : string) (key : PathFrontierKey)
    (partition_count : N) : result ExecutionError N :=
  _ ← fail_if (negb (lower_hex_sha256 query_sha256) || is_empty_string path_id || (partition_count <? 2)%N)
        InvalidPropertyPathIdentity;
  hash ← hash_path_component owner_domain (as_bytes query_sha256);
  hash ← hash_path_component hash (as_bytes path_id);
  let hash := hash ++ to_be_bytes 8 (origin_entity_id key) ++ to_be_bytes 8 (entity_id key)
                ++ to_be_bytes 4 (automaton_state key)
                ++ to_be_bytes 8 (default U64_MAX (key_graph_id key)) in
  let owner := digest_bucket hash partition_count in
  if fits U32_LIMIT owner then Ok owner else Err InvalidPropertyPathIdentity.

Definition automaton_sha256_of (automaton : DistributedPathAutomaton) : string :=
  hex_encode (sha256 (automaton_json automaton)).

Definition result_sha256 (frontier : list PathFrontierKey) (endpoints : list PathEndpoint)
    (scanned : N) : string :=
  hex_encode (sha256 (result_json (dedup (sort frontier), dedup (sort endpoints), scanned))).

Definition edge_in_split (edge : PathEdge) (identity : PathWorkIdentity) : result ExecutionError bool :=
  if (split_count identity =? 1)%N then Ok true
  else
    hash ← hash_path_component (hot_edge_domain ++ to_be_bytes 8 (source_entity_id edge))
             (as_bytes (edge_predicate_iri edge));
    let hash := hash ++ to_be_bytes 8 (target_entity_id edge) in
    Ok (digest_bucket hash (split_count identity) =? split_index identity)%N.

(** ** Work assignment *)

(** The number of sub-items of a vertex with the given degree. *)
Definition required_splits (plan : DistributedPropertyPathPlan) (degree : N) : N :=
  let required :=
    N.max 1 (match checked_add U64_LIMIT degree (hot_vertex_degree plan - 1) with
             | Some value => if (hot_vertex_degree plan =? 0)%N then 1%N
                             else (value / hot_vertex_degree plan)%N
             | None => 1%N
             end) in
  let count := if fits U32_LIMIT required then required else max_hot_vertex_splits plan in
  N.max 1 (N.min count (max_hot_vertex_splits plan)).

Definition key_work_items (query_sha256 plan_sha256 : string) (plan : DistributedPropertyPathPlan)
    (iteration' storage_partition' : N) (edges : list PathEdge) (key : PathFrontierKey) :
    result ExecutionError (list PathExpansionWorkItem) :=
  _ ← fail_if (state_count (automaton plan) <=? automaton_state key)%N InvalidPropertyPathIdentity;
  degree ← incident_degree (entity_id key) edges;
  let splits := required_splits plan degree in
  owner ← path_partition_owner query_sha256 (path_id plan) key (partition_count plan);
  Ok ((fun split => {| work_identity :=
         {| work_query_sha256 := query_sha256; work_plan_sha256 := plan_sha256;
            work_path_id := path_id plan; work_automaton_sha256 := automaton_sha256 plan;
            iteration := iteration'; owner_partition := owner;
            identity_partitions := partition_count plan; storage_partition := storage_partition';
            frontier := key; split_index := N.of_nat split; split_count := splits |} |})
      <$> seq 0 (N.to_nat splits)).

Definition path_partition_expansion_work_items (query_sha256 plan_sha256 : string)
    (plan : DistributedPropertyPathPlan) (iteration' storage_partition' : N)
    (frontier' : list PathFrontierKey) (edges : list PathEdge) :
    result ExecutionError (list PathExpansionWorkItem) :=
  _ ← validate_plan plan;
  _ ← fail_if (negb (bool_decide (automaton_sha256_of (automaton plan) = automaton_sha256 plan)))
        InvalidPropertyPathIdentity;
  _ ← fail_if
        (negb (lower_hex_sha256 query_sha256)
         || negb (lower_hex_sha256 plan_sha256)
         || (max_iterations plan <=? iteration')%N
         || (partition_count plan <=? storage_partition')%N
         || count_exceeds (length frontier') (max_frontier_items plan))
        PropertyPathIterationLimit;
  _ ← validate_edges edges;
  let unique := sorted_elements (list_to_set frontier' : gset PathFrontierKey) in
  _ ← fail_if (negb (length unique =? length frontier')) InvalidPropertyPathIdentity;
  try_fold (fun work key =>
      items ← key_work_items query_sha256 plan_sha256 plan iteration' storage_partition' edges key;
      Ok (work ++ items))
    [] unique.

Definition path_expansion_work_items (query_sha256 plan_sha256 : string)
    (plan : DistributedPropertyPathPlan) (iteration' : N) (frontier' : list PathFrontierKey)
    (edges : list PathEdge) : result ExecutionError (list PathExpansionWorkItem) :=
  path_partition_expansion_work_items query_sha256 plan_sha256 plan iteration' 0 frontier' edges.

(** ** Expansion of one work item *)

Definition is_accepting (automaton : DistributedPathAutomaton) (state : N) : bool :=
  binary_search_found (accept_states automaton) state.

Definition endpoint_of (key : PathFrontierKey) : PathEndpoint :=
  {| subject_entity_id := origin_entity_id key; object_entity_id := entity_id key;
     endpoint_graph_id := key_graph_id key |}.

Definition key_at (identity : PathWorkIdentity) (entity state : N) : PathFrontierKey :=
  {| origin_entity_id := origin_entity_id (frontier identity); entity_id := entity;
     automaton_state := state; key_graph_id := key_graph_id (frontier identity) |}.

(** The innermost loop body: one state of the closure of a transition target. *)
Definition emit_state (automaton : DistributedPathAutomaton) (identity : PathWorkIdentity) (entity : N)
    (acc : Expansion) (next_state : N) : Expansion :=
  let '(next, endpoints, scanned) := acc in
  let key := key_at identity entity next_state in
  (if has_consuming_transition automaton next_state then {[key]} ∪ next else next,
   if is_accepting automaton next_state then {[endpoint_of key]} ∪ endpoints else endpoints,
   scanned).

Definition predicate_matches (kind : PathTransitionKind) (predicate : string) : bool :=
  match kind with
  | Predicate _ predicate_iri => bool_decide (predicate = predicate_iri)
  | NegatedPropertySet _ excluded => negb (binary_search_found excluded predicate)
  | Epsilon => false
  end.

Definition edge_outside_graph (identity : PathWorkIdentity) (edge : PathEdge) : bool :=
  match key_graph_id (frontier identity) with
  | Some graph => negb (graph =? edge_graph_id edge)%N
  | None => false
  end.

Definition expand_edge (automaton : DistributedPathAutomaton) (identity : PathWorkIdentity)
    (t : PathTransition) (direction : PathDirection) (acc : Expansion) (edge : PathEdge) :
    result ExecutionError Expansion :=
  in_split ← edge_in_split edge identity;
  if negb in_split || negb (edge_touches edge (entity_id (frontier identity)) direction)
     || edge_outside_graph identity edge
  then Ok acc
  else
    let '(next, endpoints, scanned) := acc in
    scanned ← ok_or (checked_add U64_LIMIT scanned 1) PropertyPathFrontierLimit;
    if negb (predicate_matches (transition t) (edge_predicate_iri edge))
    then Ok (next, endpoints, scanned)
    else
      let entity := match direction with
                    | Forward => target_entity_id edge
                    | Reverse => source_entity_id edge
                    end in
      states ← epsilon_closure automaton (to_state t);
      Ok (foldl (emit_state automaton identity entity) (next, endpoints, scanned) states).

Definition kind_direction (kind : PathTransitionKind) : option PathDirection :=
  match kind with
  | Predicate direction _ | NegatedPropertySet direction _ => Some direction
  | Epsilon => None
  end.

Definition expand_transition (automaton : DistributedPathAutomaton) (edges : list PathEdge)
    (identity : PathWorkIdentity) (acc : Expansion) (t : PathTransition) :
    result ExecutionError Expansion :=
  match kind_direction (transition t) with
  | None => Ok acc
  | Some direction => try_fold (expand_edge automaton identity t direction) acc edges
  end.

Definition expand_state (automaton : DistributedPathAutomaton) (edges : list PathEdge)
    (identity : PathWorkIdentity) (acc : Expansion) (state : N) : result ExecutionError Expansion :=
  let '(next, endpoints, scanned) := acc in
  let endpoints := if is_accepting automaton state
                   then {[endpoint_of (frontier identity)]} ∪ endpoints else endpoints in
  try_fold (expand_transition automaton edges identity) (next, endpoints, scanned)
    (filter (fun t => from_state t = state) (transitions automaton)).

Definition expand_path_work_item_borrowed (work : PathExpansionWorkItem)
    (automaton : DistributedPathAutomaton) (edges : list PathEdge)
    (max_frontier_items' max_visited_items' : N) (worker : string) :
    result ExecutionError PathExpansionResult :=
  let identity := work_identity work in
  _ ← validate_work_identity identity;
  _ ← validate_automaton automaton;
  _ ← fail_if (negb (bool_decide (automaton_sha256_of automaton = work_automaton_sha256 identity)))
        InvalidPropertyPathIdentity;
  _ ← validate_edges edges;
  _ ← fail_if (is_empty_string worker || (max_frontier_items' =? 0)%N || (max_visited_items' =? 0)%N)
        InvalidPropertyPathIdentity;
  owner ← path_partition_owner (work_query_sha256 identity) (work_path_id identity)
            (frontier identity) (identity_partitions identity);
  _ ← fail_if (negb (owner =? owner_partition identity)%N) InvalidPropertyPathIdentity;
  closure ← epsilon_closure automaton (automaton_state (frontier identity));
  '(next, endpoints, scanned) ← try_fold (expand_state automaton edges identity) (∅, ∅, 0%N) closure;
  _ ← fail_if (count_exceeds (size next) max_frontier_items' || count_exceeds (size next) max_visited_items')
        PropertyPathFrontierLimit;
  let next_frontier := sorted_elements next in
  let accepting_endpoints := sorted_elements endpoints in
  Ok {| result_identity := identity; next_frontier := next_frontier;
        accepting_endpoints := accepting_endpoints; scanned_edges := scanned;
        result_output_sha256 := result_sha256 next_frontier accepting_endpoints scanned;
        result_worker_id := worker; result_complete := true |}.

(** Complete input for one worker-owned adjacency subrange. *)
Record PathExpansionTask := {
  task_work : PathExpansionWorkItem;
  task_automaton : DistributedPathAutomaton;
  task_edges : list PathEdge;
  task_max_frontier_items : N;
  task_max_visited_items : N;
}.

Definition expand_path_work_item (task : PathExpansionTask) (worker : string) :
    result ExecutionError PathExpansionResult :=
  expand_path_work_item_borrowed (task_work task) (task_automaton task) (task_edges task)
    (task_max_frontier_items task) (task_max_visited_items task) worker.

(** ** Checkpoints *)

Definition validate_checkpoint_state (state : PathCheckpointState) : result ExecutionError unit :=
  fail_if
    (negb (lower_hex_sha256 (cp_query_sha256 state))
     || negb (lower_hex_sha256 (cp_plan_sha256 state))
     || negb (lower_hex_sha256 (cp_automaton_sha256 state))
     || is_empty_string (cp_path_id state)
     || (cp_partition_count state <? 2)%N
     || negb (is_sorted_unique (cp_visited state))
     || negb (is_sorted_unique (cp_next_frontier state))
     || negb (is_sorted_unique (cp_endpoints state))
     || existsb (fun key => negb (binary_search_found (cp_visited state) key)) (cp_next_frontier state)
     || negb (eqb (cp_terminated state) (bool_decide (cp_next_frontier state = []))))
    InvalidPropertyPathIdentity.

Definition build_path_checkpoint (state : PathCheckpointState) (max_checkpoint_bytes' : N) :
    result ExecutionError PathCheckpoint :=
  _ ← validate_checkpoint_state state;
  let bytes := checkpoint_json state in
  encoded ← ok_or (u64_of_len (length bytes)) PropertyPathCheckpointLimit;
  _ ← fail_if ((max_checkpoint_bytes' =? 0)%N || (max_checkpoint_bytes' <? encoded)%N)
        PropertyPathCheckpointLimit;
  Ok {| cp_state := state; state_sha256 := hex_encode (sha256 bytes); encoded_bytes := encoded |}.

Definition validate_path_checkpoint (checkpoint : PathCheckpoint) (max_checkpoint_bytes' : N) :
    result ExecutionError unit :=
  _ ← validate_checkpoint_state (cp_state checkpoint);
  let bytes := checkpoint_json (cp_state checkpoint) in
  encoded ← ok_or (u64_of_len (length bytes)) PropertyPathCheckpointLimit;
  fail_if (negb (encoded =? encoded_bytes checkpoint)%N
           || (max_checkpoint_bytes' <? encoded)%N
           || negb (bool_decide (hex_encode (sha256 bytes) = state_sha256 checkpoint)))
    PropertyPathCheckpointLimit.

(** ** The iteration barrier *)

Record PathIterationOutcome := {
  visited : gset PathFrontierKey;
  outcome_frontier : list PathFrontierKey;
  endpoints : gset PathEndpoint;
  terminated : bool;
  outcome_scanned : N;
  checkpoint : PathCheckpoint;
}.

(** The loop over the expected work items. *)
Definition check_expected (reference : PathWorkIdentity) (expected_work : list PathExpansionWorkItem) :
    result ExecutionError unit :=
  try_fold (fun _ work =>
      let identity := work_identity work in
      _ ← validate_work_identity identity;
      fail_if
        (negb (bool_decide (work_query_sha256 identity = work_query_sha256 reference))
         || negb (bool_decide (work_plan_sha256 identity = work_plan_sha256 reference))
         || negb (bool_decide (work_path_id identity = work_path_id reference))
         || negb (bool_decide (work_automaton_sha256 identity = work_automaton_sha256 reference))
         || negb (iteration identity =? iteration reference)%N
         || negb (identity_partitions identity =? identity_partitions reference)%N)
        InvalidPropertyPathIdentity)
    tt expected_work.

(** The accumulators of the loop over the results.  The [BTreeSet] of
    identities is the list of its members in insertion order. *)
Record Merge := {
  actual : list PathWorkIdentity;
  candidates : gset PathFrontierKey;
  merged_endpoints : gset PathEndpoint;
  merged_scanned : N;
}.

Definition merge_result (m : Merge) (r : PathExpansionResult) : result ExecutionError Merge :=
  _ ← validate_work_identity (result_identity r);
  _ ← fail_if
        (negb (result_complete r)
         || is_empty_string (result_worker_id r)
         || negb (lower_hex_sha256 (result_output_sha256 r))
         || negb (bool_decide (result_output_sha256 r
              = result_sha256 (next_frontier r) (accepting_endpoints r) (scanned_edges r)))
         || bool_decide (result_identity r ∈ actual m))
        InvalidPropertyPathIdentity;
  scanned ← ok_or (checked_add U64_LIMIT (merged_scanned m) (scanned_edges r)) PropertyPathFrontierLimit;
  Ok {| actual := actual m ++ [result_identity r];
        candidates := candidates m ∪ list_to_set (next_frontier r);
        merged_endpoints := merged_endpoints m ∪ list_to_set (accepting_endpoints r);
        merged_scanned := scanned |}.

(** Equality of two sets given by their members. *)
Definition same_members (l k : list PathWorkIdentity) : bool :=
  forallb (fun x => bool_decide (x ∈ k)) l && forallb (fun x => bool_decide (x ∈ l)) k.

(** Insert the candidates in ascending order, keeping the unseen ones. *)
Definition admit_candidates (prior_visited : gset PathFrontierKey) (candidates : list PathFrontierKey) :
    gset PathFrontierKey * list PathFrontierKey :=
  foldl (fun '(visited, next) candidate =>
      if decide (candidate ∈ visited) then (visited, next)
      else ({[candidate]} ∪ visited, next ++ [candidate]))
    (prior_visited, []) candidates.

Definition complete_path_iteration (expected_work : list PathExpansionWorkItem)
    (results : list PathExpansionResult) (prior_visited : gset PathFrontierKey)
    (prior_endpoints : gset PathEndpoint)
    (max_frontier_items' max_visited_items' max_checkpoint_bytes' : N) :
    result ExecutionError PathIterationOutcome :=
  _ ← fail_if (bool_decide (expected_work = []) || negb (length expected_work =? length results))
        InvalidPropertyPathIdentity;
  first ← ok_or (List.hd_error expected_work) InvalidPropertyPathIdentity;
  let reference := work_identity first in
  _ ← validate_work_identity reference;
  _ ← check_expected reference expected_work;
  let expected := remove_dups (work_identity <$> expected_work) in
  _ ← fail_if (negb (length expected =? length expected_work)) InvalidPropertyPathIdentity;
  m ← try_fold merge_result
        {| actual := []; candidates := ∅; merged_endpoints := prior_endpoints; merged_scanned := 0 |} results;
  _ ← fail_if (negb (same_members (actual m) expected)) InvalidPropertyPathIdentity;
  let '(visited', next) := admit_candidates prior_visited (sorted_elements (candidates m)) in
  _ ← fail_if (count_exceeds (length next) max_frontier_items') PropertyPathFrontierLimit;
  _ ← fail_if (count_exceeds (size visited') max_visited_items') PropertyPathVisitedLimit;
  let terminated' := bool_decide (next = []) in
  checkpoint' ← build_path_checkpoint
    {| cp_query_sha256 := work_query_sha256 reference; cp_plan_sha256 := work_plan_sha256 reference;
       cp_path_id := work_path_id reference; cp_automaton_sha256 := work_automaton_sha256 reference;
       completed_iteration := iteration reference; cp_partition_count := identity_partitions reference;
       cp_visited := sorted_elements visited'; cp_next_frontier := next;
       cp_endpoints := sorted_elements (merged_endpoints m); cp_terminated := terminated' |}
    max_checkpoint_bytes';
  Ok {| visited := visited'; outcome_frontier := next; endpoints := merged_endpoints m;
        terminated := terminated'; outcome_scanned := merged_scanned m; checkpoint := checkpoint' |}.
End operations.

(** ** Epsilon closure *)

Definition eps_edge (automaton : DistributedPathAutomaton) (p q : N) : Prop :=
  exists t, t ∈ transitions automaton /\ from_state t = p /\ to_state t = q /\ transition t = Epsilon.

Lemma elem_of_epsilon_successors A p q : q ∈ epsilon_successors A p <-> eps_edge A p q.
Proof.
  unfold epsilon_successors, eps_edge. rewrite list_elem_of_fmap. setoid_rewrite list_elem_of_filter. naive_solver.
Qed.

Lemma epsilon_closure_spec A q :
  match epsilon_closure A q with
  | Ok states => StronglySorted rlt states /\ forall r, r ∈ states <-> rtc (eps_edge A) q r
  | Err e => e = InvalidPropertyPathIdentity /\
             ((state_count A <= q)%N \/
              exists p r, rtc (eps_edge A) q p /\ eps_edge A p r /\ (state_count A <= r)%N)
  end.
Proof.
  unfold epsilon_closure. destruct (N.leb_spec (state_count A) q); cbn [fail_if mbind result_bind]; [auto|].
  set (U := {[q]} ∪ list_to_set (to_state <$> transitions A) : gset N).
  set (check := fun _ target : N => if (state_count A <=? target)%N then Some InvalidPropertyPathIdentity else None).
  assert (forall y, reachable (epsilon_successors A) {[q]} y <-> rtc (eps_edge A) q y) as Hreach.
  { intros y. unfold reachable. split.
    - intros (x & ->%elem_of_singleton & Hr). eapply rtc_subrel; [|done]. intros ? ?. apply elem_of_epsilon_successors.
    - intros Hr. exists q. split; [set_solver|]. eapply rtc_subrel; [|done]. intros ? ?. apply elem_of_epsilon_successors. }
  destruct (closure_loop_spec (epsilon_successors A) check U {[q]} [q] (2 + length (transitions A)))
    as (r & -> & Hr).
  - set_solver.
  - apply NoDup_singleton.
  - intros x y _ (t & Ht & _ & <- & _)%elem_of_epsilon_successors _.
    apply elem_of_union_r, elem_of_list_to_set, list_elem_of_fmap. eauto.
  - set_solver.
  - assert (size U <= 1 + length (transitions A)); [|lia]. unfold U.
    rewrite <- (length_fmap to_state (transitions A)). generalize (to_state <$> transitions A) as l.
    intros l. rewrite size_union_alt, size_singleton.
    assert (size (list_to_set l ∖ {[q]} : gset N) <= length l); [|lia].
    transitivity (size (list_to_set l : gset N)); [apply subseteq_size; set_solver|].
    apply size_list_to_set_bound.
  - cbn [default mbind result_bind]. destruct r as [v|e]; cbn [mbind result_bind].
    + destruct Hr as [Hv _]. split; [apply sorted_elements_strict|].
      intros r. by rewrite elem_of_sorted_elements, Hv, Hreach.
    + destruct Hr as (x & y & Hx%Hreach & Hy%elem_of_epsilon_successors & Hc). unfold check in Hc.
      destruct (N.leb_spec (state_count A) y); [|done]. injection Hc as <-. split; [done|]. right. by exists x, y.
Qed.

Lemma epsilon_closure_ok A q states :
  epsilon_closure A q = Ok states -> forall r, r ∈ states <-> rtc (eps_edge A) q r.
Proof. intros Hq. pose proof (epsilon_closure_spec A q) as Hs. rewrite Hq in Hs. apply Hs. Qed.

(** ** What one expansion emits *)
Section expansion.
Context `{Sha256, PathJson} (A : DistributedPathAutomaton) (edges : list PathEdge).

(** An item of an expansion: a frontier key or an endpoint. *)
Definition emitted (acc : Expansion) (o : PathFrontierKey + PathEndpoint) : Prop :=
  match o with inl k => k ∈ acc.1.1 | inr e => e ∈ acc.1.2 end.

(** What reaching [state] at [entity] emits. *)
Definition emits_at (key : PathFrontierKey) (o : PathFrontierKey + PathEndpoint) : Prop :=
  match o with
  | inl k => k = key /\ has_consuming_transition A (automaton_state key) = true
  | inr e => e = endpoint_of key /\ is_accepting A (automaton_state key) = true
  end.

Definition other_end (d : PathDirection) (edge : PathEdge) : N :=
  match d with Forward => target_entity_id edge | Reverse => source_entity_id edge end.

(** The edges a key reads in direction [d]. *)
Definition readable (identity : PathWorkIdentity) (d : PathDirection) (edge : PathEdge) : Prop :=
  edge_touches edge (entity_id (frontier identity)) d = true /\ edge_outside_graph identity edge = false.

(** A consuming step of the automaton followed by epsilon moves. *)
Definition hop (identity : PathWorkIdentity) (use : PathEdge -> Prop) (q : N)
    (o : PathFrontierKey + PathEndpoint) : Prop :=
  exists t d edge r, t ∈ transitions A /\ from_state t = q /\ kind_direction (transition t) = Some d /\
    edge ∈ edges /\ use edge /\ readable identity d edge /\
    predicate_matches (transition t) (edge_predicate_iri edge) = true /\
    rtc (eps_edge A) (to_state t) r /\ emits_at (key_at identity (other_end d edge) r) o.

(** Everything a work item emits, reading the edges [use] admits. *)
Definition expands (identity : PathWorkIdentity) (use : PathEdge -> Prop)
    (o : PathFrontierKey + PathEndpoint) : Prop :=
  exists q, rtc (eps_edge A) (automaton_state (frontier identity)) q /\
    ((o = inr (endpoint_of (frontier identity)) /\ is_accepting A q = true) \/ hop identity use q o).

Lemma emit_state_adds identity entity acc r o :
  emitted (emit_state A identity entity acc r) o <-> emitted acc o \/ emits_at (key_at identity entity r) o.
Proof using Type.
  destruct acc as [[next ends] scanned]. destruct o as [k|e]; cbn.
  - destruct (has_consuming_transition A r); set_solver.
  - destruct (is_accepting A r); set_solver.
Qed.

Lemma expand_edge_adds identity t d acc edge acc' o :
  expand_edge A identity t d acc edge = Ok acc' ->
  emitted acc' o <-> emitted acc o \/
    (edge_in_split edge identity = Ok true /\ readable identity d edge /\
     predicate_matches (transition t) (edge_predicate_iri edge) = true /\
     exists r, rtc (eps_edge A) (to_state t) r /\ emits_at (key_at identity (other_end d edge) r) o).
Proof using Type.
  unfold expand_edge, readable. intros He. inv_ok He. rewrite Ha.
  destruct (negb a || _ || _) eqn:Hskip.
  { injection He as <-. split; [by left|]. intros [?|([= ->] & [Ht Ho] & _)]; [done|].
    by rewrite Ht, Ho in Hskip. }
  bool_prop. destruct acc as [[next ends] scanned]. inv_ok He.
  assert (forall s, emitted (next, ends, s) o <-> emitted (next, ends, scanned) o) as Hsc by by destruct o.
  destruct (predicate_matches (transition t) (edge_predicate_iri edge)) eqn:Hm; cbn in He.
  - inv_ok He. injection He as <-.
    rewrite (foldl_adds (fun acc => emitted acc o) (fun r => emits_at (key_at identity (other_end d edge) r) o))
      by (intros; apply emit_state_adds).
    setoid_rewrite (epsilon_closure_ok A _ _ Ha1). rewrite Hsc. subst. naive_solver.
  - injection He as <-. rewrite Hsc. naive_solver.
Qed.

Lemma expand_state_adds identity acc q acc' o :
  expand_state A edges identity acc q = Ok acc' ->
  emitted acc' o <-> emitted acc o \/
    ((o = inr (endpoint_of (frontier identity)) /\ is_accepting A q = true) \/
     hop identity (fun edge => edge_in_split edge identity = Ok true) q o).
Proof using Type.
  destruct acc as [[next ends] scanned]. unfold expand_state. intros He.
  eapply (try_fold_adds (fun acc => emitted acc o)) in He.
  2:{ intros s t s' Ht Hs. unfold expand_transition in Hs.
      destruct (kind_direction (transition t)) as [d|] eqn:Hd.
      - eapply (try_fold_adds (fun acc => emitted acc o)) in Hs; [|intros; by eapply expand_edge_adds].
        rewrite Hs. apply (or_iff_compat_l). instantiate (1 := fun t => exists d edge,
          kind_direction (transition t) = Some d /\ edge ∈ edges /\
          edge_in_split edge identity = Ok true /\ readable identity d edge /\
          predicate_matches (transition t) (edge_predicate_iri edge) = true /\
          exists r, rtc (eps_edge A) (to_state t) r /\ emits_at (key_at identity (other_end d edge) r) o).
        cbn. split; [intros (edge & Hin & Hx); exists d, edge; by rewrite Hd|].
        intros (d' & edge & Hd' & Hin & Hx). exists edge. rewrite Hd in Hd'. by injection Hd' as ->.
      - injection Hs as <-. split; [by left|]. intros [?|(d & edge & Hd' & _)]; [done|congruence]. }
  rewrite He. unfold hop. setoid_rewrite list_elem_of_filter.
  assert (emitted (next, if is_accepting A q then {[endpoint_of (frontier identity)]} ∪ ends else ends, scanned) o
    <-> emitted (next, ends, scanned) o \/ (o = inr (endpoint_of (frontier identity)) /\ is_accepting A q = true)) as ->.
  { destruct o; cbn; destruct (is_accepting A q); set_solver. }
  naive_solver.
Qed.

Definition result_emits (r : PathExpansionResult) (o : PathFrontierKey + PathEndpoint) : Prop :=
  match o with inl k => k ∈ next_frontier r | inr e => e ∈ accepting_endpoints r end.

(** A result is well-formed: it passes every check of the barrier. *)
Record result_ok (r : PathExpansionResult) : Prop := {
  ro_identity : validate_work_identity (result_identity r) = Ok tt;
  ro_complete : result_complete r = true;
  ro_worker : result_worker_id r <> EmptyString;
  ro_digest : result_output_sha256 r = result_sha256 (next_frontier r) (accepting_endpoints r) (scanned_edges r);
}.

Lemma expand_spec work mf mv worker r :
  expand_path_work_item_borrowed work A edges mf mv worker = Ok r ->
  result_identity r = work_identity work /\ result_ok r /\
  forall o, result_emits r o <->
    expands (work_identity work) (fun edge => edge_in_split edge (work_identity work) = Ok true) o.
Proof using Type.
  unfold expand_path_work_item_borrowed. intros Hx. do 9 inv_ok Hx.
  destruct a7 as [[next ends] scanned]. inv_ok Hx. injection Hx as <-. cbn.
  inv_ok Ha3. bool_prop. unfold is_empty_string in *. bool_prop.
  destruct a. split_and!; [done|by split|].
  intros o. assert (result_emits _ o <-> emitted (next, ends, scanned) o) as ->.
  { destruct o; cbn; by rewrite elem_of_sorted_elements. }
  eapply (try_fold_adds (fun acc => emitted acc o)) in Ha7; [|intros; by eapply expand_state_adds].
  rewrite Ha7. unfold expands. setoid_rewrite (epsilon_closure_ok A _ _ Ha6).
  split; [intros [Hn|?]; [|done]; destruct o; cbn in Hn; set_solver|auto].
Qed.

(** ** Hot-vertex splits *)

(** Predicate texts have a 64-bit length, as every Rust string does. *)
Definition edge_fits (edge : PathEdge) : Prop :=
  (N.of_nat (length (as_bytes (edge_predicate_iri edge))) < U64_LIMIT)%N.

(** Exactly one of the [n] splits owns an edge. *)
Lemma edge_in_one_split edge n :
  edge_fits edge -> (0 < n)%N ->
  exists i, (i < n)%N /\ forall identity, split_count identity = n ->
    edge_in_split edge identity = Ok true <-> (split_index identity = i \/ n = 1%N).
Proof using Type.
  intros Hfit Hn. unfold edge_in_split, hash_path_component.
  destruct (component (as_bytes (edge_predicate_iri edge))) as [c|] eqn:Hc.
  - cbn [ok_or mbind result_bind]. exists (digest_bucket (((hot_edge_domain ++ to_be_bytes 8 (source_entity_id edge)) ++ c)
      ++ to_be_bytes 8 (target_entity_id edge)) n). split; [by apply digest_bucket_lt|].
    intros identity Hs. rewrite Hs. destruct (N.eqb_spec n 1); [naive_solver|].
    split; [intros [= Heq]; bool_prop; by left|]. intros [->|]; [|done]. by rewrite N.eqb_refl.
  - exfalso. assert (component (as_bytes (edge_predicate_iri edge))
      = Some (to_be_bytes 8 (N.of_nat (length (as_bytes (edge_predicate_iri edge)))) ++ as_bytes (edge_predicate_iri edge)))
      by (by apply component_some). congruence.
Qed.

Lemma expands_mono i (use use' : PathEdge -> Prop) o :
  (forall edge, edge ∈ edges -> use edge -> use' edge) -> expands i use o -> expands i use' o.
Proof using Type.
  intros Huse (q & Hq & [Ha|Hh]); exists q; split; [done|by left|done|right].
  destruct Hh as (t & d & edge & r & ? & ? & ? & ? & ? & ?). exists t, d, edge, r. naive_solver.
Qed.

(** [expands] depends on the frontier key of the identity only. *)
Lemma expands_frontier i j use o : frontier i = frontier j -> expands i use o -> expands j use o.
Proof using Type.
  intros Hij. unfold expands, hop, readable, edge_outside_graph, key_at. by rewrite Hij.
Qed.

Lemma split_expands (ids : list PathWorkIdentity) key n o :
  Forall edge_fits edges -> (0 < n)%N ->
  (forall i, i ∈ ids -> frontier i = key /\ split_count i = n) ->
  (forall k, (k < n)%N -> exists i, i ∈ ids /\ split_index i = k) ->
  forall any, frontier any = key ->
  (exists i, i ∈ ids /\ expands i (fun edge => edge_in_split edge i = Ok true) o) <->
  expands any (fun _ => True) o.
Proof using Type.
  intros Hfit Hn Hids Hall any Hany. split.
  - intros (i & Hi & Hx). destruct (Hids i Hi) as [Hf _].
    apply (expands_frontier i); [congruence|]. by eapply expands_mono; [|done].
  - intros (q & Hq & Hx).
    assert (exists i, i ∈ ids /\ ((o = inr (endpoint_of key) /\ is_accepting A q = true) \/
      hop i (fun edge => edge_in_split edge i = Ok true) q o)) as (i & Hi & Hx').
    { destruct Hx as [[Ho Ha]|(t & d & edge & r & Ht & Hf & Hd & He & _ & Hr & Hm & Hrr & Hem)].
      - destruct (Hall 0%N Hn) as (i & Hi & _). exists i. split; [done|left]. by rewrite <- Hany.
      - destruct (edge_in_one_split edge n) as (k & Hk & Hown); [by eapply Forall_forall|done|].
        destruct (Hall k Hk) as (i & Hi & Hki). exists i. split; [done|right].
        destruct (Hids i Hi) as [Hfi Hni]. exists t, d, edge, r.
        assert (frontier i = frontier any) as Hfa by congruence.
        unfold readable, edge_outside_graph, key_at in *. rewrite Hfa. split_and!; try done; try apply Hr.
        apply Hown; [done|by left]. }
    exists i. split; [done|]. exists q. destruct (Hids i Hi) as [Hf _]. rewrite Hf, <- Hany.
    split; [done|]. by rewrite Hany.
Qed.
End expansion.

(** ** Work assignment *)
Section work.
Context `{Sha256, PathJson}.

Lemma required_splits_pos plan degree : (0 < required_splits plan degree)%N.
Proof using Type. unfold required_splits. lia. Qed.

(** A key is split completely: one item for every split index. *)
Lemma key_work_items_spec q p plan it sp edges key items :
  key_work_items q p plan it sp edges key = Ok items ->
  exists n, (0 < n)%N /\
    (forall i, i ∈ work_identity <$> items -> frontier i = key /\ split_count i = n) /\
    (forall k, (k < n)%N -> exists i, i ∈ work_identity <$> items /\ split_index i = k) /\
    (forall i, i ∈ work_identity <$> items -> storage_partition i = sp).
Proof using Type.
  unfold key_work_items. intros Hk. do 3 inv_ok Hk. injection Hk as <-.
  exists (required_splits plan a0). split; [apply required_splits_pos|].
  rewrite <- list_fmap_compose. split_and!.
  - by intros i (n & -> & _)%list_elem_of_fmap.
  - intros k Hlt. eexists. split; [apply list_elem_of_fmap; exists (N.to_nat k); split; [done|apply elem_of_seq; lia]|].
    cbn. lia.
  - by intros i (n & -> & _)%list_elem_of_fmap.
Qed.

Lemma try_map_elem {E A B} (f : A -> result E B) l k y :
  try_map f l = Ok k -> y ∈ k <-> exists x, x ∈ l /\ f x = Ok y.
Proof using Type.
  intros Hk%try_map_ok. split.
  - intros [i Hi]%list_elem_of_lookup. destruct (Forall2_lookup_r _ _ _ _ _ Hk Hi) as (x & Hx & Hf).
    exists x. split; [by eapply list_elem_of_lookup_2|done].
  - intros (x & [i Hi]%list_elem_of_lookup & Hf). destruct (Forall2_lookup_l _ _ _ _ _ Hk Hi) as (y' & Hy & Hf').
    rewrite Hf in Hf'. injection Hf' as ->. by eapply list_elem_of_lookup_2.
Qed.

(** The items of a key together emit what the key emits. *)
Lemma key_items_emit q p plan it sp edges key items mf mv worker results o any :
  Forall edge_fits edges ->
  key_work_items q p plan it sp edges key = Ok items ->
  try_map (fun w => expand_path_work_item_borrowed w (automaton plan) edges mf mv worker) items = Ok results ->
  frontier any = key ->
  (exists r, r ∈ results /\ result_emits r o) <-> expands (automaton plan) edges any (fun _ => True) o.
Proof using Type.
  intros Hfit (n & Hn & Hids & Hall & _)%key_work_items_spec Hr Hany.
  rewrite <- (split_expands (automaton plan) edges (work_identity <$> items) key n o Hfit Hn Hids Hall any Hany).
  split.
  - intros (r & Hin & Ho). apply (try_map_elem _ _ _ r Hr) in Hin as (w & Hw & Hx).
    apply expand_spec in Hx as (_ & _ & Hem). exists (work_identity w).
    split; [by apply list_elem_of_fmap_2|by apply Hem].
  - intros (i & (w & -> & Hw)%list_elem_of_fmap & Ho).
    assert (exists r, expand_path_work_item_borrowed w (automaton plan) edges mf mv worker = Ok r /\ r ∈ results)
      as (r & Hx & Hin).
    { apply list_elem_of_lookup in Hw as [j Hj]. apply try_map_ok in Hr.
      destruct (Forall2_lookup_l _ _ _ _ _ Hr Hj) as (r & Hrj & Hx). exists r.
      split; [done|by eapply list_elem_of_lookup_2]. }
    exists r. split; [done|]. apply expand_spec in Hx as (_ & _ & Hem). by apply Hem.
Qed.
End work.

(** splitting a hot vertex loses nothing: when a key is split into any
    number of edge shards, the expansions of all its work items together emit
    exactly the frontier keys and endpoints of one unsplit expansion. *)
Theorem hot_splits_lossless `{Sha256, PathJson} q p plan it sp edges key items mf mv worker results whole w :
  Forall edge_fits edges ->
  key_work_items q p plan it sp edges key = Ok items ->
  try_map (fun w => expand_path_work_item_borrowed w (automaton plan) edges mf mv worker) items = Ok results ->
  frontier (work_identity w) = key -> split_count (work_identity w) = 1%N ->
  expand_path_work_item_borrowed w (automaton plan) edges mf mv worker = Ok whole ->
  (forall k, k ∈ next_frontier whole <-> exists r, r ∈ results /\ k ∈ next_frontier r) /\
  (forall e, e ∈ accepting_endpoints whole <-> exists r, r ∈ results /\ e ∈ accepting_endpoints r).
Proof.
  intros Hfit Hi Hr Hf Hs Hw. apply expand_spec in Hw as (_ & _ & Hem).
  assert (forall o, result_emits whole o <-> exists r, r ∈ results /\ result_emits r o) as Ho.
  { intros o. rewrite Hem, (key_items_emit q p plan it sp edges key items mf mv worker results o (work_identity w))
      by done.
    split; apply expands_mono; [done|]. intros edge _ _. unfold edge_in_split. by rewrite Hs. }
  split; [intros k; apply (Ho (inl k))|intros e; apply (Ho (inr e))].
Qed.

(** ** The barrier *)
Section merge_facts.
Context `{Sha256, PathJson}.

Record merged (prior : gset PathEndpoint) (rs : list PathExpansionResult) (m : Merge) : Prop := {
  mg_actual : actual m = result_identity <$> rs;
  mg_distinct : NoDup (result_identity <$> rs);
  mg_candidates : forall k, k ∈ candidates m <-> exists r, r ∈ rs /\ k ∈ next_frontier r;
  mg_endpoints : forall e, e ∈ merged_endpoints m <-> e ∈ prior \/ exists r, r ∈ rs /\ e ∈ accepting_endpoints r;
  mg_scanned : merged_scanned m = foldl (fun n r => (n + scanned_edges r)%N) 0%N rs;
  mg_ok : forall r, r ∈ rs -> result_ok r;
}.

Lemma merge_results prior rs m :
  try_fold merge_result {| actual := []; candidates := ∅; merged_endpoints := prior; merged_scanned := 0 |} rs = Ok m ->
  merged prior rs m.
Proof using Type.
  apply (try_fold_inv (merged prior)).
  { split; cbn; [done|constructor|set_solver|set_solver|done|set_solver]. }
  intros pre r m1 m2 [Ha Hd Hc He Hs Hok] _ Hr. unfold merge_result in Hr. do 3 inv_ok Hr. injection Hr as <-.
  inv_ok Ha1. inv_ok Ha2. apply checked_add_some in Ha2 as [-> _]. bool_prop. unfold is_empty_string in *. bool_prop.
  destruct a. split; cbn.
  - by rewrite fmap_app, Ha.
  - rewrite fmap_app. apply NoDup_app. split_and!; [done| |apply NoDup_singleton].
    intros i Hi ->%list_elem_of_singleton. by rewrite <- Ha in Hi.
  - intros k. rewrite elem_of_union, Hc, elem_of_list_to_set. setoid_rewrite elem_of_app.
    setoid_rewrite list_elem_of_singleton. naive_solver.
  - intros e. rewrite elem_of_union, He, elem_of_list_to_set. setoid_rewrite elem_of_app.
    setoid_rewrite list_elem_of_singleton. naive_solver.
  - by rewrite Hs, foldl_app.
  - intros r' [?| ->%list_elem_of_singleton]%elem_of_app; [auto|]. by split.
Qed.

Lemma same_members_spec l k : same_members l k = true -> forall x, x ∈ l <-> x ∈ k.
Proof using Type.
  unfold same_members. rewrite andb_true_iff, !forallb_forall. intros [Hl Hk] x.
  rewrite !list_elem_of_In. split.
  - intros Hx%Hl. bool_prop. by apply list_elem_of_In.
  - intros Hx%Hk. bool_prop. by apply list_elem_of_In.
Qed.

Lemma admit_candidates_spec (prior : gset PathFrontierKey) l :
  NoDup l ->
  admit_candidates prior l = (prior ∪ list_to_set l, filter (fun k => k ∉ prior) l).
Proof using Type.
  unfold admit_candidates. intros Hnd.
  cut (forall (seen : gset PathFrontierKey) next, (forall k, k ∈ l -> k ∈ seen <-> k ∈ prior) ->
    foldl (fun '(visited, next) candidate =>
        if decide (candidate ∈ visited) then (visited, next)
        else ({[candidate]} ∪ visited, next ++ [candidate])) (seen, next) l
    = (seen ∪ list_to_set l, next ++ filter (fun k => k ∉ prior) l)).
  { intros Hc. by rewrite (Hc prior []). }
  induction Hnd as [|x l Hx Hnd IH]; intros seen next Hs.
  { cbn. rewrite app_nil_r. f_equal. set_solver. }
  cbn [foldl]. destruct (decide (x ∈ seen)) as [Hin|Hin].
  - rewrite IH by (intros; apply Hs; by right). rewrite filter_cons_False.
    + f_equal. set_solver.
    + intros Hn. apply Hn, Hs; [left|done].
  - rewrite IH.
    + rewrite filter_cons_True by (intros Hn; apply Hin, Hs; [left|done]).
      rewrite <- (assoc (++)). f_equal. set_solver.
    + intros k Hk. rewrite elem_of_union, elem_of_singleton, Hs by by right. set_solver.
Qed.

Lemma build_checkpoint_valid state max cp :
  build_path_checkpoint state max = Ok cp -> cp_state cp = state /\ validate_path_checkpoint cp max = Ok tt.
Proof using Type.
  unfold build_path_checkpoint, validate_path_checkpoint. intros Hb. do 3 inv_ok Hb. injection Hb as <-. cbn.
  split; [done|]. rewrite Ha. cbn [mbind result_bind]. rewrite Ha0. cbn [mbind result_bind].
  inv_ok Ha1. bool_prop. rewrite N.eqb_refl, bool_decide_true by done. cbn.
  destruct (N.ltb_spec max a0); [lia|done].
Qed.

(** What an accepted iteration did. *)
Record iteration_ok (expected : list PathExpansionWorkItem) (results : list PathExpansionResult)
    (pv : gset PathFrontierKey) (pe : gset PathEndpoint) (out : PathIterationOutcome) : Prop := {
  io_complete : result_identity <$> results ≡ₚ work_identity <$> expected;
  io_results : forall r, r ∈ results -> result_ok r;
  io_visited : forall k, k ∈ visited out <-> k ∈ pv \/ exists r, r ∈ results /\ k ∈ next_frontier r;
  io_frontier : forall k, k ∈ outcome_frontier out <->
    (exists r, r ∈ results /\ k ∈ next_frontier r) /\ k ∉ pv;
  io_sorted : StronglySorted rlt (outcome_frontier out);
  io_endpoints : forall e, e ∈ endpoints out <->
    e ∈ pe \/ exists r, r ∈ results /\ e ∈ accepting_endpoints r;
  io_terminated : terminated out = true <-> outcome_frontier out = [];
  io_scanned : outcome_scanned out = foldl (fun n r => (n + scanned_edges r)%N) 0%N results;
  io_state : cp_visited (cp_state (checkpoint out)) = sorted_elements (visited out) /\
             cp_next_frontier (cp_state (checkpoint out)) = outcome_frontier out /\
             cp_endpoints (cp_state (checkpoint out)) = sorted_elements (endpoints out);
}.

Lemma complete_iteration_spec expected results pv pe mf mv mc out :
  complete_path_iteration expected results pv pe mf mv mc = Ok out ->
  iteration_ok expected results pv pe out /\ validate_path_checkpoint (checkpoint out) mc = Ok tt.
Proof using Type.
  unfold complete_path_iteration. intros Hc. do 7 inv_ok Hc. rename a4 into m.
  rewrite admit_candidates_spec in Hc by apply NoDup_sorted_elements.
  do 3 inv_ok Hc. injection Hc as <-.
  apply merge_results in Ha4 as [Hact Hnd Hcand Hend Hscan Hok].
  apply build_checkpoint_valid in Ha8 as [Hst Hval]. inv_ok Ha3. inv_ok Ha5. bool_prop.
  assert (forall k, k ∈ filter (fun k => k ∉ pv) (sorted_elements (candidates m)) <->
    (exists r, r ∈ results /\ k ∈ next_frontier r) /\ k ∉ pv) as Hfr.
  { intros k. rewrite list_elem_of_filter, elem_of_sorted_elements, Hcand. naive_solver. }
  split; [|done]. split; cbn.
  - apply NoDup_Permutation; [done| |].
    + apply remove_dups_NoDup. by rewrite length_fmap.
    + intros i. rewrite <- Hact, (same_members_spec _ _ Ha5). apply elem_of_remove_dups.
  - done.
  - intros k. rewrite elem_of_union, elem_of_list_to_set, elem_of_sorted_elements, Hcand. done.
  - done.
  - apply StronglySorted_filter, sorted_elements_strict.
  - done.
  - by rewrite bool_decide_eq_true.
  - done.
  - by rewrite Hst.
Qed.
End merge_facts.

(** ** A concrete serialisation

    Fields as escaped, terminated byte strings: an instance of [PathJson] to
    evaluate the traversal with. *)
Definition escaped (field : list byte) : list byte := (field ≫= fun b => [x01; b]) ++ [x00].
Definition escape_all (fields : list (list byte)) : list byte := fields ≫= escaped.

Lemma escaped_app_inj f g x y : escaped f ++ x = escaped g ++ y -> f = g /\ x = y.
Proof.
  unfold escaped. revert g. induction f as [|b f IH]; intros [|c g]; cbn; try done; [by intros [= ->]|].
  intros [= -> Hfg]. apply IH in Hfg as [-> ->]. done.
Qed.

Global Instance escape_all_inj : Inj (=) (=) escape_all.
Proof.
  intros fs gs. revert gs. induction fs as [|f fs IH]; intros [|g gs]; cbn; [done| | |].
  - unfold escaped. destruct (g ≫= _); done.
  - unfold escaped. destruct (f ≫= _); done.
  - intros [-> Hr]%escaped_app_inj. f_equal. by apply IH.
Qed.

Fixpoint bit_bytes (p : positive) : list byte :=
  match p with
  | xH => []
  | xO p => x00 :: bit_bytes p
  | xI p => x01 :: bit_bytes p
  end.
Global Instance bit_bytes_inj : Inj (=) (=) bit_bytes.
Proof. intros p. induction p as [p IH|p IH|]; intros [q|q|]; cbn; try done; intros [= Hpq]; f_equal; auto. Qed.

Definition num_bytes (n : N) : list byte := bit_bytes (N.succ_pos n).
Global Instance num_bytes_inj : Inj (=) (=) num_bytes.
Proof. intros m n Hmn. apply bit_bytes_inj in Hmn. lia. Qed.
Definition opt_bytes (o : option N) : list byte :=
  match o with None => [] | Some n => x00 :: num_bytes n end.
Global Instance opt_bytes_inj : Inj (=) (=) opt_bytes.
Proof. intros [m|] [n|]; cbn; try done. intros [= Hmn%num_bytes_inj]. by subst. Qed.

Definition key_bytes (k : PathFrontierKey) : list byte :=
  escape_all [num_bytes (origin_entity_id k); num_bytes (entity_id k); num_bytes (automaton_state k);
              opt_bytes (key_graph_id k)].
Global Instance key_bytes_inj : Inj (=) (=) key_bytes.
Proof.
  intros [] [] Hk. apply escape_all_inj in Hk. cbn in Hk. injection Hk as Ha Hb Hc Hd.
  apply num_bytes_inj in Ha, Hb, Hc. apply opt_bytes_inj in Hd. by subst.
Qed.
Definition endpoint_bytes (e : PathEndpoint) : list byte :=
  escape_all [num_bytes (subject_entity_id e); num_bytes (object_entity_id e); opt_bytes (endpoint_graph_id e)].
Global Instance endpoint_bytes_inj : Inj (=) (=) endpoint_bytes.
Proof.
  intros [] [] Hk. apply escape_all_inj in Hk. cbn in Hk. injection Hk as Ha Hb Hd.
  apply num_bytes_inj in Ha, Hb. apply opt_bytes_inj in Hd. by subst.
Qed.

Definition result_fields (r : list PathFrontierKey * list PathEndpoint * N) : list (list byte) :=
  [escape_all (key_bytes <$> r.1.1); escape_all (endpoint_bytes <$> r.1.2); num_bytes r.2].
Definition checkpoint_fields (s : PathCheckpointState) : list (list byte) :=
  [as_bytes (cp_query_sha256 s); as_bytes (cp_plan_sha256 s); as_bytes (cp_path_id s);
   as_bytes (cp_automaton_sha256 s); num_bytes (completed_iteration s); num_bytes (cp_partition_count s);
   escape_all (key_bytes <$> cp_visited s); escape_all (key_bytes <$> cp_next_frontier s);
   escape_all (endpoint_bytes <$> cp_endpoints s); if cp_terminated s then [x01] else []].

Program Definition field_json : PathJson :=
  {| automaton_json a := escape_all [num_bytes (state_count a); num_bytes (start_state a)];
     result_json r := escape_all (result_fields r);
     checkpoint_json s := escape_all (checkpoint_fields s) |}.
Next Obligation.
  intros [[f e] n] [[f' e'] n'] Hr. apply escape_all_inj in Hr. unfold result_fields in Hr. cbn in Hr.
  injection Hr as Ha Hb Hc. apply escape_all_inj, (inj (fmap key_bytes)) in Ha.
  apply escape_all_inj, (inj (fmap endpoint_bytes)) in Hb. apply num_bytes_inj in Hc. by subst.
Qed.
Next Obligation.
  intros [] [] Hs. apply escape_all_inj in Hs. unfold checkpoint_fields in Hs. cbn in Hs.
  injection Hs as Ha Hb Hc Hd He Hf Hg Hh Hi Hj. apply as_bytes_inj in Ha, Hb, Hc, Hd.
  apply num_bytes_inj in He, Hf. apply escape_all_inj, (inj (fmap key_bytes)) in Hg.
  apply escape_all_inj, (inj (fmap key_bytes)) in Hh. apply escape_all_inj, (inj (fmap endpoint_bytes)) in Hi.
  subst. f_equal. by repeat case_match.
Qed.

(** ** Claims *)

(** the epsilon closure is the exact reachability set: on success the
    states are strictly ascending and are precisely those reachable by epsilon
    transitions; failure means that a reachable transition leaves the declared
    state range. *)
Theorem epsilon_closure_exact A q :
  match epsilon_closure A q with
  | Ok states => StronglySorted rlt states /\ forall r, r ∈ states <-> rtc (eps_edge A) q r
  | Err e => e = InvalidPropertyPathIdentity /\
             ((state_count A <= q)%N \/
              exists p r, rtc (eps_edge A) q p /\ eps_edge A p r /\ (state_count A <= r)%N)
  end.
Proof. apply epsilon_closure_spec. Qed.

(** an iteration is accepted only when the results are, up to order, one
    complete checksum-consistent result for every expected work item.  The new
    frontier is then the ascending list of emitted keys not visited before, the
    visited and endpoint sets grow by exactly what was emitted, and the
    checkpoint records the new state and validates. *)
Theorem iteration_barrier_exact `{Sha256, PathJson} expected results pv pe mf mv mc out :
  complete_path_iteration expected results pv pe mf mv mc = Ok out ->
  iteration_ok expected results pv pe out /\ validate_path_checkpoint (checkpoint out) mc = Ok tt.
Proof. apply complete_iteration_spec. Qed.

(** a checkpoint resumes the state it was built from: a built checkpoint
    validates, and any checkpoint that validates with the same digest carries
    the same state, unless the texts of the two states collide. *)
Theorem checkpoint_binds_state `{Sha256, PathJson} state max cp cp' max' :
  build_path_checkpoint state max = Ok cp ->
  validate_path_checkpoint cp max = Ok tt /\
  (validate_path_checkpoint cp' max' = Ok tt -> state_sha256 cp' = state_sha256 cp ->
   cp_state cp' = state \/ collide (checkpoint_json (cp_state cp')) (checkpoint_json state)).
Proof.
  intros Hb. split; [by apply (build_checkpoint_valid state)|]. intros Hv Heq.
  unfold build_path_checkpoint in Hb. do 3 inv_ok Hb. injection Hb as <-.
  unfold validate_path_checkpoint in Hv. do 2 inv_ok Hv. inv_ok Hv. bool_prop. cbn in Heq.
  match goal with Hd : hex_encode _ = state_sha256 cp' |- _ => rewrite Heq in Hd; apply hex_digest_inj in Hd as [Hd|] end;
    [left|by right]. by apply checkpoint_json_inj.
Qed.

(** Validation does not ask the excluded predicates to be ascending, but the
    expansion searches them by bisection: in an unsorted set an excluded
    predicate can go unnoticed.  The compiler always emits ascending sets
    ([sorted_exclusions]). *)
Example unsorted_exclusions_unnoticed :
  let t := {| from_state := 0; to_state := 1; transition := NegatedPropertySet Forward ["b"; "a"] |} in
  let A := {| format_version := 1; state_count := 2; start_state := 0; accept_states := [1%N]; transitions := [t] |} in
  invalid_states A = false /\ existsb (invalid_transition A) (transitions A) = false /\
  predicate_matches (transition t) "b" = true.
Proof. by vm_compute. Qed.
