(* ===== verification/Traversal.v ===== *)
(** * The distributed traversal loop

    Models the worker batch of one storage partition
    ([execute_partition_path_batch] of
    src/crates/ngkg-query-executor/src/partition_path.rs) and the coordinator
    loop of [execute_partition_native_path_set] in
    src/services/online-serving/src/main.rs that drives a property path to
    termination.  Checkpoint persistence, response envelopes, authorization and
    metrics of the coordinator are not modelled; they can only turn a success
    into an error.

    [EdgeSource] is the interface to the adjacency files: what a partition
    reader promises to the traversal.  The theorem is that a terminated
    traversal returns exactly the endpoint pairs of the path. *)

From Stdlib Require Import Strings.Byte Strings.String.
From S2P Require Import Prelude Words Ordered Digest Worklist Planner Terms PathCompiler Path.

Inductive PartitionPathError :=
| Io
| AdjacencyIdentity
| Dictionary
| ScanLimit
| Execution (e : ExecutionError)
| Checkpoint.

(** Some transition of the automaton reads edges in direction [d]. *)
Definition needs_direction (plan : DistributedPropertyPathPlan) (d : PathDirection) : bool :=
  existsb (fun t => bool_decide (kind_direction (transition t) = Some d)) (transitions (automaton plan)).

(** What the adjacency reader of a storage partition promises: it returns only
    stored edges the caller may see, and for the vertices of the frontier every
    one the automaton can read, together with the number of rows it read. *)
Class EdgeSource := {
  stored : N -> list PathEdge;
  fetch : DistributedPropertyPathPlan -> N -> list PathFrontierKey ->
          result PartitionPathError (list PathEdge * N);
  fetch_sound : forall plan partition frontier edges rows,
    fetch plan partition frontier = Ok (edges, rows) ->
    forall edge, edge ∈ edges -> edge ∈ stored partition;
  fetch_complete : forall plan partition frontier edges rows,
    fetch plan partition frontier = Ok (edges, rows) ->
    forall edge key d, edge ∈ stored partition -> key ∈ frontier -> needs_direction plan d = true ->
      edge_touches edge (entity_id key) d = true -> edge ∈ edges;
}.

Record PartitionPathBatch := {
  batch_partition : N;
  batch_work : list PathExpansionWorkItem;
  batch_results : list PathExpansionResult;
  batch_seed_frontier : list PathFrontierKey;
  adjacency_rows_read : N;
  hot_split_count : N;
  batch_worker_threads : N;
  batch_complete : bool;
}.

Section batch.
Context `{Sha256, PathJson, EdgeSource}.

(** The scoped threads each expand one chunk; joining them in order yields the
    chunks' results in order, or the first error. *)
Definition execute_partition_path_batch (query_sha256 plan_sha256 : string)
    (plan : DistributedPropertyPathPlan) (iteration' storage_partition' : N)
    (frontier' : list PathFrontierKey) (max_work_items worker_threads : nat) (worker : string) :
    result PartitionPathError PartitionPathBatch :=
  _ ← fail_if ((worker_threads =? 0) || is_empty_string worker) AdjacencyIdentity;
  '(edges, rows_read) ← fetch plan storage_partition' frontier';
  work ← map_err Execution
    (path_partition_expansion_work_items query_sha256 plan_sha256 plan iteration' storage_partition'
       frontier' edges);
  _ ← fail_if (max_work_items <? length work) ScanLimit;
  let lanes := Nat.max 1 (Nat.min worker_threads (length work)) in
  let chunk := div_ceil (length work) lanes in
  results ← try_map (fun items => map_err Execution
      (try_map (fun item => expand_path_work_item_borrowed item (automaton plan) edges
                  (max_frontier_items plan) (max_visited_items plan) worker) items))
    (chunks chunk work);
  hot ← ok_or (u64_of_len (length (filter (fun item => (1 < split_count (work_identity item))%N) work))) ScanLimit;
  _ ← fail_if (negb (fits U32_LIMIT (N.of_nat lanes))) ScanLimit;
  Ok {| batch_partition := storage_partition'; batch_work := work; batch_results := concat results;
        batch_seed_frontier := []; adjacency_rows_read := rows_read; hot_split_count := hot;
        batch_worker_threads := N.of_nat lanes; batch_complete := true |}.

(** ** The coordinator *)

Inductive OnlineError :=
| Upstream (e : PartitionPathError)
| Distributed (e : ExecutionError)
| SnapshotConflict
| Request
| GatewayTimeout.

(** The splits a batch reports for each frontier key. *)
Definition batch_splits (batch : PartitionPathBatch) :
    result OnlineError (gmap PathFrontierKey (N * gset N)) :=
  try_fold (fun splits work =>
      let i := work_identity work in
      let '(count, indices) := default (split_count i, ∅) (splits !! frontier i) in
      if negb (count =? split_count i)%N || bool_decide (split_index i ∈ indices)
      then Err SnapshotConflict
      else Ok (<[frontier i := (count, {[split_index i]} ∪ indices)]> splits))
    ∅ (batch_work batch).

(** The coverage check of [validate_partition_path_response]: every frontier
    key is present with all of its splits. *)
Definition validate_batch_splits (batch : PartitionPathBatch) (expected : list PathFrontierKey) :
    result OnlineError unit :=
  splits ← batch_splits batch;
  fail_if
    (negb (bool_decide (dom splits = (list_to_set expected : gset PathFrontierKey)))
     || existsb (fun b => let '(_, (count, indices)) := b in
          negb (bool_decide (sorted_elements indices = N.of_nat <$> seq 0 (N.to_nat count))))
        (map_to_list splits))
    SnapshotConflict.

(** One wave: a batch of every storage partition, in partition order. *)
Definition path_wave (query_sha256 plan_sha256 : string) (plan : DistributedPropertyPathPlan)
    (iteration' : N) (frontier' : list PathFrontierKey) (max_work_items worker_threads : nat)
    (worker : string) : result OnlineError (list PathExpansionWorkItem * list PathExpansionResult) :=
  try_fold (fun '(expected, results) partition =>
      batch ← map_err Upstream
        (execute_partition_path_batch query_sha256 plan_sha256 plan iteration' (N.of_nat partition)
           frontier' max_work_items worker_threads worker);
      _ ← validate_batch_splits batch frontier';
      Ok (expected ++ batch_work batch, results ++ batch_results batch))
    ([], []) (seq 0 (N.to_nat (partition_count plan))).

(** [while !frontier.is_empty()]; [remaining] is [max_iterations - iteration]. *)
Fixpoint path_loop (remaining : nat) (query_sha256 plan_sha256 : string)
    (plan : DistributedPropertyPathPlan) (max_work_items worker_threads : nat) (worker : string)
    (iteration' : N) (visited' : gset PathFrontierKey) (endpoints' : gset PathEndpoint)
    (frontier' : list PathFrontierKey) : result OnlineError (gset PathEndpoint) :=
  if bool_decide (frontier' = []) then Ok endpoints'
  else
    match remaining with
    | O => Err GatewayTimeout
    | S remaining =>
        '(expected, results) ← path_wave query_sha256 plan_sha256 plan iteration' frontier'
                                 max_work_items worker_threads worker;
        outcome ← map_err Distributed
          (complete_path_iteration expected results visited' endpoints'
             (max_frontier_items plan) (max_visited_items plan) (max_checkpoint_bytes plan));
        if terminated outcome then Ok (endpoints outcome)
        else path_loop remaining query_sha256 plan_sha256 plan max_work_items worker_threads worker
               (iteration' + 1) (visited outcome) (endpoints outcome) (outcome_frontier outcome)
    end.

(** The traversal of one plan from its merged seed frontier. *)
Definition traverse_path (query_sha256 plan_sha256 : string) (plan : DistributedPropertyPathPlan)
    (max_work_items worker_threads : nat) (worker : string) (seeds : gset PathFrontierKey) :
    result OnlineError (gset PathEndpoint) :=
  _ ← fail_if (count_exceeds (size seeds) (max_frontier_items plan)) Request;
  path_loop (N.to_nat (max_iterations plan)) query_sha256 plan_sha256 plan max_work_items
    worker_threads worker 0 seeds ∅ (sorted_elements seeds).
End batch.

(** ** What a wave emits *)
Section wave.
Context `{Sha256, PathJson, EdgeSource}.

(** The threads compute what a sequential loop computes. *)
Lemma batch_spec q p plan it sp fr mw wt worker batch :
  execute_partition_path_batch q p plan it sp fr mw wt worker = Ok batch ->
  exists edges rows, fetch plan sp fr = Ok (edges, rows) /\
    path_partition_expansion_work_items q p plan it sp fr edges = Ok (batch_work batch) /\
    try_map (fun item => expand_path_work_item_borrowed item (automaton plan) edges
              (max_frontier_items plan) (max_visited_items plan) worker) (batch_work batch)
    = Ok (batch_results batch).
Proof using Type.
  unfold execute_partition_path_batch. intros Hb. inv_ok Hb. inv_ok Hb. destruct a0 as [edges rows].
  do 5 inv_ok Hb. injection Hb as <-. exists edges, rows. inv_ok Ha1. cbn. split_and!; [done|done|].
  apply try_map_map_err, try_map_concat in Ha3. rewrite concat_chunks_any in Ha3; [done|].
  intros Hne. unfold div_ceil. apply Nat.div_str_pos. destruct a0; [done|]. cbn [length]. lia.
Qed.

(** Every key gets its items, and nothing else does. *)
Lemma work_items_spec q p plan it sp fr edges work :
  path_partition_expansion_work_items q p plan it sp fr edges = Ok work ->
  (forall key, key ∈ fr -> exists items, key_work_items q p plan it sp edges key = Ok items /\
     (forall w, w ∈ items -> w ∈ work)) /\
  (forall w, w ∈ work -> exists key items, key ∈ fr /\
     key_work_items q p plan it sp edges key = Ok items /\ w ∈ items).
Proof using Type.
  unfold path_partition_expansion_work_items. intros Hw. do 5 inv_ok Hw.
  assert (forall key, key ∈ sorted_elements (list_to_set fr : gset PathFrontierKey) <-> key ∈ fr) as Hfr.
  { intros key. rewrite elem_of_sorted_elements. apply elem_of_list_to_set. }
  setoid_rewrite <- Hfr. generalize dependent (sorted_elements (list_to_set fr : gset PathFrontierKey)).
  clear. intros keys _ Hw _.
  eapply (try_fold_inv (fun pre work =>
    (forall key, key ∈ pre -> exists items, key_work_items q p plan it sp edges key = Ok items /\
       (forall w, w ∈ items -> w ∈ work)) /\
    (forall w, w ∈ work -> exists key items, key ∈ pre /\
       key_work_items q p plan it sp edges key = Ok items /\ w ∈ items))); [| |exact Hw].
  - split; set_solver.
  - intros pre key w1 w2 [Hk Hi] _ Hs. inv_ok Hs. injection Hs as <-. split.
    + intros key' [Hin| ->%list_elem_of_singleton]%elem_of_app.
      * destruct (Hk key' Hin) as (items & ? & Hsub). exists items. split; [done|]. intros w Hw'%Hsub. set_solver.
      * exists a. set_solver.
    + intros w [Hin|Hin]%elem_of_app.
      * destruct (Hi w Hin) as (key' & items & ? & ? & ?). exists key', items. set_solver.
      * exists key, a. set_solver.
Qed.

(** An identity that only carries a frontier key. *)
Definition at_key (key : PathFrontierKey) : PathWorkIdentity :=
  {| work_query_sha256 := ""; work_plan_sha256 := ""; work_path_id := ""; work_automaton_sha256 := "";
     iteration := 0; owner_partition := 0; identity_partitions := 0; storage_partition := 0;
     frontier := key; split_index := 0; split_count := 1 |}.

(** What expanding [key] against all stored edges emits. *)
Definition key_step (plan : DistributedPropertyPathPlan) (key : PathFrontierKey)
    (o : PathFrontierKey + PathEndpoint) : Prop :=
  exists sp, (sp < partition_count plan)%N /\ expands (automaton plan) (stored sp) (at_key key) (fun _ => True) o.

(** The fetched edges serve the frontier like the stored ones. *)
Lemma fetched_expands plan sp fr edges rows key o :
  fetch plan sp fr = Ok (edges, rows) -> key ∈ fr ->
  expands (automaton plan) edges (at_key key) (fun _ => True) o <->
  expands (automaton plan) (stored sp) (at_key key) (fun _ => True) o.
Proof using Type.
  intros Hf Hk. unfold expands, hop. split; intros (q & Hq & [?|(t & d & edge & r & Ht & Hfr & Hd & He & _ & Hr & Hx)]);
    exists q; (split; [done|]); (by left) || right; exists t, d, edge, r; split_and!; try done; try apply Hx.
  - by eapply fetch_sound.
  - eapply fetch_complete; [done|done|exact Hk| |apply Hr].
    unfold needs_direction. apply existsb_exists. exists t. split; [by apply list_elem_of_In|].
    by apply bool_decide_eq_true.
Qed.

Lemma batch_emits q p plan it sp fr mw wt worker batch o :
  (forall edge, edge ∈ stored sp -> edge_fits edge) ->
  execute_partition_path_batch q p plan it sp fr mw wt worker = Ok batch ->
  (exists r, r ∈ batch_results batch /\ result_emits r o) <->
  exists key, key ∈ fr /\ expands (automaton plan) (stored sp) (at_key key) (fun _ => True) o.
Proof using Type.
  intros Hfit (edges & rows & Hf & Hw & Hr)%batch_spec.
  assert (Forall edge_fits edges) as Hfit' by (apply Forall_forall; intros; eapply Hfit, fetch_sound; eauto).
  set (f item := expand_path_work_item_borrowed item (automaton plan) edges
    (max_frontier_items plan) (max_visited_items plan) worker) in *.
  destruct (work_items_spec _ _ _ _ _ _ _ _ Hw) as [Hkeys Hitems].
  assert (forall w, w ∈ batch_work batch -> exists r, f w = Ok r /\ r ∈ batch_results batch) as Hdone.
  { intros w [j Hj]%list_elem_of_lookup. apply try_map_ok in Hr.
    destruct (Forall2_lookup_l _ _ _ _ _ Hr Hj) as (r & Hrj & Hx). exists r.
    split; [done|by eapply list_elem_of_lookup_2]. }
  assert (forall key, key ∈ fr ->
    expands (automaton plan) (stored sp) (at_key key) (fun _ => True) o <->
    exists items w r, key_work_items q p plan it sp edges key = Ok items /\ w ∈ items /\
      w ∈ batch_work batch /\ f w = Ok r /\ result_emits r o) as Hkey.
  { intros key Hin. rewrite <- (fetched_expands _ _ _ _ _ _ _ Hf Hin).
    destruct (Hkeys key Hin) as (items & Hi & Hsub).
    destruct (try_map_total f items) as [rs Hrs].
    { intros w Hw'%Hsub. destruct (Hdone w Hw') as (r & ? & _). eauto. }
    rewrite <- (key_items_emit _ _ _ _ _ _ _ _ _ _ _ _ o (at_key key) Hfit' Hi Hrs eq_refl). split.
    - intros (r & Hin' & Ho). apply (try_map_elem _ _ _ r Hrs) in Hin' as (w & Hw' & Hx).
      exists items, w, r. auto.
    - intros (items' & w & r & Hi' & Hw' & _ & Hx & Ho). exists r. split; [|done].
      rewrite Hi in Hi'. injection Hi' as <-. apply (try_map_elem _ _ _ r Hrs). eauto. }
  split.
  - intros (r & Hin & Ho). apply (try_map_elem _ _ _ r Hr) in Hin as (w & Hw' & Hx).
    destruct (Hitems w Hw') as (key & items & Hk & Hi & Hwi). exists key. split; [done|].
    apply Hkey; [done|]. exists items, w, r. auto.
  - intros (key & Hk & Ho). apply (Hkey key Hk) in Ho as (items & w & r & _ & _ & Hw' & Hx & Ho).
    exists r. split; [|done]. apply (try_map_elem _ _ _ r Hr). eauto.
Qed.

Lemma wave_emits q p plan it fr mw wt worker expected results o :
  (forall sp edge, edge ∈ stored sp -> edge_fits edge) ->
  path_wave q p plan it fr mw wt worker = Ok (expected, results) ->
  (exists r, r ∈ results /\ result_emits r o) <-> exists key, key ∈ fr /\ key_step plan key o.
Proof using Type.
  intros Hfit Hw. unfold path_wave in Hw.
  eapply (try_fold_adds (fun st => exists r, r ∈ st.2 /\ result_emits r o)
    (fun sp => exists key, key ∈ fr /\ expands (automaton plan) (stored (N.of_nat sp)) (at_key key) (fun _ => True) o)) in Hw.
  - cbn [snd] in Hw. rewrite Hw. unfold key_step. split.
    + intros [(r & Hr & _)|(sp & Hsp%elem_of_seq & key & Hk & Hx)]; [set_solver|].
      exists key. split; [done|]. exists (N.of_nat sp). split; [lia|done].
    + intros (key & Hk & sp & Hsp & Hx). right. exists (N.to_nat sp). rewrite elem_of_seq, N2Nat.id.
      split; [lia|]. eauto.
  - intros [ex rs] sp [ex' rs'] _ Hs. cbn [snd]. inv_ok Hs. inv_ok Ha. inv_ok Hs. injection Hs as <- <-.
    rewrite <- (batch_emits _ _ _ _ _ _ _ _ _ _ o (Hfit (N.of_nat sp)) Ha).
    setoid_rewrite elem_of_app. naive_solver.
Qed.

(** ** The loop *)

(** The loop invariant: visited keys outside the frontier are fully expanded,
    and nothing is visited or emitted without reason. *)
Record loop_inv (plan : DistributedPropertyPathPlan) (seeds v : gset PathFrontierKey) (es : gset PathEndpoint)
    (fr : list PathFrontierKey) : Prop := {
  li_seeds : seeds ⊆ v;
  li_frontier : forall k, k ∈ fr -> k ∈ v;
  li_keys : forall k k', k ∈ v -> k ∉ fr -> key_step plan k (inl k') -> k' ∈ v;
  li_ends : forall k e, k ∈ v -> k ∉ fr -> key_step plan k (inr e) -> e ∈ es;
  li_reach : forall k, k ∈ v -> exists s, s ∈ seeds /\ rtc (fun k k' => key_step plan k (inl k')) s k;
  li_sound : forall e, e ∈ es -> exists k, k ∈ v /\ key_step plan k (inr e);
}.

Lemma loop_inv_init plan seeds : loop_inv plan seeds seeds ∅ (sorted_elements seeds).
Proof using Type.
  split.
  - done.
  - intros k. by rewrite elem_of_sorted_elements.
  - intros k k' Hk Hn. by rewrite elem_of_sorted_elements in Hn.
  - intros k e Hk Hn. by rewrite elem_of_sorted_elements in Hn.
  - intros k Hk. by exists k.
  - set_solver.
Qed.

Lemma loop_inv_step plan seeds v es fr q p it mw wt worker expected results mf mv mc out :
  (forall sp edge, edge ∈ stored sp -> edge_fits edge) ->
  path_wave q p plan it fr mw wt worker = Ok (expected, results) ->
  complete_path_iteration expected results v es mf mv mc = Ok out ->
  loop_inv plan seeds v es fr -> loop_inv plan seeds (visited out) (endpoints out) (outcome_frontier out).
Proof using Type.
  intros Hfit Hw [Hio _]%complete_iteration_spec [Hs Hf Hk He Hr Hsd].
  assert (forall k', (exists r, r ∈ results /\ k' ∈ next_frontier r) <-> exists k, k ∈ fr /\ key_step plan k (inl k')) as Hkeys.
  { intros k'. apply (wave_emits _ _ _ _ _ _ _ _ _ _ (inl k') Hfit Hw). }
  assert (forall e, (exists r, r ∈ results /\ e ∈ accepting_endpoints r) <-> exists k, k ∈ fr /\ key_step plan k (inr e)) as Hends.
  { intros e. apply (wave_emits _ _ _ _ _ _ _ _ _ _ (inr e) Hfit Hw). }
  pose proof (io_visited _ _ _ _ _ Hio) as Hv. setoid_rewrite Hkeys in Hv.
  pose proof (io_frontier _ _ _ _ _ Hio) as Hfr. setoid_rewrite Hkeys in Hfr.
  pose proof (io_endpoints _ _ _ _ _ Hio) as Hep. setoid_rewrite Hends in Hep.
  assert (forall k, k ∈ visited out -> k ∉ outcome_frontier out -> k ∈ v) as Hold.
  { intros k [?|Hn]%Hv Hout; [done|]. destruct (decide (k ∈ v)); [done|]. destruct Hout. by apply Hfr. }
  split.
  - intros k Hkk%Hs. apply Hv. by left.
  - intros k [Hn _]%Hfr. apply Hv. by right.
  - intros k k' Hin Hout Hst. apply Hv. specialize (Hold k Hin Hout).
    destruct (decide (k ∈ fr)); [right; eauto|left; eauto].
  - intros k e Hin Hout Hst. apply Hep. specialize (Hold k Hin Hout).
    destruct (decide (k ∈ fr)); [right; eauto|left; eauto].
  - intros k [Hin|(k0 & Hk0 & Hst)]%Hv; [auto|]. destruct (Hr k0 (Hf k0 Hk0)) as (s & Hss & Hsk).
    exists s. split; [done|]. by eapply rtc_r.
  - intros e [(k & Hin & Hst)%Hsd|(k & Hin & Hst)]%Hep; exists k; (split; [apply Hv; left|done]); auto.
Qed.

Lemma path_loop_inv remaining q p plan mw wt worker it seeds v es fr out :
  (forall sp edge, edge ∈ stored sp -> edge_fits edge) -> loop_inv plan seeds v es fr ->
  path_loop remaining q p plan mw wt worker it v es fr = Ok out ->
  exists v', loop_inv plan seeds v' out [].
Proof using Type.
  intros Hfit. revert it v es fr. induction remaining as [|n IH]; intros it v es fr Hinv Hl; cbn [path_loop] in Hl;
    destruct (bool_decide (fr = [])) eqn:Hfr; bool_prop; try done.
  - injection Hl as <-. subst. eauto.
  - injection Hl as <-. subst. eauto.
  - inv_ok Hl. destruct a as [expected results]. inv_ok Hl. inv_ok Ha0.
    pose proof (loop_inv_step _ _ _ _ _ _ _ _ _ _ _ _ _ _ _ _ _ Hfit Ha Ha0 Hinv) as Hinv'.
    destruct (terminated a) eqn:Ht; [|by eapply IH].
    apply complete_iteration_spec in Ha0 as [Hio _]. apply (io_terminated _ _ _ _ _ Hio) in Ht.
    injection Hl as <-. rewrite Ht in Hinv'. eauto.
Qed.
End wave.

(** ** The traversal computes the runs of the automaton *)
Section runs.
Context `{Sha256, PathJson, EdgeSource} (plan : DistributedPropertyPathPlan).
Let A : DistributedPathAutomaton := automaton plan.

(** The triples a frontier key with graph scope [g] may follow. *)
Definition scope_triples (g : option N) (x : N) (iri : string) (y : N) : Prop :=
  exists sp edge, (sp < partition_count plan)%N /\ edge ∈ stored sp /\ source_entity_id edge = x /\
    edge_predicate_iri edge = iri /\ target_entity_id edge = y /\
    (forall graph, g = Some graph -> edge_graph_id edge = graph).

Abbreviation step g := (nfa_step (scope_triples g) (transitions A)).

Context (Hvalid : invalid_states A = false) (Hsorted : sorted_exclusions (transitions A)).
Context (Hparts : (0 < partition_count plan)%N).

Lemma accepting_spec q : is_accepting A q = true <-> q ∈ accept_states A.
Proof using Hvalid.
  unfold is_accepting. apply binary_search_found_spec. unfold invalid_states in Hvalid. bool_prop.
  by apply windows2_ltb_sorted.
Qed.

Lemma eps_run g p q x : rtc (eps_edge A) p q -> rtc (step g) (p, x) (q, x).
Proof using Type.
  induction 1 as [|p q r (t & Ht & Hf & Hto & Hk) _ IH]; [done|].
  eapply rtc_l; [|exact IH]. exists t. cbn. by rewrite Hk.
Qed.

(** A matching edge is a triple the transition accepts. *)
Lemma matches_label g t d x y iri :
  t ∈ transitions A -> kind_direction (transition t) = Some d ->
  predicate_matches (transition t) iri = true -> oriented (scope_triples g) d iri x y ->
  label_rel (scope_triples g) (transition t) x y.
Proof using Hsorted.
  intros Ht Hd Hm Ho. destruct (transition t) as [|d' iri'|d' iris] eqn:Hk; [done| |];
    injection Hd as ->; cbn in *; bool_prop; [by subst|].
  exists iri. split; [|done]. rewrite <- binary_search_found_spec by by eapply Hsorted. congruence.
Qed.

Lemma label_matches g t x y :
  t ∈ transitions A -> transition t <> Epsilon -> label_rel (scope_triples g) (transition t) x y ->
  exists d iri, kind_direction (transition t) = Some d /\
    predicate_matches (transition t) iri = true /\ oriented (scope_triples g) d iri x y.
Proof using Hsorted.
  intros Ht Hne Hl. destruct (transition t) as [|d iri|d iris] eqn:Hk; [done| |]; cbn in *.
  - exists d, iri. by rewrite bool_decide_true.
  - destruct Hl as (iri & Hi & Ho). exists d, iri. split_and!; [done| |done].
    rewrite <- binary_search_found_spec in Hi by by eapply Hsorted. by destruct (binary_search_found iris iri).
Qed.

(** Reading an edge and its triple are the same thing. *)
Lemma readable_oriented k d edge sp :
  (sp < partition_count plan)%N -> edge ∈ stored sp -> readable (at_key k) d edge ->
  oriented (scope_triples (key_graph_id k)) d (edge_predicate_iri edge) (entity_id k) (other_end d edge).
Proof using Type.
  intros Hsp He [Ht Hg]. unfold edge_outside_graph in Hg. cbn in *.
  assert (forall graph, key_graph_id k = Some graph -> edge_graph_id edge = graph) as Hgr.
  { intros graph Hk. rewrite Hk in Hg. bool_prop. done. }
  destruct d; cbn in *; bool_prop; exists sp, edge; split_and!; done.
Qed.

Lemma oriented_readable k d iri y :
  oriented (scope_triples (key_graph_id k)) d iri (entity_id k) y ->
  exists sp edge, (sp < partition_count plan)%N /\ edge ∈ stored sp /\ readable (at_key k) d edge /\
    edge_predicate_iri edge = iri /\ other_end d edge = y.
Proof using Type.
  intros Ho. assert (forall edge, (forall graph, key_graph_id k = Some graph -> edge_graph_id edge = graph) ->
    edge_outside_graph (at_key k) edge = false) as Hg.
  { intros edge Hgr. unfold edge_outside_graph. cbn. destruct (key_graph_id k) as [graph|]; [|done].
    rewrite (Hgr graph eq_refl), N.eqb_refl. done. }
  unfold readable. destruct d; destruct Ho as (sp & edge & Hsp & He & Hs & Hp & Ht & Hgr); exists sp, edge; cbn;
    (split_and!; [done|done|by apply N.eqb_eq|by apply Hg|done|done]).
Qed.

(** What a key emits is reachable from it. *)
Lemma key_step_sound k o :
  key_step plan k o ->
  match o with
  | inl k' => origin_entity_id k' = origin_entity_id k /\ key_graph_id k' = key_graph_id k /\
      rtc (step (key_graph_id k)) (automaton_state k, entity_id k) (automaton_state k', entity_id k')
  | inr e => subject_entity_id e = origin_entity_id k /\ endpoint_graph_id e = key_graph_id k /\
      exists q, q ∈ accept_states A /\ rtc (step (key_graph_id k)) (automaton_state k, entity_id k) (q, object_entity_id e)
  end.
Proof using Hvalid Hsorted.
  intros (sp & Hsp & q & Hq & [[-> Ha]|(t & d & edge & r & Ht & Hf & Hd & He & _ & Hr & Hm & Hrr & Hem)]); cbn in Hq.
  - cbn. split_and!; [done|done|]. exists q. split; [by apply accepting_spec|by apply eps_run].
  - assert (rtc (step (key_graph_id k)) (automaton_state k, entity_id k) (r, other_end d edge)) as Hrun.
    { transitivity (q, entity_id k); [by apply eps_run|]. eapply rtc_l; [|by apply eps_run].
      exists t. split_and!; [done|done|done|]. cbn. eapply matches_label; [done|done|done|].
      by eapply readable_oriented. }
    destruct o as [k'|e]; destruct Hem as [-> Hc]; cbn in *.
    + split_and!; [done|done|exact Hrun].
    + split_and!; [done|done|]. exists r. split; [by apply accepting_spec|exact Hrun].
Qed.

(** A consuming step after epsilon moves, and its epsilon closure. *)
Definition reaches (k : PathFrontierKey) (q x : N) : Prop :=
  (x = entity_id k /\ rtc (eps_edge A) (automaton_state k) q) \/
  exists q1 t, rtc (eps_edge A) (automaton_state k) q1 /\ t ∈ transitions A /\ from_state t = q1 /\
    transition t <> Epsilon /\ label_rel (scope_triples (key_graph_id k)) (transition t) (entity_id k) x /\
    rtc (eps_edge A) (to_state t) q.

Lemma key_step_hop k q1 t x r o :
  rtc (eps_edge A) (automaton_state k) q1 -> t ∈ transitions A -> from_state t = q1 -> transition t <> Epsilon ->
  label_rel (scope_triples (key_graph_id k)) (transition t) (entity_id k) x -> rtc (eps_edge A) (to_state t) r ->
  emits_at A (key_at (at_key k) x r) o -> key_step plan k o.
Proof using Hsorted.
  intros Hq1 Ht Hf Hne Hl Hr Hem. destruct (label_matches _ _ _ _ Ht Hne Hl) as (d & iri & Hd & Hm & Ho).
  destruct (oriented_readable _ _ _ _ Ho) as (sp & edge & Hsp & He & Hre & Hp & Hx). subst iri x.
  exists sp. split; [done|]. exists q1. split; [done|]. right. exists t, d, edge, r. done.
Qed.

Lemma reaches_endpoint k q x :
  reaches k q x -> q ∈ accept_states A ->
  key_step plan k (inr {| subject_entity_id := origin_entity_id k; object_entity_id := x;
                          endpoint_graph_id := key_graph_id k |}).
Proof using Hvalid Hsorted Hparts.
  intros [[-> Hq]|(q1 & t & Hq1 & Ht & Hf & Hne & Hl & Hq)] Ha%accepting_spec.
  - exists 0%N. split; [done|]. exists q. split; [done|left]. done.
  - eapply key_step_hop; [done..|]. done.
Qed.

(** A closed set of keys that holds a seed reaches every configuration a run
    from the seed reaches. *)
Lemma closed_reaches (v : gset PathFrontierKey) s q x :
  (forall k k', k ∈ v -> key_step plan k (inl k') -> k' ∈ v) -> s ∈ v ->
  rtc (step (key_graph_id s)) (automaton_state s, entity_id s) (q, x) ->
  exists k, k ∈ v /\ origin_entity_id k = origin_entity_id s /\ key_graph_id k = key_graph_id s /\ reaches k q x.
Proof using Hsorted.
  intros Hclosed Hs Hrun. remember (q, x) as c eqn:Hc. revert q x Hc.
  revert c Hrun. apply (rtc_ind_r (fun c => forall q x, c = (q, x) -> exists k, k ∈ v /\
    origin_entity_id k = origin_entity_id s /\ key_graph_id k = key_graph_id s /\ reaches k q x));
    [|intros [q0 x0] c Hrun Hstep IH]; intros q x Hc.
  { injection Hc as <- <-. exists s. split_and!; [done..|]. by left. }
  subst c. destruct (IH q0 x0 eq_refl) as (k & Hk & Ho & Hg & Hre).
  destruct Hstep as (t & Ht & Hf & Hto & Hl). cbn in Hf, Hto, Hl.
  destruct (decide (transition t = Epsilon)) as [He|Hne].
  { rewrite He in Hl. cbn in Hl. subst x0. exists k. split_and!; [done..|].
    assert (eps_edge A q0 q) as Hedge by (by exists t).
    destruct Hre as [[-> Hq]|(q1 & t1 & ? & ? & ? & ? & ? & ?)]; [left; split; [done|by eapply rtc_r]|right].
    exists q1, t1. split_and!; [done..|by eapply rtc_r]. }
  assert (exists k', k' ∈ v /\ origin_entity_id k' = origin_entity_id s /\ key_graph_id k' = key_graph_id s /\
    entity_id k' = x0 /\ rtc (eps_edge A) (automaton_state k') q0) as (k' & Hk' & Ho' & Hg' & Hx' & Hq').
  { destruct Hre as [[-> Hq]|(q1 & t1 & Hq1 & Ht1 & Hf1 & Hn1 & Hl1 & Hq)]; [by exists k|].
    exists (key_at (at_key k) x0 q0). split_and!; [|done..]. eapply Hclosed; [exact Hk|].
    eapply key_step_hop; [done..|]. split; [done|]. unfold has_consuming_transition. apply existsb_exists.
    exists t. split; [by apply list_elem_of_In|]. cbn. by rewrite bool_decide_true, bool_decide_false. }
  exists k'. split_and!; [done..|]. right. exists q0, t. rewrite Hg', Hx'. split_and!; [done..|]. by subst q.
Qed.
End runs.

Section exactness.
Context `{Sha256, PathJson, EdgeSource} (plan : DistributedPropertyPathPlan).

(** One seed per admitted origin: the origin itself, in the start state. *)
Definition is_seed (s : PathFrontierKey) : Prop :=
  entity_id s = origin_entity_id s /\ automaton_state s = start_state (automaton plan).

Lemma traversal_spec q p mw wt worker seeds out :
  invalid_states (automaton plan) = false -> sorted_exclusions (transitions (automaton plan)) ->
  (0 < partition_count plan)%N -> (forall sp edge, edge ∈ stored sp -> edge_fits edge) ->
  set_Forall is_seed seeds ->
  traverse_path q p plan mw wt worker seeds = Ok out ->
  forall e, e ∈ out <-> exists s accept, s ∈ seeds /\ accept ∈ accept_states (automaton plan) /\
    subject_entity_id e = origin_entity_id s /\ endpoint_graph_id e = key_graph_id s /\
    rtc (nfa_step (scope_triples plan (key_graph_id s)) (transitions (automaton plan)))
      (start_state (automaton plan), origin_entity_id s) (accept, object_entity_id e).
Proof using Type.
  intros Hv Hs Hp Hfit Hseeds Ht. unfold traverse_path in Ht. inv_ok Ht.
  destruct (path_loop_inv _ _ _ _ _ _ _ _ seeds _ _ _ _ Hfit (loop_inv_init plan seeds) Ht) as [v Hinv].
  intros e. split.
  - intros (k & Hk & Hst)%(li_sound _ _ _ _ _ Hinv). destruct (li_reach _ _ _ _ _ Hinv k Hk) as (s & Hss & Hsk).
    destruct (Hseeds s Hss) as [Hse Hstart].
    assert (origin_entity_id k = origin_entity_id s /\ key_graph_id k = key_graph_id s /\
      rtc (nfa_step (scope_triples plan (key_graph_id s)) (transitions (automaton plan)))
        (automaton_state s, entity_id s) (automaton_state k, entity_id k)) as (Ho & Hg & Hrun).
    { clear Hst Hk. revert k Hsk. apply (rtc_ind_r (fun k => _)); [done|].
      intros k k' _ Hkk (Ho & Hg & Hrun). apply (key_step_sound plan Hv Hs) in Hkk as (Ho' & Hg' & Hrun').
      rewrite Ho', Hg', Ho, Hg in *. split_and!; [done|done|]. by etransitivity. }
    apply (key_step_sound plan Hv Hs) in Hst as (Hsub & Hgr & acc & Hacc & Hrun').
    exists s, acc. rewrite Hsub, Hgr, Ho, Hg. split_and!; [done..|].
    rewrite Hg in Hrun'. rewrite <- Hstart, <- Hse. by etransitivity.
  - intros (s & acc & Hss & Hacc & Hsub & Hgr & Hrun). destruct (Hseeds s Hss) as [Hse Hstart].
    rewrite <- Hstart, <- Hse in Hrun.
    destruct (closed_reaches plan Hs v s acc (object_entity_id e)) as (k & Hk & Ho & Hg & Hre).
    + intros k k' Hk. apply (li_keys _ _ _ _ _ Hinv); [done|set_solver].
    + by apply (li_seeds _ _ _ _ _ Hinv).
    + done.
    + apply (li_ends _ _ _ _ _ Hinv k); [done|set_solver|].
      replace e with {| subject_entity_id := origin_entity_id k; object_entity_id := object_entity_id e;
                        endpoint_graph_id := key_graph_id k |}; [by eapply reaches_endpoint|].
      destruct e; cbn in *. by rewrite Ho, Hg, Hsub, Hgr.
Qed.
End exactness.

(** C1: the distributed property-path engine is exact, end to end.  When the
    plan carries the automaton compiled from a path, a traversal that
    terminates returns exactly the endpoint pairs of the SPARQL semantics of
    that path from the seeded origins, in their graph scope: hash ownership,
    hot-vertex splits, worker threads, storage partitions, per-iteration
    barriers and the visited set neither lose nor invent a pair. *)
Theorem distributed_path_exact `{Sha256, PathJson, EdgeSource} path plan q p mw wt worker seeds out :
  compile_path_automaton path = Ok (automaton plan) -> (0 < partition_count plan)%N ->
  (forall sp edge, edge ∈ stored sp -> edge_fits edge) -> set_Forall (is_seed plan) seeds ->
  traverse_path q p plan mw wt worker seeds = Ok out ->
  forall e, e ∈ out <-> exists s, s ∈ seeds /\ subject_entity_id e = origin_entity_id s /\
    endpoint_graph_id e = key_graph_id s /\
    path_rel (scope_triples plan (key_graph_id s)) path (origin_entity_id s) (object_entity_id e).
Proof.
  intros Hc Hp Hfit Hseeds Ht e.
  destruct (compiled_automaton path _ Hc) as (acc & Hacc & Hv & _ & Hs & Hrel).
  rewrite (traversal_spec plan q p mw wt worker seeds out Hv Hs Hp Hfit Hseeds Ht e), Hacc.
  setoid_rewrite list_elem_of_singleton. setoid_rewrite <- Hrel. naive_solver.
Qed.

(** ** Concrete evaluation *)

(** Partitions held in memory. *)
Program Definition memory_source (partitions : list (list PathEdge)) : EdgeSource :=
  {| stored sp := default [] (partitions !! N.to_nat sp);
     fetch _ sp _ := Ok (default [] (partitions !! N.to_nat sp), 0%N) |}.
Next Obligation. intros. naive_solver. Qed.
Next Obligation. intros. naive_solver. Qed.

Definition edge_of (s : N) (iri : string) (t : N) : PathEdge :=
  {| source_entity_id := s; edge_predicate_iri := iri; target_entity_id := t; edge_graph_id := 0 |}.

(** A cycle over two partitions, with a vertex of degree two on each side. *)
Definition sample_edges : list (list PathEdge) :=
  [[edge_of 1 "p" 2; edge_of 2 "p" 3]; [edge_of 3 "p" 1; edge_of 2 "q" 4]].

Definition plus_p : PropertyPathExpression := OneOrMore (NamedNode "p").

Definition sample_path_plan (json : PathJson) (A : DistributedPathAutomaton) : DistributedPropertyPathPlan :=
  {| path_id := "property-path-00000"; path_ordinal := 0; graph_scope := "active-default";
     subject_pattern := "?s"; path_sparql := "<p>+"; object_pattern := "?o"; automaton := A;
     automaton_sha256 := automaton_sha256_of (H := padded_digest) (H0 := json) A;
     partition_count := 2; max_iterations := 8; max_frontier_items := 10; max_visited_items := 10;
     max_checkpoint_bytes := 1000000; max_spill_bytes := 1000000; hot_vertex_degree := 1;
     max_hot_vertex_splits := 4; path_require_complete_partition_set := true;
     path_require_scalar_equivalence := true |}.

Definition plus_p_automaton : DistributedPathAutomaton :=
  Eval vm_compute in
    match compile_path_automaton plus_p with
    | Ok A => A
    | Err _ => {| format_version := 0; state_count := 0; start_state := 0; accept_states := []; transitions := [] |}
    end.

Definition sample_seed : PathFrontierKey :=
  {| origin_entity_id := 1; entity_id := 1; automaton_state := 0; key_graph_id := None |}.

Definition sample_traversal : result OnlineError (gset PathEndpoint) :=
  traverse_path (H := padded_digest) (H0 := field_json) (H1 := memory_source sample_edges)
    sample_sha sample_sha (sample_path_plan field_json plus_p_automaton) 100 2 "worker" {[sample_seed]}.

Lemma memory_fits edges : Forall (Forall edge_fits) edges ->
  forall sp edge, edge ∈ stored (EdgeSource := memory_source edges) sp -> edge_fits edge.
Proof.
  intros He sp edge. cbn. destruct (edges !! N.to_nat sp) as [l|] eqn:Hl; cbn; [|set_solver].
  intros Hin. rewrite Forall_forall in He. specialize (He l (list_elem_of_lookup_2 _ _ _ Hl)).
  rewrite Forall_forall in He. auto.
Qed.

Lemma sample_fits sp edge :
  edge ∈ stored (EdgeSource := memory_source sample_edges) sp -> edge_fits edge.
Proof. apply memory_fits. repeat constructor; by vm_compute. Qed.

(** Three steps around the cycle lead back to the origin. *)
Lemma distributed_path_exact_witness :
  path_rel (scope_triples (H1 := memory_source sample_edges) (sample_path_plan field_json plus_p_automaton) None)
    plus_p 1%N 1%N.
Proof.
  destruct sample_traversal as [out|e] eqn:Hout.
  - pose proof (distributed_path_exact (H := padded_digest) (H0 := field_json) (H1 := memory_source sample_edges)
      plus_p (sample_path_plan field_json plus_p_automaton) sample_sha sample_sha 100 2 "worker"
      {[sample_seed]} out) as Hex.
    specialize (Hex ltac:(by vm_compute) ltac:(by vm_compute) sample_fits
      (proj2 (set_Forall_singleton _ _) (conj eq_refl eq_refl)) Hout).
    destruct (Hex {| subject_entity_id := 1; object_entity_id := 1; endpoint_graph_id := None |}) as [Hin _].
    destruct Hin as (s & Hs & _ & _ & Hrel).
    + assert (bool_decide ({| subject_entity_id := 1; object_entity_id := 1; endpoint_graph_id := None |} ∈ out) = true)
        as Hb; [|exact (bool_decide_eq_true_1 _ Hb)].
      assert (match sample_traversal with
              | Ok o => bool_decide ({| subject_entity_id := 1; object_entity_id := 1; endpoint_graph_id := None |} ∈ o)
              | Err _ => false end = true) as Hc by (vm_compute; reflexivity).
      rewrite Hout in Hc. exact Hc.
    + apply elem_of_singleton in Hs. rewrite Hs in Hrel. exact Hrel.
  - exfalso. assert (is_ok sample_traversal = true) as Hc by (vm_compute; reflexivity).
    rewrite Hout in Hc. discriminate Hc.
Defined.

(** ** Termination *)
Section termination.
Context `{Sha256, PathJson, EdgeSource}.

Lemma wave_not_timeout q p plan it fr mw wt worker :
  path_wave q p plan it fr mw wt worker <> Err GatewayTimeout.
Proof using Type.
  unfold path_wave. generalize (@nil PathExpansionWorkItem, @nil PathExpansionResult).
  induction (seq 0 (N.to_nat (partition_count plan))) as [|sp l IH]; intros [ex rs] Hw; [done|]. cbn in Hw.
  apply result_bind_err in Hw as [Hw|(st & _ & Hw)]; [|by apply IH in Hw].
  apply result_bind_err in Hw as [Hw|(batch & _ & Hw)].
  { destruct (execute_partition_path_batch _ _ _ _ _ _ _ _ _); done. }
  apply result_bind_err in Hw as [Hw|(u & _ & Hw)]; [|done].
  unfold validate_batch_splits in Hw. apply result_bind_err in Hw as [Hw|(u & _ & Hw)].
  - unfold batch_splits in Hw. generalize dependent (∅ : gmap PathFrontierKey (N * gset N)).
    induction (batch_work batch) as [|w ws IHw]; intros m Hw; cbn in Hw; [done|].
    destruct (default _ _) as [count indices]. destruct (negb _ || _); cbn in Hw; [done|]. by apply IHw in Hw.
  - apply fail_if_err in Hw as [_ [=]].
Qed.

(** Every iteration that does not terminate visits a new key. *)
Lemma timeout_visits n q p plan mw wt worker it seeds v es fr :
  (forall sp edge, edge ∈ stored sp -> edge_fits edge) -> loop_inv plan seeds v es fr ->
  path_loop n q p plan mw wt worker it v es fr = Err GatewayTimeout ->
  exists v' es' fr', loop_inv plan seeds v' es' fr' /\ n + size v <= size v' /\ fr' <> [].
Proof using Type.
  intros Hfit. revert it v es fr. induction n as [|n IH]; intros it v es fr Hinv Hl; cbn [path_loop] in Hl;
    destruct (bool_decide (fr = [])) eqn:Hfr; bool_prop; try done.
  - exists v, es, fr. split_and!; [done|lia|done].
  - apply result_bind_err in Hl as [Hl|([expected results] & Hw & Hl)]; [by apply wave_not_timeout in Hl|].
    apply result_bind_err in Hl as [Hl|(out & Ho & Hl)].
    { destruct (complete_path_iteration _ _ _ _ _ _ _); done. }
    inv_ok Ho. pose proof (loop_inv_step _ _ _ _ _ _ _ _ _ _ _ _ _ _ _ _ _ Hfit Hw Ho Hinv) as Hinv'.
    apply complete_iteration_spec in Ho as [Hio _]. destruct (terminated out) eqn:Ht; [done|].
    destruct (IH _ _ _ _ Hinv' Hl) as (v' & es' & fr' & Hi & Hsz & Hne). exists v', es', fr'. split_and!; [done| |done].
    assert (size v < size (visited out)); [|lia].
    assert (outcome_frontier out <> []) as Hfr'.
    { intros Hnil. apply (io_terminated _ _ _ _ _ Hio) in Hnil. congruence. }
    destruct (outcome_frontier out) as [|k l] eqn:Hk; [done|].
    assert (k ∈ outcome_frontier out) as Hkin by (rewrite Hk; left).
    pose proof (proj1 (io_frontier _ _ _ _ _ Hio k) Hkin) as [Hnew Hnv].
    apply subset_size. split; [intros x Hx; apply (io_visited _ _ _ _ _ Hio); by left|].
    intros Hsub. apply Hnv, Hsub, (io_visited _ _ _ _ _ Hio). by right.
Qed.
End termination.

(** C39: the traversal gives up on its iteration ceiling only when there is that
    much to do: whenever it times out, more distinct keys are reachable from
    the seeds than it was allowed iterations.  A ceiling at the number of
    reachable (origin, entity, state, graph) keys is therefore enough, cycles
    in the data included. *)
Theorem timeout_only_beyond_reachable `{Sha256, PathJson, EdgeSource} plan q p mw wt worker seeds :
  (forall sp edge, edge ∈ stored sp -> edge_fits edge) ->
  traverse_path q p plan mw wt worker seeds = Err GatewayTimeout ->
  exists keys : gset PathFrontierKey,
    (forall k, k ∈ keys -> exists s, s ∈ seeds /\ rtc (fun k k' => key_step plan k (inl k')) s k) /\
    (max_iterations plan < N.of_nat (size keys))%N.
Proof.
  intros Hfit Ht. unfold traverse_path in Ht.
  apply result_bind_err in Ht as [Ht|(u & _ & Ht)]; [by apply fail_if_err in Ht as [_ [=]]|].
  destruct (decide (seeds = ∅)) as [->|Hne].
  { exfalso. by destruct (N.to_nat (max_iterations plan)). }
  destruct (timeout_visits _ _ _ _ _ _ _ _ _ _ _ _ Hfit (loop_inv_init plan seeds) Ht)
    as (v & es & fr & Hinv & Hsz & _).
  exists v. split; [apply (li_reach _ _ _ _ _ Hinv)|].
  assert (size seeds <> 0); [|lia]. intros Hz%size_empty_inv. by apply Hne, leibniz_equiv.
Qed.

(** ** Witnesses *)

Definition short_plan : DistributedPropertyPathPlan :=
  let p := sample_path_plan field_json plus_p_automaton in
  {| path_id := path_id p; path_ordinal := 0; graph_scope := graph_scope p; subject_pattern := subject_pattern p;
     path_sparql := path_sparql p; object_pattern := object_pattern p; automaton := automaton p;
     automaton_sha256 := automaton_sha256 p; partition_count := 2; max_iterations := 1; max_frontier_items := 10;
     max_visited_items := 10; max_checkpoint_bytes := 1000000; max_spill_bytes := 1000000; hot_vertex_degree := 1;
     max_hot_vertex_splits := 4; path_require_complete_partition_set := true;
     path_require_scalar_equivalence := true |}.

Lemma timeout_only_beyond_reachable_witness :
  exists keys : gset PathFrontierKey, (1 < N.of_nat (size keys))%N.
Proof.
  destruct (timeout_only_beyond_reachable (H := padded_digest) (H0 := field_json)
    (H1 := memory_source sample_edges) short_plan sample_sha sample_sha 100 2 "worker" {[sample_seed]})
    as (keys & _ & Hk).
  - exact sample_fits.
  - vm_compute. reflexivity.
  - exists keys. exact Hk.
Defined.

(** The first wave of the sample traversal and the state after it. *)
Definition sample_wave : list PathExpansionWorkItem * list PathExpansionResult :=
  match path_wave (H := padded_digest) (H0 := field_json) (H1 := memory_source sample_edges)
          sample_sha sample_sha (sample_path_plan field_json plus_p_automaton) 0 [sample_seed] 100 2 "worker" with
  | Ok w => w
  | Err _ => ([], [])
  end.

Definition sample_outcome : result ExecutionError PathIterationOutcome :=
  complete_path_iteration (H := padded_digest) (H0 := field_json) sample_wave.1 sample_wave.2
    {[sample_seed]} ∅ 10 10 1000000.

Lemma iteration_barrier_exact_witness :
  exists out, sample_outcome = Ok out /\
    validate_path_checkpoint (H := padded_digest) (H0 := field_json) (checkpoint out) 1000000 = Ok tt.
Proof.
  destruct sample_outcome as [out|e] eqn:Hout.
  - exists out. split; [reflexivity|].
    exact (proj2 (iteration_barrier_exact (H := padded_digest) (H0 := field_json) _ _ _ _ _ _ _ _ Hout)).
  - exfalso. assert (is_ok sample_outcome = true) as Hc by (vm_compute; reflexivity).
    rewrite Hout in Hc. discriminate Hc.
Defined.

Lemma checkpoint_binds_state_witness :
  let state := {| cp_query_sha256 := sample_sha; cp_plan_sha256 := sample_sha; cp_path_id := "p";
    cp_automaton_sha256 := sample_sha; completed_iteration := 0; cp_partition_count := 2;
    cp_visited := [sample_seed]; cp_next_frontier := [sample_seed]; cp_endpoints := []; cp_terminated := false |} in
  exists cp, build_path_checkpoint (H := padded_digest) (H0 := field_json) state 100000 = Ok cp /\
    validate_path_checkpoint (H := padded_digest) (H0 := field_json) cp 100000 = Ok tt.
Proof.
  intros state.
  destruct (build_path_checkpoint (H := padded_digest) (H0 := field_json) state 100000) as [cp|e] eqn:Hb.
  - exists cp. split; [reflexivity|].
    exact (proj1 (checkpoint_binds_state (H := padded_digest) (H0 := field_json) state 100000 cp cp 100000 Hb)).
  - exfalso. vm_compute in Hb. discriminate Hb.
Defined.

(** Vertex 2 has degree two and is split in two; one item reads all of it. *)
Definition hot_edges : list PathEdge := [edge_of 1 "p" 2; edge_of 2 "p" 3].
Definition hot_key : PathFrontierKey :=
  {| origin_entity_id := 2; entity_id := 2; automaton_state := 0; key_graph_id := None |}.

Definition hot_items : result ExecutionError (list PathExpansionWorkItem) :=
  key_work_items (H := padded_digest) sample_sha sample_sha
    (sample_path_plan field_json plus_p_automaton) 0 0 hot_edges hot_key.
Definition hot_expand (w : PathExpansionWorkItem) : result ExecutionError PathExpansionResult :=
  expand_path_work_item_borrowed (H := padded_digest) (H0 := field_json) w plus_p_automaton hot_edges 10 10 "worker".
Definition whole_item : PathExpansionWorkItem :=
  {| work_identity :=
     {| work_query_sha256 := sample_sha; work_plan_sha256 := sample_sha; work_path_id := "property-path-00000";
        work_automaton_sha256 := automaton_sha256_of (H := padded_digest) (H0 := field_json) plus_p_automaton;
        iteration := 0;
        owner_partition := match path_partition_owner (H := padded_digest) sample_sha "property-path-00000" hot_key 2 with
                           | Ok o => o | Err _ => 0%N end;
        identity_partitions := 2; storage_partition := 0; frontier := hot_key; split_index := 0; split_count := 1 |} |}.

Lemma hot_splits_lossless_witness :
  exists items results whole, hot_items = Ok items /\ length items = 2 /\
    try_map hot_expand items = Ok results /\ hot_expand whole_item = Ok whole /\
    forall e, e ∈ accepting_endpoints whole <-> exists r, r ∈ results /\ e ∈ accepting_endpoints r.
Proof.
  destruct hot_items as [items|e] eqn:Hi; [|exfalso; vm_compute in Hi; discriminate Hi].
  destruct (try_map hot_expand items) as [results|e] eqn:Hr.
  2:{ exfalso. vm_compute in Hi. injection Hi as <-. vm_compute in Hr. discriminate Hr. }
  destruct (hot_expand whole_item) as [whole|e] eqn:Hw; [|exfalso; vm_compute in Hw; discriminate Hw].
  exists items, results, whole. split; [reflexivity|]. split.
  { vm_compute in Hi. injection Hi as <-. reflexivity. }
  split; [exact Hr|]. split; [reflexivity|].
  refine (proj2 (hot_splits_lossless (H := padded_digest) (H0 := field_json) _ _ _ _ _ _ _ _ _ _ _ _ _ whole_item
    _ Hi Hr eq_refl eq_refl Hw)).
  repeat constructor; by vm_compute.
Defined.
