(* ===== verification/ExternalSort.v ===== *)
(** * External sorting

    Models the bounded-memory sort of
    src/crates/ngkg-semantic-compiler/src/lib.rs: [merge_facts_unique], the
    k-way merge of sorted runs through a binary heap, and
    [hierarchical_merge_unique], which merges runs in passes of at most
    [EXTERNAL_MERGE_FAN_IN] files.  A path stands for the bytes of the file it
    names; directories, fsync and failing devices are not modelled.

    The theorem is that any set of sorted runs merges to the sorted list of
    the distinct lines, with exact counts, however many passes it takes. *)

From Stdlib Require Import Strings.Byte Strings.String.
From S2P Require Import Prelude Words Ordered Text.

(** [Panic] is an index out of range; the theorems exclude it. *)
Inductive SemanticCompilerError :=
| Io
| Json
| Rdf
| Contract (what : string)
| Panic.

Definition compiler_checked_add (left right : N) (label : string) : result SemanticCompilerError N :=
  ok_or (checked_add U64_LIMIT left right) (Contract (label +:+ " count overflow")).

Global Instance nat_ord : RustOrd nat := ord_by N.of_nat _.

(** ** Merging runs

    The binary heap of [Reverse((line, index))] is kept as the ascending list
    of its elements: the order in which [pop] yields them. *)
Definition Heap := list (list byte * nat).
Definition heap_push (x : list byte * nat) (heap : Heap) : Heap := sort (x :: heap).

Record MergeState := {
  heap : Heap;
  readers : list (list (list byte));
  writer : list byte;
  previous : option (list byte);
  unique : N;
  duplicates : N;
}.

(** [if let Some(next) = readers[index].next() { heap.push(Reverse((next?, index))) }]. *)
Definition read_next (heap : Heap) (readers : list (list (list byte))) (index : nat) :
    result SemanticCompilerError (Heap * list (list (list byte))) :=
  match readers !! index with
  | None => Err Panic
  | Some [] => Ok (heap, readers)
  | Some (raw :: rest) =>
      line ← line_text Io raw;
      Ok (heap_push (line, index) heap, <[index := rest]> readers)
  end.

(** The first line of every run. *)
Definition fill_heap (readers : list (list (list byte))) :
    result SemanticCompilerError (Heap * list (list (list byte))) :=
  try_fold (fun '(heap, readers) index => read_next heap readers index) ([], readers)
    (seq 0 (length readers)).

(** The body of the loop for the popped [(line, index)]. *)
Definition merge_step (maximum : N) (line : list byte) (index : nat) (rest : Heap) (st : MergeState) :
    result SemanticCompilerError MergeState :=
  '(writer', previous', unique', duplicates') ←
    (if bool_decide (previous st = Some line) then
       duplicates' ← compiler_checked_add (duplicates st) 1 "duplicate";
       Ok (writer st, previous st, unique st, duplicates')
     else
       unique' ← compiler_checked_add (unique st) 1 "fact";
       _ ← fail_if (maximum <? unique')%N (Contract "partition exceeded fact ceiling");
       Ok (writer st ++ write_line line, Some line, unique', duplicates st));
  '(heap', readers') ← read_next rest (readers st) index;
  Ok {| heap := heap'; readers := readers'; writer := writer'; previous := previous';
        unique := unique'; duplicates := duplicates' |}.

(** [while let Some(Reverse((line, index))) = heap.pop()]. *)
Fixpoint merge_loop (fuel : nat) (maximum : N) (st : MergeState) : result SemanticCompilerError MergeState :=
  match heap st with
  | [] => Ok st
  | (line, index) :: rest =>
      match fuel with
      | O => Err Panic
      | S fuel => st' ← merge_step maximum line index rest st; merge_loop fuel maximum st'
      end
  end.

(** The bytes written, the distinct lines and the repeated ones.  Every
    iteration consumes one line: the lines bound the iterations. *)
Definition merge_facts_unique (inputs : list (list byte)) (maximum : N) :
    result SemanticCompilerError (list byte * N * N) :=
  let all := lines <$> inputs in
  '(heap', readers') ← fill_heap all;
  st ← merge_loop (length (concat all)) maximum
         {| heap := heap'; readers := readers'; writer := []; previous := None; unique := 0; duplicates := 0 |};
  Ok (writer st, unique st, duplicates st).

(** ** Passes *)

Definition EXTERNAL_MERGE_FAN_IN : nat := 256.

(** A group of runs becomes one run. *)
Definition merge_chunk (maximum : N) (acc : list (list byte) * N) (chunk : list (list byte)) :
    result SemanticCompilerError (list (list byte) * N) :=
  let '(next, duplicates') := acc in
  '(run, _, removed) ← merge_facts_unique chunk maximum;
  duplicates' ← compiler_checked_add duplicates' removed "duplicate";
  Ok (next ++ [run], duplicates').

Definition merge_pass (maximum : N) (current : list (list byte)) (duplicates' : N) :
    result SemanticCompilerError (list (list byte) * N) :=
  try_fold (merge_chunk maximum) ([], duplicates') (chunks EXTERNAL_MERGE_FAN_IN current).

(** [while current.len() > EXTERNAL_MERGE_FAN_IN]: every pass leaves fewer runs. *)
Fixpoint merge_passes (fuel : nat) (maximum pass : N) (current : list (list byte)) (duplicates' : N) :
    result SemanticCompilerError (list (list byte) * N) :=
  if EXTERNAL_MERGE_FAN_IN <? length current then
    match fuel with
    | O => Err Panic
    | S fuel =>
        '(next, duplicates') ← merge_pass maximum current duplicates';
        pass ← ok_or (checked_add U32_LIMIT pass 1) (Contract "merge pass overflow");
        merge_passes fuel maximum pass next duplicates'
    end
  else Ok (current, duplicates').

Definition hierarchical_merge_unique (inputs : list (list byte)) (maximum : N) :
    result SemanticCompilerError (list byte * N * N) :=
  '(current, duplicates') ← merge_passes (length inputs) maximum 0 inputs 0;
  '(output, rows, removed) ← merge_facts_unique current maximum;
  duplicates' ← compiler_checked_add duplicates' removed "duplicate";
  Ok (output, rows, duplicates').

(** ** Writing runs *)

(** One line of [write_lines]: the newline is added only when missing. *)
Definition run_line (line : list byte) : list byte :=
  line ++ (if bool_decide (last line = Some LF) then [] else [LF]).
Definition write_lines (ls : list (list byte)) : list byte := concat (run_line <$> ls).

(** [buffer.sort_unstable(); buffer.dedup(); write_lines(..)]: the body the
    flush functions share. *)
Definition sorted_run (buffer : list (list byte)) : list byte := write_lines (dedup (sort buffer)).

(** [flush_partition_term_run] and [flush_index_run]: the runs so far and the next ordinal. *)
Definition flush_run (overflow : string) (buffer : list (list byte)) (runs : list (list byte)) (ordinal : N) :
    result SemanticCompilerError (list (list byte) * N) :=
  if bool_decide (buffer = []) then Ok (runs, ordinal)
  else
    ordinal' ← ok_or (checked_add U32_LIMIT ordinal 1) (Contract overflow);
    Ok (runs ++ [sorted_run buffer], ordinal').

(** ** The merge is exact *)

Lemma compiler_add_ok a b label : (a + b < U64_LIMIT)%N -> compiler_checked_add a b label = Ok (a + b)%N.
Proof. intros Hlt. unfold compiler_checked_add. rewrite (proj2 (checked_add_some _ a b (a + b)%N)); done. Qed.

Section merge.
Implicit Types (h : Heap) (rs : list (list (list byte))) (line : list byte).

(** The lines still to be written, as a bag. *)
Definition pending h rs : list (list byte) := h.*1 ++ concat rs.

(** Runs are sorted, the heap holds the head of each run of [D] that has one,
    and no run twice. *)
Record merge_inv (D : nat -> Prop) h rs : Prop := {
  mi_sorted : StronglySorted rle h;
  mi_heads : forall l i, (l, i) ∈ h -> exists ls, rs !! i = Some ls /\ Forall (rle l) ls;
  mi_runs : forall i ls, rs !! i = Some ls -> StronglySorted rle ls /\ Forall (fun l => utf8_valid l = true) ls;
  mi_cover : forall i ls, D i -> rs !! i = Some ls -> ls <> [] -> i ∈ h.*2;
  mi_nodup : NoDup h.*2;
}.

Lemma heap_push_perm x h : heap_push x h ≡ₚ x :: h.
Proof. apply sort_perm. Qed.

Lemma concat_insert_perm rs i x ls :
  rs !! i = Some (x :: ls) -> concat rs ≡ₚ x :: concat (<[i := ls]> rs).
Proof.
  intros Hi. rewrite <- (take_drop_middle rs i _ Hi) at 1.
  rewrite (insert_take_drop rs i ls) by (by eapply lookup_lt_Some).
  rewrite !concat_app. cbn [concat]. rewrite <- app_comm_cons. apply Permutation_sym, Permutation_middle.
Qed.

Lemma read_next_spec D h rs i ls :
  merge_inv D h rs -> rs !! i = Some ls -> i ∉ h.*2 ->
  exists h' rs', read_next h rs i = Ok (h', rs') /\ merge_inv (fun j => D j \/ j = i) h' rs' /\
    pending h' rs' ≡ₚ pending h rs /\ length rs' = length rs /\ (forall j, j ∈ h'.*2 -> j ∈ h.*2 \/ j = i).
Proof using Type.
  intros [Hs Hh Hr Hc Hn] Hi Hni. unfold read_next. rewrite Hi. destruct ls as [|raw rest].
  - exists h, rs. split_and!; try done; [|by left]. split; try done.
    intros j ls [HD| ->] Hj Hne; [by eapply Hc|]. by simplify_eq.
  - destruct (Hr i _ Hi) as [[Hss Hle]%StronglySorted_inv [Hv Hvs]%Forall_cons].
    unfold line_text. rewrite Hv. cbn [mbind result_bind].
    exists (heap_push (raw, i) h), (<[i := rest]> rs).
    pose proof (lookup_lt_Some _ _ _ Hi) as Hlt.
    assert (forall j, j ∈ (heap_push (raw, i) h).*2 <-> j ∈ h.*2 \/ j = i) as Hidx.
    { intros j. rewrite heap_push_perm. set_solver. }
    split_and!; [done| | |by rewrite length_insert|naive_solver].
    + split.
      * apply sort_sorted.
      * intros l j. rewrite heap_push_perm. intros [[= -> ->]|Hin]%elem_of_cons.
        -- exists rest. split; [by apply list_lookup_insert_eq|done].
        -- destruct (Hh l j Hin) as (ls & Hj & Hle'). exists ls. split; [|done].
           rewrite list_lookup_insert_ne; [done|]. intros <-. apply Hni, list_elem_of_fmap. by exists (l, i).
      * intros j ls. destruct (decide (i = j)) as [<-|Hne].
        -- rewrite list_lookup_insert_eq by done. intros [= <-]. done.
        -- rewrite list_lookup_insert_ne by done. apply Hr.
      * intros j ls HD Hj Hne. apply Hidx. destruct (decide (j = i)) as [->|Hji]; [by right|]. left.
        rewrite list_lookup_insert_ne in Hj by done. eapply Hc; try done. by destruct HD.
      * rewrite heap_push_perm. cbn. by constructor.
    + unfold pending. rewrite heap_push_perm, (concat_insert_perm rs i raw rest Hi). cbn [fmap list_fmap fst app].
      apply Permutation_middle.
Qed.

Lemma fill_heap_from n : forall s h rs,
  merge_inv (fun j => j < s) h rs -> (forall j, j ∈ h.*2 -> j < s) -> s + n = length rs ->
  exists h' rs', try_fold (fun '(h, rs) i => read_next h rs i) (h, rs) (seq s n) = Ok (h', rs') /\
    merge_inv (fun _ => True) h' rs' /\ pending h' rs' ≡ₚ pending h rs.
Proof using Type.
  induction n as [|n IH]; intros s h rs Hinv Hlt Hlen; cbn [seq try_fold].
  - exists h, rs. split_and!; [done| |done]. destruct Hinv as [? ? ? Hc ?]. split; try done.
    intros i ls _ Hi. eapply Hc; [|done]. apply lookup_lt_Some in Hi. lia.
  - destruct (lookup_lt_is_Some_2 rs s) as [ls Hls]; [lia|].
    destruct (read_next_spec _ h rs s ls Hinv Hls) as (h1 & rs1 & -> & Hinv1 & Hp1 & Hlen1 & Hidx).
    { intros Hin%Hlt. lia. }
    cbn [mbind result_bind].
    destruct (IH (S s) h1 rs1) as (h' & rs' & Hf & Hinv' & Hp'); [| |lia|].
    + destruct Hinv1 as [? ? ? Hc ?]. split; try done. intros i l Hi. apply Hc. lia.
    + intros j [Hj%Hlt| ->]%Hidx; lia.
    + exists h', rs'. split_and!; [done|done|]. by rewrite Hp'.
Qed.

(** The heads of the runs are in the heap, nothing is lost. *)
Lemma fill_heap_spec rs :
  (forall ls, ls ∈ rs -> StronglySorted rle ls /\ Forall (fun l => utf8_valid l = true) ls) ->
  exists h' rs', fill_heap rs = Ok (h', rs') /\ merge_inv (fun _ => True) h' rs' /\ pending h' rs' ≡ₚ concat rs.
Proof using Type.
  intros Hr. apply (fill_heap_from (length rs) 0 [] rs); [|set_solver|done]. split.
  - constructor.
  - set_solver.
  - intros i ls Hi. by eapply Hr, list_elem_of_lookup_2.
  - lia.
  - constructor.
Qed.

(** The popped line is the least one pending. *)
Lemma heap_head_least line index rest rs :
  merge_inv (fun _ => True) ((line, index) :: rest) rs -> forall x, x ∈ pending ((line, index) :: rest) rs -> rle line x.
Proof using Type.
  intros [Hs Hh _ Hc _] x.
  assert (forall l i, (l, i) ∈ (line, index) :: rest -> rle line l) as Hl.
  { intros l i [[= -> ->]|Hin]%elem_of_cons; [done|]. apply StronglySorted_inv in Hs as [_ Hall].
    rewrite Forall_forall in Hall. specialize (Hall _ Hin). revert Hall. unfold rle. cbn.
    intros H1 H2. rewrite H2 in H1. cbn in H1. done. }
  intros [Hin|Hin]%elem_of_app.
  - apply list_elem_of_fmap in Hin as ([l i] & -> & Hin). by eapply Hl.
  - apply elem_of_concat in Hin as (ls & Hls & Hx). apply list_elem_of_lookup in Hls as [i Hi].
    destruct (decide (ls = [])) as [->|Hne]; [set_solver|].
    pose proof (Hc i ls I Hi Hne) as Hin. apply list_elem_of_fmap in Hin as ([l j] & -> & Hin).
    destruct (Hh l j Hin) as (ls' & Hj & Hall). cbn in Hi. simplify_eq. rewrite Forall_forall in Hall.
    transitivity l; [by eapply Hl|]. by apply Hall.
Qed.

(** What the loop still writes: the distinct pending lines but the last written. *)
Definition outstanding (previous' : option (list byte)) (lines' : list (list byte)) : list (list byte) :=
  sorted_elements ((list_to_set lines' : gset (list byte)) ∖ match previous' with Some p => {[p]} | None => ∅ end).

Lemma sorted_elements_least (S : gset (list byte)) x :
  x ∈ S -> (forall y, y ∈ S -> rle x y) -> sorted_elements S = x :: sorted_elements (S ∖ {[x]}).
Proof using Type.
  intros Hx Hle. apply strictly_sorted_unique.
  - apply sorted_elements_strict.
  - constructor; [apply sorted_elements_strict|]. apply Forall_forall. intros y Hy%elem_of_sorted_elements.
    destruct (proj1 (rle_lt_eq x y)) as [?|Heq]; [apply Hle; set_solver|done|]. set_solver.
  - intros y. rewrite elem_of_cons, !elem_of_sorted_elements, elem_of_difference, elem_of_singleton. clear Hle.
    destruct (decide (y = x)) as [->|]; tauto.
Qed.

Lemma outstanding_perm prev l k : l ≡ₚ k -> outstanding prev l = outstanding prev k.
Proof using Type. intros Hp. unfold outstanding. by rewrite (list_to_set_perm_L l k Hp). Qed.

Lemma outstanding_again line l : outstanding (Some line) (line :: l) = outstanding (Some line) l.
Proof using Type. unfold outstanding. f_equal. apply leibniz_equiv. set_solver. Qed.

Lemma outstanding_new prev line l :
  (forall x, x ∈ line :: l -> rle line x) -> (forall p, prev = Some p -> rle p line) -> prev <> Some line ->
  outstanding prev (line :: l) = line :: outstanding (Some line) l.
Proof using Type.
  intros Hmin Hp Hne.
  assert (match prev with Some p => {[p]} | None => ∅ end ## (list_to_set (line :: l) : gset (list byte))) as Hdis.
  { destruct prev as [p|]; [|set_solver]. apply disjoint_singleton_l. rewrite elem_of_list_to_set. intros Hin%Hmin.
    apply Hne. f_equal. by apply rle_antisym; [apply Hp|]. }
  unfold outstanding. rewrite difference_disjoint_L by done. rewrite (sorted_elements_least _ line).
  - f_equal. f_equal. apply leibniz_equiv. set_solver.
  - set_solver.
  - intros y Hy%elem_of_list_to_set. by apply Hmin.
Qed.

Lemma outstanding_length prev l : length (outstanding prev l) <= length l.
Proof using Type.
  unfold outstanding. rewrite length_sorted_elements. etransitivity; [apply subseteq_size, subseteq_difference_l; reflexivity|].
  apply size_list_to_set_bound.
Qed.

(** What the loop ends in, when [unique'] lines fit below the ceiling. *)
Definition merge_result (maximum : N) (st : MergeState) (r : result SemanticCompilerError MergeState) : Prop :=
  let p := pending (heap st) (readers st) in
  let out := outstanding (previous st) p in
  if (maximum <? unique st + N.of_nat (length out))%N then r = Err (Contract "partition exceeded fact ceiling")
  else exists st', r = Ok st' /\ writer st' = writer st ++ concat (write_line <$> out) /\
    unique st' = (unique st + N.of_nat (length out))%N /\
    duplicates st' = (duplicates st + N.of_nat (length p - length out))%N.

Lemma merge_result_done maximum rs w prev u d fuel :
  let st := {| heap := []; readers := rs; writer := w; previous := prev; unique := u; duplicates := d |} in
  merge_inv (fun _ => True) [] rs -> (u <= maximum)%N ->
  merge_result maximum st (merge_loop fuel maximum st).
Proof using Type.
  intros st [_ _ _ Hc _] Hu. unfold merge_result. cbn [heap readers previous unique duplicates writer st].
  assert (pending [] rs = []) as ->.
  { unfold pending. cbn. apply elem_of_nil_inv. intros x (ls & Hls & Hx)%elem_of_concat.
    apply list_elem_of_lookup in Hls as [i Hi]. assert (ls <> []) as Hne by (intros ->; by apply elem_of_nil in Hx).
    specialize (Hc i ls I Hi Hne). by apply elem_of_nil in Hc. }
  assert (outstanding prev [] = []) as ->.
  { apply length_zero_iff_nil. pose proof (outstanding_length prev []). cbn in *. lia. }
  cbn. rewrite N.add_0_r. rewrite (proj2 (N.ltb_ge _ _)) by lia. exists st. rewrite app_nil_r, N.add_0_r.
  by destruct fuel.
Qed.

(** One iteration: a repeated line is counted, a new one is written. *)
Lemma merge_step_spec maximum line index rest rs w prev u d :
  merge_inv (fun _ => True) ((line, index) :: rest) rs ->
  exists h' rs', merge_inv (fun _ => True) h' rs' /\
    pending ((line, index) :: rest) rs ≡ₚ line :: pending h' rs' /\
    merge_step maximum line index rest {| heap := (line, index) :: rest; readers := rs; writer := w;
        previous := prev; unique := u; duplicates := d |}
    = if bool_decide (prev = Some line) then
        d' ← compiler_checked_add d 1 "duplicate";
        Ok {| heap := h'; readers := rs'; writer := w; previous := prev; unique := u; duplicates := d' |}
      else
        u' ← compiler_checked_add u 1 "fact";
        _ ← fail_if (maximum <? u')%N (Contract "partition exceeded fact ceiling");
        Ok {| heap := h'; readers := rs'; writer := w ++ write_line line; previous := Some line;
              unique := u'; duplicates := d |}.
Proof using Type.
  intros Hinv. destruct Hinv as [[Hs _]%StronglySorted_inv Hh Hr Hc [Hni Hn]%NoDup_cons].
  destruct (Hh line index) as (ls & Hls & _); [left|].
  assert (merge_inv (fun j => j <> index) rest rs) as Hinv.
  { split; try done; [intros; apply Hh; by right|]. intros i l Hne Hi Hl. specialize (Hc i l I Hi Hl). set_solver. }
  destruct (read_next_spec _ _ _ _ _ Hinv Hls Hni) as (h' & rs' & Hread & Hinv' & Hp & _ & _).
  exists h', rs'. split_and!.
  - destruct Hinv' as [? ? ? Hc' ?]. split; try done. intros i l _. apply Hc'. destruct (decide (i = index)); auto.
  - change (pending ((line, index) :: rest) rs) with (line :: pending rest rs). by rewrite Hp.
  - unfold merge_step. cbn [heap readers previous unique duplicates writer].
    case_bool_decide; (destruct (compiler_checked_add _ _ _); cbn [mbind result_bind]; [|done]).
    + by rewrite Hread.
    + destruct (fail_if _ _); cbn [mbind result_bind]; [|done]. by rewrite Hread.
Qed.

Lemma merge_lines_loop_spec maximum fuel : forall st,
  merge_inv (fun _ => True) (heap st) (readers st) ->
  let p := pending (heap st) (readers st) in
  (forall x q, x ∈ p -> previous st = Some q -> rle q x) -> length p <= fuel -> (unique st <= maximum)%N ->
  (unique st + N.of_nat (length p) < U64_LIMIT)%N -> (duplicates st + N.of_nat (length p) < U64_LIMIT)%N ->
  merge_result maximum st (merge_loop fuel maximum st).
Proof using Type.
  induction fuel as [|fuel IH]; intros [h rs w prev u d] Hinv p Hprev Hfuel Hmax Hu Hd;
    cbn [heap readers previous unique duplicates] in *; (destruct h as [|[line index] rest]; [by apply merge_result_done|]).
  { cbn in Hfuel. lia. }
  cbn [merge_loop heap]. destruct (merge_step_spec maximum line index rest rs w prev u d)
    as (h' & rs' & Hinv' & Hperm & Hstep); [done..|].
  assert (length p = S (length (pending h' rs'))) as Hlen by (unfold p; by rewrite Hperm).
  pose proof (heap_head_least _ _ _ _ Hinv) as Hmin. fold p in Hperm, Hmin.
  assert (forall x, x ∈ line :: pending h' rs' -> rle line x) as Hmin' by (intros x Hx; apply Hmin; by rewrite Hperm).
  unfold merge_result. cbn [heap readers previous unique duplicates writer]. fold p. rewrite Hstep.
  rewrite (outstanding_perm _ _ _ Hperm).
  case_bool_decide as Hdup.
  - subst prev. rewrite outstanding_again. pose proof (outstanding_length (Some line) (pending h' rs')) as Hout.
    rewrite compiler_add_ok by lia. cbn [mbind result_bind].
    match goal with |- context [merge_loop fuel maximum ?st'] => specialize (IH st') end.
    unfold merge_result in IH. cbn [heap readers previous unique duplicates writer] in IH.
    ospecialize (IH Hinv' _ _ _ _ _); try lia.
    { intros x q Hx [= <-]. apply Hmin'. by right. }
    destruct (maximum <? _)%N; [done|]. destruct IH as (st' & -> & Hw & Hu' & Hd').
    exists st'. split_and!; try done; lia.
  - rewrite outstanding_new; [|done|intros q ->; apply (Hprev line q); [|done]; rewrite Hperm; left|done].
    pose proof (outstanding_length (Some line) (pending h' rs')) as Hout.
    rewrite compiler_add_ok by lia. cbn [mbind result_bind].
    destruct (maximum <? u + 1)%N eqn:Hover; cbn [fail_if mbind result_bind].
    { apply N.ltb_lt in Hover. rewrite (proj2 (N.ltb_lt _ _)); [done|]. cbn [length]. lia. }
    apply N.ltb_ge in Hover.
    match goal with |- context [merge_loop fuel maximum ?st'] => specialize (IH st') end.
    unfold merge_result in IH. cbn [heap readers previous unique duplicates writer] in IH.
    ospecialize (IH Hinv' _ _ _ _ _); try lia.
    { intros x q Hx [= <-]. apply Hmin'. by right. }
    cbn [length fmap list_fmap concat]. rewrite <- N.add_assoc in IH.
    replace (1 + N.of_nat (length (outstanding (Some line) (pending h' rs'))))%N
      with (N.of_nat (S (length (outstanding (Some line) (pending h' rs'))))) in IH by lia.
    destruct (maximum <? _)%N; [done|]. destruct IH as (st' & -> & Hw & Hu' & Hd').
    exists st'. rewrite <- (assoc (++)) in Hw. split_and!; try done; lia.
Qed.

(** Runs whose lines are sorted and decode. *)
Definition sorted_runs (inputs : list (list byte)) : Prop :=
  forall ls, ls ∈ lines <$> inputs -> StronglySorted rle ls /\ Forall (fun l => utf8_valid l = true) ls.

(** All lines of the runs, and the distinct ones in order. *)
Definition run_lines (inputs : list (list byte)) : list (list byte) := concat (lines <$> inputs).
Definition distinct_lines (inputs : list (list byte)) : list (list byte) :=
  sorted_elements (list_to_set (run_lines inputs) : gset (list byte)).

Lemma merge_facts_unique_spec inputs maximum :
  sorted_runs inputs -> (N.of_nat (length (run_lines inputs)) < U64_LIMIT)%N ->
  let out := distinct_lines inputs in
  merge_facts_unique inputs maximum =
    if (maximum <? N.of_nat (length out))%N then Err (Contract "partition exceeded fact ceiling")
    else Ok (concat (write_line <$> out), N.of_nat (length out), N.of_nat (length (run_lines inputs) - length out)).
Proof using Type.
  intros Hs Hlen out. unfold merge_facts_unique. fold (run_lines inputs).
  destruct (fill_heap_spec _ Hs) as (h & rs & -> & Hinv & Hp). cbn [mbind result_bind].
  fold (run_lines inputs) in Hp. pose proof (Permutation_length Hp) as Hpl.
  match goal with |- context [merge_loop ?n _ ?st] => pose proof (merge_lines_loop_spec maximum n st Hinv) as Hm end.
  cbn [heap readers previous unique duplicates writer] in Hm. ospecialize (Hm _ _ _ _ _); [done|lia..|].
  unfold merge_result in Hm. cbn [heap readers previous unique duplicates writer] in Hm.
  assert (outstanding None (pending h rs) = out) as Hout.
  { rewrite (outstanding_perm _ _ _ Hp). unfold outstanding, out, distinct_lines. f_equal. set_solver. }
  rewrite Hout, Hpl, !N.add_0_l in Hm. destruct (maximum <? _)%N; [by rewrite Hm|].
  destruct Hm as (st & -> & Hw & Hu & Hd). cbn. by rewrite Hw, Hu, Hd.
Qed.
End merge.

(** ** Passes lose nothing *)

Lemma strict_weak {A} `{RustOrd A} (l : list A) : StronglySorted rlt l -> StronglySorted rle l.
Proof.
  induction 1 as [|x l Hl IH Hx]; constructor; [done|]. eapply Forall_impl; [exact Hx|].
  intros y Hy. apply rle_lt_eq. by left.
Qed.

Section passes.
Implicit Types (inputs current : list (list byte)) (groups : list (list (list byte))).

(** Runs that reading gives back as they were written. *)
Definition good_run (bytes : list byte) : Prop :=
  StronglySorted rle (lines bytes) /\ Forall (fun l => utf8_valid l = true /\ clean_line l) (lines bytes).

Definition merged group : list byte := concat (write_line <$> distinct_lines group).

Lemma good_sorted_runs inputs : Forall good_run inputs -> sorted_runs inputs.
Proof using Type.
  intros Hg ls (bytes & -> & Hb)%list_elem_of_fmap. rewrite Forall_forall in Hg. destruct (Hg bytes Hb) as [Hs Hf].
  split; [done|]. eapply Forall_impl; [exact Hf|]. by intros l [].
Qed.

Lemma elem_of_distinct_lines inputs l : l ∈ distinct_lines inputs <-> l ∈ run_lines inputs.
Proof using Type. unfold distinct_lines. by rewrite elem_of_sorted_elements, elem_of_list_to_set. Qed.

Lemma elem_of_run_lines inputs l : l ∈ run_lines inputs <-> exists bytes, bytes ∈ inputs /\ l ∈ lines bytes.
Proof using Type. unfold run_lines. rewrite elem_of_concat. setoid_rewrite list_elem_of_fmap. naive_solver. Qed.

Lemma run_lines_app inputs current : run_lines (inputs ++ current) = run_lines inputs ++ run_lines current.
Proof using Type. unfold run_lines. by rewrite fmap_app, concat_app. Qed.

Lemma distinct_lines_ext inputs current :
  (forall l, l ∈ run_lines inputs <-> l ∈ run_lines current) -> distinct_lines inputs = distinct_lines current.
Proof using Type. intros He. unfold distinct_lines. f_equal. apply leibniz_equiv. intros l. by rewrite !elem_of_list_to_set. Qed.

Lemma distinct_lines_le inputs current :
  (forall l, l ∈ run_lines inputs -> l ∈ run_lines current) ->
  length (distinct_lines inputs) <= length (distinct_lines current).
Proof using Type.
  intros He. unfold distinct_lines. rewrite !length_sorted_elements. apply subseteq_size. intros l.
  rewrite !elem_of_list_to_set. apply He.
Qed.

Lemma distinct_lines_bound inputs : length (distinct_lines inputs) <= length (run_lines inputs).
Proof using Type. unfold distinct_lines. rewrite length_sorted_elements. apply size_list_to_set_bound. Qed.

Lemma lines_merged group : Forall good_run group -> lines (merged group) = distinct_lines group.
Proof using Type.
  intros Hg. apply lines_write, Forall_forall. intros l (bytes & Hb & Hl)%elem_of_distinct_lines%elem_of_run_lines.
  rewrite Forall_forall in Hg. destruct (Hg bytes Hb) as [_ Hf]. rewrite Forall_forall in Hf. by apply Hf.
Qed.

Lemma merged_good group : Forall good_run group -> good_run (merged group).
Proof using Type.
  intros Hg. unfold good_run. rewrite lines_merged by done. split.
  - apply strict_weak, sorted_elements_strict.
  - apply Forall_forall. intros l (bytes & Hb & Hl)%elem_of_distinct_lines%elem_of_run_lines.
    rewrite Forall_forall in Hg. destruct (Hg bytes Hb) as [_ Hf]. rewrite Forall_forall in Hf. by apply Hf.
Qed.

Lemma merge_group maximum group :
  Forall good_run group -> (N.of_nat (length (run_lines group)) < U64_LIMIT)%N ->
  (merge_facts_unique group maximum = Err (Contract "partition exceeded fact ceiling") /\
     (maximum < N.of_nat (length (distinct_lines group)))%N) \/
  (merge_facts_unique group maximum = Ok (merged group, N.of_nat (length (distinct_lines group)),
     N.of_nat (length (run_lines group) - length (distinct_lines group))) /\
     (N.of_nat (length (distinct_lines group)) <= maximum)%N).
Proof using Type.
  intros Hg Hl. rewrite merge_facts_unique_spec by (try apply good_sorted_runs; done). cbn zeta.
  destruct (N.ltb_spec maximum (N.of_nat (length (distinct_lines group)))); auto.
Qed.

Lemma merge_chunk_spec maximum next d group :
  Forall good_run group -> (d + N.of_nat (length (run_lines group)) < U64_LIMIT)%N ->
  (merge_chunk maximum (next, d) group = Err (Contract "partition exceeded fact ceiling") /\
     (maximum < N.of_nat (length (distinct_lines group)))%N) \/
  merge_chunk maximum (next, d) group =
    Ok (next ++ [merged group], (d + N.of_nat (length (run_lines group) - length (distinct_lines group)))%N).
Proof using Type.
  intros Hg Hd. unfold merge_chunk. destruct (merge_group maximum group Hg) as [[-> Hlt]|[-> Hle]]; [lia|by left|].
  right. cbn [mbind result_bind]. rewrite compiler_add_ok; [done|]. lia.
Qed.

(** What a pass, or several, does to the runs: the same distinct lines remain,
    and every line that disappears is counted. *)
Definition same_lines (maximum : N) current (d : N) (r : result SemanticCompilerError (list (list byte) * N)) : Prop :=
  (r = Err (Contract "partition exceeded fact ceiling") /\ (maximum < N.of_nat (length (distinct_lines current)))%N) \/
  exists next d', r = Ok (next, d') /\ Forall good_run next /\
    (forall l, l ∈ run_lines next <-> l ∈ run_lines current) /\
    (d' + N.of_nat (length (run_lines next)) = d + N.of_nat (length (run_lines current)))%N.

Lemma merge_groups maximum groups : forall next d,
  Forall (Forall good_run) groups ->
  (d + N.of_nat (length (run_lines (concat groups))) < U64_LIMIT)%N ->
  (try_fold (merge_chunk maximum) (next, d) groups = Err (Contract "partition exceeded fact ceiling") /\
   (maximum < N.of_nat (length (distinct_lines (concat groups))))%N) \/
  exists d', try_fold (merge_chunk maximum) (next, d) groups = Ok (next ++ (merged <$> groups), d') /\
   (d' + N.of_nat (length (run_lines (merged <$> groups))) = d + N.of_nat (length (run_lines (concat groups))))%N.
Proof using Type.
  induction groups as [|g groups IH]; intros next d Hg Hd; cbn [try_fold].
  { right. exists d. cbn. by rewrite app_nil_r. }
  apply Forall_cons in Hg as [Hg Hgs]. cbn [concat] in Hd |- *. rewrite run_lines_app, length_app in Hd |- *.
  pose proof (distinct_lines_bound g) as Hb.
  destruct (merge_chunk_spec maximum next d g Hg) as [[-> Hlt]| ->]; [lia| |]; cbn [mbind result_bind].
  { left. split; [done|]. eapply N.lt_le_trans; [exact Hlt|].
    assert (length (distinct_lines g) <= length (distinct_lines (g ++ concat groups))); [|lia].
    apply distinct_lines_le. intros l Hl. rewrite run_lines_app. set_solver. }
  destruct (IH (next ++ [merged g]) (d + N.of_nat (length (run_lines g) - length (distinct_lines g)))%N)
    as [[-> Hlt]|(d' & -> & Hd')]; [done|lia| |].
  - left. split; [done|]. eapply N.lt_le_trans; [exact Hlt|].
    assert (length (distinct_lines (concat groups)) <= length (distinct_lines (g ++ concat groups))); [|lia].
    apply distinct_lines_le. intros l Hl. rewrite run_lines_app. set_solver.
  - right. exists d'. rewrite <- (assoc (++)). split; [done|].
    change (merged <$> g :: groups) with ([merged g] ++ (merged <$> groups)).
    rewrite run_lines_app, length_app. assert (run_lines [merged g] = distinct_lines g) as ->.
    { unfold run_lines. cbn. by rewrite app_nil_r, lines_merged. }
    lia.
Qed.

Lemma fan_in_pos : 0 < EXTERNAL_MERGE_FAN_IN.
Proof using Type. unfold EXTERNAL_MERGE_FAN_IN. lia. Qed.

Lemma chunks_elem_good current : Forall good_run current -> Forall (Forall good_run) (chunks EXTERNAL_MERGE_FAN_IN current).
Proof using Type.
  intros Hg. apply Forall_forall. intros c Hc. apply Forall_forall. intros b Hb. rewrite Forall_forall in Hg. apply Hg.
  rewrite <- (concat_chunks EXTERNAL_MERGE_FAN_IN current fan_in_pos). apply elem_of_concat. by exists c.
Qed.

Lemma merge_pass_spec maximum current d :
  Forall good_run current -> (d + N.of_nat (length (run_lines current)) < U64_LIMIT)%N ->
  same_lines maximum current d (merge_pass maximum current d) /\
  forall next d', merge_pass maximum current d = Ok (next, d') ->
    length next = length (chunks EXTERNAL_MERGE_FAN_IN current).
Proof using Type.
  intros Hg Hd. unfold merge_pass, same_lines. pose proof (chunks_elem_good current Hg) as Hgs.
  pose proof (concat_chunks EXTERNAL_MERGE_FAN_IN current fan_in_pos) as Hcc.
  set (groups := chunks EXTERNAL_MERGE_FAN_IN current) in *.
  destruct (merge_groups maximum groups [] d Hgs) as [[-> Hlt]|(d' & -> & Hd')]; [by rewrite Hcc| |].
  { rewrite Hcc in Hlt. split; [by left|done]. }
  rewrite Hcc in Hd'. split; [|by intros next d0 [= <- <-]; rewrite length_fmap].
  right. exists (merged <$> groups), d'. split_and!; [done| | |done].
  - apply Forall_fmap. eapply Forall_impl; [exact Hgs|]. apply merged_good.
  - intros l. rewrite <- Hcc. rewrite Forall_forall in Hgs. rewrite !elem_of_run_lines. split.
    + intros (b & (g & -> & Hin)%list_elem_of_fmap & Hl). rewrite lines_merged in Hl by auto.
      apply elem_of_distinct_lines, elem_of_run_lines in Hl as (b & Hb & Hl). exists b. split; [|done].
      apply elem_of_concat. by exists g.
    + intros (b & (g & Hin & Hb)%elem_of_concat & Hl). exists (merged g).
      split; [by apply list_elem_of_fmap_2|]. rewrite lines_merged by auto.
      apply elem_of_distinct_lines, elem_of_run_lines. by exists b.
Qed.

(** A pass over more than one group leaves fewer runs. *)
Lemma chunks_fewer {A} n (l : list A) : 2 <= n -> n < length l -> length (chunks n l) < length l.
Proof using Type.
  intros Hn. unfold chunks.
  assert (forall fuel (l : list A), length l <= fuel -> length (chunks_fuel fuel n l) <= length l /\
            (n < length l -> length (chunks_fuel fuel n l) < length l)) as Hc; [|intros Hl; by apply Hc].
  induction fuel as [|fuel IH]; intros [|x k] Hk; cbn [chunks_fuel length] in *; try lia.
  destruct (IH (drop n (x :: k))) as [Hle Hlt]; [rewrite length_drop; cbn [length]; lia|].
  rewrite length_drop in Hle. cbn [length] in Hle. split; intros; lia.
Qed.

Lemma merge_passes_spec maximum fuel : forall pass current d,
  Forall good_run current -> (d + N.of_nat (length (run_lines current)) < U64_LIMIT)%N ->
  length current <= fuel -> (pass + N.of_nat (length current) < U32_LIMIT)%N ->
  same_lines maximum current d (merge_passes fuel maximum pass current d).
Proof using Type.
  induction fuel as [|fuel IH]; intros pass current d Hg Hd Hf Hp; cbn [merge_passes];
    destruct (Nat.ltb_spec EXTERNAL_MERGE_FAN_IN (length current)) as [Hlt|Hge].
  1: lia.
  1,3: right; exists current, d; split_and!; [done|done|done|lia].
  destruct (merge_pass_spec maximum current d Hg Hd) as [[[-> Hov]|(next & d1 & Hpass & Hg1 & Hl1 & Hd1)] Hlen].
  { by left. }
  rewrite Hpass. cbn [mbind result_bind]. specialize (Hlen _ _ Hpass).
  assert (length next < length current) as Hshort.
  { rewrite Hlen. apply chunks_fewer; [unfold EXTERNAL_MERGE_FAN_IN; lia|done]. }
  rewrite (proj2 (checked_add_some U32_LIMIT pass 1 (pass + 1)%N)) by (split; [done|lia]). cbn [ok_or mbind result_bind].
  destruct (IH (pass + 1)%N next d1 Hg1) as [[-> Hov]|(last' & d2 & -> & Hg2 & Hl2 & Hd2)]; [lia..| |].
  - left. split; [done|]. by rewrite <- (distinct_lines_ext next current Hl1).
  - right. exists last', d2. split_and!; [done|done| |lia]. intros l. by rewrite Hl2.
Qed.

(** The external sort: sorted distinct lines and exact counts, or the ceiling. *)
Lemma hierarchical_merge_spec inputs maximum :
  Forall good_run inputs -> (N.of_nat (length inputs) < U32_LIMIT)%N ->
  (N.of_nat (length (run_lines inputs)) < U64_LIMIT)%N ->
  hierarchical_merge_unique inputs maximum =
    if (maximum <? N.of_nat (length (distinct_lines inputs)))%N
    then Err (Contract "partition exceeded fact ceiling")
    else Ok (merged inputs, N.of_nat (length (distinct_lines inputs)),
             N.of_nat (length (run_lines inputs) - length (distinct_lines inputs))).
Proof using Type.
  intros Hg Hi Hl. unfold hierarchical_merge_unique.
  destruct (merge_passes_spec maximum (length inputs) 0 inputs 0 Hg) as [[-> Hov]|(cur & d & -> & Hgc & Hlc & Hd)]; [lia..| |].
  { by rewrite (proj2 (N.ltb_lt _ _) Hov). }
  cbn [mbind result_bind]. rewrite merge_facts_unique_spec; [|by apply good_sorted_runs|lia]. cbn zeta.
  rewrite (distinct_lines_ext cur inputs Hlc). destruct (maximum <? _)%N; cbn [mbind result_bind]; [done|].
  pose proof (distinct_lines_bound cur) as Hb. rewrite (distinct_lines_ext cur inputs Hlc) in Hb.
  rewrite compiler_add_ok by lia. cbn [mbind result_bind]. unfold merged. do 3 f_equal. lia.
Qed.
End passes.

(** C30: the external sort is exact whatever the memory budget.  However many
    sorted runs there are and however many passes of 256 they take, the output
    file holds every line that occurs in some run exactly once, in ascending
    order; the row count is the number of distinct lines and the duplicate
    count the number of lines that were dropped; the call fails only when there
    are more distinct lines than the ceiling allows, and then it does fail. *)
Theorem external_sort_exact inputs maximum :
  Forall good_run inputs -> (N.of_nat (length inputs) < U32_LIMIT)%N ->
  (N.of_nat (length (run_lines inputs)) < U64_LIMIT)%N ->
  if bool_decide (N.of_nat (length (distinct_lines inputs)) <= maximum)%N then
    exists output rows dups, hierarchical_merge_unique inputs maximum = Ok (output, rows, dups) /\
      StronglySorted rlt (lines output) /\ (forall l, l ∈ lines output <-> l ∈ run_lines inputs) /\
      rows = N.of_nat (length (lines output)) /\ (rows + dups)%N = N.of_nat (length (run_lines inputs))
  else hierarchical_merge_unique inputs maximum = Err (Contract "partition exceeded fact ceiling").
Proof.
  intros Hg Hi Hl. rewrite hierarchical_merge_spec by done. case_bool_decide as Hm.
  - rewrite (proj2 (N.ltb_ge _ _)) by done. do 3 eexists. split; [done|]. rewrite lines_merged by done.
    pose proof (distinct_lines_bound inputs). split_and!; [apply sorted_elements_strict| |done|lia].
    apply elem_of_distinct_lines.
  - by rewrite (proj2 (N.ltb_lt _ _)) by lia.
Qed.

(** ** Witness *)

Definition sample_inputs : list (list byte) :=
  [concat (write_line <$> [as_bytes "a"; as_bytes "c"]); concat (write_line <$> [as_bytes "b"; as_bytes "c"])].

Lemma sample_inputs_good : Forall good_run sample_inputs.
Proof.
  repeat constructor; try (vm_compute; (reflexivity || discriminate));
    intros Hin; repeat (apply elem_of_cons in Hin as [Hin|Hin]; [discriminate Hin|]); by apply elem_of_nil in Hin.
Qed.

(** Three distinct lines, one duplicate. *)
Lemma external_sort_exact_witness :
  exists output rows dups, hierarchical_merge_unique sample_inputs 3 = Ok (output, rows, dups) /\
    rows = N.of_nat (length (lines output)) /\ (rows + dups)%N = 4%N.
Proof.
  pose proof (external_sort_exact sample_inputs 3 sample_inputs_good ltac:(vm_compute; reflexivity)
    ltac:(vm_compute; reflexivity)) as Hex.
  assert (bool_decide (N.of_nat (length (distinct_lines sample_inputs)) <= 3)%N = true) as Hb by (vm_compute; reflexivity).
  rewrite Hb in Hex. destruct Hex as (output & rows & dups & Hm & _ & _ & Hr & Hd).
  exists output, rows, dups. split; [exact Hm|]. split; [exact Hr|]. rewrite Hd. vm_compute. reflexivity.
Defined.
