(* ===== verification/MapStage.v ===== *)
(** * The map stage of the semantic compiler

    Models the map side of src/crates/ngkg-semantic-compiler/src/lib.rs: the
    handoff that starts a compilation, and [map_fragment], which turns one
    decoded N-Quads fragment into sorted runs of facts per logical partition
    and sorted runs of dictionary terms, in batches of bounded memory that are
    parsed on several threads.

    N-Quads parsing and printing belong to the Oxigraph library: [NQuads] is
    what the compiler uses of it.  A path stands for the bytes of the regular
    file it names, a run artifact carries the bytes of its file. *)

From Stdlib Require Import Strings.Byte Strings.String.
From S2P Require Import Prelude Words Ordered Digest Text ExternalSort.

(** ** RDF data *)

(** Texts are UTF-8 bytes; a literal is represented by how it prints. *)
Inductive NamedOrBlankNode :=
| SubjectNamed (iri : list byte)
| SubjectBlank (label : list byte).

Inductive RdfTerm :=
| NamedNode (iri : list byte)
| BlankNode (label : list byte)
| Literal (display : list byte).

Inductive GraphName :=
| GraphNamed (iri : list byte)
| GraphBlank (label : list byte)
| DefaultGraph.

Record Quad := {
  quad_subject : NamedOrBlankNode;
  quad_predicate : list byte;
  quad_object : RdfTerm;
  quad_graph : GraphName;
}.

(** [line.parse::<Quad>()], [format!("{quad}")] and the label check of
    [BlankNode::new]. *)
Class NQuads := {
  parse_quad : list byte -> option Quad;
  show_quad : Quad -> list byte;
  blank_label_ok : list byte -> bool;
}.

(** [value.trim().is_empty()]: the encodings of the Unicode white space. *)
Fixpoint is_blank (bytes : list byte) : bool :=
  match bytes with
  | [] => true
  | a :: rest =>
      if in_range 0x09 0x0d a || in_range 0x20 0x20 a then is_blank rest
      else match rest with
      | b :: rest2 =>
          if in_range 0xc2 0xc2 a then (in_range 0x85 0x85 b || in_range 0xa0 0xa0 b) && is_blank rest2
          else match rest2 with
          | c :: rest3 =>
              ((in_range 0xe1 0xe1 a && in_range 0x9a 0x9a b && in_range 0x80 0x80 c) ||
               (in_range 0xe2 0xe2 a && in_range 0x80 0x80 b &&
                  (in_range 0x80 0x8a c || in_range 0xa8 0xa9 c || in_range 0xaf 0xaf c)) ||
               (in_range 0xe2 0xe2 a && in_range 0x81 0x81 b && in_range 0x9f 0x9f c) ||
               (in_range 0xe3 0xe3 a && in_range 0x80 0x80 b && in_range 0x80 0x80 c)) && is_blank rest3
          | [] => false
          end
      | [] => false
      end
  end.

(** ** The handoff *)

Record DecodedFragment := {
  fragment_ordinal : N;
  source_object_key : string;
  source_sha256 : string;
  fragment_blank_scope : string;
  object_key : string;
  fragment_sha256 : string;
  fragment_bytes : N;
  fragment_quad_count : N;
}.

Record CompilerHandoffManifest := {
  handoff_format_version : N;
  tenant_id : list byte;
  dataset_id : list byte;
  operation_id : list byte;
  target_snapshot_id : list byte;
  source_manifest_object_key : string;
  source_manifest_sha256 : string;
  decode_plan_object_key : string;
  decode_plan_sha256 : string;
  aggregate_source_sha256 : string;
  logical_partitions : N;
  decoded_format : string;
  blank_node_policy : string;
  total_objects : N;
  total_bytes : N;
  total_quads : N;
  expected_completions : N;
  verified_completions : N;
  completion_set_sha256 : string;
  fragments : list DecodedFragment;
}.

Definition require_sha256 (value : string) : result SemanticCompilerError unit :=
  fail_if (negb (lower_hex_sha256 value)) (Contract "SHA-256 must be lowercase hexadecimal").

Definition blank_scope_prefix (ordinal : N) : list byte :=
  as_bytes "object-" ++ digits (Nat.max 8 (decimal_width ordinal)) ordinal ++ as_bytes "-".

Definition valid_blank_scope (value : string) (ordinal : N) : bool :=
  match strip_prefix (blank_scope_prefix ordinal) (as_bytes value) with
  | Some suffix => (length suffix =? 64) && forallb lower_hex_byte suffix
  | None => false
  end.

(** One fragment of the loop; the byte and quad totals so far. *)
Definition validate_fragment (acc : N * N) (item : nat * DecodedFragment) :
    result SemanticCompilerError (N * N) :=
  let '(bytes, quads) := acc in
  let '(index, fragment) := item in
  _ ← fail_if (negb (fragment_ordinal fragment =? N.of_nat index)%N
               || negb (valid_blank_scope (fragment_blank_scope fragment) (fragment_ordinal fragment)))
        (Contract "handoff fragment ordinals or blank-node scopes are invalid");
  _ ← require_sha256 (source_sha256 fragment);
  _ ← require_sha256 (fragment_sha256 fragment);
  bytes ← ok_or (checked_add U64_LIMIT bytes (fragment_bytes fragment)) (Contract "fragment byte total overflow");
  quads ← ok_or (checked_add U64_LIMIT quads (fragment_quad_count fragment)) (Contract "fragment quad total overflow");
  Ok (bytes, quads).

Definition validate_handoff (handoff : CompilerHandoffManifest) : result SemanticCompilerError unit :=
  _ ← fail_if (negb (handoff_format_version handoff =? 1)%N
        || negb (String.eqb (decoded_format handoff) "application/n-quads")
        || negb (String.eqb (blank_node_policy handoff) "object-scoped-label-v1")
        || (logical_partitions handoff =? 0)%N || (65536 <? logical_partitions handoff)%N
        || (total_objects handoff =? 0)%N || (total_quads handoff =? 0)%N
        || negb (expected_completions handoff =? verified_completions handoff)%N)
        (Contract "compiler handoff header or completion barrier is invalid");
  _ ← require_sha256 (source_manifest_sha256 handoff);
  _ ← require_sha256 (decode_plan_sha256 handoff);
  _ ← require_sha256 (aggregate_source_sha256 handoff);
  _ ← require_sha256 (completion_set_sha256 handoff);
  _ ← fail_if (negb (N.of_nat (length (fragments handoff)) =? total_objects handoff)%N)
        (Contract "handoff fragment count is not totalObjects");
  '(bytes, quads) ← try_fold validate_fragment (0, 0)%N (enumerate (fragments handoff));
  fail_if (negb (bytes =? total_bytes handoff)%N || negb (quads =? total_quads handoff)%N)
    (Contract "handoff fragment totals do not match the barrier").

(** ** Runs *)

Record RunArtifact := {
  run_file : list byte;
  run_sha256 : string;
  run_bytes : N;
  row_count : N;
}.

Section map.
Context `{Sha256, NQuads}.

(** [verify_file] of a regular file. *)
Definition verify_file (file : list byte) (expected_sha256 : string) (expected_bytes : option N) :
    result SemanticCompilerError unit :=
  _ ← require_sha256 expected_sha256;
  fail_if (match expected_bytes with Some n => negb (n =? N.of_nat (length file))%N | None => false end
           || negb (String.eqb (hex_encode (sha256 file)) expected_sha256))
    (Contract "artifact identity mismatch").

Definition count_line (count : N) (raw : list byte) : result SemanticCompilerError N :=
  _ ← line_text Io raw; ok_or (checked_add U64_LIMIT count 1) Io.

(** [artifact] of a run: an [.nq] or [.txt] file, whose lines are counted. *)
Definition artifact (file : list byte) : result SemanticCompilerError RunArtifact :=
  rows ← try_fold count_line 0%N (lines file);
  Ok {| run_file := file; run_sha256 := hex_encode (sha256 file);
        run_bytes := N.of_nat (length file); row_count := rows |}.

(** [artifact] on a file that is not a text file: the rows are not counted. *)
Definition binary_artifact (file : list byte) : RunArtifact :=
  {| run_file := file; run_sha256 := hex_encode (sha256 file); run_bytes := N.of_nat (length file); row_count := 0 |}.

(** ** Scoping and keys *)

Definition scope_domain : list byte := as_bytes "ngkg-object-scoped-blank-node-v1" ++ [x00].

Definition scope_preimage (scope : string) (label : list byte) : list byte := scope_domain ++ as_bytes scope ++ [x00] ++ label.

Definition scoped_label (scope : string) (label : list byte) : list byte :=
  as_bytes "c8" ++ as_bytes (hex_encode (sha256 (scope_preimage scope label))).

Definition scoped_blank_node (scope : string) (label : list byte) : result SemanticCompilerError (list byte) :=
  if blank_label_ok (scoped_label scope label) then Ok (scoped_label scope label) else Err Rdf.

Definition scope_quad (quad : Quad) (scope : string) : result SemanticCompilerError Quad :=
  subject ← match quad_subject quad with
            | SubjectNamed iri => Ok (SubjectNamed iri)
            | SubjectBlank label => label ← scoped_blank_node scope label; Ok (SubjectBlank label)
            end;
  object ← match quad_object quad with
           | NamedNode iri => Ok (NamedNode iri)
           | BlankNode label => label ← scoped_blank_node scope label; Ok (BlankNode label)
           | Literal display => Ok (Literal display)
           end;
  graph ← match quad_graph quad with
          | GraphNamed iri => Ok (GraphNamed iri)
          | GraphBlank label => label ← scoped_blank_node scope label; Ok (GraphBlank label)
          | DefaultGraph => Ok DefaultGraph
          end;
  Ok {| quad_subject := subject; quad_predicate := quad_predicate quad; quad_object := object; quad_graph := graph |}.

Definition named_key (iri : list byte) : list byte := as_bytes "N" ++ TAB :: iri.
Definition blank_key (label : list byte) : list byte := as_bytes "B" ++ TAB :: label.

Definition subject_key (subject : NamedOrBlankNode) : list byte :=
  match subject with SubjectNamed iri => named_key iri | SubjectBlank label => blank_key label end.

Definition object_key_of (object : RdfTerm) : list byte :=
  match object with
  | NamedNode iri => named_key iri
  | BlankNode label => blank_key label
  | Literal display => as_bytes "L" ++ TAB :: display
  end.

Definition graph_key (graph : GraphName) : list byte :=
  match graph with
  | GraphNamed iri => named_key iri
  | GraphBlank label => blank_key label
  | DefaultGraph => as_bytes "D" ++ [TAB]
  end.

Definition collect_dictionary_terms (quad : Quad) : list (list byte) :=
  [subject_key (quad_subject quad); named_key (quad_predicate quad);
   object_key_of (quad_object quad); graph_key (quad_graph quad)].

Definition partition_for (bytes : list byte) (count : N) : result SemanticCompilerError N :=
  let bucket := digest_bucket bytes count in
  if fits U32_LIMIT bucket then Ok bucket else Err (Contract "partition overflow").

(** ** Mapping a batch *)

(** [format!("{scoped} .\n")]. *)
Definition canonical_text (quad : Quad) : list byte := show_quad quad ++ as_bytes " .".
Definition canonical_line (quad : Quad) : list byte := canonical_text quad ++ [LF].

(** What a parser lane computes for one line. *)
Definition map_line (scope : string) (partitions : N) (line : list byte) :
    result SemanticCompilerError (N * list byte * list (list byte)) :=
  quad ← ok_or (parse_quad line) Rdf;
  scoped ← scope_quad quad scope;
  let canonical := canonical_line scoped in
  partition ← partition_for canonical partitions;
  Ok (partition, canonical, collect_dictionary_terms scoped).

(** [buffers[index].push(line); terms.extend(..)]. *)
Definition push_record (acc : list (list (list byte)) * list (list byte))
    (record : N * list byte * list (list byte)) :
    result SemanticCompilerError (list (list (list byte)) * list (list byte)) :=
  let '(buffers, terms) := acc in
  let '(partition, line, dictionary_terms) := record in
  match buffers !! N.to_nat partition with
  | None => Err Panic
  | Some buffer => Ok (<[N.to_nat partition := buffer ++ [line]]> buffers, terms ++ dictionary_terms)
  end.

Definition process_map_batch (batch : list (list byte)) (scope : string) (partitions : N)
    (worker_threads : nat) (buffers : list (list (list byte))) (terms : list (list byte)) :
    result SemanticCompilerError (list (list (list byte)) * list (list byte)) :=
  let lanes := Nat.max 1 (Nat.min worker_threads (length batch)) in
  results ← try_map (try_map (map_line scope partitions)) (chunks (div_ceil (length batch) lanes) batch);
  try_fold push_record (buffers, terms) (concat results).

(** ** Flushing *)

(** One partition of the loop of [flush_fact_buffers]. *)
Definition flush_fact_buffer (acc : gmap N (list RunArtifact) * N) (item : nat * list (list byte)) :
    result SemanticCompilerError (gmap N (list RunArtifact) * N) :=
  let '(manifests, run_ordinal) := acc in
  let '(partition, buffer) := item in
  if bool_decide (buffer = []) then Ok (manifests, run_ordinal)
  else
    _ ← fail_if (negb (fits U32_LIMIT (N.of_nat partition))) (Contract "partition overflow");
    run ← artifact (sorted_run buffer);
    run_ordinal ← ok_or (checked_add U32_LIMIT run_ordinal 1) (Contract "fact run ordinal overflow");
    Ok (<[N.of_nat partition := default [] (manifests !! N.of_nat partition) ++ [run]]> manifests, run_ordinal).

Definition flush_fact_buffers (buffers : list (list (list byte))) (manifests : gmap N (list RunArtifact))
    (run_ordinal : N) :
    result SemanticCompilerError (list (list (list byte)) * gmap N (list RunArtifact) * N) :=
  '(manifests, run_ordinal) ← try_fold flush_fact_buffer (manifests, run_ordinal) (enumerate buffers);
  Ok ((fun _ => []) <$> buffers, manifests, run_ordinal).

Definition flush_term_buffer (buffer : list (list byte)) (manifests : list RunArtifact) (ordinal : N) :
    result SemanticCompilerError (list (list byte) * list RunArtifact * N) :=
  if bool_decide (buffer = []) then Ok (buffer, manifests, ordinal)
  else
    run ← artifact (sorted_run buffer);
    ordinal ← ok_or (checked_add U32_LIMIT ordinal 1) (Contract "term run ordinal overflow");
    Ok ([], manifests ++ [run], ordinal).

(** ** [map_fragment] *)

Record MapLimits := {
  max_fragment_bytes : N;
  max_fragment_quads : N;
  max_rows_in_memory : nat;
  max_run_bytes : N;
  worker_threads : nat;
}.

Record FragmentMapManifest := {
  map_format_version : N;
  map_dataset_id : list byte;
  map_snapshot_id : list byte;
  map_compiler_handoff_sha256 : string;
  map_aggregate_source_sha256 : string;
  map_fragment_ordinal : N;
  map_fragment_sha256 : string;
  map_blank_node_scope : string;
  map_logical_partitions : N;
  input_quad_count : N;
  unique_quad_count : N;
  fact_runs : gmap N (list RunArtifact);
  term_runs : list RunArtifact;
}.

Record MapState := {
  buffers : list (list (list byte));
  term_buffer : list (list byte);
  st_fact_runs : gmap N (list RunArtifact);
  st_term_runs : list RunArtifact;
  quad_count : N;
  run_ordinal : N;
  term_run_ordinal : N;
  batch : list (list byte);
}.

(** [process_map_batch] and the quad counter. *)
Definition map_batch (scope : string) (partitions : N) (limits : MapLimits) (st : MapState) :
    result SemanticCompilerError MapState :=
  '(buffers', terms') ← process_map_batch (batch st) scope partitions (worker_threads limits)
                          (buffers st) (term_buffer st);
  rows ← ok_or (u64_of_len (length (batch st))) (Contract "batch row count overflow");
  count ← compiler_checked_add (quad_count st) rows "mapped quad";
  Ok {| buffers := buffers'; term_buffer := terms'; st_fact_runs := st_fact_runs st;
        st_term_runs := st_term_runs st; quad_count := count; run_ordinal := run_ordinal st;
        term_run_ordinal := term_run_ordinal st; batch := batch st |}.

(** Both flushes. *)
Definition map_flush (st : MapState) : result SemanticCompilerError MapState :=
  '(buffers', facts', ordinal') ← flush_fact_buffers (buffers st) (st_fact_runs st) (run_ordinal st);
  '(terms', truns', tordinal') ← flush_term_buffer (term_buffer st) (st_term_runs st) (term_run_ordinal st);
  Ok {| buffers := buffers'; term_buffer := terms'; st_fact_runs := facts'; st_term_runs := truns';
        quad_count := quad_count st; run_ordinal := ordinal'; term_run_ordinal := tordinal'; batch := batch st |}.

Definition set_batch (st : MapState) (b : list (list byte)) : MapState :=
  {| buffers := buffers st; term_buffer := term_buffer st; st_fact_runs := st_fact_runs st;
     st_term_runs := st_term_runs st; quad_count := quad_count st; run_ordinal := run_ordinal st;
     term_run_ordinal := term_run_ordinal st; batch := b |}.

(** One line of the fragment. *)
Definition map_step (scope : string) (partitions : N) (limits : MapLimits) (st : MapState) (raw : list byte) :
    result SemanticCompilerError MapState :=
  line ← line_text Io raw;
  if is_blank line then Ok st
  else
    let st := set_batch st (batch st ++ [line]) in
    if length (batch st) =? max_rows_in_memory limits then
      st ← map_batch scope partitions limits st;
      _ ← fail_if (max_fragment_quads limits <? quad_count st)%N
            (Contract "fragment exceeded quad ceiling while parsing");
      st ← map_flush st;
      Ok (set_batch st [])
    else Ok st.

Definition map_start (partitions : N) : MapState :=
  {| buffers := replicate (N.to_nat partitions) []; term_buffer := []; st_fact_runs := ∅; st_term_runs := [];
     quad_count := 0; run_ordinal := 0; term_run_ordinal := 0; batch := [] |}.

(** The lines of the fragment to their runs. *)
Definition map_lines (scope : string) (partitions : N) (limits : MapLimits) (fragment_file : list byte) :
    result SemanticCompilerError MapState :=
  st ← try_fold (map_step scope partitions limits) (map_start partitions) (lines fragment_file);
  st ← (if bool_decide (batch st = []) then Ok st else map_batch scope partitions limits st);
  map_flush st.

(** The runs of all partitions, in partition order. *)
Definition all_fact_runs (runs : gmap N (list RunArtifact)) : list RunArtifact :=
  concat ((sorted_bindings runs).*2).

Definition add_rows (total : N) (run : RunArtifact) : result SemanticCompilerError N :=
  ok_or (checked_add U64_LIMIT total (row_count run)) (Contract "unique quad count overflow").

Definition SEMANTIC_COMPILER_FORMAT_VERSION : N := 1.

Definition map_fragment (handoff : CompilerHandoffManifest) (handoff_sha256 : string) (ordinal : N)
    (fragment_file : list byte) (limits : MapLimits) : result SemanticCompilerError FragmentMapManifest :=
  _ ← validate_handoff handoff;
  _ ← require_sha256 handoff_sha256;
  _ ← fail_if ((max_fragment_bytes limits =? 0)%N || (max_fragment_quads limits =? 0)%N
               || (max_rows_in_memory limits =? 0) || (max_run_bytes limits =? 0)%N
               || (worker_threads limits =? 0))
        (Contract "map resource limits must be positive");
  fragment ← ok_or (f ← fragments handoff !! N.to_nat ordinal;
                    if (fragment_ordinal f =? ordinal)%N then Some f else None)
               (Contract "fragment is absent");
  _ ← verify_file fragment_file (fragment_sha256 fragment) (Some (fragment_bytes fragment));
  _ ← fail_if ((max_fragment_bytes limits <? fragment_bytes fragment)%N
               || (max_fragment_quads limits <? fragment_quad_count fragment)%N)
        (Contract "fragment exceeds configured map ceiling");
  st ← map_lines (fragment_blank_scope fragment) (logical_partitions handoff) limits fragment_file;
  _ ← fail_if (negb (quad_count st =? fragment_quad_count fragment)%N)
        (Contract "mapped quad count differs from verified fragment");
  unique ← try_fold add_rows 0%N (all_fact_runs (st_fact_runs st));
  _ ← fail_if (existsb (fun run => max_run_bytes limits <? run_bytes run)%N
                 (all_fact_runs (st_fact_runs st) ++ st_term_runs st))
        (Contract "map spill run exceeds configured byte ceiling");
  Ok {| map_format_version := SEMANTIC_COMPILER_FORMAT_VERSION; map_dataset_id := dataset_id handoff;
        map_snapshot_id := target_snapshot_id handoff; map_compiler_handoff_sha256 := handoff_sha256;
        map_aggregate_source_sha256 := aggregate_source_sha256 handoff; map_fragment_ordinal := ordinal;
        map_fragment_sha256 := fragment_sha256 fragment; map_blank_node_scope := fragment_blank_scope fragment;
        map_logical_partitions := logical_partitions handoff; input_quad_count := quad_count st;
        unique_quad_count := unique; fact_runs := st_fact_runs st; term_runs := st_term_runs st |}.
End map.

(** ** Text that survives the runs *)

(** Valid UTF-8 without control characters: what RDF terms and quads print. *)
Definition printable (text : list byte) : Prop :=
  utf8_valid text = true /\ Forall (fun b => (0x20 <= Byte.to_N b)%N) text.

Definition good_text (text : list byte) : Prop := utf8_valid text = true /\ clean_line text.

Lemma utf8_valid_app a b : utf8_valid a = true -> utf8_valid (a ++ b) = utf8_valid b.
Proof.
  remember (length a) as n eqn:Hn. revert a Hn. induction (lt_wf n) as [n _ IH]. intros a -> Ha.
  destruct a as [|w a]; [done|]. cbn [app utf8_valid] in *.
  destruct (in_range 0 127 w); [apply (IH (length a)); cbn; auto|].
  destruct a as [|x a]; [done|]. cbn [app].
  destruct (in_range 194 223 w); [apply andb_true_iff in Ha as [-> Ha]; apply (IH (length a)); cbn; auto|].
  destruct a as [|y a]; [done|]. cbn [app].
  destruct (in_range 224 239 w).
  { apply andb_true_iff in Ha as [-> Ha]. apply (IH (length a)); cbn; auto. }
  destruct a as [|z a]; [done|]. cbn [app]. apply andb_true_iff in Ha as [-> Ha].
  apply (IH (length a)); cbn; auto.
Qed.

Lemma printable_app a b : printable a -> printable b -> printable (a ++ b).
Proof.
  intros [Ua Fa] [Ub Fb]. split; [by rewrite utf8_valid_app|]. by apply Forall_app.
Qed.

Lemma printable_good text : printable text -> good_text text.
Proof.
  intros [Hu Hf]. split; [done|]. rewrite Forall_forall in Hf. split.
  - intros Hin%Hf. by vm_compute in Hin.
  - intros Hl%last_Some_elem_of%Hf. by vm_compute in Hl.
Qed.

Lemma printable_no_tab text : printable text -> TAB ∉ text.
Proof. intros [_ Hf] Hin. rewrite Forall_forall in Hf. apply Hf in Hin. by vm_compute in Hin. Qed.

(** A key of a printable term is one line. *)
Lemma key_good c text : printable text -> is_ascii c = true -> c <> LF -> good_text ([c] ++ TAB :: text).
Proof.
  intros Hp Hc Hlf. destruct (printable_good _ Hp) as [Hu [Hn Hl]]. split; [|split].
  - change (utf8_valid ([c; TAB] ++ text) = true). rewrite utf8_valid_app; [done|].
    cbn. unfold is_ascii in Hc. by rewrite Hc.
  - rewrite not_elem_of_app, not_elem_of_cons, elem_of_cons, elem_of_nil. naive_solver.
  - destruct text as [|x text]; [done|]. cbn [app]. rewrite !last_cons_cons. done.
Qed.

(** Trailing newlines do not change the order of printable lines. *)
Lemma cmp_newline a b : printable a -> printable b -> cmp (a ++ [LF]) (b ++ [LF]) = cmp a b.
Proof.
  intros [_ Ha] [_ Hb]. revert b Hb. induction Ha as [|x a Hx Ha IH]; intros [|y b] Hb.
  - done.
  - apply Forall_cons in Hb as [Hy _]. change (then_cmp (N.compare 10 (Byte.to_N y)) (cmp [] (b ++ [LF])) = Lt).
    by rewrite (proj2 (N.compare_lt_iff 10 (Byte.to_N y))) by lia.
  - change (then_cmp (N.compare (Byte.to_N x) 10) (cmp (a ++ [LF]) []) = Gt).
    by rewrite (proj2 (N.compare_gt_iff (Byte.to_N x) 10)) by lia.
  - apply Forall_cons in Hb as [Hy Hb].
    change (then_cmp (cmp x y) (cmp (a ++ [LF]) (b ++ [LF])) = then_cmp (cmp x y) (cmp a b)). by rewrite IH.
Qed.

(** ** Runs hold what was buffered *)

Lemma run_line_good text : good_text text -> run_line text = write_line text.
Proof.
  intros [_ [Hn _]]. unfold run_line. rewrite bool_decide_eq_false_2; [done|]. intros Hl%last_Some_elem_of. done.
Qed.

Lemma run_line_newline text : run_line (text ++ [LF]) = write_line text.
Proof. unfold run_line. rewrite bool_decide_eq_true_2; [by rewrite app_nil_r|]. by rewrite last_snoc. Qed.

Lemma write_lines_good texts : Forall good_text texts -> lines (concat (write_line <$> texts)) = texts.
Proof. intros Hg. apply lines_write. eapply Forall_impl; [exact Hg|]. by intros t []. Qed.

(** A flushed buffer of terms. *)
Lemma sorted_run_terms texts :
  Forall good_text texts ->
  sorted_run texts = concat (write_line <$> sorted_elements (list_to_set texts : gset (list byte))).
Proof.
  intros Hg. unfold sorted_run, write_lines. rewrite sort_dedup_elements. f_equal. apply list_fmap_ext.
  intros i t Ht%list_elem_of_lookup_2. apply run_line_good. rewrite Forall_forall in Hg. apply Hg.
  by rewrite elem_of_sorted_elements, elem_of_list_to_set in Ht.
Qed.

(** A flushed buffer of facts, whose lines end in a newline. *)
Lemma sorted_run_facts texts :
  Forall printable texts ->
  sorted_run ((fun t => t ++ [LF]) <$> texts)
  = concat (write_line <$> sorted_elements (list_to_set texts : gset (list byte))).
Proof.
  intros Hp. unfold sorted_run, write_lines. rewrite sort_dedup_elements, Forall_forall in *.
  assert (sorted_elements (list_to_set ((fun t => t ++ [LF]) <$> texts) : gset (list byte))
          = (fun t => t ++ [LF]) <$> sorted_elements (list_to_set texts : gset (list byte))) as ->.
  { apply strictly_sorted_unique; [apply sorted_elements_strict| |].
    - assert (forall l, (forall t, t ∈ l -> t ∈ texts) -> StronglySorted rlt l ->
              StronglySorted rlt ((fun t => t ++ [LF]) <$> l)) as Hs; [|apply Hs, sorted_elements_strict].
      + intros l Hl. induction 1 as [|x l Hl' IH Hx]; cbn; constructor.
        * apply IH. intros; apply Hl; by right.
        * rewrite Forall_fmap, Forall_forall in *. intros y Hy. cbn. unfold rlt. rewrite cmp_newline.
          -- by apply Hx.
          -- apply Hp, Hl. left.
          -- apply Hp, Hl. by right.
      + intros t. by rewrite elem_of_sorted_elements, elem_of_list_to_set.
    - intros l. rewrite elem_of_sorted_elements, elem_of_list_to_set, !list_elem_of_fmap.
      setoid_rewrite elem_of_sorted_elements. by setoid_rewrite elem_of_list_to_set. }
  f_equal. rewrite <- list_fmap_compose. apply list_fmap_ext. intros i t _. apply run_line_newline.
Qed.

(** Bytes of the lines, newlines included. *)
Definition weight (texts : list (list byte)) : nat := sum_list (length ∘ write_line <$> texts).

Lemma weight_app l k : weight (l ++ k) = weight l + weight k.
Proof. unfold weight. rewrite fmap_app. apply sum_list_with_app. Qed.

Lemma weight_perm l k : l ≡ₚ k -> weight l = weight k.
Proof. unfold weight. induction 1; cbn in *; lia. Qed.

Lemma weight_distinct texts : weight (sorted_elements (list_to_set texts : gset (list byte))) <= weight texts.
Proof.
  rewrite (weight_perm _ (remove_dups texts)).
  - induction texts as [|t texts IH]; [done|]. cbn [remove_dups]. case_decide; unfold weight in *; cbn in *; lia.
  - rewrite sorted_elements_perm. apply NoDup_Permutation; [apply NoDup_elements|apply NoDup_remove_dups|].
    intros t. by rewrite elem_of_elements, elem_of_list_to_set, elem_of_remove_dups.
Qed.

Lemma length_written texts : length (concat (write_line <$> texts)) = weight texts.
Proof. unfold weight. induction texts as [|t texts IH]; [done|]. cbn [fmap list_fmap concat]. rewrite length_app, IH. done. Qed.

(** ** The map stage is exact *)

(** What the compiler relies on: terms of a parsed quad, and the quads it
    prints, are free of control characters; a label of hexadecimal digits is a
    blank-node label. *)
Definition term_texts (quad : Quad) : list (list byte) :=
  [match quad_subject quad with SubjectNamed t | SubjectBlank t => t end; quad_predicate quad;
   match quad_object quad with NamedNode t | BlankNode t | Literal t => t end;
   match quad_graph quad with GraphNamed t | GraphBlank t => t | DefaultGraph => [] end].

Class NQuadsLaws `{NQuads} : Prop := {
  parse_printable : forall line quad, parse_quad line = Some quad -> Forall printable (term_texts quad);
  show_printable : forall quad, Forall printable (term_texts quad) -> printable (show_quad quad);
  hex_label_ok : forall label, Forall (fun b => lower_hex_byte b = true) label -> blank_label_ok (as_bytes "c8" ++ label) = true;
}.

Section map_proofs.
Context `{Sha256, NQuads}.

(** What a run list holds: the texts, each run sorted and readable, no run
    larger than the texts together, each with the digest of its file. *)
Record runs_spec (texts : list (list byte)) (runs : list RunArtifact) : Prop := {
  rs_good : Forall good_run (run_file <$> runs);
  rs_lines : forall l, l ∈ run_lines (run_file <$> runs) <-> l ∈ texts;
  rs_rows : (foldr N.add 0%N (row_count <$> runs) <= N.of_nat (length texts))%N;
  rs_count : length runs <= length texts;
  rs_line_count : length (run_lines (run_file <$> runs)) <= length texts;
  rs_sealed : Forall (fun run => verify_file (run_file run) (run_sha256 run) (Some (run_bytes run)) = Ok tt) runs;
  rs_bytes : Forall (fun run => (run_bytes run <= N.of_nat (weight texts))%N) runs;
}.

Lemma runs_spec_nil : runs_spec [] [].
Proof using Type. split; try constructor; done. Qed.

Definition run_of (texts : list (list byte)) : RunArtifact :=
  let file := concat (write_line <$> sorted_elements (list_to_set texts : gset (list byte))) in
  {| run_file := file; run_sha256 := hex_encode (sha256 file); run_bytes := N.of_nat (length file);
     row_count := N.of_nat (size (list_to_set texts : gset (list byte))) |}.

Lemma count_lines ls c :
  Forall (fun l => utf8_valid l = true) ls -> (c + N.of_nat (length ls) < U64_LIMIT)%N ->
  try_fold count_line c ls = Ok (c + N.of_nat (length ls))%N.
Proof using Type.
  intros Hl. revert c. induction Hl as [|l ls Hl _ IH]; intros c Hc; cbn [try_fold length] in *; [f_equal; lia|].
  assert (count_line c l = Ok (c + 1)%N) as ->.
  { unfold count_line, line_text. rewrite Hl. cbn [mbind result_bind].
    by rewrite (proj2 (checked_add_some _ c 1 (c + 1)%N)) by (split; [done|lia]). }
  cbn [mbind result_bind]. rewrite IH by lia. f_equal. lia.
Qed.

Lemma artifact_run texts :
  Forall good_text texts -> (N.of_nat (length texts) < U64_LIMIT)%N ->
  artifact (concat (write_line <$> sorted_elements (list_to_set texts : gset (list byte)))) = Ok (run_of texts).
Proof using Type.
  intros Hg Hlen. unfold artifact.
  assert (Forall good_text (sorted_elements (list_to_set texts : gset (list byte)))) as Hs.
  { apply Forall_forall. intros t. rewrite elem_of_sorted_elements, elem_of_list_to_set. by apply Forall_forall. }
  rewrite write_lines_good by done. pose proof (size_list_to_set_bound texts).
  rewrite count_lines.
  - rewrite length_sorted_elements. done.
  - eapply Forall_impl; [exact Hs|]. by intros t [].
  - rewrite length_sorted_elements. lia.
Qed.

(** Appending the run of a flushed buffer. *)
Lemma runs_spec_snoc texts runs new :
  runs_spec texts runs -> Forall good_text new -> new <> [] -> runs_spec (texts ++ new) (runs ++ [run_of new]).
Proof using Type.
  intros [Hg Hl Hr Hcn Hlc Hse Hb] Hn Hne.
  set (out := sorted_elements (list_to_set new : gset (list byte))).
  assert (Forall good_text out) as Hout.
  { apply Forall_forall. intros t. unfold out. rewrite elem_of_sorted_elements, elem_of_list_to_set. by apply Forall_forall. }
  assert (lines (run_file (run_of new)) = out) as Hlines by (by apply write_lines_good).
  split.
  - rewrite fmap_app. apply Forall_app. split; [done|]. constructor; [|constructor]. unfold good_run.
    rewrite Hlines. split; [apply strict_weak, sorted_elements_strict|done].
  - intros l. rewrite fmap_app, run_lines_app, !elem_of_app, Hl. f_equiv. cbn [fmap list_fmap]. unfold run_lines.
    cbn [fmap list_fmap concat]. rewrite app_nil_r, Hlines. unfold out.
    by rewrite elem_of_sorted_elements, elem_of_list_to_set.
  - rewrite fmap_app, foldr_app. cbn [fmap list_fmap foldr]. pose proof (size_list_to_set_bound new) as Hsz.
    assert (forall (l : list N) a, foldr N.add a l = (foldr N.add 0 l + a)%N) as Hf.
    { induction l as [|x l IH]; intros a; cbn; [done|]. rewrite IH. lia. }
    rewrite Hf, length_app. change (row_count (run_of new)) with (N.of_nat (size (list_to_set new : gset (list byte)))). lia.
  - rewrite !length_app. destruct new; [done|]. cbn [length]. lia.
  - rewrite fmap_app, run_lines_app, !length_app. cbn [fmap list_fmap]. unfold run_lines at 2.
    cbn [fmap list_fmap concat]. rewrite app_nil_r, Hlines. unfold out. rewrite length_sorted_elements.
    pose proof (size_list_to_set_bound new). lia.
  - apply Forall_app. split; [done|]. constructor; [|constructor]. unfold verify_file, require_sha256, run_of.
    cbn [run_file run_sha256 run_bytes]. rewrite hex_encode_lower. cbn [negb fail_if mbind result_bind].
    by rewrite N.eqb_refl, String.eqb_refl.
  - rewrite weight_app. apply Forall_app. split.
    + eapply Forall_impl; [exact Hb|]. cbn. intros; lia.
    + constructor; [|constructor]. cbn [run_of run_bytes]. rewrite length_written.
      pose proof (weight_distinct new). lia.
Qed.

(** ** Batches *)

(** The scoped quad a line stands for. *)
Definition scoped_quad (scope : string) (line : list byte) : result SemanticCompilerError Quad :=
  quad ← ok_or (parse_quad line) Rdf; scope_quad quad scope.

Definition bucket_of (partitions : N) (quad : Quad) : N := digest_bucket (canonical_line quad) partitions.

Definition record_of (partitions : N) (quad : Quad) : N * list byte * list (list byte) :=
  (bucket_of partitions quad, canonical_line quad, collect_dictionary_terms quad).

Lemma bucket_of_lt partitions quad : partitions <> 0%N -> (bucket_of partitions quad < partitions)%N.
Proof using Type. intros Hp. unfold bucket_of, digest_bucket. by apply N.mod_lt. Qed.

Lemma map_line_spec scope partitions line quad :
  (0 < partitions <= 65536)%N -> scoped_quad scope line = Ok quad ->
  map_line scope partitions line = Ok (record_of partitions quad).
Proof using Type.
  unfold scoped_quad, map_line. intros Hp Hq. inv_ok Hq. subst. rewrite Ha. cbn [ok_or mbind result_bind].
  rewrite Hq. cbn [mbind result_bind]. unfold partition_for. fold (bucket_of partitions quad).
  pose proof (bucket_of_lt partitions quad ltac:(lia)). unfold fits, U32_LIMIT.
  rewrite (proj2 (N.ltb_lt (bucket_of partitions quad) (2 ^ 32))); [done|].
  assert (65536 < 2 ^ 32)%N by (vm_compute; done). lia.
Qed.

(** The facts of partition [p] and the dictionary terms among [quads]. *)
Definition facts_of (partitions p : N) (quads : list Quad) : list (list byte) :=
  canonical_text <$> filter (fun q => bucket_of partitions q = p) quads.
Definition terms_of (quads : list Quad) : list (list byte) := quads ≫= collect_dictionary_terms.

Lemma facts_of_app partitions p l k : facts_of partitions p (l ++ k) = facts_of partitions p l ++ facts_of partitions p k.
Proof using Type. unfold facts_of. by rewrite filter_app, fmap_app. Qed.

Lemma facts_of_length partitions p quads : length (facts_of partitions p quads) <= length quads.
Proof using Type. unfold facts_of. rewrite length_fmap. apply length_filter. Qed.

Lemma terms_of_app l k : terms_of (l ++ k) = terms_of l ++ terms_of k.
Proof using Type. apply bind_app. Qed.

Lemma terms_of_length quads : length (terms_of quads) <= 4 * length quads.
Proof using Type.
  induction quads as [|q quads IH]; [done|].
  change (terms_of (q :: quads)) with (collect_dictionary_terms q ++ terms_of quads). rewrite length_app.
  cbn [length collect_dictionary_terms]. lia.
Qed.

Lemma push_records partitions quads : forall bufs terms,
  (forall q, q ∈ quads -> N.to_nat (bucket_of partitions q) < length bufs) ->
  try_fold push_record (bufs, terms) (record_of partitions <$> quads)
  = Ok (imap (fun i b => b ++ ((fun t => t ++ [LF]) <$> facts_of partitions (N.of_nat i) quads)) bufs,
        terms ++ terms_of quads).
Proof using Type.
  induction quads as [|q quads IH]; intros bufs terms Hb; cbn [fmap list_fmap try_fold].
  - cbn. rewrite app_nil_r. do 2 f_equal. apply list_eq. intros i. rewrite list_lookup_imap.
    destruct (bufs !! i); cbn; [by rewrite app_nil_r|done].
  - destruct (lookup_lt_is_Some_2 bufs (N.to_nat (bucket_of partitions q))) as [b Hlk]; [apply Hb; left|].
    assert (push_record (bufs, terms) (record_of partitions q)
            = Ok (<[N.to_nat (bucket_of partitions q) := b ++ [canonical_line q]]> bufs,
                  terms ++ collect_dictionary_terms q)) as -> by (cbn; by rewrite Hlk). cbn [mbind result_bind].
    rewrite IH by (intros; rewrite length_insert; apply Hb; by right). do 2 f_equal.
    + apply list_eq. intros i. rewrite !list_lookup_imap. unfold facts_of. rewrite filter_cons.
      destruct (decide (i = N.to_nat (bucket_of partitions q))) as [->|Hi].
      * rewrite list_lookup_insert_eq by (by eapply lookup_lt_Some). rewrite Hlk. cbn.
        rewrite decide_True by (by rewrite N2Nat.id). cbn. by rewrite <- (assoc (++)).
      * rewrite list_lookup_insert_ne by done. destruct (bufs !! i); cbn; [|done].
        rewrite decide_False; [done|]. intros Heq. apply Hi. by rewrite Heq, Nat2N.id.
    + unfold terms_of. cbn. by rewrite <- (assoc (++)).
Qed.

(** The threads compute what a sequential loop computes. *)
Lemma process_batch_spec scope partitions threads lines' quads bufs terms :
  (0 < partitions <= 65536)%N -> length bufs = N.to_nat partitions ->
  try_map (scoped_quad scope) lines' = Ok quads ->
  process_map_batch lines' scope partitions threads bufs terms
  = Ok (imap (fun i b => b ++ ((fun t => t ++ [LF]) <$> facts_of partitions (N.of_nat i) quads)) bufs,
        terms ++ terms_of quads).
Proof using Type.
  intros Hp Hlen Hq. unfold process_map_batch.
  set (lanes := Nat.max 1 (Nat.min threads (length lines'))).
  assert (try_map (map_line scope partitions) lines' = Ok (record_of partitions <$> quads)) as Hm.
  { apply try_map_ok. apply try_map_ok in Hq. apply Forall2_fmap_r. eapply Forall2_impl; [exact Hq|].
    intros line q. by apply map_line_spec. }
  rewrite <- (concat_lane_chunks lanes lines') in Hm by lia.
  destruct (try_map_total (try_map (map_line scope partitions)) (chunks (div_ceil (length lines') lanes) lines'))
    as [out Hout].
  { intros c Hc. apply try_map_total. intros l Hl. apply try_map_ok in Hm.
    assert (l ∈ concat (chunks (div_ceil (length lines') lanes) lines')) as Hin by (apply elem_of_concat; by exists c).
    apply list_elem_of_lookup in Hin as [i Hi]. destruct (Forall2_lookup_l _ _ _ _ _ Hm Hi) as (y & _ & Hy). by exists y. }
  rewrite Hout. cbn [mbind result_bind]. apply try_map_concat in Hout.
  assert (concat out = record_of partitions <$> quads) as -> by congruence.
  apply push_records. intros q Hq'. rewrite Hlen. pose proof (bucket_of_lt partitions q ltac:(lia)). lia.
Qed.

(** One partition at a time, a non-empty buffer becomes a run. *)
Lemma flush_facts_from partitions quads bufs : forall k M o,
  (forall i b, bufs !! i = Some b -> b = (fun t => t ++ [LF]) <$> facts_of partitions (N.of_nat (k + i)) quads) ->
  Forall (fun q => printable (canonical_text q)) quads -> (N.of_nat (length quads) < U64_LIMIT)%N ->
  (N.of_nat (k + length bufs) <= U32_LIMIT)%N -> (o + N.of_nat (length (concat bufs)) < U32_LIMIT)%N ->
  exists M' o', try_fold flush_fact_buffer (M, o) (zip (seq k (length bufs)) bufs) = Ok (M', o') /\
    (o' <= o + N.of_nat (length (concat bufs)))%N /\
    forall p, M' !! p =
      if bool_decide (N.of_nat k <= p < N.of_nat (k + length bufs))%N && negb (bool_decide (facts_of partitions p quads = []))
      then Some (default [] (M !! p) ++ [run_of (facts_of partitions p quads)]) else M !! p.
Proof using Type.
  induction bufs as [|b bufs IH]; intros k M o Hb Hp Hq Hk Ho; cbn [length seq zip try_fold].
  { exists M, o. split; [done|]. split; [lia|]. intros p. rewrite bool_decide_eq_false_2 by lia. done. }
  assert (b = (fun t => t ++ [LF]) <$> facts_of partitions (N.of_nat k) quads) as Hb0.
  { rewrite (Hb 0 b eq_refl). by rewrite Nat.add_0_r. }
  cbn [length concat] in Hk, Ho. rewrite length_app in Ho.
  set (run := run_of (facts_of partitions (N.of_nat k) quads)).
  assert (exists o1, flush_fact_buffer (M, o) (k, b) =
            Ok (if bool_decide (b = []) then M else <[N.of_nat k := default [] (M !! N.of_nat k) ++ [run]]> M, o1) /\
          (o1 <= o + N.of_nat (length b))%N) as (o1 & Hstep & Ho1).
  { unfold flush_fact_buffer. case_bool_decide as Hbe; [exists o; split; [done|lia]|].
    unfold fits. rewrite (proj2 (N.ltb_lt (N.of_nat k) U32_LIMIT)) by lia. cbn [negb fail_if mbind result_bind].
    assert (Forall printable (facts_of partitions (N.of_nat k) quads)) as Hpr.
    { unfold facts_of. apply Forall_fmap, Forall_filter. exact Hp. }
    assert (0 < length b) as Hpos by (destruct b; [done|cbn; lia]).
    rewrite Hb0, (sorted_run_facts _ Hpr), artifact_run.
    - cbn [mbind result_bind]. rewrite (proj2 (checked_add_some U32_LIMIT o 1 (o + 1)%N)).
      + cbn [ok_or mbind result_bind]. exists (o + 1)%N. split; [done|]. rewrite <- Hb0. lia.
      + split; [done|lia].
    - eapply Forall_impl; [exact Hpr|]. apply printable_good.
    - pose proof (facts_of_length partitions (N.of_nat k) quads). lia. }
  rewrite Hstep. cbn [mbind result_bind].
  destruct (IH (S k) (if bool_decide (b = []) then M else <[N.of_nat k := default [] (M !! N.of_nat k) ++ [run]]> M) o1)
    as (M' & o' & HM & Ho' & Hlk); [|done|done|lia|lia|].
  { intros i b' Hi. rewrite (Hb (S i) b' Hi). do 3 f_equal. lia. }
  exists M', o'. split; [done|]. split; [cbn [concat]; rewrite length_app; lia|].
  assert (b = [] <-> facts_of partitions (N.of_nat k) quads = []) as Hemp.
  { rewrite Hb0. split; [apply fmap_nil_inv|by intros ->]. }
  intros p. rewrite Hlk. destruct (decide (p = N.of_nat k)) as [->|Hne].
  - rewrite (bool_decide_eq_false_2 (N.of_nat (S k) <= N.of_nat k < _)%N) by lia. cbn [andb].
    rewrite (bool_decide_eq_true_2 (N.of_nat k <= N.of_nat k < _)%N) by lia. cbn [andb].
    case_bool_decide as He.
    + rewrite bool_decide_eq_true_2 by (by apply Hemp). done.
    + rewrite bool_decide_eq_false_2 by (by rewrite <- Hemp). cbn [negb]. by rewrite lookup_insert_eq.
  - assert ((if bool_decide (b = []) then M else <[N.of_nat k := default [] (M !! N.of_nat k) ++ [run]]> M) !! p = M !! p)
      as -> by (case_bool_decide; [done|by rewrite lookup_insert_ne]).
    rewrite (bool_decide_ext (N.of_nat (S k) <= p < N.of_nat (S k + length bufs))%N
               (N.of_nat k <= p < N.of_nat (k + S (length bufs)))%N) by lia. done.
Qed.

(** ** The loop *)

Definition good_quad (quad : Quad) : Prop :=
  printable (canonical_text quad) /\ Forall good_text (collect_dictionary_terms quad).

(** After a flush, the runs hold exactly the facts and terms of the quads so far. *)
Record map_inv (partitions : N) (quads : list Quad) (st : MapState) : Prop := {
  mv_buffers : buffers st = replicate (N.to_nat partitions) [];
  mv_terms : term_buffer st = [];
  mv_count : quad_count st = N.of_nat (length quads);
  mv_ordinal : (run_ordinal st <= N.of_nat (length quads))%N;
  mv_tordinal : (term_run_ordinal st <= N.of_nat (length quads))%N;
  mv_facts : forall p, runs_spec (facts_of partitions p quads) (default [] (st_fact_runs st !! p));
  mv_owned : forall p, is_Some (st_fact_runs st !! p) -> (p < partitions)%N;
  mv_truns : runs_spec (terms_of quads) (st_term_runs st);
}.

Lemma map_inv_start partitions : map_inv partitions [] (map_start partitions).
Proof using Type.
  split; cbn [map_start buffers term_buffer quad_count run_ordinal term_run_ordinal st_fact_runs st_term_runs];
    try done; try exact runs_spec_nil.
  - intros p. rewrite lookup_empty. by intros [].
Qed.

Lemma map_inv_batch partitions quads st b : map_inv partitions quads st -> map_inv partitions quads (set_batch st b).
Proof using Type. by intros []. Qed.

Lemma imap_replicate_nil {A} n (f : nat -> list A) : imap (fun i b => b ++ f i) (replicate n []) = f <$> seq 0 n.
Proof using Type.
  apply list_eq. intros i. rewrite list_lookup_imap, list_lookup_fmap. destruct (decide (i < n)).
  - by rewrite lookup_replicate_2, lookup_seq_lt by done.
  - rewrite (proj2 (lookup_ge_None (seq _ _) i)) by (rewrite length_seq; lia).
    by rewrite (proj2 (lookup_ge_None (replicate _ _) i)) by (rewrite length_replicate; lia).
Qed.

(** Every quad has one owner. *)
Lemma buckets_length partitions quads :
  partitions <> 0%N ->
  length (concat ((fun i => (fun t => t ++ [LF]) <$> facts_of partitions (N.of_nat i) quads) <$> seq 0 (N.to_nat partitions)))
  = length quads.
Proof using Type.
  intros Hp.
  assert (forall q, q ∈ quads -> N.to_nat (bucket_of partitions q) < N.to_nat partitions) as Hlt.
  { intros q _. pose proof (bucket_of_lt partitions q Hp). lia. }
  rewrite <- (Permutation_length (filter_partition_permutation
    (fun q => N.to_nat (bucket_of partitions q)) (N.to_nat partitions) quads Hlt)).
  rewrite !length_concat. f_equal. rewrite <- !list_fmap_compose. apply list_fmap_ext. intros _ i _. cbn.
  unfold facts_of. rewrite !length_fmap. f_equal. apply list_filter_ext_in. intros q _. lia.
Qed.

Lemma flush_terms_spec quads new o runs :
  runs_spec (terms_of quads) runs -> Forall good_quad new -> (N.of_nat (length new) < U32_LIMIT)%N ->
  (o + N.of_nat (length new) < U32_LIMIT)%N ->
  exists runs' o', flush_term_buffer (terms_of new) runs o = Ok ([], runs', o') /\
    (o' <= o + N.of_nat (length new))%N /\ runs_spec (terms_of (quads ++ new)) runs'.
Proof using Type.
  intros Hr Hg Hn Ho. unfold flush_term_buffer. case_bool_decide as He.
  - exists runs, o. rewrite He. split_and!; [done|lia|]. by rewrite terms_of_app, He, app_nil_r.
  - assert (Forall good_text (terms_of new)) as Hgt.
    { unfold terms_of. apply Forall_bind. eapply Forall_impl; [exact Hg|]. by intros q []. }
    pose proof (terms_of_length new) as Hl.
    assert (0 < length new) as Hpos by (destruct new; [done|cbn; lia]).
    rewrite sorted_run_terms, artifact_run; try done.
    + cbn [mbind result_bind]. rewrite (proj2 (checked_add_some U32_LIMIT o 1 (o + 1)%N)) by (split; [done|lia]).
      cbn [ok_or mbind result_bind]. eexists _, _. split; [done|]. split; [lia|].
      rewrite terms_of_app. by apply runs_spec_snoc.
    + assert (4 * U32_LIMIT < U64_LIMIT)%N by (vm_compute; done). lia.
Qed.

Lemma map_batch_flush scope partitions limits quads new st :
  (0 < partitions <= 65536)%N -> map_inv partitions quads st ->
  try_map (scoped_quad scope) (batch st) = Ok new -> Forall good_quad new ->
  (N.of_nat (length (quads ++ new)) < U32_LIMIT)%N ->
  exists st1 st2, map_batch scope partitions limits st = Ok st1 /\ quad_count st1 = N.of_nat (length (quads ++ new)) /\
    map_flush st1 = Ok st2 /\ map_inv partitions (quads ++ new) st2.
Proof using Type.
  intros Hp [Hb Ht Hc Ho Hto Hf Hown Htr] Hq Hg Hn. rewrite length_app in Hn.
  assert (length (batch st) = length new) as Hbl by (symmetry; by eapply try_map_length).
  assert (4 * U32_LIMIT < U64_LIMIT)%N as Hlim by (vm_compute; done).
  unfold map_batch. rewrite (process_batch_spec scope partitions _ _ new) by (try done; by rewrite Hb, length_replicate).
  cbn [mbind result_bind]. rewrite (proj2 (u64_of_len_some _ (N.of_nat (length new)))) by (rewrite Hbl; split; [done|lia]).
  cbn [ok_or mbind result_bind]. rewrite Hc, compiler_add_ok by lia. cbn [mbind result_bind].
  eexists. rewrite Hb, Ht, imap_replicate_nil.
  set (bufs := _ <$> seq 0 (N.to_nat partitions)).
  destruct (flush_facts_from partitions new bufs 0 (st_fact_runs st) (run_ordinal st)) as (M' & o' & HM & Ho' & Hlk).
  { intros i b Hi. unfold bufs in Hi. rewrite list_lookup_fmap in Hi. cbn [Nat.add].
    destruct (seq 0 (N.to_nat partitions) !! i) as [j|] eqn:Hj; [|done]. apply lookup_seq in Hj as [-> _].
    by injection Hi as <-. }
  { eapply Forall_impl; [exact Hg|]. by intros q []. }
  { lia. }
  { unfold bufs. rewrite length_fmap, length_seq. assert (65536 <= U32_LIMIT)%N by (vm_compute; done). lia. }
  { unfold bufs. rewrite buckets_length by lia. lia. }
  destruct (flush_terms_spec quads new (term_run_ordinal st) (st_term_runs st) Htr Hg) as (tr' & to' & Htf & Hto' & Htr');
    [lia..|].
  eexists. split; [done|]. cbn [quad_count]. split; [rewrite length_app; lia|]. split.
  { unfold map_flush, flush_fact_buffers, enumerate. cbn [buffers st_fact_runs run_ordinal term_buffer st_term_runs term_run_ordinal].
    unfold bufs in HM. rewrite HM. cbn [mbind result_bind app]. rewrite Htf. cbn [mbind result_bind]. reflexivity. }
  unfold bufs in Ho'. rewrite buckets_length in Ho' by lia.
  split; cbn [buffers st_fact_runs run_ordinal term_buffer st_term_runs term_run_ordinal quad_count]; try done.
  - unfold bufs. rewrite <- list_fmap_compose. apply list_eq. intros i. rewrite list_lookup_fmap.
    destruct (decide (i < N.to_nat partitions)).
    + by rewrite lookup_replicate_2, lookup_seq_lt by done.
    + rewrite (proj2 (lookup_ge_None (seq _ _) i)) by (rewrite length_seq; lia).
      by rewrite (proj2 (lookup_ge_None (replicate _ _) i)) by (rewrite length_replicate; lia).
  - rewrite length_app. lia.
  - rewrite length_app. lia.
  - rewrite length_app. lia.
  - intros p. rewrite facts_of_app. unfold bufs in Hlk. rewrite Hlk, length_fmap, length_seq.
    destruct (bool_decide (facts_of partitions p new = [])) eqn:He; bool_prop.
    { rewrite He, andb_false_r, app_nil_r. apply Hf. }
    rewrite bool_decide_eq_true_2.
    + cbn [andb negb default]. apply runs_spec_snoc; [apply Hf| |done]. unfold facts_of. apply Forall_fmap, Forall_filter.
      eapply Forall_impl; [exact Hg|]. intros q [Hpr _]. by apply printable_good.
    + destruct (facts_of partitions p new) as [|t ts] eqn:Hfe; [done|].
      assert (t ∈ facts_of partitions p new) as Hin by (rewrite Hfe; left).
      unfold facts_of in Hin. apply list_elem_of_fmap in Hin as (q & _ & [<- _]%list_elem_of_filter).
      pose proof (bucket_of_lt partitions q ltac:(lia)). lia.
  - intros p. unfold bufs in Hlk. rewrite Hlk, length_fmap, length_seq. destruct (bool_decide _) eqn:Hd; cbn [andb].
    + bool_prop. intros _. lia.
    + apply Hown.
Qed.

(** ** Scoped quads print cleanly *)

Lemma hex_printable bytes : printable (as_bytes (hex_encode bytes)).
Proof using Type.
  assert (Forall (fun b => in_range 0x20 0x7f b = true) (as_bytes (hex_encode bytes))) as Hr.
  { rewrite as_bytes_hex_encode. apply Forall_forall. intros b (l & (x & -> & _)%list_elem_of_fmap & Hb)%elem_of_concat.
    assert (lower_hex_byte b = true) as Hh.
    { pose proof (byte_to_N_lt x). repeat (apply elem_of_cons in Hb as [->|Hb]); [| |by apply elem_of_nil in Hb];
        apply hex_digit_lower; [apply N.Div0.div_lt_upper_bound; lia|by apply N.mod_lt]. }
    revert Hh. clear. by destruct b. }
  split.
  - apply ascii_utf8, forallb_forall. intros b Hb%list_elem_of_In. rewrite Forall_forall in Hr. specialize (Hr b Hb).
    revert Hr. unfold is_ascii, in_range. rewrite !andb_true_iff, !N.leb_le. lia.
  - eapply Forall_impl; [exact Hr|]. intros b. unfold in_range. rewrite andb_true_iff, !N.leb_le. lia.
Qed.

Lemma scoped_label_printable scope label : printable (scoped_label scope label).
Proof using Type.
  apply printable_app; [|apply hex_printable]. split; [done|]. repeat constructor; by vm_compute.
Qed.

Lemma scoped_blank_printable scope label out : scoped_blank_node scope label = Ok out -> printable out.
Proof using Type.
  unfold scoped_blank_node. destruct (blank_label_ok _); [|done]. intros [= <-]. apply scoped_label_printable.
Qed.

Lemma scope_quad_printable quad scope scoped :
  scope_quad quad scope = Ok scoped -> Forall printable (term_texts quad) -> Forall printable (term_texts scoped).
Proof using Type.
  unfold scope_quad. intros Hs Hp. do 3 inv_ok Hs. injection Hs as <-. unfold term_texts in *.
  do 4 apply Forall_cons in Hp as [? Hp]. cbn [quad_subject quad_predicate quad_object quad_graph].
  repeat apply Forall_cons_2; try done.
  - destruct (quad_subject quad); [by injection Ha as <-|]. inv_ok Ha. injection Ha as <-. by eapply scoped_blank_printable.
  - destruct (quad_object quad); [by injection Ha0 as <-| |by injection Ha0 as <-]. inv_ok Ha0. injection Ha0 as <-.
    by eapply scoped_blank_printable.
  - destruct (quad_graph quad); [by injection Ha1 as <-| |by injection Ha1 as <-]. inv_ok Ha1. injection Ha1 as <-.
    by eapply scoped_blank_printable.
Qed.

Lemma printable_good_quad `{!NQuadsLaws} quad : Forall printable (term_texts quad) -> good_quad quad.
Proof using Type.
  intros Hp. split.
  - unfold canonical_text. apply printable_app; [by apply show_printable|]. split; [done|]. repeat constructor; by vm_compute.
  - unfold term_texts in Hp. do 4 apply Forall_cons in Hp as [? Hp]. unfold collect_dictionary_terms.
    repeat apply Forall_cons_2; try apply Forall_nil_2.
    + by destruct (quad_subject quad); apply key_good.
    + by apply key_good.
    + by destruct (quad_object quad); apply key_good.
    + by destruct (quad_graph quad); apply key_good.
Qed.

Lemma scoped_quad_good `{!NQuadsLaws} scope line quad : scoped_quad scope line = Ok quad -> good_quad quad.
Proof using Type.
  unfold scoped_quad. intros Hq. inv_ok Hq. inv_ok Ha || idtac. apply printable_good_quad.
  eapply scope_quad_printable; [exact Hq|]. eapply parse_printable. eassumption.
Qed.

Lemma scoped_quads_good `{!NQuadsLaws} scope lines' quads :
  try_map (scoped_quad scope) lines' = Ok quads -> Forall good_quad quads.
Proof using Type.
  intros Hq%try_map_ok. induction Hq as [|l q ls qs Hq _ IH]; constructor; [by eapply scoped_quad_good|done].
Qed.

Lemma try_map_app {E A B} (f : A -> result E B) l k out :
  try_map f (l ++ k) = Ok out <-> exists a b, out = a ++ b /\ try_map f l = Ok a /\ try_map f k = Ok b.
Proof using Type.
  rewrite try_map_ok. setoid_rewrite try_map_ok. split.
  - intros (a & b & ? & ? & ->)%Forall2_app_inv_l. eauto.
  - intros (a & b & -> & ? & ?). by apply Forall2_app.
Qed.

(** The lines that are mapped. *)
Definition fact_lines (raws : list (list byte)) : list (list byte) := filter (fun l => is_blank l = false) raws.

Lemma map_steps `{!NQuadsLaws} scope partitions limits raws : forall quads new st,
  (0 < partitions <= 65536)%N -> 0 < max_rows_in_memory limits ->
  Forall (fun l => utf8_valid l = true) raws ->
  map_inv partitions quads st -> length (batch st) < max_rows_in_memory limits ->
  try_map (scoped_quad scope) (batch st ++ fact_lines raws) = Ok new ->
  (N.of_nat (length (quads ++ new)) < U32_LIMIT)%N -> (N.of_nat (length (quads ++ new)) <= max_fragment_quads limits)%N ->
  exists st' quads' new', try_fold (map_step scope partitions limits) st raws = Ok st' /\
    map_inv partitions quads' st' /\ quads ++ new = quads' ++ new' /\
    try_map (scoped_quad scope) (batch st') = Ok new'.
Proof using Type.
  induction raws as [|raw raws IH]; intros quads new st Hp Hrows Hu Hinv Hb Hq Hn Hmax; cbn [try_fold].
  { exists st, quads, new. cbn in Hq. rewrite app_nil_r in Hq. done. }
  apply Forall_cons in Hu as [Hr Hu]. unfold fact_lines in Hq. rewrite filter_cons in Hq.
  assert (exists st1 quads1 new1, map_step scope partitions limits st raw = Ok st1 /\ map_inv partitions quads1 st1 /\
    length (batch st1) < max_rows_in_memory limits /\ quads ++ new = quads1 ++ new1 /\
    try_map (scoped_quad scope) (batch st1 ++ fact_lines raws) = Ok new1) as (st1 & q1 & n1 & Hs & Hi1 & Hb1 & Hqn & Hq1).
  { unfold map_step, line_text. rewrite Hr. cbn [mbind result_bind]. destruct (is_blank raw) eqn:Hbl.
    { exists st, quads, new. rewrite decide_False in Hq by done. done. }
    rewrite decide_True in Hq by done. cbn [batch set_batch].
    replace (batch st ++ raw :: filter (fun l => is_blank l = false) raws)
      with ((batch st ++ [raw]) ++ fact_lines raws) in Hq by (by rewrite <- (assoc (++))).
    rewrite length_app. cbn [length]. destruct (Nat.eqb_spec (length (batch st) + 1) (max_rows_in_memory limits)) as [He|He].
    - apply try_map_app in Hq as (nb & nr & -> & Hnb & Hnr). 
      rewrite !length_app in Hn, Hmax.
      destruct (map_batch_flush scope partitions limits quads nb (set_batch st (batch st ++ [raw])))
        as (s1 & s2 & -> & Hc & Hfl & Hi2); [done|by apply map_inv_batch|done|by eapply scoped_quads_good|rewrite length_app; lia|].
      cbn [mbind result_bind]. rewrite Hc, length_app, (proj2 (N.ltb_ge _ _)) by lia.
      cbn [fail_if mbind result_bind]. rewrite Hfl. cbn [mbind result_bind].
      exists (set_batch s2 []), (quads ++ nb), nr. cbn [batch set_batch length]. rewrite <- (assoc (++)).
      split_and!; [done|by apply map_inv_batch|lia|done|done].
    - exists (set_batch st (batch st ++ [raw])), quads, new. cbn [batch set_batch]. rewrite length_app. cbn [length].
      split_and!; [done|by apply map_inv_batch|lia|done|done]. }
  rewrite Hs. cbn [mbind result_bind]. rewrite Hqn in *.
  destruct (IH q1 n1 st1) as (st' & q' & n' & -> & ? & ? & ?); try done. by exists st', q', n'.
Qed.

Lemma map_batch_empty scope partitions limits st :
  batch st = [] -> (quad_count st < U64_LIMIT)%N -> map_batch scope partitions limits st = Ok st.
Proof using Type.
  destruct st as [b t f tr c o to bt]. cbn [batch quad_count]. intros -> Hc. unfold map_batch.
  cbn [batch quad_count buffers term_buffer].
  assert (process_map_batch [] scope partitions (worker_threads limits) b t = Ok (b, t)) as -> by done.
  cbn [mbind result_bind]. change (u64_of_len (length [])) with (Some 0%N). cbn [ok_or mbind result_bind].
  rewrite compiler_add_ok by lia. by rewrite N.add_0_r.
Qed.

(** The fragment's quads, in its order. *)
Definition fragment_quads (scope : string) (file : list byte) : result SemanticCompilerError (list Quad) :=
  try_map (scoped_quad scope) (fact_lines (lines file)).

Lemma map_lines_spec `{!NQuadsLaws} scope partitions limits file quads :
  (0 < partitions <= 65536)%N -> 0 < max_rows_in_memory limits ->
  Forall (fun l => utf8_valid l = true) (lines file) -> fragment_quads scope file = Ok quads ->
  (N.of_nat (length quads) < U32_LIMIT)%N -> (N.of_nat (length quads) <= max_fragment_quads limits)%N ->
  exists st, map_lines scope partitions limits file = Ok st /\ map_inv partitions quads st.
Proof using Type.
  intros Hp Hr Hu Hq Hn Hm. unfold map_lines.
  destruct (map_steps scope partitions limits (lines file) [] quads (map_start partitions))
    as (st & q & new & -> & Hinv & Heq & Hb); try done; [apply map_inv_start|].
  cbn [app] in Heq. subst quads. cbn [mbind result_bind]. case_bool_decide as He.
  - rewrite He in Hb. injection Hb as <-. cbn [mbind result_bind]. rewrite app_nil_r in *.
    destruct (map_batch_flush scope partitions limits q [] st Hp Hinv) as (s1 & s2 & Hmb & _ & Hfl & Hi);
      [by rewrite He|constructor|by rewrite app_nil_r|].
    rewrite map_batch_empty in Hmb; [|done|rewrite (mv_count _ _ _ Hinv)]; [|assert (U32_LIMIT < U64_LIMIT)%N by (vm_compute; done); lia].
    injection Hmb as <-. rewrite app_nil_r in Hi. by exists s2.
  - destruct (map_batch_flush scope partitions limits q new st) as (s1 & s2 & -> & _ & Hfl & Hi); try done.
    { by eapply scoped_quads_good. }
    cbn [mbind result_bind]. by exists s2.
Qed.

(** ** The counters fit *)

Lemma sum_rows_total (runs : list RunArtifact) acc :
  (acc + foldr N.add 0 (row_count <$> runs) < U64_LIMIT)%N ->
  try_fold add_rows acc runs = Ok (acc + foldr N.add 0 (row_count <$> runs))%N.
Proof using Type.
  revert acc. induction runs as [|r runs IH]; intros acc Hs; cbn [try_fold fmap list_fmap foldr] in *; [f_equal; lia|].
  assert (add_rows acc r = Ok (acc + row_count r)%N) as ->.
  { unfold add_rows. by rewrite (proj2 (checked_add_some U64_LIMIT acc (row_count r) (acc + row_count r)%N)) by (split; [done|lia]). }
  cbn [mbind result_bind]. rewrite IH by lia. f_equal. lia.
Qed.

Lemma bounded_keys (keys : list N) (n : N) : NoDup keys -> Forall (fun k => (k < n)%N) keys -> length keys <= N.to_nat n.
Proof using Type.
  intros Hn Hk. assert (length (N.of_nat <$> seq 0 (N.to_nat n)) = N.to_nat n) as <- by (by rewrite length_fmap, length_seq).
  apply submseteq_length, NoDup_submseteq; [done|]. intros k Hin. rewrite Forall_forall in Hk. apply Hk in Hin.
  apply list_elem_of_fmap. exists (N.to_nat k). split; [lia|]. apply elem_of_seq. lia.
Qed.

Lemma foldr_concat_bound (ls : list (list N)) K :
  Forall (fun l => foldr N.add 0 l <= K)%N ls -> (foldr N.add 0 (concat ls) <= N.of_nat (length ls) * K)%N.
Proof using Type.
  induction 1 as [|l ls Hl _ IH]; cbn [concat length]; [cbn; lia|]. rewrite foldr_app.
  assert (forall (l : list N) a, foldr N.add a l = (foldr N.add 0 l + a)%N) as ->.
  { clear. induction l as [|x l IH]; intros a; cbn; [done|]. rewrite IH. lia. }
  lia.
Qed.

Lemma unique_rows_bound partitions quads st :
  (0 < partitions <= 65536)%N -> map_inv partitions quads st -> (N.of_nat (length quads) < U32_LIMIT)%N ->
  (foldr N.add 0 (row_count <$> all_fact_runs (st_fact_runs st)) < U64_LIMIT)%N.
Proof using Type.
  intros Hp Hinv Hn. unfold all_fact_runs.
  assert (forall ls : list (list RunArtifact), row_count <$> concat ls = concat (map (fun l : list RunArtifact => row_count <$> l) ls)) as ->.
  { clear. induction ls as [|l ls IH]; [done|]. cbn [concat map]. by rewrite fmap_app, IH. }
  eapply N.le_lt_trans.
  { apply (foldr_concat_bound _ (N.of_nat (length quads))). rewrite !Forall_fmap. apply Forall_forall.
    intros [p runs] Hin%elem_of_sorted_bindings. cbn [snd]. pose proof (rs_rows _ _ (mv_facts _ _ _ Hinv p)) as Hr.
    rewrite Hin in Hr. change (default [] (Some runs)) with runs in Hr. pose proof (facts_of_length partitions p quads).
    cbn. lia. }
  rewrite !length_fmap.
  assert (length (sorted_bindings (st_fact_runs st)) <= N.to_nat partitions) as Hl.
  { rewrite <- (length_fmap fst). apply bounded_keys; [apply NoDup_sorted_bindings_fst|]. apply Forall_fmap, Forall_forall.
    intros [p runs] Hin%elem_of_sorted_bindings. cbn. eapply mv_owned; [done|]. by eexists. }
  assert (65536 * U32_LIMIT < U64_LIMIT)%N by (vm_compute; done). nia.
Qed.

(** No run is over a ceiling that covers all of its texts. *)
Lemma runs_fit partitions quads st max :
  map_inv partitions quads st ->
  (forall p, N.of_nat (weight (facts_of partitions p quads)) <= max)%N -> (N.of_nat (weight (terms_of quads)) <= max)%N ->
  existsb (fun run => max <? run_bytes run)%N (all_fact_runs (st_fact_runs st) ++ st_term_runs st) = false.
Proof using Type.
  intros Hinv Hf Ht. apply not_true_is_false. intros (run & Hin%list_elem_of_In & Hlt%N.ltb_lt)%existsb_exists.
  apply elem_of_app in Hin as [Hin|Hin].
  - unfold all_fact_runs in Hin. apply elem_of_concat in Hin as (runs & ([p runs'] & -> & Hb)%list_elem_of_fmap & Hin).
    apply elem_of_sorted_bindings in Hb. pose proof (rs_bytes _ _ (mv_facts _ _ _ Hinv p)) as Hr.
    rewrite Hb in Hr. cbn in Hr, Hin. rewrite Forall_forall in Hr. specialize (Hr run Hin). specialize (Hf p). lia.
  - pose proof (rs_bytes _ _ (mv_truns _ _ _ Hinv)) as Hr. rewrite Forall_forall in Hr. specialize (Hr run Hin). lia.
Qed.

(** What a fragment must be for its map to succeed within [limits]. *)
Record mappable (handoff : CompilerHandoffManifest) (handoff_sha256 : string) (ordinal : N) (file : list byte)
    (limits : MapLimits) (fragment : DecodedFragment) (quads : list Quad) : Prop := {
  ma_handoff : validate_handoff handoff = Ok tt;
  ma_sha : require_sha256 handoff_sha256 = Ok tt;
  ma_rows : 0 < max_rows_in_memory limits;
  ma_threads : 0 < worker_threads limits;
  ma_lookup : fragments handoff !! N.to_nat ordinal = Some fragment;
  ma_ordinal : fragment_ordinal fragment = ordinal;
  ma_file : verify_file file (fragment_sha256 fragment) (Some (fragment_bytes fragment)) = Ok tt;
  ma_bytes : (0 < max_fragment_bytes limits /\ fragment_bytes fragment <= max_fragment_bytes limits)%N;
  ma_utf8 : Forall (fun l => utf8_valid l = true) (lines file);
  ma_quads : fragment_quads (fragment_blank_scope fragment) file = Ok quads;
  ma_count : fragment_quad_count fragment = N.of_nat (length quads);
  ma_quads_max : (0 < max_fragment_quads limits /\ N.of_nat (length quads) <= max_fragment_quads limits)%N;
  ma_quads_32 : (N.of_nat (length quads) < U32_LIMIT)%N;
  ma_facts_max : forall p, (N.of_nat (weight (facts_of (logical_partitions handoff) p quads)) <= max_run_bytes limits)%N;
  ma_terms_max : (0 < max_run_bytes limits /\ N.of_nat (weight (terms_of quads)) <= max_run_bytes limits)%N;
}.

Lemma valid_partitions handoff : validate_handoff handoff = Ok tt -> (0 < logical_partitions handoff <= 65536)%N.
Proof using Type. unfold validate_handoff. intros Hv. inv_ok Hv. inv_ok Ha. bool_prop.
  lia.
Qed.

Lemma map_fragment_spec `{!NQuadsLaws} handoff sha ordinal file limits fragment quads :
  mappable handoff sha ordinal file limits fragment quads ->
  exists m, map_fragment handoff sha ordinal file limits = Ok m /\
    map_fragment_ordinal m = ordinal /\ input_quad_count m = N.of_nat (length quads) /\
    (forall p, runs_spec (facts_of (logical_partitions handoff) p quads) (default [] (fact_runs m !! p))) /\
    (forall p, is_Some (fact_runs m !! p) -> (p < logical_partitions handoff)%N) /\
    runs_spec (terms_of quads) (term_runs m).
Proof using Type.
  intros []. pose proof (valid_partitions _ ma_handoff0) as Hp.
  destruct (map_lines_spec (fragment_blank_scope fragment) (logical_partitions handoff) limits file quads)
    as (st & Hst & Hinv); try done; [tauto|].
  unfold map_fragment. rewrite ma_handoff0, ma_sha0. cbn [mbind result_bind].
  replace (_ || _ || _ || _ || _) with false by (symmetry; rewrite !orb_false_iff, !N.eqb_neq, !Nat.eqb_neq; lia).
  cbn [fail_if mbind result_bind]. rewrite ma_lookup0. cbn [mbind option_bind]. rewrite ma_ordinal0, N.eqb_refl.
  cbn [ok_or mbind result_bind]. rewrite ma_file0. cbn [mbind result_bind].
  replace (_ || _) with false by (symmetry; rewrite !orb_false_iff, !N.ltb_ge; lia).
  cbn [fail_if mbind result_bind]. rewrite Hst. cbn [mbind result_bind].
  rewrite (mv_count _ _ _ Hinv), ma_count0, N.eqb_refl. cbn [negb fail_if mbind result_bind].
  rewrite sum_rows_total by (by eapply unique_rows_bound). cbn [mbind result_bind].
  rewrite (runs_fit _ _ _ _ Hinv) by tauto. cbn [fail_if mbind result_bind].
  eexists. split; [done|]. cbn [map_fragment_ordinal input_quad_count fact_runs term_runs].
  split_and!; [done|done|apply Hinv|apply Hinv|apply Hinv].
Qed.
End map_proofs.

(** ** Blank nodes stay apart *)

Lemma nul_free_scope scope ordinal : valid_blank_scope scope ordinal = true -> x00 ∉ as_bytes scope.
Proof.
  unfold valid_blank_scope. destruct (strip_prefix _ _) as [suffix|] eqn:Hs; [|done]. apply strip_prefix_some in Hs.
  rewrite andb_true_iff. intros [_ Hhex]. rewrite Hs. unfold blank_scope_prefix. rewrite !not_elem_of_app. split_and!.
  - apply (bool_decide_eq_true_1 _). by vm_compute.
  - intros Hin. pose proof (proj1 (Forall_forall _ _) (digits_range _ _) _ Hin) as Hr. by vm_compute in Hr.
  - apply (bool_decide_eq_true_1 _). by vm_compute.
  - intros Hin%list_elem_of_In. pose proof (proj1 (forallb_forall _ _) Hhex _ Hin) as Hr. by vm_compute in Hr.
Qed.

(** blank nodes of different source objects never collapse.  If two blank
    labels are the same after scoping, they came from the same object and were
    the same label there, or the texts hashed for them collide: the scope text of
    the handoff cannot run into the label. *)
Theorem blank_nodes_stay_apart `{Sha256} scope ordinal label scope' ordinal' label' :
  valid_blank_scope scope ordinal = true -> valid_blank_scope scope' ordinal' = true ->
  scoped_label scope label = scoped_label scope' label' ->
  (scope = scope' /\ label = label') \/ collide (scope_preimage scope label) (scope_preimage scope' label').
Proof.
  intros Hs Hs' He. apply app_inv_head, as_bytes_inj, hex_digest_inj in He as [He|Hc]; [left|by right].
  apply app_inv_head in He. apply nul_free_scope in Hs, Hs'.
  pose proof (split_once_app x00 _ label Hs) as H1. pose proof (split_once_app x00 _ label' Hs') as H2.
  cbn [app] in He. rewrite He, H2 in H1. injection H1 as H1 ->. split; [|done]. by apply as_bytes_inj.
Qed.

(** ** Concrete N-Quads *)

Definition printable_bool (text : list byte) : bool :=
  utf8_valid text && forallb (fun b => 0x20 <=? Byte.to_N b)%N text.

Lemma printable_bool_spec text : printable_bool text = true -> printable text.
Proof.
  unfold printable_bool. rewrite andb_true_iff. intros [Hu Hf]. split; [done|]. apply Forall_forall. intros b Hb.
  apply N.leb_le. by apply (proj1 (forallb_forall _ _) Hf), list_elem_of_In.
Qed.

(** A line names the subject; everything else is fixed. *)
Definition line_nquads : NQuads :=
  {| parse_quad line := if printable_bool line
       then Some {| quad_subject := SubjectNamed line; quad_predicate := as_bytes "p";
                    quad_object := NamedNode (as_bytes "o"); quad_graph := DefaultGraph |}
       else None;
     show_quad quad := concat ((fun t => t ++ as_bytes " ") <$> term_texts quad);
     blank_label_ok _ := true |}.

Lemma line_nquads_laws : NQuadsLaws (H := line_nquads).
Proof.
  split.
  - intros line quad. cbn. destruct (printable_bool line) eqn:Hp; [|done]. intros [= <-]. cbn.
    repeat apply Forall_cons_2; try apply Forall_nil_2; apply printable_bool_spec; done.
  - intros quad Hq. unfold term_texts in *. cbn [show_quad line_nquads]. unfold term_texts.
    do 4 apply Forall_cons in Hq as [? Hq]. cbn [fmap list_fmap concat].
    repeat apply printable_app; try done; by apply printable_bool_spec.
  - done.
Qed.

Definition sample_scope : string := "object-00000000-0000000000000000000000000000000000000000000000000000000000000000".

Lemma blank_nodes_stay_apart_witness :
  (sample_scope = sample_scope /\ as_bytes "b0" = as_bytes "b0") \/
  collide (H := padded_digest) (scope_preimage sample_scope (as_bytes "b0")) (scope_preimage sample_scope (as_bytes "b0")).
Proof.
  apply (blank_nodes_stay_apart (H := padded_digest) sample_scope 0 (as_bytes "b0") sample_scope 0 (as_bytes "b0"));
    vm_compute; reflexivity.
Defined.

Definition zero_sha : string := "0000000000000000000000000000000000000000000000000000000000000000".

(** A handoff of one fragment of two lines. *)
Definition sample_fragment_file : list byte := concat (write_line <$> [as_bytes "y"; []; as_bytes "x"]).
Definition sample_fragment : DecodedFragment :=
  {| fragment_ordinal := 0; source_object_key := "k"; source_sha256 := zero_sha; fragment_blank_scope := sample_scope;
     object_key := "o"; fragment_sha256 := hex_encode (padded_sha256 sample_fragment_file);
     fragment_bytes := N.of_nat (length sample_fragment_file); fragment_quad_count := 2 |}.
Definition sample_handoff : CompilerHandoffManifest :=
  {| handoff_format_version := 1; tenant_id := []; dataset_id := []; operation_id := []; target_snapshot_id := [];
     source_manifest_object_key := "s"; source_manifest_sha256 := zero_sha; decode_plan_object_key := "d";
     decode_plan_sha256 := zero_sha; aggregate_source_sha256 := zero_sha; logical_partitions := 4;
     decoded_format := "application/n-quads"; blank_node_policy := "object-scoped-label-v1"; total_objects := 1;
     total_bytes := N.of_nat (length sample_fragment_file); total_quads := 2; expected_completions := 1;
     verified_completions := 1; completion_set_sha256 := zero_sha; fragments := [sample_fragment] |}.

(** One line in memory at a time, three threads. *)
Definition sample_limits : MapLimits :=
  {| max_fragment_bytes := 100; max_fragment_quads := 10; max_rows_in_memory := 1; max_run_bytes := 1000;
     worker_threads := 3 |}.

Definition line_quad (line : string) : Quad :=
  {| quad_subject := SubjectNamed (as_bytes line); quad_predicate := as_bytes "p";
     quad_object := NamedNode (as_bytes "o"); quad_graph := DefaultGraph |}.
Definition line_quads : list Quad := [line_quad "y"; line_quad "x"].

Lemma sample_mappable :
  mappable (H := padded_digest) (H0 := line_nquads) sample_handoff zero_sha 0 sample_fragment_file sample_limits
    sample_fragment line_quads.
Proof.
  split; try (vm_compute; reflexivity); try (vm_compute; split; (reflexivity || discriminate));
    try (repeat constructor; by vm_compute).
  intros p. unfold facts_of, line_quads. rewrite !filter_cons, filter_nil. do 2 case_decide; vm_compute; discriminate.
Qed.
