(* ===== verification/Dictionary.v ===== *)
(** * The dense RDF-term dictionary

    Models the dictionary barrier of
    src/crates/ngkg-semantic-compiler/src/lib.rs: [load_complete_maps], the
    all-map barrier, [finalize_dictionary] with [merge_terms_to_dictionary],
    which numbers the distinct terms in ascending order, [write_guid_dictionary],
    and [build_partition_dictionary], which joins the terms of one partition
    with the global dictionary by merging two sorted files.

    Manifests are passed as values: their JSON encoding is not modelled.
    [Uuid::new_v5] is a parameter. *)

From Stdlib Require Import Strings.Byte Strings.String.
From S2P Require Import Prelude Words Ordered Digest Text ExternalSort MapStage.

(** ** The map barrier *)

Definition map_identity_ok (handoff : CompilerHandoffManifest) (handoff_sha256 : string)
    (m : FragmentMapManifest) : bool :=
  (map_format_version m =? SEMANTIC_COMPILER_FORMAT_VERSION)%N
  && bool_decide (map_dataset_id m = dataset_id handoff)
  && bool_decide (map_snapshot_id m = target_snapshot_id handoff)
  && String.eqb (map_compiler_handoff_sha256 m) handoff_sha256
  && String.eqb (map_aggregate_source_sha256 m) (aggregate_source_sha256 handoff)
  && (map_logical_partitions m =? logical_partitions handoff)%N.

(** One manifest of the loop; the accepted ones by fragment ordinal. *)
Definition admit_map (handoff : CompilerHandoffManifest) (handoff_sha256 : string)
    (maps : gmap N FragmentMapManifest) (m : FragmentMapManifest) :
    result SemanticCompilerError (gmap N FragmentMapManifest) :=
  _ ← fail_if (negb (map_identity_ok handoff handoff_sha256 m)) (Contract "map manifest identity is invalid");
  fragment ← ok_or (f ← fragments handoff !! N.to_nat (map_fragment_ordinal m);
                    if (fragment_ordinal f =? map_fragment_ordinal m)%N then Some f else None)
               (Contract "map fragment is absent");
  _ ← fail_if (negb (String.eqb (map_fragment_sha256 m) (fragment_sha256 fragment))
               || negb (String.eqb (map_blank_node_scope m) (fragment_blank_scope fragment))
               || negb (input_quad_count m =? fragment_quad_count fragment)%N)
        (Contract "map manifest does not match verified fragment");
  match maps !! map_fragment_ordinal m with
  | Some _ => Err (Contract "duplicate map completion")
  | None => Ok (<[map_fragment_ordinal m := m]> maps)
  end.

(** The manifests in fragment order. *)
Definition load_complete_maps (handoff : CompilerHandoffManifest) (handoff_sha256 : string)
    (manifests : list FragmentMapManifest) : result SemanticCompilerError (list FragmentMapManifest) :=
  _ ← fail_if (negb (length manifests =? length (fragments handoff)))
        (Contract "map completion barrier is incomplete");
  maps ← try_fold (admit_map handoff handoff_sha256) ∅ manifests;
  _ ← fail_if (negb (bool_decide (dom maps = (list_to_set (N.of_nat <$> seq 0 (N.to_nat (total_objects handoff))) : gset N))))
        (Contract "map completions do not exactly cover fragments");
  Ok ((sorted_bindings maps).*2).

(** ** The global dictionary *)

(** [writeln!(writer, "{id}\t{}", line?)]. *)
Definition dictionary_row (id : N) (term : list byte) : list byte := decimal id ++ TAB :: term.

Definition number_term (acc : list byte * N) (raw : list byte) : result SemanticCompilerError (list byte * N) :=
  let '(writer, id) := acc in
  line ← line_text Io raw;
  id' ← ok_or (checked_add U64_LIMIT id 1) (Contract "dictionary ID overflow");
  Ok (writer ++ write_line (dictionary_row id line), id').

Definition U64_CEILING : N := U64_MAX.

Definition merge_terms_to_dictionary (inputs : list (list byte)) : result SemanticCompilerError (list byte * N) :=
  '(terms, _, _) ← hierarchical_merge_unique inputs U64_CEILING;
  try_fold number_term ([], 0%N) (lines terms).

(** The GUID dictionary lists the named and blank nodes. *)
Definition guid_row (new_v5 : list byte -> list byte -> list byte) (namespace : list byte)
    (acc : list byte * N) (raw : list byte) : result SemanticCompilerError (list byte * N) :=
  let '(writer, count) := acc in
  line ← line_text Io raw;
  '(dense_id, term) ← ok_or (split_once TAB line) (Contract "dictionary row lacks dense ID");
  match strip_prefix (as_bytes "N" ++ [TAB]) term, strip_prefix (as_bytes "B" ++ [TAB]) term with
  | None, None => Ok (writer, count)
  | _, _ =>
      count' ← compiler_checked_add count 1 "entity";
      Ok (writer ++ write_line (dense_id ++ TAB :: new_v5 namespace term ++ TAB :: term), count')
  end.

Definition write_guid_dictionary (new_v5 : list byte -> list byte -> list byte) (dictionary namespace : list byte) :
    result SemanticCompilerError (list byte * N) :=
  try_fold (guid_row new_v5 namespace) ([], 0%N) (lines dictionary).

Record DictionaryManifest := {
  dict_format_version : N;
  dict_dataset_id : list byte;
  dict_snapshot_id : list byte;
  dict_compiler_handoff_sha256 : string;
  map_completion_set_sha256 : string;
  dictionary_file : list byte;
  dictionary_sha256 : string;
  term_count : N;
  guid_dictionary_file : list byte;
  guid_dictionary_sha256 : string;
  entity_count : N;
  verified_map_completions : N;
}.

Section dictionary.
Context `{Sha256}.

(** The term runs of one manifest, each verified before use. *)
Definition verified_runs (runs : list RunArtifact) : result SemanticCompilerError (list (list byte)) :=
  try_map (fun run => _ ← verify_file (run_file run) (run_sha256 run) (Some (run_bytes run)); Ok (run_file run)) runs.

Definition finalize_dictionary (new_v5 : list byte -> list byte -> list byte) (manifest_sha256 : FragmentMapManifest -> list byte)
    (handoff : CompilerHandoffManifest) (handoff_sha256 : string) (manifests : list FragmentMapManifest) :
    result SemanticCompilerError DictionaryManifest :=
  _ ← validate_handoff handoff;
  _ ← require_sha256 handoff_sha256;
  maps ← load_complete_maps handoff handoff_sha256 manifests;
  let completion := as_bytes "ngkg-semantic-map-completion-set-v1" ++ [x00] ++
    concat ((fun m => to_be_bytes 4 (map_fragment_ordinal m) ++ manifest_sha256 m) <$> maps) in
  paths ← try_map (fun m => verified_runs (term_runs m)) maps;
  '(dictionary, count) ← merge_terms_to_dictionary (concat paths);
  '(guids, entities) ← write_guid_dictionary new_v5 dictionary (dataset_id handoff);
  Ok {| dict_format_version := SEMANTIC_COMPILER_FORMAT_VERSION; dict_dataset_id := dataset_id handoff;
        dict_snapshot_id := target_snapshot_id handoff; dict_compiler_handoff_sha256 := handoff_sha256;
        map_completion_set_sha256 := hex_encode (sha256 completion);
        dictionary_file := dictionary; dictionary_sha256 := hex_encode (sha256 dictionary); term_count := count;
        guid_dictionary_file := guids; guid_dictionary_sha256 := hex_encode (sha256 guids);
        entity_count := entities; verified_map_completions := total_objects handoff |}.
End dictionary.

(** ** The dictionary of one partition *)

(** The buffered terms of [quads], flushed whenever [rows] of them are there. *)
Definition collect_step (rows : nat) (acc : list (list byte) * list (list byte) * N) (quad : Quad) :
    result SemanticCompilerError (list (list byte) * list (list byte) * N) :=
  let '(buffer, runs, ordinal) := acc in
  let buffer := buffer ++ collect_dictionary_terms quad in
  if rows <=? length buffer then
    '(runs, ordinal) ← flush_run "partition term run overflow" buffer runs ordinal;
    Ok ([], runs, ordinal)
  else Ok (buffer, runs, ordinal).

(** The merge join: [target] is the next partition term, [targets] the rest. *)
Fixpoint join_dictionary (rows : list (list byte)) (expected : N) (target : list byte)
    (targets : list (list byte)) (local : gmap (list byte) N) :
    result SemanticCompilerError (gmap (list byte) N) :=
  match rows with
  | [] => Err (Contract "global dictionary ended before partition terms")
  | raw :: rows =>
      line ← line_text Io raw;
      '(id, term) ← ok_or (split_once TAB line) (Contract "dictionary row lacks ID");
      _ ← fail_if (negb (bool_decide (parse_u64 id = Some expected))) (Contract "global dictionary is not dense");
      expected' ← ok_or (checked_add U64_LIMIT expected 1) (Contract "dictionary ID overflow");
      _ ← fail_if (bool_decide (rlt target term)) (Contract "global dictionary is missing a partition term");
      if bool_decide (target = term) then
        let local := <[term := (expected' - 1)%N]> local in
        match targets with
        | [] => Ok local
        | next :: targets => next ← line_text Io next; join_dictionary rows expected' next targets local
        end
      else join_dictionary rows expected' target targets local
  end.

(** [quads] is the parsed canonical file. *)
Definition build_partition_dictionary (quads : list Quad) (global_dictionary : list byte) (rows_in_memory : nat) :
    result SemanticCompilerError (gmap (list byte) N) :=
  '(buffer, runs, ordinal) ← try_fold (collect_step rows_in_memory) ([], [], 0%N) quads;
  '(runs, _) ← flush_run "partition term run overflow" buffer runs ordinal;
  '(terms, _, _) ← hierarchical_merge_unique runs U64_CEILING;
  match lines terms with
  | [] => Ok ∅
  | target :: targets =>
      target ← line_text Io target;
      join_dictionary (lines global_dictionary) 0 target targets ∅
  end.

(** ** Rows *)

(** The rows of consecutive terms from [base]. *)
Definition numbered (base : N) (terms : list (list byte)) : list (list byte) :=
  imap (fun i t => dictionary_row (base + N.of_nat i) t) terms.

Lemma numbered_cons base t terms : numbered base (t :: terms) = dictionary_row base t :: numbered (base + 1) terms.
Proof.
  unfold numbered. rewrite imap_cons. f_equal; [f_equal; lia|]. apply imap_ext. intros i x _.
  change (dictionary_row (base + N.of_nat (S i)) x = dictionary_row (base + 1 + N.of_nat i) x). f_equal. lia.
Qed.

Lemma split_row id term : split_once TAB (dictionary_row id term) = Some (decimal id, term).
Proof. apply split_once_app. intros Hin%digits_plain. naive_solver. Qed.

Lemma row_good id term : good_text term -> good_text (dictionary_row id term).
Proof.
  intros [Hu [Hn Hl]]. unfold dictionary_row. split; [|split].
  - rewrite utf8_valid_app; [done|]. apply ascii_utf8, forallb_forall. intros b Hb%list_elem_of_In%digits_plain. tauto.
  - rewrite not_elem_of_app, not_elem_of_cons. split_and!; [|done|done]. intros Hin%digits_plain. naive_solver.
  - rewrite last_app. destruct term as [|b term]; [done|]. rewrite last_cons_cons. destruct (last (b :: term)) eqn:Hb; [done|].
    by apply last_None in Hb.
Qed.

Lemma numbered_good base terms : Forall good_text terms -> Forall good_text (numbered base terms).
Proof.
  intros Hg. revert base. induction Hg as [|t terms Ht _ IH]; intros base; [constructor|].
  rewrite numbered_cons. constructor; [by apply row_good|apply IH].
Qed.

Lemma good_line_text {E} (e : E) t : good_text t -> line_text e t = Ok t.
Proof. intros [Hu _]. unfold line_text. by rewrite Hu. Qed.

Lemma number_terms terms : forall w id,
  Forall good_text terms -> (id + N.of_nat (length terms) < U64_LIMIT)%N ->
  try_fold number_term (w, id) terms
  = Ok (w ++ concat (write_line <$> numbered id terms), (id + N.of_nat (length terms))%N).
Proof.
  induction terms as [|t terms IH]; intros w id Hg Hid.
  { cbn. rewrite app_nil_r. do 2 f_equal. lia. }
  apply Forall_cons in Hg as [Ht Hg]. cbn [try_fold length] in *. rewrite numbered_cons.
  assert (number_term (w, id) t = Ok (w ++ write_line (dictionary_row id t), (id + 1)%N)) as ->.
  { unfold number_term. rewrite good_line_text by done. cbn [mbind result_bind].
    by rewrite (proj2 (checked_add_some U64_LIMIT id 1 (id + 1)%N)) by (split; [done|lia]). }
  cbn [mbind result_bind]. rewrite IH by (try done; lia). cbn [fmap list_fmap concat].
  rewrite <- (assoc (++)). do 2 f_equal. lia.
Qed.

(** The runs of a barrier: good, and few enough to number. *)
Definition countable_runs (inputs : list (list byte)) : Prop :=
  Forall good_run inputs /\ (N.of_nat (length inputs) < U32_LIMIT)%N /\ (N.of_nat (length (run_lines inputs)) < U64_LIMIT)%N.

Lemma distinct_good inputs : Forall good_run inputs -> Forall good_text (distinct_lines inputs).
Proof.
  intros Hg. apply Forall_forall. intros l (b & Hb & Hl)%elem_of_distinct_lines%elem_of_run_lines.
  rewrite Forall_forall in Hg. destruct (Hg b Hb) as [_ Hf]. rewrite Forall_forall in Hf. by apply Hf.
Qed.

Lemma merge_unbounded inputs :
  countable_runs inputs ->
  exists dups, hierarchical_merge_unique inputs U64_CEILING
  = Ok (merged inputs, N.of_nat (length (distinct_lines inputs)), dups).
Proof.
  intros (Hg & Hi & Hl). rewrite hierarchical_merge_spec by done. pose proof (distinct_lines_bound inputs).
  rewrite (proj2 (N.ltb_ge _ _)); [by eexists|]. unfold U64_CEILING, U64_MAX. lia.
Qed.

Lemma dictionary_spec inputs :
  countable_runs inputs ->
  merge_terms_to_dictionary inputs
  = Ok (concat (write_line <$> numbered 0 (distinct_lines inputs)), N.of_nat (length (distinct_lines inputs))).
Proof.
  intros Hc. unfold merge_terms_to_dictionary. destruct (merge_unbounded inputs Hc) as [d ->]. cbn [mbind result_bind].
  destruct Hc as (Hg & Hi & Hl). rewrite lines_merged by done. pose proof (distinct_lines_bound inputs).
  apply number_terms; [by apply distinct_good|lia].
Qed.

Lemma lines_dictionary terms : Forall good_text terms -> lines (concat (write_line <$> numbered 0 terms)) = numbered 0 terms.
Proof. intros Hg. by apply write_lines_good, numbered_good. Qed.

(** ** The merge join *)

Lemma join_dictionary_spec terms : forall base target targets local,
  StronglySorted rlt terms -> Forall good_text terms -> (base + N.of_nat (length terms) < U64_LIMIT)%N ->
  StronglySorted rlt (target :: targets) -> Forall good_text targets ->
  ((forall t, t ∈ target :: targets -> t ∈ terms) ->
     exists m, join_dictionary (numbered base terms) base target targets local = Ok m /\
       (forall t i, t ∈ target :: targets -> terms !! i = Some t -> m !! t = Some (base + N.of_nat i)%N) /\
       (forall t, t ∉ target :: targets -> m !! t = local !! t)) /\
  (~ (forall t, t ∈ target :: targets -> t ∈ terms) ->
     exists e, join_dictionary (numbered base terms) base target targets local = Err e).
Proof.
  induction terms as [|x terms IH]; intros base target targets local Hs Hg Hb Hts Htg.
  { split; [intros Hin; exfalso; specialize (Hin target); set_solver|]. intros _. cbn. by eexists. }
  apply StronglySorted_inv in Hs as [Hs Hx]. apply Forall_cons in Hg as [Hgx Hg]. cbn [length] in Hb.
  rewrite Forall_forall in Hx. rewrite numbered_cons. cbn [join_dictionary].
  rewrite good_line_text by (by apply row_good). cbn [mbind result_bind]. rewrite split_row. cbn [ok_or mbind result_bind].
  rewrite parse_u64_decimal by lia. rewrite (bool_decide_eq_true_2 (Some base = Some base)) by done. cbn [negb fail_if mbind result_bind].
  rewrite (proj2 (checked_add_some U64_LIMIT base 1 (base + 1)%N)) by (split; [done|lia]). cbn [ok_or mbind result_bind].
  destruct (bool_decide (rlt target x)) eqn:Hlt; bool_prop; cbn [fail_if mbind result_bind].
  { split; [|by eexists]. intros Hin. exfalso.
    assert (target ∈ x :: terms) as [->|Ht]%elem_of_cons by (apply Hin; left).
    - by apply rlt_irrefl in Hlt.
    - apply (rlt_irrefl target). transitivity x; [done|]. by apply Hx. }
  pose proof (StronglySorted_inv Hts) as [Hts' Hlow]. rewrite Forall_forall in Hlow.
  destruct (bool_decide (target = x)) eqn:Heq; bool_prop.
  - subst x. destruct targets as [|next targets].
    + split; [|intros Hn; destruct Hn; set_solver]. intros _. eexists. split; [done|]. split.
      * intros t i ->%list_elem_of_singleton Hi. rewrite lookup_insert_eq. f_equal.
        destruct i as [|i]; [lia|]. exfalso. apply (rlt_irrefl target). apply Hx. by eapply list_elem_of_lookup_2.
      * intros t Ht. rewrite lookup_insert_ne; set_solver.
    + apply Forall_cons in Htg as [Hgn Htg]. rewrite good_line_text by done. cbn [mbind result_bind].
      destruct (IH (base + 1)%N next targets (<[target := (base + 1 - 1)%N]> local)) as [Hok Herr]; try done; [lia|].
      assert (forall t, t ∈ next :: targets -> t ∈ target :: terms -> t ∈ terms) as Hdown.
      { intros t Ht%Hlow [->|?]%elem_of_cons; [by apply rlt_irrefl in Ht|done]. }
      split.
      * intros Hin. destruct Hok as (m & -> & Hm & Hkeep); [intros t Ht; apply Hdown; [done|]; apply Hin; by right|].
        exists m. split; [done|]. split.
        -- intros t i [->|Ht]%elem_of_cons Hi.
           ++ rewrite Hkeep; [|intros Hin'%Hlow; by apply rlt_irrefl in Hin']. rewrite lookup_insert_eq. f_equal.
              destruct i as [|i]; [lia|]. exfalso. apply (rlt_irrefl target). apply Hx. by eapply list_elem_of_lookup_2.
           ++ destruct i as [|i].
              { injection Hi as <-. apply Hlow in Ht. by apply rlt_irrefl in Ht. }
              rewrite (Hm t i Ht Hi). f_equal. lia.
        -- intros t Ht. rewrite Hkeep by set_solver. rewrite lookup_insert_ne; set_solver.
      * intros Hn. apply Herr. intros Hin. apply Hn. intros t [->|Ht]%elem_of_cons; [left|right; by apply Hin].
  - destruct (IH (base + 1)%N target targets local) as [Hok Herr]; try done; [lia|].
    assert (rlt x target) as Hxt.
    { apply not_rle. intros [?|?]%rle_lt_eq; congruence. }
    assert (forall t, t ∈ target :: targets -> t <> x) as Hnx.
    { intros t [->|Ht%Hlow]%elem_of_cons ->; [done|]. apply (rlt_irrefl x). by transitivity target. }
    split.
    + intros Hin. destruct Hok as (m & -> & Hm & Hkeep).
      { intros t Ht. specialize (Hin t Ht). specialize (Hnx t Ht). set_solver. }
      exists m. split; [done|]. split; [|done]. intros t [|i] Ht Hi.
      * injection Hi as ->. by apply Hnx in Ht.
      * rewrite (Hm t i Ht Hi). f_equal. lia.
    + intros Hn. apply Herr. intros Hin. apply Hn. intros t Ht. right. by apply Hin.
Qed.

(** ** Buffering with spills *)

(** [texts] went through a buffer that is flushed to runs: nothing is lost. *)
Record buffered (texts buffer runs : list (list byte)) (ordinal : N) : Prop := {
  bf_good : Forall good_run runs;
  bf_buffer : Forall good_text buffer;
  bf_lines : forall l, l ∈ texts <-> l ∈ buffer \/ l ∈ run_lines runs;
  bf_size : length (run_lines runs) + length buffer <= length texts;
  bf_ordinal : N.of_nat (length runs) = ordinal;
}.

Lemma buffered_nil : buffered [] [] [] 0.
Proof. split; try done. intros l. set_solver. Qed.

Lemma buffered_push texts buffer runs ordinal new :
  buffered texts buffer runs ordinal -> Forall good_text new -> buffered (texts ++ new) (buffer ++ new) runs ordinal.
Proof.
  intros [Hg Hb Hl Hs Ho] Hn. split; try done.
  - by apply Forall_app.
  - intros l. rewrite !elem_of_app, Hl. tauto.
  - rewrite !length_app. lia.
Qed.

Lemma flushed_run buffer :
  Forall good_text buffer ->
  good_run (sorted_run buffer) /\ (forall l, l ∈ lines (sorted_run buffer) <-> l ∈ buffer) /\
  length (lines (sorted_run buffer)) <= length buffer.
Proof.
  intros Hg. assert (Forall good_text (sorted_elements (list_to_set buffer : gset (list byte)))) as Hs.
  { apply Forall_forall. intros t. rewrite elem_of_sorted_elements, elem_of_list_to_set. by apply Forall_forall. }
  unfold good_run. rewrite sorted_run_terms, write_lines_good by done. split_and!.
  - apply strict_weak, sorted_elements_strict.
  - done.
  - intros l. by rewrite elem_of_sorted_elements, elem_of_list_to_set.
  - rewrite length_sorted_elements. apply size_list_to_set_bound.
Qed.

Lemma flush_run_spec what texts buffer runs ordinal :
  buffered texts buffer runs ordinal -> (ordinal + 1 < U32_LIMIT)%N ->
  exists runs' ordinal', flush_run what buffer runs ordinal = Ok (runs', ordinal') /\
    buffered texts [] runs' ordinal' /\ (ordinal' <= ordinal + 1)%N.
Proof.
  intros [Hg Hb Hl Hs Ho] Hord. unfold flush_run. case_bool_decide as He.
  { exists runs, ordinal. subst buffer. split; [done|]. split; [by split|lia]. }
  rewrite (proj2 (checked_add_some U32_LIMIT ordinal 1 (ordinal + 1)%N)) by (split; [done|lia]).
  cbn [ok_or mbind result_bind]. eexists _, _. split; [done|]. split; [|lia].
  destruct (flushed_run buffer Hb) as (Hg' & Hl' & Hs').
  assert (run_lines (runs ++ [sorted_run buffer]) = run_lines runs ++ lines (sorted_run buffer)) as Hrl.
  { rewrite run_lines_app. unfold run_lines at 2. cbn. by rewrite app_nil_r. }
  split.
  - apply Forall_app. split; [done|]. by constructor.
  - constructor.
  - intros l. rewrite Hl, Hrl, elem_of_app, Hl'. set_solver.
  - rewrite Hrl, length_app. cbn [length]. lia.
  - rewrite length_app. cbn [length]. lia.
Qed.

(** The runs of a finished buffer can be merged. *)
Lemma buffered_countable texts runs ordinal :
  buffered texts [] runs ordinal -> (ordinal < U32_LIMIT)%N -> (N.of_nat (length texts) < U64_LIMIT)%N ->
  countable_runs runs /\ distinct_lines runs = sorted_elements (list_to_set texts : gset (list byte)).
Proof.
  intros [Hg _ Hl Hs Ho] Hord Ht. cbn [length] in Hs. split; [split_and!; [done|lia|lia]|].
  unfold distinct_lines. f_equal. apply leibniz_equiv. intros l. rewrite !elem_of_list_to_set, Hl. set_solver.
Qed.

Lemma collect_spec rows quads : forall texts buffer runs ordinal,
  buffered texts buffer runs ordinal -> Forall (fun q => Forall good_text (collect_dictionary_terms q)) quads ->
  (ordinal + N.of_nat (length quads) + 1 < U32_LIMIT)%N ->
  exists buffer' runs' ordinal', try_fold (collect_step rows) (buffer, runs, ordinal) quads = Ok (buffer', runs', ordinal') /\
    buffered (texts ++ terms_of quads) buffer' runs' ordinal' /\ (ordinal' <= ordinal + N.of_nat (length quads))%N.
Proof.
  induction quads as [|q quads IH]; intros texts buffer runs ordinal Hb Hg Ho.
  { exists buffer, runs, ordinal. cbn. rewrite app_nil_r. split_and!; [done|done|lia]. }
  apply Forall_cons in Hg as [Hq Hg]. cbn [try_fold length] in *.
  pose proof (buffered_push _ _ _ _ _ Hb Hq) as Hp.
  change (terms_of (q :: quads)) with (collect_dictionary_terms q ++ terms_of quads). rewrite app_assoc.
  cbn [collect_step]. destruct (rows <=? _).
  - destruct (flush_run_spec "partition term run overflow" _ _ _ _ Hp) as (r1 & o1 & -> & Hb1 & Ho1); [lia|].
    cbn [mbind result_bind]. destruct (IH _ [] r1 o1 Hb1 Hg) as (b' & r' & o' & -> & Hb' & Ho'); [lia|].
    exists b', r', o'. split_and!; [done|done|lia].
  - cbn [mbind result_bind]. destruct (IH _ _ runs ordinal Hp Hg) as (b' & r' & o' & -> & Hb' & Ho'); [lia|].
    exists b', r', o'. split_and!; [done|done|lia].
Qed.

(** The partition's terms, sorted and distinct, whatever the buffer size. *)
Lemma partition_terms quads rows :
  Forall (fun q => Forall good_text (collect_dictionary_terms q)) quads -> (N.of_nat (length quads) + 2 < U32_LIMIT)%N ->
  exists buffer runs ordinal runs' ordinal' dups n,
    try_fold (collect_step rows) ([], [], 0%N) quads = Ok (buffer, runs, ordinal) /\
    flush_run "partition term run overflow" buffer runs ordinal = Ok (runs', ordinal') /\
    hierarchical_merge_unique runs' U64_CEILING = Ok (merged runs', n, dups) /\
    lines (merged runs') = sorted_elements (list_to_set (terms_of quads) : gset (list byte)).
Proof.
  intros Hg Hn. destruct (collect_spec rows quads [] [] [] 0 buffered_nil Hg) as (b & r & o & Hc & Hb & Ho); [lia|].
  destruct (flush_run_spec "partition term run overflow" _ _ _ _ Hb) as (r' & o' & Hf & Hb' & Ho'); [lia|].
  cbn [app] in Hb'.
  pose proof (terms_of_length quads) as Hl.
  assert (4 * U32_LIMIT < U64_LIMIT)%N by (vm_compute; done).
  destruct (buffered_countable _ _ _ Hb') as [Hcr Hd]; [lia..|].
  destruct (merge_unbounded r' Hcr) as [d Hm]. exists b, r, o, r', o', d. eexists. split_and!; try done.
  rewrite lines_merged by apply Hcr. done.
Qed.

(** The file the barrier writes for [terms]. *)
Definition dictionary_of (terms : list (list byte)) : list byte := concat (write_line <$> numbered 0 terms).

Lemma partition_dictionary_spec quads terms rows :
  Forall (fun q => Forall good_text (collect_dictionary_terms q)) quads -> (N.of_nat (length quads) + 2 < U32_LIMIT)%N ->
  StronglySorted rlt terms -> Forall good_text terms -> (N.of_nat (length terms) < U64_LIMIT)%N ->
  ((forall t, t ∈ terms_of quads -> t ∈ terms) ->
     exists m, build_partition_dictionary quads (dictionary_of terms) rows = Ok m /\
       forall t i, m !! t = Some i <-> t ∈ terms_of quads /\ terms !! N.to_nat i = Some t) /\
  (~ (forall t, t ∈ terms_of quads -> t ∈ terms) ->
     exists e, build_partition_dictionary quads (dictionary_of terms) rows = Err e).
Proof.
  intros Hg Hn Hs Hgt Hlen. unfold build_partition_dictionary.
  destruct (partition_terms quads rows Hg Hn) as (b & r & o & r' & o' & d & n & -> & Hf & Hm & Hl).
  cbn [mbind result_bind]. rewrite Hf. cbn [mbind result_bind]. rewrite Hm. cbn [mbind result_bind]. rewrite Hl.
  assert (forall t, t ∈ sorted_elements (list_to_set (terms_of quads) : gset (list byte)) <-> t ∈ terms_of quads) as Hel.
  { intros t. by rewrite elem_of_sorted_elements, elem_of_list_to_set. }
  pose proof (sorted_elements_strict (list_to_set (terms_of quads) : gset (list byte))) as Hst.
  destruct (sorted_elements _) as [|target targets].
  { split; [intros _|intros Hc; destruct Hc; intros t Ht%Hel; set_solver]. eexists. split; [done|].
    intros t i. rewrite lookup_empty, <- Hel. set_solver. }
  assert (Forall good_text (target :: targets)) as [Hgt1 Hgt2]%Forall_cons.
  { apply Forall_forall. intros t (q & Ht & Hq)%Hel%list_elem_of_bind. rewrite Forall_forall in Hg.
    specialize (Hg q Hq). rewrite Forall_forall in Hg. by apply Hg. }
  rewrite good_line_text by done. cbn [mbind result_bind]. unfold dictionary_of. rewrite lines_dictionary by done.
  destruct (join_dictionary_spec terms 0 target targets ∅) as [Hok Herr]; try done.
  split; setoid_rewrite <- Hel; [|done]. intros Hin. destruct (Hok Hin) as (m & -> & Hm1 & Hm2). exists m. split; [done|].
  intros t i. split.
  - intros Hi. destruct (decide (t ∈ target :: targets)) as [Ht|Ht]; [|by rewrite Hm2 in Hi].
    split; [done|]. destruct (proj1 (list_elem_of_lookup _ _) (Hin t Ht)) as [j Hj].
    rewrite (Hm1 t j Ht Hj) in Hi. injection Hi as <-. by rewrite N.add_0_l, Nat2N.id.
  - intros [Ht Hi]. rewrite (Hm1 t _ Ht Hi). f_equal. lia.
Qed.

(** ** The map barrier *)

(** The ordinals [0..n]. *)
Lemma ordinals_strict k n : StronglySorted rlt (N.of_nat <$> seq k n).
Proof.
  revert k. induction n as [|n IH]; intros k; cbn; constructor; [done|].
  apply Forall_fmap, Forall_forall. intros j Hj%elem_of_seq. cbn. apply N.compare_lt_iff. lia.
Qed.

Lemma elem_of_ordinals (n o : N) : o ∈ N.of_nat <$> seq 0 (N.to_nat n) <-> (o < n)%N.
Proof.
  rewrite list_elem_of_fmap. setoid_rewrite elem_of_seq. split.
  - intros (i & -> & ?). lia.
  - intros ?. exists (N.to_nat o). lia.
Qed.

Section barrier.
Context (handoff : CompilerHandoffManifest) (sha : string).

(** A manifest the barrier takes for its fragment. *)
Definition admissible (m : FragmentMapManifest) : Prop :=
  map_identity_ok handoff sha m = true /\
  exists f, fragments handoff !! N.to_nat (map_fragment_ordinal m) = Some f /\
    fragment_ordinal f = map_fragment_ordinal m /\ map_fragment_sha256 m = fragment_sha256 f /\
    map_blank_node_scope m = fragment_blank_scope f /\ input_quad_count m = fragment_quad_count f.

Lemma admit_map_ok maps m out :
  admit_map handoff sha maps m = Ok out <->
  admissible m /\ maps !! map_fragment_ordinal m = None /\ out = <[map_fragment_ordinal m := m]> maps.
Proof using Type.
  unfold admit_map, admissible. split.
  - intros Ha. inv_ok Ha. inv_ok Ha0. inv_ok Ha. inv_ok Ha1. inv_ok Ha. inv_ok Ha2. bool_prop.
    destruct (fragments handoff !! _) as [f|] eqn:Hf; [|done]. cbn [mbind option_bind] in Ha1.
    destruct (fragment_ordinal f =? map_fragment_ordinal m)%N eqn:Hord; [|done]. injection Ha1 as <-. bool_prop.
    destruct (maps !! map_fragment_ordinal m) eqn:Hm; [done|]. injection Ha as <-. split_and!; try done.
    exists f. repeat split; try done; by apply String.eqb_eq.
  - intros ((Hid & f & Hf & Hord & Hs & Hb & Hq) & Hn & ->). rewrite Hid. cbn [negb fail_if mbind result_bind].
    rewrite Hf. cbn [mbind option_bind]. rewrite Hord, N.eqb_refl. cbn [ok_or mbind result_bind].
    rewrite Hs, Hb, Hq, !String.eqb_refl, N.eqb_refl. cbn [negb orb fail_if mbind result_bind]. by rewrite Hn.
Qed.

Definition by_ordinal (ms : list FragmentMapManifest) : list (N * FragmentMapManifest) :=
  (fun m => (map_fragment_ordinal m, m)) <$> ms.

Lemma admit_maps_ok ms : forall maps out,
  try_fold (admit_map handoff sha) maps ms = Ok out <->
  Forall admissible ms /\ NoDup (map_fragment_ordinal <$> ms) /\
  (forall m, m ∈ ms -> maps !! map_fragment_ordinal m = None) /\ out = list_to_map (by_ordinal ms) ∪ maps.
Proof using Type.
  induction ms as [|m ms IH]; intros maps out; cbn [try_fold].
  { assert (list_to_map (by_ordinal []) ∪ maps = maps) as -> by apply (left_id_L ∅ (∪)).
    split; [intros [= <-]; split_and!; [constructor|constructor|set_solver|done]|]. by intros (_ & _ & _ & ->). }
  rewrite result_bind_ok.
  change (list_to_map (by_ordinal (m :: ms))) with (<[map_fragment_ordinal m := m]> (list_to_map (by_ordinal ms) : gmap N FragmentMapManifest)).
  cbn [fmap list_fmap]. split.
  - intros (maps1 & (Ha & Hn & ->)%admit_map_ok & (Hf & Hnd & Hnone & ->)%IH).
    assert (map_fragment_ordinal m ∉ map_fragment_ordinal <$> ms) as Hm.
    { intros (m' & He & Hin)%list_elem_of_fmap. specialize (Hnone m' Hin). rewrite <- He, lookup_insert_eq in Hnone. done. }
    split_and!; [by constructor|by constructor| |].
    + intros m' [->|Hin]%elem_of_cons; [done|]. specialize (Hnone m' Hin).
      rewrite lookup_insert_ne in Hnone; [done|]. intros He. by rewrite He, lookup_insert_eq in Hnone.
    + rewrite <- insert_union_r; [by rewrite insert_union_l|].
      apply not_elem_of_list_to_map. unfold by_ordinal. rewrite <- list_fmap_compose. exact Hm.
  - intros ([Ha Hf]%Forall_cons & [Hm Hnd]%NoDup_cons & Hnone & ->).
    exists (<[map_fragment_ordinal m := m]> maps). split; [apply admit_map_ok; split_and!; [done|apply Hnone; left|done]|].
    apply IH. split_and!; [done|done| |].
    + intros m' Hin. rewrite lookup_insert_ne; [apply Hnone; by right|]. intros He. apply Hm. rewrite He.
      by apply list_elem_of_fmap_2.
    + rewrite <- insert_union_r; [by rewrite insert_union_l|].
      apply not_elem_of_list_to_map. unfold by_ordinal. rewrite <- list_fmap_compose. exact Hm.
Qed.

Lemma load_complete_maps_ok ms out :
  load_complete_maps handoff sha ms = Ok out <->
  length ms = length (fragments handoff) /\ Forall admissible ms /\ NoDup (map_fragment_ordinal <$> ms) /\
  (forall o, o ∈ map_fragment_ordinal <$> ms <-> (o < total_objects handoff)%N) /\
  out = (sorted_bindings (list_to_map (by_ordinal ms) : gmap N FragmentMapManifest)).*2.
Proof using Type.
  assert (forall o, o ∈ dom (list_to_map (by_ordinal ms) : gmap N FragmentMapManifest) <-> o ∈ map_fragment_ordinal <$> ms) as Hdom.
  { intros o. rewrite dom_list_to_map_L, elem_of_list_to_set. unfold by_ordinal. by rewrite <- list_fmap_compose. }
  assert (forall o, o ∈ (list_to_set (N.of_nat <$> seq 0 (N.to_nat (total_objects handoff))) : gset N)
                    <-> (o < total_objects handoff)%N) as Hseq.
  { intros o. by rewrite elem_of_list_to_set, elem_of_ordinals. }
  unfold load_complete_maps. split.
  - intros Hl. do 3 inv_ok Hl. inv_ok Ha. inv_ok Ha1. bool_prop. injection Hl as <-.
    apply admit_maps_ok in Ha0 as (Hf & Hnd & _ & ->). rewrite (right_id_L ∅ (∪)) in *.
    split_and!; [done|done|done| |done]. intros o. rewrite <- Hdom, <- Hseq. by rewrite Ha1.
  - intros (Hlen & Hf & Hnd & Ho & ->). rewrite Hlen, Nat.eqb_refl. cbn [negb fail_if mbind result_bind].
    rewrite (proj2 (admit_maps_ok ms ∅ (list_to_map (by_ordinal ms)))).
    + cbn [mbind result_bind]. rewrite bool_decide_eq_true_2; [done|]. apply leibniz_equiv. intros o.
      by rewrite Hdom, Hseq, Ho.
    + rewrite (right_id_L ∅ (∪)). split_and!; try done.
Qed.
End barrier.

(** C34: the dictionary is dense and ordered.  From any sorted term runs the
    barrier numbers exactly the distinct terms: row [i] of the file carries the
    number [i] and the [i]-th term in ascending order, so a term has one
    identifier, an identifier one term, and comparing identifiers compares
    terms.  The reported count is the number of rows. *)
Theorem dictionary_is_dense_and_ordered inputs :
  countable_runs inputs ->
  exists file count terms, merge_terms_to_dictionary inputs = Ok (file, count) /\
    StronglySorted rlt terms /\ (forall t, t ∈ terms <-> t ∈ run_lines inputs) /\
    count = N.of_nat (length terms) /\ length (lines file) = length terms /\
    forall i t, terms !! i = Some t ->
      exists row id, lines file !! i = Some row /\ split_once TAB row = Some (id, t) /\ parse_u64 id = Some (N.of_nat i).
Proof.
  intros Hc. eexists _, _, (distinct_lines inputs). rewrite dictionary_spec by done. split; [done|].
  destruct Hc as (Hg & _ & Hl). rewrite lines_dictionary by (by apply distinct_good). pose proof (distinct_lines_bound inputs).
  split_and!; [apply sorted_elements_strict|apply elem_of_distinct_lines|done|apply length_imap|].
  intros i t Ht. eexists _, _. unfold numbered. rewrite list_lookup_imap, Ht. split; [done|]. split; [apply split_row|].
  rewrite N.add_0_l. apply parse_u64_decimal. apply lookup_lt_Some in Ht. lia.
Qed.

(** a partition dictionary is the restriction of the global one.  Joining
    the partition's terms with the global file succeeds exactly when the global
    dictionary has all of them, and then maps each term of the partition, and
    nothing else, to its global identifier.  The number of terms buffered in
    memory does not matter. *)
Theorem partition_dictionary_is_restriction quads inputs file count rows :
  countable_runs inputs -> merge_terms_to_dictionary inputs = Ok (file, count) ->
  Forall (fun q => Forall good_text (collect_dictionary_terms q)) quads -> (N.of_nat (length quads) + 2 < U32_LIMIT)%N ->
  if bool_decide (Forall (fun t => t ∈ run_lines inputs) (terms_of quads)) then
    exists local, build_partition_dictionary quads file rows = Ok local /\
      forall t id, local !! t = Some id <->
        t ∈ terms_of quads /\ lines file !! N.to_nat id = Some (dictionary_row id t)
  else exists e, build_partition_dictionary quads file rows = Err e.
Proof.
  intros Hc Hm Hg Hn. rewrite dictionary_spec in Hm by done. injection Hm as <- <-.
  destruct Hc as (Hgr & _ & Hl). pose proof (distinct_good _ Hgr) as Hgd. pose proof (distinct_lines_bound inputs).
  destruct (partition_dictionary_spec quads (distinct_lines inputs) rows) as [Hok Herr]; try done.
  { apply sorted_elements_strict. }
  { lia. }
  rewrite lines_dictionary by done. unfold dictionary_of in *. setoid_rewrite elem_of_distinct_lines in Hok.
  setoid_rewrite elem_of_distinct_lines in Herr. case_bool_decide as Hall; rewrite Forall_forall in Hall.
  - destruct (Hok Hall) as (m & -> & Hm). exists m. split; [done|]. intros t id. rewrite Hm.
    unfold numbered. rewrite list_lookup_imap, fmap_Some. setoid_rewrite N2Nat.id. split.
    + intros [? Ht]. split; [done|]. by exists t.
    + intros [? (t' & Ht & He)]. split; [done|]. 
      unfold dictionary_row in He.
      by apply app_inj_1 in He as [_ [= ->]].
  - by apply Herr.
Qed.

(** the map barrier accepts exactly the complete sets.  It returns the
    manifests in fragment order, one for each ordinal below the number of
    objects and each matching its verified fragment; the order in which the
    workers' manifests arrive makes no difference, and a missing, duplicate or
    foreign manifest is refused. *)
Theorem map_barrier_is_exact handoff sha manifests out :
  load_complete_maps handoff sha manifests = Ok out ->
  out ≡ₚ manifests /\ map_fragment_ordinal <$> out = N.of_nat <$> seq 0 (N.to_nat (total_objects handoff)) /\
  Forall (admissible handoff sha) out /\
  forall manifests', manifests' ≡ₚ manifests -> load_complete_maps handoff sha manifests' = Ok out.
Proof.
  intros (Hlen & Hf & Hnd & Ho & ->)%load_complete_maps_ok.
  assert (NoDup (by_ordinal manifests).*1) as Hnd' by (unfold by_ordinal; by rewrite <- list_fmap_compose).
  set (M := list_to_map (by_ordinal manifests) : gmap N FragmentMapManifest).
  assert ((sorted_bindings M).*2 ≡ₚ manifests) as Hp.
  { rewrite sorted_bindings_perm. unfold M. rewrite map_to_list_to_map by done. unfold by_ordinal.
    rewrite <- list_fmap_compose. by rewrite list_fmap_id. }
  split_and!.
  - done.
  - apply strictly_sorted_unique.
    + assert (map_fragment_ordinal <$> (sorted_bindings M).*2 = (sorted_bindings M).*1) as ->; [|apply sorted_bindings_keys].
      rewrite <- list_fmap_compose. apply list_fmap_ext. intros i [o m] Hi%list_elem_of_lookup_2%elem_of_sorted_bindings.
      unfold M in Hi. apply elem_of_list_to_map in Hi; [|done]. unfold by_ordinal in Hi.
      by apply list_elem_of_fmap in Hi as (m' & [= -> ->] & _).
    + apply ordinals_strict.
    + intros o. by rewrite Hp, Ho, elem_of_ordinals.
  - by rewrite Hp.
  - intros ms' Hp'. apply load_complete_maps_ok.
    assert (map_fragment_ordinal <$> ms' ≡ₚ map_fragment_ordinal <$> manifests) as Ho' by (by apply fmap_Permutation).
    split_and!.
    + rewrite (Permutation_length Hp'). done.
    + rewrite Forall_forall in *. intros m Hm. apply Hf. by rewrite <- Hp'.
    + by rewrite Ho'.
    + intros o. by rewrite Ho', Ho.
    + f_equal. f_equal. symmetry. unfold M. apply list_to_map_proper; [|by apply fmap_Permutation].
      unfold by_ordinal. rewrite <- list_fmap_compose. change (NoDup (map_fragment_ordinal <$> ms')). by rewrite Ho'.
Qed.

(** ** Witnesses *)

Lemma sample_countable : countable_runs sample_inputs.
Proof. split_and!; [apply sample_inputs_good|by vm_compute|by vm_compute]. Qed.

Lemma dictionary_is_dense_and_ordered_witness :
  exists file count, merge_terms_to_dictionary sample_inputs = Ok (file, count) /\ count = 3%N /\ length (lines file) = 3.
Proof.
  destruct (dictionary_is_dense_and_ordered sample_inputs sample_countable) as (file & count & terms & Hm & _ & _ & Hc & Hl & _).
  assert (count = 3%N) as H3.
  { assert (merge_terms_to_dictionary sample_inputs = Ok (file, count)) as He by exact Hm.
    vm_compute in He. injection He as _ <-. reflexivity. }
  exists file, count. split; [exact Hm|]. split; [exact H3|]. rewrite Hl. rewrite Hc in H3. lia.
Defined.

Definition line_runs : list (list byte) := [sorted_run (terms_of line_quads)].

Lemma line_terms_good : Forall (fun q => Forall good_text (collect_dictionary_terms q)) line_quads.
Proof.
  repeat constructor; try (vm_compute; (reflexivity || discriminate));
    intros Hin; vm_compute in Hin; repeat (apply elem_of_cons in Hin as [Hin|Hin]; [discriminate Hin|]); by apply elem_of_nil in Hin.
Qed.

Lemma line_runs_countable : countable_runs line_runs.
Proof.
  split_and!; [|by vm_compute|by vm_compute]. constructor; [|constructor]. apply flushed_run.
  apply Forall_bind. apply line_terms_good.
Qed.

Lemma partition_dictionary_is_restriction_witness :
  exists file count local, merge_terms_to_dictionary line_runs = Ok (file, count) /\
    build_partition_dictionary line_quads file 3 = Ok local /\ local !! named_key (as_bytes "x") = Some 3%N.
Proof.
  destruct (merge_terms_to_dictionary line_runs) as [[file count]|e] eqn:Hm; [|exfalso; vm_compute in Hm; discriminate Hm].
  pose proof (partition_dictionary_is_restriction line_quads line_runs file count 3 line_runs_countable Hm line_terms_good
    ltac:(vm_compute; reflexivity)) as Hr.
  assert (bool_decide (Forall (fun t => t ∈ run_lines line_runs) (terms_of line_quads)) = true) as Hb by (vm_compute; reflexivity).
  rewrite Hb in Hr. destruct Hr as (local & Hl & Hloc). exists file, count, local. split; [reflexivity|]. split; [exact Hl|].
  apply Hloc. vm_compute in Hm. injection Hm as <- <-. split; [|vm_compute; reflexivity].
  apply (bool_decide_eq_true_1 _). vm_compute. reflexivity.
Defined.

Definition sample_manifest : FragmentMapManifest :=
  {| map_format_version := 1; map_dataset_id := []; map_snapshot_id := []; map_compiler_handoff_sha256 := zero_sha;
     map_aggregate_source_sha256 := zero_sha; map_fragment_ordinal := 0;
     map_fragment_sha256 := fragment_sha256 sample_fragment; map_blank_node_scope := sample_scope;
     map_logical_partitions := 4; input_quad_count := 2; unique_quad_count := 2; fact_runs := ∅; term_runs := [] |}.

Lemma map_barrier_is_exact_witness :
  load_complete_maps sample_handoff zero_sha [sample_manifest] = Ok [sample_manifest] /\
  [sample_manifest] ≡ₚ [sample_manifest].
Proof.
  assert (load_complete_maps sample_handoff zero_sha [sample_manifest] = Ok [sample_manifest]) as Hl by (vm_compute; reflexivity).
  split; [exact Hl|]. exact (proj1 (map_barrier_is_exact sample_handoff zero_sha [sample_manifest] [sample_manifest] Hl)).
Defined.
