(* ===== verification/ReduceStage.v ===== *)
(** * The reduce stage of the semantic compiler

    Models the reduce side of src/crates/ngkg-semantic-compiler/src/lib.rs:
    [reduce_partition], which merges the runs of one logical partition, joins
    its dictionary and writes the adjacency and semantic-index artifacts
    ([build_partition_artifacts]).  The Parquet file of the partition is
    written by the Arrow library and not modelled. *)

From Stdlib Require Import Strings.Byte Strings.String.
From S2P Require Import Prelude Words Ordered Digest Text ExternalSort MapStage Dictionary.

(** ** Adjacency and index rows *)

(** [format!("{a:020}\t{b:020}\t{c:020}\t{d:020}")]. *)
Definition adjacency_line (a b c d : N) : list byte :=
  decimal20 a ++ TAB :: decimal20 b ++ TAB :: decimal20 c ++ TAB :: decimal20 d.

Definition predicate_line (predicate subject object_kind object graph : N) : list byte :=
  as_bytes "predicate" ++ TAB :: decimal20 predicate ++ TAB :: decimal20 subject ++ TAB ::
  decimal object_kind ++ TAB :: decimal20 object ++ TAB :: decimal20 graph.

Definition class_line (object subject graph : N) : list byte :=
  as_bytes "class" ++ TAB :: decimal20 object ++ TAB :: decimal20 subject ++ TAB :: decimal20 graph.

Definition object_kind (object : RdfTerm) : N :=
  match object with NamedNode _ => 1 | BlankNode _ => 2 | Literal _ => 3 end%N.

Definition rdf_type : list byte := as_bytes "http://www.w3.org/1999/02/22-rdf-syntax-ns#type".

Definition dictionary_id (dictionary : gmap (list byte) N) (key : list byte) : result SemanticCompilerError N :=
  ok_or (dictionary !! key) (Contract "dictionary is missing term").

(** A quad as dense identifiers: subject, predicate, object, graph. *)
Record Edge := { edge_subject : N; edge_predicate : N; edge_object : N; edge_graph : N }.

Definition quad_ids (dictionary : gmap (list byte) N) (quad : Quad) : result SemanticCompilerError Edge :=
  subject ← dictionary_id dictionary (subject_key (quad_subject quad));
  predicate ← dictionary_id dictionary (named_key (quad_predicate quad));
  object ← dictionary_id dictionary (object_key_of (quad_object quad));
  graph ← dictionary_id dictionary (graph_key (quad_graph quad));
  Ok {| edge_subject := subject; edge_predicate := predicate; edge_object := object; edge_graph := graph |}.

Definition forward_line (e : Edge) : list byte :=
  adjacency_line (edge_subject e) (edge_predicate e) (edge_object e) (edge_graph e).
Definition reverse_line (e : Edge) : list byte :=
  adjacency_line (edge_object e) (edge_predicate e) (edge_subject e) (edge_graph e).

(** [flush_adjacency_runs]. *)
Definition flush_adjacency_runs (forward reverse forward_runs reverse_runs : list (list byte)) (ordinal : N) :
    result SemanticCompilerError (list (list byte) * list (list byte) * N) :=
  if bool_decide (forward = []) then Ok (forward_runs, reverse_runs, ordinal)
  else
    ordinal' ← ok_or (checked_add U32_LIMIT ordinal 1) (Contract "adjacency run ordinal overflow");
    Ok (forward_runs ++ [sorted_run forward], reverse_runs ++ [sorted_run reverse], ordinal').

Record BuildState := {
  forward_buffer : list (list byte);
  reverse_buffer : list (list byte);
  forward_runs : list (list byte);
  reverse_runs : list (list byte);
  adjacency_run : N;
  index_buffer : list (list byte);
  index_runs : list (list byte);
  index_run : N;
  graph_counts : gmap (list byte * N) N;
  fact_count : N;
  edge_count : N;
  class_assertion_count : N;
}.

Definition build_start : BuildState :=
  {| forward_buffer := []; reverse_buffer := []; forward_runs := []; reverse_runs := []; adjacency_run := 0;
     index_buffer := []; index_runs := []; index_run := 0; graph_counts := ∅;
     fact_count := 0; edge_count := 0; class_assertion_count := 0 |}.

(** The index rows of a quad, and how many class assertions it makes. *)
Definition index_rows (quad : Quad) (e : Edge) : list (list byte) :=
  predicate_line (edge_predicate e) (edge_subject e) (object_kind (quad_object quad)) (edge_object e) (edge_graph e)
  :: (if bool_decide (quad_predicate quad = rdf_type) then [class_line (edge_object e) (edge_subject e) (edge_graph e)]
      else []).

(** One quad of the loop. *)
Definition build_step (dictionary : gmap (list byte) N) (row_group_rows : nat) (st : BuildState) (quad : Quad) :
    result SemanticCompilerError BuildState :=
  e ← quad_ids dictionary quad;
  let gkey := (graph_key (quad_graph quad), edge_graph e) in
  let counts := <[gkey := wrapping U64_LIMIT (default 0%N (graph_counts st !! gkey) + 1)%N]> (graph_counts st) in
  let ibuffer := index_buffer st ++ index_rows quad e in
  classes ← (if bool_decide (quad_predicate quad = rdf_type)
             then compiler_checked_add (class_assertion_count st) 1 "class assertion"
             else Ok (class_assertion_count st));
  '(ibuffer, iruns, irun) ←
    (if row_group_rows <=? length ibuffer then
       '(iruns, irun) ← flush_run "semantic index run ordinal overflow" ibuffer (index_runs st) (index_run st);
       Ok ([], iruns, irun)
     else Ok (ibuffer, index_runs st, index_run st));
  let forward := forward_buffer st ++ [forward_line e] in
  let reverse := reverse_buffer st ++ [reverse_line e] in
  edges ← compiler_checked_add (edge_count st) 1 "edge";
  '(forward, reverse, fruns, rruns, arun) ←
    (if length forward =? row_group_rows then
       '(fruns, rruns, arun) ← flush_adjacency_runs forward reverse (forward_runs st) (reverse_runs st) (adjacency_run st);
       Ok ([], [], fruns, rruns, arun)
     else Ok (forward, reverse, forward_runs st, reverse_runs st, adjacency_run st));
  facts ← compiler_checked_add (fact_count st) 1 "fact";
  Ok {| forward_buffer := forward; reverse_buffer := reverse; forward_runs := fruns; reverse_runs := rruns;
        adjacency_run := arun; index_buffer := ibuffer; index_runs := iruns; index_run := irun;
        graph_counts := counts; fact_count := facts; edge_count := edges; class_assertion_count := classes |}.

(** ** Graph inventory *)

Inductive GraphRole :=
| PhysicalDefault
| AssertedOntologyCandidate
| ClosureArtifact
| ProvenanceArtifact
| NamedRdf.

Global Instance graph_role_eq_dec : EqDecision GraphRole.
Proof. solve_decision. Defined.

Record GraphInventoryEntry := {
  graph_term : list byte;
  inventory_graph_id : N;
  role : GraphRole;
  inventory_quad_count : N;
  union_default_candidate : bool;
  asserted_ontology_candidate : bool;
  qualification_required : bool;
}.

Definition GRAPH_NAMESPACE : list byte := as_bytes "https://c8-next-generation.io/".

(** [text.ends_with(suffix)]. *)
Definition ends_with (text suffix : list byte) : bool :=
  match strip_prefix (reverse suffix) (reverse text) with Some _ => true | None => false end.
Definition starts_with (text prefix : list byte) : bool :=
  match strip_prefix prefix text with Some _ => true | None => false end.

Definition graph_inventory_entry (term : list byte) (id count : N) : GraphInventoryEntry :=
  let lexical := default term (strip_prefix (as_bytes "N" ++ [TAB]) term) in
  let role' :=
    if bool_decide (term = as_bytes "D" ++ [TAB]) then PhysicalDefault
    else if starts_with lexical GRAPH_NAMESPACE && ends_with lexical (as_bytes "/semkg") then AssertedOntologyCandidate
    else if starts_with lexical GRAPH_NAMESPACE && ends_with lexical (as_bytes "/closure") then ClosureArtifact
    else if starts_with lexical GRAPH_NAMESPACE && ends_with lexical (as_bytes "/provenance") then ProvenanceArtifact
    else NamedRdf in
  let asserted := bool_decide (role' = AssertedOntologyCandidate) in
  {| graph_term := lexical; inventory_graph_id := id; role := role'; inventory_quad_count := count;
     union_default_candidate := asserted; asserted_ontology_candidate := asserted; qualification_required := true |}.

(** ** Building the artifacts *)

Record PartitionArtifacts := {
  adjacency_forward : list byte;
  adjacency_reverse : list byte;
  semantic_index : list byte;
  out_fact_count : N;
  out_edge_count : N;
  out_class_assertion_count : N;
  graph_inventory : list GraphInventoryEntry;
}.

(** [quads] is the parsed canonical file. *)
Definition build_partition_artifacts (quads : list Quad) (dictionary : gmap (list byte) N) (row_group_rows : nat) :
    result SemanticCompilerError PartitionArtifacts :=
  st ← try_fold (build_step dictionary row_group_rows) build_start quads;
  '(fruns, rruns, _) ← flush_adjacency_runs (forward_buffer st) (reverse_buffer st) (forward_runs st)
                         (reverse_runs st) (adjacency_run st);
  '(forward, forward_count, _) ← hierarchical_merge_unique fruns U64_CEILING;
  '(reverse, reverse_count, _) ← hierarchical_merge_unique rruns U64_CEILING;
  _ ← fail_if (negb (forward_count =? edge_count st)%N || negb (reverse_count =? edge_count st)%N)
        (Contract "adjacency indexes differ from RDF resource-edge count");
  '(iruns, _) ← flush_run "semantic index run ordinal overflow" (index_buffer st) (index_runs st) (index_run st);
  '(index, _, _) ← hierarchical_merge_unique iruns U64_CEILING;
  Ok {| adjacency_forward := forward; adjacency_reverse := reverse; semantic_index := index;
        out_fact_count := fact_count st; out_edge_count := edge_count st;
        out_class_assertion_count := class_assertion_count st;
        graph_inventory := (fun '((term, id), count) => graph_inventory_entry term id count)
                             <$> sorted_bindings (graph_counts st) |}.

(** ** Reducing a partition *)

Record ReduceLimits := {
  max_input_runs : nat;
  max_partition_quads : N;
  parquet_row_group_rows : nat;
}.

Record SemanticPartitionManifest := {
  sp_format_version : N;
  sp_dataset_id : list byte;
  sp_snapshot_id : list byte;
  sp_compiler_handoff_sha256 : string;
  sp_dictionary_sha256 : string;
  sp_partition_index : N;
  sp_partition_id : list byte;
  sp_input_run_count : N;
  sp_fact_count : N;
  sp_duplicate_fact_count : N;
  sp_edge_count : N;
  sp_class_assertion_count : N;
  sp_artifacts : list RunArtifact;
  sp_graph_inventory : list GraphInventoryEntry;
  sp_semantic_content_sha256 : string;
}.

Section reduce.
Context `{Sha256}.

(** The runs of partition [p], in fragment order, each verified. *)
Definition fact_paths (p : N) (maps : list FragmentMapManifest) : result SemanticCompilerError (list (list byte)) :=
  runs ← try_map (fun m => verified_runs (default [] (fact_runs m !! p))) maps;
  Ok (concat runs).

Definition partition_identity (dataset snapshot : list byte) (source_sha256 : string) (index : N) : list byte :=
  as_bytes "semantic-" ++ digits (Nat.max 5 (decimal_width index)) index ++ as_bytes "-" ++
  take 24 (as_bytes (hex_encode (sha256 (as_bytes "ngkg-cloud-semantic-partition-v1" ++ [x00] ++ dataset ++ snapshot ++
                                         as_bytes source_sha256 ++ to_be_bytes 4 index)))).

(** The readers and writers of other libraries the reducer uses: the N-Quads
    document parser, [serde_json] on the dictionary manifest and the graph
    inventory, and the Arrow writer of the Parquet file. *)
Context (parse_document : list byte -> option (list Quad)) (read_dictionary : list byte -> option DictionaryManifest)
        (write_inventory : list GraphInventoryEntry -> list byte)
        (write_parquet : list Quad -> gmap (list byte) N -> N -> nat -> list byte).

Definition reduce_partition (handoff : CompilerHandoffManifest) (handoff_sha256 : string)
    (manifests : list FragmentMapManifest) (dictionary_document : list byte) (dictionary_manifest_sha256 : string)
    (partition_index : N) (limits : ReduceLimits) : result SemanticCompilerError SemanticPartitionManifest :=
  _ ← validate_handoff handoff;
  _ ← fail_if ((logical_partitions handoff <=? partition_index)%N || (max_input_runs limits =? 0)
               || (max_partition_quads limits =? 0)%N || (parquet_row_group_rows limits =? 0))
        (Contract "partition index or reducer limits are invalid");
  maps ← load_complete_maps handoff handoff_sha256 manifests;
  _ ← verify_file dictionary_document dictionary_manifest_sha256 None;
  dictionary ← ok_or (read_dictionary dictionary_document) Json;
  _ ← fail_if (negb (String.eqb (dict_compiler_handoff_sha256 dictionary) handoff_sha256)
               || negb (verified_map_completions dictionary =? total_objects handoff)%N)
        (Contract "dictionary manifest is not bound to the complete map barrier");
  _ ← verify_file (dictionary_file dictionary) (dictionary_sha256 dictionary) None;
  paths ← fact_paths partition_index maps;
  _ ← fail_if (max_input_runs limits <? length paths) (Contract "partition fan-in exceeds reducer run ceiling");
  '(canonical, facts, duplicates) ← hierarchical_merge_unique paths (max_partition_quads limits);
  quads ← ok_or (parse_document canonical) Rdf;
  local ← build_partition_dictionary quads (dictionary_file dictionary) (parquet_row_group_rows limits);
  output ← build_partition_artifacts quads local (parquet_row_group_rows limits);
  _ ← fail_if (negb (out_fact_count output =? facts)%N) (Contract "Parquet row count differs from canonical partition");
  facts_run ← artifact canonical;
  forward_run ← artifact (adjacency_forward output);
  reverse_run ← artifact (adjacency_reverse output);
  index_run ← artifact (semantic_index output);
  _ ← fail_if (negb (fits U32_LIMIT (N.of_nat (length paths)))) (Contract "input run count overflow");
  Ok {| sp_format_version := SEMANTIC_COMPILER_FORMAT_VERSION; sp_dataset_id := dataset_id handoff;
        sp_snapshot_id := target_snapshot_id handoff; sp_compiler_handoff_sha256 := handoff_sha256;
        sp_dictionary_sha256 := dictionary_sha256 dictionary; sp_partition_index := partition_index;
        sp_partition_id := partition_identity (dataset_id handoff) (target_snapshot_id handoff)
                             (aggregate_source_sha256 handoff) partition_index;
        sp_input_run_count := N.of_nat (length paths); sp_fact_count := facts; sp_duplicate_fact_count := duplicates;
        sp_edge_count := out_edge_count output; sp_class_assertion_count := out_class_assertion_count output;
        sp_artifacts := [facts_run;
                         binary_artifact (write_parquet quads local partition_index (parquet_row_group_rows limits));
                         forward_run; reverse_run; index_run; binary_artifact (write_inventory (graph_inventory output))];
        sp_graph_inventory := graph_inventory output; sp_semantic_content_sha256 := hex_encode (sha256 canonical) |}.
End reduce.

(** ** Rows are clean lines *)

Lemma decimal_ascii w n : forallb is_ascii (digits w n) = true.
Proof. apply forallb_forall. intros b Hb%list_elem_of_In%digits_plain. tauto. Qed.

Lemma ascii_good text :
  forallb is_ascii text = true -> (LF ∉ text) -> (CR ∉ text) -> good_text text.
Proof.
  intros Ha Hl Hc. split; [by apply ascii_utf8|]. split; [done|]. intros Hlast%last_Some_elem_of. done.
Qed.

(** Fields of digits and letters, separated by tabs. *)
Definition plain_field (field : list byte) : Prop :=
  forallb is_ascii field = true /\ (LF ∉ field) /\ (CR ∉ field).

Lemma plain_decide field :
  forallb is_ascii field && bool_decide (LF ∉ field) && bool_decide (CR ∉ field) = true -> plain_field field.
Proof. intros Hf. bool_prop. done. Qed.

Lemma plain_digits w n : plain_field (digits w n).
Proof. split; [apply decimal_ascii|]. split; intros Hin%digits_plain; naive_solver. Qed.

Lemma plain_sep a b : plain_field a -> plain_field b -> plain_field (a ++ TAB :: b).
Proof.
  intros (Aa & La & Ca) (Ab & Lb & Cb). unfold plain_field.
  rewrite forallb_app, !not_elem_of_app, !not_elem_of_cons, Aa. cbn [forallb andb]. by rewrite Ab.
Qed.

Lemma plain_good field : plain_field field -> good_text field.
Proof. intros (? & ? & ?). by apply ascii_good. Qed.

Lemma adjacency_line_plain a b c d : plain_field (adjacency_line a b c d).
Proof. repeat apply plain_sep; apply plain_digits. Qed.

Lemma index_rows_good quad e : Forall good_text (index_rows quad e).
Proof.
  assert (plain_field (as_bytes "predicate") /\ plain_field (as_bytes "class")) as [Hp Hc].
  { split; apply plain_decide; vm_compute; reflexivity. }
  unfold index_rows. constructor.
  - apply plain_good. unfold predicate_line. repeat apply plain_sep; done || apply plain_digits.
  - case_bool_decide; constructor; [|constructor]. apply plain_good.
    unfold class_line. repeat apply plain_sep; done || apply plain_digits.
Qed.

Lemma index_rows_length quad e : length (index_rows quad e) <= 2.
Proof. unfold index_rows. case_bool_decide; cbn; lia. Qed.

Lemma decimal20_inj n m : (n < U64_LIMIT)%N -> (m < U64_LIMIT)%N -> decimal20 n = decimal20 m -> n = m.
Proof. intros Hn Hm He. apply (f_equal parse_u64) in He. rewrite !parse_decimal20 in He by done. congruence. Qed.

Lemma length_decimal20 n : (n < U64_LIMIT)%N -> length (decimal20 n) = 20.
Proof. intros Hn. by rewrite decimal20_digits, length_digits. Qed.

Definition edge_u64 (e : Edge) : Prop :=
  (edge_subject e < U64_LIMIT /\ edge_predicate e < U64_LIMIT /\ edge_object e < U64_LIMIT /\ edge_graph e < U64_LIMIT)%N.

Lemma adjacency_line_inj a b c d a' b' c' d' :
  (a < U64_LIMIT -> b < U64_LIMIT -> c < U64_LIMIT -> d < U64_LIMIT ->
   a' < U64_LIMIT -> b' < U64_LIMIT -> c' < U64_LIMIT -> d' < U64_LIMIT ->
   adjacency_line a b c d = adjacency_line a' b' c' d' -> a = a' /\ b = b' /\ c = c' /\ d = d')%N.
Proof.
  intros. unfold adjacency_line in *.
  repeat match goal with
  | He : decimal20 ?x ++ _ = decimal20 ?y ++ _ |- _ =>
      apply app_inj_1 in He as [? He]; [|by rewrite !length_decimal20]; injection He as He
  end.
  split_and!; by apply decimal20_inj.
Qed.

Global Instance edge_eq_dec : EqDecision Edge.
Proof. solve_decision. Defined.

Lemma forward_line_inj e f : edge_u64 e -> edge_u64 f -> forward_line e = forward_line f -> e = f.
Proof.
  intros (?&?&?&?) (?&?&?&?) He. apply adjacency_line_inj in He as (?&?&?&?); try done. destruct e, f; cbn in *. congruence.
Qed.

Lemma reverse_line_inj e f : edge_u64 e -> edge_u64 f -> reverse_line e = reverse_line f -> e = f.
Proof.
  intros (?&?&?&?) (?&?&?&?) He. apply adjacency_line_inj in He as (?&?&?&?); try done. destruct e, f; cbn in *. congruence.
Qed.

(** ** The loop *)

Definition type_quads (quads : list Quad) : list Quad := filter (fun q => quad_predicate q = rdf_type) quads.

(** The rows of the index, by quad. *)
Definition all_index_rows (quads : list Quad) (es : list Edge) : list (list byte) :=
  concat (zip_with index_rows quads es).

Record build_inv (quads : list Quad) (es : list Edge) (st : BuildState) : Prop := {
  bi_forward : buffered (forward_line <$> es) (forward_buffer st) (forward_runs st) (adjacency_run st);
  bi_reverse : buffered (reverse_line <$> es) (reverse_buffer st) (reverse_runs st) (adjacency_run st);
  bi_same : length (forward_buffer st) = length (reverse_buffer st);
  bi_index : buffered (all_index_rows quads es) (index_buffer st) (index_runs st) (index_run st);
  bi_runs : (adjacency_run st <= N.of_nat (length quads) /\ index_run st <= N.of_nat (length quads))%N;
  bi_facts : fact_count st = N.of_nat (length quads);
  bi_edges : edge_count st = N.of_nat (length quads);
  bi_classes : class_assertion_count st = N.of_nat (length (type_quads quads));
}.

Lemma flush_adjacency_spec es fbuf rbuf fruns rruns o :
  buffered (forward_line <$> es) fbuf fruns o -> buffered (reverse_line <$> es) rbuf rruns o ->
  length fbuf = length rbuf -> (o + 1 < U32_LIMIT)%N ->
  exists fruns' rruns' o', flush_adjacency_runs fbuf rbuf fruns rruns o = Ok (fruns', rruns', o') /\
    buffered (forward_line <$> es) [] fruns' o' /\ buffered (reverse_line <$> es) [] rruns' o' /\ (o' <= o + 1)%N.
Proof.
  intros Hf Hr Hlen Ho. unfold flush_adjacency_runs.
  destruct (flush_run_spec "" _ _ _ _ Hf Ho) as (f' & o1 & Hf1 & Hbf & Ho1).
  destruct (flush_run_spec "" _ _ _ _ Hr Ho) as (r' & o2 & Hr1 & Hbr & Ho2).
  unfold flush_run in Hf1, Hr1. destruct (bool_decide (fbuf = [])) eqn:He; bool_prop.
  - subst fbuf. destruct rbuf; [|done]. rewrite bool_decide_eq_true_2 in Hr1 by done.
    injection Hf1 as <- <-. injection Hr1 as <- <-. by exists fruns, rruns, o.
  - rewrite bool_decide_eq_false_2 in Hr1 by (intros ->; by destruct fbuf).
    rewrite (proj2 (checked_add_some U32_LIMIT o 1 (o + 1)%N)) in * by (split; [done|lia]).
    cbn [ok_or mbind result_bind] in *. injection Hf1 as <- <-. injection Hr1 as <- <-. eexists _, _, _. split_and!; try done.
Qed.

Lemma build_step_spec d rows quads es st quad e :
  build_inv quads es st -> length quads = length es -> quad_ids d quad = Ok e ->
  (N.of_nat (length quads) + 2 < U32_LIMIT)%N ->
  exists st', build_step d rows st quad = Ok st' /\ build_inv (quads ++ [quad]) (es ++ [e]) st'.
Proof.
  intros [Hf Hr Hsame Hi [Ha Hir] Hfc Hec Hcc] Hlen Hq Hn. unfold build_step. rewrite Hq. cbn [mbind result_bind].
  assert (U32_LIMIT < U64_LIMIT)%N as Hlim by (vm_compute; done).
  assert (length (type_quads quads) <= length quads) as Hcl by apply length_filter.
  assert (Forall good_text [forward_line e]) as Hgf by (constructor; [apply plain_good, adjacency_line_plain|constructor]).
  assert (Forall good_text [reverse_line e]) as Hgr by (constructor; [apply plain_good, adjacency_line_plain|constructor]).
  pose proof (buffered_push _ _ _ _ _ Hf Hgf) as Hf'. pose proof (buffered_push _ _ _ _ _ Hr Hgr) as Hr'.
  pose proof (buffered_push _ _ _ _ _ Hi (index_rows_good quad e)) as Hi'.
  assert (all_index_rows (quads ++ [quad]) (es ++ [e]) = all_index_rows quads es ++ index_rows quad e) as Hall.
  { unfold all_index_rows. rewrite zip_with_app by done. rewrite concat_app. cbn. by rewrite app_nil_r. }
  change [forward_line e] with (forward_line <$> [e]) in Hf' at 1. change [reverse_line e] with (reverse_line <$> [e]) in Hr' at 1.
  rewrite <- fmap_app in Hf', Hr'. rewrite <- Hall in Hi'.
  assert (exists classes, (if bool_decide (quad_predicate quad = rdf_type)
             then compiler_checked_add (class_assertion_count st) 1 "class assertion"
             else Ok (class_assertion_count st)) = Ok classes /\
          classes = N.of_nat (length (type_quads (quads ++ [quad])))) as (classes & -> & Hclasses).
  { unfold type_quads in *. rewrite filter_app, filter_cons, filter_nil, length_app. case_bool_decide as Ht.
    - rewrite compiler_add_ok by lia. eexists. split; [done|]. rewrite decide_True by done. cbn [length]. lia.
    - eexists. split; [done|]. rewrite decide_False by done. cbn [length]. lia. }
  cbn [mbind result_bind].
  assert (exists ib ir io, (if rows <=? length (index_buffer st ++ index_rows quad e) then
       '(iruns, irun) ← flush_run "semantic index run ordinal overflow" (index_buffer st ++ index_rows quad e) (index_runs st) (index_run st);
       Ok ([], iruns, irun)
     else Ok (index_buffer st ++ index_rows quad e, index_runs st, index_run st)) = Ok (ib, ir, io) /\
     buffered (all_index_rows (quads ++ [quad]) (es ++ [e])) ib ir io /\ (io <= index_run st + 1)%N) as (ib & ir & io & -> & Hib & Hio).
  { destruct (rows <=? _).
    - destruct (flush_run_spec "semantic index run ordinal overflow" _ _ _ _ Hi') as (r1 & o1 & -> & Hb1 & Ho1); [lia|].
      cbn [mbind result_bind]. by exists [], r1, o1.
    - eexists _, _, _. split_and!; [done|done|lia]. }
  cbn [mbind result_bind]. rewrite Hec, compiler_add_ok by lia. cbn [mbind result_bind].
  rewrite Hfc, compiler_add_ok by lia.
  destruct (length (forward_buffer st ++ [forward_line e]) =? rows).
  - destruct (flush_adjacency_spec _ _ _ _ _ _ Hf' Hr') as (fr & rr & o & -> & Hbf & Hbr & Ho);
      [rewrite !length_app; cbn; lia|lia|]. cbn [mbind result_bind].
    eexists. split; [done|]. split; cbn; try done; rewrite ?length_app; cbn; lia.
  - cbn [mbind result_bind]. eexists. split; [done|].
    split; cbn; try done; rewrite ?length_app; cbn; lia.
Qed.

Lemma build_steps d rows new : forall quads es st fs,
  build_inv quads es st -> length quads = length es -> try_map (quad_ids d) new = Ok fs ->
  (N.of_nat (length (quads ++ new)) + 2 < U32_LIMIT)%N ->
  exists st', try_fold (build_step d rows) st new = Ok st' /\ build_inv (quads ++ new) (es ++ fs) st'.
Proof.
  induction new as [|q new IH]; intros quads es st fs Hinv Hlen Hq Hn; cbn [try_fold try_map] in *.
  { injection Hq as <-. exists st. by rewrite !app_nil_r. }
  inv_ok Hq. inv_ok Hq. injection Hq as <-. rewrite length_app in Hn. cbn [length] in Hn.
  destruct (build_step_spec d rows quads es st q a Hinv Hlen Ha) as (st1 & -> & Hinv1); [lia|].
  cbn [mbind result_bind].
  destruct (IH (quads ++ [q]) (es ++ [a]) st1 a0 Hinv1) as (st' & -> & Hinv'); [rewrite !length_app; cbn; lia|done| |].
  { rewrite !length_app. cbn [length]. lia. }
  exists st'. split; [done|]. by rewrite <- !(assoc (++)) in Hinv'.
Qed.

(** The file of the distinct [texts], sorted. *)
Definition sorted_file (texts : list (list byte)) : list byte :=
  concat (write_line <$> sorted_elements (list_to_set texts : gset (list byte))).

Lemma lines_sorted_file texts :
  Forall good_text texts -> lines (sorted_file texts) = sorted_elements (list_to_set texts : gset (list byte)).
Proof.
  intros Hg. apply write_lines_good, Forall_forall. intros t. rewrite elem_of_sorted_elements, elem_of_list_to_set.
  by apply Forall_forall.
Qed.

Lemma distinct_size {A} (f : A -> list byte) (l : list A) :
  (forall x y, x ∈ l -> y ∈ l -> f x = f y -> x = y) ->
  size (list_to_set (f <$> l) : gset (list byte)) = length l <-> NoDup l.
Proof.
  intros Hinj. split.
  - intros Hs. apply (NoDup_fmap_1 f). apply remove_dups_NoDup.
    assert (size (list_to_set (f <$> l) : gset (list byte)) = length (remove_dups (f <$> l))) as Hr.
    { unfold size, set_size. cbn. apply Permutation_length, NoDup_Permutation; [apply NoDup_elements|apply NoDup_remove_dups|].
      intros t. by rewrite elem_of_elements, elem_of_list_to_set, elem_of_remove_dups. }
    rewrite <- Hr, Hs. by rewrite length_fmap.
  - intros Hn. rewrite size_list_to_set; [apply length_fmap|]. by apply NoDup_fmap_2_strong.
Qed.

Lemma build_start_inv : build_inv [] [] build_start.
Proof. split; cbn; try done; try apply buffered_nil. Qed.

Lemma merge_buffered texts runs o :
  buffered texts [] runs o -> (o < U32_LIMIT)%N -> (N.of_nat (length texts) < U64_LIMIT)%N ->
  exists d, hierarchical_merge_unique runs U64_CEILING
    = Ok (sorted_file texts, N.of_nat (size (list_to_set texts : gset (list byte))), d).
Proof.
  intros Hb Ho Hl. destruct (buffered_countable _ _ _ Hb Ho Hl) as [Hc Hd]. destruct (merge_unbounded _ Hc) as [d ->].
  exists d. unfold merged, sorted_file. by rewrite Hd, length_sorted_elements.
Qed.

Lemma build_artifacts_spec d rows quads es :
  try_map (quad_ids d) quads = Ok es -> Forall edge_u64 es -> (N.of_nat (length quads) + 3 < U32_LIMIT)%N ->
  if bool_decide (NoDup es) then
    exists a, build_partition_artifacts quads d rows = Ok a /\
      adjacency_forward a = sorted_file (forward_line <$> es) /\ adjacency_reverse a = sorted_file (reverse_line <$> es) /\
      semantic_index a = sorted_file (all_index_rows quads es) /\
      out_fact_count a = N.of_nat (length quads) /\ out_edge_count a = N.of_nat (length quads) /\
      out_class_assertion_count a = N.of_nat (length (type_quads quads))
  else exists e, build_partition_artifacts quads d rows = Err e.
Proof.
  intros Hq Hu Hn. assert (2 * U32_LIMIT < U64_LIMIT)%N as Hlim by (vm_compute; done).
  assert (length es = length quads) as Hlen by (by eapply try_map_length).
  destruct (build_steps d rows quads [] [] build_start es build_start_inv eq_refl Hq) as (st & Hst & Hinv); [cbn; lia|].
  cbn [app] in Hinv. destruct Hinv as [Hf Hr Hs Hi [Ha Hir] Hfc Hec Hcc].
  unfold build_partition_artifacts. rewrite Hst. cbn [mbind result_bind].
  destruct (flush_adjacency_spec _ _ _ _ _ _ Hf Hr Hs) as (fr & rr & o & -> & Hbf & Hbr & Ho); [lia|]. cbn [mbind result_bind].
  destruct (merge_buffered _ _ _ Hbf) as [df ->]; [lia|rewrite length_fmap; lia|]. cbn [mbind result_bind].
  destruct (merge_buffered _ _ _ Hbr) as [dr ->]; [lia|rewrite length_fmap; lia|]. cbn [mbind result_bind].
  assert (forall x y, x ∈ es -> y ∈ es -> forward_line x = forward_line y -> x = y) as Hfi.
  { rewrite Forall_forall in Hu. intros x y Hx Hy. apply forward_line_inj; auto. }
  assert (forall x y, x ∈ es -> y ∈ es -> reverse_line x = reverse_line y -> x = y) as Hri.
  { rewrite Forall_forall in Hu. intros x y Hx Hy. apply reverse_line_inj; auto. }
  rewrite Hec, <- Hlen. case_bool_decide as Hnd.
  - rewrite (proj2 (distinct_size _ _ Hfi) Hnd), (proj2 (distinct_size _ _ Hri) Hnd), N.eqb_refl.
    cbn [negb orb fail_if mbind result_bind].
    destruct (flush_run_spec "semantic index run ordinal overflow" _ _ _ _ Hi) as (ir & io & -> & Hbi & Hio); [lia|].
    cbn [mbind result_bind].
    assert (length (all_index_rows quads es) <= 2 * length quads) as Hil.
    { unfold all_index_rows. clear. revert es. induction quads as [|q quads IH]; intros [|e es]; cbn [zip_with concat length]; try lia.
      rewrite length_app. specialize (IH es). pose proof (index_rows_length q e). lia. }
    destruct (merge_buffered _ _ _ Hbi) as [di ->]; [lia..|]. cbn [mbind result_bind].
    eexists. split; [done|]. cbn. rewrite Hlen. split_and!; try done; by rewrite ?Hlen.
  - assert (N.of_nat (size (list_to_set (forward_line <$> es) : gset (list byte))) <> N.of_nat (length es)) as Hne.
    { intros He. apply Hnd, (distinct_size _ _ Hfi). lia. }
    rewrite (proj2 (N.eqb_neq _ _) Hne). cbn [negb orb fail_if mbind result_bind]. by eexists.
Qed.

(** ** From fragments to partitions *)

(** One map task: a fragment, the limits of the worker that runs it, and the
    quads the fragment holds. *)
Record MapJob := {
  job_ordinal : N;
  job_file : list byte;
  job_limits : MapLimits;
  job_fragment : DecodedFragment;
  job_quads : list Quad;
}.

Section topology.
Context `{Sha256, NQuads, !NQuadsLaws}.

Definition job_mappable (handoff : CompilerHandoffManifest) (sha : string) (j : MapJob) : Prop :=
  mappable handoff sha (job_ordinal j) (job_file j) (job_limits j) (job_fragment j) (job_quads j).

Definition run_job (handoff : CompilerHandoffManifest) (sha : string) (j : MapJob) :
    result SemanticCompilerError FragmentMapManifest :=
  map_fragment handoff sha (job_ordinal j) (job_file j) (job_limits j).

Lemma verified_runs_ok texts runs : runs_spec texts runs -> verified_runs runs = Ok (run_file <$> runs).
Proof using Type.
  intros Hr. apply try_map_ok. pose proof (rs_sealed _ _ Hr) as Hs. clear Hr.
  induction Hs as [|r runs Hr _ IH]; constructor; [|done]. by rewrite Hr.
Qed.

Definition all_quads (jobs : list MapJob) : list Quad := jobs ≫= job_quads.

(** The runs of all manifests for a selection of texts hold those texts. *)
Lemma gathered_runs jobs ms (texts : list Quad -> list (list byte)) (runs : FragmentMapManifest -> list RunArtifact) :
  (forall l k, texts (l ++ k) = texts l ++ texts k) -> texts [] = [] ->
  Forall2 (fun j m => runs_spec (texts (job_quads j)) (runs m)) jobs ms ->
  exists paths, try_map (fun m => verified_runs (runs m)) ms = Ok paths /\
    Forall good_run (concat paths) /\ (forall l, l ∈ run_lines (concat paths) <-> l ∈ texts (all_quads jobs)) /\
    length (concat paths) <= length (texts (all_quads jobs)) /\
    length (run_lines (concat paths)) <= length (texts (all_quads jobs)).
Proof using Type.
  intros Happ Hnil. induction 1 as [|j m jobs ms Hr _ IH].
  { exists []. cbn. rewrite Hnil. split_and!; done. }
  destruct IH as (paths & Hp & Hg & Hl & Hc & Hrl). exists ((run_file <$> runs m) :: paths). cbn [try_map].
  rewrite (verified_runs_ok _ _ Hr). cbn [mbind result_bind]. rewrite Hp. cbn [mbind result_bind concat].
  change (all_quads (j :: jobs)) with (job_quads j ++ all_quads jobs). rewrite Happ, run_lines_app, !length_app, length_fmap.
  pose proof (rs_count _ _ Hr). split_and!; [done| | |lia|].
  - apply Forall_app. split; [apply Hr|done].
  - intros l. rewrite !elem_of_app, (rs_lines _ _ Hr), Hl. done.
  - assert (length (run_lines (run_file <$> runs m)) <= length (texts (job_quads j))); [|lia].
    apply (rs_line_count _ _ Hr).
Qed.

Lemma run_jobs handoff sha jobs :
  Forall (job_mappable handoff sha) jobs ->
  exists ms, try_map (run_job handoff sha) jobs = Ok ms /\
    (forall p, Forall2 (fun j m => runs_spec (facts_of (logical_partitions handoff) p (job_quads j))
                                   (default [] (fact_runs m !! p))) jobs ms) /\
    Forall2 (fun j m => runs_spec (terms_of (job_quads j)) (term_runs m)) jobs ms.
Proof using Type*.
  induction 1 as [|j jobs Hj _ IH].
  { exists []. split_and!; [done|intros p; constructor|constructor]. }
  destruct IH as (ms & Hms & Hf & Ht). destruct (map_fragment_spec _ _ _ _ _ _ _ Hj) as (m & Hm & _ & _ & Hfm & _ & Htm).
  exists (m :: ms). cbn [try_map]. assert (run_job handoff sha j = Ok m) as -> by exact Hm. cbn [mbind result_bind]. rewrite Hms. cbn [mbind result_bind].
  split_and!; [done| |by constructor]. intros p. constructor; [apply Hfm|apply Hf].
Qed.

Lemma sorted_file_merge paths (texts : list (list byte)) :
  Forall good_run paths -> (forall l, l ∈ run_lines paths <-> l ∈ texts) -> merged paths = sorted_file texts.
Proof using Type.
  intros Hg Hl. unfold merged, sorted_file, distinct_lines. do 3 f_equal. apply leibniz_equiv. intros l.
  by rewrite !elem_of_list_to_set.
Qed.
End topology.

(** C8: compilation is independent of its topology.  Whatever batch sizes and
    thread counts the workers use and however the quads are spread over
    fragments, every task succeeds, and the merged facts of every partition and
    the global dictionary are functions of the quads alone: the facts file
    lists the distinct canonical lines owned by the partition in ascending
    order, the dictionary the distinct terms. *)
Theorem compilation_is_topology_independent `{Sha256, NQuads, !NQuadsLaws} handoff sha jobs :
  Forall (job_mappable handoff sha) jobs -> (4 * N.of_nat (length (all_quads jobs)) < U32_LIMIT)%N ->
  exists manifests, try_map (run_job handoff sha) jobs = Ok manifests /\
    (forall p, exists paths rows dups, fact_paths p manifests = Ok paths /\
       hierarchical_merge_unique paths U64_CEILING
       = Ok (sorted_file (facts_of (logical_partitions handoff) p (all_quads jobs)), rows, dups)) /\
    exists paths count, try_map (fun m => verified_runs (term_runs m)) manifests = Ok paths /\
      merge_terms_to_dictionary (concat paths)
      = Ok (dictionary_of (sorted_elements (list_to_set (terms_of (all_quads jobs)) : gset (list byte))), count).
Proof.
  intros Hj Hn. destruct (run_jobs handoff sha jobs Hj) as (ms & Hms & Hf & Ht). exists ms. split; [done|].
  assert (U32_LIMIT < U64_LIMIT)%N by (vm_compute; done). split.
  - intros p. destruct (gathered_runs jobs ms (facts_of (logical_partitions handoff) p)
      (fun m => default [] (fact_runs m !! p))) as (paths & Hp & Hg & Hl & Hc & Hrl); [apply facts_of_app|done|apply Hf|].
    pose proof (facts_of_length (logical_partitions handoff) p (all_quads jobs)).
    destruct (merge_unbounded (concat paths)) as [d Hm]; [split_and!; [done|lia|lia]|].
    exists (concat paths). eexists _, d. unfold fact_paths. rewrite Hp. cbn [mbind result_bind]. split; [done|].
    rewrite Hm. by rewrite (sorted_file_merge _ _ Hg Hl).
  - destruct (gathered_runs jobs ms terms_of term_runs) as (paths & Hp & Hg & Hl & Hc & Hrl); [apply terms_of_app|done|done|].
    assert (length (terms_of (all_quads jobs)) <= 4 * length (all_quads jobs)) as Hle by apply terms_of_length.
    exists paths. eexists. split; [done|]. rewrite dictionary_spec by (split_and!; [done|lia|lia]).
    unfold dictionary_of, distinct_lines. do 6 f_equal. apply leibniz_equiv. intros l. by rewrite !elem_of_list_to_set.
Qed.

(** the adjacency artifacts list every edge once in each direction.  With
    the dictionary's identifiers, the forward and the reverse file hold one
    fixed-width row per edge, in ascending order and without repetition,
    whatever the size of the in-memory groups; the counters are the numbers of
    quads and of class assertions.  A repeated edge is refused, never merged
    silently. *)
Theorem adjacency_artifacts_are_exact d rows quads es :
  try_map (quad_ids d) quads = Ok es -> Forall edge_u64 es -> (N.of_nat (length quads) + 3 < U32_LIMIT)%N ->
  if bool_decide (NoDup es) then
    exists a, build_partition_artifacts quads d rows = Ok a /\
      StronglySorted rlt (lines (adjacency_forward a)) /\ StronglySorted rlt (lines (adjacency_reverse a)) /\
      (forall l, l ∈ lines (adjacency_forward a) <-> exists e, e ∈ es /\ l = forward_line e) /\
      (forall l, l ∈ lines (adjacency_reverse a) <-> exists e, e ∈ es /\ l = reverse_line e) /\
      (forall l, l ∈ lines (semantic_index a) <-> l ∈ all_index_rows quads es) /\
      out_edge_count a = N.of_nat (length quads) /\ out_class_assertion_count a = N.of_nat (length (type_quads quads))
  else exists e, build_partition_artifacts quads d rows = Err e.
Proof.
  intros Hq Hu Hn. pose proof (build_artifacts_spec d rows quads es Hq Hu Hn) as Hs. case_bool_decide; [|done].
  destruct Hs as (a & Ha & Hf & Hr & Hi & _ & He & Hc). exists a. split; [done|]. rewrite Hf, Hr, Hi.
  assert (forall g, (forall e, good_text (g e)) -> Forall good_text (g <$> es)) as Hg.
  { intros g Hg. apply Forall_fmap, Forall_forall. auto. }
  rewrite !lines_sorted_file.
  - assert (forall (s : list (list byte)) l, l ∈ sorted_elements (list_to_set s : gset (list byte)) <-> l ∈ s) as Hel.
    { intros s l. by rewrite elem_of_sorted_elements, elem_of_list_to_set. }
    split_and!; [apply sorted_elements_strict|apply sorted_elements_strict| | |apply Hel|done|done];
      intros l; rewrite Hel, list_elem_of_fmap; naive_solver.
  - clear. unfold all_index_rows. revert es. induction quads as [|q quads IH]; intros [|e es]; try apply Forall_nil_2.
    cbn [zip_with concat]. apply Forall_app. split; [apply index_rows_good|apply IH].
  - apply Hg. intros e. apply plain_good, adjacency_line_plain.
  - apply Hg. intros e. apply plain_good, adjacency_line_plain.
Qed.

(** ** Witnesses *)

Definition line_ids : gmap (list byte) N :=
  list_to_map [(as_bytes "D" ++ [TAB], 0%N); (named_key (as_bytes "o"), 1%N); (named_key (as_bytes "p"), 2%N);
               (named_key (as_bytes "x"), 3%N); (named_key (as_bytes "y"), 4%N)].
Definition line_edges : list Edge :=
  [{| edge_subject := 4; edge_predicate := 2; edge_object := 1; edge_graph := 0 |};
   {| edge_subject := 3; edge_predicate := 2; edge_object := 1; edge_graph := 0 |}].

Lemma adjacency_artifacts_are_exact_witness :
  exists a, build_partition_artifacts line_quads line_ids 1 = Ok a /\ out_edge_count a = 2%N /\
    StronglySorted rlt (lines (adjacency_forward a)).
Proof.
  pose proof (adjacency_artifacts_are_exact line_ids 1 line_quads line_edges ltac:(vm_compute; reflexivity)
    ltac:(repeat constructor; vm_compute; reflexivity) ltac:(vm_compute; reflexivity)) as He.
  assert (bool_decide (NoDup line_edges) = true) as Hb by (vm_compute; reflexivity).
  rewrite Hb in He. destruct He as (a & Ha & Hs & _ & _ & _ & _ & Hc & _). exists a. split; [exact Ha|]. split; [exact Hc|exact Hs].
Defined.

Definition sample_job : MapJob :=
  {| job_ordinal := 0; job_file := sample_fragment_file; job_limits := sample_limits; job_fragment := sample_fragment;
     job_quads := line_quads |}.

Lemma compilation_is_topology_independent_witness :
  exists manifests, try_map (run_job (H := padded_digest) (H0 := line_nquads) sample_handoff zero_sha) [sample_job] = Ok manifests /\
    forall p, exists paths rows dups, fact_paths (H := padded_digest) p manifests = Ok paths /\
      hierarchical_merge_unique paths U64_CEILING
      = Ok (sorted_file (facts_of (H := padded_digest) (H0 := line_nquads) 4 p line_quads), rows, dups).
Proof.
  destruct (compilation_is_topology_independent (H := padded_digest) (H0 := line_nquads) (H1 := line_nquads_laws)
    sample_handoff zero_sha [sample_job]) as (ms & Hms & Hf & _).
  - constructor; [exact sample_mappable|constructor].
  - vm_compute. reflexivity.
  - exists ms. split; [exact Hms|exact Hf].
Defined.
