(* ===== verification/RootBarrier.v ===== *)
(** * The compilation root

    Models the last barrier of src/crates/ngkg-semantic-compiler/src/lib.rs:
    [finalize_semantic_root_inner] checks that the partition manifests are
    bound to the handoff and the dictionary and cover the layout exactly, adds
    up their counters and graph inventories, and publishes an inactive root.
    Manifest paths and the checksums of the manifest files are functions of
    the manifest here. *)

From Stdlib Require Import Strings.Byte Strings.String.
From S2P Require Import Prelude Words Ordered Digest Text ExternalSort MapStage Dictionary ReduceStage.

Record PartitionReference := {
  ref_partition_index : N;
  ref_partition_id : list byte;
  ref_manifest_path : string;
  ref_manifest_sha256 : string;
  ref_fact_count : N;
}.

Record SemanticCompilationRoot := {
  root_format_version : N;
  root_tenant_id : list byte;
  root_dataset_id : list byte;
  root_operation_id : list byte;
  root_snapshot_id : list byte;
  root_compiler_handoff_sha256 : string;
  root_aggregate_source_sha256 : string;
  root_dictionary_manifest_path : string;
  root_dictionary_manifest_sha256 : string;
  root_logical_partitions : N;
  root_partitions : list PartitionReference;
  root_fact_count : N;
  root_duplicate_fact_count : N;
  root_edge_count : N;
  root_class_assertion_count : N;
  root_graph_inventory : list GraphInventoryEntry;
  root_union_default_candidates : list (list byte);
  root_asserted_ontology_candidates : list (list byte);
  authorization_state : string;
  qualification_state : string;
  publication_state : string;
  root_semantic_content_sha256 : string;
}.

(** ** Graph inventory keys *)

Definition role_rank (r : GraphRole) : N :=
  match r with
  | PhysicalDefault => 0 | AssertedOntologyCandidate => 1 | ClosureArtifact => 2
  | ProvenanceArtifact => 3 | NamedRdf => 4
  end%N.

Global Instance role_rank_inj : Inj (=) (=) role_rank.
Proof. by intros [] []. Qed.
Global Instance role_ord : RustOrd GraphRole := ord_by role_rank _.
Global Instance role_countable : Countable GraphRole.
Proof.
  refine (inj_countable role_rank (fun n => match n with
    | 0 => Some PhysicalDefault | 1 => Some AssertedOntologyCandidate | 2 => Some ClosureArtifact
    | 3 => Some ProvenanceArtifact | 4 => Some NamedRdf | _ => None end%N) _).
  by intros [].
Defined.

Definition bool_rank (b : bool) : N := if b then 1 else 0.
Global Instance bool_rank_inj : Inj (=) (=) bool_rank.
Proof. by intros [] []. Qed.
Global Instance bool_ord : RustOrd bool := ord_by bool_rank _.

Definition GraphKey := (list byte * N * GraphRole * bool * bool)%type.

Definition inventory_key (g : GraphInventoryEntry) : GraphKey :=
  (graph_term g, inventory_graph_id g, role g, union_default_candidate g, asserted_ontology_candidate g).

Definition add_graph (counts : gmap GraphKey N) (g : GraphInventoryEntry) : result SemanticCompilerError (gmap GraphKey N) :=
  count ← compiler_checked_add (default 0%N (counts !! inventory_key g)) (inventory_quad_count g) "graph quad";
  Ok (<[inventory_key g := count]> counts).

Definition inventory_entry (b : GraphKey * N) : GraphInventoryEntry :=
  let '((term, id, r, union, asserted), count) := b in
  {| graph_term := term; inventory_graph_id := id; role := r; inventory_quad_count := count;
     union_default_candidate := union; asserted_ontology_candidate := asserted; qualification_required := true |}.

(** ** Partition manifests *)

Definition decode_sha256 (value : string) : result SemanticCompilerError (list byte) :=
  _ ← require_sha256 value;
  ok_or (hex_decode (as_bytes value)) (Contract "invalid SHA-256").

Section root.
Context `{Sha256}.

Definition manifest_identity_ok (handoff : CompilerHandoffManifest) (handoff_sha256 dictionary_sha : string)
    (m : SemanticPartitionManifest) : bool :=
  (sp_format_version m =? SEMANTIC_COMPILER_FORMAT_VERSION)%N
  && bool_decide (sp_dataset_id m = dataset_id handoff)
  && bool_decide (sp_snapshot_id m = target_snapshot_id handoff)
  && String.eqb (sp_compiler_handoff_sha256 m) handoff_sha256
  && String.eqb (sp_dictionary_sha256 m) dictionary_sha
  && (sp_partition_index m <? logical_partitions handoff)%N
  && bool_decide (sp_partition_id m = partition_identity (dataset_id handoff) (target_snapshot_id handoff)
                                        (aggregate_source_sha256 handoff) (sp_partition_index m)).

Definition validate_partition_manifest (handoff : CompilerHandoffManifest) (handoff_sha256 dictionary_sha : string)
    (verify_artifacts : bool) (m : SemanticPartitionManifest) : result SemanticCompilerError unit :=
  _ ← fail_if (negb (manifest_identity_ok handoff handoff_sha256 dictionary_sha m))
        (Contract "semantic partition identity is invalid");
  _ ← require_sha256 (sp_semantic_content_sha256 m);
  if verify_artifacts then
    _ ← try_map (fun run => verify_file (run_file run) (run_sha256 run) (Some (run_bytes run))) (sp_artifacts m);
    Ok tt
  else Ok tt.

Record RootState := {
  partitions : list PartitionReference;
  observed : gset N;
  facts_total : N;
  duplicates_total : N;
  edges_total : N;
  classes_total : N;
  inventory : gmap GraphKey N;
  semantic : list byte;
}.

Definition root_domain : list byte := as_bytes "ngkg-semantic-compilation-root-v1" ++ [x00].

Definition root_start : RootState :=
  {| partitions := []; observed := ∅; facts_total := 0; duplicates_total := 0; edges_total := 0; classes_total := 0;
     inventory := ∅; semantic := root_domain |}.

Context (manifest_path manifest_sha256 : SemanticPartitionManifest -> string)
        (read_dictionary : list byte -> option DictionaryManifest).

Definition manifest_reference (m : SemanticPartitionManifest) : PartitionReference :=
  {| ref_partition_index := sp_partition_index m; ref_partition_id := sp_partition_id m;
     ref_manifest_path := manifest_path m; ref_manifest_sha256 := manifest_sha256 m; ref_fact_count := sp_fact_count m |}.

(** One manifest of the loop. *)
Definition admit_partition_manifest (handoff : CompilerHandoffManifest) (handoff_sha256 dictionary_sha : string)
    (verify_artifacts : bool) (st : RootState) (m : SemanticPartitionManifest) : result SemanticCompilerError RootState :=
  _ ← validate_partition_manifest handoff handoff_sha256 dictionary_sha verify_artifacts m;
  _ ← fail_if (bool_decide (sp_partition_index m ∈ observed st)) (Contract "duplicate semantic partition completion");
  facts ← compiler_checked_add (facts_total st) (sp_fact_count m) "fact";
  dups ← compiler_checked_add (duplicates_total st) (sp_duplicate_fact_count m) "duplicate fact";
  edges ← compiler_checked_add (edges_total st) (sp_edge_count m) "edge";
  classes ← compiler_checked_add (classes_total st) (sp_class_assertion_count m) "class assertion";
  graphs ← try_fold add_graph (inventory st) (sp_graph_inventory m);
  digest ← decode_sha256 (sp_semantic_content_sha256 m);
  Ok {| partitions := partitions st ++ [manifest_reference m]; observed := {[sp_partition_index m]} ∪ observed st;
        facts_total := facts; duplicates_total := dups; edges_total := edges; classes_total := classes;
        inventory := graphs; semantic := semantic st ++ to_be_bytes 4 (sp_partition_index m) ++ digest |}.

(** The checks up to the partition loop: the handoff is valid and the
    dictionary manifest is bound to it. *)
Definition bound_dictionary (handoff : CompilerHandoffManifest) (handoff_sha256 : string) (dictionary_document : list byte)
    (dictionary_manifest_sha256 : string) (verify_local_artifacts : bool) : result SemanticCompilerError DictionaryManifest :=
  _ ← validate_handoff handoff;
  _ ← require_sha256 handoff_sha256;
  _ ← verify_file dictionary_document dictionary_manifest_sha256 None;
  dictionary ← ok_or (read_dictionary dictionary_document) Json;
  _ ← fail_if (negb (dict_format_version dictionary =? SEMANTIC_COMPILER_FORMAT_VERSION)%N
               || negb (bool_decide (dict_dataset_id dictionary = dataset_id handoff))
               || negb (bool_decide (dict_snapshot_id dictionary = target_snapshot_id handoff))
               || negb (String.eqb (dict_compiler_handoff_sha256 dictionary) handoff_sha256)
               || negb (verified_map_completions dictionary =? total_objects handoff)%N)
        (Contract "dictionary is not bound to handoff");
  _ ← require_sha256 (dictionary_sha256 dictionary);
  _ ← require_sha256 (guid_dictionary_sha256 dictionary);
  _ ← (if verify_local_artifacts then
         _ ← verify_file (dictionary_file dictionary) (dictionary_sha256 dictionary) None;
         verify_file (guid_dictionary_file dictionary) (guid_dictionary_sha256 dictionary) None
       else Ok tt);
  Ok dictionary.

(** The root written after the last partition. *)
Definition publish_root (handoff : CompilerHandoffManifest) (handoff_sha256 dictionary_path dictionary_manifest_sha256 : string)
    (st : RootState) : SemanticCompilationRoot :=
  let inventory' := inventory_entry <$> sorted_bindings (inventory st) in
  {| root_format_version := SEMANTIC_COMPILER_FORMAT_VERSION; root_tenant_id := tenant_id handoff;
     root_dataset_id := dataset_id handoff; root_operation_id := operation_id handoff;
     root_snapshot_id := target_snapshot_id handoff; root_compiler_handoff_sha256 := handoff_sha256;
     root_aggregate_source_sha256 := aggregate_source_sha256 handoff;
     root_dictionary_manifest_path := dictionary_path; root_dictionary_manifest_sha256 := dictionary_manifest_sha256;
     root_logical_partitions := logical_partitions handoff;
     root_partitions := sort_by_key ref_partition_index (partitions st);
     root_fact_count := facts_total st; root_duplicate_fact_count := duplicates_total st;
     root_edge_count := edges_total st; root_class_assertion_count := classes_total st;
     root_graph_inventory := inventory';
     root_union_default_candidates := graph_term <$> filter (fun g => union_default_candidate g = true) inventory';
     root_asserted_ontology_candidates := graph_term <$> filter (fun g => asserted_ontology_candidate g = true) inventory';
     authorization_state := "unqualified"; qualification_state := "pending-owl2-dl-snapshot-qualification";
     publication_state := "inactive"; root_semantic_content_sha256 := hex_encode (sha256 (semantic st)) |}.

(** [finalize_semantic_root_inner]; [finalize_semantic_root] verifies local
    artifacts, [finalize_committed_semantic_root] does not. *)
Definition finalize_semantic_root_inner (handoff : CompilerHandoffManifest) (handoff_sha256 dictionary_path : string)
    (dictionary_document : list byte) (dictionary_manifest_sha256 : string)
    (manifests : list SemanticPartitionManifest) (verify_local_artifacts : bool) :
    result SemanticCompilerError SemanticCompilationRoot :=
  dictionary ← bound_dictionary handoff handoff_sha256 dictionary_document dictionary_manifest_sha256 verify_local_artifacts;
  _ ← fail_if (negb (N.of_nat (length manifests) =? logical_partitions handoff)%N)
        (Contract "semantic partition barrier is incomplete");
  st ← try_fold (admit_partition_manifest handoff handoff_sha256 (dictionary_sha256 dictionary) verify_local_artifacts)
         root_start manifests;
  _ ← fail_if (negb (bool_decide (observed st = list_to_set (N.of_nat <$> seq 0 (N.to_nat (logical_partitions handoff))))))
        (Contract "semantic partitions do not exactly cover the layout");
  Ok (publish_root handoff handoff_sha256 dictionary_path dictionary_manifest_sha256 st).
End root.

(** ** Sums do not depend on the order *)

Definition total {A} (f : A -> N) (l : list A) : N := foldr N.add 0%N (f <$> l).

Lemma total_perm {A} (f : A -> N) l k : l ≡ₚ k -> total f l = total f k.
Proof. unfold total. induction 1; cbn in *; lia. Qed.

(** The quads a list of entries counts for one graph. *)
Definition graph_total (k : GraphKey) (es : list GraphInventoryEntry) : N :=
  total inventory_quad_count (filter (fun g => inventory_key g = k) es).

Lemma graph_total_perm k l l' : l ≡ₚ l' -> graph_total k l = graph_total k l'.
Proof. intros Hp. apply total_perm. by rewrite Hp. Qed.

Lemma graph_total_absent k es : (k ∉ inventory_key <$> es) -> graph_total k es = 0%N.
Proof.
  intros Hk. unfold graph_total. rewrite list_filter_empty; [done|]. intros g Hg <-. by apply Hk, list_elem_of_fmap_2.
Qed.

Lemma compiler_add_inv a b what c : compiler_checked_add a b what = Ok c <-> c = (a + b)%N /\ (a + b < U64_LIMIT)%N.
Proof.
  unfold compiler_checked_add. rewrite ok_or_ok. apply checked_add_some.
Qed.

Lemma add_graphs_ok es : forall m m',
  try_fold add_graph m es = Ok m' <->
  (forall k, k ∈ inventory_key <$> es -> (default 0%N (m !! k) + graph_total k es < U64_LIMIT)%N) /\
  (forall k, m' !! k = if bool_decide (k ∈ inventory_key <$> es) then Some (default 0%N (m !! k) + graph_total k es)%N
                       else m !! k).
Proof.
  induction es as [|g es IH]; intros m m'; cbn [try_fold].
  { split.
    - intros [= <-]. split; [intros k Hk; by apply elem_of_nil in Hk|]. done.
    - intros [_ Hm]. f_equal. apply map_eq. intros k. by rewrite Hm. }
  rewrite result_bind_ok. unfold add_graph at 1. setoid_rewrite result_bind_ok. setoid_rewrite compiler_add_inv.
  assert (forall k, graph_total k (g :: es) = ((if decide (inventory_key g = k) then inventory_quad_count g else 0) + graph_total k es)%N) as Hgt.
  { intros k. unfold graph_total. rewrite filter_cons. case_decide; done. }
  set (m1 := <[inventory_key g := (default 0%N (m !! inventory_key g) + inventory_quad_count g)%N]> m).
  assert (forall k, default 0%N (m1 !! k) = (default 0 (m !! k) + (if decide (inventory_key g = k) then inventory_quad_count g else 0))%N) as Hm1.
  { intros k. unfold m1. case_decide as Hk; [subst; by rewrite lookup_insert_eq|]. rewrite lookup_insert_ne by done. lia. }
  assert (forall k, (if bool_decide (k ∈ inventory_key <$> g :: es) then Some (default 0%N (m !! k) + graph_total k (g :: es))%N else m !! k)
    = if bool_decide (k ∈ inventory_key <$> es) then Some (default 0%N (m1 !! k) + graph_total k es)%N else m1 !! k) as Heq.
  { intros k. rewrite Hgt, Hm1. cbn [fmap list_fmap]. case_bool_decide as Hc; case_bool_decide as Hd.
    - f_equal. lia.
    - apply elem_of_cons in Hc as [->|Hc]; [|done]. rewrite decide_True by done. unfold m1. rewrite lookup_insert_eq. f_equal.
      rewrite graph_total_absent by done. lia.
    - exfalso. apply Hc. by right.
    - unfold m1. rewrite lookup_insert_ne; [done|]. intros Hk. apply Hc. rewrite Hk. left. }
  split.
  - intros (m2 & (c & (-> & Hlt) & [= <-]) & (Hf & Hm)%IH). fold m1 in Hf, Hm. split.
    + intros k Hk. rewrite Hgt. destruct (decide (k ∈ inventory_key <$> es)) as [Hin|Hin].
      * specialize (Hf k Hin). rewrite Hm1 in Hf. lia.
      * apply elem_of_cons in Hk as [->|Hk]; [|done]. rewrite decide_True by done.
        rewrite graph_total_absent by done. specialize (Hlt). lia.
    + intros k. by rewrite Hm, Heq.
  - intros [Hf Hm]. exists m1. split.
    + eexists. split; [|done]. split; [done|]. specialize (Hf (inventory_key g) ltac:(left)). rewrite Hgt, decide_True in Hf by done. lia.
    + apply IH. split.
      * intros k Hk. specialize (Hf k ltac:(by right)). rewrite Hgt in Hf. rewrite Hm1. lia.
      * intros k. by rewrite Hm, Heq.
Qed.

(** Adding up inventories in any order gives the same map. *)
Lemma add_graphs_perm es es' m m' : es ≡ₚ es' -> try_fold add_graph m es = Ok m' -> try_fold add_graph m es' = Ok m'.
Proof.
  intros Hp [Hf Hm]%add_graphs_ok. apply add_graphs_ok.
  assert (forall k, k ∈ inventory_key <$> es' <-> k ∈ inventory_key <$> es) as Hk by (intros k; by rewrite Hp). split.
  - intros k Hin%Hk. rewrite <- (graph_total_perm k es es' Hp). by apply Hf.
  - intros k. rewrite Hm, <- (graph_total_perm k es es' Hp). by rewrite (bool_decide_ext _ _ (Hk k)).
Qed.

Section root_proofs.
Context `{Sha256} (manifest_path manifest_sha256 : SemanticPartitionManifest -> string).
Context (handoff : CompilerHandoffManifest) (sha dsha : string) (verify : bool).
Abbreviation accept := (admit_partition_manifest manifest_path manifest_sha256 handoff sha dsha verify).

(** A manifest that passes its checks, and what it adds to the content digest. *)
Definition accepted (m : SemanticPartitionManifest) : Prop :=
  validate_partition_manifest handoff sha dsha verify m = Ok tt /\
  exists d, decode_sha256 (sp_semantic_content_sha256 m) = Ok d.
Definition content_piece (m : SemanticPartitionManifest) : list byte :=
  to_be_bytes 4 (sp_partition_index m) ++ match decode_sha256 (sp_semantic_content_sha256 m) with Ok d => d | Err _ => [] end.

Definition counters_fit (st : RootState) (ms : list SemanticPartitionManifest) : Prop :=
  (facts_total st + total sp_fact_count ms < U64_LIMIT /\ duplicates_total st + total sp_duplicate_fact_count ms < U64_LIMIT /\
   edges_total st + total sp_edge_count ms < U64_LIMIT /\ classes_total st + total sp_class_assertion_count ms < U64_LIMIT)%N.

Definition admitted (st : RootState) (ms : list SemanticPartitionManifest) (g : gmap GraphKey N) : RootState :=
  {| partitions := partitions st ++ (manifest_reference manifest_path manifest_sha256 <$> ms);
     observed := list_to_set (sp_partition_index <$> ms) ∪ observed st;
     facts_total := facts_total st + total sp_fact_count ms;
     duplicates_total := duplicates_total st + total sp_duplicate_fact_count ms;
     edges_total := edges_total st + total sp_edge_count ms;
     classes_total := classes_total st + total sp_class_assertion_count ms;
     inventory := g; semantic := semantic st ++ concat (content_piece <$> ms) |}%N.

Lemma admit_one st m st' :
  accept st m = Ok st' <->
  accepted m /\ (sp_partition_index m ∉ observed st) /\ counters_fit st [m] /\
  exists g, try_fold add_graph (inventory st) (sp_graph_inventory m) = Ok g /\ st' = admitted st [m] g.
Proof using Type.
  assert (forall f, total f [m] = f m) as Ht by (intros f; unfold total; cbn; lia).
  unfold admit_partition_manifest, accepted, counters_fit, admitted. rewrite !Ht.
  cbn [fmap list_fmap concat list_to_set]. unfold content_piece. rewrite app_nil_r. split.
  - intros Ha. inv_ok Ha. inv_ok Ha. inv_ok Ha1. bool_prop. do 6 inv_ok Ha. injection Ha as <-. destruct a.
    apply compiler_add_inv in Ha2 as [-> ?], Ha3 as [-> ?], Ha4 as [-> ?], Ha5 as [-> ?].
    split; [split; [done|by eexists]|]. split; [done|]. split; [done|]. eexists. split; [exact Ha6|]. rewrite Ha7.
    f_equal. set_solver.
  - intros ([Hv [d Hd]] & Ho & (H1 & H2 & H3 & H4) & g & Hg & ->). rewrite Hv. cbn [mbind result_bind].
    rewrite bool_decide_eq_false_2 by done. cbn [fail_if mbind result_bind].
    rewrite !compiler_add_ok by done. cbn [mbind result_bind]. rewrite Hg. cbn [mbind result_bind]. rewrite Hd.
    cbn [mbind result_bind]. do 2 f_equal. set_solver.
Qed.

Lemma admitted_nil st : admitted st [] (inventory st) = st.
Proof using Type.
  unfold admitted, total. cbn [fmap list_fmap foldr concat list_to_set]. rewrite !app_nil_r, !N.add_0_r, (left_id_L ∅ (∪)).
  by destruct st.
Qed.

Lemma admitted_cons st m g ms g' : admitted (admitted st [m] g) ms g' = admitted st (m :: ms) g'.
Proof using Type.
  unfold admitted, total. cbn [partitions observed facts_total duplicates_total edges_total classes_total inventory semantic
    fmap list_fmap foldr concat list_to_set]. rewrite !app_nil_r, <- !app_assoc, !N.add_0_r, <- !N.add_assoc. cbn [app].
  f_equal. set_solver.
Qed.

Lemma counters_cons st m g ms :
  counters_fit st (m :: ms) <-> counters_fit st [m] /\ counters_fit (admitted st [m] g) ms.
Proof using Type.
  unfold counters_fit, admitted, total. cbn [facts_total duplicates_total edges_total classes_total fmap list_fmap foldr].
  rewrite !N.add_0_r. lia.
Qed.

Lemma admit_all_manifests ms : forall st st', counters_fit st [] ->
  try_fold accept st ms = Ok st' <->
  Forall accepted ms /\ NoDup (sp_partition_index <$> ms) /\ (forall m, m ∈ ms -> (sp_partition_index m ∉ observed st)) /\
  counters_fit st ms /\
  exists g, try_fold add_graph (inventory st) (ms ≫= sp_graph_inventory) = Ok g /\ st' = admitted st ms g.
Proof using Type.
  induction ms as [|m ms IH]; intros st st' Hst; cbn [try_fold].
  { change (([] : list SemanticPartitionManifest) ≫= sp_graph_inventory) with (@nil GraphInventoryEntry). cbn [try_fold]. split.
    - intros [= <-]. split_and!; [constructor|constructor|set_solver|done|]. exists (inventory st). by rewrite admitted_nil.
    - intros (_ & _ & _ & _ & g & [= <-] & ->). by rewrite admitted_nil. }
  change ((m :: ms) ≫= sp_graph_inventory) with (sp_graph_inventory m ++ (ms ≫= sp_graph_inventory)).
  rewrite result_bind_ok. split.
  - intros (st1 & (Ha & Ho & Hc & g & Hg & ->)%admit_one & Hr). apply IH in Hr as (Hf & Hnd & Hno & Hcs & g' & Hg' & ->);
      [|by apply (counters_cons st m g [])]. rewrite admitted_cons. split_and!.
    + by constructor.
    + constructor; [|done]. intros (m' & He & Hin)%list_elem_of_fmap. apply (Hno m' Hin). rewrite <- He.
      cbn [admitted observed]. set_solver.
    + intros m' [->|Hin]%elem_of_cons; [done|]. specialize (Hno m' Hin). cbn [admitted observed] in Hno. set_solver.
    + by eapply counters_cons.
    + exists g'. split; [|done]. rewrite try_fold_app, Hg. exact Hg'.
  - intros ([Ha Hf]%Forall_cons & [Hm Hnd]%NoDup_cons & Hno & Hc & g' & Hg & ->).
    rewrite try_fold_app in Hg. apply result_bind_ok in Hg as (g & Hg & Hg').
    apply (counters_cons st m g ms) in Hc as [Hc1 Hc2]. exists (admitted st [m] g). split.
    + apply admit_one. split_and!; [done|apply Hno; left|done|]. by exists g.
    + apply IH; [by apply (counters_cons st m g [])|]. split_and!; try done.
      * intros m' Hin. cbn [admitted observed]. specialize (Hno m' ltac:(by right)).
        assert (sp_partition_index m' <> sp_partition_index m); [|set_solver]. intros He. apply Hm. rewrite <- He.
        by apply list_elem_of_fmap_2.
      * exists g'. split; [done|]. by rewrite admitted_cons.
Qed.
End root_proofs.

Lemma sort_by_key_strict {A} (key : A -> N) l : NoDup (key <$> l) -> StronglySorted rlt (key <$> sort_by_key key l).
Proof.
  intros Hn. apply StronglySorted_rlt; [|by rewrite sort_by_key_perm].
  pose proof (sort_by_key_sorted key l) as Hs. induction Hs as [|x k Hk IH Hx]; cbn; constructor; [done|].
  apply Forall_fmap. exact Hx.
Qed.

(** The root with another content digest. *)
Definition with_content (root : SemanticCompilationRoot) (digest : string) : SemanticCompilationRoot :=
  {| root_format_version := root_format_version root; root_tenant_id := root_tenant_id root;
     root_dataset_id := root_dataset_id root; root_operation_id := root_operation_id root;
     root_snapshot_id := root_snapshot_id root; root_compiler_handoff_sha256 := root_compiler_handoff_sha256 root;
     root_aggregate_source_sha256 := root_aggregate_source_sha256 root;
     root_dictionary_manifest_path := root_dictionary_manifest_path root;
     root_dictionary_manifest_sha256 := root_dictionary_manifest_sha256 root;
     root_logical_partitions := root_logical_partitions root; root_partitions := root_partitions root;
     root_fact_count := root_fact_count root; root_duplicate_fact_count := root_duplicate_fact_count root;
     root_edge_count := root_edge_count root; root_class_assertion_count := root_class_assertion_count root;
     root_graph_inventory := root_graph_inventory root;
     root_union_default_candidates := root_union_default_candidates root;
     root_asserted_ontology_candidates := root_asserted_ontology_candidates root;
     authorization_state := authorization_state root; qualification_state := qualification_state root;
     publication_state := publication_state root; root_semantic_content_sha256 := digest |}.

(** References sorted by partition do not depend on the order the manifests
    come in. *)
Lemma sorted_references_perm path msha ms ms' :
  NoDup (sp_partition_index <$> ms) -> ms' ≡ₚ ms ->
  sort_by_key ref_partition_index (manifest_reference path msha <$> ms')
  = sort_by_key ref_partition_index (manifest_reference path msha <$> ms).
Proof.
  intros Hnd Hp. refine (sort_by_key_unique ref_partition_index _ _ _ _ (sort_by_key_sorted _ _)).
  - rewrite <- list_fmap_compose. change (NoDup (sp_partition_index <$> ms')).
    by rewrite (fmap_Permutation sp_partition_index _ _ Hp).
  - rewrite sort_by_key_perm. by apply fmap_Permutation.
Qed.

(** Distinct partitions that cover the layout are listed as 0, 1, 2, ... *)
Lemma sorted_references_cover path msha ms n :
  NoDup (sp_partition_index <$> ms) ->
  list_to_set (sp_partition_index <$> ms) = (list_to_set (N.of_nat <$> seq 0 n) : gset N) ->
  ref_partition_index <$> sort_by_key ref_partition_index (manifest_reference path msha <$> ms) = N.of_nat <$> seq 0 n.
Proof.
  intros Hnd Hcov. apply strictly_sorted_unique.
  - apply sort_by_key_strict. by rewrite <- list_fmap_compose.
  - apply ordinals_strict.
  - intros i. rewrite sort_by_key_perm, <- list_fmap_compose.
    rewrite <- (elem_of_list_to_set (C := gset N) i (N.of_nat <$> _)), <- Hcov. by rewrite elem_of_list_to_set.
Qed.

Lemma counters_start : counters_fit root_start [].
Proof. by vm_compute. Qed.

Section finalize.
Context `{Sha256} (path msha : SemanticPartitionManifest -> string) (read_dictionary : list byte -> option DictionaryManifest).
Context (handoff : CompilerHandoffManifest) (sha dpath : string) (document : list byte) (dmsha : string) (verify : bool).
Abbreviation finalize ms :=
  (finalize_semantic_root_inner path msha read_dictionary handoff sha dpath document dmsha ms verify).

(** What the barrier asks of the manifests. *)
Record complete_layout (dsha : string) (ms : list SemanticPartitionManifest) (g : gmap GraphKey N) : Prop := {
  cl_accepted : Forall (accepted handoff sha dsha verify) ms;
  cl_distinct : NoDup (sp_partition_index <$> ms);
  cl_cover : list_to_set (sp_partition_index <$> ms)
             = (list_to_set (N.of_nat <$> seq 0 (N.to_nat (logical_partitions handoff))) : gset N);
  cl_counters : counters_fit root_start ms;
  cl_graphs : try_fold add_graph ∅ (ms ≫= sp_graph_inventory) = Ok g;
}.

Lemma complete_layout_length dsha ms g : complete_layout dsha ms g -> N.of_nat (length ms) = logical_partitions handoff.
Proof using Type.
  intros [_ Hnd Hc _ _]. rewrite <- (length_fmap sp_partition_index ms), <- (size_list_to_set (C := gset N)) by done.
  rewrite Hc, size_list_to_set, length_fmap, length_seq; [lia|]. apply NoDup_fmap_2; [apply _|apply NoDup_seq].
Qed.

Lemma finalize_root_ok ms root :
  finalize ms = Ok root <->
  exists dictionary g, bound_dictionary read_dictionary handoff sha document dmsha verify = Ok dictionary /\
    complete_layout (dictionary_sha256 dictionary) ms g /\
    root = publish_root handoff sha dpath dmsha (admitted path msha root_start ms g).
Proof using Type.
  unfold finalize_semantic_root_inner. split.
  - intros Hr. inv_ok Hr. inv_ok Hr. inv_ok Hr. inv_ok Hr. injection Hr as <-.
    apply admit_all_manifests in Ha1 as (Hacc & Hnd & _ & Hcf & g & Hg & ->); [|apply counters_start].
    apply fail_if_ok in Ha2. bool_prop. cbn [admitted root_start observed] in Ha2. rewrite (right_id_L ∅ (∪)) in Ha2.
    by exists a, g.
  - intros (d & g & -> & Hl & ->). pose proof (complete_layout_length _ _ _ Hl) as Hlen. destruct Hl as [Hacc Hnd Hc Hf Hg].
    cbn [mbind result_bind]. rewrite Hlen, N.eqb_refl. cbn [negb fail_if mbind result_bind].
    rewrite (proj2 (admit_all_manifests path msha handoff sha (dictionary_sha256 d) verify ms root_start
      (admitted path msha root_start ms g) counters_start)).
    + cbn [mbind result_bind]. rewrite bool_decide_eq_true_2; [done|]. cbn [admitted root_start observed].
      by rewrite (right_id_L ∅ (∪)).
    + split_and!; [done|done|set_solver|done|]. by exists g.
Qed.

Lemma complete_layout_perm dsha ms ms' g : ms' ≡ₚ ms -> complete_layout dsha ms g -> complete_layout dsha ms' g.
Proof using Type.
  intros Hp [Hacc Hnd Hc Hf Hg]. pose proof (fmap_Permutation sp_partition_index _ _ Hp) as Hfm. split.
  - rewrite Forall_forall in *. intros m Hm. apply Hacc. by rewrite <- Hp.
  - by rewrite Hfm.
  - rewrite <- Hc. by apply list_to_set_perm_L.
  - unfold counters_fit in *. by rewrite !(total_perm _ ms' ms Hp).
  - eapply add_graphs_perm; [|exact Hg]. by rewrite Hp.
Qed.

Lemma publish_perm ms ms' g : NoDup (sp_partition_index <$> ms) -> ms' ≡ₚ ms ->
  publish_root handoff sha dpath dmsha (admitted path msha root_start ms' g)
  = with_content (publish_root handoff sha dpath dmsha (admitted path msha root_start ms g))
      (hex_encode (sha256 (root_domain ++ concat (content_piece <$> ms')))).
Proof using Type.
  intros Hnd Hp. unfold publish_root, admitted.
  cbn [partitions facts_total duplicates_total edges_total classes_total inventory semantic root_start app].
  by rewrite (sorted_references_perm path msha ms ms'), !(total_perm _ ms' ms Hp) by done.
Qed.
End finalize.

(** the root barrier is exact.  A root is only built from one accepted
    manifest for every partition of the layout; it lists them in partition
    order, its counters are the sums over the partitions, it is never active or
    qualified, and a different order of the same manifests is accepted as well
    and gives the same root but for the content digest. *)
Theorem root_barrier_is_exact `{Sha256} path msha read handoff sha dpath document dmsha manifests verify root :
  finalize_semantic_root_inner path msha read handoff sha dpath document dmsha manifests verify = Ok root ->
  ref_partition_index <$> root_partitions root = N.of_nat <$> seq 0 (N.to_nat (logical_partitions handoff)) /\
  root_partitions root ≡ₚ manifest_reference path msha <$> manifests /\
  (exists dictionary, read document = Some dictionary /\
     Forall (accepted handoff sha (dictionary_sha256 dictionary) verify) manifests) /\
  root_fact_count root = total sp_fact_count manifests /\ root_edge_count root = total sp_edge_count manifests /\
  publication_state root = "inactive" /\ authorization_state root = "unqualified" /\
  forall manifests', manifests' ≡ₚ manifests ->
    finalize_semantic_root_inner path msha read handoff sha dpath document dmsha manifests' verify
    = Ok (with_content root (hex_encode (sha256 (root_domain ++ concat (content_piece <$> manifests'))))).
Proof.
  intros (d & g & Hd & Hl & ->)%finalize_root_ok. split_and!; try done.
  - apply sorted_references_cover; apply Hl.
  - apply sort_by_key_perm.
  - exists d. split; [|apply Hl]. unfold bound_dictionary in Hd. do 8 inv_ok Hd. injection Hd as <-.
    match goal with He : ok_or _ _ = Ok _ |- _ => by apply ok_or_ok in He end.
  - intros ms' Hp. apply finalize_root_ok. exists d, g. split; [done|]. split; [by eapply complete_layout_perm|].
    symmetry. apply publish_perm; [apply Hl|done].
Qed.

(** ** A layout of four partitions *)

Definition one_sha : string := "1111111111111111111111111111111111111111111111111111111111111111".

Definition sample_dictionary : DictionaryManifest :=
  {| dict_format_version := 1; dict_dataset_id := []; dict_snapshot_id := []; dict_compiler_handoff_sha256 := zero_sha;
     map_completion_set_sha256 := zero_sha; dictionary_file := []; dictionary_sha256 := zero_sha; term_count := 0;
     guid_dictionary_file := []; guid_dictionary_sha256 := zero_sha; entity_count := 0; verified_map_completions := 1 |}.

Definition sample_partition `{Sha256} (index : N) (content : string) : SemanticPartitionManifest :=
  {| sp_format_version := 1; sp_dataset_id := []; sp_snapshot_id := []; sp_compiler_handoff_sha256 := zero_sha;
     sp_dictionary_sha256 := zero_sha; sp_partition_index := index;
     sp_partition_id := partition_identity [] [] zero_sha index; sp_input_run_count := 1; sp_fact_count := index;
     sp_duplicate_fact_count := 0; sp_edge_count := index; sp_class_assertion_count := 0; sp_artifacts := [];
     sp_graph_inventory := []; sp_semantic_content_sha256 := content |}.

Definition sample_partitions `{Sha256} : list SemanticPartitionManifest :=
  [sample_partition 2 zero_sha; sample_partition 0 zero_sha; sample_partition 3 zero_sha; sample_partition 1 one_sha].

Lemma root_barrier_is_exact_witness :
  exists root, finalize_semantic_root_inner (H := padded_digest) (fun _ => "m") (fun _ => zero_sha) (fun _ => Some sample_dictionary)
    sample_handoff zero_sha "d" [] zero_sha (sample_partitions (H := padded_digest)) false = Ok root /\
  root_fact_count root = 6%N /\ (ref_partition_index <$> root_partitions root) = [0; 1; 2; 3]%N.
Proof.
  destruct (finalize_semantic_root_inner (H := padded_digest) (fun _ => "m") (fun _ => zero_sha) (fun _ => Some sample_dictionary)
    sample_handoff zero_sha "d" [] zero_sha (sample_partitions (H := padded_digest)) false) as [root|e] eqn:Hr; [|vm_compute in Hr; discriminate].
  exists root. split; [done|].
  destruct (root_barrier_is_exact (H := padded_digest) _ _ _ _ _ _ _ _ _ _ _ Hr) as (Hidx & _ & _ & Hf & _). split.
  - rewrite Hf. by vm_compute.
  - rewrite Hidx. by vm_compute.
Defined.

(** A digest that keeps the last 32 bytes of a message. *)
Program Definition tail_digest : Sha256 := {| sha256 m := padded_sha256 (rev m) |}.
Next Obligation. intros m. unfold padded_sha256. rewrite length_take, length_app, length_replicate. lia. Qed.

(** The content digest of the root does depend on the order of the manifests:
    it is computed while they are read, before they are sorted. *)
Example content_digest_depends_on_order :
  let finalize ms := finalize_semantic_root_inner (H := tail_digest) (fun _ => "m") (fun _ => zero_sha)
                       (fun _ => Some sample_dictionary) sample_handoff zero_sha "d" [] (hex_encode (sha256 (Sha256 := tail_digest) [])) ms false in
  exists root root',
    finalize (sample_partitions (H := tail_digest)) = Ok root /\
    finalize (rev (sample_partitions (H := tail_digest))) = Ok root' /\
    root_semantic_content_sha256 root <> root_semantic_content_sha256 root'.
Proof. vm_compute. do 2 eexists. split; [reflexivity|]. split; [reflexivity|]. discriminate. Qed.
