(* ===== verification/Compilation.v ===== *)
(** * From reduced partitions to a compilation root

    Composes the stages of src/crates/ngkg-semantic-compiler/src/lib.rs: what
    [finalize_dictionary] and [reduce_partition] publish is accepted by
    [finalize_semantic_root_inner], with every artifact verified again, in
    whatever order the reducers finish. *)

From Stdlib Require Import Strings.Byte Strings.String.
From S2P Require Import Prelude Words Ordered Digest Text ExternalSort MapStage Dictionary ReduceStage RootBarrier.

(** ** Identities computed by the compiler itself *)

Section identities.
Context `{Sha256}.

Lemma require_own_sha256 message : require_sha256 (hex_encode (sha256 message)) = Ok tt.
Proof. unfold require_sha256. by rewrite hex_encode_lower. Qed.

Lemma verify_own_file file bytes :
  (forall n, bytes = Some n -> n = N.of_nat (length file)) -> verify_file file (hex_encode (sha256 file)) bytes = Ok tt.
Proof.
  intros Hb. unfold verify_file. rewrite require_own_sha256. cbn [mbind result_bind].
  rewrite String.eqb_refl. destruct bytes as [n|]; [|done]. by rewrite (Hb n), N.eqb_refl.
Qed.

Lemma artifact_verifies file run : artifact file = Ok run ->
  verify_file (run_file run) (run_sha256 run) (Some (run_bytes run)) = Ok tt.
Proof. intros Ha. unfold artifact in Ha. inv_ok Ha. injection Ha as <-. apply verify_own_file. by intros n [= <-]. Qed.

Lemma binary_artifact_verifies file :
  verify_file (run_file (binary_artifact file)) (run_sha256 (binary_artifact file)) (Some (run_bytes (binary_artifact file)))
  = Ok tt.
Proof. apply verify_own_file. by intros n [= <-]. Qed.
End identities.

Lemma decode_own_sha256 `{Sha256} message : exists d, decode_sha256 (hex_encode (sha256 message)) = Ok d.
Proof.
  unfold decode_sha256. rewrite require_own_sha256. cbn [mbind result_bind].
  destruct (decode_lower_sha256 _ (hex_encode_lower message)) as (d & -> & _). by exists d.
Qed.

(** ** Published manifests pass their checks *)

Section pipeline.
Context `{Sha256} (parse_document : list byte -> option (list Quad)) (read_dictionary : list byte -> option DictionaryManifest)
        (write_inventory : list GraphInventoryEntry -> list byte)
        (write_parquet : list Quad -> gmap (list byte) N -> N -> nat -> list byte).
Context (handoff : CompilerHandoffManifest) (sha : string).
Abbreviation reduce := (reduce_partition parse_document read_dictionary write_inventory write_parquet handoff sha).

(** One reducer per partition of the layout. *)
Definition reduce_layout (maps : list FragmentMapManifest) (document : list byte) (dmsha : string) (limits : ReduceLimits) :
    result SemanticCompilerError (list SemanticPartitionManifest) :=
  try_map (fun p => reduce maps document dmsha p limits) (N.of_nat <$> seq 0 (N.to_nat (logical_partitions handoff))).

Lemma reduce_partition_accepted maps document dmsha p limits m :
  reduce maps document dmsha p limits = Ok m ->
  exists dictionary, read_dictionary document = Some dictionary /\ (p < logical_partitions handoff)%N /\
    sp_partition_index m = p /\ accepted handoff sha (dictionary_sha256 dictionary) true m.
Proof using Type.
  unfold reduce_partition. intros Hm. inv_ok Hm. inv_ok Hm. inv_ok Hm. inv_ok Hm. inv_ok Hm. inv_ok Hm. inv_ok Hm. inv_ok Hm.
  inv_ok Hm. inv_ok Hm. destruct a8 as [[canonical facts] duplicates]. do 9 inv_ok Hm. injection Hm as <-.
  apply ok_or_ok in Ha3. exists a3. split; [done|].
  assert (p < logical_partitions handoff)%N as Hp by (apply fail_if_ok in Ha0; bool_prop; lia).
  split; [done|]. split; [done|]. split; [|apply decode_own_sha256].
  unfold validate_partition_manifest, manifest_identity_ok. cbn [sp_format_version sp_dataset_id sp_snapshot_id
    sp_compiler_handoff_sha256 sp_dictionary_sha256 sp_partition_index sp_partition_id sp_semantic_content_sha256 sp_artifacts].
  rewrite !String.eqb_refl, (bool_decide_eq_true_2 (dataset_id handoff = _)), (bool_decide_eq_true_2 (target_snapshot_id handoff = _)),
    (bool_decide_eq_true_2 (partition_identity _ _ _ _ = _)), (proj2 (N.ltb_lt _ _) Hp) by done.
  cbn -[try_map require_sha256]. rewrite require_own_sha256. cbn [mbind result_bind].
  rewrite (try_map_pure (fun _ => tt)); [done|].
  intros run. rewrite !elem_of_cons, elem_of_nil.
  intros [->|[->|[->|[->|[->|[->|[]]]]]]]; (by eapply artifact_verifies) || apply binary_artifact_verifies.
Qed.

Lemma dictionary_bound new_v5 msha maps dictionary document :
  finalize_dictionary new_v5 msha handoff sha maps = Ok dictionary -> read_dictionary document = Some dictionary ->
  bound_dictionary read_dictionary handoff sha document (hex_encode (sha256 document)) true = Ok dictionary.
Proof using Type.
  unfold finalize_dictionary. intros Hd Hread. inv_ok Hd. inv_ok Hd. inv_ok Hd. inv_ok Hd. inv_ok Hd.
  destruct a3 as [dict count]. inv_ok Hd. destruct a3 as [guids entities]. injection Hd as <-.
  unfold bound_dictionary. rewrite Ha, Ha0. cbn [mbind result_bind]. rewrite verify_own_file by done. cbn [mbind result_bind].
  rewrite Hread. cbn [ok_or mbind result_bind dict_format_version dict_dataset_id dict_snapshot_id dict_compiler_handoff_sha256
    verified_map_completions dictionary_sha256 guid_dictionary_sha256 dictionary_file guid_dictionary_file].
  rewrite !bool_decide_eq_true_2, String.eqb_refl, !N.eqb_refl by done. cbn [negb orb fail_if mbind result_bind].
  rewrite !require_own_sha256. cbn [mbind result_bind]. by rewrite !verify_own_file by done.
Qed.

Lemma reduced_layout maps document dmsha limits manifests dictionary :
  read_dictionary document = Some dictionary -> reduce_layout maps document dmsha limits = Ok manifests ->
  Forall (accepted handoff sha (dictionary_sha256 dictionary) true) manifests /\
  sp_partition_index <$> manifests = N.of_nat <$> seq 0 (N.to_nat (logical_partitions handoff)).
Proof using Type.
  intros Hread Hm. apply try_map_ok in Hm. induction Hm as [|p m ps ms Hp _ [IHa IHi]]; [done|].
  apply reduce_partition_accepted in Hp as (d & Hd & _ & Hi & Hacc). simplify_eq. cbn [fmap list_fmap].
  split; [by constructor|]. by f_equal.
Qed.
End pipeline.

(** C7: the compiler's own output reaches a root.  Once the dictionary is
    finalized and every partition of the layout is reduced, the root barrier,
    which verifies every artifact again, accepts the manifests in whatever order
    they arrive: no check of the barrier refuses what the earlier stages
    publish, provided the u64 totals fit.  The root counts the facts of all
    partitions. *)
Theorem reduced_partitions_reach_root `{Sha256} parse_document read_dictionary write_inventory write_parquet new_v5 msha
    path pmsha handoff sha maps dictionary dpath document limits manifests graphs arrival :
  finalize_dictionary new_v5 msha handoff sha maps = Ok dictionary ->
  read_dictionary document = Some dictionary ->
  reduce_layout parse_document read_dictionary write_inventory write_parquet handoff sha maps document
    (hex_encode (sha256 document)) limits = Ok manifests ->
  counters_fit root_start manifests -> try_fold add_graph ∅ (manifests ≫= sp_graph_inventory) = Ok graphs ->
  arrival ≡ₚ manifests ->
  exists root, finalize_semantic_root_inner path pmsha read_dictionary handoff sha dpath document
                 (hex_encode (sha256 document)) arrival true = Ok root /\
    root_fact_count root = total sp_fact_count manifests /\
    ref_partition_index <$> root_partitions root = sp_partition_index <$> manifests.
Proof.
  intros Hd Hread Hm Hc Hg Hp.
  destruct (reduced_layout _ _ _ _ _ _ _ _ _ _ _ _ Hread Hm) as [Hacc Hidx].
  assert (NoDup (sp_partition_index <$> manifests)) as Hnd.
  { rewrite Hidx. apply NoDup_fmap_2; [apply _|apply NoDup_seq]. }
  assert (complete_layout handoff sha true (dictionary_sha256 dictionary) manifests graphs) as Hl
    by (split; [done|done|by rewrite Hidx|done|done]).
  apply (complete_layout_perm _ _ _ _ _ _ _ Hp) in Hl.
  eexists. split.
  { apply finalize_root_ok. exists dictionary, graphs. split; [by eapply dictionary_bound|]. by split. }
  rewrite Hidx. split; [apply (total_perm sp_fact_count _ _ Hp)|]. apply sorted_references_cover; apply Hl.
Qed.

(** ** A compilation of two quads into four partitions *)

Fixpoint first_word (line : list byte) : list byte :=
  match line with
  | [] => []
  | b :: rest => if Byte.eqb b x20 then [] else b :: first_word rest
  end.

(** A reader for the canonical lines of [line_nquads]. *)
Definition line_document (file : list byte) : option (list Quad) :=
  Some ((fun line => {| quad_subject := SubjectNamed (first_word line); quad_predicate := as_bytes "p";
                        quad_object := NamedNode (as_bytes "o"); quad_graph := DefaultGraph |}) <$> lines file).

Definition sample_maps : list FragmentMapManifest :=
  match run_job (H := padded_digest) (H0 := line_nquads) sample_handoff zero_sha sample_job with
  | Ok m => [m] | Err _ => [] end.

Definition two_quad_dictionary : option DictionaryManifest :=
  match finalize_dictionary (H := padded_digest) (fun _ _ => []) (fun _ => []) sample_handoff zero_sha sample_maps with
  | Ok d => Some d | Err _ => None end.

Definition two_quad_reduce (p : N) : result SemanticCompilerError SemanticPartitionManifest :=
  reduce_partition (H := padded_digest) line_document (fun _ => two_quad_dictionary) (fun _ => []) (fun _ _ _ _ => [])
    sample_handoff zero_sha sample_maps [] (hex_encode (padded_sha256 [])) p
    {| max_input_runs := 8; max_partition_quads := 8; parquet_row_group_rows := 1 |}.

Definition two_quad_manifests : list SemanticPartitionManifest :=
  match try_map two_quad_reduce [0; 1; 2; 3]%N with Ok ms => ms | Err _ => [] end.

Lemma reduced_partitions_reach_root_witness :
  exists root, finalize_semantic_root_inner (H := padded_digest) (fun _ => "m") (fun _ => zero_sha) (fun _ => two_quad_dictionary)
      sample_handoff zero_sha "d" [] (hex_encode (padded_sha256 [])) (rev two_quad_manifests) true = Ok root /\
    root_fact_count root = 2%N.
Proof.
  destruct two_quad_dictionary as [d|] eqn:Hd; [|vm_compute in Hd; discriminate].
  assert (finalize_dictionary (H := padded_digest) (fun _ _ => []) (fun _ => []) sample_handoff zero_sha sample_maps = Ok d) as Hf.
  { unfold two_quad_dictionary in Hd. revert Hd. destruct (finalize_dictionary _ _ _ _ _); congruence. }
  assert (try_map two_quad_reduce [0; 1; 2; 3]%N = Ok two_quad_manifests) as Hm by (vm_compute; reflexivity).
  assert (exists graphs, try_fold add_graph ∅ (two_quad_manifests ≫= sp_graph_inventory) = Ok graphs) as [graphs Hg].
  { assert (match try_fold add_graph ∅ (two_quad_manifests ≫= sp_graph_inventory) with Ok _ => true | Err _ => false end = true)
      as Hok by (vm_compute; reflexivity).
    destruct (try_fold add_graph ∅ (two_quad_manifests ≫= sp_graph_inventory)) as [g|e]; [by exists g|discriminate]. }
  unfold two_quad_reduce in Hm. rewrite Hd in Hm.
  destruct (reduced_partitions_reach_root (H := padded_digest) line_document (fun _ => Some d) (fun _ => []) (fun _ _ _ _ => [])
    (fun _ _ => []) (fun _ => []) (fun _ => "m") (fun _ => zero_sha) sample_handoff zero_sha sample_maps d "d" []
    {| max_input_runs := 8; max_partition_quads := 8; parquet_row_group_rows := 1 |} two_quad_manifests graphs
    (rev two_quad_manifests) Hf eq_refl Hm) as (root & Hr & Hc & _).
  - vm_compute. repeat split.
  - exact Hg.
  - symmetry. apply Permutation_rev.
  - exists root. split; [exact Hr|]. rewrite Hc. vm_compute. reflexivity.
Defined.
