(* ===== verification/Adjacency.v ===== *)
(** * Partition adjacency files

    Models the reader of src/crates/ngkg-query-executor/src/partition_path.rs:
    opening checksum-bound adjacency files, binary search for the rows of an
    anchor, seeding a frontier, resolving predicates through the dictionary,
    and the edges a partition serves to the traversal.

    The theorems show that a lookup returns exactly the rows of its anchor,
    that the files the compiler writes (ReduceStage, Dictionary) are what the
    reader expects, and that such a partition discharges [EdgeSource], the
    interface the traversal theorems are proved against. *)

From Stdlib Require Import Strings.Byte Strings.String.
From S2P Require Import Prelude Words Ordered Digest Text ExternalSort MapStage Dictionary ReduceStage.
From S2P Require Import Worklist Planner Terms PathCompiler Path Traversal.

(** What a path names.  Opening a symbolic link reads its target. *)
Inductive Entry :=
| RegularFile (bytes : list byte)
| SymbolicLink (target : list byte)
| OtherEntry
| Missing.

Definition open_file (entry : Entry) : result PartitionPathError (list byte) :=
  match entry with
  | RegularFile bytes | SymbolicLink bytes => Ok bytes
  | OtherEntry | Missing => Err Io
  end.

Definition ADJACENCY_RECORD_BYTES : N := 84.

Record AdjacencyArtifactIdentity := {
  artifact_path : Entry;
  artifact_sha256 : string;
  artifact_bytes : N;
  artifact_rows : N;
}.

Record AdjacencyRow := { anchor : N; predicate : N; other : N; graph : N }.

Record PartitionAdjacencyIndex := {
  forward : AdjacencyArtifactIdentity;
  reverse_index : AdjacencyArtifactIdentity;
}.

Inductive PathGraphScope :=
| UnionDefault
| Named (graph_id : N)
| NamedVariable (graph_ids : gset N).

(** ** Opening *)

Definition validate_artifact `{Sha256} (a : AdjacencyArtifactIdentity) : result PartitionPathError unit :=
  match artifact_path a with
  | Missing => Err Io
  | SymbolicLink _ | OtherEntry => Err AdjacencyIdentity
  | RegularFile bytes =>
      fail_if (negb (N.of_nat (length bytes) =? artifact_bytes a)%N
               || negb (artifact_bytes a =? saturating_mul U64_LIMIT (artifact_rows a) ADJACENCY_RECORD_BYTES)%N
               || negb (lower_hex_sha256 (artifact_sha256 a))
               || negb (String.eqb (hex_encode (sha256 bytes)) (artifact_sha256 a)))
        AdjacencyIdentity
  end.

Definition open_index `{Sha256} (f r : AdjacencyArtifactIdentity) : result PartitionPathError PartitionAdjacencyIndex :=
  _ ← validate_artifact f;
  _ ← validate_artifact r;
  Ok {| forward := f; reverse_index := r |}.

(** ** Records *)

Definition parse_id (bytes : list byte) : result PartitionPathError N :=
  if utf8_valid bytes then ok_or (parse_u64 bytes) AdjacencyIdentity else Err AdjacencyIdentity.

(** [record[from..from + 20]]. *)
Definition field_at (record : list byte) (from : nat) : list byte := take 20 (drop from record).

Definition parse_row (record : list byte) : result PartitionPathError AdjacencyRow :=
  _ ← fail_if (negb (bool_decide (record !! 20 = Some TAB) && bool_decide (record !! 41 = Some TAB)
                     && bool_decide (record !! 62 = Some TAB) && bool_decide (record !! 83 = Some LF)))
        AdjacencyIdentity;
  a ← parse_id (field_at record 0);
  p ← parse_id (field_at record 21);
  o ← parse_id (field_at record 42);
  g ← parse_id (field_at record 63);
  Ok {| anchor := a; predicate := p; other := o; graph := g |}.

Definition read_record (file : list byte) (index : N) : result PartitionPathError (list byte) :=
  offset ← ok_or (checked_mul U64_LIMIT index ADJACENCY_RECORD_BYTES) AdjacencyIdentity;
  let record := take (N.to_nat ADJACENCY_RECORD_BYTES) (drop (N.to_nat offset) file) in
  if length record =? N.to_nat ADJACENCY_RECORD_BYTES then Ok record else Err Io.

Definition checked_row (current maximum : N) : result PartitionPathError N :=
  match checked_add U64_LIMIT current 1 with
  | Some next => if (next <=? maximum)%N then Ok next else Err ScanLimit
  | None => Err ScanLimit
  end.

(** [while low < high]: the range at least halves. *)
Fixpoint seek_anchor (fuel : nat) (file : list byte) (a maximum low high total : N) :
    result PartitionPathError (N * N) :=
  if (low <? high)%N then
    match fuel with
    | O => Err Io
    | S fuel =>
        let middle := (low + (high - low) / 2)%N in
        record ← read_record file middle;
        total ← checked_row total maximum;
        row ← parse_row record;
        if (anchor row <? a)%N then seek_anchor fuel file a maximum (middle + 1) high total
        else seek_anchor fuel file a maximum low middle total
    end
  else Ok (low, total).

(** [while low < artifact.rows], [remaining] rows from the end. *)
Fixpoint scan_anchor (remaining : nat) (file : list byte) (a maximum low total : N) (rows : list AdjacencyRow) :
    result PartitionPathError (list AdjacencyRow * N) :=
  match remaining with
  | O => Ok (rows, total)
  | S remaining =>
      record ← read_record file low;
      row ← parse_row record;
      total ← checked_row total maximum;
      if negb (anchor row =? a)%N then Ok (rows, total)
      else scan_anchor remaining file a maximum (low + 1) total (rows ++ [row])
  end.

Definition read_anchor_rows (artifact : AdjacencyArtifactIdentity) (a maximum total : N) :
    result PartitionPathError (list AdjacencyRow * N) :=
  file ← open_file (artifact_path artifact);
  '(low, total) ← seek_anchor (S (N.to_nat (N.size (artifact_rows artifact)))) file a maximum 0 (artifact_rows artifact) total;
  scan_anchor (N.to_nat (artifact_rows artifact - low)) file a maximum low total [].

(** ** Seeding *)

(** [None]: the graph is not visible; [Some g]: keys carry [g]. *)
Definition graph_for_scope (scope : PathGraphScope) (g : N) (authorized : gset N) : option (option N) :=
  if negb (bool_decide (g ∈ authorized)) then None
  else match scope with
  | UnionDefault => Some None
  | Named required => if (required =? g)%N then Some (Some g) else None
  | NamedVariable graphs => if bool_decide (g ∈ graphs) then Some (Some g) else None
  end.

Definition scoped_origins (scope : PathGraphScope) (authorized : gset N) (entities : AdjacencyRow -> list N)
    (rows : list AdjacencyRow) : list (N * option N) :=
  rows ≫= fun row => match graph_for_scope scope (graph row) authorized with
                     | Some g => (fun e => (e, g)) <$> entities row
                     | None => []
                     end.

(** The sequential scan: [read_exact] until the end of the file. *)
Fixpoint scan_all (fuel : nat) (file : list byte) (maximum total : N) (rows : list AdjacencyRow) :
    result PartitionPathError (list AdjacencyRow * N) :=
  match fuel with
  | O => Ok (rows, total)
  | S fuel =>
      let record := take (N.to_nat ADJACENCY_RECORD_BYTES) file in
      if length record =? N.to_nat ADJACENCY_RECORD_BYTES then
        total ← checked_row total maximum;
        row ← parse_row record;
        scan_all fuel (drop (N.to_nat ADJACENCY_RECORD_BYTES) file) maximum total (rows ++ [row])
      else Ok (rows, total)
  end.

Definition seed_frontier (index : PartitionAdjacencyIndex) (plan : DistributedPropertyPathPlan)
    (scope : PathGraphScope) (subject_filter : option N) (authorized : gset N) (max_rows_read : N) :
    result PartitionPathError (list PathFrontierKey * N) :=
  '(origins, rows_read) ←
    match subject_filter with
    | Some subject =>
        '(frows, rows_read) ← read_anchor_rows (forward index) subject max_rows_read 0;
        '(rrows, rows_read) ← read_anchor_rows (reverse_index index) subject max_rows_read rows_read;
        Ok (scoped_origins scope authorized (fun _ => [subject]) (frows ++ rrows), rows_read)
    | None =>
        file ← open_file (artifact_path (forward index));
        '(rows, rows_read) ← scan_all (length file) file max_rows_read 0 [];
        Ok (scoped_origins scope authorized (fun row => [anchor row; other row]) rows, rows_read)
    end;
  keys ← map_err Execution (seed_scoped_path_frontier origins (automaton plan) (max_frontier_items plan));
  Ok (keys, rows_read).

(** ** Dictionary lookups *)

(** A dictionary row: the text before the first tab and the term after it. *)
Definition dictionary_line (raw : list byte) : result PartitionPathError (list byte * list byte) :=
  line ← line_text Io raw;
  ok_or (split_once TAB line) Dictionary.

(** [lookup_dictionary_terms]: streams rows until every identifier is found. *)
Fixpoint lookup_terms_loop (rows : list (list byte)) (ids : gset N) (output : gmap N (list byte)) :
    result PartitionPathError (gmap N (list byte)) :=
  match rows with
  | [] => Ok output
  | raw :: rows =>
      '(id, term) ← dictionary_line raw;
      id ← ok_or (parse_u64 id) Dictionary;
      if bool_decide (id ∈ ids) then
        let output := <[id := term]> output in
        if size output =? size ids then Ok output else lookup_terms_loop rows ids output
      else lookup_terms_loop rows ids output
  end.

Definition lookup_dictionary_terms (dictionary : Entry) (ids : gset N) : result PartitionPathError (gmap N (list byte)) :=
  if bool_decide (ids = ∅) then Ok ∅
  else
    file ← open_file dictionary;
    output ← lookup_terms_loop (lines file) ids ∅;
    _ ← fail_if (negb (size output =? size ids)) Dictionary;
    Ok output.

(** The loop the two lookups by term share. *)
Fixpoint lookup_ids_loop (rows : list (list byte)) (terms : gset (list byte)) (output : gmap (list byte) N) :
    result PartitionPathError (gmap (list byte) N) :=
  match rows with
  | [] => Ok output
  | raw :: rows =>
      '(id, term) ← dictionary_line raw;
      if bool_decide (term ∈ terms) then
        id ← ok_or (parse_u64 id) Dictionary;
        let output := <[term := id]> output in
        if size output =? size terms then Ok output else lookup_ids_loop rows terms output
      else lookup_ids_loop rows terms output
  end.

Definition lookup_dictionary_ids_available (dictionary : Entry) (terms : gset (list byte)) :
    result PartitionPathError (gmap (list byte) N) :=
  if bool_decide (terms = ∅) then Ok ∅
  else file ← open_file dictionary; lookup_ids_loop (lines file) terms ∅.

Definition lookup_dictionary_ids (dictionary : Entry) (terms : gset (list byte)) :
    result PartitionPathError (gmap (list byte) N) :=
  if bool_decide (terms = ∅) then Ok ∅
  else
    file ← open_file dictionary;
    output ← lookup_ids_loop (lines file) terms ∅;
    _ ← fail_if (negb (size output =? size terms)) Dictionary;
    Ok output.

Fixpoint lookup_id_loop (rows : list (list byte)) (required : list byte) : result PartitionPathError (option N) :=
  match rows with
  | [] => Ok None
  | raw :: rows =>
      '(id, term) ← dictionary_line raw;
      if bool_decide (term = required) then id ← ok_or (parse_u64 id) Dictionary; Ok (Some id)
      else lookup_id_loop rows required
  end.

Definition lookup_dictionary_id_optional (dictionary : Entry) (required : list byte) :
    result PartitionPathError (option N) :=
  file ← open_file dictionary; lookup_id_loop (lines file) required.

(** ** Edges *)

Definition IndexedEdge := (N * N * N * N)%type.

(** The visible rows of every anchor, oriented as edges. *)
Definition read_anchors (artifact : AdjacencyArtifactIdentity) (orient : AdjacencyRow -> IndexedEdge)
    (authorized : gset N) (maximum : N) (anchors : list N) (acc : gset IndexedEdge * N) :
    result PartitionPathError (gset IndexedEdge * N) :=
  try_fold (fun '(indexed, total) a =>
      '(rows, total) ← read_anchor_rows artifact a maximum total;
      Ok (list_to_set (orient <$> filter (fun row => graph row ∈ authorized) rows) ∪ indexed, total))
    acc anchors.

Definition forward_edge (row : AdjacencyRow) : IndexedEdge := (anchor row, predicate row, other row, graph row).
Definition reverse_edge (row : AdjacencyRow) : IndexedEdge := (other row, predicate row, anchor row, graph row).

Definition path_edge (predicates : gmap N (list byte)) (edge : IndexedEdge) : result PartitionPathError PathEdge :=
  let '(source, p, target, g) := edge in
  iri ← ok_or (term ← predicates !! p; strip_prefix (as_bytes "N" ++ [TAB]) term) Dictionary;
  Ok {| source_entity_id := source; edge_predicate_iri := String.string_of_list_byte iri;
        target_entity_id := target; edge_graph_id := g |}.

Definition edges (index : PartitionAdjacencyIndex) (frontier' : list PathFrontierKey)
    (plan : DistributedPropertyPathPlan) (authorized : gset N) (dictionary : Entry) (max_rows_read : N) :
    result PartitionPathError (list PathEdge * N) :=
  let anchors := sorted_elements (list_to_set (entity_id <$> frontier') : gset N) in
  '(indexed, rows_read) ←
    (if needs_direction plan Forward
     then read_anchors (forward index) forward_edge authorized max_rows_read anchors (∅, 0%N)
     else Ok (∅, 0%N));
  '(indexed, rows_read) ←
    (if needs_direction plan Reverse
     then read_anchors (reverse_index index) reverse_edge authorized max_rows_read anchors (indexed, rows_read)
     else Ok (indexed, rows_read));
  let predicate_ids := list_to_set ((fun e : IndexedEdge => e.1.1.2) <$> elements indexed) : gset N in
  predicates ← lookup_dictionary_terms dictionary predicate_ids;
  out ← try_map (path_edge predicates) (sorted_elements indexed);
  Ok (out, rows_read).

(** ** Records read back as they were written *)

Definition row_text (row : AdjacencyRow) : list byte :=
  adjacency_line (anchor row) (predicate row) (other row) (graph row).

Definition row_u64 (row : AdjacencyRow) : Prop :=
  (anchor row < U64_LIMIT /\ predicate row < U64_LIMIT /\ other row < U64_LIMIT /\ graph row < U64_LIMIT)%N.

Lemma parse_id_decimal n : (n < U64_LIMIT)%N -> parse_id (decimal20 n) = Ok n.
Proof.
  intros Hn. unfold parse_id. rewrite ascii_utf8 by apply decimal_ascii. by rewrite parse_decimal20.
Qed.

Lemma length_record row : row_u64 row -> length (write_line (row_text row)) = 84.
Proof.
  intros (?&?&?&?). unfold write_line, row_text, adjacency_line.
  rewrite !length_app. cbn [length]. rewrite !length_app. cbn [length]. rewrite !length_app. cbn [length].
  by rewrite !length_decimal20.
Qed.

(** Four fields of twenty bytes between their separators. *)
Lemma record_fields (a b c d : list byte) :
  length a = 20 -> length b = 20 -> length c = 20 -> length d = 20 ->
  let record := a ++ TAB :: b ++ TAB :: c ++ TAB :: d ++ [LF] in
  record !! 20 = Some TAB /\ record !! 41 = Some TAB /\ record !! 62 = Some TAB /\ record !! 83 = Some LF /\
  field_at record 0 = a /\ field_at record 21 = b /\ field_at record 42 = c /\ field_at record 63 = d.
Proof.
  intros Ha Hb Hc Hd record. unfold field_at, record. clear record.
  assert (forall x (l r : list byte), length l = 20 -> (l ++ x :: r) !! 20 = Some x /\ drop 21 (l ++ x :: r) = r) as Hsep.
  { intros x l r Hl. split.
    - rewrite lookup_app_r by lia. by rewrite Hl.
    - rewrite drop_app_ge by lia. by rewrite Hl. }
  assert (forall k (l : list byte), l !! (21 + k) = drop 21 l !! k) as Hlk by (intros; by rewrite lookup_drop).
  assert (forall k (l : list byte), drop (21 + k) l = drop k (drop 21 l)) as Hdr by (intros; by rewrite drop_drop).
  change 83 with (21 + (21 + (21 + 20))). change 63 with (21 + (21 + 21)). change 62 with (21 + (21 + 20)).
  change 42 with (21 + 21). change 41 with (21 + 20).
  rewrite !Hlk, !Hdr, drop_0.
  rewrite (proj2 (Hsep TAB a _ Ha)), (proj2 (Hsep TAB b _ Hb)), (proj2 (Hsep TAB c _ Hc)).
  split_and!; try (by apply Hsep); by apply take_app_length'.
Qed.

Lemma parse_row_text row : row_u64 row -> parse_row (write_line (row_text row)) = Ok row.
Proof.
  intros (Ha & Hp & Ho & Hg). unfold parse_row, write_line, row_text, adjacency_line.
  pose proof (record_fields (decimal20 (anchor row)) (decimal20 (predicate row)) (decimal20 (other row)) (decimal20 (graph row)))
    as Hf. rewrite !length_decimal20 in Hf by done. specialize (Hf eq_refl eq_refl eq_refl eq_refl).
  cbn zeta in Hf. rewrite <- !app_assoc. cbn [app]. rewrite <- !app_assoc. cbn [app]. rewrite <- !app_assoc. cbn [app].
  destruct Hf as (-> & -> & -> & -> & -> & -> & -> & ->). rewrite !bool_decide_eq_true_2 by done.
  cbn [andb negb fail_if mbind result_bind]. rewrite !parse_id_decimal by done. cbn. by destruct row.
Qed.

Lemma concat_uniform {A} k (ls : list (list A)) i x :
  Forall (fun l => length l = k) ls -> ls !! i = Some x -> take k (drop (i * k) (concat ls)) = x.
Proof.
  intros Hu. revert i. induction Hu as [|l ls Hl _ IH]; intros [|i] Hi; cbn in *; try done.
  - injection Hi as ->. rewrite drop_0. by apply take_app_length'.
  - rewrite <- drop_drop, drop_app_length' by done. by apply IH.
Qed.

(** The file of a list of rows. *)
Definition adjacency_file (rows : list AdjacencyRow) : list byte := concat ((fun r => write_line (row_text r)) <$> rows).

Lemma read_record_file rows i row :
  Forall row_u64 rows -> (N.of_nat (length rows) * 84 < U64_LIMIT)%N -> rows !! i = Some row ->
  read_record (adjacency_file rows) (N.of_nat i) = Ok (write_line (row_text row)).
Proof.
  intros Hu Hl Hi. unfold read_record, ADJACENCY_RECORD_BYTES.
  pose proof (lookup_lt_Some _ _ _ Hi) as Hlt.
  rewrite (proj2 (checked_mul_some U64_LIMIT (N.of_nat i) 84 (N.of_nat i * 84)%N)) by (split; [done|lia]).
  cbn [ok_or mbind result_bind]. change (N.to_nat 84) with 84. replace (N.to_nat (N.of_nat i * 84)) with (i * 84) by lia.
  assert (take 84 (drop (i * 84) (adjacency_file rows)) = write_line (row_text row)) as ->.
  { apply concat_uniform; [|by rewrite list_lookup_fmap, Hi]. apply Forall_fmap. eapply Forall_impl; [exact Hu|].
    intros r Hr. by apply length_record. }
  rewrite length_record; [done|]. rewrite Forall_forall in Hu. by eapply Hu, list_elem_of_lookup_2.
Qed.

Lemma checked_row_ok current maximum next :
  checked_row current maximum = Ok next <-> next = (current + 1)%N /\ (current + 1 <= maximum)%N /\ (current + 1 < U64_LIMIT)%N.
Proof.
  unfold checked_row. destruct (checked_add U64_LIMIT current 1) as [n|] eqn:Hc.
  - apply checked_add_some in Hc as [-> Hlt]. destruct (N.leb_spec (current + 1) maximum); [|naive_solver lia].
    split; [by intros [= <-]|]. by intros (-> & _ & _).
  - split; [done|]. intros (_ & _ & Hlt). exfalso.
    rewrite (proj2 (checked_add_some U64_LIMIT current 1 (current + 1)%N)) in Hc; done.
Qed.

(** ** Lookups are exact *)

Definition by_anchor (r s : AdjacencyRow) : Prop := (anchor r <= anchor s)%N.

(** A file of rows sorted by anchor. *)
Record sorted_artifact (a : AdjacencyArtifactIdentity) (rows : list AdjacencyRow) : Prop := {
  sa_file : open_file (artifact_path a) = Ok (adjacency_file rows);
  sa_rows : artifact_rows a = N.of_nat (length rows);
  sa_u64 : Forall row_u64 rows;
  sa_fits : (N.of_nat (length rows) * 84 < U64_LIMIT)%N;
  sa_sorted : StronglySorted by_anchor rows;
}.

Section lookup.
Context (rows : list AdjacencyRow) (a : N).
Hypothesis Hu : Forall row_u64 rows.
Hypothesis Hfit : (N.of_nat (length rows) * 84 < U64_LIMIT)%N.
Hypothesis Hsorted : StronglySorted by_anchor rows.

(** All rows before [low] are below the anchor, all from [high] on are not. *)
Definition bracket (low high : N) : Prop :=
  (low <= high <= N.of_nat (length rows))%N /\
  (forall i r, rows !! i = Some r -> (N.of_nat i < low)%N -> (anchor r < a)%N) /\
  (forall i r, rows !! i = Some r -> (high <= N.of_nat i)%N -> (a <= anchor r)%N).

Lemma anchor_mono i j r s : i <= j -> rows !! i = Some r -> rows !! j = Some s -> (anchor r <= anchor s)%N.
Proof using Hsorted.
  clear Hu Hfit. intros Hij Hi Hj. destruct (decide (i = j)) as [->|Hne]; [simplify_eq; lia|].
  assert (i < j) as Hlt by lia. clear Hij Hne. revert i j Hi Hj Hlt.
  induction Hsorted as [|x l Hl IH Hx]; intros [|i] [|j] Hi Hj Hlt; cbn in *; try done; try lia.
  - injection Hi as ->. rewrite Forall_forall in Hx. by apply Hx; eapply list_elem_of_lookup_2.
  - apply (IH Hl i j); [done|done|lia].
Qed.

Lemma seek_step low high : bracket low high -> (low < high)%N ->
  let middle := (low + (high - low) / 2)%N in
  exists row, rows !! N.to_nat middle = Some row /\ (low <= middle < high)%N /\
    (((anchor row < a)%N -> bracket (middle + 1) high) /\ ((a <= anchor row)%N -> bracket low middle)).
Proof using Hsorted.
  clear Hu Hfit. intros ((Hle & Hhi) & Hlow & Hhigh) Hlt middle.
  assert (low <= middle < high)%N as Hm.
  { unfold middle. assert ((high - low) / 2 < high - low)%N as Hh by (apply N.div_lt; lia).
    clearbody middle. generalize dependent ((high - low) / 2)%N. intros; lia. }
  destruct (lookup_lt_is_Some_2 rows (N.to_nat middle)) as [row Hrow]; [lia|].
  exists row. split; [done|]. split; [done|]. split; intros Hr; unfold bracket; (split; [lia|]); split; try done.
  - intros i r Hi Hil. assert (anchor r <= anchor row)%N; [|lia]. eapply anchor_mono; [|exact Hi|exact Hrow]. lia.
  - intros i r Hi Hil. assert (anchor row <= anchor r)%N; [|lia]. eapply anchor_mono; [|exact Hrow|exact Hi]. lia.
Qed.

Lemma seek_anchor_spec fuel : forall maximum low high total,
  bracket low high -> (high - low < 2 ^ N.of_nat fuel)%N ->
  (forall l t, seek_anchor (S fuel) (adjacency_file rows) a maximum low high total = Ok (l, t) ->
     bracket l l /\ (total <= t <= total + N.of_nat fuel)%N /\ (t = total \/ t <= maximum)%N) /\
  ((total + N.of_nat fuel <= maximum)%N -> (total + N.of_nat fuel < U64_LIMIT)%N ->
     exists l t, seek_anchor (S fuel) (adjacency_file rows) a maximum low high total = Ok (l, t)).
Proof using Hsorted Hu Hfit.
  induction fuel as [|fuel IH]; intros maximum low high total Hb Hf.
  { cbn in Hf. assert (low = high) as -> by (destruct Hb as [? _]; lia). cbn [seek_anchor]. rewrite N.ltb_irrefl.
    split; [|eauto]. intros l t [= <- <-]. split; [done|]. lia. }
  change (seek_anchor (S (S fuel)) (adjacency_file rows) a maximum low high total) with
    (if (low <? high)%N then
       let middle := (low + (high - low) / 2)%N in
       record ← read_record (adjacency_file rows) middle;
       total ← checked_row total maximum;
       row ← parse_row record;
       if (anchor row <? a)%N then seek_anchor (S fuel) (adjacency_file rows) a maximum (middle + 1) high total
       else seek_anchor (S fuel) (adjacency_file rows) a maximum low middle total
     else Ok (low, total)).
  destruct (N.ltb_spec low high) as [Hlt|Hge].
  2:{ assert (low = high) as -> by (destruct Hb as [? _]; lia). split; [|eauto]. intros l t [= <- <-]. split; [done|]. lia. }
  destruct (seek_step low high Hb Hlt) as (row & Hrow & Hm & Hup & Hdown). cbv zeta.
  set (middle := (low + (high - low) / 2)%N) in *.
  pose proof (read_record_file rows (N.to_nat middle) row Hu Hfit Hrow) as Hread. rewrite N2Nat.id in Hread.
  rewrite Hread. cbn [mbind result_bind].
  assert (row_u64 row) as Hru by (rewrite Forall_forall in Hu; by eapply Hu, list_elem_of_lookup_2).
  assert (2 ^ N.of_nat (S fuel) = 2 * 2 ^ N.of_nat fuel)%N as Hpow by (rewrite Nat2N.inj_succ; apply N.pow_succ_r').
  assert ((high - low) / 2 < 2 ^ N.of_nat fuel)%N as Hhalf by (apply N.Div0.div_lt_upper_bound; lia).
  assert (high - (middle + 1) <= (high - low) / 2)%N as Hhalf2.
  { unfold middle. pose proof (N.div_mod' (high - low) 2). pose proof (N.mod_lt (high - low) 2 ltac:(done)).
    generalize dependent ((high - low) / 2)%N. generalize dependent ((high - low) mod 2)%N. intros; lia. }
  destruct (checked_row total maximum) as [t1|e1] eqn:Hcr; cbn [mbind result_bind].
  2:{ split; [done|]. intros Hmax H64. exfalso.
      rewrite (proj2 (checked_row_ok total maximum (total + 1)%N)) in Hcr; [done|]. split_and!; [done|lia|lia]. }
  apply checked_row_ok in Hcr as (-> & Hmax1 & H641). rewrite parse_row_text by done. cbn [mbind result_bind].
  destruct (N.ltb_spec (anchor row) a) as [Ha|Ha].
  - destruct (IH maximum (middle + 1) high (total + 1)%N (Hup Ha))%N as [Hok Hex]; [lia|]. split.
    + intros l t Hl. destruct (Hok l t Hl) as (? & ? & ?). split; [done|]. split; [lia|]. right. destruct H1; lia.
    + intros. apply Hex; lia.
  - destruct (IH maximum low middle (total + 1)%N (Hdown Ha))%N as [Hok Hex]; [unfold middle; lia|]. split.
    + intros l t Hl. destruct (Hok l t Hl) as (? & ? & ?). split; [done|]. split; [lia|]. right. destruct H1; lia.
    + intros. apply Hex; lia.
Qed.

(** The scan stops behind the last row of the anchor. *)
Lemma scan_anchor_spec suffix : forall maximum low total acc,
  drop (N.to_nat low) rows = suffix -> Forall (fun r => (a <= anchor r)%N) suffix -> StronglySorted by_anchor suffix ->
  let found := filter (fun r => anchor r = a) suffix in
  (forall out t, scan_anchor (length suffix) (adjacency_file rows) a maximum low total acc = Ok (out, t) ->
     out = acc ++ found /\ (total <= t <= total + N.of_nat (length found) + 1)%N /\ (t = total \/ t <= maximum)%N) /\
  ((total + N.of_nat (length found) + 1 <= maximum)%N -> (total + N.of_nat (length found) + 1 < U64_LIMIT)%N ->
     exists out t, scan_anchor (length suffix) (adjacency_file rows) a maximum low total acc = Ok (out, t)).
Proof using Hu Hfit.
  induction suffix as [|r suffix IH]; intros maximum low total acc Hd Hall Hs; cbv zeta; cbn [length scan_anchor].
  { cbn. split; [|eauto]. intros out t [= <- <-]. rewrite app_nil_r. split; [done|]. lia. }
  assert (rows !! N.to_nat low = Some r) as Hr.
  { rewrite <- (Nat.add_0_r (N.to_nat low)), <- lookup_drop, Hd. done. }
  pose proof (read_record_file rows (N.to_nat low) r Hu Hfit Hr) as Hread. rewrite N2Nat.id in Hread.
  assert (row_u64 r) as Hru by (rewrite Forall_forall in Hu; by eapply Hu, list_elem_of_lookup_2).
  rewrite Hread. cbn [mbind result_bind]. rewrite parse_row_text by done. cbn [mbind result_bind].
  apply Forall_cons in Hall as [Har Hall]. apply StronglySorted_inv in Hs as [Hs Hx]. rewrite filter_cons.
  destruct (checked_row total maximum) as [t1|e1] eqn:Hcr; cbn [mbind result_bind].
  2:{ split; [done|]. intros Hmax H64. exfalso.
      rewrite (proj2 (checked_row_ok total maximum (total + 1)%N)) in Hcr; [done|]. split_and!; [done|lia|lia]. }
  apply checked_row_ok in Hcr as (-> & Hmax1 & H641). destruct (N.eqb_spec (anchor r) a) as [Ha|Ha]; cbn [negb].
  - rewrite decide_True by done. cbn [length].
    destruct (IH maximum (low + 1)%N (total + 1)%N (acc ++ [r])) as [Hok Hex].
    { replace (N.to_nat (low + 1)) with (N.to_nat low + 1) by lia. rewrite <- drop_drop, Hd. done. }
    { done. }
    { done. }
    split.
    + intros out t Hl. destruct (Hok out t Hl) as (-> & ? & ?). rewrite <- (assoc (++)). split; [done|]. lia.
    + intros. apply Hex; lia.
  - rewrite decide_False by done. rewrite list_filter_empty.
    + cbn [length]. split; [|eauto]. intros out t [= <- <-]. rewrite app_nil_r. split; [done|]. lia.
    + intros s Hin. rewrite Forall_forall in Hx. specialize (Hx s Hin). unfold by_anchor in Hx. lia.
Qed.

Lemma bracket_filter low :
  bracket low low -> filter (fun r => anchor r = a) rows = filter (fun r => anchor r = a) (drop (N.to_nat low) rows) /\
  Forall (fun r => (a <= anchor r)%N) (drop (N.to_nat low) rows).
Proof using Type.
  clear Hu Hfit Hsorted. intros (_ & Hlow & Hhigh). split.
  - rewrite <- (take_drop (N.to_nat low) rows) at 1. rewrite filter_app, (list_filter_empty _ (take _ _)); [done|].
    intros r [i [Hi Hlt]%lookup_take_Some]%list_elem_of_lookup. specialize (Hlow i r Hi). lia.
  - apply Forall_forall. intros r [i Hi]%list_elem_of_lookup. rewrite lookup_drop in Hi. eapply Hhigh; [exact Hi|]. lia.
Qed.
End lookup.

Lemma StronglySorted_drop {A} (R : relation A) n (l : list A) : StronglySorted R l -> StronglySorted R (drop n l).
Proof.
  revert n. induction l as [|x l IH]; intros [|n] Hl; cbn; try done. apply IH. by apply StronglySorted_inv in Hl as [].
Qed.

(** Rows a lookup may read: the search, the rows of the anchor and one more. *)
Definition lookup_cost (rows : list AdjacencyRow) (a : N) : N :=
  (N.size (N.of_nat (length rows)) + N.of_nat (length (filter (fun r => anchor r = a) rows)) + 1)%N.

Lemma read_anchor_rows_spec artifact rows a maximum total :
  sorted_artifact artifact rows ->
  (forall out t, read_anchor_rows artifact a maximum total = Ok (out, t) ->
     out = filter (fun r => anchor r = a) rows /\ (total <= t <= total + lookup_cost rows a)%N /\ (t = total \/ t <= maximum)%N) /\
  ((total + lookup_cost rows a <= maximum)%N -> (total + lookup_cost rows a < U64_LIMIT)%N ->
     exists out t, read_anchor_rows artifact a maximum total = Ok (out, t)).
Proof.
  intros [Hfile Hrows Hu Hfit Hs]. unfold read_anchor_rows, lookup_cost. rewrite Hfile, Hrows. cbn [mbind result_bind].
  set (n := N.of_nat (length rows)).
  assert (bracket rows a 0 n) as Hb.
  { unfold bracket, n. split; [lia|]. split; [intros; lia|]. intros i r Hi%lookup_lt_Some. lia. }
  assert (n - 0 < 2 ^ N.of_nat (N.to_nat (N.size n)))%N as Hpow by (rewrite N2Nat.id, N.sub_0_r; apply N.size_gt).
  destruct (seek_anchor_spec rows a Hu Hfit Hs (N.to_nat (N.size n)) maximum 0 n total Hb Hpow) as [Hok Hex]. rewrite N2Nat.id in Hok, Hex.
  split.
  - intros out t Ho. inv_ok Ho. destruct a0 as [low t1]. destruct (Hok _ _ Ha) as (Hbl & Ht & Hm).
    destruct (bracket_filter rows a low Hbl) as [Hfl Hall].
    replace (N.to_nat (n - low)) with (length (drop (N.to_nat low) rows)) in Ho by (rewrite length_drop; unfold n; lia).
    destruct (scan_anchor_spec rows a Hu Hfit (drop (N.to_nat low) rows) maximum low t1 []) as [Hsok _];
      [done|done|by apply StronglySorted_drop|]. destruct (Hsok _ _ Ho) as (-> & Ht2 & Hm2). rewrite Hfl. split; [done|]. lia.
  - intros Hmax H64. destruct Hex as (low & t1 & Hseek); [lia..|]. rewrite Hseek. cbn [mbind result_bind].
    destruct (Hok _ _ Hseek) as (Hbl & Ht & Hm). destruct (bracket_filter rows a low Hbl) as [Hfl Hall].
    replace (N.to_nat (n - low)) with (length (drop (N.to_nat low) rows)) by (rewrite length_drop; unfold n; lia).
    rewrite Hfl in *.
    destruct (scan_anchor_spec rows a Hu Hfit (drop (N.to_nat low) rows) maximum low t1 []) as [_ Hsex];
      [done|done|by apply StronglySorted_drop|]. apply Hsex; lia.
Qed.

(** ** Dictionary lookups *)

(** The bindings of [ids] in the dictionary [terms]. *)
Definition restricts (terms : list (list byte)) (ids : gset N) (m : gmap N (list byte)) : Prop :=
  forall id, m !! id = if bool_decide (id ∈ ids) then terms !! N.to_nat id else None.

Lemma dictionary_line_row id term : good_text term -> dictionary_line (dictionary_row id term) = Ok (decimal id, term).
Proof.
  intros Hg. unfold dictionary_line. rewrite (good_line_text _ _ (row_good id term Hg)). cbn [mbind result_bind].
  by rewrite split_row.
Qed.

Lemma lookup_terms_loop_spec (terms : list (list byte)) (ids : gset N) suffix : forall base output,
  drop (N.to_nat base) terms = suffix -> Forall good_text suffix -> (N.of_nat (length terms) < U64_LIMIT)%N ->
  (forall id, output !! id = if bool_decide (id ∈ ids /\ (id < base)%N) then terms !! N.to_nat id else None) ->
  exists m, lookup_terms_loop (numbered base suffix) ids output = Ok m /\ restricts terms ids m.
Proof.
  induction suffix as [|t suffix IH]; intros base output Hd Hg Hlen Ho.
  { exists output. split; [done|]. intros id. rewrite Ho. pose proof (f_equal length Hd) as Hl. rewrite length_drop in Hl.
    cbn in Hl. case_bool_decide as Hb; case_bool_decide as Hi; try done; [tauto|].
    symmetry. apply lookup_ge_None. assert (~ (id < base)%N) by tauto. lia. }
  apply Forall_cons in Hg as [Ht Hg].
  assert (terms !! N.to_nat base = Some t) as Hbase.
  { rewrite <- (Nat.add_0_r (N.to_nat base)), <- lookup_drop, Hd. done. }
  pose proof (lookup_lt_Some _ _ _ Hbase) as Hlt. rewrite numbered_cons. cbn [lookup_terms_loop].
  rewrite dictionary_line_row by done. cbn [mbind result_bind]. rewrite parse_u64_decimal by lia. cbn [ok_or mbind result_bind].
  assert (drop (N.to_nat (base + 1)) terms = suffix) as Hd'.
  { replace (N.to_nat (base + 1)) with (N.to_nat base + 1) by lia. by rewrite <- drop_drop, Hd. }
  case_bool_decide as Hin.
  - assert (forall id, <[base := t]> output !! id
              = if bool_decide (id ∈ ids /\ (id < base + 1)%N) then terms !! N.to_nat id else None) as Ho'.
    { intros id. destruct (decide (base = id)) as [<-|Hne].
      - rewrite lookup_insert_eq, bool_decide_eq_true_2 by (split; [done|lia]). done.
      - rewrite lookup_insert_ne, Ho by done. rewrite (bool_decide_ext (id ∈ ids /\ (id < base + 1)%N) (id ∈ ids /\ (id < base)%N)) by
          (split; intros [? ?]; (split; [done|]); lia). done. }
    destruct (Nat.eqb_spec (size (<[base := t]> output)) (size ids)) as [Hsz|Hsz].
    + eexists. split; [done|]. intros id. rewrite Ho'.
      assert (dom (<[base := t]> output) = ids) as Hdom.
      { apply set_subseteq_size_eq; [|rewrite size_dom; lia]. intros i Hi%elem_of_dom.
        rewrite Ho' in Hi. case_bool_decide as Hb; [apply Hb|by destruct Hi]. }
      case_bool_decide as Hb; case_bool_decide as Hi; try done; [tauto|].
      rewrite <- Hdom in Hi. apply elem_of_dom in Hi as [x Hx]. rewrite Ho', bool_decide_eq_false_2 in Hx; done.
    + by apply (IH (base + 1)%N).
  - apply (IH (base + 1)%N); try done. intros id. rewrite Ho.
    rewrite (bool_decide_ext (id ∈ ids /\ (id < base + 1)%N) (id ∈ ids /\ (id < base)%N)); [done|].
    split; intros [Hi ?]; (split; [done|]); [|lia]. destruct (decide (id = base)); [by subst|lia].
Qed.

(** Streaming a dense dictionary finds exactly the requested terms. *)
Lemma lookup_dictionary_terms_spec dictionary terms ids :
  open_file dictionary = Ok (dictionary_of terms) -> Forall good_text terms -> (N.of_nat (length terms) < U64_LIMIT)%N ->
  (forall m, lookup_dictionary_terms dictionary ids = Ok m -> restricts terms ids m) /\
  ((forall id, id ∈ ids -> (id < N.of_nat (length terms))%N) -> exists m, lookup_dictionary_terms dictionary ids = Ok m).
Proof.
  intros Hd Hg Hl. unfold lookup_dictionary_terms. case_bool_decide as He.
  { split; [|eauto]. intros m [= <-] id. rewrite lookup_empty, bool_decide_eq_false_2; [done|]. subst. set_solver. }
  rewrite Hd. cbn [mbind result_bind]. unfold dictionary_of. rewrite lines_dictionary by done.
  destruct (lookup_terms_loop_spec terms ids terms 0 ∅) as (m & -> & Hm); [by rewrite drop_0|done|done| |].
  { intros id. rewrite lookup_empty, bool_decide_eq_false_2; [done|]. lia. }
  cbn [mbind result_bind]. split.
  - intros m' Ho. inv_ok Ho. by injection Ho as <-.
  - intros Hin. assert (dom m = ids) as Hdom.
    { apply leibniz_equiv. intros id. rewrite elem_of_dom, Hm. case_bool_decide as Hi.
      - split; [done|]. intros _. apply lookup_lt_is_Some. specialize (Hin id Hi). lia.
      - split; [by intros []|done]. }
    rewrite <- size_dom, Hdom, Nat.eqb_refl. cbn. eauto.
Qed.

(** ** The edges of a partition *)

Record PartitionFiles := {
  pf_index : PartitionAdjacencyIndex;
  pf_dictionary : Entry;
}.

Definition flip_row (r : AdjacencyRow) : AdjacencyRow :=
  {| anchor := other r; predicate := predicate r; other := anchor r; graph := graph r |}.

(** The files hold [rows] in both directions and the dictionary [terms]. *)
Record serves (files : PartitionFiles) (rows : list AdjacencyRow) (terms : list (list byte)) : Prop := {
  sv_forward : sorted_artifact (forward (pf_index files)) rows;
  sv_reverse : exists back, sorted_artifact (reverse_index (pf_index files)) back /\
                 forall r, r ∈ back <-> flip_row r ∈ rows;
  sv_dictionary : open_file (pf_dictionary files) = Ok (dictionary_of terms);
  sv_terms : Forall good_text terms;
  sv_count : (N.of_nat (length terms) < U64_LIMIT)%N;
}.

(** The edge a row stands for, when its predicate is a named node. *)
Definition row_edge (terms : list (list byte)) (r : AdjacencyRow) : option PathEdge :=
  iri ← (term ← terms !! N.to_nat (predicate r); strip_prefix (as_bytes "N" ++ [TAB]) term);
  Some {| source_entity_id := anchor r; edge_predicate_iri := String.string_of_list_byte iri;
          target_entity_id := other r; edge_graph_id := graph r |}.

(** The edges of a partition that a caller with [authorized] may see. *)
Definition visible_edges (authorized : gset N) (rows : list AdjacencyRow) (terms : list (list byte)) : list PathEdge :=
  omap (row_edge terms) (filter (fun r => graph r ∈ authorized) rows).

Lemma read_anchors_spec artifact rows orient authorized maximum anchors : forall acc out,
  sorted_artifact artifact rows -> read_anchors artifact orient authorized maximum anchors acc = Ok out ->
  forall e, e ∈ out.1 <-> e ∈ acc.1 \/ exists r, r ∈ rows /\ anchor r ∈ anchors /\ graph r ∈ authorized /\ e = orient r.
Proof.
  intros acc out Hs. unfold read_anchors. revert acc.
  induction anchors as [|a anchors IH]; intros acc Ho e; cbn [try_fold] in Ho.
  { injection Ho as <-. split; [by left|]. intros [?|(r & _ & Hr & _)]; [done|]. by apply elem_of_nil in Hr. }
  destruct acc as [ix total]. inv_ok Ho. inv_ok Ha. destruct a1 as [got t]. injection Ha as <-.
  apply (read_anchor_rows_spec _ _ _ _ _ Hs) in Ha0 as (-> & _ & _).
  rewrite (IH _ Ho e). cbn [fst]. rewrite elem_of_union, elem_of_list_to_set, list_elem_of_fmap. split.
  - intros [[(r & -> & [Hg [Ha Hr]%list_elem_of_filter]%list_elem_of_filter)|?]|(r & ? & ? & ? & ?)].
    + right. exists r. rewrite elem_of_cons. auto.
    + by left.
    + right. exists r. rewrite elem_of_cons. auto.
  - intros [?|(r & Hr & [Ha|Ha]%elem_of_cons & Hg & ->)]; [tauto| |right; by exists r].
    left. left. exists r. split; [done|]. by rewrite !list_elem_of_filter.
Qed.

Lemma path_edge_ok terms ids predicates r e :
  restricts terms ids predicates -> predicate r ∈ ids ->
  path_edge predicates (forward_edge r) = Ok e <-> row_edge terms r = Some e.
Proof.
  intros Hr Hin. unfold path_edge, row_edge, forward_edge. rewrite Hr, bool_decide_eq_true_2 by done.
  destruct (terms !! N.to_nat (predicate r)) as [t|]; cbn [mbind option_bind ok_or result_bind]; [|done].
  destruct (strip_prefix _ t); cbn; [|done]. split; by intros [= <-].
Qed.

Lemma reverse_edge_flip r : reverse_edge r = forward_edge (flip_row r).
Proof. done. Qed.

(** What the reader returns: edges of visible rows at the frontier's anchors. *)
Lemma edges_spec files rows terms frontier' plan authorized maximum out n :
  serves files rows terms ->
  edges (pf_index files) frontier' plan authorized (pf_dictionary files) maximum = Ok (out, n) ->
  forall edge, edge ∈ out <-> exists r, r ∈ rows /\ graph r ∈ authorized /\ row_edge terms r = Some edge /\
    ((needs_direction plan Forward = true /\ anchor r ∈ entity_id <$> frontier') \/
     (needs_direction plan Reverse = true /\ other r ∈ entity_id <$> frontier')).
Proof.
  intros [Hf (back & Hb & Hflip) Hd Hg Hc] He. unfold edges in He. inv_ok He. destruct a as [ix0 t0].
  inv_ok He. destruct a as [ix t1]. inv_ok He. inv_ok He. injection He as <- <-.
  assert (forall x, x ∈ sorted_elements (list_to_set (entity_id <$> frontier') : gset N) <-> x ∈ entity_id <$> frontier') as Hanch.
  { intros x. by rewrite elem_of_sorted_elements, elem_of_list_to_set. }
  assert (forall e, e ∈ ix0 <-> exists r, r ∈ rows /\ graph r ∈ authorized /\ e = forward_edge r /\
            needs_direction plan Forward = true /\ anchor r ∈ entity_id <$> frontier') as H0.
  { intros e. destruct (needs_direction plan Forward).
    - pose proof (read_anchors_spec _ _ _ _ _ _ _ _ Hf Ha e) as Hr. cbn [fst] in Hr. setoid_rewrite Hanch in Hr.
      rewrite Hr. set_solver.
    - injection Ha as <- <-. set_solver. }
  assert (forall e, e ∈ ix <-> exists r, r ∈ rows /\ graph r ∈ authorized /\ e = forward_edge r /\
            ((needs_direction plan Forward = true /\ anchor r ∈ entity_id <$> frontier') \/
             (needs_direction plan Reverse = true /\ other r ∈ entity_id <$> frontier'))) as H1.
  { intros e. destruct (needs_direction plan Reverse).
    - pose proof (read_anchors_spec _ _ _ _ _ _ _ _ Hb Ha0 e) as Hr. cbn [fst] in Hr. setoid_rewrite Hanch in Hr.
      rewrite Hr, H0. split.
      + intros [(r & ? & ? & ? & ? & ?)|(r & Hrb & ? & ? & ->)]; [exists r; split_and!; auto|].
        exists (flip_row r). rewrite <- Hflip. split_and!; try done. by right.
      + intros (r & ? & ? & -> & [[? ?]|[_ ?]]); [left; by exists r|]. right. exists (flip_row r).
        assert (flip_row (flip_row r) = r) as Hff by (by destruct r). rewrite Hflip, reverse_edge_flip, Hff. done.
    - injection Ha0 as <- <-. rewrite H0. set_solver. }
  apply (lookup_dictionary_terms_spec _ _ _ Hd Hg Hc) in Ha1.
  assert (forall r, forward_edge r ∈ ix ->
    predicate r ∈ (list_to_set ((fun e : IndexedEdge => e.1.1.2) <$> elements ix) : gset N)) as Hpred.
  { intros r Hr. apply elem_of_list_to_set, list_elem_of_fmap. exists (forward_edge r). split; [done|]. by apply elem_of_elements. }
  apply try_map_ok in Ha2. intros edge. split.
  - intros [i Hi]%list_elem_of_lookup. destruct (Forall2_lookup_r _ _ _ _ _ Ha2 Hi) as (e & Hei & Hpe).
    apply list_elem_of_lookup_2, elem_of_sorted_elements in Hei. pose proof (proj1 (H1 e) Hei) as (r & ? & ? & -> & ?).
    exists r. split_and!; try done. by apply (path_edge_ok _ _ _ r edge Ha1 (Hpred r Hei)).
  - intros (r & Hr & Hgr & Hre & Hdir). assert (forward_edge r ∈ ix) as Hix by (apply H1; by exists r).
    pose proof Hix as Hs. apply elem_of_sorted_elements, list_elem_of_lookup in Hs as [i Hi].
    destruct (Forall2_lookup_l _ _ _ _ _ Ha2 Hi) as (e & Hei & Hpe).
    apply (path_edge_ok _ _ _ r e Ha1 (Hpred r Hix)) in Hpe. simplify_eq. by eapply list_elem_of_lookup_2.
Qed.

(** ** A partition is an edge source *)

Lemma row_edge_ends terms r e :
  row_edge terms r = Some e -> source_entity_id e = anchor r /\ target_entity_id e = other r /\ edge_graph_id e = graph r.
Proof.
  unfold row_edge. destruct (_ ≫= _ : option (list byte)) as [iri|]; cbn; [|done]. by intros [= <-].
Qed.

Lemma elem_of_visible authorized rows terms e :
  e ∈ visible_edges authorized rows terms <-> exists r, r ∈ rows /\ graph r ∈ authorized /\ row_edge terms r = Some e.
Proof.
  unfold visible_edges. rewrite list_elem_of_omap. setoid_rewrite list_elem_of_filter. naive_solver.
Qed.

Section source.
Context (files : N -> PartitionFiles) (rows : N -> list AdjacencyRow) (terms : N -> list (list byte)).
Context (authorized : gset N) (max_rows_read : N).
Hypothesis Hserves : forall sp, serves (files sp) (rows sp) (terms sp).

(** Well-formed partition files discharge what the traversal assumes. *)
Program Definition partition_source : EdgeSource :=
  {| stored sp := visible_edges authorized (rows sp) (terms sp);
     fetch plan sp frontier' := edges (pf_index (files sp)) frontier' plan authorized (pf_dictionary (files sp)) max_rows_read |}.
Next Obligation.
  intros plan sp frontier' out n Hf edge Hin. apply (edges_spec _ _ _ _ _ _ _ _ _ (Hserves sp) Hf) in Hin
    as (r & ? & ? & ? & _). apply elem_of_visible. by exists r.
Qed.
Next Obligation.
  intros plan sp frontier' out n Hf edge key d (r & Hr & Hg & He)%elem_of_visible Hk Hd Ht.
  apply (edges_spec _ _ _ _ _ _ _ _ _ (Hserves sp) Hf). exists r. split_and!; try done.
  destruct (row_edge_ends _ _ _ He) as (Hs & Hto & _). destruct d; cbn in Ht; apply N.eqb_eq in Ht.
  - left. split; [done|]. apply list_elem_of_fmap. exists key. split; [congruence|done].
  - right. split; [done|]. apply list_elem_of_fmap. exists key. split; [congruence|done].
Qed.
End source.

(** ** Scanning every row *)

Lemma scan_all_spec rows : forall fuel maximum total acc,
  Forall row_u64 rows -> length rows <= fuel -> (total + N.of_nat (length rows) < U64_LIMIT)%N ->
  scan_all fuel (adjacency_file rows) maximum total acc
  = if (bool_decide (rows = []) || (total + N.of_nat (length rows) <=? maximum)%N)
    then Ok (acc ++ rows, (total + N.of_nat (length rows))%N) else Err ScanLimit.
Proof.
  induction rows as [|r rows IH]; intros fuel maximum total acc Hu Hf H64.
  { cbn. rewrite app_nil_r, N.add_0_r. by destruct fuel. }
  apply Forall_cons in Hu as [Hr Hu]. cbn [length] in *. destruct fuel as [|fuel]; [lia|].
  cbn [scan_all]. change (N.to_nat ADJACENCY_RECORD_BYTES) with 84.
  assert (adjacency_file (r :: rows) = write_line (row_text r) ++ adjacency_file rows) as -> by done.
  pose proof (length_record r Hr) as Hlr. rewrite take_app_length', drop_app_length', Hlr by done. cbn [Nat.eqb].
  rewrite bool_decide_eq_false_2 by done. cbn [orb].
  destruct (checked_row total maximum) as [t1|e1] eqn:Hcr; cbn [mbind result_bind].
  - apply checked_row_ok in Hcr as (-> & Hmax & _). rewrite parse_row_text by done. cbn [mbind result_bind].
    rewrite IH by (done || lia). rewrite <- (assoc (++)). cbn [app].
    replace (total + 1 + N.of_nat (length rows))%N with (total + N.of_nat (S (length rows)))%N by lia.
    destruct (bool_decide (rows = [])) eqn:He; bool_prop; cbn [orb]; [|done].
    subst rows. rewrite (proj2 (N.leb_le _ _)); [done|]. cbn. lia.
  - destruct (N.leb_spec (total + N.of_nat (S (length rows))) maximum) as [Hle|]; [exfalso|].
    + rewrite (proj2 (checked_row_ok total maximum (total + 1)%N)) in Hcr; [done|]. split_and!; [done|lia|lia].
    + unfold checked_row in Hcr. destruct (checked_add _ _ _) as [n|]; [destruct (n <=? maximum)%N|]; congruence.
Qed.

(** The origins a scan seeds. *)
Lemma elem_of_scoped_origins scope authorized entities rows e g :
  (e, g) ∈ scoped_origins scope authorized entities rows <->
  exists r, r ∈ rows /\ graph_for_scope scope (graph r) authorized = Some g /\ e ∈ entities r.
Proof.
  unfold scoped_origins. rewrite list_elem_of_bind. split.
  - intros (r & Hin & Hr). destruct (graph_for_scope _ _ _) as [g'|] eqn:Hg; [|by apply elem_of_nil in Hin].
    apply list_elem_of_fmap in Hin as (e' & [= <- <-] & He). by exists r.
  - intros (r & Hr & Hg & He). exists r. rewrite Hg. split; [|done]. by apply (list_elem_of_fmap_2 (fun e => (e, g))).
Qed.

Lemma seed_scoped_ok origins A max keys :
  seed_scoped_path_frontier origins A max = Ok keys ->
  forall k, k ∈ keys <-> (origin_entity_id k, key_graph_id k) ∈ origins /\ entity_id k = origin_entity_id k /\
                        automaton_state k = start_state A.
Proof.
  unfold seed_scoped_path_frontier. intros Hs. do 2 inv_ok Hs. injection Hs as <-. intros k.
  rewrite list_elem_of_fmap. split.
  - intros ([e g] & -> & He%elem_of_sorted_elements%elem_of_list_to_set). done.
  - intros (Ho & He & Ha'). exists (origin_entity_id k, key_graph_id k). rewrite elem_of_sorted_elements, elem_of_list_to_set.
    split; [|done]. destruct k; cbn in *. congruence.
Qed.

(** The nodes a partition seeds: both ends of every visible row. *)
Definition seeds (scope : PathGraphScope) (authorized : gset N) (rows : list AdjacencyRow) (k : PathFrontierKey) : Prop :=
  entity_id k = origin_entity_id k /\
  exists r, r ∈ rows /\ graph_for_scope scope (graph r) authorized = Some (key_graph_id k) /\
    (origin_entity_id k = anchor r \/ origin_entity_id k = other r).

(** ** The compiler's files serve *)

Lemma row_text_inj r s : row_u64 r -> row_u64 s -> row_text r = row_text s -> r = s.
Proof.
  intros (?&?&?&?) (?&?&?&?) He. apply adjacency_line_inj in He as (?&?&?&?); try done. destruct r, s; cbn in *. congruence.
Qed.

(** Lines in byte order are rows in anchor order. *)
Lemma row_text_order r s : row_u64 r -> row_u64 s -> rlt (row_text r) (row_text s) -> by_anchor r s.
Proof.
  intros (Hr&_) (Hs&_) Hlt. unfold rlt, row_text, adjacency_line in Hlt. rewrite cmp_app_len in Hlt by (by rewrite !length_decimal20).
  rewrite !decimal20_digits, cmp_digits in Hlt by (done || by apply u64_20_digits).
  unfold by_anchor. destruct (N.compare_spec (anchor r) (anchor s)); [lia|lia|]. by cbn in Hlt.
Qed.

Lemma sorted_rows_file rs :
  Forall row_u64 rs ->
  exists rows, sorted_file (row_text <$> rs) = adjacency_file rows /\ (forall r, r ∈ rows <-> r ∈ rs) /\
    StronglySorted by_anchor rows /\ Forall row_u64 rows /\ length rows <= length rs.
Proof.
  intros Hu. rewrite Forall_forall in Hu. unfold sorted_file.
  set (ls := sorted_elements (list_to_set (row_text <$> rs) : gset (list byte))).
  assert (forall l, l ∈ ls <-> l ∈ row_text <$> rs) as Hls by (intros l; unfold ls; by rewrite elem_of_sorted_elements, elem_of_list_to_set).
  pose proof (sorted_elements_strict (list_to_set (row_text <$> rs) : gset (list byte))) as Hst. fold ls in Hst.
  assert (length ls <= length rs) as Hlen.
  { unfold ls. rewrite length_sorted_elements, <- (length_fmap row_text rs). apply size_list_to_set_bound. }
  clearbody ls.
  assert (exists rows, ls = row_text <$> rows /\ Forall (fun r => r ∈ rs) rows) as (rows & -> & Hin).
  { assert (forall l, l ∈ ls -> l ∈ row_text <$> rs) as Hsub by (intros; by apply Hls). clear Hls Hst Hlen.
    induction ls as [|l ls IH]; [by exists []|].
    destruct IH as (rows & -> & Hin); [intros; apply Hsub; by right|].
    assert (l ∈ row_text <$> rs) as (r & -> & Hr)%list_elem_of_fmap by (apply Hsub; left). exists (r :: rows). split; [done|]. by constructor. }
  rewrite Forall_forall in Hin. exists rows. split_and!.
  - unfold adjacency_file. by rewrite <- list_fmap_compose.
  - intros r. split; [apply Hin|]. intros Hr.
    assert (row_text r ∈ row_text <$> rows) as (r' & Heq & Hr')%list_elem_of_fmap by (apply Hls; by apply list_elem_of_fmap_2).
    apply row_text_inj in Heq as ->; auto.
  - assert (forall r, r ∈ rows -> row_u64 r) as Hru by auto. clear Hls Hin Hlen. induction rows as [|r rows IH]; [constructor|].
    apply StronglySorted_inv in Hst as [Hst Hx]. constructor.
    + apply IH; [done|]. intros; apply Hru; by right.
    + change (Forall (rlt (row_text r)) (row_text <$> rows)) in Hx. rewrite Forall_fmap in Hx. rewrite Forall_forall in Hx.
      apply Forall_forall. intros s Hs. apply row_text_order; [apply Hru; left|apply Hru; by right|]. by apply Hx.
  - apply Forall_forall. auto.
  - by rewrite length_fmap in Hlen.
Qed.

Definition edge_row (e : Edge) : AdjacencyRow :=
  {| anchor := edge_subject e; predicate := edge_predicate e; other := edge_object e; graph := edge_graph e |}.

Lemma opened_artifact `{Sha256} artifact file rows :
  artifact_path artifact = RegularFile file -> validate_artifact artifact = Ok tt ->
  file = adjacency_file rows -> Forall row_u64 rows -> StronglySorted by_anchor rows ->
  (N.of_nat (length rows) * 84 < U64_MAX)%N -> sorted_artifact artifact rows.
Proof.
  intros Hp Hv -> Hu Hs Hfit. unfold validate_artifact in Hv. rewrite Hp in Hv. inv_ok Hv. bool_prop.
  assert (length (adjacency_file rows) = length rows * 84) as Hlen.
  { clear -Hu. unfold adjacency_file. induction Hu as [|r rows Hr _ IH]; [done|].
    cbn [fmap list_fmap concat length]. rewrite length_app, length_record by done. lia. }
  assert (U64_MAX < U64_LIMIT)%N by (vm_compute; done).
  split; try done; [by rewrite Hp| |lia].
  unfold saturating_mul, ADJACENCY_RECORD_BYTES in *. fold U64_MAX in *. lia.
Qed.


(** ** Enough rows are enough *)

Definition scan_cost (rows : list AdjacencyRow) (anchors : list N) : N := foldr N.add 0%N (lookup_cost rows <$> anchors).

Lemma read_anchors_total artifact rows orient authorized maximum anchors : forall ix total,
  sorted_artifact artifact rows -> (total + scan_cost rows anchors <= maximum)%N -> (total + scan_cost rows anchors < U64_LIMIT)%N ->
  exists out t, read_anchors artifact orient authorized maximum anchors (ix, total) = Ok (out, t) /\
    (t <= total + scan_cost rows anchors)%N.
Proof.
  unfold read_anchors, scan_cost. induction anchors as [|a anchors IH]; intros ix total Hs Hm H64; cbn [try_fold fmap list_fmap foldr] in *.
  { exists ix, total. split; [done|lia]. }
  destruct (read_anchor_rows_spec artifact rows a maximum total Hs) as [Hok Hex].
  destruct Hex as (out & t & Hr); [lia..|]. rewrite Hr. destruct (Hok _ _ Hr) as (_ & Ht & _). cbn [mbind result_bind].
  destruct (IH (list_to_set (orient <$> filter (fun row => graph row ∈ authorized) out) ∪ ix) t Hs) as (out' & t' & -> & Ht'); [lia..|].
  exists out', t'. split; [done|lia].
Qed.

Lemma edges_total files rows back terms frontier' plan authorized maximum :
  serves files rows terms -> sorted_artifact (reverse_index (pf_index files)) back ->
  (forall r, r ∈ back <-> flip_row r ∈ rows) ->
  (forall r, r ∈ rows -> graph r ∈ authorized -> is_Some (row_edge terms r)) ->
  let anchors := sorted_elements (list_to_set (entity_id <$> frontier') : gset N) in
  (scan_cost rows anchors + scan_cost back anchors <= maximum)%N ->
  (scan_cost rows anchors + scan_cost back anchors < U64_LIMIT)%N ->
  exists out, edges (pf_index files) frontier' plan authorized (pf_dictionary files) maximum = Ok out.
Proof.
  intros Hsv Hb Hflip Hres anchors Hm H64. destruct Hsv as [Hf _ Hd Hg Hc]. unfold edges. fold anchors.
  assert (exists ix t, (if needs_direction plan Forward
     then read_anchors (forward (pf_index files)) forward_edge authorized maximum anchors (∅, 0%N)
     else Ok (∅, 0%N)) = Ok (ix, t) /\ (t <= scan_cost rows anchors)%N /\
     forall e, e ∈ ix -> exists r, r ∈ rows /\ graph r ∈ authorized /\ e = forward_edge r) as (ix & t & -> & Ht & Hix).
  { destruct (needs_direction plan Forward).
    - destruct (read_anchors_total _ rows forward_edge authorized maximum anchors ∅ 0 Hf) as (ix & t & Hr & Ht); [lia..|].
      exists ix, t. split; [done|]. split; [lia|]. intros e He. apply (read_anchors_spec _ _ _ _ _ _ _ _ Hf Hr) in He.
      destruct He as [He|(r & ? & ? & ? & ->)]; [set_solver|by exists r].
    - exists ∅, 0%N. split; [done|]. split; [lia|]. set_solver. }
  cbn [mbind result_bind].
  assert (exists ix' t', (if needs_direction plan Reverse
     then read_anchors (reverse_index (pf_index files)) reverse_edge authorized maximum anchors (ix, t)
     else Ok (ix, t)) = Ok (ix', t') /\
     forall e, e ∈ ix' -> exists r, r ∈ rows /\ graph r ∈ authorized /\ e = forward_edge r) as (ix' & t' & -> & Hix').
  { destruct (needs_direction plan Reverse).
    - destruct (read_anchors_total _ back reverse_edge authorized maximum anchors ix t Hb) as (ix' & t' & Hr & Ht'); [lia..|].
      exists ix', t'. split; [done|]. intros e He. apply (read_anchors_spec _ _ _ _ _ _ _ _ Hb Hr) in He.
      destruct He as [He|(r & Hrb & _ & ? & ->)]; [by apply Hix|]. exists (flip_row r). by rewrite <- Hflip.
    - by exists ix, t. }
  cbn [mbind result_bind].
  set (ids := list_to_set ((fun e : IndexedEdge => e.1.1.2) <$> elements ix') : gset N).
  destruct (lookup_dictionary_terms_spec (pf_dictionary files) terms ids Hd Hg Hc) as [Hrs Hex].
  destruct Hex as [m Hlk].
  { intros id Hid. unfold ids in Hid. apply elem_of_list_to_set, list_elem_of_fmap in Hid as (e & -> & He%elem_of_elements).
    destruct (Hix' e He) as (r & Hr & Hgr & ->). destruct (Hres r Hr Hgr) as [x Hx]. unfold row_edge in Hx.
    destruct (terms !! N.to_nat (predicate r)) eqn:Ht0; [|done]. apply lookup_lt_Some in Ht0. cbn. lia. }
  rewrite Hlk. cbn [mbind result_bind]. specialize (Hrs m Hlk).
  destruct (try_map_total (path_edge m) (sorted_elements ix')) as [out ->]; [|by eexists].
  intros e He%elem_of_sorted_elements. destruct (Hix' e He) as (r & Hr & Hgr & ->). destruct (Hres r Hr Hgr) as [x Hx].
  exists x. apply (path_edge_ok terms ids); [done| |done]. unfold ids. apply elem_of_list_to_set, list_elem_of_fmap.
  exists (forward_edge r). split; [done|]. by apply elem_of_elements.
Qed.

(** a lookup reads exactly the rows of its anchor.  On a file of rows sorted
    by anchor, binary search and scan return all rows of the anchor and no
    other, never more than the admitted number of rows is read, and a budget of
    the logarithm of the file plus the matching rows plus one always suffices. *)
Theorem anchor_lookup_is_exact artifact rows a maximum total :
  sorted_artifact artifact rows ->
  (forall out t, read_anchor_rows artifact a maximum total = Ok (out, t) ->
     out = filter (fun r => anchor r = a) rows /\ (t <= total + lookup_cost rows a)%N /\ (t = total \/ t <= maximum)%N) /\
  ((total + lookup_cost rows a <= maximum)%N -> (total + lookup_cost rows a < U64_LIMIT)%N ->
     exists t, read_anchor_rows artifact a maximum total = Ok (filter (fun r => anchor r = a) rows, t)).
Proof.
  intros Hs. destruct (read_anchor_rows_spec artifact rows a maximum total Hs) as [Hok Hex]. split.
  - intros out t Hr. destruct (Hok out t Hr) as (? & ? & ?). split_and!; [done|lia|done].
  - intros Hm H64. destruct (Hex Hm H64) as (out & t & Hr). destruct (Hok out t Hr) as (-> & _). by exists t.
Qed.

(** a partition serves its visible edges.  The reader returns, for a
    frontier, exactly the edges in authorized graphs that leave a frontier
    vertex forwards or enter it when the automaton reads backwards, each with
    the predicate its dictionary row names; it succeeds whenever the row budget
    covers the lookups and every visible predicate is a named node.  Graphs
    outside the authorized set never contribute an edge. *)
Theorem partition_serves_visible_edges files rows back terms frontier' plan authorized maximum :
  serves files rows terms -> sorted_artifact (reverse_index (pf_index files)) back ->
  (forall r, r ∈ back <-> flip_row r ∈ rows) ->
  (forall out n, edges (pf_index files) frontier' plan authorized (pf_dictionary files) maximum = Ok (out, n) ->
     forall edge, edge ∈ out <-> edge ∈ visible_edges authorized rows terms /\
       exists key, key ∈ frontier' /\
         ((needs_direction plan Forward = true /\ edge_touches edge (entity_id key) Forward = true) \/
          (needs_direction plan Reverse = true /\ edge_touches edge (entity_id key) Reverse = true))) /\
  ((forall r, r ∈ rows -> graph r ∈ authorized -> is_Some (row_edge terms r)) ->
   let anchors := sorted_elements (list_to_set (entity_id <$> frontier') : gset N) in
   (scan_cost rows anchors + scan_cost back anchors <= maximum)%N ->
   (scan_cost rows anchors + scan_cost back anchors < U64_LIMIT)%N ->
   exists out, edges (pf_index files) frontier' plan authorized (pf_dictionary files) maximum = Ok out).
Proof.
  intros Hs Hb Hflip. split; [|by apply edges_total]. intros out n He edge.
  rewrite (edges_spec _ _ _ _ _ _ _ _ _ Hs He edge), elem_of_visible. cbn [edge_touches]. setoid_rewrite N.eqb_eq. split.
  - intros (r & Hr & Hg & Hre & Hd). split; [by exists r|]. destruct (row_edge_ends _ _ _ Hre) as (-> & -> & _).
    destruct Hd as [[? (k & -> & ?)%list_elem_of_fmap]|[? (k & -> & ?)%list_elem_of_fmap]]; exists k; auto.
  - intros [(r & Hr & Hg & Hre) (k & Hk & Hd)]. exists r. destruct (row_edge_ends _ _ _ Hre) as (Hsrc & Htgt & _).
    split_and!; try done. rewrite Hsrc, Htgt in Hd. destruct Hd as [[? ->]|[? ->]]; [left|right];
      (split; [done|]); by apply list_elem_of_fmap_2.
Qed.

(** C40: what the compiler writes, the query side reads.  The adjacency files of
    a partition, once they pass the checks of opening, hold one row per edge in
    both directions: together with a dense dictionary they serve exactly the
    compiled edges, so they satisfy every assumption of the traversal. *)
Theorem compiled_files_serve_their_edges `{Sha256} d group quads es a f r index dictionary terms :
  try_map (quad_ids d) quads = Ok es -> Forall edge_u64 es -> NoDup es -> (N.of_nat (length quads) + 3 < U32_LIMIT)%N ->
  build_partition_artifacts quads d group = Ok a ->
  artifact_path f = RegularFile (adjacency_forward a) -> artifact_path r = RegularFile (adjacency_reverse a) ->
  open_index f r = Ok index ->
  open_file dictionary = Ok (dictionary_of terms) -> Forall good_text terms -> (N.of_nat (length terms) < U64_LIMIT)%N ->
  exists rows, serves {| pf_index := index; pf_dictionary := dictionary |} rows terms /\
    forall row, row ∈ rows <-> exists e, e ∈ es /\ row = edge_row e.
Proof.
  intros Hq Hu Hnd Hn Hb Hpf Hpr Ho Hd Hg Ht.
  pose proof (build_artifacts_spec d group quads es Hq Hu Hn) as Hspec. rewrite bool_decide_eq_true_2 in Hspec by done.
  destruct Hspec as (a' & Ha' & Hfw & Hrv & _). rewrite Hb in Ha'. injection Ha' as <-.
  unfold open_index in Ho. do 2 inv_ok Ho. injection Ho as <-. destruct a0, a1.
  assert (Forall row_u64 (edge_row <$> es)) as Huf by (by apply Forall_fmap).
  assert (Forall row_u64 (flip_row ∘ edge_row <$> es)) as Hur.
  { apply Forall_fmap. eapply Forall_impl; [exact Hu|]. intros e (?&?&?&?). done. }
  destruct (sorted_rows_file _ Huf) as (rows & Hfile & Hrows & Hs & Hru & Hlr).
  destruct (sorted_rows_file _ Hur) as (back & Hbfile & Hback & Hbs & Hbu & Hlb).
  rewrite <- !list_fmap_compose in Hfile, Hbfile.
  assert (length es = length quads) as Hlen by (by eapply try_map_length).
  rewrite length_fmap in Hlr, Hlb. assert (84 * U32_LIMIT < U64_MAX)%N by (vm_compute; done).
  exists rows. split.
  - split; cbn [pf_index pf_dictionary forward reverse_index]; try done.
    + eapply opened_artifact; [exact Hpf|done| |done|done|lia]. by rewrite Hfw.
    + exists back. split.
      * eapply opened_artifact; [exact Hpr|done| |done|done|lia]. by rewrite Hrv.
      * intros row. rewrite Hback, Hrows, !list_elem_of_fmap. split.
        -- intros (e & -> & He). exists e. split; [|done]. by destruct e.
        -- intros (e & Hfe & He). exists e. split; [|done]. cbn. rewrite <- Hfe. by destruct row.
  - intros row. rewrite Hrows, list_elem_of_fmap. naive_solver.
Qed.

(** seeding is exact.  The seeds of a partition are the ends of its rows in
    graphs that are both authorized and in scope, tagged with the graph when
    the scope names one; asking for one subject returns exactly the seeds of
    that subject, although it reads only that subject's rows. *)
Theorem seeding_is_exact files rows terms plan scope filter' authorized maximum keys n :
  serves files rows terms -> seed_frontier (pf_index files) plan scope filter' authorized maximum = Ok (keys, n) ->
  forall k, k ∈ keys <-> seeds scope authorized rows k /\ automaton_state k = start_state (automaton plan) /\
    (forall s, filter' = Some s -> origin_entity_id k = s).
Proof.
  intros [Hf (back & Hb & Hflip) _ _ _] Hs k. unfold seed_frontier, seeds in *. inv_ok Hs. destruct a as [origins t].
  inv_ok Hs. inv_ok Ha0. injection Hs as <- <-. rename a into keys. rewrite (seed_scoped_ok _ _ _ _ Ha0 k).
  enough ((origin_entity_id k, key_graph_id k) ∈ origins <->
    (exists r, r ∈ rows /\ graph_for_scope scope (graph r) authorized = Some (key_graph_id k) /\
      (origin_entity_id k = anchor r \/ origin_entity_id k = other r)) /\
    (forall s, filter' = Some s -> origin_entity_id k = s)) as -> by naive_solver. clear Ha0.
  destruct filter' as [s|].
  - inv_ok Ha. destruct a as [fr t1]. inv_ok Ha. destruct a as [rr t2]. injection Ha as <- <-.
    apply (read_anchor_rows_spec _ _ _ _ _ Hf) in Ha0 as (-> & _). apply (read_anchor_rows_spec _ _ _ _ _ Hb) in Ha1 as (-> & _).
    rewrite elem_of_scoped_origins. split.
    + intros (r & Hin & Hg & Hk%list_elem_of_singleton). rewrite Hk.
      apply elem_of_app in Hin as [Hin|Hin]; apply list_elem_of_filter in Hin as [Hs Hr]; subst s;
        (split; [|by intros s [= <-]]).
      * exists r. auto.
      * exists (flip_row r). rewrite <- Hflip. auto.
    + intros [(r & Hr & Hg & Hk) Hfil]. specialize (Hfil s eq_refl). rewrite Hfil in *.
      destruct Hk as [->|Ho]; [exists r|exists (flip_row r)]; rewrite elem_of_app, !list_elem_of_filter, list_elem_of_singleton.
      * auto.
      * assert (flip_row (flip_row r) = r) as Hff by (by destruct r). rewrite Hflip, Hff. subst s. auto.
  - inv_ok Ha. rewrite (sa_file _ _ Hf) in Ha0. injection Ha0 as <-. inv_ok Ha. destruct a as [all t1].
    injection Ha as <- <-.
    assert (length rows <= length (adjacency_file rows)) as Hfuel.
    { clear. unfold adjacency_file. induction rows as [|r rows IH]; [done|]. cbn [fmap list_fmap concat length].
      rewrite length_app. unfold write_line at 1. rewrite length_app. cbn [length]. lia. }
    pose proof (sa_fits _ _ Hf). rewrite scan_all_spec in Ha0 by (apply Hf || lia).
    destruct (_ || _); [|done]. injection Ha0 as <- <-. cbn [app]. rewrite elem_of_scoped_origins.
    setoid_rewrite elem_of_cons. setoid_rewrite list_elem_of_singleton. naive_solver.
Qed.

(** ** Witnesses *)

Definition text (t : string) : list byte := as_bytes t.

(** Two edges between [a] and [b] in the default graph. *)
Definition sample_terms : list (list byte) :=
  [text "D" ++ [TAB]; named_key (text "a"); named_key (text "b"); named_key (text "p")].
Definition sample_ids : gmap (list byte) N := list_to_map (zip sample_terms (N.of_nat <$> seq 0 4)).
Definition sample_quad (s o : string) : Quad :=
  {| quad_subject := SubjectNamed (text s); quad_predicate := text "p"; quad_object := MapStage.NamedNode (text o);
     quad_graph := DefaultGraph |}.
Definition sample_quads : list Quad := [sample_quad "b" "a"; sample_quad "a" "b"].
Definition sample_row (s o : N) : AdjacencyRow := {| anchor := s; predicate := 3; other := o; graph := 0 |}.
Definition sample_rows : list AdjacencyRow := [sample_row 1 2; sample_row 2 1].

Definition sample_artifact (rows : list AdjacencyRow) : AdjacencyArtifactIdentity :=
  let file := adjacency_file rows in
  {| artifact_path := RegularFile file; artifact_sha256 := hex_encode (padded_sha256 file);
     artifact_bytes := N.of_nat (length file); artifact_rows := N.of_nat (length rows) |}.

Definition sample_files : PartitionFiles :=
  {| pf_index := {| forward := sample_artifact sample_rows; reverse_index := sample_artifact sample_rows |};
     pf_dictionary := RegularFile (dictionary_of sample_terms) |}.

Lemma sample_sorted : sorted_artifact (sample_artifact sample_rows) sample_rows.
Proof.
  split; [done|done| |by vm_compute|].
  - repeat constructor; by vm_compute.
  - repeat constructor; by vm_compute.
Qed.

Lemma sample_terms_good : Forall good_text sample_terms.
Proof.
  repeat apply Forall_cons_2; try apply Forall_nil_2; apply plain_good, plain_decide; vm_compute; reflexivity.
Qed.

Lemma sample_serves : serves sample_files sample_rows sample_terms.
Proof.
  split; [apply sample_sorted| |done|apply sample_terms_good|by vm_compute].
  exists sample_rows. split; [apply sample_sorted|]. intros [a p o g]. unfold sample_rows, sample_row, flip_row.
  rewrite !elem_of_cons, !elem_of_nil. cbn. naive_solver.
Qed.

Lemma anchor_lookup_is_exact_witness :
  exists t, read_anchor_rows (sample_artifact sample_rows) 2 10 0 = Ok ([sample_row 2 1], t).
Proof.
  exact (proj2 (anchor_lookup_is_exact (sample_artifact sample_rows) sample_rows 2 10 0 sample_sorted)
    ltac:(vm_compute; discriminate) ltac:(vm_compute; reflexivity)).
Defined.

Definition sample_plan_p : DistributedPropertyPathPlan := sample_path_plan field_json plus_p_automaton.
Definition sample_key (e : N) : PathFrontierKey :=
  {| origin_entity_id := e; entity_id := e; automaton_state := 0; key_graph_id := None |}.

Lemma sample_flip r : r ∈ sample_rows <-> flip_row r ∈ sample_rows.
Proof.
  destruct r as [a p o g]. unfold sample_rows, sample_row, flip_row. rewrite !elem_of_cons, !elem_of_nil. cbn. naive_solver.
Qed.

Lemma sample_resolved r : r ∈ sample_rows -> graph r ∈ ({[0%N]} : gset N) -> is_Some (row_edge sample_terms r).
Proof. intros [->|[->|[]%elem_of_nil]%elem_of_cons]%elem_of_cons _; vm_compute; eauto. Qed.

Lemma partition_serves_visible_edges_witness :
  exists out, edges (pf_index sample_files) [sample_key 1] sample_plan_p {[0%N]} (pf_dictionary sample_files) 100 = Ok out.
Proof.
  refine (proj2 (partition_serves_visible_edges sample_files sample_rows sample_rows sample_terms [sample_key 1]
    sample_plan_p {[0%N]} 100 sample_serves sample_sorted sample_flip) sample_resolved _ _).
  - vm_compute. discriminate.
  - vm_compute. reflexivity.
Defined.

Definition sample_built : result SemanticCompilerError PartitionArtifacts :=
  build_partition_artifacts sample_quads sample_ids 10.

(** The compiled files are the sample files. *)
Lemma compiled_files_serve_their_edges_witness :
  exists a index rows, sample_built = Ok a /\
    serves {| pf_index := index; pf_dictionary := pf_dictionary sample_files |} rows sample_terms /\
    sample_row 1 2 ∈ rows.
Proof.
  destruct sample_built as [a|e] eqn:Hb; [|exfalso; vm_compute in Hb; discriminate Hb].
  destruct (open_index (H := padded_digest) (sample_artifact sample_rows) (sample_artifact sample_rows)) as [index|e] eqn:Ho;
    [|exfalso; vm_compute in Ho; discriminate Ho].
  destruct (compiled_files_serve_their_edges (H := padded_digest) sample_ids 10 sample_quads
    [{| edge_subject := 2; edge_predicate := 3; edge_object := 1; edge_graph := 0 |};
     {| edge_subject := 1; edge_predicate := 3; edge_object := 2; edge_graph := 0 |}] a
    (sample_artifact sample_rows) (sample_artifact sample_rows) index (pf_dictionary sample_files) sample_terms)
    as (rows & Hs & Hrows).
  - vm_compute. reflexivity.
  - repeat constructor; vm_compute; reflexivity.
  - apply (bool_decide_eq_true_1 _). vm_compute. reflexivity.
  - vm_compute. reflexivity.
  - exact Hb.
  - vm_compute in Hb. injection Hb as <-. vm_compute. reflexivity.
  - vm_compute in Hb. injection Hb as <-. vm_compute. reflexivity.
  - exact Ho.
  - reflexivity.
  - exact sample_terms_good.
  - vm_compute. reflexivity.
  - exists a, index, rows. split; [reflexivity|]. split; [exact Hs|]. apply Hrows.
    exists {| edge_subject := 1; edge_predicate := 3; edge_object := 2; edge_graph := 0 |}. split; [|reflexivity].
    right. left.
Defined.

Definition sample_seeds : result PartitionPathError (list PathFrontierKey * N) :=
  seed_frontier (pf_index sample_files) sample_plan_p UnionDefault (Some 1%N) {[0%N]} 100.

Lemma seeding_is_exact_witness :
  exists keys n, sample_seeds = Ok (keys, n) /\
    forall k, k ∈ keys -> origin_entity_id k = 1%N.
Proof.
  destruct sample_seeds as [[keys n]|e] eqn:Hs; [|exfalso; vm_compute in Hs; discriminate Hs].
  exists keys, n. split; [reflexivity|]. intros k Hk.
  exact (proj2 (proj2 (proj1 (seeding_is_exact sample_files sample_rows sample_terms sample_plan_p
    UnionDefault (Some 1%N) {[0%N]} 100 keys n sample_serves Hs k) Hk)) 1%N eq_refl).
Defined.
