(* ===== verification/Autoscaling.v ===== *)
(** * Autoscaling decisions

    Models src/crates/ngkg-autoscaling/src/lib.rs: the decision taken for one
    node pool from one observation ([evaluate_pool]) and the qualification
    certificate ([certify_autoscaling]).  Counts are [u32], loads and
    capacities [u64], percentages [u8]; the product of a load and 100 fits the
    [u128] it is computed in.  [serde_json] on the evidence is a parameter. *)

From Stdlib Require Import Strings.Byte Strings.String.
From S2P Require Import Prelude Words Ordered Digest.

Local Open Scope N_scope.

Definition AUTOSCALING_FORMAT_VERSION : N := 1.
Definition PRODUCTION_SATURATION_TARGET_PERCENT : N := 80.

Inductive WorkloadClass :=
| SourceIngestion | SemanticProjection | SemanticArtifactBuild | IndexBuild | OfflineReasoning
| OnlineReasoning | SparqlQuery | SparqlFragment | ParquetHydration | StorageRecovery.

Inductive DemandOwner := Hpa | Keda | Operator.

Record PoolPolicy := {
  policy_workload : WorkloadClass;
  policy_pool_name : string;
  node_label : string;
  demand_owner : DemandOwner;
  min_nodes : N;
  max_nodes : N;
  scale_up_step : N;
  scale_down_step : N;
  cpu_target_percent : N;
  memory_target_percent : N;
  scale_from_zero : bool;
  drain_requires_checkpoint : bool;
}.

Record NodeResourceSample := {
  node_name : string;
  ready : bool;
  allocatable_cpu_millis : N;
  requested_cpu_millis : N;
  used_cpu_millis : N;
  allocatable_memory_bytes : N;
  requested_memory_bytes : N;
  used_memory_bytes : N;
}.

Record PoolObservation := {
  observed_unix_millis : N;
  current_nodes : N;
  pending_pods : N;
  active_work_items : N;
  active_checkpoint_bytes : N;
  active_spill_bytes : N;
  nodes : list NodeResourceSample;
}.

Inductive ScalingAction := ScaleFromZero | ScaleOut | Hold | ScaleIn | ScaleInBlocked.

Record ScalingDecision := {
  decision_format_version : N;
  decision_workload : WorkloadClass;
  decision_pool_name : string;
  action : ScalingAction;
  decision_current_nodes : N;
  desired_nodes : N;
  ready_nodes : N;
  decision_pending_pods : N;
  cpu_saturation_percent : N;
  memory_saturation_percent : N;
  trigger : string;
  observation_sha256 : string;
}.

Inductive AutoscalingError :=
| InvalidContract (what : string)
| Incomplete (what : string).

Global Instance WorkloadClass_eq_dec : EqDecision WorkloadClass.
Proof. solve_decision. Defined.
Global Instance ScalingAction_eq_dec : EqDecision ScalingAction.
Proof. solve_decision. Defined.

Definition workload_label (w : WorkloadClass) : string :=
  match w with
  | SourceIngestion => "source-ingestion"
  | SemanticProjection => "semantic-projection"
  | SemanticArtifactBuild => "semantic-artifact-build"
  | IndexBuild => "index-build"
  | OfflineReasoning => "reasoning"
  | OnlineReasoning => "online-reasoning"
  | SparqlQuery => "sparql-query-processing"
  | SparqlFragment => "sparql-fragment-processing"
  | ParquetHydration => "parquet-hydration"
  | StorageRecovery => "storage-recovery"
  end.

Definition is_empty (s : string) : bool := String.eqb s "".

Definition validate_policy (p : PoolPolicy) : result AutoscalingError unit :=
  fail_if (is_empty (policy_pool_name p)
           || negb (String.eqb (node_label p) ("ngkg.io/workload=" +:+ workload_label (policy_workload p)))
           || (max_nodes p =? 0) || (max_nodes p <? min_nodes p) || (scale_up_step p =? 0) || (scale_down_step p =? 0)
           || negb (cpu_target_percent p =? PRODUCTION_SATURATION_TARGET_PERCENT)
           || negb (memory_target_percent p =? PRODUCTION_SATURATION_TARGET_PERCENT)
           || (min_nodes p =? 0) && negb (scale_from_zero p))
    (InvalidContract "pool policy violates the production 80-percent ownership envelope").

(** One node of [validate_observation]; the state is the set of names seen. *)
Definition validate_node (names : gset string) (n : NodeResourceSample) : result AutoscalingError (gset string) :=
  _ ← fail_if (is_empty (node_name n) || bool_decide (node_name n ∈ names)
               || (allocatable_cpu_millis n =? 0) || (allocatable_memory_bytes n =? 0)
               || (allocatable_cpu_millis n <? requested_cpu_millis n)
               || (allocatable_memory_bytes n <? requested_memory_bytes n))
        (InvalidContract "node observation is invalid or over-requested");
  Ok ({[node_name n]} ∪ names).

Definition validate_observation (o : PoolObservation) : result AutoscalingError unit :=
  _ ← try_fold validate_node ∅ (nodes o); Ok tt.

(** [div_ceil]: rounded up, so that a load above 79 percent counts as 80. *)
Definition percent (used capacity : N) : result AutoscalingError N :=
  _ ← fail_if (capacity =? 0) (InvalidContract "ready capacity is zero");
  Ok (N.min ((used * 100 + capacity - 1) / capacity) 100).

Definition saturation_step (acc : N * N * N) (n : NodeResourceSample) : result AutoscalingError (N * N * N) :=
  let '(cpu, memory, ready_count) := acc in
  c ← percent (N.max (requested_cpu_millis n) (used_cpu_millis n)) (allocatable_cpu_millis n);
  m ← percent (N.max (requested_memory_bytes n) (used_memory_bytes n)) (allocatable_memory_bytes n);
  Ok (N.max cpu c, N.max memory m, saturating_add U32_LIMIT ready_count 1).

Definition maximum_node_saturation (o : PoolObservation) : result AutoscalingError (N * N) :=
  match nodes o with
  | [] => Ok (0, 0)
  | _ =>
      '(cpu, memory, ready_count) ← try_fold saturation_step (0, 0, 0) (filter (fun n => ready n = true) (nodes o));
      _ ← fail_if (ready_count =? 0) (InvalidContract "pool has nodes but no ready capacity");
      Ok (cpu, memory)
  end.

Definition scale_out_reason (cpu memory pending : bool) : string :=
  match cpu, memory, pending with
  | true, true, _ => "cpu-and-memory-at-80-percent"
  | true, false, _ => "cpu-at-80-percent"
  | false, true, _ => "memory-at-80-percent"
  | false, false, true => "unschedulable-pod-demand"
  | _, _, _ => "capacity-demand"
  end.

(** The action, the desired node count and its trigger. *)
Definition choose_action (p : PoolPolicy) (o : PoolObservation) (cpu memory : N) :
    result AutoscalingError (ScalingAction * N * string) :=
  let pending := 0 <? pending_pods o in
  let cpu_high := cpu_target_percent p <=? cpu in
  let memory_high := memory_target_percent p <=? memory in
  if current_nodes o =? 0 then
    if pending || (0 <? active_work_items o) then
      _ ← fail_if (negb (scale_from_zero p))
            (Incomplete "work exists in a zero-sized pool without scale-from-zero");
      Ok (ScaleFromZero, N.min (N.max (min_nodes p) 1) (max_nodes p), "pending-work-at-zero")
    else Ok (Hold, 0, "idle-zero-pool")
  else if cpu_high || memory_high || pending then
    let desired := N.min (saturating_add U32_LIMIT (current_nodes o) (scale_up_step p)) (max_nodes p) in
    let reason := scale_out_reason cpu_high memory_high pending in
    if desired =? current_nodes o then Ok (Hold, desired, "maximum-nodes:" +:+ reason)
    else Ok (ScaleOut, desired, reason)
  else if (min_nodes p <? current_nodes o) && (active_work_items o =? 0) then
    if (0 <? active_spill_bytes o) || drain_requires_checkpoint p && (0 <? active_checkpoint_bytes o) then
      Ok (ScaleInBlocked, current_nodes o, "checkpoint-or-spill-active")
    else Ok (ScaleIn, N.max (current_nodes o - scale_down_step p) (min_nodes p), "idle-and-drain-safe")
  else Ok (Hold, current_nodes o, "below-target").

Section decisions.
Context `{Sha256}.

(** [canonical_sha256] of evidence that serialises to [bytes]. *)
Definition canonical_sha256 (bytes : option (list byte)) : result AutoscalingError string :=
  b ← ok_or bytes (InvalidContract "evidence cannot be encoded"); Ok (hex_encode (sha256 b)).

Context (observation_json : PoolObservation -> option (list byte)).

Definition evaluate_pool (p : PoolPolicy) (o : PoolObservation) : result AutoscalingError ScalingDecision :=
  _ ← validate_policy p;
  _ ← validate_observation o;
  _ ← fail_if (negb (fits U32_LIMIT (N.of_nat (length (nodes o))))) (InvalidContract "node count exceeds u32");
  _ ← fail_if (negb (current_nodes o =? N.of_nat (length (nodes o)))) (InvalidContract "declared and observed node counts differ");
  let ready_count := N.of_nat (length (filter (fun n => ready n = true) (nodes o))) in
  _ ← fail_if (negb (fits U32_LIMIT ready_count)) (InvalidContract "ready node count exceeds u32");
  '(cpu, memory) ← maximum_node_saturation o;
  '(act, desired, why) ← choose_action p o cpu memory;
  sha ← canonical_sha256 (observation_json o);
  Ok {| decision_format_version := AUTOSCALING_FORMAT_VERSION; decision_workload := policy_workload p;
        decision_pool_name := policy_pool_name p; action := act; decision_current_nodes := current_nodes o;
        desired_nodes := desired; ready_nodes := ready_count; decision_pending_pods := pending_pods o;
        cpu_saturation_percent := cpu; memory_saturation_percent := memory; trigger := why; observation_sha256 := sha |}.
End decisions.

(** ** Certification *)

Definition workload_rank (w : WorkloadClass) : N :=
  match w with
  | SourceIngestion => 0 | SemanticProjection => 1 | SemanticArtifactBuild => 2 | IndexBuild => 3 | OfflineReasoning => 4
  | OnlineReasoning => 5 | SparqlQuery => 6 | SparqlFragment => 7 | ParquetHydration => 8 | StorageRecovery => 9
  end.

Global Instance workload_rank_inj : Inj (=) (=) workload_rank.
Proof. by intros [] []. Qed.
Global Instance workload_ord : RustOrd WorkloadClass := ord_by workload_rank _.
Global Instance workload_countable : Countable WorkloadClass.
Proof.
  refine (inj_countable workload_rank (fun n => match n with
    | 0 => Some SourceIngestion | 1 => Some SemanticProjection | 2 => Some SemanticArtifactBuild | 3 => Some IndexBuild
    | 4 => Some OfflineReasoning | 5 => Some OnlineReasoning | 6 => Some SparqlQuery | 7 => Some SparqlFragment
    | 8 => Some ParquetHydration | 9 => Some StorageRecovery | _ => None end) _).
  by intros [].
Defined.

Record DeterminismEvidence := {
  evidence_snapshot_id : string;
  evidence_workload : WorkloadClass;
  baseline_result_sha256 : string;
  scaled_result_sha256 : string;
  baseline_artifact_root_sha256 : string;
  scaled_artifact_root_sha256 : string;
  node_loss_injected : bool;
  retry_injected : bool;
}.

Record AutoscalingQualificationCertificate := {
  certificate_format_version : N;
  policy_bundle_sha256 : string;
  decisions_sha256 : string;
  determinism_sha256 : string;
  qualified_workloads : list WorkloadClass;
  certificate_cpu_target_percent : N;
  certificate_memory_target_percent : N;
  complete : bool;
}.

Definition decision_invalid (d : ScalingDecision) : bool :=
  negb (decision_format_version d =? AUTOSCALING_FORMAT_VERSION) || (100 <? cpu_saturation_percent d)
  || (100 <? memory_saturation_percent d) || negb (lower_hex_sha256 (observation_sha256 d)).

Definition evidence_invalid (e : DeterminismEvidence) : bool :=
  is_empty (evidence_snapshot_id e) || negb (lower_hex_sha256 (baseline_result_sha256 e))
  || negb (String.eqb (baseline_result_sha256 e) (scaled_result_sha256 e))
  || negb (lower_hex_sha256 (baseline_artifact_root_sha256 e))
  || negb (String.eqb (baseline_artifact_root_sha256 e) (scaled_artifact_root_sha256 e))
  || negb (node_loss_injected e) || negb (retry_injected e).

Section certification.
Context `{Sha256} (policies_json : list PoolPolicy -> option (list byte))
        (decisions_json : list ScalingDecision -> option (list byte))
        (determinism_json : list DeterminismEvidence -> option (list byte)).

(** The four observation flags are those of the source, in its order. *)
Definition certify_autoscaling (policies : list PoolPolicy) (decisions : list ScalingDecision)
    (determinism : list DeterminismEvidence) (kueue provisioner from_zero node_loss : bool) :
    result AutoscalingError AutoscalingQualificationCertificate :=
  _ ← fail_if (bool_decide (length policies = 0%nat) || bool_decide (length decisions = 0%nat)
               || bool_decide (length determinism = 0%nat))
        (Incomplete "policy, decision, and determinism evidence are required");
  _ ← try_map validate_policy policies;
  let policy_workloads : gset WorkloadClass := list_to_set (policy_workload <$> policies) in
  _ ← fail_if (negb (bool_decide (policy_workloads = list_to_set (decision_workload <$> decisions)))
               || negb (bool_decide (policy_workloads = list_to_set (evidence_workload <$> determinism))))
        (Incomplete "qualification does not cover the exact policy workload set");
  _ ← fail_if (existsb decision_invalid decisions) (InvalidContract "scaling decision evidence is invalid");
  _ ← fail_if (existsb evidence_invalid determinism)
        (Incomplete "scaled execution is not checksum-identical after loss and retry");
  _ ← fail_if (negb kueue || negb provisioner || negb from_zero || negb node_loss)
        (Incomplete "live Kubernetes autoscaling observations are incomplete");
  p ← canonical_sha256 (policies_json policies);
  d ← canonical_sha256 (decisions_json decisions);
  e ← canonical_sha256 (determinism_json determinism);
  Ok {| certificate_format_version := AUTOSCALING_FORMAT_VERSION; policy_bundle_sha256 := p; decisions_sha256 := d;
        determinism_sha256 := e; qualified_workloads := sorted_elements policy_workloads;
        certificate_cpu_target_percent := PRODUCTION_SATURATION_TARGET_PERCENT;
        certificate_memory_target_percent := PRODUCTION_SATURATION_TARGET_PERCENT; complete := true |}.
End certification.

(** ** Saturation *)

(** A load above 79 percent of the capacity. *)
Definition loaded (used capacity : N) : bool := 79 * capacity <? 100 * used.
Definition cpu_loaded (n : NodeResourceSample) : bool :=
  loaded (N.max (requested_cpu_millis n) (used_cpu_millis n)) (allocatable_cpu_millis n).
Definition memory_loaded (n : NodeResourceSample) : bool :=
  loaded (N.max (requested_memory_bytes n) (used_memory_bytes n)) (allocatable_memory_bytes n).

Lemma percent_at_target used capacity v : percent used capacity = Ok v -> (80 <=? v) = loaded used capacity.
Proof.
  unfold percent, loaded. intros Hp. inv_ok Hp. inv_ok Ha. inv_ok Hp. subst v. bool_prop.
  apply eq_true_iff_eq. rewrite N.leb_le, N.ltb_lt, N.min_glb_iff. split.
  - intros [Hd _]. apply N.lt_nge. intros Hle.
    assert ((used * 100 + capacity - 1) / capacity < 80) as Hlt by (apply N.Div0.div_lt_upper_bound; lia). revert Hd Hlt. clear.
    generalize ((used * 100 + capacity - 1) / capacity). lia.
  - intros Hlt. split; [|done]. apply N.div_le_lower_bound; lia.
Qed.

Lemma saturation_fold ns : forall c m k c' m' k',
  try_fold saturation_step (c, m, k) ns = Ok (c', m', k') ->
  (80 <=? c') = (80 <=? c) || existsb cpu_loaded ns /\ (80 <=? m') = (80 <=? m) || existsb memory_loaded ns.
Proof.
  assert (forall a b, (80 <=? N.max a b) = (80 <=? a) || (80 <=? b)) as Hmax.
  { intros a b. apply eq_true_iff_eq. rewrite orb_true_iff, !N.leb_le. lia. }
  induction ns as [|n ns IH]; intros c m k c' m' k' Hf; cbn [try_fold] in Hf.
  { injection Hf as <- <- <-. cbn. by rewrite !orb_false_r. }
  inv_ok Hf. cbn [saturation_step] in Ha. inv_ok Ha. inv_ok Ha. injection Ha as <-.
  destruct (IH _ _ _ _ _ _ Hf) as [-> ->]. rewrite !Hmax. cbn [existsb]. unfold cpu_loaded at 2, memory_loaded at 2.
  rewrite <- (percent_at_target _ _ _ Ha0), <- (percent_at_target _ _ _ Ha1). by rewrite !orb_assoc.
Qed.

(** Some ready node is loaded. *)
Definition saturated (o : PoolObservation) : bool :=
  existsb (fun n => cpu_loaded n || memory_loaded n) (filter (fun n => ready n = true) (nodes o)).

Lemma saturation_exact o cpu memory : maximum_node_saturation o = Ok (cpu, memory) ->
  (80 <=? cpu) || (80 <=? memory) = saturated o.
Proof.
  unfold maximum_node_saturation, saturated. destruct (nodes o) as [|n ns]; [by intros [= <- <-]|].
  intros Hs. inv_ok Hs. destruct a as [[c m] k]. inv_ok Hs. injection Hs as <- <-.
  destruct (saturation_fold _ _ _ _ _ _ _ Ha) as [-> ->]. clear. induction (filter _ _) as [|x l IH]; [done|].
  cbn [existsb] in *. rewrite <- IH. change (80 <=? 0) with false. cbn [orb].
  destruct (cpu_loaded x), (memory_loaded x), (existsb cpu_loaded l), (existsb memory_loaded l); done.
Qed.

(** ** The decision *)

Definition action_contract (p : PoolPolicy) (o : PoolObservation) (act : ScalingAction) (desired : N) : Prop :=
  match act with
  | ScaleFromZero => current_nodes o = 0 /\ 0 < desired /\ min_nodes p <= desired <= max_nodes p
  | ScaleOut => current_nodes o < desired <= N.min (current_nodes o + scale_up_step p) (max_nodes p)
  | Hold | ScaleInBlocked => desired = current_nodes o
  | ScaleIn => min_nodes p <= desired < current_nodes o /\ current_nodes o <= desired + scale_down_step p
  end.

Lemma policy_limits p : validate_policy p = Ok tt ->
  0 < max_nodes p /\ min_nodes p <= max_nodes p /\ 0 < scale_up_step p /\ 0 < scale_down_step p /\
  cpu_target_percent p = 80 /\ memory_target_percent p = 80.
Proof.
  unfold validate_policy. intros Hv. inv_ok Hv. bool_prop. unfold PRODUCTION_SATURATION_TARGET_PERCENT in *. lia.
Qed.

Lemma choose_action_contract p o cpu memory act desired why :
  validate_policy p = Ok tt -> current_nodes o <= max_nodes p -> max_nodes p < U32_LIMIT ->
  choose_action p o cpu memory = Ok (act, desired, why) -> action_contract p o act desired.
Proof.
  intros (Hm & Hmm & Hup & Hdown & _)%policy_limits Hcur H32 Hc. unfold choose_action in Hc.
  destruct (N.eqb_spec (current_nodes o) 0) as [H0|H0].
  { destruct (_ || _); [|injection Hc as <- <- <-; done]. inv_ok Hc. injection Hc as <- <- <-. cbn. lia. }
  destruct (_ || _).
  { assert (N.min (saturating_add U32_LIMIT (current_nodes o) (scale_up_step p)) (max_nodes p)
            = N.min (current_nodes o + scale_up_step p) (max_nodes p)) as Hsat by (unfold saturating_add; lia).
    rewrite Hsat in Hc. destruct (N.eqb_spec (N.min (current_nodes o + scale_up_step p) (max_nodes p)) (current_nodes o));
      injection Hc as <- <- <-; cbn; lia. }
  destruct (_ && _) eqn:Hidle; [|injection Hc as <- <- <-; done]. bool_prop.
  destruct (_ || _); injection Hc as <- <- <-; cbn; lia.
Qed.

(** a pool stays within its policy.  For a pool no larger than its maximum,
    every decision keeps the desired node count within the maximum: scaling out
    adds at least one and at most one step, scaling in removes at least one and
    at most one step and never goes below the minimum, an empty pool with work
    gets at least one node, and the other actions change nothing. *)
Theorem scaling_is_bounded `{Sha256} json p o d :
  evaluate_pool json p o = Ok d -> current_nodes o <= max_nodes p -> max_nodes p < U32_LIMIT ->
  action_contract p o (action d) (desired_nodes d) /\ desired_nodes d <= max_nodes p.
Proof.
  unfold evaluate_pool. intros Hd Hcur H32. do 5 inv_ok Hd. inv_ok Hd. destruct a4 as [cpu memory]. inv_ok Hd.
  destruct a4 as [[act desired] why]. inv_ok Hd. injection Hd as <-. cbn [action desired_nodes]. destruct a.
  pose proof (choose_action_contract p o cpu memory act desired why Ha Hcur H32 Ha5) as Hk. split; [done|].
  destruct act; cbn in Hk; lia.
Qed.

(** C38: every change of a pool is justified.  Nodes are added to a running pool
    exactly when some ready node is loaded above 79 percent of its CPU or memory,
    which the code rounds up to 80, or pods are pending, and the pool is below
    its maximum.  Nodes are removed only when no ready node is loaded, nothing
    is pending, no work is active, nothing is spilled and, where the policy asks
    for it, no checkpoint is being written; or when a pool with such demand is
    above its maximum, to which it is then cut whatever is running on it (see
    [scale_out_can_shrink_a_pool]). *)
Theorem scaling_is_justified `{Sha256} json p o d :
  evaluate_pool json p o = Ok d -> max_nodes p < U32_LIMIT ->
  (current_nodes o <> 0 ->
     (current_nodes o < desired_nodes d <-> (saturated o = true \/ 0 < pending_pods o) /\ current_nodes o < max_nodes p)) /\
  (desired_nodes d < current_nodes o ->
     (saturated o = false /\ pending_pods o = 0 /\ active_work_items o = 0 /\ active_spill_bytes o = 0 /\
      (drain_requires_checkpoint p = true -> active_checkpoint_bytes o = 0)) \/
     ((saturated o = true \/ 0 < pending_pods o) /\ max_nodes p < current_nodes o /\ desired_nodes d = max_nodes p)).
Proof.
  unfold evaluate_pool. intros Hd H32. do 5 inv_ok Hd. inv_ok Hd. destruct a4 as [cpu memory]. inv_ok Hd.
  destruct a4 as [[act desired] why]. inv_ok Hd. injection Hd as <-. cbn [desired_nodes]. destruct a.
  apply policy_limits in Ha as (Hm & Hmm & Hup & Hdown & Hct & Hmt). apply saturation_exact in Ha4.
  unfold choose_action in Ha5. rewrite Hct, Hmt, Ha4 in Ha5.
  destruct (N.eqb_spec (current_nodes o) 0) as [H0|H0].
  { split; [done|]. lia. }
  destruct (saturated o || (0 <? pending_pods o)) eqn:Hdemand.
  - assert (saturated o = true \/ 0 < pending_pods o) as Hdem by (apply orb_true_iff in Hdemand; rewrite N.ltb_lt in Hdemand; done).
    unfold saturating_add in Ha5.
    assert (desired = N.min (N.min (current_nodes o + scale_up_step p) (U32_LIMIT - 1)) (max_nodes p)) as ->.
    { destruct (N.eqb_spec (N.min (N.min (current_nodes o + scale_up_step p) (U32_LIMIT - 1)) (max_nodes p)) (current_nodes o));
        injection Ha5 as <- <- <-; lia. }
    split; [intros _; split; [intros; split; [exact Hdem|lia]|intros [_ ?]; lia]|]. intros Hlt. right. split_and!; [exact Hdem|lia|lia].
  - bool_prop. assert (pending_pods o = 0) as Hp0 by lia.
    assert (forall P, (saturated o = true \/ 0 < pending_pods o) /\ P -> False) as Hcalm by (intros P [[?|?] _]; [congruence|lia]).
    destruct ((min_nodes p <? current_nodes o) && (active_work_items o =? 0)) eqn:Hidle.
    + bool_prop. destruct ((0 <? active_spill_bytes o) || drain_requires_checkpoint p && (0 <? active_checkpoint_bytes o)) eqn:Hdrain; injection Ha5 as <- <- <-; bool_prop;
        (split; [intros _; split; [lia|by intros ?%Hcalm]|]); [lia|].
      intros _. left. split_and!; try done; [lia|]. intros Hck. rewrite Hck in *. cbn [andb] in *. bool_prop. lia.
    + injection Ha5 as <- <- <-. split; [intros _; split; [lia|by intros ?%Hcalm]|lia].
Qed.

(** A certificate covers exactly the workloads of the policies, each with a
    valid decision and with evidence of identical results after a node loss and
    a retry. *)
Theorem certificate_is_complete `{Sha256} pj dj ej policies decisions determinism k v z l c :
  certify_autoscaling pj dj ej policies decisions determinism k v z l = Ok c ->
  (forall w, w ∈ qualified_workloads c <-> w ∈ policy_workload <$> policies) /\
  (forall w, w ∈ qualified_workloads c ->
     (exists d, d ∈ decisions /\ decision_workload d = w /\ cpu_saturation_percent d <= 100) /\
     exists e, e ∈ determinism /\ evidence_workload e = w /\ baseline_result_sha256 e = scaled_result_sha256 e /\
       baseline_artifact_root_sha256 e = scaled_artifact_root_sha256 e /\ node_loss_injected e = true /\ retry_injected e = true) /\
  k = true /\ v = true /\ z = true /\ l = true.
Proof.
  unfold certify_autoscaling. intros Hc. do 9 inv_ok Hc. injection Hc as <-. cbn [qualified_workloads].
  inv_ok Ha1. inv_ok Ha2. inv_ok Ha3. inv_ok Ha4. bool_prop.
  assert (forall w, w ∈ sorted_elements (list_to_set (policy_workload <$> policies) : gset WorkloadClass)
                    <-> w ∈ policy_workload <$> policies) as Hw.
  { intros w. by rewrite elem_of_sorted_elements, elem_of_list_to_set. }
  split; [done|]. split; [|done]. intros w Hin. apply Hw in Hin.
  assert (w ∈ (list_to_set (policy_workload <$> policies) : gset WorkloadClass)) as Hset by (by apply elem_of_list_to_set). split.
  - match goal with He : list_to_set (policy_workload <$> _) = list_to_set (decision_workload <$> _) |- _ => rewrite He in Hset end.
    apply elem_of_list_to_set, list_elem_of_fmap in Hset as (d & -> & Hd). exists d. split; [done|]. split; [done|].
    assert (decision_invalid d = false) as Hi.
    { apply not_true_iff_false. intros Ht. rewrite <- not_true_iff_false in Ha2. apply Ha2, existsb_exists. exists d.
      by rewrite <- list_elem_of_In. }
    unfold decision_invalid in Hi. bool_prop. lia.
  - match goal with He : list_to_set (policy_workload <$> _) = list_to_set (evidence_workload <$> _) |- _ => rewrite He in Hset end.
    apply elem_of_list_to_set, list_elem_of_fmap in Hset as (e & -> & He). exists e. split; [done|]. split; [done|].
    assert (evidence_invalid e = false) as Hi.
    { apply not_true_iff_false. intros Ht. rewrite <- not_true_iff_false in Ha3. apply Ha3, existsb_exists. exists e.
      by rewrite <- list_elem_of_In. }
    unfold evidence_invalid in Hi. bool_prop. by repeat match goal with Hs : String.eqb _ _ = true |- _ => apply String.eqb_eq in Hs end.
Qed.

(** ** Examples *)

Definition sample_policy : PoolPolicy :=
  {| policy_workload := SparqlQuery; policy_pool_name := "query"; node_label := "ngkg.io/workload=sparql-query-processing";
     demand_owner := Keda; min_nodes := 1; max_nodes := 4; scale_up_step := 2; scale_down_step := 1; cpu_target_percent := 80;
     memory_target_percent := 80; scale_from_zero := true; drain_requires_checkpoint := true |}.

Definition sample_node (name : string) (cpu : N) : NodeResourceSample :=
  {| node_name := name; ready := true; allocatable_cpu_millis := 1000; requested_cpu_millis := 100; used_cpu_millis := cpu;
     allocatable_memory_bytes := 1000; requested_memory_bytes := 100; used_memory_bytes := 100 |}.

Definition sample_observation (spill : N) (ns : list NodeResourceSample) : PoolObservation :=
  {| observed_unix_millis := 0; current_nodes := N.of_nat (length ns); pending_pods := 0; active_work_items := 0;
     active_checkpoint_bytes := 0; active_spill_bytes := spill; nodes := ns |}.

Abbreviation sample_decision policy observation := (evaluate_pool (H := padded_digest) (fun _ => Some []) policy observation).

Lemma scaling_is_bounded_witness :
  exists d, sample_decision sample_policy (sample_observation 0 [sample_node "a" 791; sample_node "b" 1; sample_node "c" 1]) = Ok d /\
    action d = ScaleOut /\ desired_nodes d <= 4.
Proof.
  set (o := sample_observation 0 [sample_node "a" 791; sample_node "b" 1; sample_node "c" 1]).
  destruct (sample_decision sample_policy o) as [d|e] eqn:Hd; [|vm_compute in Hd; discriminate].
  exists d. split; [reflexivity|]. split; [vm_compute in Hd; injection Hd as <-; reflexivity|].
  exact (proj2 (scaling_is_bounded (H := padded_digest) (fun _ => Some []) sample_policy o d Hd ltac:(by vm_compute) ltac:(by vm_compute))).
Defined.

Lemma scaling_is_justified_witness :
  exists d, sample_decision sample_policy (sample_observation 0 [sample_node "a" 790; sample_node "b" 1]) = Ok d /\
    desired_nodes d = 1 /\ saturated (sample_observation 0 [sample_node "a" 790; sample_node "b" 1]) = false.
Proof.
  set (o := sample_observation 0 [sample_node "a" 790; sample_node "b" 1]).
  destruct (sample_decision sample_policy o) as [d|e] eqn:Hd; [|vm_compute in Hd; discriminate].
  assert (desired_nodes d = 1) as H1 by (vm_compute in Hd; injection Hd as <-; reflexivity).
  exists d. split; [reflexivity|]. split; [exact H1|].
  destruct (proj2 (scaling_is_justified (H := padded_digest) (fun _ => Some []) sample_policy o d Hd ltac:(by vm_compute))) as [[Hs _]|(_ & Hlt & _)].
  - rewrite H1. by vm_compute.
  - exact Hs.
  - exfalso. vm_compute in Hlt. discriminate Hlt.
Defined.

(** A pool that is larger than its maximum is told to scale out to fewer nodes,
    although bytes are spilled on them. *)
Example scale_out_can_shrink_a_pool :
  let o := sample_observation 5 ((fun name => sample_node name 900) <$> ["a"; "b"; "c"; "d"; "e"; "f"]) in
  exists d, sample_decision sample_policy o = Ok d /\ action d = ScaleOut /\ desired_nodes d < current_nodes o /\ 0 < active_spill_bytes o.
Proof. vm_compute. eexists. by split. Qed.
