(* ===== verification/QueryCache.v ===== *)
(** * The cache of certified query results

    Models src/crates/ngkg-query-cache/src/lib.rs: a bounded local cache of
    complete responses, keyed by a digest of everything the response depends
    on, evicting the least recently used entry, and verifying every file by
    checksum when it is read.

    The disk is the map from digests to the bytes of their [.cache] files.  An
    operation runs under the state lock; the part of [get] that reads the file
    after releasing the lock is modelled as if it kept it.  Failures of the
    file system other than a missing file or an existing link target are not
    modelled. *)

From Stdlib Require Import Strings.Byte Strings.String.
From S2P Require Import Prelude Words Ordered Digest Text LocalRoot.

(** ** Keys *)

Record QueryCacheKey := {
  tenant_id : list byte;
  dataset_id : list byte;
  snapshot_id : list byte;
  manifest_sha256 : string;
  serving_root_sha256 : string;
  query_sha256 : string;
  authorized_graph_set_sha256 : string;
  active_dataset_sha256 : string;
  dataset_selection_source : N;
  hydrate : bool;
}.

Inductive QueryCacheError :=
| InvalidKey
| UnsafeRoot
| EntryTooLarge
| CapacityTooSmall
| AccountingOverflow
| Poisoned
| Io.

Inductive QueryCacheLookup :=
| Miss
| Hit (payload : list byte).

Definition RESPONSE_SCHEMA_VERSION : N := 2.

Definition decode_digest (value : string) : result QueryCacheError (list byte) :=
  bytes ← ok_or (hex_decode (as_bytes value)) InvalidKey;
  _ ← fail_if (negb (length bytes =? 32)) InvalidKey;
  Ok bytes.

Section keys.
Context `{Sha256}.

(** The bytes [QueryCacheKey::digest] hashes. *)
Definition key_preimage (k : QueryCacheKey) : result QueryCacheError (list byte) :=
  _ ← fail_if (negb (lower_hex_sha256 (manifest_sha256 k)) || negb (lower_hex_sha256 (serving_root_sha256 k))
               || negb (lower_hex_sha256 (query_sha256 k)) || negb (lower_hex_sha256 (authorized_graph_set_sha256 k))
               || negb (lower_hex_sha256 (active_dataset_sha256 k)) || (2 <? dataset_selection_source k)%N)
        InvalidKey;
  m ← decode_digest (manifest_sha256 k);
  s ← decode_digest (serving_root_sha256 k);
  q ← decode_digest (query_sha256 k);
  a ← decode_digest (authorized_graph_set_sha256 k);
  d ← decode_digest (active_dataset_sha256 k);
  Ok (as_bytes "ngkg-certified-query-result-key-v2" ++ to_be_bytes 4 RESPONSE_SCHEMA_VERSION
      ++ tenant_id k ++ dataset_id k ++ snapshot_id k ++ m ++ s ++ q ++ a ++ d
      ++ [byte_of_N (dataset_selection_source k)] ++ [byte_of_N (if hydrate k then 1 else 0)]).

(** [QueryCacheKey::digest]. *)
Definition key_digest (k : QueryCacheKey) : result QueryCacheError string :=
  bytes ← key_preimage k; Ok (hex_encode (sha256 bytes)).
End keys.

(** ** Entry files *)

Definition CACHE_MAGIC : list byte := as_bytes "NGKGQC37".
Definition CACHE_HEADER_BYTES : nat := 80.

Section files.
Context `{Sha256}.

(** The file [insert] writes for a digest and its payload. *)
Definition entry_file (magic digest payload : list byte) : list byte :=
  magic ++ digest ++ to_be_bytes 8 (N.of_nat (length payload)) ++ sha256 payload ++ payload.

(** [validate_header], used when the cache is opened. *)
Definition validate_header (file : list byte) (digest : string) (expected_bytes max_entry_bytes : N) :
    result QueryCacheError (list byte) :=
  _ ← fail_if ((max_entry_bytes <? expected_bytes)%N || (expected_bytes <=? N.of_nat CACHE_HEADER_BYTES)%N) EntryTooLarge;
  _ ← fail_if (length file <? CACHE_HEADER_BYTES) Io;
  let header := take CACHE_HEADER_BYTES file in
  _ ← fail_if (negb (bool_decide (slice 0 8 header = CACHE_MAGIC))) InvalidKey;
  d ← decode_digest digest;
  _ ← fail_if (negb (bool_decide (slice 8 40 header = d))) InvalidKey;
  total ← ok_or (checked_add U64_LIMIT (from_be_bytes (slice 40 48 header)) (N.of_nat CACHE_HEADER_BYTES)) AccountingOverflow;
  _ ← fail_if (negb (total =? expected_bytes)%N) InvalidKey;
  Ok header.

Definition validate_file_header (file : list byte) (digest : string) (max_entry_bytes : N) : result QueryCacheError N :=
  let size := N.of_nat (length file) in
  _ ← validate_header file digest size max_entry_bytes;
  Ok size.

(** [validate_header_bytes], used by every lookup. *)
Definition validate_header_bytes (bytes : list byte) (digest : string) (expected_bytes max_entry_bytes : N) :
    result QueryCacheError (list byte) :=
  _ ← fail_if (length bytes <? CACHE_HEADER_BYTES) InvalidKey;
  let header := take CACHE_HEADER_BYTES bytes in
  _ ← fail_if ((max_entry_bytes <? expected_bytes)%N || negb (bool_decide (slice 0 8 header = CACHE_MAGIC))) InvalidKey;
  d ← decode_digest digest;
  _ ← fail_if (negb (bool_decide (slice 8 40 header = d))) InvalidKey;
  _ ← fail_if (negb (bool_decide (checked_add U64_LIMIT (from_be_bytes (slice 40 48 header)) (N.of_nat CACHE_HEADER_BYTES)
                                  = Some expected_bytes))) InvalidKey;
  Ok header.

Definition read_verified_mmap (file : list byte) (digest : string) (expected_bytes max_entry_bytes : N) :
    result QueryCacheError (list byte) :=
  _ ← fail_if (negb (N.of_nat (length file) =? expected_bytes)%N) InvalidKey;
  header ← validate_header_bytes file digest expected_bytes max_entry_bytes;
  let payload := drop CACHE_HEADER_BYTES file in
  _ ← fail_if (negb (bool_decide (sha256 payload = slice 48 80 header))) InvalidKey;
  Ok payload.
End files.

(** ** State and eviction *)

Record CacheLimits := {
  max_bytes : N;
  max_entries : nat;
  max_entry_bytes : N;
}.

Record CacheState := {
  entries : gmap string N;
  least_to_most_recent : list string;
  bytes : N;
  disk : gmap string (list byte);
}.

Abbreviation Cache := (stateful CacheState QueryCacheError).

Definition retain_other (digest : string) (order : list string) : list string := filter (fun value => value <> digest) order.

Definition touch (digest : string) : Cache unit := fun st =>
  (Ok tt, {| entries := entries st; least_to_most_recent := retain_other digest (least_to_most_recent st) ++ [digest];
             bytes := bytes st; disk := disk st |}).

Definition remove_file (digest : string) : Cache unit := fun st =>
  (Ok tt, {| entries := entries st; least_to_most_recent := least_to_most_recent st; bytes := bytes st;
             disk := delete digest (disk st) |}).

(** The entry is forgotten before the bytes are subtracted. *)
Definition remove_state_entry (digest : string) (size : N) : Cache unit := fun st =>
  match checked_sub (bytes st) size with
  | Some n => (Ok tt, {| entries := delete digest (entries st); least_to_most_recent := retain_other digest (least_to_most_recent st);
                         bytes := n; disk := disk st |})
  | None => (Err AccountingOverflow,
             {| entries := delete digest (entries st); least_to_most_recent := retain_other digest (least_to_most_recent st);
                bytes := bytes st; disk := disk st |})
  end.

Definition evict_one : Cache unit :=
  st ← get_state;
  digest ← lift (ok_or (head (least_to_most_recent st)) AccountingOverflow);
  size ← lift (ok_or (entries st !! digest) AccountingOverflow);
  _ ← remove_file digest;
  remove_state_entry digest size.

(** [while over(state) { evict_one(state)? }]: every eviction shortens the
    recency list, so its length plus one is enough fuel. *)
Fixpoint evict_while (fuel : nat) (over : CacheState -> bool) : Cache unit :=
  match fuel with
  | O => lift (Err AccountingOverflow)
  | S fuel => st ← get_state; if over st then _ ← evict_one; evict_while fuel over else mret tt
  end.

Definition evict_all (over : CacheState -> bool) : Cache unit :=
  st ← get_state; evict_while (S (length (least_to_most_recent st))) over.

Section cache.
Context `{Sha256} (limits : CacheLimits).

Definition over_limits (st : CacheState) : bool :=
  (max_entries limits <? size (entries st)) || (max_bytes limits <? bytes st)%N.
Definition enforce_limits : Cache unit := evict_all over_limits.

Definition no_room (incoming : N) (st : CacheState) : bool :=
  match usize_checked_add (size (entries st)) 1 with None => true | Some n => max_entries limits <? n end
  || match checked_add U64_LIMIT (bytes st) incoming with None => true | Some n => (max_bytes limits <? n)%N end.

Definition evict_for_insert (incoming : N) : Cache unit :=
  _ ← lift (fail_if (max_bytes limits <? incoming)%N CapacityTooSmall);
  evict_all (no_room incoming).

Definition remove_if_present (digest : string) : Cache unit :=
  st ← get_state;
  match entries st !! digest with
  | None => mret tt
  | Some size => _ ← remove_file digest; remove_state_entry digest size
  end.

(** [get] once the digest is known, with the reader of the file format. *)
Definition lookup_entry (read : list byte -> string -> N -> N -> result QueryCacheError (list byte)) (digest : string) :
    Cache QueryCacheLookup :=
  st ← get_state;
  match entries st !! digest with
  | None => mret Miss
  | Some size =>
      match disk st !! digest with
      | None => _ ← remove_state_entry digest size; mret Miss
      | Some file =>
          _ ← touch digest;
          match read file digest size (max_entry_bytes limits) with
          | Ok payload => mret (Hit payload)
          | Err (Io | EntryTooLarge | InvalidKey) => _ ← remove_if_present digest; mret Miss
          | Err e => lift (Err e)
          end
      end
  end.

Definition get (key : QueryCacheKey) : Cache QueryCacheLookup :=
  digest ← lift (key_digest key); lookup_entry read_verified_mmap digest.

(** The new entry of [insert], after room has been made: the link fails when
    the target exists. *)
Definition commit_entry (digest : string) (file : list byte) (total : N) : Cache unit :=
  st ← get_state;
  _ ← lift (fail_if (bool_decide (is_Some (disk st !! digest))) Io);
  _ ← put_state {| entries := entries st; least_to_most_recent := least_to_most_recent st; bytes := bytes st;
                   disk := <[digest := file]> (disk st) |};
  n ← lift (ok_or (checked_add U64_LIMIT (bytes st) total) AccountingOverflow);
  _ ← put_state {| entries := <[digest := total]> (entries st); least_to_most_recent := least_to_most_recent st; bytes := n;
                   disk := <[digest := file]> (disk st) |};
  touch digest.

(** [insert] under the lock, the temporary file being complete. *)
Definition publish_entry (digest : string) (file : list byte) (total : N) : Cache unit :=
  st ← get_state;
  if bool_decide (is_Some (entries st !! digest)) then touch digest
  else _ ← evict_for_insert total; commit_entry digest file total.

(** The part of [insert] before the lock is taken: the checks, and the complete
    temporary file. *)
Definition prepare_entry (magic : list byte) (key_sha256 : result QueryCacheError string) (payload : list byte) :
    result QueryCacheError (string * list byte * N) :=
  len ← ok_or (u64_of_len (length payload)) EntryTooLarge;
  total ← ok_or (checked_add U64_LIMIT len (N.of_nat CACHE_HEADER_BYTES)) AccountingOverflow;
  _ ← fail_if (max_entry_bytes limits <? total)%N EntryTooLarge;
  digest ← key_sha256;
  d ← decode_digest digest;
  Ok (digest, entry_file magic d payload, total).

Definition insert_entry (key : QueryCacheKey) (payload : list byte) : Cache unit :=
  '(digest, file, total) ← lift (prepare_entry CACHE_MAGIC (key_digest key) payload);
  publish_entry digest file total.

Definition invalidate (key : QueryCacheKey) : Cache unit :=
  digest ← lift (key_digest key);
  remove_if_present digest.

(** ** Opening a root *)

Definition CACHE_ROOT_MARKER : string := ".ngkg-query-cache-v2".
Definition CACHE_ROOT_MARKER_BYTES : list byte := as_bytes "ngkg-certified-query-result-cache-v2" ++ [x0a].

Definition strip_suffix (suffix text : list byte) : option (list byte) :=
  reverse <$> strip_prefix (reverse suffix) (reverse text).

Definition cache_file_digest (name : string) : option string :=
  digest ← strip_suffix (as_bytes ".cache") (as_bytes name);
  let digest := String.string_of_list_byte digest in
  if lower_hex_sha256 digest then Some digest else None.

Context (is_uuid : list byte -> bool).

Definition is_temp_name (name : string) : bool :=
  match strip_prefix (as_bytes ".") (as_bytes name) ≫= split_once x2e with
  | Some (digest, suffix) =>
      match strip_suffix (as_bytes ".tmp") suffix with
      | Some uuid => lower_hex_sha256 (String.string_of_list_byte digest) && is_uuid uuid
      | None => false
      end
  | None => false
  end.

(** One directory entry of [open], for a marker and a header check; the second
    component collects what is to be deleted. *)
Definition scan_root_entry (marker : string) (validate : list byte -> string -> N -> result QueryCacheError N)
    (acc : CacheState * list RootEntry) (e : RootEntry) : result QueryCacheError (CacheState * list RootEntry) :=
  let '(st, invalid) := acc in
  name ← ok_or (entry_name e) UnsafeRoot;
  if String.eqb name marker then Ok acc
  else if is_temp_name name then Ok (st, invalid ++ [e])
  else
    digest ← ok_or (cache_file_digest name) UnsafeRoot;
    _ ← fail_if (entry_symlink e || entry_dir e) UnsafeRoot;
    match validate (entry_content e) digest (max_entry_bytes limits) with
    | Ok size =>
        n ← ok_or (checked_add U64_LIMIT (bytes st) size) AccountingOverflow;
        Ok ({| entries := <[digest := size]> (entries st); least_to_most_recent := least_to_most_recent st ++ [digest];
               bytes := n; disk := <[digest := entry_content e]> (disk st) |}, invalid)
    | Err (Io | EntryTooLarge | InvalidKey) => Ok (st, invalid ++ [e])
    | Err err => Err err
    end.

Definition scan_entry := scan_root_entry CACHE_ROOT_MARKER validate_file_header.

Definition empty_cache : CacheState := {| entries := ∅; least_to_most_recent := []; bytes := 0; disk := ∅ |}.

Definition open_cache (root : RootPath) : result QueryCacheError CacheState :=
  _ ← fail_if ((max_bytes limits =? 0)%N || (max_entries limits =? 0) || (max_entry_bytes limits <=? N.of_nat CACHE_HEADER_BYTES)%N
               || (max_bytes limits <? max_entry_bytes limits)%N) CapacityTooSmall;
  listing ← prepare_marked_root UnsafeRoot Io CACHE_ROOT_MARKER CACHE_ROOT_MARKER_BYTES root;
  '(st, invalid) ← try_fold scan_entry (empty_cache, []) listing;
  _ ← fail_if (existsb entry_dir invalid) Io;
  match enforce_limits st with
  | (Ok _, st) => Ok st
  | (Err e, _) => Err e
  end.
End cache.

(** ** Accounting *)

(** The index, the recency list and the byte counter describe the same
    entries. *)
Record accounted (st : CacheState) : Prop := {
  ac_distinct : NoDup (least_to_most_recent st);
  ac_listed : forall d, d ∈ least_to_most_recent st <-> is_Some (entries st !! d);
  ac_bytes : bytes st = map_total (entries st);
}.

Lemma accounted_size st : accounted st -> size (entries st) = length (least_to_most_recent st).
Proof.
  intros [Hnd Hl _]. rewrite <- size_dom, <- (size_list_to_set (C := gset string) (least_to_most_recent st)) by done.
  f_equal. apply leibniz_equiv. intros d. by rewrite elem_of_dom, elem_of_list_to_set, Hl.
Qed.

Lemma elem_of_retain d x order : x ∈ retain_other d order <-> x ∈ order /\ x <> d.
Proof. unfold retain_other. rewrite list_elem_of_filter. naive_solver. Qed.

Lemma retain_absent d order : (d ∉ order) -> retain_other d order = order.
Proof.
  intros Hd. unfold retain_other. induction order as [|x order IH]; [done|]. rewrite filter_cons, decide_True, IH by set_solver. done.
Qed.

Lemma touch_accounted d st : accounted st -> is_Some (entries st !! d) ->
  exists st', touch d st = (Ok tt, st') /\ accounted st' /\ entries st' = entries st /\ disk st' = disk st /\
    least_to_most_recent st' = retain_other d (least_to_most_recent st) ++ [d] /\ bytes st' = bytes st.
Proof.
  intros [Hnd Hl Hb] Hd. eexists. split; [done|]. split_and!; try done. split; cbn [least_to_most_recent entries bytes]; [| |done].
  - apply NoDup_app. split; [by apply NoDup_filter|]. split; [|apply NoDup_singleton].
    intros x [_ Hx]%elem_of_retain. by rewrite list_elem_of_singleton.
  - intros x. rewrite elem_of_app, elem_of_retain, list_elem_of_singleton, Hl. destruct (decide (x = d)) as [->|]; naive_solver.
Qed.

Lemma remove_accounted d n st : accounted st -> entries st !! d = Some n ->
  exists st', remove_state_entry d n st = (Ok tt, st') /\ accounted st' /\ entries st' = delete d (entries st) /\
    disk st' = disk st /\ least_to_most_recent st' = retain_other d (least_to_most_recent st).
Proof.
  intros [Hnd Hl Hb] Hd. unfold remove_state_entry. pose proof (map_total_delete d n _ Hd) as Ht.
  rewrite (proj2 (checked_sub_some _ _ (map_total (delete d (entries st))))) by lia.
  eexists. split; [done|]. split_and!; try done. split; cbn [least_to_most_recent entries bytes]; [by apply NoDup_filter| |done].
  intros x. rewrite elem_of_retain, Hl. destruct (decide (x = d)) as [->|Hx].
  - rewrite lookup_delete_eq. split; [naive_solver|by intros []].
  - rewrite lookup_delete_ne by done. naive_solver.
Qed.

(** [st'] is [st] without the least recent entries [ds]. *)
Record evicted (ds : list string) (st st' : CacheState) : Prop := {
  ev_accounted : accounted st';
  ev_order : least_to_most_recent st = ds ++ least_to_most_recent st';
  ev_entries : forall d, entries st' !! d = if decide (d ∈ ds) then None else entries st !! d;
  ev_disk : forall d, disk st' !! d = if decide (d ∈ ds) then None else disk st !! d;
}.

Lemma evict_one_spec st d rest : accounted st -> least_to_most_recent st = d :: rest ->
  exists st', evict_one st = (Ok tt, st') /\ evicted [d] st st'.
Proof.
  intros Hac Ho. destruct (proj1 (ac_listed st Hac d)) as [n Hn]; [rewrite Ho; left|]. unfold evict_one.
  rewrite (stateful_bind_ok _ _ st st st) by done. rewrite Ho. cbn [head ok_or].
  rewrite (stateful_bind_ok _ _ st d st) by done. rewrite Hn. rewrite (stateful_bind_ok _ _ st n st) by done.
  set (st1 := {| entries := entries st; least_to_most_recent := least_to_most_recent st; bytes := bytes st;
                 disk := delete d (disk st) |}).
  rewrite (stateful_bind_ok _ _ st tt st1) by done.
  assert (accounted st1) as Hac1 by (destruct Hac; by split).
  destruct (remove_accounted d n st1 Hac1 Hn) as (st2 & Hr & Hac2 & He & Hd & Hord). exists st2. split; [done|].
  pose proof (ac_distinct st Hac) as Hnd. rewrite Ho in Hnd. apply NoDup_cons in Hnd as [Hni _]. split.
  - done.
  - rewrite Hord. cbn [st1 least_to_most_recent]. rewrite Ho. unfold retain_other. rewrite filter_cons, decide_False by naive_solver.
    fold (retain_other d rest). by rewrite retain_absent.
  - intros x. rewrite He. cbn [st1 entries]. case_decide as Hx; [apply list_elem_of_singleton in Hx as ->; apply lookup_delete_eq|].
    rewrite lookup_delete_ne; [done|]. intros ->. apply Hx. left.
  - intros x. rewrite Hd. cbn [st1 disk]. case_decide as Hx; [apply list_elem_of_singleton in Hx as ->; apply lookup_delete_eq|].
    rewrite lookup_delete_ne; [done|]. intros ->. apply Hx. left.
Qed.

Lemma evicted_refl st : accounted st -> evicted [] st st.
Proof. intros Hac. by split. Qed.

Lemma evicted_trans ds ds' st st1 st2 : evicted ds st st1 -> evicted ds' st1 st2 -> evicted (ds ++ ds') st st2.
Proof.
  intros [_ Ho1 He1 Hd1] [Hac Ho2 He2 Hd2]. split; [done|by rewrite Ho1, Ho2, app_assoc| |]; intros d.
  - rewrite He2, He1. destruct (decide (d ∈ ds)), (decide (d ∈ ds')), (decide (d ∈ ds ++ ds')); set_solver.
  - rewrite Hd2, Hd1. destruct (decide (d ∈ ds)), (decide (d ∈ ds')), (decide (d ∈ ds ++ ds')); set_solver.
Qed.

(** Eviction stops: entries go in order of recency until there is room. *)
Lemma evict_while_spec over fuel : forall st, accounted st -> length (least_to_most_recent st) < fuel ->
  (forall st', accounted st' -> least_to_most_recent st' = [] -> over st' = false) ->
  exists ds st', evict_while fuel over st = (Ok tt, st') /\ evicted ds st st' /\ over st' = false.
Proof.
  induction fuel as [|fuel IH]; intros st Hac Hf Hempty; [lia|]. cbn [evict_while].
  rewrite (stateful_bind_ok _ _ st st st) by done. destruct (over st) eqn:Hover.
  2: { exists [], st. split; [done|]. split; [by apply evicted_refl|done]. }
  destruct (least_to_most_recent st) as [|d rest] eqn:Ho; [by rewrite Hempty in Hover|].
  destruct (evict_one_spec st d rest Hac Ho) as (st1 & H1 & Hev). rewrite (stateful_bind_ok _ _ st tt st1 H1).
  assert (least_to_most_recent st1 = rest) as Hrest by (pose proof (ev_order _ _ _ Hev) as He; rewrite Ho in He; by injection He).
  destruct (IH st1) as (ds & st2 & H2 & Hev2 & Hov); [apply Hev|rewrite Hrest; cbn in Hf; lia|done|].
  exists ([d] ++ ds), st2. split; [done|]. split; [by eapply evicted_trans|done].
Qed.

Lemma evict_all_spec over st : accounted st ->
  (forall st', accounted st' -> least_to_most_recent st' = [] -> over st' = false) ->
  exists ds st', evict_all over st = (Ok tt, st') /\ evicted ds st st' /\ over st' = false.
Proof.
  intros Hac Hempty. unfold evict_all. rewrite (stateful_bind_ok _ _ st st st) by done. by apply evict_while_spec; [|lia|].
Qed.

(** ** Keys and their digests *)

Lemma decode_digest_lower value : lower_hex_sha256 value = true -> exists out, decode_digest value = Ok out /\ length out = 32.
Proof.
  intros (out & Ho & Hl)%decode_lower_sha256. exists out. split; [|done]. unfold decode_digest. rewrite Ho. cbn. by rewrite Hl.
Qed.

Lemma decode_digest_inj a b out : decode_digest a = Ok out -> decode_digest b = Ok out -> a = b.
Proof.
  unfold decode_digest. intros Ha Hb. do 2 inv_ok Ha. do 2 inv_ok Hb. simplify_eq.
  match goal with H1 : ok_or _ _ = Ok _, H2 : ok_or _ _ = Ok _ |- _ => inv_ok H1; inv_ok H2; apply hex_decode_encode in H1, H2 end.
  apply (inj as_bytes). congruence.
Qed.

Lemma decode_digest_length value out : decode_digest value = Ok out -> length out = 32.
Proof. unfold decode_digest. intros Hd. do 2 inv_ok Hd. simplify_eq. inv_ok Ha0. by bool_prop. Qed.

Section key_facts.
Context `{Sha256}.

Lemma key_digest_lower k d : key_digest k = Ok d -> lower_hex_sha256 d = true.
Proof. unfold key_digest. intros Hk. inv_ok Hk. injection Hk as <-. apply hex_encode_lower. Qed.

(** A key is refused only as invalid. *)
Lemma key_digest_total k : (exists d, key_digest k = Ok d) \/ key_digest k = Err InvalidKey.
Proof.
  destruct (key_digest k) as [d|e] eqn:Hk; [left; by exists d|right]. f_equal. unfold key_digest, key_preimage in Hk.
  apply result_bind_err in Hk as [Hk|(? & _ & ?)]; [|done].
  apply result_bind_err in Hk as [Hk|(? & Hg & Hk)]; [by apply fail_if_err in Hk as [_ <-]|].
  inv_ok Hg. bool_prop.
  repeat match type of Hk with
  | (decode_digest ?v ≫= _) = _ =>
      let out := fresh in let Ho := fresh in
      destruct (decode_digest_lower v) as (out & Ho & _); [done|]; rewrite Ho in Hk; cbn [mbind result_bind] in Hk
  end. done.
Qed.

(** The file name of a response separates everything the response depends
    on: two keys that share a digest are the same key (tenant, dataset,
    snapshot, manifest, serving root, query, authorized graphs, active dataset,
    precedence branch and hydration all agree), or the bytes hashed for them collide.
    UUIDs are sixteen bytes. *)
Theorem cache_keys_separate k k' d :
  Forall (fun id => length id = 16) [tenant_id k; dataset_id k; snapshot_id k; tenant_id k'; dataset_id k'; snapshot_id k'] ->
  key_digest k = Ok d -> key_digest k' = Ok d -> 
  k = k' \/ exists p p', key_preimage k = Ok p /\ key_preimage k' = Ok p' /\ collide p p'.
Proof.
  intros Hid Hk Hk'. repeat (apply Forall_cons in Hid as [? Hid]). unfold key_digest in Hk, Hk'.
  destruct (key_preimage k) as [p|] eqn:Ep; [|done]. destruct (key_preimage k') as [p'|] eqn:Ep'; [|done]. cbn [mbind result_bind] in Hk, Hk'.
  rewrite <- Hk' in Hk. apply ok_inj in Hk. clear Hk'. apply hex_digest_inj in Hk as [Heq|]; [|right; by exists p, p']. left.
  unfold key_preimage in Ep, Ep'. do 6 inv_ok Ep. do 6 inv_ok Ep'. rewrite <- Heq in Ep'. rewrite <- Ep' in Ep. apply ok_inj in Ep. clear Ep' Heq. rename Ep into Heq.
  inv_ok Ha. inv_ok Ha5. bool_prop.
  repeat match goal with Hd : decode_digest _ = Ok _ |- _ =>
    pose proof (decode_digest_length _ _ Hd); revert Hd end.
  do 2 apply app_inv_head in Heq.
  repeat match type of Heq with _ ++ _ = _ ++ _ => apply app_inj_len in Heq as [? Heq]; [|congruence] end. intros.
  destruct k, k'. cbn in *. simplify_eq/=.
  repeat match goal with Hd : decode_digest ?v = Ok ?o, Hd' : decode_digest ?w = Ok ?o |- _ =>
    pose proof (decode_digest_inj _ _ _ Hd Hd'); clear Hd; subst end.
  f_equal; [|by repeat match goal with b : bool |- _ => destruct b end].
  match goal with E : byte_of_N ?a = byte_of_N ?b |- ?a = ?b => apply (f_equal Byte.to_N) in E; rewrite !to_N_byte_of_N, !N.mod_small in E by lia end.
  done.
Qed.
End key_facts.

(** ** Bounds

    The limits [open] accepts. *)
Definition accepted_limits (limits : CacheLimits) : bool :=
  negb ((max_bytes limits =? 0)%N || (max_entries limits =? 0) || (max_entry_bytes limits <=? N.of_nat CACHE_HEADER_BYTES)%N
        || (max_bytes limits <? max_entry_bytes limits)%N).

(** What the operations need of them. *)
Definition usable_limits (limits : CacheLimits) : Prop :=
  0 < max_entries limits /\ (max_entry_bytes limits <= max_bytes limits)%N.

Lemma accepted_usable limits : accepted_limits limits = true -> usable_limits limits.
Proof. unfold accepted_limits, usable_limits. intros Ha. bool_prop. lia. Qed.

Section bounds.
Context `{Sha256} (limits : CacheLimits).

(** What every reachable state satisfies, whatever happens to the files. *)
Record within_limits (st : CacheState) : Prop := {
  wl_accounted : accounted st;
  wl_entries : size (entries st) <= max_entries limits;
  wl_bytes : (bytes st <= max_bytes limits)%N;
}.

(** An operation that keeps the limits and fails only as [allowed] says. *)
Definition safe {A} (allowed : QueryCacheError -> Prop) (op : Cache A) : Prop :=
  forall st, within_limits st -> within_limits (snd (op st)) /\ (forall e, fst (op st) = Err e -> allowed e).

Lemma safe_bind {A B} allowed (m : Cache A) (k : A -> Cache B) :
  safe allowed m -> (forall a, safe allowed (k a)) -> safe allowed (m ≫= k).
Proof.
  intros Hm Hk st Hst. destruct (Hm st Hst) as [Hw He]. unfold mbind, stateful_bind.
  destruct (m st) as [[a|e] st1]; [by apply Hk|]. split; [done|]. cbn [fst] in *. intros e' [= <-]. by apply He.
Qed.

Lemma safe_lift {A} allowed (r : result QueryCacheError A) : (forall e, r = Err e -> allowed e) -> safe allowed (lift r).
Proof. by intros Hr st Hst. Qed.

Lemma safe_state {A} allowed (k : CacheState -> Cache A) :
  (forall st, within_limits st -> within_limits (snd (k st st)) /\ (forall e, fst (k st st) = Err e -> allowed e)) ->
  safe allowed (get_state ≫= k).
Proof. intros Hk st Hst. rewrite (stateful_bind_ok _ _ st st st) by done. by apply Hk. Qed.

Lemma within_smaller st st' : within_limits st -> accounted st' -> entries st' ⊆ entries st -> within_limits st'.
Proof.
  intros [Hac He Hb] Hac' Hsub. split; [done|etrans; [by apply map_subseteq_size|done]|].
  rewrite (ac_bytes _ Hac'). etrans; [|exact Hb]. rewrite (ac_bytes _ Hac). by apply map_total_mono.
Qed.

Lemma touch_safe allowed d st : within_limits st -> is_Some (entries st !! d) ->
  within_limits (snd (touch d st)) /\ (forall e, fst (touch d st) = Err e -> allowed e).
Proof.
  intros Hw Hd. destruct (touch_accounted d st (wl_accounted _ Hw) Hd) as (st' & -> & Hac & He & _). split; [|done].
  cbn [snd]. apply (within_smaller st); [done..|]. by rewrite He.
Qed.

Lemma remove_safe allowed d n st : within_limits st -> entries st !! d = Some n ->
  within_limits (snd (remove_state_entry d n st)) /\ (forall e, fst (remove_state_entry d n st) = Err e -> allowed e).
Proof.
  intros Hw Hd. destruct (remove_accounted d n st (wl_accounted _ Hw) Hd) as (st' & -> & Hac & He & _). split; [|done].
  cbn [snd]. apply (within_smaller st); [done..|]. rewrite He. apply delete_subseteq.
Qed.

(** The files may change behind the cache at any time. *)
Definition tamper (files : gmap string (list byte)) (st : CacheState) : CacheState :=
  {| entries := entries st; least_to_most_recent := least_to_most_recent st; bytes := bytes st; disk := files |}.

Lemma tamper_within files st : within_limits st -> within_limits (tamper files st).
Proof. intros [[] ? ?]. split; [split|..]; done. Qed.

Lemma remove_if_present_safe allowed d : safe allowed (remove_if_present d).
Proof.
  unfold remove_if_present. apply safe_state. intros st Hw. destruct (entries st !! d) as [n|] eqn:Hd; [|done].
  rewrite (stateful_bind_ok _ _ st tt (tamper (delete d (disk st)) st)) by done.
  by apply remove_safe; [apply tamper_within|].
Qed.

(** A lookup rejects a file only as invalid. *)
Lemma read_verified_err file d n m e : read_verified_mmap file d n m = Err e -> e = InvalidKey.
Proof.
  unfold read_verified_mmap, validate_header_bytes, decode_digest. intros Hr. by inv_err Hr.
Qed.

Lemma lookup_safe (allowed : QueryCacheError -> Prop) read digest :
  (forall file n m e, read file digest n m = Err e -> e = Io \/ e = EntryTooLarge \/ e = InvalidKey \/ allowed e) ->
  safe allowed (lookup_entry limits read digest).
Proof.
  intros Hread. unfold lookup_entry. apply safe_state. intros st Hw.
  destruct (entries st !! digest) as [n|] eqn:Hd; [|done]. destruct (disk st !! digest) as [file|].
  2: { destruct (remove_accounted digest n st (wl_accounted _ Hw) Hd) as (st' & Hr & _).
       rewrite (stateful_bind_ok _ _ _ _ _ Hr). split; [|done].
       destruct (remove_safe allowed digest n st Hw Hd) as [Hs _]. by rewrite Hr in Hs. }
  destruct (touch_safe allowed digest st Hw ltac:(eauto)) as [Hs _].
  rewrite (stateful_bind_ok _ _ st tt (snd (touch digest st))) by done. revert Hs. generalize (snd (touch digest st)). intros st1 Hs.
  destruct (read file digest n _) as [p|e] eqn:Hr; [done|]. apply Hread in Hr.
  assert (safe allowed (_ ← remove_if_present digest; mret Miss : Cache QueryCacheLookup)) as Hrm
    by (apply safe_bind; [apply remove_if_present_safe|done]).
  assert (allowed e -> safe allowed (lift (Err e) : Cache QueryCacheLookup)) as Herr by (intros Ha; apply safe_lift; by intros ? [= <-]).
  destruct e; first [apply (Hrm st1 Hs)|apply (fun Ha => Herr Ha st1 Hs); naive_solver].
Qed.

Lemma get_safe key : safe (eq InvalidKey) (get limits key).
Proof.
  unfold get. destruct (key_digest_total key) as [[d ->]| ->]; [|by intros st Hw; split; [|intros ? [=]]].
  apply safe_bind; [by apply safe_lift|]. intros digest. apply lookup_safe. intros file n m e ->%read_verified_err. auto.
Qed.

Lemma invalidate_safe key : safe (eq InvalidKey) (invalidate key).
Proof.
  unfold invalidate. apply safe_bind; [|intros d; apply remove_if_present_safe]. apply safe_lift. intros e He.
  destruct (key_digest_total key) as [[d Hd]|Hd]; congruence.
Qed.

(** Publishing a response that has room. *)
Lemma commit_accounted d file total st : accounted st -> entries st !! d = None -> disk st !! d = None ->
  (bytes st + total < U64_LIMIT)%N ->
  exists st', commit_entry d file total st = (Ok tt, st') /\ accounted st' /\ entries st' = <[d := total]> (entries st) /\
    disk st' = <[d := file]> (disk st) /\ least_to_most_recent st' = least_to_most_recent st ++ [d].
Proof.
  intros [Hnd Hl Hb] Hd Hf Hfit. unfold commit_entry. rewrite (stateful_bind_ok _ _ st st st) by done.
  rewrite bool_decide_eq_false_2 by (rewrite Hf; by intros []). rewrite (stateful_bind_ok _ _ st tt st) by done.
  erewrite stateful_bind_ok by done. rewrite (checked_add_fits _ _ _ Hfit). erewrite stateful_bind_ok by done.
  erewrite stateful_bind_ok by done. eexists. split; [done|]. cbn [entries disk least_to_most_recent].
  assert (d ∉ least_to_most_recent st) as Hni by (rewrite Hl, Hd; by intros []).
  rewrite (retain_absent _ _ Hni). split_and!; try done. split; cbn [entries bytes least_to_most_recent].
  - apply NoDup_app. split; [done|]. split; [|apply NoDup_singleton]. intros x Hx. rewrite list_elem_of_singleton. by intros ->.
  - intros x. rewrite elem_of_app, list_elem_of_singleton, Hl. destruct (decide (x = d)) as [->|].
    + rewrite lookup_insert_eq. naive_solver.
    + rewrite lookup_insert_ne by done. naive_solver.
  - rewrite map_total_insert by done. lia.
Qed.

Context (Hlimits : usable_limits limits) (Hwidth : (max_bytes limits < U64_LIMIT)%N).

Lemma empty_has_room incoming st : (incoming <= max_bytes limits)%N -> accounted st -> least_to_most_recent st = [] ->
  no_room limits incoming st = false.
Proof using Hlimits Hwidth.
  intros Hin Hac Ho. pose proof (accounted_size st Hac) as Hs. rewrite Ho in Hs. cbn in Hs.
  assert (entries st = ∅) as He by (by apply map_size_empty_inv). pose proof (ac_bytes st Hac) as Hb.
  rewrite He, map_total_empty in Hb. unfold no_room. rewrite Hs, Hb, (checked_add_fits _ _ _ (ltac:(lia) : (0 + incoming < U64_LIMIT)%N)).
  cbn [usize_checked_add]. destruct Hlimits as [Hone _].
  change (usize_checked_add 0 1) with (Some 1). apply orb_false_iff. split; [apply Nat.ltb_ge|apply N.ltb_ge]; lia.
Qed.

(** Room as the limits state it. *)
Lemma room_spec incoming st : no_room limits incoming st = false ->
  S (size (entries st)) <= max_entries limits /\ (bytes st + incoming <= max_bytes limits)%N.
Proof using Type.
  clear Hlimits Hwidth. unfold no_room. rewrite orb_false_iff. intros [H1 H2].
  destruct (usize_checked_add _ 1) as [a|] eqn:Ha; [|done]. destruct (checked_add _ _ _) as [b|] eqn:Hb; [|done].
  apply usize_checked_add_some in Ha as [-> _]. apply checked_add_some in Hb as [-> _]. bool_prop. lia.
Qed.

Definition entry_bytes (payload : list byte) : N := (N.of_nat (length payload) + N.of_nat CACHE_HEADER_BYTES)%N.

(** The outcomes of preparing an entry for a key that has a digest or is
    invalid. *)
Lemma prepare_entry_cases magic key_sha256 payload : (N.of_nat (length payload) < 2 ^ 63)%N ->
  (exists d, key_sha256 = Ok d /\ lower_hex_sha256 d = true) \/ key_sha256 = Err InvalidKey ->
  (exists d db, (entry_bytes payload <= max_entry_bytes limits)%N /\ key_sha256 = Ok d /\ lower_hex_sha256 d = true /\ decode_digest d = Ok db /\
     prepare_entry limits magic key_sha256 payload = Ok (d, entry_file magic db payload, entry_bytes payload)) \/
  ((max_entry_bytes limits < entry_bytes payload)%N /\ prepare_entry limits magic key_sha256 payload = Err EntryTooLarge) \/
  (key_sha256 = Err InvalidKey /\ prepare_entry limits magic key_sha256 payload = Err InvalidKey).
Proof using Type.
  clear Hlimits Hwidth. intros Hlen Hkey. unfold prepare_entry. assert (2 ^ 63 + 80 < U64_LIMIT)%N by (vm_compute; done).
  rewrite (proj2 (u64_of_len_some _ (N.of_nat (length payload)))) by lia. cbn [ok_or mbind result_bind].
  rewrite checked_add_fits by (change (N.of_nat CACHE_HEADER_BYTES) with 80%N; lia). cbn [ok_or mbind result_bind]. fold (entry_bytes payload).
  destruct (N.ltb_spec (max_entry_bytes limits) (entry_bytes payload)); [right; left; done|]. cbn [fail_if mbind result_bind].
  destruct Hkey as [(d & -> & Hlow)| ->]; [left|by right; right].
  destruct (decode_digest_lower d Hlow) as (db & Hdb & _). exists d, db. split_and!; try done. cbn [mbind result_bind]. by rewrite Hdb.
Qed.

Lemma key_digest_cases key : (exists d, key_digest key = Ok d /\ lower_hex_sha256 d = true) \/ key_digest key = Err InvalidKey.
Proof using Type.
  clear Hlimits Hwidth. destruct (key_digest_total key) as [[d Hd]|]; [left|by right]. exists d. split; [done|by eapply key_digest_lower].
Qed.

Definition insert_errors (e : QueryCacheError) : Prop := e = InvalidKey \/ e = EntryTooLarge \/ e = Io.

Lemma evict_for_insert_run incoming st : accounted st -> (incoming <= max_bytes limits)%N ->
  exists ds st', evict_for_insert limits incoming st = (Ok tt, st') /\ evicted ds st st' /\ no_room limits incoming st' = false.
Proof using Hlimits Hwidth.
  intros Hac Hin. unfold evict_for_insert. rewrite (proj2 (N.ltb_ge _ _) Hin). rewrite (stateful_bind_ok _ _ st tt st) by done.
  apply evict_all_spec; [done|]. intros st' Hac' Ho. by apply empty_has_room.
Qed.

Lemma evicted_absent ds st st' d : evicted ds st st' -> entries st !! d = None -> entries st' !! d = None.
Proof using Type. intros Hev Hd. rewrite (ev_entries _ _ _ Hev). by case_decide. Qed.

Lemma entry_fits_cache total : (total <= max_entry_bytes limits)%N -> (total <= max_bytes limits)%N.
Proof using Hlimits. clear Hwidth. destruct Hlimits. lia. Qed.

Lemma publish_safe d file total : (total <= max_entry_bytes limits)%N -> safe insert_errors (publish_entry limits d file total).
Proof using Hlimits Hwidth.
  intros Hsize. unfold publish_entry, insert_errors. apply safe_state. intros st Hw.
  case_bool_decide as Hp; [by apply touch_safe|]. rewrite <- eq_None_not_Some in Hp.
  destruct (evict_for_insert_run total st (wl_accounted _ Hw)) as (ds & st1 & H1 & Hev & Hroom); [by apply entry_fits_cache|].
  rewrite (stateful_bind_ok _ _ _ _ _ H1). apply room_spec in Hroom as [Hn Hb].
  apply (evicted_absent _ _ _ _ Hev) in Hp. assert (within_limits st1) as Hw1 by (split; [apply Hev|lia|lia]).
  destruct (disk st1 !! d) as [old|] eqn:Hold.
  - unfold commit_entry. rewrite (stateful_bind_ok _ _ st1 st1 st1), bool_decide_eq_true_2 by eauto.
    split; [done|]. intros e [= <-]. auto.
  - destruct (commit_accounted d file total st1) as (st2 & -> & Hac & He & _); [apply Hev|done..|lia|].
    cbn [snd]. split; [|done]. split; [done|rewrite He, map_size_insert_None by done; lia|].
    rewrite (ac_bytes _ Hac), He, map_total_insert, <- (ac_bytes _ (wl_accounted _ Hw1)) by done. lia.
Qed.

Lemma prepared_safe magic key_sha256 payload (publish : string -> list byte -> N -> Cache unit) : (N.of_nat (length payload) < 2 ^ 63)%N ->
  (exists d, key_sha256 = Ok d /\ lower_hex_sha256 d = true) \/ key_sha256 = Err InvalidKey ->
  (forall d file total, (total <= max_entry_bytes limits)%N -> safe insert_errors (publish d file total)) ->
  safe insert_errors ('(digest, file, total) ← lift (prepare_entry limits magic key_sha256 payload); publish digest file total).
Proof using Type.
  clear Hlimits Hwidth. intros Hlen Hkey Hpub st Hw. unfold mbind, stateful_bind, lift.
  destruct (prepare_entry_cases magic key_sha256 payload Hlen Hkey) as [(d & db & Hsize & _ & _ & _ & ->)|[[_ ->]|[_ ->]]].
  - by apply Hpub.
  - split; [done|intros e [= <-]]. unfold insert_errors. auto.
  - split; [done|intros e [= <-]]. unfold insert_errors. auto.
Qed.

Lemma insert_safe key payload : (N.of_nat (length payload) < 2 ^ 63)%N -> safe insert_errors (insert_entry limits key payload).
Proof using Hlimits Hwidth. intros Hlen. apply prepared_safe; [done|apply key_digest_cases|apply publish_safe]. Qed.

(** *** Opening *)

Context (is_uuid : list byte -> bool).

Lemma strip_suffix_some suffix text rest : strip_suffix suffix text = Some rest -> text = rest ++ suffix.
Proof using Type.
  unfold strip_suffix. destruct (strip_prefix _ _) as [r|] eqn:Hr; [|done]. intros [= <-].
  apply strip_prefix_some in Hr. apply (f_equal reverse) in Hr. by rewrite reverse_app, !reverse_involutive in Hr.
Qed.

Lemma cache_file_digest_inj name name' d : cache_file_digest name = Some d -> cache_file_digest name' = Some d -> name = name'.
Proof using Type.
  assert (forall n, cache_file_digest n = Some d -> as_bytes n = as_bytes d ++ as_bytes ".cache") as Hn.
  { intros n Hc. unfold cache_file_digest in Hc. destruct (strip_suffix _ _) as [l|] eqn:Hl; [|done]. cbn in Hc.
    apply strip_suffix_some in Hl. destruct (lower_hex_sha256 _); [|done]. injection Hc as <-. rewrite Hl. f_equal.
    unfold as_bytes. by rewrite String.list_byte_of_string_of_list_byte. }
  intros H1%Hn H2%Hn. apply (inj as_bytes). congruence.
Qed.

Lemma scan_entry_accounted marker validate st invalid e st' invalid' :
  scan_root_entry limits is_uuid marker validate (st, invalid) e = Ok (st', invalid') ->
  accounted st -> (forall name d, entry_name e = Some name -> cache_file_digest name = Some d -> entries st !! d = None) ->
  accounted st' /\ (forall d, is_Some (entries st' !! d) -> is_Some (entries st !! d) \/
    exists name, entry_name e = Some name /\ cache_file_digest name = Some d).
Proof using Type.
  clear Hlimits Hwidth. intros Hs Hac Hfresh. unfold scan_root_entry in Hs. inv_ok Hs. inv_ok Ha. rename a into name.
  destruct (String.eqb _ _); [simplify_eq; eauto|]. destruct (is_temp_name _ _); [simplify_eq; eauto|].
  inv_ok Hs. inv_ok Ha0. rename a into d. specialize (Hfresh name d Ha Ha0). inv_ok Hs.
  destruct (validate _ _ _) as [n|[]]; try (simplify_eq; eauto; done).
  inv_ok Hs. inv_ok Ha2. apply checked_add_some in Ha2 as [-> Hfit]. simplify_eq. destruct Hac as [Hnd Hl Hb]. split.
  - split; cbn [entries bytes least_to_most_recent].
    + apply NoDup_app. split; [done|]. split; [|apply NoDup_singleton]. intros x Hx%Hl. rewrite list_elem_of_singleton. intros ->.
      rewrite Hfresh in Hx. by destruct Hx.
    + intros x. rewrite elem_of_app, list_elem_of_singleton, Hl. destruct (decide (x = d)) as [->|].
      * rewrite lookup_insert_eq. naive_solver.
      * rewrite lookup_insert_ne by done. naive_solver.
    + rewrite map_total_insert by done. lia.
  - intros x. cbn [entries]. rewrite lookup_insert_is_Some. naive_solver.
Qed.

Lemma scan_accounted marker validate listing st invalid : NoDup (entry_name <$> listing) ->
  try_fold (scan_root_entry limits is_uuid marker validate) (empty_cache, []) listing = Ok (st, invalid) -> accounted st.
Proof using Type.
  clear Hlimits Hwidth. intros Hnd Hf.
  pose (P (pre : list RootEntry) (acc : CacheState * list RootEntry) := NoDup (entry_name <$> pre) ->
    accounted acc.1 /\ forall d, is_Some (entries acc.1 !! d) ->
      exists name, Some name ∈ entry_name <$> pre /\ cache_file_digest name = Some d).
  assert (P listing (st, invalid)) as HP; [|by apply HP]. revert Hf. apply try_fold_inv.
  - intros _. split; [split; [apply NoDup_nil_2| |done]|]; cbn [fst empty_cache entries least_to_most_recent].
    + intros d. rewrite lookup_empty. split; [by intros ?%not_elem_of_nil|by intros []].
    + intros d. rewrite lookup_empty. by intros [].
  - intros pre e [st1 inv1] [st2 inv2] HP _ Hs Hnd'. rewrite fmap_app in Hnd'. apply NoDup_app in Hnd' as (Hpre & Hdis & _).
    destruct (HP Hpre) as [Hac Hnames]. apply scan_entry_accounted in Hs as [Hac2 Hin2].
    + split; [done|]. cbn [fst]. intros d [Hd|(name & Hn & Hd)]%Hin2.
      * destruct (Hnames d Hd) as (name & Hn & Hc). exists name. split; [|done]. rewrite fmap_app. set_solver.
      * exists name. split; [|done]. rewrite fmap_app. cbn. rewrite Hn. set_solver.
    + done.
    + intros name d Hn Hd. apply eq_None_not_Some. intros Hsome. destruct (Hnames d Hsome) as (name' & Hn' & Hd').
      rewrite (cache_file_digest_inj _ _ _ Hd' Hd) in Hn'. apply (Hdis _ Hn'). rewrite <- Hn. cbn. set_solver.
Qed.

Definition distinct_names (root : RootPath) : Prop :=
  match root with RootDirectory entries => NoDup (entry_name <$> entries) | _ => True end.

Lemma listing_distinct marker content root listing : distinct_names root ->
  prepare_marked_root UnsafeRoot Io marker content root = Ok listing -> NoDup (entry_name <$> listing).
Proof using Type.
  clear Hlimits Hwidth. intros Hnd Hp. destruct (prepare_marked_root_cases _ _ _ _ _ _ Hp) as [->| ->]; [apply NoDup_singleton|done].
Qed.

(** Enforcing the limits on whatever was found. *)
Lemma enforce_within st : accounted st ->
  exists st', evict_all (over_limits limits) st = (Ok tt, st') /\ within_limits st'.
Proof using Type.
  clear Hlimits Hwidth. intros Hac. destruct (evict_all_spec (over_limits limits) st Hac) as (ds & st1 & Hev & He & Hover).
  - intros st' Hac' Hnil. pose proof (accounted_size st' Hac') as Hs. rewrite Hnil in Hs. cbn in Hs.
    assert (entries st' = ∅) as Hem by (by apply map_size_empty_inv). pose proof (ac_bytes st' Hac') as Hb.
    rewrite Hem, map_total_empty in Hb. unfold over_limits. rewrite Hs, Hb. by rewrite (proj2 (N.ltb_ge _ _)) by lia.
  - exists st1. split; [done|]. unfold over_limits in Hover. bool_prop. split; [apply He|lia|lia].
Qed.

Lemma open_within root st : distinct_names root -> open_cache limits is_uuid root = Ok st ->
  accepted_limits limits = true /\ within_limits st.
Proof using Type.
  clear Hlimits Hwidth. unfold open_cache. intros Hnd Ho. inv_ok Ho. inv_ok Ha.
  assert (accepted_limits limits = true) as Hlim by (unfold accepted_limits; by rewrite Ha). clear Ha. split; [done|].
  inv_ok Ho. inv_ok Ho. destruct a1 as [st0 invalid]. inv_ok Ho. apply listing_distinct in Ha; [|done]. apply scan_accounted in Ha0; [|done].
  unfold enforce_limits in Ho. destruct (enforce_within st0 Ha0) as (st1 & Hev & Hw). rewrite Hev in Ho. by injection Ho as <-.
Qed.
End bounds.

(** ** Reachable states

    The operations in any order, interleaved with arbitrary changes to the
    files.  A Rust slice is shorter than [isize::MAX]. *)
Section reachable.
Context `{Sha256} (limits : CacheLimits) (is_uuid : list byte -> bool).

Inductive cache_step (st : CacheState) : CacheState -> Prop :=
| step_get key : cache_step st (snd (get limits key st))
| step_insert key payload : (N.of_nat (length payload) < 2 ^ 63)%N -> cache_step st (snd (insert_entry limits key payload st))
| step_invalidate key : cache_step st (snd (invalidate key st))
| step_disk files : cache_step st (tamper files st).

Lemma reachable_within st0 st : usable_limits limits -> (max_bytes limits < U64_LIMIT)%N ->
  within_limits limits st0 -> rtc cache_step st0 st -> within_limits limits st.
Proof using Type.
  intros Hlim Hw H0 Hr. revert H0. induction Hr as [|st1 st2 st3 Hs _ IH]; [done|]. intros Hst. apply IH.
  destruct Hs as [key|key payload Hlen|key|files].
  - by apply get_safe.
  - by apply insert_safe.
  - by apply invalidate_safe.
  - by apply tamper_within.
Qed.

(** C36: However lookups, insertions and invalidations are ordered and whatever
    happens to the files in between, an opened cache never indexes more than
    its entry limit nor accounts more than its byte limit, its index, recency
    list and byte counter agree, and no operation ends in an accounting error:
    a lookup or an invalidation fails only for an invalid key, an insertion
    moreover for a response over the entry ceiling or a file already there. *)
Theorem cache_stays_bounded root st0 st :
  distinct_names root -> (max_bytes limits < U64_LIMIT)%N -> open_cache limits is_uuid root = Ok st0 -> rtc cache_step st0 st ->
  within_limits limits st /\
  (forall key e, fst (get limits key st) = Err e -> e = InvalidKey) /\
  (forall key e, fst (invalidate key st) = Err e -> e = InvalidKey) /\
  (forall key payload e, (N.of_nat (length payload) < 2 ^ 63)%N -> fst (insert_entry limits key payload st) = Err e ->
     e = InvalidKey \/ e = EntryTooLarge \/ e = Io).
Proof using Type.
  intros Hnd Hw Ho Hr. destruct (open_within limits is_uuid root st0 Hnd Ho) as [Hlim%accepted_usable H0].
  assert (within_limits limits st) as Hst by (by eapply reachable_within). split; [done|]. split_and!; intros key.
  - intros e He. symmetry. by eapply (get_safe limits key).
  - intros e He. symmetry. by eapply (invalidate_safe limits key).
  - intros payload e Hlen He. by eapply (insert_safe limits Hlim Hw key payload Hlen st Hst).
Qed.
End reachable.

(** ** The abstract cache

    A bounded map in order of use: the pairs of a digest and its payload, the
    least recently used first. *)
Abbreviation Lru := (list (string * list byte)).

Section lru.
Context (limits : CacheLimits).

Definition lru_bytes (m : Lru) : N := foldr (fun x acc => (entry_bytes x.2 + acc)%N) 0%N m.

Definition lru_lookup (d : string) (m : Lru) : option (list byte) := (list_to_map m : gmap string (list byte)) !! d.

Definition lru_remove (d : string) (m : Lru) : Lru := filter (fun x => x.1 <> d) m.

Definition lru_touch (d : string) (m : Lru) : Lru :=
  match lru_lookup d m with Some p => lru_remove d m ++ [(d, p)] | None => m end.

(** Drop the least recently used until the newcomer fits. *)
Fixpoint lru_evict (incoming : N) (m : Lru) : Lru :=
  match m with
  | [] => []
  | _ :: m' => if bool_decide (S (length m) <= max_entries limits /\ (lru_bytes m + incoming <= max_bytes limits)%N) then m
               else lru_evict incoming m'
  end.

Definition lru_insert (d : string) (payload : list byte) (m : Lru) : Lru :=
  if lru_lookup d m is Some _ then lru_touch d m else lru_evict (entry_bytes payload) m ++ [(d, payload)].
End lru.

Section refinement.
Context `{Sha256} (limits : CacheLimits) (magic : list byte).

(** The concrete state holds exactly the abstract entries, in files nobody
    else touched. *)
Record represents (st : CacheState) (m : Lru) : Prop := {
  rp_accounted : accounted st;
  rp_order : least_to_most_recent st = m.*1;
  rp_entries : forall d, entries st !! d = entry_bytes <$> lru_lookup d m;
  rp_disk : forall d, disk st !! d = (p ← lru_lookup d m; db ← hex_decode (as_bytes d); Some (entry_file magic db p));
  rp_good : forall d p, (d, p) ∈ m -> lower_hex_sha256 d = true /\ (entry_bytes p <= max_entry_bytes limits)%N /\ (N.of_nat (length p) < 2 ^ 63)%N;
}.

Lemma remove_keys d (m : Lru) : retain_other d m.*1 = (lru_remove d m).*1.
Proof using Type.
  unfold retain_other, lru_remove. induction m as [|[k p] m IH]; [done|]. cbn [fmap list_fmap]. rewrite !filter_cons. cbn [fst].
  destruct (decide (k <> d)); cbn [fmap list_fmap fst]; by rewrite IH.
Qed.

Lemma lookup_removed d d' m : lru_lookup d' (lru_remove d m) = if decide (d' = d) then None else lru_lookup d' m.
Proof using Type.
  unfold lru_lookup, lru_remove. induction m as [|[k p] m IH]; [by destruct (decide _)|]. rewrite filter_cons. cbn [fst].
  destruct (decide (k <> d)) as [Hk|Hk]; cbn [list_to_map foldr uncurry fst snd].
  - destruct (decide (d' = k)) as [->|]; [by rewrite !lookup_insert_eq, decide_False|by rewrite !lookup_insert_ne, IH].
  - apply dec_stable in Hk as ->. rewrite IH. destruct (decide (d' = d)) as [->|]; [done|by rewrite lookup_insert_ne].
Qed.

Lemma lookup_appended d d' p m : lru_lookup d m = None ->
  lru_lookup d' (m ++ [(d, p)]) = if decide (d' = d) then Some p else lru_lookup d' m.
Proof using Type.
  unfold lru_lookup. intros Hd. rewrite list_to_map_app. cbn. rewrite lookup_union. destruct (decide (d' = d)) as [->|].
  - by rewrite Hd, lookup_insert_eq.
  - rewrite lookup_insert_ne, lookup_empty by done. by destruct (_ !! d').
Qed.

Lemma lookup_touched d d' m : lru_lookup d' (lru_touch d m) = lru_lookup d' m.
Proof using Type.
  unfold lru_touch. destruct (lru_lookup d m) as [p|] eqn:Hd; [|done].
  rewrite lookup_appended, lookup_removed by (by rewrite lookup_removed, decide_True).
  by destruct (decide (d' = d)) as [->|].
Qed.

Lemma elem_of_lru d p m : lru_lookup d m = Some p -> (d, p) ∈ m.
Proof using Type. apply elem_of_list_to_map_2. Qed.

Lemma lru_bytes_total m : NoDup m.*1 -> map_total (entry_bytes <$> (list_to_map m : gmap string (list byte))) = lru_bytes m.
Proof using Type.
  induction m as [|[k p] m IH]; cbn [fmap list_fmap fst]; intros Hnd;
    [cbn [list_to_map foldr]; by rewrite fmap_empty, map_total_empty|].
  apply NoDup_cons in Hnd as [Hk Hnd]. cbn [list_to_map foldr uncurry fst snd lru_bytes].
  rewrite fmap_insert, map_total_insert, IH by
    (first [done|rewrite lookup_fmap, (not_elem_of_list_to_map_1 (M := gmap string)); done]). done.
Qed.

Lemma represents_bytes st m : represents st m -> bytes st = lru_bytes m.
Proof using Type.
  intros [Hac Ho He _ _]. rewrite (ac_bytes st Hac), <- lru_bytes_total by (rewrite <- Ho; apply Hac). f_equal.
  apply map_eq. intros d. by rewrite He, lookup_fmap.
Qed.

Lemma touch_represents d st m : represents st m -> is_Some (lru_lookup d m) ->
  exists st', touch d st = (Ok tt, st') /\ represents st' (lru_touch d m).
Proof using Type.
  intros Hr [p Hp]. destruct (touch_accounted d st (rp_accounted _ _ Hr)) as (st' & Ht & Hac & He & Hd & Ho & _).
  { rewrite (rp_entries _ _ Hr), Hp. by eexists. }
  exists st'. split; [done|]. split; [done| | | |].
  - rewrite Ho, (rp_order _ _ Hr), remove_keys. unfold lru_touch. by rewrite Hp, fmap_app.
  - intros x. by rewrite He, (rp_entries _ _ Hr), lookup_touched.
  - intros x. by rewrite Hd, (rp_disk _ _ Hr), lookup_touched.
  - intros x q Hx. apply (rp_good _ _ Hr). unfold lru_touch in Hx. rewrite Hp in Hx.
    apply elem_of_app in Hx as [[_ Hx]%list_elem_of_filter|Hx%list_elem_of_singleton]; [done|].
    injection Hx as -> ->. by apply elem_of_lru.
Qed.

Lemma remove_absent d m : lru_lookup d m = None -> lru_remove d m = m.
Proof using Type.
  unfold lru_lookup. intros Hd%not_elem_of_list_to_map_2. induction m as [|[k p] m IH]; [done|]. cbn [fmap list_fmap fst] in Hd.
  unfold lru_remove in *. rewrite filter_cons, decide_True, IH by set_solver. done.
Qed.

Lemma remove_represents d st m : represents st m ->
  exists st', remove_if_present d st = (Ok tt, st') /\ represents st' (lru_remove d m).
Proof using Type.
  intros Hr. unfold remove_if_present. rewrite (stateful_bind_ok _ _ st st st) by done. rewrite (rp_entries _ _ Hr).
  destruct (lru_lookup d m) as [p|] eqn:Hp; cbn [fmap option_fmap option_map].
  - rewrite (stateful_bind_ok _ _ st tt (tamper (delete d (disk st)) st)) by done.
    destruct (remove_accounted d (entry_bytes p) (tamper (delete d (disk st)) st)) as (st' & -> & Hac & He & Hd & Ho).
    { destruct (rp_accounted _ _ Hr). by split. }
    { cbn [tamper entries]. by rewrite (rp_entries _ _ Hr), Hp. }
    exists st'. split; [done|]. split; [done| | | |].
    + by rewrite Ho, <- remove_keys, <- (rp_order _ _ Hr).
    + intros x. rewrite He, lookup_removed. cbn [tamper entries]. destruct (decide (x = d)) as [->|].
      * by rewrite lookup_delete_eq.
      * by rewrite lookup_delete_ne, (rp_entries _ _ Hr).
    + intros x. rewrite Hd, lookup_removed. cbn [tamper disk]. destruct (decide (x = d)) as [->|].
      * by rewrite lookup_delete_eq.
      * by rewrite lookup_delete_ne, (rp_disk _ _ Hr).
    + intros x q [_ Hx]%list_elem_of_filter. by apply (rp_good _ _ Hr).
  - exists st. split; [done|]. by rewrite remove_absent.
Qed.

Lemma evict_represents d p st m : represents st ((d, p) :: m) -> exists st', evict_one st = (Ok tt, st') /\ represents st' m.
Proof using Type.
  intros Hr. destruct (evict_one_spec st d m.*1 (rp_accounted _ _ Hr)) as (st' & He & Hev); [apply (rp_order _ _ Hr)|].
  exists st'. split; [done|]. pose proof (ev_order _ _ _ Hev) as Ho. rewrite (rp_order _ _ Hr) in Ho. injection Ho as Ho.
  pose proof (ac_distinct _ (rp_accounted _ _ Hr)) as Hnd. rewrite (rp_order _ _ Hr) in Hnd. apply NoDup_cons in Hnd as [Hd Hnd].
  assert (forall x, (if decide (x ∈ [d]) then None else lru_lookup x ((d, p) :: m)) = lru_lookup x m) as Hl.
  { intros x. unfold lru_lookup. cbn [list_to_map foldr uncurry fst snd]. case_decide as Hx.
    - apply list_elem_of_singleton in Hx as ->. symmetry. by apply not_elem_of_list_to_map_1.
    - by rewrite lookup_insert_ne by set_solver. }
  split; [apply Hev|done| | |].
  - intros x. rewrite (ev_entries _ _ _ Hev), (rp_entries _ _ Hr), <- Hl. by case_decide.
  - intros x. rewrite (ev_disk _ _ _ Hev), (rp_disk _ _ Hr), <- Hl. by case_decide.
  - intros x q Hx. apply (rp_good _ _ Hr). by right.
Qed.

Lemma room_represents st m incoming : represents st m -> (max_bytes limits < U64_LIMIT)%N ->
  S (length m) <= max_entries limits -> (N.of_nat (max_entries limits) < U64_LIMIT)%N -> (lru_bytes m + incoming <= max_bytes limits)%N ->
  no_room limits incoming st = false.
Proof using Type.
  intros Hr Hw Hn Hwn Hb. unfold no_room. rewrite (accounted_size _ (rp_accounted _ _ Hr)), (rp_order _ _ Hr), length_fmap.
  rewrite (represents_bytes _ _ Hr), checked_add_fits by lia.
  rewrite (proj2 (usize_checked_add_some (length m) 1 (S (length m)))) by lia.
  apply orb_false_iff. split; [apply Nat.ltb_ge|apply N.ltb_ge]; lia.
Qed.

Lemma no_room_represents st m incoming : represents st m -> no_room limits incoming st = false ->
  S (length m) <= max_entries limits /\ (lru_bytes m + incoming <= max_bytes limits)%N.
Proof using Type.
  intros Hr [Hn Hb]%room_spec. rewrite (accounted_size _ (rp_accounted _ _ Hr)), (rp_order _ _ Hr), length_fmap in Hn.
  by rewrite (represents_bytes _ _ Hr) in Hb.
Qed.

Context (Hlimits : usable_limits limits) (Hwidth : (max_bytes limits < U64_LIMIT)%N)
        (Hcount : (N.of_nat (max_entries limits) < U64_LIMIT)%N).

Lemma evict_while_represents incoming m : (incoming <= max_bytes limits)%N -> forall fuel st, represents st m -> length m < fuel ->
  exists st', evict_while fuel (no_room limits incoming) st = (Ok tt, st') /\ represents st' (lru_evict limits incoming m).
Proof using Hlimits Hwidth Hcount.
  intros Hin. induction m as [|[d p] m IH]; intros [|fuel] st Hr Hf; try (cbn in Hf; lia); cbn [evict_while];
    rewrite (stateful_bind_ok _ _ st st st) by done.
  - rewrite empty_has_room; [by exists st|done..|apply Hr|apply (rp_order _ _ Hr)].
  - cbn [lru_evict]. case_bool_decide as Hroom.
    + rewrite (room_represents st ((d, p) :: m)) by (done || apply Hroom). by exists st.
    + destruct (no_room limits incoming st) eqn:Hno; [|by apply (no_room_represents _ _ _ Hr) in Hno].
      destruct (evict_represents d p st m Hr) as (st1 & H1 & Hr1). rewrite (stateful_bind_ok _ _ _ _ _ H1).
      apply IH; [done|cbn in Hf; lia].
Qed.

Lemma evict_for_insert_represents incoming st m : (incoming <= max_bytes limits)%N -> represents st m ->
  exists st', evict_for_insert limits incoming st = (Ok tt, st') /\ represents st' (lru_evict limits incoming m).
Proof using Hlimits Hwidth Hcount.
  intros Hin Hr. unfold evict_for_insert. rewrite (proj2 (N.ltb_ge _ _) Hin). rewrite (stateful_bind_ok _ _ st tt st) by done.
  unfold evict_all. rewrite (stateful_bind_ok _ _ st st st) by done. apply evict_while_represents; [done..|].
  rewrite (rp_order _ _ Hr), length_fmap. lia.
Qed.

Lemma lru_evict_suffix incoming m : exists gone, m = gone ++ lru_evict limits incoming m.
Proof using Type.
  clear Hlimits Hwidth Hcount. induction m as [|x m [gone IH]]; [by exists []|]. cbn [lru_evict].
  case_bool_decide; [by exists []|]. exists (x :: gone). cbn. by rewrite <- IH.
Qed.

Lemma commit_represents d db p st m : represents st m -> lru_lookup d m = None -> lower_hex_sha256 d = true ->
  decode_digest d = Ok db -> (entry_bytes p <= max_entry_bytes limits)%N -> (N.of_nat (length p) < 2 ^ 63)%N ->
  (bytes st + entry_bytes p < U64_LIMIT)%N ->
  exists st', commit_entry d (entry_file magic db p) (entry_bytes p) st = (Ok tt, st') /\ represents st' (m ++ [(d, p)]).
Proof using Type.
  clear Hlimits Hwidth Hcount. intros Hr Hd Hlow Hdb Hp Hlen Hfit.
  destruct (commit_accounted d (entry_file magic db p) (entry_bytes p) st (rp_accounted _ _ Hr)) as (st' & Hc & Hac & He & Hf & Ho);
    [by rewrite (rp_entries _ _ Hr), Hd|by rewrite (rp_disk _ _ Hr), Hd|done|].
  exists st'. split; [done|]. split; [done| | | |].
  - by rewrite Ho, (rp_order _ _ Hr), fmap_app.
  - intros x. rewrite He, lookup_appended by done. destruct (decide (x = d)) as [->|]; [by rewrite lookup_insert_eq|].
    by rewrite lookup_insert_ne, (rp_entries _ _ Hr).
  - intros x. rewrite Hf, lookup_appended by done. destruct (decide (x = d)) as [->|].
    + rewrite lookup_insert_eq. cbn. unfold decode_digest in Hdb. do 2 inv_ok Hdb. simplify_eq. inv_ok Ha. by rewrite Ha.
    + by rewrite lookup_insert_ne, (rp_disk _ _ Hr).
  - intros x q [Hx|Hx%list_elem_of_singleton]%elem_of_app; [by apply (rp_good _ _ Hr)|]. by injection Hx as -> ->.
Qed.

Lemma lookup_represents read d st m : represents st m ->
  (forall db p, decode_digest d = Ok db -> (N.of_nat (length p) < 2 ^ 63)%N -> (entry_bytes p <= max_entry_bytes limits)%N ->
     read (entry_file magic db p) d (entry_bytes p) (max_entry_bytes limits) = Ok p) ->
  exists st', lookup_entry limits read d st = (Ok (match lru_lookup d m with Some p => Hit p | None => Miss end), st') /\
    represents st' (lru_touch d m).
Proof using Type.
  clear Hlimits Hwidth Hcount. intros Hr Hread. unfold lookup_entry.
  rewrite (stateful_bind_ok _ _ st st st), (rp_entries _ _ Hr), (rp_disk _ _ Hr) by done.
  destruct (lru_lookup d m) as [p|] eqn:Hp; cbn [fmap option_fmap option_map].
  2: { exists st. split; [done|]. unfold lru_touch. by rewrite Hp. }
  destruct (rp_good _ _ Hr d p (elem_of_lru _ _ _ Hp)) as (Hlow & Hmax & Hlen).
  destruct (decode_lower_sha256 d Hlow) as (db & Hdb & Hl). cbn [mbind option_bind]. rewrite Hdb. cbn [mbind option_bind].
  destruct (touch_represents d st m Hr) as (st1 & H1 & Hr1); [by eexists|]. rewrite (stateful_bind_ok _ _ _ _ _ H1).
  rewrite Hread; [by exists st1| |done..]. unfold decode_digest. rewrite Hdb. cbn. by rewrite Hl.
Qed.

Lemma publish_represents d db payload st m : represents st m -> lower_hex_sha256 d = true -> decode_digest d = Ok db ->
  (N.of_nat (length payload) < 2 ^ 63)%N -> (entry_bytes payload <= max_entry_bytes limits)%N ->
  exists st', publish_entry limits d (entry_file magic db payload) (entry_bytes payload) st = (Ok tt, st') /\
    represents st' (lru_insert limits d payload m).
Proof using Hlimits Hwidth Hcount.
  intros Hr Hlow Hdb Hlen Hmax. unfold publish_entry. rewrite (stateful_bind_ok _ _ st st st) by done.
  unfold lru_insert. rewrite (rp_entries _ _ Hr).
  destruct (lru_lookup d m) as [p|] eqn:Hp; cbn [fmap option_fmap option_map].
  { rewrite bool_decide_eq_true_2 by (by eexists). apply touch_represents; [done|by eexists]. }
  rewrite bool_decide_eq_false_2 by (by intros []).
  assert (entry_bytes payload <= max_bytes limits)%N as Hfit by (by apply (entry_fits_cache limits Hlimits)).
  destruct (evict_for_insert_represents _ st m Hfit Hr) as (st1 & H1 & Hr1). rewrite (stateful_bind_ok _ _ _ _ _ H1).
  destruct (evict_for_insert_run limits Hlimits Hwidth _ st (rp_accounted _ _ Hr) Hfit) as (ds & st1' & H1' & _ & Hroom).
  rewrite H1 in H1'. injection H1' as <-. apply room_spec in Hroom as [_ Hroom].
  apply commit_represents; try done; [|lia].
  destruct (lru_evict_suffix (entry_bytes payload) m) as [gone Hg]. apply not_elem_of_list_to_map_1.
  unfold lru_lookup in Hp. apply not_elem_of_list_to_map_2 in Hp. intros Hin. apply Hp. rewrite Hg, fmap_app. set_solver.
Qed.

Lemma empty_represents : represents empty_cache [].
Proof using Type.
  clear Hlimits Hwidth Hcount. split; [split; [apply NoDup_nil_2| |done]|done|done|done|by intros ?? ?%not_elem_of_nil].
  intros d. cbn. rewrite lookup_empty. split; [by intros ?%not_elem_of_nil|by intros []].
Qed.
End refinement.

(** *** Files written are files read *)

Record header_of `{Sha256} (magic db payload h : list byte) : Prop := {
  ho_length : length h = 80;
  ho_magic : slice 0 8 h = magic;
  ho_digest : slice 8 40 h = db;
  ho_payload : slice 40 48 h = to_be_bytes 8 (N.of_nat (length payload));
  ho_sha256 : slice 48 80 h = sha256 payload;
}.

Lemma entry_file_header `{Sha256} magic db p : length magic = 8 -> length db = 32 ->
  exists h, entry_file magic db p = h ++ p /\ header_of magic db p h.
Proof.
  intros Hm Hl. unfold entry_file. pose proof (length_to_be_bytes 8 (N.of_nat (length p))) as Hn8.
  remember (to_be_bytes 8 (N.of_nat (length p))) as n8 eqn:E8.
  exists (magic ++ db ++ n8 ++ sha256 p). split; [by rewrite <- !(assoc (++))|]. split.
  - rewrite !length_app, Hm, Hl, Hn8, sha256_length. done.
  - rewrite <- Hm. apply (slice_app []).
  - pose proof (slice_app magic db (n8 ++ sha256 p)) as E. by rewrite Hm, Hl in E.
  - pose proof (slice_app (magic ++ db) n8 (sha256 p)) as E. rewrite length_app, Hm, Hl, Hn8, <- (assoc (++)) in E.
    by rewrite <- E8.
  - pose proof (slice_app (magic ++ db ++ n8) (sha256 p) []) as E.
    by rewrite !length_app, Hm, Hl, Hn8, sha256_length, app_nil_r, <- !(assoc (++)) in E.
Qed.

Lemma decode_payload_length n : (n < 2 ^ 63)%N -> from_be_bytes (to_be_bytes 8 n) = n /\
  checked_add U64_LIMIT n (N.of_nat CACHE_HEADER_BYTES) = Some (n + N.of_nat CACHE_HEADER_BYTES)%N.
Proof.
  intros Hn. assert (2 ^ 63 + 80 < U64_LIMIT)%N by (vm_compute; done). split.
  - rewrite from_to_be_bytes, N.mod_small; [done|]. change (256 ^ N.of_nat 8)%N with U64_LIMIT. lia.
  - apply checked_add_fits. change (N.of_nat CACHE_HEADER_BYTES) with 80%N. lia.
Qed.

(** What [insert] wrote passes every check of a lookup. *)
Lemma read_entry_file `{Sha256} d db p m : decode_digest d = Ok db -> (N.of_nat (length p) < 2 ^ 63)%N -> (entry_bytes p <= m)%N ->
  read_verified_mmap (entry_file CACHE_MAGIC db p) d (entry_bytes p) m = Ok p.
Proof.
  intros Hdb Hlen Hmax. destruct (entry_file_header CACHE_MAGIC db p eq_refl (decode_digest_length _ _ Hdb)) as (h & -> & [Hh Hm Hd Hp Hs]).
  destruct (decode_payload_length _ Hlen) as [Hb Hc]. unfold read_verified_mmap, entry_bytes in *. rewrite length_app, Hh.
  rewrite (proj2 (N.eqb_eq _ _)) by (change (N.of_nat CACHE_HEADER_BYTES) with 80%N; lia). cbn [negb fail_if mbind result_bind].
  unfold validate_header_bytes. rewrite length_app, Hh. change (80 + length p <? CACHE_HEADER_BYTES) with (80 + length p <? 80).
  rewrite (proj2 (Nat.ltb_ge _ _)) by lia. cbn [fail_if mbind result_bind].
  assert (take CACHE_HEADER_BYTES (h ++ p) = h) as -> by (apply take_app_length'; done).
  assert (drop CACHE_HEADER_BYTES (h ++ p) = p) as -> by (apply drop_app_length'; done).
  rewrite (proj2 (N.ltb_ge _ _)), Hm, Hd, Hp, Hb, Hc, Hdb by lia. cbn [negb orb fail_if mbind result_bind].
  rewrite (bool_decide_eq_true_2 (CACHE_MAGIC = CACHE_MAGIC)), (bool_decide_eq_true_2 (db = db)), (bool_decide_eq_true_2 (Some _ = Some _)) by done.
  cbn [negb orb fail_if mbind result_bind]. by rewrite Hs, bool_decide_eq_true_2.
Qed.

(** C35: The cache behaves like an abstract bounded map in order of use.  A
    lookup returns the payload the map holds for the key's digest, and makes it
    the most recent; an insertion of a response under the entry ceiling always
    succeeds, keeps what is already cached for the key, and otherwise drops
    exactly the least recently used entries that must go before appending the
    new one; an invalidation removes the key and nothing else. *)
Theorem cache_refines_lru `{Sha256} limits st m key d : accepted_limits limits = true -> (max_bytes limits < U64_LIMIT)%N ->
  (N.of_nat (max_entries limits) < U64_LIMIT)%N -> represents limits CACHE_MAGIC st m -> key_digest key = Ok d ->
  (exists st', get limits key st = (Ok (match lru_lookup d m with Some p => Hit p | None => Miss end), st') /\
     represents limits CACHE_MAGIC st' (lru_touch d m)) /\
  (forall payload, (N.of_nat (length payload) < 2 ^ 63)%N -> (entry_bytes payload <= max_entry_bytes limits)%N ->
     exists st', insert_entry limits key payload st = (Ok tt, st') /\ represents limits CACHE_MAGIC st' (lru_insert limits d payload m)) /\
  (exists st', invalidate key st = (Ok tt, st') /\ represents limits CACHE_MAGIC st' (lru_remove d m)).
Proof.
  intros Hlim%accepted_usable Hw Hn Hr Hd. split_and!.
  - unfold get. rewrite Hd, (stateful_bind_ok _ _ st d st) by done. apply lookup_represents; [done|]. intros db p. apply read_entry_file.
  - intros payload Hlen Hmax. unfold insert_entry.
    destruct (prepare_entry_cases limits CACHE_MAGIC (key_digest key) payload Hlen (key_digest_cases key))
      as [(d' & db & _ & Hd' & Hlow & Hdb & ->)|[[? _]|[? _]]]; [|lia|congruence].
    rewrite Hd in Hd'. injection Hd' as <-. erewrite stateful_bind_ok by done. by apply publish_represents.
  - unfold invalidate. rewrite Hd, (stateful_bind_ok _ _ st d st) by done. by apply remove_represents.
Qed.

(** ** Instances *)

Definition sample_limits : CacheLimits := {| max_bytes := 200; max_entries := 2; max_entry_bytes := 100 |}.

Definition hex64 (c : string) : string := String.concat EmptyString (replicate 64 c).

Definition sample_key (hydrate : bool) : QueryCacheKey :=
  {| tenant_id := replicate 16 x01; dataset_id := replicate 16 x02; snapshot_id := replicate 16 x03;
     manifest_sha256 := hex64 "a"; serving_root_sha256 := hex64 "b"; query_sha256 := hex64 "c";
     authorized_graph_set_sha256 := hex64 "d"; active_dataset_sha256 := hex64 "e";
     dataset_selection_source := 1; hydrate := hydrate |}.

(** A digest that keeps the end of a message, where the keys differ. *)
Program Definition tail_digest : Sha256 := {| sha256 m := drop (length m) (replicate 32 x00 ++ m) |}.
Next Obligation.
  intros m. change (length (drop (length m) (replicate 32 x00 ++ m)) = 32). rewrite length_drop, length_app, length_replicate. lia.
Qed.

Definition sample_digest : string :=
  Eval vm_compute in match key_digest (H := tail_digest) (sample_key true) with Ok d => d | Err _ => EmptyString end.

Lemma cache_keys_separate_witness :
  key_digest (H := tail_digest) (sample_key true) = Ok sample_digest /\
  (sample_key true = sample_key true \/
   exists p p', key_preimage (sample_key true) = Ok p /\ key_preimage (sample_key true) = Ok p' /\ collide (H := tail_digest) p p').
Proof.
  split; [vm_compute; reflexivity|].
  apply (cache_keys_separate (H := tail_digest) _ _ sample_digest); [by repeat constructor|vm_compute; reflexivity..].
Defined.

Lemma cache_refines_lru_witness : exists st',
  insert_entry (H := tail_digest) sample_limits (sample_key true) [x2a] empty_cache = (Ok tt, st') /\
  represents (H := tail_digest) sample_limits CACHE_MAGIC st' (lru_insert sample_limits sample_digest [x2a] []).
Proof.
  apply (cache_refines_lru (H := tail_digest) sample_limits empty_cache [] (sample_key true) sample_digest (ltac:(vm_compute; reflexivity))
    (ltac:(vm_compute; reflexivity)) (ltac:(vm_compute; reflexivity))
    (empty_represents (H := tail_digest) sample_limits CACHE_MAGIC) (ltac:(vm_compute; reflexivity))); [vm_compute; reflexivity|].
  intros E. vm_compute in E. discriminate E.
Defined.

Lemma cache_stays_bounded_witness : within_limits sample_limits
  (snd (insert_entry (H := tail_digest) sample_limits (sample_key true) [x2a] empty_cache)).
Proof.
  apply (cache_stays_bounded (H := tail_digest) sample_limits (fun _ => false) RootMissing empty_cache).
  - exact I.
  - vm_compute; reflexivity.
  - vm_compute; reflexivity.
  - apply rtc_once, step_insert. vm_compute; reflexivity.
Defined.

(** An insertion accepts an empty response; the next [open] treats its file as
    invalid and deletes it. *)
Example empty_response_is_lost_on_reopen :
  let st := snd (insert_entry (H := tail_digest) sample_limits (sample_key true) [] empty_cache) in
  size (entries st) = 1 /\ fst (get (H := tail_digest) sample_limits (sample_key true) st) = Ok (Hit []) /\
  ((fun file => validate_file_header file sample_digest (max_entry_bytes sample_limits)) <$> disk st !! sample_digest)
  = Some (Err EntryTooLarge).
Proof. split_and!; vm_compute; reflexivity. Qed.

(** A damaged length field whose sum overflows is not discarded like other
    damage: [open] fails altogether. *)
Example overflowing_length_blocks_open :
  open_cache sample_limits (fun _ => false) (RootDirectory
    [marker_entry CACHE_ROOT_MARKER CACHE_ROOT_MARKER_BYTES;
     {| entry_name := Some (sample_digest +:+ ".cache"); entry_symlink := false; entry_dir := false;
        entry_content := CACHE_MAGIC ++ default [] (hex_decode (as_bytes sample_digest)) ++ replicate 8 xff ++ replicate 33 x00 |}])
  = Err AccountingOverflow.
Proof. vm_compute. reflexivity. Qed.
