(* ===== verification/Dataset.v ===== *)
(** * Graph catalogs and the active dataset of a request

    Models src/crates/ngkg-dataset/src/lib.rs: the catalog of named graphs a
    snapshot is published with, and the graphs one request may see, chosen by
    the precedence of protocol parameters over [FROM] clauses over the service
    default and limited by the labels of the principal.

    IRI syntax ([oxigraph]'s [NamedNode::new]) and [serde_json] on the two hash
    preimages are parameters.  A [BTreeSet] of labels is a [gset], visited in
    ascending order. *)

From Stdlib Require Import Strings.Byte Strings.String.
From S2P Require Import Prelude Words Ordered Digest Text.

Definition GRAPH_CATALOG_FORMAT_VERSION : N := 1.
Definition SOURCE_DEFAULT_GRAPH_ROLE : string := "source_default".

Inductive LogicalGraphName :=
| Default
| Named (iri : string).

Record GraphDeclaration := {
  decl_graph_iri : string;
  decl_role : string;
  decl_authorization_labels : gset string;
  decl_query_visible : bool;
  decl_reasoning_visible : bool;
}.

Record GraphRecord := {
  graph_id : N;
  name : LogicalGraphName;
  role : string;
  authorization_labels : gset string;
  query_visible : bool;
  reasoning_visible : bool;
  asserted_quad_count : N;
}.

Record GraphCatalog := {
  format_version : N;
  dataset_id : list byte;
  snapshot_id : list byte;
  graphs : list GraphRecord;
}.

Record QueryDatasetSpecification := {
  specified : bool;
  default_graph_iris : list string;
  named_graph_iris : list string;
}.

Record ProtocolDatasetSpecification := {
  default_graph_uris : list string;
  named_graph_uris : list string;
}.

Inductive DatasetSelectionSource := ServiceDefault | QueryDataset | ProtocolDataset.

Record ResolvedDataset := {
  selection_source : DatasetSelectionSource;
  default_graph_ids : list N;
  named_graph_ids : list N;
  authorized_graph_ids : list N;
  authorized_graph_set_sha256 : string;
  active_dataset_sha256 : string;
}.

Inductive DatasetError :=
| NilIdentity
| InvalidGraphIri (iri : string)
| InvalidRole (role : string)
| InvalidAuthorizationLabel (label : string)
| DuplicateGraph (iri : string)
| UndeclaredGraph (iri : string)
| NonCanonicalCatalog
| UnlabeledVisibleGraph (iri : string)
| UnknownRequestedGraph (iri : string)
| HiddenRequestedGraph (iri : string)
| ForbiddenRequestedGraph (iri : string)
| EmptyAuthorizedDataset
| InvalidQueryDatasetSpecification
| HashSerialization
| GraphIdOverflow
| ResolvedDatasetIntegrity.

Global Instance LogicalGraphName_eq_dec : EqDecision LogicalGraphName.
Proof. solve_decision. Defined.
Global Instance DatasetSelectionSource_eq_dec : EqDecision DatasetSelectionSource.
Proof. solve_decision. Defined.

Definition is_specified (p : ProtocolDatasetSpecification) : bool :=
  negb (bool_decide (default_graph_uris p = [])) || negb (bool_decide (named_graph_uris p = [])).

(** [DatasetSelectionSource::code]. *)
Definition source_code (s : DatasetSelectionSource) : N :=
  match s with ServiceDefault => 0 | QueryDataset => 1 | ProtocolDataset => 2 end.

Definition is_nil (id : list byte) : bool := bool_decide (id = replicate 16 x00).

Definition is_ascii_lowercase : byte -> bool := in_range 97 122.
Definition is_ascii_uppercase : byte -> bool := in_range 65 90.
Definition is_ascii_digit : byte -> bool := in_range 48 57.

Definition valid_role (value : string) : bool :=
  ((1 <=? String.length value) && (String.length value <=? 64))
  && match as_bytes value with
     | [] => true
     | first :: rest =>
         is_ascii_lowercase first
         && forallb (fun b => is_ascii_lowercase b || is_ascii_digit b || bool_decide (b = x5f) || bool_decide (b = x2d)) rest
     end.

Definition valid_authorization_label (value : string) : bool :=
  ((1 <=? String.length value) && (String.length value <=? 128))
  && forallb (fun b => is_ascii_lowercase b || is_ascii_uppercase b || is_ascii_digit b
                       || bool_decide (b ∈ [x5f; x2d; x2e; x3a; x2f])) (as_bytes value).

(** The first label, in ascending order, that is not well formed. *)
Definition check_labels (labels : gset string) : result DatasetError unit :=
  match snd <$> list_find (fun l => valid_authorization_label l = false) (sorted_elements labels) with
  | Some label => Err (InvalidAuthorizationLabel label)
  | None => Ok tt
  end.

Section catalog.
Context (iri_valid : string -> bool).

Definition validate_graph_iri (iri : string) : result DatasetError unit :=
  fail_if (negb (iri_valid iri)) (InvalidGraphIri iri).

Definition validate_declaration (d : GraphDeclaration) : result DatasetError unit :=
  _ ← validate_graph_iri (decl_graph_iri d);
  _ ← fail_if (negb (valid_role (decl_role d))) (InvalidRole (decl_role d));
  _ ← check_labels (decl_authorization_labels d);
  fail_if ((decl_query_visible d || decl_reasoning_visible d) && bool_decide (decl_authorization_labels d = ∅))
    (UnlabeledVisibleGraph (decl_graph_iri d)).

(** One record of [GraphCatalog::validate]; the state is the previous IRI and
    the names seen. *)
Definition validate_graph (acc : option string * gset string) (entry : nat * GraphRecord) :
    result DatasetError (option string * gset string) :=
  let '(previous_iri, names) := acc in
  let '(ordinal, graph) := entry in
  _ ← fail_if (negb (bool_decide (graph_id graph = N.of_nat ordinal)) || negb (valid_role (role graph))) NonCanonicalCatalog;
  _ ← check_labels (authorization_labels graph);
  match name graph, ordinal with
  | Default, O =>
      _ ← fail_if (negb (String.eqb (role graph) SOURCE_DEFAULT_GRAPH_ROLE
                         && bool_decide (authorization_labels graph = ∅)
                         && negb (query_visible graph) && negb (reasoning_visible graph))) NonCanonicalCatalog;
      Ok acc
  | Named iri, S _ =>
      _ ← validate_graph_iri iri;
      _ ← fail_if (match previous_iri with Some previous => bool_decide (rle iri previous) | None => false end
                   || bool_decide (iri ∈ names)) NonCanonicalCatalog;
      _ ← fail_if ((query_visible graph || reasoning_visible graph) && bool_decide (authorization_labels graph = ∅))
            (UnlabeledVisibleGraph iri);
      Ok (Some iri, {[iri]} ∪ names)
  | _, _ => Err NonCanonicalCatalog
  end.

Definition validate_catalog (c : GraphCatalog) : result DatasetError unit :=
  _ ← fail_if (negb (format_version c =? GRAPH_CATALOG_FORMAT_VERSION)%N || is_nil (dataset_id c) || is_nil (snapshot_id c)
               || bool_decide (graphs c = [])) NonCanonicalCatalog;
  _ ← try_fold validate_graph (None, ∅) (enumerate (graphs c));
  Ok tt.

Definition declare (declared : gmap string GraphDeclaration) (d : GraphDeclaration) :
    result DatasetError (gmap string GraphDeclaration) :=
  _ ← validate_declaration d;
  _ ← fail_if (bool_decide (is_Some (declared !! decl_graph_iri d))) (DuplicateGraph (decl_graph_iri d));
  Ok (<[decl_graph_iri d := d]> declared).

Definition default_record (quads : N) : GraphRecord :=
  {| graph_id := 0; name := Default; role := SOURCE_DEFAULT_GRAPH_ROLE; authorization_labels := ∅; query_visible := false;
     reasoning_visible := false; asserted_quad_count := quads |}.

Definition declared_record (counts : gmap string N) (entry : nat * (string * GraphDeclaration)) : result DatasetError GraphRecord :=
  let '(ordinal, (iri, d)) := entry in
  let id := N.of_nat (S ordinal) in
  _ ← fail_if (negb (fits U32_LIMIT id)) GraphIdOverflow;
  Ok {| graph_id := id; name := Named iri; role := decl_role d; authorization_labels := decl_authorization_labels d;
        query_visible := decl_query_visible d; reasoning_visible := decl_reasoning_visible d;
        asserted_quad_count := default 0%N (counts !! iri) |}.

Definition compile_catalog (dataset snapshot : list byte) (default_quad_count : N) (named_quad_counts : gmap string N)
    (declarations : list GraphDeclaration) : result DatasetError GraphCatalog :=
  _ ← fail_if (is_nil dataset || is_nil snapshot) NilIdentity;
  declared ← try_fold declare ∅ declarations;
  _ ← match snd <$> list_find (fun iri => declared !! iri = None) (sorted_elements (dom named_quad_counts)) with
      | Some iri => Err (UndeclaredGraph iri)
      | None => Ok tt
      end;
  named ← try_map (declared_record named_quad_counts) (enumerate (sorted_bindings declared));
  let c := {| format_version := GRAPH_CATALOG_FORMAT_VERSION; dataset_id := dataset; snapshot_id := snapshot;
              graphs := default_record default_quad_count :: named |} in
  _ ← validate_catalog c;
  Ok c.

Definition by_id (c : GraphCatalog) (id : N) : option GraphRecord :=
  g ← graphs c !! N.to_nat id; if (graph_id g =? id)%N then Some g else None.

(** The key of a record under the comparison [named] searches with: the default
    graph is less than every IRI. *)
Definition graph_key (g : GraphRecord) : option string :=
  match name g with Default => None | Named iri => Some iri end.

Definition named (c : GraphCatalog) (iri : string) : option GraphRecord :=
  i ← binary_search (graph_key <$> graphs c) (Some iri); graphs c !! i.

(** ** Resolution *)

Record GraphSetRow := {
  row_graph_id : N;
  row_iri : string;
  row_role : string;
  row_labels : gset string;
  row_query_visible : bool;
  row_reasoning_visible : bool;
}.

Context `{Sha256} (graph_set_json : list GraphSetRow -> option (list byte)) (active_json : list N -> list N -> option (list byte)).

Definition graph_set_row (c : GraphCatalog) (id : N) : result DatasetError GraphSetRow :=
  g ← ok_or (by_id c id) NonCanonicalCatalog;
  match name g with
  | Default => Err NonCanonicalCatalog
  | Named iri => Ok {| row_graph_id := graph_id g; row_iri := iri; row_role := role g; row_labels := authorization_labels g;
                       row_query_visible := query_visible g; row_reasoning_visible := reasoning_visible g |}
  end.

Definition hash_graph_set (c : GraphCatalog) (ids : list N) : result DatasetError string :=
  rows ← try_map (graph_set_row c) ids;
  bytes ← ok_or (graph_set_json rows) HashSerialization;
  Ok (hex_encode (sha256 bytes)).

Definition hash_active_dataset (_source : DatasetSelectionSource) (default_ids named_ids : list N) : result DatasetError string :=
  bytes ← ok_or (active_json default_ids named_ids) HashSerialization;
  Ok (hex_encode (sha256 bytes)).

Definition resolve_graph (c : GraphCatalog) (authorized ids : gset N) (iri : string) : result DatasetError (gset N) :=
  _ ← validate_graph_iri iri;
  g ← ok_or (named c iri) (UnknownRequestedGraph iri);
  _ ← fail_if (negb (query_visible g)) (HiddenRequestedGraph iri);
  _ ← fail_if (negb (bool_decide (graph_id g ∈ authorized))) (ForbiddenRequestedGraph iri);
  Ok ({[graph_id g]} ∪ ids).

Definition resolve_requested_graphs (c : GraphCatalog) (authorized : gset N) (iris : list string) : result DatasetError (list N) :=
  ids ← try_fold (resolve_graph c authorized) ∅ iris; Ok (sorted_elements ids).

(** The graphs a principal may query. *)
Definition authorized_graphs (c : GraphCatalog) (labels : gset string) : list N :=
  graph_id <$> filter (fun g => query_visible g = true /\ ~ (authorization_labels g ## labels)) (graphs c).

Definition resolve_dataset (c : GraphCatalog) (principal_labels : gset string) (query : QueryDatasetSpecification)
    (protocol : ProtocolDatasetSpecification) : result DatasetError ResolvedDataset :=
  _ ← validate_catalog c;
  _ ← fail_if (negb (Bool.eqb (specified query)
                 (negb (bool_decide (default_graph_iris query = [])) || negb (bool_decide (named_graph_iris query = [])))))
        InvalidQueryDatasetSpecification;
  let authorized := authorized_graphs c principal_labels in
  _ ← fail_if (bool_decide (authorized = [])) EmptyAuthorizedDataset;
  set_sha ← hash_graph_set c authorized;
  if negb (is_specified protocol) && negb (specified query) then
    active_sha ← hash_active_dataset ServiceDefault authorized authorized;
    Ok {| selection_source := ServiceDefault; default_graph_ids := authorized; named_graph_ids := authorized;
          authorized_graph_ids := authorized; authorized_graph_set_sha256 := set_sha; active_dataset_sha256 := active_sha |}
  else
    let '(source, default_iris, named_iris) :=
      if is_specified protocol then (ProtocolDataset, default_graph_uris protocol, named_graph_uris protocol)
      else (QueryDataset, default_graph_iris query, named_graph_iris query) in
    default_ids ← resolve_requested_graphs c (list_to_set authorized) default_iris;
    named_ids ← resolve_requested_graphs c (list_to_set authorized) named_iris;
    active_sha ← hash_active_dataset source default_ids named_ids;
    Ok {| selection_source := source; default_graph_ids := default_ids; named_graph_ids := named_ids;
          authorized_graph_ids := authorized; authorized_graph_set_sha256 := set_sha; active_dataset_sha256 := active_sha |}.

Definition canonical_ids (ids : list N) : bool := windows2_all (fun a b => (a <? b)%N) ids.

(** One authorized ID of [validate_resolved_dataset]. *)
Definition check_authorized (c : GraphCatalog) (id : N) : result DatasetError unit :=
  g ← ok_or (by_id c id) ResolvedDatasetIntegrity;
  fail_if (negb (query_visible g) || bool_decide (name g = Default)) ResolvedDatasetIntegrity.

Definition validate_resolved_dataset (c : GraphCatalog) (r : ResolvedDataset) : result DatasetError unit :=
  _ ← validate_catalog c;
  _ ← fail_if (negb (canonical_ids (default_graph_ids r)) || negb (canonical_ids (named_graph_ids r))
               || negb (canonical_ids (authorized_graph_ids r)) || bool_decide (authorized_graph_ids r = []))
        ResolvedDatasetIntegrity;
  _ ← try_map (check_authorized c) (authorized_graph_ids r);
  _ ← fail_if (existsb (fun id => negb (bool_decide (id ∈ authorized_graph_ids r))) (default_graph_ids r ++ named_graph_ids r))
        ResolvedDatasetIntegrity;
  _ ← fail_if (bool_decide (selection_source r = ServiceDefault)
               && (negb (bool_decide (default_graph_ids r = authorized_graph_ids r))
                   || negb (bool_decide (named_graph_ids r = authorized_graph_ids r)))) ResolvedDatasetIntegrity;
  set_sha ← hash_graph_set c (authorized_graph_ids r);
  _ ← fail_if (negb (String.eqb set_sha (authorized_graph_set_sha256 r))) ResolvedDatasetIntegrity;
  active_sha ← hash_active_dataset (selection_source r) (default_graph_ids r) (named_graph_ids r);
  fail_if (negb (String.eqb active_sha (active_dataset_sha256 r))) ResolvedDatasetIntegrity.

Definition role_allowed (c : GraphCatalog) (allowed : gset string) (id : N) : Prop :=
  exists g, by_id c id = Some g /\ role g ∈ allowed.

Global Instance role_allowed_dec c allowed id : Decision (role_allowed c allowed id).
Proof.
  unfold role_allowed. destruct (by_id c id) as [g|]; [|right; by intros (? & ? & _)].
  destruct (decide (role g ∈ allowed)); [left; eauto|right]. intros (? & [= <-] & ?). done.
Defined.

Definition restrict_resolved_dataset_to_roles (c : GraphCatalog) (r : ResolvedDataset) (allowed_roles : gset string) :
    result DatasetError ResolvedDataset :=
  _ ← validate_resolved_dataset c r;
  _ ← fail_if (bool_decide (allowed_roles = ∅)) ResolvedDatasetIntegrity;
  let default_ids := filter (role_allowed c allowed_roles) (default_graph_ids r) in
  let named_ids := filter (role_allowed c allowed_roles) (named_graph_ids r) in
  let authorized := filter (role_allowed c allowed_roles) (authorized_graph_ids r) in
  _ ← fail_if (bool_decide (authorized = []) || bool_decide (default_ids = []) && bool_decide (named_ids = [])) EmptyAuthorizedDataset;
  set_sha ← hash_graph_set c authorized;
  active_sha ← hash_active_dataset (selection_source r) default_ids named_ids;
  let restricted := {| selection_source := selection_source r; default_graph_ids := default_ids; named_graph_ids := named_ids;
                       authorized_graph_ids := authorized; authorized_graph_set_sha256 := set_sha;
                       active_dataset_sha256 := active_sha |} in
  _ ← validate_resolved_dataset c restricted;
  Ok restricted.
End catalog.

(** ** Canonical catalogs *)

Lemma check_labels_ok labels : check_labels labels = Ok tt <-> forall l, l ∈ labels -> valid_authorization_label l = true.
Proof.
  unfold check_labels. destruct (list_find _ _) as [[i l]|] eqn:Hf; cbn.
  - apply list_find_Some in Hf as (Hi & Hl & _). split; [done|]. intros Hall.
    apply list_elem_of_lookup_2, elem_of_sorted_elements, Hall in Hi. congruence.
  - split; [|done]. intros _ l Hl. apply list_find_None in Hf. rewrite Forall_forall in Hf.
    specialize (Hf l (proj2 (elem_of_sorted_elements _ _) Hl)). by destruct (valid_authorization_label l).
Qed.

Section canonical.
Context (iri_valid : string -> bool).

(** What [GraphCatalog::validate] asks of the record at one position. *)
Definition record_ok (i : nat) (g : GraphRecord) : Prop :=
  graph_id g = N.of_nat i /\ valid_role (role g) = true /\ (forall l, l ∈ authorization_labels g -> valid_authorization_label l = true) /\
  match i, name g with
  | O, Default => role g = SOURCE_DEFAULT_GRAPH_ROLE /\ authorization_labels g = ∅ /\ query_visible g = false /\ reasoning_visible g = false
  | S _, Named iri => iri_valid iri = true /\ (query_visible g || reasoning_visible g = true -> authorization_labels g <> ∅)
  | _, _ => False
  end.

(** Dense identifiers, the default graph first, then the named graphs in
    ascending order of IRI, every visible graph labelled. *)
Record canonical (c : GraphCatalog) : Prop := {
  ca_version : format_version c = GRAPH_CATALOG_FORMAT_VERSION;
  ca_dataset : is_nil (dataset_id c) = false;
  ca_snapshot : is_nil (snapshot_id c) = false;
  ca_nonempty : graphs c <> [];
  ca_records : forall i g, graphs c !! i = Some g -> record_ok i g;
  ca_sorted : StronglySorted rlt (graph_key <$> graphs c);
}.

(** The names seen so far end at the previous IRI. *)
Definition names_below (prev : option string) (names : gset string) : Prop := forall x, x ∈ names -> rle (Some x) prev.

Lemma validate_graph_named k prev names g st : names_below prev names ->
  validate_graph iri_valid (prev, names) (S k, g) = Ok st <->
  record_ok (S k) g /\ rlt prev (graph_key g) /\ exists iri, name g = Named iri /\ st = (Some iri, {[iri]} ∪ names).
Proof using Type.
  intros Hb. assert (forall iri, match prev with Some previous => bool_decide (rle iri previous) | None => false end
            || bool_decide (iri ∈ names) = false <-> rlt prev (Some iri)) as Hprev.
  { intros iri. rewrite orb_false_iff, bool_decide_eq_false. destruct prev as [p|].
    - rewrite bool_decide_eq_false, not_rle. split; [by intros [? _]|]. intros Hlt. split; [done|]. intros Hin%Hb.
      apply not_rle in Hlt. by apply Hlt.
    - split; [done|]. intros _. split; [done|]. intros Hin%Hb. by apply Hin. }
  unfold validate_graph, record_ok, graph_key, validate_graph_iri. split.
  - intros Hv. do 2 inv_ok Hv. inv_ok Ha. destruct a0. pose proof (proj1 (check_labels_ok _) Ha0) as Hlab. bool_prop.
    destruct (name g) as [|iri]; [done|]. do 3 inv_ok Hv. injection Hv as <-. inv_ok Ha. inv_ok Ha1. inv_ok Ha2.
    apply Hprev in Ha1. bool_prop. split_and!; try done; [|by exists iri]. intros Hvis Hl. rewrite Hvis in Ha2. cbn in Ha2.
    by bool_prop.
  - intros ((Hid & Hrole & Hlab & Hn) & Hlt & iri & Hname & ->). rewrite Hname in *. destruct Hn as [Hiri Hvis].
    rewrite (bool_decide_eq_true_2 (graph_id g = _) Hid), Hrole. cbn [negb orb fail_if mbind result_bind].
    rewrite (proj2 (check_labels_ok _) Hlab). cbn [mbind result_bind]. rewrite Hiri. cbn [negb fail_if mbind result_bind].
    rewrite (proj2 (Hprev iri) Hlt). cbn [fail_if mbind result_bind].
    destruct (query_visible g || reasoning_visible g); [|done]. rewrite bool_decide_eq_false_2 by auto. done.
Qed.

Lemma validate_named_graphs gs : forall k prev names, names_below prev names ->
  (exists st, try_fold (validate_graph iri_valid) (prev, names) (zip (seq (S k) (length gs)) gs) = Ok st) <->
  (forall i g, gs !! i = Some g -> record_ok (S k + i) g) /\ StronglySorted rlt (prev :: (graph_key <$> gs)).
Proof using Type.
  induction gs as [|g gs IH]; intros k prev names Hb.
  { cbn. split; [|eauto]. intros _. split; [done|by repeat constructor]. }
  cbn [length seq zip zip_with try_fold]. change (graph_key <$> g :: gs) with (graph_key g :: (graph_key <$> gs)).
  rewrite StronglySorted_cons2.
  assert (forall iri, rlt prev (Some iri) -> names_below (Some iri) ({[iri]} ∪ names)) as Hb'.
  { intros iri Hlt x [->%elem_of_singleton|Hx]%elem_of_union; [reflexivity|]. etrans; [by apply Hb|]. apply rle_lt_eq. by left. }
  split.
  - intros [st Hst]. inv_ok Hst. apply validate_graph_named in Ha as (Hg & Hlt & iri & Hn & ->); [|done].
    assert (graph_key g = Some iri) as Hk by (unfold graph_key; by rewrite Hn). rewrite Hk in *.
    destruct (proj1 (IH (S k) (Some iri) ({[iri]} ∪ names) (Hb' iri Hlt))) as [Hr Hs]; [by exists st|].
    split; [|done]. intros [|i] g' Hi; cbn in Hi; [injection Hi as <-; by rewrite Nat.add_0_r|]. apply Hr in Hi.
    by rewrite Nat.add_succ_r.
  - intros (Hr & Hlt & Hs). pose proof (Hr 0 g eq_refl) as Hg. rewrite Nat.add_0_r in Hg.
    assert (exists iri, name g = Named iri) as [iri Hn].
    { destruct Hg as (_ & _ & _ & Hg). destruct (name g) as [|iri]; [done|by exists iri]. }
    assert (graph_key g = Some iri) as Hk by (unfold graph_key; by rewrite Hn).
    rewrite (proj2 (validate_graph_named k prev names g (Some iri, {[iri]} ∪ names) Hb)) by eauto. cbn [mbind result_bind].
    rewrite Hk in *. apply IH; [by apply Hb'|]. split; [|done]. intros i g' Hi. specialize (Hr (S i) g' Hi).
    by rewrite Nat.add_succ_r in Hr.
Qed.

Lemma validate_graph_default g st : validate_graph iri_valid (None, ∅) (0, g) = Ok st <-> record_ok 0 g /\ st = (None, ∅).
Proof using Type.
  unfold validate_graph, record_ok. split.
  - intros Hv. do 2 inv_ok Hv. inv_ok Ha. destruct a0. pose proof (proj1 (check_labels_ok _) Ha0) as Hlab. bool_prop.
    destruct (name g) as [|iri]; [|done]. inv_ok Hv. injection Hv as <-. inv_ok Ha. bool_prop.
    match goal with Hr : String.eqb _ _ = true |- _ => apply String.eqb_eq in Hr end. by split_and!.
  - intros ((Hid & Hrole & Hlab & Hn) & ->). rewrite (bool_decide_eq_true_2 (graph_id g = _) Hid), Hrole.
    cbn [negb orb fail_if mbind result_bind]. rewrite (proj2 (check_labels_ok _) Hlab). cbn [mbind result_bind].
    destruct (name g); [|done]. destruct Hn as (-> & Hl & -> & ->). by rewrite String.eqb_refl, bool_decide_eq_true_2.
Qed.

(** The catalog check is exact. *)
Lemma validate_catalog_ok c : validate_catalog iri_valid c = Ok tt <-> canonical c.
Proof using Type.
  unfold validate_catalog, enumerate. split.
  - intros Hv. do 2 inv_ok Hv. inv_ok Ha. bool_prop. destruct (graphs c) as [|g gs] eqn:Hg; [done|].
    cbn [length seq zip zip_with try_fold] in Ha0. inv_ok Ha0. apply validate_graph_default in Ha as [Hd ->].
    destruct (proj1 (validate_named_graphs gs 0 None ∅ ltac:(intros x; set_solver))) as [Hr Hs]; [eauto|].
    split; [done..|by rewrite Hg| |].
    + rewrite Hg. intros [|i] g' Hi; cbn in Hi; [by injection Hi as <-|]. by apply Hr in Hi.
    + rewrite Hg. cbn [fmap list_fmap]. assert (graph_key g = None) as ->; [|done].
      destruct Hd as (_ & _ & _ & Hd). unfold graph_key. by destruct (name g).
  - intros [Hver Hds Hsn Hne Hr Hs]. rewrite Hver, Hds, Hsn, bool_decide_eq_false_2 by done.
    cbn [N.eqb GRAPH_CATALOG_FORMAT_VERSION Pos.eqb negb orb fail_if mbind result_bind]. destruct (graphs c) as [|g gs] eqn:Hg; [done|].
    cbn [length seq zip zip_with try_fold]. pose proof (Hr 0 g eq_refl) as Hd.
    rewrite (proj2 (validate_graph_default g (None, ∅))) by done. cbn [mbind result_bind].
    destruct (proj2 (validate_named_graphs gs 0 None ∅ ltac:(intros x; set_solver))) as [st ->]; [|done].
    split; [intros i g' Hi; by apply (Hr (S i))|]. cbn [fmap list_fmap] in Hs. assert (graph_key g = None) as Hk; [|by rewrite Hk in Hs].
    destruct Hd as (_ & _ & _ & Hd). unfold graph_key. by destruct (name g).
Qed.

Lemma validate_catalog_unit c u : validate_catalog iri_valid c = Ok u <-> canonical c.
Proof using Type. destruct u. apply validate_catalog_ok. Qed.

(** *** Lookups *)

Lemma by_id_spec c id g : canonical c -> by_id c id = Some g <-> g ∈ graphs c /\ graph_id g = id.
Proof using Type.
  intros Hc. unfold by_id. split.
  - destruct (graphs c !! N.to_nat id) as [g'|] eqn:Hi; cbn; [|done]. destruct (N.eqb_spec (graph_id g') id); [|done].
    intros [= <-]. split; [by eapply list_elem_of_lookup_2|done].
  - intros [[i Hi]%list_elem_of_lookup <-]. destruct (ca_records c Hc i g Hi) as [Hid _]. rewrite Hid, Nat2N.id, Hi. cbn.
    by rewrite Hid, N.eqb_refl.
Qed.

Lemma named_spec c iri g : canonical c -> named c iri = Some g <-> g ∈ graphs c /\ name g = Named iri.
Proof using Type.
  intros Hc. unfold named. assert (forall g, graph_key g = Some iri <-> name g = Named iri) as Hk.
  { intros g'. unfold graph_key. destruct (name g'); naive_solver. }
  split.
  - destruct (binary_search _ _) as [i|] eqn:Hb; cbn; [|done]. intros Hi. apply binary_search_lookup in Hb.
    rewrite list_lookup_fmap, Hi in Hb. injection Hb as Hb. split; [by eapply list_elem_of_lookup_2|by apply Hk].
  - intros [[i Hi]%list_elem_of_lookup Hn%Hk].
    assert ((graph_key <$> graphs c) !! i = Some (Some iri)) as Hl by (by rewrite list_lookup_fmap, Hi; cbn; rewrite Hn).
    destruct (proj2 (binary_search_spec (graph_key <$> graphs c) (Some iri) (ca_sorted c Hc))) as [j Hj];
      [by eapply list_elem_of_lookup_2|].
    rewrite Hj. cbn. apply binary_search_lookup in Hj.
    assert (NoDup (graph_key <$> graphs c)) as Hnd by apply StronglySorted_rlt_NoDup, ca_sorted, Hc.
    by rewrite (NoDup_lookup _ _ _ _ Hnd Hj Hl).
Qed.

(** Identifiers ascend with the position, so a selection of graphs lists them
    in ascending order. *)
Lemma ids_ascend c (P : GraphRecord -> Prop) `{!forall g, Decision (P g)} :
  canonical c -> StronglySorted rlt (graph_id <$> filter P (graphs c)).
Proof using Type.
  intros Hc. assert (forall gs k, (forall i g, gs !! i = Some g -> graph_id g = N.of_nat (k + i)) ->
    StronglySorted rlt (graph_id <$> filter P gs)) as Hgen; [|eapply (Hgen _ 0); intros i g Hi; by apply (ca_records c Hc i g)].
  intros gs. induction gs as [|g gs IH]; intros k Hgs; [constructor|]. rewrite filter_cons.
  assert (StronglySorted rlt (graph_id <$> filter P gs)) as Hs.
  { apply (IH (S k)). intros i g' Hi. rewrite (Hgs (S i) g' Hi). lia. }
  case_decide; [|done]. cbn [fmap list_fmap]. constructor; [done|]. apply Forall_fmap, Forall_forall. intros g' [_ Hg']%list_elem_of_filter.
  apply list_elem_of_lookup in Hg' as [i Hi]. unfold compose. rewrite (Hgs 0 g eq_refl), (Hgs (S i) g' Hi).
  apply N.compare_lt_iff. lia.
Qed.

(** The record a principal may query. *)
Definition visible_to (c : GraphCatalog) (labels : gset string) (g : GraphRecord) : Prop :=
  g ∈ graphs c /\ query_visible g = true /\ exists l, l ∈ authorization_labels g /\ l ∈ labels.

Lemma elem_of_authorized c labels id : id ∈ authorized_graphs c labels <-> exists g, visible_to c labels g /\ graph_id g = id.
Proof using Type.
  clear iri_valid. unfold authorized_graphs, visible_to. rewrite list_elem_of_fmap. setoid_rewrite list_elem_of_filter.
  split.
  - intros (g & -> & [Hv Hd] & Hg). exists g. split_and!; try done. rewrite disjoint_intersection_L in Hd.
    apply set_choose_L in Hd as [l Hl]. exists l. set_solver.
  - intros (g & (Hg & Hv & Hl) & <-). exists g. split_and!; try done. destruct Hl as (l & H1 & H2). set_solver.
Qed.

(** The default graph is never visible. *)
Lemma visible_named c labels g : canonical c -> visible_to c labels g -> exists iri, name g = Named iri.
Proof using Type.
  intros Hc (Hg & Hv & _). apply list_elem_of_lookup in Hg as [i Hi]. destruct (ca_records c Hc i g Hi) as (_ & _ & _ & Hr).
  destruct i, (name g); naive_solver congruence.
Qed.

(** The identifiers of the graphs named by [iris], ascending. *)
Definition requested (c : GraphCatalog) (iris : list string) (ids : list N) : Prop :=
  StronglySorted rlt ids /\
  forall id, id ∈ ids <-> exists iri g, iri ∈ iris /\ g ∈ graphs c /\ name g = Named iri /\ graph_id g = id.

Definition all_visible (c : GraphCatalog) (labels : gset string) (iris : list string) : Prop :=
  forall iri, iri ∈ iris -> iri_valid iri = true /\ exists g, visible_to c labels g /\ name g = Named iri.

Lemma resolve_graph_ok c labels ids iri ids' : canonical c ->
  resolve_graph iri_valid c (list_to_set (authorized_graphs c labels)) ids iri = Ok ids' <->
  iri_valid iri = true /\ exists g, visible_to c labels g /\ name g = Named iri /\ ids' = {[graph_id g]} ∪ ids.
Proof using Type.
  intros Hc. unfold resolve_graph, validate_graph_iri. split.
  - intros Hr. do 4 inv_ok Hr. injection Hr as <-. inv_ok Ha. inv_ok Ha0. inv_ok Ha1. inv_ok Ha2. bool_prop.
    split; [done|]. apply named_spec in Ha0 as [Hg Hn]; [|done]. exists a0. split; [|done].
    apply elem_of_list_to_set, elem_of_authorized in Ha2 as (g' & Hv & Hid).
    assert (g' = a0) as ->; [|done]. pose proof (proj2 (by_id_spec c (graph_id a0) a0 Hc) ltac:(done)).
    pose proof (proj2 (by_id_spec c (graph_id a0) g' Hc) (conj (proj1 Hv) Hid)). congruence.
  - intros (Hiri & g & Hv & Hn & ->). rewrite Hiri. cbn [negb fail_if mbind result_bind].
    rewrite (proj2 (named_spec c iri g Hc)) by (split; [apply Hv|done]). cbn [ok_or mbind result_bind].
    destruct Hv as (Hg & Hq & Hl). rewrite Hq, bool_decide_eq_true_2; [done|].
    apply elem_of_list_to_set, elem_of_authorized. by exists g.
Qed.

Lemma resolve_requested_ok c labels iris ids : canonical c ->
  resolve_requested_graphs iri_valid c (list_to_set (authorized_graphs c labels)) iris = Ok ids ->
  all_visible c labels iris /\ requested c iris ids.
Proof using Type.
  intros Hc Hr. unfold resolve_requested_graphs in Hr. inv_ok Hr. injection Hr as <-. rename a into found.
  pose (P (pre : list string) (found : gset N) := all_visible c labels pre /\
    forall id, id ∈ found <-> exists iri g, iri ∈ pre /\ g ∈ graphs c /\ name g = Named iri /\ graph_id g = id).
  assert (P iris found) as [Hv Hf].
  { revert Ha. apply try_fold_inv; [split; [by intros ? ?%not_elem_of_nil|set_solver]|].
    intros pre iri s1 s2 [Hv Hf] _ Hs. apply resolve_graph_ok in Hs as (Hiri & g & Hg & Hn & ->); [|done]. split.
    - intros x [Hx|Hx%list_elem_of_singleton]%elem_of_app; [by apply Hv|]. subst. split; [done|by exists g].
    - intros id. rewrite elem_of_union, elem_of_singleton, Hf. setoid_rewrite elem_of_app. setoid_rewrite list_elem_of_singleton. split.
      + intros [->|(x & g' & Hx & Hr)]; [exists iri, g|exists x, g']; [|by auto]. split; [by right|]. split; [apply Hg|done].
      + intros (x & g' & [Hx| ->] & Hg' & Hn' & Hid); [right; by exists x, g'|left].
        assert (g' = g) as ->; [|done]. pose proof (proj2 (named_spec c iri g' Hc) (conj Hg' Hn')).
        pose proof (proj2 (named_spec c iri g Hc) (conj (proj1 Hg) Hn)). congruence. }
  split; [done|]. split; [apply sorted_elements_strict|]. intros id. by rewrite elem_of_sorted_elements, Hf.
Qed.

Lemma resolve_requested_total c labels iris : canonical c -> all_visible c labels iris ->
  exists ids, resolve_requested_graphs iri_valid c (list_to_set (authorized_graphs c labels)) iris = Ok ids.
Proof using Type.
  intros Hc Hv. unfold resolve_requested_graphs.
  cut (forall found, exists ids, try_fold (resolve_graph iri_valid c (list_to_set (authorized_graphs c labels))) found iris = Ok ids).
  { intros Ht. destruct (Ht ∅) as [ids ->]. cbn. eauto. }
  induction iris as [|iri iris IH]; intros found; cbn; [eauto|]. destruct (Hv iri) as (Hiri & g & Hg & Hn); [left|].
  rewrite (proj2 (resolve_graph_ok c labels found iri ({[graph_id g]} ∪ found) Hc)) by eauto. cbn.
  apply IH. intros x Hx. apply Hv. by right.
Qed.

Lemma requested_authorized c labels iris ids : canonical c -> all_visible c labels iris -> requested c iris ids ->
  forall id, id ∈ ids -> id ∈ authorized_graphs c labels.
Proof using Type.
  intros Hc Hv [_ Hr] id (iri & g & Hi & Hg & Hn & Hid)%Hr. apply elem_of_authorized. destruct (Hv iri Hi) as (_ & g' & Hg' & Hn').
  exists g'. split; [done|]. assert (g' = g) as ->; [|done].
  pose proof (proj2 (named_spec c iri g' Hc) (conj (proj1 Hg') Hn')). pose proof (proj2 (named_spec c iri g Hc) (conj Hg Hn)). congruence.
Qed.
End canonical.

(** ** Compiled catalogs *)

Section compiled.
Context (iri_valid : string -> bool).

Definition declaration_ok (d : GraphDeclaration) : Prop :=
  iri_valid (decl_graph_iri d) = true /\ valid_role (decl_role d) = true /\
  (forall l, l ∈ decl_authorization_labels d -> valid_authorization_label l = true) /\
  (decl_query_visible d || decl_reasoning_visible d = true -> decl_authorization_labels d <> ∅).

Lemma validate_declaration_ok d u : validate_declaration iri_valid d = Ok u <-> declaration_ok d.
Proof using Type.
  destruct u. unfold validate_declaration, validate_graph_iri, declaration_ok. split.
  - intros Hv. do 3 inv_ok Hv. inv_ok Ha. inv_ok Ha0. inv_ok Hv. destruct a1. pose proof (proj1 (check_labels_ok _) Ha1). bool_prop.
    split_and!; try done. intros Hvis Hl. rewrite Hvis in Hv. cbn in Hv. by bool_prop.
  - intros (-> & -> & Hlab & Hvis). cbn [negb fail_if mbind result_bind]. rewrite (proj2 (check_labels_ok _) Hlab). cbn [mbind result_bind].
    destruct (decl_query_visible d || decl_reasoning_visible d); [|done]. by rewrite bool_decide_eq_false_2 by auto.
Qed.

Definition by_iri (decls : list GraphDeclaration) : gmap string GraphDeclaration :=
  list_to_map ((fun d => (decl_graph_iri d, d)) <$> decls).

Lemma by_iri_keys decls : ((fun d => (decl_graph_iri d, d)) <$> decls).*1 = decl_graph_iri <$> decls.
Proof using Type. by rewrite <- list_fmap_compose. Qed.

Lemma lookup_by_iri decls iri d : NoDup (decl_graph_iri <$> decls) ->
  by_iri decls !! iri = Some d <-> d ∈ decls /\ decl_graph_iri d = iri.
Proof using Type.
  intros Hnd. unfold by_iri. rewrite <- elem_of_list_to_map by (by rewrite by_iri_keys).
  rewrite list_elem_of_fmap. split; [intros (d' & [= -> ->] & ?); done|]. intros [? <-]. by exists d.
Qed.

Lemma declare_all decls m : try_fold (declare iri_valid) ∅ decls = Ok m <->
  Forall declaration_ok decls /\ NoDup (decl_graph_iri <$> decls) /\ m = by_iri decls.
Proof using Type.
  revert m. induction decls as [|d decls IH] using rev_ind; intros m;
    [cbn; split; [intros [= <-]; by repeat constructor|by intros (_ & _ & ->)]|].
  rewrite try_fold_app, Forall_app, Forall_singleton, fmap_app, NoDup_app. cbn [try_fold fmap list_fmap].
  assert (NoDup (decl_graph_iri <$> decls) -> is_Some (by_iri decls !! decl_graph_iri d) <-> decl_graph_iri d ∈ decl_graph_iri <$> decls) as Hin.
  { intros Hnd. rewrite list_elem_of_fmap. split.
    - intros [d' (Hd & He)%lookup_by_iri]; [|done]. eauto.
    - intros (d' & He & Hd). exists d'. by apply lookup_by_iri. }
  assert (decl_graph_iri d ∉ decl_graph_iri <$> decls -> by_iri (decls ++ [d]) = <[decl_graph_iri d := d]> (by_iri decls)) as Hsnoc.
  { intros Hni. unfold by_iri. rewrite fmap_app. apply list_to_map_snoc. by rewrite by_iri_keys. }
  split.
  - intros Hf. inv_ok Hf. apply IH in Ha as (Hok & Hnd & ->). inv_ok Hf. injection Hf as <-.
    unfold declare in Ha. do 2 inv_ok Ha. apply validate_declaration_ok in Ha0.
    injection Ha as <-. inv_ok Ha1. bool_prop. rewrite (Hin Hnd) in Ha1.
    split_and!; try done; [|apply NoDup_singleton|by rewrite Hsnoc]. intros x Hx. rewrite list_elem_of_singleton. by intros ->.
  - intros ((Hok & Hd) & (Hnd & Hdis & _) & ->). rewrite (proj2 (IH (by_iri decls))) by done. cbn [mbind result_bind]. unfold declare.
    assert (decl_graph_iri d ∉ decl_graph_iri <$> decls) as Hni by (intros Hx; apply (Hdis _ Hx); left).
    rewrite (proj2 (validate_declaration_ok d tt) Hd). cbn [mbind result_bind].
    rewrite bool_decide_eq_false_2 by (by rewrite (Hin Hnd)). cbn [fail_if mbind result_bind]. by rewrite Hsnoc.
Qed.

Definition catalog_record (counts : gmap string N) (entry : nat * (string * GraphDeclaration)) : GraphRecord :=
  let '(i, (iri, d)) := entry in
  {| graph_id := N.of_nat (S i); name := Named iri; role := decl_role d; authorization_labels := decl_authorization_labels d;
     query_visible := decl_query_visible d; reasoning_visible := decl_reasoning_visible d;
     asserted_quad_count := default 0%N (counts !! iri) |}.

(** The catalog the declarations determine. *)
Definition expected_catalog (dataset snapshot : list byte) (quads : N) (counts : gmap string N) (decls : list GraphDeclaration) : GraphCatalog :=
  {| format_version := GRAPH_CATALOG_FORMAT_VERSION; dataset_id := dataset; snapshot_id := snapshot;
     graphs := default_record quads :: (catalog_record counts <$> enumerate (sorted_bindings (by_iri decls))) |}.

Record compilable (dataset snapshot : list byte) (counts : gmap string N) (decls : list GraphDeclaration) : Prop := {
  co_dataset : is_nil dataset = false;
  co_snapshot : is_nil snapshot = false;
  co_declarations : Forall declaration_ok decls;
  co_distinct : NoDup (decl_graph_iri <$> decls);
  co_declared : forall iri, is_Some (counts !! iri) -> iri ∈ decl_graph_iri <$> decls;
  co_fits : (N.of_nat (length decls) < U32_LIMIT)%N;
}.

Lemma length_bindings decls : NoDup (decl_graph_iri <$> decls) -> length (sorted_bindings (by_iri decls)) = length decls.
Proof using Type.
  intros Hnd. rewrite sorted_bindings_perm, length_map_to_list. unfold by_iri. rewrite map_size_list_to_map by (by rewrite by_iri_keys).
  apply length_fmap.
Qed.

Lemma expected_canonical dataset snapshot quads counts decls : compilable dataset snapshot counts decls ->
  canonical iri_valid (expected_catalog dataset snapshot quads counts decls).
Proof using Type.
  intros [Hds Hsn Hok Hnd Hcov Hfit]. split; try done.
  - intros [|i] g Hg; [injection Hg as <-; by split_and!|].
    change ((catalog_record counts <$> enumerate (sorted_bindings (by_iri decls))) !! i = Some g) in Hg.
    rewrite list_lookup_fmap, enumerate_lookup in Hg. destruct (sorted_bindings (by_iri decls) !! i) as [[iri d]|] eqn:Hi; [|done].
    injection Hg as <-. apply list_elem_of_lookup_2, elem_of_sorted_bindings, lookup_by_iri in Hi as [Hd <-]; [|done].
    rewrite Forall_forall in Hok. destruct (Hok d Hd) as (? & ? & ? & ?). by split_and!.
  - cbn [graphs expected_catalog fmap list_fmap]. change (graph_key (default_record quads)) with (@None string).
    assert (graph_key <$> (catalog_record counts <$> enumerate (sorted_bindings (by_iri decls))) = Some <$> (sorted_bindings (by_iri decls)).*1) as E.
    { apply list_eq. intros i. rewrite !list_lookup_fmap, enumerate_lookup. by destruct (sorted_bindings (by_iri decls) !! i) as [[]|]. }
    change (StronglySorted rlt (None :: (graph_key <$> (catalog_record counts <$> enumerate (sorted_bindings (by_iri decls)))))).
    rewrite E. pose proof (sorted_bindings_keys (by_iri decls)) as Hs. constructor.
    + clear E. induction Hs as [|x l Hl IH Hx]; cbn; [constructor|]. constructor; [done|]. by apply Forall_fmap.
    + by apply Forall_fmap, Forall_true.
Qed.

Lemma declared_covers (counts : gmap string N) decls : NoDup (decl_graph_iri <$> decls) ->
  list_find (fun iri => by_iri decls !! iri = None) (sorted_elements (dom counts)) = None <->
  (forall iri, is_Some (counts !! iri) -> iri ∈ decl_graph_iri <$> decls).
Proof using Type.
  intros Hnd. rewrite list_find_None, Forall_forall. split; intros Hall iri.
  - intros Hi. specialize (Hall iri (proj2 (elem_of_sorted_elements _ _) (proj2 (elem_of_dom _ _) Hi))).
    destruct (by_iri decls !! iri) as [d|] eqn:Hd; [|done]. apply lookup_by_iri in Hd as [Hd <-]; [|done]. apply list_elem_of_fmap. eauto.
  - intros Hi%elem_of_sorted_elements%elem_of_dom%Hall Hd. apply list_elem_of_fmap in Hi as (d & -> & Hin).
    by rewrite (proj2 (lookup_by_iri decls _ d Hnd)) in Hd.
Qed.

Lemma declared_record_ok counts i b g : declared_record counts (i, b) = Ok g <->
  (N.of_nat (S i) < U32_LIMIT)%N /\ g = catalog_record counts (i, b).
Proof using Type.
  destruct b as [iri d]. unfold declared_record, fits. split.
  - intros Hd. inv_ok Hd. inv_ok Ha. bool_prop. injection Hd as <-. done.
  - intros [Hfit ->]. by rewrite (proj2 (N.ltb_lt _ _) Hfit).
Qed.

Lemma declared_records_ok counts (bs : list (string * GraphDeclaration)) gs : try_map (declared_record counts) (enumerate bs) = Ok gs <->
  (N.of_nat (length bs) < U32_LIMIT)%N /\ gs = catalog_record counts <$> enumerate bs.
Proof using Type.
  rewrite try_map_ok. split.
  - intros Hf. split.
    + destruct bs as [|b0 bs]; [by vm_compute|]. destruct (lookup_lt_is_Some_2 (b0 :: bs) (length bs)) as [b Hb]; [cbn; lia|].
      destruct (Forall2_lookup_l _ _ _ (length bs) (length bs, b) Hf) as (g & _ & Hg); [by rewrite enumerate_lookup, Hb|].
      by apply declared_record_ok in Hg as [? _].
    + symmetry. apply list_eq_Forall2, Forall2_fmap_l. eapply Forall2_impl; [exact Hf|]. intros [i b] g Hg.
      by apply declared_record_ok in Hg as [_ ->].
  - intros [Hl ->]. apply Forall2_fmap_r, Forall_Forall2_diag, Forall_forall. intros [i b] Hi. apply declared_record_ok.
    apply list_elem_of_lookup in Hi as [k Hk]. rewrite enumerate_lookup in Hk. destruct (bs !! k) as [b'|] eqn:Hb; [|done].
    injection Hk as <- <-. apply lookup_lt_Some in Hb. split; [lia|done].
Qed.

Lemma compile_catalog_ok dataset snapshot quads counts decls c :
  compile_catalog iri_valid dataset snapshot quads counts decls = Ok c <->
  compilable dataset snapshot counts decls /\ c = expected_catalog dataset snapshot quads counts decls.
Proof using Type.
  unfold compile_catalog. split.
  - intros Hc. do 5 inv_ok Hc. injection Hc as <-. inv_ok Ha. bool_prop. apply declare_all in Ha0 as (Hok & Hnd & ->).
    destruct (list_find _ _) eqn:Hf; cbn [fmap option_fmap option_map] in Ha1; [done|].
    pose proof (proj1 (declared_covers counts decls Hnd) Hf) as Hcov. apply declared_records_ok in Ha2 as [Hfit ->]. rewrite (length_bindings _ Hnd) in Hfit.
    split; [|done]. by split.
  - intros [Hco ->]. pose proof (expected_canonical _ _ quads _ _ Hco) as Hcan. destruct Hco as [Hds Hsn Hok Hnd Hcov Hfit].
    rewrite Hds, Hsn. cbn [orb fail_if mbind result_bind]. rewrite (proj2 (declare_all decls (by_iri decls))) by done. cbn [mbind result_bind].
    rewrite (proj2 (declared_covers counts decls Hnd) Hcov). cbn [fmap option_fmap option_map mbind result_bind].
    rewrite (proj2 (declared_records_ok counts (sorted_bindings (by_iri decls)) _)) by (rewrite (length_bindings _ Hnd); done).
    cbn [mbind result_bind]. fold (expected_catalog dataset snapshot quads counts decls).
    by rewrite (proj2 (validate_catalog_ok _ _) Hcan).
Qed.

Lemma by_iri_perm decls decls' : NoDup (decl_graph_iri <$> decls) -> decls ≡ₚ decls' -> by_iri decls = by_iri decls'.
Proof using Type.
  intros Hnd Hp. apply list_to_map_proper; [by rewrite by_iri_keys|]. by rewrite Hp.
Qed.

Lemma compilable_perm dataset snapshot counts decls decls' : decls ≡ₚ decls' ->
  compilable dataset snapshot counts decls -> compilable dataset snapshot counts decls'.
Proof using Type.
  intros Hp [Hds Hsn Hok Hnd Hcov Hfit]. split; try done; [by rewrite <- Hp..| |by rewrite <- Hp].
  intros iri Hi. rewrite <- Hp. by apply Hcov.
Qed.

(** C33: A catalog is compiled exactly from well-formed, distinct declarations
    that cover every observed graph and fit the identifier space.  The result is
    canonical (dense identifiers, the hidden default graph first, named graphs
    in ascending order), looks every declared graph up with its declared policy
    and its observed quad count, zero for an empty graph, holds nothing else,
    and does not depend on the order of the declarations. *)
Theorem catalog_compilation_exact dataset snapshot quads counts decls :
  (is_ok (compile_catalog iri_valid dataset snapshot quads counts decls) = true <-> compilable dataset snapshot counts decls) /\
  (forall c, compile_catalog iri_valid dataset snapshot quads counts decls = Ok c ->
     canonical iri_valid c /\ length (graphs c) = S (length decls) /\
     (forall d, d ∈ decls -> exists g, named c (decl_graph_iri d) = Some g /\ role g = decl_role d /\
        authorization_labels g = decl_authorization_labels d /\ query_visible g = decl_query_visible d /\
        reasoning_visible g = decl_reasoning_visible d /\ asserted_quad_count g = default 0%N (counts !! decl_graph_iri d)) /\
     (forall decls', decls' ≡ₚ decls -> compile_catalog iri_valid dataset snapshot quads counts decls' = Ok c)).
Proof using Type.
  split.
  - split.
    + destruct (compile_catalog _ _ _ _ _ _) as [c|e] eqn:Hc; [|done]. by apply compile_catalog_ok in Hc as [? _].
    + intros Hco. by rewrite (proj2 (compile_catalog_ok _ _ quads _ _ _) (conj Hco eq_refl)).
  - intros c [Hco ->]%compile_catalog_ok. pose proof (expected_canonical _ _ quads _ _ Hco) as Hcan.
    pose proof (co_distinct _ _ _ _ Hco) as Hnd. split; [done|]. split_and!.
    + cbn [graphs expected_catalog length]. unfold enumerate. rewrite length_fmap, length_zip, length_seq, (length_bindings _ Hnd). lia.
    + intros d Hd. destruct (proj1 (list_elem_of_lookup (sorted_bindings (by_iri decls)) (decl_graph_iri d, d))) as [i Hi];
        [by apply elem_of_sorted_bindings, lookup_by_iri|].
      exists (catalog_record counts (i, (decl_graph_iri d, d))). split; [|done]. apply (named_spec iri_valid); [done|]. split; [|done].
      right. apply list_elem_of_fmap. eexists. split; [done|]. apply (list_elem_of_lookup_2 _ i). by rewrite enumerate_lookup, Hi.
    + intros decls' Hp. apply compile_catalog_ok. split; [by eapply compilable_perm|]. unfold expected_catalog.
      by rewrite (by_iri_perm decls decls' Hnd).
Qed.
End compiled.

(** ** Resolved datasets *)

Section resolved.
Context (iri_valid : string -> bool) `{Sha256} (graph_set_json : list GraphSetRow -> option (list byte))
        (active_json : list N -> list N -> option (list byte)).
Abbreviation hash_set := (hash_graph_set graph_set_json).
Abbreviation hash_active := (hash_active_dataset active_json).
Abbreviation resolve := (resolve_dataset iri_valid graph_set_json active_json).
Abbreviation validate := (validate_resolved_dataset iri_valid graph_set_json active_json).
Abbreviation restrict := (restrict_resolved_dataset_to_roles iri_valid graph_set_json active_json).

(** What a worker checks of an envelope it receives. *)
Record resolved_ok (c : GraphCatalog) (r : ResolvedDataset) : Prop := {
  ro_canonical : canonical iri_valid c;
  ro_default : StronglySorted rlt (default_graph_ids r);
  ro_named : StronglySorted rlt (named_graph_ids r);
  ro_authorized : StronglySorted rlt (authorized_graph_ids r);
  ro_nonempty : authorized_graph_ids r <> [];
  ro_visible : forall id, id ∈ authorized_graph_ids r -> exists g, by_id c id = Some g /\ query_visible g = true /\ name g <> Default;
  ro_subset : forall id, id ∈ default_graph_ids r ++ named_graph_ids r -> id ∈ authorized_graph_ids r;
  ro_service : selection_source r = ServiceDefault ->
    default_graph_ids r = authorized_graph_ids r /\ named_graph_ids r = authorized_graph_ids r;
  ro_set_hash : hash_set c (authorized_graph_ids r) = Ok (authorized_graph_set_sha256 r);
  ro_active_hash : hash_active (selection_source r) (default_graph_ids r) (named_graph_ids r) = Ok (active_dataset_sha256 r);
}.

Lemma check_authorized_ok c id u : check_authorized c id = Ok u <->
  exists g, by_id c id = Some g /\ query_visible g = true /\ name g <> Default.
Proof using Type.
  destruct u. unfold check_authorized. rewrite result_bind_ok. setoid_rewrite ok_or_ok. setoid_rewrite fail_if_ok.
  split; intros (g & Hg & Hr); exists g; (split; [done|]).
  - bool_prop. done.
  - destruct Hr as [-> Hn]. by rewrite bool_decide_eq_false_2.
Qed.

Lemma validate_resolved_ok c r : validate c r = Ok tt <-> resolved_ok c r.
Proof using Type.
  unfold validate_resolved_dataset, canonical_ids. split.
  - intros Hv. do 8 inv_ok Hv. apply validate_catalog_unit in Ha. inv_ok Ha0. inv_ok Ha2. inv_ok Ha3. inv_ok Ha5. inv_ok Hv.
    bool_prop. repeat match goal with Hs : windows2_all _ _ = true |- _ => apply windows2_ltb_sorted in Hs end.
    repeat match goal with Hs : String.eqb _ _ = true |- _ => apply String.eqb_eq in Hs; subst end.
    split; try done.
    + intros id Hid. apply try_map_ok in Ha1. apply list_elem_of_lookup in Hid as [i Hi].
      destruct (Forall2_lookup_l _ _ _ _ _ Ha1 Hi) as (u & _ & Hu). by apply check_authorized_ok in Hu.
    + intros id Hid. destruct (decide (id ∈ authorized_graph_ids r)) as [|Hn]; [done|]. exfalso.
      assert (existsb (fun id => negb (bool_decide (id ∈ authorized_graph_ids r))) (default_graph_ids r ++ named_graph_ids r) = true);
        [|congruence]. apply existsb_exists. exists id. split; [by apply list_elem_of_In|]. by rewrite bool_decide_eq_false_2.
    + intros Hs. rewrite bool_decide_eq_true_2 in Ha3 by done. cbn [andb] in Ha3. by bool_prop.
  - intros [Hc Hd Hn Hau Hne Hvis Hsub Hsv Hset Hact]. rewrite (proj2 (validate_catalog_ok _ c) Hc). cbn [mbind result_bind].
    rewrite !(proj2 (windows2_ltb_sorted _)) by done. rewrite (bool_decide_eq_false_2 (authorized_graph_ids r = [])) by done. cbn [negb orb fail_if mbind result_bind].
    rewrite (try_map_pure (fun _ => tt)) by (intros id Hid; by apply check_authorized_ok, Hvis). cbn [mbind result_bind].
    assert (existsb (fun id => negb (bool_decide (id ∈ authorized_graph_ids r))) (default_graph_ids r ++ named_graph_ids r) = false) as ->.
    { apply not_true_iff_false. intros (id & Hid & Hb)%existsb_exists. apply list_elem_of_In, Hsub in Hid. by bool_prop. }
    cbn [fail_if mbind result_bind].
    assert (bool_decide (selection_source r = ServiceDefault) && (negb (bool_decide (default_graph_ids r = authorized_graph_ids r))
      || negb (bool_decide (named_graph_ids r = authorized_graph_ids r))) = false) as ->.
    { case_bool_decide as Hs; [|done]. destruct (Hsv Hs) as [-> ->]. by rewrite !bool_decide_eq_true_2. }
    cbn [fail_if mbind result_bind]. rewrite Hset. cbn [mbind result_bind]. rewrite String.eqb_refl. cbn [negb fail_if mbind result_bind].
    rewrite Hact. cbn [mbind result_bind]. by rewrite String.eqb_refl.
Qed.

(** The graphs a request names, by precedence. *)
Definition request (query : QueryDatasetSpecification) (protocol : ProtocolDatasetSpecification) :
    DatasetSelectionSource * list string * list string :=
  if is_specified protocol then (ProtocolDataset, default_graph_uris protocol, named_graph_uris protocol)
  else if specified query then (QueryDataset, default_graph_iris query, named_graph_iris query)
  else (ServiceDefault, [], []).

Definition consistent (query : QueryDatasetSpecification) : Prop :=
  specified query = negb (bool_decide (default_graph_iris query = [])) || negb (bool_decide (named_graph_iris query = [])).

(** The dataset of a principal that asks for the named graphs. *)
Record resolved_for (c : GraphCatalog) (labels : gset string) (source : DatasetSelectionSource) (default_iris named_iris : list string)
    (r : ResolvedDataset) : Prop := {
  rf_source : selection_source r = source;
  rf_authorized : forall id, id ∈ authorized_graph_ids r <-> exists g, visible_to c labels g /\ graph_id g = id;
  rf_visible : all_visible iri_valid c labels (default_iris ++ named_iris);
  rf_service : source = ServiceDefault -> default_graph_ids r = authorized_graph_ids r /\ named_graph_ids r = authorized_graph_ids r;
  rf_requested : source <> ServiceDefault -> requested c default_iris (default_graph_ids r) /\ requested c named_iris (named_graph_ids r);
  rf_validates : validate c r = Ok tt;
}.

Definition service_dataset (c : GraphCatalog) (labels : gset string) (set_sha : string) : result DatasetError ResolvedDataset :=
  active_sha ← hash_active ServiceDefault (authorized_graphs c labels) (authorized_graphs c labels);
  Ok {| selection_source := ServiceDefault; default_graph_ids := authorized_graphs c labels; named_graph_ids := authorized_graphs c labels;
        authorized_graph_ids := authorized_graphs c labels; authorized_graph_set_sha256 := set_sha; active_dataset_sha256 := active_sha |}.

Definition explicit_dataset (c : GraphCatalog) (labels : gset string) (set_sha : string) (source : DatasetSelectionSource)
    (default_iris named_iris : list string) : result DatasetError ResolvedDataset :=
  default_ids ← resolve_requested_graphs iri_valid c (list_to_set (authorized_graphs c labels)) default_iris;
  named_ids ← resolve_requested_graphs iri_valid c (list_to_set (authorized_graphs c labels)) named_iris;
  active_sha ← hash_active source default_ids named_ids;
  Ok {| selection_source := source; default_graph_ids := default_ids; named_graph_ids := named_ids;
        authorized_graph_ids := authorized_graphs c labels; authorized_graph_set_sha256 := set_sha; active_dataset_sha256 := active_sha |}.

(** The branches of [resolve_dataset]. *)
Lemma resolve_branches c labels query protocol : resolve c labels query protocol =
  (_ ← validate_catalog iri_valid c;
   _ ← fail_if (negb (Bool.eqb (specified query)
                 (negb (bool_decide (default_graph_iris query = [])) || negb (bool_decide (named_graph_iris query = [])))))
         InvalidQueryDatasetSpecification;
   _ ← fail_if (bool_decide (authorized_graphs c labels = [])) EmptyAuthorizedDataset;
   set_sha ← hash_set c (authorized_graphs c labels);
   let '(source, default_iris, named_iris) := request query protocol in
   if bool_decide (source = ServiceDefault) then service_dataset c labels set_sha
   else explicit_dataset c labels set_sha source default_iris named_iris).
Proof using Type. unfold resolve_dataset, request. by destruct (is_specified protocol), (specified query). Qed.

Lemma authorized_visible c labels id : canonical iri_valid c -> id ∈ authorized_graphs c labels ->
  exists g, by_id c id = Some g /\ query_visible g = true /\ name g <> Default.
Proof using Type.
  intros Hc (g & Hg & <-)%elem_of_authorized. exists g. destruct (visible_named _ c labels g Hc Hg) as [iri Hn].
  split; [apply (by_id_spec _ c _ g Hc); split; [apply Hg|done]|]. split; [apply Hg|congruence].
Qed.

Lemma service_resolved c labels set_sha r : canonical iri_valid c -> authorized_graphs c labels <> [] ->
  hash_set c (authorized_graphs c labels) = Ok set_sha -> service_dataset c labels set_sha = Ok r ->
  resolved_for c labels ServiceDefault [] [] r.
Proof using Type.
  unfold service_dataset. intros Hc Hne Hset Hr. inv_ok Hr. injection Hr as <-.
  assert (StronglySorted rlt (authorized_graphs c labels)) as Hs by (apply (ids_ascend iri_valid c); done).
  split; try done; [intros id; apply elem_of_authorized|by intros ? ?%not_elem_of_nil|].
  apply validate_resolved_ok. split; try done; [by intros id; apply authorized_visible|]. intros id. cbn. by rewrite elem_of_app; intros [].
Qed.

Lemma explicit_resolved c labels set_sha source default_iris named_iris r : canonical iri_valid c -> authorized_graphs c labels <> [] ->
  hash_set c (authorized_graphs c labels) = Ok set_sha -> source <> ServiceDefault ->
  explicit_dataset c labels set_sha source default_iris named_iris = Ok r -> resolved_for c labels source default_iris named_iris r.
Proof using Type.
  unfold explicit_dataset. intros Hc Hne Hset Hsrc Hr. do 3 inv_ok Hr. injection Hr as <-.
  apply resolve_requested_ok in Ha as [Hv1 Hr1]; [|done]. apply resolve_requested_ok in Ha0 as [Hv2 Hr2]; [|done].
  split; try done; [intros id; apply elem_of_authorized|intros iri [?|?]%elem_of_app; auto|].
  apply validate_resolved_ok. split; try done; [apply Hr1|apply Hr2|by apply (ids_ascend iri_valid c)|by intros id; apply authorized_visible|].
  intros id [Hid|Hid]%elem_of_app; [eapply (requested_authorized _ _ _ default_iris)|eapply (requested_authorized _ _ _ named_iris)]; done.
Qed.

Lemma resolve_spec c labels query protocol r : resolve c labels query protocol = Ok r ->
  let '(source, default_iris, named_iris) := request query protocol in resolved_for c labels source default_iris named_iris r.
Proof using Type.
  rewrite resolve_branches. intros Hr. do 4 inv_ok Hr. apply validate_catalog_unit in Ha. inv_ok Ha1. bool_prop.
  destruct (request query protocol) as [[source default_iris] named_iris] eqn:Hq. case_bool_decide as Hs.
  - subst source. unfold request in Hq. destruct (is_specified protocol); [done|]. destruct (specified query); [done|].
    injection Hq as <- <-. by eapply service_resolved.
  - by eapply explicit_resolved.
Qed.

(** C31: The active dataset of a request is exactly what the precedence rules and
    the principal's labels allow.  Protocol parameters replace [FROM] clauses,
    which replace the service default; the authorized graphs are exactly the
    query-visible named graphs that share a label with the principal; an
    explicit request yields exactly the identifiers of the graphs it names, in
    ascending order, every one of them visible to the principal; without a
    request both parts are the authorized graphs.  The envelope passes the
    check of the workers. *)
Theorem dataset_resolution_exact c labels query protocol r : resolve c labels query protocol = Ok r ->
  let '(source, default_iris, named_iris) := request query protocol in resolved_for c labels source default_iris named_iris r.
Proof using Type. apply resolve_spec. Qed.

(** *** Encoders that never fail *)

Context (set_total : forall rows, is_Some (graph_set_json rows)) (active_total : forall ids ids', is_Some (active_json ids ids')).

Lemma hash_set_total c ids : (forall id, id ∈ ids -> exists g, by_id c id = Some g /\ query_visible g = true /\ name g <> Default) ->
  exists sha, hash_set c ids = Ok sha.
Proof using set_total.
  intros Hids. unfold hash_graph_set. destruct (try_map_total (graph_set_row c) ids) as [rows Hrows].
  { intros id (g & Hg & _ & Hn)%Hids. unfold graph_set_row. rewrite Hg. cbn. destruct (name g); [done|eauto]. }
  rewrite Hrows. destruct (set_total rows) as [b Hb]. cbn. rewrite Hb. cbn. eauto.
Qed.

Lemma hash_active_total source ids ids' : exists sha, hash_active source ids ids' = Ok sha.
Proof using active_total. clear set_total. unfold hash_active_dataset. destruct (active_total ids ids') as [b ->]. cbn. eauto. Qed.

(** Resolution fails closed, and only then.  A request is served exactly when
    the catalog is canonical, the query's clauses are consistent, the principal
    may see some graph at all, and every graph the request names by precedence
    is a well-formed IRI of a graph visible to the principal: one unknown,
    hidden or forbidden graph refuses the whole request. *)
Theorem resolution_fails_closed c labels query protocol :
  is_ok (resolve c labels query protocol) = true <->
  canonical iri_valid c /\ consistent query /\ (exists g, visible_to c labels g) /\
  let '(_, default_iris, named_iris) := request query protocol in all_visible iri_valid c labels (default_iris ++ named_iris).
Proof using set_total active_total.
  split.
  - destruct (resolve c labels query protocol) as [r|e] eqn:Hr; [|done]. intros _.
    pose proof (resolve_spec c labels query protocol r Hr) as Hf.
    rewrite resolve_branches in Hr. do 3 inv_ok Hr. apply validate_catalog_unit in Ha. inv_ok Ha0. inv_ok Ha1. bool_prop.
    split; [done|]. split; [by unfold consistent; apply eqb_prop|]. split.
    + destruct (authorized_graphs c labels) as [|id l] eqn:Hau; [done|].
      destruct (proj1 (elem_of_authorized c labels id)) as (g & Hg & _); [rewrite Hau; left|]. by exists g.
    + destruct (request query protocol) as [[source d] n]. apply Hf.
  - intros (Hc & Hcons & [g Hg] & Hv). rewrite resolve_branches, (proj2 (validate_catalog_ok _ c) Hc). cbn [mbind result_bind].
    unfold consistent in Hcons. rewrite Hcons, eqb_reflx. cbn [negb fail_if mbind result_bind].
    assert (authorized_graphs c labels <> []) as Hne.
    { intros He. assert (graph_id g ∈ authorized_graphs c labels) as Hin by (apply elem_of_authorized; eauto). rewrite He in Hin.
      by apply not_elem_of_nil in Hin. }
    rewrite bool_decide_eq_false_2 by done. cbn [fail_if mbind result_bind].
    destruct (hash_set_total c (authorized_graphs c labels)) as [sha Hsha]; [intros id; by apply authorized_visible|]. rewrite Hsha.
    cbn [mbind result_bind]. destruct (request query protocol) as [[source d] n].
    destruct (bool_decide (source = ServiceDefault)).
    + unfold service_dataset. destruct (hash_active_total ServiceDefault (authorized_graphs c labels) (authorized_graphs c labels)) as [? Hh].
      by rewrite Hh.
    + unfold explicit_dataset. destruct (resolve_requested_total iri_valid c labels d Hc) as [di Hdi];
        [intros x Hx; apply Hv, elem_of_app; by left|].
      destruct (resolve_requested_total iri_valid c labels n Hc) as [ni Hni]; [intros x Hx; apply Hv, elem_of_app; by right|].
      rewrite Hdi, Hni. cbn [mbind result_bind]. destruct (hash_active_total source di ni) as [? Hh]. by rewrite Hh.
Qed.

Lemma restrict_spec c r roles r' : restrict c r roles = Ok r' ->
  validate c r = Ok tt /\ (exists id, id ∈ default_graph_ids r ++ named_graph_ids r /\ role_allowed c roles id) /\
  validate c r' = Ok tt /\ selection_source r' = selection_source r /\
  authorized_graph_ids r' = filter (role_allowed c roles) (authorized_graph_ids r) /\
  default_graph_ids r' = filter (role_allowed c roles) (default_graph_ids r) /\
  named_graph_ids r' = filter (role_allowed c roles) (named_graph_ids r).
Proof using Type.
  clear set_total active_total. unfold restrict_resolved_dataset_to_roles. intros Hr. do 6 inv_ok Hr. injection Hr as <-.
  destruct a, a4. inv_ok Ha1. split; [done|]. split; [|done].
  apply orb_false_iff in Ha1 as [_ Ha1].
  destruct (filter (role_allowed c roles) (default_graph_ids r ++ named_graph_ids r)) as [|id l] eqn:Hf.
  { rewrite filter_app in Hf. apply app_eq_nil in Hf as [H1 H2]. by rewrite H1, H2 in Ha1. }
  exists id. assert (id ∈ filter (role_allowed c roles) (default_graph_ids r ++ named_graph_ids r)) as [? ?]%list_elem_of_filter;
    [rewrite Hf; left|done].
Qed.

Lemma restrict_total c r roles id : validate c r = Ok tt -> id ∈ default_graph_ids r ++ named_graph_ids r -> role_allowed c roles id ->
  exists r', restrict c r roles = Ok r'.
Proof using set_total active_total.
  intros Hv Hid Hal. pose proof (proj1 (validate_resolved_ok c r) Hv) as Hok. unfold restrict_resolved_dataset_to_roles. rewrite Hv.
  cbn [mbind result_bind]. rewrite (bool_decide_eq_false_2 (roles = ∅)) by (destruct Hal as (g & _ & Hg); intros ->; by apply not_elem_of_empty in Hg). cbn [fail_if mbind result_bind].
  assert (filter (role_allowed c roles) (authorized_graph_ids r) <> []) as Hne.
  { intros He. assert (id ∈ filter (role_allowed c roles) (authorized_graph_ids r)) as Hin
      by (apply list_elem_of_filter; split; [done|by apply (ro_subset c r Hok)]). rewrite He in Hin. by apply not_elem_of_nil in Hin. }
  rewrite (bool_decide_eq_false_2 (filter (role_allowed c roles) (authorized_graph_ids r) = [])) by done.
  assert (bool_decide (filter (role_allowed c roles) (default_graph_ids r) = []) && bool_decide (filter (role_allowed c roles) (named_graph_ids r) = []) = false) as ->.
  { apply andb_false_iff. rewrite !bool_decide_eq_false.
    apply elem_of_app in Hid as [Hid|Hid]; [left|right]; intros He;
      [assert (id ∈ filter (role_allowed c roles) (default_graph_ids r)) as Hin by (by apply list_elem_of_filter)
      |assert (id ∈ filter (role_allowed c roles) (named_graph_ids r)) as Hin by (by apply list_elem_of_filter)];
      rewrite He in Hin; by apply not_elem_of_nil in Hin. }
  cbn [orb fail_if mbind result_bind].
  assert (forall id, id ∈ filter (role_allowed c roles) (authorized_graph_ids r) ->
    exists g, by_id c id = Some g /\ query_visible g = true /\ name g <> Default) as Hvis
    by (intros x [_ Hx]%list_elem_of_filter; by apply (ro_visible c r Hok)).
  destruct (hash_set_total c _ Hvis) as [sha Hsha]. rewrite Hsha. cbn [mbind result_bind].
  destruct (hash_active_total (selection_source r) (filter (role_allowed c roles) (default_graph_ids r))
    (filter (role_allowed c roles) (named_graph_ids r))) as [active Hactive]. rewrite Hactive. cbn [mbind result_bind].
  match goal with |- context [validate c ?r'] => assert (validate c r' = Ok tt) as ->; [|by eexists] end.
  apply validate_resolved_ok. destruct Hok as [Hc Hd Hn Hau Hnil Hvs Hsub Hsv Hset Hact].
  split; cbn [selection_source default_graph_ids named_graph_ids authorized_graph_ids authorized_graph_set_sha256 active_dataset_sha256];
    try done; [by apply StronglySorted_filter..| |].
  - intros x [[? Hx]%list_elem_of_filter|[? Hx]%list_elem_of_filter]%elem_of_app; apply list_elem_of_filter; (split; [done|]);
      apply Hsub, elem_of_app; auto.
  - intros Hs. by destruct (Hsv Hs) as [-> ->].
Qed.

(** Restricting a dataset to roles never broadens it.  The result keeps the
    source, consists of exactly the identifiers of the envelope whose graph has
    an allowed role, and passes the workers' check again; the operation succeeds
    exactly for a valid envelope whose active part keeps some graph. *)
Theorem restriction_never_broadens c r roles :
  (is_ok (restrict c r roles) = true <->
   validate c r = Ok tt /\ exists id, id ∈ default_graph_ids r ++ named_graph_ids r /\ role_allowed c roles id) /\
  (forall r', restrict c r roles = Ok r' ->
     validate c r' = Ok tt /\ selection_source r' = selection_source r /\
     (forall id, id ∈ authorized_graph_ids r' <-> id ∈ authorized_graph_ids r /\ role_allowed c roles id) /\
     (forall id, id ∈ default_graph_ids r' <-> id ∈ default_graph_ids r /\ role_allowed c roles id) /\
     (forall id, id ∈ named_graph_ids r' <-> id ∈ named_graph_ids r /\ role_allowed c roles id)).
Proof using set_total active_total.
  split; [split|].
  - destruct (restrict c r roles) as [r'|] eqn:Hr; [|done]. apply restrict_spec in Hr as (? & ? & _). done.
  - intros (Hv & id & Hid & Hal). destruct (restrict_total c r roles id Hv Hid Hal) as [r' ->]. done.
  - intros r' (_ & _ & Hv & Hs & -> & -> & ->)%restrict_spec. split_and!; try done; intros id; rewrite list_elem_of_filter; tauto.
Qed.
End resolved.

(** ** Instances *)

Definition sample_declaration (iri label : string) : GraphDeclaration :=
  {| decl_graph_iri := iri; decl_role := "semkg"; decl_authorization_labels := {[label]}; decl_query_visible := true;
     decl_reasoning_visible := true |}.

(** The catalog of the crate's own tests: three declared graphs, one of them
    without quads. *)
Definition sample_compiled : result DatasetError GraphCatalog :=
  compile_catalog (fun _ => true) (replicate 16 x01) (replicate 16 x02) 3
    {["https://example.test/g1" := 7%N; "https://example.test/g2" := 11%N]}
    [sample_declaration "https://example.test/g2" "team-b"; sample_declaration "https://example.test/g1" "team-a";
     sample_declaration "https://example.test/empty" "team-a"].

Definition sample_catalog : GraphCatalog :=
  match sample_compiled with Ok c => c | Err _ => {| format_version := 0; dataset_id := []; snapshot_id := []; graphs := [] |} end.

Definition sample_query : QueryDatasetSpecification :=
  {| specified := true; default_graph_iris := ["https://example.test/g1"]; named_graph_iris := [] |}.
Definition no_protocol : ProtocolDatasetSpecification := {| default_graph_uris := []; named_graph_uris := [] |}.

Definition sample_resolved : result DatasetError ResolvedDataset :=
  resolve_dataset (fun _ => true) (H := padded_digest) (fun _ => Some []) (fun _ _ => Some []) sample_catalog {["team-a"]} sample_query no_protocol.

Lemma dataset_resolution_exact_witness : exists r, sample_resolved = Ok r /\ selection_source r = QueryDataset /\
  all_visible (fun _ => true) sample_catalog {["team-a"]} ["https://example.test/g1"].
Proof.
  destruct sample_resolved as [r|e] eqn:Hr; [|vm_compute in Hr; discriminate]. exists r. split; [reflexivity|].
  destruct (dataset_resolution_exact (fun _ => true) (H := padded_digest) (fun _ => Some []) (fun _ _ => Some []) sample_catalog {["team-a"]}
    sample_query no_protocol r Hr). split; assumption.
Defined.

Lemma resolution_fails_closed_witness : canonical (fun _ => true) sample_catalog.
Proof.
  refine (proj1 (proj1 (resolution_fails_closed (fun _ => true) (H := padded_digest) (fun _ => Some []) (fun _ _ => Some [])
    (fun _ => ex_intro _ [] eq_refl) (fun _ _ => ex_intro _ [] eq_refl) sample_catalog {["team-a"]} sample_query no_protocol) _)).
  vm_compute. reflexivity.
Defined.

Lemma restriction_never_broadens_witness : exists r, sample_resolved = Ok r /\
  exists id, id ∈ default_graph_ids r ++ named_graph_ids r /\ role_allowed sample_catalog {["semkg"]} id.
Proof.
  destruct sample_resolved as [r|e] eqn:Hr; [|vm_compute in Hr; discriminate]. exists r. split; [reflexivity|].
  apply (proj1 (restriction_never_broadens (fun _ => true) (H := padded_digest) (fun _ => Some []) (fun _ _ => Some [])
    (fun _ => ex_intro _ [] eq_refl) (fun _ _ => ex_intro _ [] eq_refl) sample_catalog r {["semkg"]})).
  assert (match sample_resolved with
          | Ok r => is_ok (restrict_resolved_dataset_to_roles (fun _ => true) (H := padded_digest) (fun _ => Some []) (fun _ _ => Some [])
                             sample_catalog r {["semkg"]})
          | Err _ => false end = true) as Hok by (vm_compute; reflexivity).
  rewrite Hr in Hok. exact Hok.
Defined.

(** A graph of another team refuses the whole request. *)
Example forbidden_graph_refuses_request :
  resolve_dataset (fun _ => true) (H := padded_digest) (fun _ => Some []) (fun _ _ => Some []) sample_catalog {["team-a"]}
    {| specified := true; default_graph_iris := ["https://example.test/g1"; "https://example.test/g2"]; named_graph_iris := [] |} no_protocol
  = Err (ForbiddenRequestedGraph "https://example.test/g2").
Proof. vm_compute. reflexivity. Qed.
