(* ===== verification/ShuffleCache.v ===== *)
(** * The cache of shuffle results

    Models src/crates/ngkg-shuffle-cache/src/lib.rs, the sibling of the query
    cache for the results of one shuffle partition.  Its state, recency list,
    limits, link-based publication and file names are those of [QueryCache];
    it differs in its key, in the order in which removal updates the state, in
    its reader, and in accepting empty payloads when it is opened.  The errors
    of the two crates have the same variants.

    The theorems carry the behaviour of the query cache over: on accounted
    states the two removals agree, so both caches refine the same abstract
    bounded map. *)

From Stdlib Require Import Strings.Byte Strings.String.
From S2P Require Import Prelude Words Ordered Digest Text LocalRoot QueryCache.

Record ShuffleCacheKey := {
  sk_tenant_id : list byte;
  sk_dataset_id : list byte;
  sk_snapshot_id : list byte;
  sk_query_sha256 : string;
  sk_plan_sha256 : string;
  sk_stage : N;
  sk_partition : N;
  sk_partition_count : N;
  sk_left_input_sha256 : string;
  sk_right_input_sha256 : string;
}.

Abbreviation ShuffleCacheError := QueryCacheError.

Definition SHUFFLE_CACHE_MAGIC : list byte := as_bytes "NGKGSC26".

Section shuffle_files.
Context `{Sha256}.

(** The bytes [ShuffleCacheKey::digest] hashes. *)
Definition shuffle_key_preimage (k : ShuffleCacheKey) : result ShuffleCacheError (list byte) :=
  _ ← fail_if ((sk_partition_count k <? 2)%N || (sk_partition_count k <=? sk_partition k)%N
               || negb (lower_hex_sha256 (sk_query_sha256 k)) || negb (lower_hex_sha256 (sk_plan_sha256 k))
               || negb (lower_hex_sha256 (sk_left_input_sha256 k)) || negb (lower_hex_sha256 (sk_right_input_sha256 k)))
        InvalidKey;
  q ← decode_digest (sk_query_sha256 k);
  p ← decode_digest (sk_plan_sha256 k);
  l ← decode_digest (sk_left_input_sha256 k);
  r ← decode_digest (sk_right_input_sha256 k);
  Ok (as_bytes "ngkg-shuffle-result-cache-key-v2" ++ sk_tenant_id k ++ sk_dataset_id k ++ sk_snapshot_id k
      ++ q ++ p ++ to_be_bytes 4 (sk_stage k) ++ to_be_bytes 4 (sk_partition k) ++ to_be_bytes 4 (sk_partition_count k) ++ l ++ r).

(** [ShuffleCacheKey::digest]. *)
Definition shuffle_key_digest (k : ShuffleCacheKey) : result ShuffleCacheError string :=
  bytes ← shuffle_key_preimage k; Ok (hex_encode (sha256 bytes)).

(** [validate_header]: used both when the cache is opened and by lookups. *)
Definition shuffle_validate_header (file : list byte) (digest : string) (expected_bytes max_entry_bytes : N) :
    result ShuffleCacheError (list byte) :=
  _ ← fail_if ((max_entry_bytes <? expected_bytes)%N || (expected_bytes <? N.of_nat CACHE_HEADER_BYTES)%N) EntryTooLarge;
  _ ← fail_if (length file <? CACHE_HEADER_BYTES) Io;
  let header := take CACHE_HEADER_BYTES file in
  d ← decode_digest digest;
  _ ← fail_if (negb (bool_decide (slice 0 8 header = SHUFFLE_CACHE_MAGIC)) || negb (bool_decide (slice 8 40 header = d))) InvalidKey;
  total ← ok_or (checked_add U64_LIMIT (from_be_bytes (slice 40 48 header)) (N.of_nat CACHE_HEADER_BYTES)) AccountingOverflow;
  _ ← fail_if (negb (total =? expected_bytes)%N) InvalidKey;
  Ok header.

Definition shuffle_validate_file_header (file : list byte) (digest : string) (max_entry_bytes : N) : result ShuffleCacheError N :=
  let size := N.of_nat (length file) in
  _ ← shuffle_validate_header file digest size max_entry_bytes;
  Ok size.

(** [read_verified]: [read_exact] fails on a short file, a trailing byte is
    corruption. *)
Definition read_verified (file : list byte) (digest : string) (expected_bytes max_entry_bytes : N) :
    result ShuffleCacheError (list byte) :=
  header ← shuffle_validate_header file digest expected_bytes max_entry_bytes;
  let payload_bytes := N.to_nat (from_be_bytes (slice 40 48 header)) in
  let rest := drop CACHE_HEADER_BYTES file in
  _ ← fail_if (length rest <? payload_bytes) Io;
  let payload := take payload_bytes rest in
  _ ← fail_if (negb (bool_decide (drop payload_bytes rest = [])) || negb (bool_decide (sha256 payload = slice 48 80 header))) InvalidKey;
  Ok payload.
End shuffle_files.

(** ** State

    Removal forgets the index entry, then subtracts the bytes, then updates the
    recency list. *)
Definition drop_entry (digest : string) (size : N) : Cache unit := fun st =>
  match checked_sub (bytes st) size with
  | Some n => (Ok tt, {| entries := delete digest (entries st); least_to_most_recent := retain_other digest (least_to_most_recent st);
                         bytes := n; disk := disk st |})
  | None => (Err AccountingOverflow,
             {| entries := delete digest (entries st); least_to_most_recent := least_to_most_recent st; bytes := bytes st; disk := disk st |})
  end.

(** Eviction takes the front off the recency list. *)
Definition pop_entry (digest : string) (size : N) : Cache unit := fun st =>
  match checked_sub (bytes st) size with
  | Some n => (Ok tt, {| entries := delete digest (entries st); least_to_most_recent := tail (least_to_most_recent st);
                         bytes := n; disk := disk st |})
  | None => (Err AccountingOverflow,
             {| entries := delete digest (entries st); least_to_most_recent := tail (least_to_most_recent st);
                bytes := bytes st; disk := disk st |})
  end.

Definition shuffle_evict_one : Cache unit :=
  st ← get_state;
  digest ← lift (ok_or (head (least_to_most_recent st)) AccountingOverflow);
  size ← lift (ok_or (entries st !! digest) AccountingOverflow);
  _ ← remove_file digest;
  pop_entry digest size.

Fixpoint shuffle_evict_while (fuel : nat) (over : CacheState -> bool) : Cache unit :=
  match fuel with
  | O => lift (Err AccountingOverflow)
  | S fuel => st ← get_state; if over st then _ ← shuffle_evict_one; shuffle_evict_while fuel over else mret tt
  end.

Definition shuffle_evict_all (over : CacheState -> bool) : Cache unit :=
  st ← get_state; shuffle_evict_while (S (length (least_to_most_recent st))) over.

Definition shuffle_remove_if_present (digest : string) : Cache unit :=
  st ← get_state;
  match entries st !! digest with
  | None => mret tt
  | Some size => _ ← remove_file digest; drop_entry digest size
  end.

Section shuffle_cache.
Context `{Sha256} (limits : CacheLimits).

Definition shuffle_evict_for_insert (incoming : N) : Cache unit :=
  _ ← lift (fail_if (max_bytes limits <? incoming)%N CapacityTooSmall);
  shuffle_evict_all (no_room limits incoming).

Definition shuffle_lookup (digest : string) : Cache QueryCacheLookup :=
  st ← get_state;
  match entries st !! digest with
  | None => mret Miss
  | Some size =>
      match disk st !! digest with
      | None => _ ← drop_entry digest size; mret Miss
      | Some file =>
          _ ← touch digest;
          match read_verified file digest size (max_entry_bytes limits) with
          | Ok payload => mret (Hit payload)
          | Err (Io | EntryTooLarge | InvalidKey) => _ ← shuffle_remove_if_present digest; mret Miss
          | Err e => lift (Err e)
          end
      end
  end.

Definition shuffle_get (key : ShuffleCacheKey) : Cache QueryCacheLookup :=
  digest ← lift (shuffle_key_digest key); shuffle_lookup digest.

Definition shuffle_publish (digest : string) (file : list byte) (total : N) : Cache unit :=
  st ← get_state;
  if bool_decide (is_Some (entries st !! digest)) then touch digest
  else _ ← shuffle_evict_for_insert total; commit_entry digest file total.

Definition shuffle_insert (key : ShuffleCacheKey) (payload : list byte) : Cache unit :=
  '(digest, file, total) ← lift (prepare_entry limits SHUFFLE_CACHE_MAGIC (shuffle_key_digest key) payload);
  shuffle_publish digest file total.

Definition shuffle_invalidate (key : ShuffleCacheKey) : Cache unit :=
  digest ← lift (shuffle_key_digest key);
  shuffle_remove_if_present digest.

Definition SHUFFLE_CACHE_ROOT_MARKER : string := ".ngkg-shuffle-cache-v1".
Definition SHUFFLE_CACHE_ROOT_MARKER_BYTES : list byte := as_bytes "ngkg-shuffle-result-cache-v1" ++ [x0a].

Context (is_uuid : list byte -> bool).

(** One directory entry of [open]. *)
Definition shuffle_scan_entry (acc : CacheState * list RootEntry) (e : RootEntry) : result ShuffleCacheError (CacheState * list RootEntry) :=
  let '(st, corrupt) := acc in
  name ← ok_or (entry_name e) UnsafeRoot;
  if String.eqb name SHUFFLE_CACHE_ROOT_MARKER then Ok acc
  else if is_temp_name is_uuid name then Ok (st, corrupt ++ [e])
  else
    digest ← ok_or (cache_file_digest name) UnsafeRoot;
    _ ← fail_if (entry_symlink e || entry_dir e) UnsafeRoot;
    match shuffle_validate_file_header (entry_content e) digest (max_entry_bytes limits) with
    | Ok size =>
        n ← ok_or (checked_add U64_LIMIT (bytes st) size) AccountingOverflow;
        Ok ({| entries := <[digest := size]> (entries st); least_to_most_recent := least_to_most_recent st ++ [digest];
               bytes := n; disk := <[digest := entry_content e]> (disk st) |}, corrupt)
    | Err (Io | EntryTooLarge | InvalidKey) => Ok (st, corrupt ++ [e])
    | Err err => Err err
    end.

Definition shuffle_open (root : RootPath) : result ShuffleCacheError CacheState :=
  _ ← fail_if ((max_bytes limits =? 0)%N || (max_entries limits =? 0) || (max_entry_bytes limits =? 0)%N
               || (max_bytes limits <? max_entry_bytes limits)%N) CapacityTooSmall;
  listing ← prepare_marked_root UnsafeRoot Io SHUFFLE_CACHE_ROOT_MARKER SHUFFLE_CACHE_ROOT_MARKER_BYTES root;
  '(st, corrupt) ← try_fold shuffle_scan_entry (empty_cache, []) listing;
  _ ← fail_if (existsb entry_dir corrupt) Io;
  match shuffle_evict_all (over_limits limits) st with
  | (Ok _, st) => Ok st
  | (Err e, _) => Err e
  end.
End shuffle_cache.

(** ** Agreement with the query cache on accounted states *)

Lemma sub_accounted d n st : accounted st -> entries st !! d = Some n -> is_Some (checked_sub (bytes st) n).
Proof.
  intros Hac Hd. eexists. apply checked_sub_some. rewrite (ac_bytes st Hac), (map_total_delete d n _ Hd). split; [done|lia].
Qed.

Lemma drop_agrees d n st : accounted st -> entries st !! d = Some n -> drop_entry d n st = remove_state_entry d n st.
Proof.
  intros Hac Hd. unfold drop_entry, remove_state_entry. by destruct (sub_accounted d n st Hac Hd) as [k ->].
Qed.

Lemma pop_agrees d n rest st : accounted st -> least_to_most_recent st = d :: rest -> entries st !! d = Some n ->
  pop_entry d n st = remove_state_entry d n st.
Proof.
  intros Hac Ho Hd. unfold pop_entry, remove_state_entry. rewrite Ho. cbn [tail].
  pose proof (ac_distinct st Hac) as Hnd. rewrite Ho in Hnd. apply NoDup_cons in Hnd as [Hni _].
  assert (retain_other d (d :: rest) = rest) as Hrest.
  { unfold retain_other. rewrite filter_cons, decide_False by naive_solver. by apply retain_absent. }
  rewrite Hrest. by destruct (sub_accounted d n st Hac Hd) as [k ->].
Qed.

Lemma unlinked_accounted d st : accounted st ->
  accounted {| entries := entries st; least_to_most_recent := least_to_most_recent st; bytes := bytes st; disk := delete d (disk st) |}.
Proof. intros []. by split. Qed.

Lemma evict_one_agrees st : accounted st -> shuffle_evict_one st = evict_one st.
Proof.
  intros Hac. unfold shuffle_evict_one, evict_one. rewrite !(stateful_bind_ok _ _ st st st) by done.
  destruct (least_to_most_recent st) as [|d rest] eqn:Ho; [done|]. cbn [head ok_or]. rewrite !(stateful_bind_ok _ _ st d st) by done.
  destruct (proj1 (ac_listed st Hac d)) as [n Hn]; [rewrite Ho; left|]. rewrite Hn. rewrite !(stateful_bind_ok _ _ st n st) by done.
  erewrite !stateful_bind_ok by done. by eapply pop_agrees; [apply unlinked_accounted|..].
Qed.

Lemma evict_while_agrees over fuel : forall st, accounted st -> shuffle_evict_while fuel over st = evict_while fuel over st.
Proof.
  induction fuel as [|fuel IH]; intros st Hac; [done|]. cbn [shuffle_evict_while evict_while].
  rewrite !(stateful_bind_ok _ _ st st st) by done. destruct (over st); [|done].
  destruct (least_to_most_recent st) as [|d rest] eqn:Ho.
  - unfold mbind, stateful_bind. rewrite (evict_one_agrees st Hac). unfold evict_one, get_state, mbind, stateful_bind. by rewrite Ho.
  - destruct (evict_one_spec st d rest Hac Ho) as (st1 & H1 & Hev).
    rewrite (stateful_bind_ok _ _ st tt st1 H1), (stateful_bind_ok shuffle_evict_one _ st tt st1) by (by rewrite evict_one_agrees).
    apply IH, Hev.
Qed.

Lemma evict_all_agrees over st : accounted st -> shuffle_evict_all over st = evict_all over st.
Proof. intros Hac. unfold shuffle_evict_all, evict_all. rewrite !(stateful_bind_ok _ _ st st st) by done. by apply evict_while_agrees. Qed.

Lemma remove_agrees d st : accounted st -> shuffle_remove_if_present d st = remove_if_present d st.
Proof.
  intros Hac. unfold shuffle_remove_if_present, remove_if_present. rewrite !(stateful_bind_ok _ _ st st st) by done.
  destruct (entries st !! d) as [n|] eqn:Hd; [|done]. erewrite !stateful_bind_ok by done.
  by apply drop_agrees; [apply unlinked_accounted|].
Qed.

Section agreement.
Context `{Sha256} (limits : CacheLimits).

Lemma lookup_agrees d st : accounted st -> shuffle_lookup limits d st = lookup_entry limits read_verified d st.
Proof using Type.
  intros Hac. unfold shuffle_lookup, lookup_entry. rewrite !(stateful_bind_ok _ _ st st st) by done.
  destruct (entries st !! d) as [n|] eqn:Hd; [|done]. destruct (disk st !! d) as [file|].
  - destruct (touch_accounted d st Hac) as (st1 & Ht & Hac1 & _); [by eexists|]. rewrite !(stateful_bind_ok _ _ _ _ _ Ht).
    destruct (read_verified _ _ _ _) as [p|[]]; try done; unfold mbind, stateful_bind; by rewrite (remove_agrees d st1 Hac1).
  - unfold mbind, stateful_bind. by rewrite drop_agrees.
Qed.

Lemma publish_agrees d file total st : accounted st -> shuffle_publish limits d file total st = publish_entry limits d file total st.
Proof using Type.
  intros Hac. unfold shuffle_publish, publish_entry. rewrite !(stateful_bind_ok _ _ st st st) by done. case_bool_decide; [done|].
  unfold mbind at 1 2, stateful_bind at 1 2. assert (shuffle_evict_for_insert limits total st = evict_for_insert limits total st) as ->; [|done].
  unfold shuffle_evict_for_insert, evict_for_insert, mbind, stateful_bind, lift. destruct (fail_if _ _); [|done]. by apply evict_all_agrees.
Qed.
End agreement.

(** ** Keys and files *)

Section shuffle_facts.
Context `{Sha256}.

Lemma shuffle_digest_lower k d : shuffle_key_digest k = Ok d -> lower_hex_sha256 d = true.
Proof. unfold shuffle_key_digest. intros Hk. inv_ok Hk. injection Hk as <-. apply hex_encode_lower. Qed.

Lemma shuffle_digest_total k : (exists d, shuffle_key_digest k = Ok d) \/ shuffle_key_digest k = Err InvalidKey.
Proof.
  destruct (shuffle_key_digest k) as [d|e] eqn:Hk; [left; by exists d|right]. f_equal. unfold shuffle_key_digest, shuffle_key_preimage in Hk.
  apply result_bind_err in Hk as [Hk|(? & _ & ?)]; [|done].
  apply result_bind_err in Hk as [Hk|(? & Hg & Hk)]; [by apply fail_if_err in Hk as [_ <-]|].
  inv_ok Hg. bool_prop.
  repeat match type of Hk with
  | (decode_digest ?v ≫= _) = _ =>
      let out := fresh in let Ho := fresh in
      destruct (decode_digest_lower v) as (out & Ho & _); [done|]; rewrite Ho in Hk; cbn [mbind result_bind] in Hk
  end. done.
Qed.

(** Two keys with one digest agree in every field, or the bytes hashed for them
    collide. *)
Lemma shuffle_keys_separate k k' d :
  Forall (fun id => length id = 16) [sk_tenant_id k; sk_dataset_id k; sk_snapshot_id k; sk_tenant_id k'; sk_dataset_id k'; sk_snapshot_id k'] ->
  Forall (fun n => n < U32_LIMIT)%N [sk_stage k; sk_partition k; sk_partition_count k; sk_stage k'; sk_partition k'; sk_partition_count k'] ->
  shuffle_key_digest k = Ok d -> shuffle_key_digest k' = Ok d -> 
  k = k' \/ exists p p', shuffle_key_preimage k = Ok p /\ shuffle_key_preimage k' = Ok p' /\ collide p p'.
Proof.
  intros Hid Hn Hk Hk'. repeat (apply Forall_cons in Hid as [? Hid]). repeat (apply Forall_cons in Hn as [? Hn]).
  unfold shuffle_key_digest in Hk, Hk'. destruct (shuffle_key_preimage k) as [p|] eqn:Ep; [|done].
  destruct (shuffle_key_preimage k') as [p'|] eqn:Ep'; [|done]. cbn [mbind result_bind] in Hk, Hk'.
  rewrite <- Hk' in Hk. apply ok_inj in Hk. clear Hk'. apply hex_digest_inj in Hk as [Heq|]; [|right; by exists p, p']. left.
  unfold shuffle_key_preimage in Ep, Ep'. do 5 inv_ok Ep. do 5 inv_ok Ep'. rewrite <- Heq in Ep'. rewrite <- Ep' in Ep. apply ok_inj in Ep. clear Ep' Heq. rename Ep into Heq.
  repeat match goal with Hd : decode_digest _ = Ok _ |- _ => pose proof (decode_digest_length _ _ Hd); revert Hd end.
  apply app_inv_head in Heq.
  repeat match type of Heq with
  | _ ++ _ = _ ++ _ => apply app_inj_len in Heq as [? Heq]; [|first [congruence|by rewrite !length_to_be_bytes]]
  end. intros. repeat match goal with E : to_be_bytes 4 _ = to_be_bytes 4 _ |- _ => apply to_be_bytes4_inj in E; [|done..] end.
  destruct k, k'. cbn in *. simplify_eq/=.
  repeat match goal with Hd : decode_digest ?v = Ok ?o, Hd' : decode_digest ?w = Ok ?o |- _ =>
    pose proof (decode_digest_inj _ _ _ Hd Hd'); clear Hd; subst end. done.
Qed.

(** What [insert] wrote passes every check of a lookup. *)
Lemma shuffle_read_entry_file d db p m : decode_digest d = Ok db -> (N.of_nat (length p) < 2 ^ 63)%N -> (entry_bytes p <= m)%N ->
  read_verified (entry_file SHUFFLE_CACHE_MAGIC db p) d (entry_bytes p) m = Ok p.
Proof.
  intros Hdb Hlen Hmax.
  destruct (entry_file_header SHUFFLE_CACHE_MAGIC db p eq_refl (decode_digest_length _ _ Hdb)) as (h & -> & [Hh Hm Hd Hp Hs]).
  destruct (decode_payload_length _ Hlen) as [Hb Hc]. unfold read_verified, shuffle_validate_header, entry_bytes in *.
  rewrite (proj2 (N.ltb_ge _ _) Hmax), (proj2 (N.ltb_ge _ _) (ltac:(lia) : (N.of_nat CACHE_HEADER_BYTES <= N.of_nat (length p) + N.of_nat CACHE_HEADER_BYTES)%N)).
  cbn [orb fail_if mbind result_bind]. rewrite length_app, Hh. change (80 + length p <? CACHE_HEADER_BYTES) with (80 + length p <? 80).
  rewrite (proj2 (Nat.ltb_ge _ _)) by lia. cbn [fail_if mbind result_bind].
  assert (take CACHE_HEADER_BYTES (h ++ p) = h) as -> by (apply take_app_length'; done).
  assert (drop CACHE_HEADER_BYTES (h ++ p) = p) as -> by (apply drop_app_length'; done).
  rewrite Hdb, Hm, Hd, Hp, Hb, Hc. cbn [ok_or mbind result_bind].
  rewrite (bool_decide_eq_true_2 (SHUFFLE_CACHE_MAGIC = _)), (bool_decide_eq_true_2 (db = _)), N.eqb_refl by done.
  cbn [negb orb fail_if mbind result_bind]. rewrite Hp, Hb, Nat2N.id, Nat.ltb_irrefl. cbn [fail_if mbind result_bind].
  rewrite firstn_all, skipn_all, Hs, (bool_decide_eq_true_2 (sha256 p = _)) by done. done.
Qed.

Lemma shuffle_read_err file d n m e : read_verified file d n m = Err e -> e = Io \/ e = EntryTooLarge \/ e = InvalidKey \/ e = AccountingOverflow.
Proof. unfold read_verified, shuffle_validate_header, decode_digest. intros Hr. inv_err Hr; auto. Qed.
End shuffle_facts.

(** ** The shuffle cache *)

Section shuffle_theorems.
Context `{Sha256} (limits : CacheLimits).

Lemma shuffle_digest_cases key :
  (exists d, shuffle_key_digest key = Ok d /\ lower_hex_sha256 d = true) \/ shuffle_key_digest key = Err InvalidKey.
Proof using Type.
  destruct (shuffle_digest_total key) as [[d Hd]|]; [left|by right]. exists d. split; [done|by eapply shuffle_digest_lower].
Qed.

(** The shuffle cache behaves like the same abstract bounded map in order of
    use as the query cache: a lookup returns the result of exactly this shuffle
    partition or misses, an insertion of a result under the entry ceiling always
    succeeds and drops exactly the least recently used results that must go, an
    invalidation removes one key. *)
Theorem shuffle_cache_refines_lru st m key d : usable_limits limits -> (max_bytes limits < U64_LIMIT)%N ->
  (N.of_nat (max_entries limits) < U64_LIMIT)%N -> represents limits SHUFFLE_CACHE_MAGIC st m -> shuffle_key_digest key = Ok d ->
  (exists st', shuffle_get limits key st = (Ok (match lru_lookup d m with Some p => Hit p | None => Miss end), st') /\
     represents limits SHUFFLE_CACHE_MAGIC st' (lru_touch d m)) /\
  (forall payload, (N.of_nat (length payload) < 2 ^ 63)%N -> (entry_bytes payload <= max_entry_bytes limits)%N ->
     exists st', shuffle_insert limits key payload st = (Ok tt, st') /\ represents limits SHUFFLE_CACHE_MAGIC st' (lru_insert limits d payload m)) /\
  (exists st', shuffle_invalidate key st = (Ok tt, st') /\ represents limits SHUFFLE_CACHE_MAGIC st' (lru_remove d m)).
Proof using Type.
  intros Hlim Hw Hn Hr Hd. pose proof (rp_accounted _ _ _ _ Hr) as Hac. split_and!.
  - unfold shuffle_get. rewrite Hd, (stateful_bind_ok _ _ st d st), lookup_agrees by done. apply lookup_represents; [done|].
    intros db p. apply shuffle_read_entry_file.
  - intros payload Hlen Hmax. unfold shuffle_insert.
    destruct (prepare_entry_cases limits SHUFFLE_CACHE_MAGIC (shuffle_key_digest key) payload Hlen (shuffle_digest_cases key))
      as [(d' & db & _ & Hd' & Hlow & Hdb & ->)|[[? _]|[? _]]]; [|lia|congruence].
    rewrite Hd in Hd'. injection Hd' as <-. erewrite stateful_bind_ok by done. cbn beta iota.
    rewrite publish_agrees by done. by apply publish_represents.
  - unfold shuffle_invalidate. rewrite Hd, (stateful_bind_ok _ _ st d st), remove_agrees by done. by apply remove_represents.
Qed.

(** *** Reachable states *)

Context (is_uuid : list byte -> bool).

Inductive shuffle_step (st : CacheState) : CacheState -> Prop :=
| shuffle_step_get key : shuffle_step st (snd (shuffle_get limits key st))
| shuffle_step_insert key payload : (N.of_nat (length payload) < 2 ^ 63)%N -> shuffle_step st (snd (shuffle_insert limits key payload st))
| shuffle_step_invalidate key : shuffle_step st (snd (shuffle_invalidate key st))
| shuffle_step_disk files : shuffle_step st (tamper files st).

Lemma safe_agrees {A} allowed (m m' : Cache A) : (forall st, accounted st -> m st = m' st) -> safe limits allowed m' -> safe limits allowed m.
Proof using Type. clear is_uuid. intros He Hs st Hw. rewrite He by apply Hw. by apply Hs. Qed.

Lemma shuffle_get_safe key : safe limits (fun e => e = InvalidKey \/ e = AccountingOverflow) (shuffle_get limits key).
Proof using Type.
  clear is_uuid. unfold shuffle_get. apply safe_bind.
  - apply safe_lift. intros e He. destruct (shuffle_digest_total key) as [[d Hd]|Hd]; rewrite Hd in He; [done|]. injection He as <-. by left.
  - intros d. eapply safe_agrees; [intros; by apply lookup_agrees|]. apply lookup_safe. intros file n k e He.
    apply shuffle_read_err in He. naive_solver.
Qed.

Lemma shuffle_invalidate_safe key : safe limits (eq InvalidKey) (shuffle_invalidate key).
Proof using Type.
  clear is_uuid. unfold shuffle_invalidate. apply safe_bind.
  - apply safe_lift. intros e He. destruct (shuffle_digest_total key) as [[d Hd]|Hd]; rewrite Hd in He; [done|]. by injection He.
  - intros d. eapply safe_agrees; [intros; by apply remove_agrees|]. apply remove_if_present_safe.
Qed.

Lemma shuffle_insert_safe key payload : usable_limits limits -> (max_bytes limits < U64_LIMIT)%N -> (N.of_nat (length payload) < 2 ^ 63)%N ->
  safe limits insert_errors (shuffle_insert limits key payload).
Proof using Type.
  clear is_uuid. intros Hlim Hw Hlen. apply prepared_safe; [done|apply shuffle_digest_cases|]. intros d file total Hsize.
  eapply safe_agrees; [intros; by apply publish_agrees|]. by apply publish_safe.
Qed.

Lemma shuffle_open_within root st : distinct_names root -> shuffle_open limits is_uuid root = Ok st ->
  usable_limits limits /\ within_limits limits st.
Proof using Type.
  unfold shuffle_open. intros Hnd Ho. inv_ok Ho. inv_ok Ha.
  assert (usable_limits limits) as Hlim by (unfold usable_limits; bool_prop; lia). clear Ha. split; [done|].
  inv_ok Ho. inv_ok Ho. destruct a1 as [st0 corrupt]. inv_ok Ho. apply listing_distinct in Ha; [|done].
  apply scan_accounted in Ha0; [|done]. rewrite evict_all_agrees in Ho by done.
  destruct (enforce_within limits st0 Ha0) as (st1 & Hev & Hw). rewrite Hev in Ho. by injection Ho as <-.
Qed.

(** However the operations are ordered and whatever happens to the files, the
    shuffle cache stays within its limits and its accounting agrees. *)
Theorem shuffle_cache_stays_bounded root st0 st :
  distinct_names root -> (max_bytes limits < U64_LIMIT)%N -> shuffle_open limits is_uuid root = Ok st0 -> rtc shuffle_step st0 st ->
  within_limits limits st.
Proof using Type.
  intros Hnd Hw Ho Hr. destruct (shuffle_open_within root st0 Hnd Ho) as [Hlim H0]. clear Ho. revert H0.
  induction Hr as [|st1 st2 st3 Hs _ IH]; [done|]. intros Hst. apply IH. destruct Hs as [key|key payload Hlen|key|files].
  - by apply shuffle_get_safe.
  - by apply shuffle_insert_safe.
  - by apply shuffle_invalidate_safe.
  - by apply tamper_within.
Qed.
End shuffle_theorems.

(** ** Instances *)

Definition sample_shuffle_key : ShuffleCacheKey :=
  {| sk_tenant_id := replicate 16 x01; sk_dataset_id := replicate 16 x02; sk_snapshot_id := replicate 16 x03;
     sk_query_sha256 := hex64 "1"; sk_plan_sha256 := hex64 "2"; sk_stage := 0; sk_partition := 0; sk_partition_count := 4;
     sk_left_input_sha256 := hex64 "3"; sk_right_input_sha256 := hex64 "4" |}.

Definition sample_shuffle_digest : string :=
  Eval vm_compute in match shuffle_key_digest (H := tail_digest) sample_shuffle_key with Ok d => d | Err _ => EmptyString end.

Lemma shuffle_cache_refines_lru_witness : exists st',
  shuffle_insert (H := tail_digest) sample_limits sample_shuffle_key [x2a] empty_cache = (Ok tt, st') /\
  represents (H := tail_digest) sample_limits SHUFFLE_CACHE_MAGIC st' (lru_insert sample_limits sample_shuffle_digest [x2a] []).
Proof.
  apply (shuffle_cache_refines_lru (H := tail_digest) sample_limits empty_cache [] sample_shuffle_key sample_shuffle_digest
    (accepted_usable sample_limits eq_refl) (ltac:(vm_compute; reflexivity)) (ltac:(vm_compute; reflexivity))
    (empty_represents (H := tail_digest) sample_limits SHUFFLE_CACHE_MAGIC) (ltac:(vm_compute; reflexivity))); [vm_compute; reflexivity|].
  intros E. vm_compute in E. discriminate E.
Defined.

(** An entry whose length field is overwritten with ones is not removed as other
    corruption is: every lookup of its key fails, and the entry stays. *)
Example overflowing_length_poisons_lookup :
  let st := snd (shuffle_insert (H := tail_digest) sample_limits sample_shuffle_key [x2a] empty_cache) in
  let damaged := tamper ((fun file => take 40 file ++ replicate 8 xff ++ drop 48 file) <$> disk st) st in
  fst (shuffle_get (H := tail_digest) sample_limits sample_shuffle_key damaged) = Err AccountingOverflow /\
  size (entries (snd (shuffle_get (H := tail_digest) sample_limits sample_shuffle_key damaged))) = 1.
Proof. split; vm_compute; reflexivity. Qed.
