(* ===== verification/Locator.v ===== *)
(** * The sharded locator index

    Models src/crates/ngkg-locator/src/lib.rs: the compiler of the sorted TSV
    locator into fixed-width binary records, the reader that verifies and
    searches such a file, the directory that routes a key hash to the shard
    that owns it, and the coalescing of physical ranges.

    A file is the list of its bytes, [None] where there is none; the memory map
    is the content of the file, which the deployment keeps immutable.  A UUID is
    the list of its sixteen bytes.  [LocatorClient] is a trait without an
    implementation in the crate.

    The theorems show that a compiled locator opens, that any locator that
    opens answers a lookup with exactly the records of the GUID, that a
    validated directory leaves no hash without an owner, and that coalescing
    keeps the addressed rows. *)

From Stdlib Require Import Strings.Byte Strings.String.
From S2P Require Import Prelude Words Ordered Digest Text.

Local Open Scope N_scope.

(** ** Data *)

Definition SHARDED_MAGIC : list byte := as_bytes "NGKGLI01".
Definition SHARDED_HEADER_BYTES : N := 64.
Definition SHARDED_RECORD_BYTES : N := 44.

Definition Uuid := list byte.

Record PhysicalRange := {
  object_uri : string;
  range_row_group : N;
  first_row : N;
  row_count : N;
  column_mask_id : N;
  range_graph_id : N;
  object_sha256 : list byte;
}.

Record LocatorOwner := {
  start_inclusive : N;
  end_inclusive : N;
  shard_id : string;
  endpoints : list string;
  root_sha256 : list byte;
}.

Record LocatorDirectory := {
  directory_snapshot_id : Uuid;
  owners : list LocatorOwner;
}.

Inductive LocatorError :=
| InvalidDirectory
| OwnerMissing (key_hash : N)
| MissingKey
| SnapshotMismatch
| Dependency (reason : string)
| LocatorIo
| LocatorChecksumMismatch
| InvalidShardedFormat
| LocatorImmutableConflict
| RecordCountOverflow.

Record ShardLocatorRecord := {
  entity_guid : Uuid;
  locator_partition_index : N;
  locator_row_group : N;
  row_in_group : N;
  locator_graph_id : N;
  locator_predicate_id : N;
}.

(** The fields in declaration order, which the derived [Ord] compares. *)
Definition record_key (r : ShardLocatorRecord) : Uuid * (N * (N * (N * (N * N)))) :=
  (entity_guid r, (locator_partition_index r, (locator_row_group r,
     (row_in_group r, (locator_graph_id r, locator_predicate_id r))))).

Global Instance record_key_inj : Inj (=) (=) record_key.
Proof. intros [] [] [=]; by subst. Qed.
Global Instance record_ord : RustOrd ShardLocatorRecord := ord_by record_key _.
Global Instance record_eq_dec : EqDecision ShardLocatorRecord.
Proof. solve_decision. Defined.

Record MmapLocatorIndex := {
  snapshot_id : Uuid;
  source_locator_sha256 : list byte;
  record_count : N;
  index_bytes : list byte;
}.

(** ** Parsing and printing *)

Definition parse_decimal (limit : N) (value : list byte) : result LocatorError N :=
  _ ← fail_if (bool_decide (value = []) || negb (forallb (in_range 0x30 0x39) value)) InvalidShardedFormat;
  ok_or (parse_digits limit 0 value) InvalidShardedFormat.

Definition lower_hex_text (n : nat) (value : list byte) : bool :=
  (length value =? n)%nat && forallb lower_hex_byte value.

Definition parse_locator_line (line : list byte) : result LocatorError ShardLocatorRecord :=
  match split_on TAB line with
  | [guid; partition; group; row; graph; predicate] =>
      _ ← fail_if (negb (lower_hex_text 32 guid)) InvalidShardedFormat;
      guid ← ok_or (hex_decode guid) InvalidShardedFormat;
      _ ← fail_if (negb (length guid =? 16)%nat) InvalidShardedFormat;
      partition ← parse_decimal U32_LIMIT partition;
      group ← parse_decimal U32_LIMIT group;
      row ← parse_decimal U32_LIMIT row;
      graph ← parse_decimal U64_LIMIT graph;
      predicate ← parse_decimal U64_LIMIT predicate;
      Ok {| entity_guid := guid; locator_partition_index := partition; locator_row_group := group;
            row_in_group := row; locator_graph_id := graph; locator_predicate_id := predicate |}
  | _ => Err InvalidShardedFormat
  end.

(** The bytes [write_sharded_record] appends. *)
Definition write_sharded_record (r : ShardLocatorRecord) : list byte :=
  entity_guid r ++ to_be_bytes 4 (locator_partition_index r) ++ to_be_bytes 4 (locator_row_group r)
    ++ to_be_bytes 4 (row_in_group r) ++ to_be_bytes 8 (locator_graph_id r) ++ to_be_bytes 8 (locator_predicate_id r).

Definition parse_sharded_record (bytes : list byte) : result LocatorError ShardLocatorRecord :=
  _ ← fail_if (negb (N.of_nat (length bytes) =? SHARDED_RECORD_BYTES)) InvalidShardedFormat;
  Ok {| entity_guid := slice 0 16 bytes;
        locator_partition_index := from_be_bytes (slice 16 20 bytes);
        locator_row_group := from_be_bytes (slice 20 24 bytes);
        row_in_group := from_be_bytes (slice 24 28 bytes);
        locator_graph_id := from_be_bytes (slice 28 36 bytes);
        locator_predicate_id := from_be_bytes (slice 36 44 bytes) |}.

Definition decode_sha256 (value : string) : result LocatorError (list byte) :=
  _ ← fail_if (negb (lower_hex_text 64 (as_bytes value))) LocatorChecksumMismatch;
  digest ← ok_or (hex_decode (as_bytes value)) LocatorChecksumMismatch;
  _ ← fail_if (negb (length digest =? 32)%nat) LocatorChecksumMismatch;
  Ok digest.

(** ** The compiler *)

Section compiler.
Context `{Sha256}.

(** Reading in blocks feeds the hasher the whole file. *)
Definition sha256_path (path : option (list byte)) : result LocatorError (list byte) :=
  bytes ← ok_or path LocatorIo;
  Ok (sha256 bytes).

Record WriterState := {
  written : list byte;
  written_count : N;
  previous_record : option ShardLocatorRecord;
}.

Definition compile_line (st : WriterState) (raw : list byte) : result LocatorError WriterState :=
  line ← line_text LocatorIo raw;
  record ← parse_locator_line line;
  _ ← fail_if (match previous_record st with Some value => bool_decide (rle record value) | None => false end)
        InvalidShardedFormat;
  count ← ok_or (checked_add U64_LIMIT (written_count st) 1) RecordCountOverflow;
  Ok {| written := written st ++ write_sharded_record record; written_count := count; previous_record := Some record |}.

(** The body that writes the file: records first, then the count over the
    zeros at offset 56. *)
Definition write_locator (input : list byte) (expected : list byte) (snapshot_id : Uuid) :
    result LocatorError (N * list byte) :=
  let header := SHARDED_MAGIC ++ snapshot_id ++ expected ++ to_be_bytes 8 0 in
  st ← try_fold compile_line {| written := header; written_count := 0; previous_record := None |} (lines input);
  let bytes := written st in
  Ok (written_count st, take 56 bytes ++ to_be_bytes 8 (written_count st) ++ drop 64 bytes).

(** The result and the output file afterwards. *)
Definition compile_sharded_locator (input : option (list byte)) (expected_input_sha256 : string)
    (snapshot_id : Uuid) (output : option (list byte)) : result LocatorError N * option (list byte) :=
  let admitted :=
    expected ← decode_sha256 expected_input_sha256;
    observed ← sha256_path input;
    _ ← fail_if (negb (bool_decide (observed = expected))) LocatorChecksumMismatch;
    _ ← fail_if (bool_decide (is_Some output)) LocatorImmutableConflict;
    bytes ← ok_or input LocatorIo;
    Ok (expected, bytes) in
  match admitted with
  | Err e => (Err e, output)
  | Ok (expected, bytes) =>
      match write_locator bytes expected snapshot_id with
      | Ok (count, file) => (Ok count, Some file)
      | Err e => (Err e, None)
      end
  end.

(** ** The reader *)

Definition record (index : MmapLocatorIndex) (i : N) : result LocatorError ShardLocatorRecord :=
  _ ← fail_if (record_count index <=? i) InvalidShardedFormat;
  offset ← ok_or (checked_mul U64_LIMIT i SHARDED_RECORD_BYTES) RecordCountOverflow;
  start ← ok_or (checked_add U64_LIMIT SHARDED_HEADER_BYTES offset) RecordCountOverflow;
  parse_sharded_record (slice (N.to_nat start) (N.to_nat (start + SHARDED_RECORD_BYTES)) (index_bytes index)).

Definition validate_step (index : MmapLocatorIndex) (previous : option ShardLocatorRecord) (i : nat) :
    result LocatorError (option ShardLocatorRecord) :=
  r ← record index (N.of_nat i);
  _ ← fail_if (match previous with Some value => bool_decide (rle r value) | None => false end) InvalidShardedFormat;
  Ok (Some r).

Definition validate_sorted (index : MmapLocatorIndex) : result LocatorError unit :=
  _ ← try_fold (validate_step index) None (seq 0 (N.to_nat (record_count index)));
  Ok tt.

Definition open_locator (path : option (list byte)) (expected_binary_sha256 : string)
    (expected_snapshot_id : Uuid) (expected_source_locator_sha256 : string) : result LocatorError MmapLocatorIndex :=
  expected_binary ← decode_sha256 expected_binary_sha256;
  map ← ok_or path LocatorIo;
  bytes_len ← ok_or (u64_of_len (length map)) RecordCountOverflow;
  _ ← fail_if (bytes_len <? SHARDED_HEADER_BYTES) InvalidShardedFormat;
  _ ← fail_if (negb (bool_decide (sha256 map = expected_binary))) LocatorChecksumMismatch;
  _ ← fail_if ((bytes_len <? SHARDED_HEADER_BYTES) || negb (bool_decide (slice 0 8 map = SHARDED_MAGIC))
               || negb (bool_decide (slice 8 24 map = expected_snapshot_id))) InvalidShardedFormat;
  expected_source ← decode_sha256 expected_source_locator_sha256;
  _ ← fail_if (negb (bool_decide (slice 24 56 map = expected_source))) LocatorChecksumMismatch;
  let count := from_be_bytes (slice 56 64 map) in
  body ← ok_or (checked_mul U64_LIMIT count SHARDED_RECORD_BYTES) RecordCountOverflow;
  expected_bytes ← ok_or (checked_add U64_LIMIT SHARDED_HEADER_BYTES body) RecordCountOverflow;
  _ ← fail_if (negb (bytes_len =? expected_bytes)) InvalidShardedFormat;
  let index := {| snapshot_id := expected_snapshot_id; source_locator_sha256 := expected_source;
                  record_count := count; index_bytes := map |} in
  _ ← validate_sorted index;
  Ok index.

(** [while left < right]: the interval at least halves. *)
Fixpoint partition_loop (fuel : nat) (index : MmapLocatorIndex) (predicate : ShardLocatorRecord -> bool)
    (left right : N) : result LocatorError N :=
  if left <? right then
    match fuel with
    | O => Err LocatorIo
    | S fuel =>
        let middle := left + (right - left) / 2 in
        r ← record index middle;
        if predicate r then partition_loop fuel index predicate (middle + 1) right
        else partition_loop fuel index predicate left middle
    end
  else Ok left.

Definition partition_point (index : MmapLocatorIndex) (predicate : ShardLocatorRecord -> bool) : result LocatorError N :=
  partition_loop (N.to_nat (N.size (record_count index))) index predicate 0 (record_count index).

Definition lookup_guid (index : MmapLocatorIndex) (guid : Uuid) : result LocatorError (list ShardLocatorRecord) :=
  start ← partition_point index (fun r => bool_decide (rlt (entity_guid r) guid));
  stop ← partition_point index (fun r => bool_decide (rle (entity_guid r) guid));
  try_map (record index) (N.of_nat <$> seq (N.to_nat start) (N.to_nat stop - N.to_nat start)%nat).

End compiler.

(** ** The directory *)

Definition validate_directory (d : LocatorDirectory) : result LocatorError unit :=
  _ ← fail_if (match owners d with [] => true | o :: _ => negb (start_inclusive o =? 0) end) InvalidDirectory;
  _ ← fail_if (negb (windows2_all (fun a b => bool_decide
                 (checked_add U64_LIMIT (end_inclusive a) 1 = Some (start_inclusive b))) (owners d))) InvalidDirectory;
  fail_if (match last (owners d) with Some o => negb (end_inclusive o =? U64_MAX) | None => true end) InvalidDirectory.

Definition owns (key_hash : N) (o : LocatorOwner) : bool :=
  (start_inclusive o <=? key_hash) && (key_hash <=? end_inclusive o).

Definition owner_for (d : LocatorDirectory) (key_hash : N) : result LocatorError LocatorOwner :=
  ok_or (snd <$> list_find (fun o => owns key_hash o = true) (owners d)) (OwnerMissing key_hash).

(** ** Coalescing *)

Definition range_key (r : PhysicalRange) : string * (N * (N * N)) :=
  (object_uri r, (range_row_group r, (column_mask_id r, first_row r))).

(** Whether [range] continues [previous]. *)
Definition continues (previous range : PhysicalRange) : bool :=
  bool_decide (checked_add U64_LIMIT (first_row previous) (row_count previous) = Some (first_row range))
  && bool_decide (object_uri previous = object_uri range)
  && (range_row_group previous =? range_row_group range)
  && (column_mask_id previous =? column_mask_id range)
  && (range_graph_id previous =? range_graph_id range)
  && bool_decide (object_sha256 previous = object_sha256 range).

Definition extend (previous range : PhysicalRange) : PhysicalRange :=
  {| object_uri := object_uri previous; range_row_group := range_row_group previous;
     first_row := first_row previous;
     row_count := saturating_add U64_LIMIT (row_count previous) (row_count range);
     column_mask_id := column_mask_id previous; range_graph_id := range_graph_id previous;
     object_sha256 := object_sha256 previous |}.

(** [previous] is what [output.last_mut()] borrows. *)
Fixpoint coalesce_from (previous : PhysicalRange) (ranges : list PhysicalRange) : list PhysicalRange :=
  match ranges with
  | [] => [previous]
  | range :: ranges =>
      if continues previous range then coalesce_from (extend previous range) ranges
      else previous :: coalesce_from range ranges
  end.

Definition coalesce_ranges (ranges : list PhysicalRange) : list PhysicalRange :=
  match sort_by_key range_key ranges with
  | [] => []
  | range :: ranges => coalesce_from range ranges
  end.

(** ** Records read back as they were written *)

Record good_record (r : ShardLocatorRecord) : Prop := {
  gr_guid : length (entity_guid r) = 16%nat;
  gr_partition : locator_partition_index r < U32_LIMIT;
  gr_group : locator_row_group r < U32_LIMIT;
  gr_row : row_in_group r < U32_LIMIT;
  gr_graph : locator_graph_id r < U64_LIMIT;
  gr_predicate : locator_predicate_id r < U64_LIMIT;
}.

Lemma length_write_record r : length (entity_guid r) = 16%nat -> length (write_sharded_record r) = 44%nat.
Proof. intros Hg. unfold write_sharded_record. rewrite !length_app, !length_to_be_bytes, Hg. done. Qed.

Lemma from_to_be4 n : n < U32_LIMIT -> from_be_bytes (to_be_bytes 4 n) = n.
Proof. intros. rewrite from_to_be_bytes. by apply N.mod_small. Qed.
Lemma from_to_be8 n : n < U64_LIMIT -> from_be_bytes (to_be_bytes 8 n) = n.
Proof. intros. rewrite from_to_be_bytes. by apply N.mod_small. Qed.

(** Cutting a text of known fields. *)
Lemma slice_fields (a b c : list byte) from to : length a = from -> to = (from + length b)%nat ->
  slice from to (a ++ b ++ c) = b.
Proof. intros <- ->. apply slice_app. Qed.

Lemma slice_last (a b : list byte) from to : length a = from -> to = (from + length b)%nat -> slice from to (a ++ b) = b.
Proof. intros. rewrite <- (app_nil_r b) at 1. by apply slice_fields. Qed.

Lemma parse_write_record r : good_record r -> parse_sharded_record (write_sharded_record r) = Ok r.
Proof.
  intros [Hg ? ? ? ? ?]. unfold parse_sharded_record. rewrite length_write_record by done.
  change (N.of_nat 44 =? SHARDED_RECORD_BYTES) with true. cbn [fail_if negb mbind result_bind].
  destruct r as [g p rg ri gi pi]; unfold write_sharded_record;
    cbn [entity_guid locator_partition_index locator_row_group row_in_group locator_graph_id locator_predicate_id] in *.
  f_equal. f_equal.
  - by apply (slice_fields []).
  - rewrite (slice_fields g _ _ 16 20), from_to_be4; done.
  - rewrite (assoc (++)), (slice_fields _ _ _ 20 24), from_to_be4; rewrite ?length_app, ?length_to_be_bytes, ?Hg; done.
  - rewrite 2!(assoc (++)), (slice_fields _ _ _ 24 28), from_to_be4; rewrite ?length_app, ?length_to_be_bytes, ?Hg; done.
  - rewrite 3!(assoc (++)), (slice_fields _ _ _ 28 36), from_to_be8; rewrite ?length_app, ?length_to_be_bytes, ?Hg; done.
  - rewrite 4!(assoc (++)), (slice_last _ _ 36 44), from_to_be8; rewrite ?length_app, ?length_to_be_bytes, ?Hg; done.
Qed.

Lemma length_slice a b (l : list byte) : (a <= b <= length l)%nat -> length (slice a b l) = (b - a)%nat.
Proof. intros. unfold slice. rewrite length_take, length_drop. lia. Qed.

Lemma slice_split a b c (l : list byte) : (a <= b <= c)%nat -> slice a b l ++ slice b c l = slice a c l.
Proof.
  intros. unfold slice. replace (drop b l) with (drop (b - a) (drop a l)) by (rewrite drop_drop; f_equal; lia).
  replace (c - a)%nat with ((b - a) + (c - b))%nat by lia. by rewrite take_take_drop.
Qed.

(** Any 44 bytes are a record, and the bytes of that record. *)
Lemma write_parse_record bytes : length bytes = 44%nat ->
  exists r, parse_sharded_record bytes = Ok r /\ good_record r /\ write_sharded_record r = bytes.
Proof.
  intros Hl. unfold parse_sharded_record. rewrite Hl.
  change (N.of_nat 44 =? SHARDED_RECORD_BYTES) with true. cbn [fail_if negb mbind result_bind]. eexists. split; [reflexivity|].
  assert (forall a b, (a <= b <= 44)%nat -> length (slice a b bytes) = (b - a)%nat) as Hs by (intros; apply length_slice; lia).
  assert (forall a b, (a <= b <= 44)%nat -> from_be_bytes (slice a b bytes) < 256 ^ N.of_nat (b - a)) as Hlt.
  { intros a b Hab. rewrite <- (Hs a b Hab). apply from_be_bytes_lt. }
  split.
  - split; cbn; [by apply (Hs 0%nat 16%nat); lia|..].
    + by apply (Hlt 16%nat 20%nat); lia.
    + by apply (Hlt 20%nat 24%nat); lia.
    + by apply (Hlt 24%nat 28%nat); lia.
    + by apply (Hlt 28%nat 36%nat); lia.
    + by apply (Hlt 36%nat 44%nat); lia.
  - assert (forall a b, (a <= b <= 44)%nat -> to_be_bytes (b - a) (from_be_bytes (slice a b bytes)) = slice a b bytes) as Hf.
    { intros a b Hab. rewrite <- (Hs a b Hab) at 1. apply to_from_be_bytes. }
    unfold write_sharded_record; cbn [entity_guid locator_partition_index locator_row_group row_in_group locator_graph_id locator_predicate_id].
    pose proof (Hf 16 20)%nat as H1; pose proof (Hf 20 24)%nat as H2; pose proof (Hf 24 28)%nat as H3;
      pose proof (Hf 28 36)%nat as H4; pose proof (Hf 36 44)%nat as H5; cbn [Nat.sub] in *.
    rewrite H1, H2, H3, H4, H5 by lia.
    rewrite !slice_split by lia. unfold slice. cbn. rewrite drop_0. apply take_ge. lia.
Qed.

Definition locator_body (rs : list ShardLocatorRecord) : list byte := concat (write_sharded_record <$> rs).

Lemma length_locator_body rs : Forall good_record rs -> length (locator_body rs) = (44 * length rs)%nat.
Proof.
  unfold locator_body. induction 1 as [|r rs Hr _ IH]; [done|]. cbn [fmap list_fmap concat length].
  rewrite length_app, IH, length_write_record by apply Hr. lia.
Qed.

Lemma body_of_bytes n : forall bytes, length bytes = (44 * n)%nat ->
  exists rs, length rs = n /\ Forall good_record rs /\ locator_body rs = bytes.
Proof.
  induction n as [|n IH]; intros bytes Hl.
  { exists []. destruct bytes; [done|]. cbn in Hl. lia. }
  destruct (write_parse_record (take 44 bytes)) as (r & _ & Hr & Hw); [rewrite length_take; lia|].
  destruct (IH (drop 44 bytes)) as (rs & <- & Hrs & Hb); [rewrite length_drop; lia|].
  exists (r :: rs). split_and!; [done|by constructor|]. unfold locator_body in *. cbn [fmap list_fmap concat].
  rewrite Hw, Hb. apply take_drop.
Qed.

Lemma body_record rs i r : Forall good_record rs -> rs !! i = Some r ->
  slice (44 * i) (44 * i + 44) (locator_body rs) = write_sharded_record r.
Proof.
  intros Hg Hi. rewrite <- (take_drop_middle rs i r Hi) in Hg |- *. unfold locator_body. rewrite fmap_app, concat_app.
  apply Forall_app in Hg as [Hg1 [Hg2 _]%Forall_cons]. cbn [fmap list_fmap concat]. apply slice_fields.
  - change (concat (write_sharded_record <$> take i rs)) with (locator_body (take i rs)).
    rewrite length_locator_body by done. rewrite length_take_le; [done|]. apply lookup_lt_Some in Hi. lia.
  - by rewrite length_write_record by apply Hg2.
Qed.

(** ** Reading an index *)

(** The index holds the records [rs] behind a header. *)
Record reads (index : MmapLocatorIndex) (rs : list ShardLocatorRecord) : Prop := {
  rd_count : record_count index = N.of_nat (length rs);
  rd_good : Forall good_record rs;
  rd_fit : 64 + 44 * N.of_nat (length rs) < U64_LIMIT;
  rd_bytes : exists header, length header = 64%nat /\ index_bytes index = header ++ locator_body rs;
}.

(** The records ascend, starting above the previous one. *)
Definition ascends (previous : option ShardLocatorRecord) (rs : list ShardLocatorRecord) : Prop :=
  StronglySorted rlt rs /\ forall p x, previous = Some p -> head rs = Some x -> rlt p x.

Lemma ascends_nil previous : ascends previous [].
Proof. split; [constructor|done]. Qed.

Lemma ascends_cons previous x rs :
  ascends previous (x :: rs) <-> (forall p, previous = Some p -> rlt p x) /\ ascends (Some x) rs.
Proof.
  unfold ascends. destruct rs as [|y rs]; [|rewrite StronglySorted_cons2; cbn; naive_solver].
  split; [intros [_ Hp]; split_and!; [naive_solver|constructor|done]|].
  intros [Hp _]. split; [repeat constructor|]. cbn. naive_solver.
Qed.

Lemma ascending_guard (previous : option ShardLocatorRecord) x :
  match previous with Some value => bool_decide (rle x value) | None => false end = false
  <-> (forall p, previous = Some p -> rlt p x).
Proof.
  destruct previous as [p|]; [|naive_solver]. rewrite bool_decide_eq_false, not_rle. naive_solver.
Qed.

Section reading.
Context (index : MmapLocatorIndex) (rs : list ShardLocatorRecord) (Hread : reads index rs).

Lemma record_spec i : record index (N.of_nat i) = ok_or (rs !! i) InvalidShardedFormat.
Proof using Hread.
  destruct Hread as [Hc Hg Hfit (h & Hh & Hb)]. unfold record. rewrite Hc.
  destruct (N.leb_spec (N.of_nat (length rs)) (N.of_nat i)) as [Hle|Hlt]; cbn [fail_if mbind result_bind].
  { rewrite lookup_ge_None_2 by lia. done. }
  destruct (lookup_lt_is_Some_2 rs i ltac:(lia)) as [r Hr]. rewrite Hr. unfold SHARDED_RECORD_BYTES, SHARDED_HEADER_BYTES.
  assert (checked_mul U64_LIMIT (N.of_nat i) 44 = Some (N.of_nat i * 44)) as -> by (apply checked_mul_some; split; [done|lia]).
  cbn [ok_or mbind result_bind].
  assert (checked_add U64_LIMIT 64 (N.of_nat i * 44) = Some (64 + N.of_nat i * 44)) as -> by (apply checked_add_fits; lia).
  cbn [ok_or mbind result_bind]. rewrite Hb.
  replace (slice _ _ _) with (slice (44 * i) (44 * i + 44) (locator_body rs)).
  - rewrite (body_record rs i r) by done. apply parse_write_record. rewrite Forall_forall in Hg. by eapply Hg, list_elem_of_lookup_2.
  - unfold slice. replace (N.to_nat (64 + N.of_nat i * 44)) with (length h + 44 * i)%nat by lia.
    rewrite <- drop_drop, drop_app_length. f_equal. lia.
Qed.

Lemma record_lookup i r : rs !! i = Some r -> record index (N.of_nat i) = Ok r.
Proof using Hread. intros Hr. by rewrite record_spec, Hr. Qed.

(** Validation is the strict order of the records. *)
Lemma validate_from previous pre suf : rs = pre ++ suf ->
  (exists out, try_fold (validate_step index) previous (seq (length pre) (length suf)) = Ok out) <-> ascends previous suf.
Proof using Hread.
  revert previous pre. induction suf as [|x suf IH]; intros previous pre Heq; cbn [length seq try_fold].
  { split; [intros _; apply ascends_nil|eauto]. }
  assert (validate_step index previous (length pre)
          = (_ ← fail_if (match previous with Some value => bool_decide (rle x value) | None => false end) InvalidShardedFormat;
             Ok (Some x))) as ->.
  { unfold validate_step. rewrite (record_lookup _ x); [done|]. rewrite Heq. by apply list_lookup_middle. }
  specialize (IH (Some x) (pre ++ [x])). rewrite length_app, Nat.add_1_r in IH.
  rewrite ascends_cons, <- IH, <- ascending_guard by (rewrite Heq, <- (assoc (++)); done).
  destruct (match previous with Some value => bool_decide (rle x value) | None => false end); cbn; naive_solver.
Qed.

Lemma validate_sorted_spec : validate_sorted index = Ok tt <-> StronglySorted rlt rs.
Proof using Hread.
  unfold validate_sorted. rewrite (rd_count _ _ Hread), Nat2N.id. pose proof (validate_from None [] rs eq_refl) as Hv. cbn [length] in Hv.
  trans (exists out, try_fold (validate_step index) None (seq 0 (length rs)) = Ok out).
  - destruct (try_fold _ _ _); cbn; naive_solver.
  - rewrite Hv. unfold ascends. naive_solver.
Qed.

(** The search finds the boundary of a predicate that holds on a prefix. *)
Lemma partition_loop_spec (P : ShardLocatorRecord -> bool) (k : nat) :
  (forall i r, rs !! i = Some r -> P r = true <-> (i < k)%nat) ->
  forall fuel left right, left <= N.of_nat k <= right -> right <= N.of_nat (length rs) -> right - left < 2 ^ N.of_nat fuel ->
  partition_loop fuel index P left right = Ok (N.of_nat k).
Proof using Hread.
  intros HP. induction fuel as [|fuel IH]; intros left right Hk Hr Hf; cbn [partition_loop];
    destruct (N.ltb_spec left right) as [Hlt|Hge]; [cbn in Hf; lia|f_equal; lia| |f_equal; lia].
  set (middle := left + (right - left) / 2).
  assert (2 ^ N.of_nat (S fuel) = 2 * 2 ^ N.of_nat fuel) as Hpow by (rewrite Nat2N.inj_succ; apply N.pow_succ_r').
  assert (left <= middle < right /\ middle - left < 2 ^ N.of_nat fuel /\ right - (middle + 1) < 2 ^ N.of_nat fuel) as (Hm & Hl1 & Hl2).
  { unfold middle. pose proof (N.div_mod' (right - left) 2). pose proof (N.mod_lt (right - left) 2 ltac:(done)).
    rewrite Hpow in Hf. generalize dependent (2 ^ N.of_nat fuel).
    generalize dependent ((right - left) / 2). generalize dependent ((right - left) mod 2). intros. lia. }
  destruct (lookup_lt_is_Some_2 rs (N.to_nat middle) ltac:(lia)) as [r Hrm].
  pose proof (record_lookup _ _ Hrm) as Hrec. rewrite N2Nat.id in Hrec. rewrite Hrec. cbn [mbind result_bind].
  specialize (HP _ _ Hrm). destruct (P r).
  - apply IH; [|done|done]. assert (N.to_nat middle < k)%nat by by apply HP. lia.
  - apply IH; [|lia|done]. assert (~ (N.to_nat middle < k)%nat) by (intros ?%HP; done). lia.
Qed.

(** A predicate closed towards smaller records holds on a prefix. *)
Lemma prefix_boundary (P : ShardLocatorRecord -> bool) : StronglySorted rlt rs ->
  (forall x y, rlt x y -> P y = true -> P x = true) ->
  forall i r, rs !! i = Some r -> P r = true <-> (i < length (filter (fun r => P r = true) rs))%nat.
Proof using Type.
  clear Hread. intros Hs Hdown. induction Hs as [|x l Hs IH Hx]; intros i r Hi; [done|].
  rewrite filter_cons. destruct (decide (P x = true)) as [Hp|Hp]; cbn [length].
  - destruct i as [|i]; cbn in Hi.
    + injection Hi as <-. split; [lia|done].
    + rewrite (IH i r Hi). lia.
  - rewrite list_filter_empty.
    + cbn [length]. split; [|lia]. intros Hr. destruct i as [|i]; cbn in Hi; [by injection Hi as <-|].
      exfalso. apply Hp, (Hdown x r); [|done]. rewrite Forall_forall in Hx. by eapply Hx, list_elem_of_lookup_2.
    + intros y Hy Hpy. apply Hp, (Hdown x y); [|done]. rewrite Forall_forall in Hx. by apply Hx.
Qed.

Lemma partition_point_spec P : StronglySorted rlt rs -> (forall x y, rlt x y -> P y = true -> P x = true) ->
  partition_point index P = Ok (N.of_nat (length (filter (fun r => P r = true) rs))).
Proof using Hread.
  intros Hs Hdown. unfold partition_point. rewrite (rd_count _ _ Hread). apply partition_loop_spec.
  - by apply prefix_boundary.
  - pose proof (length_filter (fun r => P r = true) rs). lia.
  - done.
  - rewrite N2Nat.id, N.sub_0_r. apply N.size_gt.
Qed.

Lemma read_run n : forall k, (k + n <= length rs)%nat ->
  try_map (record index) (N.of_nat <$> seq k n) = Ok (take n (drop k rs)).
Proof using Hread.
  induction n as [|n IH]; intros k Hk; [done|]. cbn [seq]. rewrite fmap_cons. cbn [try_map].
  destruct (lookup_lt_is_Some_2 rs k ltac:(lia)) as [r Hr]. rewrite (record_lookup _ _ Hr). cbn [mbind result_bind].
  rewrite IH by lia. cbn [mbind result_bind]. by rewrite (drop_S rs r k Hr).
Qed.

Lemma filter_window (Q : ShardLocatorRecord -> Prop) `{!forall r, Decision (Q r)} k1 k2 :
  (k1 <= k2)%nat -> (forall i r, rs !! i = Some r -> Q r <-> (k1 <= i < k2)%nat) ->
  filter Q rs = take (k2 - k1) (drop k1 rs).
Proof using Type.
  clear Hread. intros Hk HQ. rewrite <- (take_drop k1 rs) at 1. rewrite <- (take_drop (k2 - k1) (drop k1 rs)) at 1.
  rewrite !filter_app, (list_filter_empty _ (take k1 rs)), list_filter_full, list_filter_empty, app_nil_r; [done|..].
  - intros r [i Hi]%list_elem_of_lookup. rewrite drop_drop, lookup_drop in Hi. rewrite (HQ _ _ Hi). lia.
  - intros r [i [Hi Hlt]%lookup_take_Some]%list_elem_of_lookup. rewrite lookup_drop in Hi. rewrite (HQ _ _ Hi). lia.
  - intros r [i [Hi Hlt]%lookup_take_Some]%list_elem_of_lookup. rewrite (HQ _ _ Hi). lia.
Qed.

Lemma rlt_guid (x y : ShardLocatorRecord) : rlt x y -> rle (entity_guid x) (entity_guid y).
Proof using Type.
  clear Hread. intros Hlt. apply rle_lt_eq.
  change (then_cmp (cmp (entity_guid x) (entity_guid y)) (cmp (record_key x).2 (record_key y).2) = Lt) in Hlt.
  apply then_cmp_lt in Hlt as [Hlt|[Heq _]]; [by left|right; by apply cmp_eq].
Qed.

(** A lookup returns exactly the records of the GUID, in order. *)
Lemma lookup_guid_spec guid : StronglySorted rlt rs ->
  lookup_guid index guid = Ok (filter (fun r => entity_guid r = guid) rs).
Proof using Hread.
  intros Hs. unfold lookup_guid.
  pose (P1 := fun r => bool_decide (rlt (entity_guid r) guid)). pose (P2 := fun r => bool_decide (rle (entity_guid r) guid)).
  assert (forall x y, rlt x y -> P1 y = true -> P1 x = true) as H1.
  { intros x y Hxy%rlt_guid. unfold P1. rewrite !bool_decide_eq_true. intros Hy.
    apply rle_lt_eq in Hxy as [Hxy| ->]; [by etrans|done]. }
  assert (forall x y, rlt x y -> P2 y = true -> P2 x = true) as H2.
  { intros x y Hxy%rlt_guid. unfold P2. rewrite !bool_decide_eq_true. intros Hy. by etrans. }
  change (fun r => bool_decide (rlt (entity_guid r) guid)) with P1. change (fun r => bool_decide (rle (entity_guid r) guid)) with P2.
  rewrite (partition_point_spec P1 Hs H1), (partition_point_spec P2 Hs H2). cbn [mbind result_bind]. rewrite !Nat2N.id.
  pose proof (prefix_boundary P1 Hs H1) as B1. pose proof (prefix_boundary P2 Hs H2) as B2.
  set (k1 := length (filter (fun r => P1 r = true) rs)) in *. set (k2 := length (filter (fun r => P2 r = true) rs)) in *.
  assert (k2 <= length rs)%nat by apply length_filter.
  assert (k1 <= k2)%nat as Hk.
  { destruct (decide (k1 <= k2)%nat) as [?|Hn]; [done|]. exfalso. assert (k1 <= length rs)%nat by apply length_filter.
    destruct (lookup_lt_is_Some_2 rs k2 ltac:(lia)) as [r Hr]. pose proof (proj2 (B1 _ _ Hr) ltac:(lia)) as Hp1.
    assert (P2 r = true) as Hp2%(B2 _ _ Hr); [|lia]. unfold P1, P2 in *. rewrite bool_decide_eq_true in *.
    apply rle_lt_eq. by left. }
  rewrite read_run by lia. f_equal. symmetry. apply filter_window; [done|]. intros i r Hr.
  specialize (B1 _ _ Hr). specialize (B2 _ _ Hr). unfold P1, P2 in B1, B2. rewrite bool_decide_eq_true in B1, B2.
  assert (entity_guid r = guid <-> ~ rlt (entity_guid r) guid /\ rle (entity_guid r) guid) as ->; [|rewrite B1, B2; lia].
  split; [intros ->; split; [apply rlt_irrefl|reflexivity]|]. intros [Hn Hle]. apply rle_lt_eq in Hle as [?|?]; done.
Qed.
End reading.

(** ** Opening *)

Lemma decode_sha256_ok value digest : decode_sha256 value = Ok digest <-> value = hex_encode digest /\ length digest = 32%nat.
Proof.
  unfold decode_sha256, lower_hex_text. split.
  - intros Hd. inv_steps. subst. bool_prop. split; [|done]. by apply (inj as_bytes), hex_decode_encode.
  - intros [-> Hl]. rewrite length_hex_encode, hex_encode_digits, hex_decode_hex, Hl.
    cbn [ok_or mbind result_bind fail_if negb andb Nat.mul Nat.add Nat.eqb]. by rewrite Hl.
Qed.

Lemma decode_hex digest : length digest = 32%nat -> decode_sha256 (hex_encode digest) = Ok digest.
Proof. intros. by apply decode_sha256_ok. Qed.

Definition locator_file (snapshot source : list byte) (rs : list ShardLocatorRecord) : list byte :=
  SHARDED_MAGIC ++ snapshot ++ source ++ to_be_bytes 8 (N.of_nat (length rs)) ++ locator_body rs.

Section opening.
Context `{Sha256}.
Implicit Types (snapshot source file : list byte) (rs : list ShardLocatorRecord).

Definition opened_index snapshot source file rs : MmapLocatorIndex :=
  {| snapshot_id := snapshot; source_locator_sha256 := source; record_count := N.of_nat (length rs); index_bytes := file |}.

Lemma opened_reads snapshot source rs : length snapshot = 16%nat -> length source = 32%nat -> Forall good_record rs ->
  64 + 44 * N.of_nat (length rs) < U64_LIMIT ->
  reads (opened_index snapshot source (locator_file snapshot source rs) rs) rs.
Proof.
  intros Hs Hd Hg Hf. split; [done|done|done|].
  exists (SHARDED_MAGIC ++ snapshot ++ source ++ to_be_bytes 8 (N.of_nat (length rs))). split.
  - rewrite !length_app, length_to_be_bytes, Hs, Hd. done.
  - cbn [index_bytes opened_index]. unfold locator_file. by rewrite <- !(assoc (++)).
Qed.

(** The header fields of a file of this layout. *)
Record header_fields file snapshot source (count : N) : Prop := {
  hf_magic : slice 0 8 file = SHARDED_MAGIC;
  hf_snapshot : slice 8 24 file = snapshot;
  hf_source : slice 24 56 file = source;
  hf_count : slice 56 64 file = to_be_bytes 8 count;
}.

Lemma locator_header snapshot source rs : length snapshot = 16%nat -> length source = 32%nat ->
  header_fields (locator_file snapshot source rs) snapshot source (N.of_nat (length rs)).
Proof.
  intros Hs Hd. unfold locator_file. split.
  - by apply (slice_fields []).
  - apply slice_fields; rewrite ?Hs; done.
  - rewrite (assoc (++)). apply slice_fields; rewrite ?length_app, ?Hs, ?Hd; done.
  - rewrite 2!(assoc (++)). apply slice_fields; rewrite ?length_app, ?length_to_be_bytes, ?Hs, ?Hd; done.
Qed.

Lemma length_locator_file snapshot source rs : length snapshot = 16%nat -> length source = 32%nat -> Forall good_record rs ->
  N.of_nat (length (locator_file snapshot source rs)) = 64 + N.of_nat (length rs) * 44.
Proof.
  intros Hs Hd Hg. unfold locator_file. rewrite !length_app, length_to_be_bytes, Hs, Hd, length_locator_body by done.
  change (length SHARDED_MAGIC) with 8%nat. lia.
Qed.

(** Opening is the strict order of the records, once the header agrees. *)
Lemma open_cases snapshot source rs file : length source = 32%nat ->
  header_fields file snapshot source (N.of_nat (length rs)) ->
  N.of_nat (length file) = 64 + N.of_nat (length rs) * 44 -> 64 + 44 * N.of_nat (length rs) < U64_LIMIT ->
  open_locator (Some file) (hex_encode (sha256 file)) snapshot (hex_encode source)
  = (_ ← validate_sorted (opened_index snapshot source file rs); Ok (opened_index snapshot source file rs)).
Proof.
  intros Hd [Hm Hs Hsrc Hc] Hlen Hf. unfold open_locator.
  rewrite (decode_hex (sha256 file)) by apply sha256_length. rewrite (decode_hex source) by done. cbn [ok_or mbind result_bind].
  assert (u64_of_len (length file) = Some (N.of_nat (length file))) as -> by (apply u64_of_len_some; split; [done|lia]).
  cbn [ok_or mbind result_bind]. assert ((N.of_nat (length file) <? SHARDED_HEADER_BYTES) = false) as ->
    by (apply N.ltb_ge; unfold SHARDED_HEADER_BYTES; lia).
  rewrite (bool_decide_eq_true_2 (sha256 file = sha256 file)) by done. cbn [fail_if orb negb mbind result_bind].
  rewrite Hm, Hs, Hsrc, Hc. rewrite !bool_decide_eq_true_2 by done. cbn [fail_if negb orb mbind result_bind].
  rewrite from_to_be8 by lia. unfold SHARDED_RECORD_BYTES, SHARDED_HEADER_BYTES.
  assert (checked_mul U64_LIMIT (N.of_nat (length rs)) 44 = Some (N.of_nat (length rs) * 44)) as ->
    by (apply checked_mul_some; split; [done|lia]). cbn [ok_or mbind result_bind].
  rewrite checked_add_fits by lia. cbn [ok_or mbind result_bind]. rewrite Hlen, N.eqb_refl. reflexivity.
Qed.

Lemma open_file snapshot source rs : length snapshot = 16%nat -> length source = 32%nat -> Forall good_record rs ->
  64 + 44 * N.of_nat (length rs) < U64_LIMIT -> StronglySorted rlt rs ->
  let file := locator_file snapshot source rs in
  open_locator (Some file) (hex_encode (sha256 file)) snapshot (hex_encode source) = Ok (opened_index snapshot source file rs).
Proof.
  intros Hs Hd Hg Hf Hsorted file. unfold file.
  rewrite (open_cases snapshot source rs); [|done|by apply locator_header|by apply length_locator_file|done].
  by rewrite (proj2 (validate_sorted_spec _ _ (opened_reads snapshot source rs Hs Hd Hg Hf)) Hsorted).
Qed.

Lemma header_split file : (64 <= length file)%nat ->
  slice 0 8 file ++ slice 8 24 file ++ slice 24 56 file ++ slice 56 64 file ++ drop 64 file = file.
Proof.
  intros. rewrite 3!(assoc (++)), !slice_split by lia. unfold slice. rewrite drop_0. apply take_drop.
Qed.

(** Whatever opens has this layout. *)
Lemma open_inv path binary snapshot source_text index : open_locator path binary snapshot source_text = Ok index ->
  exists source rs, let file := locator_file snapshot source rs in
  path = Some file /\ binary = hex_encode (sha256 file) /\ source_text = hex_encode source /\
  length snapshot = 16%nat /\ length source = 32%nat /\ Forall good_record rs /\ StronglySorted rlt rs /\
  64 + 44 * N.of_nat (length rs) < U64_LIMIT /\ index = opened_index snapshot source file rs.
Proof.
  unfold open_locator. intros Ho. inv_steps. bool_prop. rename a0 into file, a5 into source.
  apply decode_sha256_ok in Ha as [-> _], Ha5 as [-> Hd]. apply u64_of_len_some in Ha1 as [-> _].
  apply checked_mul_some in Ha7 as [-> _]. apply checked_add_some in Ha8 as [-> Hfit].
  unfold SHARDED_RECORD_BYTES, SHARDED_HEADER_BYTES in *. set (count := from_be_bytes (slice 56 64 file)) in *.
  destruct (body_of_bytes (N.to_nat count) (drop 64 file)) as (rs & Hrs & Hg & Hb); [rewrite length_drop; lia|].
  assert (N.of_nat (length rs) = count) as Hc by lia.
  assert (locator_file snapshot source rs = file) as Hfile.
  { unfold locator_file. rewrite Hc, Hb, <- H1, <- H2, <- Ha6. unfold count.
    pose proof (to_from_be_bytes (slice 56 64 file)) as Hbe. rewrite length_slice in Hbe by lia.
    change (64 - 56)%nat with 8%nat in Hbe. rewrite Hbe. apply header_split. lia. }
  assert (length snapshot = 16%nat) as Hs by (rewrite <- H1, length_slice; lia).
  exists source, rs. cbv zeta. rewrite Hfile, <- Hc in *. split_and!; try done; [by rewrite Ha3| |lia].
  destruct a10. rewrite <- Hfile in Ha10. eapply validate_sorted_spec; [|exact Ha10]. apply opened_reads; [done..|lia].
Qed.
End opening.

(** ** Compiling *)

Definition parse_raw (raw : list byte) : result LocatorError ShardLocatorRecord :=
  line ← line_text LocatorIo raw; parse_locator_line line.

Lemma parse_decimal_lt limit value n : 0 < limit -> parse_decimal limit value = Ok n -> n < limit.
Proof. intros Hl Hp. unfold parse_decimal in Hp. inv_steps. by eapply parse_digits_lt. Qed.

Lemma parse_raw_good raw r : parse_raw raw = Ok r -> good_record r.
Proof.
  unfold parse_raw, parse_locator_line. intros Hp. inv_ok Hp.
  destruct (split_on TAB a) as [|g [|p [|rg [|ri [|gi [|pi [|]]]]]]]; try done.
  inv_steps. subst. bool_prop. split; cbn; try done; (eapply parse_decimal_lt; [|done]; done).
Qed.

Lemma parse_raws_good raws rs : try_map parse_raw raws = Ok rs -> Forall good_record rs.
Proof.
  revert rs. induction raws as [|raw raws IH]; intros rs Hp; cbn [try_map] in Hp; inv_steps; subst; constructor.
  - by eapply parse_raw_good.
  - by apply IH.
Qed.

Lemma compile_lines_inv raws : forall st st', try_fold compile_line st raws = Ok st' ->
  exists rs, try_map parse_raw raws = Ok rs /\ ascends (previous_record st) rs /\
    written st' = written st ++ locator_body rs /\ written_count st' = written_count st + N.of_nat (length rs).
Proof.
  induction raws as [|raw raws IH]; intros st st' Hf; cbn [try_fold] in Hf.
  { injection Hf as <-. exists []. cbn. rewrite app_nil_r. split_and!; [done|apply ascends_nil|done|lia]. }
  apply result_bind_ok in Hf as (st1 & Hstep & Hf). destruct (IH _ _ Hf) as (rs & Hp & Has & Hw & Hc). clear IH Hf.
  unfold compile_line in Hstep. inv_steps. subst st1. cbn [written written_count previous_record] in *.
  assert (parse_raw raw = Ok a0) as Hraw by (unfold parse_raw; by rewrite Ha).
  exists (a0 :: rs). cbn [try_map]. rewrite Hraw. cbn [mbind result_bind]. rewrite Hp. split_and!; [done| | |].
  - rewrite ascends_cons. split; [by apply ascending_guard|done].
  - rewrite Hw, <- (assoc (++)). done.
  - rewrite Hc. apply checked_add_some in Ha2 as [-> _]. cbn [length]. lia.
Qed.

Lemma compile_lines_total raws : forall st rs, try_map parse_raw raws = Ok rs -> ascends (previous_record st) rs ->
  written_count st + N.of_nat (length rs) < U64_LIMIT -> exists st', try_fold compile_line st raws = Ok st'.
Proof.
  induction raws as [|raw raws IH]; intros st rs Hp Has Hc; cbn [try_fold try_map] in *; [eauto|].
  apply result_bind_ok in Hp as (r & Hr & Hp). apply result_bind_ok in Hp as (rs' & Hp & Hrs). injection Hrs as <-.
  rewrite ascends_cons, <- ascending_guard in Has. destruct Has as [Hguard Has]. cbn [length] in Hc.
  unfold parse_raw in Hr. apply result_bind_ok in Hr as (line & Hline & Hr).
  assert (exists st', compile_line st raw = Ok st' /\ previous_record st' = Some r /\ written_count st' = written_count st + 1)
    as (st' & -> & Hprev & Hcount).
  { unfold compile_line. rewrite Hline. cbn [mbind result_bind]. rewrite Hr. cbn [mbind result_bind]. rewrite Hguard.
    cbn [fail_if mbind result_bind]. rewrite checked_add_fits by lia. cbn [ok_or mbind result_bind]. eauto. }
  cbn [mbind result_bind]. apply (IH _ rs'); [done|by rewrite Hprev|lia].
Qed.

Lemma write_locator_ok `{Sha256} input expected snapshot count file :
  length snapshot = 16%nat -> length expected = 32%nat ->
  write_locator input expected snapshot = Ok (count, file) ->
  exists rs, try_map parse_raw (lines input) = Ok rs /\ StronglySorted rlt rs /\
    count = N.of_nat (length rs) /\ file = locator_file snapshot expected rs.
Proof.
  intros Hs Hd Hw. unfold write_locator in Hw. inv_ok Hw. injection Hw as Hcount Hfile.
  destruct (compile_lines_inv _ _ _ Ha) as (rs & Hp & [Hsorted _] & Hwr & Hc). cbn in Hc. subst count file.
  exists rs. split_and!; [done|done|by rewrite Hc|]. rewrite Hwr, Hc. unfold locator_file.
  set (front := SHARDED_MAGIC ++ snapshot ++ expected). assert (length front = 56%nat) as Hfront.
  { unfold front. rewrite !length_app, Hs, Hd. done. }
  cbn [written]. replace (SHARDED_MAGIC ++ snapshot ++ expected ++ to_be_bytes 8 0) with (front ++ to_be_bytes 8 0)
    by (unfold front; by rewrite <- !(assoc (++))).
  rewrite <- (assoc (++)), take_app_length', (assoc (++) front), drop_app_length'
    by (rewrite ?length_app, ?length_to_be_bytes, Hfront; done).
  unfold front. by rewrite <- !(assoc (++)).
Qed.

Lemma write_locator_total `{Sha256} input expected snapshot rs : try_map parse_raw (lines input) = Ok rs ->
  StronglySorted rlt rs -> N.of_nat (length rs) < U64_LIMIT ->
  exists count file, write_locator input expected snapshot = Ok (count, file).
Proof.
  intros Hp Hs Hc. unfold write_locator.
  destruct (compile_lines_total (lines input) {| written := SHARDED_MAGIC ++ snapshot ++ expected ++ to_be_bytes 8 0;
    written_count := 0; previous_record := None |} rs Hp) as [st ->]; [by split|cbn; lia|]. cbn [mbind result_bind]. eauto.
Qed.

Section claims.
Context `{Sha256}.

(** C37: The locator compiler is exact and all-or-nothing.  When it succeeds,
    the input had the stated digest, every line parsed, the records ascend
    strictly, no file was overwritten, and the written file opens and answers
    every lookup with exactly the records of the GUID in order.  When it
    fails, the output path is as it was, and the reason is a wrong digest, an
    existing file, or lines that do not parse or do not ascend. *)
Theorem compiled_locator_serves_its_rows (input : list byte) (input_sha256 : string) (snapshot : Uuid) (output : option (list byte)) :
  length snapshot = 16%nat -> 64 + 44 * N.of_nat (length (lines input)) < U64_LIMIT ->
  match compile_sharded_locator (Some input) input_sha256 snapshot output with
  | (Ok count, file) =>
      input_sha256 = hex_encode (sha256 input) /\ output = None /\
      exists binary rs index, file = Some binary /\ try_map parse_raw (lines input) = Ok rs /\ StronglySorted rlt rs /\
        count = N.of_nat (length rs) /\
        open_locator (Some binary) (hex_encode (sha256 binary)) snapshot input_sha256 = Ok index /\
        forall guid, lookup_guid index guid = Ok (filter (fun r => entity_guid r = guid) rs)
  | (Err _, file) =>
      file = output /\
      (input_sha256 <> hex_encode (sha256 input) \/ is_Some output \/
       forall rs, try_map parse_raw (lines input) = Ok rs -> ~ StronglySorted rlt rs)
  end.
Proof.
  intros Hs Hlen. unfold compile_sharded_locator, sha256_path.
  destruct (decode_sha256 input_sha256) as [d|e] eqn:Hd; cbn [ok_or mbind result_bind].
  2:{ split; [done|left]. intros ->. rewrite decode_hex in Hd by apply sha256_length. done. }
  apply decode_sha256_ok in Hd as [-> Hd]. destruct (decide (sha256 input = d)) as [Hdig|Hdig].
  2:{ rewrite (bool_decide_eq_false_2 (sha256 input = d)) by done. split; [done|left]. by intros E%(inj hex_encode). }
  rewrite (bool_decide_eq_true_2 (sha256 input = d)) by done. cbn [negb fail_if mbind result_bind]. subst d. destruct output as [old|]; [rewrite bool_decide_eq_true_2 by eauto; cbn; split; [done|right; left; eauto]|].
  rewrite (bool_decide_eq_false_2 (is_Some None)) by (by intros []). cbn [fail_if mbind result_bind].
  destruct (write_locator input (sha256 input) snapshot) as [[count file]|e] eqn:Hw.
  - destruct (write_locator_ok input (sha256 input) snapshot count file) as (rs & Hp & Hsorted & -> & ->); [done..|].
    pose proof (try_map_length _ _ _ Hp) as Hl. pose proof (parse_raws_good _ _ Hp) as Hg.
    split_and!; [done|done|]. eexists _, rs, _. split_and!; [done..| |].
    + apply open_file; [done|apply sha256_length|done|lia|done].
    + intros guid. apply lookup_guid_spec; [|done]. apply opened_reads; [done|apply sha256_length|done|lia].
  - split; [done|]. right; right. intros rs Hp Hsorted. pose proof (try_map_length _ _ _ Hp) as Hl.
    destruct (write_locator_total input (sha256 input) snapshot rs) as (? & ? & Hok); [done|done|lia|]. congruence.
Qed.

(** Whatever file opens as a locator is sound: its bytes are the header
    of the expected snapshot and source followed by well-formed records in
    strictly ascending order, and every lookup succeeds with exactly the
    records of the GUID, in order; no record of the file is unreachable. *)
Theorem opened_locator_is_exact (path : option (list byte)) (binary source : string) (snapshot : Uuid) (index : MmapLocatorIndex) :
  open_locator path binary snapshot source = Ok index ->
  exists digest rs, path = Some (locator_file snapshot digest rs) /\ source = hex_encode digest /\
    binary = hex_encode (sha256 (locator_file snapshot digest rs)) /\
    snapshot_id index = snapshot /\ source_locator_sha256 index = digest /\ record_count index = N.of_nat (length rs) /\
    Forall good_record rs /\ StronglySorted rlt rs /\
    (forall guid, lookup_guid index guid = Ok (filter (fun r => entity_guid r = guid) rs)) /\
    (forall r, r ∈ rs -> exists found, lookup_guid index (entity_guid r) = Ok found /\ r ∈ found).
Proof.
  intros Ho. destruct (open_inv _ _ _ _ _ Ho) as (digest & rs & -> & -> & -> & Hs & Hd & Hg & Hsorted & Hfit & ->).
  assert (forall guid, lookup_guid (opened_index snapshot digest (locator_file snapshot digest rs) rs) guid
            = Ok (filter (fun r => entity_guid r = guid) rs)) as Hl.
  { intros guid. apply lookup_guid_spec; [|done]. by apply opened_reads. }
  exists digest, rs. split_and!; [done..|]. intros r Hr. eexists. split; [apply Hl|]. by apply list_elem_of_filter.
Qed.
End claims.

(** ** Routing *)

(** Each interval starts where the one before it ends. *)
Definition linked (a b : LocatorOwner) : Prop :=
  checked_add U64_LIMIT (end_inclusive a) 1 = Some (start_inclusive b).

Global Instance linked_dec : RelDecision linked.
Proof. intros a b. unfold linked. apply _. Defined.

Lemma linked_cover os : forall o h, Sorted linked (o :: os) -> start_inclusive o <= h ->
  (exists l, last (o :: os) = Some l /\ h <= end_inclusive l) -> exists x, x ∈ o :: os /\ owns h x = true.
Proof.
  unfold owns. induction os as [|p os IH]; intros o h Hs Ho (l & Hlast & Hl).
  { injection Hlast as <-. exists o. rewrite andb_true_iff, !N.leb_le. split; [left|done]. }
  destruct (N.leb_spec h (end_inclusive o)) as [Hle|Hgt].
  { exists o. rewrite andb_true_iff, !N.leb_le. split; [left|done]. }
  apply Sorted_inv in Hs as [Hs Hop]. apply HdRel_inv in Hop. apply checked_add_some in Hop as [Hop _].
  destruct (IH p h Hs) as (x & Hx & Hown); [lia|eauto|]. exists x. split; [by right|done].
Qed.

(** Non-empty linked intervals are disjoint. *)
Lemma linked_disjoint os : Sorted linked os -> Forall (fun o => start_inclusive o <= end_inclusive o) os ->
  StronglySorted (fun a b => end_inclusive a < start_inclusive b) os.
Proof.
  induction 1 as [|o os Hs IH Hop]; intros Hne; constructor; apply Forall_cons in Hne as [_ Hne]; [by apply IH|].
  specialize (IH Hne). destruct os as [|p os]; [done|]. apply HdRel_inv in Hop. apply checked_add_some in Hop as [Hop _].
  apply StronglySorted_inv in IH as [_ Hp]. apply Forall_cons in Hne as [Hpe _]. constructor; [lia|].
  eapply Forall_impl; [exact Hp|]. cbn. intros q Hq. lia.
Qed.

Lemma validate_directory_ok d : validate_directory d = Ok tt ->
  exists o os, owners d = o :: os /\ start_inclusive o = 0 /\ Sorted linked (o :: os) /\
    exists l, last (o :: os) = Some l /\ end_inclusive l = U64_MAX.
Proof.
  unfold validate_directory. intros Hv. inv_steps. destruct (owners d) as [|o os]; [done|]. bool_prop.
  exists o, os. split_and!; [done|done|by apply (windows2_all_decide linked)|].
  destruct (last (o :: os)) as [l|]; [|done]. bool_prop. eauto.
Qed.

(** A validated directory leaves no key hash without an owner: every
    64-bit hash is routed to an owner whose interval contains it.  If moreover
    no interval of the directory is inverted, that owner is the only one. *)
Theorem directory_routes_every_hash (d : LocatorDirectory) (h : N) :
  validate_directory d = Ok tt -> h < U64_LIMIT ->
  exists o, owner_for d h = Ok o /\ o ∈ owners d /\ start_inclusive o <= h <= end_inclusive o /\
    (Forall (fun o => start_inclusive o <= end_inclusive o) (owners d) ->
     forall i j a b, owners d !! i = Some a -> owners d !! j = Some b -> owns h a = true -> owns h b = true -> i = j).
Proof.
  intros (o & os & Ho & H0 & Hs & l & Hl & Hmax)%validate_directory_ok Hh.
  destruct (linked_cover os o h Hs) as (x & Hx & Hown).
  { lia. }
  { exists l. split; [done|]. rewrite Hmax. unfold U64_MAX. lia. }
  unfold owner_for. rewrite Ho. destruct (list_find_elem_of (fun o => owns h o = true) _ x Hx Hown) as [[i y] Hf].
  rewrite Hf. apply list_find_Some in Hf as (Hi & Hy & _). exists y. unfold owns in Hy at 1.
  rewrite andb_true_iff, !N.leb_le in Hy. split_and!; [done|by eapply list_elem_of_lookup_2|apply Hy|apply Hy|].
  intros Hne i' j' a b Ha Hb. unfold owns. rewrite !andb_true_iff, !N.leb_le. intros Hoa Hob.
  pose proof (linked_disjoint _ Hs Hne) as Hd. destruct (Nat.lt_trichotomy i' j') as [Hij|[->|Hij]]; [|done|].
  - pose proof (StronglySorted_lookup _ _ _ _ _ _ Hd Hij Ha Hb). cbn in *. lia.
  - pose proof (StronglySorted_lookup _ _ _ _ _ _ Hd Hij Hb Ha). cbn in *. lia.
Qed.

(** ** Coalescing *)

(** The rows a range addresses, each with the object it is read from. *)
Definition addressed (r : PhysicalRange) : list (string * N * N * N * list byte * N) :=
  (fun i => (object_uri r, range_row_group r, column_mask_id r, range_graph_id r, object_sha256 r, first_row r + N.of_nat i))
    <$> seq 0 (N.to_nat (row_count r)).

Definition in_bounds (r : PhysicalRange) : Prop := first_row r + row_count r < U64_LIMIT.

Record continuation_of (p r : PhysicalRange) : Prop := {
  co_row : first_row p + row_count p = first_row r;
  co_uri : object_uri p = object_uri r;
  co_group : range_row_group p = range_row_group r;
  co_mask : column_mask_id p = column_mask_id r;
  co_graph : range_graph_id p = range_graph_id r;
  co_sha256 : object_sha256 p = object_sha256 r;
}.

Lemma continues_inv p r : continues p r = true -> continuation_of p r.
Proof.
  unfold continues. intros Hc. bool_prop.
  match goal with H : checked_add _ _ _ = Some _ |- _ => apply checked_add_some in H as [H _] end. by split.
Qed.

Lemma extend_bounds p r : in_bounds r -> continues p r = true ->
  row_count (extend p r) = row_count p + row_count r /\ in_bounds (extend p r).
Proof.
  unfold in_bounds. intros Hr Hc%continues_inv. destruct Hc. cbn. unfold saturating_add.
  rewrite N.min_l by lia. split; [done|lia].
Qed.

Lemma extend_addressed p r : in_bounds r -> continues p r = true -> addressed (extend p r) = addressed p ++ addressed r.
Proof.
  intros Hr Hc. destruct (extend_bounds p r Hr Hc) as [Hn _]. apply continues_inv in Hc as [Hrow Hu Hg Hm Hgr Hsha].
  unfold addressed. rewrite Hn, N2Nat.inj_add, seq_app, fmap_app. cbn. f_equal. rewrite <- Hu, <- Hg, <- Hm, <- Hgr, <- Hsha, <- Hrow.
  rewrite <- (Nat.add_0_r (N.to_nat (row_count p))), <- fmap_add_seq, <- list_fmap_compose.
  apply list_fmap_ext. intros i x _. cbn. f_equal. lia.
Qed.

(** Extending the range in front changes neither its key nor what it continues. *)
Lemma coalesce_head l : forall p, exists q t, coalesce_from p l = q :: t /\ range_key q = range_key p /\
  forall x, continues x q = continues x p.
Proof.
  induction l as [|r l IH]; intros p; cbn [coalesce_from]; [eauto|]. destruct (continues p r); [|eauto].
  destruct (IH (extend p r)) as (q & t & -> & Hk & Hc). eauto.
Qed.

Lemma coalesce_elem x l : forall p, Forall (key_le range_key x) (p :: l) -> Forall (key_le range_key x) (coalesce_from p l).
Proof.
  induction l as [|r l IH]; intros p Hl; cbn [coalesce_from]; [done|].
  apply Forall_cons in Hl as [Hp Hl]. destruct (continues p r); [|constructor; [done|by apply IH]].
  apply IH. apply Forall_cons in Hl as [_ Hl]. by constructor.
Qed.

Lemma length_coalesce_from l : forall p, (length (coalesce_from p l) <= S (length l))%nat.
Proof.
  induction l as [|r l IH]; intros p; cbn [coalesce_from length]; [lia|].
  destruct (continues p r); [specialize (IH (extend p r))|specialize (IH r)]; cbn [length]; lia.
Qed.

Lemma coalesce_from_spec l : forall p, Forall in_bounds (p :: l) -> StronglySorted (key_le range_key) (p :: l) ->
  concat (addressed <$> coalesce_from p l) = concat (addressed <$> p :: l) /\ Forall in_bounds (coalesce_from p l) /\
  StronglySorted (key_le range_key) (coalesce_from p l) /\ Sorted (fun a b => continues a b = false) (coalesce_from p l).
Proof.
  induction l as [|r l IH]; intros p Hb Hs; cbn [coalesce_from]; [split_and!; [done..|repeat constructor]|].
  apply Forall_cons in Hb as [Hp Hb]. apply StronglySorted_inv in Hs as [Hs Hpl].
  pose proof (proj1 (Forall_cons _ _ _) Hb) as [Hr Hl]. destruct (continues p r) eqn:Hc.
  - destruct (extend_bounds p r Hr Hc) as [_ He]. destruct (IH (extend p r)) as (Hrows & Hbs & Hss & Hw).
    + by constructor.
    + apply StronglySorted_inv in Hs as [Hs _]. constructor; [done|]. by apply Forall_cons in Hpl as [_ Hpl].
    + split_and!; [|done..]. rewrite Hrows, !fmap_cons. cbn [concat]. by rewrite extend_addressed, <- (assoc (++)).
  - destruct (IH r Hb Hs) as (Hrows & Hbs & Hss & Hw). split_and!.
    + rewrite !fmap_cons. cbn [concat]. by rewrite Hrows, fmap_cons.
    + by constructor.
    + constructor; [done|]. by apply coalesce_elem.
    + constructor; [done|]. destruct (coalesce_head l r) as (q & t & -> & _ & Hq). constructor. by rewrite Hq.
Qed.

(** Coalescing physical ranges keeps the addressed rows.  For ranges that
    end below 2^64 the coalesced ranges address exactly the same rows of the
    same objects, each as often as before, still end below 2^64, come in
    ascending order of object, row group, mask and row, and no range continues
    its predecessor, so nothing is left to merge. *)
Theorem coalescing_keeps_rows (ranges : list PhysicalRange) :
  Forall in_bounds ranges ->
  concat (addressed <$> coalesce_ranges ranges) ≡ₚ concat (addressed <$> ranges) /\ Forall in_bounds (coalesce_ranges ranges) /\
  StronglySorted (key_le range_key) (coalesce_ranges ranges) /\
  Sorted (fun a b => continues a b = false) (coalesce_ranges ranges) /\
  (length (coalesce_ranges ranges) <= length ranges)%nat.
Proof.
  intros Hb. unfold coalesce_ranges. pose proof (sort_by_key_perm range_key ranges) as Hp.
  pose proof (sort_by_key_sorted range_key ranges) as Hs. pose proof (Permutation_length Hp) as Hlen.
  destruct (sort_by_key range_key ranges) as [|p l].
  { destruct ranges; [|done]. split_and!; [done|constructor..|done]. }
  assert (Forall in_bounds (p :: l)) as Hb' by (by rewrite Hp).
  destruct (coalesce_from_spec l p Hb' Hs) as (Hrows & Hbs & Hss & Hw). split_and!; [|done..|].
  - rewrite Hrows, <- !list_bind_as_concat. by rewrite Hp.
  - pose proof (length_coalesce_from l p). cbn [length] in Hlen. lia.
Qed.

(** ** Examples *)

(** The directory of a shard whose interval is inverted validates although two
    owners claim the same hashes. *)
Definition sample_owner (first last : N) (shard : string) : LocatorOwner :=
  {| start_inclusive := first; end_inclusive := last; shard_id := shard; endpoints := []; root_sha256 := [] |}.

Definition inverted_directory : LocatorDirectory :=
  {| directory_snapshot_id := []; owners := [sample_owner 0 9 "a"; sample_owner 10 4 "b"; sample_owner 5 U64_MAX "c"] |}.

Example inverted_interval_hides_an_overlap :
  validate_directory inverted_directory = Ok tt /\
  (shard_id <$> filter (fun o => owns 7 o = true) (owners inverted_directory)) = ["a"; "c"]%string.
Proof. split; vm_compute; reflexivity. Qed.

(** Two rows of one entity, as the distributed build prints them. *)
Definition sample_guid : Uuid := replicate 15 x00 ++ [x02].
Definition sample_snapshot : Uuid := replicate 15 x00 ++ [x01].

Definition sample_row (partition row predicate : N) : ShardLocatorRecord :=
  {| entity_guid := sample_guid; locator_partition_index := partition; locator_row_group := 0; row_in_group := row;
     locator_graph_id := 1; locator_predicate_id := predicate |}.

Definition sample_line (r : ShardLocatorRecord) : list byte :=
  as_bytes (hex_encode (entity_guid r)) ++ TAB :: digits 5 (locator_partition_index r) ++ TAB :: digits 10 (locator_row_group r)
    ++ TAB :: digits 10 (row_in_group r) ++ TAB :: digits 20 (locator_graph_id r) ++ TAB :: digits 20 (locator_predicate_id r).

Definition sample_rows : list ShardLocatorRecord := [sample_row 0 0 2; sample_row 1 1 3].
Definition sample_input : list byte := concat (write_line <$> (sample_line <$> sample_rows)).
Definition sample_binary : list byte := locator_file sample_snapshot (padded_sha256 sample_input) sample_rows.

Lemma compiled_locator_serves_its_rows_witness :
  exists index,
    compile_sharded_locator (H := padded_digest) (Some sample_input) (hex_encode (padded_sha256 sample_input)) sample_snapshot None
      = (Ok 2, Some sample_binary) /\
    open_locator (H := padded_digest) (Some sample_binary) (hex_encode (padded_sha256 sample_binary)) sample_snapshot
      (hex_encode (padded_sha256 sample_input)) = Ok index /\
    lookup_guid index sample_guid = Ok sample_rows /\ lookup_guid index sample_snapshot = Ok [].
Proof.
  pose proof (compiled_locator_serves_its_rows (H := padded_digest) sample_input (hex_encode (padded_sha256 sample_input))
    sample_snapshot None eq_refl ltac:(vm_compute; reflexivity)) as T.
  assert (compile_sharded_locator (H := padded_digest) (Some sample_input) (hex_encode (padded_sha256 sample_input))
            sample_snapshot None = (Ok 2, Some sample_binary)) as E by (vm_compute; reflexivity).
  rewrite E in T. destruct T as (_ & _ & binary & rs & index & Hb & Hp & _ & _ & Ho & Hl). injection Hb as <-.
  assert (try_map parse_raw (lines sample_input) = Ok sample_rows) as Hs by (vm_compute; reflexivity).
  assert (rs = sample_rows) as -> by (rewrite Hs in Hp; by injection Hp).
  exists index. split; [exact E|]. split; [exact Ho|]. split; rewrite Hl; vm_compute; reflexivity.
Defined.

Lemma opened_locator_is_exact_witness :
  exists index, open_locator (H := padded_digest) (Some sample_binary) (hex_encode (padded_sha256 sample_binary)) sample_snapshot
      (hex_encode (padded_sha256 sample_input)) = Ok index /\
    exists digest rs, Some sample_binary = Some (locator_file sample_snapshot digest rs) /\
      record_count index = N.of_nat (length rs) /\
      (forall guid, lookup_guid index guid = Ok (filter (fun r => entity_guid r = guid) rs)).
Proof.
  assert (open_locator (H := padded_digest) (Some sample_binary) (hex_encode (padded_sha256 sample_binary)) sample_snapshot
      (hex_encode (padded_sha256 sample_input))
      = Ok (opened_index sample_snapshot (padded_sha256 sample_input) sample_binary sample_rows)) as Ho by (vm_compute; reflexivity).
  eexists. split; [exact Ho|].
  destruct (opened_locator_is_exact (H := padded_digest) _ _ _ _ _ Ho) as (digest & rs & Hb & _ & _ & _ & _ & Hc & _ & _ & Hl & _).
  exists digest, rs. split; [exact Hb|]. split; [exact Hc|exact Hl].
Defined.

Definition split_directory : LocatorDirectory :=
  {| directory_snapshot_id := []; owners := [sample_owner 0 99 "a"; sample_owner 100 U64_MAX "b"] |}.

Lemma directory_routes_every_hash_witness :
  validate_directory split_directory = Ok tt /\ exists o, owner_for split_directory 100 = Ok o /\ 100 <= end_inclusive o.
Proof.
  split; [vm_compute; reflexivity|].
  destruct (directory_routes_every_hash split_directory 100) as (o & Ho & _ & Hb & _);
    [vm_compute; reflexivity|vm_compute; reflexivity|]. exists o. split; [exact Ho|apply Hb].
Defined.

Definition sample_range (first count : N) : PhysicalRange :=
  {| object_uri := "s3://bucket/part-0"; range_row_group := 0; first_row := first; row_count := count;
     column_mask_id := 1; range_graph_id := 2; object_sha256 := [] |}.

Lemma coalescing_keeps_rows_witness :
  coalesce_ranges [sample_range 4 2; sample_range 9 1; sample_range 0 4] = [sample_range 0 6; sample_range 9 1] /\
  concat (addressed <$> coalesce_ranges [sample_range 4 2; sample_range 9 1; sample_range 0 4])
    ≡ₚ concat (addressed <$> [sample_range 4 2; sample_range 9 1; sample_range 0 4]).
Proof.
  split; [vm_compute; reflexivity|]. apply (coalescing_keeps_rows [sample_range 4 2; sample_range 9 1; sample_range 0 4]).
  repeat constructor; vm_compute; reflexivity.
Defined.
