(* ===== verification/Hydration.v ===== *)
(** * Hydration of qualified keys

    Models src/crates/ngkg-hydration/src/lib.rs: the payload rows of the
    entities of an answer are located, grouped by shard and row group, read by
    lanes of threads and sorted; a plan keeps the ranges of every key; the root
    of a serving deployment is validated.

    A path is a string, [fs] gives the content of its file, which the
    deployment keeps immutable.  Parquet is an interface ([PayloadReader]).  A
    record batch is the list of its rows, and a cell holds what the array of its
    column returns for the row, which for a null is the value below it: the code
    asks for nulls only in the language column.  A panic of a lane is the error
    [WorkerTerminated].  The unstable sorts are modelled by a stable one; the
    theorems hold up to the order of rows with equal keys.

    The theorems show that hydration returns exactly the located rows whatever
    the number of threads, that rows of other graphs cannot influence what an
    authorized caller sees, and that plans and serving roots are complete. *)

From Stdlib Require Import Strings.Byte Strings.String.
From S2P Require Import Prelude Words Ordered Digest Text Locator.

Local Open Scope N_scope.

(** ** Data *)

Record ContextPolicy := {
  policy_id : string;
  include_query_edges : bool;
  include_proof_edges : bool;
  include_named_graph_identity : bool;
  include_provenance : bool;
  allowed_optional_predicate_ids : gset N;
  max_optional_entities : N;
  max_optional_edges : N;
  allowed_hydration_predicate_ids : gset N;
  max_payload_bytes : N;
  allow_optional_context_truncation : bool;
}.

(** [LocatorKey] of the locator crate. *)
Inductive LocatorKey :=
| EntityKey (guid : Uuid)
| EventKey (guid : Uuid)
| RecordKey (guid : Uuid)
| SourceKey (guid : Uuid)
| FactKey (id : list byte).

Global Instance LocatorKey_eq_dec : EqDecision LocatorKey.
Proof. solve_decision. Defined.

(** [LocatorEntry] of the locator crate. *)
Record LocatorEntry := {
  entry_snapshot_id : Uuid;
  schema_hash : list byte;
  ranges : list PhysicalRange;
}.

Record QualifiedKey := {
  key_query_ordinal : N;
  qualified_key : LocatorKey;
  key_multiplicity : N;
}.

Record DehydratedSemanticResult := {
  result_snapshot_id : Uuid;
  plan_id : string;
  coverage_certificate_id : string;
  qualified_keys : list QualifiedKey;
  query_edge_ids : list N;
  named_graph_ids : list N;
  proof_ids : list N;
  requested_predicate_ids : gset N;
}.

Record ResolvedHydrationRange := {
  range_query_ordinal : N;
  range_multiplicity : N;
  range_key_of : LocatorKey;
  range : PhysicalRange;
}.

Record HydrationPlan := {
  plan_snapshot_id : Uuid;
  required_columns : gset N;
  grouped_ranges : gmap (string * N * N) (list ResolvedHydrationRange);
}.

Inductive HydrationError :=
| PredicateForbidden (predicate : N)
| QualifiedKeyMissing (key : LocatorKey)
| HydrationSnapshotMismatch
| LocatorFailed (e : LocatorError)
| EmptyResult
| MissingPayloadShard (partition : N)
| PayloadChecksumMismatch
| InvalidPayloadRow
| RowBudgetExceeded (requested maximum : N)
| InvalidWorkerCount
| WorkerTerminated
| HydrationIo
| Parquet
| Arrow
| InvalidServingRoot.

Definition SERVING_ROOT_FORMAT_VERSION : N := 1.

Record ServingPayloadPartition := {
  serving_partition_index : N;
  manifest_object_key : string;
  manifest_sha256 : string;
  payload_object_key : string;
  payload_sha256 : string;
  payload_bytes : N;
  payload_row_count : N;
}.

Record ServingRootManifest := {
  root_format_version : N;
  root_dataset_id : Uuid;
  root_snapshot_id : Uuid;
  artifact_root_object_key : string;
  artifact_root_sha256 : string;
  dictionary_object_key : string;
  dictionary_sha256 : string;
  source_locator_object_key : string;
  source_locator_sha256 : string;
  binary_locator_object_key : string;
  binary_locator_sha256 : string;
  semantic_content_sha256 : string;
  row_group_rows : N;
  locator_record_count : N;
  partitions : list ServingPayloadPartition;
}.

Record VerifiedPayloadShard := {
  shard_partition_index : N;
  shard_path : string;
  shard_sha256 : list byte;
  shard_byte_count : N;
}.

Record ShardedQualifiedGuid := {
  query_ordinal : N;
  qualified_guid : Uuid;
  multiplicity : N;
}.

Inductive RdfResourceKind := NamedNode | BlankNode.
Inductive RdfGraphScope := DefaultScope | NamedScope.

Definition resource_kind_from_code (value : N) : option RdfResourceKind :=
  if value =? 1 then Some NamedNode else if value =? 2 then Some BlankNode else None.

Definition graph_scope_from_code (value : N) : option RdfGraphScope :=
  if value =? 0 then Some DefaultScope else if value =? 1 then Some NamedScope else None.

Record HydratedShardRow := {
  row_query_ordinal : N;
  row_multiplicity : N;
  row_entity_guid : Uuid;
  row_subject_term : string;
  row_subject_kind : RdfResourceKind;
  row_partition_index : N;
  row_row_group : N;
  row_row_in_group : N;
  row_predicate_id : N;
  row_graph_id : N;
  row_graph_scope : RdfGraphScope;
  row_lexical_value : string;
  row_datatype_iri : string;
  row_language : option string;
}.

Record PendingRow := {
  qualified : ShardedQualifiedGuid;
  locator : ShardLocatorRecord;
}.

(** ** The serving root *)

Definition nonempty (s : string) : bool := negb (bool_decide (s = ""%string)).

(** One partition of the loop; the rows so far. *)
Definition validate_partition (rows : N) (entry : nat * ServingPayloadPartition) : result HydrationError N :=
  let '(expected, p) := entry in
  _ ← fail_if (negb (serving_partition_index p =? N.of_nat expected)
               || negb (nonempty (manifest_object_key p)) || negb (nonempty (payload_object_key p))
               || negb (lower_hex_sha256 (manifest_sha256 p)) || negb (lower_hex_sha256 (payload_sha256 p))) InvalidServingRoot;
  ok_or (checked_add U64_LIMIT rows (payload_row_count p)) InvalidServingRoot.

Definition validate_serving_root (r : ServingRootManifest) : result HydrationError unit :=
  _ ← fail_if (negb (root_format_version r =? SERVING_ROOT_FORMAT_VERSION)
               || negb (nonempty (artifact_root_object_key r)) || negb (nonempty (dictionary_object_key r))
               || negb (nonempty (source_locator_object_key r)) || negb (nonempty (binary_locator_object_key r))
               || bool_decide (partitions r = []) || (row_group_rows r =? 0)
               || negb (lower_hex_sha256 (artifact_root_sha256 r)) || negb (lower_hex_sha256 (dictionary_sha256 r))
               || negb (lower_hex_sha256 (source_locator_sha256 r)) || negb (lower_hex_sha256 (binary_locator_sha256 r))
               || negb (lower_hex_sha256 (semantic_content_sha256 r))) InvalidServingRoot;
  rows ← try_fold validate_partition 0 (enumerate (partitions r));
  fail_if (negb (rows =? locator_record_count r)) InvalidServingRoot.

(** ** Reading payload shards *)

(** A cell of a batch, by the type of its column. *)
Inductive Cell :=
| FixedSizeBinary (value : list byte)
| UInt64 (value : N)
| UInt8 (value : N)
| Utf8 (value : string) (valid : bool)
| OtherType.

Definition Row : Type := gmap string Cell.

Definition fixed_binary_column (name : string) (row : Row) : result HydrationError (list byte) :=
  match row !! name with Some (FixedSizeBinary v) => Ok v | _ => Err InvalidPayloadRow end.
Definition u64_column (name : string) (row : Row) : result HydrationError N :=
  match row !! name with Some (UInt64 v) => Ok v | _ => Err InvalidPayloadRow end.
Definition u8_column (name : string) (row : Row) : result HydrationError N :=
  match row !! name with Some (UInt8 v) => Ok v | _ => Err InvalidPayloadRow end.
(** The text and whether it is valid, that is not null. *)
Definition string_column (name : string) (row : Row) : result HydrationError (string * bool) :=
  match row !! name with Some (Utf8 v valid) => Ok (v, valid) | _ => Err InvalidPayloadRow end.

(** [Uuid::from_slice]. *)
Definition uuid_from_slice (bytes : list byte) : result HydrationError Uuid :=
  if (length bytes =? 16)%nat then Ok bytes else Err InvalidPayloadRow.

Definition subject_term_is_valid (kind : RdfResourceKind) (term : string) : bool :=
  let label := strip_prefix (as_bytes "_:") (as_bytes term) in
  match kind with
  | NamedNode => nonempty term && bool_decide (label = None)
  | BlankNode => match label with Some label => negb (bool_decide (label = [])) | None => false end
  end.

(** [row] of [batch] for the located row [wanted]. *)
Definition payload_row (batch : list Row) (row : nat) (wanted : PendingRow) (expected_snapshot_id : Uuid) :
    result HydrationError HydratedShardRow :=
  row ← ok_or (batch !! row) InvalidPayloadRow;
  subject ← fixed_binary_column "subject_guid128" row;
  '(subject_term, _) ← string_column "subject_term" row;
  subject_kind ← u8_column "subject_resource_kind" row;
  snapshot ← fixed_binary_column "snapshot_id128" row;
  predicate ← u64_column "predicate_id64" row;
  graph ← u64_column "graph_id64" row;
  scope ← u8_column "graph_scope" row;
  '(lexical, _) ← string_column "lexical_value" row;
  '(datatype, _) ← string_column "datatype_iri" row;
  '(language, valid) ← string_column "language" row;
  guid ← uuid_from_slice subject;
  snapshot_id ← uuid_from_slice snapshot;
  kind ← ok_or (resource_kind_from_code subject_kind) InvalidPayloadRow;
  scope ← ok_or (graph_scope_from_code scope) InvalidPayloadRow;
  _ ← fail_if (negb (bool_decide (guid = qualified_guid (qualified wanted)))
               || negb (bool_decide (snapshot_id = expected_snapshot_id))
               || negb (predicate =? locator_predicate_id (locator wanted))
               || negb (graph =? locator_graph_id (locator wanted))
               || negb (subject_term_is_valid kind subject_term)) InvalidPayloadRow;
  Ok {| row_query_ordinal := query_ordinal (qualified wanted); row_multiplicity := multiplicity (qualified wanted);
        row_entity_guid := guid; row_subject_term := subject_term; row_subject_kind := kind;
        row_partition_index := locator_partition_index (locator wanted); row_row_group := locator_row_group (locator wanted);
        row_row_in_group := row_in_group (locator wanted); row_predicate_id := locator_predicate_id (locator wanted);
        row_graph_id := locator_graph_id (locator wanted); row_graph_scope := scope; row_lexical_value := lexical;
        row_datatype_iri := datatype; row_language := match valid with true => Some language | false => None end |}.

(** The [parquet] crate: [try_new] reads the metadata of a file, [build] gives
    the batches of one row group, [stored] is the content of the row groups.
    Each of the calls may fail; the batches of a reader that does not are the
    rows of the row group in order. *)
Class PayloadReader := {
  try_new : list byte -> result HydrationError unit;
  build : list byte -> nat -> result HydrationError (list (result HydrationError (list Row)));
  stored : list byte -> list (list Row);
  build_rows content group batches : build content group = Ok (Ok <$> batches) ->
    stored content !! group = Some (concat batches);
}.

Section Payload.
Context `{Sha256} (fs : string -> option (list byte)).

Definition decode_sha256 (value : string) : result HydrationError (list byte) :=
  _ ← fail_if (negb (lower_hex_sha256 value)) PayloadChecksumMismatch;
  bytes ← ok_or (hex_decode (as_bytes value)) PayloadChecksumMismatch;
  _ ← fail_if (negb (length bytes =? 32)%nat) PayloadChecksumMismatch;
  Ok bytes.

Definition sha256_path (path : string) : result HydrationError (list byte) :=
  content ← ok_or (fs path) HydrationIo; Ok (sha256 content).

Definition verify_payload_shard (partition_index : N) (path expected_sha256 : string) : result HydrationError VerifiedPayloadShard :=
  expected ← decode_sha256 expected_sha256;
  observed ← sha256_path path;
  _ ← fail_if (negb (bool_decide (observed = expected))) PayloadChecksumMismatch;
  content ← ok_or (fs path) HydrationIo;
  Ok {| shard_partition_index := partition_index; shard_path := path; shard_sha256 := observed;
        shard_byte_count := N.of_nat (length content) |}.

(** ** Lanes *)

Context `{PayloadReader} (shards : gmap N VerifiedPayloadShard) (expected_snapshot_id : Uuid).

Definition pending_key (p : PendingRow) : N * N := (row_in_group (locator p), query_ordinal (qualified p)).

(** The inner loop over the pending rows below the end of a batch. *)
Fixpoint drain_batch (batch : list Row) (row_offset batch_end : N) (output : list HydratedShardRow) (pending : list PendingRow) :
    result HydrationError (list HydratedShardRow * list PendingRow) :=
  match pending with
  | [] => Ok (output, [])
  | wanted :: rest =>
      if row_in_group (locator wanted) <? batch_end then
        _ ← fail_if (row_in_group (locator wanted) <? row_offset) InvalidPayloadRow;
        value ← payload_row batch (N.to_nat (row_in_group (locator wanted) - row_offset)) wanted expected_snapshot_id;
        drain_batch batch row_offset batch_end (output ++ [value]) rest
      else Ok (output, pending)
  end.

(** One batch: the output, the rows still pending and the offset. *)
Definition read_batch (st : list HydratedShardRow * list PendingRow * N) (batch : result HydrationError (list Row)) :
    result HydrationError (list HydratedShardRow * list PendingRow * N) :=
  let '(output, pending, row_offset) := st in
  batch ← batch;
  _ ← fail_if (negb (fits U32_LIMIT (N.of_nat (length batch)))) InvalidPayloadRow;
  batch_end ← ok_or (checked_add U32_LIMIT row_offset (N.of_nat (length batch))) InvalidPayloadRow;
  '(output, pending) ← drain_batch batch row_offset batch_end output pending;
  Ok (output, pending, batch_end).

Definition process_group (output : list HydratedShardRow) (group : N * N * list PendingRow) : result HydrationError (list HydratedShardRow) :=
  let '(partition_index, row_group, pending) := group in
  let pending := sort_by_key pending_key pending in
  shard ← ok_or (shards !! partition_index) (MissingPayloadShard partition_index);
  _ ← fail_if (negb (shard_partition_index shard =? partition_index)) (MissingPayloadShard partition_index);
  content ← ok_or (fs (shard_path shard)) HydrationIo;
  _ ← try_new content;
  batches ← build content (N.to_nat row_group);
  '(output, pending, _) ← try_fold read_batch (output, pending, 0) batches;
  _ ← fail_if (negb (bool_decide (pending = []))) InvalidPayloadRow;
  Ok output.

Definition process_hydration_lane (groups : list (N * N * list PendingRow)) : result HydrationError (list HydratedShardRow) :=
  try_fold process_group [] groups.

(** ** Hydration *)

(** [map.entry(key).or_default().push(value)]. *)
Definition push_entry {K V} `{Countable K} (key : K) (value : V) (m : gmap K (list V)) : gmap K (list V) :=
  partial_alter (fun values => Some (default [] values ++ [value])) key m.

(** The records of one key, its number added to the rows requested. *)
Definition locate_key (index : MmapLocatorIndex) (max_rows : N) (authorized_graph_ids : option (gset N))
    (st : gmap (N * N) (list PendingRow) * N) (value : ShardedQualifiedGuid) :
    result HydrationError (gmap (N * N) (list PendingRow) * N) :=
  let '(grouped, requested) := st in
  let missing := QualifiedKeyMissing (EntityKey (qualified_guid value)) in
  let over n := RowBudgetExceeded n max_rows in
  records ← map_err LocatorFailed (lookup_guid index (qualified_guid value));
  _ ← fail_if (bool_decide (records = [])) missing;
  records ← match authorized_graph_ids with
            | Some authorized =>
                let kept := filter (fun r => locator_graph_id r ∈ authorized) records in
                _ ← fail_if (bool_decide (kept = [])) missing; Ok kept
            | None => Ok records
            end;
  count ← ok_or (u64_of_len (length records)) (over U64_MAX);
  requested ← ok_or (checked_add U64_LIMIT requested count) (over U64_MAX);
  _ ← fail_if (max_rows <? requested) (over requested);
  grouped ← try_fold (fun grouped r =>
      _ ← ok_or (shards !! locator_partition_index r) (MissingPayloadShard (locator_partition_index r));
      Ok (push_entry (locator_partition_index r, locator_row_group r) {| qualified := value; locator := r |} grouped)) grouped records;
  Ok (grouped, requested).

(** [lanes[index % lane_count].push(group)]. *)
Definition deal {A} (lane_count : nat) (groups : list A) : list (list A) :=
  foldl (fun lanes e => alter (fun lane => lane ++ [e.2]) (e.1 mod lane_count)%nat lanes) (replicate lane_count []) (enumerate groups).

Definition hydrated_row_key (r : HydratedShardRow) : N * (Uuid * (N * (N * (N * (N * N))))) :=
  (row_query_ordinal r, (row_entity_guid r, (row_partition_index r, (row_row_group r,
     (row_row_in_group r, (row_predicate_id r, row_graph_id r)))))).

Definition hydrate_sharded_payload_internal (index : MmapLocatorIndex) (qualified : list ShardedQualifiedGuid)
    (worker_threads : nat) (max_rows : N) (authorized_graph_ids : option (gset N)) : result HydrationError (list HydratedShardRow) :=
  _ ← fail_if (worker_threads =? 0)%nat InvalidWorkerCount;
  _ ← fail_if (negb (bool_decide (snapshot_id index = expected_snapshot_id))) HydrationSnapshotMismatch;
  _ ← fail_if (bool_decide (qualified = [])) EmptyResult;
  '(grouped, _) ← try_fold (locate_key index max_rows authorized_graph_ids) (∅, 0) qualified;
  let groups := sorted_bindings grouped in
  let lane_count := Nat.max (Nat.min worker_threads (length groups)) 1 in
  lane_results ← try_map process_hydration_lane (deal lane_count groups);
  Ok (sort_by_key hydrated_row_key (concat lane_results)).

Definition hydrate_sharded_payload (index : MmapLocatorIndex) (qualified : list ShardedQualifiedGuid) (worker_threads : nat) (max_rows : N) :
    result HydrationError (list HydratedShardRow) :=
  hydrate_sharded_payload_internal index qualified worker_threads max_rows None.

Definition hydrate_sharded_payload_for_graphs (index : MmapLocatorIndex) (qualified : list ShardedQualifiedGuid) (worker_threads : nat)
    (max_rows : N) (authorized_graph_ids : gset N) : result HydrationError (list HydratedShardRow) :=
  _ ← fail_if (bool_decide (authorized_graph_ids = ∅)) EmptyResult;
  hydrate_sharded_payload_internal index qualified worker_threads max_rows (Some authorized_graph_ids).

End Payload.

(** ** Planning and context *)

Definition range_sort_key (v : ResolvedHydrationRange) : N * N := (first_row (range v), range_query_ordinal v).

Definition plan_key (snapshot : Uuid) (entries : LocatorKey -> option LocatorEntry)
    (grouped : gmap (string * N * N) (list ResolvedHydrationRange)) (q : QualifiedKey) :
    result HydrationError (gmap (string * N * N) (list ResolvedHydrationRange)) :=
  entry ← ok_or (entries (qualified_key q)) (QualifiedKeyMissing (qualified_key q));
  _ ← fail_if (negb (bool_decide (entry_snapshot_id entry = snapshot))) HydrationSnapshotMismatch;
  Ok (foldl (fun grouped r =>
        push_entry (object_uri r, range_row_group r, column_mask_id r)
          {| range_query_ordinal := key_query_ordinal q; range_multiplicity := key_multiplicity q;
             range_key_of := qualified_key q; range := r |} grouped) grouped (ranges entry)).

(** [lookup_batch] is the client. *)
Definition plan_hydration (lookup_batch : Uuid -> list LocatorKey -> result LocatorError (LocatorKey -> option LocatorEntry))
    (r : DehydratedSemanticResult) (policy : ContextPolicy) : result HydrationError HydrationPlan :=
  _ ← fail_if (bool_decide (qualified_keys r = [])) EmptyResult;
  _ ← match sorted_elements (requested_predicate_ids r ∖ allowed_hydration_predicate_ids policy) with
      | predicate :: _ => Err (PredicateForbidden predicate)
      | [] => Ok tt
      end;
  entries ← map_err LocatorFailed (lookup_batch (result_snapshot_id r) (qualified_key <$> qualified_keys r));
  grouped ← try_fold (plan_key (result_snapshot_id r) entries) ∅ (qualified_keys r);
  Ok {| plan_snapshot_id := result_snapshot_id r; required_columns := requested_predicate_ids r;
        grouped_ranges := sort_by_key range_sort_key <$> grouped |}.

Definition truncate_optional_context {T} `{RustOrd T} (optional : list T) (limit : N) : list T * bool :=
  let sorted := sort optional in
  let kept := take (N.to_nat limit) sorted in
  (kept, (length kept <? length sorted)%nat).

(** ** Grouping *)

(** The values under all keys. *)
Definition entries_of {K V} `{Countable K} (m : gmap K (list V)) : list V := concat (map_to_list m).*2.

Lemma push_entry_perm {K V} `{Countable K} (key : K) (value : V) (m : gmap K (list V)) :
  entries_of (push_entry key value m) ≡ₚ value :: entries_of m.
Proof.
  unfold push_entry, entries_of. destruct (m !! key) as [values|] eqn:Hk.
  - assert (partial_alter (fun values => Some (default [] values ++ [value])) key m = <[key := values ++ [value]]> (delete key m)) as ->.
    { rewrite insert_delete_eq. apply partial_alter_ext. intros x <-. by rewrite Hk. }
    rewrite map_to_list_insert by apply lookup_delete_eq.
    rewrite <- (map_to_list_delete m key values Hk). cbn.
    rewrite <- (assoc (++)). cbn. by rewrite Permutation_middle.
  - assert (partial_alter (fun values => Some (default [] values ++ [value])) key m = <[key := [value]]> m) as ->.
    { apply partial_alter_ext. intros x <-. by rewrite Hk. }
    by rewrite map_to_list_insert.
Qed.

Lemma push_entry_keyed {K V} `{Countable K} (f : V -> K) (value : V) (m : gmap K (list V)) :
  map_Forall (fun k values => values <> [] /\ Forall (fun v => f v = k) values) m ->
  map_Forall (fun k values => values <> [] /\ Forall (fun v => f v = k) values) (push_entry (f value) value m).
Proof.
  intros Hm k values. unfold push_entry. destruct (decide (f value = k)) as [<-|Hne].
  - rewrite lookup_partial_alter_eq. intros [= <-]. split; [by destruct (default [] (m !! f value))|].
    apply Forall_app. split; [|by constructor].
    destruct (m !! f value) as [old|] eqn:Ho; [by apply Hm in Ho as [_ Ho]|constructor].
  - rewrite lookup_partial_alter_ne by done. apply Hm.
Qed.

Lemma entries_sorted_bindings {K V} `{Countable K, !RustOrd K} (m : gmap K (list V)) : concat (sorted_bindings m).*2 ≡ₚ entries_of m.
Proof. unfold entries_of. by rewrite sorted_bindings_perm. Qed.

Lemma concat_alter_push {A} (lanes : list (list A)) i x : (i < length lanes)%nat ->
  concat (alter (fun lane => lane ++ [x]) i lanes) ≡ₚ x :: concat lanes.
Proof.
  revert i; induction lanes as [|lane lanes IH]; cbn; [lia|]. intros [|i] Hi; cbn.
  - rewrite <- (assoc (++)). cbn. by rewrite Permutation_middle.
  - change (alter (fun lane0 => lane0 ++ [x]) i lanes) with (alter (fun lane0 : list A => lane0 ++ [x]) i lanes).
    rewrite IH by lia. by rewrite Permutation_middle.
Qed.

(** Every group is in exactly one lane. *)
Lemma deal_perm {A} n (groups : list A) : (0 < n)%nat -> concat (deal n groups) ≡ₚ groups.
Proof.
  intros Hn. unfold deal. rewrite <- (snd_enumerate groups) at 2.
  assert (forall es (lanes : list (list A)), length lanes = n ->
    concat (foldl (fun lanes e => alter (fun lane => lane ++ [e.2]) (e.1 mod n)%nat lanes) lanes es) ≡ₚ es.*2 ++ concat lanes) as Hf.
  { induction es as [|e es IH]; intros lanes Hl; cbn; [done|]. rewrite IH by by rewrite length_alter.
    rewrite concat_alter_push by (rewrite Hl; apply Nat.mod_upper_bound; lia). by rewrite Permutation_middle. }
  rewrite Hf by apply length_replicate. assert (concat (replicate n ([] : list A)) = []) as ->; [|by rewrite app_nil_r].
  clear. induction n; [done|]. done.
Qed.

Lemma try_map_perm {E A B} (f : A -> result E B) l k out : l ≡ₚ k -> try_map f l = Ok out ->
  exists out', try_map f k = Ok out' /\ out ≡ₚ out'.
Proof.
  intros Hp. rewrite try_map_ok. intros (out' & Ho & Hf)%(Permutation_Forall2 Hp). exists out'. by rewrite try_map_ok.
Qed.

(** ** Reading a row group *)

Section Reading.
Context (fs : string -> option (list byte)) `{PayloadReader} (shards : gmap N VerifiedPayloadShard) (snapshot : Uuid).

(** The row of a row group that a pending row addresses. *)
Definition payload_of (group : list Row) (p : PendingRow) : result HydrationError HydratedShardRow :=
  payload_row group (N.to_nat (row_in_group (locator p))) p snapshot.

Lemma payload_row_window pre batch rest p :
  N.of_nat (length pre) <= row_in_group (locator p) < N.of_nat (length pre) + N.of_nat (length batch) ->
  payload_row batch (N.to_nat (row_in_group (locator p) - N.of_nat (length pre))) p snapshot = payload_of (pre ++ batch ++ rest) p.
Proof using Type.
  intros Hp. unfold payload_of, payload_row. rewrite lookup_app_r by lia. rewrite lookup_app_l by lia.
  by replace (N.to_nat (row_in_group (locator p) - N.of_nat (length pre))) with (N.to_nat (row_in_group (locator p)) - length pre)%nat by lia.
Qed.

Lemma payload_of_beyond group p : N.of_nat (length group) <= row_in_group (locator p) -> payload_of group p = Err InvalidPayloadRow.
Proof using Type. intros. unfold payload_of, payload_row. by rewrite lookup_ge_None_2 by lia. Qed.

Definition row_le (p q : PendingRow) : Prop := row_in_group (locator p) <= row_in_group (locator q).

Definition finish (st : list HydratedShardRow * list PendingRow * N) : result HydrationError (list HydratedShardRow) :=
  let '(output, pending, _) := st in
  _ ← fail_if (negb (bool_decide (pending = []))) InvalidPayloadRow; Ok output.

Lemma read_batch_ok output pending offset batch : offset + N.of_nat (length batch) < U32_LIMIT ->
  read_batch snapshot (output, pending, offset) (Ok batch)
  = ('(output, pending) ← drain_batch snapshot batch offset (offset + N.of_nat (length batch)) output pending;
     Ok (output, pending, offset + N.of_nat (length batch))).
Proof using Type.
  intros Hfit. unfold read_batch, fits. cbn [mbind result_bind]. rewrite (proj2 (N.ltb_lt _ _)) by lia. cbn [negb fail_if mbind result_bind].
  by rewrite checked_add_fits by lia.
Qed.

(** Reading the batches of a group one after the other finds exactly the rows
    the pending rows address. *)
Lemma read_batches_exact batches : forall pre output pending,
  StronglySorted row_le pending -> Forall (fun p => N.of_nat (length pre) <= row_in_group (locator p)) pending ->
  N.of_nat (length pre) + N.of_nat (length (concat batches)) < U32_LIMIT ->
  (st ← try_fold (read_batch snapshot) (output, pending, N.of_nat (length pre)) (Ok <$> batches); finish st)
  = (rows ← try_map (payload_of (pre ++ concat batches)) pending; Ok (output ++ rows)).
Proof using Type.
  induction batches as [|batch batches IH]; intros pre output pending Hs Hpre Hfit.
  - cbn. rewrite app_nil_r. destruct pending as [|p pending]; cbn; [by rewrite app_nil_r|].
    apply Forall_cons in Hpre as [Hp _]. by rewrite payload_of_beyond by lia.
  - cbn [fmap list_fmap try_fold concat] in *. rewrite length_app in Hfit.
    rewrite read_batch_ok by lia.
    revert output. induction pending as [|p pending IHp]; intros output.
    + cbn [drain_batch mbind result_bind]. specialize (IH (pre ++ batch) output []). rewrite length_app, Nat2N.inj_add in IH.
      rewrite IH; [by rewrite <- (assoc (++))|constructor|constructor|lia].
    + pose proof Hs as [Hs' Hle]%StronglySorted_inv. pose proof Hpre as [Hp Hpre']%Forall_cons. specialize (IHp Hs' Hpre').
      cbn [drain_batch]. destruct (N.ltb_spec (row_in_group (locator p)) (N.of_nat (length pre) + N.of_nat (length batch))) as [Hlt|Hge].
      * rewrite (proj2 (N.ltb_ge _ _)) by done. cbn [fail_if mbind result_bind].
        rewrite (payload_row_window pre batch (concat batches)) by done. cbn [try_map].
        destruct (payload_of _ p) as [v|e]; cbn [mbind result_bind]; [|done]. rewrite IHp.
        destruct (try_map _ pending); cbn; [by rewrite <- (assoc (++))|done].
      * cbn [mbind result_bind]. specialize (IH (pre ++ batch) output (p :: pending)). rewrite length_app, Nat2N.inj_add, <- (assoc (++)) in IH.
        rewrite IH; [done|by constructor| |lia]. constructor; [done|]. eapply Forall_impl; [exact Hle|]. unfold row_le. lia.
Qed.

(** Batches that are read to the end were all there, and fit. *)
Lemma read_batches_inv batches : forall output pending offset st,
  try_fold (read_batch snapshot) (output, pending, offset) batches = Ok st ->
  offset < U32_LIMIT -> exists bs, batches = Ok <$> bs /\ offset + N.of_nat (length (concat bs)) < U32_LIMIT.
Proof using Type.
  induction batches as [|batch batches IH]; intros output pending offset st Hf Ho; cbn in Hf.
  - exists []. cbn. split; [done|lia].
  - apply result_bind_ok in Hf as ([[out rest] end'] & Hb & Hf). unfold read_batch in Hb. inv_steps. subst batch.
    destruct a2 as [out' rest']. simplify_eq. apply checked_add_some in Ha1 as [-> Hfit].
    destruct (IH _ _ _ _ Hf) as (bs & -> & Hbs); [done|]. exists (a :: bs). cbn. rewrite length_app. split; [done|lia].
Qed.

(** ** Groups and lanes *)

Lemma try_map_of_fmap {E A B C} (f : B -> result E C) (g : A -> B) l : try_map f (g <$> l) = try_map (fun x => f (g x)) l.
Proof using Type. induction l as [|x l IH]; cbn; [done|]. by rewrite IH. Qed.

Lemma try_map_concat_inv {E A B} (f : A -> result E B) ls out : try_map f (concat ls) = Ok out ->
  exists outs, try_map (try_map f) ls = Ok outs /\ concat outs = out.
Proof using Type.
  intros Hf. destruct (try_map_total (try_map f) ls) as [outs Ho].
  - intros l Hl. apply try_map_total. intros x Hx. apply try_map_ok in Hf.
    apply Forall2_Forall_l with (Q := fun x => exists y, f x = Ok y) in Hf; [|apply Forall_true; eauto].
    rewrite Forall_forall in Hf. apply Hf. apply elem_of_concat. eauto.
  - exists outs. split; [done|]. apply try_map_concat in Ho. congruence.
Qed.

Lemma try_map_ext {E A B} (f g : A -> result E B) l : (forall x, x ∈ l -> f x = g x) -> try_map f l = try_map g l.
Proof using Type.
  induction l as [|x l IH]; cbn; intros Hfg; [done|]. rewrite Hfg by left. rewrite IH; [done|]. intros; apply Hfg; by right.
Qed.

(** The stored row that a pending row addresses. *)
Definition stored_row (p : PendingRow) : option Row :=
  shard ← shards !! locator_partition_index (locator p);
  if shard_partition_index shard =? locator_partition_index (locator p) then
    content ← fs (shard_path shard);
    group ← stored content !! N.to_nat (locator_row_group (locator p));
    group !! N.to_nat (row_in_group (locator p))
  else None.

(** What hydration shows of a located row. *)
Definition hydrated (p : PendingRow) : result HydrationError HydratedShardRow :=
  row ← ok_or (stored_row p) InvalidPayloadRow; payload_row [row] 0 p snapshot.

Definition group_key (p : PendingRow) : N * N := (locator_partition_index (locator p), locator_row_group (locator p)).

Lemma payload_of_hydrated shard content group p :
  shards !! locator_partition_index (locator p) = Some shard -> shard_partition_index shard = locator_partition_index (locator p) ->
  fs (shard_path shard) = Some content -> stored content !! N.to_nat (locator_row_group (locator p)) = Some group ->
  payload_of group p = hydrated p.
Proof using Type.
  intros Hs Hi Hc Hg. unfold hydrated, stored_row. rewrite Hs. cbn [mbind option_bind]. rewrite Hi, N.eqb_refl, Hc. cbn [mbind option_bind].
  rewrite Hg. cbn [mbind option_bind]. unfold payload_of, payload_row at 1. by destruct (group !! _).
Qed.

(** A group that can be read: its shard, its file and its batches. *)
Record readable (partition row_group : N) (batches : list (list Row)) : Prop := {
  rd_shard : exists shard content, shards !! partition = Some shard /\ shard_partition_index shard = partition /\
    fs (shard_path shard) = Some content /\ try_new content = Ok tt /\ build content (N.to_nat row_group) = Ok (Ok <$> batches);
  rd_small : N.of_nat (length (concat batches)) < U32_LIMIT;
}.

Definition group_rows (group : N * N * list PendingRow) : result HydrationError (list HydratedShardRow) :=
  try_map hydrated (sort_by_key pending_key group.2).

Lemma pending_sorted pending : StronglySorted row_le (sort_by_key pending_key pending).
Proof using Type.
  pose proof (sort_by_key_sorted pending_key pending) as Hs. induction Hs as [|p ps Hs IH Hp]; constructor; [done|].
  eapply Forall_impl; [exact Hp|]. intros q [Hlt|Heq]%rle_lt_eq; unfold row_le; [|injection Heq; lia].
  apply then_cmp_lt in Hlt as [Hlt|[Heq _]].
  - apply (proj1 (N.compare_lt_iff (row_in_group (locator p)) (row_in_group (locator q)))) in Hlt. lia.
  - apply cmp_eq in Heq. cbn in Heq. lia.
Qed.

Lemma process_readable output partition row_group pending batches :
  readable partition row_group batches -> Forall (fun p => group_key p = (partition, row_group)) pending ->
  process_group fs shards snapshot output (partition, row_group, pending)
  = (rows ← group_rows (partition, row_group, pending); Ok (output ++ rows)).
Proof using Type.
  intros [(shard & content & Hs & Hi & Hc & Hn & Hb) Hsmall] Hk. unfold process_group. rewrite Hs. cbn [ok_or mbind result_bind].
  rewrite Hi, N.eqb_refl. cbn [negb fail_if mbind result_bind]. rewrite Hc. cbn [ok_or mbind result_bind]. rewrite Hn. cbn [mbind result_bind].
  rewrite Hb. cbn [mbind result_bind].
  pose proof (read_batches_exact batches [] output (sort_by_key pending_key pending) (pending_sorted _)) as Hr.
  change (N.of_nat (length [])) with 0 in Hr. cbn [app] in Hr. unfold finish in Hr. rewrite Hr; [|apply Forall_forall; lia|lia].
  unfold group_rows. cbn [snd]. f_equal. apply try_map_ext. intros p Hp. rewrite sort_by_key_perm in Hp.
  rewrite Forall_forall in Hk. apply Hk in Hp as [= Hp1 Hp2].
  apply (payload_of_hydrated shard content); rewrite ?Hp1, ?Hp2; [done..|]. by apply build_rows.
Qed.

Lemma process_inv output partition row_group pending out : process_group fs shards snapshot output (partition, row_group, pending) = Ok out ->
  exists batches, readable partition row_group batches.
Proof using Type.
  unfold process_group. intros Hp. inv_steps. bool_prop. destruct a2.
  apply read_batches_inv in Ha4 as (bs & -> & Hfit); [|done]. exists bs. split; [|lia]. by exists a, a1.
Qed.

(** The rows of groups that can be read, in any arrangement. *)
Definition all_readable (groups : list (N * N * list PendingRow)) : Prop :=
  Forall (fun g => exists batches, readable g.1.1 g.1.2 batches) groups.

Definition keyed (groups : list (N * N * list PendingRow)) : Prop :=
  Forall (fun g => Forall (fun p => group_key p = g.1) g.2) groups.

Lemma lane_readable groups : all_readable groups -> keyed groups -> forall output,
  try_fold (process_group fs shards snapshot) output groups = (rows ← try_map group_rows groups; Ok (output ++ concat rows)).
Proof using Type.
  intros Hr Hk. induction groups as [|[[part rg] pending] groups IH]; intros output; cbn [try_fold try_map]; [cbn; by rewrite app_nil_r|].
  apply Forall_cons in Hr as [[batches Hb] Hr], Hk as [Hp Hk]. rewrite (process_readable _ _ _ _ batches) by done.
  destruct (group_rows _) as [rows|e]; cbn [mbind result_bind]; [|done]. rewrite IH by done.
  destruct (try_map group_rows groups); cbn; [by rewrite (assoc (++))|done].
Qed.

Lemma lane_inv groups : forall output out, try_fold (process_group fs shards snapshot) output groups = Ok out -> all_readable groups.
Proof using Type.
  induction groups as [|[[part rg] pending] groups IH]; intros output out Hf; cbn in Hf; [constructor|].
  apply result_bind_ok in Hf as (o & Hg & Hf). constructor; [by eapply process_inv|by eapply IH].
Qed.

(** The pending rows of groups, in the order they are read. *)
Definition reading_order (groups : list (N * N * list PendingRow)) : list PendingRow :=
  concat ((fun g => sort_by_key pending_key g.2) <$> groups).

Lemma reading_order_perm groups : reading_order groups ≡ₚ concat groups.*2.
Proof using Type.
  unfold reading_order. induction groups as [|g groups IH]; cbn; [done|]. by rewrite IH, sort_by_key_perm.
Qed.

Lemma reading_order_concat lanes : concat (reading_order <$> lanes) = reading_order (concat lanes).
Proof using Type. induction lanes as [|lane lanes IH]; cbn; [done|]. rewrite IH. unfold reading_order. by rewrite fmap_app, concat_app. Qed.

Lemma lane_ok groups out : keyed groups ->
  process_hydration_lane fs shards snapshot groups = Ok out <-> all_readable groups /\ try_map hydrated (reading_order groups) = Ok out.
Proof using Type.
  intros Hk. unfold process_hydration_lane. split.
  - intros Hf. pose proof (lane_inv _ _ _ Hf) as Hr. split; [done|]. rewrite lane_readable in Hf by done. inv_ok Hf. simplify_eq. cbn [app].
    apply try_map_concat. by rewrite try_map_of_fmap.
  - intros [Hr Hm]. rewrite lane_readable by done. apply try_map_concat_inv in Hm as (outs & Hm & <-).
    rewrite try_map_of_fmap in Hm. unfold group_rows. by rewrite Hm.
Qed.

(** The lanes together succeed exactly when every group can be read and every
    pending row shows a row, whatever the arrangement. *)
Lemma lanes_exact lanes groups rows : concat lanes ≡ₚ groups -> keyed groups ->
  (exists results, try_map (process_hydration_lane fs shards snapshot) lanes = Ok results /\ concat results ≡ₚ rows) <->
  all_readable groups /\ exists rows', try_map hydrated (concat groups.*2) = Ok rows' /\ rows' ≡ₚ rows.
Proof using Type.
  intros Hl Hk. assert (Forall keyed lanes) as Hkl by (apply Forall_concat; unfold keyed in *; by rewrite Hl).
  assert (reading_order (concat lanes) ≡ₚ concat groups.*2) as Hord by by rewrite reading_order_perm, Hl.
  split.
  - intros (results & Hm & Hp). rewrite try_map_ok in Hm.
    assert (Forall2 (fun lane r => all_readable lane /\ try_map hydrated (reading_order lane) = Ok r) lanes results) as Hf.
    { clear -Hm Hkl. induction Hm as [|lane r lanes results Hlane Hm IH]; [constructor|].
      apply Forall_cons in Hkl as [? ?]. constructor; [by apply lane_ok|by apply IH]. }
    split.
    + unfold all_readable in *. rewrite <- Hl. apply Forall_concat. eapply Forall2_Forall_l; [exact Hf|]. apply Forall_true. by intros ?? [? _].
    + assert (try_map (try_map hydrated) (reading_order <$> lanes) = Ok results) as Hc%try_map_concat.
      { rewrite try_map_of_fmap, try_map_ok. eapply Forall2_impl; [exact Hf|]. by intros ?? [_ ?]. }
      rewrite reading_order_concat in Hc. destruct (try_map_perm _ _ _ _ Hord Hc) as (rows' & Hr & Hp'). exists rows'. split; [done|]. by rewrite <- Hp'.
  - intros (Hr & rows' & Hm & Hp). symmetry in Hord. destruct (try_map_perm _ _ _ _ Hord Hm) as (rows2 & Hm2 & Hp2).
    rewrite <- reading_order_concat in Hm2. apply try_map_concat_inv in Hm2 as (results & Hm2 & <-). exists results. split; [|by rewrite <- Hp2].
    assert (Forall all_readable lanes) as Hrl by (apply Forall_concat; unfold all_readable in *; by rewrite Hl).
    rewrite try_map_of_fmap, try_map_ok in Hm2. rewrite try_map_ok. clear -Hm2 Hkl Hrl.
    induction Hm2 as [|lane r lanes results Hlane Hm IH]; [constructor|].
    apply Forall_cons in Hkl as [? ?], Hrl as [? ?]. constructor; [by apply lane_ok|by apply IH].
Qed.

End Reading.

(** ** What a hydrated row is *)

(** The stored row [row] is the payload of the located row [p], shown as [h]. *)
Record shows (snapshot : Uuid) (row : Row) (p : PendingRow) (h : HydratedShardRow) : Prop := {
  shown_guid : row !! "subject_guid128"%string = Some (FixedSizeBinary (row_entity_guid h));
  shown_snapshot : row !! "snapshot_id128"%string = Some (FixedSizeBinary snapshot);
  shown_predicate : row !! "predicate_id64"%string = Some (UInt64 (row_predicate_id h));
  shown_graph : row !! "graph_id64"%string = Some (UInt64 (row_graph_id h));
  shown_term : exists valid, row !! "subject_term"%string = Some (Utf8 (row_subject_term h) valid);
  shown_kind : exists code, row !! "subject_resource_kind"%string = Some (UInt8 code) /\
    resource_kind_from_code code = Some (row_subject_kind h);
  shown_scope : exists code, row !! "graph_scope"%string = Some (UInt8 code) /\ graph_scope_from_code code = Some (row_graph_scope h);
  shown_lexical : exists valid, row !! "lexical_value"%string = Some (Utf8 (row_lexical_value h) valid);
  shown_datatype : exists valid, row !! "datatype_iri"%string = Some (Utf8 (row_datatype_iri h) valid);
  shown_language : exists text valid, row !! "language"%string = Some (Utf8 text valid) /\
    row_language h = if valid then Some text else None;
  shown_widths : length (row_entity_guid h) = 16%nat /\ length snapshot = 16%nat;
  shown_label : subject_term_is_valid (row_subject_kind h) (row_subject_term h) = true;
  shown_solution : (row_query_ordinal h, row_multiplicity h, row_entity_guid h)
    = (query_ordinal (qualified p), multiplicity (qualified p), qualified_guid (qualified p));
  shown_address : (row_partition_index h, row_row_group h, row_row_in_group h, row_predicate_id h, row_graph_id h)
    = (locator_partition_index (locator p), locator_row_group (locator p), row_in_group (locator p),
       locator_predicate_id (locator p), locator_graph_id (locator p));
}.

Lemma fixed_binary_ok name row v : fixed_binary_column name row = Ok v <-> row !! name = Some (FixedSizeBinary v).
Proof. unfold fixed_binary_column. destruct (row !! name) as [[]|]; naive_solver. Qed.
Lemma u64_column_ok name row v : u64_column name row = Ok v <-> row !! name = Some (UInt64 v).
Proof. unfold u64_column. destruct (row !! name) as [[]|]; naive_solver. Qed.
Lemma u8_column_ok name row v : u8_column name row = Ok v <-> row !! name = Some (UInt8 v).
Proof. unfold u8_column. destruct (row !! name) as [[]|]; naive_solver. Qed.
Lemma string_column_ok name row v : string_column name row = Ok v <-> row !! name = Some (Utf8 v.1 v.2).
Proof. unfold string_column. destruct v. destruct (row !! name) as [[]|]; naive_solver. Qed.
Lemma uuid_from_slice_ok bytes v : uuid_from_slice bytes = Ok v <-> v = bytes /\ length bytes = 16%nat.
Proof. unfold uuid_from_slice. destruct (Nat.eqb_spec (length bytes) 16); naive_solver. Qed.

Lemma payload_row_shows snapshot row p h : payload_row [row] 0 p snapshot = Ok h <-> shows snapshot row p h.
Proof.
  unfold payload_row. cbn [lookup list_lookup ok_or mbind result_bind]. split.
  - intros Hp. inv_steps.
    repeat match goal with H : (let '_ := ?x in _) = Ok _ |- _ => destruct x; inv_steps end.
    repeat match goal with
      | H : fixed_binary_column _ _ = Ok _ |- _ => apply fixed_binary_ok in H
      | H : u64_column _ _ = Ok _ |- _ => apply u64_column_ok in H
      | H : u8_column _ _ = Ok _ |- _ => apply u8_column_ok in H
      | H : string_column _ _ = Ok _ |- _ => apply string_column_ok in H; cbn in H
      | H : uuid_from_slice _ = Ok _ |- _ => apply uuid_from_slice_ok in H as [-> ?]
      end.
    bool_prop. simplify_eq. split; cbn; eauto; try congruence.
    all: try (eexists _, _; by repeat case_match).
  - intros [Hg Hs Hp Hgr [? Ht] [? [Hk Hk']] [? [Hsc Hsc']] [? Hl] [? Hd] (? & ? & Hla & Hla') [Hw1 Hw2] Hv Hsol Hadd].
    apply fixed_binary_ok in Hg, Hs. apply u64_column_ok in Hp, Hgr. apply u8_column_ok in Hk, Hsc.
    apply (string_column_ok _ _ (_, _)) in Ht, Hl, Hd, Hla. rewrite Hg, Ht, Hk, Hs, Hp, Hgr, Hsc, Hl, Hd, Hla. cbn [mbind result_bind].
    rewrite (proj2 (uuid_from_slice_ok (row_entity_guid h) _)) by done. rewrite (proj2 (uuid_from_slice_ok snapshot _)) by done. cbn [mbind result_bind].
    rewrite Hk', Hsc'. cbn [ok_or mbind result_bind]. injection Hsol as ? ? Hgd. injection Hadd as ? ? ? ? ?.
    rewrite Hv. rewrite !bool_decide_eq_true_2 by done. rewrite !(proj2 (N.eqb_eq _ _)) by done. cbn [negb orb fail_if mbind result_bind].
    f_equal. destruct h; cbn in *. subst. by destruct (_ : bool).
Qed.

(** ** Locating the rows of an answer *)

(** Whether a caller may see a record. *)
Definition visible (authorized : option (gset N)) (r : ShardLocatorRecord) : Prop :=
  match authorized with Some graphs => locator_graph_id r ∈ graphs | None => True end.

Global Instance visible_dec authorized r : Decision (visible authorized r).
Proof. unfold visible. destruct authorized; apply _. Defined.

(** The visible rows of one key, and those of all the keys. *)
Definition located_of (rs : list ShardLocatorRecord) (authorized : option (gset N)) (q : ShardedQualifiedGuid) : list PendingRow :=
  Build_PendingRow q <$> filter (visible authorized) (filter (fun r => entity_guid r = qualified_guid q) rs).

Definition located rs authorized (qs : list ShardedQualifiedGuid) : list PendingRow := qs ≫= located_of rs authorized.

Section Locating.
Context (shards : gmap N VerifiedPayloadShard) (index : MmapLocatorIndex) (max_rows : N) (Hmax : max_rows < U64_LIMIT).

Definition push_pending (grouped : gmap (N * N) (list PendingRow)) (p : PendingRow) : gmap (N * N) (list PendingRow) :=
  push_entry (group_key p) p grouped.

Definition has_shard (p : PendingRow) : Prop := is_Some (shards !! locator_partition_index (locator p)).

(** What remains of a key once its visible records are known. *)
Definition admit_records (value : ShardedQualifiedGuid) (st : gmap (N * N) (list PendingRow) * N) (records : list ShardLocatorRecord) :
    result HydrationError (gmap (N * N) (list PendingRow) * N) :=
  _ ← fail_if (bool_decide (records = [])) (QualifiedKeyMissing (EntityKey (qualified_guid value)));
  count ← ok_or (u64_of_len (length records)) (RowBudgetExceeded U64_MAX max_rows);
  requested ← ok_or (checked_add U64_LIMIT st.2 count) (RowBudgetExceeded U64_MAX max_rows);
  _ ← fail_if (max_rows <? requested) (RowBudgetExceeded requested max_rows);
  grouped ← try_fold (fun grouped r =>
      _ ← ok_or (shards !! locator_partition_index r) (MissingPayloadShard (locator_partition_index r));
      Ok (push_entry (locator_partition_index r, locator_row_group r) {| qualified := value; locator := r |} grouped)) st.1 records;
  Ok (grouped, requested).

(** Invisible records change nothing, not even the error. *)
Lemma locate_key_admits authorized st value records : lookup_guid index (qualified_guid value) = Ok records ->
  locate_key shards index max_rows authorized st value = admit_records value st (filter (visible authorized) records).
Proof using Type.
  intros Hl. unfold locate_key, admit_records. destruct st as [grouped requested]. rewrite Hl. cbn [map_err mbind result_bind fst snd].
  destruct authorized as [graphs|].
  - destruct records as [|r records]; [done|]. rewrite (bool_decide_eq_false_2 (r :: records = [])) by done. cbn [fail_if mbind result_bind].
    change (filter (fun r0 => locator_graph_id r0 ∈ graphs) (r :: records)) with (filter (visible (Some graphs)) (r :: records)).
    by destruct (bool_decide (filter _ _ = [])).
  - rewrite (list_filter_full (visible None) records) by done. by destruct (bool_decide (records = [])).
Qed.

Lemma push_located_records value records : forall grouped grouped',
  try_fold (fun grouped r =>
      _ ← ok_or (shards !! locator_partition_index r) (MissingPayloadShard (locator_partition_index r));
      Ok (push_entry (locator_partition_index r, locator_row_group r) {| qualified := value; locator := r |} grouped)) grouped records = Ok grouped'
  <-> Forall has_shard (Build_PendingRow value <$> records) /\ grouped' = foldl push_pending grouped (Build_PendingRow value <$> records).
Proof using Type.
  induction records as [|r records IH]; intros grouped grouped'; cbn [try_fold fmap list_fmap foldl].
  - naive_solver.
  - rewrite Forall_cons. unfold has_shard at 1. cbn [locator]. destruct (shards !! locator_partition_index r); cbn [ok_or mbind result_bind].
    + rewrite IH. unfold push_pending at 3, group_key. cbn [locator]. naive_solver.
    + split; [done|]. by intros [[[] _] _].
Qed.

Lemma admit_records_ok value st records st' : admit_records value st records = Ok st' <->
  records <> [] /\ st'.2 = st.2 + N.of_nat (length records) /\ st'.2 <= max_rows /\
  Forall has_shard (Build_PendingRow value <$> records) /\ st'.1 = foldl push_pending st.1 (Build_PendingRow value <$> records).
Proof using Hmax.
  destruct st as [grouped n], st' as [grouped' n']. unfold admit_records. cbn [fst snd]. rewrite <- push_located_records. split.
  - intros Ha. inv_steps. bool_prop. apply u64_of_len_some in Ha1 as [-> ?]. apply checked_add_some in Ha2 as [-> ?]. simplify_eq. split_and!; auto; lia.
  - intros (Hne & -> & Hle & Hf). rewrite bool_decide_eq_false_2 by done. cbn [fail_if mbind result_bind].
    assert (u64_of_len (length records) = Some (N.of_nat (length records))) as -> by (apply u64_of_len_some; split; [done|lia]).
    cbn [ok_or mbind result_bind]. rewrite checked_add_fits by lia. cbn [ok_or mbind result_bind].
    rewrite (proj2 (N.ltb_ge _ _)) by done. cbn [fail_if mbind result_bind]. by rewrite Hf.
Qed.

Context (rs : list ShardLocatorRecord) (authorized : option (gset N)).
Context (lookups : forall guid, lookup_guid index guid = Ok (filter (fun r => entity_guid r = guid) rs)).

Lemma locate_all qs : forall st st', st.2 <= max_rows ->
  try_fold (locate_key shards index max_rows authorized) st qs = Ok st' <->
  Forall (fun q => located_of rs authorized q <> []) qs /\ st'.2 = st.2 + N.of_nat (length (located rs authorized qs)) /\
  st'.2 <= max_rows /\ Forall has_shard (located rs authorized qs) /\ st'.1 = foldl push_pending st.1 (located rs authorized qs).
Proof using Hmax lookups.
  induction qs as [|q qs IH]; intros st st' Hst; cbn [try_fold].
  - unfold located. cbn. destruct st, st'; cbn in *. rewrite N.add_0_r. naive_solver.
  - rewrite (locate_key_admits authorized _ _ _ (lookups _)). set (records := filter _ (filter _ rs)).
    assert (located_of rs authorized q = Build_PendingRow q <$> records) as Hq by done.
    assert (located rs authorized (q :: qs) = (Build_PendingRow q <$> records) ++ located rs authorized qs) as -> by done.
    rewrite length_app, length_fmap, Forall_app, Forall_cons, foldl_app, Hq.
    assert (Build_PendingRow q <$> records <> [] <-> records <> []) as -> by by destruct records.
    rewrite result_bind_ok. setoid_rewrite admit_records_ok. split.
    + intros (mid & (Hne & Hn & Hle & Hs & Hg) & Hr). apply IH in Hr as (? & Hn' & ? & ? & Hg'); [|done].
      rewrite <- Hg. split_and!; auto. lia.
    + intros ([Hne Hr] & Hn & Hle & [Hs Hs'] & Hg). exists (foldl push_pending st.1 (Build_PendingRow q <$> records), st.2 + N.of_nat (length records)).
      split; [split_and!; cbn; auto; lia|]. apply IH; cbn; [lia|]. split_and!; auto. lia.
Qed.
End Locating.

(** The groups hold exactly the located rows, each under its key. *)
Lemma push_pending_perm l : forall grouped, entries_of (foldl push_pending grouped l) ≡ₚ l ++ entries_of grouped.
Proof.
  induction l as [|p l IH]; intros grouped; cbn [foldl]; [done|]. rewrite IH. unfold push_pending.
  rewrite push_entry_perm. cbn. by rewrite Permutation_middle.
Qed.

Lemma push_pending_keyed l : forall grouped,
  map_Forall (fun k values => values <> [] /\ Forall (fun p => group_key p = k) values) grouped ->
  map_Forall (fun k values => values <> [] /\ Forall (fun p => group_key p = k) values) (foldl push_pending grouped l).
Proof.
  induction l as [|p l IH]; intros grouped Hg; cbn [foldl]; [done|]. apply IH. by apply push_entry_keyed.
Qed.

(** ** Claims *)

Section Claims.
Context (fs : string -> option (list byte)) `{PayloadReader} (shards : gmap N VerifiedPayloadShard) (snapshot : Uuid).

Lemma sorted_entry (grouped : gmap (N * N) (list PendingRow)) g : g ∈ sorted_bindings grouped <-> grouped !! g.1 = Some g.2.
Proof using Type. destruct g as [k l]. apply elem_of_sorted_bindings. Qed.

Lemma all_readable_located qs :
  all_readable fs shards (sorted_bindings (foldl push_pending ∅ qs)) <->
  Forall (fun p => exists batches, readable fs shards (group_key p).1 (group_key p).2 batches) qs.
Proof using Type.
  pose proof (push_pending_perm qs ∅) as Hp. unfold entries_of at 2 in Hp. rewrite map_to_list_empty in Hp. cbn in Hp. rewrite app_nil_r in Hp.
  pose proof (push_pending_keyed qs ∅ (map_Forall_empty _)) as Hk. set (m := foldl push_pending ∅ qs) in *.
  unfold all_readable. rewrite <- Hp, !Forall_forall. split.
  - intros Hr p Hin. rewrite <- entries_sorted_bindings in Hin. apply elem_of_concat in Hin as (l & [g [-> Hg]]%list_elem_of_fmap & Hpin).
    pose proof (Hr g Hg) as Hb. apply sorted_entry in Hg. apply Hk in Hg as [_ Hg]. rewrite Forall_forall in Hg. by rewrite (Hg p Hpin).
  - intros Hr g Hg. pose proof (proj1 (sorted_entry _ _) Hg) as Hl. apply Hk in Hl as [Hne Hl].
    destruct g.2 as [|p l] eqn:Hg2; [done|]. apply Forall_cons in Hl as [Hgk _]. rewrite <- Hgk. apply Hr.
    rewrite <- entries_sorted_bindings. apply elem_of_concat. exists g.2. split; [by apply list_elem_of_fmap_2|]. rewrite Hg2. left.
Qed.

Lemma grouped_keyed qs : keyed (sorted_bindings (foldl push_pending ∅ qs)).
Proof using Type.
  pose proof (push_pending_keyed qs ∅ (map_Forall_empty _)) as Hk. apply Forall_forall. intros g Hg%sorted_entry.
  by apply Hk in Hg as [_ ?].
Qed.

Lemma grouped_entries qs : concat (sorted_bindings (foldl push_pending ∅ qs)).*2 ≡ₚ qs.
Proof using Type.
  rewrite entries_sorted_bindings, push_pending_perm. unfold entries_of. rewrite map_to_list_empty. cbn. by rewrite app_nil_r.
Qed.

Lemma hydrated_shows p h : hydrated fs shards snapshot p = Ok h <-> exists row, stored_row fs shards p = Some row /\ shows snapshot row p h.
Proof using Type.
  unfold hydrated. rewrite result_bind_ok. setoid_rewrite ok_or_ok. by setoid_rewrite payload_row_shows.
Qed.

Lemma hydrate_cases index qs threads max_rows authorized output :
  hydrate_sharded_payload_internal fs shards snapshot index qs threads max_rows authorized = Ok output <->
  threads <> 0%nat /\ snapshot_id index = snapshot /\ qs <> [] /\
  exists st results, try_fold (locate_key shards index max_rows authorized) (∅, 0) qs = Ok st /\
    try_map (process_hydration_lane fs shards snapshot)
      (deal (Nat.max (Nat.min threads (length (sorted_bindings st.1))) 1) (sorted_bindings st.1)) = Ok results /\
    output = sort_by_key hydrated_row_key (concat results).
Proof using Type.
  unfold hydrate_sharded_payload_internal. split.
  - intros Hh. inv_steps. bool_prop. destruct a2 as [grouped n]. inv_steps. split_and!; auto. exists (grouped, n). eauto.
  - intros (Ht & Hs & Hq & [grouped n] & results & Hl & Hr & ->). rewrite (proj2 (Nat.eqb_neq _ _) Ht). cbn [fail_if mbind result_bind].
    rewrite (bool_decide_eq_true_2 (snapshot_id index = snapshot)) by done. rewrite (bool_decide_eq_false_2 (qs = [])) by done. cbn [negb fail_if mbind result_bind].
    rewrite Hl. cbn [mbind result_bind fst] in *. by rewrite Hr.
Qed.

(** The rows shown by located rows, in any order. *)
Definition shown (p : PendingRow) (h : HydratedShardRow) : Prop :=
  exists row, stored_row fs shards p = Some row /\ shows snapshot row p h.

Lemma hydrated_rows ps l rows : l ≡ₚ ps ->
  (exists rows', try_map (hydrated fs shards snapshot) l = Ok rows' /\ rows' ≡ₚ rows) <->
  exists rows', rows' ≡ₚ rows /\ Forall2 shown ps rows'.
Proof using Type.
  assert (forall k out, try_map (hydrated fs shards snapshot) k = Ok out <-> Forall2 shown k out) as Hm.
  { intros k out. rewrite try_map_ok. split; intros Hf; (eapply Forall2_impl; [exact Hf|]); intros p h; apply hydrated_shows. }
  intros Hp. split.
  - intros (r1 & H1 & Hr). destruct (try_map_perm _ _ _ _ Hp H1) as (r2 & H2 & Hr2). exists r2. split; [by rewrite <- Hr2|by apply Hm].
  - intros (r1 & Hr & H1%Hm). symmetry in Hp. destruct (try_map_perm _ _ _ _ Hp H1) as (r2 & H2 & Hr2). exists r2. split; [done|by rewrite <- Hr2].
Qed.

Lemma hydrate_exact index rs qs threads max_rows authorized rows :
  (forall guid, lookup_guid index guid = Ok (filter (fun r => entity_guid r = guid) rs)) -> snapshot_id index = snapshot ->
  threads <> 0%nat -> max_rows < U64_LIMIT ->
  (exists output, hydrate_sharded_payload_internal fs shards snapshot index qs threads max_rows authorized = Ok output /\ output ≡ₚ rows) <->
  qs <> [] /\ Forall (fun q => located_of rs authorized q <> []) qs /\
  N.of_nat (length (located rs authorized qs)) <= max_rows /\
  Forall (fun p => exists batches, readable fs shards (locator_partition_index (locator p)) (locator_row_group (locator p)) batches)
    (located rs authorized qs) /\
  exists rows', rows' ≡ₚ rows /\ Forall2 shown (located rs authorized qs) rows'.
Proof using Type.
  intros Hl Hsnap Ht Hmax. set (l := located rs authorized qs). set (m := foldl push_pending ∅ l).
  set (lanes := deal (Nat.max (Nat.min threads (length (sorted_bindings m))) 1) (sorted_bindings m)).
  assert (concat lanes ≡ₚ sorted_bindings m) as Hlanes by (apply deal_perm; lia).
  pose proof (lanes_exact fs shards snapshot lanes (sorted_bindings m) rows Hlanes (grouped_keyed _)) as Hx.
  rewrite (all_readable_located l : all_readable fs shards (sorted_bindings m) <-> _) in Hx.
  rewrite (hydrated_rows l _ rows (grouped_entries l : concat (sorted_bindings m).*2 ≡ₚ l)) in Hx.
  assert (forall st, try_fold (locate_key shards index max_rows authorized) (∅, 0) qs = Ok st <->
    Forall (fun q => located_of rs authorized q <> []) qs /\ st.2 = N.of_nat (length l) /\ st.2 <= max_rows /\
    Forall (has_shard shards) l /\ st.1 = m) as Hloc.
  { intros st. rewrite (locate_all shards index max_rows Hmax rs authorized Hl); [done|apply N.le_0_l]. }
  split.
  - intros (output & (_ & _ & Hq & st & results & (Hne & Hn & Hle & _ & Hm)%Hloc & Hr & ->)%hydrate_cases & Hp).
    rewrite Hm in Hr. rewrite Hn in Hle. rewrite sort_by_key_perm in Hp. destruct (proj1 Hx) as [Hread Hrows]; [by exists results|]. by split_and!.
  - intros (Hq & Hne & Hle & Hread & Hrows). destruct (proj2 Hx (conj Hread Hrows)) as (results & Hr & Hp).
    exists (sort_by_key hydrated_row_key (concat results)). split; [|by rewrite sort_by_key_perm]. apply hydrate_cases. split_and!; [done..|].
    exists (m, N.of_nat (length l)), results. split_and!; [|exact Hr|done]. apply Hloc. split_and!; [done..| |done].
    eapply Forall_impl; [exact Hread|]. intros p (batches & [(shard & content & Hshard & _) _]). by exists shard.
Qed.

(** Hydration is exact.  Over a locator that opens, whatever the number of
    threads, a request succeeds exactly when it asks for something, every key
    has a row the caller may see, these rows fit the budget, their row groups
    can be read, and each of them stores the payload its record says, of the
    snapshot.  The result is then, up to the order of equal keys, one row per
    located record, with the ordinal and multiplicity of its solution, in
    ascending order. *)
Theorem hydration_is_exact `{Sha256} (path : option (list byte)) (binary source : string) (index : MmapLocatorIndex) :
  open_locator path binary snapshot source = Ok index ->
  exists digest rs, path = Some (locator_file snapshot digest rs) /\ StronglySorted rlt rs /\
    forall qs threads max_rows authorized, threads <> 0%nat -> max_rows < U64_LIMIT ->
    let run := hydrate_sharded_payload_internal fs shards snapshot index qs threads max_rows authorized in
    (forall output, run = Ok output -> StronglySorted (key_le hydrated_row_key) output) /\
    forall rows, (exists output, run = Ok output /\ output ≡ₚ rows) <->
      qs <> [] /\ Forall (fun q => located_of rs authorized q <> []) qs /\
      N.of_nat (length (located rs authorized qs)) <= max_rows /\
      Forall (fun p => exists batches, readable fs shards (locator_partition_index (locator p)) (locator_row_group (locator p)) batches)
        (located rs authorized qs) /\
      exists rows', rows' ≡ₚ rows /\
        Forall2 shown (located rs authorized qs) rows'.
Proof using Type.
  intros Ho. destruct (open_inv _ _ _ _ _ Ho) as (digest & rs & Hpath & _ & _ & Hs & Hd & Hg & Hsorted & Hfit & Hindex).
  exists digest, rs. split_and!; [done..|]. intros qs threads max_rows authorized Ht Hmax run. split.
  - intros output (_ & _ & _ & st & results & _ & _ & ->)%hydrate_cases. apply sort_by_key_sorted.
  - intros rows. apply hydrate_exact; [|by subst index|done..]. intros guid. subst index. apply lookup_guid_spec; [|done]. by apply opened_reads.
Qed.

(** Other graphs are invisible.  When two locators of one snapshot give
    for every key the same records of the authorized graphs, an authorized
    request has the same outcome over both: rows, budget and every error are
    unaffected by records of other graphs. *)
Theorem unauthorized_graphs_are_invisible (index1 index2 : MmapLocatorIndex) (qs : list ShardedQualifiedGuid)
    (threads : nat) (max_rows : N) (graphs : gset N) :
  snapshot_id index1 = snapshot_id index2 ->
  (forall guid, exists r1 r2, lookup_guid index1 guid = Ok r1 /\ lookup_guid index2 guid = Ok r2 /\
    filter (fun r => locator_graph_id r ∈ graphs) r1 = filter (fun r => locator_graph_id r ∈ graphs) r2) ->
  hydrate_sharded_payload_for_graphs fs shards snapshot index1 qs threads max_rows graphs
  = hydrate_sharded_payload_for_graphs fs shards snapshot index2 qs threads max_rows graphs.
Proof using Type.
  intros Hs Hl. assert (forall st, try_fold (locate_key shards index1 max_rows (Some graphs)) st qs
    = try_fold (locate_key shards index2 max_rows (Some graphs)) st qs) as Hf.
  { induction qs as [|q qs' IH]; intros st; cbn [try_fold]; [done|]. destruct (Hl (qualified_guid q)) as (r1 & r2 & H1 & H2 & He).
    rewrite (locate_key_admits _ _ _ _ _ _ _ H1), (locate_key_admits _ _ _ _ _ _ _ H2).
    change (filter (visible (Some graphs)) r1 = filter (visible (Some graphs)) r2) in He. rewrite He.
    destruct (admit_records _ _ _ _ _); cbn [mbind result_bind]; [apply IH|done]. }
  unfold hydrate_sharded_payload_for_graphs, hydrate_sharded_payload_internal. by rewrite Hs, Hf.
Qed.
End Claims.

(** ** Plans *)

Section Plans.
Context (entries : LocatorKey -> option LocatorEntry) (snapshot : Uuid).

(** The ranges of one key, and the group each belongs to. *)
Definition resolved (q : QualifiedKey) : list ResolvedHydrationRange :=
  match entries (qualified_key q) with
  | Some entry => (fun r => {| range_query_ordinal := key_query_ordinal q; range_multiplicity := key_multiplicity q;
                               range_key_of := qualified_key q; range := r |}) <$> ranges entry
  | None => []
  end.

Definition range_group (v : ResolvedHydrationRange) : string * N * N :=
  (object_uri (range v), range_row_group (range v), column_mask_id (range v)).

(** The entry of a key is there and of the snapshot. *)
Definition served (q : QualifiedKey) : Prop :=
  exists entry, entries (qualified_key q) = Some entry /\ entry_snapshot_id entry = snapshot.

Definition push_range grouped (v : ResolvedHydrationRange) := push_entry (range_group v) v grouped.

Lemma foldl_of_fmap {A B C} (f : C -> B -> C) (g : A -> B) l : forall acc, foldl f acc (g <$> l) = foldl (fun acc x => f acc (g x)) acc l.
Proof using Type. induction l as [|x l IH]; intros acc; cbn; [done|]. apply IH. Qed.

Lemma plan_keys qs : forall grouped grouped', try_fold (plan_key snapshot entries) grouped qs = Ok grouped' <->
  Forall served qs /\ grouped' = foldl push_range grouped (qs ≫= resolved).
Proof using Type.
  induction qs as [|q qs IH]; intros grouped grouped'; cbn [try_fold].
  - cbn. naive_solver.
  - cbn [mbind list_bind]. rewrite foldl_app, Forall_cons, result_bind_ok.
    setoid_rewrite IH. unfold plan_key, served at 2, resolved at 2. split.
    + intros (mid & Hq & Hs & ->). inv_steps. bool_prop. simplify_eq. rewrite Ha, foldl_of_fmap. eauto 6.
    + intros [[(entry & He & Hsnap) Hs] ->]. rewrite He, foldl_of_fmap. cbn [ok_or mbind result_bind].
      rewrite bool_decide_eq_true_2 by done. eauto.
Qed.

Lemma push_range_perm l : forall grouped, entries_of (foldl push_range grouped l) ≡ₚ l ++ entries_of grouped.
Proof using Type.
  induction l as [|v l IH]; intros grouped; cbn [foldl]; [done|]. rewrite IH. unfold push_range. rewrite push_entry_perm. cbn.
  by rewrite Permutation_middle.
Qed.

Lemma push_range_keyed l : forall grouped,
  map_Forall (fun k values => values <> [] /\ Forall (fun v => range_group v = k) values) grouped ->
  map_Forall (fun k values => values <> [] /\ Forall (fun v => range_group v = k) values) (foldl push_range grouped l).
Proof using Type. induction l as [|v l IH]; intros grouped Hg; cbn [foldl]; [done|]. apply IH. by apply push_entry_keyed. Qed.
End Plans.

Lemma sorted_entries_perm {K V B} `{Countable K, !RustOrd B} (key : V -> B) (m : gmap K (list V)) :
  entries_of (sort_by_key key <$> m) ≡ₚ entries_of m.
Proof.
  unfold entries_of. rewrite map_to_list_fmap. induction (map_to_list m) as [|[k l] ls IH]; cbn; [done|].
  by rewrite IH, sort_by_key_perm.
Qed.

Lemma sorted_elements_nil {A} `{Countable A, !RustOrd A} (s : gset A) : sorted_elements s = [] <-> s = ∅.
Proof.
  split; [|by intros ->]. intros Hs. apply leibniz_equiv, elements_empty_inv, Permutation_nil_r. by rewrite <- Hs, sorted_elements_perm.
Qed.

(** A hydration plan is complete.  Planning succeeds exactly when keys are
    asked for, every requested predicate is allowed and the locator has an entry
    of the snapshot for every key.  The plan then holds every range of every
    key exactly as often as it was asked for, with ordinal and multiplicity,
    each in the group of its object, row group and columns, in order of rows. *)
Theorem plan_keeps_every_range (lookup_batch : Uuid -> list LocatorKey -> result LocatorError (LocatorKey -> option LocatorEntry))
    (r : DehydratedSemanticResult) (policy : ContextPolicy) (entries : LocatorKey -> option LocatorEntry) :
  lookup_batch (result_snapshot_id r) (qualified_key <$> qualified_keys r) = Ok entries ->
  (is_ok (plan_hydration lookup_batch r policy) = true <->
    qualified_keys r <> [] /\ requested_predicate_ids r ⊆ allowed_hydration_predicate_ids policy /\
    Forall (served entries (result_snapshot_id r)) (qualified_keys r)) /\
  forall plan, plan_hydration lookup_batch r policy = Ok plan ->
    plan_snapshot_id plan = result_snapshot_id r /\ required_columns plan = requested_predicate_ids r /\
    entries_of (grouped_ranges plan) ≡ₚ (qualified_keys r ≫= resolved entries) /\
    map_Forall (fun k values => Forall (fun v => range_group v = k) values /\ StronglySorted (key_le range_sort_key) values) (grouped_ranges plan).
Proof.
  intros Hl. set (grouped := foldl push_range ∅ (qualified_keys r ≫= resolved entries)).
  assert (forall plan, plan_hydration lookup_batch r policy = Ok plan <->
    (qualified_keys r <> [] /\ requested_predicate_ids r ⊆ allowed_hydration_predicate_ids policy /\
     Forall (served entries (result_snapshot_id r)) (qualified_keys r)) /\
    plan = {| plan_snapshot_id := result_snapshot_id r; required_columns := requested_predicate_ids r;
              grouped_ranges := sort_by_key range_sort_key <$> grouped |}) as Hplan.
  { intros plan. unfold plan_hydration. rewrite Hl. pose proof (sorted_elements_nil (requested_predicate_ids r ∖ allowed_hydration_predicate_ids policy)) as Hsub.
    split.
    - intros Hp. inv_steps. bool_prop. destruct (sorted_elements _) eqn:He; [|done]. inv_steps. simplify_eq.
      apply plan_keys in Ha2 as [Hs ->]. split; [|done]. split_and!; [done| |done]. apply proj1 in Hsub. specialize (Hsub eq_refl). set_solver.
    - intros [(Hne & Hal & Hs) ->]. rewrite bool_decide_eq_false_2 by done. rewrite (proj2 Hsub) by set_solver. cbn [fail_if map_err mbind result_bind].
      by rewrite (proj2 (plan_keys _ _ _ _ _) (conj Hs eq_refl)). }
  split.
  - rewrite is_ok_true. setoid_rewrite Hplan. naive_solver.
  - intros plan [_ ->]%Hplan. cbn [plan_snapshot_id required_columns grouped_ranges]. split_and!; [done..| |].
    + rewrite sorted_entries_perm. unfold grouped. rewrite push_range_perm. unfold entries_of. rewrite map_to_list_empty. cbn. by rewrite app_nil_r.
    + intros k values. rewrite lookup_fmap_Some. intros (l & <- & Hk). split; [|apply sort_by_key_sorted].
      apply (push_range_keyed _ ∅ (map_Forall_empty _)) in Hk as [_ Hk]. by rewrite sort_by_key_perm.
Qed.

(** Optional context is cut to its smallest items, whatever their order of
    arrival, and says whether anything was cut. *)
Lemma truncation_is_canonical {T} `{RustOrd T} (optional optional' : list T) (limit : N) : optional ≡ₚ optional' ->
  truncate_optional_context optional limit = truncate_optional_context optional' limit /\
  length (truncate_optional_context optional limit).1 = Nat.min (N.to_nat limit) (length optional) /\
  ((truncate_optional_context optional limit).2 = true <-> (N.to_nat limit < length optional)%nat) /\
  (forall x y, x ∈ (truncate_optional_context optional limit).1 -> y ∈ drop (N.to_nat limit) (sort optional) -> rle x y).
Proof.
  intros Hp. unfold truncate_optional_context. cbn [fst snd].
  assert (length (sort optional) = length optional) as Hl by by rewrite sort_perm.
  split_and!.
  - assert (sort optional = sort optional') as ->; [|done]. eapply (StronglySorted_unique rle); [apply sort_sorted..|]. by rewrite !sort_perm.
  - by rewrite length_take, Hl.
  - rewrite Nat.ltb_lt, length_take, Hl. lia.
  - intros x y Hx Hy. pose proof (sort_sorted optional) as Hs. rewrite <- (take_drop (N.to_nat limit) (sort optional)) in Hs.
    apply StronglySorted_app in Hs as (Hs & _ & _). by apply Hs.
Qed.

(** ** The serving root *)

Record serving_root (r : ServingRootManifest) : Prop := {
  sr_version : root_format_version r = SERVING_ROOT_FORMAT_VERSION;
  sr_keys : Forall (fun k => k <> ""%string) [artifact_root_object_key r; dictionary_object_key r; source_locator_object_key r; binary_locator_object_key r];
  sr_digests : Forall (fun d => lower_hex_sha256 d = true)
    [artifact_root_sha256 r; dictionary_sha256 r; source_locator_sha256 r; binary_locator_sha256 r; semantic_content_sha256 r];
  sr_some : partitions r <> [];
  sr_rows : row_group_rows r <> 0;
  sr_dense : serving_partition_index <$> partitions r = N.of_nat <$> seq 0 (length (partitions r));
  sr_objects : Forall (fun p => manifest_object_key p <> ""%string /\ payload_object_key p <> ""%string /\
    lower_hex_sha256 (manifest_sha256 p) = true /\ lower_hex_sha256 (payload_sha256 p) = true) (partitions r);
  sr_total : sum_of payload_row_count (partitions r) = locator_record_count r;
  sr_width : sum_of payload_row_count (partitions r) < U64_LIMIT;
}.

Lemma nonempty_true s : nonempty s = true <-> s <> ""%string.
Proof. unfold nonempty. rewrite negb_true_iff. apply bool_decide_eq_false. Qed.

Lemma validate_partitions ps : forall from rows total, rows < U64_LIMIT ->
  try_fold validate_partition rows (zip (seq from (length ps)) ps) = Ok total <->
  serving_partition_index <$> ps = N.of_nat <$> seq from (length ps) /\
  Forall (fun p => manifest_object_key p <> ""%string /\ payload_object_key p <> ""%string /\
    lower_hex_sha256 (manifest_sha256 p) = true /\ lower_hex_sha256 (payload_sha256 p) = true) ps /\
  total = rows + sum_of payload_row_count ps /\ total < U64_LIMIT.
Proof.
  induction ps as [|p ps IH]; intros from rows total Hr; cbn [length seq zip zip_with try_fold fmap list_fmap sum_of foldr].
  - rewrite N.add_0_r. split; [|by intros (_ & _ & -> & _)]. intros [= <-]. by split_and!.
  - rewrite Forall_cons, result_bind_ok. unfold validate_partition at 1. split.
    + intros (n & Hn & Hf). inv_steps. bool_prop. apply checked_add_some in Hn as [-> Hn]. apply IH in Hf as (Hi & Hfo & -> & Hw); [|done].
      rewrite !nonempty_true in *. unfold sum_of in *. split_and!; try done; [by f_equal|lia].
    + intros ([= Hi His] & [(H1 & H2 & H3 & H4) Hfo] & -> & Hw). exists (rows + payload_row_count p). split.
      * rewrite Hi, N.eqb_refl, H3, H4, (proj2 (nonempty_true _) H1), (proj2 (nonempty_true _) H2). cbn [negb orb fail_if mbind result_bind].
        rewrite checked_add_fits by (unfold sum_of in *; lia). done.
      * apply IH; [unfold sum_of in *; lia|]. unfold sum_of in *. split_and!; try done. lia.
Qed.

(** A serving root is accepted exactly when its parts are named and digested,
    its partitions are numbered densely, and together they hold exactly the
    rows the locator addresses. *)
Theorem serving_root_is_complete (r : ServingRootManifest) : validate_serving_root r = Ok tt <-> serving_root r.
Proof.
  unfold validate_serving_root, enumerate. split.
  - intros Hv. inv_steps. bool_prop. apply validate_partitions in Ha0 as (Hi & Ho & Ht & Hw); [|done]. rewrite N.add_0_l in Ht. subst.
    rewrite !nonempty_true in *. split; try done; try by repeat constructor. all: congruence.
  - intros [Hv Hk Hd Hne Hr Hi Ho Ht Hw]. rewrite !Forall_cons, <- !nonempty_true in Hk. rewrite !Forall_cons in Hd.
    destruct Hk as (H1 & H2 & H3 & H4 & _), Hd as (D1 & D2 & D3 & D4 & D5 & _).
    rewrite Hv, H1, H2, H3, H4, D1, D2, D3, D4, D5. rewrite bool_decide_eq_false_2 by done. rewrite (proj2 (N.eqb_neq _ _) Hr).
    cbn [negb orb fail_if mbind result_bind N.eqb Pos.eqb SERVING_ROOT_FORMAT_VERSION].
    rewrite (proj2 (validate_partitions (partitions r) 0 0 (locator_record_count r) eq_refl)) by (split_and!; [done..|congruence]).
    cbn [mbind result_bind]. by rewrite N.eqb_refl.
Qed.

(** ** Shards *)

(** A shard is admitted exactly when its file has the stated digest, and keeps
    the identity of what was read. *)
Lemma verified_shard_is_its_file `{Sha256} fs i path expected shard :
  verify_payload_shard fs i path expected = Ok shard <->
  exists content, fs path = Some content /\ expected = hex_encode (sha256 content) /\
    shard = {| shard_partition_index := i; shard_path := path; shard_sha256 := sha256 content; shard_byte_count := N.of_nat (length content) |}.
Proof.
  unfold verify_payload_shard, sha256_path. destruct (fs path) as [content|]; cbn [ok_or mbind result_bind].
  2:{ split; [|naive_solver]. intros Hv. inv_steps. }
  assert (forall d, decode_sha256 expected = Ok d <-> expected = hex_encode d /\ length d = 32%nat) as Hd.
  { intros d. unfold decode_sha256. split.
    - intros Hd. inv_steps. subst. bool_prop. split; [|done]. by apply (inj as_bytes), hex_decode_encode.
    - intros [-> Hl]. unfold lower_hex_sha256. rewrite <- length_as_bytes, length_hex_encode, hex_encode_digits, hex_decode_hex, Hl.
      cbn [ok_or mbind result_bind fail_if negb andb Nat.mul Nat.add Nat.eqb]. by rewrite Hl. }
  split.
  - intros Hv. inv_steps. bool_prop. apply Hd in Ha as [-> _]. simplify_eq. eauto.
  - intros (c & [= <-] & -> & ->). rewrite (proj2 (Hd (sha256 content))) by (split; [done|apply sha256_length]). cbn [mbind result_bind].
    by rewrite bool_decide_eq_true_2.
Qed.

(** ** A deployment of two shards *)

Definition sample_cells (predicate graph : N) (text : string) : Row :=
  list_to_map [("subject_guid128", FixedSizeBinary sample_guid); ("snapshot_id128", FixedSizeBinary sample_snapshot);
    ("subject_term", Utf8 "urn:entity" true); ("subject_resource_kind", UInt8 1); ("predicate_id64", UInt64 predicate);
    ("graph_id64", UInt64 graph); ("graph_scope", UInt8 1); ("lexical_value", Utf8 text true); ("datatype_iri", Utf8 "urn:text" true);
    ("language", Utf8 "" false)]%string.

(** The content of a file names its shard. *)
Definition sample_groups (content : list byte) : list (list Row) :=
  if bool_decide (content = [x00]) then [[sample_cells 2 1 "alpha"]]
  else if bool_decide (content = [x01]) then [[∅; sample_cells 3 1 "beta"]] else [].

Program Definition sample_payload_reader : PayloadReader :=
  {| try_new _ := Ok tt; stored := sample_groups;
     build content group := rows ← ok_or (sample_groups content !! group) Parquet; Ok (Ok <$> [rows]) |}.
Next Obligation.
  intros content group batches Hb. cbn in *. destruct (sample_groups content !! group) as [rows|]; cbn in Hb; [|done].
  destruct batches as [|? [|? ?]]; cbn in Hb; simplify_eq/=. by rewrite app_nil_r.
Qed.

Definition sample_fs (path : string) : option (list byte) :=
  if bool_decide (path = "p0"%string) then Some [x00] else if bool_decide (path = "p1"%string) then Some [x01] else None.

Definition sample_shard (i : N) (path : string) : VerifiedPayloadShard :=
  {| shard_partition_index := i; shard_path := path; shard_sha256 := []; shard_byte_count := 1 |}.

Definition sample_shards : gmap N VerifiedPayloadShard := {[ 0 := sample_shard 0 "p0"; 1 := sample_shard 1 "p1" ]}.
Definition sample_keys : list ShardedQualifiedGuid := [{| query_ordinal := 4; qualified_guid := sample_guid; multiplicity := 3 |}].
Definition sample_index (rs : list ShardLocatorRecord) : MmapLocatorIndex :=
  opened_index sample_snapshot (padded_sha256 sample_input) (locator_file sample_snapshot (padded_sha256 sample_input) rs) rs.

Lemma hydration_is_exact_witness :
  exists output rs, hydrate_sharded_payload_internal sample_fs (H0 := sample_payload_reader) sample_shards sample_snapshot
      (sample_index sample_rows) sample_keys 2 10 None = Ok output /\
    (row_lexical_value <$> output) = ["alpha"; "beta"]%string /\
    StronglySorted (key_le hydrated_row_key) output /\ length output = length (located rs None sample_keys).
Proof.
  destruct (hydration_is_exact sample_fs (H := sample_payload_reader) sample_shards sample_snapshot (H0 := padded_digest)
    (Some sample_binary) (hex_encode (padded_sha256 sample_binary)) (hex_encode (padded_sha256 sample_input)) (sample_index sample_rows))
    as (digest & rs & _ & _ & T); [vm_compute; reflexivity|].
  destruct (T sample_keys 2%nat 10 None) as [Tsorted Trows]; [lia|vm_compute; reflexivity|].
  destruct (hydrate_sharded_payload_internal sample_fs (H0 := sample_payload_reader) sample_shards sample_snapshot
    (sample_index sample_rows) sample_keys 2 10 None) as [output|e] eqn:Ho; [|vm_compute in Ho; discriminate Ho].
  exists output, rs. split; [reflexivity|]. split; [vm_compute in Ho; injection Ho as <-; reflexivity|].
  split; [apply Tsorted; reflexivity|].
  destruct (proj1 (Trows output)) as (_ & _ & _ & _ & rows & Hp & Hf); [exists output; split; reflexivity|].
  rewrite (Forall2_length _ _ _ Hf). symmetry. apply Permutation_length, Hp.
Defined.

(** The same rows with one more, of a graph the caller may not see and of a
    shard that is not there. *)
Definition hidden_row : ShardLocatorRecord :=
  {| entity_guid := sample_guid; locator_partition_index := 9; locator_row_group := 0; row_in_group := 0;
     locator_graph_id := 7; locator_predicate_id := 2 |}.

Lemma sample_reads rs : Forall good_record rs -> (length rs < 100)%nat -> reads (sample_index rs) rs.
Proof. intros Hg Hl. apply opened_reads; [done|apply padded_digest|done|unfold U64_LIMIT; lia]. Qed.

Lemma unauthorized_graphs_are_invisible_witness :
  exists rows, length rows = 2%nat /\
    hydrate_sharded_payload_for_graphs sample_fs (H0 := sample_payload_reader) sample_shards sample_snapshot
      (sample_index sample_rows) sample_keys 2 2 {[1]} = Ok rows /\
    hydrate_sharded_payload_for_graphs sample_fs (H0 := sample_payload_reader) sample_shards sample_snapshot
      (sample_index (sample_rows ++ [hidden_row])) sample_keys 2 2 {[1]} = Ok rows.
Proof.
  rewrite <- (unauthorized_graphs_are_invisible sample_fs (H := sample_payload_reader) sample_shards sample_snapshot
    (sample_index sample_rows) (sample_index (sample_rows ++ [hidden_row])) sample_keys 2 2 {[1]}).
  - eexists. split; [|split; vm_compute; reflexivity]. reflexivity.
  - reflexivity.
  - intros guid. eexists _, _. split; [apply lookup_guid_spec; [apply sample_reads|]|split; [apply lookup_guid_spec; [apply sample_reads|]|]].
    1, 4: repeat constructor; vm_compute; reflexivity.
    1, 3: cbn; lia.
    1, 2: apply is_sorted_unique_spec; vm_compute; reflexivity.
    destruct (decide (sample_guid = guid)) as [<-|Hne]; [vm_compute; reflexivity|].
    rewrite !(list_filter_empty (fun r => entity_guid r = guid)); [done|..].
    all: intros r Hr; repeat (apply elem_of_cons in Hr as [->|Hr]; [exact Hne|]); by apply elem_of_nil in Hr.
Defined.

Definition sample_range_of (object : string) (row : N) : PhysicalRange :=
  {| object_uri := object; range_row_group := 0; first_row := row; row_count := 1; column_mask_id := 1; range_graph_id := 1; object_sha256 := [] |}.
Definition sample_entries (key : LocatorKey) : option LocatorEntry :=
  Some {| entry_snapshot_id := sample_snapshot; schema_hash := []; ranges := [sample_range_of "a" 5; sample_range_of "b" 1; sample_range_of "a" 2] |}.
Definition sample_result : DehydratedSemanticResult :=
  {| result_snapshot_id := sample_snapshot; plan_id := "plan"; coverage_certificate_id := "certificate";
     qualified_keys := [{| key_query_ordinal := 4; qualified_key := EntityKey sample_guid; key_multiplicity := 3 |}];
     query_edge_ids := []; named_graph_ids := []; proof_ids := []; requested_predicate_ids := {[2; 3]} |}.
Definition sample_policy : ContextPolicy :=
  {| policy_id := "policy"; include_query_edges := true; include_proof_edges := true; include_named_graph_identity := true;
     include_provenance := true; allowed_optional_predicate_ids := ∅; max_optional_entities := 0; max_optional_edges := 0;
     allowed_hydration_predicate_ids := {[2; 3; 4]}; max_payload_bytes := 1; allow_optional_context_truncation := false |}.

Lemma plan_keeps_every_range_witness :
  exists plan, plan_hydration (fun _ _ => Ok sample_entries) sample_result sample_policy = Ok plan /\
    length (entries_of (grouped_ranges plan)) = 3%nat /\
    (fmap (M := list) (fun v => first_row (range v)) <$> grouped_ranges plan !! ("a"%string, 0, 1)) = Some [2; 5].
Proof.
  destruct (plan_keeps_every_range (fun _ _ => Ok sample_entries) sample_result sample_policy sample_entries eq_refl) as [_ T].
  destruct (plan_hydration (fun _ _ => Ok sample_entries) sample_result sample_policy) as [plan|e] eqn:Hp; [|vm_compute in Hp; discriminate Hp].
  exists plan. split; [reflexivity|]. destruct (T plan eq_refl) as (_ & _ & Hperm & _). split; [|vm_compute in Hp; injection Hp as <-; reflexivity].
  rewrite (Permutation_length Hperm). reflexivity.
Defined.

(** A request that the flags of one row refuse: the subject is not an IRI. *)
Example blank_label_is_required : subject_term_is_valid BlankNode "_:" = false /\ subject_term_is_valid NamedNode "_:b" = false /\
  subject_term_is_valid BlankNode "_:b" = true.
Proof. vm_compute. done. Qed.
