(* ===== verification/Identity.v ===== *)
(** * Durable identities and index headers

    Models src/crates/ngkg-identity/src/lib.rs (identities of facts, skolem
    IRIs, the dense dictionary merged from independent runs) and
    src/crates/ngkg-index/src/lib.rs (what an index header must say before the
    index is served).  BLAKE3, UUIDs of version 5 and IRI syntax are parameters.

    The theorems show that a fact is identified by its compact key once a
    collision check passed, that the dictionary is the dense ascending numbering
    of the set of terms whatever the runs and is identified by its root hash, and
    that an index opens exactly for the context it was built for. *)

From Stdlib Require Import Strings.Byte Strings.String.
From S2P Require Import Prelude Words Ordered Digest.

Local Open Scope N_scope.

(** ** Identity *)

Definition Uuid := list byte.

Record FactIdentity := {
  compact_id : list byte;
  collision_fingerprint : list byte;
}.

Record FactIdentityInput := {
  fact_subject : list byte;
  fact_predicate_iri : string;
  fact_object_canonical : list byte;
  fact_graph_iri : string;
  fact_source_guid : Uuid;
  fact_source_snapshot : string;
}.

Record DictionaryRun := {
  range_id : N;
  canonical_terms : list (list byte);
}.

Record DenseDictionary := {
  entries : gmap (list byte) N;
  range_counts : gmap N N;
  root_hash : list byte;
}.

Inductive IdentityError :=
| InvalidIri (iri : string)
| CrosswalkConflict (iri : string)
| FactIdCollision
| EmptyDictionary.

(** [(value.len() as u64).to_be_bytes()], then the value. *)
Definition append_component (value : list byte) : list byte := to_be_bytes 8 (N.of_nat (length value)) ++ value.

(** [parses] is [Iri::parse] and [new_v5] is [Uuid::new_v5]. *)
Definition guid_for_canonical_iri (parses : string -> bool) (new_v5 : Uuid -> list byte -> Uuid) (dataset_namespace : Uuid)
    (canonical_iri : string) : result IdentityError Uuid :=
  _ ← fail_if (negb (parses canonical_iri)) (InvalidIri canonical_iri);
  Ok (new_v5 dataset_namespace (as_bytes canonical_iri)).

Section Identity.
Context `{Blake3}.

Definition skolem_iri (source_sha256 : list byte) (source_label : string) : string :=
  "urn:ngkg:skolem:" +:+ hex_encode (blake3 (append_component (as_bytes "ngkg-skolem-v1") ++ append_component source_sha256
    ++ append_component (as_bytes source_label))).

Definition fact_preimage (input : FactIdentityInput) : list byte :=
  append_component (as_bytes "ngkg-fact-v1") ++ append_component (fact_subject input)
  ++ append_component (as_bytes (fact_predicate_iri input)) ++ append_component (fact_object_canonical input)
  ++ append_component (as_bytes (fact_graph_iri input)) ++ append_component (fact_source_guid input)
  ++ append_component (as_bytes (fact_source_snapshot input)).

Definition fact_identity (input : FactIdentityInput) : FactIdentity :=
  let digest := blake3 (fact_preimage input) in
  {| compact_id := take 16 digest; collision_fingerprint := digest |}.

Definition verify_fact_collision (left right : FactIdentity) : result IdentityError unit :=
  fail_if (bool_decide (compact_id left = compact_id right)
           && negb (bool_decide (collision_fingerprint left = collision_fingerprint right))) FactIdCollision.

(** One run: the terms so far and the counts by range. *)
Definition merge_run (st : list (list byte) * gmap N N) (run : DictionaryRun) : list (list byte) * gmap N N :=
  let local := dedup (sort (canonical_terms run)) in
  (st.1 ++ local, <[range_id run := default U64_MAX (u64_of_len (length local))]> st.2).

(** One term: the entries and the bytes hashed so far. *)
Definition number_entry (st : gmap (list byte) N * list byte) (entry : nat * list byte) : gmap (list byte) N * list byte :=
  let id := default U64_MAX (u64_of_len entry.1) in
  (<[entry.2 := id]> st.1, st.2 ++ append_component (to_be_bytes 8 id) ++ append_component entry.2).

Definition merge_dictionary_runs (runs : list DictionaryRun) : result IdentityError DenseDictionary :=
  let '(terms, range_counts) := foldl merge_run ([], ∅) runs in
  let terms := dedup (sort terms) in
  _ ← fail_if (bool_decide (terms = [])) EmptyDictionary;
  let '(entries, hashed) := foldl number_entry (∅, append_component (as_bytes "ngkg-dictionary-v1")) (enumerate terms) in
  Ok {| entries := entries; range_counts := range_counts; root_hash := blake3 hashed |}.

End Identity.

(** ** Index headers *)

Record IndexHeader := {
  format_name : string;
  format_version : N;
  dataset_id : Uuid;
  snapshot_id : Uuid;
  ontology_hash : list byte;
  dictionary_hash : list byte;
  policy_hash : list byte;
  index_schema_hash : list byte;
  partition_key : string;
  entry_count : N;
  payload_sha256 : list byte;
}.

Inductive IndexOpenError :=
| IndexSnapshotMismatch (requested found : Uuid)
| DatasetMismatch (requested found : Uuid)
| UnsupportedFormat (name : string) (version : N)
| IndexChecksumMismatch
| SemanticDependency (which : string).

Definition verify_open `{Sha256} (header : IndexHeader) (payload : list byte) (requested_dataset requested_snapshot : Uuid)
    (ontology dictionary policy : list byte) : result IndexOpenError unit :=
  _ ← fail_if (negb (bool_decide (dataset_id header = requested_dataset))) (DatasetMismatch requested_dataset (dataset_id header));
  _ ← fail_if (negb (bool_decide (snapshot_id header = requested_snapshot))) (IndexSnapshotMismatch requested_snapshot (snapshot_id header));
  _ ← fail_if (negb (bool_decide (format_name header = "ngkg-index"%string)) || negb (format_version header =? 1))
        (UnsupportedFormat (format_name header) (format_version header));
  _ ← fail_if (negb (bool_decide (ontology_hash header = ontology))) (SemanticDependency "ontology");
  _ ← fail_if (negb (bool_decide (dictionary_hash header = dictionary))) (SemanticDependency "dictionary");
  _ ← fail_if (negb (bool_decide (policy_hash header = policy))) (SemanticDependency "policy");
  fail_if (negb (bool_decide (sha256 payload = payload_sha256 header))) IndexChecksumMismatch.

(** ** Preimages *)

Definition fits_u64 (value : list byte) : Prop := N.of_nat (length value) < U64_LIMIT.

Lemma append_component_inj a b x y : fits_u64 a -> fits_u64 b ->
  append_component a ++ x = append_component b ++ y -> a = b /\ x = y.
Proof. intros Ha Hb. apply component_app_inj; by apply component_some. Qed.

(** A sequence of components, told apart component by component. *)
Lemma components_inj l k : Forall fits_u64 l -> Forall fits_u64 k ->
  concat (append_component <$> l) = concat (append_component <$> k) -> l = k.
Proof.
  revert k. induction l as [|a l IH]; intros [|b k] Hl Hk Heq; cbn [fmap list_fmap concat] in Heq.
  - done.
  - apply (f_equal length) in Heq. unfold append_component in Heq. rewrite !length_app, length_to_be_bytes in Heq. cbn in Heq. lia.
  - apply (f_equal length) in Heq. unfold append_component in Heq. rewrite !length_app, length_to_be_bytes in Heq. cbn in Heq. lia.
  - apply Forall_cons in Hl as [Ha Hl], Hk as [Hb Hk]. apply append_component_inj in Heq as [-> Heq]; [|done..]. f_equal. by apply IH.
Qed.

Lemma blake3_inj `{Blake3} x y : blake3 x = blake3 y -> x = y \/ blake3_collide x y.
Proof. intros He. destruct (decide (x = y)); [by left|by right]. Qed.

(** ** Facts *)

Definition fact_components (f : FactIdentityInput) : list (list byte) :=
  [as_bytes "ngkg-fact-v1"; fact_subject f; as_bytes (fact_predicate_iri f); fact_object_canonical f;
   as_bytes (fact_graph_iri f); fact_source_guid f; as_bytes (fact_source_snapshot f)].

Lemma fact_preimage_components f : fact_preimage f = concat (append_component <$> fact_components f).
Proof. unfold fact_preimage. cbn. by rewrite app_nil_r. Qed.

(** Facts are told apart.  When two facts have one compact identity and the
    collision check accepts the pair, they are the same fact in every component,
    or the bytes hashed for them collide; a refused pair has one compact identity
    and two different facts. *)
Theorem accepted_facts_are_equal `{Blake3} (f g : FactIdentityInput) :
  Forall fits_u64 (fact_components f) -> Forall fits_u64 (fact_components g) ->
  match verify_fact_collision (fact_identity f) (fact_identity g) with
  | Ok _ => compact_id (fact_identity f) = compact_id (fact_identity g) -> f = g \/ blake3_collide (fact_preimage f) (fact_preimage g)
  | Err e => e = FactIdCollision /\ compact_id (fact_identity f) = compact_id (fact_identity g) /\ f <> g
  end.
Proof.
  intros Hf Hg. unfold verify_fact_collision. destruct (bool_decide (compact_id _ = _)) eqn:Hc; bool_prop; cbn [andb fail_if].
  - destruct (bool_decide (collision_fingerprint _ = _)) eqn:Hd; bool_prop; cbn [negb fail_if].
    + intros _. destruct (blake3_inj _ _ Hd) as [He|]; [left|by right]. rewrite !fact_preimage_components in He.
      apply components_inj in He; [|done..]. destruct f, g. injection He as ? Hp ? Hg' ? Hs.
      apply as_bytes_inj in Hp, Hg', Hs. by subst.
    + split_and!; [done..|]. by intros ->.
  - done.
Qed.

(** ** The dictionary *)

Definition all_terms (runs : list DictionaryRun) : gset (list byte) := list_to_set (runs ≫= canonical_terms).

Lemma merge_runs_terms runs : forall st, dedup (sort (foldl merge_run st runs).1) = sorted_elements (list_to_set (st.1 ++ (runs ≫= canonical_terms)) : gset (list byte)).
Proof.
  intros st. rewrite sort_dedup_elements. f_equal. revert st. induction runs as [|run runs IH]; intros st; cbn; [by rewrite app_nil_r|].
  rewrite IH. cbn [fst merge_run]. rewrite sort_dedup_elements, !list_to_set_app_L, (assoc_L (∪)). do 2 f_equal.
  apply set_eq. intros t. by rewrite elem_of_list_to_set, elem_of_sorted_elements.
Qed.

(** The numbering of a list of distinct terms from [from]. *)
Lemma number_entries terms : forall from st, NoDup terms -> N.of_nat (from + length terms) < U64_LIMIT ->
  (forall t, t ∈ terms -> st.1 !! t = None) ->
  foldl number_entry st (zip (seq from (length terms)) terms)
  = (list_to_map (zip terms (N.of_nat <$> seq from (length terms))) ∪ st.1,
     st.2 ++ concat (append_component <$> concat (zip_with (fun i t => [to_be_bytes 8 (N.of_nat i); t]) (seq from (length terms)) terms))).
Proof.
  induction terms as [|t terms IH]; intros from [m hashed] Hnd Hfit Hnew; cbn [length seq zip zip_with foldl fmap list_fmap concat list_to_map].
  - cbn. by rewrite (left_id_L ∅ (∪)), app_nil_r.
  - apply NoDup_cons in Hnd as [Ht Hnd]. cbn [length] in Hfit. unfold number_entry at 2. cbn [fst snd].
    assert (u64_of_len from = Some (N.of_nat from)) as -> by (apply u64_of_len_some; split; [done|lia]). cbn [default].
    rewrite IH; [|done|lia|].
    + cbn [fst snd]. f_equal.
      * rewrite <- insert_union_r; [by rewrite insert_union_l|]. apply not_elem_of_list_to_map_1. rewrite fst_zip by by rewrite length_fmap, length_seq. done.
      * cbn. rewrite <- !(assoc (++)). done.
    + intros u Hu. cbn [fst]. rewrite lookup_insert_ne by (intros ->; done). apply Hnew. by right.
Qed.

(** What a dictionary is: the dense ascending numbering of a set of terms. *)
Definition numbering (terms : gset (list byte)) : gmap (list byte) N :=
  list_to_map (zip (sorted_elements terms) (N.of_nat <$> seq 0 (size terms))).

Definition dictionary_components (terms : gset (list byte)) : list (list byte) :=
  as_bytes "ngkg-dictionary-v1" ::
  concat (zip_with (fun i t => [to_be_bytes 8 (N.of_nat i); t]) (seq 0 (size terms)) (sorted_elements terms)).

(** The bytes hashed for the dictionary of a set of terms. *)
Definition dictionary_preimage (terms : gset (list byte)) : list byte := concat (append_component <$> dictionary_components terms).

Section Dictionaries.
Context `{Blake3}.

Lemma merge_dictionary_spec runs : N.of_nat (size (all_terms runs)) < U64_LIMIT ->
  merge_dictionary_runs runs =
  if bool_decide (all_terms runs = ∅) then Err EmptyDictionary
  else Ok {| entries := numbering (all_terms runs); range_counts := (foldl merge_run ([], ∅) runs).2;
             root_hash := blake3 (dictionary_preimage (all_terms runs)) |}.
Proof.
  intros Hfit. unfold merge_dictionary_runs. pose proof (merge_runs_terms runs ([], ∅)) as Ht. cbn [fst app] in Ht. fold (all_terms runs) in Ht.
  destruct (foldl merge_run ([], ∅) runs) as [terms counts]. cbn [fst snd] in *. rewrite Ht.
  assert (sorted_elements (all_terms runs) = [] <-> all_terms runs = ∅) as Hnil.
  { split; [|by intros ->]. intros E. apply leibniz_equiv, size_empty_iff. by rewrite <- length_sorted_elements, E. }
  rewrite (bool_decide_ext _ _ Hnil). case_bool_decide as He; [done|]. cbn [fail_if mbind result_bind].
  unfold enumerate. rewrite number_entries; [|apply NoDup_sorted_elements|rewrite length_sorted_elements; lia|done]. cbn [fst snd].
  rewrite (right_id_L ∅ (∪)), length_sorted_elements. reflexivity.
Qed.

Lemma numbering_lookup terms t id : numbering terms !! t = Some id <-> sorted_elements terms !! N.to_nat id = Some t.
Proof using Type.
  unfold numbering. rewrite <- length_sorted_elements. pose proof (NoDup_sorted_elements terms) as Hnd. set (l := sorted_elements terms) in *.
  rewrite <- elem_of_list_to_map; [|by rewrite fst_zip by by rewrite length_fmap, length_seq].
  rewrite list_elem_of_lookup. setoid_rewrite lookup_zip_Some. split.
  - intros (i & Hi & (j & -> & [-> _]%lookup_seq)%list_lookup_fmap_Some). by rewrite Nat2N.id.
  - intros Hi. exists (N.to_nat id). split; [done|]. apply list_lookup_fmap_Some. exists (N.to_nat id).
    rewrite N2Nat.id, lookup_seq. split_and!; [done..|]. by eapply lookup_lt_Some.
Qed.

(** The dictionary is canonical.  Merging fails exactly when no run has a term;
    otherwise the numbers are dense and ascend with the terms, and entries and
    root hash depend on the set of terms alone, not on the runs, their order or
    repetitions. *)
Theorem dictionary_is_canonical (runs : list DictionaryRun) : N.of_nat (size (all_terms runs)) < U64_LIMIT ->
  match merge_dictionary_runs runs with
  | Err e => e = EmptyDictionary /\ all_terms runs = ∅
  | Ok d => all_terms runs <> ∅ /\ dom (entries d) = all_terms runs /\
      (forall t id, entries d !! t = Some id -> id < N.of_nat (size (all_terms runs))) /\
      (forall t u i j, entries d !! t = Some i -> entries d !! u = Some j -> rlt t u <-> i < j) /\
      forall runs', all_terms runs' = all_terms runs ->
        exists d', merge_dictionary_runs runs' = Ok d' /\ entries d' = entries d /\ root_hash d' = root_hash d
  end.
Proof.
  intros Hfit. rewrite merge_dictionary_spec by done. case_bool_decide as He; [done|]. cbn [entries root_hash].
  pose proof (sorted_elements_strict (all_terms runs)) as Hs. split_and!.
  - done.
  - apply set_eq. intros t. rewrite elem_of_dom. unfold is_Some. setoid_rewrite numbering_lookup. rewrite <- elem_of_sorted_elements, list_elem_of_lookup. split.
    + intros [id Hid]. eauto.
    + intros [i Hi]. exists (N.of_nat i). by rewrite Nat2N.id.
  - intros t id Ht%numbering_lookup%lookup_lt_Some. rewrite length_sorted_elements in Ht. lia.
  - intros t u i j Ht%numbering_lookup Hu%numbering_lookup. split.
    + intros Hlt. destruct (N.lt_total i j) as [|[->|Hgt]]; [done|..].
      * rewrite Ht in Hu. injection Hu as ->. by apply rlt_irrefl in Hlt.
      * pose proof (StronglySorted_lookup _ _ (N.to_nat j) (N.to_nat i) _ _ Hs ltac:(lia) Hu Ht) as Hut. destruct (rlt_irrefl t). by transitivity u.
    + intros Hij. apply (StronglySorted_lookup _ _ (N.to_nat i) (N.to_nat j) _ _ Hs ltac:(lia) Ht Hu).
  - intros runs' Hr. rewrite merge_dictionary_spec, Hr by by rewrite Hr. rewrite bool_decide_eq_false_2 by done. eauto.
Qed.

Lemma number_pairs_inj l : forall k from,
  concat (zip_with (fun i t => [to_be_bytes 8 (N.of_nat i); t]) (seq from (length l)) l)
  = concat (zip_with (fun i t => [to_be_bytes 8 (N.of_nat i); t]) (seq from (length k)) k) -> l = k.
Proof using Type.
  induction l as [|a l IH]; intros [|b k] from Heq; [done|discriminate Heq|discriminate Heq|]. cbn [length seq zip_with concat] in Heq.
  apply app_inj_len in Heq as [[= ->] Heq]; [|done]. f_equal. by eapply IH.
Qed.

Lemma dictionary_components_inj s t : dictionary_components s = dictionary_components t -> s = t.
Proof using Type.
  unfold dictionary_components. rewrite <- !length_sorted_elements. intros E. apply (f_equal tail) in E. apply number_pairs_inj in E.
  apply set_eq. intros x. by rewrite <- !elem_of_sorted_elements, E.
Qed.

Lemma dictionary_components_fit terms : (forall t, t ∈ terms -> fits_u64 t) -> Forall fits_u64 (dictionary_components terms).
Proof using Type.
  intros Ht. constructor; [done|]. apply Forall_concat, Forall_forall. intros l (i & u & -> & _ & Hu)%elem_of_zip_with.
  apply elem_of_sorted_elements in Hu. repeat constructor. by apply Ht.
Qed.

(** The root hash identifies the dictionary: two merges with one root hash
    number the same terms alike, or the bytes hashed for them collide. *)
Theorem root_hash_identifies_terms (runs runs' : list DictionaryRun) (d d' : DenseDictionary) :
  N.of_nat (size (all_terms runs)) < U64_LIMIT -> N.of_nat (size (all_terms runs')) < U64_LIMIT ->
  (forall t, t ∈ all_terms runs ∪ all_terms runs' -> fits_u64 t) ->
  merge_dictionary_runs runs = Ok d -> merge_dictionary_runs runs' = Ok d' -> root_hash d = root_hash d' ->
  entries d = entries d' \/ blake3_collide (dictionary_preimage (all_terms runs)) (dictionary_preimage (all_terms runs')).
Proof.
  intros Hn Hn' Hfit. rewrite !merge_dictionary_spec by done. case_bool_decide; [done|]. case_bool_decide; [done|].
  intros [= <-] [= <-]. cbn [entries root_hash]. intros [E|]%blake3_inj; [left|by right].
  apply components_inj in E; [|apply dictionary_components_fit; set_solver..]. by apply dictionary_components_inj in E as ->.
Qed.
End Dictionaries.

(** ** Indexes *)

(** An index opens exactly for the dataset, snapshot, ontology, dictionary and
    policy its header names, in the one format there is, with the payload whose
    digest the header has. *)
Lemma index_opens_in_its_context `{Sha256} header payload dataset snapshot ontology dictionary policy :
  verify_open header payload dataset snapshot ontology dictionary policy = Ok tt <->
  header = {| format_name := "ngkg-index"; format_version := 1; dataset_id := dataset; snapshot_id := snapshot; ontology_hash := ontology;
              dictionary_hash := dictionary; policy_hash := policy; index_schema_hash := index_schema_hash header;
              partition_key := partition_key header; entry_count := entry_count header; payload_sha256 := sha256 payload |}.
Proof.
  unfold verify_open. rewrite !fail_then, fail_if_ok. destruct header as [fn fv ds sn oh dh ph sh pk ec ps]. cbn. split.
  - intros Hv. destruct_and!. bool_prop. by subst.
  - intros [= -> -> -> -> -> -> -> ->]. by rewrite !bool_decide_eq_true_2.
Qed.

(** ** Examples *)

Definition sample_runs : list DictionaryRun :=
  [{| range_id := 0; canonical_terms := [as_bytes "b"; as_bytes "a"] |}; {| range_id := 1; canonical_terms := [as_bytes "c"; as_bytes "b"] |}].

Lemma dictionary_is_canonical_witness :
  exists d, merge_dictionary_runs (H := padded_blake3) sample_runs = Ok d /\ entries d !! as_bytes "c" = Some 2 /\
    exists d', merge_dictionary_runs (H := padded_blake3) (rev sample_runs) = Ok d' /\ root_hash d' = root_hash d.
Proof.
  pose proof (dictionary_is_canonical (H := padded_blake3) sample_runs ltac:(vm_compute; reflexivity)) as T.
  destruct (merge_dictionary_runs (H := padded_blake3) sample_runs) as [d|e] eqn:Hd; [|vm_compute in Hd; discriminate Hd].
  exists d. split; [reflexivity|]. split; [vm_compute in Hd; injection Hd as <-; reflexivity|].
  destruct T as (_ & _ & _ & _ & T). destruct (T (rev sample_runs)) as (d' & Hd' & _ & Hr); [vm_compute; reflexivity|]. exists d'. split; [exact Hd'|exact Hr].
Defined.

(** A range that two runs share has the count of the last one only. *)
Example shared_range_is_counted_once : forall d,
  merge_dictionary_runs (H := padded_blake3) [{| range_id := 0; canonical_terms := [as_bytes "a"; as_bytes "b"] |};
    {| range_id := 0; canonical_terms := [as_bytes "c"] |}] = Ok d -> range_counts d !! 0 = Some 1.
Proof. intros d Hd. vm_compute in Hd. injection Hd as <-. reflexivity. Qed.
