(* ===== verification/Admission.v ===== *)
(** * Admission control of the online services

    Models src/services/online-serving/src/tenant_admission.rs, the policy that
    gives every tenant its lanes, and the [AdmissionController] of
    src/services/online-serving/src/main.rs, which admits a request only when
    it holds a permit of every lane on its way.

    The semaphores are tokio's: [Semaphore] is what the controller uses of
    them.  The controller never closes one, so [TryAcquireError::Closed] cannot
    occur.  Each [Arc<Semaphore>] is a [Lane] of one shared store.  [acquire]
    is cut at its atomic operations, and any number of requests interleave: a
    deadline may pass at every [await], and a request may be dropped there.
    Durations and the metrics page are not modelled.

    The theorems show that permits are conserved under every interleaving, so
    that all limits hold and nothing leaks, that admission alone never
    deadlocks, and that under a validated policy one tenant cannot keep another
    one waiting. *)

From Stdlib Require Import Strings.Byte Strings.String.
From stdpp Require Import functions.
From S2P Require Import Prelude Words Ordered Digest Text.

Local Open Scope N_scope.

(** ** Classes and scopes *)

Inductive AdmissionClass := Query | Fragment | Shuffle | Locator | Hydration.

Global Instance class_eq_dec : EqDecision AdmissionClass.
Proof. solve_decision. Defined.

Definition ALL : list AdmissionClass := [Query; Fragment; Shuffle; Locator; Hydration].

Inductive AdmissionScope := Global | Tenant.

Global Instance scope_eq_dec : EqDecision AdmissionScope.
Proof. solve_decision. Defined.

Inductive Role := QueryRole | FragmentRole | LocatorRole | HydrationRole.

(** [path.contains(needle)]. *)
Fixpoint contains (needle path : list byte) : bool :=
  bool_decide (is_Some (strip_prefix needle path))
  || match path with [] => false | _ :: path => contains needle path end.

Definition admission_class (role : Role) (path : string) : option AdmissionClass :=
  let path := as_bytes path in
  if negb (bool_decide (is_Some (strip_prefix (as_bytes "/v1/") path))) then None
  else Some match role with
  | QueryRole => Query
  | FragmentRole =>
      if contains (as_bytes "/shuffles/") path || contains (as_bytes "/algebra/") path || contains (as_bytes "/paths/") path
      then Shuffle else Fragment
  | LocatorRole => Locator
  | HydrationRole => Hydration
  end.

(** ** The policy *)

Definition Uuid := list byte.

Record ClassPolicy := {
  max_in_flight : N;
  max_pending : N;
}.

Record TenantPolicyEntry := {
  entry_tenant_id : Uuid;
  entry_query : ClassPolicy;
  entry_fragment : ClassPolicy;
  entry_shuffle : ClassPolicy;
  entry_locator : ClassPolicy;
  entry_hydration : ClassPolicy;
  fragment_worker_max_in_flight : N;
}.

Record TenantAdmissionPolicyFile := {
  policy_format_version : N;
  policy_tenants : list TenantPolicyEntry;
}.

(** The permits the lanes of one tenant are created with. *)
Record TenantAdmissionLanes := {
  execution : AdmissionClass -> N;
  pending : AdmissionClass -> N;
  fragment_worker : N;
}.

Record TenantAdmissionRegistry := {
  policies : gmap Uuid TenantAdmissionLanes;
  policy_sha256 : string;
}.

(** The messages of the policy loader. *)
Inductive PolicyError :=
| PolicyUnreadable
| PolicyNotARegularFile
| PolicySize
| PolicyDigestText
| PolicyChecksum
| PolicyBounds
| PolicyInvalidJson
| PolicyFormat
| PolicyTenantCeiling
| PolicyLimitNotPositive
| PolicyLimitAboveCeiling
| PolicyNoPeerLane
| PolicyFragmentWorker
| PolicyDuplicateTenant
| PolicyCoverage.

Definition MAX_POLICY_BYTES : N := 1048576.

(** What the controller uses of [tokio::sync::Semaphore]: [new] up to
    [MAX_PERMITS] permits, [available_permits], [try_acquire_owned], which
    fails exactly when there is none, and the release of a dropped permit. *)
Class Semaphore := {
  sem : Type;
  max_permits : N;
  sem_new : N -> sem;
  available_permits : sem -> N;
  try_acquire_owned : sem -> option sem;
  release_permit : sem -> sem;
  max_permits_usize : max_permits < U64_LIMIT;
  available_new n : n <= max_permits -> available_permits (sem_new n) = n;
  try_acquire_none s : try_acquire_owned s = None <-> available_permits s = 0;
  try_acquire_some s s' : try_acquire_owned s = Some s' -> available_permits s = available_permits s' + 1;
  available_release s : available_permits (release_permit s) = available_permits s + 1;
}.

Section policy.
Context `{Sha256, Semaphore}.
(** [serde_json::from_slice]. *)
Context (parse_policy : list byte -> option TenantAdmissionPolicyFile).

Definition validate_sha256 (value : string) : result PolicyError unit :=
  fail_if (negb (lower_hex_sha256 value)) PolicyDigestText.

(** [classes[index]]. *)
Definition classes (entry : TenantPolicyEntry) (c : AdmissionClass) : ClassPolicy :=
  match c with
  | Query => entry_query entry
  | Fragment => entry_fragment entry
  | Shuffle => entry_shuffle entry
  | Locator => entry_locator entry
  | Hydration => entry_hydration entry
  end.

Definition check_class (multi_tenant : bool) (global_execution_limits global_pending_limits : AdmissionClass -> N)
    (entry : TenantPolicyEntry) (c : AdmissionClass) : result PolicyError unit :=
  let class := classes entry c in
  _ ← fail_if ((max_in_flight class =? 0) || (max_pending class =? 0)) PolicyLimitNotPositive;
  _ ← fail_if ((global_execution_limits c <? max_in_flight class) || (global_pending_limits c <? max_pending class)
               || (max_permits <? max_in_flight class) || (max_permits <? max_pending class)) PolicyLimitAboveCeiling;
  fail_if (multi_tenant && ((global_execution_limits c <=? max_in_flight class)
                            || (global_pending_limits c <=? max_pending class))) PolicyNoPeerLane.

Definition check_fragment_worker (multi_tenant : bool) (global_fragment_worker_limit : N) (entry : TenantPolicyEntry) :
    result PolicyError unit :=
  let limit := fragment_worker_max_in_flight entry in
  fail_if ((limit =? 0) || (global_fragment_worker_limit <? limit) || (max_permits <? limit)
           || (multi_tenant && (global_fragment_worker_limit <=? limit))
           || (limit <? max_in_flight (classes entry Fragment)) || (limit <? max_in_flight (classes entry Shuffle)))
    PolicyFragmentWorker.

Definition entry_lanes (entry : TenantPolicyEntry) : TenantAdmissionLanes :=
  {| execution c := max_in_flight (classes entry c); pending c := max_pending (classes entry c);
     fragment_worker := fragment_worker_max_in_flight entry |}.

Definition add_tenant (multi_tenant : bool) (global_execution_limits global_pending_limits : AdmissionClass -> N)
    (global_fragment_worker_limit : N) (policies : gmap Uuid TenantAdmissionLanes) (entry : TenantPolicyEntry) :
    result PolicyError (gmap Uuid TenantAdmissionLanes) :=
  _ ← try_map (check_class multi_tenant global_execution_limits global_pending_limits entry) ALL;
  _ ← check_fragment_worker multi_tenant global_fragment_worker_limit entry;
  _ ← fail_if (bool_decide (is_Some (policies !! entry_tenant_id entry))) PolicyDuplicateTenant;
  Ok (<[entry_tenant_id entry := entry_lanes entry]> policies).

Definition from_bytes (bytes : list byte) (expected_sha256 : string) (max_tenants : nat) (authorized_tenants : gset Uuid)
    (global_execution_limits global_pending_limits : AdmissionClass -> N) (global_fragment_worker_limit : N) :
    result PolicyError TenantAdmissionRegistry :=
  _ ← fail_if (bool_decide (bytes = [])
               || match u64_of_len (length bytes) with Some n => MAX_POLICY_BYTES <? n | None => true end) PolicySize;
  _ ← validate_sha256 expected_sha256;
  let observed_sha256 := hex_encode (sha256 bytes) in
  _ ← fail_if (negb (bool_decide (observed_sha256 = expected_sha256))) PolicyChecksum;
  _ ← fail_if ((max_tenants =? 0)%nat || bool_decide (authorized_tenants = ∅)) PolicyBounds;
  file ← ok_or (parse_policy bytes) PolicyInvalidJson;
  _ ← fail_if (negb (policy_format_version file =? 1) || bool_decide (policy_tenants file = [])) PolicyFormat;
  _ ← fail_if (max_tenants <? length (policy_tenants file))%nat PolicyTenantCeiling;
  let multi_tenant := (1 <? size authorized_tenants)%nat in
  policies ← try_fold (add_tenant multi_tenant global_execution_limits global_pending_limits global_fragment_worker_limit)
               ∅ (policy_tenants file);
  _ ← fail_if (negb (bool_decide (dom policies = authorized_tenants))) PolicyCoverage;
  Ok {| policies := policies; policy_sha256 := observed_sha256 |}.

(** [fs::metadata], then [fs::read]: [None] where there is no file, the flag
    tells a regular file. *)
Definition load (path : option (bool * list byte)) (expected_sha256 : string) (max_tenants : nat) (authorized_tenants : gset Uuid)
    (global_execution_limits global_pending_limits : AdmissionClass -> N) (global_fragment_worker_limit : N) :
    result PolicyError TenantAdmissionRegistry :=
  '(regular, bytes) ← ok_or path PolicyUnreadable;
  _ ← fail_if (negb regular || (N.of_nat (length bytes) =? 0) || (MAX_POLICY_BYTES <? N.of_nat (length bytes))) PolicyNotARegularFile;
  from_bytes bytes expected_sha256 max_tenants authorized_tenants global_execution_limits global_pending_limits
    global_fragment_worker_limit.
End policy.

(** ** The controller *)

(** The semaphores a request can hold a permit of. *)
Inductive Lane :=
| TenantPending (tenant : Uuid) (c : AdmissionClass)
| GlobalPending (c : AdmissionClass)
| TenantExecution (tenant : Uuid) (c : AdmissionClass)
| TenantFragmentWorker (tenant : Uuid)
| GlobalExecution (c : AdmissionClass)
| GlobalFragmentWorker.

Global Instance lane_eq_dec : EqDecision Lane.
Proof. solve_decision. Defined.

Record Limits := {
  limits : AdmissionClass -> N;
  pending_limits : AdmissionClass -> N;
  fragment_worker_limit : N;
  tenants : TenantAdmissionRegistry;
}.

Inductive AdmissionFailure :=
| TimedOut (scope : AdmissionScope)
| UnknownTenant.

(** Where a request stands.  [Waiting held rest]: it is queued, holds permits
    of [held] and waits for the lanes of [rest] in turn.  [Serving failed]: its
    [AdmissionLease]. *)
Inductive Phase :=
| Arrived
| TenantQueued
| Waiting (held rest : list Lane)
| Serving (failed : bool)
| Refused (failure : AdmissionFailure)
| Gone.

Record Request := {
  class : AdmissionClass;
  tenant_id : Uuid;
  phase : Phase;
}.

Record AdmissionCounters := {
  admitted : N;
  rejected : N;
  in_flight : N;
  completed : N;
  failed : N;
  tenant_rejections : N;
}.

Definition zero_counters : AdmissionCounters :=
  {| admitted := 0; rejected := 0; in_flight := 0; completed := 0; failed := 0; tenant_rejections := 0 |}.

(** [counter.fetch_add(1)] and [counter.fetch_sub(1)] wrap around. *)
Definition fetch_add (n : N) : N := wrapping U64_LIMIT (n + 1).
Definition fetch_sub (n : N) : N := wrapping U64_LIMIT (n + U64_MAX).

(** The limits of the deployment, checked before the controller is created. *)
Inductive ConfigError :=
| LimitNotPositive
| LimitAboveSemaphoreCeiling
| FragmentWorkerTooSmall
| PolicyRejected (e : PolicyError).

Section configure.
Context `{Sha256, Semaphore} (parse_policy : list byte -> option TenantAdmissionPolicyFile).

Definition check_limits (admission_limits admission_pending_limits : AdmissionClass -> N) (worker_limit : N) :
    result ConfigError unit :=
  let all := (admission_limits <$> ALL) ++ (admission_pending_limits <$> ALL) ++ [worker_limit] in
  _ ← fail_if (existsb (fun limit => limit =? 0) all) LimitNotPositive;
  _ ← fail_if (existsb (fun limit => max_permits <? limit) all) LimitAboveSemaphoreCeiling;
  fail_if ((worker_limit <? admission_limits Fragment) || (worker_limit <? admission_limits Shuffle)) FragmentWorkerTooSmall.

Definition configure (admission_limits admission_pending_limits : AdmissionClass -> N) (worker_limit : N)
    (policy_file : option (bool * list byte)) (policy_digest : string) (max_tenants : nat) (query_tenant_ids : gset Uuid) :
    result ConfigError Limits :=
  _ ← check_limits admission_limits admission_pending_limits worker_limit;
  registry ← map_err PolicyRejected (load parse_policy policy_file policy_digest max_tenants query_tenant_ids
                                       admission_limits admission_pending_limits worker_limit);
  Ok {| limits := admission_limits; pending_limits := admission_pending_limits; fragment_worker_limit := worker_limit;
        tenants := registry |}.
End configure.

Section controller.
Context `{Semaphore} (ctl : Limits).

Record State := {
  lanes : Lane -> sem;
  counters : AdmissionClass -> AdmissionCounters;
  requests : gmap nat Request;
}.

(** The permits each semaphore is created with. *)
Definition capacity (l : Lane) : option N :=
  match l with
  | TenantPending t c => (fun lanes => pending lanes c) <$> policies (tenants ctl) !! t
  | TenantExecution t c => (fun lanes => execution lanes c) <$> policies (tenants ctl) !! t
  | TenantFragmentWorker t => fragment_worker <$> policies (tenants ctl) !! t
  | GlobalPending c => Some (pending_limits ctl c)
  | GlobalExecution c => Some (limits ctl c)
  | GlobalFragmentWorker => Some (fragment_worker_limit ctl)
  end.

Definition initial : State :=
  {| lanes l := sem_new (default 0 (capacity l)); counters _ := zero_counters; requests := ∅ |}.

Definition shares_fragment_worker (c : AdmissionClass) : bool :=
  match c with Fragment | Shuffle => true | _ => false end.

(** The execution lanes in the order [acquire] takes them. *)
Definition path (t : Uuid) (c : AdmissionClass) : list Lane :=
  [TenantExecution t c] ++ (if shares_fragment_worker c then [TenantFragmentWorker t] else [])
  ++ [GlobalExecution c] ++ (if shares_fragment_worker c then [GlobalFragmentWorker] else []).

Definition lane_scope (l : Lane) : AdmissionScope :=
  match l with
  | TenantPending _ _ | TenantExecution _ _ | TenantFragmentWorker _ => Tenant
  | GlobalPending _ | GlobalExecution _ | GlobalFragmentWorker => Global
  end.

Definition take_permit (l : Lane) (store : Lane -> sem) : option (Lane -> sem) :=
  (fun s => <[l := s]> store) <$> try_acquire_owned (store l).

(** Dropped permits return to their semaphores. *)
Definition drop_permits (ls : list Lane) (store : Lane -> sem) : Lane -> sem :=
  foldr (fun l store => <[l := release_permit (store l)]> store) store ls.

Definition on_admission (k : AdmissionCounters) : AdmissionCounters :=
  {| admitted := fetch_add (admitted k); rejected := rejected k; in_flight := fetch_add (in_flight k);
     completed := completed k; failed := failed k; tenant_rejections := tenant_rejections k |}.

(** [AdmissionController::reject]. *)
Definition reject (scope : AdmissionScope) (k : AdmissionCounters) : AdmissionCounters :=
  {| admitted := admitted k; rejected := fetch_add (rejected k); in_flight := in_flight k;
     completed := completed k; failed := failed k;
     tenant_rejections := if bool_decide (scope = Tenant) then fetch_add (tenant_rejections k) else tenant_rejections k |}.

(** [impl Drop for AdmissionLease]. *)
Definition on_drop (lease_failed : bool) (k : AdmissionCounters) : AdmissionCounters :=
  {| admitted := admitted k; rejected := rejected k; in_flight := fetch_sub (in_flight k);
     completed := fetch_add (completed k); failed := if lease_failed then fetch_add (failed k) else failed k;
     tenant_rejections := tenant_rejections k |}.

(** The next atomic operation of [acquire]; [None] while it waits for a permit
    or when it has returned. *)
Definition advance (r : Request) (st : State) : option (Phase * (Lane -> sem) * (AdmissionCounters -> AdmissionCounters)) :=
  let t := tenant_id r in let c := class r in
  match phase r with
  | Arrived =>
      match policies (tenants ctl) !! t with
      | None => Some (Refused UnknownTenant, lanes st, id)
      | Some _ =>
          match take_permit (TenantPending t c) (lanes st) with
          | Some store => Some (TenantQueued, store, id)
          | None => Some (Refused (TimedOut Tenant), lanes st, id)
          end
      end
  | TenantQueued =>
      match take_permit (GlobalPending c) (lanes st) with
      | Some store => Some (Waiting [] (path t c), store, id)
      | None => Some (Refused (TimedOut Global), drop_permits [TenantPending t c] (lanes st), id)
      end
  | Waiting held (l :: rest) =>
      store ← take_permit l (lanes st);
      Some (Waiting (held ++ [l]) rest, store, id)
  | Waiting held [] => Some (Serving false, drop_permits [TenantPending t c; GlobalPending c] (lanes st), on_admission)
  | Serving _ | Refused _ | Gone => None
  end.

(** The deadline passes while [acquire_before] waits for the next lane. *)
Definition time_out (r : Request) (st : State) : option (Phase * (Lane -> sem) * (AdmissionCounters -> AdmissionCounters)) :=
  match phase r with
  | Waiting held (l :: rest) =>
      Some (Refused (TimedOut (lane_scope l)),
            drop_permits (held ++ [GlobalPending (class r); TenantPending (tenant_id r) (class r)]) (lanes st), id)
  | _ => None
  end.

(** The middleware answers a refused request, counting all but an unknown tenant. *)
Definition answer_refusal (r : Request) (st : State) : option (Phase * (Lane -> sem) * (AdmissionCounters -> AdmissionCounters)) :=
  match phase r with
  | Refused (TimedOut scope) => Some (Gone, lanes st, reject scope)
  | Refused UnknownTenant => Some (Gone, lanes st, id)
  | _ => None
  end.

(** The response, or an error in its body, sets the flag of the lease. *)
Definition mark (flag : bool) (r : Request) (st : State) : option (Phase * (Lane -> sem) * (AdmissionCounters -> AdmissionCounters)) :=
  match phase r with
  | Serving _ => Some (Serving flag, lanes st, id)
  | _ => None
  end.

(** The future or the response body is dropped: a waiting request gives up its
    permits, a lease is released. *)
Definition drop_request (r : Request) (st : State) : option (Phase * (Lane -> sem) * (AdmissionCounters -> AdmissionCounters)) :=
  match phase r with
  | Waiting held (l :: rest) =>
      Some (Gone, drop_permits (held ++ [GlobalPending (class r); TenantPending (tenant_id r) (class r)]) (lanes st), id)
  | Serving lease_failed => Some (Gone, drop_permits (path (tenant_id r) (class r)) (lanes st), on_drop lease_failed)
  | _ => None
  end.

Inductive Event :=
| Arrive (i : nat) (role : Role) (url : string) (tenant : Uuid)
| Advance (i : nat)
| TimeOut (i : nat)
| Answer (i : nat)
| Mark (i : nat) (flag : bool)
| Drop (i : nat).

(** One request takes its step. *)
Definition update (i : nat) (f : Request -> State -> option (Phase * (Lane -> sem) * (AdmissionCounters -> AdmissionCounters)))
    (st : State) : option State :=
  r ← requests st !! i;
  '(p, store, count) ← f r st;
  Some {| lanes := store; counters := <[class r := count (counters st (class r))]> (counters st);
          requests := <[i := {| class := class r; tenant_id := tenant_id r; phase := p |}]> (requests st) |}.

Definition handle (e : Event) (st : State) : option State :=
  match e with
  | Arrive i role url t =>
      match requests st !! i with
      | Some _ => None
      | None =>
          match admission_class role url with
          | None => Some st
          | Some c => Some {| lanes := lanes st; counters := counters st;
                              requests := <[i := {| class := c; tenant_id := t; phase := Arrived |}]> (requests st) |}
          end
      end
  | Advance i => update i advance st
  | TimeOut i => update i time_out st
  | Answer i => update i answer_refusal st
  | Mark i flag => update i (mark flag) st
  | Drop i => update i drop_request st
  end.

Inductive reachable : State -> Prop :=
| reach_initial : reachable initial
| reach_step st e st' : reachable st -> handle e st = Some st' -> reachable st'.

End controller.

Arguments drop_permits : simpl never.
Arguments take_permit : simpl never.

(** ** Permits held by requests *)

Definition multiplicity (l : Lane) (ls : list Lane) : N := N.of_nat (length (filter (eq l) ls)).

Lemma multiplicity_app l ks ls : multiplicity l (ks ++ ls) = multiplicity l ks + multiplicity l ls.
Proof. unfold multiplicity. rewrite filter_app, length_app. lia. Qed.

Lemma multiplicity_cons l k ls : multiplicity l (k :: ls) = (if decide (l = k) then 1 else 0) + multiplicity l ls.
Proof. unfold multiplicity. rewrite filter_cons. destruct (decide (l = k)); cbn [length]; lia. Qed.

Lemma multiplicity_nil l : multiplicity l [] = 0.
Proof. done. Qed.

Lemma multiplicity_pos l ls : l ∈ ls <-> 0 < multiplicity l ls.
Proof.
  induction ls as [|k ls IH]; [split; [by intros ?%elem_of_nil|done]|]. rewrite elem_of_cons, multiplicity_cons, IH.
  destruct (decide (l = k)); [split; [lia|by left]|]. split; [intros [?|?]; [done|lia]|intros; right; lia].
Qed.

Definition holds (r : Request) : list Lane :=
  let t := tenant_id r in let c := class r in
  match phase r with
  | TenantQueued => [TenantPending t c]
  | Waiting held _ => held ++ [GlobalPending c; TenantPending t c]
  | Serving _ => path t c
  | Arrived | Refused _ | Gone => []
  end.

Definition held_by (l : Lane) (r : Request) : N := multiplicity l (holds r).

Section permits.
Context `{Semaphore} (ctl : Limits).
Implicit Types (store : Lane -> sem) (st : State) (r : Request).

Definition available (store : Lane -> sem) (l : Lane) : N := available_permits (store l).

(** All permits of a lane in the hands of requests. *)
Definition held (st : State) (l : Lane) : N := map_total (held_by l <$> requests st).

Lemma take_permit_some l store store' : take_permit l store = Some store' ->
  forall k, available store k = available store' k + multiplicity k [l].
Proof.
  unfold take_permit. destruct (try_acquire_owned (store l)) as [s|] eqn:Hs; [|done]. intros [= <-] k.
  rewrite multiplicity_cons, multiplicity_nil. unfold available. destruct (decide (k = l)) as [->|Hk].
  - rewrite fn_lookup_insert. rewrite (try_acquire_some _ _ Hs). lia.
  - rewrite fn_lookup_insert_ne by done. lia.
Qed.

Lemma take_permit_none l store : take_permit l store = None <-> available store l = 0.
Proof. unfold take_permit, available. rewrite <- try_acquire_none. by destruct (try_acquire_owned (store l)). Qed.

Lemma available_drop ls store k : available (drop_permits ls store) k = available store k + multiplicity k ls.
Proof.
  induction ls as [|l ls IH]; [by rewrite multiplicity_nil, N.add_0_r|]. rewrite multiplicity_cons.
  change (drop_permits (l :: ls) store)
    with (<[l := release_permit (drop_permits ls store l)]> (drop_permits ls store) : Lane -> sem).
  unfold available in *. destruct (decide (k = l)) as [->|Hk].
  - rewrite fn_lookup_insert, available_release, IH. lia.
  - rewrite fn_lookup_insert_ne by done. rewrite IH. lia.
Qed.

Definition registered (t : Uuid) : Prop := is_Some (policies (tenants ctl) !! t).

(** A queued request belongs to a tenant of the policy, and a waiting one holds
    a prefix of its way. *)
Definition well_formed (r : Request) : Prop :=
  match phase r with
  | TenantQueued | Serving _ => registered (tenant_id r)
  | Waiting held rest => registered (tenant_id r) /\ held ++ rest = path (tenant_id r) (class r)
  | Arrived | Refused _ | Gone => True
  end.

(** A step of one request gives to the semaphores what it takes from itself,
    and leaves the request well-formed. *)
Definition balanced (f : Request -> State -> option (Phase * (Lane -> sem) * (AdmissionCounters -> AdmissionCounters))) : Prop :=
  forall r st p store count, f r st = Some (p, store, count) -> well_formed r ->
    let r' := {| class := class r; tenant_id := tenant_id r; phase := p |} in
    well_formed r' /\ forall l, available store l + held_by l r' = available (lanes st) l + held_by l r.

#[local] Opaque path.

Ltac tally :=
  split; [unfold well_formed in *; cbn in *; naive_solver|]; intros l;
  unfold held_by, holds; cbn [class tenant_id phase];
  rewrite ?available_drop, ?multiplicity_app, ?multiplicity_cons, ?multiplicity_nil; lia.

Lemma advance_balanced : balanced (advance ctl).
Proof.
  intros [c t ph] st p store count Hs Hwf. unfold advance in Hs. cbn [class tenant_id phase] in *. cbv zeta.
  destruct ph as [| |hs [|k rest]| | |]; try done.
  - destruct (policies (tenants ctl) !! t) eqn:Hreg; [|injection Hs as <- <- <-; tally].
    destruct (take_permit (TenantPending t c) (lanes st)) as [store1|] eqn:Ht; injection Hs as <- <- <-; [|tally].
    split; [by eexists|]. intros l. rewrite (take_permit_some _ _ _ Ht l). unfold held_by, holds; cbn [phase class tenant_id].
    rewrite multiplicity_nil. lia.
  - destruct (take_permit (GlobalPending c) (lanes st)) as [store1|] eqn:Ht; injection Hs as <- <- <-; [|tally].
    split; [done|]. intros l. rewrite (take_permit_some _ _ _ Ht l). unfold held_by, holds; cbn [phase class tenant_id app].
    rewrite !multiplicity_cons, !multiplicity_nil. lia.
  - injection Hs as <- <- <-. unfold well_formed in Hwf. cbn in Hwf. rewrite app_nil_r in Hwf. destruct Hwf as [? ->]. tally.
  - destruct (take_permit k (lanes st)) as [store1|] eqn:Ht; [|done]. injection Hs as <- <- <-. split.
    + unfold well_formed in *. cbn in *. destruct Hwf as [? Hwf]. by rewrite <- Hwf, <- (assoc (++)).
    + intros l. rewrite (take_permit_some _ _ _ Ht l). unfold held_by, holds; cbn [phase class tenant_id].
      rewrite !multiplicity_app. lia.
Qed.

Lemma time_out_balanced : balanced time_out.
Proof.
  intros [c t ph] st p store count Hs Hwf. unfold time_out in Hs. cbn [class tenant_id phase] in *. cbv zeta.
  destruct ph as [| |hs [|k rest]| | |]; try done. injection Hs as <- <- <-. tally.
Qed.

Lemma answer_balanced : balanced answer_refusal.
Proof.
  intros [c t ph] st p store count Hs Hwf. unfold answer_refusal in Hs. cbn [class tenant_id phase] in *. cbv zeta.
  destruct ph as [| | | |[]|]; try done; injection Hs as <- <- <-; tally.
Qed.

Lemma mark_balanced flag : balanced (mark flag).
Proof.
  intros [c t ph] st p store count Hs Hwf. unfold mark in Hs. cbn [class tenant_id phase] in *. cbv zeta.
  destruct ph; try done. injection Hs as <- <- <-. tally.
Qed.

Lemma drop_balanced : balanced drop_request.
Proof.
  intros [c t ph] st p store count Hs Hwf. unfold drop_request in Hs. cbn [class tenant_id phase] in *. cbv zeta.
  destruct ph as [| |hs [|k rest]| | |]; try done; injection Hs as <- <- <-; tally.
Qed.
#[local] Transparent path.

(** *** Leases and their counters *)

Definition is_serving (r : Request) : bool := match phase r with Serving _ => true | _ => false end.

Definition serves (c : AdmissionClass) (r : Request) : N := if is_serving r && bool_decide (class r = c) then 1 else 0.

(** The outstanding leases of a class. *)
Definition serving (st : State) (c : AdmissionClass) : N := map_total (serves c <$> requests st).

(** A step changes the lease counters with the lease. *)
Inductive counted (r r' : Request) : (AdmissionCounters -> AdmissionCounters) -> Prop :=
| counted_admission : is_serving r = false -> is_serving r' = true -> counted r r' on_admission
| counted_drop flag : is_serving r = true -> is_serving r' = false -> counted r r' (on_drop flag)
| counted_none count : is_serving r' = is_serving r ->
    (forall k, admitted (count k) = admitted k /\ in_flight (count k) = in_flight k /\ completed (count k) = completed k) ->
    counted r r' count.

Definition counts (f : Request -> State -> option (Phase * (Lane -> sem) * (AdmissionCounters -> AdmissionCounters))) : Prop :=
  forall r st p store count, f r st = Some (p, store, count) ->
    counted r {| class := class r; tenant_id := tenant_id r; phase := p |} count.

Ltac count_cases Hs :=
  repeat match type of Hs with
  | match ?x with _ => _ end = Some _ => destruct x eqn:?
  | _ ≫= _ = Some _ => let E := fresh in apply bind_Some in Hs as (? & E & Hs)
  end; try discriminate Hs; injection Hs as <- <- <-;
  (apply counted_admission || apply counted_drop || apply counted_none);
  unfold is_serving; cbn [phase]; by try match goal with H : phase _ = _ |- _ => rewrite H end.

Lemma advance_counts : counts (advance ctl).
Proof. intros r st p store count Hs. unfold advance in Hs. count_cases Hs. Qed.
Lemma time_out_counts : counts time_out.
Proof. intros r st p store count Hs. unfold time_out in Hs. count_cases Hs. Qed.
Lemma answer_counts : counts answer_refusal.
Proof. intros r st p store count Hs. unfold answer_refusal in Hs. count_cases Hs. Qed.
Lemma mark_counts flag : counts (mark flag).
Proof. intros r st p store count Hs. unfold mark in Hs. count_cases Hs. Qed.
Lemma drop_counts : counts drop_request.
Proof. intros r st p store count Hs. unfold drop_request in Hs. count_cases Hs. Qed.
End permits.

(** ** Invariants of every interleaving *)

(** Every semaphore exists and has room for its permits. *)
Definition configured `{Semaphore} (ctl : Limits) : Prop :=
  forall l n, capacity ctl l = Some n -> 0 < n <= max_permits.

Record invariant `{Semaphore} (ctl : Limits) (st : State) : Prop := {
  inv_requests : forall i r, requests st !! i = Some r -> well_formed ctl r;
  inv_permits : forall l n, capacity ctl l = Some n -> available (lanes st) l + held st l = n;
  inv_in_flight : forall c, in_flight (counters st c) = serving st c;
  inv_admitted : forall c, admitted (counters st c) = wrapping U64_LIMIT (in_flight (counters st c) + completed (counters st c));
}.

Section invariants.
Context `{Semaphore} (ctl : Limits) (Hctl : configured ctl).
Implicit Types (st : State) (r : Request).

Lemma invariant_initial : invariant ctl (initial ctl).
Proof using Hctl.
  split.
  - intros i r Hr. cbn in Hr. by rewrite lookup_empty in Hr.
  - intros l n Hn. assert (held (initial ctl) l = 0) as -> by done. unfold available. cbn.
    rewrite Hn. cbn. rewrite available_new; [apply N.add_0_r|]. by apply (Hctl l n).
  - done.
  - done.
Qed.

Lemma held_update st i r r' store ks l : requests st !! i = Some r ->
  held {| lanes := store; counters := ks; requests := <[i := r']> (requests st) |} l + held_by l r = held st l + held_by l r'.
Proof using Type.
  clear Hctl. intros Hr. unfold held. cbn. rewrite fmap_insert. apply map_total_update. by rewrite lookup_fmap, Hr.
Qed.

Lemma serving_update st i r r' store ks c : requests st !! i = Some r ->
  serving {| lanes := store; counters := ks; requests := <[i := r']> (requests st) |} c + serves c r = serving st c + serves c r'.
Proof using Type.
  clear Hctl. intros Hr. unfold serving. cbn. rewrite fmap_insert. apply map_total_update. by rewrite lookup_fmap, Hr.
Qed.

(** Every lease holds a permit of its class. *)
Lemma serves_held c r : serves c r <= held_by (GlobalExecution c) r.
Proof using Type.
  clear Hctl. unfold serves, is_serving, held_by, holds. destruct r as [k t []]; cbn [phase class tenant_id andb]; try lia.
  case_bool_decide as Hk; [|lia]. subst k. assert (0 < multiplicity (GlobalExecution c) (path t c)); [|lia].
  apply multiplicity_pos. unfold path. rewrite !elem_of_app. right; right; left. by apply list_elem_of_singleton.
Qed.

Lemma serving_bound st c : (forall l n, capacity ctl l = Some n -> available (lanes st) l + held st l = n) ->
  serving st c <= limits ctl c /\ serving st c < U64_LIMIT.
Proof using Hctl.
  intros Hp. assert (serving st c <= held st (GlobalExecution c)) as Hle.
  { apply map_total_fmap_le. intros i r _. apply serves_held. }
  specialize (Hp (GlobalExecution c) _ eq_refl). pose proof (Hctl (GlobalExecution c) _ eq_refl) as [_ Hmax].
  pose proof max_permits_usize. lia.
Qed.

Lemma fetch_add_small n : n + 1 < U64_LIMIT -> fetch_add n = n + 1.
Proof using Type. clear Hctl. intros. unfold fetch_add, wrapping. by apply N.mod_small. Qed.

Lemma fetch_sub_pos n : 0 < n < U64_LIMIT -> fetch_sub n = n - 1.
Proof using Type.
  clear Hctl. intros [Hn Hlt]. unfold fetch_sub, wrapping, U64_MAX.
  replace (n + (U64_LIMIT - 1)) with (n - 1 + 1 * U64_LIMIT) by (pose proof (eq_refl : U64_LIMIT = 2 ^ 64); lia).
  rewrite N.Div0.mod_add. apply N.mod_small. lia.
Qed.

(** The counters follow the leases. *)
Lemma counted_counters r r' count k n n' : counted r r' count -> class r' = class r -> in_flight k = n ->
  n' + serves (class r) r = n + serves (class r) r' -> n < U64_LIMIT -> n' < U64_LIMIT ->
  admitted k = wrapping U64_LIMIT (in_flight k + completed k) ->
  in_flight (count k) = n' /\ admitted (count k) = wrapping U64_LIMIT (in_flight (count k) + completed (count k)).
Proof using Type.
  clear Hctl. intros Hc Hk <-. unfold serves. rewrite Hk, bool_decide_eq_true_2, !andb_true_r by done.
  destruct Hc as [H1 H2|flag H1 H2|count H1 Hsame]; rewrite H1, ?H2; intros Hn Hlt Hlt' Had.
  - cbn. rewrite fetch_add_small by lia. split; [lia|]. rewrite Had. unfold fetch_add, wrapping.
    rewrite N.Div0.add_mod_idemp_l. f_equal. lia.
  - cbn. rewrite fetch_sub_pos by lia. split; [lia|]. rewrite Had. unfold fetch_add, wrapping.
    rewrite N.Div0.add_mod_idemp_r. f_equal. lia.
  - destruct (Hsame k) as (-> & -> & ->). split; [lia|done].
Qed.

Lemma update_invariant i f st st' : balanced ctl f -> counts f -> update i f st = Some st' -> invariant ctl st -> invariant ctl st'.
Proof using Hctl.
  intros Hb Hc Hu [Hreq Hperm Hfl Had]. unfold update in Hu.
  apply bind_Some in Hu as (r & Hr & Hu). apply bind_Some in Hu as ([[p store] count] & Hf & Hu). injection Hu as <-.
  set (r' := {| class := class r; tenant_id := tenant_id r; phase := p |}).
  destruct (Hb _ _ _ _ _ Hf (Hreq _ _ Hr)) as [Hwf Hbal]. specialize (Hc _ _ _ _ _ Hf). fold r' in Hwf, Hbal, Hc.
  set (st' := {| lanes := store; counters := _; requests := _ |}).
  assert (forall l n, capacity ctl l = Some n -> available (lanes st') l + held st' l = n) as Hperm'.
  { intros l n Hn. specialize (Hperm l n Hn). specialize (Hbal l).
    pose proof (held_update st i r r' store (counters st') l Hr). unfold st' in *. cbn in *. lia. }
  assert (forall c, in_flight (counters st' c) = serving st' c /\
            admitted (counters st' c) = wrapping U64_LIMIT (in_flight (counters st' c) + completed (counters st' c))) as Hcount.
  { intros c. pose proof (serving_update st i r r' store (counters st') c Hr) as Hs. change (counters st' c) with
      ((<[class r := count (counters st (class r))]> (counters st) : AdmissionClass -> AdmissionCounters) c).
    destruct (decide (c = class r)) as [->|Hne].
    - rewrite fn_lookup_insert. eapply counted_counters; [done|done|apply Hfl|exact Hs|by apply serving_bound..|apply Had].
    - rewrite fn_lookup_insert_ne by done. split; [|apply Had]. rewrite Hfl. unfold serves in Hs. cbn in Hs.
      rewrite (bool_decide_eq_false_2 (class r = c)), !andb_false_r in Hs by congruence. unfold st'. lia. }
  split; [|exact Hperm'|apply Hcount|apply Hcount].
  intros j s. unfold st'. cbn. rewrite lookup_insert_Some. intros [[<- <-]|[_ Hs]]; [done|by eapply Hreq].
Qed.

Lemma handle_invariant e st st' : handle ctl e st = Some st' -> invariant ctl st -> invariant ctl st'.
Proof using Hctl.
  destruct e as [i role url t|i|i|i|i flag|i]; cbn [handle].
  - destruct (requests st !! i) eqn:Hi; [done|]. destruct (admission_class role url) as [c|]; [|by intros [= <-]].
    intros [= <-] [Hreq Hperm Hfl Had]. split; cbn.
    + intros j s. rewrite lookup_insert_Some. intros [[<- <-]|[_ Hs]]; [done|by eapply Hreq].
    + intros l n Hn. rewrite <- (Hperm l n Hn). unfold held. cbn. rewrite fmap_insert, map_total_insert; [done|]. by rewrite lookup_fmap, Hi.
    + intros k. rewrite Hfl. unfold serving. cbn. rewrite fmap_insert, map_total_insert; [done|]. by rewrite lookup_fmap, Hi.
    + done.
  - eauto using update_invariant, advance_balanced, advance_counts.
  - eauto using update_invariant, time_out_balanced, time_out_counts.
  - eauto using update_invariant, answer_balanced, answer_counts.
  - eauto using update_invariant, mark_balanced, mark_counts.
  - eauto using update_invariant, drop_balanced, drop_counts.
Qed.

Lemma reachable_invariant st : reachable ctl st -> invariant ctl st.
Proof using Hctl. induction 1; eauto using invariant_initial, handle_invariant. Qed.
End invariants.

(** ** What a policy that loads promises *)

Section policy_facts.
Context `{Sha256, Semaphore} (parse_policy : list byte -> option TenantAdmissionPolicyFile).
Implicit Types (ge gp : AdmissionClass -> N) (fw : N) (entry : TenantPolicyEntry) (multi : bool).

(** The limits of one tenant within those of the deployment. *)
Record admissible (multi : bool) (ge gp : AdmissionClass -> N) (fw : N) (lanes : TenantAdmissionLanes) : Prop := {
  ad_execution : forall c, 0 < execution lanes c <= ge c /\ execution lanes c <= max_permits;
  ad_pending : forall c, 0 < pending lanes c <= gp c /\ pending lanes c <= max_permits;
  ad_worker : 0 < fragment_worker lanes <= fw /\ fragment_worker lanes <= max_permits;
  ad_shared : execution lanes Fragment <= fragment_worker lanes /\ execution lanes Shuffle <= fragment_worker lanes;
  ad_peer : multi = true -> (forall c, execution lanes c < ge c /\ pending lanes c < gp c) /\ fragment_worker lanes < fw;
}.

Ltac guards := rewrite ?fail_then, ?fail_if_ok, ?orb_false_iff, ?N.eqb_neq, ?N.ltb_ge, ?N.leb_gt.

Lemma check_class_ok multi ge gp entry c :
  check_class multi ge gp entry c = Ok tt <->
  (0 < max_in_flight (classes entry c) <= ge c /\ max_in_flight (classes entry c) <= max_permits) /\
  (0 < max_pending (classes entry c) <= gp c /\ max_pending (classes entry c) <= max_permits) /\
  (multi = true -> max_in_flight (classes entry c) < ge c /\ max_pending (classes entry c) < gp c).
Proof. unfold check_class. destruct multi; cbn [andb]; guards; split; intros; destruct_and?; split_and?; try done; try lia; intros; lia. Qed.

Lemma check_fragment_worker_ok multi fw entry :
  check_fragment_worker multi fw entry = Ok tt <->
  let limit := fragment_worker_max_in_flight entry in
  (0 < limit <= fw /\ limit <= max_permits) /\
  (max_in_flight (classes entry Fragment) <= limit /\ max_in_flight (classes entry Shuffle) <= limit) /\
  (multi = true -> limit < fw).
Proof. unfold check_fragment_worker. destruct multi; cbn [andb]; guards; split; intros; destruct_and?; split_and?; try done; try lia; intros; lia. Qed.

Lemma add_tenant_ok multi ge gp fw m entry m' :
  add_tenant multi ge gp fw m entry = Ok m' <->
  admissible multi ge gp fw (entry_lanes entry) /\ m !! entry_tenant_id entry = None /\
  m' = <[entry_tenant_id entry := entry_lanes entry]> m.
Proof.
  assert ((exists us, try_map (check_class multi ge gp entry) ALL = Ok us) <-> forall c, check_class multi ge gp entry c = Ok tt) as Hall.
  { split.
    - intros [us Hus] c. cbn [ALL try_map] in Hus. inv_steps.
      repeat match goal with u : () |- _ => destruct u end. by destruct c.
    - intros Hc. cbn [ALL try_map]. rewrite !Hc. cbn. eauto. }
  unfold add_tenant. split.
  - intros Ha. inv_steps. destruct a0. apply check_fragment_worker_ok in Ha1 as (Hw & Hsh & Hp). bool_prop.
    pose proof (proj1 Hall (ex_intro _ _ Ha0)) as Hcl. setoid_rewrite check_class_ok in Hcl.
    split_and!; [split; cbn; [apply Hcl..|done|done|]|by apply eq_None_not_Some|done].
    intros Hm. split; [|by apply Hp]. intros c. by apply Hcl.
  - intros ([Hex Hpe Hw Hsh Hp] & Hnone & ->).
    destruct (proj2 Hall) as [us ->].
    { intros c. apply check_class_ok. split; [apply Hex|]. split; [apply Hpe|]. intros Hm. by apply Hp. }
    cbn [mbind result_bind]. rewrite (proj2 (check_fragment_worker_ok multi fw entry)).
    2:{ cbv zeta. split; [apply Hw|]. split; [apply Hsh|]. intros Hm. by apply Hp. }
    cbn [mbind result_bind]. rewrite Hnone. rewrite bool_decide_eq_false_2 by (by intros []). done.
Qed.
Definition policy_binding entry : Uuid * TenantAdmissionLanes := (entry_tenant_id entry, entry_lanes entry).

Lemma add_tenants_ok multi ge gp fw entries : forall m m',
  try_fold (add_tenant multi ge gp fw) m entries = Ok m' <->
  Forall (fun e => admissible multi ge gp fw (entry_lanes e)) entries /\ NoDup (entry_tenant_id <$> entries) /\
  (forall t, t ∈ entry_tenant_id <$> entries -> m !! t = None) /\ m' = list_to_map (policy_binding <$> entries) ∪ m.
Proof.
  induction entries as [|e entries IH]; intros m m'; cbn [try_fold].
  { change (list_to_map (policy_binding <$> [])) with (∅ : gmap Uuid TenantAdmissionLanes). rewrite (left_id_L ∅ (∪)). split; [intros [= ->]; split_and!; [constructor|constructor|by intros ? ?%elem_of_nil|done]|].
    by intros (_ & _ & _ & ->). }
  rewrite !fmap_cons, Forall_cons, NoDup_cons. cbn [list_to_map foldr policy_binding fst snd].
  assert (forall m1, m1 = <[entry_tenant_id e := entry_lanes e]> m -> m !! entry_tenant_id e = None ->
    (entry_tenant_id e ∉ entry_tenant_id <$> entries) ->
    list_to_map (policy_binding <$> entries) ∪ m1
    = <[entry_tenant_id e := entry_lanes e]> (list_to_map (policy_binding <$> entries)) ∪ m) as Hunion.
  { intros m1 -> Hm Hn. rewrite <- insert_union_r, insert_union_l; [done|]. apply not_elem_of_list_to_map_1.
    rewrite <- list_fmap_compose. exact Hn. }
  split.
  - intros (m1 & Ha & Hf)%result_bind_ok. apply add_tenant_ok in Ha as (Had & Hm & Hm1).
    apply IH in Hf as (Hall & Hnd & Hfresh & ->).
    assert (entry_tenant_id e ∉ entry_tenant_id <$> entries) as Hn.
    { intros Hin. specialize (Hfresh _ Hin). by rewrite Hm1, lookup_insert_eq in Hfresh. }
    split_and!; [done..| |by apply Hunion]. intros t [->|Ht]%elem_of_cons; [done|]. specialize (Hfresh t Ht).
    rewrite Hm1, lookup_insert_ne in Hfresh; [done|]. by intros <-.
  - intros ([Had Hall] & [Hn Hnd] & Hfresh & ->).
    assert (m !! entry_tenant_id e = None) as Hm by (apply Hfresh; left).
    rewrite (proj2 (add_tenant_ok multi ge gp fw m e _)) by done. cbn [mbind result_bind]. apply IH. split_and!; [done..| |].
    + intros t Ht. rewrite lookup_insert_ne by (by intros <-). apply Hfresh. by right.
    + symmetry. by apply Hunion.
Qed.

Lemma load_file_ok path digest max_tenants authorized ge gp fw reg :
  load parse_policy path digest max_tenants authorized ge gp fw = Ok reg ->
  exists bytes, path = Some (true, bytes) /\ from_bytes parse_policy bytes digest max_tenants authorized ge gp fw = Ok reg.
Proof.
  unfold load. intros Hl. apply result_bind_ok in Hl as ([regular bytes] & Hp & Hl). inv_steps. bool_prop.
  destruct regular; [|done]. subst. eauto.
Qed.

Lemma from_bytes_ok bytes digest max_tenants authorized ge gp fw reg :
  from_bytes parse_policy bytes digest max_tenants authorized ge gp fw = Ok reg <->
  bytes <> [] /\ N.of_nat (length bytes) <= MAX_POLICY_BYTES /\ digest = hex_encode (sha256 bytes) /\
  (0 < max_tenants)%nat /\ authorized <> ∅ /\
  exists file, parse_policy bytes = Some file /\ policy_format_version file = 1 /\
    (length (policy_tenants file) <= max_tenants)%nat /\ NoDup (entry_tenant_id <$> policy_tenants file) /\
    list_to_set (entry_tenant_id <$> policy_tenants file) = authorized /\
    Forall (fun e => admissible (1 <? size authorized)%nat ge gp fw (entry_lanes e)) (policy_tenants file) /\
    reg = {| policies := list_to_map (policy_binding <$> policy_tenants file); policy_sha256 := digest |}.
Proof.
  assert (forall file, dom (list_to_map (policy_binding <$> policy_tenants file) ∪ ∅ : gmap Uuid TenantAdmissionLanes)
            = list_to_set (entry_tenant_id <$> policy_tenants file)) as Hdom.
  { intros file. rewrite (right_id_L ∅ (∪)), dom_list_to_map_L, <- list_fmap_compose. done. }
  unfold from_bytes. split.
  - intros Hf. inv_steps. bool_prop.
    apply add_tenants_ok in Ha6 as (Had & Hnd & _ & ->). rewrite Hdom in Ha7.
    destruct (u64_of_len (length bytes)) as [n|] eqn:Hn; [|done]. apply u64_of_len_some in Hn as [-> _]. bool_prop.
    rewrite (right_id_L ∅ (∪)) in Hf. split_and!; [done|done|done|lia|done|]. exists a3. split_and!; try done. congruence.
  - intros (Hb & Hlen & -> & Hmax & Hau & file & Hp & Hv & Hl & Hnd & Hset & Had & ->).
    rewrite (bool_decide_eq_false_2 (bytes = [])) by done.
    assert (u64_of_len (length bytes) = Some (N.of_nat (length bytes))) as ->.
    { apply u64_of_len_some. split; [done|]. unfold MAX_POLICY_BYTES in Hlen. unfold U64_LIMIT. lia. }
    rewrite (proj2 (N.ltb_ge _ _) Hlen). unfold validate_sha256. rewrite hex_encode_lower.
    rewrite (bool_decide_eq_true_2 (hex_encode (sha256 bytes) = hex_encode (sha256 bytes))) by done.
    rewrite (proj2 (Nat.eqb_neq max_tenants 0)) by lia. rewrite (bool_decide_eq_false_2 (authorized = ∅)) by done.
    rewrite Hp. cbn [fail_if orb negb ok_or mbind result_bind]. rewrite Hv.
    assert (policy_tenants file <> []) as Hne by (intros E; rewrite E in Hset; by subst authorized).
    rewrite (bool_decide_eq_false_2 (policy_tenants file = [])) by done. rewrite (proj2 (Nat.ltb_ge _ _) Hl).
    cbn [fail_if orb negb N.eqb Pos.eqb mbind result_bind].
    rewrite (proj2 (add_tenants_ok (1 <? size authorized)%nat ge gp fw (policy_tenants file) ∅ (list_to_map (policy_binding <$> policy_tenants file) ∪ ∅))).
    2:{ split_and!; [done|done|intros; apply lookup_empty|reflexivity]. }
    cbn [mbind result_bind]. rewrite Hdom. rewrite bool_decide_eq_true_2 by done. by rewrite (right_id_L ∅ (∪)).
Qed.

Lemma registry_lanes bytes digest max_tenants authorized ge gp fw reg t lanes :
  from_bytes parse_policy bytes digest max_tenants authorized ge gp fw = Ok reg -> policies reg !! t = Some lanes ->
  t ∈ authorized /\ admissible (1 <? size authorized)%nat ge gp fw lanes.
Proof.
  intros (_ & _ & _ & _ & _ & file & _ & _ & _ & Hnd & Hset & Had & ->)%from_bytes_ok Ht. cbn in Ht.
  apply elem_of_list_to_map_2, list_elem_of_fmap in Ht as (e & [= -> ->] & He). split.
  - rewrite <- Hset. apply elem_of_list_to_set, list_elem_of_fmap. eauto.
  - rewrite Forall_forall in Had. by apply Had.
Qed.

Lemma registry_covers bytes digest max_tenants authorized ge gp fw reg t :
  from_bytes parse_policy bytes digest max_tenants authorized ge gp fw = Ok reg -> t ∈ authorized -> is_Some (policies reg !! t).
Proof.
  intros (_ & _ & _ & _ & _ & file & _ & _ & _ & Hnd & Hset & Had & ->)%from_bytes_ok Ht. cbn.
  rewrite <- Hset in Ht. apply elem_of_list_to_set, list_elem_of_fmap in Ht as (e & -> & He).
  exists (entry_lanes e). apply elem_of_list_to_map_1; [by rewrite <- list_fmap_compose|]. apply list_elem_of_fmap. by exists e.
Qed.
End policy_facts.

(** ** From the configuration to the running controller *)

Section configured.
Context `{Sha256, Semaphore} (parse_policy : list byte -> option TenantAdmissionPolicyFile).
Context (ge gp : AdmissionClass -> N) (fw : N) (policy_file : option (bool * list byte)) (digest : string)
  (max_tenants : nat) (authorized : gset Uuid) (ctl : Limits).
Context (Hconf : configure parse_policy ge gp fw policy_file digest max_tenants authorized = Ok ctl).

Lemma check_limits_ok : check_limits ge gp fw = Ok tt ->
  (forall c, 0 < ge c <= max_permits /\ 0 < gp c <= max_permits) /\ 0 < fw <= max_permits.
Proof using Type.
  clear Hconf. unfold check_limits. intros Hc. inv_steps. clear Hc. cbn [fmap list_fmap ALL app existsb] in *. bool_prop.
  split; [intros []|]; lia.
Qed.

Lemma configure_ok :
  ((forall c, 0 < ge c <= max_permits /\ 0 < gp c <= max_permits) /\ 0 < fw <= max_permits) /\
  exists reg bytes, from_bytes parse_policy bytes digest max_tenants authorized ge gp fw = Ok reg /\
    ctl = {| limits := ge; pending_limits := gp; fragment_worker_limit := fw; tenants := reg |}.
Proof using Hconf.
  unfold configure in Hconf. inv_steps. destruct a. split; [by apply check_limits_ok|].
  apply load_file_ok in Ha0 as (bytes & _ & Hb). eauto.
Qed.

Lemma configure_configured : configured ctl.
Proof using Hconf.
  destruct configure_ok as ([Hg Hw] & reg & bytes & Hb & ->). intros l n Hn.
  destruct l as [t c|c|t c|t|c|]; cbn in Hn.
  all: try (apply fmap_Some in Hn as (lanes & Hl & ->); destruct (registry_lanes _ _ _ _ _ _ _ _ _ _ _ Hb Hl) as [_ Had];
    destruct Had as [Hex Hpe Hwk _ _]; first [by split; apply Hpe|by split; apply Hex|by split; apply Hwk]).
  all: injection Hn as <-; first [apply Hg|apply Hw].
Qed.
End configured.

(** ** Deadlock freedom *)

(** The order in which lanes are taken. *)
Definition rank (l : Lane) : nat :=
  match l with
  | TenantPending _ _ | GlobalPending _ | TenantExecution _ _ => 0
  | TenantFragmentWorker _ => 1
  | GlobalExecution _ => 2
  | GlobalFragmentWorker => 3
  end.

Lemma path_ascends t c : StronglySorted (fun a b => rank a < rank b)%nat (path t c).
Proof. destruct c; repeat constructor; cbn; lia. Qed.

Lemma path_lane t c l : l ∈ path t c ->
  l = TenantExecution t c \/ l = TenantFragmentWorker t \/ l = GlobalExecution c \/ l = GlobalFragmentWorker.
Proof. unfold path. destruct c; cbn; set_solver. Qed.

Section progress.
Context `{Semaphore} (ctl : Limits) (Hctl : configured ctl).

Lemma path_capacity t c l : registered ctl t -> l ∈ path t c -> exists n, capacity ctl l = Some n /\ 0 < n.
Proof using Hctl.
  intros [lanes Hl] Hin. assert (is_Some (capacity ctl l)) as [n Hn].
  { destruct (path_lane t c l Hin) as [->|[->|[->| ->]]]; cbn; rewrite ?Hl; eauto. }
  exists n. split; [done|]. by apply (Hctl l n).
Qed.

Lemma advance_enabled i r st x : requests st !! i = Some r -> advance ctl r st = Some x ->
  exists st', handle ctl (Advance i) st = Some st'.
Proof using Type. clear Hctl. intros Hr Ha. cbn [handle]. unfold update. rewrite Hr. cbn. rewrite Ha. destruct x as [[]]. cbn. eauto. Qed.

(** A request that waits for a lane can take it, or another one can move. *)
Lemma waiting_progress st : invariant ctl st -> (forall i r, requests st !! i = Some r -> is_serving r = false) ->
  forall n i r hs l rest, requests st !! i = Some r -> phase r = Waiting hs (l :: rest) -> (4 <= rank l + n)%nat ->
  exists j st', handle ctl (Advance j) st = Some st'.
Proof using Hctl.
  intros Hinv Hserve. induction n as [|n IH]; intros i r hs l rest Hr Hph Hrank; [destruct l; cbn in Hrank; lia|].
  destruct (take_permit l (lanes st)) as [store|] eqn:Ht.
  { exists i. eapply advance_enabled; [done|]. unfold advance. by rewrite Hph, Ht. }
  apply take_permit_none in Ht. pose proof (inv_requests _ _ Hinv _ _ Hr) as Hwf. unfold well_formed in Hwf. rewrite Hph in Hwf.
  destruct Hwf as [Hreg Hpath]. assert (l ∈ path (tenant_id r) (class r)) as Hl by (rewrite <- Hpath; set_solver).
  destruct (path_capacity _ _ _ Hreg Hl) as (cap & Hcap & Hpos). pose proof (inv_permits _ _ Hinv _ _ Hcap) as Hbal.
  destruct (map_total_fmap_pos (held_by l) (requests st)) as (j & s & Hs & Hh); [unfold held in Hbal; lia|].
  apply multiplicity_pos in Hh. pose proof (Hserve _ _ Hs) as Hns. pose proof (inv_requests _ _ Hinv _ _ Hs) as Hwfs.
  apply path_lane in Hl. unfold holds, is_serving, well_formed in *.
  destruct (phase s) as [| |hs' [|l' rest']| | |] eqn:Hps; try done; try (by apply elem_of_nil in Hh).
  - apply list_elem_of_singleton in Hh. naive_solver.
  - exists j. eapply advance_enabled; [done|]. unfold advance. by rewrite Hps.
  - destruct Hwfs as [_ Hps']. eapply (IH j s hs' l' rest'); [done|done|].
    assert (l ∈ hs') as Hin.
    { apply elem_of_app in Hh as [?|Hh]; [done|]. set_unfold in Hh. naive_solver. }
    pose proof (path_ascends (tenant_id s) (class s)) as Hsort. rewrite <- Hps' in Hsort.
    pose proof (StronglySorted_app_1_elem_of _ _ _ _ _ Hsort Hin (list_elem_of_here l' rest')) as Hlt. cbn in Hlt. lia.
Qed.
End progress.

(** ** Who holds what *)

Lemma multiplicity_NoDup l ls : NoDup ls -> multiplicity l ls <= 1.
Proof.
  induction 1 as [|k ls Hk _ IH]; [rewrite multiplicity_nil; lia|]. rewrite multiplicity_cons. destruct (decide (l = k)) as [->|]; [|lia].
  assert (~ 0 < multiplicity k ls) by (by rewrite <- multiplicity_pos). lia.
Qed.

Lemma path_NoDup t c : NoDup (path t c).
Proof. destruct c; cbn; rewrite !NoDup_cons, ?elem_of_cons, ?elem_of_nil; split_and?; try (by apply NoDup_nil_2); naive_solver. Qed.

(** Of its way a request holds every lane before one it holds. *)
Lemma earlier_held t c hs rest g x : hs ++ rest = path t c -> g ∈ hs -> x ∈ path t c -> (rank x <= rank g)%nat -> x ∈ hs.
Proof.
  intros Hp Hg Hx Hr. rewrite <- Hp in Hx. apply elem_of_app in Hx as [?|Hx]; [done|].
  pose proof (path_ascends t c) as Hs. rewrite <- Hp in Hs.
  pose proof (StronglySorted_app_1_elem_of _ _ _ _ _ Hs Hg Hx) as Hlt. cbn in Hlt. lia.
Qed.

Section holders.
Context (ctl : Limits).

Lemma holds_NoDup r : well_formed ctl r -> NoDup (holds r).
Proof.
  unfold well_formed, holds. destruct (phase r) as [| |hs rest| | |]; intros Hwf; try (by apply NoDup_nil_2).
  - apply NoDup_singleton.
  - destruct Hwf as [_ Hp]. apply NoDup_app. split_and!.
    + pose proof (path_NoDup (tenant_id r) (class r)) as Hn. rewrite <- Hp in Hn. by apply NoDup_app in Hn as [].
    + intros l Hl Hin. assert (l ∈ path (tenant_id r) (class r)) as Hl'%path_lane by (rewrite <- Hp; set_solver). set_solver.
    + rewrite !NoDup_cons, elem_of_cons, !elem_of_nil. split_and!; [naive_solver|naive_solver|by apply NoDup_nil_2].
  - apply path_NoDup.
Qed.

Lemma held_le r g x : well_formed ctl r -> (g ∈ holds r -> x ∈ holds r) -> held_by g r <= held_by x r.
Proof.
  intros Hwf Hin. unfold held_by. pose proof (multiplicity_NoDup g _ (holds_NoDup r Hwf)) as Hle.
  destruct (decide (g ∈ holds r)) as [Hg|Hg]; [apply Hin, multiplicity_pos in Hg; lia|].
  rewrite multiplicity_pos in Hg. lia.
Qed.

(** A lane of a tenant is held by its requests only, and a global one by a
    request that holds the lane of its tenant too. *)
Lemma holds_cases r l : well_formed ctl r -> l ∈ holds r ->
  match l with
  | TenantPending t c | TenantExecution t c => t = tenant_id r /\ c = class r
  | TenantFragmentWorker t => t = tenant_id r
  | GlobalPending c => c = class r /\ TenantPending (tenant_id r) c ∈ holds r
  | GlobalExecution c => c = class r /\ TenantExecution (tenant_id r) c ∈ holds r
  | GlobalFragmentWorker => TenantFragmentWorker (tenant_id r) ∈ holds r
  end.
Proof.
  assert (forall k, k ∈ path (tenant_id r) (class r) -> match k with
    | TenantExecution t c => t = tenant_id r /\ c = class r
    | TenantFragmentWorker t => t = tenant_id r
    | GlobalExecution c => c = class r /\ TenantExecution (tenant_id r) c ∈ path (tenant_id r) (class r)
    | GlobalFragmentWorker => TenantFragmentWorker (tenant_id r) ∈ path (tenant_id r) (class r)
    | _ => False end) as Hpath.
  { intros k. unfold path. destruct (class r); cbn; rewrite !elem_of_cons, elem_of_nil; intros Hk; destruct_or! Hk; subst;
      rewrite ?elem_of_cons; naive_solver. }
  unfold well_formed, holds. destruct (phase r) as [| |hs rest| | |]; intros Hwf Hl; try (by apply elem_of_nil in Hl).
  - apply list_elem_of_singleton in Hl as ->. done.
  - destruct Hwf as [_ Hp]. apply elem_of_app in Hl as [Hl|Hl].
    + assert (l ∈ path (tenant_id r) (class r)) as Hl' by (rewrite <- Hp; set_solver). specialize (Hpath l Hl').
      destruct l as [t c|c|t c|t|c|]; try done.
      * destruct Hpath as [-> Ht]. split; [done|]. apply elem_of_app; left.
        eapply (earlier_held _ _ _ _ _ _ Hp Hl Ht). cbn. lia.
      * apply elem_of_app; left. eapply (earlier_held _ _ _ _ _ _ Hp Hl Hpath). cbn. lia.
    + rewrite !elem_of_cons, elem_of_nil in Hl. destruct Hl as [->|[->|[]]]; [|done].
      split; [done|]. apply elem_of_app; right. right. left.
  - specialize (Hpath l Hl). by destruct l.
Qed.
Lemma holder_registered r l : well_formed ctl r -> l ∈ holds r -> registered ctl (tenant_id r) /\ phase r <> Gone.
Proof.
  unfold well_formed, holds. destruct (phase r); intros Hwf Hl; try (by apply elem_of_nil in Hl); naive_solver.
Qed.

Section one_tenant.
Context `{Semaphore} (st : State) (Hinv : invariant ctl st) (a : Uuid).
Context (Honly : forall j r, requests st !! j = Some r -> phase r <> Gone -> tenant_id r = a).

Lemma other_lanes_full l n : capacity ctl l = Some n ->
  (forall r, well_formed ctl r -> l ∈ holds r -> tenant_id r <> a) -> available (lanes st) l = n.
Proof using Hinv Honly.
  intros Hl Hother. rewrite <- (inv_permits _ _ Hinv l n Hl). assert (held st l = 0) as ->; [|lia].
  apply map_total_fmap_zero. intros j r Hr. pose proof (inv_requests _ _ Hinv _ _ Hr) as Hwf.
  destruct (decide (l ∈ holds r)) as [Hin|Hin]; [|rewrite multiplicity_pos in Hin; unfold held_by; lia].
  destruct (holder_registered r l Hwf Hin) as [_ Hg]. exfalso. by apply (Hother r Hwf Hin), (Honly j).
Qed.

(** A global lane that exceeds the lane of the only active tenant has a permit left. *)
Lemma global_lane_left l n (own : Lane) : capacity ctl l = Some n -> 0 < n ->
  (forall r, well_formed ctl r -> l ∈ holds r -> tenant_id r = a -> own ∈ holds r) ->
  (registered ctl a -> exists m, capacity ctl own = Some m /\ m < n) -> 0 < available (lanes st) l.
Proof using Hinv Honly.
  intros Hl Hn Hown Hreg. pose proof (inv_permits _ _ Hinv l n Hl) as Hbal.
  destruct (decide (is_Some (policies (tenants ctl) !! a))) as [Ha|Ha].
  - destruct (Hreg Ha) as (m & Hm & Hlt). pose proof (inv_permits _ _ Hinv own m Hm) as Hbal'.
    assert (held st l <= held st own); [|lia]. apply map_total_fmap_le. intros j r Hr.
    pose proof (inv_requests _ _ Hinv _ _ Hr) as Hwf. apply held_le; [done|]. intros Hin.
    apply Hown; [done|done|]. apply (Honly j); [done|]. by eapply holder_registered.
  - rewrite (other_lanes_full l n Hl); [done|]. intros r Hwf Hin <-. apply Ha. by eapply holder_registered.
Qed.
End one_tenant.
End holders.

(** ** Admission without waiting *)

Section running.
Context `{Semaphore} (ctl : Limits).

(** A sequence of events, [None] when one is not possible. *)
Fixpoint run (es : list Event) (st : State) : option State :=
  match es with
  | [] => Some st
  | e :: es => st' ← handle ctl e st; run es st'
  end.

Lemma run_app es fs st st' : run es st = Some st' -> run (es ++ fs) st = run fs st'.
Proof.
  revert st. induction es as [|e es IH]; intros st; cbn [run app]; [by intros [= ->]|].
  intros (st1 & -> & Hr)%bind_Some. cbn. by apply IH.
Qed.

Lemma take_available l store : 0 < available store l ->
  exists store', take_permit l store = Some store' /\ forall k, k <> l -> available store' k = available store k.
Proof.
  intros Hpos. destruct (take_permit l store) as [store'|] eqn:Ht; [|apply take_permit_none in Ht; lia].
  exists store'. split; [done|]. intros k Hk. pose proof (take_permit_some _ _ _ Ht k) as Hk'.
  rewrite multiplicity_cons, multiplicity_nil, decide_False in Hk' by done. lia.
Qed.

Lemma advance_step i r st p store count : requests st !! i = Some r -> advance ctl r st = Some (p, store, count) ->
  exists st', handle ctl (Advance i) st = Some st' /\ lanes st' = store /\
    requests st' !! i = Some {| class := class r; tenant_id := tenant_id r; phase := p |}.
Proof.
  intros Hr Ha. cbn [handle]. unfold update. rewrite Hr. cbn [mbind option_bind]. rewrite Ha. cbn [mbind option_bind].
  eexists. split; [done|]. split; [done|]. apply lookup_insert_eq.
Qed.

Lemma run_waiting i c t rest : forall hs st, NoDup rest -> (forall l, l ∈ rest -> 0 < available (lanes st) l) ->
  requests st !! i = Some {| class := c; tenant_id := t; phase := Waiting hs rest |} ->
  exists st', run (replicate (S (length rest)) (Advance i)) st = Some st' /\
    requests st' !! i = Some {| class := c; tenant_id := t; phase := Serving false |}.
Proof.
  induction rest as [|l rest IH]; intros hs st Hnd Hav Hr; cbn [length replicate run].
  - destruct (advance_step i _ st _ _ _ Hr eq_refl) as (st' & -> & _ & Hr'). cbn. eauto.
  - apply NoDup_cons in Hnd as [Hl Hnd]. destruct (take_available l (lanes st)) as (store & Ht & Hk); [apply Hav; left|].
    destruct (advance_step i _ st (Waiting (hs ++ [l]) rest) store id Hr) as (st1 & -> & Hst & Hr1).
    { unfold advance. cbn [phase]. by rewrite Ht. }
    cbn [mbind option_bind]. apply (IH (hs ++ [l]) st1 Hnd); [|exact Hr1]. intros k Hin. rewrite Hst, Hk; [apply Hav; by right|].
    by intros ->.
Qed.

(** With a permit left in every lane a request is admitted at once. *)
Lemma run_admission i c t st : registered ctl t -> requests st !! i = Some {| class := c; tenant_id := t; phase := Arrived |} ->
  (forall l, l ∈ TenantPending t c :: GlobalPending c :: path t c -> 0 < available (lanes st) l) ->
  exists st', run (replicate (3 + length (path t c)) (Advance i)) st = Some st' /\
    requests st' !! i = Some {| class := c; tenant_id := t; phase := Serving false |}.
Proof.
  intros [ls Hreg] Hr Hav.
  destruct (take_available (TenantPending t c) (lanes st)) as (store1 & Ht1 & Hk1); [apply Hav; left|].
  destruct (advance_step i _ st TenantQueued store1 id Hr) as (st1 & Hh1 & Hs1 & Hr1).
  { unfold advance. cbn [phase tenant_id class]. by rewrite Hreg, Ht1. }
  destruct (take_available (GlobalPending c) (lanes st1)) as (store2 & Ht2 & Hk2).
  { rewrite Hs1, Hk1 by done. apply Hav. right; left. }
  destruct (advance_step i _ st1 (Waiting [] (path t c)) store2 id Hr1) as (st2 & Hh2 & Hs2 & Hr2).
  { unfold advance. cbn [phase tenant_id class]. by rewrite Ht2. }
  destruct (run_waiting i c t (path t c) [] st2) as (st' & Hrun & Hr').
  - apply path_NoDup.
  - intros l Hl. pose proof (path_lane t c l Hl). rewrite Hs2, Hk2, Hs1, Hk1 by naive_solver. apply Hav. by do 2 right.
  - exact Hr2.
  - exists st'. split; [|done]. change (3 + length (path t c))%nat with (2 + S (length (path t c)))%nat.
    cbn [Nat.add replicate run]. rewrite Hh1. cbn [mbind option_bind run]. rewrite Hh2. cbn [mbind option_bind]. exact Hrun.
Qed.
End running.

(** ** Theorems *)

(** The leases of one tenant in one class, the leases on fragment workers, and
    the requests of a class that wait for an execution lane. *)
Definition tenant_serves (t : Uuid) (c : AdmissionClass) (r : Request) : N := if bool_decide (tenant_id r = t) then serves c r else 0.
Definition worker_serves (r : Request) : N := if is_serving r && shares_fragment_worker (class r) then 1 else 0.
Definition waits (c : AdmissionClass) (r : Request) : N :=
  match phase r with Waiting _ _ => if bool_decide (class r = c) then 1 else 0 | _ => 0 end.

Lemma tenant_serves_held t c r : tenant_serves t c r <= held_by (TenantExecution t c) r.
Proof.
  unfold tenant_serves, serves, is_serving. case_bool_decide as Ht; [subst t|lia].
  destruct (phase r) eqn:Hp; cbn [andb]; try lia. case_bool_decide as Hc; [subst c|lia].
  assert (0 < held_by (TenantExecution (tenant_id r) (class r)) r); [|lia].
  apply multiplicity_pos. unfold holds. rewrite Hp. unfold path. left.
Qed.

Lemma worker_serves_held r : worker_serves r <= held_by GlobalFragmentWorker r.
Proof.
  unfold worker_serves, is_serving. destruct (phase r) eqn:Hp; cbn [andb]; try lia.
  destruct (shares_fragment_worker (class r)) eqn:Hs; [|lia].
  assert (0 < held_by GlobalFragmentWorker r); [|lia]. apply multiplicity_pos. unfold holds. rewrite Hp. unfold path. rewrite Hs.
  rewrite !elem_of_app. do 3 right. left.
Qed.

Lemma waits_held c r : waits c r <= held_by (GlobalPending c) r.
Proof.
  unfold waits. destruct (phase r) eqn:Hp; try lia. case_bool_decide as Hc; [subst c|lia].
  assert (0 < held_by (GlobalPending (class r)) r); [|lia]. apply multiplicity_pos. unfold holds. rewrite Hp.
  apply elem_of_app. right; left.
Qed.

Section theorems.
Context `{Sha256, Semaphore} (parse_policy : list byte -> option TenantAdmissionPolicyFile).

(** Loading a tenant policy is exact and fails closed: it succeeds exactly
    when the bytes are non-empty and at most 1 MiB, have the deployed digest,
    parse as format 1 with at most the allowed number of tenants, name every
    authorized tenant exactly once and no other, and give each tenant positive
    limits within those of the deployment, strictly below them when there is
    more than one tenant; the registry then holds those limits. *)
Theorem policy_loading_exact (bytes : list byte) (digest : string) (max_tenants : nat) (authorized : gset Uuid)
    (ge gp : AdmissionClass -> N) (fw : N) (reg : TenantAdmissionRegistry) :
  from_bytes parse_policy bytes digest max_tenants authorized ge gp fw = Ok reg <->
  bytes <> [] /\ N.of_nat (length bytes) <= MAX_POLICY_BYTES /\ digest = hex_encode (sha256 bytes) /\
  (0 < max_tenants)%nat /\ authorized <> ∅ /\
  exists file, parse_policy bytes = Some file /\ policy_format_version file = 1 /\
    (length (policy_tenants file) <= max_tenants)%nat /\ NoDup (entry_tenant_id <$> policy_tenants file) /\
    list_to_set (entry_tenant_id <$> policy_tenants file) = authorized /\
    Forall (fun e => admissible (1 <? size authorized)%nat ge gp fw (entry_lanes e)) (policy_tenants file) /\
    reg = {| policies := list_to_map (policy_binding <$> policy_tenants file); policy_sha256 := digest |}.
Proof. apply from_bytes_ok. Qed.

Context (ge gp : AdmissionClass -> N) (fw : N) (policy_file : option (bool * list byte)) (digest : string)
  (max_tenants : nat) (authorized : gset Uuid) (ctl : Limits).

(** C9: Under every interleaving of arrivals, permit grants, timeouts, dropped
    requests and releases, a configured controller conserves permits: in every
    lane the available ones and those held by requests add up to its capacity.
    Hence no class exceeds its global limit, no tenant its own, fragment and
    shuffle leases together the worker limit, and no queue its bound; the
    in-flight counter is the number of leases; and when all requests are gone
    every lane is full again. *)
Theorem admission_conserves_permits (st : State) :
  configure parse_policy ge gp fw policy_file digest max_tenants authorized = Ok ctl -> reachable ctl st ->
  (forall l n, capacity ctl l = Some n -> available (lanes st) l + held st l = n) /\
  (forall c, serving st c <= ge c /\ in_flight (counters st c) = serving st c) /\
  (forall t ls c, policies (tenants ctl) !! t = Some ls -> map_total (tenant_serves t c <$> requests st) <= execution ls c) /\
  map_total (worker_serves <$> requests st) <= fw /\
  (forall c, map_total (waits c <$> requests st) <= gp c) /\
  ((forall i r, requests st !! i = Some r -> phase r = Gone) ->
   forall l n, capacity ctl l = Some n -> available (lanes st) l = n).
Proof.
  intros Hconf Hr. pose proof (configure_configured _ _ _ _ _ _ _ _ _ Hconf) as Hctl.
  destruct (configure_ok _ _ _ _ _ _ _ _ _ Hconf) as (_ & reg & bytes & _ & ->).
  destruct (reachable_invariant _ Hctl st Hr) as [_ Hperm Hfl _].
  assert (forall l n f, capacity {| limits := ge; pending_limits := gp; fragment_worker_limit := fw; tenants := reg |} l = Some n ->
            (forall r, f r <= held_by l r) -> map_total (f <$> requests st) <= n) as Hbound.
  { intros l n f Hl Hf. rewrite <- (Hperm l n Hl). etrans; [by apply (map_total_fmap_le f (held_by l))|]. unfold held. lia. }
  split_and!.
  - done.
  - intros c. split; [by apply (Hbound (GlobalExecution c)); [|apply serves_held]|done].
  - intros t ls c Ht. apply (Hbound (TenantExecution t c)); [cbn in *; by rewrite Ht|apply tenant_serves_held].
  - by apply (Hbound GlobalFragmentWorker); [|apply worker_serves_held].
  - intros c. by apply (Hbound (GlobalPending c)); [|apply waits_held].
  - intros Hgone l n Hl. rewrite <- (Hperm l n Hl). assert (held st l = 0) as ->; [|lia].
    apply map_total_fmap_zero. intros i r Hi. unfold held_by, holds. by rewrite (Hgone i r Hi).
Qed.

(** C27: Admission never deadlocks: whenever some request is unfinished and no
    lease is outstanding, some request can take its next step without a
    deadline passing, since lanes are always taken in one order. *)
Theorem admission_never_deadlocks (st : State) :
  configure parse_policy ge gp fw policy_file digest max_tenants authorized = Ok ctl -> reachable ctl st ->
  (forall i r, requests st !! i = Some r -> is_serving r = false) ->
  (exists i r, requests st !! i = Some r /\ phase r <> Gone) ->
  exists i st', handle ctl (Advance i) st = Some st' \/ handle ctl (Answer i) st = Some st'.
Proof.
  intros Hconf Hr Hserve (i & r & Hi & Hp). pose proof (configure_configured _ _ _ _ _ _ _ _ _ Hconf) as Hctl.
  pose proof (reachable_invariant _ Hctl st Hr) as Hinv.
  assert (forall x, advance ctl r st = Some x -> exists i st', handle ctl (Advance i) st = Some st' \/ handle ctl (Answer i) st = Some st')
    as Hadv by (intros x Hx; destruct (advance_enabled ctl i r st x Hi Hx); eauto).
  specialize (Hserve i r Hi) as Hns. unfold is_serving in Hns.
  destruct (phase r) as [| |hs [|l rest]| |f|] eqn:Hph; try done.
  - unfold advance in Hadv. rewrite Hph in Hadv. destruct (policies _ !! _); [|eauto]. destruct (take_permit _ _); eauto.
  - unfold advance in Hadv. rewrite Hph in Hadv. destruct (take_permit _ _); eauto.
  - unfold advance in Hadv. rewrite Hph in Hadv. eauto.
  - destruct (waiting_progress ctl Hctl st Hinv Hserve 4 i r hs l rest) as (j & st' & Hj); [done|done|lia|]. eauto.
  - exists i. cbn [handle]. unfold update, answer_refusal. rewrite Hi. cbn [mbind option_bind]. rewrite Hph. destruct f; cbn; eauto.
Qed.
(** One tenant cannot keep another one waiting.  In a deployment with
    several tenants, whatever requests of a single tenant are running, queued
    or waiting, a request of any other tenant is admitted in its next steps
    without waiting for a permit. *)
Theorem peer_tenant_is_served (st : State) (a b : Uuid) (i : nat) (role : Role) (url : string) (c : AdmissionClass) :
  configure parse_policy ge gp fw policy_file digest max_tenants authorized = Ok ctl -> (1 < size authorized)%nat ->
  reachable ctl st -> (forall j r, requests st !! j = Some r -> phase r <> Gone -> tenant_id r = a) ->
  b ∈ authorized -> b <> a -> requests st !! i = None -> admission_class role url = Some c ->
  exists st', run ctl (Arrive i role url b :: replicate (3 + length (path b c)) (Advance i)) st = Some st' /\
    requests st' !! i = Some {| class := c; tenant_id := b; phase := Serving false |}.
Proof.
  intros Hconf Hmulti Hr Honly Hb Hne Hi Hclass. pose proof (configure_configured _ _ _ _ _ _ _ _ _ Hconf) as Hctl.
  pose proof (reachable_invariant _ Hctl st Hr) as Hinv.
  destruct (configure_ok _ _ _ _ _ _ _ _ _ Hconf) as ([Hg Hw] & reg & bytes & Hload & Heq).
  destruct (registry_covers _ _ _ _ _ _ _ _ _ _ Hload Hb) as [lb Hlb].
  assert (forall la, policies (tenants ctl) !! a = Some la ->
            (forall k, execution la k < ge k /\ pending la k < gp k) /\ fragment_worker la < fw) as Hpeer.
  { intros la Hla. rewrite Heq in Hla. apply (registry_lanes _ _ _ _ _ _ _ _ _ _ _ Hload) in Hla as [_ Had].
    apply (ad_peer _ _ _ _ _ Had). by apply Nat.ltb_lt. }
  assert (registered ctl b) as Hreg by (rewrite Heq; by exists lb).
  cbn [run handle]. rewrite Hi, Hclass. cbn [mbind option_bind]. apply run_admission; [done|apply lookup_insert_eq|]. cbn [lanes].
  assert (forall l, (forall r, well_formed ctl r -> l ∈ holds r -> tenant_id r <> a) -> is_Some (capacity ctl l) ->
            0 < available (lanes st) l) as Hown.
  { intros l Hl [n Hn]. rewrite (other_lanes_full ctl st Hinv a Honly l n Hn Hl). by apply (Hctl l n). }
  assert (forall l own n, capacity ctl l = Some n -> (forall r, well_formed ctl r -> l ∈ holds r -> tenant_id r = a -> own ∈ holds r) ->
            (registered ctl a -> exists m, capacity ctl own = Some m /\ m < n) -> 0 < available (lanes st) l) as Hglob.
  { intros l own n Hl. apply (global_lane_left ctl st Hinv a Honly l n own Hl). by apply (Hctl l n). }
  destruct Hreg as [lb' Hlb']. intros l [->|[->|Hl]%elem_of_cons]%elem_of_cons.
  - apply Hown; [|cbn; rewrite Hlb'; eauto]. by intros r Hwf [-> _]%(holds_cases _ _ _ Hwf).
  - apply (Hglob _ (TenantPending a c) (gp c)); [by rewrite Heq|by intros r Hwf [-> ?]%(holds_cases _ _ _ Hwf) <-|].
    intros [la Hla]. exists (pending la c). cbn. rewrite Hla. split; [done|]. by apply Hpeer.
  - apply path_lane in Hl as [->|[->|[->| ->]]].
    + apply Hown; [|cbn; rewrite Hlb'; eauto]. by intros r Hwf [-> _]%(holds_cases _ _ _ Hwf).
    + apply Hown; [|cbn; rewrite Hlb'; eauto]. by intros r Hwf ->%(holds_cases _ _ _ Hwf).
    + apply (Hglob _ (TenantExecution a c) (ge c)); [by rewrite Heq|by intros r Hwf [-> ?]%(holds_cases _ _ _ Hwf) <-|].
      intros [la Hla]. exists (execution la c). cbn. rewrite Hla. split; [done|]. by apply Hpeer.
    + apply (Hglob _ (TenantFragmentWorker a) fw); [by rewrite Heq|by intros r Hwf ?%(holds_cases _ _ _ Hwf) <-|].
      intros [la Hla]. exists (fragment_worker la). cbn. rewrite Hla. split; [done|]. by apply Hpeer.
Qed.
End theorems.

(** ** A concrete deployment *)

(** A semaphore that is its number of permits. *)
Program Definition counting_semaphore : Semaphore :=
  {| sem := N; max_permits := 2 ^ 61 - 1; sem_new n := n; available_permits n := n;
     try_acquire_owned n := if n =? 0 then None else Some (n - 1); release_permit n := n + 1 |}.
Next Obligation. vm_compute. done. Qed.
Next Obligation. done. Qed.
Next Obligation. intros s. cbn. destruct (N.eqb_spec s 0); naive_solver. Qed.
Next Obligation. intros s s'. cbn. destruct (N.eqb_spec s 0); [done|]. intros [= <-]. lia. Qed.
Next Obligation. done. Qed.

Definition tenant_a : Uuid := replicate 15 x00 ++ [x01].
Definition tenant_b : Uuid := replicate 15 x00 ++ [x02].

(** Two tenants with one permit per lane, in lanes of two. *)
Definition one_each : ClassPolicy := {| max_in_flight := 1; max_pending := 1 |}.
Definition sample_entry (t : Uuid) : TenantPolicyEntry :=
  {| entry_tenant_id := t; entry_query := one_each; entry_fragment := one_each; entry_shuffle := one_each;
     entry_locator := one_each; entry_hydration := one_each; fragment_worker_max_in_flight := 1 |}.
Definition sample_policy (ts : list Uuid) (_ : list byte) : option TenantAdmissionPolicyFile :=
  Some {| policy_format_version := 1; policy_tenants := sample_entry <$> ts |}.

Definition sample_digest : string := hex_encode (padded_sha256 [x7b]).
Definition sample_limits (ts : list Uuid) : Limits :=
  {| limits _ := 2; pending_limits _ := 2; fragment_worker_limit := 2;
     tenants := {| policies := list_to_map (policy_binding <$> (sample_entry <$> ts)); policy_sha256 := sample_digest |} |}.

Definition two_tenants : list Uuid := [tenant_a; tenant_b].

Lemma sample_configured :
  configure (H := padded_digest) (H0 := counting_semaphore) (sample_policy two_tenants) (fun _ => 2) (fun _ => 2) 2
    (Some (true, [x7b])) sample_digest 2 {[tenant_a; tenant_b]} = Ok (sample_limits two_tenants).
Proof. vm_compute. reflexivity. Qed.

Lemma run_reachable `{Semaphore} ctl es : forall st st', run ctl es st = Some st' -> reachable ctl st -> reachable ctl st'.
Proof.
  induction es as [|e es IH]; intros st st'; cbn [run]; [by intros [= ->]|].
  intros (st1 & Hh & Hr)%bind_Some Hst. eapply IH; [exact Hr|]. by eapply reach_step.
Qed.

(** Tenant A has a request that waits for its execution lane. *)
Definition sample_request : Request :=
  {| class := Query; tenant_id := tenant_a; phase := Waiting [] (path tenant_a Query) |}.

Definition sample_state : State (H := counting_semaphore) :=
  default (initial (H := counting_semaphore) (sample_limits two_tenants))
    (run (H := counting_semaphore) (sample_limits two_tenants) [Arrive 0 QueryRole "/v1/query" tenant_a; Advance 0; Advance 0]
       (initial (H := counting_semaphore) (sample_limits two_tenants))).

Lemma sample_reachable : reachable (H := counting_semaphore) (sample_limits two_tenants) sample_state.
Proof.
  unfold sample_state. destruct (run _ _ _) as [st|] eqn:Hr; [|apply reach_initial].
  eapply run_reachable; [exact Hr|]. apply reach_initial.
Qed.

Lemma sample_requests : requests sample_state = {[0%nat := sample_request]}.
Proof. vm_compute. reflexivity. Qed.

Lemma sample_only i r : requests sample_state !! i = Some r -> i = 0%nat /\ r = sample_request.
Proof. rewrite sample_requests. by intros [<- <-]%lookup_singleton_Some. Qed.

Lemma admission_conserves_permits_witness :
  map_total (waits Query <$> requests sample_state) <= 2 /\ in_flight (counters sample_state Query) = serving sample_state Query /\
  available (H := counting_semaphore) (lanes sample_state) (GlobalPending Query) + held sample_state (GlobalPending Query) = 2.
Proof.
  destruct (admission_conserves_permits (H := padded_digest) (H0 := counting_semaphore) (sample_policy two_tenants)
    (fun _ => 2) (fun _ => 2) 2 (Some (true, [x7b])) sample_digest 2 {[tenant_a; tenant_b]} (sample_limits two_tenants)
    sample_state sample_configured sample_reachable) as (Hp & Hs & _ & _ & Hw & _).
  split; [apply (Hw Query)|]. split; [apply (Hs Query)|]. by apply Hp.
Defined.

Lemma admission_never_deadlocks_witness :
  exists i st', handle (H := counting_semaphore) (sample_limits two_tenants) (Advance i) sample_state = Some st' \/
    handle (H := counting_semaphore) (sample_limits two_tenants) (Answer i) sample_state = Some st'.
Proof.
  apply (admission_never_deadlocks (H := padded_digest) (H0 := counting_semaphore) (sample_policy two_tenants)
    (fun _ => 2) (fun _ => 2) 2 (Some (true, [x7b])) sample_digest 2 {[tenant_a; tenant_b]} (sample_limits two_tenants)
    sample_state sample_configured sample_reachable).
  - intros i r [-> ->]%sample_only. reflexivity.
  - exists 0%nat, sample_request. split; [rewrite sample_requests; reflexivity|discriminate].
Defined.

Lemma peer_tenant_is_served_witness :
  exists st', run (H := counting_semaphore) (sample_limits two_tenants)
      (Arrive 1 QueryRole "/v1/query" tenant_b :: replicate (3 + length (path tenant_b Query)) (Advance 1)) sample_state = Some st' /\
    requests st' !! 1%nat = Some {| class := Query; tenant_id := tenant_b; phase := Serving false |}.
Proof.
  apply (peer_tenant_is_served (H := padded_digest) (H0 := counting_semaphore) (sample_policy two_tenants)
    (fun _ => 2) (fun _ => 2) 2 (Some (true, [x7b])) sample_digest 2 {[tenant_a; tenant_b]} (sample_limits two_tenants)
    sample_state tenant_a tenant_b 1 QueryRole "/v1/query" Query sample_configured).
  - vm_compute. lia.
  - exact sample_reachable.
  - intros j r [-> ->]%sample_only _. reflexivity.
  - apply elem_of_union_r, elem_of_singleton_2. reflexivity.
  - discriminate.
  - rewrite sample_requests. reflexivity.
  - reflexivity.
Defined.
