(* ===== verification/Auth.v ===== *)
(** * Bearer tokens of the online services

    Models src/services/online-serving/src/auth.rs: the checksum-bound token
    file, the scopes and graph labels it may grant, and the authorization of a
    request by the digest of its bearer token.  [serde_json] on the token file
    is a parameter; a request is its [Authorization] header where that is
    visible ASCII text.

    The theorems show that exactly the tokens of the file with the query scope
    are authorized, and that every tenant with such a token has lanes in the
    admission policy built from the same file. *)

From Stdlib Require Import Strings.Byte Strings.String.
From S2P Require Import Prelude Words Ordered Digest Text Dataset Admission.

Definition TOKEN_FILE_FORMAT_VERSION : N := 1.
Definition MAX_TOKEN_FILE_BYTES : N := 1048576.
Definition MAX_PRINCIPAL_ID_BYTES : nat := 256.
Definition QUERY_EXECUTE_SCOPE : string := "queries:execute".
Definition QUERY_LOG_READ_SCOPE : string := "query-logs:read".
Definition QUERY_LOG_TEXT_SCOPE : string := "query-logs:read:text".
Definition VALID_SCOPES : list string :=
  ["datasets:write"; "sources:write"; "ingestions:create"; "imports:create"; "imports:read"; "jobs:read"; "jobs:cancel";
   "snapshots:read"; "snapshots:publish"; "storage:read"; "storage:write"; "storage:restore";
   QUERY_EXECUTE_SCOPE; QUERY_LOG_READ_SCOPE; QUERY_LOG_TEXT_SCOPE]%string.

Record Identity := {
  identity_tenant_id : Uuid;
  principal_id : string;
  graph_authorization_labels : gset string;
  scopes : gset string;
}.

Definition can_read_all_query_logs (identity : Identity) : bool := bool_decide (QUERY_LOG_READ_SCOPE ∈ scopes identity).

Definition can_read_query_text (identity : Identity) (principal : string) : bool :=
  bool_decide (principal_id identity = principal) || bool_decide (QUERY_LOG_TEXT_SCOPE ∈ scopes identity).

Record TokenIdentity := {
  identity : Identity;
  query_access : bool;
}.

Definition TokenAuthorizer := gmap (list byte) TokenIdentity.

Record TokenEntry := {
  token_sha256 : string;
  token_tenant_id : Uuid;
  token_principal_id : string;
  token_scopes : gset string;
  token_labels : gset string;
}.

Record TokenFile := {
  token_format_version : N;
  tokens : list TokenEntry;
}.

(** The messages of the token loader. *)
Inductive TokenError :=
| TokenFileUnreadable
| TokenFileKind
| TokenFileDigestText
| TokenFileChecksum
| TokenFileJson
| TokenFileFormat
| TokenNilTenant
| TokenPrincipal
| TokenScopes
| TokenLabel
| TokenWithoutLabels
| TokenDigestText
| TokenDuplicate.

Inductive AuthError := Unauthenticated | Forbidden.

(** A path as [symlink_metadata] and [read] see it. *)
Record FileEntry := {
  is_symlink : bool;
  is_file : bool;
  content : list byte;
}.

Definition is_nil_uuid (t : Uuid) : bool := bool_decide (t = replicate 16 x00).

Definition validate_entry (entry : TokenEntry) : result TokenError unit :=
  _ ← fail_if (is_nil_uuid (token_tenant_id entry)) TokenNilTenant;
  _ ← fail_if (bool_decide (token_principal_id entry = EmptyString)
               || (MAX_PRINCIPAL_ID_BYTES <? String.length (token_principal_id entry))) TokenPrincipal;
  _ ← fail_if (bool_decide (token_scopes entry = ∅)
               || existsb (fun scope => negb (bool_decide (scope ∈ VALID_SCOPES))) (sorted_elements (token_scopes entry))) TokenScopes;
  _ ← fail_if (existsb (fun label => negb (valid_authorization_label label)) (sorted_elements (token_labels entry))) TokenLabel;
  fail_if (bool_decide (QUERY_EXECUTE_SCOPE ∈ token_scopes entry) && bool_decide (token_labels entry = ∅)) TokenWithoutLabels.

Definition decode_token_sha256 (value : string) : result TokenError (list byte) :=
  _ ← fail_if (negb (lower_hex_sha256 value)) TokenDigestText;
  digest ← ok_or (hex_decode (as_bytes value)) TokenDigestText;
  _ ← fail_if (negb (length digest =? 32)) TokenDigestText;
  Ok digest.

Definition entry_identity (entry : TokenEntry) : TokenIdentity :=
  {| identity := {| identity_tenant_id := token_tenant_id entry; principal_id := token_principal_id entry;
                    graph_authorization_labels := token_labels entry; scopes := token_scopes entry |};
     query_access := bool_decide (QUERY_EXECUTE_SCOPE ∈ token_scopes entry) |}.

Definition add_token (identities : TokenAuthorizer) (entry : TokenEntry) : result TokenError TokenAuthorizer :=
  _ ← validate_entry entry;
  hash ← decode_token_sha256 (token_sha256 entry);
  _ ← fail_if (bool_decide (is_Some (identities !! hash))) TokenDuplicate;
  Ok (<[hash := entry_identity entry]> identities).

Section auth.
Context `{Sha256} (parse_tokens : list byte -> option TokenFile).

Definition load_tokens (path : option FileEntry) (expected_sha256 : string) : result TokenError TokenAuthorizer :=
  entry ← ok_or path TokenFileUnreadable;
  _ ← fail_if (is_symlink entry || negb (is_file entry) || (N.of_nat (length (content entry)) =? 0)%N
               || (MAX_TOKEN_FILE_BYTES <? N.of_nat (length (content entry)))%N) TokenFileKind;
  expected ← map_err (fun _ => TokenFileDigestText) (decode_token_sha256 expected_sha256);
  _ ← fail_if (negb (bool_decide (sha256 (content entry) = expected))) TokenFileChecksum;
  file ← ok_or (parse_tokens (content entry)) TokenFileJson;
  _ ← fail_if (negb (token_format_version file =? TOKEN_FILE_FORMAT_VERSION)%N || bool_decide (tokens file = [])) TokenFileFormat;
  try_fold add_token ∅ (tokens file).

(** The token of an [Authorization: Bearer] header. *)
Definition bearer (header : option string) : result AuthError (list byte) :=
  match header with
  | None => Err Unauthenticated
  | Some value =>
      match strip_prefix (as_bytes "Bearer ") (as_bytes value) with
      | Some token => if bool_decide (token = []) then Err Unauthenticated else Ok token
      | None => Err Unauthenticated
      end
  end.

Definition authorize (auth : TokenAuthorizer) (header : option string) : result AuthError Identity :=
  token ← bearer header;
  value ← ok_or (auth !! sha256 token) Unauthenticated;
  _ ← fail_if (negb (query_access value)) Forbidden;
  Ok (identity value).

Definition authorize_query_logs (auth : TokenAuthorizer) (header : option string) : result AuthError Identity :=
  token ← bearer header;
  value ← ok_or (auth !! sha256 token) Unauthenticated;
  _ ← fail_if (negb (query_access value) && negb (can_read_all_query_logs (identity value))) Forbidden;
  Ok (identity value).

Definition query_tenant_ids (auth : TokenAuthorizer) : gset Uuid :=
  list_to_set ((fun v => identity_tenant_id (identity v)) <$>
    filter (fun v => query_access v = true) (snd <$> map_to_list auth)).
End auth.

(** ** The identities of a token file *)

Lemma decode_token_sha256_ok value digest :
  decode_token_sha256 value = Ok digest <-> value = hex_encode digest /\ length digest = 32.
Proof.
  unfold decode_token_sha256. split.
  - intros Hd. inv_steps. subst. bool_prop. split; [|done]. by apply (inj as_bytes), hex_decode_encode.
  - intros [-> Hl]. unfold lower_hex_sha256. rewrite hex_encode_digits, <- length_as_bytes, length_hex_encode, hex_decode_hex, Hl.
    cbn [ok_or mbind result_bind fail_if negb andb Nat.mul Nat.add Nat.eqb]. by rewrite Hl.
Qed.

Lemma add_tokens_ok entries : forall m m', try_fold add_token m entries = Ok m' ->
  Forall (fun e => validate_entry e = Ok tt) entries /\
  forall h v, m' !! h = Some v <->
    m !! h = Some v \/ exists e, e ∈ entries /\ token_sha256 e = hex_encode h /\ length h = 32 /\ v = entry_identity e.
Proof.
  induction entries as [|e entries IH]; intros m m' Hf; cbn [try_fold] in Hf.
  { injection Hf as <-. split; [constructor|]. intros h v. split; [by left|]. intros [?|(e & He & _)]; [done|by apply elem_of_nil in He]. }
  apply result_bind_ok in Hf as (m1 & Ha & Hf). unfold add_token in Ha. inv_steps. destruct a.
  apply decode_token_sha256_ok in Ha1 as [Hsha Hlen]. bool_prop. subst m1. destruct (IH _ _ Hf) as [Hall Hl].
  split; [by constructor|]. intros h v. rewrite Hl. setoid_rewrite elem_of_cons. split.
  - intros [Hh|(e' & He' & ?)]; [|right; exists e'; split; [by right|done]]. apply lookup_insert_Some in Hh as [[<- <-]|[_ Hh]]; [|by left]. right. exists e. split_and!; [by left|done..].
  - intros [Hh|(e' & [->|He'] & Hs & Hl32 & ->)].
    + left. apply lookup_insert_Some. right. split; [|done]. intros <-. apply Ha2. by exists v.
    + left. rewrite Hsha in Hs. apply (inj hex_encode) in Hs as ->. apply lookup_insert_Some. by left.
    + right. eauto.
Qed.

Lemma validate_entry_ok e : validate_entry e = Ok tt ->
  token_tenant_id e <> replicate 16 x00 /\ (forall l, l ∈ token_labels e -> valid_authorization_label l = true) /\
  (QUERY_EXECUTE_SCOPE ∈ token_scopes e -> token_labels e <> ∅) /\ (forall s, s ∈ token_scopes e -> s ∈ VALID_SCOPES).
Proof.
  unfold validate_entry, is_nil_uuid. rewrite !fail_then, fail_if_ok. intros (Ht & _ & Hsc & Hlab & Hq). bool_prop.
  split_and!; [done| | |].
  - intros l Hl. destruct (valid_authorization_label l) eqn:Hv; [done|]. exfalso. apply not_true_iff_false in Hlab. apply Hlab.
    apply existsb_exists. exists l. split; [|by rewrite Hv]. by apply list_elem_of_In, elem_of_sorted_elements.
  - intros Hin Hnil. rewrite (bool_decide_eq_true_2 _ Hin), (bool_decide_eq_true_2 _ Hnil) in Hq. done.
  - intros s Hs. apply not_true_iff_false in H0. destruct (decide (s ∈ VALID_SCOPES)) as [?|Hn]; [done|]. exfalso. apply H0.
    apply existsb_exists. exists s. split; [by apply list_elem_of_In, elem_of_sorted_elements|]. by rewrite bool_decide_eq_false_2.
Qed.

Lemma bearer_ok header token : bearer header = Ok token <->
  exists value, header = Some value /\ as_bytes value = as_bytes "Bearer " ++ token /\ token <> [].
Proof.
  unfold bearer. destruct header as [value|]; [|naive_solver].
  destruct (strip_prefix (as_bytes "Bearer ") (as_bytes value)) as [t|] eqn:Hs.
  - apply strip_prefix_some in Hs. case_bool_decide; split.
    + done.
    + intros (v & [= <-] & Hv & Hn). rewrite Hs in Hv. apply app_inv_head in Hv. congruence.
    + intros [= <-]. eauto.
    + intros (v & [= <-] & Hv & Hn). rewrite Hs in Hv. apply app_inv_head in Hv. congruence.
  - split; [done|]. intros (v & [= <-] & Hv & Hn). apply strip_prefix_some in Hv. congruence.
Qed.

Section auth_facts.
Context `{Sha256} (parse_tokens : list byte -> option TokenFile).

Lemma load_tokens_ok path digest auth : load_tokens parse_tokens path digest = Ok auth ->
  exists f file, path = Some f /\ digest = hex_encode (sha256 (content f)) /\ parse_tokens (content f) = Some file /\
    try_fold add_token ∅ (tokens file) = Ok auth.
Proof.
  unfold load_tokens. intros Hl. apply result_bind_ok in Hl as (f & Hp & Hl). apply ok_or_ok in Hp.
  apply fail_then in Hl as [_ Hl]. apply result_bind_ok in Hl as (d & Hd & Hl). apply map_err_ok, decode_token_sha256_ok in Hd as [-> _].
  apply fail_then in Hl as [Hdig Hl]. apply result_bind_ok in Hl as (file & Hfile & Hl). apply ok_or_ok in Hfile.
  apply fail_then in Hl as [_ Hl]. bool_prop. exists f, file. by rewrite Hdig.
Qed.

Lemma authorize_ok auth header who : authorize auth header = Ok who <->
  exists token v, bearer header = Ok token /\ auth !! sha256 token = Some v /\ query_access v = true /\ who = identity v.
Proof.
  unfold authorize. split.
  - intros Ha. inv_steps. bool_prop. eauto 10.
  - intros (token & v & -> & Hv & Hq & ->). cbn. rewrite Hv. cbn. by rewrite Hq.
Qed.

(** C32: Exactly the tokens of the file with the query scope are authorized.
    A token file that loads has the deployed digest, and a request is
    authorized exactly when its bearer token is the preimage of an entry with
    the scope queries:execute; it acts as that entry's principal, which is of
    a tenant that is not nil and carries at least one graph label, all of them
    well formed. *)
Theorem token_authorization_exact (path : option FileEntry) (digest : string) (auth : TokenAuthorizer) :
  load_tokens parse_tokens path digest = Ok auth ->
  exists f file, path = Some f /\ digest = hex_encode (sha256 (content f)) /\ parse_tokens (content f) = Some file /\
    forall header who, authorize auth header = Ok who <->
      exists value token e, header = Some value /\ as_bytes value = as_bytes "Bearer " ++ token /\ token <> [] /\
        e ∈ tokens file /\ token_sha256 e = hex_encode (sha256 token) /\ QUERY_EXECUTE_SCOPE ∈ token_scopes e /\
        who = identity (entry_identity e) /\ identity_tenant_id who <> replicate 16 x00 /\
        graph_authorization_labels who <> ∅ /\
        forall l, l ∈ graph_authorization_labels who -> valid_authorization_label l = true.
Proof.
  intros (f & file & Hp & Hd & Hfile & Hf)%load_tokens_ok. exists f, file. split_and!; [done..|].
  apply add_tokens_ok in Hf as [Hall Hl]. rewrite Forall_forall in Hall. intros header who. rewrite authorize_ok. split.
  - intros (token & v & (value & -> & Hv & Hn)%bearer_ok & Hlook & Hq & ->). apply Hl in Hlook as [Hlook|(e & He & Hs & _ & ->)].
    { by apply (lookup_empty_Some (M := gmap (list byte))) in Hlook. }
    cbn in Hq. bool_prop. destruct (validate_entry_ok e (Hall e He)) as (Ht & Hlab & Hne & _).
    exists value, token, e. split_and!; try done. by apply Hne.
  - intros (value & token & e & -> & Hv & Hn & He & Hs & Hsc & -> & _). exists token, (entry_identity e). split_and!.
    + apply bearer_ok. eauto.
    + apply Hl. right. exists e. split_and!; [done|done|apply sha256_length|done].
    + cbn. by apply bool_decide_eq_true.
    + done.
Qed.
End auth_facts.

(** ** Tenants with query access have lanes *)

Section lanes_for_tenants.
Context `{Sha256, Semaphore} (parse_policy : list byte -> option TenantAdmissionPolicyFile).

Lemma elem_of_query_tenants (auth : TokenAuthorizer) (t : Uuid) :
  t ∈ query_tenant_ids auth <-> exists h v, auth !! h = Some v /\ query_access v = true /\ identity_tenant_id (identity v) = t.
Proof.
  unfold query_tenant_ids. rewrite elem_of_list_to_set, list_elem_of_fmap. split.
  - intros (v & -> & [Hq Hv]%list_elem_of_filter). apply list_elem_of_fmap in Hv as ([h v'] & -> & Hin).
    apply elem_of_map_to_list in Hin. eauto.
  - intros (h & v & Hv & Hq & <-). exists v. split; [done|]. apply list_elem_of_filter. split; [done|].
    apply list_elem_of_fmap. exists (h, v). split; [done|]. by apply elem_of_map_to_list.
Qed.

(** Only a request of an unregistered tenant is refused as unknown. *)
Lemma unknown_unregistered ctl st : reachable ctl st ->
  forall i r, requests st !! i = Some r -> phase r = Refused UnknownTenant -> ~ registered ctl (tenant_id r).
Proof.
  induction 1 as [|st e st' _ IH Hh]; intros i r Hr Hp; [cbn in Hr; by rewrite lookup_empty in Hr|].
  assert (forall j f, update j f st = Some st' ->
    (forall s p store count, f s st = Some (p, store, count) -> p = Refused UnknownTenant -> policies (tenants ctl) !! tenant_id s = None) ->
    ~ registered ctl (tenant_id r)) as Hupd.
  { intros j f Hu Hf. unfold update in Hu. apply bind_Some in Hu as (s & Hs & Hu).
    apply bind_Some in Hu as ([[p store] count] & Hfs & Hu). injection Hu as <-. cbn in Hr.
    apply lookup_insert_Some in Hr as [[<- <-]|[_ Hr]]; [|by eapply IH]. cbn in *. intros [ls Hls].
    by rewrite (Hf _ _ _ _ Hfs Hp) in Hls. }
  destruct e as [j role url t|j|j|j|j flag|j]; cbn [handle] in Hh; try (apply (Hupd _ _ Hh); intros s p store count Hf ->).
  - destruct (requests st !! j); [done|]. destruct (admission_class role url) as [c|]; injection Hh as <-; [|by eapply IH].
    cbn in Hr. apply lookup_insert_Some in Hr as [[<- <-]|[_ Hr]]; [done|by eapply IH].
  - unfold advance in Hf. destruct (phase s) as [| |? [|l ?]| | |]; try done.
    + destruct (policies (tenants ctl) !! tenant_id s); [|done]. by destruct (take_permit _ _).
    + by destruct (take_permit _ _).
    + by destruct (take_permit _ _).
  - unfold time_out in Hf. by destruct (phase s) as [| |? [|l ?]| | |].
  - unfold answer_refusal in Hf. by destruct (phase s) as [| | | |[]|].
  - unfold mark in Hf. by destruct (phase s).
  - unfold drop_request in Hf. by destruct (phase s) as [| |? [|l ?]| | |].
Qed.

(** Every authorized query is of a tenant with lanes.  When the admission
    policy was loaded against the tenants of the token file, a request that the
    token file authorizes belongs to a tenant of the policy, so no reachable
    state of the controller refuses one of its requests as unknown. *)
Theorem authorized_tenants_have_lanes (auth : TokenAuthorizer)
    (ge gp : AdmissionClass -> N) (fw : N) (policy_file : option (bool * list byte)) (policy_digest : string)
    (max_tenants : nat) (ctl : Limits) (header : option string) (who : Identity) :
  configure parse_policy ge gp fw policy_file policy_digest max_tenants (query_tenant_ids auth) = Ok ctl ->
  authorize auth header = Ok who ->
  registered ctl (identity_tenant_id who) /\
  forall st i r, reachable ctl st -> requests st !! i = Some r -> tenant_id r = identity_tenant_id who ->
    phase r <> Refused UnknownTenant.
Proof.
  intros Hconf (token & v & _ & Hv & Hq & ->)%authorize_ok.
  assert (registered ctl (identity_tenant_id (identity v))) as Hreg.
  { destruct (configure_ok _ _ _ _ _ _ _ _ _ Hconf) as (_ & reg & bytes & Hload & ->).
    eapply registry_covers; [exact Hload|]. apply elem_of_query_tenants. eauto. }
  split; [done|]. intros st i r Hr Hi Ht Hp. rewrite <- Ht in Hreg. by eapply unknown_unregistered.
Qed.
End lanes_for_tenants.

(** ** Examples *)

Definition query_token : list byte := as_bytes "alpha".
Definition audit_token : list byte := as_bytes "beta".

Definition sample_tokens (_ : list byte) : option TokenFile :=
  Some {| token_format_version := 1;
          tokens := [ {| token_sha256 := hex_encode (padded_sha256 query_token); token_tenant_id := tenant_a;
                         token_principal_id := "analyst"; token_scopes := {[QUERY_EXECUTE_SCOPE]}; token_labels := {["public"%string]} |};
                      {| token_sha256 := hex_encode (padded_sha256 audit_token); token_tenant_id := tenant_b;
                         token_principal_id := "auditor"; token_scopes := {[QUERY_LOG_READ_SCOPE]}; token_labels := ∅ |} ] |}.

Definition sample_token_file : FileEntry := {| is_symlink := false; is_file := true; content := [x7b] |}.

Definition analyst : Identity :=
  {| identity_tenant_id := tenant_a; principal_id := "analyst"; graph_authorization_labels := {["public"%string]};
     scopes := {[QUERY_EXECUTE_SCOPE]} |}.
Definition auditor : Identity :=
  {| identity_tenant_id := tenant_b; principal_id := "auditor"; graph_authorization_labels := ∅; scopes := {[QUERY_LOG_READ_SCOPE]} |}.

Definition sample_auth : TokenAuthorizer :=
  <[padded_sha256 audit_token := {| identity := auditor; query_access := false |}]>
    (<[padded_sha256 query_token := {| identity := analyst; query_access := true |}]> ∅).

Lemma sample_auth_loads :
  load_tokens (H := padded_digest) sample_tokens (Some sample_token_file) (hex_encode (padded_sha256 [x7b])) = Ok sample_auth.
Proof. vm_compute. reflexivity. Qed.

Lemma sample_auth_configured :
  configure (H := padded_digest) (H0 := counting_semaphore) (sample_policy [tenant_a]) (fun _ => 2%N) (fun _ => 2%N) 2%N
    (Some (true, [x7b])) sample_digest 2 (query_tenant_ids sample_auth) = Ok (sample_limits [tenant_a]).
Proof. vm_compute. reflexivity. Qed.

(** An auditor of a tenant without a query token is authorized to read the
    query logs, but the policy may not name its tenant, so admission refuses
    every one of its requests. *)
Example auditor_without_query_token_is_refused :
  authorize_query_logs (H := padded_digest) sample_auth (Some "Bearer beta"%string) = Ok auditor /\
  exists st, run (H := counting_semaphore) (sample_limits [tenant_a]) [Arrive 0 QueryRole "/v1/query_logs" tenant_b; Advance 0]
      (initial (H := counting_semaphore) (sample_limits [tenant_a])) = Some st /\
    requests st !! 0 = Some {| class := Query; tenant_id := tenant_b; phase := Refused UnknownTenant |}.
Proof.
  split; [vm_compute; reflexivity|]. destruct (run _ _ _) as [st|] eqn:Hr; [|vm_compute in Hr; discriminate Hr].
  exists st. split; [done|]. revert Hr. vm_compute. by intros [= <-].
Qed.

Lemma token_authorization_exact_witness :
  exists e, token_sha256 e = hex_encode (padded_sha256 query_token) /\ analyst = identity (entry_identity e) /\
    graph_authorization_labels analyst <> ∅.
Proof.
  destruct (token_authorization_exact (H := padded_digest) sample_tokens (Some sample_token_file)
    (hex_encode (padded_sha256 [x7b])) sample_auth sample_auth_loads) as (f & file & _ & _ & _ & Hauth).
  assert (authorize (H := padded_digest) sample_auth (Some "Bearer alpha"%string) = Ok analyst) as Ha by (vm_compute; reflexivity).
  destruct (proj1 (Hauth _ _) Ha) as (value & token & e & Hv & Ht & _ & _ & Hs & _ & Hid & _ & Hlab & _).
  exists e. injection Hv as <-. apply (app_inv_head (as_bytes "Bearer ") query_token token) in Ht. subst token.
  split; [exact Hs|]. split; [exact Hid|exact Hlab].
Defined.

Lemma authorized_tenants_have_lanes_witness :
  authorize (H := padded_digest) sample_auth (Some "Bearer alpha"%string) = Ok analyst /\
  registered (sample_limits [tenant_a]) tenant_a.
Proof.
  assert (authorize (H := padded_digest) sample_auth (Some "Bearer alpha"%string) = Ok analyst) as Ha by (vm_compute; reflexivity).
  split; [exact Ha|].
  apply (authorized_tenants_have_lanes (H := padded_digest) (H0 := counting_semaphore) (sample_policy [tenant_a]) sample_auth
    (fun _ => 2%N) (fun _ => 2%N) 2%N (Some (true, [x7b])) sample_digest 2 (sample_limits [tenant_a])
    (Some "Bearer alpha"%string) analyst sample_auth_configured Ha).
Defined.
