(* ===== verification/Runtime.v ===== *)
(** * The resource envelope of a worker

    Models src/crates/ngkg-hpc-runtime/src/lib.rs: thread budgets, the cgroup
    envelope, buffer budgets, MPI ranks and the plan of a parallel execution.
    A [Machine] is what the process reads of its surroundings: environment
    variables and the files of the kernel.  Arithmetic that the source leaves
    unchecked wraps, as in a release build.

    The theorems show that the CPUs of a kernel's list are counted exactly, that
    admitted work stays inside the cgroup and its headroom, and that the rank
    the wrapper exports is the rank that is found. *)

From Stdlib Require Import Strings.Byte Strings.String.
From S2P Require Import Prelude Words Text.

Local Open Scope N_scope.

(** ** Data *)

Record ThreadBudget := {
  rust_compute : N;
  blocking_io : N;
  openmp : N;
  blas : N;
  control : N;
}.

Record CapabilityReport := {
  report_cpuset_cores : N;
  report_cpuset_source : string;
  report_budget : ThreadBudget;
  node_saturation_target_percent : N;
  omp_num_threads : N;
  openblas_num_threads : N;
  mkl_num_threads : N;
}.

Record ResourceEnvelopeReport := {
  cpuset_cores : N;
  cpuset_source : string;
  memory_limit_bytes : N;
  memory_current_bytes : N;
  usable_memory_bytes : N;
  memory_headroom_bytes : N;
  saturation_target_percent : N;
  memory_saturated : bool;
}.

Inductive LocalComputeBackend := Rust | OpenMp.

Record MpiEnvironment := {
  mpi_rank : N;
  world_size : N;
  local_rank : N;
  implementation : string;
}.

Record ParallelExecutionPlan := {
  plan_backend : LocalComputeBackend;
  compute_threads : N;
  blocking_io_threads : N;
  parquet_batch_rows : N;
  maximum_in_flight_batches : N;
  reserved_memory_bytes : N;
  plan_mpi : option MpiEnvironment;
}.

Inductive ThreadBudgetError :=
| Oversubscribed (requested available : N)
| NestedParallelism
| CpuSet (reason : list byte)
| InvalidEnvironment (name : string)
| NativeRuntimeMismatch
| InvalidSaturationTarget
| CgroupMemory (reason : list byte)
| MemoryBudget (requested available : N)
| InvalidMpiEnvironment
| InvalidParallelPlan.

Definition MAX_NODE_SATURATION_PERCENT : N := 80.

(** What a process sees: [env::var_os], [fs::read_to_string] with the text of
    its error, and [Path::is_file]. *)
Record Machine := {
  var_os : string -> option (list byte);
  read_to_string : string -> result (list byte) (list byte);
  is_file : string -> bool;
}.

(** [env::var(name).ok()]. *)
Definition env_var (m : Machine) (name : string) : option (list byte) :=
  value ← var_os m name; if utf8_valid value then Some value else None.

(** [text.parse().ok()] for an unsigned type. *)
Definition parse_unsigned (limit : N) (text : list byte) : option N :=
  match text with
  | [] => None
  | b :: rest =>
      if bool_decide (b = PLUS) then (if bool_decide (rest = []) then None else parse_digits limit 0 rest)
      else parse_digits limit 0 text
  end.

(** The UTF-8 encodings of the characters with the [White_Space] property. *)
Definition whitespace : list (list byte) :=
  [[x09]; [x0a]; [x0b]; [x0c]; [x0d]; [x20]; [xc2; x85]; [xc2; xa0]; [xe1; x9a; x80]; [xe2; x80; x80]; [xe2; x80; x81];
   [xe2; x80; x82]; [xe2; x80; x83]; [xe2; x80; x84]; [xe2; x80; x85]; [xe2; x80; x86]; [xe2; x80; x87]; [xe2; x80; x88];
   [xe2; x80; x89]; [xe2; x80; x8a]; [xe2; x80; xa8]; [xe2; x80; xa9]; [xe2; x80; xaf]; [xe2; x81; x9f]; [xe3; x80; x80]].

Fixpoint strip_any (prefixes : list (list byte)) (text : list byte) : option (list byte) :=
  match prefixes with
  | [] => None
  | p :: prefixes => match strip_prefix p text with Some rest => Some rest | None => strip_any prefixes text end
  end.

Fixpoint strip_all (fuel : nat) (prefixes : list (list byte)) (text : list byte) : list byte :=
  match fuel with
  | O => text
  | S fuel => match strip_any prefixes text with Some rest => strip_all fuel prefixes rest | None => text end
  end.

(** [text.trim()]. *)
Definition trim (text : list byte) : list byte :=
  let text := strip_all (length text) whitespace text in
  reverse (strip_all (length text) (reverse <$> whitespace) (reverse text)).

(** ** CPUs *)

Definition COMMA : byte := x2c.
Definition DASH : byte := x2d.

(** One component of a CPU list: a CPU or a range of them. *)
Definition count_component (total : N) (component : list byte) : result ThreadBudgetError N :=
  match split_once DASH component with
  | Some (start, end_) =>
      start ← ok_or (parse_unsigned U64_LIMIT start) (CpuSet component);
      end_ ← ok_or (parse_unsigned U64_LIMIT end_) (CpuSet component);
      _ ← fail_if (end_ <? start) (CpuSet component);
      ok_or (checked_add U64_LIMIT total (wrapping U64_LIMIT (end_ - start + 1))) (CpuSet component)
  | None =>
      _ ← ok_or (parse_unsigned U64_LIMIT component) (CpuSet component);
      ok_or (checked_add U64_LIMIT total 1) (CpuSet component)
  end.

Definition parse_cpu_list (value : list byte) : result ThreadBudgetError N :=
  _ ← fail_if (bool_decide (value = [])) (CpuSet (as_bytes "empty CPU set"));
  try_fold count_component 0 (split_on COMMA value).

(** The cgroup files in the order they are tried. *)
Definition cpuset_files : list string := ["/sys/fs/cgroup/cpuset.cpus.effective"; "/sys/fs/cgroup/cpuset/cpuset.cpus"].

Fixpoint first_cpuset (m : Machine) (paths : list string) : option (string * list byte) :=
  match paths with
  | [] => None
  | path :: paths =>
      match read_to_string m path with
      | Ok value => if bool_decide (trim value = []) then first_cpuset m paths else Some (path, trim value)
      | Err _ => first_cpuset m paths
      end
  end.

Fixpoint find_line (prefix : list byte) (ls : list (list byte)) : option (list byte) :=
  match ls with
  | [] => None
  | line :: ls => match strip_prefix prefix line with Some rest => Some rest | None => find_line prefix ls end
  end.

Definition detect_cpuset (m : Machine) : result ThreadBudgetError (N * string) :=
  match first_cpuset m cpuset_files with
  | Some (path, value) => n ← parse_cpu_list value; Ok (n, path)
  | None =>
      status ← map_err CpuSet (read_to_string m "/proc/self/status");
      value ← ok_or (trim <$> find_line (as_bytes "Cpus_allowed_list:") (lines status))
                    (CpuSet (as_bytes "Cpus_allowed_list is absent"));
      n ← parse_cpu_list value;
      Ok (n, "/proc/self/status:Cpus_allowed_list"%string)
  end.

Definition positive_env (m : Machine) (name : string) : result ThreadBudgetError N :=
  value ← ok_or (env_var m name) (InvalidEnvironment name);
  value ← ok_or (parse_unsigned U64_LIMIT value) (InvalidEnvironment name);
  _ ← fail_if (value =? 0) (InvalidEnvironment name);
  Ok value.

Definition node_saturation_target (m : Machine) : result ThreadBudgetError N :=
  value ← ok_or (env_var m "NGKG_NODE_SATURATION_TARGET_PERCENT") InvalidSaturationTarget;
  value ← ok_or (parse_unsigned U8_LIMIT value) InvalidSaturationTarget;
  _ ← fail_if ((value =? 0) || (MAX_NODE_SATURATION_PERCENT <? value)) InvalidSaturationTarget;
  Ok value.

(** ** Budgets *)

Definition validate_thread_budget (budget : ThreadBudget) (cores : N) (nested_parallelism : bool) : result ThreadBudgetError unit :=
  _ ← fail_if nested_parallelism NestedParallelism;
  requested ← ok_or (value ← checked_add U64_LIMIT (rust_compute budget) (blocking_io budget);
                     value ← checked_add U64_LIMIT value (openmp budget);
                     value ← checked_add U64_LIMIT value (blas budget);
                     checked_add U64_LIMIT value (control budget))
                    (Oversubscribed U64_MAX cores);
  fail_if (cores <? requested) (Oversubscribed requested cores).

Definition capability_report (m : Machine) (budget : ThreadBudget) : result ThreadBudgetError CapabilityReport :=
  '(cores, source) ← detect_cpuset m;
  _ ← validate_thread_budget budget cores false;
  omp ← positive_env m "OMP_NUM_THREADS";
  openblas ← positive_env m "OPENBLAS_NUM_THREADS";
  mkl ← positive_env m "MKL_NUM_THREADS";
  saturation ← node_saturation_target m;
  _ ← fail_if (negb (omp =? openmp budget) || negb (openblas =? blas budget) || negb (mkl =? blas budget))
              NativeRuntimeMismatch;
  Ok {| report_cpuset_cores := cores; report_cpuset_source := source; report_budget := budget;
        node_saturation_target_percent := saturation; omp_num_threads := omp; openblas_num_threads := openblas;
        mkl_num_threads := mkl |}.

Definition read_cgroup_u64 (m : Machine) (path : string) : result ThreadBudgetError N :=
  value ← map_err (fun error => CgroupMemory (as_bytes path ++ as_bytes ": " ++ error)) (read_to_string m path);
  let value := trim value in
  _ ← fail_if (bool_decide (value = as_bytes "max"))
              (CgroupMemory (as_bytes path ++ as_bytes " is unlimited; a Guaranteed-QoS memory limit is required"));
  ok_or (parse_unsigned U64_LIMIT value) (CgroupMemory (as_bytes path ++ as_bytes ": " ++ value)).

Definition read_memory_controller (m : Machine) : result ThreadBudgetError (N * N) :=
  if is_file m "/sys/fs/cgroup/memory.max" then
    limit ← read_cgroup_u64 m "/sys/fs/cgroup/memory.max";
    current ← read_cgroup_u64 m "/sys/fs/cgroup/memory.current";
    Ok (limit, current)
  else
    limit ← read_cgroup_u64 m "/sys/fs/cgroup/memory/memory.limit_in_bytes";
    usage ← read_cgroup_u64 m "/sys/fs/cgroup/memory/memory.usage_in_bytes";
    _ ← fail_if (2 ^ 60 <=? limit)
                (CgroupMemory (as_bytes "cgroup v1 memory is unlimited; a Guaranteed-QoS memory limit is required"));
    Ok (limit, usage).

Definition resource_envelope_report (m : Machine) : result ThreadBudgetError ResourceEnvelopeReport :=
  '(cores, source) ← detect_cpuset m;
  target ← node_saturation_target m;
  '(limit, current) ← read_memory_controller m;
  _ ← fail_if ((limit =? 0) || (limit <? current)) (CgroupMemory (as_bytes "usage exceeds the configured finite limit"));
  let usable_u128 := saturating_mul (2 ^ 128) limit target / 100 in
  usable ← ok_or (if fits U64_LIMIT usable_u128 then Some usable_u128 else None)
                 (CgroupMemory (as_bytes "usable memory exceeds u64"));
  Ok {| cpuset_cores := cores; cpuset_source := source; memory_limit_bytes := limit; memory_current_bytes := current;
        usable_memory_bytes := usable; memory_headroom_bytes := usable - current; saturation_target_percent := target;
        memory_saturated := usable <=? current |}.

Definition validate_buffer_budget (buffer_bytes concurrency : N) (envelope : ResourceEnvelopeReport) : result ThreadBudgetError N :=
  requested ← ok_or (checked_mul U64_LIMIT buffer_bytes concurrency) (MemoryBudget U64_MAX (memory_headroom_bytes envelope));
  _ ← fail_if (memory_headroom_bytes envelope <? requested) (MemoryBudget requested (memory_headroom_bytes envelope));
  Ok requested.

(** ** MPI ranks *)

Record Family := { rank_name : string; size_name : string; local_name : string; family : string }.

Definition FAMILIES : list Family :=
  [{| rank_name := "NGKG_MPI_RANK"; size_name := "NGKG_MPI_WORLD_SIZE"; local_name := "NGKG_MPI_LOCAL_RANK";
      family := "ngkg-mpi-wrapper" |};
   {| rank_name := "OMPI_COMM_WORLD_RANK"; size_name := "OMPI_COMM_WORLD_SIZE"; local_name := "OMPI_COMM_WORLD_LOCAL_RANK";
      family := "openmpi" |};
   {| rank_name := "PMIX_RANK"; size_name := "PMIX_SIZE"; local_name := "PMIX_LOCAL_RANK"; family := "pmix" |};
   {| rank_name := "PMI_RANK"; size_name := "PMI_SIZE"; local_name := "MPI_LOCALRANKID"; family := "mpich-pmi" |}].

(** Some variable of the family is set. *)
Definition family_present (m : Machine) (f : Family) : bool :=
  bool_decide (is_Some (var_os m (rank_name f))) || bool_decide (is_Some (var_os m (size_name f)))
  || bool_decide (is_Some (var_os m (local_name f))).

Definition wrapper : Family := default (Build_Family "" "" "" "") (head FAMILIES).

Definition parse_rank (m : Machine) (name : string) : result ThreadBudgetError N :=
  ok_or (value ← env_var m name; parse_unsigned U32_LIMIT value) InvalidMpiEnvironment.

Definition detect_mpi_environment (m : Machine) : result ThreadBudgetError (option MpiEnvironment) :=
  let present_families := filter (fun f => family_present m f = true) FAMILIES in
  match present_families with
  | [] => Ok None
  | only :: others =>
      selected ← (if family_present m wrapper then Ok wrapper
                  else if bool_decide (others = []) then Ok only
                  else Err InvalidMpiEnvironment);
      rank ← parse_rank m (rank_name selected);
      size ← parse_rank m (size_name selected);
      local ← parse_rank m (local_name selected);
      _ ← fail_if ((size <? 2) || (size <=? rank) || (size <=? local)) InvalidMpiEnvironment;
      Ok (Some {| mpi_rank := rank; world_size := size; local_rank := local; implementation := family selected |})
  end.

(** ** The plan of a parallel execution *)

Definition plan_parallel_execution (backend : LocalComputeBackend) (compute io rows batches row_bytes : N)
    (envelope : ResourceEnvelopeReport) (mpi : option MpiEnvironment) : result ThreadBudgetError ParallelExecutionPlan :=
  _ ← fail_if ((compute =? 0) || (io =? 0) || (rows =? 0) || (batches =? 0) || (row_bytes =? 0)
               || match (value ← checked_add U64_LIMIT compute io; checked_add U64_LIMIT value 1) with
                  | None => true
                  | Some threads => cpuset_cores envelope <? threads
                  end
               || match mpi with Some value => (world_size value <? 2) || (world_size value <=? mpi_rank value) | None => false end)
              InvalidParallelPlan;
  batch_bytes ← ok_or (checked_mul U64_LIMIT rows row_bytes) InvalidParallelPlan;
  reserved ← validate_buffer_budget batch_bytes batches envelope;
  Ok {| plan_backend := backend; compute_threads := compute; blocking_io_threads := io; parquet_batch_rows := rows;
        maximum_in_flight_batches := batches; reserved_memory_bytes := reserved; plan_mpi := mpi |}.

(** ** Counting CPUs *)

(** The CPUs of the ranges a kernel prints, and how it prints them. *)
Definition print_range (r : N * N) : list byte :=
  if r.1 =? r.2 then decimal r.1 else decimal r.1 ++ DASH :: decimal r.2.

Fixpoint print_ranges (rs : list (N * N)) : list byte :=
  match rs with
  | [] => []
  | [r] => print_range r
  | r :: rs => print_range r ++ COMMA :: print_ranges rs
  end.

Definition range_cpus (r : N * N) : gset N := list_to_set ((fun i => r.1 + N.of_nat i) <$> seq 0 (N.to_nat (r.2 - r.1 + 1))).

Definition cpus_of (rs : list (N * N)) : gset N := ⋃ (range_cpus <$> rs).

(** Ascending and disjoint, of 64-bit numbers. *)
Definition kernel_ranges (rs : list (N * N)) : Prop :=
  rs <> [] /\ Forall (fun r => r.1 <= r.2 /\ r.2 < U64_LIMIT - 1) rs /\ StronglySorted (fun a b => a.2 < b.1) rs.

Lemma parse_unsigned_decimal n : n < U64_LIMIT -> parse_unsigned U64_LIMIT (decimal n) = Some n.
Proof. apply parse_u64_decimal. Qed.

Lemma decimal_no_separator n b : b ∈ decimal n -> b <> COMMA /\ b <> DASH.
Proof.
  intros Hb. pose proof (proj1 (Forall_forall _ _) (digits_range _ _) b Hb) as Hr. split; intros ->; by vm_compute in Hr.
Qed.

Lemma print_range_no_comma r : COMMA ∉ print_range r.
Proof.
  unfold print_range. destruct (r.1 =? r.2); [|rewrite not_elem_of_app, not_elem_of_cons; split_and!; [|done|]];
    intros Hb%decimal_no_separator; tauto.
Qed.

Lemma split_ranges rs : rs <> [] -> split_on COMMA (print_ranges rs) = print_range <$> rs.
Proof.
  induction rs as [|r rs IH]; [done|]. intros _. destruct rs as [|r' rs].
  - cbn. apply split_plain, print_range_no_comma.
  - change (print_ranges (r :: r' :: rs)) with (print_range r ++ COMMA :: print_ranges (r' :: rs)).
    rewrite split_app by apply print_range_no_comma. by rewrite IH.
Qed.

Lemma count_range total r : r.1 <= r.2 -> r.2 < U64_LIMIT - 1 -> total + (r.2 - r.1 + 1) < U64_LIMIT ->
  count_component total (print_range r) = Ok (total + (r.2 - r.1 + 1)).
Proof.
  intros Hle Hlt Hsum. unfold count_component, print_range. destruct (N.eqb_spec r.1 r.2) as [E|E].
  - assert (split_once DASH (decimal r.1) = None) as ->.
    { destruct (split_once _ _) as [[l r']|] eqn:Hs; [|done]. apply split_once_some in Hs as [Hd _].
      destruct (decimal_no_separator r.1 DASH) as [_ []]; [rewrite Hd; set_solver|done]. }
    rewrite parse_unsigned_decimal by lia. cbn. unfold checked_add, fits. rewrite (proj2 (N.ltb_lt _ _)) by lia. cbn. f_equal. lia.
  - rewrite split_once_app by (intros Hb%decimal_no_separator; tauto). rewrite !parse_unsigned_decimal by lia. cbn.
    rewrite (proj2 (N.ltb_ge _ _)) by lia. cbn. unfold wrapping. rewrite N.mod_small by lia.
    unfold checked_add, fits. by rewrite (proj2 (N.ltb_lt _ _)) by lia.
Qed.

Lemma elem_of_range_cpus r i : i ∈ range_cpus r <-> r.1 <= i <= N.max r.2 r.1.
Proof.
  unfold range_cpus. rewrite elem_of_list_to_set, list_elem_of_fmap. split.
  - intros (k & -> & Hk%elem_of_seq). lia.
  - intros [? ?]. exists (N.to_nat (i - r.1)). rewrite elem_of_seq. lia.
Qed.

Lemma size_range_cpus r : r.1 <= r.2 -> N.of_nat (size (range_cpus r)) = r.2 - r.1 + 1.
Proof.
  intros Hle. unfold range_cpus. rewrite size_list_to_set; [rewrite length_fmap, length_seq; lia|].
  apply NoDup_fmap_2; [|apply NoDup_seq]. intros a b ?. lia.
Qed.

Lemma size_cpus_nil : size (cpus_of []) = 0%nat.
Proof. apply size_empty. Qed.

Lemma size_cpus_cons r rs : Forall (fun r => r.1 <= r.2 /\ r.2 < U64_LIMIT - 1) (r :: rs) ->
  StronglySorted (fun a b => a.2 < b.1) (r :: rs) ->
  N.of_nat (size (cpus_of (r :: rs))) = (r.2 - r.1 + 1) + N.of_nat (size (cpus_of rs)).
Proof.
  intros Hall Hs. inversion Hs as [|? ? _ Hlt]; subst. inversion Hall as [|? ? [Hr _] Hrs]; subst.
  unfold cpus_of. cbn [fmap list_fmap union_list foldr]. rewrite size_union.
  - rewrite Nat2N.inj_add, size_range_cpus by done. done.
  - intros i Hi (X & HX & Hi')%elem_of_union_list. apply list_elem_of_fmap in HX as (r' & -> & Hr').
    apply elem_of_range_cpus in Hi. apply elem_of_range_cpus in Hi'. rewrite Forall_forall in Hlt, Hrs.
    specialize (Hlt r' Hr'). specialize (Hrs r' Hr'). cbn in *. lia.
Qed.

(** The CPUs lie below the last one. *)
Lemma size_cpus_bound rs lo : Forall (fun r => r.1 <= r.2 /\ r.2 < U64_LIMIT - 1) rs ->
  StronglySorted (fun a b => a.2 < b.1) rs -> Forall (fun r => lo <= r.1) rs -> lo < U64_LIMIT ->
  lo + N.of_nat (size (cpus_of rs)) < U64_LIMIT.
Proof.
  revert lo. induction rs as [|r rs IH]; intros lo Hall Hs Hlo Hlt; [rewrite size_cpus_nil; lia|].
  rewrite size_cpus_cons by done. inversion Hs as [|? ? Hs' Hsep]; inversion Hall as [|? ? [Hr Hr'] Hrs]; inversion Hlo; subst.
  assert (r.2 + 1 + N.of_nat (size (cpus_of rs)) < U64_LIMIT); [|cbn beta in *; lia].
  apply IH; [done|done| |lia]. eapply Forall_impl; [exact Hsep|]. cbn. intros; lia.
Qed.

Lemma count_ranges rs : forall total, Forall (fun r => r.1 <= r.2 /\ r.2 < U64_LIMIT - 1) rs ->
  StronglySorted (fun a b => a.2 < b.1) rs -> total + N.of_nat (size (cpus_of rs)) < U64_LIMIT ->
  try_fold count_component total (print_range <$> rs) = Ok (total + N.of_nat (size (cpus_of rs))).
Proof.
  induction rs as [|r rs IH]; intros total Hall Hs Hlt; [rewrite size_cpus_nil; cbn; f_equal; lia|].
  rewrite size_cpus_cons in * by done. inversion Hs; inversion Hall as [|? ? [] ]; subst. cbn [fmap list_fmap try_fold].
  rewrite count_range by lia. cbn [mbind result_bind]. rewrite IH by (done || lia). f_equal. lia.
Qed.

(** the CPUs of a list a kernel prints are counted exactly. *)
Theorem cpu_list_is_counted_exactly (rs : list (N * N)) :
  kernel_ranges rs -> parse_cpu_list (print_ranges rs) = Ok (N.of_nat (size (cpus_of rs))).
Proof.
  intros (Hne & Hall & Hs). unfold parse_cpu_list. apply fail_then. split.
  - apply bool_decide_eq_false_2. intros Hnil. pose proof (split_ranges rs Hne) as Hsp. rewrite Hnil in Hsp.
    destruct rs as [|r [|]]; [done| |done]. cbn in Hsp. injection Hsp as Hsp. unfold print_range in Hsp.
    pose proof (Forall_inv Hall) as [? ?]. destruct (decimal_width_spec r.1) as [Hw _]; [lia|].
    assert (length (decimal r.1) <> 0)%nat as Hl by (unfold decimal; rewrite length_digits; lia).
    destruct (r.1 =? r.2); [by rewrite <- Hsp in Hl|]. by destruct (decimal r.1).
  - rewrite split_ranges by done. rewrite count_ranges; [f_equal; lia|done|done|].
    apply size_cpus_bound; try done. apply Forall_forall. lia.
Qed.

(** ** Admission *)

Lemma positive_env_pos m name n : positive_env m name = Ok n -> 0 < n.
Proof. intros Hp. unfold positive_env in Hp. inv_ok Hp. inv_ok Hp. apply fail_then in Hp as [Hn [= ->]]. bool_prop. lia. Qed.

Lemma parse_unsigned_lt limit text n : 0 < limit -> parse_unsigned limit text = Some n -> n < limit.
Proof.
  intros Hl. unfold parse_unsigned. destruct text as [|b rest]; [done|]. case_bool_decide; [case_bool_decide; [done|]|];
    by apply parse_digits_lt.
Qed.

Lemma parse_cpu_list_lt value n : parse_cpu_list value = Ok n -> n < U64_LIMIT.
Proof.
  intros [_ Hf]%fail_then. apply (try_fold_inv (fun _ n => n < U64_LIMIT)) in Hf; [done|done|].
  intros l x n0 n1 _ _ Hc. unfold count_component in Hc. destruct (split_once _ _) as [[a b]|]; inv_steps;
    by apply checked_add_some in Hc as [-> ?].
Qed.

Lemma detect_cpuset_lt m cores source : detect_cpuset m = Ok (cores, source) -> cores < U64_LIMIT.
Proof.
  unfold detect_cpuset. destruct (first_cpuset _ _) as [[path value]|]; intros Hd; inv_steps;
    match goal with Hp : parse_cpu_list _ = _ |- _ => apply parse_cpu_list_lt in Hp; simplify_eq; done end.
Qed.

Lemma saturation_ok m target : node_saturation_target m = Ok target -> 1 <= target <= 80.
Proof. intros Ht. unfold node_saturation_target in Ht. inv_steps. bool_prop. unfold MAX_NODE_SATURATION_PERCENT in *. lia. Qed.

Lemma read_cgroup_lt m path n : read_cgroup_u64 m path = Ok n -> n < U64_LIMIT.
Proof. intros Hr. unfold read_cgroup_u64 in Hr. inv_steps. by eapply parse_unsigned_lt; [|done]. Qed.

Lemma read_memory_lt m limit current : read_memory_controller m = Ok (limit, current) -> limit < U64_LIMIT /\ current < U64_LIMIT.
Proof. unfold read_memory_controller. destruct (is_file _ _); intros Hr; inv_steps; simplify_eq; eauto using read_cgroup_lt. Qed.

(** The usable memory is the share of the limit below the saturation target. *)
Definition usable_share (limit target : N) : N := limit * target / 100.

Lemma usable_share_le limit target : target <= 80 -> 100 * usable_share limit target <= 80 * limit.
Proof.
  intros Ht. unfold usable_share. etrans; [apply N.Div0.mul_div_le|]. rewrite (N.mul_comm 80). by apply N.mul_le_mono_l.
Qed.

Lemma resource_envelope_ok m e : resource_envelope_report m = Ok e ->
  cpuset_cores e < U64_LIMIT /\ 1 <= saturation_target_percent e <= 80 /\
  memory_current_bytes e <= memory_limit_bytes e /\ memory_limit_bytes e < U64_LIMIT /\
  usable_memory_bytes e = usable_share (memory_limit_bytes e) (saturation_target_percent e) /\
  memory_headroom_bytes e = usable_memory_bytes e - memory_current_bytes e.
Proof.
  intros He. unfold resource_envelope_report in He. inv_ok He. destruct a as [cores source]. apply detect_cpuset_lt in Ha.
  inv_ok He. apply saturation_ok in Ha0. inv_ok He. destruct a0 as [limit current]. apply read_memory_lt in Ha1. inv_steps.
  subst e. cbn. bool_prop. assert (limit * a < 2 ^ 128) as Hm.
  { assert (limit * a <= limit * 80) by (apply N.mul_le_mono_l; lia). unfold U64_LIMIT in *. lia. }
  assert (saturating_mul (2 ^ 128) limit a = limit * a) as Hs by (unfold saturating_mul; lia). rewrite Hs in Ha3.
  fold (usable_share limit a) in Ha3. destruct (fits _ _); [injection Ha3 as <-|done]. split_and!; lia.
Qed.

Lemma buffer_budget_ok buffer concurrency e n : validate_buffer_budget buffer concurrency e = Ok n <->
  n = buffer * concurrency /\ n < U64_LIMIT /\ n <= memory_headroom_bytes e.
Proof.
  unfold validate_buffer_budget. split.
  - intros Hv. inv_ok Hv. apply fail_then in Hv as [Hn [= ->]]. apply ok_or_ok, checked_mul_some in Ha as [-> ?]. bool_prop. done.
  - intros (-> & ? & ?). assert (checked_mul U64_LIMIT buffer concurrency = Some (buffer * concurrency)) as -> by (by apply checked_mul_some).
    cbn [ok_or mbind result_bind]. apply fail_then. by rewrite N.ltb_ge.
Qed.

(** What a rank needs to be one. *)
Definition rank_in_world (mpi : option MpiEnvironment) : Prop :=
  match mpi with Some value => 2 <= world_size value /\ mpi_rank value < world_size value | None => True end.

(** C21: a parallel execution is admitted exactly when it does some work, its
    threads with the control thread fit the CPUs of the cgroup, and its batches
    with the memory in use fit the share of the memory limit below the
    saturation target, which is at most 80 percent. *)
Theorem admitted_work_fits_the_cgroup (m : Machine) (e : ResourceEnvelopeReport) (backend : LocalComputeBackend)
    (compute io rows batches row_bytes : N) (mpi : option MpiEnvironment) :
  resource_envelope_report m = Ok e ->
  100 * usable_memory_bytes e <= 80 * memory_limit_bytes e /\
  (is_ok (plan_parallel_execution backend compute io rows batches row_bytes e mpi) = true <->
   0 < compute /\ 0 < io /\ 0 < rows /\ 0 < batches /\ 0 < row_bytes /\ compute + io + 1 <= cpuset_cores e /\ rank_in_world mpi /\
   memory_current_bytes e + rows * row_bytes * batches <= usable_memory_bytes e).
Proof.
  intros (Hcores & Htarget & Hcur & Hlim & Hus & Hhead)%resource_envelope_ok. pose proof (usable_share_le (memory_limit_bytes e) _ (proj2 Htarget)) as Hshare.
  split; [by rewrite Hus|]. assert (usable_memory_bytes e < U64_LIMIT) as Hu64 by (rewrite Hus; lia). rewrite is_ok_true. split.
  - intros [p Hp]. unfold plan_parallel_execution in Hp. apply fail_then in Hp as [Hc Hp]. inv_ok Hp. inv_ok Hp. clear Hp.
    apply ok_or_ok, checked_mul_some in Ha as [-> Ha]. apply buffer_budget_ok in Ha0 as (-> & ? & ?). bool_prop.
    assert (0 < rows * row_bytes * batches) by (repeat apply N.mul_pos_pos; lia).
    destruct (_ ← checked_add U64_LIMIT compute io; _) as [threads|] eqn:Ht; [|done]. bool_prop.
    destruct (checked_add U64_LIMIT compute io) as [v|] eqn:Hv; [|done]. cbn in Ht. apply checked_add_some in Hv as [-> _], Ht as [-> _].
    split_and!; try lia. destruct mpi as [value|]; [|done]. cbn. bool_prop. lia.
  - intros (? & ? & ? & ? & ? & ? & Hmpi & Hmem). eexists. unfold plan_parallel_execution.
    assert (rows * row_bytes <= rows * row_bytes * batches) by (rewrite <- (N.mul_1_r (rows * row_bytes)) at 1; apply N.mul_le_mono_l; lia).
    assert (checked_add U64_LIMIT compute io = Some (compute + io)) as -> by (apply checked_add_some; lia). cbn [mbind option_bind].
    assert (checked_add U64_LIMIT (compute + io) 1 = Some (compute + io + 1)) as -> by (apply checked_add_some; lia).
    rewrite (proj2 (fail_if_ok _ _ tt)).
    2: { rewrite !orb_false_iff, !N.eqb_neq, N.ltb_ge. split_and!; try lia. destruct mpi as [value|]; [|done]. destruct Hmpi.
         rewrite orb_false_iff, N.ltb_ge, N.leb_gt. lia. }
    cbn [mbind result_bind]. assert (checked_mul U64_LIMIT rows row_bytes = Some (rows * row_bytes)) as -> by (apply checked_mul_some; lia).
    cbn [ok_or mbind result_bind]. rewrite (proj2 (buffer_budget_ok _ _ _ (rows * row_bytes * batches))) by (split_and!; lia).
    reflexivity.
Qed.

(** The thread pools of a process that starts fit its CPUs, and the native
    libraries are configured with the threads of their pools. *)
Theorem started_process_fits_its_cpus (m : Machine) (budget : ThreadBudget) (r : CapabilityReport) :
  capability_report m budget = Ok r ->
  rust_compute budget + blocking_io budget + openmp budget + blas budget + control budget <= report_cpuset_cores r /\
  omp_num_threads r = openmp budget /\ openblas_num_threads r = blas budget /\ mkl_num_threads r = blas budget /\
  0 < openmp budget /\ 0 < blas budget /\ 1 <= node_saturation_target_percent r <= MAX_NODE_SATURATION_PERCENT.
Proof.
  intros Hc. unfold capability_report in Hc. inv_ok Hc. destruct a as [cores source]. inv_ok Hc. inv_ok Hc. inv_ok Hc. inv_ok Hc.
  inv_ok Hc. apply fail_then in Hc as [Hn [= <-]]. apply saturation_ok in Ha4. bool_prop. subst. cbn.
  unfold validate_thread_budget in Ha0. inv_steps.
  apply bind_Some in Ha6 as (v1 & [-> _]%checked_add_some & Ha6). apply bind_Some in Ha6 as (v2 & [-> _]%checked_add_some & Ha6).
  apply bind_Some in Ha6 as (v3 & [-> _]%checked_add_some & Ha6). apply checked_add_some in Ha6 as [-> _].
  apply positive_env_pos in Ha1, Ha2. bool_prop. unfold MAX_NODE_SATURATION_PERCENT. split_and!; done || lia.
Qed.

(** The variables a rank of the wrapper has. *)
Definition wrapped (m : Machine) (rank size local : N) : Prop :=
  var_os m "NGKG_MPI_RANK" = Some (decimal rank) /\ var_os m "NGKG_MPI_WORLD_SIZE" = Some (decimal size) /\
  var_os m "NGKG_MPI_LOCAL_RANK" = Some (decimal local).

Lemma decimal_utf8 n : utf8_valid (decimal n) = true.
Proof. apply ascii_utf8, forallb_forall. intros b Hb%list_elem_of_In%digits_plain. tauto. Qed.

Lemma parse_rank_decimal m name n : var_os m name = Some (decimal n) -> n < U32_LIMIT -> parse_rank m name = Ok n.
Proof.
  intros Hv Hn. unfold parse_rank, env_var. rewrite Hv. cbn [mbind option_bind]. rewrite decimal_utf8. cbn [mbind option_bind].
  assert (parse_unsigned U32_LIMIT (decimal n) = Some n) as ->; [|done].
  destruct (decimal_width_spec n) as [[Hw _] Hlt]; [unfold U32_LIMIT, U64_LIMIT in *; lia|]. unfold parse_unsigned.
  destruct (decimal n) as [|b rest] eqn:Hd.
  { apply (f_equal length) in Hd. unfold decimal in Hd. rewrite length_digits in Hd. cbn [length] in Hd. lia. }
  rewrite bool_decide_eq_false_2 by (eapply digits_plain; unfold decimal in Hd; rewrite Hd; left). rewrite <- Hd. unfold decimal.
  rewrite parse_digits_digits; rewrite N.mod_small by done; [f_equal|]; lia.
Qed.

(** The rank the wrapper exports is the rank that is found, whatever an MPI
    vendor exports beside it.  Without the wrapper two vendors are refused. *)
Theorem wrapper_decides_the_rank (m : Machine) (rank size local : N) :
  wrapped m rank size local -> 2 <= size < U32_LIMIT -> rank < size -> local < size ->
  detect_mpi_environment m =
    Ok (Some {| mpi_rank := rank; world_size := size; local_rank := local; implementation := "ngkg-mpi-wrapper" |}).
Proof.
  intros (Hr & Hs & Hl) Hsize Hrank Hlocal.
  assert (family_present m wrapper = true) as Hw by (unfold family_present; cbn; rewrite Hr; done).
  unfold detect_mpi_environment. rewrite Hw. destruct (filter _ FAMILIES) as [|only others] eqn:Hf.
  - assert (wrapper ∈ filter (fun f => family_present m f = true) FAMILIES) as Hin by (apply list_elem_of_filter; split; [done|left]).
    rewrite Hf in Hin. by apply elem_of_nil in Hin.
  - cbn [mbind result_bind wrapper rank_name size_name local_name].
    change (rank_name wrapper) with "NGKG_MPI_RANK"%string. change (size_name wrapper) with "NGKG_MPI_WORLD_SIZE"%string.
    change (local_name wrapper) with "NGKG_MPI_LOCAL_RANK"%string.
    rewrite (parse_rank_decimal m _ _ Hr), (parse_rank_decimal m _ _ Hs), (parse_rank_decimal m _ _ Hl) by lia.
    cbn [mbind result_bind]. apply fail_then. split; [|done]. rewrite !orb_false_iff, N.ltb_ge, !N.leb_gt. lia.
Qed.

(** Every rank that is found lies in its world. *)
Lemma found_rank_is_in_world m value : detect_mpi_environment m = Ok (Some value) -> rank_in_world (Some value).
Proof.
  unfold detect_mpi_environment. destruct (filter _ FAMILIES) as [|only others]; [done|]. intros Hd. inv_ok Hd. inv_ok Hd. inv_ok Hd.
  inv_ok Hd. apply fail_then in Hd as [Hc [= <-]]. bool_prop. done.
Qed.

(** ** Examples *)

Definition sample_machine : Machine :=
  {| var_os := fun name => if bool_decide (name = "NGKG_NODE_SATURATION_TARGET_PERCENT"%string) then Some (as_bytes "80") else None;
     read_to_string := fun path =>
       if bool_decide (path = "/sys/fs/cgroup/cpuset.cpus.effective"%string) then Ok (as_bytes "0-3,8" ++ [LF])
       else if bool_decide (path = "/sys/fs/cgroup/memory.max"%string) then Ok (as_bytes "1000" ++ [LF])
       else if bool_decide (path = "/sys/fs/cgroup/memory.current"%string) then Ok (as_bytes "300" ++ [LF])
       else Err [];
     is_file := fun path => bool_decide (path = "/sys/fs/cgroup/memory.max"%string) |}.

Definition sample_envelope : ResourceEnvelopeReport :=
  {| cpuset_cores := 5; cpuset_source := "/sys/fs/cgroup/cpuset.cpus.effective"; memory_limit_bytes := 1000; memory_current_bytes := 300;
     usable_memory_bytes := 800; memory_headroom_bytes := 500; saturation_target_percent := 80; memory_saturated := false |}.

(** A range of all the numbers has no CPUs in a release build: the length of the
    range wraps before it is added under a check.  Ranges that overlap are
    counted twice. *)
Example full_range_counts_as_empty :
  parse_cpu_list (as_bytes "0-18446744073709551615") = Ok 0 /\ parse_cpu_list (as_bytes "0-3,2") = Ok 5.
Proof. by vm_compute. Qed.

Lemma cpu_list_is_counted_exactly_witness :
  parse_cpu_list (print_ranges [(0, 3); (8, 8)]) = Ok (N.of_nat (size (cpus_of [(0, 3); (8, 8)]))).
Proof.
  apply (cpu_list_is_counted_exactly [(0, 3); (8, 8)]). split_and!; [done| |]; repeat constructor; by vm_compute.
Defined.

Lemma admitted_work_fits_the_cgroup_witness :
  is_ok (plan_parallel_execution Rust 3 1 10 5 10 sample_envelope None) = true /\
  is_ok (plan_parallel_execution Rust 3 1 10 5 11 sample_envelope None) = false.
Proof.
  split.
  - apply (admitted_work_fits_the_cgroup sample_machine sample_envelope Rust 3 1 10 5 10 None); [by vm_compute|].
    cbn. split_and!; lia || done.
  - by vm_compute.
Defined.
