(* ===== verification/ArtifactStore.v ===== *)
(** * The artifact store

    Models src/crates/ngkg-artifact-store/src/lib.rs: checksum-bound access to
    object stores.  A method of [ArtifactStore] is a [Program], a tree of the
    calls it makes on the object store, the local disk and the shared byte
    counter; [run] executes one program alone, [interleave] several at once,
    one call at a time in the order of a schedule.

    The object store is code outside the repository: [ObjectStore] states what
    its documentation promises of every call, failed ones included (a write
    that reports a failure may have happened).  The local disk is a map from
    paths to bytes, and a list of the calls that will fail.

    The theorems show that under any schedule of any calls no published object
    changes, that a publication that reports success left an object with the
    requested digest, that concurrent staging stays within its byte budget,
    and that a fetch leaves nothing but verified bytes at its destination. *)

From Stdlib Require Import Strings.Byte Strings.String.
From stdpp Require Import functions.
From S2P Require Import Prelude Words Ordered Digest Text.

Local Open Scope N_scope.

(** ** Errors *)

Inductive StoreError := NotFound | AlreadyExists | StoreFailure.

Inductive IoError := IoNotFound | IoAlreadyExists | IoFailure (reason : string).

Inductive ArtifactStoreError :=
| BaseUrl (reason : string)
| UnsafeKey (key : string)
| InvalidSha256
| SizeLimit (key : string) (limit : N)
| AggregateSizeLimit (limit : N)
| ChecksumMismatch (key : string)
| ImmutableConflict (key : string)
| Io (error : IoError)
| Store (error : StoreError).

(** ** Keys *)

Definition SLASH : byte := x2f.
Definition BACKSLASH : byte := x5c.

Definition is_ascii_alphanumeric (b : byte) : bool :=
  in_range 0x30 0x39 b || in_range 0x41 0x5a b || in_range 0x61 0x7a b.

(** [matches!(byte, b'.' | b'_' | b'-')]. *)
Definition key_punctuation (b : byte) : bool := bool_decide (b ∈ as_bytes "._-").

Definition unsafe_segment (segment : list byte) : bool :=
  (255 <? length segment)%nat
  || match segment with
     | [] => true
     | first :: bytes =>
         negb (is_ascii_alphanumeric first || bool_decide (first = x5f))
         || existsb (fun b => negb (is_ascii_alphanumeric b || key_punctuation b)) bytes
     end.

Definition validate_key (value : string) : result ArtifactStoreError unit :=
  let bytes := as_bytes value in
  fail_if (bool_decide (bytes = []) || (1024 <? length bytes)%nat
           || bool_decide (head bytes = Some SLASH) || bool_decide (last bytes = Some SLASH)
           || bool_decide (BACKSLASH ∈ bytes)
           || existsb unsafe_segment (split_on SLASH bytes))
          (UnsafeKey value).

Definition validate_optional_prefix (value : string) : result ArtifactStoreError unit :=
  if bool_decide (value = ""%string) then Ok tt else validate_key value.

Definition decode_sha256 (value : string) : result ArtifactStoreError (list byte) :=
  _ ← fail_if (negb (lower_hex_sha256 value)) InvalidSha256;
  ok_or (hex_decode (as_bytes value)) InvalidSha256.

(** ** The object store

    [objects] is what the store holds.  A call that fails may still have taken
    effect, except where its error says otherwise. *)

(** An [object_store::path::Path]. *)
Definition Location := string.

Class ObjectStore (S : Type) := {
  objects : S -> gmap Location (list byte);
  parse_path : string -> option Location;
  os_head : Location -> S -> result StoreError N * S;
  os_get : Location -> S -> result StoreError (list (result StoreError (list byte))) * S;
  os_put_create : Location -> list byte -> S -> result StoreError unit * S;
  os_put_stream : Location -> list byte -> S -> result StoreError unit * S;
  os_copy_if_not_exists : Location -> Location -> S -> result StoreError unit * S;
  os_delete : Location -> S -> result StoreError unit * S;
  parse_path_spec value : validate_key value = Ok tt -> parse_path value = Some value;
  os_head_spec l s r s' : os_head l s = (r, s') ->
    objects s' = objects s /\
    match r with
    | Ok size => exists o, objects s !! l = Some o /\ size = N.of_nat (length o)
    | Err NotFound => objects s !! l = None
    | Err _ => True
    end;
  os_get_spec l s r s' : os_get l s = (r, s') ->
    objects s' = objects s /\
    match r with
    | Ok chunks => exists o, objects s !! l = Some o /\ forall parts, chunks = Ok <$> parts -> concat parts = o
    | Err NotFound => objects s !! l = None
    | Err _ => True
    end;
  os_put_create_spec l o s r s' : os_put_create l o s = (r, s') ->
    match r with
    | Ok _ => objects s !! l = None /\ objects s' = <[l := o]> (objects s)
    | Err AlreadyExists => is_Some (objects s !! l) /\ objects s' = objects s
    | Err _ => objects s' = objects s \/ objects s !! l = None /\ objects s' = <[l := o]> (objects s)
    end;
  os_put_stream_spec l o s r s' : os_put_stream l o s = (r, s') ->
    match r with
    | Ok _ => objects s' = <[l := o]> (objects s)
    | Err _ => objects s' = objects s \/ objects s' = <[l := o]> (objects s)
    end;
  os_copy_spec l l' s r s' : os_copy_if_not_exists l l' s = (r, s') ->
    match r with
    | Ok _ => exists o, objects s !! l = Some o /\ objects s !! l' = None /\ objects s' = <[l' := o]> (objects s)
    | Err AlreadyExists => is_Some (objects s !! l') /\ objects s' = objects s
    | Err _ => objects s' = objects s \/
        exists o, objects s !! l = Some o /\ objects s !! l' = None /\ objects s' = <[l' := o]> (objects s)
    end;
  os_delete_spec l s r s' : os_delete l s = (r, s') ->
    match r with
    | Ok _ => objects s' = delete l (objects s)
    | Err _ => objects s' = objects s \/ objects s' = delete l (objects s)
    end;
}.

(** ** The local disk

    A path is the list of its components from the root.  [faults] says of the
    calls to come whether they work ([None]) or fail ([Some n], where a write
    fails after [n] bytes). *)

Definition FsPath := list string.

Record Disk := {
  files : gmap FsPath (list byte);
  faults : list (option nat);
}.

Definition parent (path : FsPath) : option FsPath :=
  match path with [] => None | _ => Some (removelast path) end.

Definition file_name (path : FsPath) : option string := last path.

Definition next_fault (d : Disk) : option nat := match faults d with f :: _ => f | [] => None end.

Definition with_files (fs : gmap FsPath (list byte)) (d : Disk) : Disk := {| files := fs; faults := tail (faults d) |}.

Definition DISK_FAILURE : IoError := IoFailure "disk failure".

(** A call that reads or replaces whole directory entries. *)
Definition disk_call {A} (f : gmap FsPath (list byte) -> result IoError A * gmap FsPath (list byte)) (d : Disk) :
    result IoError A * Disk :=
  match next_fault d with
  | Some _ => (Err DISK_FAILURE, with_files (files d) d)
  | None => let '(r, fs) := f (files d) in (r, with_files fs d)
  end.

Definition fs_sync (d : Disk) : result IoError unit * Disk := disk_call (fun fs => (Ok tt, fs)) d.

Definition fs_create_new (path : FsPath) (d : Disk) : result IoError unit * Disk :=
  disk_call (fun fs => match fs !! path with
                       | Some _ => (Err IoAlreadyExists, fs)
                       | None => (Ok tt, <[path := []]> fs)
                       end) d.

Definition fs_write_all (path : FsPath) (bytes : list byte) (d : Disk) : result IoError unit * Disk :=
  match next_fault d with
  | Some n => (Err DISK_FAILURE, with_files (alter (fun o => o ++ take n bytes) path (files d)) d)
  | None => (Ok tt, with_files (alter (fun o => o ++ bytes) path (files d)) d)
  end.

(** [fs::write]: create or truncate, then write. *)
Definition fs_write (path : FsPath) (bytes : list byte) (d : Disk) : result IoError unit * Disk :=
  match next_fault d with
  | Some n => (Err DISK_FAILURE, with_files (<[path := take n bytes]> (files d)) d)
  | None => (Ok tt, with_files (<[path := bytes]> (files d)) d)
  end.

Definition fs_rename (from to : FsPath) (d : Disk) : result IoError unit * Disk :=
  disk_call (fun fs => match fs !! from with
                       | Some o => (Ok tt, <[to := o]> (delete from fs))
                       | None => (Err IoNotFound, fs)
                       end) d.

Definition fs_remove_file (path : FsPath) (d : Disk) : result IoError unit * Disk :=
  disk_call (fun fs => match fs !! path with
                       | Some _ => (Ok tt, delete path fs)
                       | None => (Err IoNotFound, fs)
                       end) d.

Definition fs_read (path : FsPath) (d : Disk) : result IoError (list byte) * Disk :=
  disk_call (fun fs => (ok_or (fs !! path) IoNotFound, fs)) d.

Definition fs_len (path : FsPath) (d : Disk) : result IoError N * Disk :=
  disk_call (fun fs => ((fun o => N.of_nat (length o)) <$> ok_or (fs !! path) IoNotFound, fs)) d.

(** ** Programs *)

(** A backend is one bucket, container or file system root. *)
Definition Backend := nat.

(** A shared [AtomicU64]. *)
Definition Counter := nat.

Inductive Action :=
| Head (b : Backend) (l : Location)
| Get (b : Backend) (l : Location)
| PutCreate (b : Backend) (l : Location) (content : list byte)
| PutStream (b : Backend) (l : Location) (content : list byte)
| CopyIfNotExists (b : Backend) (from to : Location)
| Delete (b : Backend) (l : Location)
| CreateDirAll (path : FsPath)
| CreateNew (path : FsPath)
| WriteAll (path : FsPath) (bytes : list byte)
| WriteFile (path : FsPath) (bytes : list byte)
| SyncAll (path : FsPath)
| SyncDirectory (path : FsPath)
| Rename (from to : FsPath)
| RemoveFile (path : FsPath)
| ReadFile (path : FsPath)
| FileLen (path : FsPath)
| Reserve (counter : Counter) (size limit : N).

Definition Response (a : Action) : Type :=
  match a with
  | Head _ _ => result StoreError N
  | Get _ _ => result StoreError (list (result StoreError (list byte)))
  | PutCreate _ _ _ | PutStream _ _ _ | CopyIfNotExists _ _ _ | Delete _ _ => result StoreError unit
  | ReadFile _ => result IoError (list byte)
  | FileLen _ => result IoError N
  | Reserve _ _ _ => bool
  | _ => result IoError unit
  end.

Inductive Program (A : Type) :=
| Done (value : A)
| Act (a : Action) (k : Response a -> Program A).
Arguments Done {A} value.
Arguments Act {A} a k.

Fixpoint bind_program {A B} (p : Program A) (f : A -> Program B) : Program B :=
  match p with
  | Done a => f a
  | Act a k => Act a (fun r => bind_program (k r) f)
  end.

(** An [async fn] that returns [Result]. *)
Definition io (E A : Type) : Type := Program (result E A).

Global Instance io_ret {E} : MRet (io E) := fun A a => Done (Ok a).
Global Instance io_bind {E} : MBind (io E) := fun A B k m =>
  bind_program m (fun r => match r with Ok a => k a | Err e => Done (Err e) end).

Definition now {E A} (r : result E A) : io E A := Done r.
Definition call {E} (a : Action) : io E (Response a) := Act a (fun r => Done (Ok r)).

(** [.await.map_err(f)?]. *)
Definition with_error {E F A} (f : E -> F) (p : io E A) : io F A := bind_program p (fun r => Done (map_err f r)).

Definition store_call {A} (p : io ArtifactStoreError (result StoreError A)) : io ArtifactStoreError A :=
  r ← p; now (map_err Store r).
Definition io_call {A} (p : io ArtifactStoreError (result IoError A)) : io ArtifactStoreError A :=
  r ← p; now (map_err Io r).

(** ** Opening a store *)

Record ArtifactStore := {
  store : Backend;
  prefix : string;
}.

(** A parsed URL, as the [url] crate presents it. *)
Record Url := {
  scheme : string;
  username : string;
  password : option string;
  host_str : option string;
  url_path : string;
  query : option string;
  fragment : option string;
}.

(** [text.trim_matches('/')]. *)
Fixpoint trim_start (b : byte) (text : list byte) : list byte :=
  match text with
  | c :: rest => if bool_decide (c = b) then trim_start b rest else text
  | [] => []
  end.

Definition trim_matches (b : byte) (text : string) : string :=
  String.string_of_list_byte (reverse (trim_start b (reverse (trim_start b (as_bytes text))))).

Section Opening.
Context (parse_url : string -> option Url) (open_file : Url -> result ArtifactStoreError Backend)
  (open_bucket : string -> string -> result ArtifactStoreError Backend).

(** The three cloud schemes differ in the builder and the message. *)
Definition open_container (builder reason : string) (url : Url) : result ArtifactStoreError ArtifactStore :=
  bucket ← ok_or (bucket ← host_str url; if bool_decide (bucket = ""%string) then None else Some bucket)
                 (BaseUrl reason);
  let prefix := trim_matches SLASH (url_path url) in
  _ ← validate_optional_prefix prefix;
  store ← open_bucket builder bucket;
  Ok {| store := store; prefix := prefix |}.

Definition from_base_url (value : string) : result ArtifactStoreError ArtifactStore :=
  url ← ok_or (parse_url value) (BaseUrl "parse");
  _ ← fail_if (bool_decide (is_Some (query url)) || bool_decide (is_Some (fragment url))
               || negb (bool_decide (username url = ""%string)) || bool_decide (is_Some (password url)))
              (BaseUrl "credentials, query strings and fragments are forbidden");
  if bool_decide (scheme url = "file"%string) then
    store ← open_file url;
    Ok {| store := store; prefix := "" |}
  else if bool_decide (scheme url = "s3"%string) then open_container "s3" "S3 URL requires a bucket" url
  else if bool_decide (scheme url ∈ ["az"; "azure"]%string) then
    open_container "azure" "Azure URL requires a container name" url
  else if bool_decide (scheme url ∈ ["gs"; "gcs"]%string) then open_container "gcs" "GCS URL requires a bucket" url
  else Err (BaseUrl "unsupported scheme").

End Opening.

(** ** The methods *)

Section Methods.
Context `{Sha256} {S : Type} `{ObjectStore S}.

Definition joined (self : ArtifactStore) (key : string) : string :=
  if bool_decide (prefix self = ""%string) then key else prefix self +:+ "/" +:+ key.

Definition location (self : ArtifactStore) (key : string) : result ArtifactStoreError Location :=
  _ ← validate_key key;
  _ ← fail_if (1024 <? length (as_bytes (joined self key)))%nat
              (UnsafeKey "prefixed object key exceeds 1024 ASCII bytes");
  ok_or (parse_path (joined self key)) (UnsafeKey "path").

(** The loops over the chunks of a stream, with the bytes fed to the hasher. *)
Fixpoint hash_chunks (chunks : list (result StoreError (list byte))) (seen : list byte) :
    result ArtifactStoreError (list byte) :=
  match chunks with
  | [] => Ok seen
  | chunk :: chunks => c ← map_err Store chunk; hash_chunks chunks (seen ++ c)
  end.

Definition hash_remote (self : ArtifactStore) (l : Location) : io ArtifactStoreError (list byte) :=
  chunks ← store_call (call (Get (store self) l));
  seen ← now (hash_chunks chunks []);
  mret (sha256 seen).

Fixpoint copy_chunks (key : string) (max_bytes : N) (path : FsPath) (chunks : list (result StoreError (list byte)))
    (observed : N) (seen : list byte) : io ArtifactStoreError (N * list byte) :=
  match chunks with
  | [] => mret (observed, seen)
  | chunk :: chunks =>
      c ← now (map_err Store chunk);
      size ← now (ok_or (u64_of_len (length c)) (SizeLimit key max_bytes));
      observed ← now (ok_or (checked_add U64_LIMIT observed size) (SizeLimit key max_bytes));
      _ ← now (fail_if (max_bytes <? observed) (SizeLimit key max_bytes));
      _ ← io_call (call (WriteAll path c));
      copy_chunks key max_bytes path chunks observed (seen ++ c)
  end.

Definition materialize_unverified_bounded (self : ArtifactStore) (key : string) (max_bytes : N) (destination : FsPath) :
    io ArtifactStoreError N :=
  l ← now (location self key);
  size ← store_call (call (Head (store self) l));
  _ ← now (fail_if (max_bytes <? size) (SizeLimit key max_bytes));
  dir ← now (ok_or (parent destination) (Io (IoFailure "artifact destination has no parent")));
  _ ← io_call (call (CreateDirAll dir));
  _ ← io_call (call (CreateNew destination));
  chunks ← store_call (call (Get (store self) l));
  '(observed, _) ← copy_chunks key max_bytes destination chunks 0 [];
  _ ← io_call (call (SyncAll destination));
  _ ← now (fail_if (negb (observed =? size)) (ChecksumMismatch key));
  mret observed.

Definition verify_remote (self : ArtifactStore) (key expected_sha256 : string) (max_bytes : N) :
    io ArtifactStoreError N :=
  expected ← now (decode_sha256 expected_sha256);
  l ← now (location self key);
  size ← store_call (call (Head (store self) l));
  _ ← now (fail_if (max_bytes <? size) (SizeLimit key max_bytes));
  digest ← hash_remote self l;
  _ ← now (fail_if (negb (bool_decide (digest = expected))) (ChecksumMismatch key));
  mret size.

(** [fetch_update] on the shared counter. *)
Definition reserve (budget : option (Counter * N)) (size : N) : io ArtifactStoreError unit :=
  match budget with
  | None => mret tt
  | Some (counter, limit) =>
      reserved ← call (Reserve counter size limit);
      now (fail_if (negb reserved) (AggregateSizeLimit limit))
  end.

Definition materialize_verified_inner (self : ArtifactStore) (key expected_sha256 : string) (max_bytes : N)
    (destination : FsPath) (aggregate_budget : option (Counter * N)) : io ArtifactStoreError N :=
  expected ← now (decode_sha256 expected_sha256);
  l ← now (location self key);
  size ← store_call (call (Head (store self) l));
  _ ← now (fail_if (max_bytes <? size) (SizeLimit key max_bytes));
  _ ← reserve aggregate_budget size;
  dir ← now (ok_or (parent destination) (Io (IoFailure "artifact destination has no parent")));
  _ ← io_call (call (CreateDirAll dir));
  name ← now (ok_or (file_name destination) (Io (IoFailure "artifact destination has no UTF-8 name")));
  let temporary := dir ++ ["." +:+ name +:+ ".partial"]%string in
  _ ← io_call (call (CreateNew temporary));
  chunks ← store_call (call (Get (store self) l));
  '(observed, seen) ← copy_chunks key max_bytes temporary chunks 0 [];
  _ ← io_call (call (SyncAll temporary));
  if negb (observed =? size) || negb (bool_decide (sha256 seen = expected)) then
    _ ← call (RemoveFile temporary);
    now (Err (ChecksumMismatch key))
  else
    _ ← io_call (call (Rename temporary destination));
    _ ← io_call (call (SyncDirectory dir));
    mret observed.

Definition materialize_verified (self : ArtifactStore) (key expected_sha256 : string) (max_bytes : N)
    (destination : FsPath) : io ArtifactStoreError N :=
  materialize_verified_inner self key expected_sha256 max_bytes destination None.

Definition materialize_verified_with_budget (self : ArtifactStore) (key expected_sha256 : string) (max_bytes : N)
    (destination : FsPath) (aggregate_bytes : Counter) (aggregate_limit : N) : io ArtifactStoreError N :=
  materialize_verified_inner self key expected_sha256 max_bytes destination (Some (aggregate_bytes, aggregate_limit)).

Definition staging_key (expected_sha256 key : string) : string :=
  "phase4-staging/" +:+ expected_sha256 +:+ "/" +:+ hex_encode (sha256 (as_bytes key)).

(** [Ok(_) | Err(AlreadyExists)] count as done. *)
Definition created (r : result StoreError unit) : result ArtifactStoreError unit :=
  match r with
  | Ok _ | Err AlreadyExists => Ok tt
  | Err error => Err (Store error)
  end.

Definition publish_single (self : ArtifactStore) (l : Location) (source : FsPath) : io ArtifactStoreError unit :=
  content ← io_call (call (ReadFile source));
  r ← call (PutCreate (store self) l content);
  now (created r).

Definition publish_multipart (self : ArtifactStore) (key expected_sha256 : string) (expected : list byte) (l : Location)
    (source : FsPath) (multipart_buffer_bytes multipart_concurrency : nat) : io ArtifactStoreError unit :=
  _ ← now (fail_if ((multipart_buffer_bytes =? 0)%nat || (multipart_concurrency =? 0)%nat)
                   (BaseUrl "multipart buffer and concurrency must be positive"));
  staging ← now (location self (staging_key expected_sha256 key));
  content ← io_call (call (ReadFile source));
  _ ← store_call (call (PutStream (store self) staging content));
  digest ← hash_remote self staging;
  if negb (bool_decide (digest = expected)) then
    _ ← call (Delete (store self) staging);
    now (Err (ChecksumMismatch (staging_key expected_sha256 key)))
  else
    copied ← call (CopyIfNotExists (store self) staging l);
    _ ← call (Delete (store self) staging);
    now (created copied).

Definition put_file_immutable (self : ArtifactStore) (key expected_sha256 : string) (source : FsPath)
    (single_put_max_bytes : N) (multipart_buffer_bytes multipart_concurrency : nat) : io ArtifactStoreError N :=
  expected ← now (decode_sha256 expected_sha256);
  source_size ← io_call (call (FileLen source));
  l ← now (location self key);
  existing ← call (Head (store self) l);
  match existing with
  | Ok size =>
      if negb (size =? source_size) then now (Err (ImmutableConflict key))
      else
        digest ← hash_remote self l;
        if negb (bool_decide (digest = expected)) then now (Err (ImmutableConflict key)) else mret source_size
  | Err NotFound =>
      _ ← (if source_size <=? single_put_max_bytes then publish_single self l source
           else publish_multipart self key expected_sha256 expected l source
                  multipart_buffer_bytes multipart_concurrency);
      size ← store_call (call (Head (store self) l));
      if negb (size =? source_size) then now (Err (ChecksumMismatch key))
      else
        digest ← hash_remote self l;
        if negb (bool_decide (digest = expected)) then now (Err (ChecksumMismatch key)) else mret source_size
  | Err error => now (Err (Store error))
  end.

(** ** Execution *)

Record World := {
  stores : Backend -> S;
  disk : Disk;
  counters : Counter -> N;
}.

Definition on_store {A} (b : Backend) (f : S -> A * S) (w : World) : A * World :=
  let '(r, s) := f (stores w b) in
  (r, {| stores := <[b := s]> (stores w); disk := disk w; counters := counters w |}).

Definition on_disk {A} (f : Disk -> A * Disk) (w : World) : A * World :=
  let '(r, d) := f (disk w) in (r, {| stores := stores w; disk := d; counters := counters w |}).

Definition on_counter (c : Counter) (size limit : N) (w : World) : bool * World :=
  match checked_add U64_LIMIT (counters w c) size with
  | Some next =>
      if next <=? limit
      then (true, {| stores := stores w; disk := disk w; counters := <[c := next]> (counters w) |})
      else (false, w)
  | None => (false, w)
  end.

Definition perform (a : Action) (w : World) : Response a * World :=
  match a return Response a * World with
  | Head b l => on_store b (os_head l) w
  | Get b l => on_store b (os_get l) w
  | PutCreate b l content => on_store b (os_put_create l content) w
  | PutStream b l content => on_store b (os_put_stream l content) w
  | CopyIfNotExists b l l' => on_store b (os_copy_if_not_exists l l') w
  | Delete b l => on_store b (os_delete l) w
  | CreateDirAll _ | SyncAll _ | SyncDirectory _ => on_disk fs_sync w
  | CreateNew path => on_disk (fs_create_new path) w
  | WriteAll path bytes => on_disk (fs_write_all path bytes) w
  | WriteFile path bytes => on_disk (fs_write path bytes) w
  | Rename from to => on_disk (fs_rename from to) w
  | RemoveFile path => on_disk (fs_remove_file path) w
  | ReadFile path => on_disk (fs_read path) w
  | FileLen path => on_disk (fs_len path) w
  | Reserve counter size limit => on_counter counter size limit w
  end.

(** A program that runs alone. *)
Fixpoint run {A} (p : Program A) (w : World) : A * World :=
  match p with
  | Done a => (a, w)
  | Act a k => let '(r, w') := perform a w in run (k r) w'
  end.

(** The next call of the [i]-th of several programs. *)
Definition step {A} (i : nat) (state : list (Program A) * World) : list (Program A) * World :=
  match state.1 !! i with
  | Some (Act a k) => let '(r, w') := perform a state.2 in (<[i := k r]> state.1, w')
  | _ => state
  end.

Definition interleave {A} (schedule : list nat) (state : list (Program A) * World) : list (Program A) * World :=
  foldl (fun state i => step i state) state schedule.

(** The calls a service makes. *)
Inductive StoreCall :=
| CallMaterialize (self : ArtifactStore) (key expected_sha256 : string) (max_bytes : N) (destination : FsPath)
    (budget : option (Counter * N))
| CallMaterializeUnverified (self : ArtifactStore) (key : string) (max_bytes : N) (destination : FsPath)
| CallVerify (self : ArtifactStore) (key expected_sha256 : string) (max_bytes : N)
| CallPut (self : ArtifactStore) (key expected_sha256 : string) (source : FsPath) (single_put_max_bytes : N)
    (multipart_buffer_bytes multipart_concurrency : nat).

Definition program_of (c : StoreCall) : io ArtifactStoreError N :=
  match c with
  | CallMaterialize self key sha max destination budget => materialize_verified_inner self key sha max destination budget
  | CallMaterializeUnverified self key max destination => materialize_unverified_bounded self key max destination
  | CallVerify self key sha max => verify_remote self key sha max
  | CallPut self key sha source single buffer concurrency =>
      put_file_immutable self key sha source single buffer concurrency
  end.

End Methods.

(** ** Keys and locations *)

Lemma validate_key_spec value :
  validate_key value = Ok tt <->
  as_bytes value <> [] /\ (length (as_bytes value) <= 1024)%nat /\
  head (as_bytes value) <> Some SLASH /\ last (as_bytes value) <> Some SLASH /\ (BACKSLASH ∉ as_bytes value) /\
  Forall (fun segment => unsafe_segment segment = false) (split_on SLASH (as_bytes value)).
Proof.
  unfold validate_key. rewrite fail_if_ok, !orb_false_iff, !bool_decide_eq_false, Nat.ltb_ge.
  rewrite <- not_true_iff_false, existsb_exists, Forall_forall. split.
  - intros [[[[[? ?] ?] ?] ?] Hs]. split_and!; try done. intros x Hx. apply not_true_iff_false. intros ?.
    apply Hs. exists x. by rewrite <- list_elem_of_In.
  - intros (? & ? & ? & ? & ? & Hs). split_and!; try done. intros (x & Hx%list_elem_of_In & Ht).
    by rewrite (Hs x Hx) in Ht.
Qed.

(** What [from_base_url] establishes of the prefix. *)
Definition well_formed (self : ArtifactStore) : Prop := validate_optional_prefix (prefix self) = Ok tt.

Lemma validate_join p k :
  validate_key p = Ok tt -> validate_key k = Ok tt -> (length (as_bytes (p +:+ "/" +:+ k)) <= 1024)%nat ->
  validate_key (p +:+ "/" +:+ k) = Ok tt.
Proof.
  rewrite !validate_key_spec, !as_bytes_app. change (as_bytes "/") with [SLASH].
  intros (Hp & _ & Hph & _ & Hpb & Hps) (Hk & _ & _ & Hkl & Hkb & Hks) Hlen. cbn [app] in *.
  split_and!; [by destruct (as_bytes p)|done|by destruct (as_bytes p)| | |].
  - rewrite last_app, last_cons. destruct (last (as_bytes k)) eqn:E; [done|]. by apply last_None in E.
  - rewrite not_elem_of_app, not_elem_of_cons. by split_and!.
  - rewrite split_on_app, Forall_app. done.
Qed.

(** Where a publication stages its upload: the third segment from the end. *)
Definition is_staging (l : Location) : bool :=
  match reverse (split_on SLASH (as_bytes l)) with
  | _ :: _ :: area :: _ => bool_decide (area = as_bytes "phase4-staging")
  | _ => false
  end.

Section Locations.
Context `{Sha256} {S : Type} `{ObjectStore S}.

Lemma location_joined self key l : well_formed self -> location self key = Ok l -> l = joined self key.
Proof.
  intros Hwf Hl. unfold location in Hl. inv_steps. bool_prop. destruct a.
  unfold joined in *. case_bool_decide as Hp; [rewrite parse_path_spec in Hl by done; congruence|].
  unfold well_formed, validate_optional_prefix in Hwf. rewrite bool_decide_eq_false_2 in Hwf by done.
  rewrite parse_path_spec in Hl by (apply validate_join; try done; lia). congruence.
Qed.

Lemma split_staging sha key : lower_hex_sha256 sha = true ->
  split_on SLASH (as_bytes (staging_key sha key)) =
    [as_bytes "phase4-staging"; as_bytes sha; as_bytes (hex_encode (sha256 (as_bytes key)))].
Proof.
  intros Hsha. unfold staging_key. change "phase4-staging/"%string with ("phase4-staging" +:+ "/")%string.
  rewrite !as_bytes_app. change (as_bytes "/") with [SLASH]. rewrite <- app_assoc. cbn [app].
  unfold lower_hex_sha256 in Hsha. bool_prop.
  rewrite split_app by (vm_compute; set_solver).
  rewrite split_app by (by apply hex_plain). rewrite split_plain; [done|].
  apply hex_plain; [done|apply hex_encode_digits].
Qed.

Lemma staging_location self sha key l :
  well_formed self -> lower_hex_sha256 sha = true -> location self (staging_key sha key) = Ok l -> is_staging l = true.
Proof.
  intros Hwf Hsha Hl%location_joined; [subst l|done]. unfold is_staging, joined.
  case_bool_decide; [by rewrite split_staging|].
  rewrite !as_bytes_app. change (as_bytes "/") with [SLASH]. cbn [app]. rewrite split_on_app, split_staging by done.
  by rewrite reverse_app.
Qed.

End Locations.

(** ** Interference

    What a program may rely on while others run, and what it guarantees to
    them, is one relation: objects outside the staging area stay. *)

Section Interference.
Context `{Sha256} {S : Type} `{ObjectStore S}.
Implicit Types w : World (S:=S).

Definition holds w (b : Backend) (l : Location) (o : list byte) : Prop := objects (stores w b) !! l = Some o.

Definition extends w w' : Prop := forall b l o, is_staging l = false -> holds w b l o -> holds w' b l o.

Global Instance extends_preorder : PreOrder extends.
Proof. split; [by intros ? ? ? ?|]. intros w1 w2 w3 H12 H23 b l o Hl Ho. eauto. Qed.

Definition disciplined (a : Action) : bool :=
  match a with PutStream _ l _ | Delete _ l => is_staging l | _ => true end.

Lemma on_store_inv {A} b (f : S -> A * S) w r w' : on_store b f w = (r, w') ->
  exists s, f (stores w b) = (r, s) /\ w' = {| stores := <[b := s]> (stores w); disk := disk w; counters := counters w |}.
Proof. unfold on_store. destruct (f (stores w b)) as [r' s]. intros [= -> <-]. by exists s. Qed.

Lemma on_disk_inv {A} (f : Disk -> A * Disk) w r w' : on_disk f w = (r, w') ->
  exists d, f (disk w) = (r, d) /\ w' = {| stores := stores w; disk := d; counters := counters w |}.
Proof. unfold on_disk. destruct (f (disk w)) as [r' d]. intros [= -> <-]. by exists d. Qed.

Lemma extends_on_store {A} b (f : S -> A * S) w r w' :
  on_store b f w = (r, w') ->
  (forall s, f (stores w b) = (r, s) -> forall l o, is_staging l = false ->
     objects (stores w b) !! l = Some o -> objects s !! l = Some o) ->
  extends w w'.
Proof.
  intros (s & Hf & ->)%on_store_inv Hs b' l o Hl Ho. unfold holds. cbn.
  destruct (decide (b = b')) as [<-|]; [rewrite fn_lookup_insert|by rewrite fn_lookup_insert_ne]. eauto.
Qed.

Lemma insert_fresh (m : gmap Location (list byte)) l l' o o' :
  m !! l' = None -> m !! l = Some o -> <[l' := o']> m !! l = Some o.
Proof. intros Hn Ho. rewrite lookup_insert_ne; [done|congruence]. Qed.

Lemma insert_staging (m : gmap Location (list byte)) l l' o o' :
  is_staging l' = true -> is_staging l = false -> m !! l = Some o -> <[l' := o']> m !! l = Some o.
Proof. intros Hs Hl Ho. rewrite lookup_insert_ne; [done|congruence]. Qed.

(** The effects a call can have had, one by one. *)
Ltac written lem :=
  repeat match goal with
  | H : _ /\ _ |- _ => destruct H
  | H : _ \/ _ |- _ => destruct H
  | H : exists _, _ |- _ => destruct H
  end;
  match goal with H : objects _ = _ |- _ => rewrite H; eauto using lem end.

Lemma perform_extends a w r w' : disciplined a = true -> perform a w = (r, w') -> extends w w'.
Proof.
  intros Ha Hp. destruct a; cbn in Hp, Ha;
    first [eapply extends_on_store; [exact Hp|]; intros s Hs l' o Hl Ho; clear Hp
          |apply on_disk_inv in Hp as (d & _ & ->); by intros ? ?|idtac].
  - by rewrite (proj1 (os_head_spec _ _ _ _ Hs)).
  - by rewrite (proj1 (os_get_spec _ _ _ _ Hs)).
  - apply os_put_create_spec in Hs. destruct r as [|[]]; written insert_fresh.
  - apply os_put_stream_spec in Hs. destruct r as [|[]]; written insert_staging.
  - apply os_copy_spec in Hs. destruct r as [|[]]; written insert_fresh.
  - apply os_delete_spec in Hs.
    assert (delete l (objects (stores w b)) !! l' = Some o) by (rewrite lookup_delete_ne; [done|congruence]).
    destruct r as [|[]]; written insert_fresh.
  - unfold on_counter in Hp. repeat case_match; simplify_eq/=; by intros ? ?.
Qed.

(** Programs that write over and delete nothing outside the staging area. *)
Fixpoint guarded {A} (p : Program A) : Prop :=
  match p with
  | Done _ => True
  | Act a k => disciplined a = true /\ forall r, guarded (k r)
  end.

Lemma guarded_bind {E A B} (p : io E A) (k : A -> io E B) :
  guarded p -> (forall a, guarded (k a)) -> guarded (p ≫= k).
Proof.
  unfold mbind, io_bind, io. intros Hp Hk. induction p as [[a|e]|a k' IH]; cbn; [done|done|].
  destruct Hp as [? ?]. split; [done|]. eauto.
Qed.

Lemma guarded_now_bind {E A B} (r : result E A) (k : A -> io E B) :
  (forall a, r = Ok a -> guarded (k a)) -> guarded (now r ≫= k).
Proof. destruct r; cbn; auto. Qed.

Lemma guarded_call {E} a : disciplined a = true -> guarded (call a : io E _).
Proof. by intros. Qed.

Lemma guarded_store_call {A} (p : io ArtifactStoreError (result StoreError A)) : guarded p -> guarded (store_call p).
Proof. intros Hp. by apply guarded_bind. Qed.

Lemma guarded_io_call {A} (p : io ArtifactStoreError (result IoError A)) : guarded p -> guarded (io_call p).
Proof. intros Hp. by apply guarded_bind. Qed.

Lemma guarded_hash_remote self l : guarded (hash_remote self l).
Proof. apply guarded_bind; [by apply guarded_store_call, guarded_call|]. intros chunks. by apply guarded_now_bind. Qed.

Lemma guarded_copy_chunks key max path chunks : forall observed seen,
  guarded (copy_chunks key max path chunks observed seen).
Proof.
  induction chunks as [|c chunks IH]; intros observed seen; cbn [copy_chunks]; [done|].
  do 4 (apply guarded_now_bind; intros ? _). apply guarded_bind; [by apply guarded_io_call, guarded_call|]. auto.
Qed.

(** One call after the other of a method. *)
Ltac solve_guarded :=
  repeat first
    [ solve [auto]
    | progress cbn beta iota
    | apply guarded_now_bind; intros ? ?
    | apply guarded_bind; [|intros ?]
    | apply guarded_store_call | apply guarded_io_call | apply guarded_hash_remote | apply guarded_copy_chunks
    | apply guarded_call; reflexivity
    | exact I
    | match goal with
      | |- guarded (match ?x with _ => _ end) => destruct x
      | |- guarded (let '(_, _) := ?x in _) => destruct x
      end ].

Lemma decode_key_sha256_ok value out : decode_sha256 value = Ok out ->
  lower_hex_sha256 value = true /\ hex_decode (as_bytes value) = Some out.
Proof. intros Hd. unfold decode_sha256 in Hd. inv_steps. by bool_prop. Qed.

Lemma guarded_multipart self key sha expected l source buffer concurrency :
  well_formed self -> lower_hex_sha256 sha = true ->
  guarded (publish_multipart (S:=S) self key sha expected l source buffer concurrency).
Proof.
  intros Hwf Hsha. unfold publish_multipart. apply guarded_now_bind; intros _ _.
  apply guarded_now_bind; intros staging Hst.
  assert (is_staging staging = true) by (by eapply staging_location).
  assert (guarded (call (E:=ArtifactStoreError) (Delete (store self) staging))) by (by apply guarded_call).
  assert (forall content, guarded (call (E:=ArtifactStoreError) (PutStream (store self) staging content)))
    by (intros; by apply guarded_call).
  solve_guarded.
Qed.

Definition store_of (c : StoreCall) : ArtifactStore :=
  match c with
  | CallMaterialize self _ _ _ _ _ | CallMaterializeUnverified self _ _ _
  | CallVerify self _ _ _ | CallPut self _ _ _ _ _ _ => self
  end.

Lemma guarded_put self key sha source single buffer concurrency :
  well_formed self -> guarded (put_file_immutable (S:=S) self key sha source single buffer concurrency).
Proof.
  intros Hwf. unfold put_file_immutable. apply guarded_now_bind; intros expected [Hsha _]%decode_key_sha256_ok.
  unfold publish_single.
  pose proof (fun l => guarded_multipart self key sha expected l source buffer concurrency Hwf Hsha). solve_guarded.
Qed.

Lemma guarded_program c : well_formed (store_of c) -> guarded (program_of (S:=S) c).
Proof.
  destruct c as [????? [[]|]| | |]; cbn [store_of program_of]; intros Hwf;
    unfold materialize_verified_inner, materialize_unverified_bounded, verify_remote, reserve;
    [solve_guarded..|by apply guarded_put].
Qed.

(** [outcome p Q w]: from [w], with other programs running between any two
    calls, [p] can only end with a value and world in [Q]. *)
Fixpoint outcome {A} (p : Program A) (Q : A -> World -> Prop) w : Prop :=
  match p with
  | Done a => forall w', extends w w' -> Q a w'
  | Act a k => forall w0 r w1, extends w w0 -> perform a w0 = (r, w1) -> outcome (k r) Q w1
  end.

Lemma outcome_extends {A} (p : Program A) Q w w' : extends w w' -> outcome p Q w -> outcome p Q w'.
Proof.
  intros Hw Hp. destruct p as [a|a k]; cbn in *.
  - intros w1 Hw1. apply Hp. by etrans.
  - intros w0 r w1 Hw0 Hw1. apply (Hp w0 r w1); [by etrans|done].
Qed.

(** The outcome that matters is the successful one. *)
Definition succeeds {E A} (p : io E A) (Q : A -> World -> Prop) w : Prop :=
  outcome p (fun r w' => forall a, r = Ok a -> Q a w') w.

Lemma succeeds_bind {E A B} (p : io E A) (k : A -> io E B) Q w :
  succeeds p (fun a => succeeds (k a) Q) w -> succeeds (p ≫= k) Q w.
Proof.
  unfold succeeds, mbind, io_bind, io. revert w. induction p as [[a|e]|a k' IH]; intros w Hp.
  - apply Hp; reflexivity.
  - cbn. naive_solver.
  - intros w0 r w1 Hw0 Hw1. apply IH. eauto.
Qed.

Lemma succeeds_now {E A} (r : result E A) Q w : (forall a w', extends w w' -> r = Ok a -> Q a w') -> succeeds (now r) Q w.
Proof. intros HQ w' Hw a Ha. eauto. Qed.

Lemma succeeds_any {E A} (p : io E A) (Q : A -> World -> Prop) w : (forall a w', Q a w') -> succeeds p Q w.
Proof.
  intros HQ. unfold succeeds, io in *. revert w. induction p as [a|a k IH]; intros w; cbn; [naive_solver|]. intros. apply IH.
Qed.

Lemma succeeds_call {E} a Q w :
  (forall w0 r w1, extends w w0 -> perform a w0 = (r, w1) -> forall w', extends w1 w' -> Q r w') ->
  succeeds (call a : io E _) Q w.
Proof. intros HQ w0 r w1 Hw0 Hw1 w' Hw a' [= <-]. eauto. Qed.

Lemma succeeds_head self l Q w : is_staging l = false ->
  (forall o w', holds w' (store self) l o -> Q (N.of_nat (length o)) w') ->
  succeeds (store_call (call (Head (store self) l))) Q w.
Proof.
  intros Hl HQ. apply succeeds_bind, succeeds_call. intros w0 r w1 _ Hp w' Hw. apply succeeds_now. intros size w2 Hw2 Hr.
  destruct r as [n|]; cbn in Hr; [injection Hr as <-|done]. cbn in Hp. apply on_store_inv in Hp as (s & Hs & ->).
  apply os_head_spec in Hs as (Hos & o & Ho & ->). apply (HQ o). apply Hw2, Hw; try done. unfold holds. cbn.
  by rewrite fn_lookup_insert, Hos.
Qed.

Lemma hash_chunks_ok chunks : forall seen out, hash_chunks chunks seen = Ok out ->
  exists parts, chunks = Ok <$> parts /\ out = seen ++ concat parts.
Proof.
  induction chunks as [|[c|e] chunks IH]; intros seen out Ho; cbn in Ho; [|apply IH in Ho as (parts & -> & ->)|done].
  - injection Ho as <-. exists []. by rewrite app_nil_r.
  - exists (c :: parts). by rewrite <- app_assoc.
Qed.

Lemma succeeds_hash_remote self l o Q w : is_staging l = false -> holds w (store self) l o ->
  (forall w', holds w' (store self) l o -> Q (sha256 o) w') -> succeeds (hash_remote self l) Q w.
Proof.
  intros Hl Ho HQ. do 2 apply succeeds_bind. apply succeeds_call. intros w0 r w1 Hw0 Hp w' Hw.
  apply succeeds_now. intros chunks w2 Hw2 Hr. destruct r as [ch|]; cbn in Hr; [injection Hr as <-|done].
  apply succeeds_bind, succeeds_now. intros out w3 Hw3 (parts & -> & ->)%hash_chunks_ok.
  pose proof (Hw0 _ _ _ Hl Ho) as Ho0. assert (extends w0 w1) as Hw1 by (by eapply perform_extends; [|exact Hp]).
  cbn in Hp. apply on_store_inv in Hp as (s & Hs & ->). apply os_get_spec in Hs as (Hos & o' & Ho' & Hparts).
  assert (o' = o) as -> by (unfold holds in Ho0; congruence). rewrite (Hparts parts eq_refl).
  apply succeeds_now. intros d w4 Hw4 [= <-]. apply HQ. apply Hw4, Hw3, Hw2, Hw, Hw1; done.
Qed.

(** The object a publication stands for: its size and its digest. *)
Definition published w (b : Backend) (l : Location) (sha : string) (n : N) : Prop :=
  exists o, holds w b l o /\ n = N.of_nat (length o) /\ hex_encode (sha256 o) = sha.

Lemma decoded_digest sha o out : decode_sha256 sha = Ok out -> sha256 o = out -> hex_encode (sha256 o) = sha.
Proof. intros [_ Hd]%decode_key_sha256_ok <-. apply hex_decode_encode in Hd. by apply as_bytes_inj. Qed.

(** The check at the end of a publication, and of one that finds its key taken. *)
Lemma succeeds_final_check self l sha expected size (e : ArtifactStoreError) (o : list byte) w : is_staging l = false ->
  decode_sha256 sha = Ok expected -> holds w (store self) l o ->
  succeeds (if negb (N.of_nat (length o) =? size) then now (Err e)
            else digest ← hash_remote self l;
                 if negb (bool_decide (digest = expected)) then now (Err e) else mret size)
           (fun n w' => published w' (store self) l sha n) w.
Proof.
  intros Hl Hsha Ho. destruct (N.eqb_spec (N.of_nat (length o)) size) as [<-|]; cbn [negb]; [|by apply succeeds_now].
  apply succeeds_bind. eapply succeeds_hash_remote; [done..|]. intros w' Ho'.
  case_bool_decide as Hd; cbn [negb]; [|by apply succeeds_now].
  apply succeeds_now. intros n w2 Hw2 [= <-]. exists o. split_and!; [by apply Hw2|done|by eapply decoded_digest].
Qed.

Lemma succeeds_put self key sha source single buffer concurrency l w :
  is_staging l = false -> location (S:=S) self key = Ok l ->
  succeeds (put_file_immutable (S:=S) self key sha source single buffer concurrency)
           (fun n w' => published w' (store self) l sha n) w.
Proof.
  intros Hst Hl. unfold put_file_immutable. apply succeeds_bind, succeeds_now. intros expected w0 _ Hsha.
  apply succeeds_bind, succeeds_any. intros size w1. apply succeeds_bind, succeeds_now. intros l' w2 _ Hl'.
  rewrite Hl in Hl'. injection Hl' as <-. apply succeeds_bind, succeeds_call. intros w3 r w4 _ Hp w5 Hw5.
  destruct r as [n|[]]; [| |by apply succeeds_now..].
  - cbn in Hp. apply on_store_inv in Hp as (s & Hs & ->). apply os_head_spec in Hs as (Hos & o & Ho & ->).
    apply succeeds_final_check; [done..|]. apply Hw5; [done|]. unfold holds. cbn. by rewrite fn_lookup_insert, Hos.
  - apply succeeds_bind, succeeds_any. intros [] w6. apply succeeds_bind, succeeds_head; [done|].
    intros o w7 Ho. by apply succeeds_final_check.
Qed.

(** ** Several programs at once *)

Lemma step_spec {A} i (ts : list (Program A)) w ts' w' :
  Forall guarded ts -> step i (ts, w) = (ts', w') ->
  Forall guarded ts' /\ extends w w' /\
  forall j p Q, ts !! j = Some p -> outcome p Q w -> exists p', ts' !! j = Some p' /\ outcome p' Q w'.
Proof.
  unfold step. cbn [fst snd]. intros Hg Hs.
  destruct (ts !! i) as [[a|a k]|] eqn:Hi; [simplify_eq; split_and!; [done|reflexivity|eauto]| |
    simplify_eq; split_and!; [done|reflexivity|eauto]].
  destruct (perform a w) as [r w1] eqn:Hp. injection Hs as <- <-.
  pose proof (Forall_lookup_1 _ _ _ _ Hg Hi) as [Ha Hk]. assert (extends w w1) by (by eapply perform_extends).
  split_and!; [by apply Forall_insert|done|]. intros j p Q Hj HQ. destruct (decide (i = j)) as [<-|].
  - rewrite Hi in Hj. injection Hj as <-. exists (k r). split; [by apply list_lookup_insert_eq; eapply lookup_lt_Some|].
    by apply (HQ w r w1).
  - exists p. split; [by rewrite list_lookup_insert_ne|by eapply outcome_extends].
Qed.

Lemma interleave_spec {A} schedule : forall (ts : list (Program A)) w ts' w',
  Forall guarded ts -> interleave schedule (ts, w) = (ts', w') ->
  extends w w' /\
  forall j p Q, ts !! j = Some p -> outcome p Q w -> exists p', ts' !! j = Some p' /\ outcome p' Q w'.
Proof.
  induction schedule as [|i schedule IH]; intros ts w ts' w' Hg Hs; cbn in Hs; [simplify_eq; split; [reflexivity|eauto]|].
  destruct (step i (ts, w)) as [ts1 w1] eqn:H1. apply step_spec in H1 as (Hg1 & Hw1 & HQ1); [|done].
  apply IH in Hs as [Hw' HQ']; [|done]. split; [by etrans|]. intros j p Q Hj HQ.
  destruct (HQ1 j p Q Hj HQ) as (p1 & Hj1 & Hp1). eauto.
Qed.

Lemma guarded_calls calls : Forall (fun c => well_formed (store_of c)) calls -> Forall guarded (program_of (S:=S) <$> calls).
Proof. intros Hwf. apply Forall_fmap. eapply Forall_impl; [exact Hwf|]. intros c. apply guarded_program. Qed.

End Interference.

(** ** The staging budget *)

Section Budget.
Context `{Sha256} {S : Type} `{ObjectStore S} (counter : Counter) (limit : N).
Implicit Types w : World (S:=S).

(** What a call adds to the counter. *)
Definition granted (a : Action) : Response a -> N :=
  match a return Response a -> N with
  | Reserve c size _ => fun reserved => if reserved && bool_decide (c = counter) then size else 0
  | _ => fun _ => 0
  end.

Definition within (a : Action) : Prop :=
  match a with Reserve c _ max => c = counter -> max <= limit | _ => True end.

Lemma perform_counter a w r w' : within a -> counters w counter <= limit -> perform a w = (r, w') ->
  counters w' counter = counters w counter + granted a r /\ counters w' counter <= limit.
Proof.
  intros Ha Hle Hp. destruct a; cbn in Hp, Ha |- *;
    first [apply on_store_inv in Hp as (? & _ & ->); cbn; by rewrite N.add_0_r
          |apply on_disk_inv in Hp as (? & _ & ->); cbn; by rewrite N.add_0_r|idtac].
  unfold on_counter in Hp. destruct (checked_add _ _ _) as [next|] eqn:Hadd; [apply checked_add_some in Hadd as [-> _]|].
  2: { simplify_eq/=. by rewrite N.add_0_r. }
  destruct (N.leb_spec (counters w counter0 + size) limit0); simplify_eq/=; [|by rewrite N.add_0_r].
  case_bool_decide as Hc; subst; [rewrite fn_lookup_insert|rewrite fn_lookup_insert_ne by done; lia].
  split; [done|]. specialize (Ha eq_refl). lia.
Qed.

(** [ledger credit p Q]: with [credit] reserved so far, [p] ends successfully
    only with a value and a total reservation in [Q]. *)
Fixpoint ledger {A} (credit : N) (p : Program (result ArtifactStoreError A)) (Q : N -> A -> Prop) : Prop :=
  match p with
  | Done r => forall a, r = Ok a -> Q credit a
  | Act a k => within a /\ forall r, ledger (credit + granted a r) (k r) Q
  end.

Lemma ledger_bind {A B} (p : io ArtifactStoreError A) (k : A -> io ArtifactStoreError B) Q : forall credit,
  ledger credit p (fun c a => ledger c (k a) Q) -> ledger credit (p ≫= k) Q.
Proof.
  unfold mbind, io_bind, io in *. induction p as [[a|e]|a k' IH]; intros credit Hp; cbn in *; [auto|done|].
  destruct Hp as [? ?]. auto.
Qed.

Lemma ledger_now {A} (r : result ArtifactStoreError A) credit Q :
  (forall a, r = Ok a -> Q credit a) -> ledger credit (now r) Q.
Proof. done. Qed.

Lemma ledger_call (a : Action) credit (Q : N -> Response a -> Prop) :
  within a -> (forall r, Q (credit + granted a r) r) -> ledger credit (call a) Q.
Proof. intros Ha HQ. split; [done|]. intros r a' [= <-]. apply HQ. Qed.

(** A call on the store or the disk reserves nothing. *)
Lemma ledger_raw {X A} (f : X -> ArtifactStoreError) (p : io ArtifactStoreError (result X A)) credit (Q : N -> A -> Prop) :
  ledger credit p (fun c _ => c = credit) -> (forall a, Q credit a) -> ledger credit (r ← p; now (map_err f r)) Q.
Proof.
  intros Hp HQ. apply ledger_bind. revert Hp. generalize credit at 1 3. unfold io in p.
  induction p as [[r|e]|a k IH]; intros c Hp; cbn in *; [|done|].
  - intros ? [= <-] a' _. rewrite (Hp r eq_refl). apply HQ.
  - destruct Hp as [? ?]. auto.
Qed.

Definition ledger_store {A} := @ledger_raw StoreError A Store.
Definition ledger_io {A} := @ledger_raw IoError A Io.

Lemma ledger_copy_chunks key max path chunks credit (Q : N -> N * list byte -> Prop) : (forall a, Q credit a) ->
  forall observed seen, ledger credit (copy_chunks key max path chunks observed seen) Q.
Proof.
  intros HQ. induction chunks as [|c chunks IH]; intros observed seen; cbn [copy_chunks]; [by intros ? [= <-]|].
  do 4 (apply ledger_bind, ledger_now; intros ? _). apply ledger_bind, ledger_io; [|auto].
  apply ledger_call; [done|]. intros ?. apply N.add_0_r.
Qed.

Ltac no_reservation := apply ledger_call; [done|intros ?; apply N.add_0_r].

Lemma ledger_materialize self key sha max destination :
  ledger 0 (materialize_verified_with_budget (S:=S) self key sha max destination counter limit) (fun credit n => n <= credit).
Proof.
  unfold materialize_verified_with_budget, materialize_verified_inner. do 2 (apply ledger_bind, ledger_now; intros ? _).
  apply ledger_bind, ledger_store; [no_reservation|]. intros size. apply ledger_bind, ledger_now. intros _ _.
  apply ledger_bind. unfold reserve. apply ledger_bind, ledger_call; [intros _; apply N.le_refl|]. intros [|]; [|by intros ? [=]].
  cbn [granted]. rewrite bool_decide_eq_true_2 by done. cbn [andb negb fail_if]. apply ledger_now. intros _ _.
  rewrite N.add_0_l. apply ledger_bind, ledger_now. intros dir _. apply ledger_bind, ledger_io; [no_reservation|]. intros _.
  apply ledger_bind, ledger_now. intros name _. apply ledger_bind, ledger_io; [no_reservation|]. intros _.
  apply ledger_bind, ledger_store; [no_reservation|]. intros chunks. apply ledger_bind, ledger_copy_chunks.
  intros [observed seen]. apply ledger_bind, ledger_io; [no_reservation|]. intros _.
  destruct (N.eqb_spec observed size) as [<-|]; cbn [negb orb].
  2: { apply ledger_bind, ledger_call; [done|]. by intros. }
  case_bool_decide; cbn [negb].
  2: { apply ledger_bind, ledger_call; [done|]. by intros. }
  apply ledger_bind, ledger_io; [no_reservation|]. intros _. apply ledger_bind, ledger_io; [no_reservation|]. intros _.
  by intros ? [= <-].
Qed.

Definition total (l : list N) : N := foldr N.add 0 l.

Lemma total_insert l : forall i x y, l !! i = Some x -> total (<[i := x + y]> l) = total l + y.
Proof.
  unfold total. induction l as [|z l IH]; intros [|i] x y Hi; cbn in *; [done|done|simplify_eq; lia|].
  change (z + foldr N.add 0 (<[i := x + y]> l) = z + foldr N.add 0 l + y). rewrite (IH i x y Hi). lia.
Qed.

(** The bytes the finished programs report. *)
Definition reported (p : Program (result ArtifactStoreError N)) : N := match p with Done (Ok n) => n | _ => 0 end.

Lemma ledgers_step i (ts : list (Program (result ArtifactStoreError N))) w ts' w' credits base :
  Forall2 (fun credit p => ledger credit p (fun c n => n <= c)) credits ts ->
  counters w counter = base + total credits -> counters w counter <= limit -> step i (ts, w) = (ts', w') ->
  exists credits', Forall2 (fun credit p => ledger credit p (fun c n => n <= c)) credits' ts' /\
    counters w' counter = base + total credits' /\ counters w' counter <= limit.
Proof.
  intros Hl Hc Hle Hs. unfold step in Hs. cbn [fst snd] in Hs.
  destruct (ts !! i) as [[a|a k]|] eqn:Hi; [simplify_eq; eauto| |simplify_eq; eauto].
  destruct (perform a w) as [r w1] eqn:Hp. injection Hs as <- <-.
  destruct (Forall2_lookup_r _ _ _ _ _ Hl Hi) as (credit & Hcr & Hin & Hk).
  apply perform_counter in Hp as [Hc1 Hle1]; [|done..].
  exists (<[i := credit + granted a r]> credits). split_and!; [|rewrite (total_insert _ _ _ _ Hcr); lia|done].
  apply Forall2_insert; [done|apply Hk].
Qed.

Lemma ledgers_interleave schedule base : forall (ts : list (Program (result ArtifactStoreError N))) w ts' w' credits,
  Forall2 (fun credit p => ledger credit p (fun c n => n <= c)) credits ts ->
  counters w counter = base + total credits -> counters w counter <= limit -> interleave schedule (ts, w) = (ts', w') ->
  base + total (reported <$> ts') <= limit.
Proof.
  induction schedule as [|i schedule IH]; intros ts w ts' w' credits Hl Hc Hle Hs; cbn in Hs.
  - simplify_eq. etrans; [|exact Hle]. rewrite Hc. apply N.add_le_mono_l. clear Hc Hle.
    induction Hl as [|credit p credits ts Hp Hl IH]; cbn; [done|]. apply N.add_le_mono; [|apply IH].
    destruct p as [[n|]|]; cbn; [by apply Hp|lia..].
  - destruct (step i (ts, w)) as [ts1 w1] eqn:H1.
    eapply ledgers_step in H1 as (credits1 & Hl1 & Hc1 & Hle1); [|done..]. eauto.
Qed.

End Budget.

(** ** A fetch that runs alone *)

Section Fetch.
Context `{Sha256} {S : Type} `{ObjectStore S}.
Implicit Types w : World (S:=S).

(** [triple w p Q F]: from [w], [p] ends in [Q] or fails in [F]. *)
Definition triple {E A} w (p : io E A) (Q : A -> World -> Prop) (F : World -> Prop) : Prop :=
  match run p w with (Ok a, w') => Q a w' | (Err _, w') => F w' end.

Lemma run_bind {A B} (p : Program A) (k : A -> Program B) : forall w,
  run (bind_program p k) w = let '(a, w') := run p w in run (k a) w'.
Proof.
  induction p as [a|a k' IH]; intros w; cbn; [done|]. destruct (perform a w) as [r w']. apply IH.
Qed.

Lemma triple_bind {E A B} w (p : io E A) (k : A -> io E B) Q F :
  triple w p (fun a w' => triple w' (k a) Q F) F -> triple w (p ≫= k) Q F.
Proof. unfold triple, mbind, io_bind. rewrite run_bind. destruct (run p w) as [[a|e] w']; done. Qed.

Lemma triple_now {E A} w (r : result E A) (Q : A -> World -> Prop) F :
  (forall a, r = Ok a -> Q a w) -> F w -> triple w (now r) Q F.
Proof. destruct r; cbn; eauto. Qed.

Lemma triple_weaken {E A} w (p : io E A) (Q Q' : A -> World -> Prop) (F F' : World -> Prop) :
  triple w p Q F -> (forall a w', Q a w' -> Q' a w') -> (forall w', F w' -> F' w') -> triple w p Q' F'.
Proof. unfold triple. destruct (run p w) as [[]]; auto. Qed.

(** What a fetch does to the world: nothing to the stores, and to the files
    only what [P] says. *)
Record changed (P : gmap FsPath (list byte) -> Prop) w w' : Prop := {
  same_objects : forall b, objects (stores w' b) = objects (stores w b);
  files_after : P (files (disk w'));
}.

Definition quiet w w' : Prop := changed (fun fs => fs = files (disk w)) w w'.

Lemma quiet_store {A} b (f : S -> A * S) w r w' : on_store b f w = (r, w') ->
  (forall s, f (stores w b) = (r, s) -> objects s = objects (stores w b)) -> quiet w w'.
Proof.
  intros (s & Hf & ->)%on_store_inv Hs. split; [|done]. intros b'. cbn.
  destruct (decide (b = b')) as [<-|]; [rewrite fn_lookup_insert; eauto|by rewrite fn_lookup_insert_ne].
Qed.

Lemma triple_head w b l (Q : N -> World -> Prop) (F : World -> Prop) :
  (forall w' o, quiet w w' -> objects (stores w b) !! l = Some o -> Q (N.of_nat (length o)) w') ->
  (forall w', quiet w w' -> F w') ->
  triple w (store_call (call (Head b l))) Q F.
Proof.
  intros HQ HF. apply triple_bind. unfold triple, call. cbn. destruct (on_store b (os_head l) w) as [r w'] eqn:Hp.
  assert (quiet w w') as Hu by (eapply quiet_store; [exact Hp|]; by intros s [? _]%os_head_spec).
  apply on_store_inv in Hp as (s & Hs & _). apply os_head_spec in Hs as [_ Hs].
  destruct r as [n|e]; cbn; [destruct Hs as (o & Ho & ->)|]; eauto.
Qed.

Lemma triple_get w b l (Q : list (result StoreError (list byte)) -> World -> Prop) (F : World -> Prop) :
  (forall w' chunks o, quiet w w' -> objects (stores w b) !! l = Some o ->
     (forall parts, chunks = Ok <$> parts -> concat parts = o) -> Q chunks w') ->
  (forall w', quiet w w' -> F w') ->
  triple w (store_call (call (Get b l))) Q F.
Proof.
  intros HQ HF. apply triple_bind. unfold triple, call. cbn. destruct (on_store b (os_get l) w) as [r w'] eqn:Hp.
  assert (quiet w w') as Hu by (eapply quiet_store; [exact Hp|]; by intros s [? _]%os_get_spec).
  apply on_store_inv in Hp as (s & Hs & _). apply os_get_spec in Hs as [_ Hs].
  destruct r as [n|e]; cbn; [destruct Hs as (o & Ho & ?)|]; eauto.
Qed.

(** The calls on the disk, each by what it leaves there. *)
Ltac disk_call :=
  intros; unfold triple, io_call, call, mbind, io_bind; cbn; unfold on_disk; cbn;
  unfold fs_sync, fs_create_new, fs_write_all, fs_rename, fs_remove_file, disk_call;
  destruct (next_fault _); cbn; repeat (case_match; cbn); simplify_eq/=;
  match goal with HQ : context [_ -> _] |- _ => solve [eapply HQ; try split; cbn; eauto] end.

Lemma triple_create_dir w path (Q : unit -> World -> Prop) (F : World -> Prop) :
  (forall w', quiet w w' -> Q tt w') -> (forall w', quiet w w' -> F w') -> triple w (io_call (call (CreateDirAll path))) Q F.
Proof. disk_call. Qed.

Lemma triple_sync w path (Q : unit -> World -> Prop) (F : World -> Prop) :
  (forall w', quiet w w' -> Q tt w') -> (forall w', quiet w w' -> F w') -> triple w (io_call (call (SyncAll path))) Q F.
Proof. disk_call. Qed.

Lemma triple_sync_dir w path (Q : unit -> World -> Prop) (F : World -> Prop) :
  (forall w', quiet w w' -> Q tt w') -> (forall w', quiet w w' -> F w') -> triple w (io_call (call (SyncDirectory path))) Q F.
Proof. disk_call. Qed.

Lemma triple_create_new w path (Q : unit -> World -> Prop) (F : World -> Prop) :
  (forall w', files (disk w) !! path = None -> changed (fun fs => fs = <[path := []]> (files (disk w))) w w' -> Q tt w') ->
  (forall w', quiet w w' -> F w') -> triple w (io_call (call (CreateNew path))) Q F.
Proof. disk_call. Qed.

Lemma triple_write w path bytes (Q : unit -> World -> Prop) (F : World -> Prop) :
  (forall w', changed (fun fs => fs = alter (fun o => o ++ bytes) path (files (disk w))) w w' -> Q tt w') ->
  (forall w', changed (fun fs => exists n, fs = alter (fun o => o ++ take n bytes) path (files (disk w))) w w' -> F w') ->
  triple w (io_call (call (WriteAll path bytes))) Q F.
Proof. disk_call. Qed.

Lemma triple_rename w from to (Q : unit -> World -> Prop) (F : World -> Prop) :
  (forall w' o, files (disk w) !! from = Some o ->
     changed (fun fs => fs = <[to := o]> (delete from (files (disk w)))) w w' -> Q tt w') ->
  (forall w', quiet w w' -> F w') -> triple w (io_call (call (Rename from to))) Q F.
Proof. disk_call. Qed.

Lemma triple_remove {E} w path (Q : result IoError unit -> World -> Prop) (F : World -> Prop) :
  (forall r w', changed (fun fs => fs = files (disk w) \/ fs = delete path (files (disk w))) w w' -> Q r w') ->
  triple w (call (E:=E) (RemoveFile path)) Q F.
Proof. disk_call. Qed.

(** From the world at the start: the stores as they were, the files [fs]. *)
Definition reached w (fs : gmap FsPath (list byte)) w' : Prop := changed (fun fs' => fs' = fs) w w'.

Lemma reached_changed w fs P w1 w2 : reached w fs w1 -> changed P w1 w2 -> changed P w w2.
Proof. intros [Ho Hf] [Ho' Hf']. split; [intros b; by rewrite Ho', Ho|done]. Qed.

Lemma reached_quiet w fs w1 w2 : reached w fs w1 -> quiet w1 w2 -> reached w fs w2.
Proof. intros Hr Hq. pose proof (reached_changed _ _ _ _ _ Hr Hq) as [? Hf]. split; [done|]. by rewrite Hf, (files_after _ _ _ Hr). Qed.

Lemma triple_copy w key max path chunks : forall w0 observed seen,
  reached w (<[path := seen]> (files (disk w))) w0 ->
  triple w0 (copy_chunks key max path chunks observed seen)
    (fun out w' => exists parts, chunks = Ok <$> parts /\ out.2 = seen ++ concat parts /\
       out.1 = observed + N.of_nat (length (concat parts)) /\ reached w (<[path := out.2]> (files (disk w))) w')
    (fun w' => exists o, reached w (<[path := o]> (files (disk w))) w').
Proof.
  induction chunks as [|chunk chunks IH]; intros w0 observed seen Hw0; cbn [copy_chunks].
  { apply triple_now; [|by exists seen]. intros out [= <-]. exists []. cbn. rewrite app_nil_r, N.add_0_r. by split_and!. }
  assert (exists o, reached w (<[path := o]> (files (disk w))) w0) by eauto.
  apply triple_bind, triple_now; [|done]. intros c Hc. destruct chunk as [c'|]; [injection Hc as ->|done].
  apply triple_bind, triple_now; [|done]. intros size Hsize. apply ok_or_ok, u64_of_len_some in Hsize as [-> _].
  apply triple_bind, triple_now; [|done]. intros observed' Ho. apply ok_or_ok, checked_add_some in Ho as [-> _].
  apply triple_bind, triple_now; [|done]. intros _ _.
  assert (forall part w1, changed (fun fs => fs = alter (fun o => o ++ part) path (files (disk w0))) w0 w1 ->
    reached w (<[path := seen ++ part]> (files (disk w))) w1) as Hstep.
  { intros part w1 Hw1. pose proof (reached_changed _ _ _ _ _ Hw0 Hw1) as [Hob Hf]. split; [done|].
    rewrite Hf, (files_after _ _ _ Hw0). by rewrite alter_insert_eq. }
  apply triple_bind, triple_write.
  - intros w1 Hw1%Hstep. eapply triple_weaken; [by apply IH| |done].
    cbn beta. intros out w' (parts & -> & Hout & Hn & Hw'). exists (c :: parts). cbn [fmap list_fmap concat fst snd].
    rewrite length_app, Hn. split_and!; [done|by rewrite app_assoc|lia|done].
  - intros w1 [Hob [n Hf]]. exists (seen ++ take n c). by apply Hstep.
Qed.

Definition temporary_of (destination : FsPath) : FsPath :=
  removelast destination ++ ["." +:+ default "" (last destination) +:+ ".partial"]%string.

Lemma temporary_ne destination : destination <> [] -> temporary_of destination <> destination.
Proof.
  intros Hd. destruct (exists_last Hd) as (dir & name & ->). unfold temporary_of.
  rewrite removelast_last, last_snoc. cbn [default]. intros E. apply (app_inj_len _ _ _ _ eq_refl) in E as [_ E].
  apply (f_equal (fun l => length (as_bytes (default "x"%string (head l))))) in E as El.
  change (length (as_bytes ("." +:+ name +:+ ".partial")) = length (as_bytes name)) in El.
  rewrite !as_bytes_app, !length_app in El. cbn in El. lia.
Qed.

(** The world after a failed fetch. *)
Definition unverified_nowhere w (sha : string) (destination : FsPath) w' : Prop :=
  (forall b, objects (stores w' b) = objects (stores w b)) /\
  (forall path, path <> destination -> path <> temporary_of destination ->
     files (disk w') !! path = files (disk w) !! path) /\
  (files (disk w') !! destination = files (disk w) !! destination \/
   exists o, files (disk w') !! destination = Some o /\ hex_encode (sha256 o) = sha).

Lemma nowhere_reached w sha destination w' : reached w (files (disk w)) w' -> unverified_nowhere w sha destination w'.
Proof. intros [Ho Hf]. split_and!; [done| |left]; intros; by rewrite Hf. Qed.

Lemma nowhere_temporary w sha destination o w' : destination <> [] ->
  reached w (<[temporary_of destination := o]> (files (disk w))) w' -> unverified_nowhere w sha destination w'.
Proof.
  intros Hd [Ho Hf]. split_and!; [done| |left]; intros; rewrite Hf, lookup_insert_ne; try done. by apply temporary_ne.
Qed.

(** The world after a successful fetch of [o]. *)
Definition fetched w self (key sha : string) (max : N) (destination : FsPath) (n : N) w' : Prop :=
  exists l o, location self key = Ok l /\ objects (stores w (store self)) !! l = Some o /\
    n = N.of_nat (length o) /\ n <= max /\ hex_encode (sha256 o) = sha /\
    reached w (<[destination := o]> (files (disk w))) w'.

Lemma triple_reserve w budget size (Q : unit -> World -> Prop) (F : World -> Prop) :
  (forall w', quiet w w' -> Q tt w') -> (forall w', quiet w w' -> F w') -> triple w (reserve budget size) Q F.
Proof.
  intros HQ HF. destruct budget as [[c limit]|]; [|by apply HQ]. apply triple_bind. unfold triple. cbn. unfold on_counter.
  destruct (checked_add _ _ _) as [next|]; [|by apply HF]. destruct (next <=? limit); [apply HQ|apply HF]; by split.
Qed.

(** The part of a fetch after the temporary file exists. *)
Lemma triple_transfer w w0 self key sha max destination l o expected :
  destination <> [] -> files (disk w) !! temporary_of destination = None ->
  reached w (<[temporary_of destination := []]> (files (disk w))) w0 ->
  location self key = Ok l -> objects (stores w (store self)) !! l = Some o -> decode_sha256 sha = Ok expected ->
  N.of_nat (length o) <= max ->
  triple w0
    (chunks ← store_call (call (Get (store self) l));
     '(observed, seen) ← copy_chunks key max (temporary_of destination) chunks 0 [];
     _ ← io_call (call (SyncAll (temporary_of destination)));
     if negb (observed =? N.of_nat (length o)) || negb (bool_decide (sha256 seen = expected)) then
       _ ← call (RemoveFile (temporary_of destination));
       now (Err (ChecksumMismatch key))
     else
       _ ← io_call (call (Rename (temporary_of destination) destination));
       _ ← io_call (call (SyncDirectory (removelast destination)));
       mret observed)
    (fetched w self key sha max destination) (unverified_nowhere w sha destination).
Proof.
  intros Hd Hnew Hw0 Hl Ho Hsha Hmax. pose proof (nowhere_temporary w sha destination) as Hno.
  apply triple_bind, triple_get; [|intros; eapply Hno, reached_quiet; done].
  intros w1 chunks o' Hw1 Ho' Hparts. pose proof (reached_quiet _ _ _ _ Hw0 Hw1) as Hr1.
  assert (o' = o) as -> by (rewrite (same_objects _ _ _ Hw0) in Ho'; congruence).
  apply triple_bind. eapply triple_weaken; [by eapply triple_copy| |intros w' [? ?]; by eapply Hno].
  cbn beta. intros [observed seen] w2 (parts & Hch & Hseen & Hobs & Hr2). cbn [fst snd] in *.
  rewrite (Hparts parts Hch), app_nil_l in Hseen. rewrite (Hparts parts Hch), N.add_0_l in Hobs. subst seen observed.
  apply triple_bind, triple_sync; [|intros; eapply Hno, reached_quiet; done]. intros w3 Hw3.
  pose proof (reached_quiet _ _ _ _ Hr2 Hw3) as Hr3. rewrite N.eqb_refl. cbn [negb orb].
  case_bool_decide as Hdig; cbn [negb].
  - apply triple_bind, triple_rename; [|intros; eapply Hno, reached_quiet; done].
    intros w4 o' Hfrom Hw4. rewrite (files_after _ _ _ Hr3), lookup_insert_eq in Hfrom. injection Hfrom as <-.
    assert (reached w (<[destination := o]> (files (disk w))) w4) as Hr4.
    { pose proof (reached_changed _ _ _ _ _ Hr3 Hw4) as [Hob Hf]. split; [done|].
      by rewrite Hf, (files_after _ _ _ Hr3), delete_insert_id. }
    apply triple_bind, triple_sync_dir.
    + intros w5 Hw5. exists l, o. split_and!; [done..|by eapply decoded_digest|by eapply reached_quiet].
    + intros w5 Hw5. pose proof (reached_quiet _ _ _ _ Hr4 Hw5) as [Hob Hf]. split_and!; [done| |right].
      * intros path ? ?. by rewrite Hf, lookup_insert_ne.
      * exists o. rewrite Hf, lookup_insert_eq. split; [done|by eapply decoded_digest].
  - apply triple_bind, triple_remove. intros r w4 Hw4. apply triple_now; [done|].
    pose proof (reached_changed _ _ _ _ _ Hr3 Hw4) as [Hob [Hf|Hf]]; rewrite (files_after _ _ _ Hr3) in Hf.
    + eapply Hno; [done|]. by split.
    + apply nowhere_reached. split; [done|]. by rewrite Hf, delete_insert_id.
Qed.

Lemma triple_materialize w self key sha max destination budget :
  triple w (materialize_verified_inner self key sha max destination budget)
    (fetched w self key sha max destination) (unverified_nowhere w sha destination).
Proof.
  pose proof (nowhere_reached w sha destination) as Hno. unfold materialize_verified_inner.
  assert (reached w (files (disk w)) w) as Hr0 by done.
  apply triple_bind, triple_now; [|by apply Hno]. intros expected Hsha.
  apply triple_bind, triple_now; [|by apply Hno]. intros l Hl.
  apply triple_bind, triple_head; [|by intros; apply Hno]. intros w1 o Hw1 Ho.
  pose proof (reached_quiet _ _ _ _ Hr0 Hw1) as Hr1.
  apply triple_bind, triple_now; [|by apply Hno]. intros [] Hmax. apply fail_if_ok in Hmax. bool_prop.
  apply triple_bind, triple_reserve; [|intros; eapply Hno, reached_quiet; done]. intros w2 Hw2.
  pose proof (reached_quiet _ _ _ _ Hr1 Hw2) as Hr2.
  apply triple_bind, triple_now; [|by apply Hno]. intros dir Hdir. apply ok_or_ok in Hdir.
  assert (destination <> [] /\ dir = removelast destination) as [Hd ->] by (by destruct destination; [|injection Hdir as <-]).
  apply triple_bind, triple_create_dir; [|intros; eapply Hno, reached_quiet; done]. intros w3 Hw3.
  pose proof (reached_quiet _ _ _ _ Hr2 Hw3) as Hr3.
  apply triple_bind, triple_now; [|by apply Hno]. intros name Hname. apply ok_or_ok in Hname.
  assert (removelast destination ++ ["." +:+ name +:+ ".partial"]%string = temporary_of destination) as ->.
  { unfold temporary_of. unfold file_name in Hname. by rewrite Hname. }
  apply triple_bind, triple_create_new; [|intros; eapply Hno, reached_quiet; done]. intros w4 Hnew Hw4.
  rewrite (files_after _ _ _ Hr3) in Hnew. eapply (triple_transfer w); try done.
  pose proof (reached_changed _ _ _ _ _ Hr3 Hw4) as [Hob Hf]. split; [done|]. by rewrite Hf, (files_after _ _ _ Hr3).
Qed.

End Fetch.

(** ** Stores and disks that work *)

(** A store whose calls fail only where their documentation says they must. *)
Class ReliableStore (S : Type) `{ObjectStore S} := {
  head_reliable l (s : S) :
    (os_head l s).1 = match objects s !! l with Some o => Ok (N.of_nat (length o)) | None => Err NotFound end;
  get_reliable l (s : S) o : objects s !! l = Some o -> exists parts, (os_get l s).1 = Ok (Ok <$> parts);
  put_create_reliable l o (s : S) : objects s !! l = None -> (os_put_create l o s).1 = Ok tt;
  put_stream_reliable l o (s : S) : (os_put_stream l o s).1 = Ok tt;
  copy_reliable l l' (s : S) o :
    objects s !! l = Some o -> objects s !! l' = None -> (os_copy_if_not_exists l l' s).1 = Ok tt;
  delete_reliable l (s : S) : (os_delete l s).1 = Ok tt;
}.

Section Reliable.
Context `{Sha256} {S : Type} `{ReliableStore S}.
Implicit Types w : World (S:=S).
Implicit Types objs : Backend -> gmap Location (list byte).

(** What the stores and the disk hold; no disk call is going to fail. *)
Record state objs (fs : gmap FsPath (list byte)) w : Prop := {
  state_objects : forall b, objects (stores w b) = objs b;
  state_files : files (disk w) = fs;
  state_faults : faults (disk w) = [];
}.

Definition total_triple {E A} w (p : io E A) (Q : A -> World -> Prop) : Prop := triple w p Q (fun _ => False).

Lemma total_bind {E A B} w (p : io E A) (k : A -> io E B) Q :
  total_triple w p (fun a w' => total_triple w' (k a) Q) -> total_triple w (p ≫= k) Q.
Proof. apply triple_bind. Qed.

Lemma total_now {E A} w (a : A) (Q : A -> World -> Prop) : Q a w -> total_triple w (now (E:=E) (Ok a)) Q.
Proof. done. Qed.

Lemma total_done {E A} w (p : io E A) (Q : A -> World -> Prop) :
  total_triple w p Q -> exists a w', run p w = (Ok a, w') /\ Q a w'.
Proof. unfold total_triple, triple. destruct (run p w) as [[a|e] w']; [|done]. eauto. Qed.

(** A call on a store that leaves [m] in it. *)
Lemma total_store {A} objs fs w b (f : S -> A * S) m w' r : state objs fs w -> on_store b f w = (r, w') ->
  (forall s, f (stores w b) = (r, s) -> objects s = m) -> state (<[b := m]> objs) fs w'.
Proof.
  intros [Ho Hf Hx] (s & Hs & ->)%on_store_inv Hm. split; cbn; [|done..]. intros b'.
  destruct (decide (b = b')) as [<-|]; [rewrite !fn_lookup_insert; eauto|by rewrite !fn_lookup_insert_ne].
Qed.

Lemma state_same objs fs w b m : objs b = m -> state (<[b := m]> objs) fs w -> state objs fs w.
Proof.
  intros <- [Ho Hf Hx]. split; [|done..]. intros b'. rewrite Ho.
  destruct (decide (b = b')) as [<-|]; [by rewrite fn_lookup_insert|by rewrite fn_lookup_insert_ne].
Qed.

Lemma total_head_call {E} objs fs w b l (Q : result StoreError N -> World -> Prop) : state objs fs w ->
  (forall w', state objs fs w' ->
     Q (match objs b !! l with Some o => Ok (N.of_nat (length o)) | None => Err NotFound end) w') ->
  total_triple w (call (E:=E) (Head b l)) Q.
Proof.
  intros Hst HQ. unfold total_triple, triple. cbn. destruct (on_store b (os_head l) w) as [r w'] eqn:Hp.
  pose proof (on_store_inv _ _ _ _ _ Hp) as (s & Hs & _). pose proof (head_reliable l (stores w b)) as Hr. rewrite Hs in Hr.
  cbn in Hr. rewrite Hr, (state_objects _ _ _ Hst). apply HQ. eapply state_same; [reflexivity|].
  eapply total_store; [done|exact Hp|]. intros s' [-> _]%os_head_spec. apply (state_objects _ _ _ Hst).
Qed.

Lemma total_head objs fs w b l o (Q : N -> World -> Prop) : state objs fs w -> objs b !! l = Some o ->
  (forall w', state objs fs w' -> Q (N.of_nat (length o)) w') -> total_triple w (store_call (call (Head b l))) Q.
Proof. intros Hst Ho HQ. eapply total_bind, total_head_call; [done|]. intros w' Hw'. rewrite Ho. by apply HQ. Qed.

Lemma total_get objs fs w b l o (Q : _ -> World -> Prop) : state objs fs w -> objs b !! l = Some o ->
  (forall w' parts, state objs fs w' -> concat parts = o -> Q (Ok <$> parts) w') ->
  total_triple w (store_call (call (Get b l))) Q.
Proof.
  intros Hst Ho HQ. eapply total_bind. unfold total_triple, triple. cbn.
  destruct (on_store b (os_get l) w) as [r w'] eqn:Hp.
  pose proof (on_store_inv _ _ _ _ _ Hp) as (s & Hs & _). rewrite <- (state_objects _ _ _ Hst) in Ho.
  destruct (get_reliable l (stores w b) o Ho) as (parts & Hr). rewrite Hs in Hr. cbn in Hr. subst r.
  apply HQ.
  - eapply state_same; [reflexivity|]. eapply total_store; [done|exact Hp|].
    intros s' [-> _]%os_get_spec. apply (state_objects _ _ _ Hst).
  - apply os_get_spec in Hs as (_ & o' & Ho' & Hparts). rewrite (Hparts parts eq_refl). congruence.
Qed.

Lemma hash_chunks_parts parts : forall seen, hash_chunks (Ok <$> parts) seen = Ok (seen ++ concat parts).
Proof. induction parts as [|c parts IH]; intros seen; cbn; [by rewrite app_nil_r|]. by rewrite IH, <- app_assoc. Qed.

Lemma total_hash_remote objs fs w self l o (Q : list byte -> World -> Prop) :
  state objs fs w -> objs (store self) !! l = Some o -> (forall w', state objs fs w' -> Q (sha256 o) w') ->
  total_triple w (hash_remote self l) Q.
Proof.
  intros Hst Ho HQ. eapply total_bind, total_get; [done..|]. intros w' parts Hw' Hparts. apply total_bind.
  rewrite hash_chunks_parts, Hparts. apply total_now. cbn. by apply HQ.
Qed.

Lemma total_put_create {E} objs fs w b l o (Q : result StoreError unit -> World -> Prop) :
  state objs fs w -> objs b !! l = None ->
  (forall w', state (<[b := <[l := o]> (objs b)]> objs) fs w' -> Q (Ok tt) w') ->
  total_triple w (call (E:=E) (PutCreate b l o)) Q.
Proof.
  intros Hst Ho HQ. unfold total_triple, triple. cbn. destruct (on_store b (os_put_create l o) w) as [r w'] eqn:Hp.
  pose proof (on_store_inv _ _ _ _ _ Hp) as (s & Hs & _). rewrite <- (state_objects _ _ _ Hst) in Ho.
  pose proof (put_create_reliable l o (stores w b) Ho) as Hr. rewrite Hs in Hr. cbn in Hr. subst r. apply HQ.
  eapply total_store; [done|exact Hp|]. intros s' [_ ->]%os_put_create_spec. by rewrite (state_objects _ _ _ Hst).
Qed.

Lemma total_put_stream objs fs w b l o (Q : unit -> World -> Prop) : state objs fs w ->
  (forall w', state (<[b := <[l := o]> (objs b)]> objs) fs w' -> Q tt w') ->
  total_triple w (store_call (call (PutStream b l o))) Q.
Proof.
  intros Hst HQ. apply total_bind. unfold total_triple, triple. cbn.
  destruct (on_store b (os_put_stream l o) w) as [r w'] eqn:Hp. pose proof (on_store_inv _ _ _ _ _ Hp) as (s & Hs & _).
  pose proof (put_stream_reliable l o (stores w b)) as Hr. rewrite Hs in Hr. cbn in Hr. subst r. apply HQ.
  eapply total_store; [done|exact Hp|]. intros s' ->%os_put_stream_spec. by rewrite (state_objects _ _ _ Hst).
Qed.

Lemma total_copy {E} objs fs w b l l' o (Q : result StoreError unit -> World -> Prop) :
  state objs fs w -> objs b !! l = Some o -> objs b !! l' = None ->
  (forall w', state (<[b := <[l' := o]> (objs b)]> objs) fs w' -> Q (Ok tt) w') ->
  total_triple w (call (E:=E) (CopyIfNotExists b l l')) Q.
Proof.
  intros Hst Ho Ho' HQ. unfold total_triple, triple. cbn.
  destruct (on_store b (os_copy_if_not_exists l l') w) as [r w'] eqn:Hp.
  pose proof (on_store_inv _ _ _ _ _ Hp) as (s & Hs & _). rewrite <- (state_objects _ _ _ Hst) in Ho, Ho'.
  pose proof (copy_reliable l l' (stores w b) o Ho Ho') as Hr. rewrite Hs in Hr. cbn in Hr. subst r. apply HQ.
  eapply total_store; [done|exact Hp|]. intros s' (o' & Hl & _ & ->)%os_copy_spec.
  rewrite <- (state_objects _ _ _ Hst). congruence.
Qed.

Lemma total_delete {E} objs fs w b l (Q : result StoreError unit -> World -> Prop) : state objs fs w ->
  (forall w', state (<[b := delete l (objs b)]> objs) fs w' -> Q (Ok tt) w') ->
  total_triple w (call (E:=E) (Delete b l)) Q.
Proof.
  intros Hst HQ. unfold total_triple, triple. cbn. destruct (on_store b (os_delete l) w) as [r w'] eqn:Hp.
  pose proof (on_store_inv _ _ _ _ _ Hp) as (s & Hs & _). pose proof (delete_reliable l (stores w b)) as Hr.
  rewrite Hs in Hr. cbn in Hr. subst r. apply HQ.
  eapply total_store; [done|exact Hp|]. intros s' ->%os_delete_spec. by rewrite (state_objects _ _ _ Hst).
Qed.

(** The calls on a disk that works. *)
Ltac disk_works :=
  intros; let Hfault := fresh in
  match goal with Hst : state _ _ _ |- _ => destruct Hst as [? <- Hfault] end;
  unfold total_triple, triple, io_call, call, mbind, io_bind; cbn; unfold on_disk; cbn;
  unfold fs_sync, fs_create_new, fs_write_all, fs_rename, fs_read, fs_len, disk_call, next_fault; rewrite Hfault; cbn;
  repeat match goal with Hl : files _ !! _ = _ |- _ => rewrite Hl; cbn; clear Hl end;
  match goal with HQ : forall _, _ -> _ |- _ => apply HQ; split; cbn; try rewrite Hfault; done end.

Lemma total_read objs fs w path o (Q : list byte -> World -> Prop) : state objs fs w -> fs !! path = Some o ->
  (forall w', state objs fs w' -> Q o w') -> total_triple w (io_call (call (ReadFile path))) Q.
Proof. disk_works. Qed.

Lemma total_len objs fs w path o (Q : N -> World -> Prop) : state objs fs w -> fs !! path = Some o ->
  (forall w', state objs fs w' -> Q (N.of_nat (length o)) w') -> total_triple w (io_call (call (FileLen path))) Q.
Proof. disk_works. Qed.

Lemma total_create_dir objs fs w path (Q : unit -> World -> Prop) : state objs fs w ->
  (forall w', state objs fs w' -> Q tt w') -> total_triple w (io_call (call (CreateDirAll path))) Q.
Proof. disk_works. Qed.

Lemma total_sync objs fs w path (Q : unit -> World -> Prop) : state objs fs w ->
  (forall w', state objs fs w' -> Q tt w') -> total_triple w (io_call (call (SyncAll path))) Q.
Proof. disk_works. Qed.

Lemma total_sync_dir objs fs w path (Q : unit -> World -> Prop) : state objs fs w ->
  (forall w', state objs fs w' -> Q tt w') -> total_triple w (io_call (call (SyncDirectory path))) Q.
Proof. disk_works. Qed.

Lemma total_create_new objs fs w path (Q : unit -> World -> Prop) : state objs fs w -> fs !! path = None ->
  (forall w', state objs (<[path := []]> fs) w' -> Q tt w') -> total_triple w (io_call (call (CreateNew path))) Q.
Proof. disk_works. Qed.

Lemma total_write objs fs w path bytes (Q : unit -> World -> Prop) : state objs fs w ->
  (forall w', state objs (alter (fun o => o ++ bytes) path fs) w' -> Q tt w') ->
  total_triple w (io_call (call (WriteAll path bytes))) Q.
Proof. disk_works. Qed.

Lemma total_rename objs fs w from to o (Q : unit -> World -> Prop) : state objs fs w -> fs !! from = Some o ->
  (forall w', state objs (<[to := o]> (delete from fs)) w' -> Q tt w') ->
  total_triple w (io_call (call (Rename from to))) Q.
Proof. disk_works. Qed.

Lemma decode_own_digest o : decode_sha256 (hex_encode (sha256 o)) = Ok (sha256 o).
Proof. unfold decode_sha256. by rewrite hex_encode_lower, hex_decode_hex. Qed.

(** The check that ends a publication succeeds on the right object. *)
Lemma total_final_check objs fs w self l o (e : ArtifactStoreError) (Q : N -> World -> Prop) :
  state objs fs w -> objs (store self) !! l = Some o -> (forall w', state objs fs w' -> Q (N.of_nat (length o)) w') ->
  total_triple w (if negb (N.of_nat (length o) =? N.of_nat (length o)) then now (Err e)
                  else digest ← hash_remote self l;
                       if negb (bool_decide (digest = sha256 o)) then now (Err e) else mret (N.of_nat (length o))) Q.
Proof.
  intros Hst Ho HQ. rewrite N.eqb_refl. cbn [negb]. eapply total_bind, total_hash_remote; [done..|].
  intros w' Hw'. rewrite bool_decide_eq_true_2 by done. by apply HQ.
Qed.

Lemma total_multipart objs fs w self key l source o buffer concurrency staging (Q : unit -> World -> Prop) :
  state objs fs w -> fs !! source = Some o -> objs (store self) !! l = None -> l <> staging ->
  location (S:=S) self (staging_key (hex_encode (sha256 o)) key) = Ok staging -> (0 < buffer)%nat -> (0 < concurrency)%nat ->
  (forall w', state (<[store self := delete staging (<[l := o]> (objs (store self)))]> objs) fs w' -> Q tt w') ->
  total_triple w (publish_multipart (S:=S) self key (hex_encode (sha256 o)) (sha256 o) l source buffer concurrency) Q.
Proof.
  intros Hst Hsrc Hnew Hne Hstaging Hb Hc HQ. unfold publish_multipart. apply total_bind.
  rewrite (proj2 (Nat.eqb_neq buffer 0)), (proj2 (Nat.eqb_neq concurrency 0)) by lia. apply total_now.
  apply total_bind. rewrite Hstaging. apply total_now. eapply total_bind, total_read; [done..|]. intros w1 Hw1.
  eapply total_bind, total_put_stream; [done|]. intros w2 Hw2.
  assert ((<[store self := <[staging := o]> (objs (store self))]> objs) (store self) !! staging = Some o) as Hs2
    by (by rewrite fn_lookup_insert, lookup_insert_eq).
  eapply total_bind, total_hash_remote; [exact Hw2|exact Hs2|]. intros w3 Hw3. rewrite bool_decide_eq_true_2 by done. cbn [negb].
  eapply total_bind, total_copy; [exact Hw3|exact Hs2| |].
  { rewrite fn_lookup_insert, lookup_insert_ne; done. }
  intros w4 Hw4. rewrite fn_lookup_insert in Hw4. eapply total_bind, total_delete; [exact Hw4|]. intros w5 Hw5. apply HQ.
  rewrite fn_lookup_insert in Hw5. destruct Hw5 as [Ho5 ? ?]. split; [|done..]. intros b. rewrite Ho5.
  destruct (decide (store self = b)) as [<-|]; [rewrite !fn_lookup_insert|by rewrite !fn_lookup_insert_ne].
  rewrite (insert_insert_ne _ l staging) by done. by rewrite delete_insert_eq.
Qed.

(** Outside the staging area, [o] at [l] is all that is new. *)
Definition added objs (b : Backend) (l : Location) (o : list byte) (objs' : Backend -> gmap Location (list byte)) : Prop :=
  objs' b !! l = Some o /\
  forall b' l', is_staging l' = false -> b' <> b \/ l' <> l -> objs' b' !! l' = objs b' !! l'.

(** Publication of a new object and of one that is there already. *)
Lemma total_put_new objs fs w self key l source o single buffer concurrency :
  state objs fs w -> fs !! source = Some o -> location (S:=S) self key = Ok l -> objs (store self) !! l = None ->
  is_staging l = false -> well_formed self ->
  N.of_nat (length o) <= single \/
    is_ok (location (S:=S) self (staging_key (hex_encode (sha256 o)) key)) = true /\ (0 < buffer)%nat /\ (0 < concurrency)%nat ->
  total_triple w (put_file_immutable (S:=S) self key (hex_encode (sha256 o)) source single buffer concurrency)
    (fun n w' => n = N.of_nat (length o) /\ exists objs', state objs' fs w' /\ added objs (store self) l o objs').
Proof.
  intros Hst Hsrc Hl Hnew Hns Hwf Hmode. unfold put_file_immutable. apply total_bind. rewrite decode_own_digest. apply total_now.
  eapply total_bind, total_len; [done..|]. intros w1 Hw1. apply total_bind. rewrite Hl. apply total_now.
  eapply total_bind, total_head_call; [done|]. intros w2 Hw2. rewrite Hnew.
  assert (forall objs' w', state objs' fs w' -> added objs (store self) l o objs' ->
    total_triple w' (size ← store_call (call (Head (store self) l));
      if negb (size =? N.of_nat (length o)) then now (Err (ChecksumMismatch key))
      else digest ← hash_remote self l;
           if negb (bool_decide (digest = sha256 o)) then now (Err (ChecksumMismatch key)) else mret (N.of_nat (length o)))
      (fun n w'' => n = N.of_nat (length o) /\ exists objs', state objs' fs w'' /\ added objs (store self) l o objs')) as Hend.
  { intros objs' w' Hw' Ho. pose proof Ho as [Hol _]. eapply total_bind, total_head; [done..|]. intros w3 Hw3.
    eapply total_final_check; [done..|]. eauto. }
  destruct (N.leb_spec (N.of_nat (length o)) single) as [Hle|Hgt].
  - apply total_bind. unfold publish_single. eapply total_bind, total_read; [done..|]. intros w3 Hw3.
    eapply total_bind, total_put_create; [done..|]. intros w4 Hw4. eapply Hend; [done|].
    split; [by rewrite fn_lookup_insert, lookup_insert_eq|]. intros b' l' _ Hne.
    destruct (decide (store self = b')) as [<-|]; [|by rewrite fn_lookup_insert_ne].
    rewrite fn_lookup_insert, lookup_insert_ne; [done|naive_solver].
  - destruct Hmode as [|(Hloc & Hb & Hc)]; [lia|]. destruct (location _ (staging_key _ _)) as [staging|] eqn:Hsl; [|done].
    assert (is_staging staging = true) as Hs by (eapply staging_location; [done| |done]; apply hex_encode_lower).
    assert (l <> staging) by congruence.
    eapply total_bind, total_multipart; [done..|]. intros w3 Hw3. eapply Hend; [done|].
    split; [by rewrite fn_lookup_insert, lookup_delete_ne, lookup_insert_eq|]. intros b' l' Hl' Hne'.
    destruct (decide (store self = b')) as [<-|]; [|by rewrite fn_lookup_insert_ne].
    rewrite fn_lookup_insert, lookup_delete_ne by congruence. rewrite lookup_insert_ne; [done|naive_solver].
Qed.

Lemma total_put_again objs fs w self key l source o single buffer concurrency :
  state objs fs w -> fs !! source = Some o -> location (S:=S) self key = Ok l -> objs (store self) !! l = Some o ->
  total_triple w (put_file_immutable (S:=S) self key (hex_encode (sha256 o)) source single buffer concurrency)
    (fun n w' => n = N.of_nat (length o) /\ state objs fs w').
Proof.
  intros Hst Hsrc Hl Ho. unfold put_file_immutable. apply total_bind. rewrite decode_own_digest. apply total_now.
  eapply total_bind, total_len; [done..|]. intros w1 Hw1. apply total_bind. rewrite Hl. apply total_now.
  eapply total_bind, total_head_call; [done|]. intros w2 Hw2. rewrite Ho. by eapply total_final_check.
Qed.

Lemma total_copy_chunks objs fs key max path parts : forall w observed seen (Q : N * list byte -> World -> Prop),
  state objs (<[path := seen]> fs) w -> observed + N.of_nat (length (concat parts)) <= max -> max < U64_LIMIT ->
  (forall w', state objs (<[path := seen ++ concat parts]> fs) w' ->
     Q (observed + N.of_nat (length (concat parts)), seen ++ concat parts) w') ->
  total_triple w (copy_chunks key max path (Ok <$> parts) observed seen) Q.
Proof.
  induction parts as [|c parts IH]; intros w observed seen Q Hst Hmax H64 HQ; cbn [fmap list_fmap copy_chunks concat] in *.
  { cbn [length] in HQ. rewrite app_nil_r, N.add_0_r in HQ. by apply HQ. }
  rewrite length_app in *.
  do 2 apply total_bind. unfold u64_of_len, fits.
  rewrite (proj2 (N.ltb_lt (N.of_nat (length c)) U64_LIMIT)) by lia. apply total_now. apply total_bind.
  rewrite checked_add_fits by lia. apply total_now. apply total_bind.
  rewrite (proj2 (N.ltb_ge max (observed + N.of_nat (length c)))) by lia. apply total_now.
  eapply total_bind, total_write; [done|]. intros w1 Hw1. rewrite alter_insert_eq in Hw1.
  eapply IH; [done|lia|done|]. intros w' Hw'. rewrite <- app_assoc in *.
  replace (observed + N.of_nat (length c) + N.of_nat (length (concat parts)))
    with (observed + N.of_nat (length c + length (concat parts))) by lia. by apply HQ.
Qed.

Lemma total_materialize objs fs w self key l max destination o :
  state objs fs w -> location (S:=S) self key = Ok l -> objs (store self) !! l = Some o ->
  N.of_nat (length o) <= max -> max < U64_LIMIT -> destination <> [] -> fs !! temporary_of destination = None ->
  total_triple w (materialize_verified (S:=S) self key (hex_encode (sha256 o)) max destination)
    (fun n w' => n = N.of_nat (length o) /\ state objs (<[destination := o]> fs) w').
Proof.
  intros Hst Hl Ho Hmax H64 Hd Htmp. unfold materialize_verified, materialize_verified_inner. apply total_bind.
  rewrite decode_own_digest. apply total_now. apply total_bind. rewrite Hl. apply total_now.
  eapply total_bind, total_head; [done..|]. intros w1 Hw1. apply total_bind.
  rewrite (proj2 (N.ltb_ge max (N.of_nat (length o)))) by lia. apply total_now. apply total_bind, total_now.
  destruct (exists_last Hd) as (dir & name & ->).
  assert (parent (dir ++ [name]) = Some dir) as -> by (unfold parent; rewrite removelast_last; by destruct dir).
  apply total_bind, total_now. eapply total_bind, total_create_dir; [done|]. intros w2 Hw2.
  unfold file_name. rewrite last_snoc. apply total_bind, total_now.
  unfold temporary_of in Htmp. rewrite removelast_last, last_snoc in Htmp. cbn [default] in Htmp.
  eapply total_bind, total_create_new; [done..|]. intros w3 Hw3.
  eapply total_bind, total_get; [done..|]. intros w4 parts Hw4 Hparts.
  eapply total_bind, total_copy_chunks; [done| |done|]; rewrite Hparts; [lia|]. intros w5 Hw5. cbn [app] in Hw5 |- *.
  eapply total_bind, total_sync; [done|]. intros w6 Hw6. rewrite N.eqb_refl, bool_decide_eq_true_2 by done. cbn [negb orb].
  eapply total_bind, total_rename; [done|by apply lookup_insert_eq|]. intros w7 Hw7. rewrite delete_insert_id in Hw7 by done.
  eapply total_bind, total_sync_dir; [done|]. intros w8 Hw8. by apply total_now.
Qed.

Lemma total_verify objs fs w self key l max o :
  state objs fs w -> location (S:=S) self key = Ok l -> objs (store self) !! l = Some o -> N.of_nat (length o) <= max ->
  total_triple w (verify_remote (S:=S) self key (hex_encode (sha256 o)) max)
    (fun n w' => n = N.of_nat (length o) /\ state objs fs w').
Proof.
  intros Hst Hl Ho Hmax. unfold verify_remote. apply total_bind. rewrite decode_own_digest. apply total_now.
  apply total_bind. rewrite Hl. apply total_now. eapply total_bind, total_head; [done..|]. intros w1 Hw1. apply total_bind.
  rewrite (proj2 (N.ltb_ge max (N.of_nat (length o)))) by lia. apply total_now.
  eapply total_bind, total_hash_remote; [done..|]. intros w2 Hw2. apply total_bind.
  rewrite bool_decide_eq_true_2 by done. apply total_now. by apply total_now.
Qed.

End Reliable.

(** ** A store in memory

    An instance of the interface on which programs can be evaluated; streams
    come in chunks of four bytes. *)

Definition Memory := gmap Location (list byte).

Definition memory_chunks (o : list byte) : list (result StoreError (list byte)) := Ok <$> chunks 4 o.

Definition memory_head (l : Location) (m : Memory) : result StoreError N * Memory :=
  (match m !! l with Some o => Ok (N.of_nat (length o)) | None => Err NotFound end, m).

Definition memory_get (l : Location) (m : Memory) : result StoreError (list (result StoreError (list byte))) * Memory :=
  (match m !! l with Some o => Ok (memory_chunks o) | None => Err NotFound end, m).

Definition memory_put_create (l : Location) (o : list byte) (m : Memory) : result StoreError unit * Memory :=
  match m !! l with Some _ => (Err AlreadyExists, m) | None => (Ok tt, <[l := o]> m) end.

Definition memory_copy (l l' : Location) (m : Memory) : result StoreError unit * Memory :=
  match m !! l, m !! l' with
  | None, _ => (Err NotFound, m)
  | Some _, Some _ => (Err AlreadyExists, m)
  | Some o, None => (Ok tt, <[l' := o]> m)
  end.

Global Program Instance memory_store : ObjectStore Memory := {|
  objects := fun m => m;
  parse_path := Some;
  os_head := memory_head;
  os_get := memory_get;
  os_put_create := memory_put_create;
  os_put_stream := fun l o m => (Ok tt, <[l := o]> m);
  os_copy_if_not_exists := memory_copy;
  os_delete := fun l m => (Ok tt, delete l m);
|}.
Next Obligation. done. Qed.
Next Obligation. intros l m r m' [= <- <-]. destruct (m !! l) eqn:?; eauto. Qed.
Next Obligation.
  intros l m r m' [= <- <-]. destruct (m !! l) as [o|] eqn:Hl; [|done]. split; [done|]. exists o. split; [done|].
  intros parts Hp. rewrite <- (concat_chunks 4 o) by lia. f_equal. symmetry.
  eapply list_fmap_eq_inj; [|exact Hp]. by intros ? ? [=].
Qed.
Next Obligation. unfold memory_put_create. intros l o m r m' Hs. destruct (m !! l) eqn:?; simplify_eq/=; eauto. Qed.
Next Obligation. intros l o m r m' Hs. by simplify_eq/=. Qed.
Next Obligation.
  unfold memory_copy. intros l l' m r m' Hs. destruct (m !! l) eqn:?, (m !! l') eqn:?; simplify_eq/=; eauto.
Qed.
Next Obligation. intros l m r m' Hs. by simplify_eq/=. Qed.

Global Instance memory_reliable : ReliableStore Memory.
Proof.
  split; cbn; unfold memory_put_create, memory_copy; intros; simplify_option_eq; try done.
  by eexists.
Qed.

(** The same store behind a network: a stream may break after its first
    chunk, as often as the list says. *)
Definition Flaky : Type := list bool * Memory.

Definition behind {A} (f : Memory -> A * Memory) (s : Flaky) : A * Flaky := let '(r, m) := f s.2 in (r, (s.1, m)).

Lemma behind_inv {A} (f : Memory -> A * Memory) s r s' : behind f s = (r, s') -> f s.2 = (r, s'.2).
Proof. unfold behind. destruct (f s.2). by intros [= -> <-]. Qed.

Definition flaky_get (l : Location) (s : Flaky) : result StoreError (list (result StoreError (list byte))) * Flaky :=
  match s.1, s.2 !! l with
  | true :: rest, Some o => (Ok [Ok (take 4 o); Err StoreFailure], (rest, s.2))
  | _, _ => let '(r, m) := os_get l s.2 in (r, (tail s.1, m))
  end.

Lemma flaky_get_inv l s r s' : flaky_get l s = (r, s') ->
  os_get l s.2 = (r, s'.2) \/
  s'.2 = s.2 /\ exists o, s.2 !! l = Some o /\ r = Ok [Ok (take 4 o); Err StoreFailure].
Proof.
  destruct s as [faults m]. unfold flaky_get. cbn [fst snd].
  destruct faults as [|[] rest], (m !! l) as [o|] eqn:Hl; intros [= <- <-]; cbn [fst snd]; eauto.
Qed.

Global Program Instance flaky_store : ObjectStore Flaky := {|
  objects := snd;
  parse_path := Some;
  os_head := fun l => behind (os_head l);
  os_get := flaky_get;
  os_put_create := fun l o => behind (os_put_create l o);
  os_put_stream := fun l o => behind (os_put_stream l o);
  os_copy_if_not_exists := fun l l' => behind (os_copy_if_not_exists l l');
  os_delete := fun l => behind (os_delete l);
|}.
Next Obligation. done. Qed.
Next Obligation. intros l s r s' Hs%behind_inv. exact (os_head_spec l s.2 r s'.2 Hs). Qed.
Next Obligation.
  intros l s r s' [Hs|(-> & o & Ho & ->)]%flaky_get_inv; [exact (os_get_spec l s.2 r s'.2 Hs)|].
  split; [done|]. exists o. split; [done|]. intros [|p [|q parts]] Hp; simplify_eq/=.
Qed.
Next Obligation. intros l o s r s' Hs%behind_inv. exact (os_put_create_spec l o s.2 r s'.2 Hs). Qed.
Next Obligation. intros l o s r s' Hs%behind_inv. exact (os_put_stream_spec l o s.2 r s'.2 Hs). Qed.
Next Obligation. intros l l' s r s' Hs%behind_inv. exact (os_copy_spec l l' s.2 r s'.2 Hs). Qed.
Next Obligation. intros l s r s' Hs%behind_inv. exact (os_delete_spec l s.2 r s'.2 Hs). Qed.

(** ** Theorems *)

Lemma opened_store_well_formed parse_url open_file open_bucket value self :
  from_base_url parse_url open_file open_bucket value = Ok self -> well_formed self.
Proof.
  intros Ho. unfold from_base_url, open_container in Ho. inv_steps.
  repeat case_bool_decide; inv_steps; subst self; cbn; try done; by destruct a2.
Qed.

Section Theorems.
Context `{Sha256} {S : Type} `{ObjectStore S}.

(** C13: whatever calls run at once, on whatever stores, in whatever order their
    steps interleave and wherever they fail or stop: an object outside the
    staging area is never changed or removed once it exists. *)
Theorem published_objects_are_immutable (calls : list StoreCall) (schedule : list nat) (w : World (S:=S))
    (b : Backend) (l : Location) (o : list byte) :
  Forall (fun c => well_formed (store_of c)) calls ->
  is_staging l = false ->
  objects (stores w b) !! l = Some o ->
  objects (stores (interleave schedule (program_of <$> calls, w)).2 b) !! l = Some o.
Proof.
  intros Hwf Hl Ho. destruct (interleave schedule (program_of <$> calls, w)) as [ts' w'] eqn:Hi.
  apply interleave_spec in Hi as [Hw _]; [|by apply guarded_calls]. by apply Hw.
Qed.

(** when a publication reports success, under any schedule of any other
    calls, its key holds an object with the reported size and the requested
    digest at the end of the schedule, however long that goes on after the
    publication ended. *)
Theorem publication_is_verified (calls : list StoreCall) (schedule : list nat) (w : World (S:=S)) (i : nat)
    (self : ArtifactStore) (key sha : string) (source : FsPath) (single : N) (buffer concurrency : nat)
    (l : Location) (n : N) :
  Forall (fun c => well_formed (store_of c)) calls ->
  calls !! i = Some (CallPut self key sha source single buffer concurrency) ->
  location (S:=S) self key = Ok l ->
  is_staging l = false ->
  let state' := interleave schedule (program_of <$> calls, w) in
  state'.1 !! i = Some (Done (Ok n)) ->
  exists o, objects (stores state'.2 (store self)) !! l = Some o /\ n = N.of_nat (length o) /\ hex_encode (sha256 o) = sha.
Proof.
  intros Hwf Hi Hl Hst state'. destruct state' as [ts' w'] eqn:Hs. subst state'. cbn [fst snd]. intros Hdone.
  apply interleave_spec in Hs as [_ HQ]; [|by apply guarded_calls].
  destruct (HQ i _ _ (list_lookup_fmap_Some_2 _ _ _ _ Hi) (succeeds_put self key sha source single buffer concurrency l w
    Hst Hl)) as (p & Hp & Hout).
  rewrite Hdone in Hp. injection Hp as <-. exact (Hout w' (reflexivity w') n eq_refl).
Qed.

(** fetches that share a byte budget never report more bytes in total than
    the budget has left, however they interleave. *)
Theorem staging_stays_within_budget (requests : list (ArtifactStore * string * string * N * FsPath)) (schedule : list nat)
    (w : World (S:=S)) (counter : Counter) (limit : N) :
  counters w counter <= limit ->
  let programs := (fun '(self, key, sha, max, destination) =>
    materialize_verified_with_budget self key sha max destination counter limit) <$> requests in
  counters w counter + total (reported <$> (interleave schedule (programs, w)).1) <= limit.
Proof.
  intros Hle programs. destruct (interleave schedule (programs, w)) as [ts' w'] eqn:Hs. cbn [fst].
  eapply (ledgers_interleave counter limit schedule _ _ _ _ _ (replicate (length requests) 0)); [| |done|exact Hs].
  - subst programs. clear. induction requests as [|[[[[self key] sha] max] destination] requests IH]; cbn; constructor.
    + apply ledger_materialize.
    + apply IH.
  - clear. induction (length requests) as [|n IH]; cbn; [lia|]. exact IH.
Qed.

(** C18: a fetch that runs alone, whatever fails on the disk or in the store:
    on success the destination holds exactly the remote object, which has the
    requested digest and the reported size within the limit, and nothing else
    on the disk changed; on failure the destination is as it was, or holds
    verified bytes.  The stores are never changed. *)
Theorem fetch_exposes_only_verified_bytes (w w' : World (S:=S)) (self : ArtifactStore) (key sha : string) (max : N)
    (destination : FsPath) (budget : option (Counter * N)) (r : result ArtifactStoreError N) :
  run (materialize_verified_inner self key sha max destination budget) w = (r, w') ->
  (forall b, objects (stores w' b) = objects (stores w b)) /\
  match r with
  | Ok n => exists l o, location self key = Ok l /\ objects (stores w (store self)) !! l = Some o /\
      n = N.of_nat (length o) /\ n <= max /\ hex_encode (sha256 o) = sha /\
      files (disk w') = <[destination := o]> (files (disk w))
  | Err _ => files (disk w') !! destination = files (disk w) !! destination \/
      exists o, files (disk w') !! destination = Some o /\ hex_encode (sha256 o) = sha
  end.
Proof.
  intros Hr. pose proof (triple_materialize w self key sha max destination budget) as Ht. unfold triple in Ht. rewrite Hr in Ht.
  destruct r as [n|e].
  - destruct Ht as (l & o & ? & ? & ? & ? & ? & [Ho Hf]). split; [done|]. by exists l, o.
  - by destruct Ht as (? & _ & ?).
Qed.

(** on a store and a disk that work, a file published under a new key can
    be fetched back unchanged, and publishing it again is accepted. *)
Theorem publish_then_fetch `{!ReliableStore S} (w : World (S:=S)) (self : ArtifactStore) (key : string) (l : Location)
    (source destination : FsPath) (o : list byte) (single max : N) (buffer concurrency : nat) :
  let sha := hex_encode (sha256 o) in
  let put := put_file_immutable self key sha source single buffer concurrency in
  well_formed self -> faults (disk w) = [] -> files (disk w) !! source = Some o ->
  location (S:=S) self key = Ok l -> is_staging l = false -> objects (stores w (store self)) !! l = None ->
  N.of_nat (length o) <= single \/
    is_ok (location (S:=S) self (staging_key sha key)) = true /\ (0 < buffer)%nat /\ (0 < concurrency)%nat ->
  N.of_nat (length o) <= max -> max < U64_LIMIT -> destination <> [] ->
  files (disk w) !! temporary_of destination = None ->
  exists w1 w2 w3,
    run put w = (Ok (N.of_nat (length o)), w1) /\
    run put w1 = (Ok (N.of_nat (length o)), w2) /\
    run (materialize_verified self key sha max destination) w2 = (Ok (N.of_nat (length o)), w3) /\
    files (disk w3) = <[destination := o]> (files (disk w)).
Proof.
  intros sha put Hwf Hx Hsrc Hl Hst Hnew Hmode Hmax H64 Hd Htmp.
  assert (state (fun b => objects (stores w b)) (files (disk w)) w) as Hw by done.
  destruct (total_done _ _ _ (total_put_new _ _ w self key l source o single buffer concurrency
    Hw Hsrc Hl Hnew Hst Hwf Hmode)) as (? & w1 & H1 & -> & objs & Hw1 & Ho & _).
  destruct (total_done _ _ _ (total_put_again _ _ w1 self key l source o single buffer concurrency Hw1 Hsrc Hl Ho))
    as (? & w2 & H2 & -> & Hw2).
  destruct (total_done _ _ _ (total_materialize _ _ w2 self key l max destination o Hw2 Hl Ho Hmax H64 Hd Htmp))
    as (? & w3 & H3 & -> & [_ Hf _]).
  by exists w1, w2, w3.
Qed.

End Theorems.

(** ** Examples *)

Definition sample_store : ArtifactStore := {| store := 0%nat; prefix := "prod" |}.
Definition sample_key : string := "inputs/a.bin".
Definition sample_location : Location := "prod/inputs/a.bin".
Definition sample_bytes : list byte := as_bytes "abcdefgh".
Definition sample_sha : string := hex_encode (padded_sha256 sample_bytes).
Definition altered_bytes : list byte := as_bytes "abcdefgX".

Definition sample_world {S} (s : S) (fs : gmap FsPath (list byte)) : World (S:=S) :=
  {| stores := fun _ => s; disk := {| files := fs; faults := [] |}; counters := fun _ => 0 |}.

Definition sample_files : gmap FsPath (list byte) :=
  {[ ["tmp"; "good"]%string := sample_bytes; ["tmp"; "bad"]%string := altered_bytes ]}.

(** Two multipart publications of the sample key, the second from [second]. *)
Definition two_publishers (second : string) : list StoreCall :=
  [CallPut sample_store sample_key sample_sha ["tmp"; "good"]%string 0 5 1;
   CallPut sample_store sample_key sample_sha ["tmp"; second]%string 0 5 1].

Definition run_publishers (second : string) (schedule : list nat) :
    list (Program (result ArtifactStoreError N)) * World (S:=Memory) :=
  interleave schedule (program_of (H:=padded_digest) <$> two_publishers second, sample_world (∅ : Memory) sample_files).

(** Two workers that publish the same bytes under the same key do not both
    succeed: the staging object of the second is gone when the first deletes
    it, and the second fails although the object is published. *)
Example identical_publishers_can_fail :
  let state := run_publishers "good" (replicate 4 1 ++ replicate 9 0 ++ [1])%nat in
  state.1 = [Done (Ok 8); Done (Err (Store NotFound))] /\
  objects (stores state.2 0%nat) !! sample_location = Some sample_bytes.
Proof. vm_compute. by split. Qed.

(** The bytes that are copied need not be the bytes that were verified: a
    second worker with a damaged file writes over the staging object between
    the two steps.  The key then holds the damaged bytes for good, and the
    publication of the right ones is refused. *)
Example staging_race_admits_unverified_bytes :
  let state := run_publishers "bad" (replicate 5 0 ++ replicate 4 1 ++ replicate 4 0)%nat in
  state.1 !! 0%nat = Some (Done (Err (ChecksumMismatch sample_key))) /\
  objects (stores state.2 0%nat) !! sample_location = Some altered_bytes /\
  (run (put_file_immutable (H:=padded_digest) sample_store sample_key sample_sha ["tmp"; "good"]%string 100 5 1) state.2).1
  = Err (ImmutableConflict sample_key).
Proof. vm_compute. by split_and!. Qed.

(** A fetch whose stream breaks leaves its temporary file behind, and every
    later fetch to the same destination fails on it. *)
Example broken_stream_blocks_retries :
  let w := sample_world ([true], {[ sample_location := sample_bytes ]} : Memory) ∅ in
  let fetch := materialize_verified (H:=padded_digest) (S:=Flaky) sample_store sample_key sample_sha 100
                 ["scratch"; "a"]%string in
  let '(first, w1) := run fetch w in
  let '(second, w2) := run fetch w1 in
  first = Err (Store StoreFailure) /\ second = Err (Io IoAlreadyExists) /\
  (run fetch w2).1 = Err (Io IoAlreadyExists).
Proof. vm_compute. by split_and!. Qed.

Definition sample_memory : Memory := {[ sample_location := sample_bytes ]}.

Lemma published_objects_are_immutable_witness :
  is_staging sample_location = false /\
  objects (stores (interleave [0; 1; 1; 0; 1; 0]%nat
    (program_of (H:=padded_digest) (S:=Memory) <$> two_publishers "bad", sample_world sample_memory sample_files)).2 0%nat)
    !! sample_location = Some sample_bytes.
Proof.
  split; [by vm_compute|].
  apply (published_objects_are_immutable (H:=padded_digest) (S:=Memory));
    [by repeat constructor|by vm_compute|by vm_compute].
Defined.

Lemma publication_is_verified_witness :
  let state' := interleave (replicate 4 1 ++ replicate 9 0 ++ [1])%nat
    (program_of (H:=padded_digest) (S:=Memory) <$> two_publishers "good", sample_world (∅ : Memory) sample_files) in
  exists o, objects (stores state'.2 (store sample_store)) !! sample_location = Some o /\ 8 = N.of_nat (length o) /\
    hex_encode (@sha256 padded_digest o) = sample_sha.
Proof.
  refine (publication_is_verified (H:=padded_digest) (S:=Memory) (two_publishers "good") _ _ 0 sample_store sample_key
    sample_sha ["tmp"; "good"]%string 0 5 1 sample_location 8 _ _ _ _ _).
  - by repeat constructor.
  - reflexivity.
  - by vm_compute.
  - by vm_compute.
  - by vm_compute.
Defined.

Lemma staging_stays_within_budget_witness :
  let request := (sample_store, sample_key, sample_sha, 100, ["scratch"; "a"]%string) in
  0 + total (reported <$> (interleave [0; 1; 1; 0; 1; 0]%nat
    ((fun '(self, key, sha, max, destination) =>
        materialize_verified_with_budget (H:=padded_digest) (S:=Memory) self key sha max destination 0%nat 9) <$> [request; request],
     sample_world sample_memory ∅)).1) <= 9.
Proof.
  apply (staging_stays_within_budget (H:=padded_digest) (S:=Memory) _ _ (sample_world sample_memory ∅) 0%nat 9). cbn. lia.
Defined.

Definition sample_fetch : io ArtifactStoreError N :=
  materialize_verified_inner (H:=padded_digest) (S:=Memory) sample_store sample_key sample_sha 100
    ["scratch"; "a"]%string None.

Lemma fetch_exposes_only_verified_bytes_witness :
  exists l o, location (S:=Memory) sample_store sample_key = Ok l /\
    objects (stores (sample_world sample_memory ∅) (store sample_store)) !! l = Some o /\
    8 = N.of_nat (length o) /\ 8 <= 100 /\ hex_encode (@sha256 padded_digest o) = sample_sha /\
    files (disk (run sample_fetch (sample_world sample_memory ∅)).2) =
      insert ["scratch"; "a"]%string o (files (disk (sample_world sample_memory ∅))).
Proof.
  refine (proj2 (fetch_exposes_only_verified_bytes (H:=padded_digest) (S:=Memory) (sample_world sample_memory ∅)
    (run sample_fetch (sample_world sample_memory ∅)).2 sample_store sample_key sample_sha 100 ["scratch"; "a"]%string
    None (Ok 8) _)).
  apply injective_projections; [by vm_compute|reflexivity].
Defined.

Lemma publish_then_fetch_witness :
  let sha := hex_encode (@sha256 padded_digest sample_bytes) in
  let put := put_file_immutable (H:=padded_digest) (S:=Memory) sample_store sample_key sha ["tmp"; "good"]%string 0 5 1 in
  let w := sample_world (∅ : Memory) sample_files in
  exists w1 w2 w3,
    run put w = (Ok (N.of_nat (length sample_bytes)), w1) /\
    run put w1 = (Ok (N.of_nat (length sample_bytes)), w2) /\
    run (materialize_verified (H:=padded_digest) (S:=Memory) sample_store sample_key sha 100 ["tmp"; "back"]%string) w2
      = (Ok (N.of_nat (length sample_bytes)), w3) /\
    files (disk w3) = insert ["tmp"; "back"]%string sample_bytes (files (disk w)).
Proof.
  refine (publish_then_fetch (H:=padded_digest) (S:=Memory) (sample_world (∅ : Memory) sample_files) sample_store sample_key
    sample_location ["tmp"; "good"]%string ["tmp"; "back"]%string sample_bytes 0 100 5 1 _ _ _ _ _ _ _ _ _ _ _);
    [by vm_compute|reflexivity|reflexivity|by vm_compute|by vm_compute|reflexivity| |by vm_compute|by vm_compute|done|reflexivity].
  right. split_and!; [by vm_compute|lia|lia].
Defined.
