(* ===== verification/StorageRecovery.v ===== *)
(** * Storage recovery: plans, certificates and backups

    Models the pure part of src/crates/ngkg-storage-recovery/src/lib.rs:
    placement of replicas by rendezvous hashing over failure domains, transfer
    plans and their validation, the completion barrier, and the manifests of
    backups and restores.  [Transfers] models the execution of a plan.

    BLAKE3 and the JSON text of a transfer result are parameters.  A UUID is
    the list of its sixteen bytes.

    The theorems show that a placement is exactly the requested number of
    writable targets in different failure domains whenever there are so many,
    that it does not depend on targets it does not use, that a plan is exactly
    the list of missing replicas and validates unless an artifact exceeds the
    byte budget, that the barrier accepts exactly the complete sets of
    verified results in any order, and that a restore plan made from the
    backup of a snapshot names every artifact of it. *)

From Stdlib Require Import Strings.Byte Strings.String.
From S2P Require Import Prelude Words Ordered Digest Text ArtifactStore.

Local Open Scope N_scope.

(** ** Data *)

Definition STORAGE_RECOVERY_FORMAT_VERSION : N := 1.

Definition Uuid := list byte.
Definition is_nil (id : Uuid) : bool := bool_decide (id = replicate 16 x00).

(** [uuid.simple()]. *)
Definition simple (id : Uuid) : string := hex_encode id.

Record StorageTarget := {
  target_name : string;
  failure_domain : string;
  base_url : string;
  writable : bool;
}.

Record SnapshotArtifact := {
  object_key : string;
  artifact_sha256 : string;
  artifact_bytes : N;
}.

Definition artifact_tuple (a : SnapshotArtifact) : string * (string * N) :=
  (object_key a, (artifact_sha256 a, artifact_bytes a)).

Global Instance artifact_tuple_inj : Inj (=) (=) artifact_tuple.
Proof. intros [] [] [=]. by subst. Qed.

Global Instance SnapshotArtifact_eq_dec : EqDecision SnapshotArtifact.
Proof. solve_decision. Defined.

Global Instance SnapshotArtifact_ord : RustOrd SnapshotArtifact := ord_by artifact_tuple _.

Record SnapshotStorageManifest := {
  manifest_format_version : N;
  manifest_tenant_id : Uuid;
  manifest_dataset_id : Uuid;
  manifest_snapshot_id : Uuid;
  snapshot_manifest_sha256 : string;
  activation_manifest_sha256 : option string;
  manifest_artifacts : list SnapshotArtifact;
}.

Inductive TransferReason := Replication | Relocation | NodeLoss | ChecksumRepair | Backup | Restore.

Global Instance TransferReason_eq_dec : EqDecision TransferReason.
Proof. solve_decision. Defined.

(** [format!("{reason:?}")]. *)
Definition debug_reason (r : TransferReason) : string :=
  match r with
  | Replication => "Replication" | Relocation => "Relocation" | NodeLoss => "NodeLoss"
  | ChecksumRepair => "ChecksumRepair" | Backup => "Backup" | Restore => "Restore"
  end.

Record TransferTask := {
  task_index : N;
  stable_work_id : string;
  reason : TransferReason;
  source_target : string;
  destination_target : string;
  source_object_key : string;
  destination_object_key : string;
  task_sha256 : string;
  task_bytes : N;
}.

Record RecoveryPlan := {
  plan_format_version : N;
  operation_id : Uuid;
  plan_tenant_id : Uuid;
  plan_dataset_id : Uuid;
  plan_snapshot_id : Uuid;
  storage_manifest_sha256 : string;
  replication_factor : N;
  max_in_flight_bytes : N;
  tasks : list TransferTask;
}.

Inductive TransferState := Succeeded | Quarantined | RetryableFailure | PermanentFailure.

Global Instance TransferState_eq_dec : EqDecision TransferState.
Proof. solve_decision. Defined.

Record TransferResult := {
  result_operation_id : Uuid;
  result_task_index : N;
  result_stable_work_id : string;
  result_state : TransferState;
  observed_sha256 : option string;
  copied_bytes : N;
  error_code : option string;
}.

Global Instance TransferResult_eq_dec : EqDecision TransferResult.
Proof. solve_decision. Defined.

Record RecoveryCertificate := {
  certificate_format_version : N;
  certificate_operation_id : Uuid;
  plan_sha256 : string;
  certificate_snapshot_id : Uuid;
  verified_task_count : N;
  verified_bytes : N;
  result_set_sha256 : string;
  certificate_complete : bool;
}.

Record BackupArtifact := {
  backup_source_key : string;
  backup_object_key : string;
  backup_sha256 : string;
  backup_bytes : N;
}.

Record SnapshotBackupManifest := {
  backup_format_version : N;
  backup_id : Uuid;
  backup_tenant_id : Uuid;
  backup_dataset_id : Uuid;
  source_snapshot_id : Uuid;
  source_storage_manifest_sha256 : string;
  backup_certificate_sha256 : string;
  backup_destination : string;
  backup_artifacts : list BackupArtifact;
  total_bytes : N;
  backup_complete : bool;
}.

Record SnapshotRestoreCertificate := {
  restore_format_version : N;
  restore_id : Uuid;
  backup_manifest_sha256 : string;
  restore_source_snapshot_id : Uuid;
  restored_snapshot_id : Uuid;
  restore_storage_manifest_sha256 : string;
  recovery_certificate_sha256 : string;
  catalog_imported : bool;
  publication_state : string;
  restore_complete : bool;
}.

Inductive RecoveryError :=
| InvalidContract (reason : string)
| InsufficientFailureDomains (requested available : N)
| Incomplete (reason : string)
| Artifact (error : ArtifactStoreError)
| RecoveryIo (error : IoError).

(** ** Validation of fields *)

Definition valid_sha256 (value : string) : bool := lower_hex_sha256 value.

Definition is_ascii_lowercase (b : byte) : bool := in_range 0x61 0x7a b.
Definition is_ascii_digit (b : byte) : bool := in_range 0x30 0x39 b.

Definition valid_dns_label (value : string) : bool :=
  let bytes := as_bytes value in
  (1 <=? length bytes)%nat && (length bytes <=? 63)%nat
  && forallb (fun b => is_ascii_lowercase b || is_ascii_digit b || bool_decide (b = x2d)) bytes
  && match head bytes with Some b => is_ascii_alphanumeric b | None => false end
  && match last bytes with Some b => is_ascii_alphanumeric b | None => false end.

Definition valid_segment (segment : list byte) : bool :=
  negb (bool_decide (segment = [])) && negb (bool_decide (segment = as_bytes "."))
  && negb (bool_decide (segment = as_bytes "..")) && (length segment <=? 255)%nat
  && forallb (fun b => is_ascii_alphanumeric b || key_punctuation b) segment.

Definition valid_object_key (value : string) : bool :=
  let bytes := as_bytes value in
  negb (bool_decide (bytes = [])) && (length bytes <=? 1024)%nat
  && negb (bool_decide (head bytes = Some SLASH)) && negb (bool_decide (last bytes = Some SLASH))
  && negb (bool_decide (BACKSLASH ∈ bytes))
  && forallb valid_segment (split_on SLASH bytes).

Definition validate_artifact (artifact : SnapshotArtifact) : result RecoveryError unit :=
  fail_if (negb (valid_object_key (object_key artifact)) || negb (valid_sha256 (artifact_sha256 artifact)))
          (InvalidContract "artifact key or checksum is invalid").

(** [base_url.split(':').next()]. *)
Definition url_scheme (url : string) : option (list byte) := head (split_on x3a (as_bytes url)).

Definition validate_target (names : gset string) (target : StorageTarget) : result RecoveryError (gset string) :=
  _ ← fail_if (negb (valid_dns_label (target_name target)) || bool_decide (failure_domain target = ""%string)
               || (253 <? length (as_bytes (failure_domain target)))%nat
               || bool_decide (x40 ∈ as_bytes (base_url target))
               || negb (bool_decide (url_scheme (base_url target) ∈ [Some (as_bytes "s3"); Some (as_bytes "file")]))
               || bool_decide (target_name target ∈ names))
              (InvalidContract "storage target registry is invalid");
  Ok ({[ target_name target ]} ∪ names).

Definition validate_targets (targets : list StorageTarget) : result RecoveryError unit :=
  _ ← try_fold validate_target ∅ targets; Ok tt.

(** The loop over sorted values that each have a check of their own. *)
Definition ascending {A} `{RustOrd A} (check : A -> result RecoveryError unit) (reason : string)
    (previous : option A) (x : A) : result RecoveryError (option A) :=
  _ ← check x;
  _ ← fail_if (match previous with Some value => bool_decide (rle x value) | None => false end) (InvalidContract reason);
  Ok (Some x).

Definition validate_storage_manifest (manifest : SnapshotStorageManifest) : result RecoveryError unit :=
  _ ← fail_if (negb (manifest_format_version manifest =? STORAGE_RECOVERY_FORMAT_VERSION)
               || is_nil (manifest_tenant_id manifest) || is_nil (manifest_dataset_id manifest)
               || is_nil (manifest_snapshot_id manifest) || negb (valid_sha256 (snapshot_manifest_sha256 manifest))
               || match activation_manifest_sha256 manifest with Some digest => negb (valid_sha256 digest) | None => false end
               || bool_decide (manifest_artifacts manifest = []))
              (InvalidContract "storage-manifest identity or digest is invalid");
  _ ← try_fold (ascending validate_artifact "artifacts must be sorted and duplicate-free") None (manifest_artifacts manifest);
  Ok tt.

(** ** Placement *)

(** A key compared in descending order. *)
Record Reverse (A : Type) := { reversed : A }.
Arguments reversed {A} r.
Arguments Build_Reverse {A} reversed.

Global Instance Reverse_eq_dec {A} `{EqDecision A} : EqDecision (Reverse A).
Proof. solve_decision. Defined.

Global Program Instance Reverse_ord {A} `{RustOrd A} : RustOrd (Reverse A) :=
  {| cmp x y := cmp (reversed y) (reversed x) |}.
Next Obligation. intros A ? [x] [y]. cbn. rewrite cmp_eq. naive_solver. Qed.
Next Obligation. intros A ? [x] [y]. apply cmp_antisym. Qed.
Next Obligation. intros A ? [x] [y] [z]. cbn. eauto using cmp_trans. Qed.

(** The [filter_map] that keeps the first target of every failure domain. *)
Fixpoint first_of_domains (domains : gset string) (targets : list StorageTarget) : list string :=
  match targets with
  | [] => []
  | t :: targets =>
      if bool_decide (failure_domain t ∈ domains) then first_of_domains domains targets
      else target_name t :: first_of_domains ({[ failure_domain t ]} ∪ domains) targets
  end.

Definition writable_targets (targets : list StorageTarget) : list StorageTarget :=
  filter (fun t => writable t = true) targets.

Definition writable_domains (targets : list StorageTarget) : gset string :=
  list_to_set (failure_domain <$> writable_targets targets).

Section Placement.
Context `{Sha256}.

Definition rendezvous_score (snapshot_id : Uuid) (sha : string) (target : StorageTarget) : list byte :=
  sha256 (as_bytes "ngkg-storage-rendezvous-v1" ++ [x00] ++ snapshot_id ++ as_bytes sha ++ as_bytes (target_name target)).

(** The comparison of [sort_by]: higher scores first, then names. *)
Definition rendezvous_key (snapshot_id : Uuid) (sha : string) (target : StorageTarget) : Reverse (list byte) * string :=
  (Build_Reverse (rendezvous_score snapshot_id sha target), target_name target).

Definition scored (snapshot_id : Uuid) (sha : string) (targets : list StorageTarget) : list StorageTarget :=
  sort_by_key (rendezvous_key snapshot_id sha) (writable_targets targets).

Definition select_replica_targets (snapshot_id : Uuid) (artifact : SnapshotArtifact) (targets : list StorageTarget)
    (factor : N) : result RecoveryError (list string) :=
  _ ← validate_artifact artifact;
  _ ← fail_if (factor =? 0) (InvalidContract "replication factor must be positive");
  _ ← validate_targets targets;
  _ ← fail_if (N.of_nat (size (writable_domains targets)) <? factor)
              (InsufficientFailureDomains factor (N.of_nat (size (writable_domains targets))));
  let selected := take (N.to_nat factor) (first_of_domains ∅ (scored snapshot_id (artifact_sha256 artifact) targets)) in
  _ ← fail_if (negb (N.of_nat (length selected) =? factor))
              (InsufficientFailureDomains factor (N.of_nat (length selected)));
  Ok selected.

End Placement.

(** ** Plans *)

Section Plans.
Context `{Sha256} `{Blake3}.

Definition stable_work_id_of (operation : Uuid) (index : N) (source destination : string) (artifact : SnapshotArtifact)
    (destination_key : string) (reason : TransferReason) : string :=
  "blake3:" +:+ hex_encode (blake3 (as_bytes "ngkg-storage-transfer-v1" ++ [x00] ++ operation ++ to_be_bytes 4 index
    ++ as_bytes source ++ as_bytes destination ++ as_bytes (object_key artifact) ++ as_bytes destination_key
    ++ as_bytes (artifact_sha256 artifact) ++ to_be_bytes 8 (artifact_bytes artifact) ++ as_bytes (debug_reason reason))).

(** [u32::try_from(len)]. *)
Definition u32_of_len (n : nat) : option N := if fits U32_LIMIT (N.of_nat n) then Some (N.of_nat n) else None.

(** [key.rsplit('/').next().unwrap_or("artifact")]. *)
Definition file_component (key : string) : string :=
  match last (split_on SLASH (as_bytes key)) with
  | Some name => String.string_of_list_byte name
  | None => "artifact"
  end.

(** [&text[..n]]. *)
Definition str_take (n : nat) (text : string) : string := String.string_of_list_byte (take n (as_bytes text)).

Definition replica_key (operation : Uuid) (artifact : SnapshotArtifact) : string :=
  "replicas/sha256/" +:+ str_take 2 (artifact_sha256 artifact) +:+ "/" +:+ artifact_sha256 artifact +:+ "/"
  +:+ simple operation +:+ "/" +:+ file_component (object_key artifact).

(** One destination of one artifact. *)
Definition plan_destination (operation : Uuid) (source : string) (verified : option (gset string))
    (why : TransferReason) (artifact : SnapshotArtifact) (tasks : list TransferTask) (destination : string) :
    result RecoveryError (list TransferTask) :=
  if bool_decide (destination = source)
     || match verified with Some names => bool_decide (destination ∈ names) | None => false end
  then Ok tasks
  else
    index ← ok_or (u32_of_len (length tasks)) (InvalidContract "task count exceeds u32");
    let key := replica_key operation artifact in
    Ok (tasks ++ [{| task_index := index;
                     stable_work_id := stable_work_id_of operation index source destination artifact key why;
                     reason := why; source_target := source; destination_target := destination;
                     source_object_key := object_key artifact; destination_object_key := key;
                     task_sha256 := artifact_sha256 artifact; task_bytes := artifact_bytes artifact |}]).

Definition plan_artifact (operation snapshot : Uuid) (source : string) (targets : list StorageTarget)
    (existing_verified : gmap string (gset string)) (factor : N) (why : TransferReason) (tasks : list TransferTask)
    (artifact : SnapshotArtifact) : result RecoveryError (list TransferTask) :=
  selected ← select_replica_targets snapshot artifact targets factor;
  try_fold (plan_destination operation source (existing_verified !! artifact_sha256 artifact) why artifact) tasks selected.

Definition build_recovery_plan (operation : Uuid) (manifest : SnapshotStorageManifest) (manifest_sha256 source : string)
    (targets : list StorageTarget) (existing_verified : gmap string (gset string)) (factor max_bytes : N)
    (why : TransferReason) : result RecoveryError RecoveryPlan :=
  _ ← validate_storage_manifest manifest;
  _ ← validate_targets targets;
  _ ← fail_if (is_nil operation || negb (valid_sha256 manifest_sha256) || (max_bytes =? 0))
              (InvalidContract "plan identity, manifest digest, or byte budget is invalid");
  _ ← fail_if (negb (bool_decide (source ∈ target_name <$> targets))) (InvalidContract "source target is not registered");
  tasks ← try_fold (plan_artifact operation (manifest_snapshot_id manifest) source targets existing_verified factor why)
                   [] (manifest_artifacts manifest);
  Ok {| plan_format_version := STORAGE_RECOVERY_FORMAT_VERSION; operation_id := operation;
        plan_tenant_id := manifest_tenant_id manifest; plan_dataset_id := manifest_dataset_id manifest;
        plan_snapshot_id := manifest_snapshot_id manifest; storage_manifest_sha256 := manifest_sha256;
        replication_factor := factor; max_in_flight_bytes := max_bytes; tasks := tasks |}.

Definition valid_work_id (id : string) : bool :=
  let bytes := as_bytes id in
  (length bytes =? 71)%nat && bool_decide (is_Some (strip_prefix (as_bytes "blake3:") bytes))
  && forallb lower_hex_byte (drop 7 bytes).

Definition validate_task (task : TransferTask) : result RecoveryError unit :=
  fail_if (negb (valid_work_id (stable_work_id task))
           || bool_decide (source_target task = ""%string) || bool_decide (destination_target task = ""%string)
           || bool_decide (source_target task = destination_target task)
           || negb (valid_object_key (source_object_key task)) || negb (valid_object_key (destination_object_key task))
           || negb (valid_sha256 (task_sha256 task)))
          (InvalidContract "transfer task is invalid").

(** The artifact a task moves. *)
Definition task_artifact (task : TransferTask) : SnapshotArtifact :=
  {| object_key := source_object_key task; artifact_sha256 := task_sha256 task; artifact_bytes := task_bytes task |}.

Definition validate_plan_task (plan : RecoveryPlan) (index : nat) (task : TransferTask) : result RecoveryError nat :=
  _ ← validate_task task;
  let expected := stable_work_id_of (operation_id plan) (task_index task) (source_target task) (destination_target task)
                    (task_artifact task) (destination_object_key task) (reason task) in
  _ ← fail_if (negb (task_index task =? N.of_nat index) || (max_in_flight_bytes plan <? task_bytes task)
               || negb (bool_decide (stable_work_id task = expected)))
              (InvalidContract "task index, byte budget, or stable work identity is invalid");
  Ok (S index).

Definition validate_plan (plan : RecoveryPlan) : result RecoveryError unit :=
  _ ← fail_if (negb (plan_format_version plan =? STORAGE_RECOVERY_FORMAT_VERSION) || is_nil (operation_id plan)
               || is_nil (plan_tenant_id plan) || is_nil (plan_dataset_id plan) || is_nil (plan_snapshot_id plan)
               || negb (valid_sha256 (storage_manifest_sha256 plan)) || (replication_factor plan =? 0)
               || (max_in_flight_bytes plan =? 0))
              (InvalidContract "plan header is invalid");
  _ ← try_fold (validate_plan_task plan) 0%nat (tasks plan);
  Ok tt.

Definition validate_recovery_plan (plan : RecoveryPlan) : result RecoveryError unit := validate_plan plan.

(** ** The completion barrier *)

(** The JSON text of a result. *)
Context (encode_result : TransferResult -> option (list byte)).

Record RecoveryCertificationAccumulator := {
  acc_operation_id : Uuid;
  acc_snapshot_id : Uuid;
  acc_plan_sha256 : string;
  expected_task_count : N;
  next_task_index : N;
  acc_verified_bytes : N;
  result_hash : list byte;
}.

Definition accumulator_new (plan : RecoveryPlan) (sha : string) : result RecoveryError RecoveryCertificationAccumulator :=
  _ ← validate_plan plan;
  _ ← fail_if (negb (valid_sha256 sha)) (InvalidContract "recovery plan checksum is invalid");
  count ← ok_or (u32_of_len (length (tasks plan))) (InvalidContract "verified task count exceeds u32");
  Ok {| acc_operation_id := operation_id plan; acc_snapshot_id := plan_snapshot_id plan; acc_plan_sha256 := sha;
        expected_task_count := count; next_task_index := 0; acc_verified_bytes := 0;
        result_hash := as_bytes "ngkg-storage-recovery-results-v1" ++ [x00] |}.

Definition observe (task : TransferTask) (acc : RecoveryCertificationAccumulator) (r : TransferResult) :
    result RecoveryError RecoveryCertificationAccumulator :=
  _ ← fail_if (negb (task_index task =? next_task_index acc) || negb (result_task_index r =? task_index task)
               || negb (bool_decide (result_operation_id r = acc_operation_id acc))
               || negb (bool_decide (result_stable_work_id r = stable_work_id task))
               || negb (bool_decide (result_state r = Succeeded))
               || negb (bool_decide (observed_sha256 r = Some (task_sha256 task)))
               || negb (copied_bytes r =? task_bytes task) || bool_decide (is_Some (error_code r)))
              (Incomplete "task is not a verified dense success");
  bytes ← ok_or (checked_add U64_LIMIT (acc_verified_bytes acc) (copied_bytes r))
                (InvalidContract "verified byte total overflow");
  encoded ← ok_or (encode_result r) (InvalidContract "result cannot be encoded");
  next ← ok_or (checked_add U32_LIMIT (next_task_index acc) 1) (InvalidContract "verified task index overflow");
  Ok {| acc_operation_id := acc_operation_id acc; acc_snapshot_id := acc_snapshot_id acc;
        acc_plan_sha256 := acc_plan_sha256 acc; expected_task_count := expected_task_count acc;
        next_task_index := next; acc_verified_bytes := bytes; result_hash := result_hash acc ++ sha256 encoded |}.

Definition finish (acc : RecoveryCertificationAccumulator) : result RecoveryError RecoveryCertificate :=
  _ ← fail_if (negb (next_task_index acc =? expected_task_count acc))
              (Incomplete "recovery result stream ended before the complete plan");
  Ok {| certificate_format_version := STORAGE_RECOVERY_FORMAT_VERSION; certificate_operation_id := acc_operation_id acc;
        plan_sha256 := acc_plan_sha256 acc; certificate_snapshot_id := acc_snapshot_id acc;
        verified_task_count := expected_task_count acc; verified_bytes := acc_verified_bytes acc;
        result_set_sha256 := hex_encode (sha256 (result_hash acc)); certificate_complete := true |}.

(** [results.iter().map(..).collect::<BTreeMap<_, _>>()]. *)
Definition by_index (results : list TransferResult) : gmap N TransferResult :=
  foldl (fun m r => <[result_task_index r := r]> m) ∅ results.

Definition certify_task (index : gmap N TransferResult) (acc : RecoveryCertificationAccumulator) (task : TransferTask) :
    result RecoveryError RecoveryCertificationAccumulator :=
  r ← ok_or (index !! task_index task) (Incomplete "missing task");
  observe task acc r.

Definition certify_recovery (plan : RecoveryPlan) (sha : string) (results : list TransferResult) :
    result RecoveryError RecoveryCertificate :=
  _ ← validate_plan plan;
  _ ← fail_if (negb (valid_sha256 sha) || negb (length results =? length (tasks plan))%nat)
              (Incomplete "result cardinality does not match the plan");
  _ ← fail_if (negb (size (by_index results) =? length results)%nat) (Incomplete "duplicate task result");
  acc ← accumulator_new plan sha;
  acc ← try_fold (certify_task (by_index results)) acc (tasks plan);
  finish acc.

End Plans.

(** ** Backups and restores *)

Section Backups.
Context `{Blake3}.

Definition build_restore_certificate (plan : RecoveryPlan) (restored : Uuid) (backup_sha : string)
    (certificate : RecoveryCertificate) (certificate_sha : string) : result RecoveryError SnapshotRestoreCertificate :=
  _ ← fail_if (is_nil restored || negb (valid_sha256 backup_sha) || negb (valid_sha256 certificate_sha)
               || negb (certificate_complete certificate)
               || negb (bool_decide (certificate_operation_id certificate = operation_id plan))
               || negb (bool_decide (certificate_snapshot_id certificate = plan_snapshot_id plan))
               || bool_decide (tasks plan = [])
               || existsb (fun task => negb (bool_decide (reason task = Restore))) (tasks plan))
              (Incomplete "restore certificate requires a complete restore-only plan");
  Ok {| restore_format_version := STORAGE_RECOVERY_FORMAT_VERSION; restore_id := operation_id plan;
        backup_manifest_sha256 := backup_sha; restore_source_snapshot_id := plan_snapshot_id plan;
        restored_snapshot_id := restored; restore_storage_manifest_sha256 := storage_manifest_sha256 plan;
        recovery_certificate_sha256 := certificate_sha; catalog_imported := false;
        publication_state := "storage-verified"; restore_complete := true |}.

Definition backup_artifact (task : TransferTask) : BackupArtifact :=
  {| backup_source_key := source_object_key task; backup_object_key := destination_object_key task;
     backup_sha256 := task_sha256 task; backup_bytes := task_bytes task |}.

Definition build_backup_manifest (plan : RecoveryPlan) (certificate : RecoveryCertificate) (certificate_sha : string) :
    result RecoveryError SnapshotBackupManifest :=
  _ ← validate_plan plan;
  _ ← fail_if (negb (certificate_complete certificate)
               || negb (bool_decide (certificate_operation_id certificate = operation_id plan))
               || negb (bool_decide (certificate_snapshot_id certificate = plan_snapshot_id plan))
               || negb (verified_task_count certificate =? default (U32_LIMIT - 1) (u32_of_len (length (tasks plan))))
               || negb (valid_sha256 certificate_sha) || bool_decide (tasks plan = [])
               || existsb (fun task => negb (bool_decide (reason task = Backup))) (tasks plan))
              (Incomplete "backup requires one complete certified backup plan");
  let destinations : gset string := list_to_set (destination_target <$> tasks plan) in
  _ ← fail_if (negb (size destinations =? 1)%nat)
              (InvalidContract "one backup manifest must have exactly one destination target");
  let artifacts := backup_artifact <$> tasks plan in
  total ← try_fold (fun total artifact => ok_or (checked_add U64_LIMIT total (backup_bytes artifact))
                      (InvalidContract "backup byte total overflow")) 0 artifacts;
  destination ← ok_or (head (sorted_elements destinations)) (Incomplete "backup destination is absent");
  Ok {| backup_format_version := STORAGE_RECOVERY_FORMAT_VERSION; backup_id := operation_id plan;
        backup_tenant_id := plan_tenant_id plan; backup_dataset_id := plan_dataset_id plan;
        source_snapshot_id := plan_snapshot_id plan; source_storage_manifest_sha256 := storage_manifest_sha256 plan;
        backup_certificate_sha256 := certificate_sha; backup_destination := destination;
        backup_artifacts := artifacts; total_bytes := total; backup_complete := true |}.

(** The loop of [validate_backup_manifest]: the last identity and the sum. *)
Definition validate_backup_artifact (state : option (string * string) * N) (artifact : BackupArtifact) :
    result RecoveryError (option (string * string) * N) :=
  _ ← fail_if (negb (valid_object_key (backup_source_key artifact)) || negb (valid_object_key (backup_object_key artifact))
               || negb (valid_sha256 (backup_sha256 artifact)))
              (InvalidContract "backup artifact is invalid");
  let identity := (backup_source_key artifact, backup_object_key artifact) in
  _ ← fail_if (match state.1 with Some prior => bool_decide (rle identity prior) | None => false end)
              (InvalidContract "backup artifacts must be sorted and duplicate-free");
  sum ← ok_or (checked_add U64_LIMIT state.2 (backup_bytes artifact)) (InvalidContract "backup bytes overflow");
  Ok (Some identity, sum).

Definition validate_backup_manifest (backup : SnapshotBackupManifest) : result RecoveryError unit :=
  _ ← fail_if (negb (backup_format_version backup =? STORAGE_RECOVERY_FORMAT_VERSION) || is_nil (backup_id backup)
               || is_nil (backup_tenant_id backup) || is_nil (backup_dataset_id backup)
               || is_nil (source_snapshot_id backup) || negb (valid_sha256 (source_storage_manifest_sha256 backup))
               || negb (valid_sha256 (backup_certificate_sha256 backup))
               || bool_decide (backup_destination backup = ""%string) || bool_decide (backup_artifacts backup = [])
               || negb (backup_complete backup))
              (InvalidContract "backup manifest header is invalid");
  state ← try_fold validate_backup_artifact (None, 0) (backup_artifacts backup);
  _ ← fail_if (negb (state.2 =? total_bytes backup)) (InvalidContract "backup byte total mismatch");
  Ok tt.

Definition restore_key (restored operation : Uuid) (source_key : string) : string :=
  "restores/" +:+ simple restored +:+ "/" +:+ simple operation +:+ "/" +:+ source_key.

Definition restore_task (operation restored : Uuid) (backup_target destination : string) (tasks : list TransferTask)
    (artifact : BackupArtifact) : result RecoveryError (list TransferTask) :=
  index ← ok_or (u32_of_len (length tasks)) (InvalidContract "restore task count exceeds u32");
  let snapshot_artifact := {| object_key := backup_object_key artifact; artifact_sha256 := backup_sha256 artifact;
                              artifact_bytes := backup_bytes artifact |} in
  let key := restore_key restored operation (backup_source_key artifact) in
  Ok (tasks ++ [{| task_index := index;
                   stable_work_id := stable_work_id_of operation index backup_target destination snapshot_artifact key Restore;
                   reason := Restore; source_target := backup_target; destination_target := destination;
                   source_object_key := backup_object_key artifact; destination_object_key := key;
                   task_sha256 := backup_sha256 artifact; task_bytes := backup_bytes artifact |}]).

Definition build_restore_plan (operation restored : Uuid) (backup : SnapshotBackupManifest) (backup_sha destination : string)
    (targets : list StorageTarget) (max_bytes : N) : result RecoveryError RecoveryPlan :=
  _ ← validate_backup_manifest backup;
  _ ← validate_targets targets;
  _ ← fail_if (is_nil operation || is_nil restored || negb (valid_sha256 backup_sha) || (max_bytes =? 0)
               || bool_decide (backup_destination backup = destination)
               || negb (existsb (fun t => bool_decide (target_name t = destination) && writable t) targets)
               || negb (existsb (fun t => bool_decide (target_name t = backup_destination backup)) targets))
              (InvalidContract "restore request is invalid");
  tasks ← try_fold (restore_task operation restored (backup_destination backup) destination) [] (backup_artifacts backup);
  Ok {| plan_format_version := STORAGE_RECOVERY_FORMAT_VERSION; operation_id := operation;
        plan_tenant_id := backup_tenant_id backup; plan_dataset_id := backup_dataset_id backup;
        plan_snapshot_id := source_snapshot_id backup; storage_manifest_sha256 := backup_sha;
        replication_factor := 1; max_in_flight_bytes := max_bytes; tasks := tasks |}.

(** [Uuid::new_v5(namespace, name)]. *)
Context (new_v5 : Uuid -> list byte -> Uuid).

Definition derive_operation_id (tenant dataset : Uuid) (idempotency_key request_sha256 : string) : Uuid :=
  new_v5 dataset (as_bytes "ngkg-storage-recovery-operation-v1" ++ [x00] ++ tenant ++ dataset
    ++ as_bytes idempotency_key ++ as_bytes request_sha256).

End Backups.

(** ** Placement: lemmas *)

Lemma validate_target_ok names t names' : validate_target names t = Ok names' ->
  (target_name t ∉ names) /\ names' = {[ target_name t ]} ∪ names.
Proof. intros Hv. unfold validate_target in Hv. inv_steps. bool_prop. by subst. Qed.

(** The part of the check that concerns one target alone. *)
Definition target_ok (t : StorageTarget) : bool := is_ok (validate_target ∅ t).

Lemma validate_target_spec names t :
  validate_target names t =
    if target_ok t && bool_decide (target_name t ∉ names) then Ok ({[ target_name t ]} ∪ names)
    else Err (InvalidContract "storage target registry is invalid").
Proof.
  unfold target_ok, validate_target.
  rewrite (bool_decide_eq_false_2 (target_name t ∈ ∅)) by set_solver. rewrite orb_false_r.
  match goal with |- context [fail_if (?c || bool_decide (_ ∈ names))] => destruct c end; cbn; [done|].
  repeat case_bool_decide; by try set_solver.
Qed.

Lemma validate_targets_from targets : forall names,
  is_ok (try_fold validate_target names targets) = true <->
  Forall (fun t => target_ok t = true) targets /\ NoDup (target_name <$> targets) /\
  Forall (fun t => target_name t ∉ names) targets.
Proof.
  induction targets as [|t targets IH]; intros names; cbn [try_fold].
  { split; [|done]. intros _. split_and!; constructor. }
  rewrite validate_target_spec, fmap_cons, NoDup_cons, !Forall_cons.
  destruct (target_ok t) eqn:Ht; cbn [andb]; [|cbn; naive_solver]. case_bool_decide as Hn; cbn; [|naive_solver].
  rewrite IH, !Forall_forall, list_elem_of_fmap. split.
  - intros (Hok & Hnd & Hfresh). split_and!; try done; [|intros; set_solver].
    intros (t' & E & Hin). specialize (Hfresh t' Hin). rewrite <- E in Hfresh. set_solver.
  - intros ([_ Hok] & [Hni Hnd] & [_ Hfresh]). split_and!; try done. intros t' Hin [Hx|Hx]%elem_of_union.
    + apply elem_of_singleton in Hx. apply Hni. by exists t'.
    + by apply (Hfresh t').
Qed.

Lemma validate_targets_ok targets :
  validate_targets targets = Ok tt <-> Forall (fun t => target_ok t = true) targets /\ NoDup (target_name <$> targets).
Proof.
  unfold validate_targets. rewrite result_bind_ok. transitivity (is_ok (try_fold validate_target ∅ targets) = true).
  { rewrite is_ok_true. naive_solver. }
  rewrite validate_targets_from. split; [naive_solver|]. intros [? ?]. split_and!; try done.
  apply Forall_forall. set_solver.
Qed.

Lemma validate_target_err names t e : validate_target names t = Err e -> e = InvalidContract "storage target registry is invalid".
Proof. rewrite validate_target_spec. destruct (_ && _); congruence. Qed.

Lemma validate_targets_err targets e : validate_targets targets = Err e -> e = InvalidContract "storage target registry is invalid".
Proof.
  unfold validate_targets. rewrite result_bind_err. intros [Hf|(? & _ & [=])]. revert Hf. generalize (∅ : gset string).
  induction targets as [|t targets IH]; intros names; cbn; [done|]. rewrite result_bind_err.
  intros [Hf%validate_target_err|(names' & _ & Hf)]; eauto.
Qed.

Lemma validate_targets_perm targets targets' : targets ≡ₚ targets' -> validate_targets targets = validate_targets targets'.
Proof.
  intros Hp. assert (validate_targets targets = Ok tt <-> validate_targets targets' = Ok tt) as Hiff
    by (by rewrite !validate_targets_ok, Hp).
  destruct (validate_targets targets) as [[]|e] eqn:H1, (validate_targets targets') as [[]|e'] eqn:H2; try naive_solver.
  apply validate_targets_err in H1, H2. congruence.
Qed.

(** The targets behind [first_of_domains]. *)
Fixpoint chosen (domains : gset string) (targets : list StorageTarget) : list StorageTarget :=
  match targets with
  | [] => []
  | t :: targets =>
      if bool_decide (failure_domain t ∈ domains) then chosen domains targets
      else t :: chosen ({[ failure_domain t ]} ∪ domains) targets
  end.

Lemma first_of_domains_chosen targets : forall domains, first_of_domains domains targets = target_name <$> chosen domains targets.
Proof. induction targets as [|t targets IH]; intros domains; cbn; [done|]. case_bool_decide; cbn; by rewrite IH. Qed.

Lemma chosen_sublist targets : forall domains, sublist (chosen domains targets) targets.
Proof. induction targets as [|t targets IH]; intros domains; cbn; [done|]. case_bool_decide; by constructor. Qed.

Lemma chosen_domains targets : forall domains,
  NoDup (failure_domain <$> chosen domains targets) /\
  list_to_set (failure_domain <$> chosen domains targets) = (list_to_set (failure_domain <$> targets) ∖ domains : gset string).
Proof.
  induction targets as [|t targets IH]; intros domains; cbn; [split; [constructor|set_solver]|].
  case_bool_decide as Ht; [destruct (IH domains) as [? E]; split; [done|]; rewrite E; set_solver|].
  destruct (IH ({[failure_domain t]} ∪ domains)) as [Hnd E]. cbn. split.
  2: { rewrite E. clear -Ht. apply set_eq. intros x. rewrite elem_of_union, !elem_of_difference, !elem_of_union, elem_of_singleton.
       destruct (decide (x = failure_domain t)) as [->|]; naive_solver. }
  constructor; [|done]. intros Hin. apply (elem_of_list_to_set (C:=gset string)) in Hin. rewrite E in Hin. set_solver.
Qed.

Lemma length_chosen targets : length (chosen ∅ targets) = size (list_to_set (failure_domain <$> targets) : gset string).
Proof.
  destruct (chosen_domains targets ∅) as [Hnd E]. rewrite difference_empty_L in E. rewrite <- E.
  rewrite size_list_to_set by done. by rewrite length_fmap.
Qed.

(** Dropping a target that is not among the first [k] chosen changes nothing. *)
Lemma take_chosen_drop a t b : forall domains k, t ∉ take k (chosen domains (a ++ t :: b)) ->
  take k (chosen domains (a ++ t :: b)) = take k (chosen domains (a ++ b)).
Proof.
  induction a as [|x a IH]; intros domains k Ht; cbn in *.
  - case_bool_decide; [done|]. destruct k; [done|]. cbn in Ht. set_solver.
  - case_bool_decide; [auto|]. destruct k; [done|]. cbn in *. f_equal. apply IH. set_solver.
Qed.

Section PlacementLemmas.
Context `{Sha256} (snapshot : Uuid) (sha : string).

Lemma scored_perm targets : scored snapshot sha targets ≡ₚ writable_targets targets.
Proof. apply sort_by_key_perm. Qed.

Lemma NoDup_keys targets : NoDup (target_name <$> targets) -> NoDup (rendezvous_key snapshot sha <$> writable_targets targets).
Proof.
  intros Hnd. apply (NoDup_fmap_1 snd). rewrite <- list_fmap_compose. change (snd ∘ rendezvous_key snapshot sha) with target_name.
  eapply sublist_NoDup; [done|]. apply fmap_sublist, sublist_filter.
Qed.

Lemma scored_order targets targets' : NoDup (target_name <$> targets) -> targets ≡ₚ targets' ->
  scored snapshot sha targets = scored snapshot sha targets'.
Proof.
  intros Hnd Hp. unfold scored. apply sort_by_key_unique; [apply _|by apply NoDup_keys| |apply sort_by_key_sorted].
  rewrite sort_by_key_perm. unfold writable_targets. by rewrite Hp.
Qed.

Lemma scored_drop l1 t l2 : NoDup (target_name <$> (l1 ++ t :: l2)) -> writable t = true ->
  exists a b, scored snapshot sha (l1 ++ t :: l2) = a ++ t :: b /\ scored snapshot sha (l1 ++ l2) = a ++ b.
Proof.
  intros Hnd Hw. assert (t ∈ scored snapshot sha (l1 ++ t :: l2)) as Hin.
  { rewrite scored_perm. apply list_elem_of_filter. set_solver. }
  apply list_elem_of_split in Hin as (a & b & E). exists a, b. split; [done|]. unfold scored. apply sort_by_key_unique; [apply _|..].
  - apply NoDup_keys. rewrite fmap_app in *. cbn in Hnd. apply NoDup_app in Hnd as (? & ? & [? ?]%NoDup_cons).
    apply NoDup_app. set_solver.
  - assert (a ++ t :: b ≡ₚ writable_targets (l1 ++ t :: l2)) as Hp by (rewrite <- E; apply scored_perm).
    unfold writable_targets in *. rewrite filter_app in Hp |- *. rewrite filter_cons_True in Hp by done.
    symmetry. apply (Permutation_cons_inv (a:=t)). by rewrite !Permutation_middle.
  - pose proof (sort_by_key_sorted (rendezvous_key snapshot sha) (writable_targets (l1 ++ t :: l2))) as Hs.
    change (StronglySorted (key_le (rendezvous_key snapshot sha)) (scored snapshot sha (l1 ++ t :: l2))) in Hs.
    rewrite E in Hs. revert Hs. clear. induction a as [|x a IH]; cbn; intros Hs; [by apply StronglySorted_inv in Hs as [? _]|].
    apply StronglySorted_inv in Hs as [Hs Hx]. constructor; [auto|]. rewrite Forall_app, Forall_cons in Hx.
    apply Forall_app. naive_solver.
Qed.

End PlacementLemmas.

Lemma select_spec `{Sha256} snapshot artifact targets factor names :
  select_replica_targets snapshot artifact targets factor = Ok names <->
  validate_artifact artifact = Ok tt /\ 0 < factor /\ validate_targets targets = Ok tt /\
  factor <= N.of_nat (size (writable_domains targets)) /\
  names = target_name <$> take (N.to_nat factor) (chosen ∅ (scored snapshot (artifact_sha256 artifact) targets)).
Proof.
  assert (length (chosen ∅ (scored snapshot (artifact_sha256 artifact) targets)) = size (writable_domains targets)) as Hlen.
  { rewrite length_chosen. unfold writable_domains. f_equal. apply set_eq. intros x. by rewrite scored_perm. }
  unfold select_replica_targets. destruct (validate_artifact artifact) as [[]|]; [|cbn; naive_solver]. cbn.
  rewrite fail_then, N.eqb_neq. destruct (validate_targets targets) as [[]|]; [|cbn; naive_solver]. cbn.
  rewrite fail_then, N.ltb_ge, fail_then, negb_false_iff, N.eqb_eq, first_of_domains_chosen, <- fmap_take, length_fmap.
  rewrite length_take, Hlen. split.
  - intros (? & ? & ? & [= <-]). split_and!; [done|lia|done|lia|done].
  - intros (_ & ? & _ & ? & ->). split_and!; [lia|lia|lia|done].
Qed.

(** ** Keys *)

Lemma valid_object_key_spec value :
  valid_object_key value = true <->
  as_bytes value <> [] /\ (length (as_bytes value) <= 1024)%nat /\
  head (as_bytes value) <> Some SLASH /\ last (as_bytes value) <> Some SLASH /\ (BACKSLASH ∉ as_bytes value) /\
  Forall (fun segment => valid_segment segment = true) (split_on SLASH (as_bytes value)).
Proof.
  unfold valid_object_key. rewrite !andb_true_iff, !negb_true_iff, !bool_decide_eq_false, Nat.leb_le, Forall_forall, forallb_forall.
  setoid_rewrite <- list_elem_of_In. tauto.
Qed.

Lemma valid_key_join p k :
  valid_object_key p = true -> valid_object_key k = true -> (length (as_bytes p) + length (as_bytes k) < 1024)%nat ->
  valid_object_key (p +:+ "/" +:+ k) = true.
Proof.
  rewrite !valid_object_key_spec, !as_bytes_app. change (as_bytes "/") with [SLASH].
  intros (Hp & _ & Hph & _ & Hpb & Hps) (Hk & _ & _ & Hkl & Hkb & Hks) Hlen. cbn [app] in *.
  split_and!; [by destruct (as_bytes p)|rewrite length_app; cbn; lia|by destruct (as_bytes p)| | |].
  - rewrite last_app, last_cons. destruct (last (as_bytes k)) eqn:E; [done|]. by apply last_None in E.
  - rewrite not_elem_of_app, not_elem_of_cons. by split_and!.
  - rewrite split_on_app, Forall_app. done.
Qed.

Definition key_byte (b : byte) : bool := is_ascii_alphanumeric b || key_punctuation b.

Lemma key_byte_plain l b : forallb key_byte l = true -> key_byte b = false -> b ∉ l.
Proof. intros Hl Hb Hin. rewrite forallb_forall in Hl. apply list_elem_of_In, Hl in Hin. congruence. Qed.

Lemma valid_key_segment s : valid_segment (as_bytes s) = true -> valid_object_key s = true.
Proof.
  intros Hs. pose proof Hs as Hs'. unfold valid_segment in Hs'. bool_prop.
  assert (SLASH ∉ as_bytes s) as Hsl by (by eapply key_byte_plain). apply valid_object_key_spec.
  split_and!; [done|lia| | |by eapply key_byte_plain|rewrite split_plain by done; by constructor].
  - intros Hh. apply Hsl. destruct (as_bytes s); [done|]. injection Hh as ->. left.
  - intros Hl. apply Hsl. by apply last_Some_elem_of in Hl.
Qed.

Lemma hex_key_byte b : lower_hex_byte b = true -> key_byte b = true.
Proof. destruct b; vm_compute; congruence. Qed.

Lemma valid_hex_segment s : forallb lower_hex_byte (as_bytes s) = true -> (0 < length (as_bytes s) <= 255)%nat ->
  valid_object_key s = true.
Proof.
  intros Hs Hlen. apply valid_key_segment. unfold valid_segment. rewrite !andb_true_iff, !negb_true_iff, !bool_decide_eq_false.
  split_and!.
  - intros E. rewrite E in Hlen. cbn in Hlen. lia.
  - intros E. by rewrite E in Hs.
  - intros E. by rewrite E in Hs.
  - apply Nat.leb_le. lia.
  - rewrite forallb_forall in *. intros b Hb. by apply hex_key_byte, Hs.
Qed.

Lemma as_bytes_of_list l : as_bytes (String.string_of_list_byte l) = l.
Proof. apply String.list_byte_of_string_of_list_byte. Qed.

Lemma valid_file_component key : valid_object_key key = true ->
  valid_object_key (file_component key) = true /\ (length (as_bytes (file_component key)) <= 255)%nat.
Proof.
  intros (_ & _ & _ & _ & _ & Hs)%valid_object_key_spec. unfold file_component.
  destruct (last _) as [name|] eqn:E; [|apply last_None in E; by apply split_on_nonempty in E].
  apply last_Some_elem_of in E. rewrite Forall_forall in Hs. apply Hs in E.
  split; [by apply valid_key_segment; rewrite as_bytes_of_list|]. rewrite as_bytes_of_list. unfold valid_segment in E. bool_prop. lia.
Qed.

Lemma valid_sha256_bytes sha : valid_sha256 sha = true ->
  forallb lower_hex_byte (as_bytes sha) = true /\ length (as_bytes sha) = 64%nat.
Proof. unfold valid_sha256, lower_hex_sha256. intros H. bool_prop. by rewrite length_as_bytes. Qed.

Lemma length_simple id : length (as_bytes (simple id)) = (2 * length id)%nat.
Proof. apply length_hex_encode. Qed.

Lemma valid_simple id : length id = 16%nat -> valid_object_key (simple id) = true.
Proof. intros Hid. apply valid_hex_segment; [apply hex_encode_digits|]. rewrite length_simple. lia. Qed.

Lemma forallb_take {A} (f : A -> bool) n l : forallb f l = true -> forallb f (take n l) = true.
Proof. revert n. induction l as [|x l IH]; intros [|n]; cbn; [done..|]. rewrite !andb_true_iff. naive_solver. Qed.

(** One more segment in front of a key. *)
Ltac join_key := apply valid_key_join; rewrite ?as_bytes_app, ?length_app; cbn [length app].

Lemma valid_replica_key operation artifact : length operation = 16%nat -> validate_artifact artifact = Ok tt ->
  valid_object_key (replica_key operation artifact) = true.
Proof.
  intros Hop Ha. unfold validate_artifact in Ha. apply fail_if_ok in Ha. bool_prop.
  destruct (valid_sha256_bytes (artifact_sha256 artifact)) as [Hhex Hlen]; [done|].
  destruct (valid_file_component (object_key artifact)) as [Hfile Hfl]; [done|].
  pose proof (length_simple operation) as Hsl. rewrite Hop in Hsl.
  assert (length (as_bytes (str_take 2 (artifact_sha256 artifact))) = 2%nat) as Hl2.
  { unfold str_take. rewrite as_bytes_of_list, length_take, Hlen. lia. }
  assert (length (as_bytes "/") = 1%nat) as Hl1 by done.
  assert (valid_object_key (simple operation +:+ "/" +:+ file_component (object_key artifact)) = true) as H1.
  { join_key; [by apply valid_simple|done|lia]. }
  assert (valid_object_key (artifact_sha256 artifact +:+ "/" +:+ simple operation +:+ "/" +:+ file_component (object_key artifact))
    = true) as H2.
  { join_key; [apply valid_hex_segment; [done|lia]|done|lia]. }
  assert (valid_object_key (str_take 2 (artifact_sha256 artifact) +:+ "/" +:+ artifact_sha256 artifact +:+ "/"
    +:+ simple operation +:+ "/" +:+ file_component (object_key artifact)) = true) as H3.
  { join_key; [|done|lia]. apply valid_hex_segment; [|lia]. unfold str_take. rewrite as_bytes_of_list. by apply forallb_take. }
  unfold replica_key.
  match goal with |- valid_object_key ("replicas/sha256/" +:+ ?k) = true =>
    change (valid_object_key ("replicas" +:+ "/" +:+ "sha256" +:+ "/" +:+ k) = true); set (rest := k) in * end.
  assert (length (as_bytes rest) <= 400)%nat as Hrest by (subst rest; rewrite !as_bytes_app, !length_app; lia).
  assert (valid_object_key ("sha256" +:+ "/" +:+ rest) = true) as H4.
  { apply valid_key_join; [by vm_compute|done|]. change (length (as_bytes "sha256")) with 6%nat. lia. }
  apply valid_key_join; [by vm_compute|done|]. rewrite !as_bytes_app, !length_app.
  change (length (as_bytes "replicas")) with 8%nat. change (length (as_bytes "sha256")) with 6%nat. lia.
Qed.

Lemma valid_restore_key restored operation key : length restored = 16%nat -> length operation = 16%nat ->
  valid_object_key key = true ->
  valid_object_key (restore_key restored operation key) = (length (as_bytes key) <=? 949)%nat.
Proof.
  intros Hr Hop Hkey. pose proof (length_simple operation) as Hsl. pose proof (length_simple restored) as Hsr.
  rewrite Hop in Hsl. rewrite Hr in Hsr. unfold restore_key.
  match goal with |- valid_object_key ("restores/" +:+ ?k) = _ =>
    change ("restores/" +:+ k)%string with ("restores" +:+ "/" +:+ k)%string end.
  assert (length (as_bytes "/") = 1%nat) as Hl1 by done. assert (length (as_bytes "restores") = 8%nat) as Hl8 by done.
  destruct (Nat.leb_spec (length (as_bytes key)) 949) as [Hle|Hgt].
  - apply valid_key_join; [by vm_compute| |rewrite !as_bytes_app, !length_app; lia].
    apply valid_key_join; [by apply valid_simple| |rewrite !as_bytes_app, !length_app; lia].
    apply valid_key_join; [by apply valid_simple|done|lia].
  - apply not_true_iff_false. intros (_ & Hlen & _)%valid_object_key_spec. rewrite !as_bytes_app, !length_app in Hlen. lia.
Qed.

(** ** Plans: lemmas *)

Section PlanLemmas.
Context `{Sha256} `{Blake3}.

Lemma valid_work_id_of operation index source destination artifact key why :
  valid_work_id (stable_work_id_of operation index source destination artifact key why) = true.
Proof.
  unfold stable_work_id_of, valid_work_id. rewrite as_bytes_app, length_app, length_hex_encode, blake3_length.
  change (length (as_bytes "blake3:")) with 7%nat. rewrite !andb_true_iff. split_and!; [done| |].
  - apply bool_decide_eq_true. eexists. by apply strip_prefix_some.
  - rewrite drop_app_length'; [apply hex_encode_digits|done].
Qed.

(** What [validate_plan] asks of the task at an index. *)
Definition task_valid (plan : RecoveryPlan) (index : nat) (task : TransferTask) : Prop :=
  validate_task task = Ok tt /\ task_index task = N.of_nat index /\ task_bytes task <= max_in_flight_bytes plan /\
  stable_work_id task = stable_work_id_of (operation_id plan) (task_index task) (source_target task) (destination_target task)
    (task_artifact task) (destination_object_key task) (reason task).

Lemma validate_plan_task_ok plan index task next :
  validate_plan_task plan index task = Ok next <-> task_valid plan index task /\ next = S index.
Proof.
  unfold validate_plan_task, task_valid. destruct (validate_task task) as [[]|]; [|cbn; naive_solver]. cbn.
  rewrite fail_then, !orb_false_iff, !negb_false_iff, bool_decide_eq_true, N.eqb_eq, N.ltb_ge. naive_solver.
Qed.

Lemma validate_tasks_from plan ts : forall index,
  is_ok (try_fold (validate_plan_task plan) index ts) = true <->
  forall i t, ts !! i = Some t -> task_valid plan (index + i) t.
Proof.
  induction ts as [|t ts IH]; intros index; cbn [try_fold]; [split; [by intros _ i t|done]|].
  rewrite is_ok_true. setoid_rewrite result_bind_ok. setoid_rewrite validate_plan_task_ok. split.
  - intros (r & next & [Ht ->] & Hr) [|i] t' Hi; cbn in Hi; [injection Hi as <-; by rewrite Nat.add_0_r|].
    rewrite <- Nat.add_succ_comm. apply (IH (S index)); [|done]. rewrite Hr. done.
  - intros Hall. assert (is_ok (try_fold (validate_plan_task plan) (S index) ts) = true) as [r Hr]%is_ok_true.
    { apply IH. intros i t' Hi. rewrite Nat.add_succ_comm. by apply Hall. }
    exists r, (S index). split_and!; [|done..]. specialize (Hall 0%nat t eq_refl). by rewrite Nat.add_0_r in Hall.
Qed.

Definition header_valid (plan : RecoveryPlan) : Prop :=
  plan_format_version plan = STORAGE_RECOVERY_FORMAT_VERSION /\ is_nil (operation_id plan) = false /\
  is_nil (plan_tenant_id plan) = false /\ is_nil (plan_dataset_id plan) = false /\ is_nil (plan_snapshot_id plan) = false /\
  valid_sha256 (storage_manifest_sha256 plan) = true /\ replication_factor plan <> 0 /\ max_in_flight_bytes plan <> 0.

Lemma validate_plan_ok plan :
  validate_plan plan = Ok tt <-> header_valid plan /\ forall i t, tasks plan !! i = Some t -> task_valid plan i t.
Proof.
  unfold validate_plan, header_valid. rewrite fail_then, !orb_false_iff, !negb_false_iff, !N.eqb_eq, !N.eqb_neq.
  assert ((_ ← try_fold (validate_plan_task plan) 0%nat (tasks plan); Ok tt) = Ok tt <->
    is_ok (try_fold (validate_plan_task plan) 0%nat (tasks plan)) = true) as ->
    by (destruct (try_fold _ _ _); cbn; naive_solver).
  rewrite validate_tasks_from. cbn. tauto.
Qed.

(** A replica still to be made: not where the source is, not verified already. *)
Definition needed (source : string) (existing : gmap string (gset string)) (artifact : SnapshotArtifact) (destination : string) : Prop :=
  destination <> source /\ destination ∉ default ∅ (existing !! artifact_sha256 artifact).

Global Instance needed_dec source existing artifact destination : Decision (needed source existing artifact destination).
Proof. unfold needed. apply _. Defined.

Definition placement (snapshot : Uuid) (targets : list StorageTarget) (factor : N) (artifact : SnapshotArtifact) : list string :=
  match select_replica_targets snapshot artifact targets factor with Ok names => names | Err _ => [] end.

Definition missing_replicas (snapshot : Uuid) (source : string) (targets : list StorageTarget)
    (existing : gmap string (gset string)) (factor : N) (artifacts : list SnapshotArtifact) : list (SnapshotArtifact * string) :=
  artifacts ≫= fun a => pair a <$> filter (needed source existing a) (placement snapshot targets factor a).

Definition replica_task (operation : Uuid) (source : string) (why : TransferReason) (index : nat)
    (m : SnapshotArtifact * string) : TransferTask :=
  {| task_index := N.of_nat index;
     stable_work_id := stable_work_id_of operation (N.of_nat index) source m.2 m.1 (replica_key operation m.1) why;
     reason := why; source_target := source; destination_target := m.2; source_object_key := object_key m.1;
     destination_object_key := replica_key operation m.1; task_sha256 := artifact_sha256 m.1;
     task_bytes := artifact_bytes m.1 |}.

Section Enlist.
Context (operation : Uuid) (source : string) (why : TransferReason).

Definition enlist (base : nat) (ms : list (SnapshotArtifact * string)) : list TransferTask :=
  imap (fun i => replica_task operation source why (base + i)) ms.

Lemma enlist_cons base m ms : enlist base (m :: ms) = replica_task operation source why base m :: enlist (S base) ms.
Proof. unfold enlist. cbn. rewrite Nat.add_0_r. f_equal. apply imap_ext. intros i x _. cbn. by rewrite Nat.add_succ_r. Qed.

Lemma length_enlist base ms : length (enlist base ms) = length ms.
Proof. apply length_imap. Qed.

Lemma enlist_app base ms ms' : enlist base (ms ++ ms') = enlist base ms ++ enlist (base + length ms) ms'.
Proof.
  revert base. induction ms as [|m ms IH]; intros base; cbn [app length]; [by rewrite Nat.add_0_r|].
  by rewrite !enlist_cons, IH, Nat.add_succ_comm.
Qed.

Definition room (base : nat) (ms : list (SnapshotArtifact * string)) : Prop := N.of_nat (base + length ms) <= U32_LIMIT.

Lemma plan_destination_skip existing artifact ts d : ~ needed source existing artifact d ->
  plan_destination operation source (existing !! artifact_sha256 artifact) why artifact ts d = Ok ts.
Proof.
  unfold needed, plan_destination. intros Hn. destruct (decide (d = source)) as [->|Hd]; [by rewrite bool_decide_eq_true_2|].
  rewrite (bool_decide_eq_false_2 (d = source)) by done.
  destruct (existing !! artifact_sha256 artifact) as [names|]; cbn in *; [|naive_solver set_solver].
  rewrite bool_decide_eq_true_2; [done|]. destruct (decide (d ∈ names)); [done|]. by destruct Hn.
Qed.

Lemma plan_destination_add existing artifact ts d : needed source existing artifact d ->
  plan_destination operation source (existing !! artifact_sha256 artifact) why artifact ts d =
  if fits U32_LIMIT (N.of_nat (length ts)) then Ok (ts ++ enlist (length ts) [(artifact, d)])
  else Err (InvalidContract "task count exceeds u32").
Proof.
  unfold needed, plan_destination. intros [Hd Hn]. rewrite (bool_decide_eq_false_2 (d = source)) by done.
  assert (match existing !! artifact_sha256 artifact with Some names => bool_decide (d ∈ names) | None => false end = false) as ->.
  { destruct (existing !! artifact_sha256 artifact); cbn in *; [|done]. by rewrite bool_decide_eq_false_2. }
  cbn [orb]. unfold u32_of_len. destruct (fits _ _); [|done]. cbn. unfold replica_task. cbn. by rewrite Nat.add_0_r.
Qed.

Lemma plan_destinations_ok existing artifact ds : forall ts ts', N.of_nat (length ts) <= U32_LIMIT ->
  let ms := pair artifact <$> filter (needed source existing artifact) ds in
  try_fold (plan_destination operation source (existing !! artifact_sha256 artifact) why artifact) ts ds = Ok ts' <->
  room (length ts) ms /\ ts' = ts ++ enlist (length ts) ms.
Proof.
  unfold room. induction ds as [|d ds IH]; intros ts ts' Hts; cbn [try_fold].
  { cbn. rewrite app_nil_r, Nat.add_0_r. naive_solver. }
  rewrite filter_cons. destruct (decide (needed source existing artifact d)) as [Hd|Hd].
  2: { rewrite plan_destination_skip by done. by apply IH. }
  rewrite plan_destination_add by done. unfold fits. rewrite fmap_cons. cbn [length].
  destruct (N.ltb_spec (N.of_nat (length ts)) U32_LIMIT) as [Hlt|Hge]; cbn [mbind result_bind].
  2: { split; [done|]. intros [? _]. lia. }
  rewrite IH by (rewrite length_app, length_enlist; cbn; lia). rewrite length_app, length_enlist, <- app_assoc. cbn [length].
  rewrite (enlist_cons _ (artifact, d)). rewrite enlist_cons. cbn [enlist imap app]. rewrite Nat.add_1_r.
  split; intros [? ->]; (split; [lia|done]).
Qed.

Lemma plan_artifacts_ok snapshot targets existing factor artifacts : forall ts ts', N.of_nat (length ts) <= U32_LIMIT ->
  let ms := missing_replicas snapshot source targets existing factor artifacts in
  try_fold (plan_artifact operation snapshot source targets existing factor why) ts artifacts = Ok ts' <->
  Forall (fun a => is_ok (select_replica_targets snapshot a targets factor) = true) artifacts /\
  room (length ts) ms /\ ts' = ts ++ enlist (length ts) ms.
Proof.
  unfold room. induction artifacts as [|a artifacts IH]; intros ts ts' Hts; cbn [try_fold missing_replicas mbind list_bind].
  { cbn. rewrite app_nil_r, Nat.add_0_r. naive_solver. }
  fold (missing_replicas snapshot source targets existing factor artifacts). 
  assert (plan_artifact operation snapshot source targets existing factor why ts a =
    (selected ← select_replica_targets snapshot a targets factor;
     try_fold (plan_destination operation source (existing !! artifact_sha256 a) why a) ts selected)) as -> by done.
  unfold placement.
  rewrite Forall_cons. destruct (select_replica_targets snapshot a targets factor) as [names|e]; 
    cbn [is_ok mbind result_bind]; [|split; [intros Hf; discriminate Hf|intros [[Hf _] _]; discriminate Hf]].
  cbn [mbind result_bind]. set (ms := pair a <$> _). rewrite length_app, enlist_app.
  destruct (try_fold (plan_destination _ _ _ _ _) ts names) as [ts1|e] eqn:E.
  - apply plan_destinations_ok in E as [Hroom ->]; [|done]. fold ms in Hroom |- *. cbn. unfold room in Hroom.
    rewrite IH by (rewrite length_app, length_enlist; lia). rewrite length_app, length_enlist, <- app_assoc.
    rewrite Nat.add_assoc. naive_solver.
  - cbn. split; [done|]. intros (_ & Hroom & _). exfalso.
    assert (try_fold (plan_destination operation source (existing !! artifact_sha256 a) why a) ts names
      = Ok (ts ++ enlist (length ts) ms)) as E' by (apply plan_destinations_ok; [done|]; split; [unfold room; fold ms; lia|done]).
    congruence.
Qed.

End Enlist.

Lemma build_plan_ok operation manifest manifest_sha256 source targets existing factor max_bytes why plan :
  build_recovery_plan operation manifest manifest_sha256 source targets existing factor max_bytes why = Ok plan ->
  validate_storage_manifest manifest = Ok tt /\ validate_targets targets = Ok tt /\ is_nil operation = false /\
  valid_sha256 manifest_sha256 = true /\ max_bytes <> 0 /\ source ∈ target_name <$> targets /\
  (forall a, a ∈ manifest_artifacts manifest ->
     is_ok (select_replica_targets (manifest_snapshot_id manifest) a targets factor) = true) /\
  let ms := missing_replicas (manifest_snapshot_id manifest) source targets existing factor (manifest_artifacts manifest) in
  plan = {| plan_format_version := STORAGE_RECOVERY_FORMAT_VERSION; operation_id := operation;
            plan_tenant_id := manifest_tenant_id manifest; plan_dataset_id := manifest_dataset_id manifest;
            plan_snapshot_id := manifest_snapshot_id manifest; storage_manifest_sha256 := manifest_sha256;
            replication_factor := factor; max_in_flight_bytes := max_bytes; tasks := enlist operation source why 0 ms |}.
Proof.
  intros Hb. unfold build_recovery_plan in Hb. inv_steps.
  match goal with Hf : try_fold _ [] _ = Ok _ |- _ => apply plan_artifacts_ok in Hf as (Hall & _ & ->); [|done] end.
  repeat match goal with u : unit |- _ => destruct u end. bool_prop. rewrite Forall_forall in Hall. by split_and!.
Qed.

Lemma target_ok_name t : target_ok t = true -> target_name t <> ""%string.
Proof.
  unfold target_ok, validate_target. intros Ht E. rewrite E in Ht. done.
Qed.

Lemma placement_names snapshot targets factor a names : select_replica_targets snapshot a targets factor = Ok names ->
  forall d, d ∈ names -> exists t, t ∈ targets /\ writable t = true /\ target_name t = d.
Proof.
  intros (_ & _ & _ & _ & ->)%select_spec d (t & -> & Ht)%list_elem_of_fmap. exists t.
  apply elem_of_take in Ht as (i & Ht & _). apply list_elem_of_lookup_2 in Ht.
  apply (sublist_subseteq _ _ (chosen_sublist _ _)) in Ht. rewrite scored_perm in Ht.
  apply list_elem_of_filter in Ht as [? ?]. done.
Qed.

Lemma missing_replicas_spec snapshot source targets existing factor artifacts a d :
  (a, d) ∈ missing_replicas snapshot source targets existing factor artifacts <->
  a ∈ artifacts /\ needed source existing a d /\ d ∈ placement snapshot targets factor a.
Proof.
  unfold missing_replicas. rewrite list_elem_of_bind. setoid_rewrite list_elem_of_fmap. split.
  - intros (a' & (d' & [= <- <-] & [? ?]%list_elem_of_filter) & ?). done.
  - intros (? & ? & ?). exists a. split; [|done]. exists d. split; [done|]. by apply list_elem_of_filter.
Qed.

Lemma manifest_header manifest : validate_storage_manifest manifest = Ok tt ->
  is_nil (manifest_tenant_id manifest) = false /\ is_nil (manifest_dataset_id manifest) = false /\
  is_nil (manifest_snapshot_id manifest) = false /\ manifest_artifacts manifest <> [].
Proof. intros Hm. unfold validate_storage_manifest in Hm. inv_steps. bool_prop. by split_and!. Qed.

Lemma built_task_valid operation source why targets existing factor snapshot artifacts i t :
  length operation = 16%nat -> validate_targets targets = Ok tt -> source ∈ target_name <$> targets ->
  enlist operation source why 0 (missing_replicas snapshot source targets existing factor artifacts) !! i = Some t ->
  validate_task t = Ok tt /\ task_index t = N.of_nat i /\
  stable_work_id t = stable_work_id_of operation (task_index t) (source_target t) (destination_target t) (task_artifact t)
    (destination_object_key t) (reason t).
Proof.
  intros Hop [Htok _]%validate_targets_ok Hsrc Ht. rewrite Forall_forall in Htok.
  unfold enlist in Ht. apply list_lookup_imap_Some in Ht as ([a d] & Hm & ->).
  apply list_elem_of_lookup_2, missing_replicas_spec in Hm as (Ha & [Hns _] & Hd).
  unfold placement in Hd. destruct (select_replica_targets snapshot a targets factor) as [names|] eqn:Hsel; [|by apply elem_of_nil in Hd].
  destruct (placement_names _ _ _ _ _ Hsel d Hd) as (t & Htin & _ & Htn).
  apply select_spec in Hsel as (Hav & _ & _). apply list_elem_of_fmap in Hsrc as (s & -> & Hs).
  split_and!; [|done|by destruct a]. unfold validate_task. apply fail_if_ok. cbn [replica_task stable_work_id source_target
    destination_target source_object_key destination_object_key task_sha256 fst snd].
  pose proof (valid_replica_key operation a Hop Hav) as Hkey. unfold validate_artifact in Hav. apply fail_if_ok in Hav. bool_prop.
  rewrite !orb_false_iff, !negb_false_iff, !bool_decide_eq_false. split_and!; try done.
  - apply valid_work_id_of.
  - by apply target_ok_name, Htok.
  - rewrite <- Htn. by apply target_ok_name, Htok.
Qed.

Lemma built_plan_validates operation manifest manifest_sha256 source targets existing factor max_bytes why plan :
  length operation = 16%nat ->
  build_recovery_plan operation manifest manifest_sha256 source targets existing factor max_bytes why = Ok plan ->
  validate_plan plan = Ok tt <-> forall t, t ∈ tasks plan -> task_bytes t <= max_bytes.
Proof.
  intros Hop (Hman & Htg & Hnil & Hsha & Hmax & Hsrc & Hsel & ->)%build_plan_ok.
  destruct (manifest_header _ Hman) as (? & ? & ? & Hne). cbn [tasks]. rewrite validate_plan_ok. unfold header_valid.
  cbn [tasks operation_id plan_format_version plan_tenant_id plan_dataset_id plan_snapshot_id storage_manifest_sha256
    replication_factor max_in_flight_bytes].
  assert (factor <> 0).
  { destruct (manifest_artifacts manifest) as [|a l]; [done|].
    assert (is_ok (select_replica_targets (manifest_snapshot_id manifest) a targets factor) = true) as Hn by (apply Hsel; left).
    apply is_ok_true in Hn as [names Hn]. apply select_spec in Hn as (_ & ? & _). lia. }
  split.
  - intros [_ Hall] t [i Hi]%list_elem_of_lookup. by destruct (Hall i t Hi) as (_ & _ & ? & _).
  - intros Hb. split; [by split_and!|]. intros i t Ht. pose proof Ht as Hin%list_elem_of_lookup_2.
    destruct (built_task_valid _ _ _ _ _ _ _ _ _ _ Hop Htg Hsrc Ht) as (? & ? & ?). split_and!; try done. by apply Hb.
Qed.

End PlanLemmas.

(** ** The barrier: lemmas *)

(** The only result the barrier accepts for a task. *)
Definition expected_result (operation : Uuid) (task : TransferTask) : TransferResult :=
  {| result_operation_id := operation; result_task_index := task_index task; result_stable_work_id := stable_work_id task;
     result_state := Succeeded; observed_sha256 := Some (task_sha256 task); copied_bytes := task_bytes task;
     error_code := None |}.

Lemma by_index_snoc results r : by_index (results ++ [r]) = <[result_task_index r := r]> (by_index results).
Proof. unfold by_index. by rewrite foldl_app. Qed.

Lemma by_index_lookup results i r : by_index results !! i = Some r -> r ∈ results /\ result_task_index r = i.
Proof.
  induction results as [|r' results IH] using rev_ind; [done|]. rewrite by_index_snoc.
  intros [[<- <-]|[_ Hr]]%lookup_insert_Some; [set_solver|]. destruct (IH Hr). set_solver.
Qed.

Lemma dom_by_index results : dom (by_index results) = (list_to_set (result_task_index <$> results) : gset N).
Proof.
  induction results as [|r results IH] using rev_ind; [done|]. rewrite by_index_snoc, dom_insert_L, IH, fmap_app, list_to_set_app_L.
  cbn. set_solver.
Qed.

Lemma NoDup_of_size {A} `{Countable A} (l : list A) : size (list_to_set l : gset A) = length l <-> NoDup l.
Proof.
  split; [|apply size_list_to_set]. induction l as [|x l IH]; cbn; [constructor|]. intros Hs.
  assert (size (list_to_set l : gset A) <= length l)%nat as Hb by (clear; induction l as [|y l IH]; cbn; [by rewrite size_empty|];
    pose proof (size_union_alt {[y]} (list_to_set l : gset A)) as E; rewrite size_singleton in E;
    pose proof (subseteq_size (list_to_set l ∖ {[y]} : gset A) (list_to_set l) ltac:(set_solver)); lia).
  destruct (decide (x ∈ l)) as [Hx|Hx].
  - assert ({[x]} ∪ list_to_set l = (list_to_set l : gset A)) as E by set_solver. rewrite E in Hs. lia.
  - constructor; [done|]. apply IH. rewrite size_union, size_singleton in Hs by set_solver. lia.
Qed.

Lemma size_by_index results : size (by_index results) = length results <-> NoDup (result_task_index <$> results).
Proof. rewrite <- size_dom, dom_by_index, <- (length_fmap result_task_index results). apply NoDup_of_size. Qed.

Lemma by_index_elem results r : NoDup (result_task_index <$> results) -> r ∈ results ->
  by_index results !! result_task_index r = Some r.
Proof.
  intros Hnd Hr. assert (result_task_index r ∈ dom (by_index results)) as [r' Hr']%elem_of_dom.
  { rewrite dom_by_index, elem_of_list_to_set. by apply list_elem_of_fmap_2. }
  pose proof (by_index_lookup _ _ _ Hr') as [Hin E]. rewrite Hr'. f_equal. by eapply (NoDup_fmap_inj result_task_index).
Qed.

Section BarrierLemmas.
Context `{Sha256} `{Blake3} (encode_result : TransferResult -> option (list byte)).

Lemma observe_ok task acc r acc' : observe encode_result task acc r = Ok acc' <->
  exists encoded, task_index task = next_task_index acc /\ r = expected_result (acc_operation_id acc) task /\
    acc_verified_bytes acc + task_bytes task < U64_LIMIT /\ encode_result r = Some encoded /\
    next_task_index acc + 1 < U32_LIMIT /\
    acc' = {| acc_operation_id := acc_operation_id acc; acc_snapshot_id := acc_snapshot_id acc;
              acc_plan_sha256 := acc_plan_sha256 acc; expected_task_count := expected_task_count acc;
              next_task_index := next_task_index acc + 1; acc_verified_bytes := acc_verified_bytes acc + task_bytes task;
              result_hash := result_hash acc ++ sha256 encoded |}.
Proof.
  unfold observe. rewrite fail_then. setoid_rewrite result_bind_ok. setoid_rewrite ok_or_ok. setoid_rewrite result_bind_ok.
  setoid_rewrite ok_or_ok. setoid_rewrite result_bind_ok. setoid_rewrite ok_or_ok. setoid_rewrite checked_add_some.
  rewrite !orb_false_iff, !negb_false_iff, !bool_decide_eq_true, bool_decide_eq_false, !N.eqb_eq. destruct r as [op i w st sh by_ er].
  unfold expected_result. cbn. split.
  - intros ((((((((Hi & ->) & ->) & ->) & ->) & ->) & ->) & Her) & ? & [-> Hb] & encoded & He & next & [-> Hn] & [= <-]).
    destruct er; [by destruct Her|]. by exists encoded.
  - intros (encoded & Hi & [= -> -> -> -> -> -> ->] & Hb & He & Hn & ->). split; [by split_and!; [..|intros [? [=]]]|].
    eexists. split; [done|]. exists encoded. split; [done|]. by eexists.
Qed.

Definition total_task_bytes (ts : list TransferTask) : N := foldr (fun t n => task_bytes t + n) 0 ts.

Lemma total_task_bytes_cons t ts : total_task_bytes (t :: ts) = task_bytes t + total_task_bytes ts.
Proof. done. Qed.
Global Arguments total_task_bytes : simpl never.

(** The tasks the barrier sees, one after the other. *)
Lemma certify_tasks_ok index ts : forall acc acc',
  try_fold (certify_task encode_result index) acc ts = Ok acc' <->
  exists encs, Forall2 (fun t e => encode_result (expected_result (acc_operation_id acc) t) = Some e) ts encs /\
    (forall t, t ∈ ts -> index !! task_index t = Some (expected_result (acc_operation_id acc) t)) /\
    (forall i t, ts !! i = Some t -> task_index t = next_task_index acc + N.of_nat i) /\
    (ts = [] \/ acc_verified_bytes acc + total_task_bytes ts < U64_LIMIT) /\
    (ts = [] \/ next_task_index acc + N.of_nat (length ts) < U32_LIMIT) /\
    acc' = {| acc_operation_id := acc_operation_id acc; acc_snapshot_id := acc_snapshot_id acc;
              acc_plan_sha256 := acc_plan_sha256 acc; expected_task_count := expected_task_count acc;
              next_task_index := next_task_index acc + N.of_nat (length ts);
              acc_verified_bytes := acc_verified_bytes acc + total_task_bytes ts;
              result_hash := result_hash acc ++ concat (sha256 <$> encs) |}.
Proof.
  induction ts as [|t ts IH]; intros acc acc'; cbn [try_fold].
  { split.
    - intros [= <-]. exists []. cbn. rewrite !N.add_0_r, app_nil_r. split_and!; [constructor|set_solver|done|by left|by left|by destruct acc].
    - intros (encs & Hf & _ & _ & _ & _ & ->). apply Forall2_nil_inv_l in Hf as ->. cbn.
      rewrite !N.add_0_r, app_nil_r. by destruct acc. }
  rewrite result_bind_ok. unfold certify_task at 1. setoid_rewrite result_bind_ok. setoid_rewrite ok_or_ok.
  setoid_rewrite observe_ok. split.
  - intros (acc1 & (r & Hr & encoded & Hi & -> & Hb & He & Hn & ->) & Hf).
    apply IH in Hf as (encs & Henc & Hidx & Hpos & Hsum & Hcnt & ->). cbn in *.
    exists (encoded :: encs). cbn. rewrite app_assoc. split_and!.
    + by constructor.
    + intros t' [->|Ht']%elem_of_cons; [done|by apply Hidx].
    + intros [|i] t' Ht'; cbn in Ht'; [injection Ht' as <-; lia|]. rewrite (Hpos i t' Ht'). lia.
    + right. rewrite total_task_bytes_cons. destruct Hsum as [->|]; [|lia]. change (total_task_bytes []) with 0. lia.
    + right. destruct Hcnt as [->|]; cbn [length]; lia.
    + rewrite total_task_bytes_cons. f_equal; lia.
  - intros (encs & Henc & Hidx & Hpos & Hsum & Hcnt & ->). apply Forall2_cons_inv_l in Henc as (encoded & encs' & He & Henc & ->).
    destruct Hsum as [|Hsum]; [done|]. destruct Hcnt as [|Hcnt]; [done|]. cbn [length] in *.
    rewrite total_task_bytes_cons in *. eexists. split.
    { exists (expected_result (acc_operation_id acc) t). split; [apply Hidx; left|]. exists encoded.
      split_and!; [rewrite (Hpos 0%nat t eq_refl); lia|done|lia|done|lia|done]. }
    apply IH. exists encs'. cbn. split_and!.
    + done.
    + intros t' Ht'. apply Hidx. by right.
    + intros i t' Ht'. rewrite (Hpos (S i) t' Ht'). lia.
    + right. lia.
    + right. lia.
    + rewrite app_assoc. f_equal; lia.
Qed.

Lemma accumulator_ok plan sha acc : accumulator_new plan sha = Ok acc <->
  validate_plan plan = Ok tt /\ valid_sha256 sha = true /\ N.of_nat (length (tasks plan)) < U32_LIMIT /\
  acc = {| acc_operation_id := operation_id plan; acc_snapshot_id := plan_snapshot_id plan; acc_plan_sha256 := sha;
           expected_task_count := N.of_nat (length (tasks plan)); next_task_index := 0; acc_verified_bytes := 0;
           result_hash := as_bytes "ngkg-storage-recovery-results-v1" ++ [x00] |}.
Proof.
  unfold accumulator_new, u32_of_len, fits. destruct (validate_plan plan) as [[]|]; cbn [mbind result_bind]; [|naive_solver].
  rewrite fail_then, negb_false_iff.
  destruct (N.ltb_spec (N.of_nat (length (tasks plan))) U32_LIMIT) as [Hlt|Hge]; cbn [ok_or mbind result_bind]; split.
  - intros [? [= <-]]. done.
  - intros (_ & ? & _ & ->). done.
  - by intros [? ?].
  - intros (_ & _ & ? & _). lia.
Qed.

Lemma finish_ok acc certificate : finish acc = Ok certificate <->
  next_task_index acc = expected_task_count acc /\
  certificate = {| certificate_format_version := STORAGE_RECOVERY_FORMAT_VERSION; certificate_operation_id := acc_operation_id acc;
                   plan_sha256 := acc_plan_sha256 acc; certificate_snapshot_id := acc_snapshot_id acc;
                   verified_task_count := expected_task_count acc; verified_bytes := acc_verified_bytes acc;
                   result_set_sha256 := hex_encode (sha256 (result_hash acc)); certificate_complete := true |}.
Proof. unfold finish. rewrite fail_then, negb_false_iff, N.eqb_eq. split; [intros [? [= <-]]|intros [? ->]]; done. Qed.

Lemma expected_indices_NoDup operation ts : (forall i t, ts !! i = Some t -> task_index t = N.of_nat i) ->
  NoDup (result_task_index <$> (expected_result operation <$> ts)).
Proof.
  intros Hpos. apply NoDup_alt. intros i j n. rewrite <- list_fmap_compose.
  intros (t & Hi & Ht)%list_lookup_fmap_Some (t' & Hj & Ht')%list_lookup_fmap_Some. cbn in *.
  apply Hpos in Ht, Ht'. lia.
Qed.

Lemma results_complete operation ts results : length results = length ts ->
  (forall t, t ∈ ts -> by_index results !! task_index t = Some (expected_result operation t)) ->
  (forall i t, ts !! i = Some t -> task_index t = 0 + N.of_nat i) ->
  results ≡ₚ expected_result operation <$> ts.
Proof.
  intros Hlen Hidx Hpos. symmetry. apply submseteq_length_Permutation; [|rewrite length_fmap; lia].
  apply NoDup_submseteq; [by eapply NoDup_fmap_1, expected_indices_NoDup|].
  intros r (t & -> & Ht)%list_elem_of_fmap. by apply Hidx, by_index_lookup in Ht as [? _].
Qed.

End BarrierLemmas.

(** ** Backups: lemmas *)

(** A loop that numbers what it pushes. *)
Lemma numbered_push {A} (f : N -> A -> TransferTask) (e : RecoveryError) (l : list A) : forall ts ts',
  try_fold (fun ts x => index ← ok_or (u32_of_len (length ts)) e; Ok (ts ++ [f index x])) ts l = Ok ts' ->
  ts' = ts ++ imap (fun i x => f (N.of_nat (length ts + i)) x) l.
Proof.
  induction l as [|x l IH]; intros ts ts' Hf; cbn [try_fold] in Hf; [injection Hf as <-; by rewrite app_nil_r|].
  inv_steps. subst. unfold u32_of_len in *. destruct (fits _ _) in *; [|done].
  match goal with Hs : Some _ = Some _ |- _ => injection Hs as <- end.
  apply IH in Hf. rewrite Hf, <- app_assoc, length_app. cbn. rewrite Nat.add_0_r. do 2 f_equal. apply imap_ext.
  intros i y _. cbn. do 2 f_equal. lia.
Qed.

Section BackupLemmas.
Context `{Sha256} `{Blake3}.

(** The task that brings a backed-up artifact back. *)
Definition restored_task (operation restored : Uuid) (backup_target destination : string) (index : N) (b : BackupArtifact) :
    TransferTask :=
  {| task_index := index;
     stable_work_id := stable_work_id_of operation index backup_target destination
       {| object_key := backup_object_key b; artifact_sha256 := backup_sha256 b; artifact_bytes := backup_bytes b |}
       (restore_key restored operation (backup_source_key b)) Restore;
     reason := Restore; source_target := backup_target; destination_target := destination;
     source_object_key := backup_object_key b; destination_object_key := restore_key restored operation (backup_source_key b);
     task_sha256 := backup_sha256 b; task_bytes := backup_bytes b |}.

Lemma restore_plan_ok operation restored backup backup_sha destination targets max_bytes plan :
  build_restore_plan operation restored backup backup_sha destination targets max_bytes = Ok plan ->
  validate_backup_manifest backup = Ok tt /\ is_nil operation = false /\ valid_sha256 backup_sha = true /\ max_bytes <> 0 /\
  backup_destination backup <> destination /\ destination <> ""%string /\
  plan = {| plan_format_version := STORAGE_RECOVERY_FORMAT_VERSION; operation_id := operation;
            plan_tenant_id := backup_tenant_id backup; plan_dataset_id := backup_dataset_id backup;
            plan_snapshot_id := source_snapshot_id backup; storage_manifest_sha256 := backup_sha;
            replication_factor := 1; max_in_flight_bytes := max_bytes;
            tasks := imap (fun i => restored_task operation restored (backup_destination backup) destination (N.of_nat i))
                          (backup_artifacts backup) |}.
Proof.
  intros Hb. unfold build_restore_plan in Hb. inv_steps. repeat match goal with u : unit |- _ => destruct u end. bool_prop.
  match goal with Hf : try_fold _ [] _ = Ok _ |- _ => apply (numbered_push (restored_task operation restored
    (backup_destination backup) destination)) in Hf; cbn [app length] in Hf end.
  match goal with Ht : validate_targets targets = Ok tt |- _ => apply validate_targets_ok in Ht as [Htok _] end.
  match goal with Hx : existsb (fun t => bool_decide (target_name t = destination) && writable t) targets = true |- _ =>
    apply existsb_exists in Hx as (t & Hin & Hn); bool_prop end.
  split_and!; try done; [|by subst].
  rewrite Forall_forall in Htok. apply list_elem_of_In in Hin. subst destination. by apply target_ok_name, Htok.
Qed.

Lemma rlt_fst {A B} `{RustOrd A, RustOrd B} (a c : A) (b d : B) : rlt a c -> rlt (a, b) (c, d).
Proof. unfold rlt. intros Hac. change (then_cmp (cmp a c) (cmp b d) = Lt). by rewrite Hac. Qed.

Lemma validate_backup_artifacts_ok l : forall prev sum,
  Forall (fun b => valid_object_key (backup_source_key b) = true /\ valid_object_key (backup_object_key b) = true /\
            valid_sha256 (backup_sha256 b) = true) l ->
  StronglySorted rlt (backup_source_key <$> l) ->
  (forall b p, b ∈ l -> prev = Some p -> rlt p.1 (backup_source_key b)) ->
  sum + foldr (fun b n => backup_bytes b + n) 0 l < U64_LIMIT ->
  exists last, try_fold validate_backup_artifact (prev, sum) l = Ok (last, sum + foldr (fun b n => backup_bytes b + n) 0 l).
Proof.
  induction l as [|b l IH]; intros prev sum Hv Hs Hp Hsum; cbn [try_fold foldr] in *; [exists prev; by rewrite N.add_0_r|].
  apply Forall_cons in Hv as [(Hk & Hb & Hd) Hv]. cbn in Hs. apply StronglySorted_inv in Hs as [Hs Hlt].
  assert (validate_backup_artifact (prev, sum) b = Ok (Some (backup_source_key b, backup_object_key b), sum + backup_bytes b)) as ->.
  { unfold validate_backup_artifact. rewrite Hk, Hb, Hd. cbn [negb orb fail_if mbind result_bind fst snd].
    assert (match prev with Some prior => bool_decide (rle (backup_source_key b, backup_object_key b) prior) | None => false end
      = false) as ->.
    { destruct prev as [[p q]|]; [|done]. apply bool_decide_eq_false. rewrite not_rle. apply rlt_fst.
      exact (Hp b (p, q) ltac:(left) eq_refl). }
    cbn [fail_if mbind result_bind]. by rewrite checked_add_fits by lia. }
  cbn [mbind result_bind].
  destruct (IH (Some (backup_source_key b, backup_object_key b)) (sum + backup_bytes b) Hv Hs) as [last Hl].
  - intros b' p Hb' [= <-]. rewrite Forall_forall in Hlt. cbn. apply Hlt. by apply list_elem_of_fmap_2.
  - lia.
  - exists last. rewrite Hl. do 2 f_equal. lia.
Qed.

Lemma total_fold_ok l total : forall sum,
  try_fold (fun total artifact => ok_or (checked_add U64_LIMIT total (backup_bytes artifact))
              (InvalidContract "backup byte total overflow")) sum l = Ok total ->
  total = sum + foldr (fun b n => backup_bytes b + n) 0 l /\ (l = [] \/ total < U64_LIMIT).
Proof.
  induction l as [|b l IH]; intros sum Hf; cbn [try_fold foldr] in *.
  { injection Hf as <-. split; [lia|by left]. }
  inv_steps. match goal with Hc : checked_add _ _ _ = Some _ |- _ => apply checked_add_some in Hc as [-> ?] end.
  apply IH in Hf as [-> Hl]. split; [lia|]. right. destruct Hl as [->|]; cbn; lia.
Qed.

Lemma sorted_singleton (d : string) : sorted_elements ({[d]} : gset string) = [d].
Proof. unfold sorted_elements. by rewrite elements_singleton. Qed.

Lemma backup_manifest_ok plan certificate certificate_sha backup :
  build_backup_manifest plan certificate certificate_sha = Ok backup ->
  exists d, (forall t, t ∈ tasks plan -> destination_target t = d) /\ validate_plan plan = Ok tt /\ tasks plan <> [] /\
    valid_sha256 certificate_sha = true /\
    foldr (fun b n => backup_bytes b + n) 0 (backup_artifact <$> tasks plan) < U64_LIMIT /\
    backup = {| backup_format_version := STORAGE_RECOVERY_FORMAT_VERSION; backup_id := operation_id plan;
                backup_tenant_id := plan_tenant_id plan; backup_dataset_id := plan_dataset_id plan;
                source_snapshot_id := plan_snapshot_id plan; source_storage_manifest_sha256 := storage_manifest_sha256 plan;
                backup_certificate_sha256 := certificate_sha; backup_destination := d;
                backup_artifacts := backup_artifact <$> tasks plan;
                total_bytes := foldr (fun b n => backup_bytes b + n) 0 (backup_artifact <$> tasks plan);
                backup_complete := true |}.
Proof.
  intros Hb. unfold build_backup_manifest in Hb. inv_steps. repeat match goal with u : unit |- _ => destruct u end. bool_prop.
  match goal with Hs : size _ = 1%nat |- _ => apply size_1_elem_of in Hs as [d Hd] end.
  apply leibniz_equiv in Hd.
  match goal with Hh : head (sorted_elements _) = Some ?x |- _ => rewrite Hd, sorted_singleton in Hh; injection Hh as <- end.
  match goal with Hf : try_fold _ 0 _ = Ok ?n |- _ => apply total_fold_ok in Hf as [Hn Hlt]; rewrite N.add_0_l in Hn end.
  exists d. split.
  { intros t Ht. assert (destination_target t ∈ (list_to_set (destination_target <$> tasks plan) : gset string)) as Hin
      by (apply elem_of_list_to_set, list_elem_of_fmap_2, Ht).
    rewrite Hd in Hin. by apply elem_of_singleton in Hin. }
  subst. split_and!; try done. destruct Hlt as [Hnil|]; [|done]. apply fmap_nil_inv in Hnil. done.
Qed.

Lemma one_left (s d : string) l : NoDup l -> (2 <= length l)%nat -> (forall x, x ∈ l -> x <> s -> x = d) ->
  forall P `{!forall x, Decision (P x)}, (forall x, P x <-> x <> s) -> filter P l = [d].
Proof.
  intros Hnd Hlen Hall P HP Hs. assert (forall x, x ∈ filter P l -> x = d) as Hd.
  { intros x [Hx ?]%list_elem_of_filter. apply Hall; [done|by apply Hs]. }
  assert (NoDup (filter P l)) as Hndf by (by apply NoDup_filter).
  destruct (filter P l) as [|x [|y rest]] eqn:E.
  - exfalso. destruct l as [|a [|b l]]; cbn in Hlen; [lia|lia|].
    assert (forall x, x ∈ a :: b :: l -> x = s) as Hx.
    { intros x Hx. destruct (decide (x = s)); [done|]. assert (x ∈ filter P (a :: b :: l)) as Hf
        by (apply list_elem_of_filter; by rewrite Hs). rewrite E in Hf. by apply elem_of_nil in Hf. }
    apply NoDup_cons in Hnd as [Hnd _]. apply Hnd. rewrite (Hx a), <- (Hx b); set_solver.
  - by rewrite (Hd x) by left.
  - exfalso. apply NoDup_cons in Hndf as [Hndf _]. apply Hndf. rewrite (Hd x), <- (Hd y); set_solver.
Qed.

Lemma placement_NoDup snapshot a targets factor names : select_replica_targets snapshot a targets factor = Ok names ->
  NoDup names /\ length names = N.to_nat factor.
Proof.
  intros Hsel. pose proof Hsel as (_ & _ & Htg & Hle & ->)%select_spec. apply validate_targets_ok in Htg as [_ Hnd].
  set (c := chosen ∅ (scored snapshot (artifact_sha256 a) targets)). split.
  - eapply sublist_NoDup; [|apply fmap_sublist; etrans; [apply sublist_take|apply chosen_sublist]].
    rewrite scored_perm. eapply sublist_NoDup; [exact Hnd|]. apply fmap_sublist, sublist_filter.
  - rewrite length_fmap, length_take. subst c. rewrite length_chosen.
    assert (size (list_to_set (failure_domain <$> scored snapshot (artifact_sha256 a) targets) : gset string)
      = size (writable_domains targets)) as ->.
    { unfold writable_domains. f_equal. apply set_eq. intros x. by rewrite scored_perm. }
    lia.
Qed.

(** When all tasks of a plan go to one place, every artifact has one. *)
Lemma missing_single snapshot source targets existing factor artifacts d : 2 <= factor ->
  (forall sha names, existing !! sha = Some names -> names ⊆ {[source]}) ->
  (forall a, a ∈ artifacts -> is_ok (select_replica_targets snapshot a targets factor) = true) ->
  (forall m, m ∈ missing_replicas snapshot source targets existing factor artifacts -> m.2 = d) ->
  missing_replicas snapshot source targets existing factor artifacts = (fun a => (a, d)) <$> artifacts.
Proof.
  intros Hf Hex. induction artifacts as [|a artifacts IH]; intros Hsel Hd; [done|].
  unfold missing_replicas. cbn. fold (missing_replicas snapshot source targets existing factor artifacts).
  assert (filter (needed source existing a) (placement snapshot targets factor a) = [d]) as ->.
  { assert (is_ok (select_replica_targets snapshot a targets factor) = true) as Hs by (apply Hsel; left).
    apply is_ok_true in Hs as [names Hs].
    assert (placement snapshot targets factor a = names) as -> by (unfold placement; by rewrite Hs).
    destruct (placement_NoDup _ _ _ _ _ Hs) as [Hnd Hlen].
    assert (forall x, needed source existing a x <-> x <> source) as Hneed.
    { intros x. unfold needed. split; [by intros [? _]|]. intros Hx. split; [done|].
      destruct (existing !! artifact_sha256 a) as [ns|] eqn:E; cbn; [|set_solver]. apply Hex in E. set_solver. }
    apply (one_left source); [done|lia| |done]. intros x Hx Hxs.
    apply (Hd (a, x)), missing_replicas_spec. split_and!; [left|by apply Hneed|]. unfold placement. by rewrite Hs. }
  cbn. f_equal. apply IH; [intros; apply Hsel; by right|]. intros [a' x] Hm. apply Hd.
  apply missing_replicas_spec in Hm as (? & ? & ?). apply missing_replicas_spec. split_and!; [by right|done..].
Qed.

End BackupLemmas.

Lemma ascending_sorted {A} `{RustOrd A} `{!EqDecision A} (check : A -> result RecoveryError unit) why (l : list A) : forall x r,
  try_fold (ascending check why) (Some x) l = Ok r -> StronglySorted rlt (x :: l).
Proof.
  induction l as [|y l IH]; intros x r Hf; cbn [try_fold] in Hf; [by repeat constructor|].
  apply result_bind_ok in Hf as (s & Hy & Hf). unfold ascending in Hy. inv_steps. bool_prop. subst s.
  apply StronglySorted_cons2. split; [by apply not_rle|]. by eapply IH.
Qed.

Lemma manifest_sorted manifest : validate_storage_manifest manifest = Ok tt ->
  StronglySorted rlt (manifest_artifacts manifest).
Proof.
  intros Hm. unfold validate_storage_manifest in Hm. inv_steps.
  match goal with Hf : try_fold _ None ?l = Ok _ |- _ => destruct l as [|x l']; [constructor|]; cbn [try_fold] in Hf;
    apply result_bind_ok in Hf as (s & Hx & Hf) end.
  unfold ascending in Hx. inv_steps. subst s. by eapply ascending_sorted.
Qed.

Lemma sorted_object_keys (l : list SnapshotArtifact) : StronglySorted rlt l -> NoDup (object_key <$> l) ->
  StronglySorted rlt (object_key <$> l).
Proof.
  induction 1 as [|a l Hl IH Ha]; cbn; intros Hnd; [constructor|]. apply NoDup_cons in Hnd as [Hni Hnd].
  constructor; [auto|]. apply Forall_forall. rewrite Forall_forall in Ha. intros k (b & -> & Hb)%list_elem_of_fmap. specialize (Ha b Hb).
  unfold rlt in *. change (then_cmp (cmp (object_key a) (object_key b))
    (cmp (artifact_sha256 a, artifact_bytes a) (artifact_sha256 b, artifact_bytes b)) = Lt) in Ha.
  apply then_cmp_lt in Ha as [?|[E _]]; [done|]. apply cmp_eq in E. exfalso. apply Hni. rewrite E. by apply list_elem_of_fmap_2.
Qed.

Section RoundTripLemmas.
Context `{Sha256} `{Blake3}.

Lemma validate_task_ok task : validate_task task = Ok tt <->
  valid_work_id (stable_work_id task) = true /\ source_target task <> ""%string /\ destination_target task <> ""%string /\
  source_target task <> destination_target task /\ valid_object_key (source_object_key task) = true /\
  valid_object_key (destination_object_key task) = true /\ valid_sha256 (task_sha256 task) = true.
Proof.
  unfold validate_task. rewrite fail_if_ok, !orb_false_iff, !negb_false_iff, !bool_decide_eq_false. tauto.
Qed.

(** The tasks of a backup plan with one destination. *)
Lemma backup_tasks operation manifest manifest_sha256 source targets existing factor max_bytes plan d :
  2 <= factor -> (forall sha names, existing !! sha = Some names -> names ⊆ {[source]}) ->
  build_recovery_plan operation manifest manifest_sha256 source targets existing factor max_bytes Backup = Ok plan ->
  (forall t, t ∈ tasks plan -> destination_target t = d) ->
  tasks plan = imap (fun i a => replica_task operation source Backup i (a, d)) (manifest_artifacts manifest) /\
  operation_id plan = operation /\ validate_storage_manifest manifest = Ok tt.
Proof.
  intros Hf Hex (Hman & _ & _ & _ & _ & _ & Hsel & ->)%build_plan_ok Hd. cbn [tasks operation_id] in *. split_and!; [|done..].
  rewrite (missing_single _ _ _ _ _ _ d Hf Hex Hsel); [unfold enlist; by rewrite imap_fmap|].
  intros m [i Hm]%list_elem_of_lookup. apply (Hd (replica_task operation source Backup i m)).
  apply (list_elem_of_lookup_2 _ i). unfold enlist. rewrite list_lookup_imap, Hm. done.
Qed.

Lemma backup_validates plan certificate certificate_sha backup :
  build_backup_manifest plan certificate certificate_sha = Ok backup ->
  StronglySorted rlt (source_object_key <$> tasks plan) -> validate_backup_manifest backup = Ok tt.
Proof.
  intros (d & Hd & Hv & Hne & Hsha & Hsum & ->)%backup_manifest_ok Hs.
  pose proof Hv as ((? & ? & ? & ? & ? & ? & _) & Ht)%validate_plan_ok.
  assert (forall t, t ∈ tasks plan -> validate_task t = Ok tt) as Htask.
  { intros t [i Hi]%list_elem_of_lookup. by apply Ht in Hi as [? _]. }
  unfold validate_backup_manifest. apply fail_then. cbn [backup_format_version backup_id backup_tenant_id backup_dataset_id
    source_snapshot_id source_storage_manifest_sha256 backup_certificate_sha256 backup_destination backup_artifacts total_bytes
    backup_complete]. split.
  { rewrite !orb_false_iff, !negb_false_iff, !bool_decide_eq_false. split_and!; try done; [|by intros ?%fmap_nil_inv].
    destruct (tasks plan) as [|t l]; [done|]. rewrite <- (Hd t) by left.
    assert (validate_task t = Ok tt) as Hvt by (apply Htask; left). by apply validate_task_ok in Hvt as (_ & _ & ? & _). }
  destruct (validate_backup_artifacts_ok (backup_artifact <$> tasks plan) None 0) as [last Hl].
  - apply Forall_fmap, Forall_forall. intros t Hin%Htask%validate_task_ok. naive_solver.
  - rewrite <- list_fmap_compose. exact Hs.
  - done.
  - done.
  - rewrite Hl. cbn [mbind result_bind snd]. rewrite N.add_0_l, N.eqb_refl. done.
Qed.

Lemma validated_backup_artifacts l : forall st st', try_fold validate_backup_artifact st l = Ok st' ->
  forall b, b ∈ l -> valid_object_key (backup_source_key b) = true /\ valid_object_key (backup_object_key b) = true /\
    valid_sha256 (backup_sha256 b) = true.
Proof.
  induction l as [|x l IH]; intros st st' Hf b Hb; [by apply elem_of_nil in Hb|]. cbn [try_fold] in Hf.
  apply result_bind_ok in Hf as (st1 & Hx & Hf). apply elem_of_cons in Hb as [->|Hb]; [|by eapply IH].
  unfold validate_backup_artifact in Hx. inv_steps. by bool_prop.
Qed.

Lemma restore_plan_validates operation restored backup backup_sha destination targets max_bytes plan :
  length operation = 16%nat -> length restored = 16%nat ->
  build_restore_plan operation restored backup backup_sha destination targets max_bytes = Ok plan ->
  validate_plan plan = Ok tt <->
  forall b, b ∈ backup_artifacts backup -> backup_bytes b <= max_bytes /\ (length (as_bytes (backup_source_key b)) <= 949)%nat.
Proof.
  intros Hop Hre Hb. pose proof Hb as (Hv & Hnil & Hsha & Hmax & Hne & Hd & ->)%restore_plan_ok.
  unfold validate_backup_manifest in Hv. inv_steps. bool_prop.
  match goal with Hf : try_fold _ _ _ = Ok _ |- _ => pose proof (validated_backup_artifacts _ _ _ Hf) as Hart end.
  rewrite validate_plan_ok. unfold header_valid. cbn [plan_format_version operation_id plan_tenant_id plan_dataset_id plan_snapshot_id
    storage_manifest_sha256 replication_factor max_in_flight_bytes tasks]. split.
  - intros [_ Ht] b Hin. pose proof Hin as [i Hi]%list_elem_of_lookup.
    specialize (Ht i (restored_task operation restored (backup_destination backup) destination (N.of_nat i) b)).
    destruct Ht as (Hvt & _ & ? & _); [by rewrite list_lookup_imap, Hi|]. split; [done|].
    apply validate_task_ok in Hvt as (_ & _ & _ & _ & _ & Hk & _). cbn [restored_task destination_object_key] in Hk.
    destruct (Hart b Hin) as [? _]. rewrite valid_restore_key in Hk by done. by apply Nat.leb_le.
  - intros Hall. split; [by split_and!|]. intros i t (b & Hi & ->)%list_lookup_imap_Some.
    pose proof (list_elem_of_lookup_2 _ _ _ Hi) as Hin. destruct (Hart b Hin) as (? & ? & ?). destruct (Hall b Hin) as [? ?].
    split_and!; [|done..]. apply validate_task_ok. cbn [restored_task stable_work_id source_target destination_target
      source_object_key destination_object_key task_sha256]. split_and!; try done; [apply valid_work_id_of|].
    rewrite valid_restore_key by done. by apply Nat.leb_le.
Qed.

End RoundTripLemmas.

Section Certification.
Context `{Sha256} `{Blake3}.

Lemma certify_recovery_ok (encode_result : TransferResult -> option (list byte)) (plan : RecoveryPlan) (sha : string)
    (results : list TransferResult) (certificate : RecoveryCertificate) :
  certify_recovery encode_result plan sha results = Ok certificate <->
  validate_plan plan = Ok tt /\ valid_sha256 sha = true /\
  results ≡ₚ expected_result (operation_id plan) <$> tasks plan /\
  N.of_nat (length (tasks plan)) < U32_LIMIT /\ total_task_bytes (tasks plan) < U64_LIMIT /\
  exists encs,
    Forall2 (fun t e => encode_result (expected_result (operation_id plan) t) = Some e) (tasks plan) encs /\
    certificate = {| certificate_format_version := STORAGE_RECOVERY_FORMAT_VERSION;
                     certificate_operation_id := operation_id plan; plan_sha256 := sha;
                     certificate_snapshot_id := plan_snapshot_id plan;
                     verified_task_count := N.of_nat (length (tasks plan)); verified_bytes := total_task_bytes (tasks plan);
                     result_set_sha256 := hex_encode (sha256 (as_bytes "ngkg-storage-recovery-results-v1" ++ [x00]
                       ++ concat (sha256 <$> encs)));
                     certificate_complete := true |}.
Proof.
  split.
  - intros Hc. unfold certify_recovery in Hc. apply result_bind_ok in Hc as ([] & Hv & Hc).
    apply fail_then in Hc as [Hlen Hc]. apply fail_then in Hc as [_ Hc]. apply result_bind_ok in Hc as (acc & Ha & Hc).
    apply result_bind_ok in Hc as (acc' & Hf & Hc). apply accumulator_ok in Ha as (_ & Hsha & Hcnt & ->).
    apply certify_tasks_ok in Hf as (encs & Henc & Hidx & Hpos & Hsum & _ & ->).
    apply finish_ok in Hc as [_ ->]. bool_prop. split_and!; [done..| |done| |exists encs; by split].
    + by apply results_complete.
    + destruct Hsum as [->|]; done.
  - intros (Hv & Hsha & Hp & Hcnt & Hsum & encs & Henc & ->).
    assert (forall i t, tasks plan !! i = Some t -> task_index t = N.of_nat i) as Hpos.
    { intros i t Ht. apply validate_plan_ok in Hv as [_ Hv]. by apply Hv in Ht as (_ & ? & _). }
    assert (NoDup (result_task_index <$> results)) as Hnd by (rewrite Hp; by apply expected_indices_NoDup).
    assert (length results = length (tasks plan)) as Hlen by (by rewrite Hp, length_fmap).
    unfold certify_recovery. rewrite Hv, Hsha, (proj2 (size_by_index results) Hnd), Hlen, !Nat.eqb_refl.
    cbn [mbind result_bind negb orb fail_if]. apply result_bind_ok. eexists. split; [by apply accumulator_ok|].
    apply result_bind_ok. eexists. split.
    { apply certify_tasks_ok. exists encs. split_and!; [done| |done|by right|by right|reflexivity].
      intros t Ht. apply (by_index_elem results (expected_result (operation_id plan) t) Hnd). rewrite Hp. by apply list_elem_of_fmap_2. }
    apply finish_ok. by split.
Qed.

End Certification.

(** ** Theorems *)

Section Theorems.
Context `{Sha256} `{Blake3}.

(** replica placement.  It succeeds exactly when the artifact and the
    registry are valid and there are enough writable failure domains; it then
    names exactly as many different registered, writable targets as requested,
    no two in one failure domain; and the order of the registry is irrelevant. *)
Theorem replica_placement_exact (snapshot : Uuid) (artifact : SnapshotArtifact) (targets : list StorageTarget) (factor : N) :
  (is_ok (select_replica_targets snapshot artifact targets factor) = true <->
     validate_artifact artifact = Ok tt /\ 0 < factor /\ validate_targets targets = Ok tt /\
     factor <= N.of_nat (size (writable_domains targets))) /\
  (forall names, select_replica_targets snapshot artifact targets factor = Ok names ->
     exists placed, names = target_name <$> placed /\ N.of_nat (length placed) = factor /\ NoDup names /\
       NoDup (failure_domain <$> placed) /\ forall t, t ∈ placed -> t ∈ targets /\ writable t = true) /\
  (forall targets', targets ≡ₚ targets' ->
     select_replica_targets snapshot artifact targets' factor = select_replica_targets snapshot artifact targets factor).
Proof.
  split_and!.
  - rewrite is_ok_true. setoid_rewrite select_spec. naive_solver.
  - intros names Hsel. destruct (placement_NoDup _ _ _ _ _ Hsel) as [Hnd Hlen].
    pose proof Hsel as (_ & _ & _ & _ & ->)%select_spec. eexists. split; [done|]. rewrite length_fmap in Hlen.
    split_and!; [lia|done| |].
    + eapply sublist_NoDup; [|apply fmap_sublist, sublist_take]. apply chosen_domains.
    + intros t Ht. apply (sublist_subseteq _ _ (sublist_take _ _)), (sublist_subseteq _ _ (chosen_sublist _ _)) in Ht.
      rewrite scored_perm in Ht. apply list_elem_of_filter in Ht as [? ?]. done.
  - intros targets' Hp. unfold select_replica_targets. rewrite <- (validate_targets_perm targets targets' Hp).
    destruct (validate_artifact artifact); [|done]. cbn. destruct (factor =? 0); [done|]. cbn.
    destruct (validate_targets targets) as [[]|] eqn:Hv; [|done]. cbn. apply validate_targets_ok in Hv as [_ Hnd].
    assert (writable_domains targets' = writable_domains targets) as ->.
    { unfold writable_domains, writable_targets. apply set_eq. intros x. by rewrite Hp. }
    by rewrite (scored_order snapshot _ targets targets' Hnd Hp).
Qed.

(** rendezvous hashing: when a target that holds no replica of an artifact
    leaves the registry, the placement of the artifact stays as it was. *)
Theorem placement_is_stable (snapshot : Uuid) (artifact : SnapshotArtifact) (before after : list StorageTarget)
    (t : StorageTarget) (factor : N) (names : list string) :
  select_replica_targets snapshot artifact (before ++ t :: after) factor = Ok names ->
  target_name t ∉ names ->
  select_replica_targets snapshot artifact (before ++ after) factor = Ok names.
Proof.
  rewrite !select_spec. intros (Ha & Hf & Hv & Hd & ->) Ht. apply validate_targets_ok in Hv as [Hok Hnd].
  assert (Forall (fun t => target_ok t = true) (before ++ after) /\ NoDup (target_name <$> (before ++ after))) as Hv'.
  { rewrite Forall_app, Forall_cons in Hok. rewrite fmap_app in *. cbn in Hnd. apply NoDup_app in Hnd as (? & ? & [? ?]%NoDup_cons).
    split; [apply Forall_app; naive_solver|]. apply NoDup_app. set_solver. }
  set (sc := scored snapshot (artifact_sha256 artifact)) in *.
  assert (take (N.to_nat factor) (chosen ∅ (sc (before ++ t :: after))) = take (N.to_nat factor) (chosen ∅ (sc (before ++ after))))
    as Heq.
  { destruct (writable t) eqn:Hw.
    - destruct (scored_drop snapshot (artifact_sha256 artifact) before t after Hnd Hw) as (a & b & E1 & E2). subst sc.
      rewrite E1, E2 in *. apply take_chosen_drop. intros Hin. apply Ht. by apply list_elem_of_fmap_2.
    - subst sc. unfold scored, writable_targets. rewrite !filter_app, filter_cons_False; [done|congruence]. }
  split_and!; [done..|by apply validate_targets_ok| |by rewrite Heq].
  assert (length (take (N.to_nat factor) (chosen ∅ (sc (before ++ t :: after)))) = N.to_nat factor) as Hlen.
  { rewrite length_take, length_chosen. subst sc. unfold writable_domains in Hd.
    assert (size (list_to_set (failure_domain <$> scored snapshot (artifact_sha256 artifact) (before ++ t :: after)) : gset string)
      = size (list_to_set (failure_domain <$> writable_targets (before ++ t :: after)) : gset string)) as ->
      by (f_equal; apply set_eq; intros x; by rewrite scored_perm). lia. }
  rewrite Heq, length_take, length_chosen in Hlen. unfold writable_domains.
  assert (size (list_to_set (failure_domain <$> sc (before ++ after)) : gset string)
    = size (list_to_set (failure_domain <$> writable_targets (before ++ after)) : gset string)) as <-
    by (subst sc; f_equal; apply set_eq; intros x; by rewrite scored_perm). lia.
Qed.

(** a recovery plan names exactly the missing replicas, in the order of the
    artifacts and of their placements, with dense indices; and it passes its
    own validation exactly when no artifact in it exceeds the byte budget. *)
Theorem recovery_plan_is_exactly_the_missing_replicas (operation : Uuid) (manifest : SnapshotStorageManifest)
    (manifest_sha256 source : string) (targets : list StorageTarget) (existing : gmap string (gset string))
    (factor max_bytes : N) (why : TransferReason) (plan : RecoveryPlan) :
  length operation = 16%nat ->
  build_recovery_plan operation manifest manifest_sha256 source targets existing factor max_bytes why = Ok plan ->
  tasks plan = imap (replica_task operation source why)
    (missing_replicas (manifest_snapshot_id manifest) source targets existing factor (manifest_artifacts manifest)) /\
  (validate_plan plan = Ok tt <-> forall t, t ∈ tasks plan -> task_bytes t <= max_bytes).
Proof.
  intros Hop Hb. split; [|by eapply built_plan_validates]. apply build_plan_ok in Hb as (_ & _ & _ & _ & _ & _ & _ & ->). done.
Qed.

(** C17: the completion barrier accepts exactly the complete sets of verified
    results, in any order: one result for every task of a valid plan, with the
    digest and the size the plan asks for and nothing else; and the
    certificate is a function of the plan alone. *)
Theorem certification_exact (encode_result : TransferResult -> option (list byte)) (plan : RecoveryPlan) (sha : string)
    (results : list TransferResult) (certificate : RecoveryCertificate) :
  certify_recovery encode_result plan sha results = Ok certificate <->
  validate_plan plan = Ok tt /\ valid_sha256 sha = true /\
  results ≡ₚ expected_result (operation_id plan) <$> tasks plan /\
  N.of_nat (length (tasks plan)) < U32_LIMIT /\ total_task_bytes (tasks plan) < U64_LIMIT /\
  exists encs,
    Forall2 (fun t e => encode_result (expected_result (operation_id plan) t) = Some e) (tasks plan) encs /\
    certificate = {| certificate_format_version := STORAGE_RECOVERY_FORMAT_VERSION;
                     certificate_operation_id := operation_id plan; plan_sha256 := sha;
                     certificate_snapshot_id := plan_snapshot_id plan;
                     verified_task_count := N.of_nat (length (tasks plan)); verified_bytes := total_task_bytes (tasks plan);
                     result_set_sha256 := hex_encode (sha256 (as_bytes "ngkg-storage-recovery-results-v1" ++ [x00]
                       ++ concat (sha256 <$> encs)));
                     certificate_complete := true |}.
Proof. apply certify_recovery_ok. Qed.

(** C16: backup and restore.  The manifest of a backup made from a snapshot is
    valid, and a restore plan made from it brings back every artifact of the
    snapshot, one task each, from the key it was copied to, with its digest
    and size, to its own key below the namespace of the restore.  The plan
    passes validation exactly when no artifact exceeds the byte budget and no
    key is longer than 949 bytes. *)
Theorem backup_restores_every_artifact (operation : Uuid) (manifest : SnapshotStorageManifest) (manifest_sha256 source : string)
    (targets : list StorageTarget) (existing : gmap string (gset string)) (factor max_bytes : N) (plan : RecoveryPlan)
    (certificate : RecoveryCertificate) (certificate_sha : string) (backup : SnapshotBackupManifest) :
  2 <= factor ->
  (forall sha names, existing !! sha = Some names -> names ⊆ {[source]}) ->
  NoDup (object_key <$> manifest_artifacts manifest) ->
  build_recovery_plan operation manifest manifest_sha256 source targets existing factor max_bytes Backup = Ok plan ->
  build_backup_manifest plan certificate certificate_sha = Ok backup ->
  validate_backup_manifest backup = Ok tt /\
  forall (restore restored : Uuid) (backup_sha destination : string) (targets' : list StorageTarget) (max' : N) (plan' : RecoveryPlan),
    build_restore_plan restore restored backup backup_sha destination targets' max' = Ok plan' ->
    Forall2 (fun a t =>
        source_target t = backup_destination backup /\ source_object_key t = replica_key operation a /\
        destination_target t = destination /\ destination_object_key t = restore_key restored restore (object_key a) /\
        task_sha256 t = artifact_sha256 a /\ task_bytes t = artifact_bytes a)
      (manifest_artifacts manifest) (tasks plan') /\
    (length restore = 16%nat -> length restored = 16%nat ->
       validate_plan plan' = Ok tt <->
       forall a, a ∈ manifest_artifacts manifest ->
         artifact_bytes a <= max' /\ (length (as_bytes (object_key a)) <= 949)%nat).
Proof.
  intros Hf Hex Hnd Hb Hbk. pose proof Hbk as (d & Hd & _ & _ & _ & _ & E)%backup_manifest_ok.
  destruct (backup_tasks _ _ _ _ _ _ _ _ _ d Hf Hex Hb Hd) as (Ht & _ & Hman). split.
  { eapply backup_validates; [done|]. rewrite Ht, fmap_imap.
    assert (imap (fun i a => source_object_key (replica_task operation source Backup i (a, d))) (manifest_artifacts manifest)
      = object_key <$> manifest_artifacts manifest) as E' by (rewrite <- imap_const; by apply imap_ext).
    unfold compose. rewrite E'. apply sorted_object_keys; [by apply manifest_sorted|done]. }
  intros restore restored backup_sha destination targets' max' plan' Hr.
  assert (backup_artifacts backup = imap (fun i a => backup_artifact (replica_task operation source Backup i (a, d)))
    (manifest_artifacts manifest)) as Eart by (subst backup; cbn [backup_artifacts]; by rewrite Ht, fmap_imap).
  split.
  - apply restore_plan_ok in Hr as (_ & _ & _ & _ & _ & _ & ->). cbn [tasks]. rewrite Eart. apply Forall2_same_length_lookup.
    split; [by rewrite !length_imap|]. intros i a t Ha Ht'. rewrite !list_lookup_imap, Ha in Ht'. cbn in Ht'. by injection Ht' as <-.
  - intros Hop Hre. rewrite (restore_plan_validates _ _ _ _ _ _ _ _ Hop Hre Hr), Eart. split.
    + intros Hall a [i Ha]%list_elem_of_lookup.
      apply (Hall (backup_artifact (replica_task operation source Backup i (a, d)))), (list_elem_of_lookup_2 _ i).
      by rewrite list_lookup_imap, Ha.
    + intros Hall b [i Hi]%list_elem_of_lookup. apply list_lookup_imap_Some in Hi as (a & Ha & ->).
      apply (Hall a). by eapply list_elem_of_lookup_2.
Qed.

End Theorems.

(** ** Examples *)

Definition sample_target (zone : string) : StorageTarget :=
  {| target_name := zone; failure_domain := zone; base_url := "s3://ngkg-" +:+ zone; writable := true |}.

Definition sample_targets : list StorageTarget := [sample_target "zone-a"; sample_target "zone-b"; sample_target "zone-c"].

Definition sample_id (n : N) : Uuid := to_be_bytes 16 n.

Definition hex_of (n : N) : string := hex_encode (to_be_bytes 32 n).

Definition sample_artifact (name : string) (n bytes : N) : SnapshotArtifact :=
  {| object_key := "snapshots/a/" +:+ name; artifact_sha256 := hex_of n; artifact_bytes := bytes |}.

Definition sample_manifest : SnapshotStorageManifest :=
  {| manifest_format_version := 1; manifest_tenant_id := sample_id 1; manifest_dataset_id := sample_id 2;
     manifest_snapshot_id := sample_id 3; snapshot_manifest_sha256 := hex_of 4; activation_manifest_sha256 := None;
     manifest_artifacts := [sample_artifact "part-000" 7 42; sample_artifact "part-001" 9 5] |}.

Definition two_zones : list StorageTarget := [sample_target "zone-a"; sample_target "zone-b"].

Definition sample_build (targets : list StorageTarget) (why : TransferReason) (max_bytes : N) : result RecoveryError RecoveryPlan :=
  build_recovery_plan (H:=padded_digest) (H0:=padded_blake3) (sample_id 5) sample_manifest (hex_of 6) "zone-a" targets ∅ 2
    max_bytes why.

Definition empty_plan : RecoveryPlan :=
  {| plan_format_version := 0; operation_id := []; plan_tenant_id := []; plan_dataset_id := []; plan_snapshot_id := [];
     storage_manifest_sha256 := ""; replication_factor := 0; max_in_flight_bytes := 0; tasks := [] |}.

Definition plan_or_empty (r : result RecoveryError RecoveryPlan) : RecoveryPlan := match r with Ok p => p | Err _ => empty_plan end.

Definition backup_plan : RecoveryPlan := plan_or_empty (sample_build two_zones Backup 100).

Definition sample_encode (r : TransferResult) : option (list byte) := Some (to_be_bytes 4 (result_task_index r)).

(** The barrier accepts the results of the backup plan in reverse order, and
    refuses them when one is missing or twice there. *)
Example certification_runs :
  let good := expected_result (sample_id 5) <$> tasks backup_plan in
  let certify := certify_recovery (H:=padded_digest) (H0:=padded_blake3) sample_encode backup_plan (hex_of 8) in
  length good = 2%nat /\ is_ok (certify (reverse good)) = true /\
  certify (take 1 good) = Err (Incomplete "result cardinality does not match the plan") /\
  certify (take 1 good ++ take 1 good) = Err (Incomplete "duplicate task result").
Proof. vm_compute. by split_and!. Qed.

(** A plan is built and published although an artifact exceeds the byte
    budget, and then fails the validation every worker starts with. *)
Example oversized_artifact_passes_planning :
  is_ok (sample_build sample_targets Replication 10) = true /\
  validate_recovery_plan (H0:=padded_blake3) (plan_or_empty (sample_build sample_targets Replication 10)) =
    Err (InvalidContract "task index, byte budget, or stable work identity is invalid").
Proof. vm_compute. by split. Qed.

(** The preimage of a work identity does not separate its fields: other target
    names give the same identity. *)
Example work_identity_is_ambiguous `{Blake3} :
  stable_work_id_of (sample_id 5) 0 "zone-a" "bzone-c" (sample_artifact "part-000" 7 42) "k" Backup =
  stable_work_id_of (sample_id 5) 0 "zone-ab" "zone-c" (sample_artifact "part-000" 7 42) "k" Backup.
Proof. reflexivity. Qed.

(** Keys with a segment that starts with a dot pass the validation of plans
    and manifests, and are refused by every call of the artifact store. *)
Example hidden_key_is_planned_but_refused :
  valid_object_key "snapshots/.hidden" = true /\ validate_key "snapshots/.hidden" = Err (UnsafeKey "snapshots/.hidden").
Proof. vm_compute. by split. Qed.

Lemma replica_placement_exact_witness :
  exists placed, ["zone-a"; "zone-b"]%string = target_name <$> placed /\ N.of_nat (length placed) = 2 /\
    NoDup ["zone-a"; "zone-b"]%string /\ NoDup (failure_domain <$> placed) /\
    forall t, t ∈ placed -> t ∈ sample_targets /\ writable t = true.
Proof.
  apply (proj1 (proj2 (replica_placement_exact (H:=padded_digest) (sample_id 3) (sample_artifact "part-000" 7 42) sample_targets 2))).
  by vm_compute.
Defined.

Lemma placement_is_stable_witness :
  select_replica_targets (H:=padded_digest) (sample_id 3) (sample_artifact "part-000" 7 42) ([sample_target "zone-a"; sample_target "zone-b"] ++ []) 2
  = Ok ["zone-a"; "zone-b"]%string.
Proof.
  apply (placement_is_stable (H:=padded_digest) (sample_id 3) (sample_artifact "part-000" 7 42)
    [sample_target "zone-a"; sample_target "zone-b"] [] (sample_target "zone-c") 2).
  - by vm_compute.
  - apply (bool_decide_eq_true_1 (_ ∉ _)). by vm_compute.
Defined.

Lemma recovery_plan_is_exactly_the_missing_replicas_witness :
  tasks (plan_or_empty (sample_build sample_targets Replication 100)) =
    imap (replica_task (H0:=padded_blake3) (sample_id 5) "zone-a" Replication)
      (missing_replicas (H:=padded_digest) (manifest_snapshot_id sample_manifest) "zone-a" sample_targets ∅ 2
         (manifest_artifacts sample_manifest)) /\
  length (tasks (plan_or_empty (sample_build sample_targets Replication 100))) = 2%nat.
Proof.
  split; [|by vm_compute].
  refine (proj1 (recovery_plan_is_exactly_the_missing_replicas (H:=padded_digest) (H0:=padded_blake3) (sample_id 5)
    sample_manifest (hex_of 6) "zone-a" sample_targets ∅ 2 100 Replication _ _ _)); by vm_compute.
Defined.

Definition sample_certificate : RecoveryCertificate :=
  {| certificate_format_version := 1; certificate_operation_id := sample_id 5; plan_sha256 := hex_of 8;
     certificate_snapshot_id := sample_id 3; verified_task_count := 2; verified_bytes := 47; result_set_sha256 := hex_of 1;
     certificate_complete := true |}.

Definition empty_backup : SnapshotBackupManifest :=
  {| backup_format_version := 0; backup_id := []; backup_tenant_id := []; backup_dataset_id := []; source_snapshot_id := [];
     source_storage_manifest_sha256 := ""; backup_certificate_sha256 := ""; backup_destination := ""; backup_artifacts := [];
     total_bytes := 0; backup_complete := false |}.

Definition sample_backup : SnapshotBackupManifest :=
  match build_backup_manifest (H:=padded_blake3) backup_plan sample_certificate (hex_of 9) with Ok b => b | Err _ => empty_backup end.

(** The restore of the sample backup exists, so that the second part of the
    theorem applies to it. *)
Example sample_restore_runs :
  is_ok (build_restore_plan (H:=padded_blake3) (sample_id 10) (sample_id 11) sample_backup (hex_of 12) "zone-c" sample_targets 100) = true.
Proof. by vm_compute. Qed.

Lemma backup_restores_every_artifact_witness : validate_backup_manifest sample_backup = Ok tt.
Proof.
  refine (proj1 (backup_restores_every_artifact (H:=padded_digest) (H0:=padded_blake3) (sample_id 5) sample_manifest (hex_of 6)
    "zone-a" two_zones ∅ 2 100 backup_plan sample_certificate (hex_of 9) sample_backup _ _ _ _ _)).
  - done.
  - intros sha names Hn. by rewrite lookup_empty in Hn.
  - apply (bool_decide_eq_true_1 (NoDup _)). by vm_compute.
  - by vm_compute.
  - by vm_compute.
Defined.
