(* ===== verification/Transfers.v ===== *)
(** * Execution of recovery plans

    Models [execute_transfer] of src/crates/ngkg-storage-recovery/src/lib.rs,
    the transfer and finalize modes of src/services/storage-recovery-worker, and
    the planning inputs and limits of storage operations in
    src/services/api/src/main.rs.  Programs are those of [ArtifactStore]; plans
    and certificates those of [StorageRecovery].

    The configuration of a worker is a record; the JSON texts of plans, results,
    certificates and backup manifests are parameters.  A deadline cuts a
    transfer after some number of its calls.  Before it starts, a worker checks
    its buffers against the envelope of [Runtime].

    The theorems show that transfers that report success, under any schedule,
    have left the objects of the plan at their destinations, that a finalizer
    that succeeds has read a verified result for every task, and that a whole
    transfer on stores that work succeeds. *)

From Stdlib Require Import Strings.Byte Strings.String.
From stdpp Require Import functions.
From S2P Require Import Prelude Words Ordered Digest Text Runtime ArtifactStore StorageRecovery.

Local Open Scope N_scope.

(** ** One transfer *)

Definition scratch_path (root : FsPath) (work_id : string) : result RecoveryError FsPath :=
  digest ← ok_or (strip_prefix (as_bytes "blake3:") (as_bytes work_id)) (InvalidContract "work ID lacks BLAKE3 prefix");
  Ok (root ++ [String.string_of_list_byte digest +:+ ".partial"]%string).

Definition artifact_call {A} (p : io ArtifactStoreError A) : io RecoveryError A := with_error Artifact p.

Section Transfers.
Context `{Sha256} {S : Type} `{ObjectStore S}.

(** The [async] block of [execute_transfer]. *)
Definition transfer (operation : Uuid) (task : TransferTask) (source destination : ArtifactStore) (scratch : FsPath)
    (single_put_max_bytes : N) (multipart_buffer_bytes multipart_concurrency : nat) : io RecoveryError TransferResult :=
  copied ← artifact_call (materialize_verified source (source_object_key task) (task_sha256 task) (task_bytes task) scratch);
  _ ← now (fail_if (negb (copied =? task_bytes task)) (Incomplete "source byte length differs from the recovery plan"));
  _ ← artifact_call (put_file_immutable destination (destination_object_key task) (task_sha256 task) scratch
                       single_put_max_bytes multipart_buffer_bytes multipart_concurrency);
  _ ← artifact_call (verify_remote destination (destination_object_key task) (task_sha256 task) (task_bytes task));
  mret {| result_operation_id := operation; result_task_index := task_index task;
          result_stable_work_id := stable_work_id task; result_state := Succeeded;
          observed_sha256 := Some (task_sha256 task); copied_bytes := copied; error_code := None |}.

Definition execute_transfer (operation : Uuid) (task : TransferTask) (source destination : ArtifactStore) (scratch_root : FsPath)
    (single_put_max_bytes : N) (multipart_buffer_bytes multipart_concurrency : nat) : io RecoveryError TransferResult :=
  _ ← now (fail_if (is_nil operation) (InvalidContract "operation ID must be non-nil"));
  _ ← now (validate_task task);
  scratch ← now (scratch_path scratch_root (stable_work_id task));
  _ ← match parent scratch with
      | Some dir => r ← call (CreateDirAll dir); now (map_err RecoveryIo r)
      | None => mret tt
      end;
  bind_program (transfer operation task source destination scratch single_put_max_bytes multipart_buffer_bytes
                  multipart_concurrency)
    (fun outcome => Act (RemoveFile scratch) (fun _ => Done outcome)).

(** ** The worker *)

Inductive WorkerError :=
| WorkerRecovery (error : RecoveryError)
| WorkerStore (error : ArtifactStoreError)
| WorkerIo (error : IoError)
| WorkerRuntime (error : ThreadBudgetError)
| WorkerInvalid (reason : string).

Record TargetRegistry := {
  registry_format_version : N;
  registry_targets : list StorageTarget;
}.

Definition load_registry (registry : TargetRegistry) : result WorkerError TargetRegistry :=
  _ ← fail_if (negb (registry_format_version registry =? 1) || bool_decide (registry_targets registry = []))
              (WorkerInvalid "storage target registry is empty or version-incompatible");
  let names : gset string := list_to_set (target_name <$> registry_targets registry) in
  _ ← fail_if (negb (size names =? length (registry_targets registry))%nat)
              (WorkerInvalid "storage target names are not unique");
  Ok registry.

(** [ArtifactStore::from_base_url], see [ArtifactStore]. *)
Context (open_store : string -> result ArtifactStoreError ArtifactStore).

Definition target_store (registry : TargetRegistry) (name : string) : result WorkerError ArtifactStore :=
  let targets : gmap string StorageTarget :=
    foldl (fun m t => <[target_name t := t]> m) ∅ (registry_targets registry) in
  target ← ok_or (targets !! name) (WorkerInvalid "plan references an unregistered storage target");
  map_err WorkerStore (open_store (base_url target)).

Definition failure_result (plan : RecoveryPlan) (index : N) (work_id : string) (error : RecoveryError) : TransferResult :=
  let '(state, code) :=
    match error with
    | Artifact (ChecksumMismatch _) | Artifact (ImmutableConflict _) => (Quarantined, "CHECKSUM_MISMATCH"%string)
    | Artifact (Store _) | Artifact (Io _) | RecoveryIo _ => (RetryableFailure, "STORAGE_UNAVAILABLE"%string)
    | Artifact _ | InvalidContract _ | InsufficientFailureDomains _ _ | Incomplete _ =>
        (PermanentFailure, "RECOVERY_CONTRACT_FAILED"%string)
    end in
  {| result_operation_id := operation_id plan; result_task_index := index; result_stable_work_id := work_id;
     result_state := state; observed_sha256 := None; copied_bytes := 0; error_code := Some code |}.

(** [tokio::time::timeout]: the program is dropped after [calls] calls. *)
Fixpoint timeout {A} (calls : nat) (p : Program A) : Program (option A) :=
  match p with
  | Done a => Done (Some a)
  | Act a k => match calls with O => Done None | Datatypes.S n => Act a (fun r => timeout n (k r)) end
  end.

Record WorkerConfig := {
  control_store : ArtifactStore;
  plan_object_key : string;
  worker_plan_sha256 : string;
  scratch_root : FsPath;
  completion_index : N;
  max_plan_bytes : N;
  max_task_bytes : N;
  max_result_bytes : N;
  single_put_max_bytes : N;
  multipart_buffer_bytes : nat;
  multipart_concurrency : nat;
  attempt_id : option string;
  worker_machine : Machine;
}.

Definition validate_runtime_envelope (config : WorkerConfig) : result WorkerError unit :=
  envelope ← map_err WorkerRuntime (resource_envelope_report (worker_machine config));
  _ ← map_err WorkerRuntime (validate_buffer_budget (N.of_nat (multipart_buffer_bytes config))
                               (N.of_nat (multipart_concurrency config)) envelope);
  Ok tt.

(** [serde_json] on the documents the worker exchanges. *)
Context (decode_plan : list byte -> option RecoveryPlan) (encode_result : TransferResult -> option (list byte))
  (decode_result : list byte -> option TransferResult) (encode_certificate : RecoveryCertificate -> option (list byte))
  (encode_backup : SnapshotBackupManifest -> option (list byte)).
Context `{Blake3}.

Definition worker_io {A} (p : io WorkerError (result IoError A)) : io WorkerError A := r ← p; now (map_err WorkerIo r).

(** [format!("{index:010}")]. *)
Definition padded10 (n : N) : string := String.string_of_list_byte (digits (Nat.max 10 (decimal_width n)) n).

Definition fetch_plan (config : WorkerConfig) : io WorkerError RecoveryPlan :=
  let plan_path := scratch_root config ++ ["recovery-plan.json"]%string in
  _ ← worker_io (call (CreateDirAll (scratch_root config)));
  _ ← with_error WorkerStore (materialize_verified (control_store config) (plan_object_key config) (worker_plan_sha256 config)
                                (max_plan_bytes config) plan_path);
  text ← worker_io (call (ReadFile plan_path));
  plan ← now (ok_or (decode_plan text) (WorkerInvalid "recovery plan JSON is invalid"));
  _ ← now (map_err WorkerRecovery (validate_recovery_plan plan));
  mret plan.

(** The publication of a document that was written to [path]. *)
Definition put_control (config : WorkerConfig) (key : string) (text : list byte) (path : FsPath) : io WorkerError unit :=
  _ ← with_error WorkerStore (put_file_immutable (control_store config) key (hex_encode (sha256 text)) path
        (single_put_max_bytes config) (multipart_buffer_bytes config) (multipart_concurrency config));
  mret tt.

Definition result_key (plan : RecoveryPlan) (index : N) : string :=
  "storage-recovery/" +:+ simple (operation_id plan) +:+ "/results/" +:+ padded10 index +:+ ".json".

(** Where a result is published: failures below the attempt that made them. *)
Definition publication_key (config : WorkerConfig) (plan : RecoveryPlan) (r : TransferResult) : result WorkerError string :=
  if bool_decide (result_state r = Succeeded) then Ok (result_key plan (completion_index config))
  else
    attempt ← ok_or (attempt_id config) (WorkerInvalid "NGKG_RECOVERY_ATTEMPT_ID is required");
    _ ← fail_if ((128 <? length (as_bytes attempt))%nat
                 || negb (forallb (fun b => is_ascii_alphanumeric b || bool_decide (b = x2d)) (as_bytes attempt)))
                (WorkerInvalid "NGKG_RECOVERY_ATTEMPT_ID is invalid");
    Ok ("storage-recovery/" +:+ simple (operation_id plan) +:+ "/attempts/" +:+ padded10 (completion_index config)
        +:+ "/" +:+ attempt +:+ ".json")%string.

Definition run_transfer (config : WorkerConfig) (registry : TargetRegistry) (deadline : nat) : io WorkerError unit :=
  _ ← now (validate_runtime_envelope config);
  registry ← now (load_registry registry);
  plan ← fetch_plan config;
  let index := completion_index config in
  task ← now (ok_or (task ← tasks plan !! N.to_nat index; if task_index task =? index then Some task else None)
                    (WorkerInvalid "JOB_COMPLETION_INDEX is not a dense plan task"));
  _ ← now (fail_if ((max_task_bytes config <? task_bytes task) || (max_in_flight_bytes plan <? task_bytes task))
                   (WorkerInvalid "task byte ceiling exceeds worker or plan budget"));
  source ← now (target_store registry (source_target task));
  destination ← now (target_store registry (destination_target task));
  execution ← bind_program (timeout deadline (execute_transfer (operation_id plan) task source destination (scratch_root config)
                  (single_put_max_bytes config) (multipart_buffer_bytes config) (multipart_concurrency config)))
                (fun o => Done (Ok o));
  let r := match execution with
           | Some (Ok r) => r
           | Some (Err error) => failure_result plan index (stable_work_id task) error
           | None => {| result_operation_id := operation_id plan; result_task_index := index;
                        result_stable_work_id := stable_work_id task; result_state := RetryableFailure;
                        observed_sha256 := None; copied_bytes := 0; error_code := Some "TASK_TIMEOUT"%string |}
           end in
  text ← now (ok_or (encode_result r) (WorkerInvalid "result cannot be encoded"));
  let path := scratch_root config ++ ["result-" +:+ String.string_of_list_byte (decimal index) +:+ ".json"]%string in
  _ ← worker_io (call (WriteFile path text));
  key ← now (publication_key config plan r);
  _ ← put_control config key text path;
  now (fail_if (negb (bool_decide (result_state r = Succeeded))) (WorkerInvalid "storage recovery partition failed closed")).

(** The loop of the finalizer over the tasks of the plan. *)
Fixpoint collect_results (config : WorkerConfig) (plan : RecoveryPlan) (ts : list TransferTask)
    (acc : RecoveryCertificationAccumulator) : io WorkerError RecoveryCertificationAccumulator :=
  match ts with
  | [] => mret acc
  | task :: ts =>
      let path := scratch_root config ++ ["result-" +:+ padded10 (task_index task) +:+ ".json"]%string in
      _ ← with_error WorkerStore (materialize_unverified_bounded (control_store config) (result_key plan (task_index task))
                                    (max_result_bytes config) path);
      text ← worker_io (call (ReadFile path));
      r ← now (ok_or (decode_result text) (WorkerInvalid "recovery result JSON is invalid"));
      acc ← now (map_err WorkerRecovery (observe encode_result task acc r));
      collect_results config plan ts acc
  end.

Definition run_finalize (config : WorkerConfig) : io WorkerError (RecoveryCertificate * option string) :=
  _ ← now (validate_runtime_envelope config);
  plan ← fetch_plan config;
  acc ← now (map_err WorkerRecovery (accumulator_new plan (worker_plan_sha256 config)));
  acc ← collect_results config plan (tasks plan) acc;
  certificate ← now (map_err WorkerRecovery (finish acc));
  text ← now (ok_or (encode_certificate certificate) (WorkerInvalid "certificate cannot be encoded"));
  let directory := ("storage-recovery/" +:+ simple (operation_id plan) +:+ "/")%string in
  let path := scratch_root config ++ ["recovery-certificate.json"]%string in
  _ ← worker_io (call (WriteFile path text));
  _ ← put_control config (directory +:+ "recovery-certificate.json") text path;
  if forallb (fun task => bool_decide (reason task = Backup)) (tasks plan) && negb (bool_decide (tasks plan = [])) then
    manifest ← now (map_err WorkerRecovery (build_backup_manifest plan certificate (hex_encode (sha256 text))));
    text ← now (ok_or (encode_backup manifest) (WorkerInvalid "backup manifest cannot be encoded"));
    let path := scratch_root config ++ ["backup-manifest.json"]%string in
    _ ← worker_io (call (WriteFile path text));
    let key := (directory +:+ "backup-manifest.json")%string in
    _ ← put_control config key text path;
    mret (certificate, Some key)
  else mret (certificate, None).

End Transfers.

(** ** Planning inputs of the API *)

Inductive StorageRecoveryKind := KindReplicate | KindRelocate | KindNodeLoss | KindBackup | KindRestore.

Record CreateStorageOperationRequest := {
  request_kind : StorageRecoveryKind;
  request_replication_factor : N;
  request_destination_target : option string;
}.

Record StorageRecoveryProfile := {
  profile_source_target : string;
  profile_targets : list StorageTarget;
  profile_max_parallelism : N;
  profile_max_in_flight_bytes : N;
  profile_max_task_bytes : N;
  profile_resource_profile : string;
}.

(** The source and one other registered, writable target. *)
Definition pair_of_targets (profile : StorageRecoveryProfile) (destination reason : string) : result string (list StorageTarget) :=
  let selected := filter (fun t => target_name t = profile_source_target profile \/ target_name t = destination)
                         (profile_targets profile) in
  _ ← fail_if (negb (length selected =? 2)%nat
               || negb (existsb (fun t => bool_decide (target_name t = destination) && writable t) selected)) reason;
  Ok selected.

Definition storage_plan_inputs (profile : StorageRecoveryProfile) (request : CreateStorageOperationRequest) :
    result string (list StorageTarget * N * TransferReason) :=
  _ ← fail_if ((request_replication_factor request =? 0) || (16 <? request_replication_factor request))
              "replicationFactor must be 1..16"%string;
  match request_kind request with
  | KindBackup =>
      destination ← ok_or (request_destination_target request) "backup requires destinationTarget"%string;
      _ ← fail_if (bool_decide (destination = profile_source_target profile))
                  "backup destination must differ from primary storage"%string;
      selected ← pair_of_targets profile destination "backup destination is not a writable registered target";
      Ok (selected, 2, Backup)
  | KindReplicate => Ok (profile_targets profile, request_replication_factor request, Replication)
  | KindRelocate =>
      destination ← ok_or (request_destination_target request) "relocation requires destinationTarget"%string;
      selected ← pair_of_targets profile destination "relocation destination is not a writable registered target";
      Ok (selected, 2, Relocation)
  | KindNodeLoss => Ok (profile_targets profile, request_replication_factor request, NodeLoss)
  | KindRestore => Err "use the restore route"%string
  end.

Definition validate_storage_request (profile : StorageRecoveryProfile) (parallelism bytes : option N)
    (resource_profile : option string) : result string (N * N * string) :=
  let parallelism := default (profile_max_parallelism profile) parallelism in
  let bytes := default (profile_max_in_flight_bytes profile) bytes in
  let resource_profile := default (profile_resource_profile profile) resource_profile in
  _ ← fail_if ((parallelism =? 0) || (profile_max_parallelism profile <? parallelism) || (bytes =? 0)
               || (profile_max_in_flight_bytes profile <? bytes)
               || negb (bool_decide (resource_profile = profile_resource_profile profile)))
              "storage request exceeds the trusted recovery profile"%string;
  Ok (parallelism, bytes, resource_profile).

(** [iter.max()] of the task sizes. *)
Definition max_task (plan : RecoveryPlan) : option N :=
  match task_bytes <$> tasks plan with [] => None | b :: bs => Some (foldl N.max b bs) end.

Definition largest_storage_task (plan : RecoveryPlan) : N := default 0 (max_task plan).

Definition cap_storage_parallelism (requested max_bytes : N) (plan : RecoveryPlan) : N :=
  let largest := N.max (default 1 (max_task plan)) 1 in
  let byte_limited := N.max (max_bytes / largest) 1 in
  let byte_limited := if fits U32_LIMIT byte_limited then byte_limited else U32_LIMIT - 1 in
  N.max (N.min requested byte_limited) 1.

Definition validate_storage_task_sizes (profile : StorageRecoveryProfile) (plan : RecoveryPlan) : result string unit :=
  fail_if (existsb (fun task => profile_max_task_bytes profile <? task_bytes task) (tasks plan))
          "a snapshot artifact exceeds the trusted worker scratch ceiling"%string.

(** ** Transfers under interference *)

Section TransferLemmas.
Context `{Sha256} {S : Type} `{ObjectStore S}.
Implicit Types w : World (S:=S).

Lemma guarded_with_error {E F A} (f : E -> F) (p : io E A) : guarded p -> guarded (with_error f p).
Proof. unfold with_error, io in *. induction p as [a|a k IH]; cbn; [done|]. intros [? Hk]. split; [done|]. intros r. by apply IH. Qed.

Lemma succeeds_with_error {E F A} (f : E -> F) (p : io E A) (Q : A -> World -> Prop) w : succeeds p Q w -> succeeds (with_error f p) Q w.
Proof.
  unfold succeeds, with_error, io in *. revert w. induction p as [[a|e]|a k IH]; intros w Hp; cbn in *; [naive_solver|naive_solver|].
  intros w0 r w1 Hw0 Hp1. apply IH. eauto.
Qed.

Lemma succeeds_weaken {E A} (p : io E A) (Q Q' : A -> World -> Prop) w :
  succeeds p Q w -> (forall a w', Q a w' -> Q' a w') -> succeeds p Q' w.
Proof.
  unfold succeeds, io in *. intros Hp HQ. revert w Hp. induction p as [a|a k IH]; intros w Hp; cbn in *; [eauto|]. intros. eauto.
Qed.

Lemma succeeds_verify self key sha max l o w (Q : N -> World -> Prop) : location (S:=S) self key = Ok l -> is_staging l = false ->
  holds w (store self) l o -> (forall w', N.of_nat (length o) <= max -> holds w' (store self) l o -> Q (N.of_nat (length o)) w') ->
  succeeds (verify_remote (S:=S) self key sha max) Q w.
Proof.
  intros Hl Hst Ho HQ. unfold verify_remote. apply succeeds_bind, succeeds_now. intros expected w1 Hw1 _.
  apply succeeds_bind, succeeds_now. intros l' w2 Hw2 Hl'. rewrite Hl in Hl'. injection Hl' as <-.
  assert (holds w2 (store self) l o) as Ho2 by (by apply Hw2, Hw1).
  apply succeeds_bind, succeeds_bind, succeeds_call. intros w3 r w4 Hw3 Hp w5 Hw5.
  assert (holds w3 (store self) l o) as Ho3 by (by apply Hw3).
  assert (extends w3 w4) as Hw4 by (by eapply perform_extends; [|exact Hp]).
  assert (holds w5 (store self) l o) as Ho5 by (by apply Hw5, Hw4).
  apply succeeds_now. intros n w6 Hw6 Hr. assert (holds w6 (store self) l o) as Ho6 by (by apply Hw6).
  destruct r as [n'|]; cbn in Hr; [injection Hr as ->|done]. cbn in Hp. apply on_store_inv in Hp as (s & Hs & ->).
  apply os_head_spec in Hs as (_ & o' & Ho' & ->). unfold holds in Ho3. assert (o' = o) as -> by congruence.
  apply succeeds_bind, succeeds_now. intros [] w7 Hw7 Hmax. apply fail_if_ok in Hmax. bool_prop.
  assert (holds w7 (store self) l o) as Ho7 by (by apply Hw7).
  eapply succeeds_bind, succeeds_hash_remote; [done..|]. intros w8 Ho8. apply succeeds_bind, succeeds_now. intros _ w9 Hw9 _.
  apply succeeds_now. intros a w10 Hw10 [= <-]. apply HQ; [done|]. by apply Hw10, Hw9.
Qed.

Lemma guarded_execute operation task source destination root single buffer concurrency :
  well_formed source -> well_formed destination ->
  guarded (execute_transfer (S:=S) operation task source destination root single buffer concurrency).
Proof.
  intros Hs Hd. unfold execute_transfer. do 3 (apply guarded_now_bind; intros ? _). apply guarded_bind.
  { destruct (parent _); [apply guarded_bind; [by apply guarded_call|done]|done]. }
  intros _. assert (guarded (transfer (S:=S) operation task source destination a1 single buffer concurrency)) as Ht.
  { unfold transfer, artifact_call. apply guarded_bind; [apply guarded_with_error; by apply (guarded_program
      (CallMaterialize source (source_object_key task) (task_sha256 task) (task_bytes task) a1 None))|]. intros copied.
    apply guarded_now_bind. intros _ _. apply guarded_bind; [by apply guarded_with_error, guarded_put|]. intros _.
    apply guarded_bind; [|done]. apply guarded_with_error. by apply (guarded_program
      (CallVerify destination (destination_object_key task) (task_sha256 task) (task_bytes task))). }
  revert Ht. generalize (transfer (S:=S) operation task source destination a1 single buffer concurrency). intros p. unfold io in p.
  induction p as [r|act k IH]; cbn; [done|]. intros [? ?]. split; [done|]. auto.
Qed.

(** What a transfer that reports success has left behind. *)
Lemma succeeds_execute operation task source destination root single buffer concurrency l w :
  location (S:=S) destination (destination_object_key task) = Ok l -> is_staging l = false ->
  succeeds (execute_transfer (S:=S) operation task source destination root single buffer concurrency)
    (fun r w' => r = expected_result operation task /\
       exists n, published w' (store destination) l (task_sha256 task) n /\ n <= task_bytes task) w.
Proof.
  intros Hl Hst. unfold execute_transfer. do 3 (apply succeeds_bind, succeeds_now; intros ? ? _ _). apply succeeds_bind, succeeds_any.
  intros [] w1.
  assert (succeeds (transfer (S:=S) operation task source destination a1 single buffer concurrency)
    (fun r w' => r = expected_result operation task /\
       exists n, published w' (store destination) l (task_sha256 task) n /\ n <= task_bytes task) w1) as Ht.
  { unfold transfer, artifact_call. apply succeeds_bind, succeeds_any. intros copied w2.
    apply succeeds_bind, succeeds_now. intros [] w3 _ Hc. apply fail_if_ok in Hc. bool_prop. subst copied.
    apply succeeds_bind, succeeds_with_error. eapply succeeds_weaken; [by apply succeeds_put|]. cbn beta. intros n w4 (o & Ho & -> & Hsha).
    apply succeeds_bind, succeeds_with_error. eapply succeeds_verify; [done..|]. intros w5 Hmax Ho5.
    apply succeeds_now. intros r w6 Hw6 [= <-]. split; [done|]. exists (N.of_nat (length o)). split; [|done]. exists o.
    split_and!; [by apply Hw6|done..]. }
  revert w1 Ht. generalize (transfer (S:=S) operation task source destination a1 single buffer concurrency). intros p. unfold io in p.
  unfold succeeds. induction p as [r|act k IH]; intros w1 Ht; cbn in *; [|eauto].
  intros w2 r' w3 Hw2 Hp w4 Hw4. apply Ht. etrans; [exact Hw2|]. etrans; [|exact Hw4]. eapply (perform_extends (RemoveFile a1)); [done|exact Hp].
Qed.

End TransferLemmas.

Section NoLocation.
Context `{Sha256} {S : Type} `{ObjectStore S}.
Implicit Types w : World (S:=S).

(** Without a location for its destination, a transfer never succeeds. *)
Lemma succeeds_execute_nowhere operation task source destination root single buffer concurrency e (Q : TransferResult -> World -> Prop) w :
  location (S:=S) destination (destination_object_key task) = Err e ->
  succeeds (execute_transfer (S:=S) operation task source destination root single buffer concurrency) Q w.
Proof.
  intros Hl. unfold execute_transfer. do 3 (apply succeeds_bind, succeeds_now; intros ? ? _ _). apply succeeds_bind, succeeds_any.
  intros [] w1.
  assert (succeeds (transfer (S:=S) operation task source destination a1 single buffer concurrency) (fun _ _ => False) w1) as Ht.
  { unfold transfer, artifact_call. apply succeeds_bind, succeeds_any. intros copied w2. apply succeeds_bind, succeeds_now.
    intros ? w3 _ _. apply succeeds_bind, succeeds_with_error. unfold put_file_immutable. apply succeeds_bind, succeeds_now.
    intros ? w4 _ _. apply succeeds_bind, succeeds_any. intros ? w5. apply succeeds_bind, succeeds_now. intros l w6 _. congruence. }
  revert w1 Ht. generalize (transfer (S:=S) operation task source destination a1 single buffer concurrency). intros p. unfold io in p.
  unfold succeeds. induction p as [r|act k IH]; intros w1 Ht; cbn in *; [|eauto].
  intros w2 r' w3 Hw2 Hp w4 Hw4 a' ->. destruct (Ht w1 (reflexivity w1) a' eq_refl).
Qed.

(** An attempt at one task. *)
Record Job := {
  job_task : TransferTask;
  job_root : FsPath;
  job_single : N;
  job_buffer : nat;
  job_concurrency : nat;
}.

Definition attempt (operation : Uuid) (store_for : string -> ArtifactStore) (j : Job) : io RecoveryError TransferResult :=
  execute_transfer (S:=S) operation (job_task j) (store_for (source_target (job_task j)))
    (store_for (destination_target (job_task j))) (job_root j) (job_single j) (job_buffer j) (job_concurrency j).

(** The object of a task is where the plan wants it. *)
Definition delivered (store_for : string -> ArtifactStore) w (t : TransferTask) : Prop :=
  exists l o, location (S:=S) (store_for (destination_target t)) (destination_object_key t) = Ok l /\
    objects (stores w (store (store_for (destination_target t)))) !! l = Some o /\
    hex_encode (sha256 o) = task_sha256 t /\ N.of_nat (length o) <= task_bytes t.

Lemma succeeds_attempt operation store_for j w :
  (forall l, location (S:=S) (store_for (destination_target (job_task j))) (destination_object_key (job_task j)) = Ok l ->
     is_staging l = false) ->
  succeeds (attempt operation store_for j)
    (fun r w' => r = expected_result operation (job_task j) /\ delivered store_for w' (job_task j)) w.
Proof.
  intros Hst. unfold attempt.
  destruct (location (S:=S) (store_for (destination_target (job_task j))) (destination_object_key (job_task j))) as [l|e] eqn:Hl.
  - eapply succeeds_weaken; [by apply succeeds_execute; [|apply Hst]|]. cbn beta. intros r w' (-> & n & (o & Ho & -> & Hsha) & Hn).
    split; [done|]. by exists l, o.
  - by eapply succeeds_execute_nowhere.
Qed.

End NoLocation.

(** ** Transfers on stores that work *)

Section TotalTransfers.
Context `{Sha256} {S : Type} `{ReliableStore S}.
Implicit Types w : World (S:=S).
Implicit Types objs : Backend -> gmap Location (list byte).

Lemma total_with_error {E F A} (f : E -> F) w (p : io E A) (Q : A -> World -> Prop) :
  total_triple w p Q -> total_triple w (with_error f p) Q.
Proof.
  unfold total_triple, triple, with_error. rewrite run_bind. destruct (run p w) as [[a|e] w']; done.
Qed.

Lemma total_weaken {E A} w (p : io E A) (Q Q' : A -> World -> Prop) :
  total_triple w p Q -> (forall a w', Q a w' -> Q' a w') -> total_triple w p Q'.
Proof. intros Hp HQ. eapply triple_weaken; [exact Hp|done|done]. Qed.

(** The conditions under which one transfer of [o] works. *)
Record ready (operation : Uuid) (task : TransferTask) (source destination : ArtifactStore) (o : list byte) (single : N)
    (buffer concurrency : nat) (ls ld : Location) : Prop := {
  ready_operation : is_nil operation = false;
  ready_task : validate_task task = Ok tt;
  ready_sha : task_sha256 task = hex_encode (sha256 o);
  ready_bytes : task_bytes task = N.of_nat (length o);
  ready_width : task_bytes task < U64_LIMIT;
  ready_source : location (S:=S) source (source_object_key task) = Ok ls;
  ready_destination : location (S:=S) destination (destination_object_key task) = Ok ld;
  ready_well_formed : well_formed destination;
  ready_staging : is_staging ld = false;
  ready_mode : N.of_nat (length o) <= single \/
    is_ok (location (S:=S) destination (staging_key (hex_encode (sha256 o)) (destination_object_key task))) = true /\
    (0 < buffer)%nat /\ (0 < concurrency)%nat;
}.

Lemma scratch_path_ok root id : valid_work_id id = true ->
  exists name, scratch_path root id = Ok (root ++ [name]).
Proof.
  unfold valid_work_id, scratch_path. intros Hv. bool_prop. destruct (strip_prefix _ _) as [digest|]; [by eexists|].
  by match goal with Hx : is_Some None |- _ => destruct Hx end.
Qed.

Lemma total_remove {E} objs fs w path (Q : result IoError unit -> World -> Prop) : state objs fs w -> is_Some (fs !! path) ->
  (forall w', state objs (delete path fs) w' -> Q (Ok tt) w') -> total_triple w (call (E:=E) (RemoveFile path)) Q.
Proof.
  intros [Ho <- Hx] [o Hp] HQ. unfold total_triple, triple. cbn. unfold on_disk, fs_remove_file, disk_call, next_fault. rewrite Hx.
  cbn. rewrite Hp. apply HQ. split; cbn; [done|done|by rewrite Hx].
Qed.

Lemma total_create_dir_raw {E} objs fs w path (Q : result IoError unit -> World -> Prop) : state objs fs w ->
  (forall w', state objs fs w' -> Q (Ok tt) w') -> total_triple w (call (E:=E) (CreateDirAll path)) Q.
Proof.
  intros [Ho <- Hx] HQ. unfold total_triple, triple. cbn. unfold on_disk, fs_sync, disk_call, next_fault. rewrite Hx.
  apply HQ. split; cbn; [done|done|by rewrite Hx].
Qed.

(** The part of a transfer between its scratch directory and its cleanup. *)
Lemma total_transfer objs fs w operation task source destination scratch single buffer concurrency o ls ld :
  ready operation task source destination o single buffer concurrency ls ld -> state objs fs w ->
  scratch <> [] -> fs !! temporary_of scratch = None ->
  objs (store source) !! ls = Some o -> objs (store destination) !! ld ∈ [None; Some o] ->
  total_triple w (transfer (S:=S) operation task source destination scratch single buffer concurrency)
    (fun r w' => r = expected_result operation task /\
       exists objs', state objs' (<[scratch := o]> fs) w' /\ added objs (store destination) ld o objs').
Proof.
  intros [] Hst Hne Htmp Ho Hd. unfold transfer, artifact_call. apply total_bind, total_with_error. rewrite ready_sha0.
  eapply total_weaken; [eapply total_materialize; try done; lia|]. cbn beta. intros n w1 [-> Hw1].
  rewrite ready_bytes0, N.eqb_refl. apply total_bind, total_now. apply total_bind, total_with_error.
  assert ((<[scratch := o]> fs) !! scratch = Some o) as Hscr by apply lookup_insert_eq.
  assert (forall w2 objs', state objs' (<[scratch := o]> fs) w2 -> added objs (store destination) ld o objs' ->
    total_triple w2 (_ ← artifact_call (verify_remote (S:=S) destination (destination_object_key task) (hex_encode (sha256 o))
        (N.of_nat (length o)));
      mret {| result_operation_id := operation; result_task_index := task_index task;
              result_stable_work_id := stable_work_id task; result_state := Succeeded;
              observed_sha256 := Some (hex_encode (sha256 o)); copied_bytes := N.of_nat (length o); error_code := None |})
      (fun r w' => r = expected_result operation task /\
         exists objs', state objs' (<[scratch := o]> fs) w' /\ added objs (store destination) ld o objs')) as Hend.
  { intros w2 objs' Hw2 Hadd. apply total_bind, total_with_error.
    eapply total_weaken; [eapply total_verify; [done..|apply Hadd|done]|]. cbn beta. intros n w3 [_ Hw3]. apply total_now.
    split; [unfold expected_result; by rewrite ready_sha0, ready_bytes0|]. by exists objs'. }
  apply elem_of_cons in Hd as [Hd|Hd%list_elem_of_singleton].
  - eapply total_weaken; [eapply total_put_new; done|]. cbn beta. intros n w2 (_ & objs' & Hw2 & Hadd). by eapply Hend.
  - eapply total_weaken; [eapply total_put_again; done|]. cbn beta. intros n w2 [_ Hw2]. by eapply Hend.
Qed.

Lemma total_execute objs fs w operation task source destination root single buffer concurrency o ls ld :
  ready operation task source destination o single buffer concurrency ls ld -> state objs fs w ->
  (forall path, path ∈ dom fs -> root `prefix_of` path -> False) ->
  objs (store source) !! ls = Some o -> objs (store destination) !! ld ∈ [None; Some o] ->
  total_triple w (execute_transfer (S:=S) operation task source destination root single buffer concurrency)
    (fun r w' => r = expected_result operation task /\
       exists objs', state objs' fs w' /\ added objs (store destination) ld o objs').
Proof.
  intros Hready Hst Hroot Ho Hd. pose proof Hready as [Hop Htask _ _ _ _ _ _ _ _]. unfold execute_transfer.
  apply total_bind. rewrite Hop. apply total_now. apply total_bind. rewrite Htask. apply total_now.
  apply validate_task_ok in Htask as (Hid & _). destruct (scratch_path_ok root _ Hid) as [name ->]. apply total_bind, total_now.
  assert (forall path, root `prefix_of` path -> fs !! path = None) as Hfree.
  { intros path Hp. apply not_elem_of_dom. intros Hin. by eapply Hroot. }
  assert (parent (root ++ [name]) = Some root) as -> by (unfold parent; rewrite removelast_last; by destruct root).
  apply total_bind, total_bind. eapply (total_create_dir_raw objs fs); [done|]. intros w1 Hw1. apply total_now.
  assert (temporary_of (root ++ [name]) = root ++ ["." +:+ name +:+ ".partial"]%string) as Htmp.
  { unfold temporary_of. by rewrite removelast_last, last_snoc. }
  assert (total_triple w1 (transfer (S:=S) operation task source destination (root ++ [name]) single buffer concurrency)
    (fun r w' => r = expected_result operation task /\
       exists objs', state objs' (<[root ++ [name] := o]> fs) w' /\ added objs (store destination) ld o objs')) as Ht.
  { eapply total_transfer; [done|done|by destruct root| |done..]. rewrite Htmp. apply Hfree. by eexists. }
  destruct (total_done _ _ _ Ht) as (r & w2 & Hrun & -> & objs' & Hw2 & Hadd).
  unfold total_triple, triple. rewrite run_bind, Hrun. cbn [run].
  pose proof (total_remove (E:=RecoveryError) objs' (<[root ++ [name] := o]> fs) w2 (root ++ [name])
    (fun _ w' => state objs' fs w') Hw2) as Hrm.
  destruct (total_done _ _ _ (Hrm ltac:(rewrite lookup_insert_eq; by eexists) ltac:(intros w' Hw'; rewrite delete_insert_id in Hw'
    by (apply Hfree; by eexists); done))) as (rr & w3 & Hrun3 & Hw3).
  cbn [run call] in Hrun3. destruct (perform (RemoveFile (root ++ [name])) w2) as [rr' w3'] eqn:Hp. injection Hrun3 as _ ->.
  split; [done|]. by exists objs'.
Qed.

(** Every task once, one after the other: in a deployment each task is a job of
    its own, this is the schedule that [supplied_plan_is_carried_out] runs. *)
Fixpoint run_tasks (operation : Uuid) (store_for : string -> ArtifactStore) (root : FsPath) (single : N) (buffer concurrency : nat)
    (ts : list TransferTask) w : list (result RecoveryError TransferResult) * World :=
  match ts with
  | [] => ([], w)
  | t :: ts =>
      let '(r, w1) := run (attempt (S:=S) operation store_for
        {| job_task := t; job_root := root; job_single := single; job_buffer := buffer; job_concurrency := concurrency |}) w in
      let '(rs, w2) := run_tasks operation store_for root single buffer concurrency ts w1 in
      (r :: rs, w2)
  end.

(** Every artifact is at its source, and nothing else at its destination. *)
Record supplied (operation : Uuid) (store_for : string -> ArtifactStore) (single : N) (buffer concurrency : nat)
    (content : TransferTask -> list byte) (from to : TransferTask -> Location) (ts : list TransferTask) objs : Prop := {
  supplied_ready t : t ∈ ts -> ready operation t (store_for (source_target t)) (store_for (destination_target t)) (content t)
    single buffer concurrency (from t) (to t);
  supplied_plain t : t ∈ ts -> is_staging (from t) = false;
  supplied_source t : t ∈ ts -> objs (store (store_for (source_target t))) !! from t = Some (content t);
  supplied_destination t : t ∈ ts -> objs (store (store_for (destination_target t))) !! to t ∈ [None; Some (content t)];
  supplied_agree t t' : t ∈ ts -> t' ∈ ts -> store (store_for (destination_target t)) = store (store_for (destination_target t')) ->
    to t = to t' -> content t = content t';
}.

Lemma supplied_step operation store_for single buffer concurrency content from to t ts objs objs' :
  supplied operation store_for single buffer concurrency content from to (t :: ts) objs ->
  added objs (store (store_for (destination_target t))) (to t) (content t) objs' ->
  supplied operation store_for single buffer concurrency content from to ts objs'.
Proof.
  intros [Hr Hp Hs Hd Ha] [Hnew Hframe].
  assert (forall b l o, is_staging l = false -> objs b !! l = Some o -> objs' b !! l = Some o) as Hkeep.
  { intros b l o Hl Ho. destruct (decide (b = store (store_for (destination_target t)) /\ l = to t)) as [[-> ->]|Hne].
    - assert (t ∈ t :: ts) as Hdt%Hd by left. rewrite Ho in Hdt. rewrite Hnew.
      apply elem_of_cons in Hdt as [|Hdt%list_elem_of_singleton]; congruence.
    - rewrite Hframe; [done|done|]. destruct (decide (b = store (store_for (destination_target t)))); naive_solver. }
  split.
  - intros t' Ht'. apply Hr. by right.
  - intros t' Ht'. apply Hp. by right.
  - intros t' Ht'. apply Hkeep; [apply Hp; by right|apply Hs; by right].
  - intros t' Ht'. assert (t' ∈ t :: ts) as Hin by (by right). pose proof (ready_staging _ _ _ _ _ _ _ _ _ _ (Hr t' Hin)) as Hst.
    destruct (decide (store (store_for (destination_target t')) = store (store_for (destination_target t)) /\ to t' = to t)) as [[E1 E2]|Hne].
    + rewrite E1, E2, Hnew, (Ha t' t) by (done || left). set_solver.
    + rewrite Hframe; [by apply Hd|done|]. destruct (decide (store (store_for (destination_target t')) = store (store_for (destination_target t)))); naive_solver.
  - intros t1 t2 H1' H2'. apply Ha; by right.
Qed.

Lemma run_tasks_ok operation store_for root single buffer concurrency content from to fs ts : forall objs w,
  supplied operation store_for single buffer concurrency content from to ts objs -> state objs fs w ->
  (forall path, path ∈ dom fs -> root `prefix_of` path -> False) ->
  exists objs' w', run_tasks operation store_for root single buffer concurrency ts w
      = (Ok <$> (expected_result operation <$> ts), w') /\ state objs' fs w' /\
    (forall b l o, is_staging l = false -> objs b !! l = Some o -> objs' b !! l = Some o) /\
    forall t, t ∈ ts -> objs' (store (store_for (destination_target t))) !! to t = Some (content t).
Proof.
  induction ts as [|t ts IH]; intros objs w Hsup Hst Hroot; [exists objs, w; cbn; split_and!; [done..|by intros ? ?%elem_of_nil]|].
  assert (t ∈ t :: ts) as Hin by left.
  destruct (total_done _ _ _ (total_execute objs fs w operation t _ _ root single buffer concurrency (content t) (from t) (to t)
    (supplied_ready _ _ _ _ _ _ _ _ _ _ Hsup t Hin) Hst Hroot (supplied_source _ _ _ _ _ _ _ _ _ _ Hsup t Hin)
    (supplied_destination _ _ _ _ _ _ _ _ _ _ Hsup t Hin))) as (r & w1 & Hrun & -> & objs1 & Hw1 & Hadd).
  assert (forall b l o, is_staging l = false -> objs b !! l = Some o -> objs1 b !! l = Some o) as Hkeep1.
  { intros b l o Hl Ho. destruct Hadd as [Hnew Hframe].
    destruct (decide (b = store (store_for (destination_target t)) /\ l = to t)) as [[-> ->]|Hne].
    - pose proof (supplied_destination _ _ _ _ _ _ _ _ _ _ Hsup t Hin) as Hdt. rewrite Ho in Hdt. rewrite Hnew.
      apply elem_of_cons in Hdt as [|Hdt%list_elem_of_singleton]; congruence.
    - rewrite Hframe; [done|done|]. destruct (decide (b = store (store_for (destination_target t)))); naive_solver. }
  destruct (IH objs1 w1 (supplied_step _ _ _ _ _ _ _ _ _ _ _ _ Hsup Hadd) Hw1 Hroot) as (objs2 & w2 & Hrun2 & Hw2 & Hkeep2 & Hall).
  exists objs2, w2. cbn [run_tasks]. unfold attempt at 1. cbn [job_task job_root job_single job_buffer job_concurrency].
  rewrite Hrun, Hrun2. split_and!; [done|done|eauto|]. intros t' [->|Ht']%elem_of_cons; [|by apply Hall].
  apply Hkeep2; [|apply Hadd]. exact (ready_staging _ _ _ _ _ _ _ _ _ _ (supplied_ready _ _ _ _ _ _ _ _ _ _ Hsup t Hin)).
Qed.

End TotalTransfers.

(** ** The finalizer *)

Section Finalizer.
Context `{Sha256} {S : Type} `{ObjectStore S}.
Implicit Types w : World (S:=S).

Lemma triple_any {E A} w (p : io E A) (Q : A -> World -> Prop) : (forall a w', Q a w') -> triple w p Q (fun _ => True).
Proof. intros HQ. unfold triple. destruct (run p w) as [[]]; [apply HQ|done]. Qed.

Lemma triple_with_error {E F A} (f : E -> F) w (p : io E A) (Q : A -> World -> Prop) (G : World -> Prop) :
  triple w p Q G -> triple w (with_error f p) Q G.
Proof. unfold triple, with_error. rewrite run_bind. destruct (run p w) as [[a|e] w']; done. Qed.

Lemma triple_unverified w self key max destination :
  triple w (materialize_unverified_bounded (S:=S) self key max destination)
    (fun n w' => exists l o, location (S:=S) self key = Ok l /\ objects (stores w (store self)) !! l = Some o /\
       n = N.of_nat (length o) /\ n <= max /\ reached w (<[destination := o]> (files (disk w))) w') (fun _ => True).
Proof.
  unfold materialize_unverified_bounded. apply triple_bind, triple_now; [|done]. intros l Hl.
  apply triple_bind, triple_head; [|done]. intros w1 o Hw1 Ho. assert (reached w (files (disk w)) w1) as Hr1 by done.
  apply triple_bind, triple_now; [|done]. intros ? Hmax. apply fail_if_ok in Hmax. bool_prop.
  apply triple_bind, triple_now; [|done]. intros dir _.
  apply triple_bind, triple_create_dir; [|done]. intros w2 Hw2. pose proof (reached_quiet _ _ _ _ Hr1 Hw2) as Hr2.
  apply triple_bind, triple_create_new; [|done]. intros w3 _ Hw3.
  assert (reached w (<[destination := []]> (files (disk w))) w3) as Hr3.
  { pose proof (reached_changed _ _ _ _ _ Hr2 Hw3) as [Hob Hf]. split; [done|]. by rewrite Hf, (files_after _ _ _ Hr2). }
  apply triple_bind, triple_get; [|done]. intros w4 chunks o' Hw4 Ho' Hparts. pose proof (reached_quiet _ _ _ _ Hr3 Hw4) as Hr4.
  rewrite (same_objects _ _ _ Hr3) in Ho'. assert (o' = o) as -> by congruence.
  apply triple_bind. eapply triple_weaken; [by eapply triple_copy| |done].
  cbn beta. intros [observed seen] w5 (parts & Hch & Hseen & Hobs & Hr5). cbn [fst snd] in *.
  rewrite (Hparts parts Hch), app_nil_l in Hseen. rewrite (Hparts parts Hch), N.add_0_l in Hobs. subst seen observed.
  apply triple_bind, triple_sync; [|done]. intros w6 Hw6. pose proof (reached_quiet _ _ _ _ Hr5 Hw6) as Hr6.
  apply triple_bind, triple_now; [|done]. intros ? _. apply triple_now; [|done]. intros n [= <-]. by exists l, o.
Qed.

Lemma triple_read w path o (Q : list byte -> World -> Prop) : files (disk w) !! path = Some o ->
  (forall w', quiet w w' -> Q o w') -> triple w (worker_io (call (ReadFile path))) Q (fun _ => True).
Proof.
  intros Ho HQ. apply triple_bind. unfold triple, call. cbn. unfold on_disk, fs_read, disk_call.
  destruct (next_fault (disk w)); cbn; [done|]. rewrite Ho. cbn. apply HQ. by split.
Qed.

Lemma triple_worker_dir w path (Q : unit -> World -> Prop) :
  (forall w', quiet w w' -> Q tt w') -> triple w (worker_io (call (CreateDirAll path))) Q (fun _ => True).
Proof.
  intros HQ. apply triple_bind. unfold triple, call. cbn. unfold on_disk, fs_sync, disk_call.
  destruct (next_fault (disk w)); cbn; [done|]. apply HQ. by split.
Qed.

Context `{Blake3} (decode_plan : list byte -> option RecoveryPlan) (encode_result : TransferResult -> option (list byte))
  (decode_result : list byte -> option TransferResult) (encode_certificate : RecoveryCertificate -> option (list byte))
  (encode_backup : SnapshotBackupManifest -> option (list byte)) (config : WorkerConfig).

(** The plan the control store holds under the digest of the configuration. *)
Definition planned w (plan : RecoveryPlan) : Prop :=
  exists l text, location (S:=S) (control_store config) (plan_object_key config) = Ok l /\
    objects (stores w (store (control_store config))) !! l = Some text /\
    hex_encode (sha256 text) = worker_plan_sha256 config /\ decode_plan text = Some plan /\ validate_plan plan = Ok tt.

(** The result of a task in the control store. *)
Definition reported_result w (plan : RecoveryPlan) (t : TransferTask) (r : TransferResult) : Prop :=
  exists l o, location (S:=S) (control_store config) (result_key plan (task_index t)) = Ok l /\
    objects (stores w (store (control_store config))) !! l = Some o /\ decode_result o = Some r.

Definition same_stores w w' : Prop := forall b, objects (stores w' b) = objects (stores w b).

Lemma triple_fetch_plan w :
  triple w (fetch_plan (S:=S) decode_plan config) (fun plan w' => planned w plan /\ same_stores w w') (fun _ => True).
Proof.
  unfold fetch_plan. apply triple_bind, triple_worker_dir. intros w1 Hw1.
  apply triple_bind, triple_with_error. eapply triple_weaken; [apply triple_materialize| |done].
  cbn beta. intros n w2 (l & text & Hl & Ho & _ & _ & Hsha & Hr). rewrite (same_objects _ _ _ Hw1) in Ho.
  apply triple_bind. eapply triple_read; [by rewrite (files_after _ _ _ Hr), lookup_insert_eq|]. intros w3 Hw3.
  apply triple_bind, triple_now; [|done]. intros plan Hp. apply ok_or_ok in Hp. apply triple_bind, triple_now; [|done].
  intros [] Hv. apply map_err_ok in Hv. apply triple_now; [|done]. intros p [= <-]. split; [by exists l, text|].
  intros b. pose proof (reached_changed _ _ _ _ _ Hr Hw3) as [Hob _]. by rewrite Hob, (same_objects _ _ _ Hw1).
Qed.

Lemma triple_collect plan ts : forall w acc,
  triple w (collect_results (S:=S) encode_result decode_result config plan ts acc)
    (fun acc' w' => same_stores w w' /\
       (forall t, t ∈ ts -> reported_result w plan t (expected_result (acc_operation_id acc) t)) /\
       exists hash, acc' = {| acc_operation_id := acc_operation_id acc; acc_snapshot_id := acc_snapshot_id acc;
                 acc_plan_sha256 := acc_plan_sha256 acc; expected_task_count := expected_task_count acc;
                 next_task_index := next_task_index acc + N.of_nat (length ts);
                 acc_verified_bytes := acc_verified_bytes acc + total_task_bytes ts; result_hash := hash |})
    (fun _ => True).
Proof.
  induction ts as [|t ts IH]; intros w acc; cbn [collect_results].
  { apply triple_now; [|done]. intros a [= <-]. split_and!; [done|by intros ? ?%elem_of_nil|]. exists (result_hash acc).
    cbn [length]. change (total_task_bytes []) with 0. rewrite !N.add_0_r. by destruct acc. }
  apply triple_bind, triple_with_error. eapply triple_weaken; [apply triple_unverified| |done].
  cbn beta. intros n w1 (l & o & Hl & Ho & _ & _ & Hr).
  apply triple_bind. eapply triple_read; [by rewrite (files_after _ _ _ Hr), lookup_insert_eq|]. intros w2 Hw2.
  assert (same_stores w w2) as Hs2 by (intros b; by rewrite (same_objects _ _ _ Hw2), (same_objects _ _ _ Hr)).
  apply triple_bind, triple_now; [|done]. intros r Hdec. apply ok_or_ok in Hdec. apply triple_bind, triple_now; [|done].
  intros acc1 Hobs. apply map_err_ok, observe_ok in Hobs as (encoded & _ & -> & _ & _ & _ & ->).
  eapply triple_weaken; [apply IH| |done]. cbn. intros acc' w' (Hs & Hrep & hash & ->). split_and!.
  - intros b. by rewrite Hs, Hs2.
  - intros t' [->|Ht']%elem_of_cons; [by exists l, o|]. destruct (Hrep t' Ht') as (l' & o' & ? & ? & ?). exists l', o'.
    rewrite <- Hs2. done.
  - exists hash. rewrite total_task_bytes_cons. f_equal; lia.
Qed.

Lemma triple_finalize w :
  triple w (run_finalize (S:=S) decode_plan encode_result decode_result encode_certificate encode_backup config)
    (fun out _ => exists plan, planned w plan /\
       (forall t, t ∈ tasks plan -> reported_result w plan t (expected_result (operation_id plan) t)) /\
       certificate_operation_id out.1 = operation_id plan /\ plan_sha256 out.1 = worker_plan_sha256 config /\
       verified_task_count out.1 = N.of_nat (length (tasks plan)) /\ verified_bytes out.1 = total_task_bytes (tasks plan))
    (fun _ => True).
Proof.
  unfold run_finalize. apply triple_bind, triple_now; [|done]. intros [] _. apply triple_bind.
  eapply triple_weaken; [apply triple_fetch_plan| |done]. cbn beta. intros plan w1 [Hplan Hs1].
  apply triple_bind, triple_now; [|done]. intros acc Hacc. apply map_err_ok, accumulator_ok in Hacc as (_ & _ & _ & ->).
  apply triple_bind. eapply triple_weaken; [apply triple_collect| |done]. cbn beta. intros acc' w2 (_ & Hrep & hash & ->).
  apply triple_bind, triple_now; [|done]. intros certificate Hf. apply map_err_ok, finish_ok in Hf as [_ ->]. cbn [acc_operation_id] in Hrep.
  assert (forall t, t ∈ tasks plan -> reported_result w plan t (expected_result (operation_id plan) t)) as Hrep'.
  { intros t Ht. destruct (Hrep t Ht) as (l & o & ? & ? & ?). exists l, o. by rewrite <- Hs1. }
  apply triple_bind, triple_now; [|done]. intros text _. apply triple_bind, triple_any. intros [] w3.
  apply triple_bind, triple_any. intros [] w4. destruct (_ && _).
  - apply triple_bind, triple_now; [|done]. intros manifest _. apply triple_bind, triple_now; [|done]. intros text' _.
    apply triple_bind, triple_any. intros [] w5. apply triple_bind, triple_any. intros [] w6. apply triple_now; [|done].
    intros out [= <-]. by exists plan.
  - apply triple_now; [|done]. intros out [= <-]. by exists plan.
Qed.

End Finalizer.

(** ** Theorems *)

Section Theorems.
Context `{Sha256} {S : Type} `{ObjectStore S} `{Blake3}.

(** C12: recovery end to end.  Any number of attempts at the tasks of a plan run
    at once with any other disciplined programs, in any order of their steps,
    failing wherever they like.  When the barrier certifies results reported
    by the attempts, every task of the plan has its object at its destination,
    with the digest the plan asks for. *)
Theorem certified_recovery_is_complete (encode_result : TransferResult -> option (list byte)) (plan : RecoveryPlan) (sha : string)
    (store_for : string -> ArtifactStore) (jobs : list Job) (others : list (Program (result RecoveryError TransferResult)))
    (schedule : list nat) (w : World (S:=S)) (results : list TransferResult) (certificate : RecoveryCertificate) :
  (forall name, well_formed (store_for name)) ->
  Forall guarded others ->
  (forall j, j ∈ jobs -> job_task j ∈ tasks plan) ->
  (forall t l, t ∈ tasks plan ->
     location (S:=S) (store_for (destination_target t)) (destination_object_key t) = Ok l -> is_staging l = false) ->
  let state' := interleave schedule ((attempt (operation_id plan) store_for <$> jobs) ++ others, w) in
  (forall r, r ∈ results -> exists i, (i < length jobs)%nat /\ state'.1 !! i = Some (Done (Ok r))) ->
  certify_recovery encode_result plan sha results = Ok certificate ->
  forall t, t ∈ tasks plan -> delivered store_for state'.2 t.
Proof.
  intros Hwf Hothers Hjobs Hst state'. destruct state' as [ts' w'] eqn:Hs. subst state'. cbn [fst snd]. intros Hres Hc t Ht.
  apply certify_recovery_ok in Hc as (Hv & _ & Hp & _). apply validate_plan_ok in Hv as [_ Hpos].
  apply interleave_spec in Hs as [_ HQ].
  2: { apply Forall_app. split; [|done]. apply Forall_fmap, Forall_forall. intros j Hj. by apply guarded_execute. }
  destruct (Hres (expected_result (operation_id plan) t)) as (i & Hi & Hdone).
  { rewrite Hp. by apply list_elem_of_fmap_2. }
  destruct (lookup_lt_is_Some_2 jobs i Hi) as [j Hj]. pose proof (list_elem_of_lookup_2 _ _ _ Hj) as Hin.
  destruct (HQ i (attempt (operation_id plan) store_for j) (fun r w' => forall a, r = Ok a ->
      a = expected_result (operation_id plan) (job_task j) /\ delivered store_for w' (job_task j))) as (p & Hpj & Hout).
  - rewrite lookup_app_l by (by rewrite length_fmap). by rewrite list_lookup_fmap, Hj.
  - apply succeeds_attempt. intros l. apply Hst. by apply Hjobs.
  - rewrite Hdone in Hpj. injection Hpj as <-. destruct (Hout w' (reflexivity w') _ eq_refl) as [E Hd].
    apply Hjobs, list_elem_of_lookup in Hin as [k Hk]. apply list_elem_of_lookup in Ht as [n Hn].
    assert (task_index (job_task j) = task_index t) as Ei by (by injection E).
    destruct (Hpos k _ Hk) as (_ & Hik & _). destruct (Hpos n _ Hn) as (_ & Hin & _).
    assert (k = n) as -> by lia. rewrite Hk in Hn. by injection Hn as <-.
Qed.

(** C15: on stores and a disk that work, a worker carries out every task of a
    plan whose artifacts are at their sources; the barrier certifies what it
    reports, and every object is at its destination. *)
Theorem supplied_plan_is_carried_out `{!ReliableStore S} (encode_result : TransferResult -> option (list byte))
    (plan : RecoveryPlan) (sha : string) (store_for : string -> ArtifactStore) (root : FsPath) (single : N)
    (buffer concurrency : nat) (content : TransferTask -> list byte) (from to : TransferTask -> Location) (w : World (S:=S)) :
  validate_plan plan = Ok tt -> valid_sha256 sha = true ->
  N.of_nat (length (tasks plan)) < U32_LIMIT -> total_task_bytes (tasks plan) < U64_LIMIT ->
  (forall r, is_Some (encode_result r)) ->
  supplied (operation_id plan) store_for single buffer concurrency content from to (tasks plan) (fun b => objects (stores w b)) ->
  faults (disk w) = [] -> (forall path, path ∈ dom (files (disk w)) -> root `prefix_of` path -> False) ->
  exists results w', run_tasks (operation_id plan) store_for root single buffer concurrency (tasks plan) w = (Ok <$> results, w') /\
    is_ok (certify_recovery encode_result plan sha results) = true /\
    forall t, t ∈ tasks plan -> delivered store_for w' t.
Proof.
  intros Hv Hsha Hcnt Hsum Henc Hsup Hx Hroot.
  destruct (run_tasks_ok (operation_id plan) store_for root single buffer concurrency content from to (files (disk w)) (tasks plan)
    (fun b => objects (stores w b)) w Hsup) as (objs' & w' & Hrun & [Hobj _ _] & _ & Hall); [done|done|].
  exists (expected_result (operation_id plan) <$> tasks plan), w'. split_and!; [done| |].
  - assert (exists encs, Forall2 (fun t e => encode_result (expected_result (operation_id plan) t) = Some e) (tasks plan) encs)
      as [encs Hencs].
    { clear -Henc. induction (tasks plan) as [|t ts [encs IH]]; [by exists []|].
      destruct (Henc (expected_result (operation_id plan) t)) as [e He]. exists (e :: encs). by constructor. }
    apply is_ok_true. eexists. apply certify_recovery_ok. split_and!; [exact Hv|exact Hsha|reflexivity|exact Hcnt|exact Hsum|].
    exists encs. split; [exact Hencs|reflexivity].
  - intros t Ht. pose proof (supplied_ready _ _ _ _ _ _ _ _ _ _ Hsup t Ht) as [_ _ Hs Hb _ _ Hd _ _ _].
    exists (to t), (content t). split_and!; [done| |done|lia]. rewrite Hobj. by apply Hall.
Qed.

(** a finalizer that succeeds, whatever failed on the way, has read the plan
    with the configured digest and, for every task of it, a result that says
    the task was carried out exactly as planned; the certificate counts them. *)
Theorem finalizer_reads_every_result (decode_plan : list byte -> option RecoveryPlan)
    (encode_result : TransferResult -> option (list byte)) (decode_result : list byte -> option TransferResult)
    (encode_certificate : RecoveryCertificate -> option (list byte)) (encode_backup : SnapshotBackupManifest -> option (list byte))
    (config : WorkerConfig) (w w' : World (S:=S)) (certificate : RecoveryCertificate) (backup : option string) :
  run (run_finalize decode_plan encode_result decode_result encode_certificate encode_backup config) w
    = (Ok (certificate, backup), w') ->
  exists plan, planned decode_plan config w plan /\
    (forall t, t ∈ tasks plan -> reported_result decode_result config w plan t (expected_result (operation_id plan) t)) /\
    certificate_operation_id certificate = operation_id plan /\ plan_sha256 certificate = worker_plan_sha256 config /\
    verified_task_count certificate = N.of_nat (length (tasks plan)) /\
    verified_bytes certificate = total_task_bytes (tasks plan).
Proof.
  intros Hrun. pose proof (triple_finalize decode_plan encode_result decode_result encode_certificate encode_backup config w) as Ht.
  unfold triple in Ht. by rewrite Hrun in Ht.
Qed.

End Theorems.

(** The number of transfers the API admits at once stays within the byte budget
    whenever the largest one does. *)
Lemma foldl_max_le l : forall m n, foldl N.max m l <= n <-> m <= n /\ Forall (fun x => x <= n) l.
Proof. induction l as [|x l IH]; intros m n; cbn; [split; [done|naive_solver]|]. rewrite IH, Forall_cons. lia || naive_solver lia. Qed.

Theorem admitted_transfers_fit (requested max_bytes : N) (plan : RecoveryPlan) :
  (forall t, t ∈ tasks plan -> task_bytes t <= max_bytes) ->
  cap_storage_parallelism requested max_bytes plan * largest_storage_task plan <= max_bytes.
Proof.
  intros Hall. unfold cap_storage_parallelism, largest_storage_task. set (m := max_task plan).
  assert (default 0 m <= max_bytes) as Hm.
  { subst m. unfold max_task. destruct (tasks plan) as [|t ts] eqn:E; cbn; [lia|]. apply foldl_max_le.
    split; [apply Hall; left|]. apply Forall_fmap, Forall_forall. intros x Hx. apply Hall. by right. }
  destruct m as [b|]; cbn in *; [|lia].
  destruct (N.eq_dec b 0) as [->|Hb]; [lia|]. rewrite (N.max_l b 1) by lia.
  assert (N.max (N.min requested (if fits U32_LIMIT (N.max (max_bytes / b) 1) then N.max (max_bytes / b) 1 else U32_LIMIT - 1)) 1
    <= max_bytes / b) as Hle.
  { assert (1 <= max_bytes / b) by (apply N.div_le_lower_bound; lia). unfold fits.
    destruct (N.ltb_spec (N.max (max_bytes / b) 1) U32_LIMIT); lia. }
  etrans; [apply N.mul_le_mono_r, Hle|]. rewrite N.mul_comm. by apply N.Div0.mul_div_le.
Qed.

(** Every task of a backup requested through the API has the one destination
    of the request. *)
Theorem api_backup_has_one_destination `{Sha256} `{Blake3} (profile : StorageRecoveryProfile) (request : CreateStorageOperationRequest)
    (operation : Uuid) (manifest : SnapshotStorageManifest) (manifest_sha256 : string) (existing : gmap string (gset string))
    (max_bytes : N) (targets : list StorageTarget) (factor : N) (plan : RecoveryPlan) (destination : string) :
  storage_plan_inputs profile request = Ok (targets, factor, Backup) ->
  request_destination_target request = Some destination ->
  build_recovery_plan operation manifest manifest_sha256 (profile_source_target profile) targets existing factor max_bytes Backup
    = Ok plan ->
  2 <= factor /\ forall t, t ∈ tasks plan -> destination_target t = destination.
Proof.
  intros Hin Hdst (_ & _ & _ & _ & _ & _ & Hsel & ->)%build_plan_ok. unfold storage_plan_inputs in Hin.
  apply fail_then in Hin as [_ Hin]. destruct (request_kind request); try done; [by destruct (request_destination_target request); cbn in Hin; inv_steps|].
  rewrite Hdst in Hin. cbn [ok_or mbind result_bind] in Hin. apply fail_then in Hin as [_ Hin].
  apply result_bind_ok in Hin as (sel & Hp & [= -> <-]). split; [lia|]. unfold pair_of_targets in Hp.
  apply fail_then in Hp as [_ [= <-]]. cbn [tasks]. intros t [i Hi]%list_elem_of_lookup. unfold enlist in Hi.
  apply list_lookup_imap_Some in Hi as ([a d] & Hm & ->). cbn. apply list_elem_of_lookup_2, missing_replicas_spec in Hm as (Ha & [Hns _] & Hd).
  unfold placement in Hd. destruct (select_replica_targets _ a _ _) as [names|] eqn:Hs; [|by apply elem_of_nil in Hd].
  destruct (placement_names _ _ _ _ _ Hs d Hd) as (t & Ht & _ & <-). apply list_elem_of_filter in Ht as [[E|E] _]; congruence.
Qed.

(** ** Examples *)

(** Two artifacts of a snapshot in zone a that are backed up to zone b. *)
Definition moved_bytes (n : N) : list byte := if n =? 0 then as_bytes "first partition" else as_bytes "second".

Definition moved_artifact (n : N) : SnapshotArtifact :=
  {| object_key := "snapshots/a/part-" +:+ padded10 n; artifact_sha256 := hex_encode (padded_sha256 (moved_bytes n));
     artifact_bytes := N.of_nat (length (moved_bytes n)) |}.

Definition moved_manifest : SnapshotStorageManifest :=
  {| manifest_format_version := 1; manifest_tenant_id := sample_id 1; manifest_dataset_id := sample_id 2;
     manifest_snapshot_id := sample_id 3; snapshot_manifest_sha256 := hex_of 4; activation_manifest_sha256 := None;
     manifest_artifacts := [moved_artifact 0; moved_artifact 1] |}.

Definition moved_plan : RecoveryPlan :=
  plan_or_empty (build_recovery_plan (H:=padded_digest) (H0:=padded_blake3) (sample_id 5) moved_manifest (hex_of 6) "zone-a"
                   two_zones ∅ 2 100 Backup).

Definition zone_store (name : string) : ArtifactStore :=
  {| store := if bool_decide (name = "zone-a"%string) then 0%nat else 1%nat; prefix := "prod" |}.

Definition zone_memory (b : Backend) : Memory :=
  match b with
  | O => list_to_map ((fun n => ("prod/snapshots/a/part-" +:+ padded10 n, moved_bytes n)%string) <$> [0; 1])
  | Datatypes.S _ => ∅
  end.

Definition zone_world : World (S:=Memory) :=
  {| stores := zone_memory; disk := {| files := ∅; faults := [] |}; counters := fun _ => 0 |}.

Definition moved_content (t : TransferTask) : list byte := moved_bytes (task_index t).
Definition moved_from (t : TransferTask) : Location := "prod/" +:+ source_object_key t.
Definition moved_to (t : TransferTask) : Location := "prod/" +:+ destination_object_key t.

Lemma moved_tasks : exists t0 t1, tasks moved_plan = [t0; t1] /\ task_index t0 = 0 /\ task_index t1 = 1.
Proof. by vm_compute; do 2 eexists. Qed.

Lemma moved_forall (P : TransferTask -> Prop) : Forall P (tasks moved_plan) -> forall t, t ∈ tasks moved_plan -> P t.
Proof. by rewrite Forall_forall. Qed.

Lemma moved_locations t : t ∈ tasks moved_plan ->
  location (S:=Memory) (zone_store (source_target t)) (source_object_key t) = Ok (moved_from t) /\
  location (S:=Memory) (zone_store (destination_target t)) (destination_object_key t) = Ok (moved_to t) /\
  is_staging (moved_from t) = false /\ is_staging (moved_to t) = false.
Proof. revert t. apply moved_forall. repeat constructor; by vm_compute. Qed.

Lemma zone_well_formed name : well_formed (zone_store name).
Proof. by vm_compute. Qed.

Lemma moved_supplied : supplied (H:=padded_digest) (S:=Memory) (operation_id moved_plan) zone_store 0 5 1 moved_content moved_from moved_to
  (tasks moved_plan) (fun b => objects (stores zone_world b)).
Proof.
  split.
  - intros t Ht. pose proof (moved_locations t Ht) as (Hs & Hd & _ & Hst).
    assert (validate_task t = Ok tt /\ task_sha256 t = hex_encode (padded_sha256 (moved_content t)) /\
      task_bytes t = N.of_nat (length (moved_content t)) /\ task_bytes t < U64_LIMIT /\
      is_ok (location (S:=Memory) (zone_store (destination_target t))
        (staging_key (H:=padded_digest) (hex_encode (padded_sha256 (moved_content t))) (destination_object_key t))) = true) as (Hv & Hsha & Hb & Hu & Hstage).
    { clear Hs Hd Hst. revert t Ht. apply moved_forall. repeat constructor; by vm_compute. }
    split; [by vm_compute|done..|by apply zone_well_formed|done|]. right. split_and!; [done|lia|lia].
  - intros t Ht. by apply moved_locations.
  - apply moved_forall. repeat constructor; by vm_compute.
  - apply moved_forall. repeat constructor; by vm_compute.
  - intros t t' Ht Ht' _. revert t Ht. apply (moved_forall (fun t => moved_to t = moved_to t' -> moved_content t = moved_content t')).
    revert t' Ht'. apply moved_forall. repeat constructor; vm_compute; congruence.
Qed.

(** Two attempts at each task of the plan take turns. *)
Definition moved_jobs : list Job :=
  t ← tasks moved_plan;
  (fun root => {| job_task := t; job_root := [root]; job_single := 0; job_buffer := 5; job_concurrency := 1 |})
    <$> ["pod-a"; "pod-b"]%string.

Definition moved_schedule : list nat := replicate 40 0%nat ++ mjoin (replicate 40 [1; 3]%nat) ++ replicate 40 2%nat.

Definition moved_results : list TransferResult := expected_result (operation_id moved_plan) <$> tasks moved_plan.

Local Notation moved_state :=
  (interleave moved_schedule ((attempt (H:=padded_digest) (S:=Memory) (operation_id moved_plan) zone_store <$> moved_jobs) ++ [], zone_world))
  (only parsing).

Lemma moved_reported r : r ∈ moved_results ->
  exists i, (i < length moved_jobs)%nat /\ moved_state.1 !! i = Some (Done (Ok r)).
Proof.
  assert (Forall (fun r => exists i, (i < length moved_jobs)%nat /\ moved_state.1 !! i = Some (Done (Ok r))) moved_results) as Hall.
  { constructor; [exists 1%nat; split; [vm_compute; lia|by vm_compute]|]. constructor; [|constructor].
    exists 2%nat. split; [vm_compute; lia|by vm_compute]. }
  rewrite Forall_forall in Hall. apply Hall.
Qed.

Lemma moved_certified : exists c,
  certify_recovery (H:=padded_digest) (H0:=padded_blake3) sample_encode moved_plan (hex_of 8) moved_results = Ok c.
Proof. apply is_ok_true. by vm_compute. Qed.

Lemma certified_recovery_is_complete_witness :
  exists t, t ∈ tasks moved_plan /\ delivered (H:=padded_digest) zone_store moved_state.2 t.
Proof.
  destruct moved_tasks as (t0 & t1 & Et & _). assert (t0 ∈ tasks moved_plan) as Hin by (rewrite Et; left).
  destruct moved_certified as [c Hc].
  exists t0. split; [exact Hin|].
  refine (certified_recovery_is_complete (H:=padded_digest) (S:=Memory) (H1:=padded_blake3) sample_encode moved_plan (hex_of 8)
    zone_store moved_jobs [] moved_schedule zone_world moved_results c zone_well_formed (Forall_nil_2 _) _ _ moved_reported Hc t0 Hin).
  - intros j Hj. unfold moved_jobs in Hj. apply list_elem_of_bind in Hj as (t & Hj & Ht).
    apply list_elem_of_fmap in Hj as (root & -> & _). exact Ht.
  - intros t l Ht Hl. destruct (moved_locations t Ht) as (_ & Hd & _ & Hst). rewrite Hd in Hl. injection Hl as <-. exact Hst.
Defined.

Lemma supplied_plan_is_carried_out_witness :
  exists results w', run_tasks (H:=padded_digest) (operation_id moved_plan) zone_store ["scratch"]%string 0 5 1 (tasks moved_plan) zone_world
      = (Ok <$> results, w') /\
    is_ok (certify_recovery (H:=padded_digest) (H0:=padded_blake3) sample_encode moved_plan (hex_of 8) results) = true /\
    forall t, t ∈ tasks moved_plan -> delivered (H:=padded_digest) zone_store w' t.
Proof.
  refine (supplied_plan_is_carried_out (H:=padded_digest) (S:=Memory) (H1:=padded_blake3) sample_encode moved_plan (hex_of 8)
    zone_store ["scratch"]%string 0 5 1 moved_content moved_from moved_to zone_world _ _ _ _ _ moved_supplied _ _);
    try by vm_compute.
  intros r. by exists (to_be_bytes 4 (result_task_index r)).
Defined.

(** A control store with the plan and a result for each of its tasks.  The
    texts of the documents stand for the sample plan and its results. *)
Definition plan_text : list byte := as_bytes "plan".

Definition read_plan (text : list byte) : option RecoveryPlan := if bool_decide (text = plan_text) then Some moved_plan else None.

Definition read_result (text : list byte) : option TransferResult :=
  list_find (fun r => sample_encode r = Some text) moved_results ≫= fun '(_, r) => Some r.

Definition control_memory : Memory :=
  list_to_map (("prod/plans/one.json"%string, plan_text) ::
    ((fun r => ("prod/" +:+ result_key moved_plan (result_task_index r), to_be_bytes 4 (result_task_index r))%string) <$> moved_results)).

Definition control_config : WorkerConfig :=
  {| control_store := sample_store; plan_object_key := "plans/one.json"; worker_plan_sha256 := hex_encode (padded_sha256 plan_text);
     scratch_root := ["scratch"]%string; completion_index := 0; max_plan_bytes := 100; max_task_bytes := 100; max_result_bytes := 100;
     single_put_max_bytes := 100; multipart_buffer_bytes := 5; multipart_concurrency := 1; attempt_id := None;
     worker_machine := sample_machine |}.

Definition finalizer : io WorkerError (RecoveryCertificate * option string) :=
  run_finalize (H:=padded_digest) (S:=Memory) (H1:=padded_blake3) read_plan sample_encode read_result
    (fun _ => Some (as_bytes "certificate")) (fun _ => Some (as_bytes "backup")) control_config.

Definition control_world : World (S:=Memory) := sample_world control_memory ∅.

(** A finalizer that runs again on the same scratch directory fails: the files
    of the results are created anew for every run. *)
Example finalizer_needs_fresh_scratch :
  is_ok (run finalizer control_world).1 = true /\
  (run finalizer (run finalizer control_world).2).1 = Err (WorkerStore (Io IoAlreadyExists)).
Proof. by vm_compute. Qed.

Lemma finalizer_runs : exists c b w', run finalizer control_world = (Ok (c, b), w').
Proof.
  destruct (run finalizer control_world) as [[[c b]|e] w'] eqn:Hrun; [by exists c, b, w'|]. exfalso.
  assert (is_ok (run finalizer control_world).1 = true) as Hok by apply finalizer_needs_fresh_scratch. by rewrite Hrun in Hok.
Qed.

Lemma finalizer_reads_every_result_witness :
  exists plan, planned (H:=padded_digest) (S:=Memory) (H1:=padded_blake3) read_plan control_config control_world plan /\
    forall t, t ∈ tasks plan -> reported_result (S:=Memory) read_result control_config control_world plan t (expected_result (operation_id plan) t).
Proof.
  destruct finalizer_runs as (c & b & w' & Hrun).
  destruct (finalizer_reads_every_result (H:=padded_digest) (S:=Memory) (H1:=padded_blake3) read_plan sample_encode read_result
    (fun _ => Some (as_bytes "certificate")) (fun _ => Some (as_bytes "backup")) control_config control_world w' c b Hrun)
    as (plan & Hp & Hr & _).
  exact (ex_intro _ plan (conj Hp Hr)).
Defined.
