(* ===== verification/NativeScan.v ===== *)
(** * Native plans and leaf scans

    Models src/crates/ngkg-native-runtime/src/lib.rs without its stage barrier
    (see [Gang]), src/crates/ngkg-native-runtime/src/openmp.rs, and the kernel
    src/hpc/native/ngkg_openmp_filter.c it talks to.

    Parquet and Arrow are an interface: a file has a schema, row groups with
    statistics, and a reader that gives the rows of chosen row groups in batches.
    Columns are looked up by name.  The code takes the index of a field of the
    Arrow schema for the index of a Parquet leaf column, in projections and in
    statistics; the two agree for flat schemas, such as the compiler writes,
    which the interface assumes.
    A record batch is its schema and its rows, a cell knows the type of its
    column.  The JSON texts of plans and rows are parameters.

    The theorems show that a plan is admitted exactly when its certificate
    matches it, that the bytes the kernel answers are the verdicts of the Rust
    check, and that a scan returns exactly the matching rows of the file in
    either mode, whatever the statistics prune. *)

From Stdlib Require Import Strings.Byte Strings.String.
From S2P Require Import Prelude Words Ordered Digest Text Planner Runtime.

Local Open Scope N_scope.

Inductive NativeRuntimeError :=
| InvalidCutoverMode (mode : string)
| CertificateMismatch
| PlanChecksumMismatch
| IncompletePlan
| InvalidReasoningCoverage
| ScalarOracleForbidden (stage : string)
| StageBudgetMismatch (stage : string)
| InvalidScanContract
| ArtifactMismatch
| InvalidParquetSchema
| PartitionMismatch
| LimitExceeded
| Cancelled
| InvalidBarrier
| InvalidCompletion
| ConflictingCompletion
| IncompletePartitionSet
| InvalidHpcRunPlan
| InvalidHpcRank
| InvalidHpcReceipt
| IncompleteHpcRun
| HpcWorkerPanicked
| OpenMpKernel
| NativeIo
| NativeParquet
| NativeArrow
| NativeJson.

(** ** Cutover *)

Definition NATIVE_CUTOVER_FORMAT_VERSION : N := 1.

Inductive NativeCutoverMode := Disabled | Shadow | Required.

Definition requires_native (mode : NativeCutoverMode) : bool := match mode with Required => true | _ => false end.

Definition mode_as_str (mode : NativeCutoverMode) : string :=
  match mode with Disabled => "disabled" | Shadow => "shadow" | Required => "required" end.

Definition mode_from_str (value : string) : result NativeRuntimeError NativeCutoverMode :=
  if bool_decide (value = "disabled"%string) then Ok Disabled
  else if bool_decide (value = "shadow"%string) then Ok Shadow
  else if bool_decide (value = "required"%string) then Ok Required
  else Err (InvalidCutoverMode value).

Record ReasoningCoverage := {
  closure_index_sha256 : string;
  covered_stage_ids : gset string;
  exact_stage_ids : gset string;
  coverage_proof_sha256 : string;
}.

Record NativeQueryCertificate := {
  cert_format_version : N;
  cert_query_sha256 : string;
  cert_algebra_sha256 : string;
  cert_plan_sha256 : string;
  cert_snapshot_manifest_sha256 : string;
  cert_authorized_graph_set_sha256 : string;
  cert_active_dataset_sha256 : string;
  cert_partition_count : N;
  maximum_input_rows : N;
  maximum_output_rows : N;
  maximum_exchange_bytes : N;
  maximum_spill_bytes : N;
  reasoning : ReasoningCoverage;
}.

Record NativeAdmission := {
  admitted_plan_sha256 : string;
  native_stage_count : N;
  exact_reasoner_stage_count : N;
  admitted_partition_count : N;
}.

Section Cutover.
Context `{Sha256} (encode_plan : DistributedAlgebraPlan -> option (list byte)).

(** One stage, with the numbers of native and of reasoner stages so far. *)
Definition admit_stage (mode : NativeCutoverMode) (certificate : NativeQueryCertificate) (counts : N * N)
    (stage : DistributedAlgebraStage) : result NativeRuntimeError (N * N) :=
  let '(native, exact) := counts in
  _ ← fail_if (negb (stage_partition_count stage =? cert_partition_count certificate)
               || (maximum_input_rows certificate <? max_input_rows stage)
               || (maximum_output_rows certificate <? max_output_rows stage)
               || (maximum_exchange_bytes certificate <? max_exchange_bytes stage)
               || (maximum_spill_bytes certificate <? stage_max_spill_bytes stage))
              (StageBudgetMismatch (stage_id stage));
  match lane stage with
  | NativePartitioned => Ok (saturating_add U32_LIMIT native 1, exact)
  | ExactReasonerPartitioned =>
      _ ← fail_if (negb (bool_decide (stage_id stage ∈ covered_stage_ids (reasoning certificate)))
                   && negb (bool_decide (stage_id stage ∈ exact_stage_ids (reasoning certificate))))
                  InvalidReasoningCoverage;
      Ok (native, saturating_add U32_LIMIT exact 1)
  | ScalarOraclePartitioned =>
      if requires_native mode then Err (ScalarOracleForbidden (stage_id stage)) else Ok (native, exact)
  end.

Definition admit_native_plan (mode : NativeCutoverMode) (certificate : NativeQueryCertificate) (plan : DistributedAlgebraPlan)
    (query snapshot graphs dataset : string) : result NativeRuntimeError NativeAdmission :=
  _ ← fail_if (negb (cert_format_version certificate =? NATIVE_CUTOVER_FORMAT_VERSION)
               || negb (plan_format_version plan =? 1)
               || negb (lower_hex_sha256 query) || negb (lower_hex_sha256 snapshot) || negb (lower_hex_sha256 graphs)
               || negb (lower_hex_sha256 dataset)
               || negb (bool_decide (cert_query_sha256 certificate = query))
               || negb (bool_decide (cert_algebra_sha256 certificate = query_algebra_sha256 plan))
               || negb (bool_decide (cert_snapshot_manifest_sha256 certificate = snapshot))
               || negb (bool_decide (cert_authorized_graph_set_sha256 certificate = graphs))
               || negb (bool_decide (cert_active_dataset_sha256 certificate = dataset))
               || (cert_partition_count certificate <? 2)
               || (maximum_input_rows certificate =? 0) || (maximum_output_rows certificate =? 0)
               || (maximum_exchange_bytes certificate =? 0) || (maximum_spill_bytes certificate =? 0)
               || negb (lower_hex_sha256 (closure_index_sha256 (reasoning certificate)))
               || negb (lower_hex_sha256 (coverage_proof_sha256 (reasoning certificate))))
              CertificateMismatch;
  encoded ← ok_or (encode_plan plan) NativeJson;
  let actual_plan_sha256 := hex_encode (sha256 encoded) in
  _ ← fail_if (negb (bool_decide (cert_plan_sha256 certificate = actual_plan_sha256))) PlanChecksumMismatch;
  _ ← fail_if (negb (require_complete_partition_set plan)) IncompletePlan;
  let all_stage_ids : gset string := list_to_set (stage_id <$> stages plan) in
  let covered := covered_stage_ids (reasoning certificate) in
  let exact := exact_stage_ids (reasoning certificate) in
  _ ← fail_if (negb (bool_decide (covered ∩ exact = ∅)) || negb (bool_decide (covered ∪ exact ⊆ all_stage_ids)))
              InvalidReasoningCoverage;
  '(native, exact) ← try_fold (admit_stage mode certificate) (0, 0) (stages plan);
  Ok {| admitted_plan_sha256 := actual_plan_sha256; native_stage_count := native; exact_reasoner_stage_count := exact;
        admitted_partition_count := cert_partition_count certificate |}.

End Cutover.

(** ** Leaf scans: data *)

Record LeafPredicate := {
  subject_id : option N;
  predicate_id : option N;
  object_id : option N;
  graph_id : option N;
  allowed_graph_ids : gset N;
  require_queryable : bool;
}.

Inductive LeafExecutionMode := RustMode | OpenMpMode.

Global Instance LeafExecutionMode_eq_dec : EqDecision LeafExecutionMode.
Proof. solve_decision. Defined.

Record LeafScanLimits := {
  max_rows : nat;
  max_decoded_bytes : N;
  batch_rows : nat;
  execution_mode : LeafExecutionMode;
}.

Record EncodedFact := {
  fact_subject_id : N;
  fact_predicate_id : N;
  fact_object_kind : N;
  fact_object_id : N;
  fact_graph_id : N;
  fact_partition_id : N;
  fact_canonical_nquad : option string;
}.

Record LeafScanResult := {
  input_sha256 : string;
  output_sha256 : string;
  scanned_rows : N;
  physically_scanned_rows : N;
  pruned_row_groups : N;
  pruned_rows : N;
  matched_rows : N;
  decoded_bytes : N;
  result_rows : list EncodedFact;
  scan_complete : bool;
}.

(** A cell with the type of its column; [None] is null. *)
Inductive Cell :=
| UInt64 (value : option N)
| UInt32 (value : option N)
| UInt8 (value : option N)
| Boolean (value : option bool)
| Utf8 (value : option string)
| OtherType.

Definition Row : Type := gmap string Cell.

Record RecordBatch := {
  batch_schema : list string;
  batch_rows_of : list Row;
}.

(** [parquet::file::statistics::Statistics] of one column of one row group. *)
Inductive Statistics :=
| StatInt32 (min_opt max_opt : option Z)
| StatInt64 (min_opt max_opt : option Z)
| StatOther.

Record RowGroupMetaData := {
  group_num_rows : Z;
  column_statistics : string -> option Statistics;
}.

Record ParquetMetaData := {
  file_schema : list string;
  row_groups : list RowGroupMetaData;
}.

(** The names of the columns a scan reads. *)
Definition integer_columns : list string := ["subject_id64"; "predicate_id64"; "graph_id64"].

Definition index_of (schema : list string) (name : string) : result NativeRuntimeError string :=
  if bool_decide (name ∈ schema) then Ok name else Err NativeArrow.

(** [index_of("object_id64").or_else(|_| index_of("object_term_id64"))]. *)
Definition object_column (schema : list string) : result NativeRuntimeError string :=
  match index_of schema "object_id64" with Ok c => Ok c | Err _ => index_of schema "object_term_id64" end.

Definition optional_column (schema : list string) (name : string) : option string :=
  if bool_decide (name ∈ schema) then Some name else None.

Definition parquet_leaf_projection (schema : list string) : result NativeRuntimeError (list string) :=
  required ← try_map (index_of schema) ["subject_id64"; "predicate_id64"; "object_kind"; "graph_id64"]%string;
  object ← object_column schema;
  Ok (required ++ [object] ++ omap (optional_column schema) ["partition_id"; "queryable_as_rdf"; "canonical_nquad"]%string).

(** ** Statistics *)

(** [u64::try_from(value).ok()] of a signed number. *)
Definition u64_of_signed (z : Z) : option N := if (0 <=? z)%Z then Some (Z.to_N z) else None.

Definition statistics_range (statistics : option Statistics) : option (N * N) :=
  s ← statistics;
  match s with
  | StatInt32 lo hi | StatInt64 lo hi =>
      lo ← lo; lo ← u64_of_signed lo; hi ← hi; hi ← u64_of_signed hi; Some (lo, hi)
  | StatOther => None
  end.

Definition statistics_exclude (statistics : option Statistics) (value : N) : bool :=
  match statistics_range statistics with
  | Some (minimum, maximum) => (value <? minimum) || (maximum <? value)
  | None => false
  end.

Definition statistics_exclude_set (statistics : option Statistics) (values : gset N) : bool :=
  if bool_decide (values = ∅) then true
  else match statistics_range statistics with
       | Some (minimum, maximum) => negb (existsb (fun v => (minimum <=? v) && (v <=? maximum)) (elements values))
       | None => false
       end.

Definition excluded_by (stats : option Statistics) (wanted : option N) : bool :=
  match wanted with Some value => statistics_exclude stats value | None => false end.

(** A row group that the statistics rule out. *)
Definition group_excluded (predicate : LeafPredicate) (object : string) (g : RowGroupMetaData) : bool :=
  excluded_by (column_statistics g "subject_id64") (subject_id predicate)
  || excluded_by (column_statistics g "predicate_id64") (predicate_id predicate)
  || excluded_by (column_statistics g object) (object_id predicate)
  || excluded_by (column_statistics g "graph_id64") (graph_id predicate)
  || statistics_exclude_set (column_statistics g "graph_id64") (allowed_graph_ids predicate).

(** The selected ordinals, the pruned groups and the pruned rows so far. *)
Definition consider_group (predicate : LeafPredicate) (object : string) (st : list nat * N * N) (entry : nat * RowGroupMetaData) :
    result NativeRuntimeError (list nat * N * N) :=
  let '(selected, groups, rows) := st in
  let '(ordinal, g) := entry in
  if group_excluded predicate object g then
    groups ← ok_or (checked_add U64_LIMIT groups 1) LimitExceeded;
    size ← ok_or (u64_of_signed (group_num_rows g)) LimitExceeded;
    rows ← ok_or (checked_add U64_LIMIT rows size) LimitExceeded;
    Ok (selected, groups, rows)
  else Ok (selected ++ [ordinal], groups, rows).

Definition parquet_candidate_row_groups (metadata : ParquetMetaData) (predicate : LeafPredicate) :
    result NativeRuntimeError (list nat * N * N) :=
  let schema := file_schema metadata in
  _ ← index_of schema "subject_id64";
  _ ← index_of schema "predicate_id64";
  object ← object_column schema;
  _ ← index_of schema "graph_id64";
  try_fold (consider_group predicate object) ([], 0, 0) (enumerate (row_groups metadata)).

(** ** Columns of a batch *)

Record ScanColumns := {
  col_object : string;
  col_partition : option string;
  col_queryable : option string;
  col_canonical : option string;
}.

Definition scan_columns (batch : RecordBatch) : result NativeRuntimeError ScanColumns :=
  let schema := batch_schema batch in
  _ ← index_of schema "subject_id64";
  _ ← index_of schema "predicate_id64";
  _ ← index_of schema "object_kind";
  object ← object_column schema;
  _ ← index_of schema "graph_id64";
  Ok {| col_object := object; col_partition := optional_column schema "partition_id";
        col_queryable := optional_column schema "queryable_as_rdf"; col_canonical := optional_column schema "canonical_nquad" |}.

Definition integer (column : string) (row : Row) : result NativeRuntimeError N :=
  match row !! column with
  | Some (UInt64 (Some v)) | Some (UInt32 (Some v)) => Ok v
  | _ => Err InvalidParquetSchema
  end.

Definition col_subject (row : Row) : result NativeRuntimeError N := integer "subject_id64" row.
Definition col_predicate (row : Row) : result NativeRuntimeError N := integer "predicate_id64" row.
Definition col_graph (row : Row) : result NativeRuntimeError N := integer "graph_id64" row.

Definition partition_of (columns : ScanColumns) (row : Row) : result NativeRuntimeError N :=
  match col_partition columns with Some column => integer column row | None => Ok 0 end.

Definition object_kind (row : Row) : result NativeRuntimeError N :=
  match row !! "object_kind"%string with Some (UInt8 (Some v)) => Ok v | _ => Err InvalidParquetSchema end.

Definition queryable (columns : ScanColumns) (row : Row) : result NativeRuntimeError bool :=
  match col_queryable columns with
  | None => Ok true
  | Some column =>
      match row !! column with
      | Some (Boolean v) => Ok (default false v)
      | _ => Err InvalidParquetSchema
      end
  end.

Definition canonical (columns : ScanColumns) (row : Row) : result NativeRuntimeError (option string) :=
  match col_canonical columns with
  | None => Ok None
  | Some column => match row !! column with Some (Utf8 v) => Ok v | _ => Err InvalidParquetSchema end
  end.

(** ** The OpenMP kernel *)

(** [value.to_le_bytes()], and reading it back. *)
Definition le64 (n : N) : list byte := reverse (to_be_bytes 8 n).
Definition of_le (bytes : list byte) : N := from_be_bytes (reverse bytes).

Definition INPUT_MAGIC : list byte := as_bytes "NGKGOMP1".
Definition OUTPUT_MAGIC : list byte := as_bytes "NGKGOUT1".

(** The kernel: src/hpc/native/ngkg_openmp_filter.c, [None] for a status other
    than zero. *)
Module Kernel.

Definition MAX_ROWS : N := 16777216.
Definition MAX_ALLOWED_GRAPHS : N := 1048576.

Record row := {
  subject : N;
  predicate : N;
  object : N;
  graph : N;
  row_queryable : N;
}.

Definition read_exact (n : nat) (input : list byte) : option (list byte * list byte) :=
  if (n <=? length input)%nat then Some (take n input, drop n input) else None.

Definition read_u64 (input : list byte) : option (N * list byte) :=
  '(bytes, input) ← read_exact 8 input; Some (of_le bytes, input).

Fixpoint read_u64s (n : nat) (input : list byte) : option (list N * list byte) :=
  match n with
  | O => Some ([], input)
  | S n => '(v, input) ← read_u64 input; '(vs, input) ← read_u64s n input; Some (v :: vs, input)
  end.

Definition read_row (input : list byte) : option (row * list byte) :=
  '(s, input) ← read_u64 input;
  '(p, input) ← read_u64 input;
  '(o, input) ← read_u64 input;
  '(g, input) ← read_u64 input;
  '(q, input) ← read_exact 1 input;
  if 1 <? of_le q then None
  else Some ({| subject := s; predicate := p; object := o; graph := g; row_queryable := of_le q |}, input).

Fixpoint read_rows (n : nat) (input : list byte) : option (list row) :=
  match n with
  | O => Some []
  | S n => '(r, input) ← read_row input; rs ← read_rows n input; Some (r :: rs)
  end.

(** The loop of [graph_allowed]; the fuel bounds the halvings. *)
Fixpoint search (fuel : nat) (value : N) (graphs : list N) (low high : N) : N :=
  match fuel with
  | O => low
  | S fuel =>
      if low <? high then
        let middle := low + (high - low) / 2 in
        if nth (N.to_nat middle) graphs 0 <? value then search fuel value graphs (middle + 1) high
        else search fuel value graphs low middle
      else low
  end.

Definition graph_allowed (value : N) (graphs : list N) (count : N) : bool :=
  let low := search (S (N.to_nat (N.size count))) value graphs 0 count in
  (low <? count) && (nth (N.to_nat low) graphs 0 =? value).

(** [!(flags & bit) || held]. *)
Definition unless_flag (flags : N) (bit : N) (held : bool) : bool := negb (N.testbit flags bit) || held.

Definition row_matches (flags : N) (values graphs : list N) (graph_count : N) (r : row) : bool :=
  graph_allowed (graph r) graphs graph_count
  && unless_flag flags 0 (subject r =? nth 0 values 0)
  && unless_flag flags 1 (predicate r =? nth 1 values 0)
  && unless_flag flags 2 (object r =? nth 2 values 0)
  && unless_flag flags 3 (graph r =? nth 3 values 0)
  && unless_flag flags 4 (negb (row_queryable r =? 0)).

Definition main (input : list byte) : option (list byte) :=
  '(magic, input) ← read_exact 8 input;
  if negb (bool_decide (magic = INPUT_MAGIC)) then None else
  '(count, input) ← read_u64 input;
  if (count =? 0) || (MAX_ROWS <? count) then None else
  '(flags, input) ← read_u64 input;
  if negb (flags / 32 =? 0) then None else
  '(values, input) ← read_u64s 4 input;
  '(graph_count, input) ← read_u64 input;
  if (graph_count =? 0) || (MAX_ALLOWED_GRAPHS <? graph_count) then None else
  '(graphs, input) ← read_u64s (N.to_nat graph_count) input;
  if negb (windows2_all (fun a b => a <? b) graphs) then None else
  rows ← read_rows (N.to_nat count) input;
  Some (OUTPUT_MAGIC ++ le64 count
        ++ ((fun r => if row_matches flags values graphs graph_count r then x01 else x00) <$> rows)).

End Kernel.

(** The process boundary.  [regular_file] is [symlink_metadata] on the path of the
    executable, [run] the child process: its standard output for the threads, the
    timeout and the input it gets, or [None] when it fails or is killed. *)
Section Boundary.
Context (m : Machine) (regular_file : list byte -> bool) (run : N -> N -> list byte -> option (list byte)).

(** The row of a batch as the kernel gets it. *)
Definition encode_row (columns : ScanColumns) (row : Row) : result NativeRuntimeError (list byte) :=
  s ← col_subject row;
  p ← col_predicate row;
  o ← integer (col_object columns) row;
  g ← col_graph row;
  q ← queryable columns row;
  Ok (le64 s ++ le64 p ++ le64 o ++ le64 g ++ [if (q : bool) then x01 else x00]).

Definition flag (bit : N) (b : bool) : N := if b then N.shiftl 1 bit else 0.

Definition predicate_flags (predicate : LeafPredicate) : N :=
  N.lor (N.lor (N.lor (N.lor (flag 0 (bool_decide (is_Some (subject_id predicate))))
                             (flag 1 (bool_decide (is_Some (predicate_id predicate)))))
                      (flag 2 (bool_decide (is_Some (object_id predicate)))))
               (flag 3 (bool_decide (is_Some (graph_id predicate)))))
        (flag 4 (require_queryable predicate)).

(** A [BTreeSet<u64>] in ascending order. *)
Definition ascending_ids (ids : gset N) : list N := sort_by_key id (elements ids).

Definition encode_header (predicate : LeafPredicate) (count : N) : list byte :=
  INPUT_MAGIC ++ le64 count ++ le64 (predicate_flags predicate)
  ++ concat (le64 <$> [default 0 (subject_id predicate); default 0 (predicate_id predicate);
                       default 0 (object_id predicate); default 0 (graph_id predicate)])
  ++ le64 (N.of_nat (size (allowed_graph_ids predicate)))
  ++ concat (le64 <$> ascending_ids (allowed_graph_ids predicate)).

Definition decode_output (count : nat) (output : list byte) : result NativeRuntimeError (list bool) :=
  _ ← fail_if (negb (length output =? 16 + count)%nat) OpenMpKernel;
  _ ← fail_if (negb (bool_decide (take 8 output = OUTPUT_MAGIC))) OpenMpKernel;
  _ ← fail_if (negb (of_le (take 8 (drop 8 output)) =? N.of_nat count)
               || existsb (fun b => 1 <? Byte.to_N b) (drop 16 output)) OpenMpKernel;
  Ok ((fun b => bool_decide (b = x01)) <$> drop 16 output).

Definition kernel_settings : result NativeRuntimeError (N * N) :=
  executable ← ok_or (env_var m "NGKG_OPENMP_FILTER_EXECUTABLE") OpenMpKernel;
  _ ← fail_if (negb (bool_decide (head executable = Some x2f)) || negb (regular_file executable)) OpenMpKernel;
  threads ← ok_or (value ← env_var m "OMP_NUM_THREADS"; parse_unsigned U64_LIMIT value) OpenMpKernel;
  _ ← fail_if (threads =? 0) OpenMpKernel;
  timeout ← ok_or (parse_unsigned U64_LIMIT (default (as_bytes "30000") (env_var m "NGKG_OPENMP_KERNEL_TIMEOUT_MS")))
                  OpenMpKernel;
  _ ← fail_if ((timeout =? 0) || (120000 <? timeout)) OpenMpKernel;
  Ok (threads, timeout).

Definition filter_batch (columns : ScanColumns) (rows : list Row) (predicate : LeafPredicate) :
    result NativeRuntimeError (list bool) :=
  '(threads, timeout) ← kernel_settings;
  count ← ok_or (u64_of_len (length rows)) LimitExceeded;
  encoded ← try_map (encode_row columns) rows;
  output ← ok_or (run threads timeout (encode_header predicate count ++ concat encoded)) OpenMpKernel;
  decode_output (length rows) output.

End Boundary.

(** ** The scan *)

(** The columns [names] of a row. *)
Definition project (names : list string) (row : Row) : Row := filter (fun '(name, _) => name ∈ names) row.

(** The unsigned number in a cell. *)
Definition cell_number (c : Cell) : option N := match c with UInt64 v | UInt32 v => v | _ => None end.

(** The [parquet] crate: [stored] is the content of the row groups of a file.
    A reader gives the rows of the chosen row groups in order, or fails;
    statistics bound the numbers of their column. *)
Class ParquetReader := {
  try_new : list byte -> result NativeRuntimeError ParquetMetaData;
  (* [with_projection], [with_row_groups], [with_batch_size] and [build] *)
  build : list byte -> list string -> list nat -> nat -> result NativeRuntimeError (list (result NativeRuntimeError RecordBatch));
  stored : list byte -> list (list Row);
  stored_groups content f : try_new content = Ok f ->
    Forall2 (fun g rows => group_num_rows g = Z.of_nat (length rows)) (row_groups f) (stored content);
  statistics_bound content f i g rows row column cell v lo hi : try_new content = Ok f ->
    row_groups f !! i = Some g -> stored content !! i = Some rows -> row ∈ rows -> row !! column = Some cell ->
    cell_number cell = Some v -> statistics_range (column_statistics g column) = Some (lo, hi) -> lo <= v <= hi;
  build_rows content f names selected n batches : try_new content = Ok f -> build content names selected n = Ok (Ok <$> batches) ->
    (forall b, b ∈ batches -> batch_schema b = filter (fun c => c ∈ names) (file_schema f) /\
                              (0 < length (batch_rows_of b) <= n)%nat) /\
    concat (batch_rows_of <$> batches) = project names <$> concat (omap (fun i => stored content !! i) selected);
}.

Record ScanState := {
  st_scanned : N;
  st_physical : N;
  st_decoded : N;
  st_rows : list EncodedFact;
}.

Section Scan.
Context `{Sha256} `{ParquetReader} (encode_rows : list EncodedFact -> option (list byte)).
Context (m : Machine) (regular_file : list byte -> bool) (run : N -> N -> list byte -> option (list byte)).

Definition unwanted (wanted : option N) (value : N) : bool :=
  match wanted with Some w => negb (w =? value) | None => false end.

(** The body of the loop over the rows of a batch. *)
Definition scan_row (columns : ScanColumns) (predicate : LeafPredicate) (limits : LeafScanLimits) (expected_partition : N)
    (st : ScanState) (entry : Row * bool) : result NativeRuntimeError ScanState :=
  let '(row, kept) := entry in
  scanned ← ok_or (checked_add U64_LIMIT (st_scanned st) 1) LimitExceeded;
  physical ← ok_or (checked_add U64_LIMIT (st_physical st) 1) LimitExceeded;
  let skip := Ok {| st_scanned := scanned; st_physical := physical; st_decoded := st_decoded st; st_rows := st_rows st |} in
  if negb kept then skip else
  partition ← partition_of columns row;
  _ ← fail_if (negb (partition =? expected_partition)) PartitionMismatch;
  hidden ← (if require_queryable predicate then q ← queryable columns row; Ok (negb q) else Ok false);
  if (hidden : bool) then skip else
  subject ← col_subject row;
  property ← col_predicate row;
  object ← integer (col_object columns) row;
  graph ← col_graph row;
  if bool_decide (allowed_graph_ids predicate = ∅) || negb (bool_decide (graph ∈ allowed_graph_ids predicate)) then skip else
  if unwanted (subject_id predicate) subject || unwanted (predicate_id predicate) property
     || unwanted (object_id predicate) object || unwanted (graph_id predicate) graph then skip else
  _ ← fail_if (length (st_rows st) =? max_rows limits)%nat LimitExceeded;
  nquad ← canonical columns row;
  let size := saturating_add U64_LIMIT 49 (match nquad with Some t => N.of_nat (String.length t) | None => 0 end) in
  decoded ← ok_or (checked_add U64_LIMIT (st_decoded st) size) LimitExceeded;
  _ ← fail_if (max_decoded_bytes limits <? decoded) LimitExceeded;
  kind ← object_kind row;
  Ok {| st_scanned := scanned; st_physical := physical; st_decoded := decoded;
        st_rows := st_rows st ++ [{| fact_subject_id := subject; fact_predicate_id := property; fact_object_kind := kind;
                                     fact_object_id := object; fact_graph_id := graph; fact_partition_id := expected_partition;
                                     fact_canonical_nquad := nquad |}] |}.

(** The body of the loop over batches.  [cancelled] is what the flag says when
    the batch with that number arrives. *)
Definition scan_batch (predicate : LeafPredicate) (limits : LeafScanLimits) (expected_partition : N) (cancelled : nat -> bool)
    (st : ScanState) (entry : nat * result NativeRuntimeError RecordBatch) : result NativeRuntimeError ScanState :=
  let '(i, batch) := entry in
  _ ← fail_if (cancelled i) Cancelled;
  batch ← batch;
  columns ← scan_columns batch;
  let rows := batch_rows_of batch in
  kept ← (if bool_decide (execution_mode limits = OpenMpMode) then filter_batch m regular_file run columns rows predicate
          else Ok (replicate (length rows) true));
  try_fold (scan_row columns predicate limits expected_partition) st (zip rows kept).

(** [path] is opened three times; its content stays the same. *)
Definition scan_verified_parquet_leaf (content : option (list byte)) (expected_sha256 : string) (expected_bytes expected_partition : N)
    (predicate : LeafPredicate) (limits : LeafScanLimits) (cancelled : nat -> bool) : result NativeRuntimeError LeafScanResult :=
  _ ← fail_if (negb (lower_hex_sha256 expected_sha256) || (max_rows limits =? 0)%nat || (max_decoded_bytes limits =? 0)
               || (batch_rows limits =? 0)%nat) InvalidScanContract;
  content ← ok_or content NativeIo;
  _ ← fail_if (negb (N.of_nat (length content) =? expected_bytes)
               || negb (bool_decide (hex_encode (sha256 content) = expected_sha256))) ArtifactMismatch;
  metadata ← try_new content;
  projection ← parquet_leaf_projection (file_schema metadata);
  '(selected, groups, pruned) ← parquet_candidate_row_groups metadata predicate;
  batches ← build content projection selected (batch_rows limits);
  st ← try_fold (scan_batch predicate limits expected_partition cancelled)
         {| st_scanned := pruned; st_physical := 0; st_decoded := 0; st_rows := [] |} (enumerate batches);
  encoded ← ok_or (encode_rows (st_rows st)) NativeJson;
  matched ← ok_or (u64_of_len (length (st_rows st))) LimitExceeded;
  Ok {| input_sha256 := expected_sha256; output_sha256 := hex_encode (sha256 encoded); scanned_rows := st_scanned st;
        physically_scanned_rows := st_physical st; pruned_row_groups := groups; pruned_rows := pruned; matched_rows := matched;
        decoded_bytes := st_decoded st; result_rows := st_rows st; scan_complete := true |}.

End Scan.

(** ** The kernel computes the verdicts *)

Section KernelLemmas.

Lemma length_le64 n : length (le64 n) = 8%nat.
Proof. unfold le64. by rewrite length_reverse, length_to_be_bytes. Qed.

Lemma of_le64 n : n < U64_LIMIT -> of_le (le64 n) = n.
Proof. intros Hn. unfold of_le, le64. rewrite reverse_involutive, from_to_be_bytes. by apply N.mod_small. Qed.

Lemma kernel_read_app l n rest : length l = n -> Kernel.read_exact n (l ++ rest) = Some (l, rest).
Proof.
  intros <-. unfold Kernel.read_exact. rewrite length_app. destruct (Nat.leb_spec (length l) (length l + length rest)); [|lia].
  by rewrite take_app_length, drop_app_length.
Qed.

Lemma read_u64_le n rest : n < U64_LIMIT -> Kernel.read_u64 (le64 n ++ rest) = Some (n, rest).
Proof.
  intros Hn. unfold Kernel.read_u64. rewrite kernel_read_app by apply length_le64. cbn [mbind option_bind]. by rewrite of_le64.
Qed.

Lemma read_u64s_le ns rest : Forall (fun n => n < U64_LIMIT) ns ->
  Kernel.read_u64s (length ns) (concat (le64 <$> ns) ++ rest) = Some (ns, rest).
Proof.
  induction 1 as [|n ns Hn _ IH]; [done|]. cbn [length fmap list_fmap concat Kernel.read_u64s]. rewrite <- (assoc (++)).
  rewrite read_u64_le by done. cbn [mbind option_bind]. rewrite IH. done.
Qed.

Lemma halved n : 2 * (n / 2) <= n < 2 * (n / 2) + 2.
Proof.
  pose proof (N.div_mod n 2 ltac:(done)) as Hd. pose proof (N.mod_lt n 2 ltac:(done)) as Hm. revert Hd Hm.
  generalize (n / 2) (n mod 2). intros. lia.
Qed.

(** The search of [graph_allowed] finds the first graph that is not smaller. *)
Lemma search_spec value graphs : forall fuel low high,
  (forall i x, graphs !! i = Some x -> N.of_nat i < low -> x < value) ->
  (forall i x, graphs !! i = Some x -> high <= N.of_nat i -> value <= x) ->
  StronglySorted N.lt graphs -> high <= N.of_nat (length graphs) -> low <= high -> high - low < 2 ^ N.of_nat fuel ->
  let k := Kernel.search (S fuel) value graphs low high in
  k <= N.of_nat (length graphs) /\ (forall i x, graphs !! i = Some x -> (x < value <-> N.of_nat i < k)).
Proof.
  intros fuel. induction fuel as [|fuel IH]; intros low high Hlo Hhi Hs Hlen Hle Hf k.
  - assert (low = high) as <- by (cbn in Hf; lia). subst k. cbn. rewrite (proj2 (N.ltb_ge _ _)) by lia. split; [lia|].
    intros i x Hx. split; [|by apply Hlo]. intros Hv. destruct (N.lt_ge_cases (N.of_nat i) low) as [?|Hge]; [done|].
    pose proof (Hhi i x Hx Hge). lia.
  - subst k. change (Kernel.search (S (S fuel)) value graphs low high) with
      (if low <? high then
         let middle := low + (high - low) / 2 in
         if nth (N.to_nat middle) graphs 0 <? value then Kernel.search (S fuel) value graphs (middle + 1) high
         else Kernel.search (S fuel) value graphs low middle
       else low).
    destruct (N.ltb_spec low high) as [Hlt|Hge].
    2: { split; [lia|]. intros i x Hx. split; [|by apply Hlo]. intros Hv.
         destruct (N.lt_ge_cases (N.of_nat i) low) as [?|Hge']; [done|]. pose proof (Hhi i x Hx ltac:(lia)). lia. }
    cbv zeta. set (middle := low + (high - low) / 2).
    assert (low <= middle < high) as Hm.
    { assert ((high - low) / 2 < high - low) as Hq by (apply N.div_lt; lia). subst middle.
      generalize dependent ((high - low) / 2). clear -Hlt. intros. lia. }
    assert (2 ^ N.of_nat (S fuel) = 2 * 2 ^ N.of_nat fuel) as Hp by (rewrite Nat2N.inj_succ, N.pow_succ_r by lia; done).
    assert (2 * ((high - low) / 2) <= high - low < 2 * ((high - low) / 2) + 2) as Hd by apply halved.
    destruct (lookup_lt_is_Some_2 graphs (N.to_nat middle) ltac:(lia)) as [y Hy].
    rewrite (nth_lookup_Some _ _ _ _ Hy).
    destruct (N.ltb_spec y value) as [Hyv|Hyv]; apply IH; try done; try (subst middle; generalize dependent ((high - low) / 2); clear -Hlt Hf Hp Hlen; intros; lia).
    + intros i x Hx Hi. destruct (decide (i = N.to_nat middle)) as [->|Hne]; [congruence|].
      pose proof (StronglySorted_lookup N.lt graphs i (N.to_nat middle) x y Hs ltac:(lia) Hx Hy). lia.
    + intros i x Hx Hi. destruct (decide (i = N.to_nat middle)) as [->|Hne]; [congruence|].
      pose proof (StronglySorted_lookup N.lt graphs (N.to_nat middle) i y x Hs ltac:(lia) Hy Hx). lia.
Qed.

Lemma graph_allowed_spec value graphs : StronglySorted N.lt graphs ->
  Kernel.graph_allowed value graphs (N.of_nat (length graphs)) = bool_decide (value ∈ graphs).
Proof.
  intros Hs. unfold Kernel.graph_allowed.
  destruct (search_spec value graphs (N.to_nat (N.size (N.of_nat (length graphs)))) 0 (N.of_nat (length graphs))) as [Hk Hspec];
    [lia|intros i x Hx%lookup_lt_Some; lia|done|lia|lia|rewrite N2Nat.id, N.sub_0_r; apply N.size_gt|].
  cbv zeta in Hk, Hspec. set (k := Kernel.search _ _ _ _ _) in *. apply eq_true_iff_eq.
  rewrite andb_true_iff, N.ltb_lt, N.eqb_eq, bool_decide_eq_true. split.
  - intros [Hlt Hn]. destruct (lookup_lt_is_Some_2 graphs (N.to_nat k) ltac:(lia)) as [x Hx].
    rewrite (nth_lookup_Some _ _ _ _ Hx) in Hn. subst x. by eapply list_elem_of_lookup_2.
  - intros [i Hi]%list_elem_of_lookup. assert (k = N.of_nat i) as ->.
    { assert (~ (N.of_nat i < k)) by (rewrite <- (Hspec i value Hi); lia).
      destruct (N.lt_ge_cases k (N.of_nat i)) as [Hki|?]; [|lia].
      destruct (lookup_lt_is_Some_2 graphs (N.to_nat k)) as [x Hx]; [apply lookup_lt_Some in Hi; lia|].
      pose proof (StronglySorted_lookup N.lt graphs (N.to_nat k) i x value Hs ltac:(lia) Hx Hi) as Hxv.
      apply (Hspec _ _ Hx) in Hxv. lia. }
    rewrite Nat2N.id, (nth_lookup_Some _ _ _ _ Hi). split; [apply lookup_lt_Some in Hi; lia|done].
Qed.

End KernelLemmas.

(** ** What a scan is to find *)

(** The fields of a row. *)
Record Quad := {
  q_subject : N;
  q_predicate : N;
  q_kind : N;
  q_object : N;
  q_graph : N;
  q_partition : N;
  q_queryable : bool;
  q_nquad : option string;
}.

(** The row has the types the schema asks for, and these fields. *)
Record reads (columns : ScanColumns) (row : Row) (q : Quad) : Prop := {
  reads_subject : col_subject row = Ok (q_subject q);
  reads_predicate : col_predicate row = Ok (q_predicate q);
  reads_kind : object_kind row = Ok (q_kind q);
  reads_object : integer (col_object columns) row = Ok (q_object q);
  reads_graph : col_graph row = Ok (q_graph q);
  reads_partition : partition_of columns row = Ok (q_partition q);
  reads_queryable : queryable columns row = Ok (q_queryable q);
  reads_nquad : canonical columns row = Ok (q_nquad q);
}.

Definition quad_width (q : Quad) : Prop :=
  q_subject q < U64_LIMIT /\ q_predicate q < U64_LIMIT /\ q_object q < U64_LIMIT /\ q_graph q < U64_LIMIT.

Definition predicate_width (p : LeafPredicate) : Prop :=
  (forall v, Some v ∈ [subject_id p; predicate_id p; object_id p; graph_id p] -> v < U64_LIMIT) /\
  (forall g, g ∈ allowed_graph_ids p -> g < U64_LIMIT).

(** The predicate holds of the row. *)
Definition wanted (p : LeafPredicate) (q : Quad) : bool :=
  bool_decide (q_graph q ∈ allowed_graph_ids p)
  && negb (unwanted (subject_id p) (q_subject q)) && negb (unwanted (predicate_id p) (q_predicate q))
  && negb (unwanted (object_id p) (q_object q)) && negb (unwanted (graph_id p) (q_graph q))
  && (negb (require_queryable p) || q_queryable q).

Definition fact_of (q : Quad) : EncodedFact :=
  {| fact_subject_id := q_subject q; fact_predicate_id := q_predicate q; fact_object_kind := q_kind q;
     fact_object_id := q_object q; fact_graph_id := q_graph q; fact_partition_id := q_partition q;
     fact_canonical_nquad := q_nquad q |}.

Section KernelVerdicts.

Definition kernel_row (q : Quad) : Kernel.row :=
  {| Kernel.subject := q_subject q; Kernel.predicate := q_predicate q; Kernel.object := q_object q; Kernel.graph := q_graph q;
     Kernel.row_queryable := if q_queryable q then 1 else 0 |}.

Definition quad_bytes (q : Quad) : list byte :=
  le64 (q_subject q) ++ le64 (q_predicate q) ++ le64 (q_object q) ++ le64 (q_graph q) ++ [if q_queryable q then x01 else x00].

Lemma encode_row_reads columns row q : reads columns row q -> encode_row columns row = Ok (quad_bytes q).
Proof.
  intros []. unfold encode_row. rewrite reads_subject0, reads_predicate0, reads_object0, reads_graph0, reads_queryable0. done.
Qed.

Lemma read_row_quad q rest : quad_width q -> Kernel.read_row (quad_bytes q ++ rest) = Some (kernel_row q, rest).
Proof.
  intros (? & ? & ? & ?). unfold quad_bytes, Kernel.read_row. rewrite <- !(assoc (++)).
  do 4 (rewrite read_u64_le by done; cbn [mbind option_bind]). by destruct (q_queryable q) eqn:E; cbn; unfold kernel_row; rewrite E.
Qed.

Lemma read_rows_quads qs : Forall quad_width qs -> Kernel.read_rows (length qs) (concat (quad_bytes <$> qs)) = Some (kernel_row <$> qs).
Proof.
  induction 1 as [|q qs Hq _ IH]; [done|]. cbn [length fmap list_fmap concat Kernel.read_rows].
  rewrite read_row_quad by done. cbn [mbind option_bind]. by rewrite IH.
Qed.

Lemma ascending_ids_perm ids : ascending_ids ids ≡ₚ elements ids.
Proof. apply sort_by_key_perm. Qed.

Lemma ascending_ids_sorted ids : StronglySorted N.lt (ascending_ids ids).
Proof.
  pose proof (sort_by_key_sorted (A:=N) id (elements ids)) as Hs. fold (ascending_ids ids) in Hs.
  assert (NoDup (ascending_ids ids)) as Hnd by (rewrite ascending_ids_perm; apply NoDup_elements).
  induction Hs as [|x l Hs IH Hx]; [constructor|]. apply NoDup_cons in Hnd as [Hn Hnd]. constructor; [by apply IH|].
  rewrite Forall_forall in *. intros y Hy. specialize (Hx y Hy). assert (x <= y) by exact Hx.
  assert (x <> y) by (by intros ->). lia.
Qed.

Lemma ascending_ids_windows ids : windows2_all (fun a b => a <? b) (ascending_ids ids) = true.
Proof.
  apply windows2_all_Sorted. pose proof (StronglySorted_Sorted (ascending_ids_sorted ids)) as Hs.
  induction Hs as [|x l Hl IH Hx]; [constructor|]. constructor; [exact IH|]. destruct Hx; constructor. by apply N.ltb_lt.
Qed.

Lemma ascending_ids_elem ids g : g ∈ ascending_ids ids <-> g ∈ ids.
Proof. rewrite ascending_ids_perm. apply elem_of_elements. Qed.

Lemma length_ascending_ids ids : length (ascending_ids ids) = size ids.
Proof. by rewrite ascending_ids_perm. Qed.

Lemma testbit_flags p :
  N.testbit (predicate_flags p) 0 = bool_decide (is_Some (subject_id p)) /\
  N.testbit (predicate_flags p) 1 = bool_decide (is_Some (predicate_id p)) /\
  N.testbit (predicate_flags p) 2 = bool_decide (is_Some (object_id p)) /\
  N.testbit (predicate_flags p) 3 = bool_decide (is_Some (graph_id p)) /\
  N.testbit (predicate_flags p) 4 = require_queryable p /\ predicate_flags p / 32 = 0 /\ predicate_flags p < U64_LIMIT.
Proof.
  unfold predicate_flags. by destruct (bool_decide (is_Some (subject_id p))), (bool_decide (is_Some (predicate_id p))),
    (bool_decide (is_Some (object_id p))), (bool_decide (is_Some (graph_id p))), (require_queryable p); vm_compute.
Qed.

Definition wanted_values (p : LeafPredicate) : list N :=
  [default 0 (subject_id p); default 0 (predicate_id p); default 0 (object_id p); default 0 (graph_id p)].

Lemma unless_unwanted flags bit w v : N.testbit flags bit = bool_decide (is_Some w) ->
  Kernel.unless_flag flags bit (v =? default 0 w) = negb (unwanted w v).
Proof.
  intros Hb. unfold Kernel.unless_flag, unwanted. rewrite Hb. destruct w as [w|]; cbn; [|done]. by rewrite N.eqb_sym, negb_involutive.
Qed.

Lemma row_matches_wanted p q :
  Kernel.row_matches (predicate_flags p) (wanted_values p) (ascending_ids (allowed_graph_ids p))
    (N.of_nat (size (allowed_graph_ids p))) (kernel_row q) = wanted p q.
Proof.
  destruct (testbit_flags p) as (H0 & H1 & H2 & H3 & H4 & _). unfold Kernel.row_matches, wanted. cbn [kernel_row Kernel.graph Kernel.subject
    Kernel.predicate Kernel.object Kernel.row_queryable wanted_values nth].
  rewrite <- length_ascending_ids, graph_allowed_spec by apply ascending_ids_sorted.
  rewrite !unless_unwanted by done. unfold Kernel.unless_flag. rewrite H4.
  rewrite (bool_decide_ext _ _ (ascending_ids_elem (allowed_graph_ids p) (q_graph q))). do 2 f_equal. by destruct (q_queryable q).
Qed.

(** The kernel answers a batch with one byte per row: the verdict on it. *)
Lemma kernel_verdicts p qs : predicate_width p -> Forall quad_width qs ->
  (0 < length qs)%nat -> N.of_nat (length qs) <= Kernel.MAX_ROWS ->
  allowed_graph_ids p <> ∅ -> N.of_nat (size (allowed_graph_ids p)) <= Kernel.MAX_ALLOWED_GRAPHS ->
  Kernel.main (encode_header p (N.of_nat (length qs)) ++ concat (quad_bytes <$> qs)) =
    Some (OUTPUT_MAGIC ++ le64 (N.of_nat (length qs)) ++ ((fun q => if wanted p q then x01 else x00) <$> qs)).
Proof.
  intros [Hp Hg] Hqs Hlen Hmax Hne Hsize. unfold Kernel.MAX_ROWS, Kernel.MAX_ALLOWED_GRAPHS in *.
  assert (size (allowed_graph_ids p) <> 0)%nat as Hs0 by (rewrite size_non_empty_iff; set_solver).
  destruct (testbit_flags p) as (_ & _ & _ & _ & _ & Hf & Hf64).
  assert (Forall (fun n => n < U64_LIMIT) (wanted_values p)) as Hvals.
  { assert (forall w, w ∈ [subject_id p; predicate_id p; object_id p; graph_id p] -> default 0 w < U64_LIMIT) as Hw.
    { intros [v|] Hv; [by apply Hp|done]. }
    repeat constructor; apply Hw; set_solver. }
  assert (Forall (fun n => n < U64_LIMIT) (ascending_ids (allowed_graph_ids p))) as Hids.
  { apply Forall_forall. intros g Hin%ascending_ids_elem. by apply Hg. }
  unfold Kernel.main, encode_header. rewrite <- !(assoc (++)). rewrite kernel_read_app by done. cbn [mbind option_bind].
  rewrite bool_decide_eq_true_2 by done. cbn [negb]. rewrite read_u64_le by (unfold U64_LIMIT; lia). cbn [mbind option_bind].
  rewrite (proj2 (orb_false_iff _ _)) by (rewrite N.eqb_neq, N.ltb_ge; unfold Kernel.MAX_ROWS; lia).
  rewrite read_u64_le by done. cbn [mbind option_bind]. rewrite Hf. change (0 =? 0) with true. cbn [negb].
  change 4%nat with (length (wanted_values p)). fold (wanted_values p). rewrite read_u64s_le by done. cbn [mbind option_bind].
  rewrite read_u64_le by (unfold U64_LIMIT; lia). cbn [mbind option_bind].
  rewrite (proj2 (orb_false_iff _ _)) by (rewrite N.eqb_neq, N.ltb_ge; unfold Kernel.MAX_ALLOWED_GRAPHS; lia).
  assert (N.to_nat (N.of_nat (size (allowed_graph_ids p))) = length (ascending_ids (allowed_graph_ids p))) as ->
    by (rewrite length_ascending_ids; lia).
  rewrite read_u64s_le by done. cbn [mbind option_bind].
  assert (windows2_all (fun a b => a <? b) (ascending_ids (allowed_graph_ids p)) = true) as -> by apply ascending_ids_windows.
  cbn [negb]. rewrite Nat2N.id, read_rows_quads by done. cbn [mbind option_bind]. do 3 f_equal.
  rewrite <- list_fmap_compose. apply list_fmap_ext. intros i q _. cbn [compose]. unfold compose. by rewrite row_matches_wanted.
Qed.

End KernelVerdicts.

Section Verdicts.
Context (m : Machine) (regular_file : list byte -> bool) (run : N -> N -> list byte -> option (list byte)).

(** The limits of the kernel on a batch. *)
Definition kernel_fits (p : LeafPredicate) (rows : nat) : Prop :=
  (0 < rows)%nat /\ N.of_nat rows <= Kernel.MAX_ROWS /\ allowed_graph_ids p <> ∅ /\
  N.of_nat (size (allowed_graph_ids p)) <= Kernel.MAX_ALLOWED_GRAPHS.

(** The worker is configured to run the kernel. *)
Definition kernel_installed : Prop :=
  exists threads timeout, kernel_settings m regular_file = Ok (threads, timeout) /\ forall input, run threads timeout input = Kernel.main input.

Lemma decode_verdicts p qs : N.of_nat (length qs) < U64_LIMIT ->
  decode_output (length qs) (OUTPUT_MAGIC ++ le64 (N.of_nat (length qs)) ++ ((fun q => if wanted p q then x01 else x00) <$> qs))
    = Ok (wanted p <$> qs).
Proof.
  intros Hlen. unfold decode_output. set (verdicts := (fun q => if wanted p q then x01 else x00) <$> qs).
  assert (length verdicts = length qs) as Hv by apply length_fmap.
  apply fail_then. split.
  { apply negb_false_iff, Nat.eqb_eq. rewrite !length_app, length_le64, Hv. done. }
  apply fail_then. split; [by rewrite take_app_length', bool_decide_eq_true_2|]. rewrite (drop_app_length' OUTPUT_MAGIC _ 8) by done.
  assert (drop 16 (OUTPUT_MAGIC ++ le64 (N.of_nat (length qs)) ++ verdicts) = verdicts) as Hd.
  { rewrite (assoc (++)). apply drop_app_length'. by rewrite length_app, length_le64. }
  rewrite Hd, take_app_length', of_le64 by (done || by rewrite length_le64). apply fail_then. split.
  - rewrite N.eqb_refl. cbn [negb orb]. apply not_true_iff_false. intros (b & Hb & Hlt)%existsb_exists.
    apply list_elem_of_In, list_elem_of_fmap in Hb as (q & -> & _). by destruct (wanted p q).
  - f_equal. unfold verdicts. rewrite <- list_fmap_compose. apply list_fmap_ext. intros i q _. unfold compose. by destruct (wanted p q).
Qed.

Lemma filter_batch_verdicts columns p rows qs : kernel_installed -> Forall2 (reads columns) rows qs -> predicate_width p ->
  Forall quad_width qs -> kernel_fits p (length rows) ->
  filter_batch m regular_file run columns rows p = Ok (wanted p <$> qs).
Proof.
  intros (threads & timeout & Hset & Hrun) Hr Hp Hq (Hpos & Hmax & Hne & Hg). unfold filter_batch. rewrite Hset. cbn [mbind result_bind].
  assert (N.of_nat (length rows) < U64_LIMIT) as Hlen by (unfold Kernel.MAX_ROWS, U64_LIMIT in *; lia).
  assert (u64_of_len (length rows) = Some (N.of_nat (length rows))) as -> by (by apply u64_of_len_some).
  cbn [ok_or mbind result_bind].
  assert (try_map (encode_row columns) rows = Ok (quad_bytes <$> qs)) as ->.
  { clear -Hr. induction Hr as [|row q rows qs Hrow _ IH]; [done|]. cbn [try_map fmap list_fmap].
    rewrite (encode_row_reads _ _ _ Hrow). cbn [mbind result_bind]. by rewrite IH. }
  cbn [mbind result_bind]. pose proof (Forall2_length _ _ _ Hr) as Hl. rewrite Hl in *.
  rewrite Hrun, kernel_verdicts by done. cbn [ok_or mbind result_bind]. by apply decode_verdicts.
Qed.

End Verdicts.

(** ** Exactness of the scan *)

Section Exact.
Context (p : LeafPredicate) (limits : LeafScanLimits) (expected_partition : N).

(** Bytes a fact counts for. *)
Definition fact_size (q : Quad) : N :=
  saturating_add U64_LIMIT 49 (match q_nquad q with Some t => N.of_nat (String.length t) | None => 0 end).

(** A row the scan looks at. *)
Definition visit (st : ScanState) (q : Quad) : result NativeRuntimeError ScanState :=
  scanned ← ok_or (checked_add U64_LIMIT (st_scanned st) 1) LimitExceeded;
  physical ← ok_or (checked_add U64_LIMIT (st_physical st) 1) LimitExceeded;
  if wanted p q then
    if (length (st_rows st) =? max_rows limits)%nat then Err LimitExceeded else
    if (max_decoded_bytes limits <? st_decoded st + fact_size q) then Err LimitExceeded else
    Ok {| st_scanned := scanned; st_physical := physical; st_decoded := st_decoded st + fact_size q;
          st_rows := st_rows st ++ [fact_of q] |}
  else Ok {| st_scanned := scanned; st_physical := physical; st_decoded := st_decoded st; st_rows := st_rows st |}.

Lemma scan_row_visit columns st row q kept : max_decoded_bytes limits < U64_LIMIT -> reads columns row q -> q_partition q = expected_partition ->
  kept = true \/ kept = wanted p q ->
  scan_row columns p limits expected_partition st (row, kept) = visit st q.
Proof.
  intros Hmax [] Hpart Hkept. unfold scan_row, visit. destruct (checked_add _ (st_scanned st) 1) as [scanned|]; [|done].
  destruct (checked_add _ (st_physical st) 1) as [physical|]; [|done]. cbn [ok_or mbind result_bind].
  destruct (negb kept) eqn:Hk.
  { destruct Hkept as [->| ->]; [done|]. apply negb_true_iff in Hk. by rewrite Hk. }
  clear Hkept Hk. rewrite reads_partition0. cbn [mbind result_bind]. rewrite Hpart, N.eqb_refl. cbn [negb fail_if mbind result_bind].
  rewrite reads_queryable0. cbn [mbind result_bind].
  destruct (require_queryable p && negb (q_queryable q)) eqn:Hq.
  { apply andb_true_iff in Hq as [Hq1 Hq2]. rewrite Hq1. cbn [mbind result_bind]. rewrite Hq2.
    assert (wanted p q = false) as ->; [|done]. unfold wanted. rewrite Hq1. apply negb_true_iff in Hq2. rewrite Hq2. apply andb_false_r. }
  assert ((if require_queryable p then Ok (negb (q_queryable q)) else Ok false) = @Ok NativeRuntimeError bool false) as ->.
  { destruct (require_queryable p); [|done]. cbn in Hq. by rewrite Hq. }
  cbn [mbind result_bind]. rewrite reads_subject0, reads_predicate0, reads_object0, reads_graph0. cbn [mbind result_bind].
  assert (wanted p q = negb (bool_decide (allowed_graph_ids p = ∅) || negb (bool_decide (q_graph q ∈ allowed_graph_ids p)))
    && negb (unwanted (subject_id p) (q_subject q) || unwanted (predicate_id p) (q_predicate q)
             || unwanted (object_id p) (q_object q) || unwanted (graph_id p) (q_graph q))) as ->.
  { unfold wanted. assert (negb (require_queryable p) || q_queryable q = true) as ->
      by (by destruct (require_queryable p), (q_queryable q)).
    rewrite !negb_orb, negb_involutive, andb_true_r. rewrite !andb_assoc. do 4 f_equal.
    case_bool_decide as Hin; case_bool_decide as He; try done. set_solver. }
  destruct (bool_decide (allowed_graph_ids p = ∅) || negb (bool_decide (q_graph q ∈ allowed_graph_ids p))); [done|].
  destruct (unwanted (subject_id p) (q_subject q) || unwanted (predicate_id p) (q_predicate q)
            || unwanted (object_id p) (q_object q) || unwanted (graph_id p) (q_graph q)); [done|]. cbn [negb andb].
  destruct (length (st_rows st) =? max_rows limits)%nat; [done|]. cbn [fail_if mbind result_bind]. rewrite reads_nquad0. cbn [mbind result_bind].
  fold (fact_size q). unfold checked_add, fits. destruct (N.ltb_spec (st_decoded st + fact_size q) U64_LIMIT).
  - cbn [ok_or mbind result_bind]. destruct (max_decoded_bytes limits <? _); [done|]. cbn [fail_if mbind result_bind].
    rewrite reads_kind0. cbn [mbind result_bind]. unfold fact_of. by rewrite Hpart.
  - cbn [ok_or mbind result_bind]. by rewrite (proj2 (N.ltb_lt _ _)) by lia.
Qed.

Definition hits (qs : list Quad) : list Quad := filter (fun q => wanted p q = true) qs.
Definition total_size (qs : list Quad) : N := foldr (fun q n => fact_size q + n) 0 qs.

Lemma visit_narrow st q : st_scanned st + 1 < U64_LIMIT -> st_physical st + 1 < U64_LIMIT ->
  visit st q =
    if wanted p q then
      if (length (st_rows st) =? max_rows limits)%nat then Err LimitExceeded else
      if (max_decoded_bytes limits <? st_decoded st + fact_size q) then Err LimitExceeded else
      Ok {| st_scanned := st_scanned st + 1; st_physical := st_physical st + 1; st_decoded := st_decoded st + fact_size q;
            st_rows := st_rows st ++ [fact_of q] |}
    else Ok {| st_scanned := st_scanned st + 1; st_physical := st_physical st + 1; st_decoded := st_decoded st; st_rows := st_rows st |}.
Proof.
  intros Hs Hp. unfold visit.
  assert (checked_add U64_LIMIT (st_scanned st) 1 = Some (st_scanned st + 1)) as -> by (apply checked_add_some; lia).
  by assert (checked_add U64_LIMIT (st_physical st) 1 = Some (st_physical st + 1)) as -> by (apply checked_add_some; lia).
Qed.

(** The result of visiting rows: the limits are the only obstacle. *)
Lemma visits qs : forall st, st_scanned st + N.of_nat (length qs) < U64_LIMIT -> st_physical st + N.of_nat (length qs) < U64_LIMIT ->
  (length (st_rows st) <= max_rows limits)%nat -> st_decoded st <= max_decoded_bytes limits ->
  try_fold visit st qs =
    if (length (st_rows st) + length (hits qs) <=? max_rows limits)%nat
       && (st_decoded st + total_size (hits qs) <=? max_decoded_bytes limits)
    then Ok {| st_scanned := st_scanned st + N.of_nat (length qs); st_physical := st_physical st + N.of_nat (length qs);
               st_decoded := st_decoded st + total_size (hits qs); st_rows := st_rows st ++ (fact_of <$> hits qs) |}
    else Err LimitExceeded.
Proof.
  induction qs as [|q qs IH]; intros st Hs Hph Hrows Hdec.
  { cbn. rewrite !Nat.add_0_r, !N.add_0_r, app_nil_r. destruct (Nat.leb_spec (length (st_rows st)) (max_rows limits)); [|lia].
    destruct (N.leb_spec (st_decoded st) (max_decoded_bytes limits)); [|lia]. by destruct st. }
  cbn [length] in Hs, Hph. cbn [try_fold]. rewrite visit_narrow by lia. unfold hits. rewrite filter_cons. fold (hits qs).
  destruct (wanted p q) eqn:Hw.
  - rewrite decide_True by done. cbn [length total_size foldr]. fold (total_size (hits qs)).
    destruct (Nat.eqb_spec (length (st_rows st)) (max_rows limits)) as [E|E].
    { cbn [mbind result_bind]. destruct (Nat.leb_spec (length (st_rows st) + S (length (hits qs))) (max_rows limits)); [lia|done]. }
    destruct (N.ltb_spec (max_decoded_bytes limits) (st_decoded st + fact_size q)) as [Hl|Hl].
    { cbn [mbind result_bind]. destruct (N.leb_spec (st_decoded st + (fact_size q + total_size (hits qs))) (max_decoded_bytes limits)); [lia|].
      by rewrite andb_false_r. }
    cbn [mbind result_bind]. rewrite IH; cbn [st_scanned st_physical st_decoded st_rows]; try lia; [|rewrite length_app; cbn; lia].
    rewrite length_app. cbn [length]. rewrite <- !(assoc N.add), <- (assoc Nat.add). cbn [Nat.add].
    destruct (_ && _); [|done]. f_equal. cbn [fmap list_fmap]. rewrite <- (assoc (++)). f_equal; lia.
  - rewrite decide_False by done. cbn [mbind result_bind]. rewrite IH; cbn [st_scanned st_physical st_decoded st_rows]; try lia.
    destruct (_ && _); [|done]. f_equal. f_equal; cbn [length]; lia.
Qed.

End Exact.

(** ** Pruning *)

Section Pruning.
Context (p : LeafPredicate) (object : string).

(** What belongs to the row groups that are not ruled out. *)
Fixpoint kept_groups {A} (gs : list RowGroupMetaData) (xs : list A) : list A :=
  match gs, xs with
  | g :: gs, x :: xs => if group_excluded p object g then kept_groups gs xs else x :: kept_groups gs xs
  | _, _ => []
  end.

Definition excluded_groups (gs : list RowGroupMetaData) : nat := length (filter (fun g => group_excluded p object g = true) gs).

Lemma kept_fmap {A B} (f : A -> B) gs xs : kept_groups gs (f <$> xs) = f <$> kept_groups gs xs.
Proof. revert xs. induction gs as [|g gs IH]; intros [|x xs]; cbn; [done..|]. destruct (group_excluded p object g); [done|]. cbn. by rewrite IH. Qed.

Lemma kept_Forall2 {A B} (R : A -> B -> Prop) gs xs ys : Forall2 R xs ys -> Forall2 R (kept_groups gs xs) (kept_groups gs ys).
Proof.
  intros H. revert gs. induction H as [|x y xs ys Hxy _ IH]; intros [|g gs]; cbn; [constructor..|].
  destruct (group_excluded p object g); auto.
Qed.

Lemma kept_none {A} gs (xs : list A) : (forall g, group_excluded p object g = true) -> kept_groups gs xs = [].
Proof. intros Hall. revert xs. induction gs as [|g gs IH]; intros [|x xs]; cbn; [done..|]. rewrite Hall. apply IH. Qed.

Lemma kept_subset {A} gs (xs : list A) x : x ∈ kept_groups gs xs -> x ∈ xs.
Proof.
  revert xs. induction gs as [|g gs IH]; intros [|y xs]; cbn; try set_solver. destruct (group_excluded p object g); set_solver.
Qed.

(** The closed form of the loop over row groups. *)
Lemma candidates_spec {A} (rows : list (list A)) gs : forall k selected groups pruned,
  Forall2 (fun g (r : list A) => group_num_rows g = Z.of_nat (length r)) gs rows ->
  groups + N.of_nat (length gs) < U64_LIMIT -> pruned + N.of_nat (length (concat rows)) < U64_LIMIT ->
  exists ordinals,
    try_fold (consider_group p object) (selected, groups, pruned) (zip (seq k (length gs)) gs) =
      Ok (selected ++ ordinals, groups + N.of_nat (excluded_groups gs),
          pruned + N.of_nat (length (concat rows) - length (concat (kept_groups gs rows)))) /\
    forall all, drop k all = rows -> omap (fun i => all !! i) ordinals = kept_groups gs rows.
Proof.
  intros k selected groups pruned H. revert k selected groups pruned.
  induction H as [|g r gs rows Hg Hgs IH]; intros k selected groups pruned Hb1 Hb2.
  { exists []. cbn. rewrite app_nil_r, !N.add_0_r. done. }
  cbn [length seq zip zip_with try_fold concat] in *. rewrite length_app in Hb2.
  assert (length (concat (kept_groups gs rows)) <= length (concat rows))%nat as Hsub.
  { clear. revert rows. induction gs as [|g gs IH]; intros [|r rows]; cbn; [lia..|].
    specialize (IH rows). destruct (group_excluded p object g); cbn; rewrite ?length_app; lia. }
  assert (forall all, drop k all = r :: rows -> drop (S k) all = rows /\ all !! k = Some r) as Hdrop.
  { intros all Hd. split; [|by rewrite <- (Nat.add_0_r k), <- lookup_drop, Hd]. rewrite <- Nat.add_1_r, <- drop_drop, Hd. done. }
  unfold consider_group at 2. cbn [kept_groups excluded_groups]. unfold excluded_groups. rewrite filter_cons. fold (excluded_groups gs).
  destruct (group_excluded p object g) eqn:He.
  - rewrite decide_True by done. cbn [length].
    assert (checked_add U64_LIMIT groups 1 = Some (groups + 1)) as -> by (apply checked_add_some; lia). cbn [ok_or mbind result_bind].
    assert (u64_of_signed (group_num_rows g) = Some (N.of_nat (length r))) as ->.
    { unfold u64_of_signed. rewrite Hg. destruct (Z.leb_spec 0 (Z.of_nat (length r))); [f_equal|]; lia. }
    cbn [ok_or mbind result_bind].
    assert (checked_add U64_LIMIT pruned (N.of_nat (length r)) = Some (pruned + N.of_nat (length r))) as -> by (apply checked_add_some; lia).
    cbn [ok_or mbind result_bind]. destruct (IH (S k) selected (groups + 1) (pruned + N.of_nat (length r))) as (ordinals & Hf & Ho); [lia|lia|].
    exists ordinals. rewrite Hf. split; [|intros all [Hd _]%Hdrop; by apply Ho].
    rewrite length_app. f_equal. f_equal; [f_equal; unfold excluded_groups; lia|lia].
  - rewrite decide_False by done. cbn [mbind result_bind].
    destruct (IH (S k) (selected ++ [k]) groups pruned) as (ordinals & Hf & Ho); [lia|lia|].
    exists (k :: ordinals). rewrite Hf, <- (assoc (++)). cbn [concat]. rewrite !length_app. split.
    + f_equal. f_equal. lia.
    + intros all Hd%Hdrop. destruct Hd as [Hd Hk]. cbn [omap list_omap]. rewrite Hk. by rewrite (Ho all).
Qed.

(** Statistics rule out only rows that are not wanted. *)
Lemma excluded_unwanted stats w v : (forall lo hi, statistics_range stats = Some (lo, hi) -> lo <= v <= hi) ->
  excluded_by stats w = true -> unwanted w v = true.
Proof.
  intros Hr. unfold excluded_by, unwanted. destruct w as [w|]; [|done]. unfold statistics_exclude.
  destruct (statistics_range stats) as [[lo hi]|]; [|done]. specialize (Hr lo hi eq_refl). intros He.
  apply negb_true_iff, N.eqb_neq. intros ->. apply orb_true_iff in He as [He|He]; bool_prop; lia.
Qed.

Lemma excluded_group_unwanted `{ParquetReader} content f columns i g rows row q : try_new content = Ok f -> row_groups f !! i = Some g ->
  stored content !! i = Some rows -> row ∈ rows -> reads columns row q -> col_object columns = object ->
  group_excluded p object g = true -> wanted p q = false.
Proof.
  intros Hf Hg Hrows Hrow Hreads Hobj He.
  assert (forall column v, integer column row = Ok v ->
    forall lo hi, statistics_range (column_statistics g column) = Some (lo, hi) -> lo <= v <= hi) as Hbound.
  { intros column v Hi lo hi Hst. unfold integer in Hi. destruct (row !! column) as [cell|] eqn:Hc; [|done].
    eapply (statistics_bound content f i g rows row column cell); try done. by destruct cell as [[?|]|[?|]|?|?|?|]; cbn in *; simplify_eq. }
  pose proof (Hbound _ _ (reads_subject _ _ _ Hreads)) as Hs. pose proof (Hbound _ _ (reads_predicate _ _ _ Hreads)) as Hp.
  pose proof (Hbound _ _ (reads_object _ _ _ Hreads)) as Ho. pose proof (Hbound _ _ (reads_graph _ _ _ Hreads)) as Hgr. rewrite Hobj in Ho.
  unfold wanted. unfold group_excluded in He. rewrite !orb_true_iff in He. destruct He as [[[[He|He]|He]|He]|He].
  - rewrite (excluded_unwanted _ _ _ Hs He). cbn [negb]. by rewrite andb_false_r.
  - rewrite (excluded_unwanted _ _ _ Hp He). cbn [negb]. by rewrite andb_false_r.
  - rewrite (excluded_unwanted _ _ _ Ho He). cbn [negb]. by rewrite andb_false_r.
  - rewrite (excluded_unwanted _ _ _ Hgr He). cbn [negb]. by rewrite andb_false_r.
  - assert (bool_decide (q_graph q ∈ allowed_graph_ids p) = false) as ->; [|done]. apply bool_decide_eq_false_2. intros Hin.
    unfold statistics_exclude_set in He. case_bool_decide as Hemp; [set_solver|].
    destruct (statistics_range (column_statistics g "graph_id64")) as [[lo hi]|] eqn:Hst; [|done].
    specialize (Hgr lo hi eq_refl). apply negb_true_iff, not_true_iff_false in He. apply He, existsb_exists. exists (q_graph q).
    split; [by apply list_elem_of_In, elem_of_elements|]. rewrite andb_true_iff, !N.leb_le. lia.
Qed.

End Pruning.

(** ** Columns of a projection *)

Lemma project_cell names row c : c ∈ names -> project names row !! c = row !! c.
Proof.
  intros Hc. unfold project. destruct (row !! c) as [cell|] eqn:E.
  - by apply map_lookup_filter_Some.
  - apply map_lookup_filter_None. by left.
Qed.

(** The columns of a file, as a batch without projection would have them. *)
Definition file_columns (schema : list string) : result NativeRuntimeError ScanColumns :=
  scan_columns {| batch_schema := schema; batch_rows_of := [] |}.

Lemma index_of_ok schema name c : index_of schema name = Ok c <-> name ∈ schema /\ c = name.
Proof. unfold index_of. case_bool_decide; naive_solver. Qed.

Lemma object_column_ok schema c : object_column schema = Ok c <->
  c ∈ schema /\ (c = "object_id64"%string \/ c = "object_term_id64"%string /\ "object_id64"%string ∉ schema).
Proof.
  unfold object_column, index_of. case_bool_decide as H1; [naive_solver|]. case_bool_decide as H2; naive_solver.
Qed.

Lemma elem_of_kept_columns (names schema : list string) c : c ∈ filter (fun c => c ∈ names) schema <-> c ∈ schema /\ c ∈ names.
Proof. rewrite list_elem_of_filter. tauto. Qed.

Lemma optional_column_kept (names schema : list string) c : (c ∈ schema -> c ∈ names) ->
  optional_column (filter (fun c => c ∈ names) schema) c = optional_column schema c.
Proof. intros Hc. unfold optional_column. by rewrite (bool_decide_ext _ (c ∈ schema)) by (rewrite elem_of_kept_columns; tauto). Qed.

Lemma file_columns_ok schema columns : file_columns schema = Ok columns ->
  exists names, parquet_leaf_projection schema = Ok names /\
    (forall c, c ∈ ["subject_id64"; "predicate_id64"; "object_kind"; "graph_id64"; col_object columns]%string -> c ∈ names) /\
    (forall c, Some c ∈ [col_partition columns; col_queryable columns; col_canonical columns] -> c ∈ names) /\
    forall rows, scan_columns {| batch_schema := filter (fun c => c ∈ names) schema; batch_rows_of := rows |} = Ok columns.
Proof.
  unfold file_columns, scan_columns. cbn [batch_schema]. intros Hc. inv_ok Hc. apply index_of_ok in Ha as [Hs _].
  inv_ok Hc. apply index_of_ok in Ha as [Hp _]. inv_ok Hc. apply index_of_ok in Ha as [Hk _].
  inv_ok Hc. rename a2 into object. rename Ha into Hobj. inv_ok Hc. apply index_of_ok in Ha as [Hg _]. injection Hc as <-.
  set (names := ["subject_id64"; "predicate_id64"; "object_kind"; "graph_id64"]%string ++ [object] ++
    omap (optional_column schema) ["partition_id"; "queryable_as_rdf"; "canonical_nquad"]%string).
  assert (forall c, c ∈ ["partition_id"; "queryable_as_rdf"; "canonical_nquad"]%string -> c ∈ schema -> c ∈ names) as Hopt.
  { intros c Hc Hin. unfold names. rewrite !elem_of_app. right; right. apply list_elem_of_omap. exists c. split; [done|].
    unfold optional_column. by rewrite bool_decide_eq_true_2. }
  assert (forall c, c ∈ ["subject_id64"; "predicate_id64"; "object_kind"; "graph_id64"; object]%string -> c ∈ names) as Hreq.
  { intros c Hc. unfold names. set_solver. }
  assert (forall c, c ∈ schema -> c ∈ ["subject_id64"; "predicate_id64"; "object_kind"; "graph_id64"; object]%string ->
    index_of (filter (fun c => c ∈ names) schema) c = Ok c) as Hidx.
  { intros c Hc Hin. apply index_of_ok. rewrite elem_of_kept_columns. split_and!; auto. }
  exists names. cbn [col_object col_partition col_queryable col_canonical]. split_and!; [|done| |].
  - unfold parquet_leaf_projection. rewrite Hobj.
    assert (try_map (index_of schema) ["subject_id64"; "predicate_id64"; "object_kind"; "graph_id64"]%string
      = Ok ["subject_id64"; "predicate_id64"; "object_kind"; "graph_id64"]%string) as ->; [|done].
    cbn [try_map]. unfold index_of. by rewrite !bool_decide_eq_true_2 by done.
  - intros c Hc. unfold optional_column in Hc. rewrite !elem_of_cons in Hc. destruct Hc as [Hc|[Hc|[Hc|Hc%elem_of_nil]]]; [..|done];
      case_bool_decide; try done; injection Hc as ->; apply Hopt; set_solver.
  - intros rows. apply object_column_ok in Hobj as [Hin Hcase]. rewrite !Hidx by set_solver. cbn [mbind result_bind].
    assert (object_column (filter (fun c => c ∈ names) schema) = Ok object) as ->.
    { apply object_column_ok. rewrite !elem_of_kept_columns. split; [split; [done|]; apply Hreq; set_solver|]. naive_solver. }
    cbn [mbind result_bind]. by rewrite !optional_column_kept by (apply Hopt; set_solver).
Qed.

(** Reading a projected row is reading the row. *)
Lemma reads_project columns names row q :
  (forall c, c ∈ ["subject_id64"; "predicate_id64"; "object_kind"; "graph_id64"; col_object columns]%string -> c ∈ names) ->
  (forall c, Some c ∈ [col_partition columns; col_queryable columns; col_canonical columns] -> c ∈ names) ->
  reads columns row q -> reads columns (project names row) q.
Proof.
  intros Hreq Hopt [].
  assert (forall c, c ∈ names -> integer c (project names row) = integer c row) as Hint
    by (intros c Hc; unfold integer; by rewrite project_cell).
  split; unfold col_subject, col_predicate, col_graph, object_kind, partition_of, queryable, canonical in *;
    rewrite ?Hint, ?project_cell by (apply Hreq; set_solver); try done.
  - destruct (col_partition columns) eqn:E; [|done]. by rewrite Hint by (apply Hopt; set_solver).
  - destruct (col_queryable columns) eqn:E; [|done]. by rewrite project_cell by (apply Hopt; set_solver).
  - destruct (col_canonical columns) eqn:E; [|done]. by rewrite project_cell by (apply Hopt; set_solver).
Qed.

(** ** The theorems *)

Lemma Forall2_concat_rows {A B} (R : A -> B -> Prop) xss yss : Forall2 (Forall2 R) xss yss -> Forall2 R (concat xss) (concat yss).
Proof. induction 1; cbn; [constructor|]. by apply Forall2_app. Qed.

(** Rows in another partition of the lists, with the same fields. *)
Lemma Forall2_split {A B} (R : A -> B -> Prop) xss : forall ys, Forall2 R (concat xss) ys ->
  exists yss, Forall2 (Forall2 R) xss yss /\ concat yss = ys.
Proof.
  induction xss as [|xs xss IH]; intros ys H; cbn in H.
  - inversion H; subst. by exists [].
  - apply Forall2_app_inv_l in H as (y1 & y2 & H1 & H2 & ->). destruct (IH y2 H2) as (yss & Hy & <-). exists (y1 :: yss). auto.
Qed.

Section ScanTheorem.
Context `{Sha256} `{ParquetReader} (encode_rows : list EncodedFact -> option (list byte)).
Context (m : Machine) (regular_file : list byte -> bool) (run : N -> N -> list byte -> option (list byte)).

(** A batch can be filtered in the mode of the scan. *)
Definition batch_ready (p : LeafPredicate) (limits : LeafScanLimits) (rows : nat) (qs : list Quad) : Prop :=
  execution_mode limits = RustMode \/
  kernel_installed m regular_file run /\ predicate_width p /\ Forall quad_width qs /\ kernel_fits p rows.

Lemma scan_batch_visits columns p limits part cancelled st i b qs : cancelled i = false -> max_decoded_bytes limits < U64_LIMIT ->
  scan_columns b = Ok columns -> Forall2 (reads columns) (batch_rows_of b) qs -> Forall (fun q => q_partition q = part) qs ->
  batch_ready p limits (length (batch_rows_of b)) qs ->
  scan_batch m regular_file run p limits part cancelled st (i, Ok b) = try_fold (visit p limits) st qs.
Proof.
  intros Hc Hmax Hcol Hr Hpart Hready. unfold scan_batch. rewrite Hc. cbn [fail_if mbind result_bind]. rewrite Hcol. cbn [mbind result_bind].
  assert (exists kept, (if bool_decide (execution_mode limits = OpenMpMode)
      then filter_batch m regular_file run columns (batch_rows_of b) p else Ok (replicate (length (batch_rows_of b)) true)) = Ok kept /\
    Forall2 (fun q k => k = true \/ k = wanted p q) qs kept) as (kept & -> & Hkept).
  { destruct Hready as [->|(Hk & Hpw & Hqw & Hfits)].
    - rewrite bool_decide_eq_false_2 by done. eexists. split; [reflexivity|]. rewrite (Forall2_length _ _ _ Hr).
      clear. induction qs; cbn; constructor; auto.
    - case_bool_decide.
      + rewrite (filter_batch_verdicts _ _ _ _ _ _ qs) by done. eexists. split; [reflexivity|].
        clear. induction qs; cbn; constructor; auto.
      + eexists. split; [reflexivity|]. rewrite (Forall2_length _ _ _ Hr). clear. induction qs; cbn; constructor; auto. }
  cbn [mbind result_bind]. clear Hready Hcol. revert st kept Hkept Hpart.
  induction Hr as [|row q rows qs Hrow _ IH]; intros st kept Hkept Hpart; inversion Hkept; subst; [done|].
  inversion Hpart; subst. cbn [zip zip_with try_fold]. rewrite (scan_row_visit p limits _ columns st row q) by done.
  destruct (visit p limits st q); [|done]. cbn [mbind result_bind]. by apply IH.
Qed.

Lemma scan_batches_visit columns p limits part cancelled bs : forall qss k st, (forall i, cancelled i = false) ->
  max_decoded_bytes limits < U64_LIMIT -> (forall b, b ∈ bs -> scan_columns b = Ok columns) ->
  Forall2 (fun b qs => Forall2 (reads columns) (batch_rows_of b) qs /\ Forall (fun q => q_partition q = part) qs /\
                       batch_ready p limits (length (batch_rows_of b)) qs) bs qss ->
  try_fold (scan_batch m regular_file run p limits part cancelled) st (zip (seq k (length bs)) (Ok <$> bs)) =
  try_fold (visit p limits) st (concat qss).
Proof.
  intros qss k st Hc Hmax Hcols HF. revert k st. induction HF as [|b qs bs qss (Hr & Hp & Hready) _ IH]; intros k st; [done|].
  cbn [length seq fmap list_fmap zip zip_with try_fold concat]. rewrite try_fold_app.
  rewrite (scan_batch_visits columns p limits part cancelled st k b qs) by (done || apply Hcols; left || apply Hc).
  destruct (try_fold (visit p limits) st qs); [|done]. cbn [mbind result_bind]. apply IH. intros b' Hb'. apply Hcols. by right.
Qed.

(** What a file holds: its schema, and the fields of every row. *)
Record holds_quads (content : list byte) (f : ParquetMetaData) (columns : ScanColumns) (qss : list (list Quad)) (part : N) : Prop := {
  held_metadata : try_new content = Ok f;
  held_columns : file_columns (file_schema f) = Ok columns;
  held_rows : Forall2 (Forall2 (reads columns)) (stored content) qss;
  held_partition : Forall (fun q => q_partition q = part) (concat qss);
  held_width : N.of_nat (length qss) + N.of_nat (length (concat qss)) < U64_LIMIT;
}.

(** The scan can run in its mode. *)
Definition mode_ready (p : LeafPredicate) (limits : LeafScanLimits) (qss : list (list Quad)) : Prop :=
  execution_mode limits = RustMode \/
  kernel_installed m regular_file run /\ predicate_width p /\ Forall quad_width (concat qss) /\
  N.of_nat (batch_rows limits) <= Kernel.MAX_ROWS /\ N.of_nat (size (allowed_graph_ids p)) <= Kernel.MAX_ALLOWED_GRAPHS.

Lemma concat_kept_subset p object gs (qss : list (list Quad)) q : q ∈ concat (kept_groups p object gs qss) -> q ∈ concat qss.
Proof. rewrite !elem_of_concat. intros (qs & Hqs & Hq). exists qs. split; [|done]. by eapply kept_subset. Qed.

(** Pruning loses no hit. *)
Lemma hits_kept content f columns qss part p : holds_quads content f columns qss part ->
  hits p (concat (kept_groups p (col_object columns) (row_groups f) qss)) = hits p (concat qss).
Proof.
  intros [Hf _ Hrows _ _]. pose proof (stored_groups content f Hf) as Hg.
  assert (forall i g rows row q, row_groups f !! i = Some g -> stored content !! i = Some rows -> row ∈ rows -> reads columns row q ->
    group_excluded p (col_object columns) g = true -> wanted p q = false) as Hex by (intros; by eapply excluded_group_unwanted).
  revert Hg Hrows Hex. generalize (row_groups f) (stored content). intros gs rows Hg. revert qss.
  induction Hg as [|g r gs rows _ _ IH]; intros qss Hrows Hex; inversion Hrows as [|? qs ? qss' Hr Hrs]; subst; [done|].
  cbn [kept_groups concat]. assert (hits p (concat (kept_groups p (col_object columns) gs qss')) = hits p (concat qss')) as HIH.
  { apply IH; [done|]. intros i g' rows' row q Hgi Hri. by apply (Hex (S i) g' rows'). }
  unfold hits in *. destruct (group_excluded p (col_object columns) g) eqn:He; cbn [concat]; rewrite !filter_app, HIH; [|done].
  rewrite (list_filter_empty _ qs); [done|]. intros q [k Hq]%list_elem_of_lookup Hw.
  destruct (Forall2_lookup_r _ _ _ _ _ Hr Hq) as (row & Hrow & Hreads).
  rewrite (Hex 0%nat g r row q) in Hw; [done|done|done|by eapply list_elem_of_lookup_2|done|done].
Qed.

(** What a scan is to return for the rows [qss] of a file. *)
Definition expected_scan (sha : string) (p : LeafPredicate) (limits : LeafScanLimits) (columns : ScanColumns) (f : ParquetMetaData)
    (qss : list (list Quad)) : result NativeRuntimeError LeafScanResult :=
  let found := hits p (concat qss) in
  let visited := length (concat (kept_groups p (col_object columns) (row_groups f) qss)) in
  if (length found <=? max_rows limits)%nat && (total_size found <=? max_decoded_bytes limits) then
    encoded ← ok_or (encode_rows (fact_of <$> found)) NativeJson;
    Ok {| input_sha256 := sha; output_sha256 := hex_encode (sha256 encoded); scanned_rows := N.of_nat (length (concat qss));
          physically_scanned_rows := N.of_nat visited;
          pruned_row_groups := N.of_nat (excluded_groups p (col_object columns) (row_groups f));
          pruned_rows := N.of_nat (length (concat qss) - visited); matched_rows := N.of_nat (length found);
          decoded_bytes := total_size found; result_rows := fact_of <$> found; scan_complete := true |}
  else Err LimitExceeded.

Lemma kept_length p object gs (qss : list (list Quad)) : (length (concat (kept_groups p object gs qss)) <= length (concat qss))%nat.
Proof.
  revert qss. induction gs as [|g gs IH]; intros [|qs qss]; cbn; [lia..|]. specialize (IH qss).
  destruct (group_excluded p object g); cbn; rewrite ?length_app; lia.
Qed.

Lemma candidates_ok content f columns qss part p : holds_quads content f columns qss part ->
  exists selected, parquet_candidate_row_groups f p =
      Ok (selected, N.of_nat (excluded_groups p (col_object columns) (row_groups f)),
          N.of_nat (length (concat qss) - length (concat (kept_groups p (col_object columns) (row_groups f) qss)))) /\
    omap (fun i => stored content !! i) selected = kept_groups p (col_object columns) (row_groups f) (stored content).
Proof.
  intros [Hf Hcols Hrows _ Hw]. pose proof (stored_groups content f Hf) as Hg.
  unfold file_columns, scan_columns in Hcols. cbn [batch_schema] in Hcols. inv_ok Hcols. inv_ok Hcols. inv_ok Hcols. inv_ok Hcols.
  inv_ok Hcols. injection Hcols as <-. cbn [col_object].
  unfold parquet_candidate_row_groups. rewrite Ha, Ha0. cbn [mbind result_bind]. rewrite Ha2. cbn [mbind result_bind]. rewrite Ha3.
  cbn [mbind result_bind]. pose proof (Forall2_length _ _ _ (Forall2_concat_rows _ _ _ Hrows)) as Hlen.
  pose proof (Forall2_length _ _ _ Hrows) as Hlen1. pose proof (Forall2_length _ _ _ Hg) as Hlen2.
  destruct (candidates_spec p a2 (stored content) (row_groups f) 0 [] 0 0 Hg) as (selected & Hsel & Homap); [lia|lia|].
  exists selected. unfold enumerate. rewrite Hsel. cbn [app]. split; [|by apply Homap].
  rewrite !N.add_0_l, Hlen. do 3 f_equal. f_equal. f_equal.
  apply (Forall2_length _ _ _ (Forall2_concat_rows _ _ _ (kept_Forall2 p a2 _ (row_groups f) _ _ Hrows))).
Qed.

(** The batches of the selected row groups, ready to be filtered. *)
Lemma batches_ready content f columns qss part p limits names selected batches :
  holds_quads content f columns qss part -> mode_ready p limits qss -> parquet_leaf_projection (file_schema f) = Ok names ->
  (forall c, c ∈ ["subject_id64"; "predicate_id64"; "object_kind"; "graph_id64"; col_object columns]%string -> c ∈ names) ->
  (forall c, Some c ∈ [col_partition columns; col_queryable columns; col_canonical columns] -> c ∈ names) ->
  omap (fun i => stored content !! i) selected = kept_groups p (col_object columns) (row_groups f) (stored content) ->
  build content names selected (batch_rows limits) = Ok (Ok <$> batches) ->
  exists parts, concat parts = concat (kept_groups p (col_object columns) (row_groups f) qss) /\
    Forall2 (fun b qs => Forall2 (reads columns) (batch_rows_of b) qs /\ Forall (fun q => q_partition q = part) qs /\
                         batch_ready p limits (length (batch_rows_of b)) qs) batches parts.
Proof.
  intros Hh Hmode _ Hreq Hopt Hsel Hb. pose proof Hh as [Hf _ Hrows Hpart _].
  destruct (build_rows content f names selected _ batches Hf Hb) as [Hbs Hcat]. rewrite Hsel in Hcat.
  assert (Forall2 (reads columns) (concat (batch_rows_of <$> batches)) (concat (kept_groups p (col_object columns) (row_groups f) qss))) as HF.
  { rewrite Hcat. apply Forall2_fmap_l. eapply Forall2_impl; [|intros row q; by apply reads_project].
    apply Forall2_concat_rows, kept_Forall2, Hrows. }
  destruct (Forall2_split _ _ _ HF) as (parts & Hparts & Hconcat). exists parts. split; [done|].
  rewrite Forall2_fmap_l in Hparts.
  assert (forall qs q, qs ∈ parts -> q ∈ qs -> q ∈ concat qss) as Hsub.
  { intros qs q Hqs Hq. eapply concat_kept_subset. rewrite <- Hconcat. apply elem_of_concat. by exists qs. }
  rewrite Forall_forall in Hpart. apply Forall2_same_length_lookup.
  split; [by apply Forall2_length in Hparts|].
  intros i b qs Hbi Hqi. pose proof (Forall2_lookup_lr _ _ _ _ _ _ Hparts Hbi Hqi) as Hr. cbn in Hr.
  pose proof (list_elem_of_lookup_2 _ _ _ Hbi) as Hbin. pose proof (list_elem_of_lookup_2 _ _ _ Hqi) as Hqin.
  destruct (Hbs b Hbin) as [_ [Hpos Hn]]. split_and!; [done| |].
  - apply Forall_forall. intros q Hq. by apply Hpart, (Hsub qs).
  - destruct Hmode as [Hm|(Hk & Hpw & Hqw & Hmax & Hg)]; [by left|right]. rewrite Forall_forall in Hqw.
    split_and!; [done|done|apply Forall_forall; intros q Hq; by apply Hqw, (Hsub qs)|]. split_and!; [done|lia| |done].
    intros Hempty.
    assert (kept_groups p (col_object columns) (row_groups f) (stored content) = []) as Hnil.
    { assert (forall g, group_excluded p (col_object columns) g = true) as Hall.
      { intros g. unfold group_excluded, statistics_exclude_set. rewrite (bool_decide_eq_true_2 (allowed_graph_ids p = ∅)) by done.
        by rewrite orb_true_r. }
      by apply kept_none. }
    rewrite Hnil in Hcat. cbn in Hcat. assert (batch_rows_of b = []) as Hnb; [|rewrite Hnb in Hpos; cbn in Hpos; lia].
    apply list_elem_of_lookup in Hbin as [k Hbk]. destruct (batch_rows_of b) as [|x l] eqn:E; [done|].
    assert (x ∈ concat (batch_rows_of <$> batches)) as Hx; [|rewrite Hcat in Hx; by apply elem_of_nil in Hx].
    apply elem_of_concat. exists (x :: l). split; [|left]. rewrite <- E. by eapply list_elem_of_fmap_2, list_elem_of_lookup_2.
Qed.

(** C14: a leaf scan is exact on the files of its partition.  The file has the
    stated digest and length, its columns are typed as the scan expects, all its
    rows are of the expected partition and can be read, the limits are positive
    and the scan is not cancelled; the mode is the Rust one, or the OpenMP kernel
    is installed and the batch size, the graphs of the predicate and the numbers
    are within its ceilings.  Then the scan returns exactly the facts of the rows
    that satisfy the predicate, in the order of the file, with exact counters; it
    fails only when they exceed the row or the byte limit, or cannot be encoded.
    The row groups the statistics rule out, the batches and the choice between
    the two modes make no difference to the rows.  On a file with rows of other
    partitions the modes differ, see [kernel_hides_foreign_rows]. *)
Theorem leaf_scan_is_exact (content : list byte) (f : ParquetMetaData) (columns : ScanColumns) (qss : list (list Quad)) (part : N)
    (p : LeafPredicate) (limits : LeafScanLimits) (cancelled : nat -> bool) :
  holds_quads content f columns qss part -> mode_ready p limits qss ->
  (0 < max_rows limits)%nat -> 0 < max_decoded_bytes limits < U64_LIMIT -> (0 < batch_rows limits)%nat ->
  (forall i, cancelled i = false) ->
  (forall names selected, exists batches, build content names selected (batch_rows limits) = Ok (Ok <$> batches)) ->
  scan_verified_parquet_leaf encode_rows m regular_file run (Some content) (hex_encode (sha256 content)) (N.of_nat (length content)) part
    p limits cancelled = expected_scan (hex_encode (sha256 content)) p limits columns f qss.
Proof.
  intros Hh Hmode Hrows Hdec Hbatch Hc Hread. pose proof Hh as [Hf Hcols _ _ Hw]. unfold scan_verified_parquet_leaf.
  rewrite hex_encode_lower, (proj2 (Nat.eqb_neq _ _)), (proj2 (N.eqb_neq _ _)), (proj2 (Nat.eqb_neq (batch_rows limits) 0)) by lia.
  cbn [negb orb fail_if ok_or mbind result_bind]. rewrite N.eqb_refl, bool_decide_eq_true_2 by done.
  cbn [negb orb fail_if mbind result_bind]. rewrite Hf. cbn [mbind result_bind].
  destruct (file_columns_ok _ _ Hcols) as (names & Hproj & Hreq & Hopt & Hscan). rewrite Hproj. cbn [mbind result_bind].
  destruct (candidates_ok content f columns qss part p Hh) as (selected & Hcand & Hsel). rewrite Hcand. cbn [mbind result_bind].
  destruct (Hread names selected) as [batches Hb]. rewrite Hb. cbn [mbind result_bind].
  destruct (batches_ready content f columns qss part p limits names selected batches Hh Hmode Hproj Hreq Hopt Hsel Hb)
    as (parts & Hconcat & Hparts).
  destruct (build_rows content f names selected _ batches Hf Hb) as [Hbs _].
  unfold enumerate. rewrite length_fmap. rewrite (scan_batches_visit columns p limits part cancelled batches parts); [|done|lia| |done].
  2: { intros b Hbin. destruct (Hbs b Hbin) as [Hsch _]. destruct b as [sch rows]. cbn in Hsch. rewrite Hsch. apply Hscan. }
  rewrite Hconcat. pose proof (kept_length p (col_object columns) (row_groups f) qss) as Hle.
  rewrite visits by (cbn; lia). cbn [st_scanned st_physical st_decoded st_rows length Nat.add app].
  rewrite (hits_kept content f columns qss part p Hh), !N.add_0_l. unfold expected_scan.
  destruct (_ && _); [|done]. cbn [mbind result_bind st_scanned st_physical st_decoded st_rows].
  destruct (encode_rows _) as [encoded|]; [|done]. cbn [ok_or mbind result_bind]. rewrite length_fmap.
  assert (length (hits p (concat qss)) <= length (concat qss))%nat as Hhl by apply length_filter.
  assert (u64_of_len (length (hits p (concat qss))) = Some (N.of_nat (length (hits p (concat qss))))) as -> by (apply u64_of_len_some; lia).
  cbn [ok_or mbind result_bind]. do 2 f_equal. lia.
Qed.

End ScanTheorem.

(** ** Admission of native plans *)

(** A stage within the budgets of the certificate, in a lane it allows. *)
Definition stage_admitted (mode : NativeCutoverMode) (c : NativeQueryCertificate) (s : DistributedAlgebraStage) : Prop :=
  stage_partition_count s = cert_partition_count c /\ max_input_rows s <= maximum_input_rows c /\
  max_output_rows s <= maximum_output_rows c /\ max_exchange_bytes s <= maximum_exchange_bytes c /\
  stage_max_spill_bytes s <= maximum_spill_bytes c /\
  match lane s with
  | NativePartitioned => True
  | ExactReasonerPartitioned => stage_id s ∈ covered_stage_ids (reasoning c) ∪ exact_stage_ids (reasoning c)
  | ScalarOraclePartitioned => requires_native mode = false
  end.

Definition count_lane (l : AlgebraExecutionLane) (ss : list DistributedAlgebraStage) : N :=
  N.of_nat (length (filter (fun s => lane s = l) ss)).

Lemma admit_stage_ok mode c native exact s st : admit_stage mode c (native, exact) s = Ok st <->
  stage_admitted mode c s /\
  st = match lane s with
       | NativePartitioned => (saturating_add U32_LIMIT native 1, exact)
       | ExactReasonerPartitioned => (native, saturating_add U32_LIMIT exact 1)
       | ScalarOraclePartitioned => (native, exact)
       end.
Proof.
  unfold admit_stage, stage_admitted. rewrite fail_then, !orb_false_iff, negb_false_iff, N.eqb_eq, !N.ltb_ge.
  destruct (lane s) eqn:Hl.
  - naive_solver.
  - destruct (requires_native mode); naive_solver.
  - rewrite fail_then, andb_false_iff, !negb_false_iff, !bool_decide_eq_true, elem_of_union. naive_solver.
Qed.

Lemma count_lane_cons l s ss : count_lane l (s :: ss) = (if bool_decide (lane s = l) then 1 else 0) + count_lane l ss.
Proof. unfold count_lane. rewrite filter_cons. case_bool_decide; [rewrite decide_True by done|rewrite decide_False by done]; cbn [length]; lia. Qed.

Lemma admit_stages_ok mode c ss : forall native exact st, native + N.of_nat (length ss) < U32_LIMIT ->
  exact + N.of_nat (length ss) < U32_LIMIT ->
  try_fold (admit_stage mode c) (native, exact) ss = Ok st <->
  Forall (stage_admitted mode c) ss /\ st = (native + count_lane NativePartitioned ss, exact + count_lane ExactReasonerPartitioned ss).
Proof.
  induction ss as [|s ss IH]; intros native exact st Hn He.
  { cbn. unfold count_lane. cbn. rewrite !N.add_0_r. naive_solver. }
  cbn [length] in Hn, He. cbn [try_fold]. rewrite result_bind_ok, Forall_cons, !count_lane_cons.
  setoid_rewrite admit_stage_ok. unfold saturating_add. destruct (lane s) eqn:Hl; repeat case_bool_decide; try done; split.
  2, 4, 6: intros [[Hs Hss] ->]; eexists; split; [split; [done|reflexivity]|]; apply IH; [lia..|]; split; [done|]; f_equal; lia.
  all: intros (st1 & [Hs ->] & Hf); apply IH in Hf as [Hss ->]; [|lia..]; split; [done|]; f_equal; lia.
Qed.

(** A plan is admitted exactly when its certificate is for it, its reasoning
    coverage names disjoint sets of its stages, and every stage is within the
    budgets and in a lane the mode allows.  With native execution required, the
    counted lanes are then all the stages. *)
Theorem native_admission_is_exact `{Sha256} (encode_plan : DistributedAlgebraPlan -> option (list byte)) (mode : NativeCutoverMode)
    (c : NativeQueryCertificate) (plan : DistributedAlgebraPlan) (query snapshot graphs dataset : string) (a : NativeAdmission) :
  N.of_nat (length (stages plan)) < U32_LIMIT ->
  admit_native_plan encode_plan mode c plan query snapshot graphs dataset = Ok a ->
  (exists encoded, encode_plan plan = Some encoded /\ cert_plan_sha256 c = hex_encode (sha256 encoded)) /\
  cert_query_sha256 c = query /\ cert_snapshot_manifest_sha256 c = snapshot /\ cert_authorized_graph_set_sha256 c = graphs /\
  cert_active_dataset_sha256 c = dataset /\ require_complete_partition_set plan = true /\
  covered_stage_ids (reasoning c) ## exact_stage_ids (reasoning c) /\
  Forall (stage_admitted mode c) (stages plan) /\
  (mode = Required -> native_stage_count a + exact_reasoner_stage_count a = N.of_nat (length (stages plan))).
Proof.
  intros Hlen Ha. unfold admit_native_plan in Ha. apply fail_then in Ha as [Hid Ha]. inv_ok Ha. apply ok_or_ok in Ha0.
  apply fail_then in Ha as [Hsha Ha]. apply fail_then in Ha as [Hcomp Ha]. apply fail_then in Ha as [Hcov Ha].
  apply result_bind_ok in Ha as ([native exact] & Hf & Ha). injection Ha as <-. apply admit_stages_ok in Hf as [Hall [= -> ->]]; [|lia..].
  bool_prop. split_and!; try done; [by eauto|set_solver|]. intros ->. cbn [native_stage_count exact_reasoner_stage_count].
  clear -Hall. induction Hall as [|s ss Hs _ IH]; [done|]. rewrite !count_lane_cons. cbn [length].
  destruct Hs as (_ & _ & _ & _ & _ & Hl). destruct (lane s); repeat case_bool_decide; done || lia.
Qed.

(** ** Examples *)

(** A reader of one file, with the statistics of its columns. *)
Section SampleReader.
Context (file : list byte) (schema : list string) (groups : list (list Row)).

Definition statistics_of (rows : list Row) (column : string) : option Statistics :=
  match omap (fun row : Row => cell ← row !! column; cell_number cell) rows with
  | [] => None
  | v :: vs => Some (StatInt64 (Some (Z.of_N (foldl N.min v vs))) (Some (Z.of_N (foldl N.max v vs))))
  end.

Definition metadata_of : ParquetMetaData :=
  {| file_schema := schema;
     row_groups := (fun rows => {| group_num_rows := Z.of_nat (length rows); column_statistics := statistics_of rows |}) <$> groups |}.

Definition reader_try_new (content : list byte) : result NativeRuntimeError ParquetMetaData :=
  if bool_decide (content = file) then Ok metadata_of else Err NativeParquet.

Definition reader_build (content : list byte) (names : list string) (selected : list nat) (n : nat) :
    result NativeRuntimeError (list (result NativeRuntimeError RecordBatch)) :=
  if (n =? 0)%nat then Err NativeParquet
  else Ok ((fun rows => Ok {| batch_schema := filter (fun c => c ∈ names) schema; batch_rows_of := rows |})
             <$> chunks n (project names <$> concat (omap (fun i => groups !! i) selected))).

Lemma foldl_min_max vs : forall lo hi, lo <= hi ->
  foldl N.min lo vs <= lo /\ hi <= foldl N.max hi vs /\ (forall v, v ∈ vs -> foldl N.min lo vs <= v <= foldl N.max hi vs).
Proof.
  induction vs as [|w vs IH]; intros lo hi Hle; cbn; [split_and!; [lia|lia|by intros v ?%elem_of_nil]|].
  destruct (IH (N.min lo w) (N.max hi w)) as (H1 & H2 & H3); [lia|]. split_and!; [lia|lia|].
  intros v [->|Hv]%elem_of_cons; [lia|by apply H3].
Qed.

Lemma statistics_of_bound rows row column cell v lo hi : row ∈ rows -> row !! column = Some cell -> cell_number cell = Some v ->
  statistics_range (statistics_of rows column) = Some (lo, hi) -> lo <= v <= hi.
Proof.
  intros Hrow Hc Hv. unfold statistics_of. set (f := fun row : Row => cell ← row !! column; cell_number cell).
  assert (v ∈ omap f rows) as Hin by (apply list_elem_of_omap; exists row; split; [done|]; unfold f; by rewrite Hc).
  destruct (omap f rows) as [|w vs]; [by apply elem_of_nil in Hin|]. cbn.
  assert (forall n, u64_of_signed (Z.of_N n) = Some n) as Hu by (intros n; unfold u64_of_signed; destruct (Z.leb_spec 0 (Z.of_N n)); [f_equal|]; lia).
  rewrite !Hu. cbn. intros [= <- <-]. destruct (foldl_min_max vs w w) as (H1 & H2 & H3); [lia|].
  apply elem_of_cons in Hin as [->|Hin]; [lia|by apply H3].
Qed.

Lemma chunks_nonempty {A} n (l c : list A) : (0 < n)%nat -> c ∈ chunks n l -> (0 < length c)%nat.
Proof.
  intros Hn. unfold chunks. generalize (length l). intros fuel. revert l. induction fuel as [|fuel IH]; intros [|x l]; cbn;
    try by intros ?%elem_of_nil.
  intros [->|Hc]%elem_of_cons; [|by eapply IH]. rewrite length_take. cbn. lia.
Qed.

Program Definition sample_reader : ParquetReader :=
  {| try_new := reader_try_new; build := reader_build; stored content := if bool_decide (content = file) then groups else [] |}.
Next Obligation.
  intros content f. unfold reader_try_new. case_bool_decide; [|done]. intros [= <-]. cbn.
  apply Forall2_fmap_l. apply Forall_Forall2_diag, Forall_forall. done.
Qed.
Next Obligation.
  intros content f i g rows row column cell v lo hi. unfold reader_try_new. case_bool_decide; [|done].
  intros [= <-] Hg Hrows Hrow Hc Hv Hs. cbn in Hg. rewrite list_lookup_fmap, Hrows in Hg. injection Hg as <-. by eapply statistics_of_bound.
Qed.
Next Obligation.
  intros content f names selected n batches. unfold reader_try_new. case_bool_decide; [|done]. intros [= <-] Hb.
  unfold reader_build in Hb. destruct (Nat.eqb_spec n 0); [done|]. injection Hb as Hb.
  assert (batches = (fun rows => {| batch_schema := filter (fun c => c ∈ names) schema; batch_rows_of := rows |})
    <$> chunks n (project names <$> concat (omap (fun i => groups !! i) selected))) as ->.
  { assert (Inj (=) (=) (@Ok NativeRuntimeError RecordBatch)) by (by intros ? ? [=]).
    apply (inj (fmap (M:=list) (@Ok NativeRuntimeError RecordBatch))). rewrite <- Hb, <- list_fmap_compose. done. }
  split.
  - intros b Hin. apply list_elem_of_fmap in Hin as (rows & -> & Hin). cbn. split; [done|]. split; [eapply (chunks_nonempty n); [lia|done]|].
    by eapply chunks_bound.
  - rewrite <- list_fmap_compose. cbn. rewrite list_fmap_id, concat_chunks by lia. done.
Qed.

End SampleReader.

Definition sample_file : list byte := as_bytes "PAR1".
Definition sample_schema : list string :=
  ["subject_id64"; "predicate_id64"; "object_kind"; "object_term_id64"; "graph_id64"; "partition_id"; "hash"].

Definition sample_row (s g part : N) : Row :=
  list_to_map [("subject_id64", UInt64 (Some s)); ("predicate_id64", UInt64 (Some 5)); ("object_kind", UInt8 (Some 1));
               ("object_term_id64", UInt64 (Some 6)); ("graph_id64", UInt64 (Some g)); ("partition_id", UInt32 (Some part));
               ("hash", OtherType)]%string.

Definition sample_quad (s g part : N) : Quad :=
  {| q_subject := s; q_predicate := 5; q_kind := 1; q_object := 6; q_graph := g; q_partition := part; q_queryable := true; q_nquad := None |}.

Definition sample_columns : ScanColumns :=
  {| col_object := "object_term_id64"; col_partition := Some "partition_id"%string; col_queryable := None; col_canonical := None |}.

Definition sample_groups : list (list Row) := [[sample_row 1 7 3; sample_row 2 8 3; sample_row 1 7 3]; [sample_row 9 7 3]].
Definition sample_quads : list (list Quad) := [[sample_quad 1 7 3; sample_quad 2 8 3; sample_quad 1 7 3]; [sample_quad 9 7 3]].

Definition sample_predicate : LeafPredicate :=
  {| subject_id := Some 1; predicate_id := None; object_id := None; graph_id := None; allowed_graph_ids := {[ 7 ]}; require_queryable := false |}.

Definition sample_limits (mode : LeafExecutionMode) : LeafScanLimits :=
  {| max_rows := 10; max_decoded_bytes := 1000; batch_rows := 2; execution_mode := mode |}.

Definition kernel_machine : Machine :=
  {| var_os := fun name => if bool_decide (name = "NGKG_OPENMP_FILTER_EXECUTABLE"%string) then Some (as_bytes "/opt/filter")
                           else if bool_decide (name = "OMP_NUM_THREADS"%string) then Some (as_bytes "4") else None;
     read_to_string := fun _ => Err []; is_file := fun _ => true |}.

Definition sample_scan (groups : list (list Row)) (mode : LeafExecutionMode) : result NativeRuntimeError LeafScanResult :=
  scan_verified_parquet_leaf (H:=padded_digest) (H0:=sample_reader sample_file sample_schema groups) (fun _ => Some []) kernel_machine (fun _ => true)
    (fun _ _ => Kernel.main) (Some sample_file) (hex_encode (padded_sha256 sample_file)) 4 3 sample_predicate (sample_limits mode) (fun _ => false).

(** A row of another partition that the predicate does not select makes the Rust
    scan fail; the kernel filters it out before the partition is checked. *)
Example kernel_hides_foreign_rows :
  let foreign := [[sample_row 1 7 3; sample_row 2 7 4]] in
  sample_scan foreign RustMode = Err PartitionMismatch /\ is_ok (sample_scan foreign OpenMpMode) = true.
Proof. by vm_compute. Qed.

Lemma sample_holds : holds_quads (H0:=sample_reader sample_file sample_schema sample_groups) sample_file
  (metadata_of sample_schema sample_groups) sample_columns sample_quads 3.
Proof.
  split; [done|by vm_compute| |by repeat constructor|by vm_compute]. repeat constructor; by vm_compute.
Qed.

Lemma leaf_scan_is_exact_witness :
  is_ok (sample_scan sample_groups OpenMpMode) = true /\
  sample_scan sample_groups OpenMpMode =
    expected_scan (H:=padded_digest) (fun _ => Some []) (hex_encode (padded_sha256 sample_file)) sample_predicate (sample_limits OpenMpMode)
      sample_columns (metadata_of sample_schema sample_groups) sample_quads.
Proof.
  split; [by vm_compute|].
  refine (leaf_scan_is_exact (H:=padded_digest) (H0:=sample_reader sample_file sample_schema sample_groups) (fun _ => Some []) kernel_machine
    (fun _ => true) (fun _ _ => Kernel.main) sample_file (metadata_of sample_schema sample_groups) sample_columns sample_quads 3
    sample_predicate (sample_limits OpenMpMode) (fun _ => false) sample_holds _ _ _ _ _ _).
  - right. split_and!; [|split|by repeat constructor|by vm_compute|by vm_compute].
    + exists 4, 30000. split; [by vm_compute|done].
    + intros v Hv. cbn in Hv. assert (v = 1) as -> by set_solver. done.
    + intros g Hg. cbn in Hg. assert (g = 7) as -> by set_solver. done.
  - cbn. lia.
  - cbn. unfold U64_LIMIT. lia.
  - cbn. lia.
  - done.
  - intros names selected. exists ((fun rows => {| batch_schema := filter (fun c => c ∈ names) sample_schema; batch_rows_of := rows |})
      <$> chunks 2 (project names <$> concat (omap (fun i => sample_groups !! i) selected))).
    cbn [build sample_reader]. unfold reader_build. cbn [batch_rows sample_limits Nat.eqb]. by rewrite <- list_fmap_compose.
Defined.
