(* ===== verification/Gang.v ===== *)
(** * Stage barriers and gangs of ranks

    Models the stage barrier of src/crates/ngkg-native-runtime/src/lib.rs and
    src/crates/ngkg-native-runtime/src/hpc.rs: the plan of a run of ranks over
    Parquet partitions, the execution of a rank and the certificate of the run.
    A partition is scanned by [NativeScan].

    A file system is a map from paths to files, symbolic links and directories;
    the JSON texts of documents are parameters.  The threads of a rank share
    nothing but the cancellation flag.

    The theorems show that the barrier counts every partition once, whatever is
    delivered, how often and in which order; that a certificate of a run means
    one receipt of every rank and of every partition; and that a run whose scans
    succeed within the limits is certified, with any number of threads. *)

From Stdlib Require Import Strings.Byte Strings.String.
From S2P Require Import Prelude Words Ordered Digest Text Planner Runtime NativeScan.

Local Open Scope N_scope.

(** [map.values()] of a [BTreeMap<u32, _>]. *)
Definition ordered_entries {A} (m : gmap N A) : list (N * A) := sort_by_key fst (map_to_list m).
Definition ordered_values {A} (m : gmap N A) : list A := snd <$> ordered_entries m.

(** [map.keys().copied().ne(0..count)]. *)
Definition keys_differ {A} (m : gmap N A) (count : N) : bool :=
  negb (bool_decide (fst <$> ordered_entries m = N.of_nat <$> seq 0 (N.to_nat count))).

(** ** The stage barrier *)

Record PartitionCompletion := {
  completed_partition : N;
  completed_partition_count : N;
  worker_id : string;
  pod_uid : string;
  node_uid : string;
  completed_input_sha256 : string;
  completed_output_sha256 : string;
  completed_rows : N;
  completed_exchange_bytes : N;
  completed_spill_bytes : N;
  completed_complete : bool;
}.

Global Instance PartitionCompletion_eq_dec : EqDecision PartitionCompletion.
Proof. solve_decision. Defined.

Record StageCompletionCertificate := {
  certified_stage_id : string;
  certified_partition_count : N;
  certified_rows : N;
  certified_exchange_bytes : N;
  certified_spill_bytes : N;
  worker_ids : gset string;
  pod_uids : gset string;
  node_uids : gset string;
  certified_set_sha256 : string;
  certified_complete : bool;
}.

Record StageBarrier := {
  barrier_stage_id : string;
  barrier_partition_count : N;
  barrier_max_rows : N;
  barrier_max_exchange_bytes : N;
  barrier_max_spill_bytes : N;
  completions : gmap N PartitionCompletion;
}.

Definition barrier_new (stage_id : string) (partition_count max_rows max_exchange max_spill : N) : result NativeRuntimeError StageBarrier :=
  _ ← fail_if (bool_decide (stage_id = ""%string) || (partition_count <? 2) || (max_rows =? 0) || (max_exchange =? 0) || (max_spill =? 0))
              InvalidBarrier;
  Ok {| barrier_stage_id := stage_id; barrier_partition_count := partition_count; barrier_max_rows := max_rows;
        barrier_max_exchange_bytes := max_exchange; barrier_max_spill_bytes := max_spill; completions := ∅ |}.

(** The fold of [totals]. *)
Definition add_totals (t : N * N * N) (c : PartitionCompletion) : result NativeRuntimeError (N * N * N) :=
  let '(rows, exchange, spill) := t in
  rows ← ok_or (checked_add U64_LIMIT rows (completed_rows c)) LimitExceeded;
  exchange ← ok_or (checked_add U64_LIMIT exchange (completed_exchange_bytes c)) LimitExceeded;
  spill ← ok_or (checked_add U64_LIMIT spill (completed_spill_bytes c)) LimitExceeded;
  Ok (rows, exchange, spill).

Definition totals (values : list PartitionCompletion) : result NativeRuntimeError (N * N * N) := try_fold add_totals (0, 0, 0) values.

(** [total.checked_add(more).is_none_or(|value| value > max)]. *)
Definition exceeds (total more max : N) : bool :=
  match checked_add U64_LIMIT total more with None => true | Some value => max <? value end.

Definition valid_completion (self : StageBarrier) (c : PartitionCompletion) : bool :=
  completed_complete c && (completed_partition_count c =? barrier_partition_count self)
  && (completed_partition c <? barrier_partition_count self)
  && negb (bool_decide (worker_id c = ""%string)) && negb (bool_decide (pod_uid c = ""%string))
  && negb (bool_decide (node_uid c = ""%string))
  && lower_hex_sha256 (completed_input_sha256 c) && lower_hex_sha256 (completed_output_sha256 c).

Definition record (self : StageBarrier) (c : PartitionCompletion) : result NativeRuntimeError StageBarrier :=
  _ ← fail_if (negb (valid_completion self c)) InvalidCompletion;
  match completions self !! completed_partition c with
  | Some existing => if bool_decide (existing = c) then Ok self else Err ConflictingCompletion
  | None =>
      '(rows, exchange, spill) ← totals (ordered_values (completions self));
      _ ← fail_if (exceeds rows (completed_rows c) (barrier_max_rows self)
                   || exceeds exchange (completed_exchange_bytes c) (barrier_max_exchange_bytes self)
                   || exceeds spill (completed_spill_bytes c) (barrier_max_spill_bytes self)) LimitExceeded;
      Ok {| barrier_stage_id := barrier_stage_id self; barrier_partition_count := barrier_partition_count self;
            barrier_max_rows := barrier_max_rows self; barrier_max_exchange_bytes := barrier_max_exchange_bytes self;
            barrier_max_spill_bytes := barrier_max_spill_bytes self;
            completions := <[completed_partition c := c]> (completions self) |}
  end.

Section Barrier.
Context `{Sha256} (encode_completions : gmap N PartitionCompletion -> option (list byte)).

Definition finish_barrier (self : StageBarrier) : result NativeRuntimeError StageCompletionCertificate :=
  _ ← fail_if (negb (N.of_nat (size (completions self)) =? barrier_partition_count self)
               || keys_differ (completions self) (barrier_partition_count self)) IncompletePartitionSet;
  '(rows, exchange, spill) ← totals (ordered_values (completions self));
  _ ← fail_if ((barrier_max_rows self <? rows) || (barrier_max_exchange_bytes self <? exchange)
               || (barrier_max_spill_bytes self <? spill)) LimitExceeded;
  encoded ← ok_or (encode_completions (completions self)) NativeJson;
  let values := ordered_values (completions self) in
  Ok {| certified_stage_id := barrier_stage_id self; certified_partition_count := barrier_partition_count self; certified_rows := rows;
        certified_exchange_bytes := exchange; certified_spill_bytes := spill; worker_ids := list_to_set (worker_id <$> values);
        pod_uids := list_to_set (pod_uid <$> values); node_uids := list_to_set (node_uid <$> values);
        certified_set_sha256 := hex_encode (sha256 encoded); certified_complete := true |}.

End Barrier.

(** A coordinator that hands every delivery to the barrier and keeps it on errors. *)
Definition deliver (self : StageBarrier) (c : PartitionCompletion) : StageBarrier :=
  match record self c with Ok self' => self' | Err _ => self end.

(** ** Runs of ranks *)

Definition HPC_RUN_FORMAT_VERSION : N := 1.

Record HpcPartitionPlan := {
  plan_ordinal : N;
  plan_semantic_partition : N;
  facts_path : string;
  facts_sha256 : string;
  facts_bytes : N;
  plan_predicate : LeafPredicate;
  plan_limits : LeafScanLimits;
}.

Record HpcRunPlan := {
  run_format_version : N;
  run_id : string;
  run_snapshot_manifest_sha256 : string;
  run_semantic_root_sha256 : string;
  run_authorized_graph_set_sha256 : string;
  rank_count : N;
  local_backend : LocalComputeBackend;
  local_compute_threads : nat;
  run_blocking_io_threads : nat;
  estimated_row_bytes : nat;
  run_maximum_rows : N;
  run_maximum_decoded_bytes : N;
  partitions : list HpcPartitionPlan;
}.

Record HpcPartitionReceipt := {
  receipt_ordinal : N;
  receipt_semantic_partition : N;
  receipt_input_sha256 : string;
  receipt_output_sha256 : string;
  receipt_scanned_rows : N;
  receipt_physically_scanned_rows : N;
  receipt_pruned_row_groups : N;
  receipt_pruned_rows : N;
  receipt_matched_rows : N;
  receipt_decoded_bytes : N;
}.

Record HpcRankReceipt := {
  rank_format_version : N;
  rank_run_id : string;
  rank_plan_sha256 : string;
  rank_snapshot_manifest_sha256 : string;
  rank_semantic_root_sha256 : string;
  rank_authorized_graph_set_sha256 : string;
  rank : N;
  rank_rank_count : N;
  rank_partitions : list HpcPartitionReceipt;
  rank_partition_set_sha256 : string;
  rank_complete : bool;
}.

Record HpcRunCertificate := {
  cert_run_format_version : N;
  cert_run_id : string;
  cert_run_plan_sha256 : string;
  cert_run_snapshot_manifest_sha256 : string;
  cert_run_semantic_root_sha256 : string;
  cert_run_authorized_graph_set_sha256 : string;
  cert_rank_count : N;
  cert_run_partition_count : N;
  cert_scanned_rows : N;
  cert_physically_scanned_rows : N;
  cert_pruned_row_groups : N;
  cert_pruned_rows : N;
  cert_matched_rows : N;
  cert_decoded_bytes : N;
  rank_receipt_set_sha256 : string;
  result_set_sha256 : string;
  cert_complete : bool;
}.

(** What a path is. *)
Inductive Node := Regular (content : list byte) | Symlink (target : option (list byte)) | Directory.

Definition FileSystem : Type := gmap string Node.

Definition is_absolute (path : string) : bool := bool_decide (head (as_bytes path) = Some x2f).

(** [File::open(path)] with links followed. *)
Definition open_node (fs : FileSystem) (path : string) : option (list byte) :=
  match fs !! path with
  | Some (Regular content) => Some content
  | Some (Symlink target) => target
  | _ => None
  end.

Definition backend_mode (b : LocalComputeBackend) : LeafExecutionMode := match b with Rust => RustMode | OpenMp => OpenMpMode end.

(** The loop over the partitions, with the ordinals seen so far. *)
Definition validate_partition (fs : FileSystem) (backend : LocalComputeBackend) (ordinals : gset N) (p : HpcPartitionPlan) :
    result NativeRuntimeError (gset N) :=
  node ← ok_or (fs !! facts_path p) NativeIo;
  _ ← fail_if (negb (is_absolute (facts_path p))
               || match node with
                  | Regular content => negb (N.of_nat (length content) =? facts_bytes p)
                  | Symlink _ | Directory => true
                  end
               || (facts_bytes p =? 0) || negb (lower_hex_sha256 (facts_sha256 p))
               || bool_decide (allowed_graph_ids (plan_predicate p) = ∅)
               || bool_decide (plan_ordinal p ∈ ordinals)) InvalidHpcRunPlan;
  _ ← fail_if (negb (bool_decide (execution_mode (plan_limits p) = backend_mode backend))) InvalidHpcRunPlan;
  Ok ({[ plan_ordinal p ]} ∪ ordinals).

Section Runs.
Context `{Sha256} (fs : FileSystem) (encode_plan : HpcRunPlan -> option (list byte))
  (encode_receipts : list HpcPartitionReceipt -> option (list byte))
  (encode_by_rank : gmap N HpcRankReceipt -> option (list byte))
  (encode_partitions : gmap N HpcPartitionReceipt -> option (list byte)).

Definition sha256_json (encoded : option (list byte)) : result NativeRuntimeError string :=
  bytes ← ok_or encoded NativeJson; Ok (hex_encode (sha256 bytes)).

Definition valid_run_header (plan : HpcRunPlan) : bool :=
  (run_format_version plan =? HPC_RUN_FORMAT_VERSION) && negb (bool_decide (run_id plan = ""%string))
  && (length (as_bytes (run_id plan)) <=? 128)%nat && (2 <=? rank_count plan)
  && negb (local_compute_threads plan =? 0)%nat && negb (run_blocking_io_threads plan =? 0)%nat
  && negb (estimated_row_bytes plan =? 0)%nat && negb (run_maximum_rows plan =? 0) && negb (run_maximum_decoded_bytes plan =? 0)
  && lower_hex_sha256 (run_snapshot_manifest_sha256 plan) && lower_hex_sha256 (run_semantic_root_sha256 plan)
  && lower_hex_sha256 (run_authorized_graph_set_sha256 plan) && negb (bool_decide (partitions plan = [])).

(** [u32::try_from(plan.partitions.len())]. *)
Definition partition_count_of (plan : HpcRunPlan) : result NativeRuntimeError N :=
  let n := N.of_nat (length (partitions plan)) in if fits U32_LIMIT n then Ok n else Err LimitExceeded.

Definition validate_hpc_run_plan (plan : HpcRunPlan) : result NativeRuntimeError string :=
  _ ← fail_if (negb (valid_run_header plan)) InvalidHpcRunPlan;
  ordinals ← try_fold (validate_partition fs (local_backend plan)) ∅ (partitions plan);
  count ← partition_count_of plan;
  _ ← fail_if ((count <? rank_count plan)
               || negb (bool_decide (sort_by_key id (elements ordinals) = N.of_nat <$> seq 0 (N.to_nat count)))) InvalidHpcRunPlan;
  sha256_json (encode_plan plan).

(** The parameters of a scan; [cancelled] is the flag as the scan of a partition
    sees it when a batch arrives. *)
Context `{ParquetReader} (encode_rows : list EncodedFact -> option (list byte)).
Context (m : Machine) (regular_file : list byte -> bool) (run : N -> N -> list byte -> option (list byte)).
Context (cancelled : HpcPartitionPlan -> nat -> bool).

Definition scan_leaf (p : HpcPartitionPlan) : result NativeRuntimeError LeafScanResult :=
  scan_verified_parquet_leaf encode_rows m regular_file run (open_node fs (facts_path p)) (facts_sha256 p) (facts_bytes p)
    (plan_semantic_partition p) (plan_predicate p) (plan_limits p) (cancelled p).

Definition receipt_of (p : HpcPartitionPlan) (r : LeafScanResult) : HpcPartitionReceipt :=
  {| receipt_ordinal := plan_ordinal p; receipt_semantic_partition := plan_semantic_partition p;
     receipt_input_sha256 := input_sha256 r; receipt_output_sha256 := output_sha256 r; receipt_scanned_rows := scanned_rows r;
     receipt_physically_scanned_rows := physically_scanned_rows r; receipt_pruned_row_groups := pruned_row_groups r;
     receipt_pruned_rows := pruned_rows r; receipt_matched_rows := matched_rows r; receipt_decoded_bytes := decoded_bytes r |}.

Definition scan_partition (p : HpcPartitionPlan) : result NativeRuntimeError HpcPartitionReceipt :=
  r ← scan_leaf p; Ok (receipt_of p r).

(** [iter.step_by(n)]. *)
Definition step_by {A} (n : nat) (l : list A) : list A := snd <$> filter (fun e => e.1 mod n = 0)%nat (enumerate l).

(** [assigned.iter().skip(lane).step_by(parallelism)]. *)
Definition lane_partitions (assigned : list HpcPartitionPlan) (parallelism lane : nat) : list HpcPartitionPlan :=
  step_by parallelism (drop lane assigned).

(** The lanes are joined in order; the first error of the first lane that has
    one is the error of the rank. *)
Definition run_lanes (assigned : list HpcPartitionPlan) (parallelism : nat) : result NativeRuntimeError (list HpcPartitionReceipt) :=
  lanes ← try_map (fun lane => try_map scan_partition (lane_partitions assigned parallelism lane)) (seq 0 parallelism);
  Ok (concat lanes).

(** [total.checked_add(more).filter(|value| *value <= max).ok_or(LimitExceeded)]. *)
Definition add_within (total more max : N) : result NativeRuntimeError N :=
  value ← ok_or (checked_add U64_LIMIT total more) LimitExceeded;
  _ ← fail_if (max <? value) LimitExceeded;
  Ok value.

Definition add_result (plan : HpcRunPlan) (t : N * N) (r : HpcPartitionReceipt) : result NativeRuntimeError (N * N) :=
  rows ← add_within t.1 (receipt_matched_rows r) (run_maximum_rows plan);
  decoded ← add_within t.2 (receipt_decoded_bytes r) (run_maximum_decoded_bytes plan);
  Ok (rows, decoded).

Definition assigned_to (plan : HpcRunPlan) (rank : N) : list HpcPartitionPlan :=
  filter (fun p => plan_ordinal p mod rank_count plan = rank) (partitions plan).

Definition parallelism_of (plan : HpcRunPlan) (assigned : list HpcPartitionPlan) : nat :=
  match local_backend plan with Rust => Nat.min (local_compute_threads plan) (Nat.max (length assigned) 1) | OpenMp => 1 end.

Definition execute_hpc_rank (plan : HpcRunPlan) (this_rank ranks : N) : result NativeRuntimeError HpcRankReceipt :=
  plan_sha256 ← validate_hpc_run_plan plan;
  _ ← fail_if (negb (ranks =? rank_count plan) || (ranks <=? this_rank)) InvalidHpcRank;
  let assigned := assigned_to plan this_rank in
  receipts ← run_lanes assigned (parallelism_of plan assigned);
  _ ← try_fold (add_result plan) (0, 0) receipts;
  let receipts := sort_by_key receipt_ordinal receipts in
  set_sha256 ← sha256_json (encode_receipts receipts);
  Ok {| rank_format_version := HPC_RUN_FORMAT_VERSION; rank_run_id := run_id plan; rank_plan_sha256 := plan_sha256;
        rank_snapshot_manifest_sha256 := run_snapshot_manifest_sha256 plan;
        rank_semantic_root_sha256 := run_semantic_root_sha256 plan;
        rank_authorized_graph_set_sha256 := run_authorized_graph_set_sha256 plan; rank := this_rank; rank_rank_count := ranks;
        rank_partitions := receipts; rank_partition_set_sha256 := set_sha256; rank_complete := true |}.

(** ** The certificate of a run *)

Record Gathered := {
  by_rank : gmap N HpcRankReceipt;
  by_ordinal : gmap N HpcPartitionReceipt;
  sum_scanned : N;
  sum_physical : N;
  sum_pruned_groups : N;
  sum_pruned : N;
  sum_matched : N;
  sum_decoded : N;
}.

Definition checked_sum (a b : N) : result NativeRuntimeError N := ok_or (checked_add U64_LIMIT a b) LimitExceeded.

Definition gather_partition (plan : HpcRunPlan) (this_rank : N) (g : Gathered) (r : HpcPartitionReceipt) : result NativeRuntimeError Gathered :=
  _ ← fail_if (negb (receipt_ordinal r mod rank_count plan =? this_rank)
               || negb (lower_hex_sha256 (receipt_input_sha256 r)) || negb (lower_hex_sha256 (receipt_output_sha256 r))
               || negb (bool_decide (checked_add U64_LIMIT (receipt_physically_scanned_rows r) (receipt_pruned_rows r)
                                     = Some (receipt_scanned_rows r)))
               || (receipt_physically_scanned_rows r <? receipt_matched_rows r)
               || bool_decide (is_Some (by_ordinal g !! receipt_ordinal r))) InvalidHpcReceipt;
  scanned ← checked_sum (sum_scanned g) (receipt_scanned_rows r);
  physical ← checked_sum (sum_physical g) (receipt_physically_scanned_rows r);
  groups ← checked_sum (sum_pruned_groups g) (receipt_pruned_row_groups r);
  pruned ← checked_sum (sum_pruned g) (receipt_pruned_rows r);
  matched ← add_within (sum_matched g) (receipt_matched_rows r) (run_maximum_rows plan);
  decoded ← add_within (sum_decoded g) (receipt_decoded_bytes r) (run_maximum_decoded_bytes plan);
  Ok {| by_rank := by_rank g; by_ordinal := <[receipt_ordinal r := r]> (by_ordinal g); sum_scanned := scanned; sum_physical := physical;
        sum_pruned_groups := groups; sum_pruned := pruned; sum_matched := matched; sum_decoded := decoded |}.

Definition valid_rank_receipt (plan : HpcRunPlan) (plan_sha256 : string) (r : HpcRankReceipt) : bool :=
  (rank_format_version r =? HPC_RUN_FORMAT_VERSION) && rank_complete r
  && bool_decide (rank_run_id r = run_id plan) && bool_decide (rank_plan_sha256 r = plan_sha256)
  && bool_decide (rank_snapshot_manifest_sha256 r = run_snapshot_manifest_sha256 plan)
  && bool_decide (rank_semantic_root_sha256 r = run_semantic_root_sha256 plan)
  && bool_decide (rank_authorized_graph_set_sha256 r = run_authorized_graph_set_sha256 plan)
  && (rank_rank_count r =? rank_count plan) && (rank r <? rank_count plan).

Definition gather_rank (plan : HpcRunPlan) (plan_sha256 : string) (g : Gathered) (r : HpcRankReceipt) : result NativeRuntimeError Gathered :=
  _ ← fail_if (negb (valid_rank_receipt plan plan_sha256 r)) InvalidHpcReceipt;
  set_sha256 ← sha256_json (encode_receipts (rank_partitions r));
  _ ← fail_if (negb (bool_decide (rank_partition_set_sha256 r = set_sha256))
               || bool_decide (is_Some (by_rank g !! rank r))) InvalidHpcReceipt;
  try_fold (gather_partition plan (rank r))
    {| by_rank := <[rank r := r]> (by_rank g); by_ordinal := by_ordinal g; sum_scanned := sum_scanned g; sum_physical := sum_physical g;
       sum_pruned_groups := sum_pruned_groups g; sum_pruned := sum_pruned g; sum_matched := sum_matched g; sum_decoded := sum_decoded g |}
    (rank_partitions r).

Definition check_planned (g : Gathered) (p : HpcPartitionPlan) : result NativeRuntimeError unit :=
  actual ← ok_or (by_ordinal g !! plan_ordinal p) IncompleteHpcRun;
  fail_if (negb (receipt_semantic_partition actual =? plan_semantic_partition p)
           || negb (bool_decide (receipt_input_sha256 actual = facts_sha256 p))) InvalidHpcReceipt.

Definition nothing_gathered : Gathered :=
  {| by_rank := ∅; by_ordinal := ∅; sum_scanned := 0; sum_physical := 0; sum_pruned_groups := 0; sum_pruned := 0; sum_matched := 0;
     sum_decoded := 0 |}.

Definition finalize_hpc_run (plan : HpcRunPlan) (receipts : list HpcRankReceipt) : result NativeRuntimeError HpcRunCertificate :=
  plan_sha256 ← validate_hpc_run_plan plan;
  _ ← fail_if (negb (N.of_nat (length receipts) =? rank_count plan)) IncompleteHpcRun;
  g ← try_fold (gather_rank plan plan_sha256) nothing_gathered receipts;
  count ← partition_count_of plan;
  _ ← fail_if (keys_differ (by_rank g) (rank_count plan) || keys_differ (by_ordinal g) count) IncompleteHpcRun;
  _ ← try_map (check_planned g) (partitions plan);
  receipt_sha256 ← sha256_json (encode_by_rank (by_rank g));
  result_sha256 ← sha256_json (encode_partitions (by_ordinal g));
  Ok {| cert_run_format_version := HPC_RUN_FORMAT_VERSION; cert_run_id := run_id plan; cert_run_plan_sha256 := plan_sha256;
        cert_run_snapshot_manifest_sha256 := run_snapshot_manifest_sha256 plan;
        cert_run_semantic_root_sha256 := run_semantic_root_sha256 plan;
        cert_run_authorized_graph_set_sha256 := run_authorized_graph_set_sha256 plan; cert_rank_count := rank_count plan;
        cert_run_partition_count := count; cert_scanned_rows := sum_scanned g; cert_physically_scanned_rows := sum_physical g;
        cert_pruned_row_groups := sum_pruned_groups g; cert_pruned_rows := sum_pruned g; cert_matched_rows := sum_matched g;
        cert_decoded_bytes := sum_decoded g; rank_receipt_set_sha256 := receipt_sha256; result_set_sha256 := result_sha256;
        cert_complete := true |}.

End Runs.

(** ** Ordered maps *)

Lemma ordered_values_perm {A} (m : gmap N A) : ordered_values m ≡ₚ snd <$> map_to_list m.
Proof. unfold ordered_values, ordered_entries. by rewrite sort_by_key_perm. Qed.

Lemma ordered_values_insert {A} (m : gmap N A) k v : m !! k = None -> ordered_values (<[k := v]> m) ≡ₚ v :: ordered_values m.
Proof. intros Hk. by rewrite !ordered_values_perm, map_to_list_insert. Qed.

Lemma elem_of_ordered_values {A} (m : gmap N A) v : v ∈ ordered_values m <-> exists k, m !! k = Some v.
Proof.
  rewrite ordered_values_perm, list_elem_of_fmap. split.
  - intros ([k v'] & -> & Hin%elem_of_map_to_list). by exists k.
  - intros [k Hk]. exists (k, v). split; [done|]. by apply elem_of_map_to_list.
Qed.

Lemma sorted_keys {A B} `{RustOrd B} (f : A -> B) l : StronglySorted (key_le f) l -> StronglySorted rle (f <$> l).
Proof. induction 1; cbn; constructor; [done|]. by apply Forall_fmap. Qed.

Lemma keys_sorted {A B} `{RustOrd B} (f : A -> B) l : StronglySorted rle (f <$> l) -> StronglySorted (key_le f) l.
Proof.
  induction l as [|x l IH]; cbn; intros Hs; [constructor|]. apply StronglySorted_inv in Hs as [Hs Hx].
  constructor; [by apply IH|]. by rewrite Forall_fmap in Hx.
Qed.

Lemma sorted_range k n : StronglySorted rle (N.of_nat <$> seq k n).
Proof.
  revert k. induction n as [|n IH]; intros k; cbn; constructor; [apply IH|].
  apply Forall_fmap, Forall_forall. intros j Hj%elem_of_seq. unfold rle. cbn. apply N.compare_le_iff. lia.
Qed.

(** The keys are [0..count]. *)
Lemma keys_differ_false {A} (m : gmap N A) count : keys_differ m count = false <-> forall k, is_Some (m !! k) <-> k < count.
Proof.
  unfold keys_differ. rewrite negb_false_iff, bool_decide_eq_true. split.
  - intros Hk k. rewrite <- elem_of_dom.
    assert (k ∈ dom m <-> k ∈ fst <$> ordered_entries m) as ->.
    { unfold ordered_entries. rewrite sort_by_key_perm, elem_of_dom, list_elem_of_fmap. split.
      - intros [v Hv]. exists (k, v). split; [done|]. by apply elem_of_map_to_list.
      - intros ([k' v] & -> & Hin%elem_of_map_to_list). by exists v. }
    rewrite Hk, list_elem_of_fmap. setoid_rewrite elem_of_seq. split; [intros (i & -> & ?); lia|]. intros Hlt. exists (N.to_nat k). lia.
  - intros Hk.
    set (keys := N.of_nat <$> seq 0 (N.to_nat count)).
    assert (fst <$> ordered_entries m ≡ₚ keys) as Hp.
    { unfold ordered_entries. rewrite sort_by_key_perm. apply NoDup_Permutation.
      - apply NoDup_fst_map_to_list.
      - apply NoDup_fmap; [intros ? ? ?; lia|apply NoDup_seq].
      - intros k. unfold keys. rewrite !list_elem_of_fmap. setoid_rewrite elem_of_seq. split.
        + intros ([k' v] & -> & Hin%elem_of_map_to_list). cbn. assert (k' < count) by (apply Hk; by exists v). exists (N.to_nat k'). lia.
        + intros (i & -> & Hi). destruct (proj2 (Hk (N.of_nat i)) ltac:(lia)) as [v Hv]. exists (N.of_nat i, v). split; [done|].
          by apply elem_of_map_to_list. }
    assert (StronglySorted rle (fst <$> ordered_entries m)) as Hs by (apply sorted_keys, sort_by_key_sorted).
    assert (StronglySorted rle keys) as Hks by apply sorted_range.
    rewrite <- (sort_by_key_unique (A:=N) id keys (fst <$> ordered_entries m)); [| |by symmetry|done].
    + apply (sort_by_key_unique (A:=N) id keys keys); [|reflexivity|exact Hks]. rewrite list_fmap_id. apply NoDup_fmap; [intros ? ? ?; lia|apply NoDup_seq].
    + rewrite list_fmap_id. apply NoDup_fmap; [intros ? ? ?; lia|apply NoDup_seq].
Qed.

(** ** The barrier *)

Section BarrierLemmas.

Lemma totals_from values : forall rows exchange spill t,
  rows < U64_LIMIT -> exchange < U64_LIMIT -> spill < U64_LIMIT ->
  try_fold add_totals (rows, exchange, spill) values = Ok t <->
  t = (rows + sum_of completed_rows values, exchange + sum_of completed_exchange_bytes values, spill + sum_of completed_spill_bytes values) /\
  rows + sum_of completed_rows values < U64_LIMIT /\ exchange + sum_of completed_exchange_bytes values < U64_LIMIT /\
  spill + sum_of completed_spill_bytes values < U64_LIMIT.
Proof.
  induction values as [|c values IH]; intros rows exchange spill t Hr He Hs.
  { cbn. rewrite !N.add_0_r. naive_solver. }
  cbn [try_fold]. rewrite result_bind_ok. unfold add_totals, sum_of. cbn [foldr].
  fold (sum_of completed_rows values) (sum_of completed_exchange_bytes values) (sum_of completed_spill_bytes values). split.
  - intros (t1 & H1 & Hf). inv_ok H1. inv_ok H1. inv_ok H1. injection H1 as <-.
    apply ok_or_ok, checked_add_some in Ha as [-> ?], Ha0 as [-> ?], Ha1 as [-> ?]. apply IH in Hf as (-> & ? & ? & ?); [|done..].
    split_and!; [f_equal; [f_equal|]; lia|lia..].
  - intros (-> & ? & ? & ?). eexists. split.
    + assert (checked_add U64_LIMIT rows (completed_rows c) = Some (rows + completed_rows c)) as -> by (apply checked_add_some; lia).
      assert (checked_add U64_LIMIT exchange (completed_exchange_bytes c) = Some (exchange + completed_exchange_bytes c)) as ->
        by (apply checked_add_some; lia).
      assert (checked_add U64_LIMIT spill (completed_spill_bytes c) = Some (spill + completed_spill_bytes c)) as ->
        by (apply checked_add_some; lia). reflexivity.
    + apply IH; [lia..|]. split_and!; [f_equal; [f_equal|]; lia|lia..].
Qed.

Lemma totals_ok values t : totals values = Ok t <->
  t = (sum_of completed_rows values, sum_of completed_exchange_bytes values, sum_of completed_spill_bytes values) /\
  sum_of completed_rows values < U64_LIMIT /\ sum_of completed_exchange_bytes values < U64_LIMIT /\ sum_of completed_spill_bytes values < U64_LIMIT.
Proof. unfold totals. rewrite totals_from by done. by rewrite !N.add_0_l. Qed.

Lemma exceeds_false total more max : max < U64_LIMIT -> exceeds total more max = false <-> total + more <= max.
Proof.
  intros Hmax. unfold exceeds. destruct (checked_add _ _ _) as [v|] eqn:Hc.
  - apply checked_add_some in Hc as [-> _]. apply N.ltb_ge.
  - unfold checked_add, fits in Hc. destruct (N.ltb_spec (total + more) U64_LIMIT); [done|]. split; [done|lia].
Qed.

(** The sums of what the barrier has accepted are within its limits. *)
Definition within_limits (b : StageBarrier) (values : list PartitionCompletion) : Prop :=
  sum_of completed_rows values <= barrier_max_rows b /\ sum_of completed_exchange_bytes values <= barrier_max_exchange_bytes b /\
  sum_of completed_spill_bytes values <= barrier_max_spill_bytes b.

Definition narrow_limits (b : StageBarrier) : Prop :=
  barrier_max_rows b < U64_LIMIT /\ barrier_max_exchange_bytes b < U64_LIMIT /\ barrier_max_spill_bytes b < U64_LIMIT.

Record barrier_inv (b : StageBarrier) : Prop := {
  inv_narrow : narrow_limits b;
  inv_valid k c : completions b !! k = Some c -> completed_partition c = k /\ valid_completion b c = true;
  inv_limits : within_limits b (ordered_values (completions b));
}.

Global Instance within_limits_perm b : Proper ((≡ₚ) ==> iff) (within_limits b).
Proof. intros l k Hp. unfold within_limits. by rewrite Hp. Qed.

(** The parameters of a barrier never change. *)
Definition same_barrier (b b' : StageBarrier) : Prop :=
  barrier_stage_id b' = barrier_stage_id b /\ barrier_partition_count b' = barrier_partition_count b /\
  barrier_max_rows b' = barrier_max_rows b /\ barrier_max_exchange_bytes b' = barrier_max_exchange_bytes b /\
  barrier_max_spill_bytes b' = barrier_max_spill_bytes b.

Lemma record_ok b c b' : barrier_inv b -> record b c = Ok b' <->
  valid_completion b c = true /\
  (completions b !! completed_partition c = Some c /\ b' = b \/
   completions b !! completed_partition c = None /\ within_limits b (c :: ordered_values (completions b)) /\
   same_barrier b b' /\ completions b' = <[completed_partition c := c]> (completions b)).
Proof.
  intros [(Hn1 & Hn2 & Hn3) _ (Hl1 & Hl2 & Hl3)]. unfold record. rewrite fail_then, negb_false_iff. apply and_iff_compat_l.
  destruct (completions b !! completed_partition c) as [existing|] eqn:He.
  { case_bool_decide; naive_solver. }
  rewrite result_bind_ok. setoid_rewrite totals_ok. split.
  - intros ([[rows exchange] spill] & ([= -> -> ->] & _) & Hr). right. apply fail_then in Hr as [Hx [= <-]].
    rewrite !orb_false_iff, !exceeds_false in Hx by done. unfold within_limits, sum_of in *. cbn [foldr]. unfold same_barrier. cbn.
    split_and!; done || lia.
  - intros [[Hs _]|(_ & (Hw1 & Hw2 & Hw3) & Hsame & Hc)]; [done|]. eexists. split; [split; [reflexivity|lia]|].
    apply fail_then. rewrite !orb_false_iff, !exceeds_false by done. unfold sum_of in *. cbn [foldr] in *. split; [lia|].
    destruct Hsame as (? & ? & ? & ? & ?). destruct b'; cbn in *. by subst.
Qed.

Lemma valid_same b b' c : same_barrier b b' -> valid_completion b' c = valid_completion b c.
Proof. intros (_ & Hc & _). unfold valid_completion. by rewrite Hc. Qed.

Lemma record_inv b c b' : barrier_inv b -> record b c = Ok b' -> barrier_inv b' /\ same_barrier b b'.
Proof.
  intros Hinv Hr. pose proof Hinv as [Hn Hv Hl]. apply record_ok in Hr as [Hvalid [[_ ->]|(Hnone & Hw & Hsame & Hc)]]; [by split| |done].
  pose proof Hsame as (_ & _ & E1 & E2 & E3). split; [|done]. split.
  - unfold narrow_limits in *. by rewrite E1, E2, E3.
  - intros k c' Hk. rewrite Hc in Hk. rewrite (valid_same b b') by done. apply lookup_insert_Some in Hk as [[<- <-]|[_ Hk]]; [done|by apply Hv].
  - rewrite Hc, ordered_values_insert by done. unfold within_limits in *. by rewrite E1, E2, E3.
Qed.

Lemma deliver_inv b c : barrier_inv b -> barrier_inv (deliver b c) /\ same_barrier b (deliver b c).
Proof. intros Hinv. unfold deliver. destruct (record b c) as [b'|] eqn:Hr; [by eapply record_inv|]. done. Qed.

Lemma same_barrier_trans b1 b2 b3 : same_barrier b1 b2 -> same_barrier b2 b3 -> same_barrier b1 b3.
Proof. unfold same_barrier. intuition congruence. Qed.

(** Everything the barrier holds was delivered. *)
Lemma delivered_held ds : forall b, barrier_inv b ->
  barrier_inv (foldl deliver b ds) /\ same_barrier b (foldl deliver b ds) /\
  forall k c, completions (foldl deliver b ds) !! k = Some c -> completions b !! k = Some c \/ c ∈ ds.
Proof.
  induction ds as [|d ds IH]; intros b Hinv; cbn; [split_and!; [done|done|auto]|].
  destruct (deliver_inv b d Hinv) as [Hinv' Hsame]. destruct (IH _ Hinv') as (? & Hs & Hh). split_and!; [done|by eapply same_barrier_trans|].
  intros k c Hk. destruct (Hh k c Hk) as [Hd|?]; [|right; by right]. unfold deliver in Hd.
  destruct (record b d) as [b'|] eqn:Hr; [|by left]. apply record_ok in Hr as [_ [[_ ->]|(_ & _ & _ & Hc)]]; [by left| |done].
  rewrite Hc in Hd. apply lookup_insert_Some in Hd as [[_ <-]|[_ ?]]; [right; left|by left].
Qed.

Lemma barrier_new_inv stage count rows exchange spill b : rows < U64_LIMIT -> exchange < U64_LIMIT -> spill < U64_LIMIT ->
  barrier_new stage count rows exchange spill = Ok b ->
  barrier_inv b /\ completions b = ∅ /\ barrier_partition_count b = count /\ barrier_max_rows b = rows /\
  barrier_max_exchange_bytes b = exchange /\ barrier_max_spill_bytes b = spill.
Proof.
  intros Hr He Hs [Hc [= <-]]%fail_then. cbn. split_and!; [|done..]. split; cbn; [done|by intros k c ?|].
  unfold within_limits. cbn. change (ordered_values (∅ : gmap N PartitionCompletion)) with ([] : list PartitionCompletion). cbn. lia.
Qed.

End BarrierLemmas.

(** ** The barrier, delivery by delivery *)

Section BarrierTheorem.
Context `{Sha256} (encode_completions : gmap N PartitionCompletion -> option (list byte)).

Definition partition_range (count : N) : list N := N.of_nat <$> seq 0 (N.to_nat count).

(** One completion of every partition, in order. *)
Definition one_per_partition (b : StageBarrier) (parts : list PartitionCompletion) : Prop :=
  completed_partition <$> parts = partition_range (barrier_partition_count b) /\
  (forall c, c ∈ parts -> valid_completion b c = true) /\ within_limits b parts.

Definition keyed {A} (key : A -> N) (l : list A) : gmap N A := list_to_map ((fun c => (key c, c)) <$> l).

(** The certificate of a complete set. *)
Definition stage_certificate (b : StageBarrier) (parts : list PartitionCompletion) : result NativeRuntimeError StageCompletionCertificate :=
  encoded ← ok_or (encode_completions (keyed completed_partition parts)) NativeJson;
  Ok {| certified_stage_id := barrier_stage_id b; certified_partition_count := barrier_partition_count b;
        certified_rows := sum_of completed_rows parts; certified_exchange_bytes := sum_of completed_exchange_bytes parts;
        certified_spill_bytes := sum_of completed_spill_bytes parts; worker_ids := list_to_set (worker_id <$> parts);
        pod_uids := list_to_set (pod_uid <$> parts); node_uids := list_to_set (node_uid <$> parts);
        certified_set_sha256 := hex_encode (sha256 encoded); certified_complete := true |}.

Lemma ordered_values_keyed {A} (key : A -> N) (m : gmap N A) parts count :
  key <$> parts = partition_range count -> (forall k v, m !! k = Some v <-> v ∈ parts /\ key v = k) -> ordered_values m = parts.
Proof.
  intros Hkeys Hm. unfold ordered_values, ordered_entries. set (pairs := (fun c => (key c, c)) <$> parts).
  assert (fst <$> pairs = partition_range count) as Hfst by (unfold pairs; by rewrite <- list_fmap_compose).
  rewrite (sort_by_key_unique fst (map_to_list m) pairs).
  - unfold pairs. rewrite <- list_fmap_compose. apply list_fmap_id.
  - apply NoDup_fst_map_to_list.
  - apply NoDup_Permutation; [apply NoDup_map_to_list| |].
    + apply NoDup_fmap_1 with (f := fst). rewrite Hfst. apply NoDup_fmap; [intros ? ? ?; lia|apply NoDup_seq].
    + intros [k v]. unfold pairs. rewrite elem_of_map_to_list, Hm, list_elem_of_fmap. naive_solver.
  - apply keys_sorted. rewrite Hfst. apply sorted_range.
Qed.

Lemma NoDup_range count : NoDup (partition_range count).
Proof. apply NoDup_fmap; [intros ? ? ?; lia|apply NoDup_seq]. Qed.

Lemma elem_of_range count k : k ∈ partition_range count <-> k < count.
Proof.
  unfold partition_range. rewrite list_elem_of_fmap. setoid_rewrite elem_of_seq. split; [intros (i & -> & ?); lia|].
  intros Hk. exists (N.to_nat k). lia.
Qed.

Lemma keyed_inj {A} (key : A -> N) parts c d : NoDup (key <$> parts) -> c ∈ parts -> d ∈ parts -> key c = key d -> c = d.
Proof.
  intros Hnd [i Hi]%list_elem_of_lookup [j Hj]%list_elem_of_lookup Hk.
  assert (i = j) as ->; [|congruence]. eapply NoDup_lookup; [exact Hnd| |]; rewrite list_lookup_fmap; [by rewrite Hi|]. rewrite Hj, Hk. done.
Qed.

Lemma NoDup_ordered_values {A} (key : A -> N) (m : gmap N A) : (forall k v, m !! k = Some v -> key v = k) -> NoDup (ordered_values m).
Proof.
  intros Hm. rewrite ordered_values_perm. apply NoDup_fmap_1 with (f := key).
  assert (key <$> (snd <$> map_to_list m) = fst <$> map_to_list m) as ->; [|apply NoDup_fst_map_to_list].
  rewrite <- list_fmap_compose. apply list_fmap_ext. intros i [k v] Hi%list_elem_of_lookup_2%elem_of_map_to_list. by apply Hm.
Qed.

Lemma within_subset b l k : NoDup l -> l ⊆ k -> within_limits b k -> within_limits b l.
Proof.
  intros Hnd Hsub (? & ? & ?). unfold within_limits.
  split_and!; (etrans; [by apply sum_of_subset|done]).
Qed.

(** A completion of the set is recorded, unless it already is. *)
Lemma deliver_part b parts d : barrier_inv b -> one_per_partition b parts -> d ∈ parts ->
  (forall k c, completions b !! k = Some c -> c ∈ parts) ->
  completions (deliver b d) = <[completed_partition d := d]> (completions b).
Proof.
  intros Hinv (Hkeys & Hvalid & Hlim) Hd Hheld. unfold deliver.
  destruct (completions b !! completed_partition d) as [c|] eqn:Hc.
  - assert (c = d) as ->.
    { apply (keyed_inj completed_partition parts); [rewrite Hkeys; apply NoDup_range|by eapply Hheld|done|].
      apply (inv_valid b Hinv _ _ Hc). }
    assert (record b d = Ok b) as ->; [apply record_ok; [done|]; auto|]. symmetry. by apply insert_id.
  - rewrite (proj2 (record_ok b d {| barrier_stage_id := barrier_stage_id b; barrier_partition_count := barrier_partition_count b;
      barrier_max_rows := barrier_max_rows b; barrier_max_exchange_bytes := barrier_max_exchange_bytes b;
      barrier_max_spill_bytes := barrier_max_spill_bytes b;
      completions := <[completed_partition d := d]> (completions b) |} Hinv)); [done|].
    split; [by apply Hvalid|]. right. split_and!; [done| |done|done].
    apply (within_subset b _ parts); [| |done].
    + constructor; [|eapply NoDup_ordered_values; intros ? ? Hk; by apply (inv_valid b Hinv)].
      intros [k Hk]%elem_of_ordered_values. destruct (inv_valid b Hinv _ _ Hk) as [<- _]. by rewrite Hc in Hk.
    + intros c [->|[k Hk]%elem_of_ordered_values]%elem_of_cons; [done|]. by eapply Hheld.
Qed.

Lemma one_per_same b b' parts : same_barrier b b' -> one_per_partition b parts -> one_per_partition b' parts.
Proof.
  intros Hs (Hk & Hv & Hl). pose proof Hs as (_ & E & E1 & E2 & E3). unfold one_per_partition, within_limits.
  rewrite E, E1, E2, E3. split_and!; [done| |apply Hl..]. intros c Hc. rewrite (valid_same b b') by done. by apply Hv.
Qed.

Lemma deliver_parts parts ds : forall b, barrier_inv b -> one_per_partition b parts -> ds ⊆ parts ->
  (forall k c, completions b !! k = Some c -> c ∈ parts) ->
  forall k c, completions (foldl deliver b ds) !! k = Some c <-> (completions b !! k = Some c \/ c ∈ ds /\ completed_partition c = k).
Proof.
  induction ds as [|d ds IH]; intros b Hinv Hone Hsub Hheld k c; cbn; [set_solver|].
  assert (d ∈ parts) as Hd by set_solver.
  destruct (deliver_inv b d Hinv) as [Hinv' Hsame]. pose proof (deliver_part b parts d Hinv Hone Hd Hheld) as Hc.
  rewrite IH; [|done|by eapply one_per_same|set_solver|].
  - rewrite Hc, lookup_insert_Some, elem_of_cons. split.
    + intros [[[<- <-]|[_ ?]]|[? ?]]; auto.
    + intros [Hk|[[->|?] Hk]]; [|auto|auto]. destruct (decide (completed_partition d = k)) as [<-|]; [|auto].
      left. left. split; [done|]. destruct Hone as (Hkeys & _). apply (keyed_inj completed_partition parts);
        [rewrite Hkeys; apply NoDup_range|done|by eapply Hheld|]. symmetry. by apply (inv_valid b Hinv _ _ Hk).
  - intros k' c'. rewrite Hc, lookup_insert_Some. intros [[_ <-]|[_ ?]]; [done|by eapply Hheld].
Qed.

Lemma keyed_lookup {A} (key : A -> N) parts k c : NoDup (key <$> parts) -> keyed key parts !! k = Some c <-> c ∈ parts /\ key c = k.
Proof.
  intros Hnd. unfold keyed. rewrite <- elem_of_list_to_map; [|by rewrite <- list_fmap_compose].
  rewrite list_elem_of_fmap. naive_solver.
Qed.

Lemma same_barrier_sym b b' : same_barrier b b' -> same_barrier b' b.
Proof. unfold same_barrier. intuition congruence. Qed.

(** What a full barrier holds is a complete set. *)
Lemma held_set b : barrier_inv b -> keys_differ (completions b) (barrier_partition_count b) = false ->
  one_per_partition b (ordered_values (completions b)).
Proof.
  intros Hinv Hk. split_and!; [|intros c [k Hc]%elem_of_ordered_values; by apply (inv_valid b Hinv) in Hc as []|apply Hinv].
  unfold keys_differ in Hk. rewrite negb_false_iff, bool_decide_eq_true in Hk. unfold partition_range. rewrite <- Hk.
  unfold ordered_values. rewrite <- list_fmap_compose. apply list_fmap_ext.
  intros i [k c] Hi%list_elem_of_lookup_2. cbn. apply (inv_valid b Hinv). apply elem_of_map_to_list.
  unfold ordered_entries in Hi. by rewrite sort_by_key_perm in Hi.
Qed.

(** A barrier that holds a complete set certifies it. *)
Lemma finish_certificate b b' parts : narrow_limits b' -> one_per_partition b' parts -> same_barrier b b' ->
  (forall k c, completions b' !! k = Some c <-> c ∈ parts /\ completed_partition c = k) ->
  finish_barrier encode_completions b' = stage_certificate b parts.
Proof.
  intros (Hn1 & Hn2 & Hn3) (Hkeys & _ & Hl1 & Hl2 & Hl3) (E0 & E1 & E2 & E3 & E4) Hheld.
  assert (NoDup (completed_partition <$> parts)) as Hnd by (rewrite Hkeys; apply NoDup_range).
  assert (ordered_values (completions b') = parts) as Hvalues by by eapply (ordered_values_keyed completed_partition).
  assert (completions b' = keyed completed_partition parts) as Hmap.
  { apply map_eq. intros k. apply option_eq. intros c. by rewrite Hheld, keyed_lookup. }
  assert (keys_differ (completions b') (barrier_partition_count b') = false) as Hfull.
  { apply keys_differ_false. intros k. rewrite <- elem_of_range, <- Hkeys, list_elem_of_fmap. unfold is_Some. setoid_rewrite Hheld. naive_solver. }
  assert (N.of_nat (size (completions b')) = barrier_partition_count b') as Hsize.
  { rewrite <- length_map_to_list, <- (length_fmap snd), <- ordered_values_perm, Hvalues.
    rewrite <- (length_fmap completed_partition), Hkeys. unfold partition_range. rewrite length_fmap, length_seq. lia. }
  assert (totals parts = Ok (sum_of completed_rows parts, sum_of completed_exchange_bytes parts, sum_of completed_spill_bytes parts)) as Ht.
  { apply totals_ok. split; [done|]. lia. }
  unfold finish_barrier, stage_certificate. rewrite Hfull, Hsize, N.eqb_refl, Hvalues. cbn [negb orb fail_if mbind result_bind].
  rewrite Ht. cbn [mbind result_bind]. rewrite !(proj2 (N.ltb_ge _ _)) by done. cbn [orb fail_if mbind result_bind].
  by rewrite Hmap, E0, E1.
Qed.

(** whatever completions are delivered to a stage barrier, in whatever
    order, repeated or refused: a certificate means that one valid completion
    of every partition was delivered, and its totals are theirs, within the
    limits; and when all deliveries come from one complete set, the barrier
    certifies exactly this set, however often and in whatever order they come. *)
Theorem stage_barrier_counts_every_partition_once (stage : string) (count rows exchange spill : N) (b : StageBarrier)
    (ds : list PartitionCompletion) :
  rows < U64_LIMIT -> exchange < U64_LIMIT -> spill < U64_LIMIT ->
  barrier_new stage count rows exchange spill = Ok b ->
  (forall certificate, finish_barrier encode_completions (foldl deliver b ds) = Ok certificate ->
     exists parts, one_per_partition b parts /\ parts ⊆ ds /\ stage_certificate b parts = Ok certificate) /\
  (forall parts, one_per_partition b parts -> (forall c, c ∈ ds <-> c ∈ parts) ->
     finish_barrier encode_completions (foldl deliver b ds) = stage_certificate b parts).
Proof.
  intros Hr He Hs Hnew. destruct (barrier_new_inv _ _ _ _ _ _ Hr He Hs Hnew) as (Hinv & Hempty & _).
  destruct (delivered_held ds b Hinv) as (Hinv' & Hsame & Hheld). set (b' := foldl deliver b ds) in *. split.
  - intros certificate Hf. pose proof Hf as [Hc _]%fail_then. apply orb_false_iff in Hc as [_ Hc].
    rewrite (finish_certificate b b' (ordered_values (completions b'))) in Hf; [|apply Hinv'| |done|].
    + exists (ordered_values (completions b')). split_and!; [|  |done].
      * by apply (one_per_same b' b); [apply same_barrier_sym|apply held_set].
      * intros c [k Hk]%elem_of_ordered_values. destruct (Hheld k c Hk) as [Hn|?]; [|done]. by rewrite Hempty in Hn.
    + by apply held_set.
    + intros k c. split; [|intros [[k' Hk']%elem_of_ordered_values <-]; by destruct (inv_valid b' Hinv' _ _ Hk') as [-> _]].
      intros Hk. split; [apply elem_of_ordered_values; by exists k|]. by apply (inv_valid b' Hinv').
  - intros parts Hone Hds. apply (finish_certificate b b' parts); [apply Hinv'|by eapply one_per_same|done|].
    intros k c. unfold b'. rewrite (deliver_parts parts ds b); [|done|done|intros d; apply Hds|].
    + rewrite Hempty, lookup_empty, Hds. naive_solver.
    + intros k' c'. by rewrite Hempty.
Qed.

End BarrierTheorem.

(** ** Counters of a scan *)

Section Counters.
Context `{Sha256} `{ParquetReader} (encode_rows : list EncodedFact -> option (list byte)).
Context (m : Machine) (regular_file : list byte -> bool) (run : N -> N -> list byte -> option (list byte)).

Definition counted (pruned : N) (st : ScanState) : Prop :=
  st_scanned st = st_physical st + pruned /\ st_scanned st < U64_LIMIT /\ N.of_nat (length (st_rows st)) <= st_physical st.

Lemma scan_row_counted columns p limits part pruned st e st' :
  counted pruned st -> scan_row columns p limits part st e = Ok st' -> counted pruned st'.
Proof.
  destruct e as [row kept]. intros (Hs & _ & Hm) Hr. unfold scan_row in Hr. inv_ok Hr. inv_ok Hr.
  apply ok_or_ok, checked_add_some in Ha as [-> Hlt], Ha0 as [-> _].
  assert (forall d rows, (length rows <= S (length (st_rows st)))%nat ->
    counted pruned {| st_scanned := st_scanned st + 1; st_physical := st_physical st + 1; st_decoded := d; st_rows := rows |}) as Hnext.
  { intros d rows Hl. unfold counted. cbn. lia. }
  destruct kept; cbn [negb] in Hr; [|injection Hr as <-; apply Hnext; lia].
  inv_ok Hr. inv_ok Hr. inv_ok Hr. destruct a1; [injection Hr as <-; apply Hnext; lia|]. do 4 inv_ok Hr.
  destruct (_ || _); [injection Hr as <-; apply Hnext; lia|]. destruct (_ || _); [injection Hr as <-; apply Hnext; lia|].
  do 5 inv_ok Hr. injection Hr as <-. apply Hnext. rewrite length_app. cbn. lia.
Qed.

Lemma scan_batch_counted p limits part cancelled pruned st e st' :
  counted pruned st -> scan_batch m regular_file run p limits part cancelled st e = Ok st' -> counted pruned st'.
Proof.
  destruct e as [i batch]. intros Hc Hr. unfold scan_batch in Hr. do 4 inv_ok Hr.
  eapply (try_fold_inv (fun _ => counted pruned)); [exact Hc| |exact Hr]. intros pre x s1 s2 Hs _. by apply scan_row_counted.
Qed.

Lemma candidates_narrow f p selected groups pruned :
  parquet_candidate_row_groups f p = Ok (selected, groups, pruned) -> pruned < U64_LIMIT.
Proof.
  unfold parquet_candidate_row_groups. intros Hr. do 4 inv_ok Hr.
  refine (try_fold_inv (fun _ (st : list nat * N * N) => st.2 < U64_LIMIT) _ _ _ _ _ _ Hr); [done|].
  intros pre [i g] [[s gs] rows] st2 Hlt _. cbn. destruct (group_excluded _ _ _); [|by intros [= <-]].
  intros Hg. do 3 inv_ok Hg. injection Hg as <-. cbn. by apply ok_or_ok, checked_add_some in Ha5 as [-> ?].
Qed.

(** Every row was scanned or pruned, and what matched was scanned. *)
Lemma scan_counters content sha bytes part p limits cancelled r :
  scan_verified_parquet_leaf encode_rows m regular_file run content sha bytes part p limits cancelled = Ok r ->
  input_sha256 r = sha /\ lower_hex_sha256 (input_sha256 r) = true /\ lower_hex_sha256 (output_sha256 r) = true /\
  physically_scanned_rows r + pruned_rows r = scanned_rows r /\ scanned_rows r < U64_LIMIT /\ matched_rows r <= physically_scanned_rows r.
Proof.
  unfold scan_verified_parquet_leaf. intros Hr. do 5 inv_ok Hr. inv_ok Hr. destruct a4 as [[selected groups] pruned]. do 4 inv_ok Hr.
  injection Hr as <-. cbn. inv_ok Ha. apply ok_or_ok, u64_of_len_some in Ha8 as [-> _].
  rewrite !orb_false_iff, negb_false_iff in Ha.
  assert (counted pruned a5) as (Hs & Hlt & Hm).
  { eapply (try_fold_inv (fun _ => counted pruned)); [| |exact Ha6].
    - unfold counted. cbn. apply candidates_narrow in Ha4. lia.
    - intros pre x s1 s2 Hs _. by apply scan_batch_counted. }
  split_and!; [done|apply Ha|apply hex_encode_lower|lia|done|done].
Qed.

End Counters.

(** ** Lanes *)

Lemma enumerate_app {A} (l k : list A) : enumerate (l ++ k) = enumerate l ++ (prod_map (Nat.add (length l)) id <$> enumerate k).
Proof.
  apply list_eq. intros i. rewrite lookup_app, list_lookup_fmap, !enumerate_lookup, lookup_app.
  destruct (l !! i) as [x|] eqn:Hx; cbn; [done|]. apply lookup_ge_None in Hx.
  assert (length (enumerate l) = length l) as -> by (unfold enumerate; rewrite length_zip, length_seq; lia).
  destruct (k !! (i - length l)%nat) as [y|]; cbn; [|done]. repeat f_equal. lia.
Qed.

Lemma filter_of_fmap {A B} (f : A -> B) (P : B -> Prop) `{!forall x, Decision (P x)} (l : list A) : filter P (f <$> l) = f <$> filter (fun x => P (f x)) l.
Proof. induction l as [|x l IH]; [done|]. rewrite fmap_cons, !filter_cons. case_decide; by rewrite ?fmap_cons, IH. Qed.

Lemma enumerate_bound {A} (l : list A) e : e ∈ enumerate l -> (e.1 < length l)%nat.
Proof.
  intros [i Hi]%list_elem_of_lookup. rewrite enumerate_lookup in Hi. destruct (l !! i) as [x|] eqn:Hx; [|done].
  injection Hi as <-. cbn. by eapply lookup_lt_Some.
Qed.

(** A lane takes the partitions at its positions. *)
Lemma lane_positions assigned n lane : (lane < n)%nat ->
  lane_partitions assigned n lane = snd <$> filter (fun e => e.1 mod n = lane)%nat (enumerate assigned).
Proof.
  intros Hn. unfold lane_partitions, step_by.
  rewrite <- (take_drop lane assigned) at 2. rewrite enumerate_app, filter_app, fmap_app.
  rewrite (list_filter_empty _ (enumerate (take _ _))); cbn [fmap list_fmap app].
  2: { intros e He%enumerate_bound. rewrite length_take in He. rewrite Nat.mod_small by lia. lia. }
  rewrite filter_of_fmap, <- list_fmap_compose.
  destruct (decide (lane <= length assigned)%nat) as [Hl|Hl]; [|by rewrite drop_ge by lia].
  rewrite length_take_le by done.
  apply (f_equal (fmap snd)), list_filter_ext_in.
  intros [i x] _. cbn. split; intros Hi.
  - rewrite <- Nat.Div0.add_mod_idemp_r, Hi, Nat.add_0_r. by apply Nat.mod_small.
  - apply Nat.Div0.mod_divides. pose proof (Nat.div_mod (lane + i) n ltac:(lia)) as Hd. exists ((lane + i) / n)%nat. lia.
Qed.

Lemma lanes_perm assigned n : (0 < n)%nat -> concat (lane_partitions assigned n <$> seq 0 n) ≡ₚ assigned.
Proof.
  intros Hn. transitivity (snd <$> concat ((fun lane => filter (fun e => e.1 mod n = lane)%nat (enumerate assigned)) <$> seq 0 n)).
  - rewrite <- concat_fmap_fmap. eapply eq_subrelation; [apply _|]. f_equal. apply list_fmap_ext.
    intros _ lane Hl%list_elem_of_lookup_2%elem_of_seq. apply lane_positions. lia.
  - rewrite (filter_partition_permutation (fun e => e.1 mod n)%nat n (enumerate assigned)); [by rewrite snd_enumerate|].
    intros e _. apply Nat.mod_upper_bound. lia.
Qed.

(** ** What a run gathers *)

Section Gathering.
Context (plan : HpcRunPlan).

Definition add_receipt (g : Gathered) (r : HpcPartitionReceipt) : Gathered :=
  {| by_rank := by_rank g; by_ordinal := <[receipt_ordinal r := r]> (by_ordinal g);
     sum_scanned := sum_scanned g + receipt_scanned_rows r; sum_physical := sum_physical g + receipt_physically_scanned_rows r;
     sum_pruned_groups := sum_pruned_groups g + receipt_pruned_row_groups r; sum_pruned := sum_pruned g + receipt_pruned_rows r;
     sum_matched := sum_matched g + receipt_matched_rows r; sum_decoded := sum_decoded g + receipt_decoded_bytes r |}.

Record bounded_sums (g : Gathered) : Prop := {
  scanned_fits : sum_scanned g < U64_LIMIT;
  physical_fits : sum_physical g < U64_LIMIT;
  groups_fit : sum_pruned_groups g < U64_LIMIT;
  pruned_fits : sum_pruned g < U64_LIMIT;
  matched_fits : sum_matched g < U64_LIMIT /\ sum_matched g <= run_maximum_rows plan;
  decoded_fits : sum_decoded g < U64_LIMIT /\ sum_decoded g <= run_maximum_decoded_bytes plan;
}.

(** A receipt of a partition of the rank, with consistent counters. *)
Record receipt_fits (this_rank : N) (r : HpcPartitionReceipt) : Prop := {
  fits_rank : receipt_ordinal r mod rank_count plan = this_rank;
  fits_input : lower_hex_sha256 (receipt_input_sha256 r) = true;
  fits_output : lower_hex_sha256 (receipt_output_sha256 r) = true;
  fits_rows : receipt_physically_scanned_rows r + receipt_pruned_rows r = receipt_scanned_rows r /\ receipt_scanned_rows r < U64_LIMIT;
  fits_matched : receipt_matched_rows r <= receipt_physically_scanned_rows r;
}.

Lemma checked_sum_ok a b v : checked_sum a b = Ok v <-> v = a + b /\ a + b < U64_LIMIT.
Proof. unfold checked_sum. by rewrite ok_or_ok, checked_add_some. Qed.

Lemma add_within_ok a b max v : add_within a b max = Ok v <-> v = a + b /\ a + b < U64_LIMIT /\ a + b <= max.
Proof.
  unfold add_within. rewrite result_bind_ok. setoid_rewrite fail_then. setoid_rewrite ok_or_ok. setoid_rewrite checked_add_some.
  setoid_rewrite N.ltb_ge. split; [|intros (-> & ? & ?); by exists (a + b)]. by intros (? & [-> ?] & ? & [= <-]).
Qed.

Lemma checked_sum_fits a b : a + b < U64_LIMIT -> checked_sum a b = Ok (a + b).
Proof. intros. by apply checked_sum_ok. Qed.

Lemma add_within_fits a b max : a + b < U64_LIMIT /\ a + b <= max -> add_within a b max = Ok (a + b).
Proof. intros. by apply add_within_ok. Qed.

Lemma receipt_fits_bool this_rank r :
  negb (receipt_ordinal r mod rank_count plan =? this_rank)
    || negb (lower_hex_sha256 (receipt_input_sha256 r)) || negb (lower_hex_sha256 (receipt_output_sha256 r))
    || negb (bool_decide (checked_add U64_LIMIT (receipt_physically_scanned_rows r) (receipt_pruned_rows r) = Some (receipt_scanned_rows r)))
    || (receipt_physically_scanned_rows r <? receipt_matched_rows r) = false <-> receipt_fits this_rank r.
Proof.
  rewrite !orb_false_iff, !negb_false_iff, N.eqb_eq, bool_decide_eq_true, checked_add_some, N.ltb_ge. split.
  - intros ((((? & ?) & ?) & E & ?) & ?). split; try done. by rewrite E.
  - intros [? ? ? [E ?] ?]. rewrite E. by split_and!.
Qed.

Lemma gather_partition_ok this_rank g r g' :
  gather_partition plan this_rank g r = Ok g' <->
  receipt_fits this_rank r /\ by_ordinal g !! receipt_ordinal r = None /\ g' = add_receipt g r /\ bounded_sums g'.
Proof.
  unfold gather_partition. rewrite fail_then, orb_false_iff, receipt_fits_bool, bool_decide_eq_false, <- eq_None_not_Some.
  split.
  - intros [[Hf Hn] Hr]. do 6 inv_ok Hr. injection Hr as <-.
    apply checked_sum_ok in Ha as [-> ?], Ha0 as [-> ?], Ha1 as [-> ?], Ha2 as [-> ?]. apply add_within_ok in Ha3 as [-> ?], Ha4 as [-> ?]. done.
  - intros (Hf & Hn & -> & [? ? ? ? ? ?]). cbn in *. split; [done|].
    rewrite !checked_sum_fits by done. cbn [mbind result_bind]. rewrite !add_within_fits by done. done.
Qed.

Lemma bounded_add g r : bounded_sums (add_receipt g r) -> bounded_sums g.
Proof. intros [? ? ? ? ? ?]. cbn in *. split; lia. Qed.

Lemma bounded_adds rs : forall g, bounded_sums (foldl add_receipt g rs) -> bounded_sums g.
Proof. induction rs as [|r rs IH]; intros g Hg; [done|]. eapply bounded_add, IH, Hg. Qed.

Lemma by_rank_adds rs : forall g, by_rank (foldl add_receipt g rs) = by_rank g.
Proof. induction rs as [|r rs IH]; intros g; [done|]. cbn. by rewrite IH. Qed.

(** The ordinals of [rs] are new and different. *)
Definition fresh_ordinals (g : Gathered) (rs : list HpcPartitionReceipt) : Prop :=
  NoDup (receipt_ordinal <$> rs) /\ forall r, r ∈ rs -> by_ordinal g !! receipt_ordinal r = None.

Lemma fresh_cons g r rs : fresh_ordinals g (r :: rs) <-> by_ordinal g !! receipt_ordinal r = None /\ fresh_ordinals (add_receipt g r) rs.
Proof.
  unfold fresh_ordinals. rewrite fmap_cons, NoDup_cons. cbn. split.
  - intros [[Hn Hnd] Hf]. split_and!; [apply Hf; left|done|]. intros r' Hr'. apply lookup_insert_None. split; [apply Hf; by right|].
    intros E. apply Hn. rewrite E. by apply list_elem_of_fmap_2.
  - intros (Hr & Hnd & Hf). split_and!; [|done|].
    + intros (r' & E & Hr')%list_elem_of_fmap. apply Hf in Hr' as [_ Hne]%lookup_insert_None. congruence.
    + intros r' [->|Hr']%elem_of_cons; [done|]. by apply Hf in Hr' as [? _]%lookup_insert_None.
Qed.

Lemma gather_partitions_ok this_rank rs : forall g g', bounded_sums g ->
  try_fold (gather_partition plan this_rank) g rs = Ok g' <->
  Forall (receipt_fits this_rank) rs /\ fresh_ordinals g rs /\ g' = foldl add_receipt g rs /\ bounded_sums g'.
Proof.
  induction rs as [|r rs IH]; intros g g' Hg; cbn [try_fold foldl].
  { split; [intros [= <-]|by intros (_ & _ & -> & _)]. split_and!; [done| |done|done]. split; [constructor|]. by intros ? ?%elem_of_nil. }
  rewrite result_bind_ok, Forall_cons, fresh_cons. setoid_rewrite gather_partition_ok. split.
  - intros (g1 & (Hf & Hn & -> & Hb) & Hr). apply IH in Hr as (? & ? & -> & ?); [|done]. done.
  - intros ([Hf Hfs] & [Hn Hns] & -> & Hb). exists (add_receipt g r). pose proof (bounded_adds _ _ Hb). split; [done|]. by apply IH.
Qed.

End Gathering.

Lemma and_iff_compat_l' (A B C : Prop) : (A -> B <-> C) -> A /\ B <-> A /\ C.
Proof. tauto. Qed.

Section Certificates.
Context `{Sha256} (fs : FileSystem) (encode_plan : HpcRunPlan -> option (list byte))
  (encode_receipts : list HpcPartitionReceipt -> option (list byte))
  (encode_by_rank : gmap N HpcRankReceipt -> option (list byte))
  (encode_partitions : gmap N HpcPartitionReceipt -> option (list byte)).
Context (plan : HpcRunPlan).

Definition add_rank (g : Gathered) (r : HpcRankReceipt) : Gathered :=
  foldl add_receipt {| by_rank := <[rank r := r]> (by_rank g); by_ordinal := by_ordinal g; sum_scanned := sum_scanned g;
    sum_physical := sum_physical g; sum_pruned_groups := sum_pruned_groups g; sum_pruned := sum_pruned g;
    sum_matched := sum_matched g; sum_decoded := sum_decoded g |} (rank_partitions r).

(** A receipt of a rank of this run whose partitions are its own. *)
Record rank_fits (sha : string) (r : HpcRankReceipt) : Prop := {
  rank_valid : valid_rank_receipt plan sha r = true;
  rank_sealed : sha256_json (encode_receipts (rank_partitions r)) = Ok (rank_partition_set_sha256 r);
  rank_receipts_fit : Forall (receipt_fits plan (rank r)) (rank_partitions r);
}.

Lemma by_ordinal_adds rs : forall g g', by_ordinal g = by_ordinal g' -> by_ordinal (foldl add_receipt g rs) = by_ordinal (foldl add_receipt g' rs).
Proof. induction rs as [|r rs IH]; intros g g' Hg; cbn; [done|]. apply IH. cbn. by rewrite Hg. Qed.

Lemma gather_rank_ok sha g r g' : bounded_sums plan g ->
  gather_rank encode_receipts plan sha g r = Ok g' <->
  rank_fits sha r /\ by_rank g !! rank r = None /\ fresh_ordinals g (rank_partitions r) /\ g' = add_rank g r /\ bounded_sums plan g'.
Proof.
  intros Hg. unfold gather_rank. rewrite fail_then, negb_false_iff, result_bind_ok. setoid_rewrite fail_then.
  setoid_rewrite gather_partitions_ok; [|by destruct Hg].
  split.
  - intros (Hv & set & Hs & Hc & Hf & Hfresh & -> & Hb). rewrite orb_false_iff, negb_false_iff, bool_decide_eq_true, bool_decide_eq_false, <- eq_None_not_Some in Hc.
    destruct Hc as [<- Hn]. done.
  - intros ([Hv Hs Hf] & Hn & Hfresh & -> & Hb). split; [done|]. exists (rank_partition_set_sha256 r). split; [done|].
    rewrite orb_false_iff, negb_false_iff, bool_decide_eq_true, bool_decide_eq_false, <- eq_None_not_Some. done.
Qed.

Definition results_of (receipts : list HpcRankReceipt) : list HpcPartitionReceipt := concat (rank_partitions <$> receipts).

Definition fresh_ranks (g : Gathered) (receipts : list HpcRankReceipt) : Prop :=
  NoDup (rank <$> receipts) /\ (forall r, r ∈ receipts -> by_rank g !! rank r = None) /\ fresh_ordinals g (results_of receipts).

Lemma fresh_adds rs : forall g l, fresh_ordinals g (rs ++ l) <-> fresh_ordinals g rs /\ fresh_ordinals (foldl add_receipt g rs) l.
Proof.
  induction rs as [|r rs IH]; intros g l; cbn [app foldl].
  - split; [|by intros [_ ?]]. intros Hl. split; [|done]. split; [constructor|]. by intros ? ?%elem_of_nil.
  - rewrite !fresh_cons, IH. tauto.
Qed.

Lemma fresh_ranks_cons g r receipts : fresh_ranks g (r :: receipts) <->
  by_rank g !! rank r = None /\ fresh_ordinals g (rank_partitions r) /\ fresh_ranks (add_rank g r) receipts.
Proof.
  unfold fresh_ranks, results_of. rewrite fmap_cons, NoDup_cons. cbn [fmap list_fmap concat]. rewrite fresh_adds.
  assert (forall l, fresh_ordinals (foldl add_receipt g (rank_partitions r)) l <-> fresh_ordinals (add_rank g r) l) as ->.
  { intros l. assert (by_ordinal (add_rank g r) = by_ordinal (foldl add_receipt g (rank_partitions r))) as E by by apply by_ordinal_adds.
    unfold fresh_ordinals. by rewrite E. }
  unfold add_rank at 2. setoid_rewrite by_rank_adds. cbn [by_rank]. setoid_rewrite lookup_insert_None. split.
  - intros ((Hn & Hnd) & Hf & Ho & Ho'). split_and!; [apply Hf; left|done|done| |done].
    intros r' Hr'. split; [apply Hf; by right|]. intros E. apply Hn. rewrite E. by apply list_elem_of_fmap_2.
  - intros (Hr & Ho & Hnd & Hf & Ho'). split_and!; [|done| |done|done].
    + intros (r' & E & Hr')%list_elem_of_fmap. apply Hf in Hr' as [_ Hne]. congruence.
    + intros r' [->|Hr']%elem_of_cons; [done|]. by apply Hf.
Qed.

Lemma bounded_add_ranks receipts : forall g, bounded_sums plan (foldl add_rank g receipts) -> bounded_sums plan g.
Proof.
  induction receipts as [|r receipts IH]; intros g Hg; [done|]. cbn in Hg. apply IH in Hg. unfold add_rank in Hg.
  apply bounded_adds in Hg. by destruct Hg.
Qed.

Lemma gather_ranks_ok sha receipts : forall g g', bounded_sums plan g ->
  try_fold (gather_rank encode_receipts plan sha) g receipts = Ok g' <->
  Forall (rank_fits sha) receipts /\ fresh_ranks g receipts /\ g' = foldl add_rank g receipts /\ bounded_sums plan g'.
Proof.
  induction receipts as [|r receipts IH]; intros g g' Hg; cbn [try_fold foldl].
  { split; [intros [= <-]|by intros (_ & _ & -> & _)]. split_and!; [done| |done|done].
    split_and!; [apply NoDup_nil_2|by intros ? ?%elem_of_nil|].
    split; [apply NoDup_nil_2|by intros ? ?%elem_of_nil]. }
  rewrite result_bind_ok, Forall_cons, fresh_ranks_cons. setoid_rewrite gather_rank_ok; [|done]. split.
  - intros (g1 & (Hf & Hn & Ho & -> & Hb) & Hr). apply IH in Hr as (? & ? & -> & ?); done.
  - intros ([Hf Hfs] & (Hn & Ho & Hns) & -> & Hb). exists (add_rank g r). pose proof (bounded_add_ranks _ _ Hb). split; [done|]. by apply IH.
Qed.

(** Counters that add up what the receipts say. *)
Record tallies (s : Gathered -> N) (f : HpcPartitionReceipt -> N) : Prop := {
  tally_receipt g r : s (add_receipt g r) = s g + f r;
  tally_rank g r : s {| by_rank := <[rank r := r]> (by_rank g); by_ordinal := by_ordinal g; sum_scanned := sum_scanned g;
    sum_physical := sum_physical g; sum_pruned_groups := sum_pruned_groups g; sum_pruned := sum_pruned g;
    sum_matched := sum_matched g; sum_decoded := sum_decoded g |} = s g;
}.

Lemma tally_receipts s f rs : tallies s f -> forall g, s (foldl add_receipt g rs) = s g + sum_of f rs.
Proof.
  intros Ht. induction rs as [|r rs IH]; intros g; cbn; [lia|]. rewrite IH, (tally_receipt _ _ Ht). unfold sum_of. cbn. lia.
Qed.

Lemma tally_ranks s f receipts : tallies s f -> forall g, s (foldl add_rank g receipts) = s g + sum_of f (results_of receipts).
Proof.
  intros Ht. induction receipts as [|r receipts IH]; intros g; [cbn; unfold results_of; cbn; lia|]. cbn [foldl]. rewrite IH.
  unfold add_rank. rewrite (tally_receipts s f), (tally_rank _ _ Ht) by done. unfold results_of. cbn [fmap list_fmap concat].
  rewrite sum_of_app. unfold fmap. lia.
Qed.

Lemma by_ordinal_keyed rs : forall g, fresh_ordinals g rs -> forall k r,
  by_ordinal (foldl add_receipt g rs) !! k = Some r <-> by_ordinal g !! k = Some r \/ r ∈ rs /\ receipt_ordinal r = k.
Proof.
  induction rs as [|r rs IH]; intros g Hf k c; cbn [foldl]; [rewrite elem_of_nil; naive_solver|].
  apply fresh_cons in Hf as [Hn Hf]. rewrite IH by done. cbn. rewrite lookup_insert_Some, elem_of_cons.
  destruct (decide (receipt_ordinal r = k)) as [<-|]; naive_solver.
Qed.

Lemma gathered_maps receipts : forall g, fresh_ranks g receipts ->
  (forall k r, by_rank (foldl add_rank g receipts) !! k = Some r <-> by_rank g !! k = Some r \/ r ∈ receipts /\ rank r = k) /\
  (forall k r, by_ordinal (foldl add_rank g receipts) !! k = Some r <->
     by_ordinal g !! k = Some r \/ r ∈ results_of receipts /\ receipt_ordinal r = k).
Proof.
  induction receipts as [|r receipts IH]; intros g Hf; cbn [foldl].
  { unfold results_of. cbn. setoid_rewrite elem_of_nil. naive_solver. }
  apply fresh_ranks_cons in Hf as (Hn & Ho & Hf). destruct (IH _ Hf) as [Hr Hp]. split; intros k c.
  - rewrite Hr. unfold add_rank. rewrite by_rank_adds. cbn. rewrite lookup_insert_Some, elem_of_cons.
    destruct (decide (rank r = k)) as [<-|]; naive_solver.
  - rewrite Hp. unfold add_rank. rewrite by_ordinal_keyed by done. cbn. unfold results_of. cbn [fmap list_fmap concat].
    rewrite elem_of_app. unfold fmap. tauto.
Qed.

(** What the receipts of a run say in total. *)
Definition gathered (receipts : list HpcRankReceipt) : Gathered :=
  let total f := sum_of f (results_of receipts) in
  {| by_rank := keyed rank receipts; by_ordinal := keyed receipt_ordinal (results_of receipts);
     sum_scanned := total receipt_scanned_rows; sum_physical := total receipt_physically_scanned_rows;
     sum_pruned_groups := total receipt_pruned_row_groups; sum_pruned := total receipt_pruned_rows;
     sum_matched := total receipt_matched_rows; sum_decoded := total receipt_decoded_bytes |}.

(** One receipt of every rank, and in them one of every partition of the plan,
    of its content, with totals within the limits of the run. *)
Record complete_run (sha : string) (receipts : list HpcRankReceipt) : Prop := {
  run_ranks : rank <$> receipts ≡ₚ partition_range (rank_count plan);
  run_receipts : Forall (rank_fits sha) receipts;
  run_ordinals : receipt_ordinal <$> results_of receipts ≡ₚ partition_range (N.of_nat (length (partitions plan)));
  run_planned p : p ∈ partitions plan -> exists r, r ∈ results_of receipts /\ receipt_ordinal r = plan_ordinal p /\
    receipt_semantic_partition r = plan_semantic_partition p /\ receipt_input_sha256 r = facts_sha256 p;
  run_sums : bounded_sums plan (gathered receipts);
}.

Definition run_certificate (sha : string) (receipts : list HpcRankReceipt) : result NativeRuntimeError HpcRunCertificate :=
  receipt_sha256 ← sha256_json (encode_by_rank (keyed rank receipts));
  result_sha256 ← sha256_json (encode_partitions (keyed receipt_ordinal (results_of receipts)));
  let total f := sum_of f (results_of receipts) in
  Ok {| cert_run_format_version := HPC_RUN_FORMAT_VERSION; cert_run_id := run_id plan; cert_run_plan_sha256 := sha;
        cert_run_snapshot_manifest_sha256 := run_snapshot_manifest_sha256 plan;
        cert_run_semantic_root_sha256 := run_semantic_root_sha256 plan;
        cert_run_authorized_graph_set_sha256 := run_authorized_graph_set_sha256 plan; cert_rank_count := rank_count plan;
        cert_run_partition_count := N.of_nat (length (partitions plan)); cert_scanned_rows := total receipt_scanned_rows;
        cert_physically_scanned_rows := total receipt_physically_scanned_rows; cert_pruned_row_groups := total receipt_pruned_row_groups;
        cert_pruned_rows := total receipt_pruned_rows; cert_matched_rows := total receipt_matched_rows;
        cert_decoded_bytes := total receipt_decoded_bytes; rank_receipt_set_sha256 := receipt_sha256;
        result_set_sha256 := result_sha256; cert_complete := true |}.

Lemma keyed_range {A} (key : A -> N) (m : gmap N A) l count :
  (forall k v, m !! k = Some v <-> v ∈ l /\ key v = k) -> NoDup (key <$> l) ->
  keys_differ m count = false <-> key <$> l ≡ₚ partition_range count.
Proof.
  intros Hm Hnd. rewrite keys_differ_false. split.
  - intros Hk. apply NoDup_Permutation; [done|apply NoDup_range|]. intros k. rewrite elem_of_range, <- Hk, list_elem_of_fmap.
    unfold is_Some. setoid_rewrite Hm. naive_solver.
  - intros Hp k. rewrite <- elem_of_range, <- Hp, list_elem_of_fmap. unfold is_Some. setoid_rewrite Hm. naive_solver.
Qed.

Lemma nothing_bounded : bounded_sums plan nothing_gathered.
Proof. split; cbn; (split; [done|lia]) || done. Qed.

Lemma fresh_nothing receipts : fresh_ranks nothing_gathered receipts <->
  NoDup (rank <$> receipts) /\ NoDup (receipt_ordinal <$> results_of receipts).
Proof. unfold fresh_ranks, fresh_ordinals. cbn. setoid_rewrite lookup_empty. naive_solver. Qed.

Lemma check_planned_ok g p (results : list HpcPartitionReceipt) : (forall k r, by_ordinal g !! k = Some r <-> r ∈ results /\ receipt_ordinal r = k) ->
  check_planned g p = Ok tt <-> exists r, r ∈ results /\ receipt_ordinal r = plan_ordinal p /\
    receipt_semantic_partition r = plan_semantic_partition p /\ receipt_input_sha256 r = facts_sha256 p.
Proof.
  intros Hg. unfold check_planned. rewrite result_bind_ok. setoid_rewrite ok_or_ok. setoid_rewrite Hg. setoid_rewrite fail_if_ok.
  setoid_rewrite orb_false_iff. setoid_rewrite negb_false_iff. setoid_rewrite N.eqb_eq. setoid_rewrite bool_decide_eq_true. naive_solver.
Qed.

Lemma check_all_ok g (results : list HpcPartitionReceipt) : (forall k r, by_ordinal g !! k = Some r <-> r ∈ results /\ receipt_ordinal r = k) ->
  is_ok (try_map (check_planned g) (partitions plan)) = true <->
  forall p, p ∈ partitions plan -> exists r, r ∈ results /\ receipt_ordinal r = plan_ordinal p /\
    receipt_semantic_partition r = plan_semantic_partition p /\ receipt_input_sha256 r = facts_sha256 p.
Proof.
  intros Hg. setoid_rewrite <- (check_planned_ok g _ results Hg). rewrite is_ok_true. setoid_rewrite try_map_ok. split.
  - intros [us Hus] p Hp. destruct (list_elem_of_lookup_1 _ _ Hp) as [i Hi].
    destruct (Forall2_lookup_l _ _ _ _ _ Hus Hi) as ([] & _ & ?). done.
  - intros Hp. exists (replicate (length (partitions plan)) tt). apply Forall2_same_length_lookup_2; [by rewrite length_replicate|].
    intros i p [] Hi _. apply Hp. by eapply list_elem_of_lookup_2.
Qed.

Lemma keyed_eq {A} (key : A -> N) (m : gmap N A) l :
  (forall k v, m !! k = Some v <-> v ∈ l /\ key v = k) -> NoDup (key <$> l) -> m = keyed key l.
Proof. intros Hm Hnd. apply map_eq. intros k. apply option_eq. intros v. by rewrite Hm, keyed_lookup. Qed.

(** A plan that was validated has fewer than 2^32 partitions. *)
Lemma validated_count sha : validate_hpc_run_plan fs encode_plan plan = Ok sha ->
  partition_count_of plan = Ok (N.of_nat (length (partitions plan))).
Proof.
  unfold validate_hpc_run_plan. intros Hv. do 3 inv_ok Hv. unfold partition_count_of in *. by destruct (fits _ _).
Qed.

Lemma Gathered_ext g g' : by_rank g = by_rank g' -> by_ordinal g = by_ordinal g' -> sum_scanned g = sum_scanned g' ->
  sum_physical g = sum_physical g' -> sum_pruned_groups g = sum_pruned_groups g' -> sum_pruned g = sum_pruned g' ->
  sum_matched g = sum_matched g' -> sum_decoded g = sum_decoded g' -> g = g'.
Proof. destruct g, g'. cbn. intros. by subst. Qed.

Lemma tally_all s f receipts : tallies s f -> s nothing_gathered = 0 ->
  s (foldl add_rank nothing_gathered receipts) = sum_of f (results_of receipts).
Proof. intros Ht H0. rewrite (tally_ranks s f) by done. by rewrite H0. Qed.

Lemma gathered_eq receipts : fresh_ranks nothing_gathered receipts -> foldl add_rank nothing_gathered receipts = gathered receipts.
Proof.
  intros Hf. destruct (gathered_maps receipts _ Hf) as [Hr Ho]. apply fresh_nothing in Hf as [Hnr Hno].
  apply Gathered_ext; [| |by apply tally_all..]; cbn.
  - apply keyed_eq; [|done]. intros k v. rewrite Hr. cbn. rewrite lookup_empty. naive_solver.
  - apply keyed_eq; [|done]. intros k v. rewrite Ho. cbn. rewrite lookup_empty. naive_solver.
Qed.

Lemma keyed_perm {A} (key : A -> N) l k : l ≡ₚ k -> NoDup (key <$> l) -> keyed key l = keyed key k.
Proof.
  intros Hp Hnd. apply keyed_eq; [|by rewrite <- Hp]. intros i v. rewrite keyed_lookup by done. by rewrite Hp.
Qed.

Lemma results_perm receipts receipts' : receipts ≡ₚ receipts' -> results_of receipts ≡ₚ results_of receipts'.
Proof. intros Hp. unfold results_of. by rewrite Hp. Qed.

Lemma gathered_perm receipts receipts' : receipts ≡ₚ receipts' -> NoDup (rank <$> receipts) ->
  NoDup (receipt_ordinal <$> results_of receipts) -> gathered receipts = gathered receipts'.
Proof.
  intros Hp Hr Ho. pose proof (results_perm _ _ Hp) as Hq. unfold gathered. cbv zeta.
  rewrite (keyed_perm rank _ _ Hp Hr), (keyed_perm receipt_ordinal _ _ Hq Ho). by rewrite !Hq.
Qed.

Lemma NoDup_of_range l count : l ≡ₚ partition_range count -> NoDup l.
Proof. intros ->. apply NoDup_range. Qed.

Lemma complete_run_perm sha receipts receipts' : receipts ≡ₚ receipts' -> complete_run sha receipts -> complete_run sha receipts'.
Proof.
  intros Hp [Hr Hf Ho Hpl Hb]. pose proof (results_perm _ _ Hp) as Hq. split.
  - by rewrite <- Hp.
  - by rewrite <- Hp.
  - by rewrite <- Hq.
  - intros p Hp'. destruct (Hpl p Hp') as (r & ? & ?). exists r. by rewrite <- Hq.
  - rewrite <- (gathered_perm receipts); [done|done|by eapply NoDup_of_range|by eapply NoDup_of_range].
Qed.

Lemma finalize_ok receipts certificate :
  finalize_hpc_run fs encode_plan encode_receipts encode_by_rank encode_partitions plan receipts = Ok certificate <->
  exists sha, validate_hpc_run_plan fs encode_plan plan = Ok sha /\ complete_run sha receipts /\
    run_certificate sha receipts = Ok certificate.
Proof.
  unfold finalize_hpc_run. rewrite result_bind_ok. apply exist_proper. intros sha. apply and_iff_compat_l'. intros Hsha.
  rewrite fail_then, negb_false_iff, N.eqb_eq. rewrite result_bind_ok. setoid_rewrite gather_ranks_ok; [|apply nothing_bounded].
  rewrite (validated_count sha Hsha). cbn [mbind result_bind]. setoid_rewrite fail_then. setoid_rewrite orb_false_iff. split.
  - intros (Hlen & g & (Hfits & Hf & -> & Hb) & [Hkr Hko] & Hrest). rewrite (gathered_eq receipts Hf) in *. apply fresh_nothing in Hf as [Hr Ho].
    apply (keyed_range rank _ receipts) in Hkr; [|intros; by apply keyed_lookup|done].
    apply (keyed_range receipt_ordinal _ (results_of receipts)) in Hko; [|intros; by apply keyed_lookup|done].
    inv_ok Hrest. split; [|exact Hrest]. split; [done|done|done| |done].
    apply (check_all_ok (gathered receipts)); [intros; by apply keyed_lookup|]. apply is_ok_true. by exists a.
  - intros ([Hr Hfits Ho Hp Hb] & Hcert). pose proof (NoDup_of_range _ _ Hr) as Hnr. pose proof (NoDup_of_range _ _ Ho) as Hno.
    assert (fresh_ranks nothing_gathered receipts) as Hf by by apply fresh_nothing.
    split. { apply Permutation_length in Hr. rewrite length_fmap in Hr. rewrite Hr. unfold partition_range. rewrite length_fmap, length_seq. lia. }
    exists (gathered receipts). rewrite (gathered_eq receipts Hf). split_and!; [done..| | |].
    + apply (keyed_range rank _ receipts); [intros; by apply keyed_lookup|done|done].
    + apply (keyed_range receipt_ordinal _ (results_of receipts)); [intros; by apply keyed_lookup|done|done].
    + apply (check_all_ok (gathered receipts)), is_ok_true in Hp as [us ->]; [exact Hcert|intros; by apply keyed_lookup].
Qed.

Lemma run_certificate_perm sha receipts receipts' : receipts ≡ₚ receipts' -> complete_run sha receipts ->
  run_certificate sha receipts' = run_certificate sha receipts.
Proof.
  intros Hp [Hr _ Ho _ _]. assert (gathered receipts = gathered receipts') as E
    by (apply gathered_perm; [done|by eapply NoDup_of_range..]).
  pose proof (results_perm _ _ Hp) as Hq. apply (f_equal by_rank) in E as E1. apply (f_equal by_ordinal) in E as E2. cbn in E1, E2.
  assert (forall f, sum_of f (results_of receipts) = sum_of f (results_of receipts')) as Hs by (intros f; by rewrite Hq).
  unfold run_certificate. cbv zeta. by rewrite E1, E2, !Hs.
Qed.

(** C20: a run is certified exactly when the plan is valid and the receipts, in
    whatever order they come, are one of every rank and in them one of every
    partition of the plan, for its content, with consistent counters and
    totals within the limits of the run.  The certificate carries these totals
    and does not depend on the order. *)
Theorem run_certificate_exact (receipts : list HpcRankReceipt) (certificate : HpcRunCertificate) :
  let finalize := finalize_hpc_run fs encode_plan encode_receipts encode_by_rank encode_partitions plan in
  (finalize receipts = Ok certificate <->
     exists sha, validate_hpc_run_plan fs encode_plan plan = Ok sha /\ complete_run sha receipts /\
       run_certificate sha receipts = Ok certificate) /\
  (forall receipts', receipts ≡ₚ receipts' -> finalize receipts = Ok certificate -> finalize receipts' = Ok certificate).
Proof.
  intros finalize. split; [apply finalize_ok|]. intros receipts' Hp (sha & Hsha & Hc & Hcert)%finalize_ok.
  apply finalize_ok. exists sha. split_and!; [done|by eapply complete_run_perm|]. by rewrite (run_certificate_perm _ receipts).
Qed.

End Certificates.

(** ** A run of all ranks *)

Section GangRun.
Context `{Sha256} (fs : FileSystem) (encode_plan : HpcRunPlan -> option (list byte))
  (encode_receipts : list HpcPartitionReceipt -> option (list byte))
  (encode_by_rank : gmap N HpcRankReceipt -> option (list byte))
  (encode_partitions : gmap N HpcPartitionReceipt -> option (list byte)).
Context `{ParquetReader} (encode_rows : list EncodedFact -> option (list byte)).
Context (m : Machine) (regular_file : list byte -> bool) (run : N -> N -> list byte -> option (list byte)).
Context (cancelled : HpcPartitionPlan -> nat -> bool) (plan : HpcRunPlan).

Abbreviation scan := (scan_leaf fs encode_rows m regular_file run cancelled).
Abbreviation execute k := (execute_hpc_rank fs encode_plan encode_receipts encode_rows m regular_file run cancelled plan k (rank_count plan)).

(** The facts of every partition can be scanned, within the limits of the run. *)
Record scannable (outcome : HpcPartitionPlan -> LeafScanResult) : Prop := {
  scans_succeed p : p ∈ partitions plan -> scan p = Ok (outcome p);
  scans_scanned : sum_of (scanned_rows ∘ outcome) (partitions plan) < U64_LIMIT;
  scans_groups : sum_of (pruned_row_groups ∘ outcome) (partitions plan) < U64_LIMIT;
  scans_matched : sum_of (matched_rows ∘ outcome) (partitions plan) <= run_maximum_rows plan;
  scans_decoded : sum_of (decoded_bytes ∘ outcome) (partitions plan) <= run_maximum_decoded_bytes plan;
  scans_width : run_maximum_decoded_bytes plan < U64_LIMIT;
}.

Lemma validate_partitions_ok backend ps : forall seen ordinals,
  try_fold (validate_partition fs backend) seen ps = Ok ordinals ->
  NoDup (plan_ordinal <$> ps) /\ (forall p, p ∈ ps -> plan_ordinal p ∉ seen) /\ ordinals = list_to_set (plan_ordinal <$> ps) ∪ seen.
Proof.
  induction ps as [|p ps IH]; intros seen ordinals Hf; cbn [try_fold] in Hf.
  { injection Hf as <-. split_and!; [apply NoDup_nil_2|by intros ? ?%elem_of_nil|set_solver]. }
  inv_ok Hf. unfold validate_partition in Ha. do 3 inv_ok Ha. injection Ha as <-. inv_ok Ha1.
  apply orb_false_iff in Ha1 as [_ Hnew%bool_decide_eq_false]. apply IH in Hf as (Hnd & Hs & ->). rewrite fmap_cons, NoDup_cons. split_and!.
  - intros (q & E & Hq)%list_elem_of_fmap. apply (Hs q Hq). rewrite <- E. set_solver.
  - done.
  - intros q [->|Hq]%elem_of_cons; [done|]. specialize (Hs q Hq). set_solver.
  - cbn. set_solver.
Qed.

Lemma validated sha : validate_hpc_run_plan fs encode_plan plan = Ok sha ->
  valid_run_header plan = true /\ plan_ordinal <$> partitions plan ≡ₚ partition_range (N.of_nat (length (partitions plan))).
Proof.
  unfold validate_hpc_run_plan. intros Hv. do 4 inv_ok Hv. inv_ok Ha. apply negb_false_iff in Ha. split; [done|].
  apply validate_partitions_ok in Ha0 as (Hnd & _ & ->). inv_ok Ha2. apply orb_false_iff in Ha2 as [_ Hk].
  apply negb_false_iff, bool_decide_eq_true in Hk. unfold partition_count_of in Ha1. destruct (fits _ _); [|done]. injection Ha1 as <-.
  unfold partition_range. rewrite <- Hk, sort_by_key_perm. rewrite (right_id_L ∅ (∪)). by rewrite elements_list_to_set.
Qed.

Lemma header_ok : valid_run_header plan = true -> 2 <= rank_count plan /\ (0 < local_compute_threads plan)%nat.
Proof.
  unfold valid_run_header. rewrite !andb_true_iff. intros Hh. destruct_and!. rewrite N.leb_le, negb_true_iff, Nat.eqb_neq in *. lia.
Qed.

Lemma parallelism_positive assigned : valid_run_header plan = true -> (0 < parallelism_of plan assigned)%nat.
Proof. intros [_ ?]%header_ok. unfold parallelism_of. destruct (local_backend plan); lia. Qed.

(** The receipts of the lanes of a rank. *)
Lemma run_lanes_ok (outcome : HpcPartitionPlan -> LeafScanResult) assigned n : (0 < n)%nat ->
  (forall p, p ∈ assigned -> scan p = Ok (outcome p)) ->
  exists rs, run_lanes fs encode_rows m regular_file run cancelled assigned n = Ok rs /\
    rs ≡ₚ (fun p => receipt_of p (outcome p)) <$> assigned.
Proof.
  intros Hn Hscan. set (g p := receipt_of p (outcome p)). exists (concat ((fun lane => g <$> lane_partitions assigned n lane) <$> seq 0 n)). split.
  - unfold run_lanes. rewrite (try_map_pure (fun lane => g <$> lane_partitions assigned n lane)); [done|].
    intros lane Hl. apply try_map_pure. intros p Hp. unfold scan_partition. rewrite Hscan; [done|].
    rewrite <- (lanes_perm assigned n Hn). apply elem_of_concat. exists (lane_partitions assigned n lane).
    split; [by apply list_elem_of_fmap_2|done].
  - rewrite concat_fmap_fmap. by rewrite lanes_perm.
Qed.

Lemma add_results_ok rs : forall t, t.1 + sum_of receipt_matched_rows rs < U64_LIMIT -> t.1 + sum_of receipt_matched_rows rs <= run_maximum_rows plan ->
  t.2 + sum_of receipt_decoded_bytes rs < U64_LIMIT -> t.2 + sum_of receipt_decoded_bytes rs <= run_maximum_decoded_bytes plan ->
  is_ok (try_fold (add_result plan) t rs) = true.
Proof.
  induction rs as [|r rs IH]; intros [a b] H1 H2 H3 H4; [done|]. unfold sum_of in *. cbn [foldr fst snd] in *.
  assert (add_result plan (a, b) r = Ok (a + receipt_matched_rows r, b + receipt_decoded_bytes r)) as Hr
    by (unfold add_result; cbn [fst snd]; by rewrite !add_within_fits by lia).
  cbn [try_fold]. rewrite Hr. cbn [mbind result_bind]. apply IH; cbn; lia.
Qed.

(** What the scan of a partition reports fits its rank. *)
Lemma scanned_receipt p r : scan p = Ok r ->
  receipt_fits plan (plan_ordinal p mod rank_count plan) (receipt_of p r) /\ receipt_input_sha256 (receipt_of p r) = facts_sha256 p.
Proof. intros (? & ? & ? & ? & ? & ?)%scan_counters. by split. Qed.

Context (encoded : forall rs, is_Some (encode_receipts rs)).

(** A rank whose partitions can be scanned delivers their receipts. *)
Lemma execute_ok sha outcome k : validate_hpc_run_plan fs encode_plan plan = Ok sha -> scannable outcome -> k < rank_count plan ->
  exists r, execute k = Ok r /\ rank r = k /\ rank_fits encode_receipts plan sha r /\
    rank_partitions r ≡ₚ (fun p => receipt_of p (outcome p)) <$> assigned_to plan k.
Proof.
  intros Hsha Hs Hk. destruct (validated sha Hsha) as [Hh _]. pose proof Hs as [Hscan Hrows _ Hmatched Hdecoded Hwidth].
  set (g p := receipt_of p (outcome p)). set (assigned := assigned_to plan k).
  assert (forall p, p ∈ assigned -> p ∈ partitions plan /\ plan_ordinal p mod rank_count plan = k) as Hin
    by (intros p [? ?]%list_elem_of_filter; done).
  destruct (run_lanes_ok outcome assigned (parallelism_of plan assigned)) as (rs & Hrs & Hp);
    [by apply parallelism_positive|intros p Hp; by apply Hscan, Hin|].
  assert (forall f, sum_of f rs <= sum_of (f ∘ g) (partitions plan)) as Hsum.
  { intros f. rewrite Hp, sum_of_fmap. apply sum_of_filter. }
  assert (sum_of (matched_rows ∘ outcome) (partitions plan) <= sum_of (scanned_rows ∘ outcome) (partitions plan)) as Hms.
  { apply sum_of_le. intros p Hp'. cbn. destruct (scan_counters _ _ _ _ _ _ _ _ _ _ _ _ (Hscan p Hp')) as (_ & _ & _ & ? & _ & ?). lia. }
  pose proof (Hsum receipt_matched_rows) as Hm. pose proof (Hsum receipt_decoded_bytes) as Hd.
  change (receipt_matched_rows ∘ g) with (matched_rows ∘ outcome) in Hm. change (receipt_decoded_bytes ∘ g) with (decoded_bytes ∘ outcome) in Hd.
  assert (is_ok (try_fold (add_result plan) (0, 0) rs) = true) as [t Ht]%is_ok_true by (apply add_results_ok; cbn [fst snd]; lia).
  destruct (encoded (sort_by_key receipt_ordinal rs)) as [text Htext].
  eexists. split_and!.
  - unfold execute_hpc_rank. rewrite Hsha. cbn [mbind result_bind]. rewrite N.eqb_refl, (proj2 (N.leb_gt _ _)) by done.
    cbn [negb orb fail_if mbind result_bind]. fold assigned. rewrite Hrs. cbn [mbind result_bind]. rewrite Ht. cbn [mbind result_bind].
    unfold sha256_json at 1. rewrite Htext. cbn [ok_or mbind result_bind]. reflexivity.
  - done.
  - split; cbn.
    + unfold valid_rank_receipt. cbn. rewrite !bool_decide_true by done. rewrite !N.eqb_refl. cbn. by apply N.ltb_lt.
    + unfold sha256_json. by rewrite Htext.
    + rewrite sort_by_key_perm, Hp. apply Forall_fmap, Forall_forall. intros p Hp'. cbn. destruct (Hin p Hp') as [Hp1 <-].
      by apply scanned_receipt, Hscan.
  - cbn. by rewrite sort_by_key_perm.
Qed.

Lemma assignment_perm : 0 < rank_count plan -> concat (assigned_to plan <$> partition_range (rank_count plan)) ≡ₚ partitions plan.
Proof.
  intros Hn. unfold partition_range. rewrite <- list_fmap_compose.
  rewrite <- (filter_partition_permutation (fun p => N.to_nat (plan_ordinal p mod rank_count plan)) (N.to_nat (rank_count plan)) (partitions plan)) at 1.
  - eapply eq_subrelation; [apply _|]. f_equal. apply list_fmap_ext. intros _ i _. cbn. apply list_filter_ext_in.
    intros p _. generalize (plan_ordinal p mod rank_count plan). intros. lia.
  - intros p _. pose proof (N.mod_lt (plan_ordinal p) (rank_count plan) ltac:(lia)). generalize dependent (plan_ordinal p mod rank_count plan). intros. lia.
Qed.

(** All ranks together deliver one receipt of every partition. *)
Lemma gang_receipts sha outcome : validate_hpc_run_plan fs encode_plan plan = Ok sha -> scannable outcome ->
  exists receipts, Forall2 (fun k r => execute k = Ok r) (partition_range (rank_count plan)) receipts /\
    rank <$> receipts = partition_range (rank_count plan) /\ Forall (rank_fits encode_receipts plan sha) receipts /\
    results_of receipts ≡ₚ (fun p => receipt_of p (outcome p)) <$> partitions plan.
Proof.
  intros Hsha Hs. destruct (validated sha Hsha) as [[Hn _]%header_ok _].
  assert (forall ks, (forall k, k ∈ ks -> k < rank_count plan) -> exists receipts, Forall2 (fun k r => execute k = Ok r) ks receipts /\
    rank <$> receipts = ks /\ Forall (rank_fits encode_receipts plan sha) receipts /\
    results_of receipts ≡ₚ (fun p => receipt_of p (outcome p)) <$> concat (assigned_to plan <$> ks)) as Hall.
  { induction ks as [|k ks IH]; intros Hks; [by exists []|].
    destruct (execute_ok sha outcome k Hsha Hs (Hks k ltac:(left))) as (r & Hr & Hk & Hf & Hp).
    destruct IH as (receipts & Hrs & Hranks & Hfits & Hres); [intros; apply Hks; by right|].
    exists (r :: receipts). unfold results_of in *. rewrite !fmap_cons, Hk, Hranks. cbn [concat]. split_and!; [by constructor|done|by constructor|].
    rewrite fmap_app. by apply Permutation_app. }
  destruct (Hall (partition_range (rank_count plan))) as (receipts & ? & ? & ? & Hres); [intros k; by rewrite elem_of_range|].
  exists receipts. split_and!; [done..|]. rewrite Hres. by rewrite assignment_perm by lia.
Qed.

Lemma gang_complete sha outcome receipts : validate_hpc_run_plan fs encode_plan plan = Ok sha -> scannable outcome ->
  rank <$> receipts = partition_range (rank_count plan) -> Forall (rank_fits encode_receipts plan sha) receipts ->
  results_of receipts ≡ₚ (fun p => receipt_of p (outcome p)) <$> partitions plan -> complete_run encode_receipts plan sha receipts.
Proof.
  intros Hsha [Hscan Hrows Hgroups Hmatched Hdecoded Hwidth] Hranks Hfits Hres. destruct (validated sha Hsha) as [_ Ho].
  assert (forall f, sum_of f (results_of receipts) = sum_of (fun p => f (receipt_of p (outcome p))) (partitions plan)) as Hsum.
  { intros f. by rewrite Hres, sum_of_fmap. }
  assert (forall f, (forall p, p ∈ partitions plan -> f (outcome p) <= scanned_rows (outcome p)) ->
    sum_of (f ∘ outcome) (partitions plan) < U64_LIMIT) as Hle.
  { intros f Hf. eapply N.le_lt_trans; [apply sum_of_le; exact Hf|exact Hrows]. }
  assert (forall p, p ∈ partitions plan -> physically_scanned_rows (outcome p) + pruned_rows (outcome p) = scanned_rows (outcome p) /\
    matched_rows (outcome p) <= physically_scanned_rows (outcome p)) as Hc.
  { intros p Hp. by destruct (scan_counters _ _ _ _ _ _ _ _ _ _ _ _ (Hscan p Hp)) as (_ & _ & _ & ? & _ & ?). }
  split.
  - by rewrite Hranks.
  - done.
  - rewrite Hres, <- list_fmap_compose. exact Ho.
  - intros p Hp. exists (receipt_of p (outcome p)). rewrite Hres. split_and!; [by apply (list_elem_of_fmap_2 (fun p => receipt_of p (outcome p)))|done|done|].
    by apply scanned_receipt, Hscan.
  - split; cbn; rewrite Hsum; cbn.
    + exact Hrows.
    + apply (Hle physically_scanned_rows). intros p Hp. destruct (Hc p Hp). lia.
    + exact Hgroups.
    + apply (Hle pruned_rows). intros p Hp. destruct (Hc p Hp). lia.
    + split; [|exact Hmatched]. apply (Hle matched_rows). intros p Hp. destruct (Hc p Hp). lia.
    + unfold compose in Hdecoded. split; [|done]. by eapply N.le_lt_trans.
Qed.

Context (ranks_encoded : forall g, is_Some (encode_by_rank g)) (partitions_encoded : forall g, is_Some (encode_partitions g)).

(** C19: a valid run whose partitions can be scanned within its limits is
    certified: every rank succeeds, whatever threads it uses, and the receipts
    of all ranks, in whatever order they come, give one certificate, whose
    totals are those of the scans. *)
Theorem scannable_run_is_certified (sha : string) (outcome : HpcPartitionPlan -> LeafScanResult) :
  validate_hpc_run_plan fs encode_plan plan = Ok sha -> scannable outcome ->
  exists receipts certificate,
    Forall2 (fun k r => execute k = Ok r) (partition_range (rank_count plan)) receipts /\
    (forall receipts', receipts' ≡ₚ receipts ->
       finalize_hpc_run fs encode_plan encode_receipts encode_by_rank encode_partitions plan receipts' = Ok certificate) /\
    cert_scanned_rows certificate = sum_of (scanned_rows ∘ outcome) (partitions plan) /\
    cert_matched_rows certificate = sum_of (matched_rows ∘ outcome) (partitions plan) /\
    cert_decoded_bytes certificate = sum_of (decoded_bytes ∘ outcome) (partitions plan).
Proof.
  intros Hsha Hs. destruct (gang_receipts sha outcome Hsha Hs) as (receipts & Hex & Hranks & Hfits & Hres).
  pose proof (gang_complete sha outcome receipts Hsha Hs Hranks Hfits Hres) as Hc.
  assert (exists c, run_certificate encode_by_rank encode_partitions plan sha receipts = Ok c) as [c Hcert].
  { unfold run_certificate, sha256_json. destruct (ranks_encoded (keyed rank receipts)) as [? ->].
    destruct (partitions_encoded (keyed receipt_ordinal (results_of receipts))) as [? ->]. cbn. eauto. }
  exists receipts, c. split_and!; [done| | | |].
  { intros receipts' Hp. apply finalize_ok. exists sha. symmetry in Hp. split_and!; [done|by eapply complete_run_perm|].
    by rewrite (run_certificate_perm encode_receipts _ _ _ _ receipts). }
  all: unfold run_certificate in Hcert; do 2 inv_ok Hcert; injection Hcert as <-; cbn; by rewrite Hres, sum_of_fmap.
Qed.

End GangRun.

(** ** Witnesses *)

Definition sample_completion (i : N) : PartitionCompletion :=
  {| completed_partition := i; completed_partition_count := 2; worker_id := "worker"; pod_uid := "pod"; node_uid := "node";
     completed_input_sha256 := hex_encode (padded_sha256 []); completed_output_sha256 := hex_encode (padded_sha256 []);
     completed_rows := 5; completed_exchange_bytes := 10; completed_spill_bytes := 0; completed_complete := true |}.

Definition sample_barrier : StageBarrier :=
  {| barrier_stage_id := "join"; barrier_partition_count := 2; barrier_max_rows := 10; barrier_max_exchange_bytes := 20;
     barrier_max_spill_bytes := 1; completions := ∅ |}.

Abbreviation sample_deliveries := [sample_completion 1; sample_completion 0; sample_completion 1].

Lemma stage_barrier_counts_every_partition_once_witness :
  exists certificate, finish_barrier (H:=padded_digest) (fun _ => Some []) (foldl deliver sample_barrier sample_deliveries) = Ok certificate /\
    stage_certificate (H:=padded_digest) (fun _ => Some []) sample_barrier [sample_completion 0; sample_completion 1] = Ok certificate /\
    certified_rows certificate = 10.
Proof.
  destruct (stage_barrier_counts_every_partition_once (H:=padded_digest) (fun _ => Some []) "join" 2 10 20 1 sample_barrier sample_deliveries)
    as [_ Hset]; [by vm_compute..|].
  eexists. split_and!; [|reflexivity|by vm_compute]. rewrite (Hset [sample_completion 0; sample_completion 1]); [reflexivity| |].
  - split_and!; [by vm_compute| |by vm_compute..]. intros c [->|[->|[]%elem_of_nil]%elem_of_cons]%elem_of_cons; by vm_compute.
  - set_solver.
Defined.

Definition sample_partition (ordinal : N) : HpcPartitionPlan :=
  {| plan_ordinal := ordinal; plan_semantic_partition := 3; facts_path := "/facts"; facts_sha256 := hex_encode (padded_sha256 sample_file);
     facts_bytes := 4; plan_predicate := sample_predicate; plan_limits := sample_limits RustMode |}.

Definition sample_run : HpcRunPlan :=
  {| run_format_version := 1; run_id := "run"; run_snapshot_manifest_sha256 := hex_encode (padded_sha256 []);
     run_semantic_root_sha256 := hex_encode (padded_sha256 []); run_authorized_graph_set_sha256 := hex_encode (padded_sha256 []);
     rank_count := 2; local_backend := Rust; local_compute_threads := 2; run_blocking_io_threads := 1; estimated_row_bytes := 64;
     run_maximum_rows := 6; run_maximum_decoded_bytes := 1000; partitions := [sample_partition 2; sample_partition 0; sample_partition 1] |}.

Definition sample_fs : FileSystem := {[ "/facts"%string := Regular sample_file ]}.

Definition sample_execute (k : N) : result NativeRuntimeError HpcRankReceipt :=
  execute_hpc_rank (H:=padded_digest) (H0:=sample_reader sample_file sample_schema sample_groups) sample_fs (fun _ => Some []) (fun _ => Some [])
    (fun _ => Some []) kernel_machine (fun _ => true) (fun _ _ => Kernel.main) (fun _ _ => false) sample_run k 2.

Definition sample_finalize (receipts : list HpcRankReceipt) : result NativeRuntimeError HpcRunCertificate :=
  finalize_hpc_run (H:=padded_digest) sample_fs (fun _ => Some []) (fun _ => Some []) (fun _ => Some []) (fun _ => Some []) sample_run receipts.

Definition sample_receipts : list HpcRankReceipt :=
  omap (fun k => match sample_execute k with Ok r => Some r | Err _ => None end) [1; 0].

Lemma run_certificate_exact_witness :
  exists certificate, sample_finalize sample_receipts = Ok certificate /\ sample_finalize (reverse sample_receipts) = Ok certificate /\
    cert_matched_rows certificate = 6.
Proof.
  assert (exists c, sample_finalize sample_receipts = Ok c /\ cert_matched_rows c = 6) as (c & Hc & H6).
  { eexists. split; [vm_compute; reflexivity|by vm_compute]. }
  exists c. split_and!; [done| |done].
  apply (run_certificate_exact (H:=padded_digest) sample_fs (fun _ => Some []) (fun _ => Some []) (fun _ => Some []) (fun _ => Some []) sample_run
    sample_receipts c); [symmetry; apply reverse_Permutation|exact Hc].
Defined.

Definition no_scan : LeafScanResult :=
  {| input_sha256 := ""; output_sha256 := ""; scanned_rows := 0; physically_scanned_rows := 0; pruned_row_groups := 0; pruned_rows := 0;
     matched_rows := 0; decoded_bytes := 0; result_rows := []; scan_complete := false |}.

Definition sample_outcome (p : HpcPartitionPlan) : LeafScanResult :=
  match sample_scan sample_groups RustMode with Ok r => r | Err _ => no_scan end.

Lemma scannable_run_is_certified_witness :
  exists receipts certificate, Forall2 (fun k r => sample_execute k = Ok r) (partition_range 2) receipts /\
    sample_finalize receipts = Ok certificate /\ cert_matched_rows certificate = sum_of (matched_rows ∘ sample_outcome) (partitions sample_run).
Proof.
  destruct (scannable_run_is_certified (H:=padded_digest) (H0:=sample_reader sample_file sample_schema sample_groups) sample_fs (fun _ => Some [])
    (fun _ => Some []) (fun _ => Some []) (fun _ => Some []) (fun _ => Some []) kernel_machine (fun _ => true) (fun _ _ => Kernel.main)
    (fun _ _ => false) sample_run ltac:(eauto) ltac:(eauto) ltac:(eauto) (hex_encode (padded_sha256 [])) sample_outcome)
    as (receipts & certificate & Hex & Hfin & _ & Hm & _).
  - by vm_compute.
  - split; [|by vm_compute..]. intros p Hp. assert (p ∈ [sample_partition 2; sample_partition 0; sample_partition 1]) as Hin by exact Hp.
    apply elem_of_cons in Hin as [->|[->|[->|[]%elem_of_nil]%elem_of_cons]%elem_of_cons]; by vm_compute.
  - exists receipts, certificate. split_and!; [exact Hex|by apply Hfin|exact Hm].
Defined.
