(* ===== verification/DirectTypes.v ===== *)
(** * Contracts of exact OWL 2 Direct reasoning

    Models src/crates/ngkg-types/src/direct_exact.rs, direct_bgp.rs,
    direct_certificate.rs and direct_proof.rs, with the types of
    direct_legality.rs they use: the requests and results of a partition of
    the candidate bindings of a basic graph pattern, the answer assembled from
    all partitions, the certificate of its completeness and the manifest of
    the checks that support it, each with its validation and its digests.

    A UUID is its 16 bytes.  Error details are constructors instead of texts. *)

From Stdlib Require Import Strings.Byte Strings.String.
From S2P Require Import Prelude Words Ordered Digest Text Runtime.

Local Open Scope N_scope.

Definition Uuid : Type := list byte.

(** ** Characters *)

(** Some character of the text is one of the encoded characters. *)
Fixpoint contains_any (encodings : list (list byte)) (text : list byte) : bool :=
  match text with
  | [] => false
  | _ :: rest => bool_decide (is_Some (strip_any encodings text)) || contains_any encodings rest
  end.

(** [value.chars().any(char::is_whitespace)]. *)
Definition has_whitespace (value : string) : bool := contains_any whitespace (as_bytes value).

(** [char::is_control]: the code points 0 to 1f and 7f to 9f. *)
Definition control : list (list byte) :=
  ((fun n => [byte_of_N (N.of_nat n)]) <$> seq 0 32) ++ [[x7f]] ++ ((fun n => [xc2; byte_of_N (N.of_nat n)]) <$> seq 0x80 32).

Definition has_control (value : string) : bool := contains_any control (as_bytes value).

Definition is_empty (value : string) : bool := bool_decide (value = ""%string).

(** [value.starts_with('?') || value.starts_with('$')]. *)
Definition has_sigil (value : string) : bool :=
  match as_bytes value with x3f :: _ | x24 :: _ => true | _ => false end.

Definition alphabetic (b : byte) : bool := in_range 0x41 0x5a b || in_range 0x61 0x7a b.
Definition scheme_byte (b : byte) : bool :=
  alphabetic b || in_range 0x30 0x39 b || bool_decide (b ∈ [x2b; x2d; x2e]).

Definition is_absolute_iri (value : string) : bool :=
  match split_once x3a (as_bytes value) with
  | None => false
  | Some (scheme, _) =>
      match scheme with
      | [] => false
      | first :: others => negb (has_whitespace value) && alphabetic first && forallb scheme_byte others
      end
  end.

(** [for (name, value) in fields { if !is_lower_sha256(value) { return Err(error(name)) } }]. *)
Definition require_hashes {E} (error : string -> E) (fields : list (string * string)) : result E unit :=
  _ ← try_map (fun field => fail_if (negb (lower_hex_sha256 field.2)) (error field.1)) fields; Ok tt.

(** ** Terms, patterns, roles *)

Inductive DirectBgpScope := ScopeDefault | ScopeNamed (graph_iri : string) | ScopeNamedVariable (variable : string).
Inductive DirectVariableRole :=
  Class_ | ObjectProperty | DataProperty | AnnotationProperty | Datatype | NamedIndividual | LiteralRole.
Inductive DirectVariableRoleSource := ExplicitDeclaration | StructuralPosition.
Inductive DirectBgpLegalityStatus := Legal | Illegal.

Record DirectVariableTyping := { typing_variable : string; typing_role : DirectVariableRole; typing_source : DirectVariableRoleSource }.

(** The diagnostics of a rejected pattern are not used here. *)
Record DirectBgpLegalityRecord := {
  legality_ordinal : N;
  legality_bgp_sha256 : string;
  legality_graph_scope : DirectBgpScope;
  legality_triple_count : N;
  legality_recognized_forms : list string;
  legality_variables : list DirectVariableTyping;
  legality_status : DirectBgpLegalityStatus;
  grounded_owl2dl_check_required : bool;
}.

Inductive DirectBgpGraphContext := ContextDefault (active_default_graph_sha256 : string) | ContextNamed (graph_iri : string).

Inductive DirectBgpRdfTerm :=
  | TermIri (value : string)
  | TermBlankNode (value : string)
  | TermLiteral (lexical_form datatype_iri : string) (language : option string).

Inductive EntailmentRegime := Owl2Direct.

Global Instance DirectBgpGraphContext_eq_dec : EqDecision DirectBgpGraphContext.
Proof. solve_decision. Defined.
Global Instance DirectBgpRdfTerm_eq_dec : EqDecision DirectBgpRdfTerm.
Proof. solve_decision. Defined.
Global Instance DirectBgpLegalityStatus_eq_dec : EqDecision DirectBgpLegalityStatus.
Proof. solve_decision. Defined.

Definition Bindings : Type := gmap string DirectBgpRdfTerm.

Inductive DirectExactTermPattern :=
  | PatternVariable (name : string)
  | PatternIri (value : string)
  | PatternBlankNode (value : string)
  | PatternLiteral (lexical_form datatype_iri : string) (language : option string).

Record DirectExactTriplePattern := {
  pattern_subject : DirectExactTermPattern;
  pattern_predicate : DirectExactTermPattern;
  pattern_object : DirectExactTermPattern;
}.

Record DirectExactVariable := { exact_name : string; exact_role : DirectVariableRole; exact_source : DirectVariableRoleSource }.

Record DirectExactBgpTemplate := {
  template_ordinal : N;
  template_bgp_sha256 : string;
  template_graph_scope : DirectBgpScope;
  template_variables : list DirectExactVariable;
  template_triples : list DirectExactTriplePattern;
}.

Record DirectExactOntologyInput := { input_path : string; ontology_sha256 : string; ontology_iris : list string }.

Record DirectExactPartition := { part_index : N; part_count : N }.

Global Instance DirectExactPartition_eq_dec : EqDecision DirectExactPartition.
Proof. solve_decision. Defined.

(** ** Requests and results of partitions *)

Definition DIRECT_EXACT_FORMAT_VERSION : N := 1.
Definition DIRECT_EXACT_ENGINE_V1 : string := "hermit-grounded-owl2dl-isentailed-v1".

Record DirectExactRequest := {
  rq_format_version : N;
  rq_dataset_id : Uuid;
  rq_snapshot_id : Uuid;
  rq_query_sha256 : string;
  rq_sparql_algebra_sha256 : string;
  rq_bgp_sha256 : string;
  rq_active_dataset_sha256 : string;
  rq_authorized_graph_set_sha256 : string;
  rq_owl_signature_sha256 : string;
  rq_datatype_policy_sha256 : string;
  rq_owl_profile_qualification_sha256 : string;
  rq_owl_consistency_qualification_sha256 : string;
  rq_engine : string;
  rq_inputs : list DirectExactOntologyInput;
  rq_aggregate_input_sha256 : string;
  rq_template : DirectExactBgpTemplate;
  rq_partition : DirectExactPartition;
  rq_max_candidate_bindings : N;
  rq_max_partition_candidates : N;
  rq_max_grounded_axioms_per_candidate : N;
  rq_max_grounded_rdf_bytes_per_candidate : N;
  rq_output_path : string;
}.

Record DirectExactEntailedBinding := {
  candidate_ordinal : N;
  entailed_bindings : Bindings;
  grounded_rdf_sha256 : string;
  logical_axioms_sha256 : string;
  logical_axiom_count : N;
}.

Record DirectExactPartitionResult := {
  pr_format_version : N;
  pr_dataset_id : Uuid;
  pr_snapshot_id : Uuid;
  pr_query_sha256 : string;
  pr_bgp_sha256 : string;
  pr_engine : string;
  pr_reasoner_name : string;
  pr_reasoner_version : string;
  pr_adapter_version : string;
  pr_request_sha256 : string;
  pr_aggregate_input_sha256 : string;
  pr_candidate_space_sha256 : string;
  pr_partition : DirectExactPartition;
  pr_candidate_binding_count : N;
  partition_start_ordinal : N;
  partition_end_ordinal_exclusive : N;
  checked_candidate_count : N;
  grounded_owl2dl_candidate_count : N;
  entailed_candidate_count : N;
  reasoner_request_count : N;
  entailed : list DirectExactEntailedBinding;
  pr_complete : bool;
}.

Inductive DirectExactValidationError := ExactVersion | ExactPartition | ExactHash (name : string) | Ceiling | ExactTemplate | Counters | Entailed.

Definition validate_direct_exact_request (r : DirectExactRequest) : result DirectExactValidationError unit :=
  _ ← fail_if (negb (rq_format_version r =? DIRECT_EXACT_FORMAT_VERSION) || negb (bool_decide (rq_engine r = DIRECT_EXACT_ENGINE_V1))) ExactVersion;
  _ ← require_hashes ExactHash
        [("querySha256", rq_query_sha256 r); ("sparqlAlgebraSha256", rq_sparql_algebra_sha256 r); ("bgpSha256", rq_bgp_sha256 r);
         ("activeDatasetSha256", rq_active_dataset_sha256 r); ("authorizedGraphSetSha256", rq_authorized_graph_set_sha256 r);
         ("owlSignatureSha256", rq_owl_signature_sha256 r); ("datatypePolicySha256", rq_datatype_policy_sha256 r);
         ("owlProfileQualificationSha256", rq_owl_profile_qualification_sha256 r);
         ("owlConsistencyQualificationSha256", rq_owl_consistency_qualification_sha256 r);
         ("aggregateInputSha256", rq_aggregate_input_sha256 r)]%string;
  _ ← fail_if ((part_count (rq_partition r) =? 0) || (part_count (rq_partition r) <=? part_index (rq_partition r))) ExactPartition;
  _ ← fail_if ((rq_max_candidate_bindings r =? 0) || (rq_max_partition_candidates r =? 0)
               || (rq_max_grounded_axioms_per_candidate r =? 0) || (rq_max_grounded_rdf_bytes_per_candidate r =? 0)) Ceiling;
  fail_if (negb (bool_decide (template_bgp_sha256 (rq_template r) = rq_bgp_sha256 r))
           || (length (template_triples (rq_template r)) =? 0)%nat) ExactTemplate.

(** The loop over the entailed candidates. *)
Definition validate_entailed (r : DirectExactPartitionResult) (previous : option N) (e : DirectExactEntailedBinding) :
    result DirectExactValidationError (option N) :=
  _ ← fail_if ((candidate_ordinal e <? partition_start_ordinal r) || (partition_end_ordinal_exclusive r <=? candidate_ordinal e)
               || match previous with Some value => candidate_ordinal e <=? value | None => false end
               || existsb (fun name => is_empty name || has_sigil name) (elements (dom (entailed_bindings e)))
               || negb (lower_hex_sha256 (grounded_rdf_sha256 e)) || negb (lower_hex_sha256 (logical_axioms_sha256 e))) Entailed;
  Ok (Some (candidate_ordinal e)).

Definition validate_direct_exact_partition_result (r : DirectExactPartitionResult) : result DirectExactValidationError unit :=
  _ ← fail_if (negb (pr_format_version r =? DIRECT_EXACT_FORMAT_VERSION) || negb (bool_decide (pr_engine r = DIRECT_EXACT_ENGINE_V1))) ExactVersion;
  _ ← require_hashes ExactHash
        [("requestSha256", pr_request_sha256 r); ("aggregateInputSha256", pr_aggregate_input_sha256 r);
         ("candidateSpaceSha256", pr_candidate_space_sha256 r)]%string;
  _ ← fail_if (negb (bool_decide (pr_reasoner_name r = "HermiT"%string)) || is_empty (pr_reasoner_version r) || is_empty (pr_adapter_version r))
              ExactVersion;
  _ ← fail_if ((part_count (pr_partition r) =? 0) || (part_count (pr_partition r) <=? part_index (pr_partition r))
               || (partition_end_ordinal_exclusive r <? partition_start_ordinal r)) ExactPartition;
  let expected := partition_end_ordinal_exclusive r - partition_start_ordinal r in
  _ ← fail_if (negb (pr_complete r) || negb (checked_candidate_count r =? expected)
               || (checked_candidate_count r <? grounded_owl2dl_candidate_count r)
               || (grounded_owl2dl_candidate_count r <? entailed_candidate_count r)
               || negb (entailed_candidate_count r =? default U64_MAX (u64_of_len (length (entailed r))))
               || negb (reasoner_request_count r =? grounded_owl2dl_candidate_count r)) Counters;
  _ ← try_fold (validate_entailed r) None (entailed r);
  Ok tt.

(** ** The answer of a basic graph pattern *)

Definition RDF_LANG_STRING : string := "http://www.w3.org/1999/02/22-rdf-syntax-ns#langString".
Definition MAX_VALIDATION_LANES : nat := 32.

Record DirectBgpSolution := { solution_bindings : Bindings; multiplicity : N }.

Inductive DirectBgpStatus := StatusComplete | StatusFailed.
Inductive DirectBgpExactness := Exact | ExactnessNotEstablished.
Inductive DirectBgpCompleteness := Complete | Incomplete | CompletenessNotEstablished.

Global Instance DirectBgpStatus_eq_dec : EqDecision DirectBgpStatus.
Proof. solve_decision. Defined.
Global Instance DirectBgpExactness_eq_dec : EqDecision DirectBgpExactness.
Proof. solve_decision. Defined.
Global Instance DirectBgpCompleteness_eq_dec : EqDecision DirectBgpCompleteness.
Proof. solve_decision. Defined.

Record DirectBgpOutcome := { status : DirectBgpStatus; exactness : DirectBgpExactness; completeness : DirectBgpCompleteness }.

Inductive DirectBgpFailureCode :=
  IllegalBgp | InconsistentOntology | UnsupportedDatatype | ResourceExhausted | Timeout | ReasonerFailure | IntegrityFailure | NotCovered.

Record DirectBgpFailure := { failure_code : DirectBgpFailureCode; retryable : bool; failure_detail : string }.

Record DirectBgpResult := {
  br_format_version : N;
  br_dataset_id : Uuid;
  br_snapshot_id : Uuid;
  br_query_sha256 : string;
  br_bgp_sha256 : string;
  br_active_dataset_sha256 : string;
  br_authorized_graph_set_sha256 : string;
  br_owl_signature_sha256 : string;
  br_datatype_policy_sha256 : string;
  br_entailment_regime : EntailmentRegime;
  br_graph_context : DirectBgpGraphContext;
  br_variables : list string;
  br_candidate_binding_count : N;
  solution_multiplicity_total : N;
  solutions : list DirectBgpSolution;
  outcome : DirectBgpOutcome;
  br_error : option DirectBgpFailure;
}.

(** The details of [validate_solution]. *)
Inductive SolutionFault :=
  | ZeroMultiplicity
  | UnknownVariable (variable : string)
  | RelativeIri
  | BadBlankNode
  | LiteralTooLong
  | RelativeDatatype
  | BadLanguage.

Inductive DirectBgpValidationError :=
  | BgpFormatVersion
  | BgpInvalidSha256 (name : string)
  | InvalidVariables
  | InvalidGraphContext
  | InvalidOutcome
  | CandidateCount
  | MultiplicityTotal
  | InvalidSolution (index : nat) (detail : SolutionFault).

Definition validate_rdf_term (term : DirectBgpRdfTerm) : result SolutionFault unit :=
  match term with
  | TermIri value => fail_if (negb (is_absolute_iri value)) RelativeIri
  | TermBlankNode value => fail_if (is_empty value || (1024 <? String.length value)%nat || has_whitespace value) BadBlankNode
  | TermLiteral lexical datatype language =>
      _ ← fail_if (1048576 <? N.of_nat (String.length lexical)) LiteralTooLong;
      _ ← fail_if (negb (is_absolute_iri datatype)) RelativeDatatype;
      match language with
      | None => Ok tt
      | Some tag => fail_if (is_empty tag || (63 <? String.length tag)%nat || has_whitespace tag
                             || negb (bool_decide (datatype = RDF_LANG_STRING))) BadLanguage
      end
  end.

Definition validate_solution (variables : gset string) (s : DirectBgpSolution) : result SolutionFault unit :=
  _ ← fail_if (multiplicity s =? 0) ZeroMultiplicity;
  _ ← try_map (fun entry : string * DirectBgpRdfTerm =>
        _ ← fail_if (negb (bool_decide (entry.1 ∈ variables))) (UnknownVariable entry.1);
        validate_rdf_term entry.2) (sorted_bindings (solution_bindings s));
  Ok tt.

(** The work of one lane: its first fault, with the index of the solution. *)
Fixpoint lane_fault (variables : gset string) (index : nat) (chunk : list DirectBgpSolution) : option (nat * SolutionFault) :=
  match chunk with
  | [] => None
  | s :: chunk =>
      match validate_solution variables s with
      | Err detail => Some (index, detail)
      | Ok _ => lane_fault variables (S index) chunk
      end
  end.

(** The lanes are joined in order; the lowest index wins. *)
Definition observe_fault (first : option (nat * SolutionFault)) (observed : option (nat * SolutionFault)) : option (nat * SolutionFault) :=
  match observed with
  | None => first
  | Some fault => match first with
                  | Some current => if (fault.1 <? current.1)%nat then Some fault else first
                  | None => Some fault
                  end
  end.

(** [available] is the parallelism of the machine.  A lane does not panic. *)
Definition validate_solutions_parallel (available : nat) (sols : list DirectBgpSolution) (variables : gset string) :
    result DirectBgpValidationError unit :=
  match sols with
  | [] => Ok tt
  | _ =>
      let lanes := Nat.max (Nat.min (Nat.min available MAX_VALIDATION_LANES) (length sols)) 1 in
      let chunk_size := div_ceil (length sols) lanes in
      let faults := (fun '(i, chunk) => lane_fault variables (i * chunk_size) chunk) <$> enumerate (chunks chunk_size sols) in
      match foldl observe_fault None faults with
      | Some (index, detail) => Err (InvalidSolution index detail)
      | None => Ok tt
      end
  end.

Definition validate_graph_context (context : DirectBgpGraphContext) : result DirectBgpValidationError unit :=
  match context with
  | ContextDefault sha => fail_if (negb (lower_hex_sha256 sha)) InvalidGraphContext
  | ContextNamed iri => fail_if (negb (is_absolute_iri iri)) InvalidGraphContext
  end.

Definition bad_variable (v : string) : bool := is_empty v || (1024 <? String.length v)%nat || has_sigil v || has_whitespace v.

Definition validate_variables (variables : list string) : result DirectBgpValidationError unit :=
  fail_if (negb (is_sorted_unique variables) || existsb bad_variable variables) InvalidVariables.

Definition validate_outcome (r : DirectBgpResult) : result DirectBgpValidationError unit :=
  match status (outcome r) with
  | StatusComplete =>
      fail_if (negb (bool_decide (exactness (outcome r) = Exact)) || negb (bool_decide (completeness (outcome r) = Complete))
               || bool_decide (is_Some (br_error r))) InvalidOutcome
  | StatusFailed =>
      _ ← fail_if (negb (bool_decide (exactness (outcome r) = ExactnessNotEstablished)) || bool_decide (completeness (outcome r) = Complete)
                   || negb (bool_decide (is_Some (br_error r))) || negb (length (solutions r) =? 0)%nat
                   || negb (solution_multiplicity_total r =? 0)) InvalidOutcome;
      match br_error r with
      | Some e => fail_if (is_empty (failure_detail e) || (4096 <? String.length (failure_detail e))%nat) InvalidOutcome
      | None => Ok tt
      end
  end.

Definition checked_total {E} (error : E) (total n : N) : result E N := ok_or (checked_add U64_LIMIT total n) error.

Section Validation.
Context (available : nat).

Definition validate_direct_bgp_result (r : DirectBgpResult) : result DirectBgpValidationError unit :=
  _ ← fail_if (negb (br_format_version r =? 1)) BgpFormatVersion;
  _ ← require_hashes BgpInvalidSha256
        [("querySha256", br_query_sha256 r); ("bgpSha256", br_bgp_sha256 r); ("activeDatasetSha256", br_active_dataset_sha256 r);
         ("authorizedGraphSetSha256", br_authorized_graph_set_sha256 r); ("owlSignatureSha256", br_owl_signature_sha256 r);
         ("datatypePolicySha256", br_datatype_policy_sha256 r)]%string;
  _ ← validate_graph_context (br_graph_context r);
  _ ← validate_variables (br_variables r);
  _ ← validate_outcome r;
  distinct ← ok_or (u64_of_len (length (solutions r))) CandidateCount;
  _ ← fail_if (bool_decide (status (outcome r) = StatusComplete) && (br_candidate_binding_count r <? distinct)) CandidateCount;
  _ ← validate_solutions_parallel available (solutions r) (list_to_set (br_variables r));
  total ← try_fold (fun total s => checked_total MultiplicityTotal total (multiplicity s)) 0 (solutions r);
  fail_if (negb (total =? solution_multiplicity_total r)) MultiplicityTotal.

(** ** Digests *)

(** [update_string] and [update_usize]. *)
Definition sized (n : nat) : list byte := to_be_bytes 8 (N.min (N.of_nat n) U64_MAX).
Definition text (value : string) : list byte := sized (String.length value) ++ as_bytes value.

Definition update_term (term : DirectBgpRdfTerm) : list byte :=
  match term with
  | TermIri value => x01 :: text value
  | TermBlankNode value => x02 :: text value
  | TermLiteral lexical datatype language =>
      x03 :: text lexical ++ text datatype ++ match language with Some tag => x01 :: text tag | None => [x00] end
  end.

Definition update_graph_context (context : DirectBgpGraphContext) : list byte :=
  match context with ContextDefault sha => x01 :: text sha | ContextNamed iri => x02 :: text iri end.

Definition update_bindings (bindings : Bindings) : list byte :=
  sized (size bindings) ++ concat ((fun entry => text entry.1 ++ update_term entry.2) <$> sorted_bindings bindings).

Definition failure_code_tag (code : DirectBgpFailureCode) : byte :=
  match code with
  | IllegalBgp => x01 | InconsistentOntology => x02 | UnsupportedDatatype => x03 | ResourceExhausted => x04
  | Timeout => x05 | ReasonerFailure => x06 | IntegrityFailure => x07 | NotCovered => x08
  end.

Context `{Sha256}.

Definition SOLUTION_DIGEST_DOMAIN : list byte := as_bytes "ngkg-direct-bgp-solution-v1" ++ [x00].
Definition RESULT_DIGEST_DOMAIN : list byte := as_bytes "ngkg-direct-bgp-result-v1" ++ [x00].

Definition digest_solution (s : DirectBgpSolution) : list byte :=
  sha256 (SOLUTION_DIGEST_DOMAIN ++ update_bindings (solution_bindings s) ++ to_be_bytes 8 (multiplicity s)).

Definition result_preimage (r : DirectBgpResult) : list byte :=
  let digests := sort (digest_solution <$> solutions r) in
  RESULT_DIGEST_DOMAIN ++ to_be_bytes 4 (br_format_version r) ++ br_dataset_id r ++ br_snapshot_id r
  ++ text (br_query_sha256 r) ++ text (br_bgp_sha256 r) ++ text (br_active_dataset_sha256 r)
  ++ text (br_authorized_graph_set_sha256 r) ++ text (br_owl_signature_sha256 r) ++ text (br_datatype_policy_sha256 r)
  ++ [x01] ++ update_graph_context (br_graph_context r)
  ++ sized (length (br_variables r)) ++ concat (text <$> br_variables r)
  ++ to_be_bytes 8 (br_candidate_binding_count r) ++ to_be_bytes 8 (solution_multiplicity_total r)
  ++ sized (length digests) ++ concat digests
  ++ [match status (outcome r) with StatusComplete => x01 | StatusFailed => x02 end]
  ++ [match exactness (outcome r) with Exact => x01 | ExactnessNotEstablished => x02 end]
  ++ [match completeness (outcome r) with Complete => x01 | Incomplete => x02 | CompletenessNotEstablished => x03 end]
  ++ match br_error r with
     | Some e => [x01; failure_code_tag (failure_code e); if retryable e then x01 else x00] ++ text (failure_detail e)
     | None => [x00]
     end.

(** ** Certificates *)

Inductive DirectCertifiedOutcome := ExactComplete.
Inductive DirectCompletenessMethod := ExhaustiveCandidateEntailment.
Inductive DirectProofCoverage := CoverageNotAvailable | CoveragePartial | CoverageComplete.
Inductive DirectSupportKind := OntologyInput | AssertedAxiom | EntailedAxiom | OntologyImport | ClosureArtifact | ReasonerCheck.

Global Instance DirectProofCoverage_eq_dec : EqDecision DirectProofCoverage.
Proof. solve_decision. Defined.
Global Instance DirectSupportKind_eq_dec : EqDecision DirectSupportKind.
Proof. solve_decision. Defined.

Record DirectSupportReference := {
  reference_id : string;
  reference_kind : DirectSupportKind;
  artifact_sha256 : option string;
  source_graph_iri : option string;
}.

Record DirectReasonerIdentity := {
  engine : string;
  engine_version : string;
  adapter_name : string;
  adapter_version : string;
  request_sha256 : string;
}.

Record DirectCompletenessEvidence := {
  evidence_method : DirectCompletenessMethod;
  evidence_candidate_space_sha256 : string;
  evidence_candidate_binding_count : N;
  checked_candidate_binding_count : N;
  evidence_partition_count : N;
  completed_partition_count : N;
  evidence_reasoner_request_count : N;
  successful_reasoner_request_count : N;
  evidence_execution_root_sha256 : string;
}.

Record DirectCertificate := {
  dc_format_version : N;
  dc_dataset_id : Uuid;
  dc_snapshot_id : Uuid;
  dc_query_sha256 : string;
  dc_bgp_sha256 : string;
  dc_active_dataset_sha256 : string;
  dc_authorized_graph_set_sha256 : string;
  dc_owl_signature_sha256 : string;
  dc_datatype_policy_sha256 : string;
  dc_entailment_regime : EntailmentRegime;
  dc_graph_context : DirectBgpGraphContext;
  dc_certified_outcome : DirectCertifiedOutcome;
  dc_direct_bgp_result_sha256 : string;
  dc_proof_manifest_sha256 : option string;
  dc_reasoner : DirectReasonerIdentity;
  dc_completeness : DirectCompletenessEvidence;
  dc_proof_coverage : DirectProofCoverage;
  dc_support_references : list DirectSupportReference;
}.

Inductive DirectCertificateValidationError :=
  | CertificateFormatVersion
  | CertificateInvalidSha256 (name : string)
  | CertificateInvalidGraphContext
  | InvalidReasonerIdentity
  | InvalidCompletenessEvidence
  | InvalidSupportReferences
  | InvalidProofCoverage
  | ResultNotExactComplete
  | InvalidDirectBgpResult.

Definition direct_bgp_result_sha256 (r : DirectBgpResult) : result DirectCertificateValidationError string :=
  _ ← map_err (fun _ => InvalidDirectBgpResult) (validate_direct_bgp_result r);
  Ok (hex_encode (sha256 (result_preimage r))).

Definition require_sha256 (name value : string) : result DirectCertificateValidationError unit :=
  fail_if (negb (lower_hex_sha256 value)) (CertificateInvalidSha256 name).

Definition bad_identity (value : string) : bool := is_empty value || (256 <? String.length value)%nat || has_control value.

Definition validate_reasoner (i : DirectReasonerIdentity) : result DirectCertificateValidationError unit :=
  _ ← fail_if (existsb bad_identity [engine i; engine_version i; adapter_name i; adapter_version i]) InvalidReasonerIdentity;
  require_sha256 "reasoner.requestSha256" (request_sha256 i).

Definition validate_completeness (e : DirectCompletenessEvidence) : result DirectCertificateValidationError unit :=
  _ ← require_sha256 "completeness.candidateSpaceSha256" (evidence_candidate_space_sha256 e);
  _ ← require_sha256 "completeness.executionRootSha256" (evidence_execution_root_sha256 e);
  fail_if ((evidence_partition_count e =? 0) || (1000000 <? evidence_partition_count e)
           || negb (completed_partition_count e =? evidence_partition_count e)
           || negb (checked_candidate_binding_count e =? evidence_candidate_binding_count e)
           || negb (successful_reasoner_request_count e =? evidence_reasoner_request_count e)) InvalidCompletenessEvidence.

(** The body of the loop, with [previous] and [seen]. *)
Definition validate_reference (st : option string * gset string) (r : DirectSupportReference) :
    result DirectCertificateValidationError (option string * gset string) :=
  let '(previous, seen) := st in
  _ ← require_sha256 "supportReferences.supportId" (reference_id r);
  _ ← fail_if (match previous with Some value => bool_decide (rle (reference_id r) value) | None => false end
               || bool_decide (reference_id r ∈ seen)) InvalidSupportReferences;
  _ ← match artifact_sha256 r with Some sha => require_sha256 "supportReferences.artifactSha256" sha | None => Ok tt end;
  _ ← match source_graph_iri r with
      | Some iri => fail_if (negb (is_absolute_iri iri)) InvalidSupportReferences
      | None => Ok tt
      end;
  Ok (Some (reference_id r), {[ reference_id r ]} ∪ seen).

Definition MAX_SUPPORT_REFERENCES : N := 1000000.

Definition validate_support_references (references : list DirectSupportReference) : result DirectCertificateValidationError unit :=
  _ ← fail_if (MAX_SUPPORT_REFERENCES <? N.of_nat (length references)) InvalidSupportReferences;
  _ ← try_fold validate_reference (None, ∅) references;
  Ok tt.

Definition validate_certificate_context (context : DirectBgpGraphContext) : result DirectCertificateValidationError unit :=
  match context with
  | ContextDefault sha => require_sha256 "graphContext.activeDefaultGraphSha256" sha
  | ContextNamed iri => fail_if (negb (is_absolute_iri iri)) CertificateInvalidGraphContext
  end.

(** A reference to a check of the manifest with this digest. *)
Definition bound_reference (manifest_sha256 : string) (r : DirectSupportReference) : bool :=
  bool_decide (reference_kind r = ReasonerCheck) && bool_decide (artifact_sha256 r = Some manifest_sha256).

Definition validate_direct_certificate (c : DirectCertificate) : result DirectCertificateValidationError unit :=
  _ ← fail_if (negb ((dc_format_version c =? 1) || (dc_format_version c =? 2))) CertificateFormatVersion;
  _ ← require_hashes CertificateInvalidSha256
        [("querySha256", dc_query_sha256 c); ("bgpSha256", dc_bgp_sha256 c); ("activeDatasetSha256", dc_active_dataset_sha256 c);
         ("authorizedGraphSetSha256", dc_authorized_graph_set_sha256 c); ("owlSignatureSha256", dc_owl_signature_sha256 c);
         ("datatypePolicySha256", dc_datatype_policy_sha256 c); ("directBgpResultSha256", dc_direct_bgp_result_sha256 c)]%string;
  _ ← validate_certificate_context (dc_graph_context c);
  _ ← validate_reasoner (dc_reasoner c);
  _ ← validate_completeness (dc_completeness c);
  _ ← validate_support_references (dc_support_references c);
  if dc_format_version c =? 1 then
    _ ← fail_if (bool_decide (is_Some (dc_proof_manifest_sha256 c))) InvalidProofCoverage;
    fail_if (bool_decide (dc_proof_coverage c = CoverageComplete) && (length (dc_support_references c) =? 0)%nat) InvalidProofCoverage
  else
    sha ← ok_or (dc_proof_manifest_sha256 c) InvalidProofCoverage;
    _ ← require_sha256 "proofManifestSha256" sha;
    fail_if (negb (bool_decide (dc_proof_coverage c = CoverageComplete)) || (length (dc_support_references c) =? 0)%nat
             || negb (forallb (bound_reference sha) (dc_support_references c))) InvalidProofCoverage.

Definition validate_direct_certificate_result (c : DirectCertificate) (r : DirectBgpResult) : result DirectCertificateValidationError unit :=
  _ ← validate_direct_certificate c;
  _ ← map_err (fun _ => InvalidDirectBgpResult) (validate_direct_bgp_result r);
  _ ← fail_if (negb (bool_decide (status (outcome r) = StatusComplete)) || negb (bool_decide (exactness (outcome r) = Exact))
               || negb (bool_decide (completeness (outcome r) = Complete)) || bool_decide (is_Some (br_error r))) ResultNotExactComplete;
  _ ← fail_if (negb (bool_decide (dc_dataset_id c = br_dataset_id r)) || negb (bool_decide (dc_snapshot_id c = br_snapshot_id r))
               || negb (bool_decide (dc_query_sha256 c = br_query_sha256 r)) || negb (bool_decide (dc_bgp_sha256 c = br_bgp_sha256 r))
               || negb (bool_decide (dc_active_dataset_sha256 c = br_active_dataset_sha256 r))
               || negb (bool_decide (dc_authorized_graph_set_sha256 c = br_authorized_graph_set_sha256 r))
               || negb (bool_decide (dc_owl_signature_sha256 c = br_owl_signature_sha256 r))
               || negb (bool_decide (dc_datatype_policy_sha256 c = br_datatype_policy_sha256 r))
               || negb (bool_decide (dc_graph_context c = br_graph_context r))) InvalidCompletenessEvidence;
  sha ← direct_bgp_result_sha256 r;
  fail_if (negb (bool_decide (dc_direct_bgp_result_sha256 c = sha))
           || negb (evidence_candidate_binding_count (dc_completeness c) =? br_candidate_binding_count r)) InvalidCompletenessEvidence.

(** ** Proof manifests *)

Definition DIRECT_PROOF_FORMAT_VERSION : N := 1.
Definition MAX_PROOF_RECORDS : N := 1000000.

Record DirectProofOntologyInput := { proof_input_sha256 : string; proof_ontology_iris : list string }.

Record DirectReasonerCheckProof := {
  support_id : string;
  proof_candidate_ordinal : N;
  partition_index : N;
  proof_request_sha256 : string;
  binding_sha256 : string;
  proof_grounded_rdf_sha256 : string;
  proof_logical_axioms_sha256 : string;
  proof_logical_axiom_count : N;
}.

Record DirectProofManifest := {
  pm_format_version : N;
  pm_dataset_id : Uuid;
  pm_snapshot_id : Uuid;
  pm_query_sha256 : string;
  pm_bgp_sha256 : string;
  pm_active_dataset_sha256 : string;
  pm_authorized_graph_set_sha256 : string;
  pm_owl_signature_sha256 : string;
  pm_datatype_policy_sha256 : string;
  pm_entailment_regime : EntailmentRegime;
  pm_graph_context : DirectBgpGraphContext;
  pm_direct_bgp_result_sha256 : string;
  pm_candidate_space_sha256 : string;
  pm_execution_root_sha256 : string;
  reasoner_engine : string;
  pm_reasoner_version : string;
  pm_adapter_version : string;
  completion_support_id : string;
  ontology_inputs : list DirectProofOntologyInput;
  answer_proofs : list DirectReasonerCheckProof;
}.

Inductive DirectProofValidationError :=
  | ProofVersion
  | ProofHash (name : string)
  | ProofReasoner
  | OntologyInputs
  | AnswerProofs
  | SupportId
  | CompletionSupportId
  | ResultCoverage
  | CertificateBinding
  | BaseContract.

Definition BINDING_DOMAIN : list byte := as_bytes "ngkg-direct-proof-binding-v1" ++ [x00].
Definition SUPPORT_DOMAIN : list byte := as_bytes "ngkg-direct-reasoner-check-support-v1" ++ [x00].
Definition COMPLETION_DOMAIN : list byte := as_bytes "ngkg-direct-completion-support-v1" ++ [x00].

Definition direct_binding_sha256 (bindings : Bindings) : string := hex_encode (sha256 (BINDING_DOMAIN ++ update_bindings bindings)).

Definition support_preimage (m : DirectProofManifest) (p : DirectReasonerCheckProof) : list byte :=
  SUPPORT_DOMAIN ++ pm_dataset_id m ++ pm_snapshot_id m ++ text (pm_query_sha256 m) ++ text (pm_bgp_sha256 m)
  ++ text (pm_active_dataset_sha256 m) ++ text (pm_authorized_graph_set_sha256 m) ++ text (pm_owl_signature_sha256 m)
  ++ text (pm_datatype_policy_sha256 m) ++ update_graph_context (pm_graph_context m)
  ++ to_be_bytes 8 (proof_candidate_ordinal p) ++ to_be_bytes 4 (partition_index p) ++ text (proof_request_sha256 p)
  ++ text (binding_sha256 p) ++ text (proof_grounded_rdf_sha256 p) ++ text (proof_logical_axioms_sha256 p)
  ++ to_be_bytes 8 (proof_logical_axiom_count p).

Definition direct_reasoner_support_id (m : DirectProofManifest) (p : DirectReasonerCheckProof) : string :=
  hex_encode (sha256 (support_preimage m p)).

Definition completion_preimage (m : DirectProofManifest) : list byte :=
  COMPLETION_DOMAIN ++ pm_dataset_id m ++ pm_snapshot_id m ++ text (pm_query_sha256 m) ++ text (pm_bgp_sha256 m)
  ++ text (pm_direct_bgp_result_sha256 m) ++ text (pm_candidate_space_sha256 m) ++ text (pm_execution_root_sha256 m)
  ++ text (reasoner_engine m) ++ text (pm_reasoner_version m) ++ text (pm_adapter_version m).

Definition direct_completion_support_id (m : DirectProofManifest) : string := hex_encode (sha256 (completion_preimage m)).

(** The weaker test of this module: no check of the scheme. *)
Definition absolute_iri (value : string) : bool :=
  match split_once x3a (as_bytes value) with
  | Some (_ :: _, _) => negb (has_whitespace value)
  | _ => false
  end.

Definition not_above (previous : option string) (value : string) : bool :=
  match previous with Some p => bool_decide (rle value p) | None => false end.

Definition validate_ontology_input (previous : option string) (input : DirectProofOntologyInput) :
    result DirectProofValidationError (option string) :=
  _ ← fail_if (negb (lower_hex_sha256 (proof_input_sha256 input))) (ProofHash "ontologyInputs.sha256");
  _ ← fail_if (not_above previous (proof_input_sha256 input)) OntologyInputs;
  _ ← try_fold (fun before iri => _ ← fail_if (negb (absolute_iri iri) || not_above before iri) OntologyInputs; Ok (Some iri))
        None (proof_ontology_iris input);
  Ok (Some (proof_input_sha256 input)).

(** The loop over the proofs, with the previous ordinal and the identifiers seen. *)
Definition validate_answer_proof (m : DirectProofManifest) (st : option N * gset string) (p : DirectReasonerCheckProof) :
    result DirectProofValidationError (option N * gset string) :=
  let '(previous, seen) := st in
  _ ← require_hashes ProofHash
        [("answerProof.requestSha256", proof_request_sha256 p); ("answerProof.bindingSha256", binding_sha256 p);
         ("answerProof.groundedRdfSha256", proof_grounded_rdf_sha256 p);
         ("answerProof.logicalAxiomsSha256", proof_logical_axioms_sha256 p); ("answerProof.supportId", support_id p)]%string;
  _ ← fail_if (match previous with Some value => proof_candidate_ordinal p <=? value | None => false end
               || bool_decide (support_id p ∈ seen)) AnswerProofs;
  _ ← fail_if (negb (bool_decide (direct_reasoner_support_id m p = support_id p))) SupportId;
  Ok (Some (proof_candidate_ordinal p), {[ support_id p ]} ∪ seen).

Definition validate_direct_proof_manifest (m : DirectProofManifest) : result DirectProofValidationError unit :=
  _ ← fail_if (negb (pm_format_version m =? DIRECT_PROOF_FORMAT_VERSION)) ProofVersion;
  _ ← require_hashes ProofHash
        [("querySha256", pm_query_sha256 m); ("bgpSha256", pm_bgp_sha256 m); ("activeDatasetSha256", pm_active_dataset_sha256 m);
         ("authorizedGraphSetSha256", pm_authorized_graph_set_sha256 m); ("owlSignatureSha256", pm_owl_signature_sha256 m);
         ("datatypePolicySha256", pm_datatype_policy_sha256 m); ("directBgpResultSha256", pm_direct_bgp_result_sha256 m);
         ("candidateSpaceSha256", pm_candidate_space_sha256 m); ("executionRootSha256", pm_execution_root_sha256 m);
         ("completionSupportId", completion_support_id m)]%string;
  _ ← fail_if (existsb bad_identity [reasoner_engine m; pm_reasoner_version m; pm_adapter_version m]) ProofReasoner;
  _ ← try_fold validate_ontology_input None (ontology_inputs m);
  _ ← fail_if (MAX_PROOF_RECORDS <? N.of_nat (length (answer_proofs m))) AnswerProofs;
  _ ← try_fold (validate_answer_proof m) (None, ∅) (answer_proofs m);
  fail_if (negb (bool_decide (direct_completion_support_id m = completion_support_id m))) CompletionSupportId.

(** [expected.insert(binding_sha256, multiplicity).is_some()] is an error. *)
Definition expect_solution (expected : gmap string N) (s : DirectBgpSolution) : result DirectProofValidationError (gmap string N) :=
  let key := direct_binding_sha256 (solution_bindings s) in
  _ ← fail_if (bool_decide (is_Some (expected !! key))) ResultCoverage;
  Ok (<[key := multiplicity s]> expected).

Definition observe_proof (observed : gmap string N) (p : DirectReasonerCheckProof) : result DirectProofValidationError (gmap string N) :=
  count ← checked_total ResultCoverage (default 0 (observed !! binding_sha256 p)) 1;
  Ok (<[binding_sha256 p := count]> observed).

Definition validate_direct_proof_bundle (m : DirectProofManifest) (r : DirectBgpResult) (c : DirectCertificate) (manifest_sha256 : string) :
    result DirectProofValidationError unit :=
  _ ← validate_direct_proof_manifest m;
  _ ← map_err (fun _ => BaseContract) (validate_direct_bgp_result r);
  _ ← map_err (fun _ => BaseContract) (validate_direct_certificate_result c r);
  _ ← fail_if (negb (lower_hex_sha256 manifest_sha256)) (ProofHash "proofManifestSha256");
  sha ← map_err (fun _ => BaseContract) (direct_bgp_result_sha256 r);
  _ ← fail_if (negb (bool_decide (pm_direct_bgp_result_sha256 m = sha)) || negb (bool_decide (pm_dataset_id m = br_dataset_id r))
               || negb (bool_decide (pm_snapshot_id m = br_snapshot_id r)) || negb (bool_decide (pm_query_sha256 m = br_query_sha256 r))
               || negb (bool_decide (pm_bgp_sha256 m = br_bgp_sha256 r))
               || negb (bool_decide (pm_active_dataset_sha256 m = br_active_dataset_sha256 r))
               || negb (bool_decide (pm_authorized_graph_set_sha256 m = br_authorized_graph_set_sha256 r))
               || negb (bool_decide (pm_owl_signature_sha256 m = br_owl_signature_sha256 r))
               || negb (bool_decide (pm_datatype_policy_sha256 m = br_datatype_policy_sha256 r))
               || negb (bool_decide (pm_graph_context m = br_graph_context r))
               || negb (bool_decide (pm_candidate_space_sha256 m = evidence_candidate_space_sha256 (dc_completeness c)))
               || negb (bool_decide (pm_execution_root_sha256 m = evidence_execution_root_sha256 (dc_completeness c)))) ResultCoverage;
  expected ← try_fold expect_solution ∅ (solutions r);
  observed ← try_fold observe_proof ∅ (answer_proofs m);
  _ ← fail_if (negb (bool_decide (expected = observed))
               || negb (default U64_MAX (u64_of_len (length (answer_proofs m))) =? solution_multiplicity_total r)) ResultCoverage;
  _ ← fail_if (negb (dc_format_version c =? 2) || negb (bool_decide (dc_proof_coverage c = CoverageComplete))
               || negb (bool_decide (dc_proof_manifest_sha256 c = Some manifest_sha256))
               || negb (bool_decide (reasoner_engine m = engine (dc_reasoner c)))
               || negb (bool_decide (pm_reasoner_version m = engine_version (dc_reasoner c)))
               || negb (bool_decide (pm_adapter_version m = adapter_version (dc_reasoner c)))) CertificateBinding;
  let expected_ids : gset string := list_to_set (completion_support_id m :: (support_id <$> answer_proofs m)) in
  let actual_ids : gset string := list_to_set (reference_id <$> dc_support_references c) in
  fail_if (negb (bool_decide (expected_ids = actual_ids)) || negb (forallb (bound_reference manifest_sha256) (dc_support_references c)))
          CertificateBinding.

End Validation.

(** ** What validation means *)

Lemma require_hashes_ok {E} (error : string -> E) fields :
  require_hashes error fields = Ok tt <-> Forall (fun field => lower_hex_sha256 field.2 = true) fields.
Proof.
  unfold require_hashes. rewrite result_bind_ok. setoid_rewrite try_map_ok. split.
  - intros (us & Hus & _). apply Forall_forall. intros f Hf. destruct (list_elem_of_lookup_1 _ _ Hf) as [i Hi].
    destruct (Forall2_lookup_l _ _ _ _ _ Hus Hi) as (u & _ & Hu). apply fail_if_ok, negb_false_iff in Hu. done.
  - intros Hf. exists (replicate (length fields) tt). split; [|done]. apply Forall2_same_length_lookup_2; [by rewrite length_replicate|].
    intros i f [] Hi _. apply fail_if_ok, negb_false_iff. rewrite Forall_forall in Hf. apply Hf. by eapply list_elem_of_lookup_2.
Qed.

Lemma checked_totals_ok {E A} (error : E) (f : A -> N) l : forall t v, t < U64_LIMIT ->
  try_fold (fun total x => checked_total error total (f x)) t l = Ok v <-> v = t + sum_of f l /\ v < U64_LIMIT.
Proof.
  induction l as [|x l IH]; intros t v Ht; cbn [try_fold].
  { cbn. rewrite N.add_0_r. split; [by intros [= <-]|by intros [-> _]]. }
  unfold sum_of. cbn [foldr]. fold (sum_of f l). rewrite result_bind_ok. unfold checked_total at 1. setoid_rewrite ok_or_ok.
  setoid_rewrite checked_add_some. split.
  - intros (t' & [-> Ht'] & Hf). apply IH in Hf as [-> ?]; [|done]. split; lia.
  - intros [-> Hv]. exists (t + f x). split; [split; [done|lia]|]. apply IH; [lia|]. split; lia.
Qed.

(** The first fault of a list of solutions. *)
Lemma lane_fault_app variables i l k :
  lane_fault variables i (l ++ k) =
  match lane_fault variables i l with Some f => Some f | None => lane_fault variables (i + length l) k end.
Proof.
  revert i. induction l as [|s l IH]; intros i; cbn; [by rewrite Nat.add_0_r|].
  destruct (validate_solution variables s); [|done]. rewrite IH. by replace (S i + length l)%nat with (i + S (length l))%nat by lia.
Qed.

Lemma lane_fault_index variables i l f : lane_fault variables i l = Some f -> (i <= f.1 < i + length l)%nat.
Proof.
  revert i. induction l as [|s l IH]; intros i; cbn; [done|]. destruct (validate_solution variables s).
  - intros Hf%IH. lia.
  - intros [= <-]. cbn. lia.
Qed.

Lemma lane_fault_none variables i l : lane_fault variables i l = None <-> Forall (fun s => validate_solution variables s = Ok tt) l.
Proof.
  revert i. induction l as [|s l IH]; intros i; cbn; [done|]. rewrite Forall_cons, <- (IH (S i)).
  destruct (validate_solution variables s) as [[]|]; naive_solver.
Qed.

Lemma observe_lanes variables n fuel : (0 < n)%nat -> forall l k acc, (length l <= fuel)%nat ->
  (forall f, acc = Some f -> (f.1 < k * n)%nat) ->
  let cs := chunks_fuel fuel n l in
  foldl observe_fault acc ((fun '(i, chunk) => lane_fault variables (i * n) chunk) <$> zip (seq k (length cs)) cs)
  = match acc with Some f => Some f | None => lane_fault variables (k * n) l end.
Proof.
  intros Hn. induction fuel as [|fuel IH]; intros l k acc Hl Hacc cs; subst cs.
  { destruct l; [|cbn in Hl; lia]. cbn. by destruct acc. }
  destruct l as [|x l]; [cbn; by destruct acc|]. set (l' := x :: l) in *.
  change (chunks_fuel (S fuel) n l') with (take n l' :: chunks_fuel fuel n (drop n l')). cbn [length seq zip zip_with fmap list_fmap foldl].
  assert (length (drop n l') <= fuel)%nat as Hd by (rewrite length_drop; subst l'; cbn [length] in *; lia).
  replace (lane_fault variables (k * n) l') with (lane_fault variables (k * n) (take n l' ++ drop n l')) by (by rewrite take_drop).
  rewrite lane_fault_app. destruct (lane_fault variables (k * n) (take n l')) as [f|] eqn:Hf.
  - apply lane_fault_index in Hf as Hi. rewrite length_take in Hi. destruct acc as [f0|].
    + cbn [observe_fault]. pose proof (Hacc f0 eq_refl). rewrite (proj2 (Nat.ltb_ge _ _)) by lia.
      rewrite (IH (drop n l') (S k) (Some f0)); [done|done|]. intros f1 [= <-]. lia.
    + cbn [observe_fault]. rewrite (IH (drop n l') (S k) (Some f)); [done|done|]. intros f1 [= <-]. lia.
  - assert (observe_fault acc None = acc) as -> by done. rewrite (IH (drop n l') (S k) acc); [|done|intros f Hacc'%Hacc; lia].
    destruct acc; [done|]. destruct (decide (length l' <= n)%nat) as [Hle|Hgt].
    + by rewrite drop_ge by lia.
    + rewrite length_take_le by lia. f_equal. lia.
Qed.

(** The number of lanes does not matter: the first fault of the list is reported. *)
Lemma parallel_is_sequential available sols variables :
  validate_solutions_parallel available sols variables =
  match lane_fault variables 0 sols with Some (index, detail) => Err (InvalidSolution index detail) | None => Ok tt end.
Proof.
  unfold validate_solutions_parallel. destruct sols as [|s sols]; [done|]. set (l := s :: sols). cbv zeta.
  set (lanes := Nat.max _ 1). assert (0 < div_ceil (length l) lanes)%nat as Hn.
  { unfold div_ceil. apply Nat.div_str_pos. subst lanes l. cbn [length]. lia. }
  unfold enumerate, chunks. rewrite (observe_lanes variables _ (length l) Hn l 0 None); [done|done|done].
Qed.

Lemma validate_solutions_ok available sols variables :
  validate_solutions_parallel available sols variables = Ok tt <-> Forall (fun s => validate_solution variables s = Ok tt) sols.
Proof.
  rewrite parallel_is_sequential, <- (lane_fault_none variables 0). destruct (lane_fault variables 0 sols) as [[]|]; naive_solver.
Qed.

Lemma existsb_none {A} (f : A -> bool) l : existsb f l = false <-> forall x, x ∈ l -> f x = false.
Proof.
  induction l as [|y l IH]; cbn; [split; [by intros _ x ?%elem_of_nil|done]|]. rewrite orb_false_iff, IH. setoid_rewrite elem_of_cons. naive_solver.
Qed.

(** A candidate in the range of its partition. *)
Record entailed_ok (r : DirectExactPartitionResult) (e : DirectExactEntailedBinding) : Prop := {
  entailed_range : partition_start_ordinal r <= candidate_ordinal e < partition_end_ordinal_exclusive r;
  entailed_names name : name ∈ dom (entailed_bindings e) -> name <> ""%string /\ has_sigil name = false;
  entailed_grounded : lower_hex_sha256 (grounded_rdf_sha256 e) = true;
  entailed_logical : lower_hex_sha256 (logical_axioms_sha256 e) = true;
}.

Lemma validate_entailed_ok r previous e next : validate_entailed r previous e = Ok next ->
  entailed_ok r e /\ next = Some (candidate_ordinal e) /\ forall v, previous = Some v -> v < candidate_ordinal e.
Proof.
  unfold validate_entailed. intros [Hf [= <-]]%fail_then. rewrite !orb_false_iff, !negb_false_iff, N.ltb_ge, N.leb_gt in Hf.
  destruct Hf as (((((? & ?) & Hp) & Hn) & ?) & ?). split_and!; [|done|intros v ->; by apply N.leb_gt]. split; [done| |done|done].
  intros name Hname. rewrite existsb_none in Hn. specialize (Hn name). rewrite elem_of_elements in Hn.
  apply Hn, orb_false_iff in Hname as [He ?]. split; [|done]. by apply bool_decide_eq_false in He.
Qed.

Lemma validate_entailed_all r es : forall previous final, try_fold (validate_entailed r) previous es = Ok final ->
  Forall (entailed_ok r) es /\ StronglySorted N.lt (candidate_ordinal <$> es) /\
  (forall v e, previous = Some v -> e ∈ es -> v < candidate_ordinal e).
Proof.
  induction es as [|e es IH]; intros previous final Hf; cbn [try_fold] in Hf.
  { split_and!; [done|constructor|]. by intros v e _ ?%elem_of_nil. }
  inv_ok Hf. apply validate_entailed_ok in Ha as (He & -> & Hp). apply IH in Hf as (Hes & Hs & Hlt). split_and!.
  - by constructor.
  - rewrite fmap_cons. constructor; [done|]. apply Forall_fmap, Forall_forall. intros e' He'. cbn. by apply (Hlt (candidate_ordinal e)).
  - intros v e' Hv [->|He']%elem_of_cons; [by apply Hp|]. pose proof (Hp v Hv). pose proof (Hlt _ e' eq_refl He'). lia.
Qed.

(** A valid result of a partition. *)
Record partition_ok (r : DirectExactPartitionResult) : Prop := {
  partition_hashes : lower_hex_sha256 (pr_request_sha256 r) = true /\ lower_hex_sha256 (pr_candidate_space_sha256 r) = true;
  partition_position : part_index (pr_partition r) < part_count (pr_partition r);
  partition_range : partition_start_ordinal r <= partition_end_ordinal_exclusive r;
  partition_checked : checked_candidate_count r = partition_end_ordinal_exclusive r - partition_start_ordinal r;
  partition_requests : reasoner_request_count r <= checked_candidate_count r;
  partition_entailed : Forall (entailed_ok r) (entailed r);
  partition_ascending : StronglySorted N.lt (candidate_ordinal <$> entailed r);
}.

Lemma validate_partition_ok r : validate_direct_exact_partition_result r = Ok tt -> partition_ok r.
Proof.
  unfold validate_direct_exact_partition_result. intros [_ Hr]%fail_then. inv_ok Hr. apply fail_then in Hr as [_ Hr].
  apply fail_then in Hr as [Hp Hr]. apply fail_then in Hr as [Hc Hr]. inv_ok Hr. destruct a.
  apply require_hashes_ok in Ha. rewrite !Forall_cons in Ha. destruct Ha as (H1 & _ & H3 & _).
  rewrite !orb_false_iff, N.leb_gt, N.ltb_ge in Hp. rewrite !orb_false_iff, !negb_false_iff, !N.eqb_eq, !N.ltb_ge in Hc.
  destruct (validate_entailed_all r _ _ _ Ha0) as (He & Hs & _). destruct Hp as [[_ ?] ?]. destruct_and!.
  split; [done|done|done|done|lia|done|done].
Qed.
