(* ===== verification/DirectDigests.v ===== *)
(** * Digests of exact answers identify them

    The digest of an answer (src/crates/ngkg-types/src/direct_certificate.rs)
    is over length-prefixed fields and the sorted digests of the solutions.
    The lemmas show that the fields can be read back from the bytes, so that
    two answers with one digest are equal up to the order of their solutions,
    or two of the messages hashed for them collide. *)

From Stdlib Require Import Strings.Byte Strings.String.
From S2P Require Import Prelude Words Ordered Digest Runtime DirectTypes.

Local Open Scope N_scope.

(** The value can be read off the front of any text that starts with its bytes. *)
Definition self_delimiting {A} (P : A -> Prop) (f : A -> list byte) : Prop :=
  forall a b x y, P a -> P b -> f a ++ x = f b ++ y -> a = b /\ x = y.

Lemma tagged {A} (t : A) l k : t :: l = t :: k -> l = k.
Proof. by intros [= ->]. Qed.

(** ** Combinators *)

Lemma fixed_delimiting {A} (P : A -> Prop) (f : A -> list byte) n :
  (forall a, P a -> length (f a) = n) -> (forall a b, P a -> P b -> f a = f b -> a = b) -> self_delimiting P f.
Proof.
  intros Hlen Hinj a b x y Ha Hb E. apply app_inj_len in E as [E ->]; [|by rewrite !Hlen]. split; [by apply Hinj|done].
Qed.

Lemma sized_delimiting : self_delimiting (fun n : nat => N.of_nat n < U64_LIMIT) sized.
Proof.
  apply (fixed_delimiting _ _ 8).
  - intros n _. apply length_to_be_bytes.
  - intros a b Ha Hb E. unfold sized in E. assert (U64_MAX = U64_LIMIT - 1) as HU by done. rewrite !N.min_l in E by lia.
    apply to_be_bytes8_inj in E; lia.
Qed.

Definition short (s : string) : Prop := N.of_nat (String.length s) < U64_LIMIT.

Lemma text_delimiting : self_delimiting short text.
Proof.
  intros a b x y Ha Hb E. unfold text in E. rewrite <- !app_assoc in E. apply sized_delimiting in E as [Hlen E]; [|done..].
  apply app_inj_len in E as [E ->]; [|by rewrite !length_as_bytes]. split; [by apply as_bytes_inj|done].
Qed.

Lemma concat_delimiting {A} (P : A -> Prop) (f : A -> list byte) : self_delimiting P f ->
  forall l k x y, Forall P l -> Forall P k -> length l = length k -> concat (f <$> l) ++ x = concat (f <$> k) ++ y -> l = k /\ x = y.
Proof.
  intros Hf. induction l as [|a l IH]; intros [|b k] x y Hl Hk Hlen E; try done. apply Forall_cons in Hl as [Ha Hl], Hk as [Hb Hk].
  cbn in E. rewrite <- !app_assoc in E. apply Hf in E as [-> E]; [|done..]. apply IH in E as [-> ->]; [done|done|done|]. by injection Hlen.
Qed.

(** A list after its length. *)
Lemma list_delimiting {A} (P : A -> Prop) (f : A -> list byte) : self_delimiting P f ->
  self_delimiting (fun l => N.of_nat (length l) < U64_LIMIT /\ Forall P l) (fun l => sized (length l) ++ concat (f <$> l)).
Proof.
  intros Hf l k x y [Hl HPl] [Hk HPk] E. rewrite <- !app_assoc in E. apply sized_delimiting in E as [Hlen E]; [|done..].
  by eapply concat_delimiting.
Qed.

Lemma pair_delimiting {A B} (P : A -> Prop) (Q : B -> Prop) f g : self_delimiting P f -> self_delimiting Q g ->
  self_delimiting (fun p : A * B => P p.1 /\ Q p.2) (fun p => f p.1 ++ g p.2).
Proof.
  intros Hf Hg [a b] [a' b'] x y [Ha Hb] [Ha' Hb'] E. cbn in *. rewrite <- !app_assoc in E. apply Hf in E as [-> E]; [|done..].
  by apply Hg in E as [-> ->].
Qed.

(** ** Terms and bindings *)

Definition short_term (t : DirectBgpRdfTerm) : Prop :=
  match t with
  | TermIri value | TermBlankNode value => short value
  | TermLiteral lexical datatype language => short lexical /\ short datatype /\ match language with Some tag => short tag | None => True end
  end.

Lemma update_term_delimiting : self_delimiting short_term update_term.
Proof.
  intros a b x y Ha Hb E. destruct a as [v|v|v d l], b as [v'|v'|v' d' l']; cbn [update_term app short_term] in *; try discriminate E.
  - apply tagged in E. by apply text_delimiting in E as [-> ->].
  - apply tagged in E. by apply text_delimiting in E as [-> ->].
  - apply tagged in E. destruct Ha as (? & ? & ?), Hb as (? & ? & ?). rewrite <- !app_assoc in E.
    apply text_delimiting in E as [-> E]; [|done..]. apply text_delimiting in E as [-> E]; [|done..].
    destruct l as [l|], l' as [l'|]; cbn [app] in E; try discriminate E; apply tagged in E; [|by subst].
    by apply text_delimiting in E as [-> ->].
Qed.

Lemma sorted_bindings_inj (m m' : Bindings) : sorted_bindings m = sorted_bindings m' -> m = m'.
Proof.
  intros E. apply map_eq. intros k. apply option_eq. intros v. by rewrite <- !elem_of_sorted_bindings, E.
Qed.

Definition short_bindings (b : Bindings) : Prop :=
  N.of_nat (size b) < U64_LIMIT /\ map_Forall (fun name term => short name /\ short_term term) b.

Lemma update_bindings_delimiting : self_delimiting short_bindings update_bindings.
Proof.
  assert (forall m : Bindings, length (sorted_bindings m) = size m) as Hsize.
  { intros m. by rewrite sorted_bindings_perm, length_map_to_list. }
  assert (forall m, short_bindings m -> N.of_nat (length (sorted_bindings m)) < U64_LIMIT /\
    Forall (fun entry => short entry.1 /\ short_term entry.2) (sorted_bindings m)) as Hshort.
  { intros m [Hs Hm]. rewrite Hsize. split; [done|]. apply Forall_forall. intros [k v] Hin%elem_of_sorted_bindings. by apply Hm in Hin. }
  intros a b x y Ha%Hshort Hb%Hshort E. unfold update_bindings in E. rewrite <- (Hsize a), <- (Hsize b) in E.
  apply (list_delimiting _ _ (pair_delimiting _ _ _ _ text_delimiting update_term_delimiting)) in E as [E ->]; [|done..].
  split; [by apply sorted_bindings_inj|done].
Qed.

Definition short_context (c : DirectBgpGraphContext) : Prop := match c with ContextDefault s | ContextNamed s => short s end.

Lemma update_graph_context_delimiting : self_delimiting short_context update_graph_context.
Proof.
  intros [a|a] [b|b] x y Ha Hb E; cbn [update_graph_context app] in E; try discriminate E; apply tagged in E; by apply text_delimiting in E as [-> ->].
Qed.

Lemma u64_delimiting : self_delimiting (fun n => n < U64_LIMIT) (to_be_bytes 8).
Proof. apply (fixed_delimiting _ _ 8); [intros; apply length_to_be_bytes|intros; by apply to_be_bytes8_inj]. Qed.

Lemma u32_delimiting : self_delimiting (fun n => n < U32_LIMIT) (to_be_bytes 4).
Proof. apply (fixed_delimiting _ _ 4); [intros; apply length_to_be_bytes|intros; by apply to_be_bytes4_inj]. Qed.

(** ** Solutions *)

Definition short_solution (s : DirectBgpSolution) : Prop := short_bindings (solution_bindings s) /\ multiplicity s < U64_LIMIT.

Section Digests.
Context `{Sha256}.

Definition solution_preimage (s : DirectBgpSolution) : list byte :=
  SOLUTION_DIGEST_DOMAIN ++ update_bindings (solution_bindings s) ++ to_be_bytes 8 (multiplicity s).

Lemma solution_preimage_inj s t : short_solution s -> short_solution t -> solution_preimage s = solution_preimage t -> s = t.
Proof using Type.
  intros [Hs Hms] [Ht Hmt] E. unfold solution_preimage in E. apply app_inv_head in E. apply update_bindings_delimiting in E as [Eb Em]; [|done..].
  apply to_be_bytes8_inj in Em; [|done..]. destruct s, t. cbn in *. congruence.
Qed.

Lemma digest_solution_inj s t : short_solution s -> short_solution t -> digest_solution s = digest_solution t ->
  s = t \/ collide (solution_preimage s) (solution_preimage t).
Proof.
  intros Hs Ht E. change (sha256 (solution_preimage s) = sha256 (solution_preimage t)) in E.
  destruct (decide (solution_preimage s = solution_preimage t)) as [Eq|Hne]; [left; by apply solution_preimage_inj|by right].
Qed.

(** Solutions of either list whose digests collide. *)
Definition solutions_collide (l k : list DirectBgpSolution) : Prop :=
  exists s t, s ∈ l /\ t ∈ k /\ collide (solution_preimage s) (solution_preimage t).

Lemma digests_perm_inj l : forall k, Forall short_solution l -> Forall short_solution k ->
  digest_solution <$> l ≡ₚ digest_solution <$> k -> l ≡ₚ k \/ solutions_collide l k.
Proof.
  induction l as [|s l IH]; intros k Hl Hk Hp.
  { apply Permutation_nil_l in Hp. destruct k; [by left|done]. }
  assert (digest_solution s ∈ digest_solution <$> k) as (t & E & Ht)%list_elem_of_fmap by (rewrite <- Hp; left).
  apply Forall_cons in Hl as [Hs Hl]. rewrite Forall_forall in Hk. destruct (digest_solution_inj s t) as [<-|]; [done|by apply Hk|done| |right; exists s, t; split_and!; [left|done|done]].
  apply list_elem_of_split in Ht as (k1 & k2 & ->). rewrite fmap_app, fmap_cons in Hp.
  assert (digest_solution <$> l ≡ₚ digest_solution <$> (k1 ++ k2)) as Hp'.
  { rewrite fmap_app. apply (Permutation_cons_inv (a:=digest_solution s)). rewrite Hp. symmetry. apply Permutation_middle. }
  destruct (IH (k1 ++ k2)) as [Hlk|(s' & t' & Hs' & Ht' & Hc)]; [done| |done| |].
  - apply Forall_forall. intros t' Ht'. apply Hk. rewrite elem_of_app in *. rewrite elem_of_cons. tauto.
  - left. rewrite Hlk. apply Permutation_middle.
  - right. exists s', t'. split_and!; [by right| |done]. rewrite elem_of_app in *. rewrite elem_of_cons. tauto.
Qed.

Lemma sort_eq_perm {A} `{RustOrd A} (l k : list A) : sort l = sort k <-> l ≡ₚ k.
Proof.
  split.
  - intros E. by rewrite <- (sort_perm l), E, sort_perm.
  - intros Hp. apply (StronglySorted_unique rle); [apply sort_sorted..|]. by rewrite !sort_perm.
Qed.

(** ** Answers *)

(** What the machine's words and addresses bound. *)
Record machine_sized (r : DirectBgpResult) : Prop := {
  sized_version : br_format_version r < U32_LIMIT;
  sized_ids : length (br_dataset_id r) = 16%nat /\ length (br_snapshot_id r) = 16%nat;
  sized_hashes : Forall short [br_query_sha256 r; br_bgp_sha256 r; br_active_dataset_sha256 r; br_authorized_graph_set_sha256 r;
                               br_owl_signature_sha256 r; br_datatype_policy_sha256 r];
  sized_context : short_context (br_graph_context r);
  sized_variables : N.of_nat (length (br_variables r)) < U64_LIMIT /\ Forall short (br_variables r);
  sized_counts : br_candidate_binding_count r < U64_LIMIT /\ solution_multiplicity_total r < U64_LIMIT;
  sized_solutions : N.of_nat (length (solutions r)) < U64_LIMIT /\ Forall short_solution (solutions r);
  sized_detail e : br_error r = Some e -> short (failure_detail e);
}.

(** Equal but for the order of the solutions. *)
Definition same_answer (a b : DirectBgpResult) : Prop :=
  solutions a ≡ₚ solutions b /\
  a = {| br_format_version := br_format_version b; br_dataset_id := br_dataset_id b; br_snapshot_id := br_snapshot_id b;
         br_query_sha256 := br_query_sha256 b; br_bgp_sha256 := br_bgp_sha256 b; br_active_dataset_sha256 := br_active_dataset_sha256 b;
         br_authorized_graph_set_sha256 := br_authorized_graph_set_sha256 b; br_owl_signature_sha256 := br_owl_signature_sha256 b;
         br_datatype_policy_sha256 := br_datatype_policy_sha256 b; br_entailment_regime := br_entailment_regime b;
         br_graph_context := br_graph_context b; br_variables := br_variables b; br_candidate_binding_count := br_candidate_binding_count b;
         solution_multiplicity_total := solution_multiplicity_total b; solutions := solutions a; outcome := outcome b; br_error := br_error b |}.

Lemma same_answer_preimage a b : same_answer a b -> result_preimage a = result_preimage b.
Proof.
  intros [Hp ->]. unfold result_preimage. cbn. assert (sort (digest_solution <$> solutions a) = sort (digest_solution <$> solutions b)) as ->; [|done].
  apply sort_eq_perm. by rewrite Hp.
Qed.

Definition failure_bytes (e : option DirectBgpFailure) : list byte :=
  match e with
  | Some e => [x01; failure_code_tag (failure_code e); if retryable e then x01 else x00] ++ text (failure_detail e)
  | None => [x00]
  end.

Lemma failure_bytes_inj a b : (forall e, a = Some e -> short (failure_detail e)) -> (forall e, b = Some e -> short (failure_detail e)) ->
  failure_bytes a = failure_bytes b -> a = b.
Proof using Type.
  intros Ha Hb E. destruct a as [[ca ra da]|], b as [[cb rb db]|]; cbn [failure_bytes app failure_code retryable failure_detail] in E; try discriminate E; [|done].
  pose proof (f_equal (drop 3) E) as Ed. injection E as Ec Er _. cbn [drop] in Ed. rewrite <- (app_nil_r (text da)), <- (app_nil_r (text db)) in Ed.
  apply text_delimiting in Ed as [-> _]; [|by apply (Ha _ eq_refl)|by apply (Hb _ eq_refl)].
  assert (ca = cb) as -> by (destruct ca, cb; done). assert (ra = rb) as -> by (destruct ra, rb; done). done.
Qed.

Lemma outcome_bytes_inj (a b : DirectBgpOutcome) x y :
  [match status a with StatusComplete => x01 | StatusFailed => x02 end]
  ++ [match exactness a with Exact => x01 | ExactnessNotEstablished => x02 end]
  ++ [match completeness a with Complete => x01 | Incomplete => x02 | CompletenessNotEstablished => x03 end] ++ x =
  [match status b with StatusComplete => x01 | StatusFailed => x02 end]
  ++ [match exactness b with Exact => x01 | ExactnessNotEstablished => x02 end]
  ++ [match completeness b with Complete => x01 | Incomplete => x02 | CompletenessNotEstablished => x03 end] ++ y -> a = b /\ x = y.
Proof using Type.
  destruct a as [sa ea ca], b as [sb eb cb]. cbn. intros E. injection E as Es Ee Ec ->. split; [|done].
  f_equal; [destruct sa, sb|destruct ea, eb|destruct ca, cb]; done.
Qed.

Lemma digests_delimiting : self_delimiting (fun l => N.of_nat (length l) < U64_LIMIT /\ Forall (fun d : list byte => length d = 32%nat) l)
  (fun l => sized (length l) ++ concat l).
Proof using Type.
  intros l k x y Hl Hk E. rewrite <- (list_fmap_id l), <- (list_fmap_id k), !length_fmap in E.
  eapply (list_delimiting _ id) in E; [exact E| |done|done]. by apply (fixed_delimiting _ _ 32).
Qed.

Lemma same_preimage_answer a b : machine_sized a -> machine_sized b -> result_preimage a = result_preimage b ->
  same_answer a b \/ solutions_collide (solutions a) (solutions b).
Proof.
  intros [Hva [Hda Hsa] Hha Hca Hvarsa [Hcca Hta] [Hna Hsola] Hea] [Hvb [Hdb Hsb] Hhb Hcb Hvarsb [Hccb Htb] [Hnb Hsolb] Heb] E.
  unfold result_preimage in E. cbv zeta in E. rewrite !Forall_cons in Hha, Hhb. destruct_and!.
  apply app_inv_head in E. apply u32_delimiting in E as [Eversion E]; [|done..].
  apply app_inj_len in E as [Edataset E]; [|congruence]. apply app_inj_len in E as [Esnapshot E]; [|congruence].
  do 6 (apply text_delimiting in E as [? E]; [|done..]). apply tagged in E.
  apply update_graph_context_delimiting in E as [Econtext E]; [|done..].
  rewrite !(app_assoc (sized (length (br_variables _)))) in E. apply (list_delimiting _ _ text_delimiting) in E as [Evars E]; [|done..].
  apply u64_delimiting in E as [Ecount E]; [|done..]. apply u64_delimiting in E as [Etotal E]; [|done..].
  rewrite !(app_assoc (sized (length (sort _)))) in E. apply digests_delimiting in E as [Edigests E].
  2,3: rewrite sort_perm, length_fmap; split; [done|]; apply Forall_fmap, Forall_forall; intros s _; apply sha256_length.
  apply outcome_bytes_inj in E as [Eout E]. apply failure_bytes_inj in E; [|done..].
  apply sort_eq_perm in Edigests. apply digests_perm_inj in Edigests as [Hp|Hcol]; [|by right|done|done]. left. split; [done|].
  clear Hp Hea Heb Hsola Hsolb. destruct a as [va da sa qa ba aa ga wa pa ra ca vsa na ta la oa ea], b as [vb db sb qb bb ab gb wb pb rb cb vsb nb tb lb ob eb].
  cbn in *. destruct ra, rb. by subst.
Qed.

End Digests.
