(* ===== verification/ExactReasoner.v ===== *)
(** * Exact reasoning over partitions of the candidate bindings

    Models src/crates/ngkg-direct-reasoner/src/lib.rs: the requests for the
    partitions of a pattern's candidate bindings, a local or remote execution
    of one of them by the reasoner adapter, and the merge of all partition
    results into the answer, its certificate and its proof manifest.

    The adapter is a Java program outside the sources: what it prints for a
    request is a parameter, as are the JSON texts of documents.  The template
    of a pattern comes from the parser and is an argument.

    The theorems show that the answer of a merge is the bag of the entailed
    candidates of the whole candidate space, and that complete results of the
    partitions merge into documents which pass their own validation. *)

From Stdlib Require Import Strings.Byte Strings.String.
From S2P Require Import Prelude Words Ordered Digest Text Runtime DirectTypes.

Local Open Scope N_scope.

Definition MAX_LOCAL_REASONER_LANES : nat := 8.
Definition MAX_EXACT_PARTITIONS : N := 4096.

Record DirectExactLimits := {
  max_candidate_bindings : N;
  max_partition_candidates : N;
  max_exact_partitions : N;
  max_grounded_axioms_per_candidate : N;
  max_grounded_rdf_bytes_per_candidate : N;
  max_local_reasoner_lanes : nat;
  reasoner_heap_mib_per_lane : N;
  reasoner_timeout : N;
  max_certificate_bytes : N;
  max_proof_support_ids : N;
}.

Record DirectExactBindings := {
  eb_dataset_id : Uuid;
  eb_snapshot_id : Uuid;
  eb_query_sha256 : string;
  eb_sparql_algebra_sha256 : string;
  eb_active_dataset_sha256 : string;
  eb_authorized_graph_set_sha256 : string;
  eb_owl_signature_sha256 : string;
  eb_datatype_policy_sha256 : string;
  eb_owl_profile_qualification_sha256 : string;
  eb_owl_consistency_qualification_sha256 : string;
  eb_graph_context : DirectBgpGraphContext;
}.

(** The files of the adapter are checked by [verify_adapter]. *)
Record DirectExactAdapter := {
  adapter_jar : option (list byte);
  java_present : bool;
  adapter_jar_sha256 : string;
  exact_adapter_version : string;
  exact_reasoner_version : string;
}.

Record DirectExactOntologyBundle := {
  ontology_bundle_inputs : list DirectExactOntologyInput;
  ontology_aggregate_sha256 : string;
  ontology_graph_context : DirectBgpGraphContext;
  scoped_graph_sha256 : string;
}.

Record PreparedDirectExactBgp := { prepared_requests : list DirectExactRequest; request_set_sha256 : string }.

Inductive DirectExactError :=
  | TemplateError (detail : string)
  | AdapterIntegrity
  | ExactIo
  | ExactJson
  | InvalidRequest (error : DirectExactValidationError)
  | PartitionFailure (index : N)
  | InvalidPartition (error : DirectExactValidationError)
  | PartitionMismatch
  | DuplicateCandidate
  | PartitionPlan
  | Certificate
  | ResourceCeiling (name : string).

Section Reasoner.
Context `{Sha256} (available : nat).
Context (encode_request : DirectExactRequest -> option (list byte))
  (encode_result : DirectExactPartitionResult -> option (list byte))
  (encode_bindings : Bindings -> option string)
  (encode_manifest : DirectProofManifest -> option (list byte))
  (encode_certificate : DirectCertificate -> option (list byte))
  (decode_result : list byte -> option DirectExactPartitionResult).

(** ** Requests *)

(** The digests of the documents in ascending order, after a domain. *)
Definition hash_digests (domain : string) (digests : list (list byte)) : string :=
  hex_encode (sha256 (as_bytes domain ++ [x00] ++ concat (sort digests))).

Definition direct_exact_request_set_sha256 (requests : list DirectExactRequest) : result DirectExactError string :=
  digests ← try_map (fun r => bytes ← ok_or (encode_request r) ExactJson; Ok (sha256 bytes)) requests;
  Ok (hash_digests "ngkg-direct-exact-request-set-v1" digests).

Definition hash_partition_results (results : list DirectExactPartitionResult) : result DirectExactError string :=
  digests ← try_map (fun r => bytes ← ok_or (encode_result r) ExactJson; Ok (sha256 bytes)) results;
  Ok (hash_digests "ngkg-direct-exact-execution-root-v1" digests).

(** The active graph satisfies the scope of the pattern. *)
Definition scope_admits (scope : DirectBgpScope) (context : DirectBgpGraphContext) : bool :=
  match scope, context with
  | ScopeDefault, ContextDefault _ => true
  | ScopeNamed iri, ContextNamed active => bool_decide (iri = active)
  | ScopeNamedVariable _, ContextNamed _ => true
  | _, _ => false
  end.

Definition is_blank (t : DirectExactTermPattern) : bool := match t with PatternBlankNode _ => true | _ => false end.
Definition has_blank (t : DirectExactTriplePattern) : bool :=
  is_blank (pattern_subject t) || is_blank (pattern_predicate t) || is_blank (pattern_object t).

(** [output_path] of a partition below the output root. *)
Context (output_path : DirectExactBindings -> string -> N -> string).

Definition exact_request (bindings : DirectExactBindings) (ontology : DirectExactOntologyBundle) (limits : DirectExactLimits)
    (bgp_sha256 : string) (template : DirectExactBgpTemplate) (count index : N) : DirectExactRequest :=
  {| rq_format_version := DIRECT_EXACT_FORMAT_VERSION; rq_dataset_id := eb_dataset_id bindings; rq_snapshot_id := eb_snapshot_id bindings;
     rq_query_sha256 := eb_query_sha256 bindings; rq_sparql_algebra_sha256 := eb_sparql_algebra_sha256 bindings;
     rq_bgp_sha256 := bgp_sha256; rq_active_dataset_sha256 := eb_active_dataset_sha256 bindings;
     rq_authorized_graph_set_sha256 := eb_authorized_graph_set_sha256 bindings; rq_owl_signature_sha256 := eb_owl_signature_sha256 bindings;
     rq_datatype_policy_sha256 := eb_datatype_policy_sha256 bindings;
     rq_owl_profile_qualification_sha256 := eb_owl_profile_qualification_sha256 bindings;
     rq_owl_consistency_qualification_sha256 := eb_owl_consistency_qualification_sha256 bindings; rq_engine := DIRECT_EXACT_ENGINE_V1;
     rq_inputs := ontology_bundle_inputs ontology; rq_aggregate_input_sha256 := ontology_aggregate_sha256 ontology; rq_template := template;
     rq_partition := {| part_index := index; part_count := count |}; rq_max_candidate_bindings := max_candidate_bindings limits;
     rq_max_partition_candidates := max_partition_candidates limits;
     rq_max_grounded_axioms_per_candidate := max_grounded_axioms_per_candidate limits;
     rq_max_grounded_rdf_bytes_per_candidate := max_grounded_rdf_bytes_per_candidate limits;
     rq_output_path := output_path bindings bgp_sha256 index |}.

(** [template] is what [extract_direct_bgp_template] returns for the query. *)
Definition prepare_exact_direct_bgp_requests (template : result string DirectExactBgpTemplate) (legality : DirectBgpLegalityRecord)
    (bindings : DirectExactBindings) (ontology : DirectExactOntologyBundle) (limits : DirectExactLimits) :
    result DirectExactError PreparedDirectExactBgp :=
  _ ← fail_if (negb (bool_decide (legality_status legality = Legal)) || negb (grounded_owl2dl_check_required legality))
              (TemplateError "Phase 40.7 did not admit this BGP");
  _ ← fail_if (negb (scope_admits (legality_graph_scope legality) (eb_graph_context bindings)))
              (TemplateError "active graph context does not satisfy Phase 40.7 BGP scope");
  _ ← fail_if (negb (bool_decide (ontology_graph_context ontology = eb_graph_context bindings)))
              (TemplateError "active ontology graph context differs from exact bindings");
  template ← map_err TemplateError template;
  _ ← fail_if (existsb has_blank (template_triples template))
              (TemplateError "anonymous-individual instance mappings are not yet qualified for the exact path");
  _ ← fail_if ((max_partition_candidates limits =? 0) || (max_exact_partitions limits =? 0) || (reasoner_heap_mib_per_lane limits =? 0)
               || (max_certificate_bytes limits =? 0) || (max_proof_support_ids limits =? 0)) PartitionPlan;
  let count := N.max ((max_candidate_bindings limits + max_partition_candidates limits - 1) / max_partition_candidates limits) 1 in
  _ ← fail_if ((max_exact_partitions limits <? count) || (MAX_EXACT_PARTITIONS <? count)) PartitionPlan;
  _ ← fail_if (negb (fits U32_LIMIT count)) PartitionPlan;
  requests ← try_map (fun index =>
      let request := exact_request bindings ontology limits (legality_bgp_sha256 legality) template count (N.of_nat index) in
      _ ← map_err InvalidRequest (validate_direct_exact_request request);
      Ok request) (seq 0 (N.to_nat count));
  sha ← direct_exact_request_set_sha256 requests;
  Ok {| prepared_requests := requests; request_set_sha256 := sha |}.

(** ** One partition *)

Definition verify_adapter (a : DirectExactAdapter) : result DirectExactError unit :=
  _ ← fail_if (negb (java_present a)) AdapterIntegrity;
  jar ← ok_or (adapter_jar a) AdapterIntegrity;
  fail_if (negb (bool_decide (hex_encode (sha256 jar) = adapter_jar_sha256 a))) AdapterIntegrity.

(** The result answers the request. *)
Definition answers (request : DirectExactRequest) (request_sha : string) (r : DirectExactPartitionResult) : bool :=
  bool_decide (pr_dataset_id r = rq_dataset_id request) && bool_decide (pr_snapshot_id r = rq_snapshot_id request)
  && bool_decide (pr_query_sha256 r = rq_query_sha256 request) && bool_decide (pr_bgp_sha256 r = rq_bgp_sha256 request)
  && bool_decide (pr_partition r = rq_partition request)
  && bool_decide (pr_aggregate_input_sha256 r = rq_aggregate_input_sha256 request)
  && bool_decide (pr_request_sha256 r = request_sha).

(** What the child process leaves behind for a request file: [None] when it
    fails, is cancelled or is killed at its deadline. *)
Context (hermit : list byte -> option (list byte)).

Definition run_partition (request : DirectExactRequest) (request_bytes : list byte) : result DirectExactError DirectExactPartitionResult :=
  output ← ok_or (hermit request_bytes) (PartitionFailure (part_index (rq_partition request)));
  r ← ok_or (decode_result output) ExactJson;
  _ ← map_err InvalidPartition (validate_direct_exact_partition_result r);
  _ ← fail_if (negb (answers request (hex_encode (sha256 request_bytes)) r)) PartitionMismatch;
  Ok r.

Definition execute_exact_direct_partition (adapter : DirectExactAdapter) (request : DirectExactRequest) (limits : DirectExactLimits) :
    result DirectExactError DirectExactPartitionResult :=
  _ ← verify_adapter adapter;
  _ ← map_err InvalidRequest (validate_direct_exact_request request);
  _ ← fail_if ((reasoner_heap_mib_per_lane limits =? 0) || (reasoner_timeout limits =? 0)) PartitionPlan;
  bytes ← ok_or (encode_request request) ExactJson;
  run_partition request bytes.

(** ** The merge *)

Definition disagrees (adapter : DirectExactAdapter) (first r : DirectExactPartitionResult) : bool :=
  negb (pr_candidate_binding_count r =? pr_candidate_binding_count first)
  || negb (bool_decide (pr_candidate_space_sha256 r = pr_candidate_space_sha256 first))
  || negb (bool_decide (pr_aggregate_input_sha256 r = pr_aggregate_input_sha256 first))
  || negb (bool_decide (pr_reasoner_name r = "HermiT"%string))
  || negb (bool_decide (pr_reasoner_version r = exact_reasoner_version adapter))
  || negb (bool_decide (pr_adapter_version r = exact_adapter_version adapter)).

(** The loop that follows the ranges of the partitions. *)
Definition advance_cursor (count : N) (cursor : N) (entry : nat * DirectExactPartitionResult) : result DirectExactError N :=
  let '(index, r) := entry in
  _ ← fail_if (negb (part_count (pr_partition r) =? count) || negb (part_index (pr_partition r) =? N.of_nat index)
               || negb (partition_start_ordinal r =? cursor)) PartitionMismatch;
  Ok (partition_end_ordinal_exclusive r).

Definition merge_entailed (st : gset N * gmap string DirectBgpSolution) (e : DirectExactEntailedBinding) :
    result DirectExactError (gset N * gmap string DirectBgpSolution) :=
  let '(ordinals, by_binding) := st in
  _ ← fail_if (bool_decide (candidate_ordinal e ∈ ordinals)) DuplicateCandidate;
  key ← ok_or (encode_bindings (entailed_bindings e)) ExactJson;
  let entry := default {| solution_bindings := entailed_bindings e; multiplicity := 0 |} (by_binding !! key) in
  count ← checked_total PartitionMismatch (multiplicity entry) 1;
  Ok ({[ candidate_ordinal e ]} ∪ ordinals,
      <[key := {| solution_bindings := solution_bindings entry; multiplicity := count |}]> by_binding).

(** The inputs with one digest become one, with all their ontologies. *)
Definition collect_input (inputs : gmap string (gset string)) (input : DirectExactOntologyInput) : gmap string (gset string) :=
  <[ontology_sha256 input := default ∅ (inputs !! ontology_sha256 input) ∪ list_to_set (ontology_iris input)]> inputs.

Definition proof_inputs (inputs : list DirectExactOntologyInput) : list DirectProofOntologyInput :=
  (fun entry => {| proof_input_sha256 := entry.1; proof_ontology_iris := sorted_elements entry.2 |})
    <$> sorted_bindings (foldl collect_input ∅ inputs).

Definition bgp_result (bindings : DirectExactBindings) (legality : DirectBgpLegalityRecord) (candidate_count total : N)
    (sols : list DirectBgpSolution) : DirectBgpResult :=
  {| br_format_version := 1; br_dataset_id := eb_dataset_id bindings; br_snapshot_id := eb_snapshot_id bindings;
     br_query_sha256 := eb_query_sha256 bindings; br_bgp_sha256 := legality_bgp_sha256 legality;
     br_active_dataset_sha256 := eb_active_dataset_sha256 bindings;
     br_authorized_graph_set_sha256 := eb_authorized_graph_set_sha256 bindings; br_owl_signature_sha256 := eb_owl_signature_sha256 bindings;
     br_datatype_policy_sha256 := eb_datatype_policy_sha256 bindings; br_entailment_regime := Owl2Direct;
     br_graph_context := eb_graph_context bindings; br_variables := typing_variable <$> legality_variables legality;
     br_candidate_binding_count := candidate_count; solution_multiplicity_total := total; solutions := sols;
     outcome := {| status := StatusComplete; exactness := Exact; completeness := Complete |}; br_error := None |}.

(** The manifest before its proofs are known. *)
Definition empty_manifest (bindings : DirectExactBindings) (legality : DirectBgpLegalityRecord) (ontology : DirectExactOntologyBundle)
    (adapter : DirectExactAdapter) (result_hash candidate_space execution_root : string) : DirectProofManifest :=
  {| pm_format_version := 1; pm_dataset_id := eb_dataset_id bindings; pm_snapshot_id := eb_snapshot_id bindings;
     pm_query_sha256 := eb_query_sha256 bindings; pm_bgp_sha256 := legality_bgp_sha256 legality;
     pm_active_dataset_sha256 := eb_active_dataset_sha256 bindings;
     pm_authorized_graph_set_sha256 := eb_authorized_graph_set_sha256 bindings; pm_owl_signature_sha256 := eb_owl_signature_sha256 bindings;
     pm_datatype_policy_sha256 := eb_datatype_policy_sha256 bindings; pm_entailment_regime := Owl2Direct;
     pm_graph_context := eb_graph_context bindings; pm_direct_bgp_result_sha256 := result_hash; pm_candidate_space_sha256 := candidate_space;
     pm_execution_root_sha256 := execution_root; reasoner_engine := "HermiT"; pm_reasoner_version := exact_reasoner_version adapter;
     pm_adapter_version := exact_adapter_version adapter; completion_support_id := "";
     ontology_inputs := proof_inputs (ontology_bundle_inputs ontology); answer_proofs := [] |}.

Definition with_proofs (m : DirectProofManifest) (completion : string) (proofs : list DirectReasonerCheckProof) : DirectProofManifest :=
  {| pm_format_version := pm_format_version m; pm_dataset_id := pm_dataset_id m; pm_snapshot_id := pm_snapshot_id m;
     pm_query_sha256 := pm_query_sha256 m; pm_bgp_sha256 := pm_bgp_sha256 m; pm_active_dataset_sha256 := pm_active_dataset_sha256 m;
     pm_authorized_graph_set_sha256 := pm_authorized_graph_set_sha256 m; pm_owl_signature_sha256 := pm_owl_signature_sha256 m;
     pm_datatype_policy_sha256 := pm_datatype_policy_sha256 m; pm_entailment_regime := pm_entailment_regime m;
     pm_graph_context := pm_graph_context m; pm_direct_bgp_result_sha256 := pm_direct_bgp_result_sha256 m;
     pm_candidate_space_sha256 := pm_candidate_space_sha256 m; pm_execution_root_sha256 := pm_execution_root_sha256 m;
     reasoner_engine := reasoner_engine m; pm_reasoner_version := pm_reasoner_version m; pm_adapter_version := pm_adapter_version m;
     completion_support_id := completion; ontology_inputs := ontology_inputs m; answer_proofs := proofs |}.

(** The record of one check, with its support identifier. *)
Definition check_proof (m : DirectProofManifest) (r : DirectExactPartitionResult) (e : DirectExactEntailedBinding) : DirectReasonerCheckProof :=
  let proof id := {| support_id := id; proof_candidate_ordinal := candidate_ordinal e; partition_index := part_index (pr_partition r);
     proof_request_sha256 := pr_request_sha256 r; binding_sha256 := direct_binding_sha256 (entailed_bindings e);
     proof_grounded_rdf_sha256 := grounded_rdf_sha256 e; proof_logical_axioms_sha256 := logical_axioms_sha256 e;
     proof_logical_axiom_count := logical_axiom_count e |} in
  proof (direct_reasoner_support_id m (proof ""%string)).

Definition proof_manifest (m : DirectProofManifest) (results : list DirectExactPartitionResult) : DirectProofManifest :=
  let proofs := concat ((fun r => check_proof m r <$> entailed r) <$> results) in
  let m := with_proofs m "" (sort_by_key proof_candidate_ordinal proofs) in
  with_proofs m (direct_completion_support_id m) (answer_proofs m).

Definition support_reference (manifest_sha256 : string) (graph : option string) (id : string) : DirectSupportReference :=
  {| reference_id := id; reference_kind := ReasonerCheck; artifact_sha256 := Some manifest_sha256; source_graph_iri := graph |}.

Definition bgp_certificate (bindings : DirectExactBindings) (legality : DirectBgpLegalityRecord) (adapter : DirectExactAdapter)
    (m : DirectProofManifest) (manifest_sha256 request_set : string) (candidate_count checked partition_count requests : N) : DirectCertificate :=
  let graph := match eb_graph_context bindings with ContextNamed iri => Some iri | ContextDefault _ => None end in
  {| dc_format_version := 2; dc_dataset_id := eb_dataset_id bindings; dc_snapshot_id := eb_snapshot_id bindings;
     dc_query_sha256 := eb_query_sha256 bindings; dc_bgp_sha256 := legality_bgp_sha256 legality;
     dc_active_dataset_sha256 := eb_active_dataset_sha256 bindings;
     dc_authorized_graph_set_sha256 := eb_authorized_graph_set_sha256 bindings; dc_owl_signature_sha256 := eb_owl_signature_sha256 bindings;
     dc_datatype_policy_sha256 := eb_datatype_policy_sha256 bindings; dc_entailment_regime := Owl2Direct;
     dc_graph_context := eb_graph_context bindings; dc_certified_outcome := ExactComplete;
     dc_direct_bgp_result_sha256 := pm_direct_bgp_result_sha256 m; dc_proof_manifest_sha256 := Some manifest_sha256;
     dc_reasoner := {| engine := "HermiT"; engine_version := exact_reasoner_version adapter; adapter_name := "ngkg-hermit-adapter";
                       adapter_version := exact_adapter_version adapter; request_sha256 := request_set |};
     dc_completeness := {| evidence_method := ExhaustiveCandidateEntailment; evidence_candidate_space_sha256 := pm_candidate_space_sha256 m;
                           evidence_candidate_binding_count := candidate_count; checked_candidate_binding_count := checked;
                           evidence_partition_count := partition_count; completed_partition_count := partition_count;
                           evidence_reasoner_request_count := requests; successful_reasoner_request_count := requests;
                           evidence_execution_root_sha256 := pm_execution_root_sha256 m |};
     dc_proof_coverage := CoverageComplete;
     dc_support_references := sort_by_key reference_id
       (support_reference manifest_sha256 graph <$> completion_support_id m :: (support_id <$> answer_proofs m)) |}.

Definition enforce_proof_support_limit (required : N) (limits : DirectExactLimits) : result DirectExactError unit :=
  fail_if (max_proof_support_ids limits <? required) (ResourceCeiling "maxProofSupportIds").

Definition enforce_certificate_size_limit (bytes : nat) (limits : DirectExactLimits) : result DirectExactError unit :=
  bytes ← ok_or (u64_of_len bytes) Certificate;
  fail_if (max_certificate_bytes limits <? bytes) (ResourceCeiling "maxCertificateBytes").

Definition merge_partition_results (results : list DirectExactPartitionResult) (bindings : DirectExactBindings)
    (legality : DirectBgpLegalityRecord) (ontology : DirectExactOntologyBundle) (adapter : DirectExactAdapter) (request_set : string)
    (limits : DirectExactLimits) : result DirectExactError (DirectBgpResult * DirectCertificate * DirectProofManifest) :=
  first ← ok_or (head results) PartitionMismatch;
  let candidate_count := pr_candidate_binding_count first in
  _ ← fail_if (existsb (disagrees adapter first) results) PartitionMismatch;
  let count := N.of_nat (length results) in
  _ ← fail_if (negb (fits U32_LIMIT count)) PartitionMismatch;
  cursor ← try_fold (advance_cursor count) 0 (enumerate results);
  _ ← fail_if (negb (cursor =? candidate_count)) PartitionMismatch;
  checked ← try_fold (fun total r => checked_total PartitionMismatch total (checked_candidate_count r)) 0 results;
  _ ← fail_if (negb (checked =? candidate_count)) PartitionMismatch;
  merged ← try_fold merge_entailed (∅, ∅) (concat (entailed <$> results));
  let sols := snd <$> sorted_bindings merged.2 in
  total ← try_fold (fun total s => checked_total PartitionMismatch total (multiplicity s)) 0 sols;
  required ← checked_total PartitionMismatch total 1;
  _ ← enforce_proof_support_limit required limits;
  let answer := bgp_result bindings legality candidate_count total sols in
  result_hash ← map_err (fun _ => Certificate) (direct_bgp_result_sha256 available answer);
  root ← hash_partition_results results;
  requests ← try_fold (fun total r => checked_total PartitionMismatch total (reasoner_request_count r)) 0 results;
  let manifest := proof_manifest (empty_manifest bindings legality ontology adapter result_hash (pr_candidate_space_sha256 first) root) results in
  _ ← map_err (fun _ => Certificate) (validate_direct_proof_manifest manifest);
  manifest_bytes ← ok_or (encode_manifest manifest) ExactJson;
  let manifest_sha256 := hex_encode (sha256 manifest_bytes) in
  let certificate := bgp_certificate bindings legality adapter manifest manifest_sha256 request_set candidate_count checked count requests in
  _ ← map_err (fun _ => Certificate) (validate_direct_certificate_result available certificate answer);
  _ ← map_err (fun _ => Certificate) (validate_direct_proof_bundle available manifest answer certificate manifest_sha256);
  bytes ← ok_or (encode_certificate certificate) ExactJson;
  _ ← enforce_certificate_size_limit (length bytes) limits;
  Ok (answer, certificate, manifest).

(** ** Local execution *)

(** The waves of lanes, joined in the order of the requests.  A failing lane
    cancels the others of its wave, which is one of the ways to fail. *)
Definition execute_exact_direct_bgp (template : result string DirectExactBgpTemplate) (legality : DirectBgpLegalityRecord)
    (bindings : DirectExactBindings) (ontology : DirectExactOntologyBundle) (adapter : DirectExactAdapter) (limits : DirectExactLimits) :
    result DirectExactError (DirectBgpResult * DirectCertificate * DirectProofManifest) :=
  _ ← verify_adapter adapter;
  let lanes := Nat.max (Nat.min (Nat.min available (Nat.max (max_local_reasoner_lanes limits) 1)) MAX_LOCAL_REASONER_LANES) 1 in
  prepared ← prepare_exact_direct_bgp_requests template legality bindings ontology limits;
  requests ← try_map (fun r => bytes ← ok_or (encode_request r) ExactJson; Ok (r, bytes)) (prepared_requests prepared);
  waves ← try_map (try_map (fun '(r, bytes) => run_partition r bytes)) (chunks lanes requests);
  let results := sort_by_key (fun r => part_index (pr_partition r)) (concat waves) in
  merge_partition_results results bindings legality ontology adapter (request_set_sha256 prepared) limits.

End Reasoner.

(** ** Order *)

(** A list with strictly ascending keys is sorted, and has no other order. *)
Lemma ascending_unique {A B} `{RustOrd B, !EqDecision B} (key : A -> B) l k :
  l ≡ₚ k -> StronglySorted rlt (key <$> k) -> sort_by_key key l = k.
Proof.
  intros Hp Hs. apply (sort_by_key_unique key l k); [|done|].
  - rewrite (fmap_Permutation key _ _ Hp). by apply StronglySorted_rlt_NoDup.
  - clear Hp. induction k as [|x k IH]; [constructor|]. rewrite fmap_cons in Hs. apply StronglySorted_inv in Hs as [Hs Hx]. constructor; [by apply IH|].
    rewrite Forall_fmap in Hx. eapply Forall_impl; [exact Hx|]. intros y Hy. unfold key_le, rle. cbn in Hy. unfold rlt in Hy. congruence.
Qed.

Lemma ascending_elements {A B} `{RustOrd B, !EqDecision B} (key : A -> B) l k :
  StronglySorted rlt (key <$> l) -> StronglySorted rlt (key <$> k) -> (forall x, x ∈ l <-> x ∈ k) -> l = k.
Proof.
  intros Hl Hk Hin. rewrite <- (ascending_unique key l l) by done. apply ascending_unique; [|done].
  apply NoDup_Permutation; [..|done]; eapply NoDup_fmap_1, StronglySorted_rlt_NoDup; eassumption.
Qed.

(** ** Ranges *)

Definition ordinals (start finish : N) : list N := N.of_nat <$> seq (N.to_nat start) (N.to_nat (finish - start)).

Lemma ordinals_app a b c : a <= b -> b <= c -> ordinals a c = ordinals a b ++ ordinals b c.
Proof.
  intros Hab Hbc. unfold ordinals. rewrite <- fmap_app. f_equal.
  replace (N.to_nat (c - a)) with (N.to_nat (b - a) + N.to_nat (c - b))%nat by lia. rewrite seq_app. f_equal. f_equal. lia.
Qed.

Lemma elem_of_span o a b : o ∈ ordinals a b <-> a <= o < b.
Proof.
  unfold ordinals. rewrite list_elem_of_fmap. setoid_rewrite elem_of_seq. split; [intros (n & -> & ?); lia|].
  intros Ho. exists (N.to_nat o). lia.
Qed.

(** The ranges of the results follow one another from [start] to [finish]. *)
Fixpoint tiles (start : N) (results : list DirectExactPartitionResult) (finish : N) : Prop :=
  match results with
  | [] => start = finish
  | r :: results => partition_start_ordinal r = start /\ tiles (partition_end_ordinal_exclusive r) results finish
  end.

Lemma advance_cursor_ok count rs : forall k start finish,
  try_fold (advance_cursor count) start (zip (seq k (length rs)) rs) = Ok finish <->
  (forall i r, rs !! i = Some r -> pr_partition r = {| part_index := N.of_nat (k + i); part_count := count |}) /\ tiles start rs finish.
Proof.
  induction rs as [|r rs IH]; intros k start finish; cbn [length seq zip zip_with try_fold tiles].
  { split; [intros [= <-]; by split|by intros [_ ->]]. }
  rewrite result_bind_ok. cbn [advance_cursor]. setoid_rewrite fail_then. setoid_rewrite orb_false_iff. setoid_rewrite orb_false_iff.
  setoid_rewrite negb_false_iff. setoid_rewrite N.eqb_eq. split.
  - intros (c & (((Hc & Hi) & Hs) & [= <-]) & Hf). apply IH in Hf as [Hp Ht]. split; [|done]. intros [|i] r'; cbn.
    + intros [= <-]. destruct (pr_partition r) eqn:E. cbn in *. rewrite Nat.add_0_r. congruence.
    + intros Hr'. rewrite (Hp i r' Hr'). f_equal. lia.
  - intros [Hp [Hs Ht]]. exists (partition_end_ordinal_exclusive r). pose proof (Hp O r eq_refl) as Hr. rewrite Nat.add_0_r in Hr. rewrite Hr.
    split; [done|]. apply IH. split; [|done]. intros i r' Hr'. rewrite (Hp (S i) r' Hr'). f_equal. lia.
Qed.

Lemma tiles_le rs : forall a b, Forall partition_ok rs -> tiles a rs b -> a <= b.
Proof.
  induction rs as [|r rs IH]; intros a b Hok; cbn; [intros ->; done|]. apply Forall_cons in Hok as [Hr Hrs]. intros [<- Ht].
  pose proof (partition_range r Hr). pose proof (IH _ _ Hrs Ht). lia.
Qed.

Lemma tiles_checked rs : forall a b, Forall partition_ok rs -> tiles a rs b -> sum_of checked_candidate_count rs = b - a.
Proof.
  induction rs as [|r rs IH]; intros a b Hok; cbn [tiles]; [intros ->; cbn; lia|]. apply Forall_cons in Hok as [Hr Hrs]. intros [<- Ht].
  unfold sum_of. cbn [foldr]. fold (sum_of checked_candidate_count rs). rewrite (IH _ _ Hrs Ht), (partition_checked r Hr).
  pose proof (partition_range r Hr). pose proof (tiles_le _ _ _ Hrs Ht). lia.
Qed.

Definition all_entailed (results : list DirectExactPartitionResult) : list DirectExactEntailedBinding := concat (entailed <$> results).

(** The candidates of all partitions come in ascending order, within the range. *)
Lemma tiles_ascending rs : forall a b, Forall partition_ok rs -> tiles a rs b ->
  StronglySorted N.lt (candidate_ordinal <$> all_entailed rs) /\ forall e, e ∈ all_entailed rs -> a <= candidate_ordinal e < b.
Proof.
  unfold all_entailed. induction rs as [|r rs IH]; intros a b Hok; cbn [tiles fmap list_fmap concat].
  { intros _. split; [constructor|]. by intros e ?%elem_of_nil. }
  apply Forall_cons in Hok as [Hr Hrs]. intros [<- Ht]. destruct (IH _ _ Hrs Ht) as [Hs Hin].
  pose proof (partition_entailed r Hr) as He. rewrite Forall_forall in He. pose proof (tiles_le _ _ _ Hrs Ht) as Hle. split.
  - rewrite fmap_app. apply StronglySorted_app_2; [|apply Hr|done]. intros x y (e & -> & He1)%list_elem_of_fmap (e' & -> & He2)%list_elem_of_fmap.
    apply He, entailed_range in He1. apply Hin in He2. lia.
  - intros e [Hin'|Hin']%elem_of_app; [|apply Hin in Hin'; pose proof (partition_range r Hr); lia]. apply He, entailed_range in Hin'. lia.
Qed.

(** ** What the reasoner decides *)

Section Truth.
Context (entails : N -> bool) (candidate : N -> Bindings).

(** A result that lists exactly the entailed candidates of its range. *)
Definition truthful (r : DirectExactPartitionResult) : Prop :=
  (fun e => (candidate_ordinal e, entailed_bindings e)) <$> entailed r
  = (fun o => (o, candidate o)) <$> filter (fun o => entails o = true) (ordinals (partition_start_ordinal r) (partition_end_ordinal_exclusive r)).

Lemma tiles_truthful rs : forall a b, Forall partition_ok rs -> Forall truthful rs -> tiles a rs b ->
  (fun e => (candidate_ordinal e, entailed_bindings e)) <$> all_entailed rs
  = (fun o => (o, candidate o)) <$> filter (fun o => entails o = true) (ordinals a b).
Proof.
  unfold all_entailed. induction rs as [|r rs IH]; intros a b Hok Htr; cbn [tiles fmap list_fmap concat].
  { intros ->. unfold ordinals. rewrite N.sub_diag. done. }
  apply Forall_cons in Hok as [Hr Hrs]. apply Forall_cons in Htr as [Htr Htrs]. intros [<- Ht].
  rewrite (ordinals_app _ (partition_end_ordinal_exclusive r) b), filter_app, !fmap_app; [|apply Hr|by eapply tiles_le].
  f_equal; [exact Htr|]. by apply IH.
Qed.

Lemma occurrences_entailed (es : list DirectExactEntailedBinding) (space : list N) (b : Bindings) :
  (fun e => (candidate_ordinal e, entailed_bindings e)) <$> es = (fun o => (o, candidate o)) <$> filter (fun o => entails o = true) space ->
  length (filter (fun e => entailed_bindings e = b) es) = length (filter (fun o => entails o = true /\ candidate o = b) space).
Proof.
  intros Heq.
  assert (filter (fun o => entails o = true /\ candidate o = b) space = filter (fun o => candidate o = b) (filter (fun o => entails o = true) space)) as ->.
  { rewrite list_filter_filter. apply list_filter_ext_in. tauto. }
  transitivity (length (filter (fun e : N * Bindings => e.2 = b) ((fun e => (candidate_ordinal e, entailed_bindings e)) <$> es))).
  - clear. induction es as [|e es IH]; [done|]. rewrite fmap_cons, !filter_cons. cbn [snd]. case_decide; cbn; by rewrite IH.
  - rewrite Heq. generalize (filter (fun o => entails o = true) space). intros l.
    induction l as [|o l IH]; [done|]. rewrite fmap_cons, !filter_cons. cbn [snd]. case_decide; cbn; by rewrite IH.
Qed.

End Truth.

(** ** The bag of the answer *)

Lemma NoDup_fmap_fst' {K V B} (f : K * V -> B) (l : list (K * V)) :
  (forall x y, x ∈ l -> y ∈ l -> f x = f y -> x.1 = y.1) -> NoDup l.*1 -> NoDup (f <$> l).
Proof.
  induction l as [|x l IH]; intros Hf Hnd; [constructor|]. cbn in Hnd. apply NoDup_cons in Hnd as [Hn Hnd]. rewrite fmap_cons. constructor.
  - intros (y & E & Hy)%list_elem_of_fmap. apply Hn. rewrite (Hf x y); [by apply list_elem_of_fmap_2|left|by right|done].
  - apply IH; [|done]. intros; apply Hf; [by right|by right|done].
Qed.

Section Bag.
Context (encode_bindings : Bindings -> option string).
Context (encode_inj : forall a b k, encode_bindings a = Some k -> encode_bindings b = Some k -> a = b).

Definition occurrences (b : Bindings) (es : list DirectExactEntailedBinding) : nat := length (filter (fun e => entailed_bindings e = b) es).

Lemma occurrences_snoc b es e :
  occurrences b (es ++ [e]) = (occurrences b es + if decide (entailed_bindings e = b) then 1 else 0)%nat.
Proof. unfold occurrences. rewrite filter_app, length_app. cbn. unfold filter. cbn. by case_decide. Qed.

Lemma occurrences_pos b es : (0 < occurrences b es)%nat <-> exists e, e ∈ es /\ entailed_bindings e = b.
Proof.
  unfold occurrences. split.
  - intros Hl. destruct (filter _ es) as [|e l] eqn:Hf; [cbn in Hl; lia|]. exists e.
    assert (e ∈ filter (fun e => entailed_bindings e = b) es) as [? ?]%list_elem_of_filter by (rewrite Hf; left). done.
  - intros (e & He & Hb). assert (e ∈ filter (fun e => entailed_bindings e = b) es) as Hin by by apply list_elem_of_filter.
    destruct (filter _ es); [by apply elem_of_nil in Hin|]. cbn. lia.
Qed.

(** The bindings seen so far, counted under their texts. *)
Record merged_as (es : list DirectExactEntailedBinding) (st : gset N * gmap string DirectBgpSolution) : Prop := {
  merged_ordinals : st.1 = list_to_set (candidate_ordinal <$> es);
  merged_distinct : NoDup (candidate_ordinal <$> es);
  merged_encoded e : e ∈ es -> is_Some (encode_bindings (entailed_bindings e));
  merged_solution k s : st.2 !! k = Some s <->
    encode_bindings (solution_bindings s) = Some k /\ (0 < occurrences (solution_bindings s) es)%nat /\
    multiplicity s = N.of_nat (occurrences (solution_bindings s) es);
}.

Lemma merged_start : merged_as [] (∅, ∅).
Proof. split; cbn; [done|constructor|by intros e ?%elem_of_nil|]. intros k s. unfold occurrences. cbn. rewrite lookup_empty. split; [done|lia]. Qed.

Lemma occurrences_le b es : (occurrences b es <= length es)%nat.
Proof. unfold occurrences. apply length_filter. Qed.

(** The entry of a binding, new or not, has its number of occurrences. *)
Lemma merged_entry es st b k : merged_as es st -> encode_bindings b = Some k ->
  default {| solution_bindings := b; multiplicity := 0 |} (st.2 !! k) =
  {| solution_bindings := b; multiplicity := N.of_nat (occurrences b es) |}.
Proof.
  intros Hm Hk. destruct (st.2 !! k) as [s|] eqn:Hs; cbn.
  - apply (merged_solution _ _ Hm) in Hs as (He & _ & Hc). assert (solution_bindings s = b) as E by by eapply encode_inj.
    destruct s as [b' n]. cbn in *. by subst.
  - destruct (occurrences b es) as [|n] eqn:Ho; [done|]. exfalso.
    assert (st.2 !! k = Some {| solution_bindings := b; multiplicity := N.of_nat (S n) |}) as Hs'; [|congruence].
    apply (merged_solution _ _ Hm). cbn. rewrite Ho. split_and!; [done|lia|done].
Qed.

Lemma merged_snoc es st e k : merged_as es st -> encode_bindings (entailed_bindings e) = Some k -> candidate_ordinal e ∉ st.1 ->
  merged_as (es ++ [e]) ({[ candidate_ordinal e ]} ∪ st.1,
    <[k := {| solution_bindings := entailed_bindings e; multiplicity := N.of_nat (occurrences (entailed_bindings e) es) + 1 |}]> st.2).
Proof.
  intros Hm Hk Hfresh. pose proof Hm as [Ho Hnd He Hs]. split; cbn.
  - rewrite fmap_app, list_to_set_app_L, <- Ho. cbn. set_solver.
  - rewrite fmap_app, NoDup_app. split_and!; [done| |apply NoDup_singleton]. intros o Hin ->%list_elem_of_singleton.
    apply Hfresh. rewrite Ho. by apply elem_of_list_to_set.
  - intros e' [He'| ->%list_elem_of_singleton]%elem_of_app; [by apply He|]. by eexists.
  - intros k' s. rewrite occurrences_snoc, lookup_insert_Some, Hs. split.
    + intros [[<- <-]|(Hne & Henc & Hpos & Hmul)]; cbn.
      * rewrite decide_True by done. split_and!; [done|lia|lia].
      * rewrite decide_False by (intros E; rewrite E in Hk; congruence). rewrite Nat.add_0_r. done.
    + intros (Henc & Hpos & Hmul). case_decide as E.
      * left. rewrite <- E in *. split; [congruence|]. destruct s as [b n]. cbn in *. subst. f_equal. lia.
      * rewrite Nat.add_0_r in *. right. split_and!; [|done|done|done]. intros ->. apply E. by eapply encode_inj.
Qed.

Lemma merge_entailed_ok es st e st' : merged_as es st -> merge_entailed encode_bindings st e = Ok st' -> merged_as (es ++ [e]) st'.
Proof.
  intros Hm Hr. destruct st as [ords by_binding]. cbn [merge_entailed] in Hr. apply fail_then in Hr as [Hf Hr]. inv_ok Hr. inv_ok Hr.
  apply ok_or_ok in Ha. injection Hr as <-. apply bool_decide_eq_false in Hf.
  pose proof (merged_entry es _ _ _ Hm Ha) as Hentry. cbn in Hentry. unfold checked_total in Ha0. apply ok_or_ok, checked_add_some in Ha0 as [-> _].
  rewrite Hentry. cbn. by apply (merged_snoc es (ords, by_binding)).
Qed.

Lemma merge_entailed_total es st e : merged_as es st -> is_Some (encode_bindings (entailed_bindings e)) ->
  candidate_ordinal e ∉ (list_to_set (candidate_ordinal <$> es) : gset N) -> N.of_nat (length es) + 1 < U64_LIMIT ->
  exists st', merge_entailed encode_bindings st e = Ok st' /\ merged_as (es ++ [e]) st'.
Proof.
  intros Hm [k Hk] Hfresh Hlen. destruct st as [ords by_binding]. pose proof (merged_ordinals _ _ Hm) as Ho. cbn in Ho. subst ords.
  assert (exists st', merge_entailed encode_bindings (list_to_set (candidate_ordinal <$> es), by_binding) e = Ok st') as [st' Hst'].
  { cbn [merge_entailed]. rewrite bool_decide_false by done. cbn [fail_if mbind result_bind]. rewrite Hk. cbn [ok_or mbind result_bind].
    pose proof (merged_entry es _ _ _ Hm Hk) as Hentry. cbn in Hentry. rewrite Hentry. cbn. unfold checked_total.
    rewrite (checked_add_fits U64_LIMIT); [cbn; by eexists|]. pose proof (occurrences_le (entailed_bindings e) es). lia. }
  exists st'. split; [done|]. by eapply merge_entailed_ok.
Qed.

Lemma merge_all_ok es st : try_fold (merge_entailed encode_bindings) (∅, ∅) es = Ok st -> merged_as es st.
Proof.
  apply (try_fold_inv merged_as); [apply merged_start|]. intros pre e s1 s2 Hm _. by apply merge_entailed_ok.
Qed.

Lemma merge_all_total es : NoDup (candidate_ordinal <$> es) -> (forall e, e ∈ es -> is_Some (encode_bindings (entailed_bindings e))) ->
  N.of_nat (length es) < U64_LIMIT -> exists st, try_fold (merge_entailed encode_bindings) (∅, ∅) es = Ok st /\ merged_as es st.
Proof.
  induction es as [|e es IH] using rev_ind; intros Hnd He Hlen; [exists (∅, ∅); split; [done|apply merged_start]|].
  rewrite fmap_app, NoDup_app in Hnd. destruct Hnd as (Hnd & Hdisj & _). rewrite length_app in Hlen. cbn in Hlen.
  destruct IH as (st & Hst & Hm); [done|intros; apply He, elem_of_app; by left|lia|].
  destruct (merge_entailed_total es st e Hm) as (st' & Hst' & Hm'); [apply He, elem_of_app; right; left| |lia|].
  { rewrite elem_of_list_to_set. intros Hin. apply (Hdisj _ Hin). left. }
  exists st'. split; [|done]. rewrite try_fold_app, Hst. cbn. by rewrite Hst'.
Qed.

(** ** The solutions *)

Lemma sum_indicator (x : Bindings) bs : NoDup bs ->
  sum_of (fun b => N.of_nat (if decide (x = b) then 1 else 0)) bs = if decide (x ∈ bs) then 1 else 0.
Proof.
  induction bs as [|b bs IH]; intros Hnd; [done|]. apply NoDup_cons in Hnd as [Hn Hnd]. unfold sum_of in *. cbn [foldr]. rewrite IH by done.
  destruct (decide (x = b)) as [->|Hne].
  - rewrite decide_False by done. rewrite decide_True by left. done.
  - destruct (decide (x ∈ bs)).
    + rewrite decide_True by (by right). done.
    + rewrite decide_False by (intros [?|?]%elem_of_cons; done). done.
Qed.

Lemma sum_occurrences es bs : NoDup bs -> (forall e, e ∈ es -> entailed_bindings e ∈ bs) ->
  sum_of (fun b => N.of_nat (occurrences b es)) bs = N.of_nat (length es).
Proof.
  intros Hnd. induction es as [|e es IH] using rev_ind; intros Hin.
  { induction bs as [|b bs IHb]; [done|]. apply NoDup_cons in Hnd as [_ Hnd]. unfold sum_of in *. cbn. apply IHb; [done|]. by intros e ?%elem_of_nil. }
  assert (sum_of (fun b => N.of_nat (occurrences b (es ++ [e]))) bs =
          sum_of (fun b => N.of_nat (occurrences b es)) bs
          + sum_of (fun b => N.of_nat (if decide (entailed_bindings e = b) then 1 else 0)) bs) as ->.
  { clear. induction bs as [|b bs IHb]; [done|]. unfold sum_of in *. cbn [foldr]. rewrite IHb, occurrences_snoc. case_decide; lia. }
  rewrite IH by (intros e' He'; apply Hin, elem_of_app; by left). rewrite sum_indicator by done.
  rewrite decide_True by (apply Hin, elem_of_app; right; left). rewrite length_app. cbn. lia.
Qed.

Definition solutions_of (m : gmap string DirectBgpSolution) : list DirectBgpSolution := snd <$> sorted_bindings m.

Lemma elem_of_solutions m s : s ∈ solutions_of m <-> exists k, m !! k = Some s.
Proof.
  unfold solutions_of. rewrite list_elem_of_fmap. setoid_rewrite <- elem_of_sorted_bindings. split.
  - intros ([k s'] & -> & Hin). by exists k.
  - intros [k Hin]. by exists (k, s).
Qed.

Lemma solutions_spec es st s : merged_as es st -> s ∈ solutions_of st.2 <->
  (0 < occurrences (solution_bindings s) es)%nat /\ multiplicity s = N.of_nat (occurrences (solution_bindings s) es).
Proof.
  intros Hm. rewrite elem_of_solutions. setoid_rewrite (merged_solution _ _ Hm). split; [by intros (k & _ & ? & ?)|].
  intros [Hpos Hmul]. apply occurrences_pos in Hpos as Hex. destruct Hex as (e & He & Hb).
  destruct (merged_encoded _ _ Hm e He) as [k Hk]. exists k. rewrite <- Hb at 1. done.
Qed.

Lemma solutions_distinct es st : merged_as es st -> NoDup (solution_bindings <$> solutions_of st.2).
Proof.
  intros Hm. unfold solutions_of. rewrite <- list_fmap_compose.
  apply NoDup_fmap_fst'; [|apply NoDup_sorted_bindings_fst].
  intros [k s] [k' s'] Hin%elem_of_sorted_bindings Hin'%elem_of_sorted_bindings E. cbn in *.
  apply (merged_solution _ _ Hm) in Hin as [Hk _], Hin' as [Hk' _]. congruence.
Qed.

Lemma solutions_total es st : merged_as es st -> sum_of multiplicity (solutions_of st.2) = N.of_nat (length es).
Proof.
  intros Hm. rewrite <- (sum_occurrences es (solution_bindings <$> solutions_of st.2)).
  - rewrite sum_of_fmap. apply N.le_antisymm; apply sum_of_le; intros s Hs; apply (solutions_spec _ _ _ Hm) in Hs as [_ ->]; done.
  - by eapply solutions_distinct.
  - intros e He. apply list_elem_of_fmap. exists {| solution_bindings := entailed_bindings e; multiplicity := N.of_nat (occurrences (entailed_bindings e) es) |}.
    split; [done|]. apply (solutions_spec _ _ _ Hm). cbn. split; [|done]. apply occurrences_pos. eauto.
Qed.

End Bag.

(** ** The answer *)

Section Answer.
Context `{Sha256} (available : nat).
Context (encode_result : DirectExactPartitionResult -> option (list byte))
  (encode_bindings : Bindings -> option string)
  (encode_manifest : DirectProofManifest -> option (list byte))
  (encode_certificate : DirectCertificate -> option (list byte)).
Context (bindings : DirectExactBindings) (legality : DirectBgpLegalityRecord) (ontology : DirectExactOntologyBundle)
  (adapter : DirectExactAdapter) (request_set : string) (limits : DirectExactLimits).

Abbreviation merge results := (merge_partition_results available encode_result encode_bindings encode_manifest encode_certificate results
  bindings legality ontology adapter request_set limits).

Context (encode_inj : forall a b k, encode_bindings a = Some k -> encode_bindings b = Some k -> a = b).

(** The proofs of all checks, in the order of the results. *)
Definition all_proofs (m : DirectProofManifest) (results : list DirectExactPartitionResult) : list DirectReasonerCheckProof :=
  concat ((fun r => check_proof m r <$> entailed r) <$> results).

Lemma all_proofs_ordinals m results : proof_candidate_ordinal <$> all_proofs m results = candidate_ordinal <$> all_entailed results.
Proof.
  unfold all_proofs, all_entailed. induction results as [|r results IH]; [done|]. cbn [fmap list_fmap concat]. rewrite !fmap_app.
  f_equal; [|exact IH]. by rewrite <- list_fmap_compose.
Qed.

Lemma sorted_lt_keys {A} (key : A -> N) (l : list A) : StronglySorted N.lt (key <$> l) -> sort_by_key key l = l.
Proof.
  intros Hs. apply (sort_by_key_unique key l l); [|done|].
  - clear -Hs. induction l as [|x l IH]; [constructor|]. rewrite fmap_cons in Hs. apply StronglySorted_inv in Hs as [Hs Hx]. rewrite fmap_cons. constructor; [|by apply IH].
    intros Hin. rewrite Forall_forall in Hx. apply Hx in Hin. lia.
  - induction l as [|x l IH]; [constructor|]. rewrite fmap_cons in Hs. apply StronglySorted_inv in Hs as [Hs Hx]. constructor; [by apply IH|].
    rewrite Forall_fmap in Hx. eapply Forall_impl; [exact Hx|]. intros y Hy. unfold key_le, rle. cbn in *.
    apply N.compare_le_iff. lia.
Qed.

Lemma proof_manifest_proofs m results : StronglySorted N.lt (candidate_ordinal <$> all_entailed results) ->
  answer_proofs (proof_manifest m results) = all_proofs m results.
Proof. intros Hs. unfold proof_manifest. cbn. apply sorted_lt_keys. by rewrite all_proofs_ordinals. Qed.

(** What a successful merge has seen. *)
Record merge_facts (results : list DirectExactPartitionResult) (answer : DirectBgpResult) (certificate : DirectCertificate)
    (manifest : DirectProofManifest) : Prop := {
  fact_tiles : tiles 0 results (br_candidate_binding_count answer);
  fact_merged : exists st, merged_as encode_bindings (all_entailed results) st /\ solutions answer = solutions_of st.2 /\
    solution_multiplicity_total answer = sum_of multiplicity (solutions answer);
  fact_proofs : exists hash space root, manifest = proof_manifest (empty_manifest bindings legality ontology adapter hash space root) results;
  fact_certificate : evidence_candidate_binding_count (dc_completeness certificate) = br_candidate_binding_count answer /\
    checked_candidate_binding_count (dc_completeness certificate) = br_candidate_binding_count answer;
}.

Lemma merge_sound results answer certificate manifest : merge results = Ok (answer, certificate, manifest) ->
  merge_facts results answer certificate manifest.
Proof.
  unfold merge_partition_results. intros Hr. inv_ok Hr. apply fail_then in Hr as [_ Hr]. apply fail_then in Hr as [_ Hr]. inv_ok Hr.
  apply fail_then in Hr as [Hcur%negb_false_iff%N.eqb_eq Hr]. inv_ok Hr. apply fail_then in Hr as [Hck%negb_false_iff%N.eqb_eq Hr].
  inv_ok Hr. inv_ok Hr. inv_ok Hr. inv_ok Hr. inv_ok Hr. inv_ok Hr. inv_ok Hr. inv_ok Hr. inv_ok Hr. inv_ok Hr. inv_ok Hr. inv_ok Hr.
  inv_ok Hr. injection Hr as <- <- <-. subst.
  unfold enumerate in Ha0. apply advance_cursor_ok in Ha0 as [_ Ht]. fold (all_entailed results) in Ha2.
  apply (merge_all_ok encode_bindings encode_inj) in Ha2. apply checked_totals_ok in Ha3 as [-> _]; [|done]. split; cbn.
  - done.
  - exists a2. split_and!; [done|done|]. by rewrite N.add_0_l.
  - by do 3 eexists.
  - done.
Qed.

(** The answer is the bag of the entailed candidates of the whole space: it
    lists every binding of an entailed candidate once, with the number of
    entailed candidates that have it, and proves every one of them once. *)
Record entailed_bag (entails : N -> bool) (candidate : N -> Bindings) (answer : DirectBgpResult) (certificate : DirectCertificate)
    (manifest : DirectProofManifest) : Prop := {
  bag_distinct : NoDup (solution_bindings <$> solutions answer);
  bag_solutions s : s ∈ solutions answer <-> 0 < multiplicity s /\ multiplicity s = N.of_nat (length
    (filter (fun o => entails o = true /\ candidate o = solution_bindings s) (ordinals 0 (br_candidate_binding_count answer))));
  bag_total : solution_multiplicity_total answer =
    N.of_nat (length (filter (fun o => entails o = true) (ordinals 0 (br_candidate_binding_count answer))));
  bag_proofs : proof_candidate_ordinal <$> answer_proofs manifest =
    filter (fun o => entails o = true) (ordinals 0 (br_candidate_binding_count answer));
  bag_checked : checked_candidate_binding_count (dc_completeness certificate) = br_candidate_binding_count answer;
}.

Lemma merged_answer_is_the_entailed_bag (entails : N -> bool) (candidate : N -> Bindings) (results : list DirectExactPartitionResult)
    (answer : DirectBgpResult) (certificate : DirectCertificate) (manifest : DirectProofManifest) :
  Forall partition_ok results -> Forall (truthful entails candidate) results ->
  merge results = Ok (answer, certificate, manifest) -> entailed_bag entails candidate answer certificate manifest.
Proof.
  intros Hok Htrue Hmerge. destruct (merge_sound _ _ _ _ Hmerge) as [Ht (st & Hm & Hsols & Htotal) (hash & sp & root & ->) [_ Hck]].
  pose proof (tiles_truthful entails candidate _ _ _ Hok Htrue Ht) as Heq. set (space := ordinals 0 (br_candidate_binding_count answer)) in *.
  assert (length (all_entailed results) = length (filter (fun o => entails o = true) space)) as Hlen.
  { apply (f_equal length) in Heq. by rewrite !length_fmap in Heq. }
  split.
  - rewrite Hsols. by eapply solutions_distinct.
  - intros s. rewrite Hsols, (solutions_spec _ _ _ _ Hm). unfold occurrences. rewrite (occurrences_entailed entails candidate _ space) by done.
    fold space. lia.
  - by rewrite Htotal, Hsols, (solutions_total _ _ _ Hm), Hlen.
  - rewrite proof_manifest_proofs by (by eapply tiles_ascending). rewrite all_proofs_ordinals.
    apply (f_equal (fmap fst)) in Heq. rewrite <- !list_fmap_compose in Heq. etrans; [exact Heq|]. apply list_fmap_id.
  - done.
Qed.

(** What a successful merge has checked of its input. *)
Lemma merge_admits results out : merge results = Ok out ->
  exists first, head results = Some first /\ (forall r, r ∈ results -> disagrees adapter first r = false) /\
    tiles 0 results (pr_candidate_binding_count first) /\ pr_candidate_binding_count first < U64_LIMIT.
Proof using Type.
  unfold merge_partition_results. intros Hr. inv_ok Hr. apply ok_or_ok in Ha. apply fail_then in Hr as [Hd Hr]. rewrite existsb_none in Hd.
  apply fail_then in Hr as [_ Hr]. inv_ok Hr. apply fail_then in Hr as [Hcur%negb_false_iff%N.eqb_eq Hr]. inv_ok Hr.
  apply fail_then in Hr as [Hck%negb_false_iff%N.eqb_eq Hr]. clear Hr. apply checked_totals_ok in Ha1 as [_ Hb]; [|done]. subst.
  unfold enumerate in Ha0. apply advance_cursor_ok in Ha0 as [_ Ht]. exists a. done.
Qed.

End Answer.

(** ** Execution *)

Section Execution.
Context `{Sha256} (available : nat).
Context (encode_request : DirectExactRequest -> option (list byte))
  (encode_result : DirectExactPartitionResult -> option (list byte))
  (encode_bindings : Bindings -> option string)
  (encode_manifest : DirectProofManifest -> option (list byte))
  (encode_certificate : DirectCertificate -> option (list byte))
  (decode_result : list byte -> option DirectExactPartitionResult)
  (output_path : DirectExactBindings -> string -> N -> string)
  (hermit : list byte -> option (list byte)).
Context (legality : DirectBgpLegalityRecord) (bindings : DirectExactBindings) (ontology : DirectExactOntologyBundle)
  (adapter : DirectExactAdapter) (limits : DirectExactLimits) (template : result string DirectExactBgpTemplate).

Abbreviation prepared_for := (prepare_exact_direct_bgp_requests encode_request output_path template legality bindings ontology limits).
Abbreviation execution := (execute_exact_direct_bgp available encode_request encode_result encode_bindings encode_manifest encode_certificate
  decode_result output_path hermit template legality bindings ontology adapter limits).

(** One result of the reasoner for every request. *)
Definition executed (request : DirectExactRequest) (r : DirectExactPartitionResult) : Prop :=
  exists bytes, encode_request request = Some bytes /\ run_partition decode_result hermit request bytes = Ok r.

Lemma run_partition_ok request bytes r : run_partition decode_result hermit request bytes = Ok r ->
  validate_direct_exact_partition_result r = Ok tt /\ answers request (hex_encode (sha256 bytes)) r = true.
Proof using Type.
  unfold run_partition. intros Hr. inv_ok Hr. inv_ok Hr. inv_ok Hr. apply fail_then in Hr as [Hf [= <-]]. destruct a1.
  apply map_err_ok in Ha1. by apply negb_false_iff in Hf.
Qed.

Lemma answers_partition request sha r : answers request sha r = true -> pr_partition r = rq_partition request.
Proof using Type. unfold answers. rewrite !andb_true_iff, !bool_decide_eq_true. intros Ha. by destruct_and!. Qed.

Lemma executed_partition request r : executed request r -> pr_partition r = rq_partition request.
Proof using Type. intros (bytes & _ & [_ Ha]%run_partition_ok). by eapply answers_partition. Qed.

Lemma executed_ok request r : executed request r -> partition_ok r.
Proof using Type. intros (bytes & _ & [Hv _]%run_partition_ok). by apply validate_partition_ok. Qed.

(** The partitions of the requests are numbered from zero. *)
Lemma prepared_partitions prepared : prepared_for = Ok prepared ->
  exists count, rq_partition <$> prepared_requests prepared = (fun i => {| part_index := N.of_nat i; part_count := N.of_nat count |}) <$> seq 0 count.
Proof using Type.
  unfold prepare_exact_direct_bgp_requests. intros Hr. do 3 (apply fail_then in Hr as [_ Hr]). inv_ok Hr.
  do 4 (apply fail_then in Hr as [_ Hr]). set (count := N.max _ 1) in Hr. inv_ok Hr. inv_ok Hr. injection Hr as <-. cbn.
  exists (N.to_nat count). rewrite N2Nat.id. apply try_map_ok in Ha0. clear Ha1. revert Ha0. generalize (seq 0 (N.to_nat count)). intros l Hl.
  induction Hl as [|i r l rs Hi Hl IH]; [done|]. rewrite !fmap_cons, IH. inv_ok Hi. injection Hi as <-. done.
Qed.

Lemma prepared_request_set prepared : prepared_for = Ok prepared ->
  direct_exact_request_set_sha256 encode_request (prepared_requests prepared) = Ok (request_set_sha256 prepared).
Proof using Type.
  unfold prepare_exact_direct_bgp_requests. intros Hr. do 3 (apply fail_then in Hr as [_ Hr]). inv_ok Hr.
  do 4 (apply fail_then in Hr as [_ Hr]). inv_ok Hr. inv_ok Hr. by injection Hr as <-.
Qed.

Lemma prepared_ascending prepared : prepared_for = Ok prepared ->
  StronglySorted rlt ((fun r => part_index (rq_partition r)) <$> prepared_requests prepared).
Proof using Type.
  intros [count Hp]%prepared_partitions. rewrite (list_fmap_compose rq_partition part_index), Hp, <- list_fmap_compose.
  change (part_index ∘ _) with N.of_nat. generalize 0%nat. clear. induction count as [|n IH]; intros k; [constructor|].
  cbn [seq]. rewrite fmap_cons. constructor; [apply IH|]. rewrite Forall_fmap. apply Forall_forall. intros j Hj%elem_of_seq.
  unfold rlt. cbn. apply N.compare_lt_iff. lia.
Qed.

(** A local execution merges one result of the reasoner for every request. *)
Lemma execution_ok out : execution = Ok out -> exists prepared results,
  prepared_for = Ok prepared /\ Forall2 executed (prepared_requests prepared) results /\
  merge_partition_results available encode_result encode_bindings encode_manifest encode_certificate results bindings legality ontology adapter
    (request_set_sha256 prepared) limits = Ok out.
Proof using Type.
  unfold execute_exact_direct_bgp. intros Hr. inv_ok Hr. clear Ha a. inv_ok Hr. inv_ok Hr. inv_ok Hr. rename a into prepared, a0 into requests, a1 into waves.
  exists prepared, (concat waves). split; [done|]. apply try_map_concat in Ha1. rewrite concat_chunks_any in Ha1 by lia.
  apply try_map_ok in Ha0, Ha1.
  assert (Forall2 executed (prepared_requests prepared) (concat waves)) as Hall.
  { revert Ha1. generalize (concat waves). induction Ha0 as [|r e rs es Hr0 Hrs IH]; intros ress Hress.
    - apply Forall2_nil_inv_l in Hress as ->. constructor.
    - apply Forall2_cons_inv_l in Hress as (res & ress' & Hres & Hress & ->). constructor; [|by apply IH].
      inv_ok Hr0. apply ok_or_ok in Ha0. injection Hr0 as <-. by exists a. }
  split; [done|]. rewrite (ascending_unique (fun r => part_index (pr_partition r)) (concat waves) (concat waves)) in Hr; [done|done|].
  assert ((fun r => part_index (pr_partition r)) <$> concat waves = (fun r => part_index (rq_partition r)) <$> prepared_requests prepared) as ->.
  { clear Hr Ha Ha0 Ha1. induction Hall as [|r res rs ress Hr Hall IH]; [done|]. rewrite !fmap_cons, IH. by rewrite (executed_partition _ _ Hr). }
  by apply prepared_ascending.
Qed.

(** Exact reasoning is exact.  When every accepted output of the reasoner
    says exactly which candidates of its range are entailed, a local execution
    that succeeds answers with the bag of the entailed candidates of the whole
    candidate space, whatever the number of partitions and lanes. *)
Theorem local_answer_is_the_entailed_bag (entails : N -> bool) (candidate : N -> Bindings) (answer : DirectBgpResult)
    (certificate : DirectCertificate) (manifest : DirectProofManifest) :
  (forall a b k, encode_bindings a = Some k -> encode_bindings b = Some k -> a = b) ->
  (forall request r, executed request r -> truthful entails candidate r) ->
  execution = Ok (answer, certificate, manifest) ->
  entailed_bag entails candidate answer certificate manifest.
Proof.
  intros Hinj Htrue (prepared & results & _ & Hall & Hmerge)%execution_ok.
  eapply merged_answer_is_the_entailed_bag; [exact Hinj| | |exact Hmerge];
    apply Forall_forall; intros r (i & Hi)%list_elem_of_lookup_1; destruct (Forall2_lookup_r _ _ _ _ _ Hall Hi) as (request & _ & Hex).
  - by eapply executed_ok.
  - by eapply Htrue.
Qed.

End Execution.

(** ** A small space

    Three candidates in two partitions; the first and the last are entailed
    and have the same bindings.  The digest keeps the end of a message. *)

Program Definition suffix_digest : Sha256 := {| sha256 m := drop (length m) (replicate 32 x00 ++ m) |}.
Next Obligation. intros m. change (length (drop (length m) (replicate 32 x00 ++ m)) = 32%nat). rewrite length_drop, length_app, length_replicate. lia. Qed.

Definition hash_a : string := "aaaaaaaaaaaaaaaaaaaaaaaaaaaaaaaaaaaaaaaaaaaaaaaaaaaaaaaaaaaaaaaa".
Definition hash_b : string := "bbbbbbbbbbbbbbbbbbbbbbbbbbbbbbbbbbbbbbbbbbbbbbbbbbbbbbbbbbbbbbbb".

Definition sample_uuid : Uuid := replicate 16 x01.
Definition sample_context : DirectBgpGraphContext := ContextNamed "urn:g".
Definition likes_a : Bindings := {[ "x"%string := TermIri "urn:a" ]}.
Definition likes_b : Bindings := {[ "x"%string := TermIri "urn:b" ]}.

Definition sample_entails (o : N) : bool := negb (o =? 1).
Definition sample_candidate (o : N) : Bindings := if o =? 1 then likes_b else likes_a.

Definition sample_exact_bindings : DirectExactBindings :=
  {| eb_dataset_id := sample_uuid; eb_snapshot_id := sample_uuid; eb_query_sha256 := hash_a; eb_sparql_algebra_sha256 := hash_a;
     eb_active_dataset_sha256 := hash_a; eb_authorized_graph_set_sha256 := hash_a; eb_owl_signature_sha256 := hash_a;
     eb_datatype_policy_sha256 := hash_a; eb_owl_profile_qualification_sha256 := hash_a; eb_owl_consistency_qualification_sha256 := hash_a;
     eb_graph_context := sample_context |}.

Definition sample_legality : DirectBgpLegalityRecord :=
  {| legality_ordinal := 0; legality_bgp_sha256 := hash_b; legality_graph_scope := ScopeNamed "urn:g"; legality_triple_count := 1;
     legality_recognized_forms := []; legality_variables := [{| typing_variable := "x"; typing_role := NamedIndividual; typing_source := StructuralPosition |}];
     legality_status := Legal; grounded_owl2dl_check_required := true |}.

Definition sample_ontology : DirectExactOntologyBundle :=
  {| ontology_bundle_inputs := [{| input_path := "o.owl"; ontology_sha256 := hash_a; ontology_iris := ["urn:o"%string] |}];
     ontology_aggregate_sha256 := hash_a; ontology_graph_context := sample_context; scoped_graph_sha256 := hash_a |}.

Definition sample_adapter : DirectExactAdapter :=
  {| adapter_jar := Some [x07]; java_present := true; adapter_jar_sha256 := hex_encode (sha256 (Sha256:=suffix_digest) [x07]);
     exact_adapter_version := "1"; exact_reasoner_version := "1.4.5.519" |}.

Definition sample_limits : DirectExactLimits :=
  {| max_candidate_bindings := 3; max_partition_candidates := 2; max_exact_partitions := 8; max_grounded_axioms_per_candidate := 9;
     max_grounded_rdf_bytes_per_candidate := 9; max_local_reasoner_lanes := 2; reasoner_heap_mib_per_lane := 1; reasoner_timeout := 1;
     max_certificate_bytes := 9; max_proof_support_ids := 9 |}.

Definition sample_template : DirectExactBgpTemplate :=
  {| template_ordinal := 0; template_bgp_sha256 := hash_b; template_graph_scope := ScopeNamed "urn:g";
     template_variables := [{| exact_name := "x"; exact_role := NamedIndividual; exact_source := StructuralPosition |}];
     template_triples := [{| pattern_subject := PatternVariable "x"; pattern_predicate := PatternIri "urn:p"; pattern_object := PatternIri "urn:c" |}] |}.

(** Requests and results are told apart by the number of their partition. *)
Definition request_text (r : DirectExactRequest) : option (list byte) := Some [byte_of_N (part_index (rq_partition r))].
Definition result_text (r : DirectExactPartitionResult) : option (list byte) := Some [byte_of_N (part_index (pr_partition r))].
Definition binding_text (b : Bindings) : option string :=
  if decide (b = likes_a) then Some "a"%string else if decide (b = likes_b) then Some "b"%string else None.

Definition sample_entailed (o axioms : N) : DirectExactEntailedBinding :=
  {| candidate_ordinal := o; entailed_bindings := sample_candidate o; grounded_rdf_sha256 := hash_a; logical_axioms_sha256 := hash_a;
     logical_axiom_count := axioms |}.

Definition sample_result (index start finish : N) (es : list DirectExactEntailedBinding) : DirectExactPartitionResult :=
  {| pr_format_version := 1; pr_dataset_id := sample_uuid; pr_snapshot_id := sample_uuid; pr_query_sha256 := hash_a; pr_bgp_sha256 := hash_b;
     pr_engine := DIRECT_EXACT_ENGINE_V1; pr_reasoner_name := "HermiT"; pr_reasoner_version := "1.4.5.519"; pr_adapter_version := "1";
     pr_request_sha256 := hex_encode (sha256 (Sha256:=suffix_digest) [byte_of_N index]); pr_aggregate_input_sha256 := hash_a;
     pr_candidate_space_sha256 := hash_b; pr_partition := {| part_index := index; part_count := 2 |}; pr_candidate_binding_count := 3;
     partition_start_ordinal := start; partition_end_ordinal_exclusive := finish; checked_candidate_count := finish - start;
     grounded_owl2dl_candidate_count := N.of_nat (length es); entailed_candidate_count := N.of_nat (length es);
     reasoner_request_count := N.of_nat (length es); entailed := es; pr_complete := true |}.

Definition sample_results : list DirectExactPartitionResult :=
  [sample_result 0 0 2 [sample_entailed 0 1]; sample_result 1 2 3 [sample_entailed 2 2]].

Definition read_result (text : list byte) : option DirectExactPartitionResult :=
  match text with
  | [b] => sample_results !! N.to_nat (Byte.to_N b)
  | _ => None
  end.

Definition sample_path (_ : DirectExactBindings) (_ : string) (_ : N) : string := "out".

Definition sample_execution : result DirectExactError (DirectBgpResult * DirectCertificate * DirectProofManifest) :=
  execute_exact_direct_bgp (H:=suffix_digest) 4 request_text result_text binding_text (fun _ => Some []) (fun _ => Some []) read_result sample_path
    Some (Ok sample_template) sample_legality sample_exact_bindings sample_ontology sample_adapter sample_limits.

Lemma binding_text_inj a b k : binding_text a = Some k -> binding_text b = Some k -> a = b.
Proof. unfold binding_text. repeat case_decide; congruence. Qed.

Lemma sample_results_truthful r : r ∈ sample_results -> truthful sample_entails sample_candidate r.
Proof. by intros [->|[->|[]%not_elem_of_nil]%elem_of_cons]%elem_of_cons; vm_compute. Qed.

Lemma read_result_sample text r : read_result text = Some r -> r ∈ sample_results.
Proof. destruct text as [|b [|]]; [done| |done]. apply list_elem_of_lookup_2. Qed.

Example sample_execution_succeeds : is_ok sample_execution = true.
Proof. vm_compute. reflexivity. Qed.
