(* ===== verification/OnlineReasoning.v ===== *)
(** * Online exact reasoning over worker pods

    Models src/crates/ngkg-online-reasoning/src/lib.rs: the choice of the
    asserted ontology modules a principal may reason over, the route of a
    pattern, the plan of its partitions, their dispatch to workers with
    retries, the barrier that admits only a complete set of results, and the
    number of worker replicas.

    Workers run in other processes (src/services/direct-reasoner-worker), behind
    HTTP: what they answer is a parameter, a function of the request, the
    address and the attempt.  The jobs of a
    dispatch end in any order; the order is an argument, and the theorems hold
    for every one. *)

From Stdlib Require Import Strings.Byte Strings.String.
From S2P Require Import Prelude Words Ordered Digest Text Runtime DirectTypes DirectDigests ExactReasoner.

Local Open Scope N_scope.

Definition ONLINE_DIRECT_FORMAT_VERSION : N := 1.
Definition HERMIT_VERSION : string := "1.4.5.519".
Definition SEMKG_GRAPH_PREFIX : string := "https://c8-next-generation.io/".

Inductive OntologyGraphRole := AssertedOntology | FiniteClosure | Provenance.

Record AuthorizedGraph := { graph_iri : string; graph_content_sha256 : string; authorization_labels : gset string }.
Record AssertedOntologyModule := { module_graph_iri : string; module_content_sha256 : string }.
Record PinnedImport := { import_ontology_iri : string; version_iri : string; document_sha256 : string }.

Record OntologySnapshotBinding := {
  sb_format_version : N;
  sb_dataset_id : Uuid;
  sb_snapshot_id : Uuid;
  sb_authorized_graph_set_sha256 : string;
  sb_active_dataset_sha256 : string;
  sb_datatype_policy_sha256 : string;
  sb_owl_signature_sha256 : string;
  sb_owl_profile_qualification_sha256 : string;
  sb_owl_consistency_qualification_sha256 : string;
  asserted_modules : list AssertedOntologyModule;
  pinned_imports : list PinnedImport;
  synthetic_ontology_sha256 : string;
}.

Inductive CoverageState := CertifiedComplete | CoverageIncomplete | CoverageUnknown.
Inductive EntailmentRoute := CertifiedSemanticIndex | CertifiedFiniteClosure | ExactHermit | IllegalOwlDirect.

Record EntailmentRoutingInput := { route_legality : DirectBgpLegalityStatus; semantic_index : CoverageState; finite_closure : CoverageState }.

Record DistributedReasonerPlan := {
  plan_format_version : N;
  plan_dataset_id : Uuid;
  plan_snapshot_id : Uuid;
  plan_query_sha256 : string;
  plan_bgp_sha256 : string;
  ontology_snapshot_sha256 : string;
  candidate_binding_ceiling : N;
  max_candidates_per_partition : N;
  partitions : list DirectExactPartition;
  plan_sha256 : string;
}.

Record CompletePartitionSet := {
  set_plan_sha256 : string;
  set_candidate_space_sha256 : string;
  set_candidate_binding_count : N;
  set_checked_candidate_count : N;
  set_results : list DirectExactPartitionResult;
}.

Record ReasonerScalingObservation := {
  queued_partitions : N;
  estimated_axioms : N;
  memory_pressure_percent : N;
  p95_latency_milliseconds : N;
  oldest_queue_age_milliseconds : N;
}.

Record ReasonerScalingPolicy := {
  reasoner_min_replicas : N;
  reasoner_max_replicas : N;
  partitions_per_replica : N;
  axioms_per_replica : N;
  latency_target_milliseconds : N;
  backlog_age_target_milliseconds : N;
  durable_queue_qualified : bool;
  cold_start_slo_qualified : bool;
}.

Inductive OnlineReasoningError :=
  | GraphConvention
  | UnauthorizedAssertedGraph
  | SnapshotBinding
  | PinnedImports
  | PartitionPlanInvalid
  | PartitionSet
  | ScalingPolicy
  | WorkerPool
  | WorkerResponse
  | CoverageMismatch.

Global Instance OntologyGraphRole_eq_dec : EqDecision OntologyGraphRole.
Proof. solve_decision. Defined.

(** ** Ontology modules *)

Definition SLASH : byte := x2f.

(** [parts.next()] three times, the first two not empty, then the end. *)
Definition ontology_graph_role (iri : string) : result OnlineReasoningError OntologyGraphRole :=
  suffix ← ok_or (strip_prefix (as_bytes SEMKG_GRAPH_PREFIX) (as_bytes iri)) GraphConvention;
  match split_on SLASH suffix with
  | [scope; subdomain; role] =>
      _ ← fail_if (bool_decide (scope = []) || bool_decide (subdomain = [])) GraphConvention;
      if decide (role = as_bytes "semkg") then Ok AssertedOntology
      else if decide (role = as_bytes "closure") then Ok FiniteClosure
      else if decide (role = as_bytes "provenance") then Ok Provenance
      else Err GraphConvention
  | _ => Err GraphConvention
  end.

(** [ontology_graph_role(iri) == Ok(OntologyGraphRole::AssertedOntology)]. *)
Definition is_asserted (iri : string) : bool := match ontology_graph_role iri with Ok AssertedOntology => true | _ => false end.

(** The loop over the requested graphs. *)
Definition select_module (by_iri : gmap string AuthorizedGraph) (principal_labels : gset string) (modules : list AssertedOntologyModule)
    (iri : string) : result OnlineReasoningError (list AssertedOntologyModule) :=
  role ← ontology_graph_role iri;
  if decide (role = AssertedOntology) then
    graph ← ok_or (by_iri !! iri) UnauthorizedAssertedGraph;
    _ ← fail_if (negb (bool_decide (authorization_labels graph ⊆ principal_labels)) || negb (lower_hex_sha256 (graph_content_sha256 graph)))
                UnauthorizedAssertedGraph;
    Ok (modules ++ [{| module_graph_iri := graph_iri graph; module_content_sha256 := graph_content_sha256 graph |}])
  else Ok modules.

Definition select_authorized_asserted_modules (visible_graphs : list AuthorizedGraph) (requested_graph_iris principal_labels : gset string) :
    result OnlineReasoningError (list AssertedOntologyModule) :=
  let by_iri := foldl (fun m graph => <[graph_iri graph := graph]> m) (∅ : gmap string AuthorizedGraph) visible_graphs in
  modules ← try_fold (select_module by_iri principal_labels) [] (sorted_elements requested_graph_iris);
  let modules := sort_by_key module_graph_iri modules in
  _ ← fail_if (bool_decide (modules = [])
               || negb (windows2_all (fun a b => negb (bool_decide (module_graph_iri a = module_graph_iri b))) modules))
              UnauthorizedAssertedGraph;
  Ok modules.

Definition is_nil (id : Uuid) : bool := forallb (fun b => bool_decide (b = x00)) id.

Definition validate_ontology_snapshot_binding (b : OntologySnapshotBinding) : result OnlineReasoningError unit :=
  _ ← fail_if (negb (sb_format_version b =? ONLINE_DIRECT_FORMAT_VERSION) || is_nil (sb_dataset_id b) || is_nil (sb_snapshot_id b)
               || bool_decide (asserted_modules b = [])
               || existsb (fun value => negb (lower_hex_sha256 value))
                    [sb_authorized_graph_set_sha256 b; sb_active_dataset_sha256 b; sb_datatype_policy_sha256 b; sb_owl_signature_sha256 b;
                     sb_owl_profile_qualification_sha256 b; sb_owl_consistency_qualification_sha256 b; synthetic_ontology_sha256 b])
              SnapshotBinding;
  _ ← fail_if (existsb (fun m => negb (is_asserted (module_graph_iri m))
                                  || negb (lower_hex_sha256 (module_content_sha256 m))) (asserted_modules b)
               || negb (windows2_all (fun x y => bool_decide (rlt (module_graph_iri x) (module_graph_iri y))) (asserted_modules b)))
              SnapshotBinding;
  fail_if (existsb (fun i => is_empty (import_ontology_iri i) || is_empty (version_iri i)
                             || bool_decide (import_ontology_iri i = version_iri i) || negb (lower_hex_sha256 (document_sha256 i))) (pinned_imports b)
           || negb (windows2_all (fun x y => bool_decide (rlt (import_ontology_iri x) (import_ontology_iri y))) (pinned_imports b)))
          PinnedImports.

(** ** Routes *)

Definition route_entailment (input : EntailmentRoutingInput) : EntailmentRoute :=
  match route_legality input with
  | Illegal => IllegalOwlDirect
  | Legal =>
      match semantic_index input with
      | CertifiedComplete => CertifiedSemanticIndex
      | _ => match finite_closure input with CertifiedComplete => CertifiedFiniteClosure | _ => ExactHermit end
      end
  end.

Section Reasoning.
Context `{Sha256} (available : nat).

(** The regime has one value and cannot differ. *)
Definition require_acceleration_equivalence (accelerated exact : DirectBgpResult) : result OnlineReasoningError unit :=
  accelerated_sha ← map_err (fun _ => CoverageMismatch) (direct_bgp_result_sha256 available accelerated);
  exact_sha ← map_err (fun _ => CoverageMismatch) (direct_bgp_result_sha256 available exact);
  fail_if (negb (bool_decide (br_dataset_id accelerated = br_dataset_id exact))
           || negb (bool_decide (br_snapshot_id accelerated = br_snapshot_id exact))
           || negb (bool_decide (br_query_sha256 accelerated = br_query_sha256 exact))
           || negb (bool_decide (br_bgp_sha256 accelerated = br_bgp_sha256 exact))
           || negb (bool_decide (br_active_dataset_sha256 accelerated = br_active_dataset_sha256 exact))
           || negb (bool_decide (br_authorized_graph_set_sha256 accelerated = br_authorized_graph_set_sha256 exact))
           || negb (bool_decide (accelerated_sha = exact_sha))) CoverageMismatch.

(** ** Plans *)

Context (encode_plan : DistributedReasonerPlan -> option (list byte)).

Definition with_plan_hash (p : DistributedReasonerPlan) (sha : string) : DistributedReasonerPlan :=
  {| plan_format_version := plan_format_version p; plan_dataset_id := plan_dataset_id p; plan_snapshot_id := plan_snapshot_id p;
     plan_query_sha256 := plan_query_sha256 p; plan_bgp_sha256 := plan_bgp_sha256 p; ontology_snapshot_sha256 := ontology_snapshot_sha256 p;
     candidate_binding_ceiling := candidate_binding_ceiling p; max_candidates_per_partition := max_candidates_per_partition p;
     partitions := partitions p; plan_sha256 := sha |}.

Definition plan_hash (p : DistributedReasonerPlan) : result OnlineReasoningError string :=
  bytes ← ok_or (encode_plan (with_plan_hash p "")) PartitionPlanInvalid;
  Ok (hex_encode (sha256 (as_bytes "ngkg-online-direct-reasoner-plan-v1" ++ [x00] ++ bytes))).

Definition build_distributed_reasoner_plan (dataset_id snapshot_id : Uuid) (query_sha256 bgp_sha256 snapshot_sha256 : string)
    (ceiling max_per_partition max_partitions : N) : result OnlineReasoningError DistributedReasonerPlan :=
  _ ← fail_if (is_nil dataset_id || is_nil snapshot_id || negb (lower_hex_sha256 query_sha256) || negb (lower_hex_sha256 bgp_sha256)
               || negb (lower_hex_sha256 snapshot_sha256) || (ceiling =? 0) || (max_per_partition =? 0) || (max_partitions =? 0))
              PartitionPlanInvalid;
  let count := (ceiling + max_per_partition - 1) / max_per_partition in
  _ ← fail_if (negb (fits U32_LIMIT count)) PartitionPlanInvalid;
  _ ← fail_if ((count =? 0) || (max_partitions <? count)) PartitionPlanInvalid;
  let plan := {| plan_format_version := ONLINE_DIRECT_FORMAT_VERSION; plan_dataset_id := dataset_id; plan_snapshot_id := snapshot_id;
                 plan_query_sha256 := query_sha256; plan_bgp_sha256 := bgp_sha256; ontology_snapshot_sha256 := snapshot_sha256;
                 candidate_binding_ceiling := ceiling; max_candidates_per_partition := max_per_partition;
                 partitions := (fun i => {| part_index := N.of_nat i; part_count := count |}) <$> seq 0 (N.to_nat count);
                 plan_sha256 := "" |} in
  sha ← plan_hash plan;
  Ok (with_plan_hash plan sha).

(** ** The barrier *)

(** The guard of the loop over the planned partitions. *)
Definition mismatched (plan : DistributedReasonerPlan) (first : DirectExactPartitionResult) (cursor : N)
    (expected : DirectExactPartition) (r : DirectExactPartitionResult) : bool :=
  negb (bool_decide (pr_dataset_id r = plan_dataset_id plan)) || negb (bool_decide (pr_snapshot_id r = plan_snapshot_id plan))
  || negb (bool_decide (pr_query_sha256 r = plan_query_sha256 plan)) || negb (bool_decide (pr_bgp_sha256 r = plan_bgp_sha256 plan))
  || negb (bool_decide (pr_partition r = expected)) || negb (bool_decide (pr_reasoner_name r = "HermiT"%string))
  || negb (bool_decide (pr_reasoner_version r = HERMIT_VERSION))
  || negb (pr_candidate_binding_count r =? pr_candidate_binding_count first)
  || negb (bool_decide (pr_candidate_space_sha256 r = pr_candidate_space_sha256 first))
  || negb (partition_start_ordinal r =? cursor).

Definition admit_partition_result (plan : DistributedReasonerPlan) (first : DirectExactPartitionResult) (st : N * N)
    (entry : DirectExactPartition * DirectExactPartitionResult) : result OnlineReasoningError (N * N) :=
  let '(cursor, checked) := st in
  let '(expected, r) := entry in
  _ ← map_err (fun _ => PartitionSet) (validate_direct_exact_partition_result r);
  _ ← fail_if (mismatched plan first cursor expected r) PartitionSet;
  checked ← checked_total PartitionSet checked (checked_candidate_count r);
  Ok (partition_end_ordinal_exclusive r, checked).

Definition require_complete_partition_set (plan : DistributedReasonerPlan) (results : list DirectExactPartitionResult) :
    result OnlineReasoningError CompletePartitionSet :=
  sha ← plan_hash plan;
  _ ← fail_if (negb (bool_decide (plan_sha256 plan = sha)) || negb (length results =? length (partitions plan))%nat) PartitionSet;
  let results := sort_by_key (fun r => part_index (pr_partition r)) results in
  first ← ok_or (head results) PartitionSet;
  st ← try_fold (admit_partition_result plan first) (0, 0) (zip (partitions plan) results);
  _ ← fail_if (negb (st.1 =? pr_candidate_binding_count first) || negb (st.2 =? pr_candidate_binding_count first)) PartitionSet;
  Ok {| set_plan_sha256 := plan_sha256 plan; set_candidate_space_sha256 := pr_candidate_space_sha256 first;
        set_candidate_binding_count := pr_candidate_binding_count first; set_checked_candidate_count := st.2; set_results := results |}.

Context (encode_request : DirectExactRequest -> option (list byte))
  (encode_result : DirectExactPartitionResult -> option (list byte))
  (encode_bindings : Bindings -> option string)
  (encode_manifest : DirectProofManifest -> option (list byte))
  (encode_certificate : DirectCertificate -> option (list byte))
  (decode_result : list byte -> option DirectExactPartitionResult).

Definition foreign_request (plan : DistributedReasonerPlan) (entry : DirectExactRequest * DirectExactPartition) : bool :=
  let '(r, p) := entry in
  negb (bool_decide (rq_dataset_id r = plan_dataset_id plan)) || negb (bool_decide (rq_snapshot_id r = plan_snapshot_id plan))
  || negb (bool_decide (rq_query_sha256 r = plan_query_sha256 plan)) || negb (bool_decide (rq_bgp_sha256 r = plan_bgp_sha256 plan))
  || negb (bool_decide (rq_aggregate_input_sha256 r = ontology_snapshot_sha256 plan)) || negb (bool_decide (rq_partition r = p)).

Definition complete_distributed_exact_bgp (plan : DistributedReasonerPlan) (requests : list DirectExactRequest)
    (results : list DirectExactPartitionResult) (bindings : DirectExactBindings) (legality : DirectBgpLegalityRecord)
    (ontology : DirectExactOntologyBundle) (adapter : DirectExactAdapter) (limits : DirectExactLimits) :
    result DirectExactError (DirectBgpResult * DirectCertificate * DirectProofManifest) :=
  complete ← map_err (fun _ => PartitionMismatch) (require_complete_partition_set plan results);
  _ ← fail_if (negb (length requests =? length (partitions plan))%nat || existsb (foreign_request plan) (zip requests (partitions plan)))
              PartitionMismatch;
  request_set ← direct_exact_request_set_sha256 encode_request requests;
  merge_partition_results available encode_result encode_bindings encode_manifest encode_certificate (set_results complete)
    bindings legality ontology adapter request_set limits.

(** ** Dispatch *)

(** What comes back for a request: nothing, or a status and the chunks of the
    body, of which one may fail. *)
Inductive Response := TransportError | Replied (success : bool) (body : list (option (list byte))).

Context (post : string -> DirectExactRequest -> nat -> nat -> Response).

Definition push_chunk (max_response_bytes : nat) (output : list byte) (chunk : option (list byte)) : option (list byte) :=
  chunk ← chunk;
  length' ← usize_checked_add (length output) (length chunk);
  if (max_response_bytes <? length')%nat then None else Some (output ++ chunk).

Definition read_body (max_response_bytes : nat) (body : list (option (list byte))) : option (list byte) :=
  foldl (fun output chunk => output ← output; push_chunk max_response_bytes output chunk) (Some []) body.

(** One attempt: the accepted result with the length of its text. *)
Definition accept_response (max_response_bytes : nat) (request : DirectExactRequest) (request_sha : string) (response : Response) :
    option (DirectExactPartitionResult * nat) :=
  match response with
  | Replied true body =>
      bytes ← read_body max_response_bytes body;
      r ← decode_result bytes;
      if is_ok (validate_direct_exact_partition_result r) && answers request request_sha r then Some (r, length bytes) else None
  | _ => None
  end.

Fixpoint drop_slashes (text : list byte) : list byte :=
  match text with
  | [] => []
  | b :: rest => if decide (b = SLASH) then drop_slashes rest else text
  end.

(** [base.trim_end_matches('/')]. *)
Definition trim_slashes (base : string) : list byte := reverse (drop_slashes (reverse (as_bytes base))).

Definition worker_url (worker_base_urls : list string) (ordinal attempt : nat) : string :=
  let base := nth ((ordinal + attempt) mod length worker_base_urls) worker_base_urls ""%string in
  String.string_of_list_byte (trim_slashes base ++ as_bytes "/v1/direct/partitions/execute").

Fixpoint attempts (worker_base_urls : list string) (max_response_bytes ordinal : nat) (request : DirectExactRequest) (request_sha : string)
    (attempt remaining : nat) : option (DirectExactPartitionResult * nat) :=
  match remaining with
  | O => None
  | S remaining =>
      match accept_response max_response_bytes request request_sha
              (post (worker_url worker_base_urls ordinal attempt) request ordinal attempt) with
      | Some accepted => Some accepted
      | None => attempts worker_base_urls max_response_bytes ordinal request request_sha (S attempt) remaining
      end
  end.

(** The end of one job: its result, and the total of the response bytes. *)
Definition finish_job (worker_base_urls : list string) (max_response_bytes max_attempts : nat)
    (st : nat * list DirectExactPartitionResult) (job : nat * DirectExactRequest) :
    result OnlineReasoningError (nat * list DirectExactPartitionResult) :=
  let '(total, results) := st in
  let '(ordinal, request) := job in
  bytes ← ok_or (encode_request request) WorkerResponse;
  accepted ← ok_or (attempts worker_base_urls max_response_bytes ordinal request (hex_encode (sha256 bytes)) 0 max_attempts) WorkerResponse;
  total ← ok_or (usize_checked_add total accepted.2) WorkerResponse;
  _ ← fail_if (max_response_bytes <? total)%nat WorkerResponse;
  Ok (total, results ++ [accepted.1]).

(** [order] is the order in which the jobs end. *)
Definition dispatch_exact_partitions_with_retry (worker_base_urls : list string) (bearer_token : string) (requests : list DirectExactRequest)
    (max_concurrency max_response_bytes max_attempts : nat) (order : list (nat * DirectExactRequest)) :
    result OnlineReasoningError (list DirectExactPartitionResult) :=
  _ ← fail_if (bool_decide (worker_base_urls = []) || is_empty bearer_token || (length requests =? 0)%nat
               || (max_concurrency =? 0)%nat || (max_response_bytes =? 0)%nat || (max_attempts =? 0)%nat) WorkerPool;
  st ← try_fold (finish_job worker_base_urls max_response_bytes max_attempts) (0%nat, []) order;
  Ok (sort_by_key (fun r => part_index (pr_partition r)) st.2).

Definition dispatch_exact_partitions (worker_base_urls : list string) (bearer_token : string) (requests : list DirectExactRequest)
    (max_concurrency max_response_bytes : nat) (order : list (nat * DirectExactRequest)) :=
  dispatch_exact_partitions_with_retry worker_base_urls bearer_token requests max_concurrency max_response_bytes 1 order.

End Reasoning.

(** ** Scaling *)

Definition ceiling_div (a b : N) : N := (a + b - 1) / b.

Definition desired_reasoner_replicas (p : ReasonerScalingPolicy) (o : ReasonerScalingObservation) : result OnlineReasoningError N :=
  _ ← fail_if ((reasoner_max_replicas p =? 0) || (reasoner_max_replicas p <? reasoner_min_replicas p) || (partitions_per_replica p =? 0)
               || (axioms_per_replica p =? 0) || (latency_target_milliseconds p =? 0) || (backlog_age_target_milliseconds p =? 0)
               || (100 <? memory_pressure_percent o)
               || ((reasoner_min_replicas p =? 0) && negb (durable_queue_qualified p && cold_start_slo_qualified p))) ScalingPolicy;
  if (queued_partitions o =? 0) && (estimated_axioms o =? 0) && (oldest_queue_age_milliseconds o =? 0) then Ok (reasoner_min_replicas p)
  else
    let queue := ceiling_div (queued_partitions o) (partitions_per_replica p) in
    let axioms := ceiling_div (estimated_axioms o) (axioms_per_replica p) in
    let latency := ceiling_div (p95_latency_milliseconds o) (latency_target_milliseconds p) in
    let age := ceiling_div (oldest_queue_age_milliseconds o) (backlog_age_target_milliseconds p) in
    let memory := if 80 <=? memory_pressure_percent o then 1 else 0 in
    let desired := N.max (N.max (N.max (N.max (N.max queue axioms) latency) age) memory) 1 in
    let desired := if fits U32_LIMIT desired then desired else U32_LIMIT - 1 in
    Ok (N.min (N.max desired (reasoner_min_replicas p)) (reasoner_max_replicas p)).

(** ** Selection of modules *)

(** The visible graph of a name: the last one of the list. *)
Definition visible_graph (visible : list AuthorizedGraph) (iri : string) : option AuthorizedGraph :=
  last (filter (fun g => graph_iri g = iri) visible).

Definition module_of (g : AuthorizedGraph) : AssertedOntologyModule :=
  {| module_graph_iri := graph_iri g; module_content_sha256 := graph_content_sha256 g |}.

(** The principal holds every label of the graph, and its digest is one. *)
Definition readable (principal : gset string) (g : AuthorizedGraph) : Prop :=
  authorization_labels g ⊆ principal /\ lower_hex_sha256 (graph_content_sha256 g) = true.

Lemma lookup_visible visible iri :
  foldl (fun m graph => <[graph_iri graph := graph]> m) (∅ : gmap string AuthorizedGraph) visible !! iri = visible_graph visible iri.
Proof.
  unfold visible_graph. induction visible as [|g visible IH] using rev_ind; [done|]. rewrite foldl_app, filter_app, filter_cons, filter_nil. cbn [foldl].
  destruct (decide (graph_iri g = iri)) as [<-|Hne].
  - rewrite lookup_insert_eq. by rewrite last_snoc.
  - rewrite lookup_insert_ne, app_nil_r by done. exact IH.
Qed.

Lemma visible_graph_iri visible iri g : visible_graph visible iri = Some g -> graph_iri g = iri.
Proof. intros Hl%last_Some_elem_of. by apply list_elem_of_filter in Hl as [? _]. Qed.

(** The graph of a requested name that the selection takes. *)
Definition taken (visible : list AuthorizedGraph) (iri : string) : list AssertedOntologyModule :=
  if is_asserted iri then option_list (module_of <$> visible_graph visible iri) else [].

Definition selectable (visible : list AuthorizedGraph) (principal : gset string) (iri : string) : Prop :=
  is_ok (ontology_graph_role iri) = true /\
  (is_asserted iri = true -> exists g, visible_graph visible iri = Some g /\ readable principal g).

Lemma select_module_ok visible principal modules iri modules' :
  select_module (foldl (fun m graph => <[graph_iri graph := graph]> m) ∅ visible) principal modules iri = Ok modules' <->
  selectable visible principal iri /\ modules' = modules ++ taken visible iri.
Proof.
  unfold select_module, selectable, taken, is_asserted. rewrite lookup_visible. destruct (ontology_graph_role iri) as [role|e]; cbn [mbind result_bind is_ok].
  2: { split; [done|by intros [[? _] _]]. }
  destruct role; (case_decide as Hd; [try done|try done]).
  2,3: rewrite app_nil_r; naive_solver.
  destruct (visible_graph visible iri) as [g|]; cbn [ok_or mbind result_bind fmap option_fmap option_map option_list].
  2: { split; [done|]. intros [[_ He] _]. destruct He as (g & ? & _); [done|congruence]. }
  rewrite fail_then, orb_false_iff, !negb_false_iff, bool_decide_eq_true. unfold readable. split.
  - intros [[? ?] [= <-]]. split; [split; [done|intros _; by exists g]|done].
  - intros [[_ He] ->]. destruct He as (g' & [= <-] & ? & ?); done.
Qed.

Lemma select_modules_ok visible principal iris : forall modules modules',
  try_fold (select_module (foldl (fun m graph => <[graph_iri graph := graph]> m) ∅ visible) principal) modules iris = Ok modules' <->
  Forall (selectable visible principal) iris /\ modules' = modules ++ (iris ≫= taken visible).
Proof.
  induction iris as [|iri iris IH]; intros modules modules'; cbn [try_fold mbind list_bind].
  { rewrite app_nil_r. split; [by intros [= <-]|by intros [_ ->]]. }
  rewrite result_bind_ok. setoid_rewrite IH. setoid_rewrite select_module_ok. rewrite Forall_cons. split.
  - intros (a & [? ->] & ? & ->). by rewrite <- app_assoc.
  - intros [[? ?] ->]. eexists. split; [by split|]. by rewrite <- app_assoc.
Qed.

Lemma taken_iri visible iri m : m ∈ taken visible iri -> module_graph_iri m = iri.
Proof.
  unfold taken. destruct (is_asserted iri); [|by intros ?%elem_of_nil]. destruct (visible_graph visible iri) as [g|] eqn:Hg; cbn; [|by intros ?%elem_of_nil].
  intros ->%list_elem_of_singleton. by apply visible_graph_iri in Hg.
Qed.

(** The names of the taken modules are a part of the requested names, in their order. *)
Lemma taken_ascending visible iris : StronglySorted rlt iris -> StronglySorted rlt (module_graph_iri <$> (iris ≫= taken visible)).
Proof.
  induction iris as [|iri iris IH]; intros Hs; [constructor|]. apply StronglySorted_inv in Hs as [Hs Hlt]. rewrite Forall_forall in Hlt.
  cbn [mbind list_bind]. rewrite fmap_app. apply StronglySorted_app_2; [|  |by apply IH].
  - intros x y (m & -> & Hm)%list_elem_of_fmap (m' & -> & Hm')%list_elem_of_fmap. apply taken_iri in Hm as ->.
    apply list_elem_of_bind in Hm' as (iri' & Hm' & Hin). apply taken_iri in Hm' as ->. by apply Hlt.
  - unfold taken. destruct (is_asserted iri), (visible_graph visible iri); cbn; repeat constructor.
Qed.

Lemma ascending_windows {A} (key : A -> string) l :
  StronglySorted rlt (key <$> l) -> windows2_all (fun a b => negb (bool_decide (key a = key b))) l = true.
Proof.
  intros Hs. apply windows2_all_Sorted, StronglySorted_Sorted. induction l as [|x l IH]; [constructor|].
  rewrite fmap_cons in Hs. apply StronglySorted_inv in Hs as [Hs Hx]. constructor; [by apply IH|]. rewrite Forall_fmap in Hx.
  eapply Forall_impl; [exact Hx|]. intros y Hy. cbn in Hy. apply negb_true_iff, bool_decide_eq_false. intros E. rewrite E in Hy. by apply rlt_irrefl in Hy.
Qed.

(** C25: the selection of asserted modules is exact and fails closed.  It
    succeeds only when every requested name follows the convention and every
    requested asserted graph is visible and readable by the principal; it then
    returns, in the order of their names, exactly the requested asserted
    graphs, and never a closure or provenance graph. *)
Theorem asserted_selection_is_exact (visible : list AuthorizedGraph) (requested principal : gset string) (modules : list AssertedOntologyModule) :
  select_authorized_asserted_modules visible requested principal = Ok modules <->
  (forall iri, iri ∈ requested -> selectable visible principal iri) /\ modules <> [] /\
  StronglySorted rlt (module_graph_iri <$> modules) /\
  (forall m, m ∈ modules <->
    exists g, graph_iri g ∈ requested /\ is_asserted (graph_iri g) = true /\ visible_graph visible (graph_iri g) = Some g /\ m = module_of g).
Proof.
  unfold select_authorized_asserted_modules. rewrite result_bind_ok. setoid_rewrite select_modules_ok. cbn [app].
  set (chosen := sorted_elements requested ≫= taken visible).
  assert (StronglySorted rlt (module_graph_iri <$> chosen)) as Hs by apply taken_ascending, sorted_elements_strict.
  assert (forall m, m ∈ chosen <-> exists g, graph_iri g ∈ requested /\ is_asserted (graph_iri g) = true /\
    visible_graph visible (graph_iri g) = Some g /\ m = module_of g) as Hin.
  { intros m. unfold chosen. rewrite list_elem_of_bind. setoid_rewrite elem_of_sorted_elements. unfold taken. split.
    - intros (iri & Hm & Hiri). destruct (is_asserted iri) eqn:Ha; [|by apply elem_of_nil in Hm].
      destruct (visible_graph visible iri) as [g|] eqn:Hg; [|by apply elem_of_nil in Hm]. apply list_elem_of_singleton in Hm.
      pose proof (visible_graph_iri _ _ _ Hg) as <-. by exists g.
    - intros (g & Hr & Ha & Hg & ->). exists (graph_iri g). rewrite Ha, Hg. split; [left|done]. }
  assert (Forall (selectable visible principal) (sorted_elements requested) <-> forall iri, iri ∈ requested -> selectable visible principal iri) as Hsel.
  { rewrite Forall_forall. by setoid_rewrite elem_of_sorted_elements. }
  rewrite <- Hsel. setoid_rewrite fail_then. setoid_rewrite orb_false_iff. setoid_rewrite bool_decide_eq_false. split.
  - intros (a & [Hf ->] & [Hne _] & [= <-]). rewrite (ascending_unique module_graph_iri chosen chosen) in * by done. done.
  - intros (Hf & Hne & Hms & Hmin). assert (modules = chosen) as ->.
    { apply (ascending_elements module_graph_iri); [done|done|]. intros m. by rewrite Hmin, Hin. }
    exists chosen. rewrite (ascending_unique module_graph_iri chosen chosen) by done. split; [done|]. split; [|done]. split; [done|].
    by rewrite ascending_windows.
Qed.

(** ** Acceleration *)

(** C26: an accelerated answer is admitted exactly when it is the exact one.
    The check passes only for answers that are equal but for the order of
    their solutions, unless the very bytes hashed for the two answers, or for a
    solution of each, differ and have one digest; and it passes for every two
    valid answers that are equal in this way. *)
Theorem acceleration_admits_equal_answers `{Sha256} (available : nat) (accelerated exact : DirectBgpResult) :
  machine_sized accelerated -> machine_sized exact ->
  (require_acceleration_equivalence available accelerated exact = Ok tt -> 
     same_answer accelerated exact \/ collide (result_preimage accelerated) (result_preimage exact) \/
     solutions_collide (solutions accelerated) (solutions exact)) /\
  (validate_direct_bgp_result available accelerated = Ok tt -> validate_direct_bgp_result available exact = Ok tt ->
   same_answer accelerated exact -> require_acceleration_equivalence available accelerated exact = Ok tt).
Proof.
  intros Ha Hb. unfold require_acceleration_equivalence, direct_bgp_result_sha256. split.
  - intros Hr. inv_ok Hr. inv_ok Hr. apply fail_if_ok in Hr. rewrite orb_false_iff, negb_false_iff, bool_decide_eq_true in Hr.
    destruct Hr as [_ E]. apply map_err_ok in Ha0, Ha1. inv_ok Ha0. inv_ok Ha1. injection Ha0 as <-. injection Ha1 as <-.
    apply hex_digest_inj in E as [E|Hcol]; [|by right; left]. destruct (same_preimage_answer _ _ Ha Hb E); tauto.
  - intros -> -> Hsame. cbn [map_err mbind result_bind]. rewrite (same_answer_preimage _ _ Hsame). destruct Hsame as [_ ->]. cbn.
    by rewrite !bool_decide_true.
Qed.

(** ** Replicas *)

Record sound_policy (p : ReasonerScalingPolicy) : Prop := {
  policy_range : 0 < reasoner_max_replicas p /\ reasoner_min_replicas p <= reasoner_max_replicas p;
  policy_divisors : 0 < partitions_per_replica p /\ 0 < axioms_per_replica p /\
    0 < latency_target_milliseconds p /\ 0 < backlog_age_target_milliseconds p;
  policy_zero : reasoner_min_replicas p = 0 -> durable_queue_qualified p = true /\ cold_start_slo_qualified p = true;
}.

Definition no_work (o : ReasonerScalingObservation) : Prop :=
  queued_partitions o = 0 /\ estimated_axioms o = 0 /\ oldest_queue_age_milliseconds o = 0.

Record heavier (o o' : ReasonerScalingObservation) : Prop := {
  heavier_queue : queued_partitions o <= queued_partitions o';
  heavier_axioms : estimated_axioms o <= estimated_axioms o';
  heavier_memory : memory_pressure_percent o <= memory_pressure_percent o';
  heavier_latency : p95_latency_milliseconds o <= p95_latency_milliseconds o';
  heavier_age : oldest_queue_age_milliseconds o <= oldest_queue_age_milliseconds o';
}.

(** The replicas the load asks for. *)
Definition workload (p : ReasonerScalingPolicy) (o : ReasonerScalingObservation) : N :=
  let memory := if 80 <=? memory_pressure_percent o then 1 else 0 in
  N.max (N.max (N.max (N.max (N.max (ceiling_div (queued_partitions o) (partitions_per_replica p))
    (ceiling_div (estimated_axioms o) (axioms_per_replica p))) (ceiling_div (p95_latency_milliseconds o) (latency_target_milliseconds p)))
    (ceiling_div (oldest_queue_age_milliseconds o) (backlog_age_target_milliseconds p))) memory) 1.

Lemma desired_ok p o n : desired_reasoner_replicas p o = Ok n <->
  sound_policy p /\ memory_pressure_percent o <= 100 /\
  n = if (queued_partitions o =? 0) && (estimated_axioms o =? 0) && (oldest_queue_age_milliseconds o =? 0) then reasoner_min_replicas p
      else N.min (N.max (N.min (workload p o) (U32_LIMIT - 1)) (reasoner_min_replicas p)) (reasoner_max_replicas p).
Proof.
  unfold desired_reasoner_replicas. cbv zeta. fold (workload p o). rewrite fail_then, !orb_false_iff, !N.eqb_neq, !N.ltb_ge.
  assert ((if fits U32_LIMIT (workload p o) then workload p o else U32_LIMIT - 1) = N.min (workload p o) (U32_LIMIT - 1)) as ->.
  { unfold fits. destruct (N.ltb_spec (workload p o) U32_LIMIT); lia. }
  assert (forall b : bool, forall x y : N, ((if b then Ok (E:=OnlineReasoningError) x else Ok y) = Ok n <-> n = if b then x else y)) as Hif.
  { intros [] ? ?; split; congruence. }
  rewrite Hif. rewrite andb_false_iff, N.eqb_neq, negb_false_iff, andb_true_iff. split.
  - intros [Hp ->]. destruct_and!. split; [|done]. split; [split; [lia|done]|split_and!; lia|]. intros. destruct_or!; done.
  - intros ([[? ?] (? & ? & ? & ?) Hz] & ? & ->). split; [|done]. split_and!; try lia.
    destruct (decide (reasoner_min_replicas p = 0)); [right; by apply Hz|by left].
Qed.

Lemma ceiling_div_mono a b d : 0 < d -> a <= b -> ceiling_div a d <= ceiling_div b d.
Proof. intros Hd Hab. unfold ceiling_div. apply N.Div0.div_le_mono. lia. Qed.

Lemma workload_mono p o o' : sound_policy p -> heavier o o' -> workload p o <= workload p o'.
Proof.
  intros [_ (? & ? & ? & ?) _] [? ? ? ? ?]. unfold workload. cbv zeta.
  assert ((if 80 <=? memory_pressure_percent o then 1 else 0) <= if 80 <=? memory_pressure_percent o' then 1 else 0).
  { destruct (N.leb_spec 80 (memory_pressure_percent o)), (N.leb_spec 80 (memory_pressure_percent o')); lia. }
  repeat apply N.max_le_compat; try done; by apply ceiling_div_mono.
Qed.

(** the number of reasoner replicas stays within the policy, reaches zero
    only for an idle queue under a policy qualified for it, and never falls
    when the load grows. *)
Theorem reasoner_replicas_follow_the_load (p : ReasonerScalingPolicy) (o o' : ReasonerScalingObservation) (n n' : N) :
  desired_reasoner_replicas p o = Ok n -> desired_reasoner_replicas p o' = Ok n' ->
  reasoner_min_replicas p <= n <= reasoner_max_replicas p /\
  (n = 0 -> no_work o /\ durable_queue_qualified p = true /\ cold_start_slo_qualified p = true) /\
  (heavier o o' -> n <= n').
Proof.
  intros (Hp & _ & ->)%desired_ok (_ & _ & ->)%desired_ok. pose proof Hp as [[Hmax Hmin] _ Hz].
  assert (1 <= workload p o) as Hw by (unfold workload; lia).
  assert (forall x, (queued_partitions x =? 0) && (estimated_axioms x =? 0) && (oldest_queue_age_milliseconds x =? 0) = true <-> no_work x) as Hidle.
  { intros x. unfold no_work. rewrite !andb_true_iff, !N.eqb_eq. tauto. }
  assert (U32_LIMIT = 4294967296) as HU by done. split_and!.
  - case_match; lia.
  - case_match; [lia|lia].
  - case_match eqn:Hb; [|lia]. intros E. apply Hidle in Hb. split; [done|by apply Hz].
  - intros Hh. pose proof (workload_mono _ _ _ Hp Hh) as Hm. case_match; case_match eqn:Hb; try lia.
    exfalso. apply Hidle in Hb as (? & ? & ?). destruct Hh. assert (no_work o) as Hn by (unfold no_work; lia). apply Hidle in Hn. congruence.
Qed.

(** ** Dispatch *)

Section Dispatch.
Context `{Sha256}.
Context (encode_request : DirectExactRequest -> option (list byte)) (decode_result : list byte -> option DirectExactPartitionResult)
  (post : string -> DirectExactRequest -> nat -> nat -> Response).
Context (urls : list string) (token : string) (requests : list DirectExactRequest) (max_concurrency max_bytes max_attempts : nat).

(** The first attempt of a job whose response is acceptable. *)
Definition job_accepts (job : nat * DirectExactRequest) (accepted : DirectExactPartitionResult * nat) : Prop :=
  exists bytes attempt, encode_request job.2 = Some bytes /\ (attempt < max_attempts)%nat /\
    let try k := accept_response decode_result max_bytes job.2 (hex_encode (sha256 bytes)) (post (worker_url urls job.1 k) job.2 job.1 k) in
    try attempt = Some accepted /\ forall k, (k < attempt)%nat -> try k = None.

Lemma attempts_ok ordinal request sha accepted : forall n start,
  attempts decode_result post urls max_bytes ordinal request sha start n = Some accepted <->
  exists k, (start <= k < start + n)%nat /\
    accept_response decode_result max_bytes request sha (post (worker_url urls ordinal k) request ordinal k) = Some accepted /\
    forall j, (start <= j < k)%nat -> accept_response decode_result max_bytes request sha (post (worker_url urls ordinal j) request ordinal j) = None.
Proof.
  induction n as [|n IH]; intros start; cbn [attempts]; [split; [done|intros (k & ? & _); lia]|].
  destruct (accept_response _ _ _ _ _) as [a|] eqn:Ha.
  - split.
    + intros [= <-]. exists start. split_and!; [lia|lia|done|]. intros; lia.
    + intros (k & Hk & Hacc & Hj). destruct (decide (k = start)) as [->|]; [congruence|].
      rewrite Hj in Ha; [done|lia].
  - rewrite IH. split; intros (k & Hk & Hacc & Hj); exists k; split_and!; try done; try lia.
    + intros j Hj'. destruct (decide (j = start)) as [->|]; [done|]. apply Hj. lia.
    + destruct (decide (k = start)) as [->|]; [congruence|lia].
    + intros j Hj'. apply Hj. lia.
Qed.

Lemma finish_job_ok total results job st :
  finish_job encode_request decode_result post urls max_bytes max_attempts (total, results) job = Ok st <->
  exists accepted, job_accepts job accepted /\ usize_checked_add total accepted.2 = Some st.1 /\ (st.1 <= max_bytes)%nat /\
    st.2 = results ++ [accepted.1].
Proof.
  destruct job as [ordinal request], st as [total' results']. cbn [finish_job].
  rewrite result_bind_ok. setoid_rewrite ok_or_ok. setoid_rewrite result_bind_ok. setoid_rewrite ok_or_ok. setoid_rewrite attempts_ok.
  setoid_rewrite result_bind_ok. setoid_rewrite ok_or_ok. setoid_rewrite fail_then. setoid_rewrite Nat.ltb_ge. unfold job_accepts. cbn. split.
  - intros (bytes & Hb & accepted & (k & Hk & Hacc & Hj) & t & Ht & Hle & [= <- <-]). exists accepted. split; [|done].
    exists bytes, k. split_and!; [done|lia|done|]. intros j Hj'. apply Hj. lia.
  - intros (accepted & (bytes & k & Hb & Hk & Hacc & Hj) & Ht & Hle & ->). exists bytes. split; [done|]. exists accepted. split.
    + exists k. split_and!; [lia|lia|done|]. intros j Hj'. apply Hj. lia.
    + exists total'. done.
Qed.

Context (fits_usize : N.of_nat max_bytes < U64_LIMIT).

Lemma finish_jobs_ok order : forall total results st, (total <= max_bytes)%nat ->
  try_fold (finish_job encode_request decode_result post urls max_bytes max_attempts) (total, results) order = Ok st <->
  exists accepted, Forall2 job_accepts order accepted /\ (total + sum_list (snd <$> accepted) <= max_bytes)%nat /\
    st = ((total + sum_list (snd <$> accepted))%nat, results ++ (fst <$> accepted)).
Proof using fits_usize.
  induction order as [|job order IH]; intros total results st Hle; cbn [try_fold].
  { split.
    - intros [= <-]. exists []. cbn. rewrite Nat.add_0_r, app_nil_r. split_and!; [constructor|done|done].
    - intros (accepted & ->%Forall2_nil_inv_l & _ & ->). cbn. by rewrite Nat.add_0_r, app_nil_r. }
  rewrite result_bind_ok. split.
  - intros ([t rs] & Hjob & Hrest). apply finish_job_ok in Hjob as (a & Ha & [Ht _]%usize_checked_add_some & Hle' & Hrs). cbn in Ht, Hle', Hrs. subst.
    apply IH in Hrest as (accepted & Hall & Hsum & ->); [|done]. exists (a :: accepted). rewrite !fmap_cons. cbn [sum_list_with sum_list id].
    split_and!; [by constructor|lia|]. rewrite <- app_assoc. by rewrite Nat.add_assoc.
  - intros (accepted & Hall & Hsum & ->). apply Forall2_cons_inv_l in Hall as (a & accepted' & Ha & Hall & ->). rewrite !fmap_cons in *. cbn [sum_list_with sum_list id] in *.
    exists ((total + a.2)%nat, results ++ [a.1]). split.
    + apply finish_job_ok. exists a. cbn. split_and!; [done| |lia|done]. apply usize_checked_add_some. split; [done|lia].
    + apply IH; [cbn in *; lia|]. exists accepted'. split_and!; [done|lia|]. rewrite <- app_assoc. by rewrite Nat.add_assoc.
Qed.

Lemma accept_response_ok request sha response r n : accept_response decode_result max_bytes request sha response = Some (r, n) ->
  validate_direct_exact_partition_result r = Ok tt /\ answers request sha r = true.
Proof.
  destruct response as [|[] body]; [done| |done]. cbn [accept_response]. intros (bytes & Hb & Hr)%bind_Some. apply bind_Some in Hr as (r' & _ & Hr).
  destruct (is_ok _ && _) eqn:Hv; [|done]. injection Hr as <- <-. apply andb_true_iff in Hv as [[[] Hv]%is_ok_true Ha]. done.
Qed.

Lemma job_partition job a : job_accepts job a -> pr_partition a.1 = rq_partition job.2.
Proof.
  intros (bytes & k & _ & _ & Hacc & _). destruct a as [r n]. apply accept_response_ok in Hacc as [_ Ha]. by eapply answers_partition.
Qed.

Definition request_index (r : DirectExactRequest) : N := part_index (rq_partition r).

(** C22: a dispatch returns exactly one accepted result for every request.  In
    whatever order its jobs end, it succeeds exactly when every request gets an
    acceptable response within its attempts and the accepted responses fit the
    byte limit together; the results are then the first acceptable responses,
    in the order of the partitions. *)
Theorem dispatch_is_exact_and_order_independent (order : list (nat * DirectExactRequest)) (results : list DirectExactPartitionResult) :
  urls <> [] -> token <> ""%string -> requests <> [] -> (0 < max_concurrency)%nat -> (0 < max_bytes)%nat -> (0 < max_attempts)%nat ->
  StronglySorted rlt (request_index <$> requests) ->
  order ≡ₚ enumerate requests ->
  dispatch_exact_partitions_with_retry encode_request decode_result post urls token requests max_concurrency max_bytes max_attempts order
    = Ok results <->
  exists accepted, Forall2 job_accepts (enumerate requests) accepted /\ (sum_list (snd <$> accepted) <= max_bytes)%nat /\
    results = fst <$> accepted.
Proof using fits_usize.
  intros Hurls Htoken Hreq Hconc Hmax Hatt Hsorted Horder. unfold dispatch_exact_partitions_with_retry. rewrite fail_then.
  assert (forall jobs accepted, Forall2 job_accepts jobs accepted ->
    (fun r => part_index (pr_partition r)) <$> (fst <$> accepted) = request_index <$> (snd <$> jobs)) as Hkeys.
  { intros jobs accepted. induction 1 as [|j a jobs accepted Hj Hall IH]; [done|]. rewrite !fmap_cons, IH. f_equal. unfold request_index. by rewrite (job_partition j a). }
  rewrite result_bind_ok. split.
  - intros [_ (st & Hst & [= <-])]. apply finish_jobs_ok in Hst as (accepted & Hall & Hsum & ->); [|lia].
    destruct (Permutation_Forall2 Horder Hall) as (accepted' & Hp & Hall'). exists accepted'. split_and!; [done| |].
    + cbn in Hsum. by rewrite <- Hp.
    + cbn. apply (ascending_unique (fun r => part_index (pr_partition r))); [by apply fmap_Permutation|]. by rewrite (Hkeys _ _ Hall'), snd_enumerate.
  - intros (accepted & Hall & Hsum & ->). symmetry in Horder. destruct (Permutation_Forall2 Horder Hall) as (accepted' & Hp & Hall').
    split.
    + rewrite !orb_false_iff, bool_decide_eq_false, !Nat.eqb_neq. split_and!; try lia; [done|by apply bool_decide_eq_false|by destruct requests].
    + eexists. split; [apply finish_jobs_ok; [lia|]; exists accepted'; split_and!; [done| |done]|].
      * by rewrite <- Hp.
      * cbn. f_equal. apply (ascending_unique (fun r => part_index (pr_partition r))); [by apply fmap_Permutation|]. by rewrite (Hkeys _ _ Hall), snd_enumerate.
Qed.

End Dispatch.

(** ** The barrier *)

Section Barrier.
Context `{Sha256} (encode_plan : DistributedReasonerPlan -> option (list byte)) (plan : DistributedReasonerPlan).

(** A valid result for a planned partition, wherever its range starts. *)
Definition admissible (first : DirectExactPartitionResult) (expected : DirectExactPartition) (r : DirectExactPartitionResult) : Prop :=
  validate_direct_exact_partition_result r = Ok tt /\ mismatched plan first (partition_start_ordinal r) expected r = false.

Lemma mismatched_ok first cursor expected r :
  mismatched plan first cursor expected r = false <->
  mismatched plan first (partition_start_ordinal r) expected r = false /\ partition_start_ordinal r = cursor.
Proof.
  unfold mismatched. rewrite N.eqb_refl. cbn [negb]. rewrite (orb_false_r). rewrite orb_false_iff, negb_false_iff, N.eqb_eq. done.
Qed.

Lemma admissible_partition first expected r : admissible first expected r -> pr_partition r = expected.
Proof. intros [_ Hm]. unfold mismatched in Hm. rewrite !orb_false_iff, !negb_false_iff, !bool_decide_eq_true in Hm. by destruct_and!. Qed.

Lemma admissible_keys first parts rs : Forall2 (admissible first) parts rs ->
  (fun r => part_index (pr_partition r)) <$> rs = part_index <$> parts.
Proof. induction 1 as [|e r es rs Hr Hall IH]; [done|]. rewrite !fmap_cons, IH. by rewrite (admissible_partition _ _ _ Hr). Qed.

Lemma admit_partitions_ok first parts : forall rs cursor checked st, length parts = length rs -> checked < U64_LIMIT ->
  try_fold (admit_partition_result plan first) (cursor, checked) (zip parts rs) = Ok st <->
  Forall2 (admissible first) parts rs /\ tiles cursor rs st.1 /\
  st.2 = checked + sum_of checked_candidate_count rs /\ st.2 < U64_LIMIT.
Proof.
  induction parts as [|expected parts IH]; intros [|r rs] cursor checked st Hlen Hc; try done; cbn [zip zip_with try_fold].
  { cbn. destruct st as [c k]; cbn. rewrite N.add_0_r. split; [intros [= <- <-]; by split_and!|by intros (_ & -> & -> & _)]. }
  rewrite result_bind_ok. unfold sum_of. cbn [foldr tiles]. fold (sum_of checked_candidate_count rs).
  assert (forall st1, admit_partition_result plan first (cursor, checked) (expected, r) = Ok st1 <->
    admissible first expected r /\ partition_start_ordinal r = cursor /\ checked + checked_candidate_count r < U64_LIMIT /\
    st1 = (partition_end_ordinal_exclusive r, checked + checked_candidate_count r)) as Hone.
  { intros st1. unfold admissible. cbn [admit_partition_result]. destruct (validate_direct_exact_partition_result r) as [[]|e]; cbn [map_err mbind result_bind].
    2: { split; [done|by intros ([? _] & _)]. }
    rewrite fail_then, mismatched_ok, result_bind_ok. unfold checked_total. setoid_rewrite ok_or_ok. setoid_rewrite checked_add_some. split.
    - intros ([? ?] & k & [-> ?] & [= <-]). done.
    - intros ([? ?] & ? & ? & ->). split; [done|]. by eexists. }
  setoid_rewrite Hone. rewrite Forall2_cons. split.
  - intros (st1 & (Ha & Hs & Hk & ->) & Hrest). apply IH in Hrest as (Hall & Ht & E & Hb); [|by injection Hlen|done]. split_and!; try done. lia.
  - intros ([Ha Hall] & [Hs Ht] & E & Hb). exists (partition_end_ordinal_exclusive r, checked + checked_candidate_count r).
    split; [split_and!; [done|done|lia|done]|]. apply IH; [by injection Hlen|lia|]. split_and!; [done|done|lia|done].
Qed.

Context (first : DirectExactPartitionResult) (rest : list DirectExactPartitionResult).

Definition complete_set : CompletePartitionSet :=
  {| set_plan_sha256 := plan_sha256 plan; set_candidate_space_sha256 := pr_candidate_space_sha256 first;
     set_candidate_binding_count := pr_candidate_binding_count first; set_checked_candidate_count := pr_candidate_binding_count first;
     set_results := first :: rest |}.

(** One valid result for every planned partition, in its order, whose ranges
    follow one another from zero to the reported number of candidates. *)
Record complete_results : Prop := {
  complete_admissible : Forall2 (admissible first) (partitions plan) (first :: rest);
  complete_tiles : tiles 0 (first :: rest) (pr_candidate_binding_count first);
  complete_bound : pr_candidate_binding_count first < U64_LIMIT;
}.

Lemma complete_results_ok : complete_results -> Forall partition_ok (first :: rest).
Proof using Type.
  intros [Hall _ _]. apply Forall_forall. intros r (i & Hi)%list_elem_of_lookup_1.
  destruct (Forall2_lookup_r _ _ _ _ _ Hall Hi) as (e & _ & [Hv _]). by apply validate_partition_ok.
Qed.

Lemma barrier_passes results : plan_hash encode_plan plan = Ok (plan_sha256 plan) -> StronglySorted rlt (part_index <$> partitions plan) ->
  results ≡ₚ first :: rest -> complete_results -> require_complete_partition_set encode_plan plan results = Ok complete_set.
Proof using Type.
  intros Hhash Hsorted Hperm Hc. pose proof (complete_results_ok Hc) as Hok. destruct Hc as [Hall Ht Hb].
  unfold require_complete_partition_set. rewrite Hhash. cbn [mbind result_bind].
  rewrite bool_decide_true, Hperm, <- (Forall2_length _ _ _ Hall), Nat.eqb_refl by done. cbn [negb orb fail_if mbind result_bind].
  rewrite (ascending_unique (fun r => part_index (pr_partition r)) results (first :: rest)); [|done|by rewrite (admissible_keys _ _ _ Hall)].
  cbn [head ok_or mbind result_bind].
  assert (try_fold (admit_partition_result plan first) (0, 0) (zip (partitions plan) (first :: rest))
    = Ok (pr_candidate_binding_count first, pr_candidate_binding_count first)) as ->; [|cbn; by rewrite !N.eqb_refl].
  apply admit_partitions_ok; [by apply Forall2_length in Hall|done|]. split_and!; [done|done| |done].
  rewrite (tiles_checked _ _ _ Hok Ht). cbn [snd]. lia.
Qed.

End Barrier.

Lemma barrier_complete `{Sha256} encode_plan plan results set : require_complete_partition_set encode_plan plan results = Ok set ->
  exists first rest, results ≡ₚ first :: rest /\ complete_results plan first rest /\ set = complete_set plan first rest.
Proof.
  unfold require_complete_partition_set. intros Hset. inv_ok Hset. apply fail_then in Hset as [Hlen Hset]. inv_ok Hset. inv_ok Hset.
  apply fail_then in Hset as [Hst [= <-]]. rewrite orb_false_iff, !negb_false_iff, Nat.eqb_eq in Hlen. destruct Hlen as [_ Hlen].
  rewrite orb_false_iff, !negb_false_iff, !N.eqb_eq in Hst. destruct Hst as [Hc Hk].
  destruct a1 as [cursor checked]. cbn in Hc, Hk. subst. apply ok_or_ok in Ha0.
  pose proof (sort_by_key_perm (fun r => part_index (pr_partition r)) results) as Hp. set (sorted := sort_by_key _ results) in *.
  apply admit_partitions_ok in Ha1 as (Hall & Ht & _ & Hb); [|by rewrite Hp|done].
  destruct sorted as [|first rest]; [done|]. injection Ha0 as ->. exists a0, rest. split_and!; [by rewrite Hp|done|done].
Qed.

(** the barrier admits exactly the complete sets.  For a plan with its own
    digest, results in any order are admitted exactly when they are one valid
    result for every planned partition, by the pinned reasoner, whose ranges
    follow one another from zero to the number of candidates they all report;
    a missing, repeated or foreign result is refused. *)
Theorem barrier_admits_complete_sets `{Sha256} (encode_plan : DistributedReasonerPlan -> option (list byte)) (plan : DistributedReasonerPlan)
    (results : list DirectExactPartitionResult) (set : CompletePartitionSet) :
  plan_hash encode_plan plan = Ok (plan_sha256 plan) ->
  StronglySorted rlt (part_index <$> partitions plan) ->
  require_complete_partition_set encode_plan plan results = Ok set <->
  exists first rest, results ≡ₚ first :: rest /\ complete_results plan first rest /\ set = complete_set plan first rest.
Proof.
  intros Hhash Hsorted. split; [apply barrier_complete|]. intros (first & rest & Hp & Hc & ->). by apply barrier_passes.
Qed.

(** ** Distributed answers *)

Section Distributed.
Context `{Sha256} (available : nat).
Context (encode_plan : DistributedReasonerPlan -> option (list byte))
  (encode_request : DirectExactRequest -> option (list byte))
  (encode_result : DirectExactPartitionResult -> option (list byte))
  (encode_bindings : Bindings -> option string)
  (encode_manifest : DirectProofManifest -> option (list byte))
  (encode_certificate : DirectCertificate -> option (list byte))
  (decode_result : list byte -> option DirectExactPartitionResult).
Context (plan : DistributedReasonerPlan) (requests : list DirectExactRequest) (bindings : DirectExactBindings)
  (legality : DirectBgpLegalityRecord) (ontology : DirectExactOntologyBundle) (adapter : DirectExactAdapter) (limits : DirectExactLimits).

Abbreviation complete results := (complete_distributed_exact_bgp available encode_plan encode_request encode_result encode_bindings encode_manifest
  encode_certificate plan requests results bindings legality ontology adapter limits).
Abbreviation merge results request_set := (merge_partition_results available encode_result encode_bindings encode_manifest encode_certificate results
  bindings legality ontology adapter request_set limits).

(** The requests are those of the plan, in its order. *)
Definition planned : Prop :=
  partitions plan = rq_partition <$> requests /\ Forall (fun r => foreign_request plan (r, rq_partition r) = false) requests.

Lemma planned_not_foreign : planned ->
  negb (length requests =? length (partitions plan))%nat || existsb (foreign_request plan) (zip requests (partitions plan)) = false.
Proof using Type.
  intros [-> Hf]. rewrite length_fmap, Nat.eqb_refl. cbn [negb orb]. apply existsb_none. intros [r p] Hin.
  assert (zip requests (rq_partition <$> requests) = (fun r => (r, rq_partition r)) <$> requests) as E.
  { clear. induction requests as [|r l IH]; [done|]. cbn. by f_equal. }
  rewrite E in Hin. apply list_elem_of_fmap in Hin as (r' & [= -> ->] & Hr). rewrite Forall_forall in Hf. by apply Hf.
Qed.

Lemma complete_inv results out : complete results = Ok out ->
  exists set request_set, require_complete_partition_set encode_plan plan results = Ok set /\
    direct_exact_request_set_sha256 encode_request requests = Ok request_set /\ merge (set_results set) request_set = Ok out.
Proof using Type.
  unfold complete_distributed_exact_bgp. intros Hr. inv_ok Hr. apply map_err_ok in Ha. apply fail_then in Hr as [_ Hr]. inv_ok Hr. by exists a, a0.
Qed.

(** C10: a distributed answer is exact.  Whatever the workers, their order and
    their failures: when every result handed to the barrier says exactly which
    candidates of its range are entailed, an answer that passes the barrier and
    the merge is the bag of the entailed candidates of the whole space, even
    for invalid, repeated or missing results, which never pass. *)
Theorem distributed_answer_is_the_entailed_bag (entails : N -> bool) (candidate : N -> Bindings) (results : list DirectExactPartitionResult)
    (answer : DirectBgpResult) (certificate : DirectCertificate) (manifest : DirectProofManifest) :
  (forall a b k, encode_bindings a = Some k -> encode_bindings b = Some k -> a = b) ->
  (forall r, r ∈ results -> validate_direct_exact_partition_result r = Ok tt -> truthful entails candidate r) ->
  complete_distributed_exact_bgp available encode_plan encode_request encode_result encode_bindings encode_manifest encode_certificate
    plan requests results bindings legality ontology adapter limits = Ok (answer, certificate, manifest) ->
  entailed_bag entails candidate answer certificate manifest.
Proof.
  intros Hinj Htrue (set & request_set & Hset & _ & Hmerge)%complete_inv.
  apply barrier_complete in Hset as (first & rest & Hp & Hc & ->). pose proof (complete_results_ok _ _ _ Hc) as Hok.
  eapply merged_answer_is_the_entailed_bag; [exact Hinj|exact Hok| |exact Hmerge]. destruct Hc as [Hall _ _].
  apply Forall_forall. intros r Hr. apply Htrue; [by rewrite Hp|]. apply list_elem_of_lookup_1 in Hr as (i & Hi).
  destruct (Forall2_lookup_r _ _ _ _ _ Hall Hi) as (e & _ & [Hv _]). done.
Qed.

Context (output_path : DirectExactBindings -> string -> N -> string) (hermit : list byte -> option (list byte))
  (template : result string DirectExactBgpTemplate).
Context (post : string -> DirectExactRequest -> nat -> nat -> Response).
Context (urls : list string) (token : string) (max_concurrency max_bytes max_attempts : nat).

(** A worker runs the same reasoner: what it has accepted is what a local run
    of the request gives. *)
Definition workers_agree : Prop := forall request bytes url ordinal attempt r n,
  encode_request request = Some bytes ->
  accept_response decode_result max_bytes request (hex_encode (sha256 bytes)) (post url request ordinal attempt) = Some (r, n) ->
  run_partition decode_result hermit request bytes = Ok r.

Lemma dispatched_jobs order results : N.of_nat max_bytes < U64_LIMIT ->
  StronglySorted rlt (request_index <$> requests) -> order ≡ₚ enumerate requests -> workers_agree ->
  dispatch_exact_partitions_with_retry encode_request decode_result post urls token requests max_concurrency max_bytes max_attempts order
    = Ok results ->
  Forall2 (executed encode_request decode_result hermit) requests results.
Proof.
  intros Hmax Hsorted Horder Hagree Hd. unfold dispatch_exact_partitions_with_retry in Hd. apply fail_then in Hd as [_ Hd]. inv_ok Hd.
  apply finish_jobs_ok in Ha as (accepted & Hall & _ & ->); [|done|lia]. injection Hd as <-. cbn [snd app].
  destruct (Permutation_Forall2 Horder Hall) as (accepted' & Hp & Hall').
  assert (Forall2 (executed encode_request decode_result hermit) (snd <$> enumerate requests) (fst <$> accepted')) as Hex.
  { clear -Hall' Hagree. induction Hall' as [|job [r n] jobs rest Hjob Hall IH]; [constructor|]. rewrite !fmap_cons. constructor; [|done].
    destruct Hjob as (bytes & k & Hb & _ & Hacc & _). exists bytes. split; [done|]. by eapply Hagree. }
  rewrite snd_enumerate in Hex.
  rewrite (ascending_unique (fun r => part_index (pr_partition r)) _ (fst <$> accepted')); [done|by apply fmap_Permutation|].
  assert ((fun r => part_index (pr_partition r)) <$> (fst <$> accepted') = request_index <$> requests) as ->; [|done].
  clear -Hex. induction Hex as [|r res rs ress Hr Hall IH]; [done|]. rewrite !fmap_cons, IH. f_equal. unfold request_index.
  by rewrite (executed_partition _ _ _ _ _ Hr).
Qed.

Lemma executed_functional rs : forall xs ys, Forall2 (executed encode_request decode_result hermit) rs xs ->
  Forall2 (executed encode_request decode_result hermit) rs ys -> xs = ys.
Proof using Type.
  induction rs as [|r rs IH]; intros xs ys Hx Hy.
  - apply Forall2_nil_inv_l in Hx as ->, Hy as ->. done.
  - apply Forall2_cons_inv_l in Hx as (x & xs' & (bx & Hbx & Hx) & Hxs & ->), Hy as (y & ys' & (by' & Hby & Hy) & Hys & ->).
    f_equal; [congruence|by apply IH].
Qed.

(** A local answer of the pinned reasoner is complete for the plan. *)
Lemma executed_complete results request_set out : planned -> exact_reasoner_version adapter = HERMIT_VERSION ->
  Forall2 (executed encode_request decode_result hermit) requests results -> merge results request_set = Ok out ->
  exists first rest, results = first :: rest /\ complete_results plan first rest.
Proof using Type.
  intros [Hparts Hforeign] Hversion Hex Hmerge. destruct (merge_admits _ _ _ _ _ _ _ _ _ _ _ _ _ Hmerge) as (first & Hfirst & Hdis & Ht & Hb).
  destruct results as [|first' rest]; [done|]. injection Hfirst as ->. exists first, rest. split; [done|]. split; [|done|done].
  rewrite Hparts. apply Forall2_fmap_l. apply Forall2_same_length_lookup_2; [by eapply Forall2_length|]. intros i request r Hi Hr.
  destruct (Forall2_lookup_lr _ _ _ _ _ _ Hex Hi Hr) as (bytes & _ & [Hv Ha]%run_partition_ok). split; [done|].
  assert (disagrees adapter first r = false) as Hd by (apply Hdis; by eapply list_elem_of_lookup_2).
  rewrite Forall_forall in Hforeign. assert (foreign_request plan (request, rq_partition request) = false) as Hf by (apply Hforeign; by eapply list_elem_of_lookup_2).
  unfold disagrees, answers, foreign_request in *. unfold mismatched.
  rewrite !andb_true_iff, !bool_decide_eq_true in Ha. rewrite !orb_false_iff, !negb_false_iff, !bool_decide_eq_true, !N.eqb_eq in Hd.
  rewrite !orb_false_iff, !negb_false_iff, !bool_decide_eq_true in Hf. rewrite !orb_false_iff, !negb_false_iff, !bool_decide_eq_true, !N.eqb_eq.
  destruct_and!. split_and!; congruence.
Qed.

(** C11: distribution is transparent.  When a local execution succeeds and the
    workers run the same reasoner, a distributed execution of the same requests
    gives the same answer, certificate and manifest, in whatever order its jobs
    end and however often they are retried. *)
Theorem distribution_is_transparent (prepared : PreparedDirectExactBgp) (order : list (nat * DirectExactRequest))
    (results : list DirectExactPartitionResult) (out : DirectBgpResult * DirectCertificate * DirectProofManifest) :
  prepare_exact_direct_bgp_requests encode_request output_path template legality bindings ontology limits = Ok prepared ->
  requests = prepared_requests prepared ->
  execute_exact_direct_bgp available encode_request encode_result encode_bindings encode_manifest encode_certificate decode_result output_path
    hermit template legality bindings ontology adapter limits = Ok out ->
  planned -> plan_hash encode_plan plan = Ok (plan_sha256 plan) -> exact_reasoner_version adapter = HERMIT_VERSION ->
  workers_agree -> N.of_nat max_bytes < U64_LIMIT -> order ≡ₚ enumerate requests ->
  dispatch_exact_partitions_with_retry encode_request decode_result post urls token requests max_concurrency max_bytes max_attempts order
    = Ok results ->
  complete results = Ok out.
Proof.
  intros Hprep Hreq Hlocal Hplan Hhash Hversion Hagree Hmax Horder Hdispatch.
  pose proof (prepared_ascending _ _ _ _ _ _ _ _ Hprep) as Hsorted. rewrite <- Hreq in Hsorted.
  apply execution_ok in Hlocal as (prepared' & results' & Hprep' & Hex & Hmerge). assert (prepared' = prepared) as -> by congruence. rewrite <- Hreq in Hex.
  pose proof (dispatched_jobs _ _ Hmax Hsorted Horder Hagree Hdispatch) as Hex'. rewrite (executed_functional _ _ _ Hex' Hex). clear Hex' Hdispatch.
  destruct (executed_complete _ _ _ Hplan Hversion Hex Hmerge) as (first & rest & -> & Hc).
  unfold complete_distributed_exact_bgp. rewrite (barrier_passes encode_plan plan first rest); [|done| |done|done].
  - cbn [map_err mbind result_bind]. rewrite (planned_not_foreign Hplan). cbn [fail_if mbind result_bind].
    assert (direct_exact_request_set_sha256 encode_request requests = Ok (request_set_sha256 prepared)) as ->.
    { rewrite Hreq. by eapply prepared_request_set. }
    exact Hmerge.
  - destruct Hplan as [-> _]. rewrite <- list_fmap_compose. exact Hsorted.
Qed.

End Distributed.

(** ** A small deployment

    The two partitions of the small space, planned, sent to one worker that
    drops the first attempt of every job, and merged. *)

Definition plan_text (_ : DistributedReasonerPlan) : option (list byte) := Some [x05].

Definition sample_plan : DistributedReasonerPlan :=
  match build_distributed_reasoner_plan (H:=suffix_digest) plan_text sample_uuid sample_uuid hash_a hash_b hash_a 3 2 8 with
  | Ok plan => plan
  | Err _ => Build_DistributedReasonerPlan 0 [] [] "" "" "" 0 0 [] ""
  end.

Definition sample_prepared : PreparedDirectExactBgp :=
  match prepare_exact_direct_bgp_requests (H:=suffix_digest) request_text sample_path (Ok sample_template) sample_legality sample_exact_bindings
          sample_ontology sample_limits with
  | Ok prepared => prepared
  | Err _ => {| prepared_requests := []; request_set_sha256 := "" |}
  end.

Definition sample_requests : list DirectExactRequest := prepared_requests sample_prepared.

Definition sample_post (_ : string) (request : DirectExactRequest) (_ attempt : nat) : Response :=
  match attempt with
  | O => TransportError
  | _ => Replied true [Some []; Some [byte_of_N (part_index (rq_partition request))]]
  end.

Definition sample_complete (results : list DirectExactPartitionResult) :=
  complete_distributed_exact_bgp (H:=suffix_digest) 4 plan_text request_text result_text binding_text (fun _ => Some []) (fun _ => Some [])
    sample_plan sample_requests results sample_exact_bindings sample_legality sample_ontology sample_adapter sample_limits.

Definition sample_dispatch (order : list (nat * DirectExactRequest)) :=
  dispatch_exact_partitions_with_retry (H:=suffix_digest) request_text read_result sample_post ["http://w/"%string] "token" sample_requests 2 8 3 order.

Lemma sample_workers_agree : workers_agree (H:=suffix_digest) request_text read_result Some sample_post 8.
Proof.
  intros request bytes url ordinal [|attempt] r n [= <-] Ha; [done|]. cbn [sample_post accept_response] in Ha.
  replace (read_body 8 _) with (Some [byte_of_N (part_index (rq_partition request))]) in Ha by done. cbn [mbind option_bind] in Ha.
  apply bind_Some in Ha as (r' & Hr & Ha). destruct (is_ok _ && _) eqn:Hv; [|done]. injection Ha as <- _.
  apply andb_true_iff in Hv as [[[] Hv]%is_ok_true Han]. unfold run_partition. cbn [ok_or mbind result_bind]. rewrite Hr. cbn [ok_or mbind result_bind].
  rewrite Hv. cbn [map_err mbind result_bind]. by rewrite Han.
Qed.

Lemma sample_requests_ascend : StronglySorted rlt (request_index <$> sample_requests).
Proof. vm_compute. repeat constructor. Qed.

Lemma sample_planned : planned sample_plan sample_requests.
Proof.
  split; [vm_compute; reflexivity|]. apply Forall_forall. intros r Hr%list_elem_of_In.
  assert (forallb (fun r => negb (foreign_request sample_plan (r, rq_partition r))) sample_requests = true) as Hf by (vm_compute; reflexivity).
  rewrite forallb_forall in Hf. by apply negb_true_iff, Hf.
Qed.

Lemma distribution_is_transparent_witness :
  sample_dispatch (rev (enumerate sample_requests)) = Ok sample_results /\
  exists out, sample_execution = Ok out /\ sample_complete sample_results = Ok out.
Proof.
  assert (is_ok sample_execution = true) as [out Hout]%is_ok_true by (vm_compute; reflexivity).
  assert (sample_dispatch (rev (enumerate sample_requests)) = Ok sample_results) as Hd by (vm_compute; reflexivity).
  split; [exact Hd|]. exists out. split; [exact Hout|].
  apply (distribution_is_transparent (H:=suffix_digest) 4 plan_text request_text result_text binding_text (fun _ => Some []) (fun _ => Some [])
    read_result sample_plan sample_requests sample_exact_bindings sample_legality sample_ontology sample_adapter sample_limits sample_path Some
    (Ok sample_template) sample_post ["http://w/"%string] "token" 2 8 3 sample_prepared (rev (enumerate sample_requests)) sample_results out).
  - vm_compute. reflexivity.
  - reflexivity.
  - exact Hout.
  - exact sample_planned.
  - vm_compute. reflexivity.
  - reflexivity.
  - exact sample_workers_agree.
  - vm_compute. reflexivity.
  - symmetry. apply Permutation_rev.
  - exact Hd.
Defined.

Lemma dispatch_is_exact_and_order_independent_witness :
  exists accepted, Forall2 (job_accepts (H:=suffix_digest) request_text read_result sample_post ["http://w/"%string] 8 3) (enumerate sample_requests) accepted /\
    (sum_list (snd <$> accepted) <= 8)%nat /\ sample_results = fst <$> accepted.
Proof.
  apply (dispatch_is_exact_and_order_independent (H:=suffix_digest) request_text read_result sample_post ["http://w/"%string] "token" sample_requests
    2 8 3 ltac:(vm_compute; reflexivity) (rev (enumerate sample_requests)) sample_results); try discriminate; try lia.
  - exact sample_requests_ascend.
  - symmetry. apply Permutation_rev.
  - vm_compute. reflexivity.
Defined.

Lemma distributed_answer_is_the_entailed_bag_witness : exists answer certificate manifest,
  sample_complete (rev sample_results) = Ok (answer, certificate, manifest) /\
  entailed_bag sample_entails sample_candidate answer certificate manifest.
Proof.
  assert (is_ok (sample_complete (rev sample_results)) = true) as [[[answer certificate] manifest] Hout]%is_ok_true by (vm_compute; reflexivity).
  exists answer, certificate, manifest. split; [exact Hout|].
  apply (distributed_answer_is_the_entailed_bag (H:=suffix_digest) 4 plan_text request_text result_text binding_text (fun _ => Some [])
    (fun _ => Some []) sample_plan sample_requests sample_exact_bindings sample_legality sample_ontology sample_adapter sample_limits
    sample_entails sample_candidate (rev sample_results)).
  - exact binding_text_inj.
  - intros r Hr _. apply sample_results_truthful. by apply elem_of_reverse.
  - exact Hout.
Defined.

(** Two rows of an answer, in both orders. *)
Definition sample_rows (sols : list DirectBgpSolution) : DirectBgpResult := bgp_result sample_exact_bindings sample_legality 3 3 sols.

Lemma acceleration_admits_equal_answers_witness :
  let a := {| solution_bindings := likes_a; multiplicity := 2 |} in
  let b := {| solution_bindings := likes_b; multiplicity := 1 |} in
  require_acceleration_equivalence (H:=suffix_digest) 4 (sample_rows [a; b]) (sample_rows [b; a]) = Ok tt /\
  is_ok (require_acceleration_equivalence (H:=suffix_digest) 4 (sample_rows [a]) (sample_rows [b])) = false.
Proof.
  intros a b. split; [|vm_compute; reflexivity].
  assert (forall sols, Forall (fun s => s = a \/ s = b) sols -> (length sols <= 2)%nat -> machine_sized (sample_rows sols)) as Hsized.
  { intros sols Hs Hl. split; [done|done| |done| |done| |done].
    - cbn. repeat constructor.
    - split; [done|]. repeat constructor.
    - change (solutions (sample_rows sols)) with sols. assert (2 < U64_LIMIT) by done. split; [lia|]. eapply Forall_impl; [exact Hs|]. intros s [-> | ->]; (split; [|done]); (split; [done|]); by apply map_Forall_singleton. }
  apply (acceleration_admits_equal_answers (H:=suffix_digest) 4 (sample_rows [a; b]) (sample_rows [b; a])).
  - apply Hsized; [|done]. constructor; [by left|]. constructor; [by right|constructor].
  - apply Hsized; [|done]. constructor; [by right|]. constructor; [by left|constructor].
  - vm_compute. reflexivity.
  - vm_compute. reflexivity.
  - split; [cbn; apply Permutation_swap|reflexivity].
Defined.

Lemma reasoner_replicas_follow_the_load_witness :
  let p := {| reasoner_min_replicas := 0; reasoner_max_replicas := 20; partitions_per_replica := 2; axioms_per_replica := 500000;
              latency_target_milliseconds := 5000; backlog_age_target_milliseconds := 2000; durable_queue_qualified := true;
              cold_start_slo_qualified := true |} in
  let o := {| queued_partitions := 0; estimated_axioms := 0; memory_pressure_percent := 0; p95_latency_milliseconds := 0;
              oldest_queue_age_milliseconds := 0 |} in
  let o' := {| queued_partitions := 13; estimated_axioms := 2000000; memory_pressure_percent := 82; p95_latency_milliseconds := 11000;
               oldest_queue_age_milliseconds := 4500 |} in
  reasoner_min_replicas p <= 0 <= reasoner_max_replicas p /\
  (0 = 0 -> no_work o /\ durable_queue_qualified p = true /\ cold_start_slo_qualified p = true) /\ (heavier o o' -> 0 <= 7).
Proof. intros p o o'. apply (reasoner_replicas_follow_the_load p o o' 0 7); vm_compute; reflexivity. Defined.
