(* ===== verification/ExactAlgebra.v ===== *)
(** * Substitution of exact answers into SPARQL algebra

    Models src/crates/ngkg-online-reasoning/src/algebra.rs: every basic graph
    pattern of a query, also below [EXISTS] but not below [SERVICE], is
    replaced by a [VALUES] table with the rows of its exact answer, in the
    depth-first order of the answers.  The answers come in the order in which
    collect_bgps (src/crates/ngkg-owl-direct/src/lib.rs) has numbered the
    patterns; the last part models it and compares the two orders.

    The algebra comes from the spargebra crate: its names, literals, paths and
    constructors are a parameter ([Spargebra]); the inductive types have the
    constructors the code matches on. *)

From Stdlib Require Import Strings.Byte Strings.String.
From S2P Require Import Prelude Words Ordered Digest Runtime DirectTypes ExactReasoner.

Local Open Scope nat_scope.

Class Spargebra := {
  NamedNode : Type;
  Literal : Type;
  Variable_ : Type;
  TriplePattern : Type;
  PathPattern : Type;
  Function_ : Type;
  AggregateFunction : Type;
  QueryDataset : Type;
  BaseIri : Type;
  variable_new : string -> option Variable_;
  named_node_new : string -> option NamedNode;
  new_language_tagged_literal : string -> string -> option Literal;
  new_typed_literal : string -> NamedNode -> Literal;
  node_as_str : NamedNode -> string;
  variable_as_str : Variable_ -> string;
}.

Inductive BinaryOperator :=
  Or_ | And_ | Equal | SameTerm | Greater | GreaterOrEqual | Less | LessOrEqual | Add | Subtract | Multiply | Divide.
Inductive UnaryOperator := UnaryPlus | UnaryMinus | Not_.

Section Algebra.
Context `{Spargebra}.

Inductive GroundTerm := GroundNamedNode (n : NamedNode) | GroundLiteral (l : Literal).

Inductive NamedNodePattern := NodeName (n : NamedNode) | VariableName (v : Variable_).

(** The binary operators of expressions, which the code treats alike, are one
    constructor here, and so are the unary ones. *)
Inductive GraphPattern :=
  | Bgp (patterns : list TriplePattern)
  | Path (path : PathPattern)
  | Join (left right : GraphPattern)
  | LeftJoin (left right : GraphPattern) (expression : option Expression)
  | Lateral (left right : GraphPattern)
  | Filter (expr : Expression) (inner : GraphPattern)
  | Union (left right : GraphPattern)
  | Graph (name : NamedNodePattern) (inner : GraphPattern)
  | Extend (inner : GraphPattern) (variable : Variable_) (expression : Expression)
  | Minus (left right : GraphPattern)
  | Values (variables : list Variable_) (bindings : list (list (option GroundTerm)))
  | OrderBy (inner : GraphPattern) (expression : list OrderExpression)
  | Project (inner : GraphPattern) (variables : list Variable_)
  | Distinct (inner : GraphPattern)
  | Reduced (inner : GraphPattern)
  | Slice (inner : GraphPattern) (start : nat) (slice_length : option nat)
  | Group (inner : GraphPattern) (variables : list Variable_) (aggregates : list (Variable_ * AggregateExpression))
  | Service (name : NamedNodePattern) (inner : GraphPattern) (silent : bool)
with Expression :=
  | ENamedNode (value : NamedNode)
  | ELiteral (value : Literal)
  | EVariable (value : Variable_)
  | Binary (operator : BinaryOperator) (left right : Expression)
  | In_ (left : Expression) (values : list Expression)
  | Unary (operator : UnaryOperator) (inner : Expression)
  | Exists_ (pattern : GraphPattern)
  | Bound (variable : Variable_)
  | If_ (condition yes no : Expression)
  | Coalesce (values : list Expression)
  | FunctionCall (function : Function_) (arguments : list Expression)
with OrderExpression := Asc (value : Expression) | Desc (value : Expression)
with AggregateExpression :=
  | CountSolutions (distinct : bool)
  | AggregateCall (name : AggregateFunction) (expr : Expression) (distinct : bool).

Inductive Query :=
  | Select (dataset : option QueryDataset) (pattern : GraphPattern) (base_iri : option BaseIri)
  | Ask (dataset : option QueryDataset) (pattern : GraphPattern) (base_iri : option BaseIri)
  | Construct (template : list TriplePattern) (dataset : option QueryDataset) (pattern : GraphPattern) (base_iri : option BaseIri)
  | Describe (dataset : option QueryDataset) (pattern : GraphPattern) (base_iri : option BaseIri).

Inductive ExactAlgebraError := ResultSet | Term | RowCeiling.

(** ** The cursor over the answers *)

(** What changes of the cursor; its answers and its ceiling do not. *)
Record ResultCursor := { ordinal : nat; expanded_rows : nat }.

Definition Cursor (A : Type) : Type := ResultCursor -> result ExactAlgebraError (A * ResultCursor).

Global Instance cursor_ret : MRet Cursor := fun A x c => Ok (x, c).
Global Instance cursor_bind : MBind Cursor := fun A B k m c => match m c with Ok (x, c) => k x c | Err e => Err e end.

(** [.map(|value| ..).collect::<Result<Vec<_>, _>>()] with the cursor. *)
Definition map_cursor {A B} (f : A -> Cursor B) : list A -> Cursor (list B) :=
  fix go l := match l with
              | [] => mret []
              | x :: l => y ← f x; ys ← go l; mret (y :: ys)
              end.

Definition ground_term (term : DirectBgpRdfTerm) : result ExactAlgebraError GroundTerm :=
  match term with
  | TermIri value => n ← ok_or (named_node_new value) Term; Ok (GroundNamedNode n)
  | TermBlankNode _ => Err Term
  | TermLiteral lexical_form datatype_iri (Some language) =>
      l ← ok_or (new_language_tagged_literal lexical_form language) Term; Ok (GroundLiteral l)
  | TermLiteral lexical_form datatype_iri None =>
      datatype ← ok_or (named_node_new datatype_iri) Term; Ok (GroundLiteral (new_typed_literal lexical_form datatype))
  end.

Section Substitution.
Context (available : nat) (answers : list DirectBgpResult) (max_expanded_rows : nat).

(** The cells of a solution, one for every variable of the answer. *)
Definition solution_row (variables : list string) (s : DirectBgpSolution) : result ExactAlgebraError (list (option GroundTerm)) :=
  try_map (fun name => match solution_bindings s !! name with
                       | None => Ok None
                       | Some term => t ← ground_term term; Ok (Some t)
                       end) variables.

(** The body of the loop over the solutions. *)
Definition expand_solution (variables : list string) (st : nat * list (list (option GroundTerm))) (s : DirectBgpSolution) :
    result ExactAlgebraError (nat * list (list (option GroundTerm))) :=
  let '(rows, bindings) := st in
  row ← solution_row variables s;
  _ ← fail_if (negb (fits U64_LIMIT (multiplicity s))) RowCeiling;
  let count := N.to_nat (multiplicity s) in
  rows ← ok_or (usize_checked_add rows count) RowCeiling;
  _ ← fail_if (max_expanded_rows <? rows) RowCeiling;
  Ok (rows, bindings ++ replicate count row).

Definition exact_complete (r : DirectBgpResult) : bool :=
  bool_decide (status (outcome r) = StatusComplete) && bool_decide (exactness (outcome r) = Exact)
  && bool_decide (completeness (outcome r) = Complete).

Definition values : Cursor GraphPattern := fun c =>
  r ← ok_or (answers !! ordinal c) ResultSet;
  _ ← map_err (fun _ => ResultSet) (validate_direct_bgp_result available r);
  _ ← fail_if (negb (exact_complete r)) ResultSet;
  next ← ok_or (usize_checked_add (ordinal c) 1) ResultSet;
  variables ← try_map (fun name => ok_or (variable_new name) Term) (br_variables r);
  st ← try_fold (expand_solution (br_variables r)) (expanded_rows c, []) (solutions r);
  Ok (Values variables st.2, {| ordinal := next; expanded_rows := st.1 |}).

Fixpoint pattern (p : GraphPattern) : Cursor GraphPattern :=
  match p with
  | Bgp _ => values
  | Path path => mret (Path path)
  | Join l r => l ← pattern l; r ← pattern r; mret (Join l r)
  | LeftJoin l r e =>
      l ← pattern l; r ← pattern r;
      e ← match e with None => mret None | Some e => e ← expression e; mret (Some e) end;
      mret (LeftJoin l r e)
  | Lateral l r => l ← pattern l; r ← pattern r; mret (Lateral l r)
  | Filter e p => e ← expression e; p ← pattern p; mret (Filter e p)
  | Union l r => l ← pattern l; r ← pattern r; mret (Union l r)
  | Graph name p => p ← pattern p; mret (Graph name p)
  | Extend p v e => p ← pattern p; e ← expression e; mret (Extend p v e)
  | Minus l r => l ← pattern l; r ← pattern r; mret (Minus l r)
  | Values variables bindings => mret (Values variables bindings)
  | OrderBy p es => p ← pattern p; es ← map_cursor order_expression es; mret (OrderBy p es)
  | Project p vs => p ← pattern p; mret (Project p vs)
  | Distinct p => p ← pattern p; mret (Distinct p)
  | Reduced p => p ← pattern p; mret (Reduced p)
  | Slice p start len => p ← pattern p; mret (Slice p start len)
  | Group p vs aggregates =>
      p ← pattern p;
      aggregates ← map_cursor (fun '(v, a) => a ← aggregate a; mret (v, a)) aggregates;
      mret (Group p vs aggregates)
  | Service name p silent => mret (Service name p silent)
  end
with expression (e : Expression) : Cursor Expression :=
  match e with
  | ENamedNode n => mret (ENamedNode n)
  | ELiteral l => mret (ELiteral l)
  | EVariable v => mret (EVariable v)
  | Binary op l r => l ← expression l; r ← expression r; mret (Binary op l r)
  | In_ l es => l ← expression l; es ← map_cursor expression es; mret (In_ l es)
  | Unary op e => e ← expression e; mret (Unary op e)
  | Exists_ p => p ← pattern p; mret (Exists_ p)
  | Bound v => mret (Bound v)
  | If_ c y n => c ← expression c; y ← expression y; n ← expression n; mret (If_ c y n)
  | Coalesce es => es ← map_cursor expression es; mret (Coalesce es)
  | FunctionCall f es => es ← map_cursor expression es; mret (FunctionCall f es)
  end
with order_expression (o : OrderExpression) : Cursor OrderExpression :=
  match o with
  | Asc e => e ← expression e; mret (Asc e)
  | Desc e => e ← expression e; mret (Desc e)
  end
with aggregate (a : AggregateExpression) : Cursor AggregateExpression :=
  match a with
  | CountSolutions distinct => mret (CountSolutions distinct)
  | AggregateCall name e distinct => e ← expression e; mret (AggregateCall name e distinct)
  end.

Definition query_pattern (q : Query) : GraphPattern :=
  match q with Select _ p _ | Ask _ p _ | Construct _ _ p _ | Describe _ p _ => p end.

Definition with_pattern (q : Query) (p : GraphPattern) : Query :=
  match q with
  | Select dataset _ base => Select dataset p base
  | Ask dataset _ base => Ask dataset p base
  | Construct template dataset _ base => Construct template dataset p base
  | Describe dataset _ base => Describe dataset p base
  end.

Definition substitute_exact_bgp_results (q : Query) : result ExactAlgebraError Query :=
  _ ← fail_if (max_expanded_rows =? 0) RowCeiling;
  out ← pattern (query_pattern q) {| ordinal := 0; expanded_rows := 0 |};
  _ ← fail_if (negb (ordinal out.2 =? length answers)) ResultSet;
  Ok (with_pattern q out.1).

(** ** The reference *)

(** The number of basic graph patterns that are replaced. *)
Fixpoint bgps (p : GraphPattern) : nat :=
  match p with
  | Bgp _ => 1
  | Path _ | Values _ _ | Service _ _ _ => 0
  | Join l r | Lateral l r | Union l r | Minus l r => bgps l + bgps r
  | LeftJoin l r e => bgps l + bgps r + match e with None => 0 | Some e => expression_bgps e end
  | Filter e p => expression_bgps e + bgps p
  | Graph _ p | Project p _ | Distinct p | Reduced p | Slice p _ _ => bgps p
  | Extend p _ e => bgps p + expression_bgps e
  | OrderBy p es => bgps p + sum_list_with order_bgps es
  | Group p _ aggregates => bgps p + sum_list_with (fun '(_, a) => aggregate_bgps a) aggregates
  end
with expression_bgps (e : Expression) : nat :=
  match e with
  | ENamedNode _ | ELiteral _ | EVariable _ | Bound _ => 0
  | Binary _ l r => expression_bgps l + expression_bgps r
  | In_ l es => expression_bgps l + sum_list_with expression_bgps es
  | Unary _ e => expression_bgps e
  | Exists_ p => bgps p
  | If_ c y n => expression_bgps c + expression_bgps y + expression_bgps n
  | Coalesce es | FunctionCall _ es => sum_list_with expression_bgps es
  end
with order_bgps (o : OrderExpression) : nat := match o with Asc e | Desc e => expression_bgps e end
with aggregate_bgps (a : AggregateExpression) : nat :=
  match a with CountSolutions _ => 0 | AggregateCall _ e _ => expression_bgps e end.

Context (table : nat -> GraphPattern).

(** The elements of a list, each from where the one before it ends. *)
Definition fill_list {A B} (n : A -> nat) (f : nat -> A -> B) : nat -> list A -> list B :=
  fix go k l := match l with [] => [] | x :: l => f k x :: go (k + n x) l end.

(** Every basic graph pattern becomes the table of its number, counted from
    [k] in depth-first order; nothing else changes. *)
Fixpoint fill (k : nat) (p : GraphPattern) : GraphPattern :=
  match p with
  | Bgp _ => table k
  | Path _ | Values _ _ | Service _ _ _ => p
  | Join l r => Join (fill k l) (fill (k + bgps l) r)
  | LeftJoin l r e => LeftJoin (fill k l) (fill (k + bgps l) r)
      match e with None => None | Some e => Some (fill_expression (k + bgps l + bgps r) e) end
  | Lateral l r => Lateral (fill k l) (fill (k + bgps l) r)
  | Filter e p => Filter (fill_expression k e) (fill (k + expression_bgps e) p)
  | Union l r => Union (fill k l) (fill (k + bgps l) r)
  | Graph name p => Graph name (fill k p)
  | Extend p v e => Extend (fill k p) v (fill_expression (k + bgps p) e)
  | Minus l r => Minus (fill k l) (fill (k + bgps l) r)
  | OrderBy p es => OrderBy (fill k p) (fill_list order_bgps fill_order (k + bgps p) es)
  | Project p vs => Project (fill k p) vs
  | Distinct p => Distinct (fill k p)
  | Reduced p => Reduced (fill k p)
  | Slice p start len => Slice (fill k p) start len
  | Group p vs aggregates => Group (fill k p) vs
      (fill_list (fun '(_, a) => aggregate_bgps a) (fun k '(v, a) => (v, fill_aggregate k a)) (k + bgps p) aggregates)
  end
with fill_expression (k : nat) (e : Expression) : Expression :=
  match e with
  | ENamedNode _ | ELiteral _ | EVariable _ | Bound _ => e
  | Binary op l r => Binary op (fill_expression k l) (fill_expression (k + expression_bgps l) r)
  | In_ l es => In_ (fill_expression k l) (fill_list expression_bgps fill_expression (k + expression_bgps l) es)
  | Unary op e => Unary op (fill_expression k e)
  | Exists_ p => Exists_ (fill k p)
  | If_ c y n => If_ (fill_expression k c) (fill_expression (k + expression_bgps c) y)
                     (fill_expression (k + expression_bgps c + expression_bgps y) n)
  | Coalesce es => Coalesce (fill_list expression_bgps fill_expression k es)
  | FunctionCall f es => FunctionCall f (fill_list expression_bgps fill_expression k es)
  end
with fill_order (k : nat) (o : OrderExpression) : OrderExpression :=
  match o with Asc e => Asc (fill_expression k e) | Desc e => Desc (fill_expression k e) end
with fill_aggregate (k : nat) (a : AggregateExpression) : AggregateExpression :=
  match a with CountSolutions _ => a | AggregateCall name e d => AggregateCall name (fill_expression k e) d end.

(** ** Runs of the cursor *)

(** The cursor after [n] answers. *)
Fixpoint advance (n : nat) (c : ResultCursor) : result ExactAlgebraError ResultCursor :=
  match n with
  | O => Ok c
  | S n => match values c with Ok (_, c) => advance n c | Err e => Err e end
  end.

Context (values_table : forall c p c', values c = Ok (p, c') -> p = table (ordinal c) /\ ordinal c' = S (ordinal c)).

(** The computation takes [n] answers and returns what [f] says for the number of the first. *)
Definition denotes {A} (m : Cursor A) (n : nat) (f : nat -> A) : Prop :=
  forall c, m c = match advance n c with Ok c' => Ok (f (ordinal c), c') | Err e => Err e end.

Lemma advance_ordinal n : forall c c', advance n c = Ok c' -> ordinal c' = ordinal c + n.
Proof using values_table.
  induction n as [|n IH]; intros c c' Ha; cbn in Ha; [injection Ha as <-; lia|].
  destruct (values c) as [[p c1]|] eqn:Hv; [|done]. apply values_table in Hv as [_ Ho]. apply IH in Ha. lia.
Qed.

Lemma advance_add n m : forall c, advance (n + m) c = match advance n c with Ok c' => advance m c' | Err e => Err e end.
Proof using Type.
  induction n as [|n IH]; intros c; [done|]. cbn. destruct (values c) as [[p c1]|]; [apply IH|done].
Qed.

Lemma denotes_done {A} (x : A) n out : n = 0 -> (forall k, out k = x) -> denotes (mret x) n out.
Proof using Type. intros -> Hout c. cbn. by rewrite Hout. Qed.

Lemma denotes_bind {A B} (a : Cursor A) (b : A -> Cursor B) n m f g :
  denotes a n f -> (forall x, denotes (b x) m (g x)) -> denotes (a ≫= b) (n + m) (fun k => g (f k) (k + n)).
Proof using values_table.
  intros Ha Hb c. unfold mbind, cursor_bind. rewrite Ha, advance_add. destruct (advance n c) as [c1|] eqn:Hc; [|done].
  rewrite Hb. apply advance_ordinal in Hc as ->. done.
Qed.

Lemma denotes_then {A B} (a : Cursor A) (b : A -> Cursor B) n m f g total out :
  denotes a n f -> (forall x, denotes (b x) m (g x)) -> total = n + m -> (forall k, out k = g (f k) (k + n)) -> denotes (a ≫= b) total out.
Proof using values_table.
  intros Ha Hb -> Hout c. rewrite (denotes_bind a b n m f g Ha Hb c). destruct (advance (n + m) c); [by rewrite Hout|done].
Qed.

Lemma denotes_values : denotes values 1 table.
Proof using values_table.
  intros c. cbn. destruct (values c) as [[p c1]|] eqn:Hv; [|done]. by apply values_table in Hv as [-> _].
Qed.

Lemma denotes_map {A B} (a : A -> Cursor B) n f l : Forall (fun x => denotes (a x) (n x) (fun k => f k x)) l ->
  denotes (map_cursor a l) (sum_list_with n l) (fun k => fill_list n f k l).
Proof using values_table.
  induction 1 as [|x l Hx Hl IH]; [by apply denotes_done|]. cbn [map_cursor sum_list_with fill_list].
  eapply denotes_then; [exact Hx|intros y; eapply denotes_then; [exact IH|intros ys; apply denotes_done; reflexivity|reflexivity|reflexivity]|lia|reflexivity].
Qed.

(** One step of a constructor: its parts from left to right, then the constructor. *)
Ltac denote_step part :=
  first [ apply denotes_done; reflexivity
        | eapply denotes_then; [part|intros ?; denote_step part|first [reflexivity|lia]|reflexivity] ].

Lemma denotes_pattern p : denotes (pattern p) (bgps p) (fun k => fill k p)
with denotes_expression e : denotes (expression e) (expression_bgps e) (fun k => fill_expression k e)
with denotes_order o : denotes (order_expression o) (order_bgps o) (fun k => fill_order k o)
with denotes_aggregate a : denotes (aggregate a) (aggregate_bgps a) (fun k => fill_aggregate k a).
Proof using values_table.
  - assert (forall e, denotes (match e with None => mret None | Some e => e ← expression e; mret (Some e) end)
      (match e with None => 0 | Some e => expression_bgps e end)
      (fun k => match e with None => None | Some e => Some (fill_expression k e) end)) as Hopt.
    { intros [e|]; denote_step ltac:(apply denotes_expression). }
    assert (forall es, Forall (fun e => denotes (order_expression e) (order_bgps e) (fun k => fill_order k e)) es) as Horders.
    { induction es; constructor; [apply denotes_order|done]. }
    assert (forall as', Forall (fun va : Variable_ * AggregateExpression =>
      denotes ((fun '(v, a) => a ← aggregate a; mret (v, a)) va) ((fun '(_, a) => aggregate_bgps a) va)
              (fun k => (fun k '(v, a) => (v, fill_aggregate k a)) k va)) as') as Haggregates.
    { induction as' as [|[v a] as' IH]; constructor; [|done]. denote_step ltac:(apply denotes_aggregate). }
    destruct p; cbn [pattern bgps fill]; try apply denotes_values;
      denote_step ltac:(first [apply denotes_pattern | apply denotes_expression | apply Hopt | apply denotes_map, Horders | apply denotes_map, Haggregates]).
  - assert (forall es, Forall (fun e => denotes (expression e) (expression_bgps e) (fun k => fill_expression k e)) es) as Hes.
    { induction es; constructor; [apply denotes_expression|done]. }
    destruct e; cbn [expression expression_bgps fill_expression];
      denote_step ltac:(first [apply denotes_pattern | apply denotes_expression | apply denotes_map, Hes]).
  - destruct o; cbn [order_expression order_bgps fill_order]; denote_step ltac:(apply denotes_expression).
  - destruct a; cbn [aggregate aggregate_bgps fill_aggregate]; denote_step ltac:(apply denotes_expression).
Qed.

End Substitution.

(** ** What the answers give *)

Section Exactness.
Context (available : nat) (answers : list DirectBgpResult) (max_expanded_rows : nat).
Context (answers_fit : (N.of_nat (length answers) < U64_LIMIT)%N) (ceiling_fits : (N.of_nat max_expanded_rows < U64_LIMIT)%N).

(** The rows of an answer, every solution as often as its multiplicity says. *)
Definition answer_rows (sols : list DirectBgpSolution) (rows : list (list (option GroundTerm))) : list (list (option GroundTerm)) :=
  concat (zip_with (fun s row => replicate (N.to_nat (multiplicity s)) row) sols rows).

Definition row_count (r : DirectBgpResult) : nat := sum_list_with (fun s => N.to_nat (multiplicity s)) (solutions r).

Definition answer_table (r : DirectBgpResult) : result ExactAlgebraError GraphPattern :=
  variables ← try_map (fun name => ok_or (variable_new name) Term) (br_variables r);
  rows ← try_map (solution_row (br_variables r)) (solutions r);
  Ok (Values variables (answer_rows (solutions r) rows)).

(** A valid, exact and complete answer whose terms are SPARQL terms. *)
Record usable (r : DirectBgpResult) : Prop := {
  usable_valid : validate_direct_bgp_result available r = Ok tt;
  usable_exact : exact_complete r = true;
  usable_terms : is_ok (answer_table r) = true;
}.

(** The table of a usable answer. *)
Definition table_of (r : DirectBgpResult) : GraphPattern :=
  match answer_table r with Ok p => p | Err _ => Values [] [] end.

Definition table_at (i : nat) : GraphPattern :=
  match answers !! i with Some r => table_of r | None => Values [] [] end.

(** The ceiling is checked at every solution. *)
Lemma expand_solutions_ok vars sols : forall rows bindings st,
  try_fold (expand_solution max_expanded_rows vars) (rows, bindings) sols = Ok st <->
  exists cells, try_map (solution_row vars) sols = Ok cells /\
    (sols = [] \/ rows + sum_list_with (fun s => N.to_nat (multiplicity s)) sols <= max_expanded_rows) /\
    st = (rows + sum_list_with (fun s => N.to_nat (multiplicity s)) sols, bindings ++ answer_rows sols cells).
Proof using answers_fit ceiling_fits.
  setoid_rewrite try_map_ok. induction sols as [|s sols IH]; intros rows bindings st; cbn [try_fold sum_list_with].
  { split.
    - intros [= <-]. exists []. rewrite Nat.add_0_r. unfold answer_rows. cbn. rewrite app_nil_r. split_and!; [constructor|by left|done].
    - intros (cells & ->%Forall2_nil_inv_l & _ & ->). unfold answer_rows. cbn. by rewrite Nat.add_0_r, app_nil_r. }
  assert (forall st1, expand_solution max_expanded_rows vars (rows, bindings) s = Ok st1 <-> exists row, solution_row vars s = Ok row /\
    rows + N.to_nat (multiplicity s) <= max_expanded_rows /\
    st1 = (rows + N.to_nat (multiplicity s), bindings ++ replicate (N.to_nat (multiplicity s)) row)) as Hone.
  { intros st1. cbn [expand_solution]. destruct (solution_row vars s) as [row|e]; cbn [mbind result_bind]; [|naive_solver].
    rewrite fail_then, negb_false_iff, result_bind_ok. setoid_rewrite ok_or_ok. setoid_rewrite usize_checked_add_some. setoid_rewrite fail_then.
    setoid_rewrite Nat.ltb_ge. unfold fits. rewrite N.ltb_lt. split.
    - intros (_ & n & [-> _] & Hn & [= <-]). by exists row.
    - intros (row' & [= <-] & Hn & ->). split; [lia|]. exists (rows + N.to_nat (multiplicity s)). split_and!; [done|lia|done|done]. }
  rewrite result_bind_ok. setoid_rewrite Hone. split.
  - intros (st1 & (row & Hrow & Hn & ->) & Hrest). apply IH in Hrest as (cells & Hcells & Hsum & ->).
    exists (row :: cells). split_and!; [by constructor|right; destruct Hsum as [->|]; [cbn|]; lia|]. unfold answer_rows. cbn [zip_with concat]. by rewrite Nat.add_assoc, <- app_assoc.
  - intros (cells & Hcells & Hsum & ->). apply Forall2_cons_inv_l in Hcells as (row & cells' & Hrow & Hcells & ->).
    eexists. split; [exists row; destruct Hsum as [|Hsum]; [done|]; split_and!; [done|lia|reflexivity]|].
    apply IH. exists cells'. destruct Hsum as [|Hsum]; [done|]. split_and!; [done|right; lia|].
    unfold answer_rows. cbn [zip_with concat]. by rewrite Nat.add_assoc, <- app_assoc.
Qed.

Lemma values_ok c p c' :
  values available answers max_expanded_rows c = Ok (p, c') <->
  exists r, answers !! ordinal c = Some r /\ usable r /\ answer_table r = Ok p /\
    (solutions r = [] \/ expanded_rows c + row_count r <= max_expanded_rows) /\
    c' = {| ordinal := S (ordinal c); expanded_rows := expanded_rows c + row_count r |}.
Proof using answers_fit ceiling_fits.
  unfold values. destruct (answers !! ordinal c) as [r|] eqn:Hr; cbn [ok_or mbind result_bind]; [|naive_solver].
  assert (ordinal c < length answers) as Hlt by by eapply lookup_lt_Some.
  assert (forall u, u = r -> usable u <-> validate_direct_bgp_result available r = Ok tt /\ exact_complete r = true /\ is_ok (answer_table r) = true) as Husable.
  { intros u ->. split; [by intros []|by intros (? & ? & ?)]. }
  assert (usize_checked_add (ordinal c) 1 = Some (S (ordinal c))) as ->.
  { apply usize_checked_add_some. split; lia. }
  destruct (validate_direct_bgp_result available r) as [[]|e]; cbn [map_err mbind result_bind].
  2: { split; [done|]. intros (r' & [= <-] & Hu & _). by apply Husable in Hu as [? _]. }
  rewrite fail_then, negb_false_iff. cbn [ok_or mbind result_bind]. unfold answer_table in *.
  destruct (try_map (fun name => ok_or (variable_new name) Term) (br_variables r)) as [variables|e] eqn:Hvars; rewrite ?Hvars in *; cbn [mbind result_bind].
  2: { split; [by intros [_ ?]|]. intros (r' & [= <-] & Hu & _). by apply Husable in Hu as (_ & _ & ?). }
  rewrite result_bind_ok. setoid_rewrite expand_solutions_ok. split.
  - intros (Hex & st & (cells & Hcells & Hsum & ->) & [= <- <-]). exists r. rewrite Husable by done. rewrite Hvars, Hcells. done.
  - intros (r' & [= <-] & Hu & Ht & Hsum & ->). apply Husable in Hu as (_ & Hex & _); [|done]. split; [done|]. inv_ok Ht. assert (a = variables) as -> by congruence. inv_ok Ht. injection Ht as <-.
    eexists. split; [eexists; split_and!; [exact Ha0|exact Hsum|reflexivity]|done].
Qed.


Lemma values_table_at c p c' : values available answers max_expanded_rows c = Ok (p, c') -> p = table_at (ordinal c) /\ ordinal c' = S (ordinal c).
Proof using answers_fit ceiling_fits.
  intros (r & Hr & _ & Ht & Hsum & ->)%values_ok. unfold table_at, table_of. by rewrite Hr, Ht.
Qed.

(** The cursor after [n] usable answers that fit the ceiling. *)
Lemma advance_ok n : forall c c', expanded_rows c <= max_expanded_rows ->
  advance available answers max_expanded_rows n c = Ok c' <->
  let taken := take n (drop (ordinal c) answers) in
  length taken = n /\ Forall usable taken /\ expanded_rows c + sum_list_with row_count taken <= max_expanded_rows /\
  c' = {| ordinal := ordinal c + n; expanded_rows := expanded_rows c + sum_list_with row_count taken |}.
Proof using answers_fit ceiling_fits.
  induction n as [|n IH]; intros c c' Hle; cbn [advance].
  { cbn. rewrite !Nat.add_0_r. destruct c. split; [intros [= <-]; split_and!; [done|constructor|done|done]|by intros (_ & _ & _ & ->)]. }
  destruct (values available answers max_expanded_rows c) as [[p c1]|e] eqn:Hv.
  - apply values_ok in Hv as (r & Hr & Hu & _ & Hsum & ->).
    assert (expanded_rows c + row_count r <= max_expanded_rows) as Hsum'.
    { destruct Hsum as [Hnil|]; [|done]. unfold row_count. rewrite Hnil. cbn. lia. }
    rewrite IH by done. cbn [ordinal expanded_rows]. cbv zeta.
    rewrite (drop_S _ _ _ Hr). cbn [take length sum_list_with]. rewrite Forall_cons, Nat.add_succ_r, !Nat.add_assoc. cbn. naive_solver lia.
  - split; [done|]. cbv zeta. intros (Hlen & Hu & Hsum & _). destruct (answers !! ordinal c) as [r|] eqn:Hr.
    + rewrite (drop_S _ _ _ Hr) in Hu, Hsum. cbn [take sum_list_with] in Hu, Hsum. apply Forall_cons in Hu as [Hu _].
      destruct (answer_table r) as [p|e'] eqn:Ht; [|apply usable_terms in Hu; by rewrite Ht in Hu].
      assert (values available answers max_expanded_rows c = Ok (p, {| ordinal := S (ordinal c); expanded_rows := expanded_rows c + row_count r |})) as Hok; [|congruence].
      apply values_ok. exists r. split_and!; try done. right. lia.
    + apply lookup_ge_None in Hr. rewrite drop_ge in Hlen by done. by destruct n.
Qed.

Lemma substitution_exact (q q' : Query) :
  substitute_exact_bgp_results available answers max_expanded_rows q = Ok q' <->
  0 < max_expanded_rows /\ length answers = bgps (query_pattern q) /\ Forall usable answers /\
  sum_list_with row_count answers <= max_expanded_rows /\
  q' = with_pattern q (fill table_at 0 (query_pattern q)).
Proof using answers_fit ceiling_fits.
  unfold substitute_exact_bgp_results. rewrite fail_then, Nat.eqb_neq.
  rewrite (denotes_pattern available answers max_expanded_rows table_at values_table_at (query_pattern q) _). cbn [ordinal].
  set (n := bgps (query_pattern q)). set (start := {| ordinal := 0; expanded_rows := 0 |}).
  assert (forall c', advance available answers max_expanded_rows n start = Ok c' <-> _) as Ha by (intros c'; apply advance_ok; cbn; lia).
  cbv zeta in Ha. cbn [ordinal expanded_rows start] in Ha. rewrite drop_0 in Ha. split.
  - intros [Hmax Hr]. destruct (advance _ _ _ n start) as [c|e]; [|done]. cbn [mbind result_bind] in Hr.
    destruct (proj1 (Ha c) eq_refl) as (Hlen & Hu & Hsum & ->). cbn in Hr. apply fail_then in Hr as [Hn%negb_false_iff%Nat.eqb_eq [= <-]].
    rewrite take_ge in Hu, Hsum by lia. split_and!; [lia|done|done|done|done].
  - intros (Hmax & Hlen & Hu & Hsum & ->). split; [lia|].
    rewrite (proj2 (Ha {| ordinal := n; expanded_rows := sum_list_with row_count answers |})).
    + cbn. by rewrite Hlen, Nat.eqb_refl.
    + rewrite take_ge by (unfold n; lia). by split_and!.
Qed.

(** C23: substitution is exact.  It succeeds exactly when there is one usable
    answer for every basic graph pattern of the query, also below [EXISTS] but
    not below [SERVICE], and their rows fit the ceiling together; the result is
    then the query with its patterns, in depth-first order, replaced by the
    tables of the answers, and nothing else changed. *)
Theorem query_substitution_is_exact (q q' : Query) :
  substitute_exact_bgp_results available answers max_expanded_rows q = Ok q' <->
  0 < max_expanded_rows /\ length answers = bgps (query_pattern q) /\ Forall usable answers /\
  sum_list_with row_count answers <= max_expanded_rows /\
  q' = with_pattern q (fill table_at 0 (query_pattern q)).
Proof using answers_fit ceiling_fits. apply substitution_exact. Qed.

End Exactness.

(** ** The numbering of the patterns *)

Record BgpLeaf := { leaf_ordinal : nat; leaf_scope : DirectBgpScope; leaf_patterns : list TriplePattern }.

Definition graph_scope (name : NamedNodePattern) : DirectBgpScope :=
  match name with NodeName n => ScopeNamed (node_as_str n) | VariableName v => ScopeNamedVariable (variable_as_str v) end.

(** The leaves so far, and whether a property path has been seen. *)
Fixpoint collect_bgps (p : GraphPattern) (scope : DirectBgpScope) (st : list BgpLeaf * bool) : list BgpLeaf * bool :=
  match p with
  | Bgp patterns => (st.1 ++ [{| leaf_ordinal := length st.1; leaf_scope := scope; leaf_patterns := patterns |}], st.2)
  | Path _ => (st.1, true)
  | Join l r | Lateral l r | Union l r | Minus l r => collect_bgps r scope (collect_bgps l scope st)
  | LeftJoin l r e =>
      let st := collect_bgps r scope (collect_bgps l scope st) in
      match e with None => st | Some e => collect_expression_bgps e scope st end
  | Filter e p => collect_expression_bgps e scope (collect_bgps p scope st)
  | Extend p _ e => collect_expression_bgps e scope (collect_bgps p scope st)
  | OrderBy p orders => foldl (fun st o => collect_order_bgps o scope st) (collect_bgps p scope st) orders
  | Group p _ aggregates => foldl (fun st va => collect_aggregate_bgps va.2 scope st) (collect_bgps p scope st) aggregates
  | Project p _ | Distinct p | Reduced p | Slice p _ _ => collect_bgps p scope st
  | Graph name p => collect_bgps p (graph_scope name) st
  | Values _ _ | Service _ _ _ => st
  end
with collect_expression_bgps (e : Expression) (scope : DirectBgpScope) (st : list BgpLeaf * bool) : list BgpLeaf * bool :=
  match e with
  | ENamedNode _ | ELiteral _ | EVariable _ | Bound _ => st
  | Binary _ l r => collect_expression_bgps r scope (collect_expression_bgps l scope st)
  | In_ l es => foldl (fun st e => collect_expression_bgps e scope st) (collect_expression_bgps l scope st) es
  | Unary _ e => collect_expression_bgps e scope st
  | Exists_ p => collect_bgps p scope st
  | If_ c y n => collect_expression_bgps n scope (collect_expression_bgps y scope (collect_expression_bgps c scope st))
  | Coalesce es | FunctionCall _ es => foldl (fun st e => collect_expression_bgps e scope st) st es
  end
with collect_order_bgps (o : OrderExpression) (scope : DirectBgpScope) (st : list BgpLeaf * bool) : list BgpLeaf * bool :=
  match o with Asc e | Desc e => collect_expression_bgps e scope st end
with collect_aggregate_bgps (a : AggregateExpression) (scope : DirectBgpScope) (st : list BgpLeaf * bool) : list BgpLeaf * bool :=
  match a with CountSolutions _ => st | AggregateCall _ e _ => collect_expression_bgps e scope st end.

(** [collect_bgps(query_pattern(..), &DirectBgpScope::Default, &mut leaves, ..)]. *)
Definition query_leaves (q : Query) : list BgpLeaf := (collect_bgps (query_pattern q) ScopeDefault ([], false)).1.

(** No filter has basic graph patterns both in its condition and below it. *)
Fixpoint aligned (p : GraphPattern) : Prop :=
  match p with
  | Bgp _ | Path _ | Values _ _ | Service _ _ _ => True
  | Join l r | Lateral l r | Union l r | Minus l r => aligned l /\ aligned r
  | LeftJoin l r e => aligned l /\ aligned r /\ match e with None => True | Some e => aligned_expression e end
  | Filter e p => (expression_bgps e = 0 \/ bgps p = 0) /\ aligned_expression e /\ aligned p
  | Graph _ p | Project p _ | Distinct p | Reduced p | Slice p _ _ => aligned p
  | Extend p _ e => aligned p /\ aligned_expression e
  | OrderBy p orders => aligned p /\ foldr (fun o P => aligned_order o /\ P) True orders
  | Group p _ aggregates => aligned p /\ foldr (fun va P => aligned_aggregate va.2 /\ P) True aggregates
  end
with aligned_expression (e : Expression) : Prop :=
  match e with
  | ENamedNode _ | ELiteral _ | EVariable _ | Bound _ => True
  | Binary _ l r => aligned_expression l /\ aligned_expression r
  | In_ l es => aligned_expression l /\ foldr (fun e P => aligned_expression e /\ P) True es
  | Unary _ e => aligned_expression e
  | Exists_ p => aligned p
  | If_ c y n => aligned_expression c /\ aligned_expression y /\ aligned_expression n
  | Coalesce es | FunctionCall _ es => foldr (fun e P => aligned_expression e /\ P) True es
  end
with aligned_order (o : OrderExpression) : Prop := match o with Asc e | Desc e => aligned_expression e end
with aligned_aggregate (a : AggregateExpression) : Prop := match a with CountSolutions _ => True | AggregateCall _ e _ => aligned_expression e end.

(** ** Every answer in the place of its pattern *)

Section Places.
Context (place : DirectBgpScope -> list TriplePattern -> GraphPattern).

(** The pattern with every basic graph pattern replaced by what [place] says of
    it in its scope: no counter, and no order of traversal. *)
Fixpoint placed (scope : DirectBgpScope) (p : GraphPattern) : GraphPattern :=
  match p with
  | Bgp patterns => place scope patterns
  | Path path => Path path
  | Join l r => Join (placed scope l) (placed scope r)
  | LeftJoin l r e => LeftJoin (placed scope l) (placed scope r) (placed_expression scope <$> e)
  | Lateral l r => Lateral (placed scope l) (placed scope r)
  | Filter e p => Filter (placed_expression scope e) (placed scope p)
  | Union l r => Union (placed scope l) (placed scope r)
  | Graph name p => Graph name (placed (graph_scope name) p)
  | Extend p v e => Extend (placed scope p) v (placed_expression scope e)
  | Minus l r => Minus (placed scope l) (placed scope r)
  | Values variables bindings => Values variables bindings
  | OrderBy p es => OrderBy (placed scope p) (map (placed_order scope) es)
  | Project p vs => Project (placed scope p) vs
  | Distinct p => Distinct (placed scope p)
  | Reduced p => Reduced (placed scope p)
  | Slice p start len => Slice (placed scope p) start len
  | Group p vs aggregates => Group (placed scope p) vs (map (fun va => (va.1, placed_aggregate scope va.2)) aggregates)
  | Service name p silent => Service name p silent
  end
with placed_expression (scope : DirectBgpScope) (e : Expression) : Expression :=
  match e with
  | ENamedNode _ | ELiteral _ | EVariable _ | Bound _ => e
  | Binary op l r => Binary op (placed_expression scope l) (placed_expression scope r)
  | In_ l es => In_ (placed_expression scope l) (map (placed_expression scope) es)
  | Unary op e => Unary op (placed_expression scope e)
  | Exists_ p => Exists_ (placed scope p)
  | If_ c y n => If_ (placed_expression scope c) (placed_expression scope y) (placed_expression scope n)
  | Coalesce es => Coalesce (map (placed_expression scope) es)
  | FunctionCall f es => FunctionCall f (map (placed_expression scope) es)
  end
with placed_order (scope : DirectBgpScope) (o : OrderExpression) : OrderExpression :=
  match o with Asc e => Asc (placed_expression scope e) | Desc e => Desc (placed_expression scope e) end
with placed_aggregate (scope : DirectBgpScope) (a : AggregateExpression) : AggregateExpression :=
  match a with
  | CountSolutions distinct => CountSolutions distinct
  | AggregateCall f e distinct => AggregateCall f (placed_expression scope e) distinct
  end.

(** The table gives every leaf what belongs in its place, from number [k] on. *)
Definition numbered (table : nat -> GraphPattern) (k : nat) (l : list BgpLeaf) : Prop :=
  forall i leaf, l !! i = Some leaf -> table (k + i) = place (leaf_scope leaf) (leaf_patterns leaf).

Lemma numbered_app table k l l' : numbered table k (l ++ l') -> numbered table k l /\ numbered table (k + length l) l'.
Proof.
  intros Hn. split.
  - intros i leaf Hi. by apply Hn, lookup_app_l_Some.
  - intros i leaf Hi. rewrite <- Nat.add_assoc. apply Hn. rewrite lookup_app_r by lia. by replace (length l + i - length l) with i by lia.
Qed.

(** The collection adds [n] leaves, and a table that gives them what belongs in
    their places makes [F] true. *)
Definition collected (c : list BgpLeaf * bool -> list BgpLeaf * bool) (n : nat) (F : (nat -> GraphPattern) -> nat -> Prop) : Prop :=
  forall st, exists l, (c st).1 = st.1 ++ l /\ length l = n /\ forall table k, numbered table k l -> F table k.

Lemma collected_nothing (c : list BgpLeaf * bool -> list BgpLeaf * bool) (F : (nat -> GraphPattern) -> nat -> Prop) :
  (forall st, (c st).1 = st.1) -> (forall table k, F table k) -> collected c 0 F.
Proof. intros Hc HF st. exists []. rewrite Hc, app_nil_r. by split_and!. Qed.

(** A part without leaves is right wherever it is counted from. *)
Lemma collected_any {c1 c2 n1 n2} {F1 F2 : (nat -> GraphPattern) -> nat -> Prop} (c : list BgpLeaf * bool -> list BgpLeaf * bool)
    (F : (nat -> GraphPattern) -> nat -> Prop) :
  collected c1 n1 F1 -> collected c2 n2 F2 -> (forall st, c st = c2 (c1 st)) ->
  (forall table k, (forall j, n1 = 0 \/ j = k -> F1 table j) -> (forall j, n2 = 0 \/ j = k + n1 -> F2 table j) -> F table k) ->
  collected c (n1 + n2) F.
Proof.
  intros H1 H2 Hc HF st. rewrite Hc. destruct (H1 st) as (l1 & E1 & <- & HF1), (H2 (c1 st)) as (l2 & E2 & <- & HF2). exists (l1 ++ l2).
  rewrite E2, E1, <- app_assoc, length_app. split_and!; [done|done|]. intros table k [Hn1 Hn2]%numbered_app. apply HF.
  - intros j [->%nil_length_inv| ->]; apply HF1; [by intros i leaf ?|done].
  - intros j [->%nil_length_inv| ->]; apply HF2; [by intros i leaf ?|done].
Qed.

Lemma collected_then {c1 c2 n1 n2} {F1 F2 : (nat -> GraphPattern) -> nat -> Prop} (c : list BgpLeaf * bool -> list BgpLeaf * bool)
    (F : (nat -> GraphPattern) -> nat -> Prop) :
  collected c1 n1 F1 -> collected c2 n2 F2 -> (forall st, c st = c2 (c1 st)) ->
  (forall table k, F1 table k -> F2 table (k + n1) -> F table k) -> collected c (n1 + n2) F.
Proof.
  intros H1 H2 Hc HF. eapply (collected_any c F); [exact H1|exact H2|exact Hc|].
  intros table k Hk1 Hk2. apply HF; [apply Hk1|apply Hk2]; by right.
Qed.

Lemma collected_mono {c n} {F : (nat -> GraphPattern) -> nat -> Prop} (G : (nat -> GraphPattern) -> nat -> Prop) :
  collected c n F -> (forall table k, F table k -> G table k) -> collected c n G.
Proof. intros Hc HFG st. destruct (Hc st) as (l & E & Hl & HF). exists l. split_and!; [done|done|]. intros table k Hn. by apply HFG, HF. Qed.

Lemma collected_list {A} {c : A -> list BgpLeaf * bool -> list BgpLeaf * bool} {n} {good : A -> Prop} {f : (nat -> GraphPattern) -> nat -> A -> A} {g : A -> A} {xs} :
  Forall (fun x => collected (c x) (n x) (fun table k => good x -> f table k x = g x)) xs ->
  collected (fun st => foldl (fun st x => c x st) st xs) (sum_list_with n xs)
    (fun table k => foldr (fun x P => good x /\ P) True xs -> fill_list n (f table) k xs = map g xs).
Proof.
  induction 1 as [|x xs Hx Hxs IH]; [by apply collected_nothing|]. cbn [foldl sum_list_with foldr fill_list].
  eapply collected_then; [exact Hx|exact IH|done|]. cbn. intros table k H1 H2 [Hg Hgs]. f_equal; [by apply H1|by apply H2].
Qed.

Ltac right_parts := cbn; intros; destruct_and?; rewrite ?Nat.add_assoc in *;
  repeat match goal with H : _ -> _ = _ |- _ => rewrite H by done; clear H end; by split_and?.

Lemma collected_pattern p scope : collected (collect_bgps p scope) (bgps p) (fun table k => aligned p -> fill table k p = placed scope p)
with collected_expression e scope :
  collected (collect_expression_bgps e scope) (expression_bgps e) (fun table k => aligned_expression e -> fill_expression table k e = placed_expression scope e)
with collected_order o scope : collected (collect_order_bgps o scope) (order_bgps o) (fun table k => aligned_order o -> fill_order table k o = placed_order scope o)
with collected_aggregate a scope :
  collected (collect_aggregate_bgps a scope) (aggregate_bgps a) (fun table k => aligned_aggregate a -> fill_aggregate table k a = placed_aggregate scope a).
Proof.
  - assert (forall l r, collected (fun st => collect_bgps r scope (collect_bgps l scope st)) (bgps l + bgps r)
      (fun table k => (aligned l -> fill table k l = placed scope l) /\ (aligned r -> fill table (k + bgps l) r = placed scope r))) as Htwo.
    { intros l r. eapply collected_then; [apply (collected_pattern l scope)|apply (collected_pattern r scope)|done|]. right_parts. }
    assert (forall p e, collected (fun st => collect_expression_bgps e scope (collect_bgps p scope st)) (bgps p + expression_bgps e)
      (fun table k => (aligned p -> fill table k p = placed scope p) /\ (aligned_expression e -> fill_expression table (k + bgps p) e = placed_expression scope e))) as Hwith.
    { intros q e. eapply collected_then; [apply (collected_pattern q scope)|apply (collected_expression e scope)|done|]. right_parts. }
    assert (forall os, Forall (fun o => collected (collect_order_bgps o scope) (order_bgps o) (fun table k => aligned_order o -> fill_order table k o = placed_order scope o)) os) as Horders.
    { induction os; constructor; [apply collected_order|done]. }
    assert (forall vas : list (Variable_ * AggregateExpression), Forall (fun va => collected (collect_aggregate_bgps va.2 scope)
      ((fun '(_, a) => aggregate_bgps a) va) (fun table k => aligned_aggregate va.2 -> (fun k '(v, a) => (v, fill_aggregate table k a)) k va = (fun va => (va.1, placed_aggregate scope va.2)) va)) vas) as Haggregates.
    { induction vas as [|[v a] vas IH]; constructor; [|done]. eapply collected_mono; [apply (collected_aggregate a scope)|]. right_parts. }
    destruct p as [ps|path|l r|l r [e|]|l r|e q|l r|name q|q v e|l r|vs bs|q os|q vs|q|q|q start len|q vs vas|name q silent]; cbn [collect_bgps bgps fill aligned placed].
    + intros st. eexists. split_and!; [reflexivity|done|]. intros table k Hn _. specialize (Hn 0 _ eq_refl). by rewrite Nat.add_0_r in Hn.
    + by apply collected_nothing.
    + eapply collected_mono; [apply (Htwo l r)|]. right_parts.
    + eapply collected_then; [apply (Htwo l r)|apply (collected_expression e scope)|done|]. right_parts.
    + eapply collected_then; [apply (Htwo l r)|apply collected_nothing; [reflexivity|by instantiate (1 := fun _ _ => True)]|done|]. right_parts.
    + eapply collected_mono; [apply (Htwo l r)|]. right_parts.
    + rewrite Nat.add_comm.
      eapply collected_any; [apply (collected_pattern q scope)|apply (collected_expression e scope)|done|]. cbn. intros table k H1 H2 (Hor & ? & ?).
      rewrite H2, H1; [done| |done| |done]; destruct Hor as [E|E]; rewrite ?E; lia.
    + eapply collected_mono; [apply (Htwo l r)|]. right_parts.
    + eapply collected_mono; [apply (collected_pattern q (graph_scope name))|]. right_parts.
    + eapply collected_mono; [apply (Hwith q e)|]. right_parts.
    + eapply collected_mono; [apply (Htwo l r)|]. right_parts.
    + by apply collected_nothing.
    + eapply collected_then; [apply (collected_pattern q scope)|apply (collected_list (Horders os))|done|]. right_parts.
    + eapply collected_mono; [apply (collected_pattern q scope)|]. right_parts.
    + eapply collected_mono; [apply (collected_pattern q scope)|]. right_parts.
    + eapply collected_mono; [apply (collected_pattern q scope)|]. right_parts.
    + eapply collected_mono; [apply (collected_pattern q scope)|]. right_parts.
    + eapply collected_then; [apply (collected_pattern q scope)|apply (collected_list (c:=fun va => collect_aggregate_bgps va.2 scope) (Haggregates vas))|done|].
      right_parts.
    + by apply collected_nothing.
  - assert (forall es, Forall (fun e => collected (collect_expression_bgps e scope) (expression_bgps e)
      (fun table k => aligned_expression e -> fill_expression table k e = placed_expression scope e)) es) as Hes.
    { induction es; constructor; [apply collected_expression|done]. }
    assert (forall l r, collected (fun st => collect_expression_bgps r scope (collect_expression_bgps l scope st)) (expression_bgps l + expression_bgps r)
      (fun table k => (aligned_expression l -> fill_expression table k l = placed_expression scope l) /\
        (aligned_expression r -> fill_expression table (k + expression_bgps l) r = placed_expression scope r))) as Htwo.
    { intros l r. eapply collected_then; [apply (collected_expression l scope)|apply (collected_expression r scope)|done|]. right_parts. }
    destruct e as [n|lit|v|op l r|l es|op e|q|v|c y n|es|f es]; cbn [collect_expression_bgps expression_bgps fill_expression aligned_expression placed_expression];
      try (by apply collected_nothing).
    + eapply collected_mono; [apply (Htwo l r)|]. right_parts.
    + eapply collected_then; [apply (collected_expression l scope)|apply (collected_list (Hes es))|done|]. right_parts.
    + eapply collected_mono; [apply (collected_expression e scope)|]. right_parts.
    + eapply collected_mono; [apply (collected_pattern q scope)|]. right_parts.
    + eapply collected_then; [apply (Htwo c y)|apply (collected_expression n scope)|done|]. right_parts.
    + eapply collected_mono; [apply (collected_list (Hes es))|]. right_parts.
    + eapply collected_mono; [apply (collected_list (Hes es))|]. right_parts.
  - destruct o as [e|e]; (eapply collected_mono; [apply (collected_expression e scope)|]); right_parts.
  - destruct a as [d|f e d]; [by apply collected_nothing|]. eapply collected_mono; [apply (collected_expression e scope)|]. right_parts.
Qed.

End Places.

(** C24: answers reach their patterns.  Let the answers be given in the order in
    which the classifier has numbered the patterns of the query.  For a query in
    which no filter has patterns both in its condition and below it, the
    substitution succeeds exactly when the answers are usable and fit the
    ceiling, and the result is the query in which every pattern is replaced by
    the table of the answer to this very pattern in its scope.  For other
    queries the answers are as many as the substitution asks for, but go to
    other places, see [filter_exists_swaps_answers]. *)
Theorem answers_reach_their_patterns (available max_expanded_rows : nat) (answer : DirectBgpScope -> list TriplePattern -> DirectBgpResult)
    (q q' : Query) :
  let answers := (fun leaf => answer (leaf_scope leaf) (leaf_patterns leaf)) <$> query_leaves q in
  (N.of_nat (length answers) < U64_LIMIT)%N -> (N.of_nat max_expanded_rows < U64_LIMIT)%N -> aligned (query_pattern q) ->
  substitute_exact_bgp_results available answers max_expanded_rows q = Ok q' <->
  0 < max_expanded_rows /\ Forall (usable available) answers /\ sum_list_with row_count answers <= max_expanded_rows /\
  q' = with_pattern q (placed (fun scope patterns => table_of (answer scope patterns)) ScopeDefault (query_pattern q)).
Proof.
  intros answers Hfit Hceil Hal. rewrite (substitution_exact available answers max_expanded_rows Hfit Hceil).
  set (place := fun scope patterns => table_of (answer scope patterns)).
  destruct (collected_pattern place (query_pattern q) ScopeDefault ([], false)) as (l & El & Hlen & Hfill).
  assert (query_leaves q = l) as Hl by done. unfold answers in *. rewrite Hl in *. rewrite length_fmap, Hlen.
  rewrite (Hfill (table_at ((fun leaf => answer (leaf_scope leaf) (leaf_patterns leaf)) <$> l)) 0); [naive_solver| |done].
  intros i leaf Hi. cbn [Nat.add]. unfold table_at. by rewrite list_lookup_fmap, Hi.
Qed.

End Algebra.

(** ** A query with a pattern below [EXISTS] *)

Definition text_algebra : Spargebra :=
  {| NamedNode := string; Literal := string; Variable_ := string; TriplePattern := nat; PathPattern := unit;
     Function_ := unit; AggregateFunction := unit; QueryDataset := unit; BaseIri := unit; variable_new := Some; named_node_new := Some;
     new_language_tagged_literal lexical _ := Some lexical; new_typed_literal lexical _ := lexical; node_as_str := id; variable_as_str := id |}.

Definition one_row (b : Bindings) (n : N) : DirectBgpResult :=
  bgp_result sample_exact_bindings sample_legality 3 n [{| solution_bindings := b; multiplicity := n |}].

Definition sample_query : Query (H:=text_algebra) :=
  Ask (H:=text_algebra) None
    (Filter (H:=text_algebra) (Exists_ (H:=text_algebra) (Bgp (H:=text_algebra) [1]))
      (Join (H:=text_algebra) (Bgp (H:=text_algebra) [2; 3]) (Service (H:=text_algebra) (NodeName (H:=text_algebra) "urn:s"%string) (Bgp (H:=text_algebra) [4]) true))) None.

Definition substituted_query : Query (H:=text_algebra) :=
  let cell iri := [Some (GroundNamedNode (H:=text_algebra) iri)] in
  Ask (H:=text_algebra) None
    (Filter (H:=text_algebra) (Exists_ (H:=text_algebra) (Values (H:=text_algebra) ["x"%string] [cell "urn:a"%string; cell "urn:a"%string]))
      (Join (H:=text_algebra) (Values (H:=text_algebra) ["x"%string] [cell "urn:b"%string])
        (Service (H:=text_algebra) (NodeName (H:=text_algebra) "urn:s"%string) (Bgp (H:=text_algebra) [4]) true))) None.

Lemma query_substitution_is_exact_witness :
  substitute_exact_bgp_results (H:=text_algebra) 4 [one_row likes_a 2; one_row likes_b 1] 3 sample_query = Ok substituted_query.
Proof.
  apply (query_substitution_is_exact (H:=text_algebra) 4 [one_row likes_a 2; one_row likes_b 1] 3 ltac:(vm_compute; reflexivity) ltac:(vm_compute; reflexivity)).
  split; [lia|]. split; [reflexivity|]. split; [|split; [cbn; lia|vm_compute; reflexivity]].
  repeat constructor; vm_compute; reflexivity.
Defined.

(** The pattern below the filter is numbered first and filled in last: the
    condition gets its answer. *)
Example filter_exists_swaps_answers :
  leaf_patterns (H:=text_algebra) <$> query_leaves (H:=text_algebra) sample_query = [[2; 3]; [1]] /\
  forall table, fill (H:=text_algebra) table 0 (query_pattern (H:=text_algebra) sample_query) =
    Filter (H:=text_algebra) (Exists_ (H:=text_algebra) (table 0))
      (Join (H:=text_algebra) (table 1) (Service (H:=text_algebra) (NodeName (H:=text_algebra) "urn:s"%string) (Bgp (H:=text_algebra) [4]) true)).
Proof. split; reflexivity. Qed.

Lemma answers_reach_their_patterns_witness :
  let q := Ask (H:=text_algebra) None (Minus (H:=text_algebra) (Bgp (H:=text_algebra) [1]) (Bgp (H:=text_algebra) [2])) None in
  let answer (_ : DirectBgpScope) patterns := if decide (patterns = [1]) then one_row likes_a 2 else one_row likes_b 1 in
  let cell iri := [Some (GroundNamedNode (H:=text_algebra) iri)] in
  substitute_exact_bgp_results (H:=text_algebra) 4 [one_row likes_a 2; one_row likes_b 1] 3 q =
  Ok (Ask (H:=text_algebra) None
    (Minus (H:=text_algebra) (Values (H:=text_algebra) ["x"%string] [cell "urn:a"%string; cell "urn:a"%string])
      (Values (H:=text_algebra) ["x"%string] [cell "urn:b"%string])) None).
Proof.
  intros q answer cell.
  apply (answers_reach_their_patterns (H:=text_algebra) 4 3 answer q); [vm_compute; reflexivity|vm_compute; reflexivity|split; exact I|].
  split; [lia|]. split; [|split; [apply Nat.leb_le; vm_compute; reflexivity|vm_compute; reflexivity]].
  repeat constructor; vm_compute; reflexivity.
Defined.
